(* ===== verification/_CoqProject ===== *)
-Q . S2P
Prelude.v
Wire.v
Chain.v
Backoff.v
Plan.v
WriterStore.v
WriteTarget.v
Settlement.v
Session.v
Mutation.v
Answers.v
WritePath.v
Writers.v
Courier.v
Throttle.v
Meters.v
Metering.v
Frames.v
Discovery.v
Links.v
Guard.v
Bans.v
Cursor.v
Pending.v
ClientState.v
ClientWriter.v
Reopen.v
Ledger.v
Carry.v
Grant.v
Upkeep.v
Uploads.v
Oplog.v
Catchup.v
Feed.v
Gate.v
Caller.v
Tokens.v
AuthStore.v
AuthContract.v
AuthService.v
AuthLife.v
AuthAgree.v
Percent.v
AuthHttp.v
AuthFlow.v
Share.v
Delivery.v
Outflow.v
Brackets.v
Tidy.v
Rekey.v
FileTables.v
FileCore.v
FileServer.v
FileClient.v
FileSafe.v
FileUse.v
FileTrip.v
QueryText.v
Subs.v
Rested.v
Watch.v
Served.v
Evicted.v
DemoClient.v
DemoGuard.v
DemoLog.v
DemoPeers.v
Demo.v
DemoAuth.v
DemoDelivery.v
DemoFiles.v
DemoWatch.v
