(* ===== verification/Prelude.v ===== *)
(** * A verification development for connetto's sync server, clients and peers

    connetto keeps an application's Postgres tables and its clients' local
    replicas in step. A client uploads its local changes as numbered entries of
    a writer, the server applies each at most once and answers from a durable
    record, and changes flow back to the clients from a log of the database's
    change feed. Devices near each other also link directly and carry one
    another's entries. Files beside the tables go through a file server of their own.
    This development models the server's write half, the delivery half of its
    sessions, the throttles, the abuse guard and the bans in front of it, the
    reconnect log with the cursors and the change feed behind it
    (crates/connetto-server), the frames both speak (crates/connetto-core), the
    peers' frames, discovery and table of links (crates/connetto-peer), the client's
    half of the write protocol, its subscriptions and live queries, and its access
    gate (crates/connetto-client),
    authentication: logins, their stores and endpoints, signed tokens, the callers
    they resolve to and the share keys callers mint (crates/connetto-server, authn/
    and capability.rs), and files: their chunks and stores
    (crates/connetto-file-core), the file server (crates/connetto-file-server) and a
    client's transfers (crates/connetto-file-client).

    ** The program's parts and the files that model them

    - [Prelude]: results and the [?] operator, machine integers kept as [Z] with
      their saturation and conversion written out, byte strings and big-endian
      fields, the shared tactics and hints.
    - [Wire]: the messages of the write path (connetto-core/src/messages:
      writer.rs, mutation.rs, bulk.rs, error.rs, registration.rs).
    - [Chain]: the hash chain over a writer's entries and the messages device
      keys sign (connetto-core/src/chain.rs). The digest is a parameter, class
      [Sha256], of which only the length of its output is assumed.
    - [Backoff]: the retry policy and episode (connetto-core/src/backoff.rs).
    - [Plan]: turning an uploaded diffset into planned ops (materializer.rs
      [plan_write] and its helpers, pk.rs, reexec.rs). Decompression, the
      diffset parser and the schema catalog are parameters, class [Catalog].
    - [WriterStore]: the tables [_connetto_writers] and [_connetto_settled] and
      one definition per statement of writer_schema.rs. Class [Deployment] holds
      what the application brings: its user ids, its tables, how a diffset
      applies to them, and the JSON text of an outcome with its round trip.
    - [WriteTarget]: the transactions of write_target.rs, [commit] and
      [settle_refusal] with every branch, and the single statements.
    - [Settlement]: the invariant [db_ok] of those tables, the order [db_le] in
      which they only move forward, and the theorems on transactions.
    - [Session]: what a handler of session.rs runs in: the connection's state,
      the frames sent, the environment, and the monad of its effects. Class
      [Services] holds the policy, the enrolment store, signature verification
      and the configuration.
    - [Mutation]: [handle_mutation] of session.rs and everything it calls, from
      admission to the answer.
    - [Answers]: the Hoare-style reasoning for handlers ([tri]) and the theorem
      that every answer states the record.
    - [WritePath]: retries, sequences past the frontier, authorization, abuse
      signals.
    - [Writers]: writer admission at the handshake, device binding, retirement,
      the sweep, and a whole connection as a sequence of frames.
    - [Courier]: [courier_deliver] of session.rs, entries a peer carries.
    - [Throttle]: throttle.rs, windows, token buckets, the keyed store with its
      sweep and eviction, and the three throttles built from it.
    - [Meters]: the store's invariant, the interface [Meter] between a window
      and the store with its laws, and the refinement they give.
    - [Metering]: what callers get from the throttles.
    - [Frames]: connetto-core's codec.rs and transport.rs, module [Codec] and
      [WebSocket], and connetto-peer's frame.rs and exchange.rs, modules [Peer]
      and [Chunks]. The message encoding is class [MsgPack] with its round trip.
    - [Discovery]: connetto-peer's dial policy (policy.rs, module [Policy]), its
      histories ([History]), advertisements and beacons (discovery.rs,
      fingerprint.rs, beacon.rs, module [Advert]) and the runner around the policy
      (discovery.rs, module [Driver]).
    - [Links]: the node's table of links, kept revocation lists, renewals and
      close reports (node.rs, link.rs), as a step relation over the node's
      threads, and the two ends of a pair of peers. Class [X509] holds what the
      code reads of certificates.
    - [Guard]: thresholds and tallies of abuse signals (abuse.rs, guard.rs), and
      the specification they refine.
    - [Bans]: the ban table and the tasks that impose and lift bans (ban.rs and
      guard.rs [enforce], [lift_ban], [banned]).
    - [Cursor]: read fences (fence.rs), stamped cursors and timeline histories
      (timeline.rs), and [Resume::of] of session.rs. Classes [PgPosition] and
      [PgFence] hold the commit positions and fences of the subql crate.
    - [Oplog]: the reconnect log (oplog.rs) in memory and in Postgres, behind the
      interface [Oplog] with its laws [OplogLaws], which both instances prove.
    - [Catchup]: what a resuming subscription replays ([catchup_entries] and
      [catch_up_row] of session.rs), against the interface.
    - [Feed]: the change feed, its checks before each stream ([reconcile_history],
      [reconcile_stream], [check_before_stream] of session.rs) and the moves of
      the database, the slot and the process around it, against the interface.
    - [Pending]: the client's bookkeeping tables, the statements on them and what a
      restart loads (connetto-client/src/lib.rs).
    - [ClientState]: the state of a [ConnettoConnection] that the write protocol
      touches, and the monad its methods run in. Class [Changes] holds what the
      client uses of SQLite's session extension, the diffset format and zstd.
    - [ClientWriter]: its methods on the write path: choosing and presenting a
      writer, queueing and sending, the server's answers, binds and retirements,
      carrying queues between writers (lib.rs, enrolment/mod.rs).
    - [Reopen]: the queues a restart loads are those the tables describe.
    - [Ledger], [Carry], [Grant], [Upkeep]: the invariant of tables and queues, a
      small logic for methods that may fail part of the way ([upholds]), the
      elementary moves (placing entries, dropping writers, rekeying, settling,
      raising, retiring), and that every method keeps the invariant.
    - [Uploads]: the client as a step relation with failures and restarts.
    - [Gate]: the client's access gate (connetto-client/src/away.rs).
    - [Caller]: who is calling (connetto-core/src/auth.rs), the fold of a
      handshake's grants into a caller ([resolve_grants] of session.rs) and its
      rendering as text (capability.rs).
    - [Tokens]: signed grants and resume blobs (authn/token.rs). Class [Jwt] holds
      the signing library, with [key_pair] what it documents of its checks; class
      [Serde] the JSON of the deployment's ids.
    - [AuthStore]: the trait of authn/store.rs and its two stores, in memory and in
      Postgres with the statements of authn/schema.rs and their failures.
    - [AuthContract]: what a store promises, as a book of sessions and one function
      per operation; class [Lawful] states that a store keeps it, and both stores
      are instances.
    - [AuthService]: the service (authn/service.rs), the audit record (audit.rs),
      the provider registry (authn/provider.rs), the handshake authority.
    - [AuthLife], [AuthAgree]: histories of the service on any lawful store, and on
      both stores side by side.
    - [Percent]: percent encoding (connetto-core/src/percent.rs) and the client's
      reading of a redirect (connetto-client/src/auth.rs).
    - [AuthHttp], [AuthFlow]: the login endpoints (authn/http.rs) with their bounded
      tables (authn/provider.rs), and histories of requests. Class [Texts] holds the
      URL parser, base64 and JSON text.
    - [Share]: minting share keys (capability.rs).
    - [Delivery]: how a session serves its subscriptions (session.rs): snapshots in
      pages, catchups from the log, replays of what a snapshot missed, membership
      mirrors, computed answers, live patches behind the client's credits, changes
      of share keys, refusals and the teardown. Class [Outside] is the interface to
      the database reads, the engine, the policy, the guard and the other tasks;
      class [Wares] what a deployment brings.
    - [Outflow]: Hoare triples for the handlers ([hoare], [keeps]), the classes
      [Orderly], [Aside] and [Bystander] that say which steps an invariant does not
      see, and flow control.
    - [Brackets], [Tidy], [Rekey]: the order of a snapshot's frames, what a session
      leaves behind, and changes of share keys.
    - [FileTables]: the file server's tables, one definition per statement of its
      schema.rs, and the chunk store (store/). Class [Blake3] is the digest, class
      [ContentDeployment] the two functions a deployment installs.
    - [FileCore]: cutting a file into chunks and putting it together again
      (connetto-file-core), against the interface [ChunkStore] with its laws
      [StoreLaws]; the store in memory and the encrypting decorator are instances.
      Classes [Fastcdc], [Aead] and [Zstd] hold the chunker, the cipher and the
      compressor.
    - [FileServer]: tickets, callers, quotas and ceilings, declaring, storing and
      committing an upload, collection, the boot pass and downloads (ticket.rs,
      caller.rs, quotas.rs, upload.rs, db.rs, needed.rs, sweep.rs, reconcile.rs,
      serve.rs), and the moves their interleavings are made of. Class [TicketCodec]
      holds base64, Ed25519 and the payload's encoding.
    - [FileClient]: a client's upload and download (connetto-file-client/src:
      upload.rs, http.rs, error.rs) over any transport [ContentHttp], and the signer
      of the addresses (ticket.rs).
    - [FileSafe]: the invariant of tables and store, kept by every move; [FileUse]:
      downloads, possession, quotas and what a sweep collects.
    - [FileTrip]: the server behind its routes (router.rs) as the client's transport,
      and the two composed.
    - [QueryText]: a subscription's query and values (connetto-core:
      messages/subscription.rs, sql.rs; connetto-client/src/live.rs): values inlined
      as literals, the shape of a query, the rows it covers. Class [Sqlparser] is the
      SQL parser, class [FloatText] the decimal text of a float.
    - [Subs]: the tables of declared subscriptions with every statement on them
      (subscriptions.rs), and the plain book they stand for; [Rested]: the computed
      values at rest (aggregates.rs).
    - [Watch]: watches, pins and drops, the wire subscriptions handles share, what a
      connection declares, what a restart takes up, and the eviction of replica rows
      (live.rs, and lib.rs from [subscribe_spec_with_grace] to [unsubscribe] and from
      [clear_aggregate_resting] to [tidy]). Class [Store] is what it uses of SQLite and
      of changesets.
    - [Served]: a logic of weakest preconditions for those methods, the invariant of
      handles, wire subscriptions and records, and the histories it holds in;
      [Evicted]: what an eviction removes.
    - [DemoClient], [DemoGuard], [DemoLog], [DemoPeers], [Demo], [DemoAuth],
      [DemoDelivery], [DemoFiles], [DemoWatch]: concrete instances of every class, the theorems applied to
      inputs that evaluate, and histories that show where documented promises end.

    ** How the code is modelled

    Integers are [Z] at their widths: conversions ([try_from(..).unwrap_or(..)]),
    saturating operations and wrapping counters are written out. Options,
    results and early returns follow the source; the session monad threads the
    world and an error that ends the connection.

    A Postgres transaction is atomic: [run_tx] runs a body on the tables and
    keeps its effect or discards it. What can go wrong is data: a fault before
    the transaction, a failure that rolls it back, or an ambiguous failure, a
    commit whose acknowledgement is lost. Each database access of a handler
    first lets any list of other sessions' transactions run, so every theorem on
    a handler quantifies over all interleavings at the granularity of
    transactions, over failures at each of them, and over lost links. The field
    [db_log] is a ghost: it records the applied uploads, and no definition reads
    it. Locking inside a transaction, gaps in the identity sequence and the SQL
    text are not modelled; the outcome stored as JSON is a string.

    The retry loops recurse on fuel, [retry_fuel] = budget / 100 ms + 2: the
    policy's shortest wait is 100 ms, so the budget runs out first, and
    [retries_end] proves that more fuel changes nothing. The eviction loop of the
    throttle's store recurses on the size of the touch order, one entry of which
    each turn removes; [evict_spec] proves that it then ends below the cap.
    The throttles' mutex makes a history of calls a sequence; instants and
    durations are nanoseconds. The receive loops of [Frames] recurse on what is
    left of the stream, and [chunks_fuel] on the slice's length.

    The node's threads ([Links]), the ban tasks ([Bans]) and the change feed
    ([Feed]) are step relations whose steps are the stretches the code runs under
    one lock or one statement, so their theorems hold for every interleaving of
    those. A ban's statement may also take effect with its answer lost, which is never
    reported ([unheard_ban_unreported]). In [Feed] every step carries its cause, and
    the theorem is about the histories [orderly] admits: a row the source sends again
    is one the log still retains (a slot does not fall back past the retention
    window), the slot is not lost between the log's first row and its first recorded
    commit, and a promotion keeps the transactions the log was given: without the
    last two the hole is real ([unrecorded_gap_undeclared],
    [promotion_keeps_lost_rows]). In [Catchup] the changes a
    snapshot missed are assumed retained, since the decision does not check it
    ([missed_change_lost]). The two logs are compared on commit positions whose
    parts fit a BIGINT; a failed statement is an [Err] that leaves the table as it
    was, and the two statements of the Postgres log's prune run as one.

    A client method threads the connection and may end in an error that keeps what
    was changed before it; whether each database access and each send succeeds is
    read from a list the state carries ([faults]), so the theorems hold for every
    pattern of failures. A run ([run_step] of [Uploads]) interleaves pushes,
    handshakes, frames, timers, certificate changes and restarts in any order. It
    assumes what [admits] says: the server issues a number once, answers only on a
    connection it has not closed, and refuses a bind only to a connection it does
    not hold bound to a device; and that a frame whose handling failed ends the
    pump ([is_disconnect]), after which only writes are queued until a restart.
    The ledger, the uploads, the issued numbers and [peer_open] are ghosts.

    An authentication call takes what it draws from the outside: its instants, the
    fresh session id and secret, and the fate of each database step, a failure
    before or after it took effect included ([Fates]). A history is any list of
    calls in which session ids are drawn fresh; calls of one service run one after
    another, each statement of a call being one step of it. Hashing is the class
    [Sha256]: where a theorem needs two secrets to hash apart it says so. What a
    Postgres interval adds for a span is the parameter [interval]; [stores_agree]
    assumes it exact on whole seconds ([whole_secs]) and uses no others. The
    endpoints' maps are iterated in an arbitrary order, an argument.

    In [Delivery] every await of a handler lets the other tasks put any frames they
    may on the session's channel, given the routes it then holds ([meanwhile]; under
    the dispatch gate [meanwhile_gated]); [Orderly] says that they put only what the
    feed and the manager send, and [GateShut] that the gate keeps the feed out. A
    read of the log retries on fuel [read_fuel] = budget / 100 ms + 2, which
    [log_read_ends] proves enough; the two retries without a bound of their own, a
    resnapshot's and the policy's, look at [patience] attempts, any number.
    [snapshots_bracketed] is about clients that reuse a label only when nothing of its
    earlier use is queued or still to be read ([careful]); [queued_frames_outlive]
    shows why.

    The file server's handlers are made of [Move]s: one per transaction, which
    commits, rolls back or loses its answer ([TxFate]) while what it wrote to the
    store stays, and one per access of the store by a sweep or a boot pass. A PUT and a commit hold
    row locks over their access of the store, so each is one move; the quota is read
    under an advisory lock, so it belongs to the commit's. The boot pass is one move
    per statement, transaction and access of the store ([reconcile_step]); a failure
    of any ends it where it is. Sweeps and boot passes in flight are data ([sweeps],
    [boots]) and any number may overlap. The safety theorem asks one thing ([solo]):
    when a sweep lists what it will delete, nothing on the list is still being
    deleted by another sweep or by a boot pass; [sweeps_overlap_lose] and
    [sweep_takes_claim] show why, and [claim_spares_upload] what a boot pass's claim
    is for. Instants are whole seconds, and [astray], the chunks the store itself
    lost, is a ghost. [file_travels] is about a server nothing else uses meanwhile,
    with no quota set; what the libraries between the two ends document is the
    record [Setting]. The loops that read a file recurse on what its reader still
    holds ([left_over]), and [read_prefix_spec] proves it enough.

    In [Watch] as in [ClientState] each statement, each read and each send asks
    [faults]. The conditions of a query are text, and a deletion keeps the rows on which
    its condition is not false; the reads whose order the source leaves to the database
    come by id. A history of the live layer ([live_step]) is any list of whole calls,
    lost connections and restarts. It assumes that no statement or send fails in the
    middle of a call, and that no connection comes up when the record of a wire
    subscription, held or let go of, has run out ([all_wanted]); what it concludes of
    the server is that the subscription was declared on the connection and not
    withdrawn ([declared_on]). Without either assumption a handle can be
    left with nothing behind it ([failed_unsubscribe_strands],
    [expired_offline_strands], [unpin_strands_held]). [eviction_spares_wanted] holds
    for every pattern of failures.

    ** What the theorems show

    - Settlement: [exactly_once], [commit_spec], [covered_never_reapplied],
      [writers_monotone], [commit_applies_then_redelivers]. Whatever runs and
      fails, the tables are the result of applying each sequence at most once.
    - The write path: [answers_are_recorded], [applied_only_if_allowed],
      [past_frontier_answer], [retries_end], [plan_write_fail_closed].
    - Sessions: [session_keeps_invariant], [bind_requires_key],
      [number_admits_own], [sweep_prunes_dead_only].
    - Courier and chain: [courier_reports_record], [courier_range_vouched],
      [chain_head_commits], [courier_range_message_inj],
      [signed_messages_separated].
    - Throttles: [handle_rate_bounded], [take_isolated],
      [mutation_bytes_bounded]; also [counters_consistent],
      [take_evicts_least_recent], [take_wait_exact], [allow_wait_sufficient],
      [refresh_gate_exact], [mutation_limit_exact]; [backoff_exact] and
      [episode_bounded] for the backoff.
    - Guard and bans: [guard_refines] (the tallies are the specification's
      running counts), [crossings_earned], [build_exact], [bans_accounted],
      [ban_holds].
    - Resuming: [no_silent_hole] (no client is caught up across changes the log
      never received), [catchup_replays_owed], [resume_across_promotion],
      [cursor_roundtrip], [cursor_order], [xid_ranges_exact].
    - Frames: [framed_roundtrip], [websocket_delivers], [reader_refines_stream],
      [chunk_stream_roundtrip].
    - Peers: [dials_bounded], [retries_armed], [due_oldest_first],
      [find_evicts_oldest], [retries_back_off], [advert_roundtrip],
      [link_reports_balanced], [revoked_links_told], [kept_lists_newest],
      [duplicate_rule_agrees].
    - Client: [uploads_identified] (a write keeps one identity however it is resent
      or carried), [push_allots_fresh], [writes_kept] (none is lost before its
      answer), [restart_restores], [answered_settled].
    - Subscriptions: [watches_served] (what is behind a handle stays declared and on
      record), [tables_refine_book] (histories that rename no pin),
      [eviction_spares_wanted] (a row somebody wants is not evicted, and no other
      stays), [answers_outlive_subscriptions] and [cap_evicts_oldest] (values at
      rest), [inlined_values_sealed].
    - Access gate: [gate_stays_locked], [recheck_exact].
    - Logins: [used_token_ends_session], [ended_for_good], [session_lifetime_bounded],
      [latest_token_renews], [ends_reported], all on any store that keeps the
      contract; [stores_agree] for the two stores.
    - Login endpoints: [code_bound_to_login], [browser_contract],
      [login_tables_bounded], [callback_reads_back].
    - Tokens, callers and shares: [login_grant_window], [resume_blob_window],
      [grants_any_order], [storage_key_exact], [share_certified].
    - Delivery: [snapshots_bracketed] (a snapshot's frames arrive whole and in
      order), [credit_window] and [flush_in_order] (flow control),
      [session_leaves_nothing] (no route or registration outlives its session),
      [keys_swapped] (nothing filtered under old keys after a resend),
      [log_read_ends].
    - Files: [committed_files_whole] (what is committed stays readable, byte for
      byte), [commit_proves_possession] (knowing a file's chunks does not obtain it),
      [download_exact], [sweep_collects], [quota_kept]; [process_reassembles] for the
      chunks a client cuts, and [file_travels], client to server to client.
    - Behaviour at odds with its documentation:
      [denial_counted_only_from_record], [number_admits_device_writer],
      [retire_number_closes_none], [first_key_outlives_newer],
      [hammering_starves], [missed_change_lost], [unrecorded_gap_undeclared],
      [promotion_keeps_lost_rows], [watermark_falls_in_postgres],
      [read_frame_cut_header], [late_outcome_strands], [plus_sign_accepted],
      [restart_forgets_names], [close_report_overtaken], [renewal_outruns_list],
      [list_misses_registering_link], [arm_is_silent], [held_bind_stalls],
      [failed_reset_queues_twice], [carry_owes_nothing], [third_login_wins],
      [ambiguous_keeps_first_run], [revoke_every_unreported], [replay_survives],
      [logout_races_renewal], [default_ttl_above_ceiling], [logout_may_refuse],
      [queued_frames_outlive], [old_patch_after_snapshot], [label_reuse_leaks],
      [failed_resume_leaks], [refused_term_opens_membership], [stale_refusal],
      [retired_registration_returns], [mirror_opened_once], [computed_change_lost],
      [sweeps_overlap_lose], [sweep_takes_claim], [dedup_escapes_reconcile], [commit_without_bytes],
      [undeclared_commit_answers], [lost_twice_tallied], [expired_offline_strands],
      [unpin_strands_held], [failed_unsubscribe_strands], [unpin_keeps_streaming],
      [second_name_takes_pin], [infinite_value_stops_drain], [refused_watch_stays],
      [declared_not_in_order], [unheard_ban_unreported].

    The invariant behind the settlement theorems ([db_ok]): the application's
    tables are the replay of the log, no sequence occurs in it twice, every
    settled or applied sequence is covered by its writer's frontier, and an
    applied sequence that still has its row is recorded as applied. Handlers
    keep it together with what the connection holds of its writer row and with
    the registry of live sessions.

    ** What is not modelled

    The fan-out of changes to routes, the engine that matches them to
    subscriptions, row visibility and the SQL of reads (a computed route that the
    feed itself retires stays in the model's table); the policy services and
    identity providers (their answers are arguments), key generation, and the
    client's login flow around its redirect; certificate issuance, verification and
    attestation; the client's share keys, what its handles display and when they
    refresh, the clearing of its rows on a resync, the
    capture of its changes and their application to its replica; the file
    server's preflight and crossing warnings, and the client's transfer queues and
    staging; TLS and the platforms' radios; reading the
    timeline history from Postgres, the slot monitor and the boot epoch; and the
    builders. A session's frames are handled in two halves, those of the write path
    in [Writers] and those of delivery in [Delivery], which share no state but the
    caller; content tickets and enrolment challenges are in neither. The guard's
    meters reach the write path as answers of the environment, so its theorems hold
    whatever the throttles decide. *)

From Stdlib Require Import ZArith Lia.
From stdpp Require Import base list numbers option strings gmap.

#[global] Set Default Goal Selector "!".

Declare Scope connetto_scope.
Delimit Scope connetto_scope with connetto.

(** ** Results: Rust's [Result<T, E>] *)

Inductive Result (A E : Type) : Type :=
| Ok (a : A)
| Err (e : E).
Arguments Ok {A E} _.
Arguments Err {A E} _.

#[export] Instance Result_eq_dec {A E} `{EqDecision A, EqDecision E} :
  EqDecision (Result A E).
Proof. solve_decision. Defined.

(** The [?] operator, and [map_err] followed by it. *)
Definition rbind {A B E} (r : Result A E) (k : A -> Result B E) : Result B E :=
  match r with Ok a => k a | Err e => Err e end.

Definition map_err {A E F} (f : E -> F) (r : Result A E) : Result A F :=
  match r with Ok a => Ok a | Err e => Err (f e) end.

Definition ok_or {A E} (o : option A) (e : E) : Result A E :=
  match o with Some a => Ok a | None => Err e end.

Definition is_ok {A E} (r : Result A E) : bool :=
  match r with Ok _ => true | Err _ => false end.

Notation "x <-? r ;; k" := (rbind r (fun x => k))
  (at level 20, r at level 99, k at level 200) : connetto_scope.
Notation "' p <-? r ;; k" := (rbind r (fun x => match x with p => k end))
  (at level 20, p pattern, r at level 99, k at level 200) : connetto_scope.
Open Scope connetto_scope.

(** [?] inside a loop that pushes: the first error wins. *)
Fixpoint try_map {A B E} (f : A -> Result B E) (l : list A) : Result (list B) E :=
  match l with
  | [] => Ok []
  | x :: l' => y <-? f x ;; ys <-? try_map f l' ;; Ok (y :: ys)
  end.

Lemma rbind_Ok {A B E} (r : Result A E) (k : A -> Result B E) b :
  rbind r k = Ok b <-> exists a, r = Ok a /\ k a = Ok b.
Proof.
  destruct r as [a|e]; simpl; split; [eauto|by intros (? & [= ->] & ?)|done|].
  by intros (? & ? & _).
Qed.

Lemma ok_or_Ok {A E} (o : option A) (e : E) a : ok_or o e = Ok a <-> o = Some a.
Proof. destruct o; simpl; split; congruence. Qed.

Lemma map_err_Ok {A E F} (f : E -> F) (r : Result A E) a : map_err f r = Ok a <-> r = Ok a.
Proof. destruct r; simpl; split; congruence. Qed.

Lemma try_map_Ok {A B E} (f : A -> Result B E) l l' :
  try_map f l = Ok l' <-> Forall2 (fun x y => f x = Ok y) l l'.
Proof.
  revert l'. induction l as [|x l IH]; intros l'; simpl.
  - split; [intros [= <-]; constructor | by intros ->%Forall2_nil_inv_l].
  - rewrite rbind_Ok. setoid_rewrite rbind_Ok. split.
    + intros (y & Hy & ys & Hys & [= <-]). constructor; [done|by apply IH].
    + intros (y & ys & Hy & Hys & ->)%Forall2_cons_inv_l. exists y. split; [done|].
      exists ys. by rewrite IH.
Qed.

(** ** Machine integers, kept as [Z] with their widths written out *)

Definition u8_max : Z := 255.
Definition u32_max : Z := 4294967295.
Definition u64_max : Z := 18446744073709551615.
Definition u128_max : Z := 340282366920938463463374607431768211455.
Definition i64_max : Z := 9223372036854775807.

Definition in_u8 (z : Z) : Prop := (0 <= z <= u8_max)%Z.
Definition in_u32 (z : Z) : Prop := (0 <= z <= u32_max)%Z.
Definition in_u64 (z : Z) : Prop := (0 <= z <= u64_max)%Z.

Definition wrap_u64 (z : Z) : Z := (z mod 18446744073709551616)%Z.
Definition wrap_u32 (z : Z) : Z := (z mod 4294967296)%Z.

(** [saturating_add], [saturating_sub] and [saturating_mul] at a ceiling. *)
Definition sat_add (m a b : Z) : Z := Z.min m (a + b).
Definition sat_sub (a b : Z) : Z := Z.max 0 (a - b).
Definition sat_mul (m a b : Z) : Z := Z.min m (a * b).

(** [u64::try_from(x)], [i64::try_from(x)] and their like. *)
Definition try_into (m x : Z) : option Z :=
  if decide (0 <= x <= m)%Z then Some x else None.

(** [u64::try_from(frontier).unwrap_or(0)] on a stored [i64]. *)
Definition u64_or_zero (x : Z) : Z := default 0%Z (try_into u64_max x).

(** [i64::try_from(n).unwrap_or(i64::MAX)] on a [u64]. *)
Definition i64_or_max (x : Z) : Z := default i64_max (try_into i64_max x).

Lemma try_into_Some m x y : try_into m x = Some y <-> (x = y /\ 0 <= x <= m)%Z.
Proof.
  unfold try_into. case_decide; split; [by intros [= <-] | by intros [-> _] | done |].
  intros [-> ?]. lia.
Qed.

Lemma u64_or_zero_id x : (0 <= x <= u64_max)%Z -> u64_or_zero x = x.
Proof. intros H. unfold u64_or_zero, try_into. by rewrite decide_True. Qed.

Lemma i64_or_max_id x : (0 <= x <= i64_max)%Z -> i64_or_max x = x.
Proof. intros H. unfold i64_or_max, try_into. by rewrite decide_True. Qed.

Lemma wrap_u64_range z : in_u64 (wrap_u64 z).
Proof.
  unfold in_u64, wrap_u64, u64_max.
  pose proof (Z.mod_pos_bound z 18446744073709551616). lia.
Qed.

Lemma wrap_u64_small z : in_u64 z -> wrap_u64 z = z.
Proof. unfold in_u64, wrap_u64, u64_max. intros. apply Z.mod_small. lia. Qed.

(** ** Bytes: [u8] values as [Z], byte strings as lists of them *)

Abbreviation bytes := (list Z).

Definition wf_bytes (l : bytes) : Prop := Forall in_u8 l.

(** [to_be_bytes] of an [n]-byte unsigned integer. *)
Fixpoint be_bytes (n : nat) (z : Z) : bytes :=
  match n with
  | O => []
  | S m => (Z.shiftr z (8 * Z.of_nat m) mod 256)%Z :: be_bytes m z
  end.

(** [from_be_bytes]. *)
Definition from_be (l : bytes) : Z :=
  fold_left (fun acc b => (acc * 256 + b)%Z) l 0%Z.

(** The order of Rust byte slices, lexicographic. *)
Fixpoint bytes_cmp (a b : bytes) : comparison :=
  match a, b with
  | [], [] => Eq
  | [], _ :: _ => Lt
  | _ :: _, [] => Gt
  | x :: a', y :: b' =>
      match (x ?= y)%Z with Eq => bytes_cmp a' b' | c => c end
  end.

Lemma length_be_bytes n z : length (be_bytes n z) = n.
Proof. induction n as [|n IH]; simpl; congruence. Qed.

Lemma wf_be_bytes n z : wf_bytes (be_bytes n z).
Proof.
  induction n as [|n IH]; simpl; constructor; [|done].
  unfold in_u8, u8_max. pose proof (Z.mod_pos_bound (Z.shiftr z (8 * Z.of_nat n)) 256). lia.
Qed.

Lemma fold_be_acc l acc :
  fold_left (fun acc b => (acc * 256 + b)%Z) l acc
  = (acc * 256 ^ Z.of_nat (length l) + from_be l)%Z.
Proof.
  unfold from_be. revert acc. induction l as [|b l IH]; intros acc; cbn [fold_left length].
  - simpl. lia.
  - rewrite (IH (acc * 256 + b)%Z), (IH (0 * 256 + b)%Z).
    rewrite Nat2Z.inj_succ, Z.pow_succ_r by lia. ring.
Qed.

Lemma from_be_cons b l :
  from_be (b :: l) = (b * 256 ^ Z.of_nat (length l) + from_be l)%Z.
Proof. unfold from_be at 1. cbn [fold_left]. rewrite fold_be_acc. lia. Qed.

Lemma from_be_bytes n z : from_be (be_bytes n z) = (z mod 256 ^ Z.of_nat n)%Z.
Proof.
  induction n as [|n IH]; [simpl; by rewrite Z.mod_1_r|].
  cbn [be_bytes]. rewrite from_be_cons, IH, length_be_bytes.
  rewrite Nat2Z.inj_succ, Z.pow_succ_r by lia.
  rewrite Z.shiftr_div_pow2 by lia.
  replace (2 ^ (8 * Z.of_nat n))%Z with (256 ^ Z.of_nat n)%Z
    by (rewrite Z.pow_mul_r by lia; done).
  rewrite (Z.mul_comm 256), Z.rem_mul_r by (try apply Z.pow_nonzero; lia). lia.
Qed.

Lemma from_be_range l :
  wf_bytes l -> (0 <= from_be l < 256 ^ Z.of_nat (length l))%Z.
Proof.
  induction 1 as [|b l Hb Hl IH]; [unfold from_be; simpl; lia|].
  rewrite from_be_cons. simpl length. rewrite Nat2Z.inj_succ, Z.pow_succ_r by lia.
  unfold in_u8, u8_max in Hb. nia.
Qed.

Lemma be_from_be l : wf_bytes l -> be_bytes (length l) (from_be l) = l.
Proof.
  induction 1 as [|b l Hb Hl IH]; [done|].
  pose proof (from_be_range l Hl) as Hr. rewrite from_be_cons.
  set (N := (256 ^ Z.of_nat (length l))%Z) in *. cbn [length be_bytes].
  assert (HN : (2 ^ (8 * Z.of_nat (length l)) = N)%Z)
    by (unfold N; rewrite Z.pow_mul_r by lia; done).
  unfold in_u8, u8_max in Hb. f_equal.
  - rewrite Z.shiftr_div_pow2, HN by lia. rewrite Z.div_add_l by lia.
    rewrite (Z.div_small (from_be l)) by lia. rewrite Z.mod_small by lia. lia.
  - etrans; [|exact IH]. clear IH Hl Hb.
    enough (forall m z, (m <= length l)%nat ->
      be_bytes m (b * N + z) = be_bytes m z) as E by (by apply E).
    induction m as [|m IHm]; intros z Hm; [done|]. cbn [be_bytes].
    rewrite IHm by lia. f_equal.
    rewrite !Z.shiftr_div_pow2 by lia.
    replace N with (2 ^ (8 * Z.of_nat (length l - S m)) * 256 * 2 ^ (8 * Z.of_nat m))%Z.
    2:{ rewrite <- HN. replace 256%Z with (2 ^ 8)%Z by done.
        rewrite <- !Z.pow_add_r by lia. f_equal. lia. }
    rewrite Z.mul_assoc, Z.div_add_l by (apply Z.pow_nonzero; lia).
    rewrite Z.mul_assoc, Z.add_comm, Z.mod_add by lia. done.
Qed.

(** Fixed-width integers are recovered from, and separated by, their bytes. *)
Lemma be_bytes_inj n a b :
  (0 <= a < 256 ^ Z.of_nat n)%Z -> (0 <= b < 256 ^ Z.of_nat n)%Z ->
  be_bytes n a = be_bytes n b -> a = b.
Proof.
  intros Ha Hb E. apply (f_equal from_be) in E.
  rewrite !from_be_bytes in E. rewrite !Z.mod_small in E by lia. done.
Qed.

Lemma be8_inj a b : in_u64 a -> in_u64 b -> be_bytes 8 a = be_bytes 8 b -> a = b.
Proof.
  unfold in_u64, u64_max. intros ???. eapply be_bytes_inj; [| |done]; simpl; lia.
Qed.

Lemma from_be8 a : in_u64 a -> from_be (be_bytes 8 a) = a.
Proof.
  unfold in_u64, u64_max. intros. rewrite from_be_bytes. apply Z.mod_small. simpl. lia.
Qed.

Lemma from_be4 a : in_u32 a -> from_be (be_bytes 4 a) = a.
Proof.
  unfold in_u32, u32_max. intros. rewrite from_be_bytes. apply Z.mod_small. simpl. lia.
Qed.

#[global] Opaque be_bytes.

(** The bytes of a string literal, [b"..."]. *)
Fixpoint bytes_of_string (s : string) : bytes :=
  match s with
  | EmptyString => []
  | String c s' => Z.of_N (Ascii.N_of_ascii c) :: bytes_of_string s'
  end.

(** ** The order of byte strings *)

Lemma bytes_cmp_antisym a b : bytes_cmp b a = CompOpp (bytes_cmp a b).
Proof.
  revert b. induction a as [|x a IH]; intros [|y b]; simpl; try done.
  rewrite Z.compare_antisym. destruct (x ?= y)%Z; simpl; [apply IH|done|done].
Qed.

Lemma bytes_cmp_Eq a b : bytes_cmp a b = Eq -> a = b.
Proof.
  revert b. induction a as [|x a IH]; intros [|y b]; simpl; try done.
  destruct (Z.compare_spec x y) as [->| |]; [|done|done]. intros H. f_equal. by apply IH.
Qed.

Lemma bytes_cmp_refl a : bytes_cmp a a = Eq.
Proof. induction a as [|x a IH]; [done|]. simpl. by rewrite Z.compare_refl. Qed.

Lemma bytes_cmp_Lt_trans a b c : bytes_cmp a b = Lt -> bytes_cmp b c = Lt -> bytes_cmp a c = Lt.
Proof.
  revert b c. induction a as [|x a IH]; intros [|y b] [|z c]; simpl; try done.
  destruct (Z.compare_spec x y) as [->|Hxy|]; [| |done].
  - destruct (y ?= z)%Z; [apply IH|done|done].
  - destruct (Z.compare_spec y z) as [<-|Hyz|]; [| |done]; intros _ _.
    + by rewrite (proj2 (Z.compare_lt_iff x y)).
    + by rewrite (proj2 (Z.compare_lt_iff x z)) by lia.
Qed.

(** The order as a relation. *)
Definition bytes_le (a b : bytes) : Prop := bytes_cmp a b <> Gt.
#[export] Instance bytes_le_dec : RelDecision bytes_le.
Proof. intros a b. unfold bytes_le. apply _. Defined.

#[export] Instance bytes_le_antisymm : AntiSymm (=) bytes_le.
Proof.
  intros a b. unfold bytes_le. rewrite (bytes_cmp_antisym a b). intros H1 H2.
  apply bytes_cmp_Eq. by destruct (bytes_cmp a b).
Qed.

#[export] Instance bytes_le_total : Total bytes_le.
Proof.
  intros a b. unfold bytes_le. rewrite (bytes_cmp_antisym a b).
  destruct (bytes_cmp a b); [by left|by left|by right].
Qed.

#[export] Instance bytes_le_trans : Transitive bytes_le.
Proof.
  intros a b c. unfold bytes_le. intros H1 H2.
  destruct (bytes_cmp a b) eqn:E1; [apply bytes_cmp_Eq in E1 as ->; done| |done].
  destruct (bytes_cmp b c) eqn:E2; [apply bytes_cmp_Eq in E2 as <-; by rewrite E1| |done].
  by rewrite (bytes_cmp_Lt_trans a b c).
Qed.

(** ** Splitting concatenations of fixed-width fields *)

Lemma app_split {A} (l1 l2 k1 k2 : list A) :
  length l1 = length k1 -> l1 ++ l2 = k1 ++ k2 -> l1 = k1 /\ l2 = k2.
Proof. apply app_inj_1. Qed.

Lemma cons_split {A} (a b : A) l k : a :: l = b :: k -> a = b /\ l = k.
Proof. by intros [= -> ->]. Qed.

(** Peels one fixed-width field off both sides of an equation between
    concatenations, discharging the length side condition from the context. *)
Ltac peel H :=
  let E := fresh "E" in
  apply app_split in H as [E H]; [|by rewrite ?length_be_bytes; congruence].

(** ** Filters that keep all or nothing *)

Lemma filter_all {A} (Q : A -> Prop) `{forall x, Decision (Q x)} (l : list A) :
  Forall Q l -> filter Q l = l.
Proof. induction 1 as [|x l Hx Hl IH]; [done|]. rewrite filter_cons_True by done. by rewrite IH. Qed.

Lemma filter_none {A} (Q : A -> Prop) `{forall x, Decision (Q x)} (l : list A) :
  Forall (fun x => ~ Q x) l -> filter Q l = [].
Proof. induction 1 as [|x l Hx Hl IH]; [done|]. by rewrite filter_cons_False. Qed.

Lemma filter_ext_in {A} (Q Q' : A -> Prop) `{forall x, Decision (Q x)} `{forall x, Decision (Q' x)}
    (l : list A) :
  (forall x, x ∈ l -> Q x <-> Q' x) -> filter Q l = filter Q' l.
Proof.
  induction l as [|x l IH]; intros Hl; [done|]. rewrite !filter_cons.
  rewrite IH by (intros y ?; apply Hl; by right).
  assert (Hx : Q x <-> Q' x) by (apply Hl; by left). repeat case_decide; tauto.
Qed.

(** ** Options *)

Lemma default_Some {A} (d a : A) o : o = Some a -> default d o = a.
Proof. by intros ->. Qed.

(** ** Automation shared by the components *)

Create HintDb connetto.
#[export] Hint Resolve length_be_bytes wf_be_bytes wrap_u64_range : connetto.

(** Case analysis on the scrutinee of the match or conditional at the head of
    a hypothesis, keeping its equation. *)
Ltac case_in H :=
  match type of H with
  | context [match ?x with _ => _ end] =>
      let E := fresh "E" in destruct x eqn:E; simplify_eq H
  end.
