(* ===== verification/Wire.v ===== *)
(** The wire messages of the write path: writers, provenance, mutation
    headers and patches, and the frames a server answers them with
    (src/crates/connetto-core/src/messages/{writer,mutation,bulk,error}.rs). *)

From stdpp Require Import base list numbers option strings.
From S2P Require Import Prelude.

(** ** Writers (messages/writer.rs) *)

(** A writer, named as the wire names one: a device key by its key id, or a
    number the server issued. *)
Inductive WriterRef :=
| Device (key : bytes)
| Number (number : Z).

#[export] Instance WriterRef_eq_dec : EqDecision WriterRef.
Proof. solve_decision. Defined.

(** [#[derive(PartialOrd, Ord)]]: variants in declaration order, then fields. *)
Definition WriterRef_cmp (a b : WriterRef) : comparison :=
  match a, b with
  | Device x, Device y => bytes_cmp x y
  | Device _, Number _ => Lt
  | Number _, Device _ => Gt
  | Number x, Number y => (x ?= y)%Z
  end.

(** The writer a handshake asks to write as. *)
Inductive WriterRequest :=
| ReqIssue
| ReqNumber (number : Z)
| ReqDevice.

Record WriterGrant := { wg_number : Z; wg_frontier : Z }.

Record BindDevice := {
  bd_request_id : string;
  bd_key_id : bytes;
  bd_signature : bytes;
}.

Record RetireWriter := {
  rw_request_id : string;
  rw_writer : WriterRef;
}.

Inductive WriterOutcome :=
| Bound (frontier : Z)
| Retired
| NotEnrolled
| Unknown.

#[export] Instance WriterOutcome_eq_dec : EqDecision WriterOutcome.
Proof. solve_decision. Defined.

(** Where a restored or carried-forward entry came from. *)
Record Provenance := { pv_writer : WriterRef; pv_seq : Z }.

#[export] Instance Provenance_eq_dec : EqDecision Provenance.
Proof. solve_decision. Defined.

(** ** Mutations (messages/mutation.rs, messages/bulk.rs) *)

Record MutationHeader := {
  mh_client_seq : Z;
  mh_op_count : Z;
  mh_provenance : option Provenance;
}.

Record MutationPatch := {
  mp_client_seq : Z;
  mp_patchset_zstd : bytes;
}.

Inductive MutationRejectReason :=
| RUnauthorized
| RSchemaMismatch
| RConstraint (detail : string)
| RMalformed (detail : string)
| ROther (detail : string)
| RIndeterminate
| RForked.

#[export] Instance MutationRejectReason_eq_dec : EqDecision MutationRejectReason.
Proof. solve_decision. Defined.

Record ConflictRow := { cr_updated_at : string; cr_row_json : string }.

#[export] Instance ConflictRow_eq_dec : EqDecision ConflictRow.
Proof. solve_decision. Defined.

(** ** Fatal errors (messages/error.rs) *)

Inductive FatalErrorReason :=
| ProtocolVersionMismatch (expected got : Z)
| SessionRevoked
| DeviceRevoked
| ConnectionSuperseded
| ProtocolViolation (detail : string)
| ServerShuttingDown
| FRateLimited (retry_after_ms : Z)
| ChangeStreamGap
| DatabaseTimelineChanged
| SequenceGap (expected got : Z)
| WriterRetired
| WriterUnknown.

#[export] Instance FatalErrorReason_eq_dec : EqDecision FatalErrorReason.
Proof. solve_decision. Defined.

(** The control frames the write path sends: the acknowledgement, the refusal,
    the conflict, the deferral, the close and the writer answer. *)
Inductive Frame :=
| FMutationApplied (client_seq : Z)
| FMutationReject (client_seq : Z) (reason : MutationRejectReason)
| FMutationConflict (client_seq : Z) (table : string) (server_row : option ConflictRow)
| FRateLimitedFrame (related_to : option Z) (retry_after_ms : Z)
| FFatalError (reason : FatalErrorReason)
| FWriterAnswer (request_id : string) (outcome : WriterOutcome).

#[export] Instance Frame_eq_dec : EqDecision Frame.
Proof. solve_decision. Defined.

(** ** Domain-separated messages a key signs over a connection's nonce *)

Definition WRITER_BIND_DOMAIN : bytes := bytes_of_string "connetto writer bind v1" ++ [0%Z].
Definition writer_bind_message (nonce : bytes) : bytes := WRITER_BIND_DOMAIN ++ nonce.

Definition BOT_REGISTRATION_DOMAIN : bytes :=
  bytes_of_string "connetto bot registration v1" ++ [0%Z].
Definition bot_registration_message (nonce : bytes) : bytes :=
  BOT_REGISTRATION_DOMAIN ++ nonce.

(** A signature over one of the two messages answers exactly one of the two
    questions, whatever nonces the connections drew. *)
Lemma bind_message_not_registration n1 n2 :
  writer_bind_message n1 <> bot_registration_message n2.
Proof. by intros [=]. Qed.

Lemma writer_bind_message_inj n1 n2 :
  writer_bind_message n1 = writer_bind_message n2 -> n1 = n2.
Proof. apply app_inv_head. Qed.
