(* ===== verification/Chain.v ===== *)
(** The hash chain a writer's pending entries form, and the messages a device
    key signs over it (src/crates/connetto-core/src/chain.rs).

    SHA-256 is a parameter: all the chain relies on is that a digest is 32
    bytes long. Where the source relies on collision resistance the theorems
    exhibit the collision instead of assuming there is none. *)

From stdpp Require Import base list numbers option strings.
From S2P Require Import Prelude Wire.
Open Scope Z_scope.

Class Sha256 := {
  sha256 : bytes -> bytes;
  sha256_length : forall x, length (sha256 x) = 32%nat;
}.

Definition GENESIS : bytes := replicate 32 0.
Definition ENTRY_DOMAIN : bytes := bytes_of_string "connetto-chain-v1" ++ [0].
Definition SIGN_DOMAIN : bytes := bytes_of_string "connetto-chain-sign-v1" ++ [0].
Definition COURIER_SIGN_DOMAIN : bytes :=
  bytes_of_string "connetto-chain-courier-sign-v1" ++ [0].

Definition range_message (key_id : bytes) (seq : Z) (head : bytes) : bytes :=
  SIGN_DOMAIN ++ key_id ++ be_bytes 8 seq ++ head.

(** One entry of the courier message: its sequence, then a tag byte and the
    original it was first written under. *)
Definition courier_entry_bytes (e : Z * option Provenance) : bytes :=
  be_bytes 8 e.1 ++
  match e.2 with
  | None => [0]
  | Some p =>
      match pv_writer p with
      | Device key => [1] ++ key ++ be_bytes 8 (pv_seq p)
      | Number number => [2] ++ be_bytes 8 number ++ be_bytes 8 (pv_seq p)
      end
  end.

Definition courier_range_message (key_id : bytes) (seq : Z) (head : bytes)
    (entries : list (Z * option Provenance)) : bytes :=
  COURIER_SIGN_DOMAIN ++ key_id ++ be_bytes 8 seq ++ head ++
  be_bytes 8 (Z.of_nat (length entries)) ++ concat (courier_entry_bytes <$> entries).

Section EntryHash.
Context {SHA : Sha256}.

(** The hasher is fed the domain, the predecessor, the sequence and the
    digest of the changeset, in that order. *)
Definition entry_hash (previous : bytes) (seq : Z) (changeset : bytes) : bytes :=
  sha256 (ENTRY_DOMAIN ++ previous ++ be_bytes 8 seq ++ sha256 changeset).

(** The hashes of consecutive entries from [seq] on, each chained from the
    one before: what a writer keeps with its pending entries. *)
Fixpoint chain_hashes (previous : bytes) (seq : Z) (changesets : list bytes) : list bytes :=
  match changesets with
  | [] => []
  | c :: cs => let h := entry_hash previous seq c in h :: chain_hashes h (seq + 1) cs
  end.

Definition chain_head (previous : bytes) (seq : Z) (changesets : list bytes) : bytes :=
  default previous (last (chain_hashes previous seq changesets)).

Definition collision : Prop := exists x y, x <> y /\ sha256 x = sha256 y.

Lemma entry_hash_length p s c : length (entry_hash p s c) = 32%nat.
Proof. apply sha256_length. Qed.

Lemma sha256_inj_or x y : sha256 x = sha256 y -> x = y \/ collision.
Proof. intros E. destruct (decide (x = y)); [by left|right; by exists x, y]. Qed.

(** Equal entry hashes have equal inputs, or they name a SHA-256 collision. *)
Lemma entry_hash_inj p1 s1 c1 p2 s2 c2 :
  length p1 = length p2 -> in_u64 s1 -> in_u64 s2 ->
  entry_hash p1 s1 c1 = entry_hash p2 s2 c2 ->
  (p1 = p2 /\ s1 = s2 /\ c1 = c2) \/ collision.
Proof.
  intros Hl H1 H2 [E|?]%sha256_inj_or; [|by right].
  apply app_inv_head in E. peel E. peel E.
  apply be8_inj in E1; [|done..]. apply sha256_inj_or in E as [->|?]; [|by right].
  by left.
Qed.

Lemma chain_head_cons p s c cs :
  chain_head p s (c :: cs) = chain_head (entry_hash p s c) (s + 1) cs.
Proof.
  unfold chain_head. cbn [chain_hashes]. rewrite last_cons. by destruct (last _).
Qed.

Lemma chain_head_snoc p s cs c :
  chain_head p s (cs ++ [c])
  = entry_hash (chain_head p s cs) (s + Z.of_nat (length cs)) c.
Proof.
  revert p s. induction cs as [|d cs IH]; intros p s.
  - by rewrite Z.add_0_r.
  - cbn [app]. rewrite !chain_head_cons, IH. f_equal. simpl length. lia.
Qed.

Lemma chain_head_length p s cs : length p = 32%nat -> length (chain_head p s cs) = 32%nat.
Proof.
  intros Hp. destruct cs as [|c cs _] using rev_ind; [done|].
  rewrite chain_head_snoc. apply entry_hash_length.
Qed.
End EntryHash.

(** ** The courier attestation commits to every entry *)

(** The entries a range message can carry: sequences of 64 bits and key ids of
    32 bytes. *)
Definition wf_writer (w : WriterRef) : Prop :=
  match w with Device key => length key = 32%nat | Number n => in_u64 n end.
Definition wf_provenance (p : Provenance) : Prop :=
  wf_writer (pv_writer p) /\ in_u64 (pv_seq p).
Definition wf_courier_entry (e : Z * option Provenance) : Prop :=
  in_u64 e.1 /\ match e.2 with Some p => wf_provenance p | None => True end.

(** An entry's encoding is self-delimiting: it determines the entry and where
    the next one starts. *)
Lemma courier_entry_bytes_inj e1 e2 r1 r2 :
  wf_courier_entry e1 -> wf_courier_entry e2 ->
  courier_entry_bytes e1 ++ r1 = courier_entry_bytes e2 ++ r2 -> e1 = e2 /\ r1 = r2.
Proof.
  destruct e1 as [s1 p1], e2 as [s2 p2]. unfold courier_entry_bytes.
  intros [Hs1 Hp1] [Hs2 Hp2]. cbn [fst snd] in *. rewrite <- !app_assoc. intros H. peel H.
  apply be8_inj in E; [|done..]. subst s2.
  destruct p1 as [[[k1|n1] q1]|], p2 as [[[k2|n2] q2]|]; cbn [pv_writer pv_seq app] in *;
    rewrite <- ?app_assoc in H; apply cons_split in H as [? H]; try done.
  - destruct Hp1 as [Hk1 Hq1], Hp2 as [Hk2 Hq2]; cbn in Hk1, Hk2.
    peel H. peel H. apply be8_inj in E0; [|done..]. by subst.
  - destruct Hp1 as [Hk1 Hq1], Hp2 as [Hk2 Hq2]; cbn in Hk1, Hk2.
    peel H. peel H. apply be8_inj in E; [|done..]. apply be8_inj in E0; [|done..]. by subst.
Qed.

Lemma courier_entries_inj es1 es2 :
  Forall wf_courier_entry es1 -> Forall wf_courier_entry es2 ->
  length es1 = length es2 ->
  concat (courier_entry_bytes <$> es1) = concat (courier_entry_bytes <$> es2) ->
  es1 = es2.
Proof.
  intros H1. revert es2. induction H1 as [|e1 es1 He1 _ IH]; intros [|e2 es2] H2 Hl E;
    try done.
  apply Forall_cons in H2 as [He2 H2]. simpl in E.
  apply courier_entry_bytes_inj in E as [-> E]; [|done..]. f_equal.
  apply IH; [done| |done]. simpl in Hl. lia.
Qed.

(** *)
Theorem courier_range_message_inj k1 s1 h1 es1 k2 s2 h2 es2 :
  length k1 = 32%nat -> length k2 = 32%nat ->
  length h1 = 32%nat -> length h2 = 32%nat ->
  in_u64 s1 -> in_u64 s2 ->
  in_u64 (Z.of_nat (length es1)) -> in_u64 (Z.of_nat (length es2)) ->
  Forall wf_courier_entry es1 -> Forall wf_courier_entry es2 ->
  courier_range_message k1 s1 h1 es1 = courier_range_message k2 s2 h2 es2 ->
  k1 = k2 /\ s1 = s2 /\ h1 = h2 /\ es1 = es2.
Proof.
  intros Hk1 Hk2 Hh1 Hh2 Hs1 Hs2 Hn1 Hn2 He1 He2 H.
  unfold courier_range_message in H. apply app_inv_head in H.
  peel H. peel H. peel H. peel H.
  apply be8_inj in E0; [|done..]. apply be8_inj in E2; [|done..].
  apply courier_entries_inj in H; [|done..|lia]. by subst.
Qed.

Lemma range_message_inj k1 s1 h1 k2 s2 h2 :
  length k1 = 32%nat -> length k2 = 32%nat -> in_u64 s1 -> in_u64 s2 ->
  range_message k1 s1 h1 = range_message k2 s2 h2 ->
  k1 = k2 /\ s1 = s2 /\ h1 = h2.
Proof.
  intros ???? H. apply app_inv_head in H. peel H. peel H.
  apply be8_inj in E0; [|done..]. by subst.
Qed.

(** The four messages a device or bot key signs, by what a signature over them
    vouches for. *)
Inductive Signed :=
| SignedBind (nonce : bytes)
| SignedRegistration (nonce : bytes)
| SignedRange (key_id : bytes) (seq : Z) (head : bytes)
| SignedCourier (key_id : bytes) (seq : Z) (head : bytes)
    (entries : list (Z * option Provenance)).

Definition signed_message (m : Signed) : bytes :=
  match m with
  | SignedBind n => writer_bind_message n
  | SignedRegistration n => bot_registration_message n
  | SignedRange k s h => range_message k s h
  | SignedCourier k s h es => courier_range_message k s h es
  end.

Definition signed_kind (m : Signed) : nat :=
  match m with
  | SignedBind _ => 0 | SignedRegistration _ => 1
  | SignedRange _ _ _ => 2 | SignedCourier _ _ _ _ => 3
  end.

(** *)
Theorem signed_messages_separated m1 m2 :
  signed_message m1 = signed_message m2 -> signed_kind m1 = signed_kind m2.
Proof. destruct m1, m2; try done; by intros [=]. Qed.

Section ChainCommits.
Context {SHA : Sha256}.

(** C36. *)
Theorem chain_head_commits seq cs1 cs2 :
  length cs1 = length cs2 -> 0 <= seq -> seq + Z.of_nat (length cs1) <= u64_max ->
  chain_head GENESIS seq cs1 = chain_head GENESIS seq cs2 ->
  cs1 = cs2 \/ collision.
Proof.
  intros Hl H0 Hs. revert cs2 Hl.
  induction cs1 as [|c1 cs1 IH] using rev_ind; intros cs2 Hl E.
  - destruct cs2; [by left|done].
  - destruct cs2 as [|c2 cs2 _] using rev_ind; [rewrite length_app in Hl; simpl in Hl; lia|].
    rewrite !length_app in Hl. rewrite length_app in Hs. simpl in Hl, Hs.
    assert (Hl' : length cs1 = length cs2) by lia.
    rewrite !chain_head_snoc, Hl' in E.
    apply entry_hash_inj in E as [(Ep & _ & ->)|?]; [|by right|..].
    + apply IH in Ep as [->|?]; [by left|by right|lia|done].
    + by rewrite !chain_head_length.
    + unfold in_u64. lia.
    + unfold in_u64. lia.
Qed.
End ChainCommits.
