(* ===== verification/Backoff.v ===== *)
(** The retry schedule (src/crates/connetto-core/src/backoff.rs): the
    exponential policy, its equal jitter, and the episode that hands out waits
    until a cap ends it. A [Duration] is its number of nanoseconds. *)

From stdpp Require Import base list numbers option.
From S2P Require Import Prelude.
Open Scope Z_scope.

Definition NANOS_PER_MILLI : Z := 1000000.
Definition NANOS_PER_SEC : Z := 1000000000.
(** [Duration::MAX]. *)
Definition duration_max : Z := u64_max * NANOS_PER_SEC + 999999999.
Definition wf_duration (d : Z) : Prop := 0 <= d <= duration_max.

Definition from_millis (ms : Z) : Z := ms * NANOS_PER_MILLI.
Definition as_millis (d : Z) : Z := d / NANOS_PER_MILLI.

(** splitmix64, at 64 bits. *)
Definition mix (x0 : Z) : Z :=
  let x := wrap_u64 (x0 + 0x9E3779B97F4A7C15) in
  let z := wrap_u64 (Z.lxor x (Z.shiftr x 30) * 0xBF58476D1CE4E5B9) in
  let z := wrap_u64 (Z.lxor z (Z.shiftr z 27) * 0x94D049BB133111EB) in
  Z.lxor z (Z.shiftr z 31).

Record RetryPolicy := {
  initial_backoff : Z;
  max_backoff : Z;
  max_attempts : option Z;
  max_total_backoff : option Z;
  jitter : bool;
}.

Definition default_policy : RetryPolicy :=
  {| initial_backoff := from_millis 200; max_backoff := 5 * NANOS_PER_SEC;
     max_attempts := None; max_total_backoff := None; jitter := true |}.

Definition with_initial_backoff d p :=
  {| initial_backoff := d; max_backoff := max_backoff p; max_attempts := max_attempts p;
     max_total_backoff := max_total_backoff p; jitter := jitter p |}.
Definition with_max_backoff d p :=
  {| initial_backoff := initial_backoff p; max_backoff := d; max_attempts := max_attempts p;
     max_total_backoff := max_total_backoff p; jitter := jitter p |}.
Definition with_max_attempts n p :=
  {| initial_backoff := initial_backoff p; max_backoff := max_backoff p; max_attempts := n;
     max_total_backoff := max_total_backoff p; jitter := jitter p |}.
Definition with_max_total_backoff c p :=
  {| initial_backoff := initial_backoff p; max_backoff := max_backoff p;
     max_attempts := max_attempts p; max_total_backoff := c; jitter := jitter p |}.
Definition with_jitter j p :=
  {| initial_backoff := initial_backoff p; max_backoff := max_backoff p;
     max_attempts := max_attempts p; max_total_backoff := max_total_backoff p; jitter := j |}.

(** [2u128.saturating_pow(attempt.saturating_sub(1))] then the saturating
    product, the ceiling, and the return to 64-bit milliseconds. *)
Definition backoff (p : RetryPolicy) (attempt : Z) : Z :=
  let factor := Z.min u128_max (2 ^ sat_sub attempt 1) in
  let millis := Z.min (sat_mul u128_max (as_millis (initial_backoff p)) factor)
                      (as_millis (max_backoff p)) in
  from_millis (Z.min u64_max millis).

Record Backoff := { bo_attempt : Z; bo_waited : Z; bo_seed : Z }.

Definition with_seed (seed : Z) : Backoff :=
  {| bo_attempt := 0; bo_waited := 0; bo_seed := seed |}.

(** [Backoff::new]: the process-wide counter is read, mixed, and incremented. *)
Definition new_backoff (counter : Z) : Backoff * Z :=
  (with_seed (mix counter), wrap_u64 (counter + 1)).

Definition jittered (b : Backoff) (wait : Z) : Z :=
  let total := Z.min u64_max wait in
  let half := total / 2 in
  let span := total - half in
  let draw := mix (Z.lxor (bo_seed b) (mix (bo_attempt b))) in
  half + draw mod Z.max span 1.

Definition next_wait (p : RetryPolicy) (b : Backoff) : option Z * Backoff :=
  let b := {| bo_attempt := sat_add u32_max (bo_attempt b) 1;
              bo_waited := bo_waited b; bo_seed := bo_seed b |} in
  if match max_attempts p with Some m => m <? bo_attempt b | None => false end
  then (None, b)
  else
    let wait := backoff p (bo_attempt b) in
    let wait := if jitter p then jittered b wait else wait in
    let granted wait :=
      (Some wait, {| bo_attempt := bo_attempt b;
                     bo_waited := sat_add duration_max (bo_waited b) wait;
                     bo_seed := bo_seed b |}) in
    match max_total_backoff p with
    | Some cap =>
        let left := sat_sub cap (bo_waited b) in
        if left =? 0 then (None, b) else granted (Z.min wait left)
    | None => granted wait
    end.

Definition reset (b : Backoff) : Backoff :=
  {| bo_attempt := 0; bo_waited := 0; bo_seed := bo_seed b |}.

(** The first [n] waits of an episode, fewer when a cap ends it. *)
Fixpoint waits (p : RetryPolicy) (n : nat) (b : Backoff) : list Z :=
  match n with
  | O => []
  | S n' =>
      match next_wait p b with
      | (Some w, b') => w :: waits p n' b'
      | (None, _) => []
      end
  end.

Definition sum (l : list Z) : Z := foldr Z.add 0 l.

(** ** The schedule *)

Lemma mix_range x : in_u64 (mix x).
Proof.
  unfold mix. cbv zeta.
  match goal with |- in_u64 (Z.lxor ?e _) =>
    assert (Hy : in_u64 e) by apply wrap_u64_range; revert Hy; generalize e end.
  intros y Hy.
  unfold in_u64, u64_max in *.
  assert (0 <= Z.shiftr y 31 < 2 ^ 64).
  { rewrite Z.shiftr_div_pow2 by lia. split; [apply Z.div_pos; lia|].
    apply Z.div_lt_upper_bound; lia. }
  assert (0 <= Z.lxor y (Z.shiftr y 31)) by (apply Z.lxor_nonneg; lia).
  assert (Z.lxor y (Z.shiftr y 31) < 2 ^ 64); [|lia].
  destruct (decide (Z.lxor y (Z.shiftr y 31) = 0)) as [->|]; [lia|].
  apply Z.log2_lt_pow2; [lia|]. eapply Z.le_lt_trans; [apply Z.log2_lxor; lia|].
  apply Z.max_lub_lt.
  - destruct (decide (y = 0)) as [->|]; [simpl; lia|]. apply Z.log2_lt_pow2; lia.
  - destruct (decide (Z.shiftr y 31 = 0)) as [->|]; [simpl; lia|]. apply Z.log2_lt_pow2; lia.
Qed.

(** Equal jitter keeps at least half of the wait and never exceeds it. *)
Lemma jittered_range b wait :
  0 <= wait <= u64_max -> wait / 2 <= jittered b wait <= wait.
Proof.
  intros Hw. unfold jittered. rewrite Z.min_r by lia.
  set (d := mix _). set (span := wait - wait / 2).
  assert (0 <= span) by (unfold span; pose proof (Z.div_le_upper_bound wait 2 wait); lia).
  pose proof (Z.mod_pos_bound d (Z.max span 1)) as Hm.
  destruct (decide (span = 0)) as [E|].
  - rewrite E in *. simpl Z.max in *. assert (wait = 0) by (unfold span in E; 
      pose proof (Z.div_lt wait 2); lia). subst wait. simpl in *. lia.
  - rewrite Z.max_l in * by lia. unfold span in *. lia.
Qed.

Lemma as_millis_le a b : a <= b -> as_millis a <= as_millis b.
Proof. intros. unfold as_millis, NANOS_PER_MILLI. apply Z.div_le_mono; lia. Qed.

Lemma from_as_millis_le d : from_millis (as_millis d) <= d.
Proof.
  unfold from_millis, as_millis, NANOS_PER_MILLI.
  pose proof (Z.mul_div_le d 1000000). lia.
Qed.

(** The saturating 128-bit computation is exact: below 64-bit
    milliseconds of ceiling, the wait before retry [attempt] is the initial
    wait doubled [attempt - 1] times, cut at the ceiling. *)
Theorem backoff_exact p attempt :
  1 <= attempt -> 0 <= initial_backoff p -> 0 <= as_millis (max_backoff p) <= u64_max ->
  backoff p attempt
  = from_millis (Z.min (as_millis (initial_backoff p) * 2 ^ (attempt - 1))
                       (as_millis (max_backoff p))).
Proof.
  intros Ha Hi Hm. unfold backoff, sat_sub, sat_mul. rewrite Z.max_r by lia. f_equal.
  assert (Hi' : 0 <= as_millis (initial_backoff p))
    by (apply Z.div_pos; [done|unfold NANOS_PER_MILLI; lia]).
  set (i := as_millis (initial_backoff p)) in *. set (m := as_millis (max_backoff p)) in *.
  assert (HP : 0 < 2 ^ (attempt - 1)) by (apply Z.pow_pos_nonneg; lia).
  set (P := 2 ^ (attempt - 1)) in *. clearbody i m P.
  unfold u64_max, u128_max in *. rewrite (Z.min_r 18446744073709551615) by lia.
  destruct (decide (P <= 340282366920938463463374607431768211455)).
  - rewrite (Z.min_r _ P) by lia. lia.
  - rewrite (Z.min_l _ P) by lia. destruct (decide (i = 0)) as [->|]; [lia|].
    rewrite (Z.min_l 340282366920938463463374607431768211455) by nia.
    rewrite !Z.min_r by nia. done.
Qed.

Lemma backoff_range p attempt :
  1 <= attempt -> 0 <= initial_backoff p -> 0 <= max_backoff p <= u64_max ->
  0 <= backoff p attempt <= max_backoff p /\
  from_millis (Z.min (as_millis (initial_backoff p)) (as_millis (max_backoff p)))
    <= backoff p attempt.
Proof.
  intros Ha Hi Hm.
  assert (Hm' : 0 <= as_millis (max_backoff p) <= max_backoff p).
  { unfold as_millis, NANOS_PER_MILLI. split; [apply Z.div_pos; lia|].
    apply Z.div_le_upper_bound; lia. }
  assert (Hi' : 0 <= as_millis (initial_backoff p))
    by (apply Z.div_pos; [done|unfold NANOS_PER_MILLI; lia]).
  rewrite backoff_exact by lia.
  pose proof (from_as_millis_le (max_backoff p)).
  assert (0 < 2 ^ (attempt - 1)) by (apply Z.pow_pos_nonneg; lia).
  unfold from_millis, NANOS_PER_MILLI in *. nia.
Qed.

(** ** Episodes under a total cap *)

Section Episode.
Context (p : RetryPolicy) (cap : Z).
Hypothesis p_cap : max_total_backoff p = Some cap.
Hypothesis cap_range : 0 <= cap <= duration_max.
Hypothesis initial_nonneg : 0 <= initial_backoff p.
Hypothesis max_range : 0 <= max_backoff p <= u64_max.

(** The least wait the schedule draws before the cap cuts it. *)
Definition wait_floor : Z :=
  from_millis (Z.min (as_millis (initial_backoff p)) (as_millis (max_backoff p))) / 2.

(** One step of an episode: a wait between the floor (or what is left of the
    cap) and the policy's ceiling, counted exactly. *)
Lemma next_wait_capped b w b' :
  0 <= bo_attempt b -> 0 <= bo_waited b <= cap -> next_wait p b = (Some w, b') ->
  0 <= bo_attempt b' /\ bo_waited b' = bo_waited b + w /\ bo_waited b' <= cap /\
  0 <= w <= max_backoff p /\ bo_waited b < cap /\
  (wait_floor <= w \/ bo_waited b' = cap).
Proof.
  intros Ha Hw. unfold next_wait. rewrite p_cap.
  set (a := sat_add u32_max (bo_attempt b) 1).
  assert (Ha' : 1 <= a) by (unfold a, sat_add, u32_max; lia). simpl.
  destruct (match max_attempts p with Some m => _ | None => _ end); [done|].
  destruct (Z.eqb_spec (sat_sub cap (bo_waited b)) 0) as [|Hl]; [done|].
  unfold sat_sub in *. rewrite Z.max_r in * by lia.
  set (wait := if jitter p then _ else _).
  assert (Hwait : 0 <= wait <= max_backoff p /\ wait_floor <= wait).
  { destruct (backoff_range p a) as [Hb1 Hb2]; [lia..|].
    assert (wait_floor <= backoff p a / 2) by (apply Z.div_le_mono; lia).
    unfold wait. destruct (jitter p).
    - pose proof (jittered_range {| bo_attempt := a; bo_waited := bo_waited b;
        bo_seed := bo_seed b |} (backoff p a)). pose proof (Z.div_pos (backoff p a) 2). lia.
    - split; [lia|]. pose proof (Z.div_le_upper_bound (backoff p a) 2 (backoff p a)). lia. }
  intros [= <- <-]. simpl. unfold sat_add. rewrite (Z.min_r duration_max) by lia. lia.
Qed.

Lemma waits_capped n b :
  0 <= bo_attempt b -> 0 <= bo_waited b <= cap ->
  sum (waits p n b) <= cap - bo_waited b /\ Forall (fun w => 0 <= w <= max_backoff p) (waits p n b).
Proof.
  revert b. induction n as [|n IH]; intros b Ha Hw; [simpl; split; [lia|constructor]|].
  cbn [waits]. destruct (next_wait p b) as [[w|] b'] eqn:E; [|simpl; split; [lia|constructor]].
  apply next_wait_capped in E as (Ha' & Hw' & ? & ? & _ & _); [|done..].
  destruct (IH b') as [Hs Hf]; [done|lia|]. simpl. split; [lia|by constructor].
Qed.

Lemma waits_finite n b :
  0 < wait_floor -> 0 <= bo_attempt b -> 0 <= bo_waited b <= cap ->
  Z.of_nat (length (waits p n b)) <= (cap - bo_waited b) / wait_floor + 1 /\
  (bo_waited b = cap -> waits p n b = []).
Proof.
  intros Hf. revert b. induction n as [|n IH]; intros b Ha Hw.
  { simpl. split; [|done]. pose proof (Z.div_pos (cap - bo_waited b) wait_floor). lia. }
  cbn [waits]. destruct (next_wait p b) as [[w|] b'] eqn:E.
  2:{ simpl. split; [|done]. pose proof (Z.div_pos (cap - bo_waited b) wait_floor). lia. }
  apply next_wait_capped in E as (Ha' & Hw' & ? & ? & Hlt & Hor); [|done..].
  destruct (IH b') as [Hs Hf']; [done|lia|]. split; [|lia]. cbn [length].
  destruct Hor as [Hge|Heq].
  - assert ((cap - bo_waited b') / wait_floor <= (cap - bo_waited b - wait_floor) / wait_floor)
      by (apply Z.div_le_mono; lia).
    replace (cap - bo_waited b - wait_floor) with (cap - bo_waited b + (-1) * wait_floor) in * by lia.
    rewrite Z.div_add in * by lia. lia.
  - rewrite Hf' by done. simpl. pose proof (Z.div_pos (cap - bo_waited b) wait_floor). lia.
Qed.
End Episode.

(** A capped episode waits no longer than its cap in total, never longer
    than the ceiling at once, and ends after at most [cap / floor + 1] waits,
    whatever the jitter draws, the floor being half the first wait. *)
Theorem episode_bounded p cap n seed :
  max_total_backoff p = Some cap -> 0 <= cap <= duration_max ->
  0 <= initial_backoff p -> 0 <= max_backoff p <= u64_max -> 0 < wait_floor p ->
  let ws := waits p n (with_seed seed) in
  sum ws <= cap /\ Forall (fun w => 0 <= w <= max_backoff p) ws /\
  Z.of_nat (length ws) <= cap / wait_floor p + 1.
Proof.
  intros Hc Hr Hi Hm Hf. simpl.
  destruct (waits_capped p cap Hc Hr Hi Hm n (with_seed seed)) as [Hs Hb]; [simpl; lia..|].
  destruct (waits_finite p cap Hc Hr Hi Hm n (with_seed seed)) as [Hl _]; [simpl; lia..|].
  simpl in *. rewrite Z.sub_0_r in *. done.
Qed.

Lemma episode_bounded_witness :
  let p := with_max_total_backoff (Some (5 * NANOS_PER_SEC)) default_policy in
  let ws := waits p 60 (with_seed 7) in
  sum ws <= 5 * NANOS_PER_SEC /\ Forall (fun w => 0 <= w <= 5 * NANOS_PER_SEC) ws /\
  Z.of_nat (length ws) <= 51.
Proof.
  apply (episode_bounded (with_max_total_backoff (Some (5 * NANOS_PER_SEC)) default_policy)
    (5 * NANOS_PER_SEC) 60 7); vm_compute; done || (split; discriminate).
Defined.

Lemma backoff_exact_witness :
  backoff default_policy 3 = from_millis (Z.min (as_millis (from_millis 200) * 2 ^ 2) 5000).
Proof.
  apply (backoff_exact default_policy 3); vm_compute; done || (split; discriminate).
Defined.
