(* ===== verification/Plan.v ===== *)
(** Planning one mutation upload: the decompressed diffset is parsed and each
    op is resolved against the catalog, with the read that detects a stale
    version (src/crates/connetto-server/src/materializer.rs [plan_write] and
    its helpers, src/crates/connetto-server/src/pk.rs).

    The diffset parser, Zstd and the SQL catalog are third-party packages: they
    are the fields of the class [Catalog]. *)

From stdpp Require Import base list numbers option strings pretty gmap sets.
From S2P Require Import Prelude.
Open Scope Z_scope.

(** ** Values *)

(** sqlite-diff's [Value]; a [REAL] is the 64 bits of its double. *)
Inductive WireValue :=
| WNull
| WInteger (int : Z)
| WReal (bits : Z)
| WText (text : string)
| WBlob (blob : bytes).

#[export] Instance WireValue_eq_dec : EqDecision WireValue.
Proof. solve_decision. Defined.

(** A primary-key value carried by a settled conflict outcome. *)
Inductive StoredValue :=
| SNull
| SInteger (int : Z)
| SReal (bits : Z)
| SText (text : string)
| SBlob (blob : bytes).

#[export] Instance StoredValue_eq_dec : EqDecision StoredValue.
Proof. solve_decision. Defined.

Definition stored_value (value : WireValue) : StoredValue :=
  match value with
  | WInteger int => SInteger int
  | WReal real => SReal real
  | WText text => SText text
  | WBlob blob => SBlob blob
  | WNull => SNull
  end.

Definition wire_value (value : StoredValue) : WireValue :=
  match value with
  | SInteger int => WInteger int
  | SReal real => WReal real
  | SText text => WText text
  | SBlob blob => WBlob blob
  | SNull => WNull
  end.

(** subql's canonical Postgres value, as far as an upload produces it. *)
Inductive PgValue :=
| VNull
| VInt (int : Z)
| VFloat (bits : Z)
| VString (text : string)
| VBytes (blob : bytes)
| VUuid (id : bytes)
| VMissing.

(** The declared scalar kinds an upload's cells are directed by: only [UUID]
    is told apart. *)
Inductive ScalarKind := KUuid | KOther.

Definition uuid_from_blob (blob : bytes) : PgValue :=
  if decide (length blob = 16%nat) then VUuid blob else VBytes blob.

Definition from_wire (value : WireValue) (kind : option ScalarKind) : PgValue :=
  match value, kind with
  | WBlob blob, Some KUuid => uuid_from_blob blob
  | WNull, _ => VNull
  | WInteger int, _ => VInt int
  | WReal real, _ => VFloat real
  | WText text, _ => VString text
  | WBlob blob, _ => VBytes blob
  end.

(** ** Database and materializer errors *)

(** diesel's [DatabaseErrorKind], the kinds the server tells apart by name. *)
Inductive DatabaseErrorKind :=
| UniqueViolation
| ForeignKeyViolation
| NotNullViolation
| CheckViolation
| SerializationFailure
| ReadOnlyTransaction
| ClosedConnection
| UnableToSendCommand
| UnknownKind.

Inductive DbError :=
| DatabaseError (kind : DatabaseErrorKind) (message : string)
| NotFound
| DeserializationError (message : string)
| OtherDbError (message : string).

#[export] Instance DatabaseErrorKind_eq_dec : EqDecision DatabaseErrorKind.
Proof. solve_decision. Defined.
#[export] Instance DbError_eq_dec : EqDecision DbError.
Proof. solve_decision. Defined.

Definition DbError_text (err : DbError) : string :=
  match err with
  | DatabaseError _ message => message
  | NotFound => "Record not found"
  | DeserializationError message | OtherDbError message => message
  end.

(** [str::contains]. *)
Definition contains (s pattern : string) : bool :=
  match String.index 0 pattern s with Some _ => true | None => false end.

Definition ascii_lower (c : Ascii.ascii) : Ascii.ascii :=
  let n := Ascii.nat_of_ascii c in
  if decide (65 <= n <= 90)%nat then Ascii.ascii_of_nat (n + 32) else c.

Fixpoint to_lowercase (s : string) : string :=
  match s with
  | EmptyString => EmptyString
  | String c s' => String (ascii_lower c) (to_lowercase s')
  end.

(** How a failed database call should be answered (reexec.rs). *)
Inductive ReadFailure := Timeout | Transient | Other.

#[export] Instance ReadFailure_eq_dec : EqDecision ReadFailure.
Proof. solve_decision. Defined.

Definition is_statement_timeout (err : DbError) : bool :=
  match err with
  | DatabaseError _ message => contains message "statement timeout"
  | _ => false
  end.

Definition diesel_failure (err : DbError) : ReadFailure :=
  if is_statement_timeout err then Timeout
  else
    match err with
    | DatabaseError (SerializationFailure | ReadOnlyTransaction
                    | ClosedConnection | UnableToSendCommand) _ => Transient
    | _ => Other
    end.

(** The payloads of third-party errors are their rendered text. *)
Inductive MaterializerError :=
| MCatalog (detail : string)
| MRegister (detail : string)
| MDispatch (detail : string)
| MCursor (detail : string)
| MEmit (detail : string)
| MParse (detail : string)
| MNotWritable (table : string)
| MSchemaMismatch (element : string)
| MMissingVersion (table : string)
| MApply (err : DbError)
| MCompression (detail : string)
| MTranslate (detail : string)
| MRead (subscription : Z) (class : ReadFailure) (detail : string)
| MInstall (detail : string).

#[export] Instance MaterializerError_eq_dec : EqDecision MaterializerError.
Proof. solve_decision. Defined.

Definition MaterializerError_text (err : MaterializerError) : string :=
  match err with
  | MCatalog d => "catalog parse failed: " +:+ d
  | MRegister d | MDispatch d | MCursor d => d
  | MEmit d => "patchset emission failed: " +:+ d
  | MParse d => "mutation upload could not be parsed: " +:+ d
  | MNotWritable t => "table `" +:+ t +:+ "` does not accept mutations"
  | MSchemaMismatch e => "mutation references unknown schema element: " +:+ e
  | MMissingVersion t =>
      "mutation on `" +:+ t +:+ "` lacks the prior version needed to detect conflicts"
  | MApply err => DbError_text err
  | MCompression d => d
  | MTranslate d => "subscription query translation failed: " +:+ d
  | MRead s _ d =>
      "re-execution read failed for subscription " +:+ pretty s +:+ ": " +:+ d
  | MInstall d => "result installation refused: " +:+ d
  end.

(** ** The parsed diffset and its plan *)

Record TableSchema := { ts_name : string; ts_primary_key_columns : list nat }.

Inductive ChangesetOp :=
| CsInsert (table : TableSchema) (values : list WireValue)
| CsUpdate (table : TableSchema) (values : list (option WireValue * option WireValue))
| CsDelete (table : TableSchema) (old_values : list WireValue).

(** The images of a patchset update or delete are never read. *)
Inductive PatchsetOp :=
| PsInsert (table : TableSchema) (values : list WireValue)
| PsUpdate (table : TableSchema)
| PsDelete (table : TableSchema).

Inductive ParsedDiffSet :=
| PdChangeset (ops : list ChangesetOp)
| PdPatchset (ops : list PatchsetOp).

Definition cs_table (op : ChangesetOp) : TableSchema :=
  match op with CsInsert t _ | CsUpdate t _ | CsDelete t _ => t end.
Definition ps_table (op : PatchsetOp) : TableSchema :=
  match op with PsInsert t _ | PsUpdate t | PsDelete t => t end.

Inductive PlannedWrite :=
| PwInsert (new : list PgValue)
| PwUpdate (old new : list PgValue)
| PwDelete (old : list PgValue).

Record PlannedConflict := {
  pc_table : string;
  pc_version_column : string;
  pc_basis : WireValue;
  pc_pk_columns : list string;
  pc_pk_values : list WireValue;
}.

Record PlannedOp := {
  po_table_id : Z;
  po_write : PlannedWrite;
  po_conflict : option PlannedConflict;
}.

Record WritePlan := { wp_ops : list PlannedOp }.

Record ServerRow := { sr_version : string; sr_row_json : string }.

Inductive ConflictProbe :=
| ProbeClear
| ProbeStale (row : option ServerRow).

Definition CLIENT_WRITTEN_REGISTRY_TABLES : list string :=
  ["connetto_registration_codes"; "connetto_installations";
   "connetto_installation_optional_tables"].

Definition registry_table (table : string) : bool :=
  bool_decide (table ∈ CLIENT_WRITTEN_REGISTRY_TABLES).

(** A write policy declared at run time: the writable tables and the version
    column some of them carry. *)
Record RuntimeWritableCatalog := {
  rw_writable : gset string;
  rw_versions : gmap string string;
}.

Definition is_writable (w : RuntimeWritableCatalog) (table : string) : bool :=
  bool_decide (table ∈ rw_writable w).
Definition version_column (w : RuntimeWritableCatalog) (table : string) : option string :=
  rw_versions w !! table.

(** [RuntimeWritableCatalogBuilder]: [writable] and [versioned]. *)
Definition build_writable (table : string) (w : RuntimeWritableCatalog) :=
  {| rw_writable := {[table]} ∪ rw_writable w; rw_versions := rw_versions w |}.
Definition build_versioned (table column : string) (w : RuntimeWritableCatalog) :=
  {| rw_writable := {[table]} ∪ rw_writable w;
     rw_versions := <[table := column]> (rw_versions w) |}.

(** What the planner takes from Zstd, sqlite-diff and subql's catalog. *)
Class Catalog := {
  decompress : bytes -> Result bytes string;
  compress : bytes -> Result bytes string;
  compress_roundtrip : forall raw z, compress raw = Ok z -> decompress z = Ok raw;
  parse_diffset : bytes -> Result ParsedDiffSet string;
  primary_key : ChangesetOp -> list WireValue;
  catalog_table_id : string -> option Z;
  catalog_column_id : Z -> string -> option nat;
  catalog_column_name : Z -> nat -> option string;
  catalog_scalar_kind : Z -> nat -> option ScalarKind;
  write_policy : RuntimeWritableCatalog;
}.

Section Planner.
Context {CT : Catalog}.

Definition table_id (table : string) : Result Z MaterializerError :=
  ok_or (catalog_table_id table) (MSchemaMismatch table).

Definition column_name_at (table_id : Z) (index : nat) : Result string MaterializerError :=
  if decide (Z.of_nat index <= 65535) then
    ok_or (catalog_column_name table_id index)
      (MSchemaMismatch ("column " +:+ pretty (N.of_nat index)))
  else Err (MSchemaMismatch (pretty (N.of_nat index))).

Definition scalar_kind (table_id : Z) (ordinal : nat) : option ScalarKind :=
  if decide (Z.of_nat ordinal <= 65535) then catalog_scalar_kind table_id ordinal else None.

Definition row_from_wire (table_id : Z) (values : list WireValue) : list PgValue :=
  imap (fun ordinal value => from_wire value (scalar_kind table_id ordinal)) values.

(** One cell of an update image: absent when the upload left the slot out. *)
Definition cell_from_wire (table_id : Z) (ordinal : nat) (cell : option WireValue) : PgValue :=
  match cell with
  | Some value => from_wire value (scalar_kind table_id ordinal)
  | None => VMissing
  end.

Definition plan_conflict (schema : TableSchema) (pk_values : list WireValue)
    (basis : nat -> option WireValue) : Result (option PlannedConflict) MaterializerError :=
  let table := ts_name schema in
  match version_column write_policy table with
  | None => Ok None
  | Some version_column =>
      tid <-? table_id table ;;
      version_idx <-? ok_or (catalog_column_id tid version_column)
        (MSchemaMismatch version_column) ;;
      basis <-? ok_or (basis version_idx) (MMissingVersion table) ;;
      pk_columns <-? try_map (column_name_at tid) (ts_primary_key_columns schema) ;;
      Ok (Some {| pc_table := table; pc_version_column := version_column;
                  pc_basis := basis; pc_pk_columns := pk_columns;
                  pc_pk_values := pk_values |})
  end.

Definition plan_changeset_op (op : ChangesetOp) : Result PlannedOp MaterializerError :=
  let schema := cs_table op in
  let table := ts_name schema in
  if negb (is_writable write_policy table) && negb (registry_table table)
  then Err (MNotWritable table)
  else
    tid <-? table_id table ;;
    let pk_values := primary_key op in
    '(write, conflict) <-?
      match op with
      | CsInsert _ values => Ok (PwInsert (row_from_wire tid values), None)
      | CsUpdate _ values =>
          conflict <-? plan_conflict schema pk_values
            (fun idx => (values !! idx) ≫= fst) ;;
          let old := imap (fun ordinal cell => cell_from_wire tid ordinal cell.1) values in
          let new := imap (fun ordinal cell =>
            cell_from_wire tid ordinal
              (match cell.2 with Some v => Some v | None => cell.1 end)) values in
          Ok (PwUpdate old new, conflict)
      | CsDelete _ old_values =>
          conflict <-? plan_conflict schema pk_values (fun idx => old_values !! idx) ;;
          Ok (PwDelete (row_from_wire tid old_values), conflict)
      end ;;
    Ok {| po_table_id := tid; po_write := write; po_conflict := conflict |}.

Definition plan_patchset_op (op : PatchsetOp) : Result PlannedOp MaterializerError :=
  let table := ts_name (ps_table op) in
  if negb (is_writable write_policy table) && negb (registry_table table)
  then Err (MNotWritable table)
  else
    match op with
    | PsInsert _ values =>
        tid <-? table_id table ;;
        Ok {| po_table_id := tid; po_write := PwInsert (row_from_wire tid values);
              po_conflict := None |}
    | PsUpdate _ | PsDelete _ => Err (MMissingVersion table)
    end.

Definition plan_write (payload_zstd : bytes) : Result WritePlan MaterializerError :=
  bytes <-? map_err MCompression (decompress payload_zstd) ;;
  parsed <-? map_err MParse (parse_diffset bytes) ;;
  ops <-? match parsed with
          | PdChangeset diff => try_map plan_changeset_op diff
          | PdPatchset diff => try_map plan_patchset_op diff
          end ;;
  Ok {| wp_ops := ops |}.

(** ** What a plan guarantees *)

(** The old image an op carries at a column. *)
Definition old_image (op : ChangesetOp) (idx : nat) : option WireValue :=
  match op with
  | CsInsert _ _ => None
  | CsUpdate _ values => (values !! idx) ≫= fst
  | CsDelete _ old_values => old_values !! idx
  end.

Definition admitted_table (table : string) : Prop :=
  table ∈ rw_writable write_policy \/ table ∈ CLIENT_WRITTEN_REGISTRY_TABLES.

(** The conflict read a versioned update or delete must carry: the version the
    client based its edit on, at the catalog's own position of the column. *)
Definition conflict_checked (op : ChangesetOp) (c : option PlannedConflict) : Prop :=
  let table := ts_name (cs_table op) in
  match version_column write_policy table with
  | None => c = None
  | Some column =>
      exists pc tid idx, c = Some pc /\ pc_table pc = table /\
        pc_version_column pc = column /\ catalog_table_id table = Some tid /\
        catalog_column_id tid column = Some idx /\ old_image op idx = Some (pc_basis pc) /\
        pc_pk_values pc = primary_key op /\
        length (pc_pk_columns pc) = length (ts_primary_key_columns (cs_table op))
  end.

Definition changeset_op_planned (op : ChangesetOp) (p : PlannedOp) : Prop :=
  let table := ts_name (cs_table op) in
  admitted_table table /\ catalog_table_id table = Some (po_table_id p) /\
  match op, po_write p with
  | CsInsert _ values, PwInsert new => length new = length values /\ po_conflict p = None
  | CsUpdate _ values, PwUpdate old new =>
      length old = length values /\ length new = length values /\
      conflict_checked op (po_conflict p)
  | CsDelete _ values, PwDelete old =>
      length old = length values /\ conflict_checked op (po_conflict p)
  | _, _ => False
  end.

Definition patchset_op_planned (op : PatchsetOp) (p : PlannedOp) : Prop :=
  let table := ts_name (ps_table op) in
  admitted_table table /\ catalog_table_id table = Some (po_table_id p) /\
  po_conflict p = None /\
  exists t values new, op = PsInsert t values /\ po_write p = PwInsert new.

Lemma admitted_guard table :
  negb (is_writable write_policy table) && negb (registry_table table) = false ->
  admitted_table table.
Proof.
  intros [H|H]%andb_false_iff; apply negb_false_iff, bool_decide_eq_true in H;
    [by left|by right].
Qed.

Lemma plan_conflict_checked op c :
  plan_conflict (cs_table op) (primary_key op) (old_image op) = Ok c ->
  conflict_checked op c.
Proof.
  unfold plan_conflict, conflict_checked, table_id.
  destruct (version_column _ _) as [col|]; [|by intros [= <-]].
  rewrite rbind_Ok. intros (tid & Ht%ok_or_Ok & H). apply rbind_Ok in H as (idx & Hi%ok_or_Ok & H).
  apply rbind_Ok in H as (b & Hb%ok_or_Ok & H). apply rbind_Ok in H as (cols & Hc & [= <-]).
  apply try_map_Ok, Forall2_length in Hc. by eexists _, tid, idx.
Qed.

Lemma plan_changeset_op_planned op p :
  plan_changeset_op op = Ok p -> changeset_op_planned op p.
Proof.
  unfold plan_changeset_op. destruct (_ && _) eqn:G; [done|].
  intros (tid & Ht%ok_or_Ok & H)%rbind_Ok. apply rbind_Ok in H as ([w c] & H & [= <-]).
  split; [by apply admitted_guard|]. split; [done|]. simpl.
  destruct op as [t vs|t vs|t vs]; simpl in H.
  - injection H as <- <-. split; [|done]. apply length_imap.
  - apply rbind_Ok in H as (c' & H & [= <- <-]). rewrite !length_imap.
    do 2 (split; [done|]). by apply plan_conflict_checked.
  - apply rbind_Ok in H as (c' & H & [= <- <-]). unfold row_from_wire. rewrite length_imap.
    split; [done|]. by apply plan_conflict_checked.
Qed.

Lemma plan_patchset_op_planned op p :
  plan_patchset_op op = Ok p -> patchset_op_planned op p.
Proof.
  unfold plan_patchset_op. destruct (_ && _) eqn:G; [done|].
  destruct op as [t vs|t|t]; [|done..]. intros (tid & Ht%ok_or_Ok & [= <-])%rbind_Ok.
  split; [by apply admitted_guard|]. naive_solver.
Qed.

(** A plan is fail-closed: every op of the upload is planned, in order,
    against an admitted table the catalog knows; a patchset plans inserts
    only; and each update or delete of a versioned table carries the conflict
    read, its basis the op's old image of the version column. *)
Theorem plan_write_fail_closed payload plan :
  plan_write payload = Ok plan ->
  exists raw parsed, decompress payload = Ok raw /\ parse_diffset raw = Ok parsed /\
    match parsed with
    | PdChangeset ops => Forall2 changeset_op_planned ops (wp_ops plan)
    | PdPatchset ops => Forall2 patchset_op_planned ops (wp_ops plan)
    end.
Proof.
  unfold plan_write. intros (raw & Hr%map_err_Ok & H)%rbind_Ok.
  apply rbind_Ok in H as (parsed & Hp%map_err_Ok & H).
  apply rbind_Ok in H as (ops & H & [= <-]). exists raw, parsed. do 2 (split; [done|]).
  destruct parsed; apply try_map_Ok in H; (eapply Forall2_impl; [exact H|]);
    eauto using plan_changeset_op_planned, plan_patchset_op_planned.
Qed.
End Planner.
