(* ===== verification/WriterStore.v ===== *)
(** The writer tables and their statements
    (src/crates/connetto-server/src/writer_schema.rs).

    [Db] is the Postgres database as the write path sees it: the writer rows,
    the settled rows, and the application's own tables. Each statement of the
    schema is one function on it. The application's tables and the third-party
    code that reads and writes them (subql's apply, the SQL engine, serde_json)
    are the fields of the class [Deployment].

    [db_log] is ghost state: no statement reads it. It records, in order, every
    change of the application's tables, so that the theorems can speak of how
    often a write was applied. *)

From stdpp Require Import base list numbers option strings gmap sets.
From S2P Require Import Prelude Wire Plan.
Open Scope Z_scope.

(** ** Settled outcomes *)

(** The path that settled one entry. *)
Inductive SettlePath := Direct | Restore | Courier.

#[export] Instance SettlePath_eq_dec : EqDecision SettlePath.
Proof. solve_decision. Defined.

Definition SettlePath_label (p : SettlePath) : string :=
  match p with Direct => "direct" | Restore => "restore" | Courier => "courier" end.

(** [FromSql]: the label read back, an unknown one refused. *)
Definition SettlePath_from_sql (label : string) : option SettlePath :=
  if decide (label = "direct") then Some Direct
  else if decide (label = "restore") then Some Restore
  else if decide (label = "courier") then Some Courier
  else None.

Inductive SettledOutcome :=
| Applied
| Rejected (reason : MutationRejectReason)
| Conflict (table version_column : string) (pk_columns : list string)
    (pk_values : list StoredValue).

#[export] Instance SettledOutcome_eq_dec : EqDecision SettledOutcome.
Proof. solve_decision. Defined.

(** A double JSON can carry: its exponent is not all ones. *)
Definition finite_real (v : StoredValue) : bool :=
  match v with
  | SReal bits => negb (Z.land (Z.shiftr bits 52) 2047 =? 2047)
  | _ => true
  end.

Definition json_safe (o : SettledOutcome) : bool :=
  match o with
  | Conflict _ _ _ pk_values => forallb finite_real pk_values
  | _ => true
  end.

(** A JSON value, as far as a version column's rendering tells it apart. *)
Inductive JsonValue := JString (text : string) | JNull | JOther (rendered : string).

(** ** The deployment *)

(** The caller of a connection: its run handle, its identity if it has one,
    and the share keys it holds (connetto-core/src/auth.rs). *)
Record Principal (Id : Type) := {
  pr_session_id : bytes;
  pr_identity : option Id;
  pr_capabilities : list string;
}.
Arguments pr_session_id {Id} _.
Arguments pr_identity {Id} _.
Arguments pr_capabilities {Id} _.

Class Deployment := {
  (** The deployment's user id, and its [Display]. *)
  Id : Type;
  Id_eq_dec :: EqDecision Id;
  display : Id -> string;
  (** [serde_json] on settled outcomes. *)
  outcome_json : SettledOutcome -> string;
  outcome_from_json : string -> Result SettledOutcome string;
  outcome_json_roundtrip : forall o, json_safe o = true ->
    outcome_from_json (outcome_json o) = Ok o;
  (** The application's tables, under the caller's row-level security. *)
  App : Type;
  exists_row : Principal Id -> App -> PlannedConflict -> Result bool DbError;
  load_row_json : Principal Id -> App -> string -> list string -> list WireValue ->
    Result (option string) DbError;
  json_get : string -> string -> Result (option JsonValue) string;
  pg_adapter : Result unit string;
  apply_diffset : Principal Id -> App -> bytes -> Result (nat * App) DbError;
}.

Abbreviation Caller := (Principal Id).

Section Store.
Context {DP : Deployment}.

(** One row of [_connetto_writers]. *)
Record WriterRec := {
  wr_user_id : option Id;
  wr_session_id : option bytes;
  wr_device_key : option bytes;
  wr_frontier : Z;
  wr_head : option bytes;
  wr_retired_at : option Z;
}.

(** The row as the schema reads it. *)
Record WriterRow := {
  row_writer : Z;
  row_user_id : option Id;
  row_device_key : option bytes;
  row_frontier : Z;
  row_head : option bytes;
  row_retired_at : option Z;
}.

Definition writer_row (w : Z) (r : WriterRec) : WriterRow :=
  {| row_writer := w; row_user_id := wr_user_id r; row_device_key := wr_device_key r;
     row_frontier := wr_frontier r; row_head := wr_head r;
     row_retired_at := wr_retired_at r |}.

(** One row of [_connetto_settled]; the outcome column is text. *)
Record SettledRow := {
  sr_entry_hash : bytes;
  sr_previous_hash : bytes;
  sr_outcome : string;
  sr_path : SettlePath;
}.

#[export] Instance SettledRow_eq_dec : EqDecision SettledRow.
Proof. solve_decision. Defined.

(** Ghost: one change of the application's tables, a write the server applied
    (with the keys it settled) or a change made outside the write path. *)
Inductive LogEntry :=
| LApplied (own : Z * Z) (original : option (Z * Z)) (caller : Caller) (diffset : bytes)
| LExternal (after : App).

Record Db := {
  db_writers : gmap Z WriterRec;
  db_next : Z;
  db_settled : gmap (Z * Z) SettledRow;
  db_app : App;
  db_log : list LogEntry;
}.

Definition set_writers (m : gmap Z WriterRec) (db : Db) : Db :=
  {| db_writers := m; db_next := db_next db; db_settled := db_settled db;
     db_app := db_app db; db_log := db_log db |}.
Definition set_settled (m : gmap (Z * Z) SettledRow) (db : Db) : Db :=
  {| db_writers := db_writers db; db_next := db_next db; db_settled := m;
     db_app := db_app db; db_log := db_log db |}.
Definition insert_writer (r : WriterRec) (db : Db) : Db :=
  {| db_writers := <[db_next db := r]> (db_writers db); db_next := db_next db + 1;
     db_settled := db_settled db; db_app := db_app db; db_log := db_log db |}.

Definition set_frontier (f : Z) (head : bytes) (r : WriterRec) : WriterRec :=
  {| wr_user_id := wr_user_id r; wr_session_id := wr_session_id r;
     wr_device_key := wr_device_key r; wr_frontier := f; wr_head := Some head;
     wr_retired_at := wr_retired_at r |}.
Definition set_retired (at_ : Z) (r : WriterRec) : WriterRec :=
  {| wr_user_id := wr_user_id r; wr_session_id := wr_session_id r;
     wr_device_key := wr_device_key r; wr_frontier := wr_frontier r;
     wr_head := wr_head r; wr_retired_at := Some at_ |}.
Definition fresh_writer (user_id : option Id) (session_id device_key : option bytes)
    (retired_at : option Z) : WriterRec :=
  {| wr_user_id := user_id; wr_session_id := session_id; wr_device_key := device_key;
     wr_frontier := 0; wr_head := None; wr_retired_at := retired_at |}.

(** ** The statements, one function each *)

Definition issue (user_id : option Id) (session_id : option bytes) (db : Db) : (Z * Z) * Db :=
  ((db_next db, 0), insert_writer (fresh_writer user_id session_id None None) db).

Definition by_number (writer : Z) (user_id : option Id) (session_id : option bytes)
    (db : Db) : option WriterRow :=
  match db_writers db !! writer with
  | Some r =>
      if decide (wr_user_id r = user_id /\ wr_session_id r = session_id)
      then Some (writer_row writer r) else None
  | None => None
  end.

(** The rows whose [device_key] equals a key; the column is UNIQUE. *)
Definition key_rows (device_key : bytes) (db : Db) : list (Z * WriterRec) :=
  filter (fun p => wr_device_key p.2 = Some device_key) (map_to_list (db_writers db)).

Definition by_key (device_key : bytes) (db : Db) : option WriterRow :=
  match key_rows device_key db with
  | (w, r) :: _ => Some (writer_row w r)
  | [] => None
  end.

Definition insert_key (user_id : option Id) (device_key : bytes) (db : Db) :
    option (Z * Z) * Db :=
  match key_rows device_key db with
  | [] => (Some (db_next db, 0),
           insert_writer (fresh_writer user_id None (Some device_key) None) db)
  | _ :: _ => (None, db)
  end.

Definition insert_retired_key (user_id : option Id) (device_key : bytes) (at_ : Z)
    (db : Db) : option Z * Db :=
  match key_rows device_key db with
  | [] => (Some (db_next db),
           insert_writer (fresh_writer user_id None (Some device_key) (Some at_)) db)
  | _ :: _ => (None, db)
  end.

Definition mark_retired (writer : Z) (device_key : option bytes) (at_ : Z) (db : Db) :
    bool * Db :=
  match db_writers db !! writer with
  | Some r =>
      if decide (wr_retired_at r = None /\ wr_device_key r = device_key)
      then (true, set_writers (<[writer := set_retired at_ r]> (db_writers db)) db)
      else (false, db)
  | None => (false, db)
  end.

Definition settled (writer seq : Z) (db : Db) : option SettledRow :=
  db_settled db !! (writer, seq).

Definition settle (writer seq : Z) (entry_hash previous_hash : bytes) (outcome : string)
    (path : SettlePath) (db : Db) : bool * Db :=
  match db_settled db !! (writer, seq) with
  | Some _ => (false, db)
  | None =>
      (true, set_settled
         (<[(writer, seq) := {| sr_entry_hash := entry_hash; sr_previous_hash := previous_hash;
                                sr_outcome := outcome; sr_path := path |}]> (db_settled db)) db)
  end.

Definition advance (writer seq : Z) (head : bytes) (db : Db) : bool * Db :=
  match db_writers db !! writer with
  | Some r =>
      if decide (wr_frontier r = seq - 1)
      then (true, set_writers (<[writer := set_frontier seq head r]> (db_writers db)) db)
      else (false, db)
  | None => (false, db)
  end.

Definition restate (outcome : string) (r : SettledRow) : SettledRow :=
  {| sr_entry_hash := sr_entry_hash r; sr_previous_hash := sr_previous_hash r;
     sr_outcome := outcome; sr_path := sr_path r |}.

Definition settle_outcome (writer seq : Z) (outcome : string) (db : Db) : bool * Db :=
  match db_settled db !! (writer, seq) with
  | Some r => (true, set_settled (<[(writer, seq) := restate outcome r]> (db_settled db)) db)
  | None => (false, db)
  end.

(** The rows a delete removes, and their number at [i64]. *)
Definition delete_settled (P : Z * Z -> bool) (db : Db) : Z * Db :=
  (i64_or_max (Z.of_nat (size (filter (fun p => P p.1 = true) (db_settled db)))),
   set_settled (filter (fun p => P p.1 = false) (db_settled db)) db).

Definition prune (writer seq : Z) : Db -> Z * Db :=
  delete_settled (fun k => (k.1 =? writer) && (k.2 <=? seq)).

Definition prune_all (writer : Z) : Db -> Z * Db :=
  delete_settled (fun k => k.1 =? writer).

Definition device_writers (db : Db) : list (Z * option bytes) :=
  (fun p => (p.1, wr_device_key p.2)) <$>
  filter (fun p => is_Some (wr_device_key p.2)) (map_to_list (db_writers db)).

(** Ghost: the application's tables after one log entry, and a log's keys. *)
Definition replay (app : App) (e : LogEntry) : App :=
  match e with
  | LApplied _ _ caller diffset =>
      match apply_diffset caller app diffset with Ok (_, app') => app' | Err _ => app end
  | LExternal after => after
  end.

Definition entry_keys (e : LogEntry) : list (Z * Z) :=
  match e with
  | LApplied own original _ _ => own :: option_list original
  | LExternal _ => []
  end.

Definition log_keys (log : list LogEntry) : list (Z * Z) := log ≫= entry_keys.

Definition append_log (app : App) (e : LogEntry) (db : Db) : Db :=
  {| db_writers := db_writers db; db_next := db_next db; db_settled := db_settled db;
     db_app := app; db_log := db_log db ++ [e] |}.

Definition frontier_of (db : Db) (w : Z) : option Z := wr_frontier <$> db_writers db !! w.
End Store.
