(* ===== verification/WriteTarget.v ===== *)
(** The write target: one transaction per write, which reserves the entry's
    settled row, applies the upload and advances the writer's frontier, or
    settles a refusal (src/crates/connetto-server/src/write_target.rs, the
    conflict probe of materializer.rs).

    A transaction body is a function from the database to a result and the
    database it leaves; [transaction] keeps that database on [Ok] and the
    original on [Err]. Transactions are atomic: the unique index behind
    [settle] and the row lock behind [advance] make a second writer of the same
    row wait for the first to finish, so two transactions on one writer behave
    as if one ran first. *)

From stdpp Require Import base list numbers option strings gmap sets.
From S2P Require Import Prelude Wire Plan WriterStore.
Open Scope Z_scope.

(** A failure inside the transaction. *)
Inductive CommitError :=
| CDb (err : DbError)
| CProbe (err : MaterializerError)
| CDenied
| CFrontier.

(** A failure while committing a mutation. *)
Inductive WriteError :=
| WUnauthorized
| WMaterializer (err : MaterializerError)
| WBackend (detail : string)
| WFrontier
| WTransient (detail : string).

#[export] Instance WriteError_eq_dec : EqDecision WriteError.
Proof. solve_decision. Defined.

Definition WriteError_detail (err : WriteError) : string :=
  match err with
  | WUnauthorized => "unauthorized"
  | WMaterializer err => MaterializerError_text err
  | WBackend detail | WTransient detail => detail
  | WFrontier => "the writer's frontier moved"
  end.

(** [From<diesel::result::Error>]. *)
Definition WriteError_from (err : DbError) : WriteError :=
  match diesel_failure err with
  | Transient => WTransient (DbError_text err)
  | Timeout | Other => WBackend (DbError_text err)
  end.

Definition pool_failure (err : string) : WriteError := WTransient err.

Definition is_rls_violation (text : string) : bool :=
  contains (to_lowercase text) "row-level security".

Definition commit_failure (err : CommitError) : WriteError :=
  match err with
  | CFrontier => WFrontier
  | CDenied => WUnauthorized
  | CDb err => if is_rls_violation (DbError_text err) then WUnauthorized else WriteError_from err
  | CProbe (MApply err) =>
      if decide (diesel_failure err = Transient) then WTransient (DbError_text err)
      else WMaterializer (MApply err)
  | CProbe err => WMaterializer err
  end.

Definition seq_storage (client_seq : Z) : Result Z WriteError :=
  ok_or (try_into i64_max client_seq) (WBackend "client sequence overflows storage").

(** One entry's settle instruction. *)
Record SettleSpec := {
  ss_writer : Z;
  ss_seq : Z;
  ss_entry_hash : bytes;
  ss_previous_hash : bytes;
  ss_path : SettlePath;
  ss_original : option (Z * Z * bytes * bytes);
}.

(** [settle.original.filter(..).map(seq_storage).transpose()?]: the original,
    unless it is the entry itself, with its sequence at storage width. *)
Definition storage_original (settle : SettleSpec) :
    Result (option (Z * Z * bytes * bytes)) WriteError :=
  match ss_original settle with
  | Some (writer, seq, hash, previous) =>
      if decide (writer <> ss_writer settle \/ seq <> ss_seq settle)
      then seq <-? seq_storage seq ;; Ok (Some (writer, seq, hash, previous))
      else Ok None
  | None => Ok None
  end.

Definition json_scalar_to_string (value : JsonValue) : string :=
  match value with JString text => text | JNull => "" | JOther r => r end.

Definition settled_conflict (c : PlannedConflict) : SettledOutcome :=
  Conflict (pc_table c) (pc_version_column c) (pc_pk_columns c) (stored_value <$> pc_pk_values c).

Section WriteTarget.
Context {CT : Catalog} {DP : Deployment}.

(** The winning record, and whether it is a fork of the entry asked about. *)
Record Settlement := { sm_row : SettledRow; sm_forked : bool }.

Inductive WriteOutcome :=
| WoApplied
| WoConflict (table : string) (server_row : option ConflictRow) (version_column : string)
    (pk_columns : list string) (pk_values : list StoredValue)
| WoSettled (settlement : Settlement).

Definition conflict_outcome (c : PlannedConflict) (row : option ServerRow) : WriteOutcome :=
  WoConflict (pc_table c)
    ((fun row => {| cr_updated_at := sr_version row; cr_row_json := sr_row_json row |}) <$> row)
    (pc_version_column c) (pc_pk_columns c) (stored_value <$> pc_pk_values c).

(** ** Transaction bodies *)

Definition TxM (A : Type) : Type := Db -> Result (A * Db) CommitError.

Definition tret {A} (a : A) : TxM A := fun db => Ok (a, db).
Definition tfail {A} (e : CommitError) : TxM A := fun _ => Err e.
Definition tbind {A B} (m : TxM A) (k : A -> TxM B) : TxM B :=
  fun db => match m db with Ok (a, db') => k a db' | Err e => Err e end.
Definition stmt {A} (f : Db -> A * Db) : TxM A := fun db => Ok (f db).
Definition query {A} (f : Db -> A) : TxM A := fun db => Ok (f db, db).
Definition lift {A} (r : Result A CommitError) : TxM A :=
  fun db => match r with Ok a => Ok (a, db) | Err e => Err e end.

Notation "x <-- m ;; k" := (tbind m (fun x => k))
  (at level 20, m at level 99, k at level 200).

(** [transaction]: commit on [Ok], roll back on [Err]. *)
Definition transaction {A} (body : TxM A) (db : Db) : Result A CommitError * Db :=
  match body db with Ok (a, db') => (Ok a, db') | Err e => (Err e, db) end.

Definition read_row_by_pk (caller : Caller) (app : App) (table version_column : string)
    (pk_columns : list string) (pk_values : list WireValue) :
    Result (option ServerRow) MaterializerError :=
  rows <-? map_err MApply (load_row_json caller app table pk_columns pk_values) ;;
  match rows with
  | None => Ok None
  | Some row_json =>
      version <-? map_err MParse (json_get row_json version_column) ;;
      Ok (Some {| sr_version := default "" (json_scalar_to_string <$> version);
                  sr_row_json := row_json |})
  end.

Definition read_settled_conflict_row (caller : Caller) (app : App)
    (table version_column : string) (pk_columns : list string)
    (pk_values : list StoredValue) : Result (option ServerRow) MaterializerError :=
  read_row_by_pk caller app table version_column pk_columns (wire_value <$> pk_values).

Definition probe_conflict_pg (caller : Caller) (c : PlannedConflict) (app : App) :
    Result ConflictProbe MaterializerError :=
  present <-? map_err MApply (exists_row caller app c) ;;
  if present : bool then Ok ProbeClear
  else
    row <-? read_row_by_pk caller app (pc_table c) (pc_version_column c)
      (pc_pk_columns c) (pc_pk_values c) ;;
    Ok (ProbeStale row).

Definition reserve_original (original : option (Z * Z * bytes * bytes)) (outcome : string) :
    TxM (option SettledRow) :=
  match original with
  | None => tret None
  | Some (writer, seq, hash, previous) =>
      won <-- stmt (settle writer seq hash previous outcome Restore) ;;
      if won : bool then tret None
      else
        row <-- query (settled writer seq) ;;
        row <-- lift (ok_or row (CDb NotFound)) ;;
        tret (Some row)
  end.

Definition advance_original (original : option (Z * Z * bytes * bytes)) : TxM unit :=
  match original with
  | Some (writer, seq, hash, _) =>
      moved <-- stmt (advance writer seq hash) ;;
      if moved : bool then tret tt else tfail CFrontier
  | None => tret tt
  end.

(** [if !advance(..) { return Err(Frontier) }] on the entry's own writer. *)
Definition advance_own (settle : SettleSpec) (seq : Z) : TxM unit :=
  moved <-- stmt (advance (ss_writer settle) seq (ss_entry_hash settle)) ;;
  if moved : bool then tret tt else tfail CFrontier.

(** The entry's sequence was settled already: its first-seen record. *)
Definition lost_sequence (settle : SettleSpec) (seq : Z) : TxM Settlement :=
  row <-- query (settled (ss_writer settle) seq) ;;
  row <-- lift (ok_or row (CDb NotFound)) ;;
  tret {| sm_row := row;
          sm_forked := negb (bool_decide (sr_entry_hash row = ss_entry_hash settle)) |}.

(** The first op of the plan whose probe is stale, with the row it met. *)
Fixpoint first_stale (caller : Caller) (ops : list PlannedOp) (app : App) :
    Result (option (PlannedConflict * option ServerRow)) MaterializerError :=
  match ops with
  | [] => Ok None
  | op :: ops' =>
      match po_conflict op with
      | None => first_stale caller ops' app
      | Some c =>
          probe <-? probe_conflict_pg caller c app ;;
          match probe with
          | ProbeStale row => Ok (Some (c, row))
          | ProbeClear => first_stale caller ops' app
          end
      end
  end.

Definition original_key (original : option (Z * Z * bytes * bytes)) : option (Z * Z) :=
  (fun o => o.1.1) <$> original.

Definition settle_original_outcome (original : option (Z * Z * bytes * bytes))
    (text : string) : TxM unit :=
  match original with
  | Some (writer, oseq, _, _) =>
      _ <-- stmt (settle_outcome writer oseq text) ;; tret tt
  | None => tret tt
  end.

(** [apply_diffset_bytes_async_with_catalog] on the application's tables, the
    number of rows it reports checked against the plan's. *)
Definition apply_upload (caller : Caller) (raw : bytes) (expected : nat)
    (own : Z * Z) (original : option (Z * Z)) : TxM unit :=
  fun db =>
    match apply_diffset caller (db_app db) raw with
    | Err e => Err (CDb e)
    | Ok (affected, app') =>
        if decide (affected < expected)%nat then Err CDenied
        else Ok (tt, append_log app' (LApplied own original caller raw) db)
    end.

Definition commit_body (caller : Caller) (plan : WritePlan) (raw : bytes)
    (spec : SettleSpec) (seq : Z) (original : option (Z * Z * bytes * bytes)) :
    TxM WriteOutcome :=
  let applied := outcome_json Applied in
  reserved <-- stmt (settle (ss_writer spec) seq (ss_entry_hash spec)
    (ss_previous_hash spec) applied (ss_path spec)) ;;
  if negb reserved then
    s <-- lost_sequence spec seq ;; tret (WoSettled s)
  else
    row <-- reserve_original original applied ;;
    match row with
    | Some row =>
        _ <-- stmt (settle_outcome (ss_writer spec) seq (sr_outcome row)) ;;
        _ <-- advance_own spec seq ;;
        tret (WoSettled {| sm_row := row; sm_forked := false |})
    | None =>
        app <-- query db_app ;;
        stale <-- lift (map_err CProbe (first_stale caller (wp_ops plan) app)) ;;
        match stale with
        | Some (c, row) =>
            let text := outcome_json (settled_conflict c) in
            _ <-- stmt (settle_outcome (ss_writer spec) seq text) ;;
            _ <-- settle_original_outcome original text ;;
            _ <-- advance_original original ;;
            _ <-- advance_own spec seq ;;
            tret (conflict_outcome c row)
        | None =>
            _ <-- lift (map_err (fun e => CProbe (MCatalog e)) pg_adapter) ;;
            _ <-- apply_upload caller raw (length (wp_ops plan))
              (ss_writer spec, seq) (original_key original) ;;
            _ <-- advance_original original ;;
            _ <-- advance_own spec seq ;;
            tret WoApplied
        end
    end.

Definition refusal_body (spec : SettleSpec) (outcome : SettledOutcome) (seq : Z)
    (original : option (Z * Z * bytes * bytes)) : TxM Settlement :=
  let text := outcome_json outcome in
  won <-- stmt (settle (ss_writer spec) seq (ss_entry_hash spec)
    (ss_previous_hash spec) text (ss_path spec)) ;;
  if negb won then lost_sequence spec seq
  else
    row <-- reserve_original original text ;;
    result <-- match row with
      | Some row =>
          _ <-- stmt (settle_outcome (ss_writer spec) seq (sr_outcome row)) ;;
          tret {| sm_row := row; sm_forked := false |}
      | None =>
          _ <-- advance_original original ;;
          tret {| sm_row := {| sr_entry_hash := ss_entry_hash spec;
                               sr_previous_hash := ss_previous_hash spec;
                               sr_outcome := text; sr_path := ss_path spec |};
                  sm_forked := false |}
      end ;;
    _ <-- advance_own spec seq ;;
    tret result.

(** ** Database accesses, and how they fail *)

(** What the environment does to one database access: nothing, no connection
    from the pool, a failed statement (the transaction rolls back), or a
    failure reported after the server committed. *)
Inductive Fault :=
| FNone
| FPool (text : string)
| FLost (err : DbError)
| FAmbiguous (err : DbError).

Definition run_tx {A} (fault : Fault) (body : TxM A) (db : Db) : Result A WriteError * Db :=
  match fault with
  | FPool text => (Err (pool_failure text), db)
  | FLost err => (Err (commit_failure (CDb err)), db)
  | FNone => let '(r, db') := transaction body db in (map_err commit_failure r, db')
  | FAmbiguous err =>
      match transaction body db with
      | (Ok _, db') => (Err (commit_failure (CDb err)), db')
      | (Err e, db') => (Err (commit_failure e), db')
      end
  end.

(** A single statement outside a transaction commits by itself. *)
Definition run_stmt {A} (fault : Fault) (f : Db -> A * Db) (db : Db) :
    Result A WriteError * Db :=
  match fault with
  | FPool text => (Err (pool_failure text), db)
  | FLost err => (Err (WriteError_from err), db)
  | FNone => let '(a, db') := f db in (Ok a, db')
  | FAmbiguous err => (Err (WriteError_from err), (f db).2)
  end.

Definition run_query {A} (fault : Fault) (f : Db -> A) : Db -> Result A WriteError * Db :=
  run_stmt fault (fun db => (f db, db)).

Definition commit (fault : Fault) (caller : Caller) (plan : WritePlan)
    (payload_zstd : bytes) (spec : SettleSpec) (db : Db) : Result WriteOutcome WriteError * Db :=
  match seq_storage (ss_seq spec), storage_original spec, decompress payload_zstd with
  | Err e, _, _ | Ok _, Err e, _ => (Err e, db)
  | Ok _, Ok _, Err err => (Err (WBackend ("decompress: " +:+ err)), db)
  | Ok seq, Ok original, Ok raw =>
      run_tx fault (commit_body caller plan raw spec seq original) db
  end.

Definition settle_refusal (fault : Fault) (spec : SettleSpec) (outcome : SettledOutcome)
    (db : Db) : Result Settlement WriteError * Db :=
  match seq_storage (ss_seq spec), storage_original spec with
  | Err e, _ | Ok _, Err e => (Err e, db)
  | Ok seq, Ok original => run_tx fault (refusal_body spec outcome seq original) db
  end.

(** The single-statement members of the target. *)
Definition issue_writer fault (user_id : option Id) (session_id : option bytes) :=
  run_stmt fault (issue user_id session_id).
Definition writer_by_number fault writer (user_id : option Id) (session_id : option bytes) :=
  run_query fault (by_number writer user_id session_id).
Definition writer_by_key fault device_key := run_query fault (by_key device_key).
Definition insert_device_writer fault (user_id : option Id) device_key :=
  run_stmt fault (insert_key user_id device_key).
Definition insert_retired_device_writer fault (user_id : option Id) device_key at_ :=
  run_stmt fault (insert_retired_key user_id device_key at_).
Definition mark_writer_retired fault writer device_key at_ :=
  run_stmt fault (mark_retired writer device_key at_).
Definition list_device_writers fault := run_query fault device_writers.

Definition settled_row fault (writer seq : Z) (db : Db) :
    Result (option SettledRow) WriteError * Db :=
  match seq_storage seq with
  | Err e => (Err e, db)
  | Ok seq => run_query fault (settled writer seq) db
  end.

Definition prune_settled fault (writer seq : Z) (db : Db) : Result unit WriteError * Db :=
  match seq_storage seq with
  | Err e => (Err e, db)
  | Ok seq => let '(r, db') := run_stmt fault (prune writer seq) db in
              (_ <-? r ;; Ok tt, db')
  end.

Definition prune_writer fault (writer : Z) (db : Db) : Result unit WriteError * Db :=
  let '(r, db') := run_stmt fault (prune_all writer) db in (_ <-? r ;; Ok tt, db').

Definition settled_conflict_row fault (caller : Caller) (table version_column : string)
    (pk_columns : list string) (pk_values : list StoredValue) (db : Db) :
    Result (option ServerRow) WriteError * Db :=
  match run_query fault (fun db => read_settled_conflict_row caller (db_app db) table
          version_column pk_columns pk_values) db with
  | (Ok r, db') => (map_err (fun err => WBackend (MaterializerError_text err)) r, db')
  | (Err e, db') => (Err e, db')
  end.

(** ** What one transaction does, in one piece *)

Definition add_rows (rows : list (Z * Z * SettledRow)) (db : Db) : Db :=
  set_settled (foldr (fun p m => <[p.1 := p.2]> m) (db_settled db) rows) db.

Definition add_log (log : option (App * LogEntry)) (db : Db) : Db :=
  match log with Some (app, e) => append_log app e db | None => db end.

Fixpoint advances (rows : list (Z * Z * SettledRow)) (db : Db) : option Db :=
  match rows with
  | [] => Some db
  | (w, s, row) :: rows' =>
      match advance w s (sr_entry_hash row) db with
      | (true, db') => advances rows' db'
      | (false, _) => None
      end
  end.

(** [db'] is [db] with fresh settled rows, at most one log entry, and each
    row's writer advanced to it, in order. *)
Definition settles (db : Db) (rows : list (Z * Z * SettledRow))
    (log : option (App * LogEntry)) (db' : Db) : Prop :=
  Forall (fun p => db_settled db !! p.1 = None) rows /\
  advances rows (add_log log (add_rows rows db)) = Some db'.

Definition own_row (spec : SettleSpec) (text : string) : SettledRow :=
  {| sr_entry_hash := ss_entry_hash spec; sr_previous_hash := ss_previous_hash spec;
     sr_outcome := text; sr_path := ss_path spec |}.

Definition original_rows (original : option (Z * Z * bytes * bytes)) (text : string) :
    list (Z * Z * SettledRow) :=
  match original with
  | Some (w, s, hash, previous) =>
      [(w, s, {| sr_entry_hash := hash; sr_previous_hash := previous;
                 sr_outcome := text; sr_path := Restore |})]
  | None => []
  end.

Definition entry_rows spec seq original text : list (Z * Z * SettledRow) :=
  original_rows original text ++ [(ss_writer spec, seq, own_row spec text)].

Lemma tbind_Ok {A B} (m : TxM A) (k : A -> TxM B) db b db' :
  tbind m k db = Ok (b, db') <-> exists a d, m db = Ok (a, d) /\ k a d = Ok (b, db').
Proof.
  unfold tbind. destruct (m db) as [[a d]|e]; split.
  - eauto.
  - by intros (? & ? & [= -> ->] & ?).
  - done.
  - by intros (? & ? & ? & _).
Qed.

Lemma stmt_Ok {A} (f : Db -> A * Db) db a db' : stmt f db = Ok (a, db') <-> f db = (a, db').
Proof. unfold stmt. split; congruence. Qed.

Lemma lift_Ok {A} (r : Result A CommitError) db a db' :
  lift r db = Ok (a, db') <-> r = Ok a /\ db' = db.
Proof. unfold lift. destruct r; split; [by intros [= -> ->]|by intros [[= ->] ->]|done|by intros [? _]]. Qed.

Lemma add_rows_nil db : add_rows [] db = db.
Proof. by destruct db. Qed.

Lemma add_rows_app rows1 rows2 db :
  add_rows (rows1 ++ rows2) db = add_rows rows1 (add_rows rows2 db).
Proof. unfold add_rows, set_settled. simpl. by rewrite foldr_app. Qed.

Lemma settle_inv w s h p text path db won db' :
  settle w s h p text path db = (won, db') ->
  if won : bool
  then db_settled db !! (w, s) = None /\
       db' = add_rows [(w, s, {| sr_entry_hash := h; sr_previous_hash := p;
                                 sr_outcome := text; sr_path := path |})] db
  else is_Some (db_settled db !! (w, s)) /\ db' = db.
Proof. unfold settle. destruct (_ !! _) eqn:E; intros [= <- <-]; eauto. Qed.

(** Restating the outcome of a row added in the same transaction is adding the
    row with that outcome. *)
Lemma settle_outcome_added w s row text db :
  settle_outcome w s text (add_rows [(w, s, row)] db)
  = (true, add_rows [(w, s, restate text row)] db).
Proof.
  unfold settle_outcome, add_rows, set_settled. simpl.
  rewrite lookup_insert_eq, insert_insert_eq. done.
Qed.

Lemma settle_outcome_added_ne w s k row text db :
  k <> (w, s) ->
  settle_outcome w s text (add_rows [(k, row)] db)
  = let '(b, db') := settle_outcome w s text db in (b, add_rows [(k, row)] db').
Proof.
  intros Hne. unfold settle_outcome, add_rows, set_settled. simpl.
  rewrite lookup_insert_ne by done. destruct (_ !! _); [|done]. simpl.
  by rewrite insert_insert_ne by done.
Qed.

Lemma reserve_original_inv original text db r db' :
  reserve_original original text db = Ok (r, db') ->
  match r with
  | None => Forall (fun p => db_settled db !! p.1 = None) (original_rows original text) /\
            db' = add_rows (original_rows original text) db
  | Some row => db' = db /\ exists k, original_key original = Some k /\
                db_settled db !! k = Some row
  end.
Proof.
  destruct original as [[[[w s] h] p]|]; simpl.
  - intros H. apply tbind_Ok in H as (won & d & Hs%stmt_Ok%settle_inv & H).
    destruct won; simpl in H.
    + injection H as <- <-. destruct Hs as [? ->]. eauto.
    + destruct Hs as [_ ->]. apply tbind_Ok in H as (o & d & [= <- <-] & H).
      apply tbind_Ok in H as (row & d & Hl & [= <- <-]). apply lift_Ok in Hl as [Hl ->].
      apply ok_or_Ok in Hl. eauto.
  - intros [= <- <-]. by rewrite add_rows_nil.
Qed.

Lemma lost_sequence_inv spec seq db s db' :
  lost_sequence spec seq db = Ok (s, db') ->
  db' = db /\ db_settled db !! (ss_writer spec, seq) = Some (sm_row s) /\
  sm_forked s = negb (bool_decide (sr_entry_hash (sm_row s) = ss_entry_hash spec)).
Proof.
  unfold lost_sequence. intros H. apply tbind_Ok in H as (o & d & [= <- <-] & H).
  apply tbind_Ok in H as (row & d & Hl & [= <- <-]). apply lift_Ok in Hl as [Hl%ok_or_Ok ->].
  done.
Qed.

Lemma advance_own_inv spec seq text db u db' :
  advance_own spec seq db = Ok (u, db') ->
  advances [(ss_writer spec, seq, own_row spec text)] db = Some db'.
Proof.
  unfold advance_own. intros H. apply tbind_Ok in H as (m & d & Ha%stmt_Ok & H).
  simpl. rewrite Ha. destruct m; [|done]. by injection H as _ <-.
Qed.

Lemma advances_app rows1 rows2 db :
  advances (rows1 ++ rows2) db = advances rows1 db ≫= advances rows2.
Proof.
  revert db. induction rows1 as [|[[w s] row] rows1 IH]; intros db; [done|]. simpl.
  destruct (advance _ _ _ _) as [[] d]; [apply IH|done].
Qed.

Lemma advance_both_inv spec seq original text db (u v : unit) d db' :
  advance_original original db = Ok (u, d) -> advance_own spec seq d = Ok (v, db') ->
  advances (entry_rows spec seq original text) db = Some db'.
Proof.
  intros Ho Hs. unfold entry_rows. rewrite advances_app.
  assert (advances (original_rows original text) db = Some d) as ->.
  - destruct original as [[[[w s] h] p]|]; simpl in *; [|by injection Ho as _ ->].
    apply tbind_Ok in Ho as (m & e & Ha%stmt_Ok & Ho). rewrite Ha.
    destruct m; [|done]. by injection Ho as _ <-.
  - by apply (advance_own_inv _ _ text) in Hs.
Qed.

(** The rows a transaction adds for an original and the entry, in the order the
    statements add them. *)
Lemma add_rows_swap w s row original text db :
  Forall (fun p => p.1 <> (w, s)) (original_rows original text) ->
  add_rows (original_rows original text) (add_rows [(w, s, row)] db)
  = add_rows [(w, s, row)] (add_rows (original_rows original text) db).
Proof.
  destruct original as [[[[ow os] h] p]|]; simpl; intros Hne.
  - apply Forall_cons in Hne as [Hne _]. simpl in Hne. unfold add_rows, set_settled. simpl.
    by rewrite insert_insert_ne.
  - by rewrite !add_rows_nil.
Qed.

Lemma fresh_beside w s row rows db :
  Forall (fun p => db_settled (add_rows [(w, s, row)] db) !! p.1 = None) rows ->
  Forall (fun p => p.1 <> (w, s)) rows /\
  Forall (fun p : Z * Z * SettledRow => db_settled db !! p.1 = None) rows.
Proof.
  intros H. split; (eapply Forall_impl; [exact H|]); intros [k r]; simpl; intros Hk;
    apply lookup_insert_None in Hk as [? ?]; congruence.
Qed.

(** Restating the outcome of both reserved rows. *)
Lemma settle_outcome_both spec seq original t0 t1 db b d1 (u : unit) d2 :
  Forall (fun p => p.1 <> (ss_writer spec, seq)) (original_rows original t0) ->
  settle_outcome (ss_writer spec) seq t1
    (add_rows (original_rows original t0)
       (add_rows [(ss_writer spec, seq, own_row spec t0)] db)) = (b, d1) ->
  settle_original_outcome original t1 d1 = Ok (u, d2) ->
  d2 = add_rows (entry_rows spec seq original t1) db.
Proof.
  intros Hne. rewrite add_rows_swap by done. rewrite settle_outcome_added. intros [= <- <-].
  unfold entry_rows. rewrite add_rows_app.
  destruct original as [[[[w s] h] p]|]; simpl in *.
  - apply Forall_cons in Hne as [Hne _]. simpl in Hne.
    intros (b & d & Hb%stmt_Ok & [= _ <-])%tbind_Ok.
    rewrite settle_outcome_added_ne in Hb by congruence.
    rewrite settle_outcome_added in Hb. injection Hb as _ <-.
    unfold add_rows, set_settled; simpl. by rewrite insert_insert_ne by congruence.
  - intros [= _ <-]. by rewrite !add_rows_nil.
Qed.

(** What [commit_body] does when it succeeds: the entry was settled already; or
    its original was, whose outcome it takes; or a probe was stale; or the
    upload applied. *)
Definition commit_effect caller plan raw spec seq original (db : Db)
    (out : WriteOutcome) (db' : Db) : Prop :=
  (exists row, db_settled db !! (ss_writer spec, seq) = Some row /\ db' = db /\
     out = WoSettled {| sm_row := row;
       sm_forked := negb (bool_decide (sr_entry_hash row = ss_entry_hash spec)) |}) \/
  (exists row k, original_key original = Some k /\
     (k <> (ss_writer spec, seq) -> db_settled db !! k = Some row) /\
     settles db [(ss_writer spec, seq, own_row spec (sr_outcome row))] None db' /\
     out = WoSettled {| sm_row := row; sm_forked := false |}) \/
  (exists c row, first_stale caller (wp_ops plan) (db_app db) = Ok (Some (c, row)) /\
     settles db (entry_rows spec seq original (outcome_json (settled_conflict c))) None db' /\
     out = conflict_outcome c row) \/
  (exists n app, first_stale caller (wp_ops plan) (db_app db) = Ok None /\
     apply_diffset caller (db_app db) raw = Ok (n, app) /\
     (length (wp_ops plan) <= n)%nat /\
     settles db (entry_rows spec seq original (outcome_json Applied))
       (Some (app, LApplied (ss_writer spec, seq) (original_key original) caller raw)) db' /\
     out = WoApplied).

Lemma settles_own_taken spec seq t0 row db (u : unit) db' b d :
  db_settled db !! (ss_writer spec, seq) = None ->
  settle_outcome (ss_writer spec) seq (sr_outcome row)
    (add_rows [(ss_writer spec, seq, own_row spec t0)] db) = (b, d) ->
  advance_own spec seq d = Ok (u, db') ->
  settles db [(ss_writer spec, seq, own_row spec (sr_outcome row))] None db'.
Proof.
  rewrite settle_outcome_added. intros Hn [= <- <-] H.
  apply (advance_own_inv _ _ (sr_outcome row)) in H. split; [|exact H]. by constructor.
Qed.

(** The two rows of a write, reserved and advanced, make one [settles]. *)
Lemma settles_entry spec seq original t0 text log db db' :
  db_settled db !! (ss_writer spec, seq) = None ->
  Forall (fun p => db_settled
    (add_rows [(ss_writer spec, seq, own_row spec t0)] db) !! p.1 = None)
    (original_rows original t0) ->
  advances (entry_rows spec seq original text)
    (add_log log (add_rows (entry_rows spec seq original text) db)) = Some db' ->
  settles db (entry_rows spec seq original text) log db'.
Proof.
  intros Hn [_ Hf]%fresh_beside Ha. split; [|done]. apply Forall_app. split; [|by constructor].
  destruct original as [[[[w s] h] p]|]; simpl in *; [|done].
  apply Forall_cons in Hf as [Hf _]. by constructor.
Qed.

Lemma original_taken_inv original w s row0 db row k :
  original_key original = Some k ->
  db_settled (add_rows [(w, s, row0)] db) !! k = Some row ->
  k <> (w, s) -> db_settled db !! k = Some row.
Proof. intros _ H Hne. simpl in H. by rewrite lookup_insert_ne in H by congruence. Qed.

Lemma commit_body_inv caller plan raw spec seq original db out db' :
  commit_body caller plan raw spec seq original db = Ok (out, db') ->
  commit_effect caller plan raw spec seq original db out db'.
Proof.
  unfold commit_body. intros H. apply tbind_Ok in H as (won & d0 & Hw%stmt_Ok%settle_inv & H).
  destruct won; simpl in H; destruct Hw as [Hn ->].
  2:{ left. apply tbind_Ok in H as (s & d & Hs%lost_sequence_inv & [= <- <-]).
      destruct Hs as (-> & Hr & Hf). destruct s as [row f]; simpl in *; subst. eauto. }
  right. apply tbind_Ok in H as (r & d1 & Hr%reserve_original_inv & H).
  destruct r as [row|]; destruct Hr as [Hd Hr].
  { left. subst d1. destruct Hr as (k & Hk & Hrow).
    apply tbind_Ok in H as (b & d & Hb%stmt_Ok & H).
    apply tbind_Ok in H as (u & d' & Hu & [= <- <-]). exists row, k.
    split_and!; [done|eauto using original_taken_inv|eauto using settles_own_taken|done]. }
  right. subst d1. pose proof Hd as [Hne _]%fresh_beside.
  apply tbind_Ok in H as (app & d & [= <- <-] & H).
  apply tbind_Ok in H as (stale & d & [Hs%map_err_Ok ->]%lift_Ok & H).
  assert (Happ : forall rows d, db_app (add_rows rows d) = db_app d) by done.
  rewrite ?Happ in Hs. destruct stale as [[c row]|].
  - left. exists c, row. apply tbind_Ok in H as (b & d2 & Hb%stmt_Ok & H).
    apply tbind_Ok in H as (u & d3 & Ho & H).
    apply tbind_Ok in H as (u2 & d4 & Ha & H). apply tbind_Ok in H as (u3 & d5 & Hb' & [= <- <-]).
    pose proof (settle_outcome_both _ _ _ _ _ _ _ _ _ _ Hne Hb Ho) as ->.
    split_and!; [done| |done].
    eapply (settles_entry _ _ _ _ _ None); [done|exact Hd|]. by eapply advance_both_inv.
  - right. apply tbind_Ok in H as (u & d2 & [_ ->]%lift_Ok & H).
    apply tbind_Ok in H as (u1 & d2 & Hu & H).
    apply tbind_Ok in H as (u2 & d3 & Ha & H). apply tbind_Ok in H as (u3 & d4 & Hb' & [= <- <-]).
    unfold apply_upload in Hu. rewrite ?Happ in Hu.
    destruct (apply_diffset _ _ _) as [[n app]|e] eqn:Eap; [|done].
    destruct (decide _) as [|Hge]; [done|]. injection Hu as <- <-.
    exists n, app. split_and!; [done..|lia| |done].
    eapply settles_entry; [done|exact Hd|].
    unfold entry_rows at 2. rewrite add_rows_app. by eapply advance_both_inv.
Qed.

(** What [refusal_body] does when it succeeds. *)
Definition refusal_effect spec outcome seq original (db : Db) (out : Settlement)
    (db' : Db) : Prop :=
  (exists row, db_settled db !! (ss_writer spec, seq) = Some row /\ db' = db /\
     out = {| sm_row := row;
       sm_forked := negb (bool_decide (sr_entry_hash row = ss_entry_hash spec)) |}) \/
  (exists row k, original_key original = Some k /\
     (k <> (ss_writer spec, seq) -> db_settled db !! k = Some row) /\
     settles db [(ss_writer spec, seq, own_row spec (sr_outcome row))] None db' /\
     out = {| sm_row := row; sm_forked := false |}) \/
  (settles db (entry_rows spec seq original (outcome_json outcome)) None db' /\
     out = {| sm_row := own_row spec (outcome_json outcome); sm_forked := false |}).

Lemma refusal_body_inv spec outcome seq original db out db' :
  refusal_body spec outcome seq original db = Ok (out, db') ->
  refusal_effect spec outcome seq original db out db'.
Proof.
  unfold refusal_body. intros H. apply tbind_Ok in H as (won & d0 & Hw%stmt_Ok%settle_inv & H).
  destruct won; simpl in H; destruct Hw as [Hn ->].
  2:{ left. apply lost_sequence_inv in H as (-> & Hr & Hf).
      destruct out as [row f]; simpl in *; subst. eauto. }
  right. apply tbind_Ok in H as (r & d1 & Hr%reserve_original_inv & H).
  apply tbind_Ok in H as (res & d2 & Hres & H). apply tbind_Ok in H as (u & d3 & Hu & [= <- <-]).
  destruct r as [row|]; destruct Hr as [Hd Hr].
  - left. subst d1. destruct Hr as (k & Hk & Hrow).
    apply tbind_Ok in Hres as (b & d & Hb%stmt_Ok & [= <- <-]). exists row, k.
    split_and!; [done|eauto using original_taken_inv|eauto using settles_own_taken|done].
  - right. subst d1. apply tbind_Ok in Hres as (u1 & d & Ha & [= <- <-]).
    split; [|done]. eapply (settles_entry _ _ _ _ _ None); [done|exact Hd|].
    unfold entry_rows at 2. cbn [add_log]. rewrite add_rows_app. by eapply advance_both_inv.
Qed.

End WriteTarget.
