(* ===== verification/Settlement.v ===== *)
(** The invariant of the writer tables, and the exactly-once property of the
    write target: every transaction any session can run, whatever its
    arguments and however it fails, preserves it. *)

From stdpp Require Import base list numbers option strings gmap sets.
From S2P Require Import Prelude Wire Plan WriterStore WriteTarget.
Open Scope Z_scope.

Section Settlement.
Context {CT : Catalog} {DP : Deployment}.

(** A sequence the writer's frontier covers. *)
Definition below (db : Db) (k : Z * Z) : Prop :=
  exists r, db_writers db !! k.1 = Some r /\ 1 <= k.2 <= wr_frontier r.

Definition writer_ok (r : WriterRec) : Prop :=
  0 <= wr_frontier r /\ (wr_frontier r = 0 <-> wr_head r = None).

(** A writer's head is the hash its frontier entry settled with. *)
Definition heads_ok (db : Db) : Prop :=
  forall w r row, db_writers db !! w = Some r ->
    db_settled db !! (w, wr_frontier r) = Some row -> wr_head r = Some (sr_entry_hash row).

Definition keys_unique (db : Db) : Prop :=
  forall w1 w2 r1 r2 k, db_writers db !! w1 = Some r1 -> db_writers db !! w2 = Some r2 ->
    wr_device_key r1 = Some k -> wr_device_key r2 = Some k -> w1 = w2.

(** The invariant: the application's tables are the log replayed; no sequence
    was applied twice; every settled or applied sequence is covered by its
    writer's frontier; an applied sequence that still has its row is recorded
    as applied. *)
Record db_ok (init : App) (db : Db) : Prop := {
  ok_fresh : forall w, is_Some (db_writers db !! w) -> w < db_next db;
  ok_writers : map_Forall (fun _ r => writer_ok r) (db_writers db);
  ok_unique : keys_unique db;
  ok_heads : heads_ok db;
  ok_settled : forall k, is_Some (db_settled db !! k) -> below db k;
  ok_log : Forall (below db) (log_keys (db_log db));
  ok_once : NoDup (log_keys (db_log db));
  ok_recorded : forall k row, k ∈ log_keys (db_log db) ->
    db_settled db !! k = Some row -> sr_outcome row = outcome_json Applied;
  ok_app : db_app db = foldl replay init (db_log db);
}.

(** What no transaction changes about a writer, and what only grows; and a
    settled row, once its writer's frontier covers it, never changes: it is
    there as it was, or pruned. *)
Definition writer_le (r r' : WriterRec) : Prop :=
  wr_user_id r' = wr_user_id r /\ wr_session_id r' = wr_session_id r /\
  wr_device_key r' = wr_device_key r /\ wr_frontier r <= wr_frontier r' /\
  (wr_frontier r' = wr_frontier r -> wr_head r' = wr_head r) /\
  (is_Some (wr_retired_at r) -> wr_retired_at r' = wr_retired_at r).

Definition db_le (db db' : Db) : Prop :=
  (forall w r, db_writers db !! w = Some r ->
     exists r', db_writers db' !! w = Some r' /\ writer_le r r') /\
  db_next db <= db_next db' /\ prefix (db_log db) (db_log db') /\
  (forall k row, below db k -> db_settled db' !! k = Some row -> db_settled db !! k = Some row).

#[export] Instance writer_le_preorder : PreOrder writer_le.
Proof.
  split.
  - intros r. unfold writer_le. split_and!; auto. lia.
  - intros a b c (?&?&?&?&Hh&Hr) (?&?&?&?&Hh'&Hr'). unfold writer_le. split_and!.
    + congruence.
    + congruence.
    + congruence.
    + lia.
    + intros. rewrite Hh' by lia. apply Hh. lia.
    + intros Hs. pose proof (Hr Hs) as E. rewrite <- E. apply Hr'. by rewrite E.
Qed.

#[export] Instance db_le_preorder : PreOrder db_le.
Proof.
  split.
  - intros db. split_and!; [|lia|done|done]. intros w r Hw. by exists r.
  - intros a b c (Hw & ? & ? & Hs) (Hw' & ? & ? & Hs'). split_and!; [|lia|by etrans|].
    + intros w r (r1 & Hr1 & ?)%Hw. apply Hw' in Hr1 as (r2 & ? & ?). exists r2.
      split; [done|by etrans].
    + intros k row Hb Hrow. apply Hs; [done|]. apply Hs'; [|done].
      destruct Hb as (r & Hr & Hk). apply Hw in Hr as (r' & Hr' & (_&_&_&?&_)).
      exists r'. split; [done|lia].
Qed.

(** ** Advancing *)

Lemma advance_inv w s h db b db' :
  advance w s h db = (b, db') ->
  if b : bool
  then exists r, db_writers db !! w = Some r /\ wr_frontier r = s - 1 /\
       db' = set_writers (<[w := set_frontier s h r]> (db_writers db)) db
  else db' = db.
Proof.
  unfold advance. destruct (_ !! w) as [r|] eqn:E; [|by intros [= <- <-]].
  case_decide; intros [= <- <-]; eauto.
Qed.

Lemma set_frontier_le s h r : wr_frontier r < s -> writer_le r (set_frontier s h r).
Proof. intros. unfold writer_le; simpl. split_and!; try done; lia. Qed.

Lemma set_writers_le w r r' db :
  db_writers db !! w = Some r -> writer_le r r' ->
  db_le db (set_writers (<[w := r']> (db_writers db)) db).
Proof.
  intros Hw Hle. split_and!; [|simpl; lia|done|done]. intros w' r0 Hw'. simpl.
  destruct (decide (w = w')) as [->|Hne].
  - rewrite lookup_insert_eq. simplify_eq. eauto.
  - rewrite lookup_insert_ne by done. exists r0. by split.
Qed.

Lemma below_mono db db' k : db_le db db' -> below db k -> below db' k.
Proof.
  intros (Hw & _) (r & Hr & ?). apply Hw in Hr as (r' & ? & (?&?&?&?&?&?)).
  exists r'. split; [done|lia].
Qed.

(** Everything [advances] leaves alone. *)
Definition same_but_writers (db db' : Db) : Prop :=
  db_next db' = db_next db /\ db_settled db' = db_settled db /\
  db_app db' = db_app db /\ db_log db' = db_log db /\
  dom (db_writers db') = dom (db_writers db).

Definition frontiers_ok (db : Db) : Prop :=
  map_Forall (fun _ r => writer_ok r) (db_writers db).

Lemma advance_step w s h db db' :
  frontiers_ok db -> advance w s h db = (true, db') ->
  same_but_writers db db' /\ db_le db db' /\ frontiers_ok db' /\
  ~ below db (w, s) /\ below db' (w, s).
Proof.
  intros Hf (r & Hr & Hs & ->)%advance_inv. pose proof (Hf _ _ Hr) as [H0 _]. simpl in H0.
  split_and!.
  - unfold same_but_writers; simpl. split_and!; try done.
    rewrite dom_insert_lookup_L; [done|eauto].
  - eapply set_writers_le; [done|]. apply set_frontier_le. lia.
  - apply map_Forall_insert_2; [|done]. unfold writer_ok. simpl. split; [lia|].
    split; [lia|done].
  - intros (r' & Hr' & ?). simpl in *. simplify_eq. lia.
  - exists (set_frontier s h r). simpl. rewrite lookup_insert_eq. split; [done|]. simpl. lia.
Qed.

Lemma advances_step rows db db' :
  frontiers_ok db -> advances rows db = Some db' ->
  same_but_writers db db' /\ db_le db db' /\ frontiers_ok db' /\
  Forall (fun p => ~ below db p.1 /\ below db' p.1) rows /\ NoDup rows.*1.
Proof.
  revert db. induction rows as [|[[w s] row] rows IH]; intros db Hf; simpl.
  - intros [= <-]. split_and!; try done; constructor.
  - destruct (advance w s _ db) as [[] d] eqn:E; [|done]. intros H.
    apply advance_step in E as ((?&?&?&?&?) & Hle & Hf' & Hn & Hb); [|done].
    apply IH in H as ((?&?&?&?&?) & Hle' & Hf'' & Hrows & Hnd); [|done].
    split_and!; [unfold same_but_writers; split_and!; congruence|by etrans|done| |].
    + constructor; [split; [done|by eapply below_mono]|].
      eapply Forall_impl; [exact Hrows|]. intros p [Hp ?]. split; [|done].
      intros ?. apply Hp. by eapply below_mono.
    + constructor; [|done]. intros (p & Hpe & Hp)%list_elem_of_fmap.
      rewrite Forall_forall in Hrows. destruct (Hrows p Hp) as [Hnb _].
      apply Hnb. rewrite <- Hpe. exact Hb.
Qed.

Lemma advances_heads rows db db' :
  (forall p, p ∈ rows -> db_settled db !! p.1 = Some p.2) ->
  heads_ok db -> advances rows db = Some db' -> heads_ok db'.
Proof.
  revert db. induction rows as [|[[w s] row] rows IH]; intros db Hin Hh; simpl.
  - by intros [= <-].
  - destruct (advance w s _ db) as [[] d] eqn:E; [|done].
    apply advance_inv in E as (r & Hr & Hs & ->). apply IH.
    + intros p Hp. simpl. apply Hin. by right.
    + intros w' r' row' Hw'. simpl in Hw'. simpl. intros Hrow'.
      apply lookup_insert_Some in Hw' as [[<- <-]|[Hne Hw']].
      * simpl in *. specialize (Hin _ (list_elem_of_here _ _)). simpl in Hin. congruence.
      * by eapply Hh.
Qed.

(** ** Settling *)

Lemma add_rows_lookup rows db k row :
  NoDup rows.*1 -> (k, row) ∈ rows -> db_settled (add_rows rows db) !! k = Some row.
Proof.
  unfold add_rows. simpl. induction rows as [|[k' row'] rows IH]; simpl; [by intros _ ?%not_elem_of_nil|].
  intros [Hn Hnd]%NoDup_cons [[= -> ->]|Hin]%elem_of_cons; [by rewrite lookup_insert_eq|].
  rewrite lookup_insert_ne; [by apply IH|]. intros ->. apply Hn.
  apply list_elem_of_fmap. by exists (k, row).
Qed.

Lemma add_rows_lookup_inv rows db k row :
  db_settled (add_rows rows db) !! k = Some row ->
  (k, row) ∈ rows \/ ((k ∉ rows.*1) /\ db_settled db !! k = Some row).
Proof.
  unfold add_rows. simpl. induction rows as [|[k' row'] rows IH]; simpl.
  - intros ?. right. split; [apply not_elem_of_nil|done].
  - intros [[-> ->]|[Hne H]]%lookup_insert_Some; [left; constructor|].
    apply IH in H as [?|[? ?]]; [left; by constructor|right].
    split; [|done]. by apply not_elem_of_cons.
Qed.

Lemma log_keys_app log1 log2 : log_keys (log1 ++ log2) = log_keys log1 ++ log_keys log2.
Proof. apply bind_app. Qed.

(** The log entry a [settles] carries: its replay, its keys those of the rows,
    and the rows recorded as applied. *)
Definition log_fits (db : Db) (rows : list (Z * Z * SettledRow)) (app : App)
    (e : LogEntry) : Prop :=
  app = replay (db_app db) e /\ (entry_keys e ≡ₚ rows.*1) /\
  Forall (fun p => sr_outcome p.2 = outcome_json Applied) rows.

Definition log_fits_opt db rows (log : option (App * LogEntry)) : Prop :=
  match log with Some (app, e) => log_fits db rows app e | None => True end.

Definition new_keys (log : option (App * LogEntry)) : list (Z * Z) :=
  match log with Some (_, e) => entry_keys e | None => [] end.

Lemma add_log_keys log db :
  log_keys (db_log (add_log log db)) = log_keys (db_log db) ++ new_keys log.
Proof.
  destruct log as [[app e]|]; simpl; [|by rewrite app_nil_r].
  rewrite log_keys_app. unfold log_keys at 2. simpl. by rewrite app_nil_r.
Qed.

Lemma add_log_prefix log db : prefix (db_log db) (db_log (add_log log db)).
Proof. destruct log as [[app e]|]; simpl; [by apply prefix_app_r|done]. Qed.

(** What [settles] does to the tables, with the frontiers' say. *)
Lemma settles_inv db rows log db' :
  frontiers_ok db -> settles db rows log db' ->
  db_le db db' /\ frontiers_ok db' /\ db_next db' = db_next db /\
  dom (db_writers db') = dom (db_writers db) /\
  Forall (fun p => ~ below db p.1 /\ below db' p.1) rows /\ NoDup rows.*1 /\
  db_settled db' = db_settled (add_rows rows db) /\
  db_app db' = db_app (add_log log db) /\ db_log db' = db_log (add_log log db) /\
  advances rows (add_log log (add_rows rows db)) = Some db'.
Proof.
  intros Hf [Hfresh Ha]. set (mid := add_log log (add_rows rows db)) in *.
  assert (Hw : db_writers mid = db_writers db) by (unfold mid; by destruct log as [[]|]).
  assert (Hbel : forall k, below mid k <-> below db k) by (intros k; unfold below; by rewrite Hw).
  pose proof Ha as Ha'. apply advances_step in Ha as ((Hn & Hs & Hap & Hl & Hd) & Hle & Hf' & Hr & Hnd);
    [|unfold frontiers_ok; by rewrite Hw].
  assert (Hmid : db_le db mid).
  { split_and!; [rewrite Hw; intros w r ?; by exists r| | |].
    - unfold mid; by destruct log as [[]|].
    - unfold mid. destruct log as [[]|]; simpl; [by apply prefix_app_r|done].
    - intros k row Hb Hrow. assert (Hrow' : db_settled (add_rows rows db) !! k = Some row)
        by (unfold mid in Hrow; by destruct log as [[]|]).
      apply add_rows_lookup_inv in Hrow' as [Hin|[_ ?]]; [|done].
      rewrite Forall_forall in Hr. destruct (Hr _ Hin) as [Hnb _]. by apply Hbel in Hb. }
  split_and!; try done; [by etrans| | |..].
  - rewrite Hn. unfold mid. by destruct log as [[]|].
  - rewrite Hd. by rewrite Hw.
  - eapply Forall_impl; [exact Hr|]. intros p [Hp ?]. split; [|done]. by rewrite <- Hbel.
  - rewrite Hs. unfold mid. by destruct log as [[]|].
  - rewrite Hap. unfold mid. by destruct log as [[]|].
  - rewrite Hl. unfold mid. by destruct log as [[]|].
Qed.

Lemma settles_heads init db rows log db' :
  db_ok init db -> settles db rows log db' -> heads_ok db'.
Proof.
  intros Hok Hs. pose proof (settles_inv _ _ _ _ (ok_writers _ _ Hok) Hs)
    as (_ & _ & _ & _ & Hr & Hnd & _ & _ & _ & Ha).
  eapply advances_heads; [|..|exact Ha].
  - intros [k row] Hp. simpl. replace (db_settled _) with (db_settled (add_rows rows db))
      by (by destruct log as [[]|]). by apply add_rows_lookup.
  - intros w r row Hw Hrow.
    assert (Hw' : db_writers db !! w = Some r) by (by destruct log as [[]|]).
    assert (Hrow' : db_settled (add_rows rows db) !! (w, wr_frontier r) = Some row)
      by (by destruct log as [[]|]).
    apply add_rows_lookup_inv in Hrow' as [Hin|[_ ?]]; [|by eapply ok_heads].
    rewrite Forall_forall in Hr. destruct (Hr _ Hin) as [Hnb (r' & Hr' & ?)].
    destruct Hs as [_ Hadv]. exfalso. simpl in *.
    destruct (ok_writers _ _ Hok _ _ Hw') as [H0 _]. simpl in H0.
    destruct (decide (wr_frontier r = 0)) as [E|]; [lia|].
    apply Hnb. exists r. simpl. split; [done|lia].
Qed.

Lemma settles_ok init db rows log db' :
  db_ok init db -> settles db rows log db' -> log_fits_opt db rows log -> db_ok init db'.
Proof.
  intros Hok Hs Hlog. pose proof (settles_heads _ _ _ _ _ Hok Hs) as Hheads.
  pose proof (settles_inv _ _ _ _ (ok_writers _ _ Hok) Hs)
    as (Hle & Hf & Hn & Hd & Hr & Hnd & Hset & Happ & Hl & _). rewrite Forall_forall in Hr.
  assert (Hnew : forall k, k ∈ new_keys log -> exists row, (k, row) ∈ rows).
  { intros k Hk. destruct log as [[app e]|]; simpl in Hk; [|by apply not_elem_of_nil in Hk].
    destruct Hlog as (_ & Hp & _). rewrite Hp in Hk.
    apply list_elem_of_fmap in Hk as ([k' row] & -> & ?). eauto. }
  assert (Hbelow : Forall (below db) (log_keys (db_log db))) by apply Hok.
  rewrite Forall_forall in Hbelow.
  split; [|done| |done|..].
  - intros w. rewrite Hn, <- elem_of_dom, Hd, elem_of_dom. apply Hok.
  - intros w1 w2 r1 r2 k H1 H2 K1 K2.
    assert (Hback : forall w r', db_writers db' !! w = Some r' ->
      exists r, db_writers db !! w = Some r /\ writer_le r r').
    { intros w r' Hw. assert (is_Some (db_writers db !! w)) as [r Hr0].
      { rewrite <- elem_of_dom, <- Hd, elem_of_dom. eauto. }
      destruct Hle as [Hle _]. apply Hle in Hr0 as Hr1. destruct Hr1 as (r'' & ? & ?).
      simplify_eq. eauto. }
    apply Hback in H1 as (q1 & H1 & (_&_&E1&_)). apply Hback in H2 as (q2 & H2 & (_&_&E2&_)).
    eapply (ok_unique _ _ Hok _ _ _ _ k); [exact H1|exact H2|congruence|congruence].
  - intros k [row Hk]. rewrite Hset in Hk. apply add_rows_lookup_inv in Hk as [Hin|[_ ?]].
    + by apply (Hr (k, row)).
    + eapply below_mono; [done|]. apply Hok. eauto.
  - rewrite Hl, add_log_keys. apply Forall_app. rewrite !Forall_forall. split.
    + intros k Hk. eapply below_mono; [done|]. by apply Hbelow.
    + intros k (row & Hin)%Hnew. by apply (Hr (k, row)).
  - rewrite Hl, add_log_keys. apply NoDup_app. split_and!; [apply Hok| |].
    + intros k Hk (row & Hin)%Hnew. destruct (Hr _ Hin) as [Hnb _]. by apply Hnb, Hbelow.
    + destruct log as [[app e]|]; simpl; [|constructor]. destruct Hlog as (_ & Hp & _).
      by rewrite Hp.
  - intros k row. rewrite Hl, add_log_keys, Hset, elem_of_app.
    intros Hk [Hin|[Hnot Hrow]]%add_rows_lookup_inv.
    + destruct Hk as [Hk|Hk].
      * destruct (Hr _ Hin) as [Hnb _]. by destruct Hnb; apply Hbelow.
      * destruct log as [[app e]|]; [|by apply not_elem_of_nil in Hk].
        destruct Hlog as (_ & _ & Ho). rewrite Forall_forall in Ho. by apply (Ho (k, row)).
    + destruct Hk as [Hk|(row' & Hin)%Hnew]; [by eapply ok_recorded|].
      destruct Hnot. apply list_elem_of_fmap. by exists (k, row').
  - rewrite Happ, Hl. destruct log as [[app e]|]; simpl; [|apply Hok].
    destruct Hlog as (-> & _). rewrite foldl_snoc. by rewrite (ok_app _ _ Hok).
Qed.

(** ** The other statements *)

Lemma insert_writer_ok init r db :
  db_ok init db -> writer_ok r -> wr_frontier r = 0 ->
  (forall k, wr_device_key r = Some k -> key_rows k db = []) ->
  db_ok init (insert_writer r db) /\ db_le db (insert_writer r db).
Proof.
  intros Hok Hr Hfr Hkey.
  assert (Hnone : db_writers db !! db_next db = None).
  { destruct (db_writers db !! db_next db) eqn:E; [|done].
    pose proof (ok_fresh _ _ Hok (db_next db) (mk_is_Some _ _ E)). lia. }
  assert (Hle : db_le db (insert_writer r db)).
  { split_and!; [|simpl; lia|done|done]. intros w r0 Hw. exists r0. split; [|done]. simpl.
    rewrite lookup_insert_ne; [done|]. intros E. rewrite E in Hnone. congruence. }
  assert (Huniq : forall w r0 k, db_writers db !! w = Some r0 ->
    wr_device_key r0 = Some k -> wr_device_key r <> Some k).
  { intros w r0 k Hw Hk Hk'. specialize (Hkey _ Hk'). unfold key_rows in Hkey.
    apply (f_equal (fun l => (w, r0) ∈ l)) in Hkey.
    assert (H : (w, r0) ∈ ([] : list (Z * WriterRec))).
    { rewrite <- Hkey. apply list_elem_of_filter. split; [done|by apply elem_of_map_to_list]. }
    by apply not_elem_of_nil in H. }
  split; [|done]. split; simpl.
  - intros w [r0 Hw]. apply lookup_insert_Some in Hw as [[<- _]|[_ Hw]]; [lia|].
    pose proof (ok_fresh _ _ Hok w (mk_is_Some _ _ Hw)). lia.
  - apply map_Forall_insert_2; [done|apply Hok].
  - intros w1 w2 r1 r2 k H1 H2 K1 K2. simpl in *.
    apply lookup_insert_Some in H1 as [[<- <-]|[N1 H1]];
      apply lookup_insert_Some in H2 as [[<- <-]|[N2 H2]]; [done|..].
    + by destruct (Huniq _ _ _ H2 K2).
    + by destruct (Huniq _ _ _ H1 K1).
    + by eapply (ok_unique _ _ Hok).
  - intros w r0 row Hw Hrow. simpl in *. apply lookup_insert_Some in Hw as [[<- <-]|[_ Hw]].
    + rewrite Hfr in Hrow. destruct (ok_settled _ _ Hok _ (mk_is_Some _ _ Hrow)) as (r1 & Hr1 & ?).
      simpl in *. lia.
    + by eapply (ok_heads _ _ Hok).
  - intros k Hk. eapply below_mono; [done|]. by apply Hok.
  - eapply Forall_impl; [apply Hok|]. intros k Hk. by eapply below_mono.
  - apply Hok.
  - apply Hok.
  - apply Hok.
Qed.

Lemma mark_retired_ok init w key at_ db :
  db_ok init db ->
  db_ok init (mark_retired w key at_ db).2 /\ db_le db (mark_retired w key at_ db).2.
Proof.
  intros Hok. unfold mark_retired. destruct (_ !! w) as [r|] eqn:E; [|done].
  case_decide as Hd; [|done]. simpl.
  assert (Hle : db_le db (set_writers (<[w := set_retired at_ r]> (db_writers db)) db)).
  { eapply set_writers_le; [done|]. unfold writer_le; simpl. split_and!; try done.
    intros [? ?]. destruct Hd. congruence. }
  split; [|done]. split; simpl.
  - intros w' [r' Hw']. apply lookup_insert_Some in Hw' as [[<- _]|[_ ?]];
      apply (ok_fresh _ _ Hok); eauto.
  - apply map_Forall_insert_2; [|apply Hok]. exact (ok_writers _ _ Hok _ _ E).
  - pose proof (ok_unique _ _ Hok) as Hu. intros w1 w2 r1 r2 k H1 H2 K1 K2. simpl in *.
    apply lookup_insert_Some in H1 as [[<- <-]|[N1 H1]];
      apply lookup_insert_Some in H2 as [[<- <-]|[N2 H2]]; simpl in *; [done|..];
      by eapply Hu.
  - intros w' r' row Hw Hrow. simpl in *. apply lookup_insert_Some in Hw as [[<- <-]|[_ Hw]];
      [exact (ok_heads _ _ Hok _ _ _ E Hrow)|exact (ok_heads _ _ Hok _ _ _ Hw Hrow)].
  - intros k Hk. eapply below_mono; [done|]. by apply Hok.
  - eapply Forall_impl; [apply Hok|]. intros k Hk. by eapply below_mono.
  - apply Hok.
  - apply Hok.
  - apply Hok.
Qed.

Lemma delete_settled_ok init P db :
  db_ok init db -> db_ok init (delete_settled P db).2 /\ db_le db (delete_settled P db).2.
Proof.
  intros Hok.
  assert (Hsub : forall k row, db_settled (delete_settled P db).2 !! k = Some row ->
    db_settled db !! k = Some row) by (intros k row [? _]%map_lookup_filter_Some; done).
  split; [|split_and!; [intros w r ?; by exists r|simpl; lia|done|auto]].
  split; try (simpl; apply Hok).
  - intros w r row Hw Hrow%Hsub. by eapply (ok_heads _ _ Hok).
  - intros k [row Hrow%Hsub]. by apply (ok_settled _ _ Hok).
  - intros k row Hk Hrow%Hsub. by eapply (ok_recorded _ _ Hok).
Qed.

(** ** Every transaction *)

Lemma commit_effect_ok init caller plan raw spec seq original db out db' :
  db_ok init db -> commit_effect caller plan raw spec seq original db out db' ->
  db_ok init db' /\ db_le db db'.
Proof.
  intros Hok [(row & _ & -> & _)|[(row & k & _ & _ & Hs & _)|[(c & row & _ & Hs & _)|Ha]]].
  - done.
  - split; [by eapply settles_ok|]. by apply settles_inv in Hs as [? _]; [|apply Hok].
  - split; [by eapply settles_ok|]. by apply settles_inv in Hs as [? _]; [|apply Hok].
  - destruct Ha as (n & app & _ & Hap & _ & Hs & _).
    split; [|by apply settles_inv in Hs as [? _]; [|apply Hok]].
    eapply settles_ok; [done..|]. split_and!.
    + simpl. by rewrite Hap.
    + unfold entry_rows. rewrite fmap_app. simpl.
      destruct original as [[[[w s] h] p]|]; simpl; [apply Permutation_swap|done].
    + unfold entry_rows. apply Forall_app. split; [|by constructor].
      destruct original as [[[[w s] h] p]|]; simpl; by repeat constructor.
Qed.

Lemma refusal_effect_ok init spec outcome seq original db out db' :
  db_ok init db -> refusal_effect spec outcome seq original db out db' ->
  db_ok init db' /\ db_le db db'.
Proof.
  intros Hok [(row & _ & -> & _)|[(row & k & _ & _ & Hs & _)|[Hs _]]]; [done|..];
    (split; [by eapply settles_ok|by apply settles_inv in Hs as [? _]; [|apply Hok]]).
Qed.

(** A transaction either leaves the database or does what its body does. *)
Lemma run_tx_inv {A} fault (body : TxM A) db r db' :
  run_tx fault body db = (r, db') -> db' = db \/ exists a, body db = Ok (a, db').
Proof.
  unfold run_tx, transaction.
  destruct fault; [|by intros [= _ <-]; left..|]; destruct (body db) as [[a d]|e];
    intros [= _ <-]; eauto.
Qed.

Lemma run_stmt_inv {A} fault (f : Db -> A * Db) db r db' :
  run_stmt fault f db = (r, db') -> db' = db \/ db' = (f db).2.
Proof.
  unfold run_stmt. destruct fault; [|by intros [= _ <-]; left..|by intros [= _ <-]; right].
  destruct (f db). intros [= _ <-]. by right.
Qed.

(** The transactions sessions run, each with its own failure, and a change of
    the application's tables from outside. *)
Inductive Tx :=
| TxCommit (fault : Fault) (caller : Caller) (plan : WritePlan) (payload_zstd : bytes)
    (spec : SettleSpec)
| TxRefuse (fault : Fault) (spec : SettleSpec) (outcome : SettledOutcome)
| TxIssue (fault : Fault) (user_id : option Id) (session_id : option bytes)
| TxInsertKey (fault : Fault) (user_id : option Id) (device_key : bytes)
| TxInsertRetiredKey (fault : Fault) (user_id : option Id) (device_key : bytes) (at_ : Z)
| TxMarkRetired (fault : Fault) (writer : Z) (device_key : option bytes) (at_ : Z)
| TxPrune (fault : Fault) (writer seq : Z)
| TxPruneAll (fault : Fault) (writer : Z)
| TxExternal (after : App).

Definition exec_tx (tx : Tx) (db : Db) : Db :=
  match tx with
  | TxCommit f caller plan payload spec => (commit f caller plan payload spec db).2
  | TxRefuse f spec outcome => (settle_refusal f spec outcome db).2
  | TxIssue f u s => (issue_writer f u s db).2
  | TxInsertKey f u k => (insert_device_writer f u k db).2
  | TxInsertRetiredKey f u k at_ => (insert_retired_device_writer f u k at_ db).2
  | TxMarkRetired f w k at_ => (mark_writer_retired f w k at_ db).2
  | TxPrune f w seq => (prune_settled f w seq db).2
  | TxPruneAll f w => (prune_writer f w db).2
  | TxExternal after => append_log after (LExternal after) db
  end.

Definition empty_db (app : App) : Db :=
  {| db_writers := ∅; db_next := 1; db_settled := ∅; db_app := app; db_log := [] |}.

Definition run_txs (txs : list Tx) (db : Db) : Db := foldl (fun db tx => exec_tx tx db) db txs.

Lemma empty_db_ok app : db_ok app (empty_db app).
Proof.
  split; simpl; try done.
  - by intros w [? ?].
  - by intros k [? ?].
  - constructor.
Qed.

Lemma commit_ok init fault caller plan payload spec db :
  db_ok init db ->
  db_ok init (commit fault caller plan payload spec db).2 /\
  db_le db (commit fault caller plan payload spec db).2.
Proof.
  intros Hok. unfold commit.
  destruct (seq_storage _); [|done]. destruct (storage_original _); [|done].
  destruct (decompress _); [|done].
  destruct (run_tx _ _ _) as [r db'] eqn:E; simpl.
  apply run_tx_inv in E as [->|(out & H%commit_body_inv)]; [done|].
  by eapply commit_effect_ok.
Qed.

Lemma settle_refusal_ok init fault spec outcome db :
  db_ok init db ->
  db_ok init (settle_refusal fault spec outcome db).2 /\
  db_le db (settle_refusal fault spec outcome db).2.
Proof.
  intros Hok. unfold settle_refusal.
  destruct (seq_storage _); [|done]. destruct (storage_original _); [|done].
  destruct (run_tx _ _ _) as [r db'] eqn:E; simpl.
  apply run_tx_inv in E as [->|(out & H%refusal_body_inv)]; [done|].
  by eapply refusal_effect_ok.
Qed.

(** Any statement that preserves the invariant does so however it fails. *)
Lemma run_stmt_ok {A} init fault (f : Db -> A * Db) db :
  db_ok init db -> (db_ok init (f db).2 /\ db_le db (f db).2) ->
  db_ok init (run_stmt fault f db).2 /\ db_le db (run_stmt fault f db).2.
Proof.
  intros Hok Hf. destruct (run_stmt _ _ _) as [r d] eqn:E; simpl.
  apply run_stmt_inv in E as [->| ->]; done.
Qed.

Lemma fresh_writer_ok (u : option Id) s k at_ : writer_ok (fresh_writer u s k at_).
Proof. unfold writer_ok. simpl. split; [lia|done]. Qed.

Lemma issue_ok init (u : option Id) s db :
  db_ok init db -> db_ok init (issue u s db).2 /\ db_le db (issue u s db).2.
Proof. intros Hok. apply insert_writer_ok; eauto using fresh_writer_ok. done. Qed.

Lemma insert_key_ok init (u : option Id) k db :
  db_ok init db -> db_ok init (insert_key u k db).2 /\ db_le db (insert_key u k db).2.
Proof.
  intros Hok. unfold insert_key. destruct (key_rows k db) eqn:E; [|done].
  apply insert_writer_ok; eauto using fresh_writer_ok. by intros k' [= <-].
Qed.

Lemma insert_retired_key_ok init (u : option Id) k at_ db :
  db_ok init db ->
  db_ok init (insert_retired_key u k at_ db).2 /\ db_le db (insert_retired_key u k at_ db).2.
Proof.
  intros Hok. unfold insert_retired_key. destruct (key_rows k db) eqn:E; [|done].
  apply insert_writer_ok; eauto using fresh_writer_ok. by intros k' [= <-].
Qed.

Lemma external_ok init app db :
  db_ok init db ->
  db_ok init (append_log app (LExternal app) db) /\ db_le db (append_log app (LExternal app) db).
Proof.
  intros Hok.
  assert (Hk : log_keys (db_log db ++ [LExternal app]) = log_keys (db_log db))
    by (rewrite log_keys_app; simpl; by rewrite app_nil_r).
  split; [|split_and!; [intros w r ?; by exists r|simpl; lia|by apply prefix_app_r|done]].
  split; simpl; rewrite ?Hk; try apply Hok. by rewrite foldl_snoc.
Qed.

Lemma exec_tx_ok init tx db :
  db_ok init db -> db_ok init (exec_tx tx db) /\ db_le db (exec_tx tx db).
Proof.
  intros Hok. destruct tx; simpl.
  - by apply commit_ok.
  - by apply settle_refusal_ok.
  - by apply run_stmt_ok; [|apply issue_ok].
  - by apply run_stmt_ok; [|apply insert_key_ok].
  - by apply run_stmt_ok; [|apply insert_retired_key_ok].
  - by apply run_stmt_ok; [|apply mark_retired_ok].
  - unfold prune_settled. destruct (seq_storage seq); [|done].
    pose proof (run_stmt_ok init fault (prune writer a) db Hok (delete_settled_ok _ _ _ Hok)).
    by destruct (run_stmt _ _ _).
  - unfold prune_writer.
    pose proof (run_stmt_ok init fault (prune_all writer) db Hok (delete_settled_ok _ _ _ Hok)).
    by destruct (run_stmt _ _ _).
  - by apply external_ok.
Qed.

Lemma run_txs_ok init txs db :
  db_ok init db -> db_ok init (run_txs txs db) /\ db_le db (run_txs txs db).
Proof.
  revert db. induction txs as [|tx txs IH]; intros db Hok; [done|]. simpl.
  apply (exec_tx_ok _ tx) in Hok as [Hok Hle]. apply IH in Hok as [Hok Hle'].
  split; [done|by etrans].
Qed.

(** C1. Exactly once: after any sequence of transactions from the empty
    tables, whatever entries, originals, prunes and failures it contains, no
    sequence of any writer, its own or an original a restore or a courier
    carried, was applied twice; the application's tables are the applied
    uploads replayed once each, in order; and an applied sequence that still
    has its settled row is recorded as applied. *)
Theorem exactly_once app0 txs :
  let db := run_txs txs (empty_db app0) in
  NoDup (log_keys (db_log db)) /\
  db_app db = foldl replay app0 (db_log db) /\
  (forall k row, k ∈ log_keys (db_log db) -> db_settled db !! k = Some row ->
     sr_outcome row = outcome_json Applied) /\
  (forall k, k ∈ log_keys (db_log db) -> below db k).
Proof.
  destruct (run_txs_ok app0 txs _ (empty_db_ok app0)) as [Hok _]. simpl.
  split_and!; try apply Hok. intros k Hk.
  pose proof (ok_log _ _ Hok) as Hl. rewrite Forall_forall in Hl. by apply Hl.
Qed.

(** Writers only move forward: along any further sequence of transactions
    every writer keeps its account, run handle and device key, its frontier
    never decreases, its head changes only with its frontier, a retirement is
    never undone, the log of applied writes only grows, and the record of a
    covered sequence never changes but by being pruned; and at every point the
    head of a writer is the hash its frontier entry settled with. *)
Theorem writers_monotone app0 txs txs' :
  let db := run_txs txs (empty_db app0) in
  let db' := run_txs txs' db in
  db_le db db' /\ heads_ok db' /\ keys_unique db' /\
  (forall k, is_Some (db_settled db' !! k) -> below db' k).
Proof.
  destruct (run_txs_ok app0 txs _ (empty_db_ok app0)) as [Hok _].
  destruct (run_txs_ok app0 txs' _ Hok) as [Hok' Hle]. simpl.
  split_and!; [done|apply Hok'..].
Qed.

(** ** What each result of [commit] and [settle_refusal] means *)

Lemma settles_last_frontier db rows w s row log db' :
  settles db (rows ++ [(w, s, row)]) log db' -> frontier_of db' w = Some s.
Proof.
  intros [_ Ha]. rewrite advances_app in Ha.
  destruct (advances rows _) as [d|]; [|done]. simpl in Ha.
  destruct (advance _ _ _ _) as [[] d'] eqn:E; [|done]. injection Ha as ->.
  apply advance_inv in E as (r & _ & _ & ->). unfold frontier_of. simpl.
  by rewrite lookup_insert_eq.
Qed.

(** Both rows of a write carry the outcome, the frontiers cover them, and the
    entry's own writer stands at it. *)
Definition recorded (spec : SettleSpec) (seq : Z) (original : option (Z * Z * bytes * bytes))
    (text : string) (db db' : Db) : Prop :=
  ~ below db (ss_writer spec, seq) /\
  db_settled db' !! (ss_writer spec, seq) = Some (own_row spec text) /\
  frontier_of db' (ss_writer spec) = Some seq /\
  Forall (fun p => ~ below db p.1 /\ below db' p.1 /\ db_settled db' !! p.1 = Some p.2)
    (original_rows original text).

Lemma settles_recorded db spec seq original text log db' :
  frontiers_ok db -> settles db (entry_rows spec seq original text) log db' ->
  recorded spec seq original text db db'.
Proof.
  intros Hf Hs. pose proof (settles_inv _ _ _ _ Hf Hs) as (_&_&_&_&Hr&Hnd&Hset&_).
  rewrite Forall_forall in Hr.
  assert (Hin : forall k row, (k, row) ∈ entry_rows spec seq original text ->
    ~ below db k /\ below db' k /\ db_settled db' !! k = Some row).
  { intros k row Hin. destruct (Hr _ Hin). rewrite Hset. split_and!; [done..|].
    by apply add_rows_lookup. }
  destruct (Hin (ss_writer spec, seq) (own_row spec text)) as (? & _ & ?);
    [apply elem_of_app; right; constructor|].
  split_and!; [done..|by eapply settles_last_frontier|].
  apply Forall_forall. intros [k row] Hk. apply Hin, elem_of_app. by left.
Qed.

Lemma settles_single_recorded db spec seq text log db' :
  frontiers_ok db -> settles db [(ss_writer spec, seq, own_row spec text)] log db' ->
  recorded spec seq None text db db'.
Proof. intros Hf Hs. by apply settles_recorded with log. Qed.

(** The result an answered access reports is the result of its body. *)
Lemma run_tx_Ok {A} fault (body : TxM A) db a db' :
  run_tx fault body db = (Ok a, db') -> body db = Ok (a, db').
Proof.
  unfold run_tx, transaction.
  destruct fault; try done; destruct (body db) as [[? ?]|]; simpl; try done.
  by intros [= -> ->].
Qed.

Lemma run_tx_Err {A} fault (body : TxM A) db e db' :
  run_tx fault body db = (Err e, db') ->
  db' = db \/ exists a err, fault = FAmbiguous err /\ body db = Ok (a, db').
Proof.
  unfold run_tx, transaction. destruct fault; [|by intros [= _ <-]; left..|];
    destruct (body db) as [[? ?]|] eqn:E; simpl; intros [= _ <-]; eauto 6.
Qed.

Lemma seq_storage_Ok seq s : seq_storage seq = Ok s -> s = seq /\ 0 <= seq <= i64_max.
Proof. intros [-> ?]%ok_or_Ok%try_into_Some. done. Qed.

Lemma storage_original_Ok spec o :
  storage_original spec = Ok o ->
  match o with
  | Some (w, s, h, p) => ss_original spec = Some (w, s, h, p) /\
                         (w, s) <> (ss_writer spec, ss_seq spec)
  | None => True
  end.
Proof.
  unfold storage_original. destruct (ss_original spec) as [[[[w s] h] p]|]; [|by intros [= <-]].
  case_decide as Hne; [|by intros [= <-]].
  intros (s' & [-> _]%seq_storage_Ok & [= <-])%rbind_Ok. split; [done|].
  intros [= -> ->]. by destruct Hne.
Qed.

Lemma storage_original_inv spec o :
  storage_original spec = Ok o ->
  match ss_original spec with
  | Some (w, s, h, p) => o = Some (w, s, h, p) \/ (w, s) = (ss_writer spec, ss_seq spec)
  | None => o = None
  end.
Proof.
  unfold storage_original. destruct (ss_original spec) as [[[[w s] h] p]|]; [|by intros [= <-]].
  case_decide as Hne.
  - intros (s' & [-> _]%seq_storage_Ok & [= <-])%rbind_Ok. by left.
  - intros _. right. destruct (decide (w = ss_writer spec)), (decide (s = ss_seq spec));
      subst; [done|destruct Hne; auto..].
Qed.

(** C18. [commit] on every branch, under any failure of the access. An applied
    upload had every probe clear and reported at least as many rows as the plan
    has ops; it is appended to the log once, and it and its original are
    recorded as applied with the frontiers over them. A conflict and an earlier
    settlement leave the application's tables alone. A fork is reported exactly
    when the settled hash differs. An error rolls everything back, unless the
    commit's own acknowledgement was lost. *)
Theorem commit_spec init fault caller plan payload spec db r db' :
  db_ok init db -> commit fault caller plan payload spec db = (r, db') ->
  match r with
  | Err _ => db' = db \/ exists out err, fault = FAmbiguous err /\
                commit FNone caller plan payload spec db = (Ok out, db')
  | Ok out =>
      exists raw original, decompress payload = Ok raw /\ storage_original spec = Ok original /\
      match out with
      | WoApplied =>
          first_stale caller (wp_ops plan) (db_app db) = Ok None /\
          (exists n, apply_diffset caller (db_app db) raw = Ok (n, db_app db') /\
             (length (wp_ops plan) <= n)%nat) /\
          db_log db' = db_log db ++
            [LApplied (ss_writer spec, ss_seq spec) (original_key original) caller raw] /\
          recorded spec (ss_seq spec) original (outcome_json Applied) db db'
      | WoConflict _ _ _ _ _ =>
          exists c row, first_stale caller (wp_ops plan) (db_app db) = Ok (Some (c, row)) /\
            out = conflict_outcome c row /\ db_app db' = db_app db /\ db_log db' = db_log db /\
            recorded spec (ss_seq spec) original (outcome_json (settled_conflict c)) db db'
      | WoSettled s =>
          db_app db' = db_app db /\ db_log db' = db_log db /\
          ((db' = db /\ db_settled db !! (ss_writer spec, ss_seq spec) = Some (sm_row s) /\
            (sm_forked s = true <-> sr_entry_hash (sm_row s) <> ss_entry_hash spec)) \/
           (sm_forked s = false /\
            (exists k, original_key original = Some k /\ db_settled db !! k = Some (sm_row s)) /\
            recorded spec (ss_seq spec) None (sr_outcome (sm_row s)) db db'))
      end
  end.
Proof.
  intros Hok. pose proof (ok_writers _ _ Hok) as Hf. unfold commit.
  destruct (seq_storage _) as [seq|] eqn:Es; [|by intros [= <- <-]; left].
  destruct (storage_original spec) as [original|] eqn:Eo; [|by intros [= <- <-]; left].
  destruct (decompress payload) as [raw|] eqn:Ed; [|by intros [= <- <-]; left].
  apply seq_storage_Ok in Es as [-> _]. destruct r as [out|e]; intros H.
  2:{ apply run_tx_Err in H as [->|(a & err & -> & H)]; [by left|right].
      exists a, err. split; [done|]. unfold run_tx, transaction. by rewrite H. }
  exists raw, original. do 2 (split; [done|]). apply run_tx_Ok, commit_body_inv in H.
  destruct H as [(row & Hr & -> & ->)|[(row & k & Hk & Hrow & Hs & ->)|
    [(c & row & Hst & Hs & ->)|(n & app & Hst & Hap & Hn & Hs & ->)]]].
  - do 2 (split; [done|]). left. split_and!; [done..|]. simpl. rewrite negb_true_iff.
    by rewrite bool_decide_eq_false.
  - pose proof (settles_inv _ _ _ _ Hf Hs) as (_&_&_&_&_&_&_&Ha&Hl&_).
    split_and!; [done..|]. right. split; [done|]. split; [|by eapply settles_single_recorded].
    exists k. split; [done|]. apply Hrow. apply storage_original_Ok in Eo.
    destruct original as [[[[w s] h] p]|]; [|done]. simpl in Hk. injection Hk as <-. apply Eo.
  - pose proof (settles_inv _ _ _ _ Hf Hs) as (_&_&_&_&_&_&_&Ha&Hl&_).
    exists c, row. split_and!; try done. by eapply settles_recorded.
  - pose proof (settles_inv _ _ _ _ Hf Hs) as (_&_&_&_&_&_&_&Ha&Hl&_).
    split_and!; [done|exists n; split; [|done]; by rewrite Ha|done|].
    by eapply settles_recorded.
Qed.

(** A sequence a frontier covers is never applied again, even once its
    settled row is pruned: if the entry or the original it carries is covered,
    [commit] leaves the application's tables as they are, whatever it reports. *)
Theorem covered_never_reapplied init fault caller plan payload spec db :
  db_ok init db ->
  below db (ss_writer spec, ss_seq spec) \/
    (exists w s h p, ss_original spec = Some (w, s, h, p) /\ below db (w, s)) ->
  let db' := (commit fault caller plan payload spec db).2 in
  db_app db' = db_app db /\ db_log db' = db_log db.
Proof.
  intros Hok Hcov. pose proof (ok_writers _ _ Hok) as Hf. unfold commit.
  destruct (seq_storage _) as [seq|] eqn:Es; [|done].
  destruct (storage_original spec) as [original|] eqn:Eo; [|done].
  destruct (decompress payload) as [raw|]; [|done]. apply seq_storage_Ok in Es as [-> _].
  destruct (run_tx _ _ _) as [r db'] eqn:E. simpl.
  apply run_tx_inv in E as [->|(out & H%commit_body_inv)]; [done|].
  destruct H as [(row & _ & -> & _)|[(row & k & _ & _ & Hs & _)|
    [(c & row & _ & Hs & _)|(n & app & _ & _ & _ & Hs & _)]]]; [done|..];
    pose proof (settles_inv _ _ _ _ Hf Hs) as (_&_&_&_&_&_&_&Ha&Hl&_); [done..|].
  exfalso. apply settles_recorded in Hs as (Hn & _ & _ & Hor); [|done].
  destruct Hcov as [?|(w & s & h & p & Hw & Hb)]; [done|]. apply storage_original_inv in Eo.
  rewrite Hw in Eo. destruct Eo as [->|[= -> ->]]; [|done].
  simpl in Hor. apply Forall_cons in Hor as [[? _] _]. done.
Qed.

(** Progress and idempotence of a direct write: at the frontier's
    successor, with every probe clear and enough rows changed, [commit]
    applies; and any later [commit] of the same sequence answers the first
    record, unforked exactly for the same hash, and changes nothing. *)
Theorem commit_applies_then_redelivers caller plan payload spec db r raw n app :
  db_writers db !! ss_writer spec = Some r -> wr_frontier r = ss_seq spec - 1 ->
  0 <= ss_seq spec <= i64_max -> ss_original spec = None ->
  db_settled db !! (ss_writer spec, ss_seq spec) = None ->
  decompress payload = Ok raw -> pg_adapter = Ok tt ->
  first_stale caller (wp_ops plan) (db_app db) = Ok None ->
  apply_diffset caller (db_app db) raw = Ok (n, app) -> (length (wp_ops plan) <= n)%nat ->
  exists db', commit FNone caller plan payload spec db = (Ok WoApplied, db') /\
    db_app db' = app /\
    forall caller2 plan2 spec2, ss_writer spec2 = ss_writer spec -> ss_seq spec2 = ss_seq spec ->
      ss_original spec2 = None ->
      commit FNone caller2 plan2 payload spec2 db' =
        (Ok (WoSettled {| sm_row := own_row spec (outcome_json Applied);
              sm_forked := negb (bool_decide (ss_entry_hash spec = ss_entry_hash spec2)) |}),
         db').
Proof.
  intros Hw Hfr Hseq Ho Hset Hd Hpg Hst Hap Hn.
  assert (Hss : forall sp, ss_seq sp = ss_seq spec -> seq_storage (ss_seq sp) = Ok (ss_seq spec)).
  { intros sp ->. unfold seq_storage, try_into. by rewrite decide_True. }
  assert (Hso : forall sp, ss_original sp = None -> storage_original sp = Ok None)
    by (intros sp E; unfold storage_original; by rewrite E).
  eexists. split; [|split].
  - unfold commit. rewrite (Hss spec eq_refl), (Hso spec Ho), Hd. unfold run_tx, transaction,
      commit_body, tbind, stmt, settle, lift, query, apply_upload, advance_own. simpl.
    rewrite Hset. simpl. rewrite Hst. simpl. rewrite Hpg. simpl. rewrite Hap.
    rewrite decide_False by lia. simpl. unfold tbind, stmt, advance. simpl. rewrite Hw.
    rewrite decide_True by lia. reflexivity.
  - done.
  - intros c2 p2 s2 E1 E2 E3. unfold commit. rewrite (Hss s2 E2), (Hso s2 E3), Hd.
    unfold run_tx, transaction, commit_body, tbind, stmt, settle, lost_sequence, query, settled.
    simpl. rewrite E1, lookup_insert_eq. simpl. unfold tbind, query. simpl.
    rewrite ?E1, lookup_insert_eq. done.
Qed.

End Settlement.
