(* ===== verification/Session.v ===== *)
(** The session layer's effects: the world a handler runs in, the monad of its
    database accesses, frames, audit events and errors, and the invariant every
    handler keeps (src/crates/connetto-server/src/session.rs).

    The environment is explicit. Each database access first lets any number of
    other sessions' transactions run ([ac_foreign]) and then fails or not
    ([ac_fault]); each frame is sent or the link is lost; the guard's permits
    and meters, the policy and the enrolment store answer as they like. *)

From stdpp Require Import base list numbers option strings gmap sets.
From S2P Require Import Prelude Wire Chain Backoff Plan WriterStore WriteTarget Settlement.
Open Scope Z_scope.

(** Failure surfaced by the session layer, as far as the write path raises it. *)
Inductive SessionError :=
| SProtocol (detail : string)
| SWriteTarget (detail : string)
| STransport.

(** The audit operations of the write path. *)
Inductive AuthOp := WriteForked | WriteRedelivered.

(** What the guard says of a rejected write: go on, or close the connection. *)
Inductive Reaction := Continue | Close.

(** A key's enrolment: whose it is, whether it was revoked, whether its
    certificate is live, and its public key. *)
Record KeyRecord {DP : Deployment} := {
  kr_user : Id;
  kr_revoked : bool;
  kr_certificate_live : bool;
  kr_public_key : bytes;
}.

Definition retry_ms (wait : Z) : Z := Z.min u64_max (as_millis wait).

(** [<[u8; 32]>::try_from]. *)
Definition try32 (b : bytes) : option bytes := if decide (length b = 32%nat) then Some b else None.

(** [head.map_or(GENESIS, |head| head.try_into().unwrap_or(GENESIS))]. *)
Definition head_or_genesis (head : option bytes) : bytes :=
  match head with Some h => default GENESIS (try32 h) | None => GENESIS end.

Definition reject_reason (err : MaterializerError) : MutationRejectReason :=
  match err with
  | MParse detail => RMalformed detail
  | MNotWritable _ | MSchemaMismatch _ => RSchemaMismatch
  | MApply inner => RConstraint (DbError_text inner)
  | other => ROther (MaterializerError_text other)
  end.

Inductive WriteVerdict := Allowed | Denied | Undetermined.

(** What the handlers take from code outside the write path: the policy, the
    device enrolment store (absent when none is installed), the signature
    check, and the configuration. The first argument of an answer is the
    number of the question, so that answers may change over time. *)
Class Services {DP : Deployment} := {
  may_write : Z -> Caller -> Z -> PlannedWrite -> Result bool unit;
  has_enrolment : bool;
  key_record : Z -> option Id -> bytes -> Result (option KeyRecord) unit;
  spki_point : bytes -> option bytes;
  verify : bytes -> bytes -> bytes -> bool;
  write_retry_budget : Z;
  mutation_limit : option Z;
  budget_range : 0 <= write_retry_budget <= duration_max;
}.

Section Session.
Context {CT : Catalog} {DP : Deployment} {SHA : Sha256} {SV : Services}.

Record AuthEvent := {
  ev_session : bytes;
  ev_user : option Id;
  ev_op : AuthOp;
  ev_writer : Z;
  ev_seq : Z;
  ev_settled_path : SettlePath;
  ev_arriving_path : SettlePath;
}.

(** The connection's state, as far as the write path touches it. *)
Record SessionState := {
  st_principal : Caller;
  st_pending_header : option MutationHeader;
  st_writer_row : option WriterRow;
  st_session_id : bytes;
  st_bind_nonce : bytes;
  st_indeterminate : option Z;
  st_deferred : gmap Z Z;
  st_closing : bool;
}.

Record Access := { ac_foreign : list Tx; ac_fault : Fault }.

(** The environment's answers, consumed in order: an exhausted list stands for
    an undisturbed access, a delivered frame, a granted permit or meter, a
    guard that lets the session go on. A refusal carries the wait. *)
Record Env := {
  en_access : list Access;
  en_link : list bool;
  en_permits : list (option Z);
  en_meter : list (option Z);
  en_reactions : list Reaction;
}.

Record World := {
  w_db : Db;
  w_env : Env;
  w_out : list Frame;
  w_audit : list AuthEvent;
  w_abuse : Z;
  w_questions : Z;
  w_seeds : Z;
  w_slept : Z;
  w_writer_sessions : gmap Z (gset bytes);
  w_closed : list (bytes * FatalErrorReason);
  w_state : SessionState;
}.

Definition with_db (db : Db) (w : World) : World :=
  {| w_db := db; w_env := w_env w; w_out := w_out w; w_audit := w_audit w;
     w_abuse := w_abuse w; w_questions := w_questions w; w_seeds := w_seeds w;
     w_slept := w_slept w; w_writer_sessions := w_writer_sessions w;
     w_closed := w_closed w; w_state := w_state w |}.
Definition with_env (e : Env) (w : World) : World :=
  {| w_db := w_db w; w_env := e; w_out := w_out w; w_audit := w_audit w;
     w_abuse := w_abuse w; w_questions := w_questions w; w_seeds := w_seeds w;
     w_slept := w_slept w; w_writer_sessions := w_writer_sessions w;
     w_closed := w_closed w; w_state := w_state w |}.
Definition with_out (o : list Frame) (w : World) : World :=
  {| w_db := w_db w; w_env := w_env w; w_out := o; w_audit := w_audit w;
     w_abuse := w_abuse w; w_questions := w_questions w; w_seeds := w_seeds w;
     w_slept := w_slept w; w_writer_sessions := w_writer_sessions w;
     w_closed := w_closed w; w_state := w_state w |}.
Definition with_state (s : SessionState) (w : World) : World :=
  {| w_db := w_db w; w_env := w_env w; w_out := w_out w; w_audit := w_audit w;
     w_abuse := w_abuse w; w_questions := w_questions w; w_seeds := w_seeds w;
     w_slept := w_slept w; w_writer_sessions := w_writer_sessions w;
     w_closed := w_closed w; w_state := s |}.
(** The observations and counters beside the database, frames and state. *)
Definition with_audit a n q sd sl ws cl (w : World) : World :=
  {| w_db := w_db w; w_env := w_env w; w_out := w_out w; w_audit := a;
     w_abuse := n; w_questions := q; w_seeds := sd; w_slept := sl;
     w_writer_sessions := ws; w_closed := cl; w_state := w_state w |}.

Definition set_row (r : option WriterRow) (s : SessionState) : SessionState :=
  {| st_principal := st_principal s; st_pending_header := st_pending_header s;
     st_writer_row := r; st_session_id := st_session_id s; st_bind_nonce := st_bind_nonce s;
     st_indeterminate := st_indeterminate s; st_deferred := st_deferred s;
     st_closing := st_closing s |}.
Definition set_header (h : option MutationHeader) (s : SessionState) : SessionState :=
  {| st_principal := st_principal s; st_pending_header := h;
     st_writer_row := st_writer_row s; st_session_id := st_session_id s;
     st_bind_nonce := st_bind_nonce s; st_indeterminate := st_indeterminate s;
     st_deferred := st_deferred s; st_closing := st_closing s |}.
Definition set_indeterminate (i : option Z) (s : SessionState) : SessionState :=
  {| st_principal := st_principal s; st_pending_header := st_pending_header s;
     st_writer_row := st_writer_row s; st_session_id := st_session_id s;
     st_bind_nonce := st_bind_nonce s; st_indeterminate := i;
     st_deferred := st_deferred s; st_closing := st_closing s |}.
Definition set_deferred (d : gmap Z Z) (s : SessionState) : SessionState :=
  {| st_principal := st_principal s; st_pending_header := st_pending_header s;
     st_writer_row := st_writer_row s; st_session_id := st_session_id s;
     st_bind_nonce := st_bind_nonce s; st_indeterminate := st_indeterminate s;
     st_deferred := d; st_closing := st_closing s |}.
Definition set_closing (s : SessionState) : SessionState :=
  {| st_principal := st_principal s; st_pending_header := st_pending_header s;
     st_writer_row := st_writer_row s; st_session_id := st_session_id s;
     st_bind_nonce := st_bind_nonce s; st_indeterminate := st_indeterminate s;
     st_deferred := st_deferred s; st_closing := true |}.

(** ** The monad *)

Definition M (A : Type) : Type := World -> Result A SessionError * World.

Definition ret {A} (a : A) : M A := fun w => (Ok a, w).
Definition fail {A} (e : SessionError) : M A := fun w => (Err e, w).
Definition bind {A B} (m : M A) (k : A -> M B) : M B :=
  fun w => match m w with
           | (Ok a, w') => k a w'
           | (Err e, w') => (Err e, w')
           end.
Definition of_result {A} (r : Result A SessionError) : M A :=
  match r with Ok a => ret a | Err e => fail e end.
Definition get_state : M SessionState := fun w => (Ok (w_state w), w).
Definition modify (f : SessionState -> SessionState) : M unit :=
  fun w => (Ok tt, with_state (f (w_state w)) w).
(** [let _ = ...]: run for its effects, whatever it returns. *)
Definition ignore {A} (m : M A) : M unit := fun w => (Ok tt, (m w).2).
(** Run to a value, the error kept as one. *)
Definition attempt {A} (m : M A) : M (Result A SessionError) :=
  fun w => let '(r, w') := m w in (Ok r, w').

(** One database access. *)
Definition db_access {A} (f : Fault -> Db -> A * Db) : M A :=
  fun w =>
    let '(acc, rest) :=
      match en_access (w_env w) with
      | a :: rest => (a, rest)
      | [] => ({| ac_foreign := []; ac_fault := FNone |}, [])
      end in
    let '(a, db') := f (ac_fault acc) (run_txs (ac_foreign acc) (w_db w)) in
    (Ok a, with_db db'
       (with_env {| en_access := rest; en_link := en_link (w_env w);
                    en_permits := en_permits (w_env w); en_meter := en_meter (w_env w);
                    en_reactions := en_reactions (w_env w) |} w)).

(** [transport.send_control(frame).await.map_err(transport_err)]. *)
Definition send (frame : Frame) : M unit :=
  fun w =>
    let '(sent, rest) :=
      match en_link (w_env w) with b :: rest => (b, rest) | [] => (true, []) end in
    let w' := with_env {| en_access := en_access (w_env w); en_link := rest;
                en_permits := en_permits (w_env w); en_meter := en_meter (w_env w);
                en_reactions := en_reactions (w_env w) |} w in
    if sent : bool then (Ok tt, with_out (w_out w ++ [frame]) w') else (Err STransport, w').

Definition audit (e : AuthEvent) : M unit :=
  fun w => (Ok tt, with_audit (w_audit w ++ [e]) (w_abuse w) (w_questions w) (w_seeds w)
                    (w_slept w) (w_writer_sessions w) (w_closed w) w).

(** [guard.rejected_write]: the abuse signal, counted, and the reaction. *)
Definition rejected_write : M Reaction :=
  fun w =>
    let '(r, rest) :=
      match en_reactions (w_env w) with r :: rest => (r, rest) | [] => (Continue, []) end in
    (Ok r, with_audit (w_audit w) (w_abuse w + 1) (w_questions w) (w_seeds w) (w_slept w)
             (w_writer_sessions w) (w_closed w)
             (with_env {| en_access := en_access (w_env w); en_link := en_link (w_env w);
                          en_permits := en_permits (w_env w); en_meter := en_meter (w_env w);
                          en_reactions := rest |} w)).

(** [guard.reader_permit] and [guard.bytes().allow_mutation_bytes]: [Some wait]
    is a refusal. *)
Definition reader_permit : M (option Z) :=
  fun w =>
    let '(r, rest) :=
      match en_permits (w_env w) with r :: rest => (r, rest) | [] => (None, []) end in
    (Ok r, with_env {| en_access := en_access (w_env w); en_link := en_link (w_env w);
                       en_permits := rest; en_meter := en_meter (w_env w);
                       en_reactions := en_reactions (w_env w) |} w).
Definition allow_mutation_bytes : M (option Z) :=
  fun w =>
    let '(r, rest) :=
      match en_meter (w_env w) with r :: rest => (r, rest) | [] => (None, []) end in
    (Ok r, with_env {| en_access := en_access (w_env w); en_link := en_link (w_env w);
                       en_permits := en_permits (w_env w); en_meter := rest;
                       en_reactions := en_reactions (w_env w) |} w).

(** A question to an outside service, answered by [f] at its number. *)
Definition ask {A} (f : Z -> A) : M A :=
  fun w => (Ok (f (w_questions w)),
            with_audit (w_audit w) (w_abuse w) (w_questions w + 1) (w_seeds w) (w_slept w)
              (w_writer_sessions w) (w_closed w) w).

(** [policy.start()] and [tokio::time::sleep]. *)
Definition start_episode : M Backoff :=
  fun w => let '(b, c) := new_backoff (w_seeds w) in
           (Ok b, with_audit (w_audit w) (w_abuse w) (w_questions w) c (w_slept w)
                    (w_writer_sessions w) (w_closed w) w).
Definition sleep (d : Z) : M unit :=
  fun w => (Ok tt, with_audit (w_audit w) (w_abuse w) (w_questions w) (w_seeds w)
                     (w_slept w + d) (w_writer_sessions w) (w_closed w) w).
End Session.

Notation "x <- m ;;; k" := (bind m (fun x => k))
  (at level 20, m at level 99, k at level 200) : connetto_scope.
Notation "m ;;; k" := (bind m (fun _ => k))
  (at level 100, k at level 200, right associativity) : connetto_scope.
