(* ===== verification/Mutation.v ===== *)
(** The mutation path of a session (src/crates/connetto-server/src/session.rs,
    [handle_mutation] and everything it calls): admission, the writer's
    frontier, redelivery, provenance, authorization, the retried commit, and
    the answers. *)

From stdpp Require Import base list numbers option strings gmap sets pretty.
From S2P Require Import Prelude Wire Chain Backoff Plan WriterStore WriteTarget Settlement Session.
Open Scope Z_scope.

Section Mutation.
Context {CT : Catalog} {DP : Deployment} {SHA : Sha256} {SV : Services}.

(** [.map_err(|err| SessionError::WriteTarget(err.detail()))?]. *)
Definition lift_wt {A} (m : M (Result A WriteError)) : M A :=
  r <- m ;;;
  match r with Ok a => ret a | Err e => fail (SWriteTarget (WriteError_detail e)) end.

Definition same_account (row_user caller_user : option Id) : bool :=
  match row_user, caller_user with
  | Some owner, Some caller => bool_decide (display owner = display caller)
  | _, _ => false
  end.

(** ** Answers *)

Definition reject (client_seq : Z) (reason : MutationRejectReason) : M unit :=
  send (FMutationReject client_seq reason).
Definition ack (client_seq : Z) : M unit := send (FMutationApplied client_seq).
Definition reject_indeterminate (client_seq : Z) : M unit := reject client_seq RIndeterminate.

Definition reject_unauthorized (client_seq : Z) : M unit :=
  reaction <- rejected_write ;;;
  (match reaction with Close => modify set_closing | Continue => ret tt end) ;;;
  reject client_seq RUnauthorized.

Definition defer_mutation (client_seq : Z) (wait : Z) : M unit :=
  send (FRateLimitedFrame (Some client_seq) (retry_ms wait)).

(** [guard.record(AuthEvent::new(..).about_write(..))]. *)
Definition note_write (session : bytes) (caller : Caller) (op : AuthOp) (writer seq : Z)
    (settled_path arriving : SettlePath) : M unit :=
  audit {| ev_session := session; ev_user := pr_identity caller; ev_op := op;
           ev_writer := writer; ev_seq := i64_or_max seq;
           ev_settled_path := settled_path; ev_arriving_path := arriving |}.

Definition parse_outcome (text : string) : M SettledOutcome :=
  of_result (map_err SWriteTarget (outcome_from_json text)).

Definition answer_outcome (seq : Z) (outcome : SettledOutcome) : M unit :=
  match outcome with
  | Applied => ack seq
  | Rejected reason =>
      if decide (reason = RUnauthorized) then reject_unauthorized seq else reject seq reason
  | Conflict table version_column pk_columns pk_values =>
      st <- get_state ;;;
      server_row <- lift_wt (db_access (fun f =>
        settled_conflict_row f (st_principal st) table version_column pk_columns pk_values)) ;;;
      send (FMutationConflict seq table
        ((fun row => {| cr_updated_at := sr_version row; cr_row_json := sr_row_json row |})
           <$> server_row))
  end.

Definition answer_settled (seq : Z) (row : SettledRow) : M unit :=
  outcome <- parse_outcome (sr_outcome row) ;;; answer_outcome seq outcome.

Definition recorded_outcome (caller : Caller) (settle : SettleSpec) (settlement : Settlement) :
    M SettledOutcome :=
  let row := sm_row settlement in
  let operation :=
    if sm_forked settlement then Some WriteForked
    else if decide (sr_path row <> ss_path settle) then Some WriteRedelivered else None in
  (match operation with
   | Some op => note_write (pr_session_id caller) caller op (ss_writer settle) (ss_seq settle)
                  (sr_path row) (ss_path settle)
   | None => ret tt
   end) ;;;
  if sm_forked settlement then ret (Rejected RForked)
  else parse_outcome (sr_outcome row).

Definition settle_and_refuse (settle : SettleSpec) (reason : MutationRejectReason) : M unit :=
  settlement <- lift_wt (db_access (fun f => settle_refusal f settle (Rejected reason))) ;;;
  st <- get_state ;;;
  outcome <- recorded_outcome (st_principal st) settle settlement ;;;
  modify (set_indeterminate None) ;;;
  match outcome with
  | Rejected reason => reject (ss_seq settle) reason
  | outcome => answer_outcome (ss_seq settle) outcome
  end.

(** ** The writer's row *)

Definition refresh_writer_row : M (Result unit WriteError) :=
  st <- get_state ;;;
  match st_writer_row st with
  | None => ret (Ok tt)
  | Some row =>
      let bind_session :=
        match row_user_id row with None => Some (st_session_id st) | Some _ => None end in
      fresh <- match row_device_key row with
               | Some key => db_access (fun f => writer_by_key f key)
               | None => db_access (fun f =>
                   writer_by_number f (row_writer row) (row_user_id row) bind_session)
               end ;;;
      match fresh with
      | Err e => ret (Err e)
      | Ok (Some fresh) => modify (set_row (Some fresh)) ;;; ret (Ok tt)
      | Ok None => ret (Ok tt)
      end
  end.

(** ** Retried database work

    The schedule is the default policy under the write retry budget; its least
    wait is 100 ms, so [retry_fuel] covers every wait the budget allows. *)
Definition retry_policy : RetryPolicy :=
  with_max_total_backoff (Some write_retry_budget) default_policy.
Definition retry_fuel : nat :=
  Z.to_nat (write_retry_budget / wait_floor retry_policy + 2).

Section RetryLoop.
Context {A : Type} (attempt_once : M (Result A WriteError)) (retryable : WriteError -> bool).

Fixpoint retry_loop (fuel : nat) (episode : Backoff) : M (Result A WriteError) :=
  outcome <- attempt_once ;;;
  match outcome with
  | Ok _ => ret outcome
  | Err e =>
      if retryable e then
        match next_wait retry_policy episode, fuel with
        | (Some wait, episode'), S fuel' => sleep wait ;;; retry_loop fuel' episode'
        | _, _ => ret outcome
        end
      else ret outcome
  end.
End RetryLoop.

Definition is_transient (e : WriteError) : bool :=
  match e with WTransient _ => true | _ => false end.
Definition is_transient_or_frontier (e : WriteError) : bool :=
  match e with WTransient _ | WFrontier => true | _ => false end.

Definition refresh_writer_row_with_retry : M (Result unit WriteError) :=
  episode <- start_episode ;;;
  retry_loop refresh_writer_row is_transient retry_fuel episode.

Definition commit_with_retry (caller : Caller) (plan : WritePlan) (payload_zstd : bytes)
    (settle : SettleSpec) : M (Result WriteOutcome WriteError) :=
  episode <- start_episode ;;;
  retry_loop (db_access (fun f => commit f caller plan payload_zstd settle))
    is_transient_or_frontier retry_fuel episode.

(** ** Redelivery *)

Definition redelivered (writer seq : Z) (raw : bytes) : M unit :=
  st <- get_state ;;;
  stored <- lift_wt (db_access (fun f => settled_row f writer seq)) ;;;
  match stored with
  | None => ack seq
  | Some row =>
      previous <- of_result (ok_or (try32 (sr_previous_hash row))
        (SWriteTarget "a retained entry's predecessor hash is malformed")) ;;;
      let hash := entry_hash previous seq raw in
      stored <- of_result (ok_or (try32 (sr_entry_hash row))
        (SWriteTarget "a settled entry hash is not 32 bytes")) ;;;
      if decide (hash <> stored) then
        note_write (st_session_id st) (st_principal st) WriteForked writer seq (sr_path row) Direct ;;;
        reject seq RForked
      else
        (if decide (sr_path row <> Direct)
         then note_write (st_session_id st) (st_principal st) WriteRedelivered writer seq
                (sr_path row) Direct
         else ret tt) ;;;
        answer_settled seq row
  end.

(** ** Authorization and permits *)

Fixpoint every_op_authorized (ops : list PlannedOp) (caller : Caller) : M WriteVerdict :=
  match ops with
  | [] => ret Allowed
  | op :: ops' =>
      answer <- ask (fun q => may_write q caller (po_table_id op) (po_write op)) ;;;
      match answer with
      | Ok true => every_op_authorized ops' caller
      | Ok false => ret Denied
      | Err _ => ret Undetermined
      end
  end.

(** [Some tt] is the permit; [None] means the mutation was deferred here. *)
Definition mutation_permit (patch : MutationPatch) : M (option unit) :=
  let client_seq := mp_client_seq patch in
  let deferral wait : M (option unit) :=
    defer_mutation client_seq wait ;;;
    modify (fun s => set_deferred (<[client_seq := retry_ms wait]> (st_deferred s)) s) ;;;
    ret None in
  permit <- reader_permit ;;;
  match permit with
  | Some wait => deferral wait
  | None =>
      metered <- allow_mutation_bytes ;;;
      match metered with Some wait => deferral wait | None => ret (Some tt) end
  end.

(** ** Provenance *)

(** The owned original's writer, frontier, entry hash and predecessor. *)
Definition original_of_row (row : WriterRow) (provenance : Provenance) (raw : bytes) :
    Z * Z * bytes * bytes :=
  let previous := head_or_genesis (row_head row) in
  (row_writer row, u64_or_zero (row_frontier row),
   entry_hash previous (pv_seq provenance) raw, previous).

Definition provenance_original (provenance : Provenance) (raw : bytes) (caller : Caller)
    (session_id : bytes) : M (option (Z * Z * bytes * bytes)) :=
  let user_id := pr_identity caller in
  let bind_session := match user_id with None => Some session_id | Some _ => None end in
  match pv_writer provenance with
  | Number number =>
      row <- lift_wt (db_access (fun f =>
        writer_by_number f (i64_or_max number) user_id bind_session)) ;;;
      ret ((fun row => original_of_row row provenance raw) <$> row)
  | Device key =>
      row <- lift_wt (db_access (fun f => writer_by_key f key)) ;;;
      match row with
      | Some row =>
          if same_account (row_user_id row) user_id
          then ret (Some (original_of_row row provenance raw)) else ret None
      | None =>
          match user_id with
          | None => ret None
          | Some user =>
              if negb has_enrolment then ret None
              else
                record <- ask (fun q => key_record q (Some user) key) ;;;
                record <- of_result (map_err (fun _ =>
                  SProtocol "the enrolment store did not answer") record) ;;;
                match record with
                | None => ret None
                | Some record =>
                    if kr_revoked record then ret None
                    else
                      lift_wt (db_access (fun f => insert_device_writer f (Some user) key)) ;;;
                      row <- lift_wt (db_access (fun f => writer_by_key f key)) ;;;
                      ret ((fun row => original_of_row row provenance raw) <$> row)
                end
          end
      end
  end.

(** ** New writes *)

Definition answer_write (outcome : Result WriteOutcome WriteError) (seq : Z)
    (settle : SettleSpec) : M unit :=
  match outcome with
  | Ok WoApplied => modify (set_indeterminate None) ;;; ack seq
  | Ok (WoConflict table server_row _ _ _) =>
      modify (set_indeterminate None) ;;; send (FMutationConflict seq table server_row)
  | Ok (WoSettled settlement) =>
      modify (set_indeterminate None) ;;;
      st <- get_state ;;;
      outcome <- recorded_outcome (st_principal st) settle settlement ;;;
      answer_outcome seq outcome
  | Err WUnauthorized => settle_and_refuse settle RUnauthorized
  | Err (WMaterializer err) => settle_and_refuse settle (reject_reason err)
  | Err (WBackend detail) => settle_and_refuse settle (ROther detail)
  | Err WFrontier | Err (WTransient _) =>
      modify (set_indeterminate (Some seq)) ;;; reject_indeterminate seq
  end.

Definition spec_with_original (settle : SettleSpec) (o : Z * Z * bytes * bytes) : SettleSpec :=
  {| ss_writer := ss_writer settle; ss_seq := ss_seq settle;
     ss_entry_hash := ss_entry_hash settle; ss_previous_hash := ss_previous_hash settle;
     ss_path := ss_path settle; ss_original := Some o |}.

(** The apply of a new write whose original, if it has one, is in [settle]. *)
Definition apply_new_write (patch : MutationPatch) (seq : Z) (settle : SettleSpec) : M unit :=
  st <- get_state ;;;
  match plan_write (mp_patchset_zstd patch) with
  | Err err => settle_and_refuse settle (reject_reason err)
  | Ok plan =>
      verdict <- every_op_authorized (wp_ops plan) (st_principal st) ;;;
      match verdict with
      | Denied => settle_and_refuse settle RUnauthorized
      | Undetermined =>
          modify (set_indeterminate (Some seq)) ;;; reject_indeterminate seq
      | Allowed =>
          permit <- mutation_permit patch ;;;
          match permit with
          | None => ret tt
          | Some _ =>
              outcome <- commit_with_retry (st_principal st) plan (mp_patchset_zstd patch) settle ;;;
              answer_write outcome seq settle
          end
      end
  end.

(** A copy whose original already settled: its stored outcome, a pruned one
    standing applied, settles this copy. *)
Definition settle_copy (settle : SettleSpec) (orig_writer oseq seq : Z) : M unit :=
  stored <- lift_wt (db_access (fun f => settled_row f orig_writer oseq)) ;;;
  st <- get_state ;;;
  outcome <- match stored with
             | None => ret Applied
             | Some row =>
                 (if decide (sr_path row <> Direct)
                  then note_write (st_session_id st) (st_principal st) WriteRedelivered
                         (ss_writer settle) seq (sr_path row) Direct
                  else ret tt) ;;;
                 parse_outcome (sr_outcome row)
             end ;;;
  settlement <- lift_wt (db_access (fun f => settle_refusal f settle outcome)) ;;;
  outcome <- recorded_outcome (st_principal st) settle settlement ;;;
  answer_outcome seq outcome.

Definition new_write (header : MutationHeader) (patch : MutationPatch) (seq : Z)
    (raw : bytes) (writer_row : WriterRow) : M unit :=
  let previous := head_or_genesis (row_head writer_row) in
  let settle := {| ss_writer := row_writer writer_row; ss_seq := seq;
                   ss_entry_hash := entry_hash previous seq raw;
                   ss_previous_hash := previous; ss_path := Direct; ss_original := None |} in
  match mh_provenance header with
  | None => apply_new_write patch seq settle
  | Some provenance =>
      st <- get_state ;;;
      original <- provenance_original provenance raw (st_principal st) (st_session_id st) ;;;
      match original with
      | None => apply_new_write patch seq settle
      | Some (orig_writer, orig_frontier, orig_hash, orig_previous) =>
          if pv_seq provenance <=? orig_frontier
          then settle_copy settle orig_writer (pv_seq provenance) seq
          else if pv_seq provenance =? orig_frontier + 1
          then apply_new_write patch seq
                 (spec_with_original settle
                    (orig_writer, pv_seq provenance, orig_hash, orig_previous))
          else
            ignore (send (FFatalError (SequenceGap (orig_frontier + 1) (pv_seq provenance)))) ;;;
            fail (SProtocol ("a provenance sequence " +:+ pretty (pv_seq provenance)
              +:+ " past the original frontier " +:+ pretty orig_frontier))
      end
  end.

(** ** The handler *)

Definition admit_mutation (header : MutationHeader) (patch : MutationPatch) : M bool :=
  if decide (mh_client_seq header <> mp_client_seq patch) then
    reject (mp_client_seq patch) (ROther "mutation header and patch client_seq disagree") ;;;
    ret false
  else ret true.

(** [deferred.range(lo..hi).map(|(_, ms)| *ms).min()]. *)
Definition min_deadline (deferred : gmap Z Z) (lo hi : Z) : option Z :=
  foldr (fun p acc =>
      if (lo <=? p.1) && (p.1 <? hi)
      then Some (match acc with Some m => Z.min p.2 m | None => p.2 end) else acc)
    None (map_to_list deferred).

(** A patch the byte window could never hold. *)
Definition oversized (patch : MutationPatch) : option Z :=
  match mutation_limit with
  | Some limit =>
      if decide (limit < Z.of_nat (length (mp_patchset_zstd patch))) then Some limit else None
  | None => None
  end.

(** The answer to a sequence past the frontier's successor. *)
Definition past_frontier (client_seq frontier : Z) : M unit :=
  st <- get_state ;;;
  if match st_indeterminate st with Some u => u <? client_seq | None => false end
  then reject_indeterminate client_seq
  else
    match min_deadline (st_deferred st) (frontier + 1) client_seq with
    | Some retry_after_ms =>
        modify (fun s => set_deferred (<[client_seq := retry_after_ms]> (st_deferred s)) s) ;;;
        defer_mutation client_seq (from_millis retry_after_ms)
    | None =>
        ignore (send (FFatalError (SequenceGap (frontier + 1) client_seq))) ;;;
        modify set_closing
    end.

Definition frontier_write (header : MutationHeader) (patch : MutationPatch) (raw : bytes)
    (writer_row : WriterRow) : M unit :=
  let client_seq := mp_client_seq patch in
  match oversized patch with
  | Some limit =>
      let previous := head_or_genesis (row_head writer_row) in
      settle_and_refuse
        {| ss_writer := row_writer writer_row; ss_seq := client_seq;
           ss_entry_hash := entry_hash previous client_seq raw;
           ss_previous_hash := previous; ss_path := Direct; ss_original := None |}
        (ROther ("mutation of " +:+ pretty (Z.of_nat (length (mp_patchset_zstd patch)))
           +:+ " bytes exceeds the " +:+ pretty limit +:+ " byte window"))
  | None =>
      answered <- attempt (new_write header patch client_seq raw writer_row) ;;;
      refreshed <- refresh_writer_row ;;;
      match refreshed with
      | Err (WTransient _) | Err WFrontier | Ok _ => of_result answered
      | Err err => fail (SWriteTarget (WriteError_detail err))
      end
  end.

Definition handle_mutation (patch : MutationPatch) : M unit :=
  let client_seq := mp_client_seq patch in
  st <- get_state ;;;
  modify (set_header None) ;;;
  match st_pending_header st with
  | None => fail (SProtocol "mutation patch arrived without a preceding header")
  | Some header =>
      admitted <- admit_mutation header patch ;;;
      if negb admitted then ret tt
      else if match st_writer_row st with None => true | Some _ => false end then
        ignore (send (FFatalError (ProtocolViolation "a write before the device writer bound"))) ;;;
        fail (SProtocol "a write before the device writer bound")
      else
        refreshed <- refresh_writer_row_with_retry ;;;
        match refreshed with
        | Err (WTransient _) | Err WFrontier =>
            modify (set_indeterminate (Some client_seq)) ;;; reject_indeterminate client_seq
        | Err err => fail (SWriteTarget (WriteError_detail err))
        | Ok _ =>
            st <- get_state ;;;
            match st_writer_row st with
            | None => fail (SProtocol "the writer row did not stand")
            | Some writer_row =>
                let frontier := u64_or_zero (row_frontier writer_row) in
                match decompress (mp_patchset_zstd patch) with
                | Err err =>
                    ignore (send (FFatalError
                      (ProtocolViolation ("mutation envelope: " +:+ err)))) ;;;
                    fail (SProtocol "a mutation envelope does not decompress")
                | Ok raw =>
                    if client_seq <=? frontier
                    then redelivered (row_writer writer_row) client_seq raw
                    else if frontier + 1 <? client_seq
                    then past_frontier client_seq frontier
                    else frontier_write header patch raw writer_row
                end
            end
        end
  end.
End Mutation.
