(* ===== verification/Answers.v ===== *)
(** Every answer of the mutation path is what the record says: the invariant
    [handle_mutation] keeps whatever other sessions do and whatever fails, and
    the soundness of the frames it sends. *)

From stdpp Require Import base list numbers option strings gmap sets.
From S2P Require Import Prelude Wire Chain Backoff Plan WriterStore WriteTarget Settlement.
From S2P Require Import Session Mutation.
Open Scope Z_scope.

Section Answers.
Context {CT : Catalog} {DP : Deployment} {SHA : Sha256} {SV : Services}.
Context (init : App).

(** ** The world's invariant *)

(** A cached writer row is one the tables held: the writer still stands, its
    frontier has not gone back, and its head moved only with it. *)
Definition row_ok (db : Db) (row : WriterRow) : Prop :=
  exists r, db_writers db !! row_writer row = Some r /\
    wr_device_key r = row_device_key row /\ wr_user_id r = row_user_id row /\
    0 <= row_frontier row <= wr_frontier r /\
    (row_frontier row = wr_frontier r -> row_head row = wr_head r).

Definition world_ok (w : World) : Prop :=
  db_ok init (w_db w) /\
  forall row, st_writer_row (w_state w) = Some row -> row_ok (w_db w) row.

(** The record of [key], if it still stands, carries outcome [o]. *)
Definition says (db : Db) (key : Z * Z) (o : SettledOutcome) : Prop :=
  forall row, db_settled db !! key = Some row ->
    outcome_from_json (sr_outcome row) = Ok o \/ sr_outcome row = outcome_json o.

(** [key] is covered by its writer's frontier, and [o] is its record's outcome
    or the refusal of a fork. *)
Definition answered (key : Z * Z) (o : SettledOutcome) (db : Db) : Prop :=
  below db key /\ (o = Rejected RForked \/ says db key o).

(** A frame that answers [key]: an acknowledgement, a final refusal or a
    conflict states the record; an indeterminate refusal and a deferral promise
    nothing; a fatal error ends the connection. *)
Definition sound (db : Db) (key : Z * Z) (f : Frame) : Prop :=
  match f with
  | FMutationApplied s => s = key.2 /\ answered key Applied db
  | FMutationReject s reason =>
      s = key.2 /\ (reason = RIndeterminate \/ answered key (Rejected reason) db)
  | FMutationConflict s t _ =>
      s = key.2 /\ exists vc cols vals, answered key (Conflict t vc cols vals) db
  | FRateLimitedFrame related _ => related = Some key.2
  | FFatalError _ => True
  | FWriterAnswer _ _ => False
  end.

(** What a handler does to the world: the invariant and the tables' order are
    kept, the writer and the registry of live sessions stay, and every new
    frame is sound. *)
Record Ev (key : Z * Z) (w w' : World) : Prop := {
  ev_ok : world_ok w';
  ev_le : db_le (w_db w) (w_db w');
  ev_writer_row : forall row, st_writer_row (w_state w) = Some row ->
    exists row', st_writer_row (w_state w') = Some row' /\ row_writer row' = row_writer row;
  ev_sessions : w_writer_sessions w' = w_writer_sessions w;
  ev_frames : exists new, w_out w' = w_out w ++ new /\ Forall (sound (w_db w') key) new;
}.

Lemma says_mono db db' key o :
  db_le db db' -> below db key -> says db key o -> says db' key o.
Proof. intros (_ & _ & _ & Hs) Hb Hsay row Hrow. apply Hsay. by apply Hs. Qed.

Lemma answered_mono key o db db' : db_le db db' -> answered key o db -> answered key o db'.
Proof.
  intros Hle [Hb Hs]. split; [by eapply below_mono|].
  destruct Hs as [?|?]; [by left|right; by eapply says_mono].
Qed.

Lemma sound_mono key db db' f : db_le db db' -> sound db key f -> sound db' key f.
Proof.
  intros Hle. destruct f; simpl; try done.
  - intros [? ?]. eauto using answered_mono.
  - intros [? [?|?]]; eauto using answered_mono.
  - intros (? & vc & cols & vals & ?). split; [done|]. eauto using answered_mono.
Qed.

Lemma row_ok_mono db db' row : db_le db db' -> row_ok db row -> row_ok db' row.
Proof.
  intros (Hw & _) (r & Hr & Hk & Hu & Hf & Hh).
  apply Hw in Hr as (r' & Hr' & (Eu & _ & Ek & Hle & Hhd & _)).
  exists r'. split_and!; [done|congruence|congruence|lia|lia|].
  intros E. rewrite Hhd by lia. apply Hh. lia.
Qed.

Lemma Ev_refl key w : world_ok w -> Ev key w w.
Proof. intros. split; [done|done|eauto|done|]. exists []. by rewrite app_nil_r. Qed.

Lemma Ev_trans key w1 w2 w3 : Ev key w1 w2 -> Ev key w2 w3 -> Ev key w1 w3.
Proof.
  intros [H1 L1 R1 S1 (n1 & E1 & F1)] [H2 L2 R2 S2 (n2 & E2 & F2)].
  split; [done|by etrans| |congruence|].
  - intros row (row' & Hr & Hw)%R1. apply R2 in Hr as (row'' & ? & ?). exists row''.
    split; [done|congruence].
  - exists (n1 ++ n2). rewrite E2, E1, app_assoc. split; [done|]. apply Forall_app.
    split; [|done]. eapply Forall_impl; [exact F1|]. intros f. by apply sound_mono.
Qed.

(** ** Triples *)

Section Triples.
Context (key : Z * Z).

Definition tri {A} (P : World -> Prop) (m : M A) (Q : A -> World -> Prop) : Prop :=
  forall w, world_ok w -> P w ->
    Ev key w (m w).2 /\ match (m w).1 with Ok a => Q a (m w).2 | Err _ => True end.

Definition stable (P : World -> Prop) : Prop :=
  forall w w', Ev key w w' -> P w -> P w'.

Lemma stable_db (P : Db -> Prop) :
  (forall db db', db_le db db' -> P db -> P db') -> stable (fun w => P (w_db w)).
Proof. intros H w w' E. apply H, E. Qed.

Lemma tri_bind {A B} P (m : M A) R (k : A -> M B) Q :
  tri P m R -> (forall a, tri (R a) (k a) Q) -> tri P (bind m k) Q.
Proof.
  intros Hm Hk w Hok HP. unfold bind. destruct (Hm w Hok HP) as [E HR].
  destruct (m w) as [[a|e] w']; simpl in *; [|done].
  destruct (Hk a w') as [E' HQ]; [apply E|done|]. split; [by eapply Ev_trans|done].
Qed.

(** Keep a stable fact across a step. *)
Lemma tri_frame {A} P R (m : M A) Q :
  stable R -> tri P m Q -> tri (fun w => P w /\ R w) m (fun a w => Q a w /\ R w).
Proof.
  intros HR Hm w Hok [HP HRw]. destruct (Hm w Hok HP) as [E HQ]. split; [done|].
  destruct (m w).1; [|done]. split; [done|by eapply HR].
Qed.

Lemma tri_bind_keep {A B} P (m : M A) (k : A -> M B) Q :
  stable P -> tri P m (fun _ _ => True) -> (forall a, tri P (k a) Q) -> tri P (bind m k) Q.
Proof.
  intros HP Hm Hk. apply tri_bind with (fun _ w => P w); [|done].
  intros w Hok Hw. destruct (Hm w Hok Hw) as [E _]. split; [done|].
  destruct (m w).1; [|done]. by eapply HP.
Qed.

Lemma tri_weaken {A} (P P' : World -> Prop) (m : M A) (Q Q' : A -> World -> Prop) :
  tri P m Q -> (forall w, P' w -> P w) -> (forall a w, Q a w -> Q' a w) -> tri P' m Q'.
Proof.
  intros Hm HP HQ w Hok Hw. destruct (Hm w Hok (HP _ Hw)) as [E Hr]. split; [done|].
  destruct (m w).1; eauto.
Qed.

Lemma tri_pure {A} P (phi : Prop) (m : M A) Q :
  (phi -> tri P m Q) -> tri (fun w => P w /\ phi) m Q.
Proof. intros H w Hok [HP Hphi]. by apply H. Qed.

Lemma tri_ret {A} (P : World -> Prop) (a : A) (Q : A -> World -> Prop) :
  (forall w, P w -> Q a w) -> tri P (ret a) Q.
Proof. intros H w Hok HP. split; [by apply Ev_refl|]. by apply H. Qed.

Lemma tri_fail {A} P e (Q : A -> World -> Prop) : tri P (fail e) Q.
Proof. intros w Hok HP. split; [by apply Ev_refl|done]. Qed.

Lemma tri_of_result {A} (P : World -> Prop) r (Q : A -> World -> Prop) :
  (forall a w, r = Ok a -> P w -> Q a w) -> tri P (of_result r) Q.
Proof. intros H. destruct r; [apply tri_ret; eauto|apply tri_fail]. Qed.

Lemma tri_get_state P :
  tri P get_state (fun st w => P w /\ st = w_state w /\ world_ok w).
Proof. intros w Hok HP. split; [by apply Ev_refl|done]. Qed.

(** A step that touches neither the tables, nor the frames, nor the writer. *)
Lemma tri_silent {A} (m : M A) P :
  (forall w, w_db (m w).2 = w_db w /\ w_out (m w).2 = w_out w /\
     w_writer_sessions (m w).2 = w_writer_sessions w /\
     st_writer_row (w_state (m w).2) = st_writer_row (w_state w)) ->
  tri P m (fun _ _ => True).
Proof.
  intros H w Hok _. destruct (H w) as (Hd & Ho & Hs & Hr). split; [|by destruct (m w).1].
  destruct Hok as [Hdb Hst]. split.
  - split; [by rewrite Hd|]. rewrite Hr, Hd. done.
  - by rewrite Hd.
  - rewrite Hr. eauto.
  - done.
  - exists []. by rewrite Ho, app_nil_r.
Qed.

Lemma tri_send f P : (forall w, P w -> sound (w_db w) key f) -> tri P (send f) (fun _ _ => True).
Proof.
  intros H w Hok HP. unfold send.
  destruct (match en_link (w_env w) with b :: rest => (b, rest) | [] => (true, []) end)
    as [[] rest]; simpl; (split; [|done]); split; try (done || eauto).
  - exists [f]. simpl. split; [done|]. constructor; [by apply H|constructor].
  - exists []. by rewrite app_nil_r.
Qed.

Lemma tri_ignore {A} (m : M A) P Q : tri P m Q -> tri P (ignore m) (fun _ _ => True).
Proof. intros H w Hok HP. destruct (H w Hok HP) as [E _]. by split. Qed.

Lemma tri_access {A} (f : Fault -> Db -> A * Db) (P : Db -> Prop) (Q : A -> Db -> Prop) :
  (forall db db', db_le db db' -> P db -> P db') ->
  (forall fault db, db_ok init db -> P db ->
     db_ok init (f fault db).2 /\ db_le db (f fault db).2 /\ Q (f fault db).1 (f fault db).2) ->
  tri (fun w => P (w_db w)) (db_access f) (fun a w => Q a (w_db w)).
Proof.
  intros HP Hf w [Hdb Hst] HPw. unfold db_access.
  set (acc := match en_access (w_env w) with a :: rest => _ | [] => _ end).
  destruct acc as [acc rest].
  destruct (run_txs_ok init (ac_foreign acc) _ Hdb) as [Hdb1 Hle1].
  destruct (Hf (ac_fault acc) _ Hdb1) as (Hdb2 & Hle2 & HQ); [by eapply HP|].
  destruct (f _ _) as [a db'] eqn:E; simpl in *. split; [|done].
  assert (Hle : db_le (w_db w) db') by (by etrans).
  split; simpl; try done.
  - split; [done|]. simpl. intros row Hrow. eapply row_ok_mono; [done|]. by apply Hst.
  - eauto.
  - exists []. by rewrite app_nil_r.
Qed.

(** ** The write target's results, as facts about the record *)

Definition settlement_fact (s : Settlement) (db : Db) : Prop :=
  below db key /\
  (sm_forked s = false -> forall row, db_settled db !! key = Some row ->
     sr_outcome row = sr_outcome (sm_row s)).

Lemma settlement_fact_mono s db db' :
  db_le db db' -> settlement_fact s db -> settlement_fact s db'.
Proof.
  intros Hle [Hb Hs]. split; [by eapply below_mono|]. intros Hf row Hrow.
  apply Hs; [done|]. by apply Hle.
Qed.

Lemma recorded_below spec seq original text db db' :
  db_ok init db' -> recorded spec seq original text db db' -> below db' (ss_writer spec, seq).
Proof. intros Hok (_ & Hs & _). apply (ok_settled _ _ Hok). eauto. Qed.

Lemma recorded_says spec seq original o db db' :
  recorded spec seq original (outcome_json o) db db' -> says db' (ss_writer spec, seq) o.
Proof. intros (_ & Hs & _) row Hrow. rewrite Hs in Hrow. injection Hrow as <-. by right. Qed.

Lemma settle_refusal_fact fault spec outcome db :
  key = (ss_writer spec, ss_seq spec) -> db_ok init db ->
  let '(r, db') := settle_refusal fault spec outcome db in
  match r with Ok s => settlement_fact s db' | Err _ => True end.
Proof.
  intros Hkey Hok. pose proof (settle_refusal_ok _ fault spec outcome _ Hok) as [Hok' _].
  destruct (settle_refusal fault spec outcome db) as [[s|] db'] eqn:E; [|done]. simpl in Hok'.
  unfold settle_refusal in E.
  destruct (seq_storage _) as [seq|] eqn:Es; [|done].
  destruct (storage_original spec) as [original|]; [|done].
  apply seq_storage_Ok in Es as [-> _]. apply run_tx_Ok, refusal_body_inv in E.
  unfold settlement_fact. rewrite Hkey.
  destruct E as [(row & Hr & -> & ->)|[(row & k & _ & _ & Hs & ->)|[Hs ->]]].
  - split; [apply (ok_settled _ _ Hok); eauto|]. simpl. intros _ row' Hr'. congruence.
  - apply settles_single_recorded in Hs; [|apply Hok]. split; [by eapply recorded_below|].
    simpl. intros _ row' Hr'. destruct Hs as (_ & Hs & _). rewrite Hs in Hr'.
    by injection Hr' as <-.
  - apply settles_recorded in Hs; [|apply Hok]. split; [by eapply recorded_below|].
    simpl. intros _ row' Hr'. destruct Hs as (_ & Hs & _). rewrite Hs in Hr'.
    by injection Hr' as <-.
Qed.

Definition commit_fact (out : WriteOutcome) (db : Db) : Prop :=
  match out with
  | WoApplied => answered key Applied db
  | WoConflict table _ vc cols vals => answered key (Conflict table vc cols vals) db
  | WoSettled s => settlement_fact s db
  end.

Lemma commit_fact_holds fault caller plan payload spec db :
  key = (ss_writer spec, ss_seq spec) -> db_ok init db ->
  let '(r, db') := commit fault caller plan payload spec db in
  match r with Ok out => commit_fact out db' | Err _ => True end.
Proof.
  intros Hkey Hok. pose proof (commit_ok _ fault caller plan payload spec _ Hok) as [Hok' _].
  destruct (commit fault caller plan payload spec db) as [[out|] db'] eqn:E; [|done].
  simpl in Hok'. unfold commit in E.
  destruct (seq_storage _) as [seq|] eqn:Es; [|done].
  destruct (storage_original spec) as [original|]; [|done].
  destruct (decompress payload) as [raw|]; [|done].
  apply seq_storage_Ok in Es as [-> _]. apply run_tx_Ok, commit_body_inv in E.
  destruct E as [(row & Hr & -> & ->)|[(row & k & _ & _ & Hs & ->)|
    [(c & row & _ & Hs & ->)|(n & app & _ & _ & _ & Hs & ->)]]]; simpl;
    unfold settlement_fact, answered; rewrite Hkey.
  - split; [apply (ok_settled _ _ Hok); eauto|]. intros _ row' Hr'. simpl. congruence.
  - apply settles_single_recorded in Hs; [|apply Hok]. split; [by eapply recorded_below|].
    simpl. intros _ row' Hr'. destruct Hs as (_ & Hs & _). rewrite Hs in Hr'.
    by injection Hr' as <-.
  - apply settles_recorded in Hs; [|apply Hok].
    split; [by eapply recorded_below|]. right. by eapply recorded_says.
  - apply settles_recorded in Hs; [|apply Hok].
    split; [by eapply recorded_below|]. right. by eapply recorded_says.
Qed.

(** ** Accesses that only read, or whose result carries no fact *)

Lemma run_query_same {A} fault (f : Db -> A) db : (run_query fault f db).2 = db.
Proof. by destruct fault. Qed.

Lemma tri_query {A} (f : Fault -> Db -> Result A WriteError * Db) P :
  (forall fault db, (f fault db).2 = db) ->
  tri P (db_access f) (fun _ _ => True).
Proof.
  intros Hf. eapply tri_weaken;
    [apply (tri_access f (fun _ => True) (fun _ _ => True))|done|done]; [done|].
  intros fault db Hok _. rewrite Hf. done.
Qed.

Lemma settled_row_same fault w s db : (settled_row fault w s db).2 = db.
Proof. unfold settled_row. destruct (seq_storage s); [apply run_query_same|done]. Qed.

Lemma settled_conflict_row_same fault c t v pk pv db :
  (settled_conflict_row fault c t v pk pv db).2 = db.
Proof.
  unfold settled_conflict_row.
  match goal with |- context [run_query fault ?f db] =>
    pose proof (run_query_same fault f db) as E; destruct (run_query fault f db) as [[r|e] d] end;
    simpl in *; done.
Qed.

Lemma tri_lift_wt {A} P (m : M (Result A WriteError)) (Q : A -> World -> Prop) :
  tri P m (fun r w => match r with Ok a => Q a w | Err _ => True end) -> tri P (lift_wt m) Q.
Proof.
  intros H. eapply tri_bind; [exact H|]. intros [a|e]; [|apply tri_fail].
  apply tri_ret. auto.
Qed.

(** A read whose answer matters to nobody's soundness, facts kept. *)
Lemma tri_read {A B} P (f : Fault -> Db -> Result A WriteError * Db) (k : A -> M B) Q :
  stable P -> (forall fault db, (f fault db).2 = db) ->
  (forall a, tri P (k a) Q) -> tri P (bind (lift_wt (db_access f)) k) Q.
Proof.
  intros HP Hf Hk. apply tri_bind_keep; [done| |done].
  apply tri_lift_wt. eapply tri_weaken; [by apply (tri_query f P)|done|]. by intros [] ? _.
Qed.

Lemma stable_True : stable (fun _ => True).
Proof. by intros w w'. Qed.
Lemma stable_answered o : stable (fun w => answered key o (w_db w)).
Proof. apply (stable_db (answered key o)). intros. by eapply answered_mono. Qed.
Lemma stable_fact s : stable (fun w => settlement_fact s (w_db w)).
Proof. apply (stable_db (settlement_fact s)). intros. by eapply settlement_fact_mono. Qed.

(** ** Answers *)

Lemma tri_reject reason P :
  (forall w, P w -> reason = RIndeterminate \/ answered key (Rejected reason) (w_db w)) ->
  tri P (reject key.2 reason) (fun _ _ => True).
Proof. intros H. apply tri_send. intros w HP. simpl. auto. Qed.

Lemma tri_modify f P :
  (forall s, st_writer_row (f s) = st_writer_row s) -> tri P (modify f) (fun _ _ => True).
Proof. intros H. apply tri_silent. intros w. simpl. by rewrite H. Qed.

Lemma tri_note session caller op w0 s p1 p2 P :
  tri P (note_write session caller op w0 s p1 p2) (fun _ _ => True).
Proof. by apply tri_silent. Qed.

Lemma tri_reject_unauthorized P :
  stable P -> (forall w, P w -> answered key (Rejected RUnauthorized) (w_db w)) ->
  tri P (reject_unauthorized key.2) (fun _ _ => True).
Proof.
  intros HP H. unfold reject_unauthorized. apply tri_bind_keep; [done| |].
  { apply tri_silent. intros w. unfold rejected_write.
    by destruct (match en_reactions (w_env w) with r :: rest => _ | [] => _ end). }
  intros r. apply tri_bind_keep; [done| |].
  { destruct r; [by apply tri_ret|by apply tri_modify]. }
  intros _. apply tri_reject. auto.
Qed.

Lemma tri_answer_outcome o :
  tri (fun w => answered key o (w_db w)) (answer_outcome key.2 o) (fun _ _ => True).
Proof.
  destruct o as [|reason|t vc cols vals]; simpl.
  - apply tri_send. intros w H. by split.
  - case_decide as E; [subst|]; [apply tri_reject_unauthorized; [apply stable_answered|done]|].
    apply tri_reject. auto.
  - apply tri_bind_keep; [apply stable_answered|by apply tri_silent|]. intros st.
    apply tri_read; [apply stable_answered|intros; apply settled_conflict_row_same|].
    intros row. apply tri_send. intros w H. simpl. eauto.
Qed.

Lemma tri_parse_outcome s :
  sm_forked s = false ->
  tri (fun w => settlement_fact s (w_db w)) (parse_outcome (sr_outcome (sm_row s)))
    (fun o w => answered key o (w_db w)).
Proof.
  intros Hf. apply tri_of_result. intros o w Ho%map_err_Ok [Hb Hs]. split; [done|].
  right. intros row Hrow. left. by rewrite Hs.
Qed.

Lemma tri_recorded_outcome caller settle s :
  tri (fun w => settlement_fact s (w_db w)) (recorded_outcome caller settle s)
    (fun o w => answered key o (w_db w)).
Proof.
  unfold recorded_outcome. apply tri_bind_keep; [apply stable_fact| |].
  { destruct (sm_forked s); [apply tri_note|].
    destruct (decide _); [apply tri_note|by apply tri_ret]. }
  intros _. destruct (sm_forked s) eqn:Hf; [|by apply tri_parse_outcome].
  apply tri_ret. intros w [Hb _]. split; [done|by left].
Qed.

Lemma tri_settle_refusal spec outcome P :
  key = (ss_writer spec, ss_seq spec) ->
  tri P (lift_wt (db_access (fun f => settle_refusal f spec outcome)))
    (fun s w => settlement_fact s (w_db w)).
Proof.
  intros Hkey. apply tri_lift_wt. eapply tri_weaken;
    [apply (tri_access _ (fun _ => True)
       (fun r db => match r with Ok s => settlement_fact s db | Err _ => True end))|done|done];
    [done|].
  intros fault db Hok _. pose proof (settle_refusal_ok _ fault spec outcome _ Hok) as [? ?].
  pose proof (settle_refusal_fact fault spec outcome _ Hkey Hok).
  by destruct (settle_refusal _ _ _ _).
Qed.

Lemma tri_settle_and_refuse spec reason P :
  key = (ss_writer spec, ss_seq spec) ->
  tri P (settle_and_refuse spec reason) (fun _ _ => True).
Proof.
  intros Hkey. assert (Hseq : ss_seq spec = key.2) by by rewrite Hkey.
  unfold settle_and_refuse. eapply tri_bind; [by apply tri_settle_refusal|]. intros s. simpl.
  apply tri_bind_keep; [apply stable_fact|by apply tri_silent|]. intros st.
  eapply tri_bind; [apply tri_recorded_outcome|]. intros o. simpl.
  apply tri_bind_keep; [apply stable_answered|by apply tri_modify|]. intros _.
  rewrite Hseq. destruct o; [apply tri_answer_outcome| |apply tri_answer_outcome].
  apply tri_reject. auto.
Qed.

(** ** Retried work *)

Lemma tri_retry_loop {A} P (once : M (Result A WriteError)) retryable Q fuel b :
  stable P ->
  tri P once (fun r w => match r with Ok a => Q a w | Err _ => True end) ->
  tri P (retry_loop once retryable fuel b)
    (fun r w => match r with Ok a => Q a w | Err _ => True end).
Proof.
  intros HP Ho. revert b.
  assert (Ho' : tri P once (fun r w =>
    match r with Ok a => Q a w | Err _ => True end /\ P w)).
  { eapply tri_weaken; [exact (tri_frame _ _ _ _ HP Ho)|by intros|done]. }
  induction fuel as [|fuel IH]; intros b; simpl; (eapply tri_bind; [exact Ho'|]);
    intros [a|e]; simpl; try (apply tri_ret; intros ? [? ?]; done);
    (destruct (retryable e); [|by apply tri_ret]); destruct (next_wait _ _) as [[wait|] b'];
    try by apply tri_ret.
  apply tri_bind_keep; [intros w w' E [? ?]; split; [done|by eapply HP]|by apply tri_silent|].
  intros _. eapply tri_weaken; [apply IH| |done]. intros ? [? ?]. done.
Qed.

Lemma tri_commit_with_retry caller plan payload spec :
  key = (ss_writer spec, ss_seq spec) ->
  tri (fun _ => True) (commit_with_retry caller plan payload spec)
    (fun r w => match r with Ok out => commit_fact out (w_db w) | Err _ => True end).
Proof.
  intros Hkey. unfold commit_with_retry. apply tri_bind_keep; [apply stable_True|by apply tri_silent|].
  intros b. apply (tri_retry_loop _ _ _ (fun out w => commit_fact out (w_db w)));
    [apply stable_True|].
  eapply tri_weaken;
    [apply (tri_access _ (fun _ => True)
       (fun r db => match r with Ok out => commit_fact out db | Err _ => True end))|done|done];
    [done|].
  intros fault db Hok _. pose proof (commit_ok _ fault caller plan payload spec _ Hok) as [? ?].
  pose proof (commit_fact_holds fault caller plan payload spec _ Hkey Hok).
  by destruct (commit _ _ _ _ _ _).
Qed.

Lemma tri_answer_write outcome spec :
  key = (ss_writer spec, ss_seq spec) ->
  tri (fun w => match outcome with Ok out => commit_fact out (w_db w) | Err _ => True end)
    (answer_write outcome key.2 spec) (fun _ _ => True).
Proof.
  intros Hkey. destruct outcome as [[|t r vc cols vals|s]|[|err|d| |d]]; simpl;
    try (by apply tri_settle_and_refuse);
    try (apply tri_bind_keep; [apply stable_True|by apply tri_modify|];
         intros _; apply tri_reject; by left).
  - apply tri_bind_keep; [apply stable_answered|by apply tri_modify|].
    intros _. apply tri_send. intros w H. by split.
  - apply tri_bind_keep; [apply stable_answered|by apply tri_modify|].
    intros _. apply tri_send. intros w H. simpl. eauto.
  - apply tri_bind_keep; [apply stable_fact|by apply tri_modify|]. intros _.
    apply tri_bind_keep; [apply stable_fact|by apply tri_silent|]. intros st.
    eapply tri_bind; [apply tri_recorded_outcome|]. intros o. apply tri_answer_outcome.
Qed.

(** ** The writer's row *)

Lemma by_key_inv k db row :
  by_key k db = Some row ->
  exists r, db_writers db !! row_writer row = Some r /\ row = writer_row (row_writer row) r /\
    wr_device_key r = Some k.
Proof.
  unfold by_key. destruct (key_rows k db) as [|[w r] l] eqn:E; [done|]. intros [= <-].
  assert (Hin : (w, r) ∈ key_rows k db) by (rewrite E; constructor).
  apply list_elem_of_filter in Hin as [Hk Hin]. apply elem_of_map_to_list in Hin.
  exists r. done.
Qed.

Lemma by_number_inv n u sid db row :
  by_number n u sid db = Some row ->
  row_writer row = n /\ exists r, db_writers db !! n = Some r /\ row = writer_row n r /\
    wr_user_id r = u /\ wr_session_id r = sid.
Proof.
  unfold by_number. destruct (_ !! n) as [r|] eqn:E; [|done]. case_decide as Hd; [|done].
  intros [= <-]. destruct Hd. split; [done|]. exists r. done.
Qed.

Lemma writer_row_ok db w r :
  db_ok init db -> db_writers db !! w = Some r -> row_ok db (writer_row w r).
Proof.
  intros Hok Hr. exists r. pose proof (ok_writers _ _ Hok _ _ Hr) as [? _]. simpl in *.
  split_and!; try done; lia.
Qed.

(** The row a refresh reads is the same writer's. *)
Definition fresh_fact (row : WriterRow) (r : Result (option WriterRow) WriteError) (db : Db) : Prop :=
  match r with
  | Ok (Some fresh) => row_ok db fresh /\ row_writer fresh = row_writer row
  | _ => True
  end.

Lemma tri_fresh row (f : Fault -> Db -> Result (option WriterRow) WriteError * Db) :
  (forall fault db, (f fault db).2 = db) ->
  (forall fault db fresh, db_ok init db -> row_ok db row -> (f fault db).1 = Ok (Some fresh) ->
     row_ok db fresh /\ row_writer fresh = row_writer row) ->
  tri (fun w => row_ok (w_db w) row) (db_access f) (fun r w => fresh_fact row r (w_db w)).
Proof.
  intros Hsame Hf. apply (tri_access f (fun db => row_ok db row) (fresh_fact row)).
  - intros. by eapply row_ok_mono.
  - intros fault db Hok Hrow. rewrite Hsame. split_and!; [done..|].
    unfold fresh_fact. destruct ((f fault db).1) as [[fresh|]|] eqn:E; try done.
    by eapply Hf.
Qed.

Lemma run_query_Ok {A} fault (f : Db -> A) db a : (run_query fault f db).1 = Ok a -> f db = a.
Proof. destruct fault; simpl; try done. by intros [= ->]. Qed.

Lemma tri_modify_row fresh P :
  (forall w, P w -> row_ok (w_db w) fresh /\
     forall row, st_writer_row (w_state w) = Some row -> row_writer fresh = row_writer row) ->
  tri P (modify (set_row (Some fresh))) (fun _ _ => True).
Proof.
  intros H w [Hdb Hst] HP. destruct (H w HP) as [Hr Hw]. split; [|done]. simpl. split; simpl.
  - split; [done|]. simpl. by intros row [= <-].
  - done.
  - intros row Hrow. exists fresh. split; [done|]. by apply Hw.
  - done.
  - exists []. by rewrite app_nil_r.
Qed.

Lemma tri_refresh_writer_row P : tri P refresh_writer_row (fun _ _ => True).
Proof.
  unfold refresh_writer_row. eapply tri_bind; [apply tri_get_state|]. intros st.
  destruct (st_writer_row st) as [row|] eqn:Erow; [|by apply tri_ret].
  assert (Hst : stable (fun w => exists row', st_writer_row (w_state w) = Some row' /\
    row_writer row' = row_writer row)).
  { intros w w' E (row' & Hr & Hw). apply E in Hr as (row'' & ? & ?). exists row''.
    split; [done|congruence]. }
  apply tri_bind with (fun r w => fresh_fact row r (w_db w) /\
    exists row', st_writer_row (w_state w) = Some row' /\ row_writer row' = row_writer row).
  - apply tri_weaken with (fun w => row_ok (w_db w) row /\
      exists row', st_writer_row (w_state w) = Some row' /\ row_writer row' = row_writer row)
      (fun r w => fresh_fact row r (w_db w) /\
      exists row', st_writer_row (w_state w) = Some row' /\ row_writer row' = row_writer row);
      [|intros w (_ & -> & [_ Hrow])|done].
    + apply tri_frame; [done|].
      destruct (row_device_key row) as [k|] eqn:Ek; apply tri_fresh;
        try (intros; apply run_query_same); intros fault db fresh Hok (r & Hr & Hk & Hu & _) Hf;
        apply run_query_Ok in Hf.
      * apply by_key_inv in Hf as (r' & Hr' & Hfr & Hk'). split.
        -- rewrite Hfr. by apply writer_row_ok.
        -- eapply (ok_unique _ _ Hok _ _ _ _ k); [exact Hr'|exact Hr|done|congruence].
      * apply by_number_inv in Hf as (Hn & r' & Hr' & Hfr & _). split; [|done].
        rewrite Hfr. by apply writer_row_ok.
    + split; [by apply Hrow|eauto].
  - intros [[fresh|]|e]; try by apply tri_ret.
    apply tri_bind with (fun _ _ => True); [|intros; by apply tri_ret].
    apply tri_modify_row. intros w [[Hok Hw] (row' & Hr' & Hw')]. split; [done|].
    intros row0 Hr0. congruence.
Qed.

Lemma tri_refresh_with_retry P : tri P refresh_writer_row_with_retry (fun _ _ => True).
Proof.
  apply tri_weaken with (fun _ => True) (fun _ _ => True); [|done..].
  apply tri_bind_keep; [apply stable_True|by apply tri_silent|]. intros b.
  eapply tri_weaken; [apply (tri_retry_loop _ _ _ (fun _ _ => True)); [apply stable_True|]|done..].
  eapply tri_weaken; [apply (tri_refresh_writer_row (fun _ => True))|done|]. by intros [] ? _.
Qed.

(** ** Redelivery *)

(** The record of [key] as it was read: [o] if it still stands. *)
Definition read_fact (o : option SettledRow) (db : Db) : Prop :=
  below db key /\ forall row, db_settled db !! key = Some row -> o = Some row.

Lemma read_fact_mono o db db' : db_le db db' -> read_fact o db -> read_fact o db'.
Proof.
  intros Hle [Hb Hr]. split; [by eapply below_mono|]. intros row Hrow. apply Hr. by apply Hle.
Qed.

Lemma stable_read o : stable (fun w => read_fact o (w_db w)).
Proof. apply (stable_db (read_fact o)). intros. by eapply read_fact_mono. Qed.

Lemma tri_settled_row writer :
  key.1 = writer ->
  tri (fun w => below (w_db w) key) (lift_wt (db_access (fun f => settled_row f writer key.2)))
    (fun o w => read_fact o (w_db w)).
Proof.
  intros Hw. apply tri_lift_wt.
  apply (tri_access _ (fun db => below db key)
    (fun r db => match r with Ok o => read_fact o db | Err _ => True end));
    [intros; by eapply below_mono|].
  intros fault db Hok Hb. rewrite settled_row_same. split_and!; [done..|].
  unfold settled_row. destruct (seq_storage key.2) as [q|] eqn:Es; [|done].
  apply seq_storage_Ok in Es as [-> _].
  destruct ((run_query _ _ _).1) as [o|] eqn:E; [|done]. apply run_query_Ok in E.
  split; [done|]. intros row Hrow. rewrite <- E. unfold settled.
  rewrite <- Hw. by destruct key.
Qed.

Lemma tri_parse_read row :
  tri (fun w => read_fact (Some row) (w_db w)) (parse_outcome (sr_outcome row))
    (fun o w => answered key o (w_db w)).
Proof.
  apply tri_of_result. intros o w Ho%map_err_Ok [Hb Hr]. split; [done|]. right.
  intros row' Hrow'. left. apply Hr in Hrow' as [= ->]. done.
Qed.

Lemma tri_redelivered writer raw :
  key.1 = writer ->
  tri (fun w => below (w_db w) key) (redelivered writer key.2 raw) (fun _ _ => True).
Proof.
  intros Hw. unfold redelivered.
  apply tri_bind_keep; [apply (stable_db (fun db => below db key)); intros; by eapply below_mono| |].
  { by apply tri_silent. }
  intros st. eapply tri_bind; [by apply tri_settled_row|]. intros [row|]; simpl.
  2:{ apply tri_send. intros w [Hb Hr]. simpl. split; [done|]. split; [done|]. right.
      intros row Hrow. by apply Hr in Hrow. }
  do 2 (apply tri_bind_keep; [apply stable_read|by apply tri_of_result|]; intros ?).
  case_decide.
  - apply tri_bind_keep; [apply stable_read|apply tri_note|]. intros _. apply tri_reject.
    intros w [Hb _]. right. split; [done|by left].
  - apply tri_bind_keep; [apply stable_read| |].
    { case_decide; [apply tri_note|by apply tri_ret]. }
    intros _. eapply tri_bind; [apply tri_parse_read|]. intros o. apply tri_answer_outcome.
Qed.

(** ** New writes *)

Lemma tri_mutation_permit patch P :
  mp_client_seq patch = key.2 -> tri P (mutation_permit patch) (fun _ _ => True).
Proof.
  intros Hseq. apply tri_weaken with (fun _ => True) (fun _ _ => True); [|done..].
  unfold mutation_permit. rewrite Hseq.
  assert (Hdef : forall wait, tri (fun _ => True)
    (bind (defer_mutation key.2 wait) (fun _ =>
       bind (modify (fun s => set_deferred (<[key.2 := retry_ms wait]> (st_deferred s)) s))
         (fun _ => ret (@None unit)))) (fun _ _ => True)).
  { intros wait. apply tri_bind_keep; [apply stable_True|by apply tri_send|]. intros _.
    apply tri_bind_keep; [apply stable_True|by apply tri_modify|]. intros _. by apply tri_ret. }
  apply tri_bind_keep; [apply stable_True| |].
  { apply tri_silent. intros w. unfold reader_permit.
    by destruct (match en_permits (w_env w) with r :: rest => _ | [] => _ end). }
  intros [wait|]; [apply Hdef|]. apply tri_bind_keep; [apply stable_True| |].
  { apply tri_silent. intros w. unfold allow_mutation_bytes.
    by destruct (match en_meter (w_env w) with r :: rest => _ | [] => _ end). }
  intros [wait|]; [apply Hdef|by apply tri_ret].
Qed.

Lemma tri_every_op_authorized ops caller P :
  tri P (every_op_authorized ops caller) (fun _ _ => True).
Proof.
  apply tri_weaken with (fun _ => True) (fun _ _ => True); [|done..].
  induction ops as [|op ops IH]; [by apply tri_ret|]. simpl.
  apply tri_bind_keep; [apply stable_True|by apply tri_silent|].
  intros [[]|]; [done|by apply tri_ret..].
Qed.

Lemma tri_indeterminate P :
  tri P (modify (set_indeterminate (Some key.2)) ;;; reject_indeterminate key.2)%connetto
    (fun _ _ => True).
Proof.
  apply tri_weaken with (fun _ => True) (fun _ _ => True); [|done..].
  apply tri_bind_keep; [apply stable_True|by apply tri_modify|]. intros _.
  apply tri_reject. by left.
Qed.

Lemma tri_apply_new_write patch spec P :
  mp_client_seq patch = key.2 -> key = (ss_writer spec, ss_seq spec) ->
  tri P (apply_new_write patch key.2 spec) (fun _ _ => True).
Proof.
  intros Hseq Hkey. apply tri_weaken with (fun _ => True) (fun _ _ => True); [|done..].
  unfold apply_new_write. apply tri_bind_keep; [apply stable_True|by apply tri_silent|].
  intros st. destruct (plan_write _) as [plan|err]; [|by apply tri_settle_and_refuse].
  apply tri_bind_keep; [apply stable_True|apply tri_every_op_authorized|].
  intros []; [|by apply tri_settle_and_refuse|apply tri_indeterminate].
  apply tri_bind_keep; [apply stable_True|by apply tri_mutation_permit|].
  intros [_|]; [|by apply tri_ret].
  eapply tri_bind; [by apply tri_commit_with_retry|]. intros out. by apply tri_answer_write.
Qed.

Lemma tri_settle_copy spec ow os P :
  key = (ss_writer spec, ss_seq spec) ->
  tri P (settle_copy spec ow os key.2) (fun _ _ => True).
Proof.
  intros Hkey. apply tri_weaken with (fun _ => True) (fun _ _ => True); [|done..].
  unfold settle_copy. apply tri_read; [apply stable_True|intros; apply settled_row_same|].
  intros stored. apply tri_bind_keep; [apply stable_True|by apply tri_silent|]. intros st.
  apply tri_bind_keep; [apply stable_True| |].
  { destruct stored as [row|]; [|by apply tri_ret].
    apply tri_bind_keep; [apply stable_True| |].
    - case_decide; [apply tri_note|by apply tri_ret].
    - intros _. by apply tri_of_result. }
  intros o. eapply tri_bind; [by apply tri_settle_refusal|]. intros s. simpl.
  eapply tri_bind; [apply tri_recorded_outcome|]. intros o'. apply tri_answer_outcome.
Qed.

(** A statement whose answer matters to nobody's soundness. *)
Lemma tri_statement {A} (f : Fault -> Db -> Result A WriteError * Db) P :
  (forall fault db, db_ok init db -> db_ok init (f fault db).2 /\ db_le db (f fault db).2) ->
  tri P (lift_wt (db_access f)) (fun _ _ => True).
Proof.
  intros Hf. apply tri_lift_wt. eapply tri_weaken;
    [apply (tri_access f (fun _ => True) (fun _ _ => True))|done|by intros [] ? _]; [done|].
  intros fault db Hok _. destruct (Hf fault db Hok). done.
Qed.

Lemma tri_provenance_original pv raw caller sid P :
  tri P (provenance_original pv raw caller sid) (fun _ _ => True).
Proof.
  apply tri_weaken with (fun _ => True) (fun _ _ => True); [|done..].
  unfold provenance_original. destruct (pv_writer pv) as [k|n].
  - apply tri_read; [apply stable_True|intros; apply run_query_same|].
    intros [row|]; [destruct (same_account _ _); by apply tri_ret|].
    destruct (pr_identity caller) as [user|]; [|by apply tri_ret].
    destruct (negb has_enrolment); [by apply tri_ret|].
    apply tri_bind_keep; [apply stable_True|by apply tri_silent|]. intros r.
    apply tri_bind_keep; [apply stable_True|by apply tri_of_result|].
    intros [record|]; [|by apply tri_ret]. destruct (kr_revoked record); [by apply tri_ret|].
    apply tri_bind_keep; [apply stable_True| |].
    { apply tri_statement. intros fault db Hok. by apply run_stmt_ok; [|apply insert_key_ok]. }
    intros _. apply tri_read; [apply stable_True|intros; apply run_query_same|].
    intros [row|]; by apply tri_ret.
  - apply tri_read; [apply stable_True|intros; apply run_query_same|].
    intros [row|]; by apply tri_ret.
Qed.

Lemma tri_new_write header patch raw row P :
  mp_client_seq patch = key.2 -> key.1 = row_writer row ->
  tri P (new_write header patch key.2 raw row) (fun _ _ => True).
Proof.
  intros Hseq Hw. apply tri_weaken with (fun _ => True) (fun _ _ => True); [|done..].
  assert (Hkey : key = (row_writer row, key.2)) by (rewrite <- Hw; by destruct key).
  unfold new_write. destruct (mh_provenance header) as [pv|]; [|by apply tri_apply_new_write].
  apply tri_bind_keep; [apply stable_True|by apply tri_silent|]. intros st.
  apply tri_bind_keep; [apply stable_True|apply tri_provenance_original|].
  intros [[[[ow ofr] oh] op]|]; [|by apply tri_apply_new_write].
  destruct (_ <=? _); [by apply tri_settle_copy|].
  destruct (_ =? _); [by apply tri_apply_new_write|].
  apply tri_bind_keep; [apply stable_True|eapply tri_ignore; by apply tri_send|].
  intros _. apply tri_fail.
Qed.

(** ** The handler *)

Lemma tri_attempt {A} (m : M A) P Q : tri P m Q -> tri P (attempt m) (fun _ _ => True).
Proof.
  intros H w Hok HP. destruct (H w Hok HP) as [E _]. unfold attempt.
  destruct (m w) as [r w']. by split.
Qed.

Lemma tri_frontier_write header patch raw row P :
  mp_client_seq patch = key.2 -> key.1 = row_writer row ->
  tri P (frontier_write header patch raw row) (fun _ _ => True).
Proof.
  intros Hseq Hw. apply tri_weaken with (fun _ => True) (fun _ _ => True); [|done..].
  unfold frontier_write. rewrite Hseq. destruct (oversized patch) as [limit|].
  - apply tri_settle_and_refuse. simpl. rewrite <- Hw. by destruct key.
  - apply tri_bind_keep; [apply stable_True|eapply tri_attempt; by apply (tri_new_write _ _ _ _ (fun _ => True))|].
    intros answered. apply tri_bind_keep; [apply stable_True|apply tri_refresh_writer_row|].
    intros [u|[]]; try apply tri_fail; by apply tri_of_result.
Qed.

Lemma tri_past_frontier frontier P :
  tri P (past_frontier key.2 frontier) (fun _ _ => True).
Proof.
  apply tri_weaken with (fun _ => True) (fun _ _ => True); [|done..].
  unfold past_frontier. apply tri_bind_keep; [apply stable_True|by apply tri_silent|]. intros st.
  destruct (match st_indeterminate st with Some u => _ | None => _ end).
  { apply tri_reject. by left. }
  destruct (min_deadline _ _ _) as [ms|].
  - apply tri_bind_keep; [apply stable_True|by apply tri_modify|]. intros _. by apply tri_send.
  - apply tri_bind_keep; [apply stable_True|eapply tri_ignore; by apply tri_send|].
    intros _. by apply tri_modify.
Qed.

(** The connection writes as [key]'s writer. *)
Definition writes_as (w : World) : Prop :=
  exists row, st_writer_row (w_state w) = Some row /\ row_writer row = key.1.

Lemma stable_writes_as : stable writes_as.
Proof.
  intros w w' E (row & Hr & Hw). apply E in Hr as (row' & ? & ?). exists row'.
  split; [done|congruence].
Qed.

Lemma tri_handle_mutation patch header st0 :
  mp_client_seq patch = key.2 -> 1 <= key.2 ->
  st_pending_header st0 = Some header -> mh_client_seq header = key.2 ->
  tri (fun w => w_state w = st0 /\ writes_as w) (handle_mutation patch) (fun _ _ => True).
Proof.
  intros Hseq Hpos Hh Hhs. unfold handle_mutation. rewrite Hseq.
  eapply tri_bind; [apply tri_get_state|]. intros st. simpl.
  apply tri_bind with (fun _ w => writes_as w /\ st = st0).
  { apply tri_weaken with (fun w => writes_as w /\ st = st0) (fun _ w => writes_as w /\ st = st0);
      [|by intros w [[<- ?] [-> _]]|done].
    eapply tri_weaken; [apply (tri_frame (fun _ => True) (fun w => writes_as w /\ st = st0))| |].
    - intros w w' E [? ?]. split; [by eapply stable_writes_as|done].
    - by apply (tri_modify (set_header None) (fun _ => True)).
    - by intros.
    - by intros ? ? [_ ?]. }
  intros _. apply tri_pure. intros ->.
  rewrite Hh. unfold admit_mutation. rewrite decide_False by (rewrite Hhs, Hseq; auto).
  apply tri_bind with (fun b w => writes_as w /\ b = true); [by apply tri_ret|].
  intros b. apply tri_pure. intros ->. simpl.
  destruct (match st_writer_row st0 with None => true | Some _ => false end).
  { apply tri_bind_keep; [apply stable_writes_as|eapply tri_ignore; by apply tri_send|].
    intros _. apply tri_fail. }
  apply tri_bind_keep; [apply stable_writes_as|apply tri_refresh_with_retry|].
  intros [u|e].
  2:{ destruct e; try apply tri_fail; apply tri_indeterminate. }
  eapply tri_bind; [apply tri_get_state|]. intros st. simpl.
  destruct (st_writer_row st) as [row|] eqn:Erow; [|apply tri_fail].
  destruct (decompress (mp_patchset_zstd patch)) as [raw|err].
  2:{ apply tri_bind with (fun _ _ => True); [eapply tri_ignore; by apply tri_send|].
      intros _. apply tri_fail. }
  intros w Hok (Hwa & -> & _). destruct Hwa as (row' & Hr' & Hw'). simplify_eq.
  destruct (Z.leb_spec key.2 (u64_or_zero (row_frontier row))) as [Hle|].
  - eapply tri_redelivered; [by symmetry|done|]. destruct Hok as [_ Hrow].
    destruct (Hrow _ Erow) as (r & Hr & _ & _ & Hf & _). exists r. rewrite <- Hw'.
    split; [done|]. unfold u64_or_zero, try_into in Hle. case_decide; simpl in Hle; lia.
  - destruct (_ <? _).
    + by eapply (tri_past_frontier _ (fun _ => True)).
    + by eapply (tri_frontier_write _ _ _ _ (fun _ => True)).
Qed.
End Triples.

(** What a patch is answered with on a connection: soundly, once a header of its
    sequence announced it and the writer is bound; with the refusal of a mismatch, or
    with a fatal error, otherwise. *)
Definition answers_of (st : SessionState) (patch : MutationPatch) (db : Db) (new : list Frame) : Prop :=
  match st_pending_header st with
  | None => new = []
  | Some header =>
      if decide (mh_client_seq header <> mp_client_seq patch) then
        Forall (fun f => f = FMutationReject (mp_client_seq patch)
                               (ROther "mutation header and patch client_seq disagree")) new
      else
        match st_writer_row st with
        | None => Forall (fun f => f = FFatalError (ProtocolViolation "a write before the device writer bound")) new
        | Some row => Forall (sound db (row_writer row, mp_client_seq patch)) new
        end
  end.

(** One send, and what comes before it leaves the tables and the frames as they were. *)
Lemma send_alone f w :
  world_ok w ->
  world_ok (send f w).2 /\ w_db (send f w).2 = w_db w /\
  exists new, w_out (send f w).2 = w_out w ++ new /\ Forall (fun g => g = f) new.
Proof.
  intros Hok. unfold send.
  destruct (match en_link (w_env w) with b :: rest => (b, rest) | [] => (true, []) end) as [[] rest]; simpl.
  - split_and!; [done..|]. exists [f]. by repeat constructor.
  - split_and!; [done..|]. exists []. by rewrite app_nil_r.
Qed.

(** A patch that is not let through. *)
Lemma turned_away w patch :
  world_ok w ->
  (forall header row, st_pending_header (w_state w) = Some header -> st_writer_row (w_state w) = Some row ->
     mh_client_seq header <> mp_client_seq patch) ->
  let w' := (handle_mutation patch w).2 in
  world_ok w' /\ w_db w' = w_db w /\
  exists new, w_out w' = w_out w ++ new /\ answers_of (w_state w) patch (w_db w') new.
Proof.
  intros Hok Hno. unfold handle_mutation, answers_of. cbn.
  set (w0 := with_state _ w). assert (world_ok w0) as H0 by exact Hok.
  destruct (st_pending_header (w_state w)) as [header|].
  2:{ split_and!; [done..|]. exists []. by rewrite app_nil_r. }
  unfold admit_mutation. destruct (decide (mh_client_seq header <> mp_client_seq patch)) as [Hne|He].
  - unfold reject. destruct (send_alone (FMutationReject (mp_client_seq patch)
      (ROther "mutation header and patch client_seq disagree")) w0 H0) as (H1 & H2 & H3). unfold bind. cbn.
    destruct (send _ w0) as [[]w1]; cbn; split_and!; done.
  - destruct (st_writer_row (w_state w)) as [row|] eqn:Er; [by destruct He; eapply Hno|].
    destruct (send_alone (FFatalError (ProtocolViolation "a write before the device writer bound")) w0 H0)
      as (H1 & H2 & H3). unfold bind, ignore. cbn. destruct (send _ w0) as [[]w1]; cbn; split_and!; done.
Qed.

End Answers.
