(* ===== verification/WritePath.v ===== *)
(** Further properties of the mutation path: its retries end, a gap is
    answered by what explains it, no upload is applied that the policy did not
    allow, and which denials count as an abuse signal. *)

From stdpp Require Import base list numbers option strings gmap sets.
From S2P Require Import Prelude Wire Chain Backoff Plan WriterStore WriteTarget Settlement.
From S2P Require Import Session Mutation.
Open Scope Z_scope.

Section WritePath.
Context {CT : Catalog} {DP : Deployment} {SHA : Sha256} {SV : Services}.

(** ** Retries *)

Lemma retry_floor : wait_floor retry_policy = from_millis 100.
Proof. reflexivity. Qed.

(** How many waits an episode can still hand out. *)
Definition waits_left (b : Backoff) : Z :=
  if decide (bo_waited b = write_retry_budget) then 0
  else (write_retry_budget - bo_waited b) / wait_floor retry_policy + 1.

Definition episode_ok (b : Backoff) : Prop :=
  0 <= bo_attempt b /\ 0 <= bo_waited b <= write_retry_budget.

Lemma next_wait_left b wait b' :
  episode_ok b -> next_wait retry_policy b = (Some wait, b') ->
  episode_ok b' /\ 0 <= wait /\ bo_waited b' = bo_waited b + wait /\
  waits_left b' + 1 <= waits_left b.
Proof.
  intros [Ha Hw] H.
  assert (Hmax : 0 <= max_backoff retry_policy <= u64_max) by (vm_compute; split; discriminate).
  assert (Hinit : 0 <= initial_backoff retry_policy) by (vm_compute; discriminate).
  destruct (next_wait_capped retry_policy write_retry_budget eq_refl budget_range Hinit Hmax
    b wait b' Ha Hw H) as (Ha' & Hw' & Hc & Hr & Hlt & Hor).
  split_and!; [split; [done|lia]|lia|done|].
  unfold waits_left. rewrite (decide_False (P := bo_waited b = _)) by lia.
  assert (Hf : wait_floor retry_policy = 100000000) by reflexivity. rewrite Hf in *.
  pose proof (Z.div_pos (write_retry_budget - bo_waited b) 100000000).
  case_decide as Hd; [lia|]. destruct Hor as [Hge|]; [|lia].
  assert ((write_retry_budget - bo_waited b') / 100000000
    <= (write_retry_budget - bo_waited b + (-1) * 100000000) / 100000000)
    by (apply Z.div_le_mono; lia).
  rewrite Z.div_add in * by lia. lia.
Qed.

Lemma next_wait_spent b : bo_waited b = write_retry_budget -> (next_wait retry_policy b).1 = None.
Proof.
  intros Hw. unfold next_wait, retry_policy. simpl. rewrite Hw. unfold sat_sub.
  rewrite Z.sub_diag. done.
Qed.

Section Loop.
Context {A : Type} (once : M (Result A WriteError)) (retryable : WriteError -> bool).

Lemma retry_loop_fuel fuel k b w :
  episode_ok b -> waits_left b <= Z.of_nat fuel ->
  retry_loop once retryable (fuel + k) b w = retry_loop once retryable fuel b w.
Proof.
  revert b w. induction fuel as [|fuel IH]; intros b w Hok Hl.
  - assert (Hspent : bo_waited b = write_retry_budget).
    { unfold waits_left in Hl. case_decide; [done|].
      pose proof (Z.div_pos (write_retry_budget - bo_waited b) (wait_floor retry_policy)).
      rewrite retry_floor in *. destruct Hok as [_ ?]. unfold from_millis, NANOS_PER_MILLI in *. lia. }
    pose proof (next_wait_spent b Hspent) as Hn. destruct k; [done|]. simpl. unfold bind.
    destruct (once w) as [[[a|e]|e] w']; try done.
    destruct (retryable e); [|done]. destruct (next_wait retry_policy b) as [o b']. simpl in Hn.
    by subst o.
  - simpl. unfold bind. destruct (once w) as [[[a|e]|e] w']; try done.
    destruct (retryable e); [|done].
    destruct (next_wait retry_policy b) as [[wait|] b'] eqn:E; [|done].
    apply next_wait_left in E as (Hok' & _ & _ & Hlt); [|done].
    destruct (sleep wait w') as [[u|e'] w'']; [|done]. apply IH; [done|lia].
Qed.

Lemma retry_loop_slept fuel b w :
  (forall w, w_slept (once w).2 = w_slept w) -> episode_ok b ->
  w_slept (retry_loop once retryable fuel b w).2
    <= w_slept w + (write_retry_budget - bo_waited b).
Proof.
  intros Hs. revert b w. induction fuel as [|fuel IH]; intros b w Hok; simpl; unfold bind;
    pose proof (Hs w) as Ew; destruct (once w) as [[[a|e]|e] w']; simpl in *;
    try (destruct Hok as [_ ?]; lia);
    (destruct (retryable e); [|destruct Hok as [_ ?]; simpl; lia]);
    destruct (next_wait retry_policy b) as [[wait|] b'] eqn:E;
    try (destruct Hok as [_ ?]; simpl; lia).
  apply next_wait_left in E as (Hok' & Hw0 & Hw' & _); [|done].
  match goal with |- w_slept (retry_loop _ _ _ _ ?v).2 <= _ =>
    pose proof (IH b' v Hok') as Hi end. simpl in Hi. lia.
Qed.
End Loop.

Lemma seeded_ok seed : episode_ok (with_seed seed).
Proof. pose proof budget_range. unfold episode_ok. simpl. lia. Qed.

(** The retries of the write path end by the budget, not by the fuel: with
    any more fuel the loop behaves the same, so it returns after at most one
    attempt per 100 ms of budget, plus two; and an attempt that does not sleep
    itself leaves the connection asleep for at most the budget. *)
Theorem retries_end {A} (once : M (Result A WriteError)) retryable k seed w :
  retry_loop once retryable (retry_fuel + k) (with_seed seed) w
    = retry_loop once retryable retry_fuel (with_seed seed) w /\
  ((forall w, w_slept (once w).2 = w_slept w) ->
   w_slept (retry_loop once retryable retry_fuel (with_seed seed) w).2
     <= w_slept w + write_retry_budget).
Proof.
  split.
  - apply retry_loop_fuel; [apply seeded_ok|]. unfold waits_left, retry_fuel.
    pose proof budget_range.
    assert (0 <= write_retry_budget / wait_floor retry_policy).
    { apply Z.div_pos; [lia|]. rewrite retry_floor. unfold from_millis, NANOS_PER_MILLI. lia. }
    simpl. rewrite Z.sub_0_r. case_decide; lia.
  - intros Hs. pose proof (retry_loop_slept once retryable retry_fuel (with_seed seed) w Hs
      (seeded_ok seed)) as H. simpl in H. lia.
Qed.

(** ** Sequences past the frontier *)

Lemma min_fold_spec lo hi (l : list (Z * Z)) :
  match foldr (fun p acc =>
      if (lo <=? p.1) && (p.1 <? hi)
      then Some (match acc with Some m => Z.min p.2 m | None => p.2 end) else acc) None l with
  | Some m => (exists k, (k, m) ∈ l /\ lo <= k < hi) /\
              forall k m', (k, m') ∈ l -> lo <= k < hi -> m <= m'
  | None => forall k m', (k, m') ∈ l -> ~ (lo <= k < hi)
  end.
Proof.
  induction l as [|[k m] l IH]; simpl; [by intros ? ? ?%not_elem_of_nil|].
  set (acc := foldr _ _ _) in *.
  destruct ((lo <=? k) && (k <? hi)) eqn:E.
  - apply andb_true_iff in E as [H1%Z.leb_le H2%Z.ltb_lt]. destruct acc as [m0|].
    + destruct IH as [(k0 & Hk0 & Hr0) Hmin]. split.
      * destruct (decide (m <= m0)); [rewrite Z.min_l by lia|rewrite Z.min_r by lia].
        -- exists k. split; [constructor|lia].
        -- exists k0. split; [by right|lia].
      * intros k' m' [[= -> ->]|Hin]%elem_of_cons Hr; [lia|].
        pose proof (Hmin _ _ Hin Hr). lia.
    + split; [exists k; split; [constructor|lia]|].
      intros k' m' [[= -> ->]|Hin]%elem_of_cons Hr; [lia|]. by destruct (IH _ _ Hin).
  - assert (Hout : ~ (lo <= k < hi)).
    { intros [H1 H2]. apply andb_false_iff in E as [E|E];
        [apply Z.leb_gt in E|apply Z.ltb_ge in E]; lia. }
    destruct acc as [m0|].
    + destruct IH as [(k0 & Hk0 & Hr0) Hmin]. split; [exists k0; split; [by right|done]|].
      intros k' m' [[= -> ->]|Hin]%elem_of_cons Hr; [done|by eapply Hmin].
    + intros k' m' [[= -> ->]|Hin]%elem_of_cons; [done|by eapply IH].
Qed.

Lemma min_deadline_spec d lo hi :
  match min_deadline d lo hi with
  | Some m => (exists k, d !! k = Some m /\ lo <= k < hi) /\
              forall k m', d !! k = Some m' -> lo <= k < hi -> m <= m'
  | None => forall k, is_Some (d !! k) -> ~ (lo <= k < hi)
  end.
Proof.
  unfold min_deadline. pose proof (min_fold_spec lo hi (map_to_list d)) as H.
  destruct (foldr _ _ _) as [m|].
  - destruct H as [(k & Hk%elem_of_map_to_list & Hr) Hmin]. split; [eauto|].
    intros k' m' Hk'. apply Hmin. by apply elem_of_map_to_list.
  - intros k [m Hk]. apply (H k m). by apply elem_of_map_to_list.
Qed.

(** A sequence past the frontier's successor is answered by what explains
    it, on a link that delivers: behind this connection's indeterminate write
    it is indeterminate too; behind a deferred one it is deferred to the
    earliest deadline named in between, which it records; otherwise the
    connection closes on the gap it names. The tables are not touched. *)
Theorem past_frontier_answer seq frontier w :
  en_link (w_env w) = [] ->
  let st := w_state w in
  let w' := (past_frontier seq frontier w).2 in
  (past_frontier seq frontier w).1 = Ok tt /\ w_db w' = w_db w /\
  ((exists u, st_indeterminate st = Some u /\ u < seq /\
      w_out w' = w_out w ++ [FMutationReject seq RIndeterminate] /\ w_state w' = st) \/
   ((forall u, st_indeterminate st = Some u -> seq <= u) /\
    exists k m, st_deferred st !! k = Some m /\ frontier + 1 <= k < seq /\
      (forall k' m', st_deferred st !! k' = Some m' -> frontier + 1 <= k' < seq -> m <= m') /\
      w_out w' = w_out w ++ [FRateLimitedFrame (Some seq) (Z.min u64_max m)] /\
      st_deferred (w_state w') = <[seq := m]> (st_deferred st)) \/
   ((forall u, st_indeterminate st = Some u -> seq <= u) /\
    (forall k, is_Some (st_deferred st !! k) -> ~ (frontier + 1 <= k < seq)) /\
      w_out w' = w_out w ++ [FFatalError (SequenceGap (frontier + 1) seq)] /\
      st_closing (w_state w') = true)).
Proof.
  intros Hl. unfold past_frontier, bind, get_state. simpl.
  pose proof (min_deadline_spec (st_deferred (w_state w)) (frontier + 1) seq) as Hm.
  destruct (match st_indeterminate (w_state w) with Some u => u <? seq | None => false end) eqn:E.
  - destruct (st_indeterminate (w_state w)) as [u|]; [|done]. apply Z.ltb_lt in E.
    unfold reject_indeterminate, reject, send. rewrite Hl. simpl. split_and!; try done.
    left. exists u. done.
  - assert (Hu : forall u, st_indeterminate (w_state w) = Some u -> seq <= u).
    { intros u Hu. rewrite Hu in E. apply Z.ltb_ge in E. done. }
    destruct (min_deadline _ _ _) as [m|].
    + destruct Hm as [(k & Hk & Hr) Hmin]. unfold modify, defer_mutation, send. simpl.
      rewrite Hl. simpl. split_and!; try done. right; left. split; [done|].
      exists k, m. split_and!; try done || lia.
      unfold retry_ms, as_millis, from_millis. do 3 f_equal.
      rewrite Z.div_mul by (unfold NANOS_PER_MILLI; lia). done.
    + unfold ignore, send. rewrite Hl. simpl. split_and!; try done. right; right.
      split_and!; done.
Qed.

(** ** Abuse signals *)

Definition keeps_abuse {A} (m : M A) : Prop := forall w, w_abuse (m w).2 = w_abuse w.

Lemma keeps_abuse_bind {A B} (m : M A) (k : A -> M B) :
  keeps_abuse m -> (forall a, keeps_abuse (k a)) -> keeps_abuse (bind m k).
Proof.
  intros Hm Hk w. unfold bind. specialize (Hm w). destruct (m w) as [[a|e] w']; simpl in *.
  - by rewrite Hk.
  - done.
Qed.

Lemma keeps_abuse_send f : keeps_abuse (send f).
Proof. intros w. unfold send. by destruct (en_link (w_env w)) as [|[] ?]. Qed.

Lemma keeps_abuse_access {A} (f : Fault -> Db -> A * Db) : keeps_abuse (db_access f).
Proof.
  intros w. unfold db_access. by destruct (en_access (w_env w)); destruct (f _ _).
Qed.

Lemma keeps_abuse_lift_wt {A} (f : Fault -> Db -> Result A WriteError * Db) :
  keeps_abuse (lift_wt (db_access f)).
Proof. apply keeps_abuse_bind; [apply keeps_abuse_access|]. by intros []. Qed.

Lemma keeps_abuse_answer seq o :
  o <> Rejected RUnauthorized -> keeps_abuse (answer_outcome seq o).
Proof.
  intros Ho. destruct o as [|reason|t vc cols vals]; simpl; [apply keeps_abuse_send| |].
  - rewrite decide_False by congruence. apply keeps_abuse_send.
  - apply keeps_abuse_bind; [done|]. intros st.
    apply keeps_abuse_bind; [apply keeps_abuse_lift_wt|]. intros row. apply keeps_abuse_send.
Qed.

Lemma keeps_abuse_recorded caller spec s : keeps_abuse (recorded_outcome caller spec s).
Proof.
  unfold recorded_outcome. apply keeps_abuse_bind.
  - by destruct (sm_forked s); [|destruct (decide _)].
  - intros _. destruct (sm_forked s); [done|]. unfold parse_outcome. by destruct (map_err _ _).
Qed.

(** A denial counts as an abuse signal only when it is answered from the
    record: settling and sending a fresh refusal, [Unauthorized] included,
    leaves the signal count as it was, while answering a recorded
    [Unauthorized] adds one. *)
Theorem denial_counted_only_from_record spec reason seq w :
  w_abuse (settle_and_refuse spec reason w).2 = w_abuse w /\
  w_abuse (answer_outcome seq (Rejected RUnauthorized) w).2 = w_abuse w + 1.
Proof.
  split.
  - revert w. change (keeps_abuse (settle_and_refuse spec reason)). unfold settle_and_refuse.
    apply keeps_abuse_bind; [apply keeps_abuse_lift_wt|]. intros s.
    apply keeps_abuse_bind; [done|]. intros st.
    apply keeps_abuse_bind; [apply keeps_abuse_recorded|]. intros o.
    apply keeps_abuse_bind; [done|]. intros _.
    destruct o; [by apply keeps_abuse_answer|apply keeps_abuse_send|by apply keeps_abuse_answer].
  - unfold answer_outcome. rewrite decide_True by done. unfold reject_unauthorized, bind, rejected_write.
    destruct (en_reactions (w_env w)) as [|[] ?]; simpl; unfold reject; by rewrite keeps_abuse_send.
Qed.

(** ** Authorization *)

Create HintDb guarded.

(** No other session runs in between. *)
Definition alone (w : World) : Prop := Forall (fun a => ac_foreign a = []) (en_access (w_env w)).

Section Authorized.
Context (caller : Caller) (authorized : Prop).

(** Run alone, [m] leaves the caller, and touches the application's tables
    only if [authorized]. *)
Definition guarded {A} (m : M A) : Prop :=
  forall w, alone w -> st_principal (w_state w) = caller ->
    alone (m w).2 /\ st_principal (w_state (m w).2) = caller /\
    (db_log (w_db (m w).2) = db_log (w_db w) \/ authorized).

Lemma guarded_bind_value {A B} (m : M A) (k : A -> M B) :
  guarded m ->
  (forall a w, st_principal (w_state w) = caller -> (m w).1 = Ok a -> guarded (k a)) ->
  guarded (bind m k).
Proof.
  intros Hm Hk w Hw Hp. unfold bind. destruct (Hm w Hw Hp) as (Hw' & Hp' & Hl).
  destruct (m w) as [[a|e] w'] eqn:E; simpl in *; [|done].
  assert (Ha : (m w).1 = Ok a) by by rewrite E.
  destruct (Hk a w Hp Ha w' Hw' Hp') as (Hw'' & Hp'' & Hl'). split_and!; [done..|].
  destruct Hl as [Hl|?]; [|by right]. destruct Hl' as [Hl'|?]; [left; congruence|by right].
Qed.

Lemma guarded_bind {A B} (m : M A) (k : A -> M B) :
  guarded m -> (forall a, guarded (k a)) -> guarded (bind m k).
Proof. intros Hm Hk. apply guarded_bind_value; auto. Qed.

Lemma guarded_same {A} (m : M A) :
  (forall w, en_access (w_env (m w).2) = en_access (w_env w) /\
     st_principal (w_state (m w).2) = st_principal (w_state w) /\
     db_log (w_db (m w).2) = db_log (w_db w)) -> guarded m.
Proof.
  intros H w Hw Hp. destruct (H w) as (E1 & E2 & E3). unfold alone. rewrite E1, E2. eauto.
Qed.

Lemma guarded_access {A} (f : Fault -> Db -> A * Db) :
  (forall fault db, db_log (f fault db).2 = db_log db \/ authorized) -> guarded (db_access f).
Proof.
  intros Hf w Hw Hp. unfold db_access. unfold alone in *.
  destruct (en_access (w_env w)) as [|acc rest]; simpl.
  - specialize (Hf FNone (w_db w)). destruct (f FNone (w_db w)) as [a db']. simpl in *.
    split_and!; [constructor|done|done].
  - apply Forall_cons in Hw as [Hacc Hrest]. rewrite Hacc. simpl.
    specialize (Hf (ac_fault acc) (w_db w)). destruct (f _ (w_db w)) as [a db']. simpl in *. done.
Qed.

Lemma guarded_lift_wt {A} (m : M (Result A WriteError)) : guarded m -> guarded (lift_wt m).
Proof. intros H. apply guarded_bind; [done|]. by intros []; apply guarded_same. Qed.

Lemma guarded_read {A} (f : Fault -> Db -> Result A WriteError * Db) :
  (forall fault db, (f fault db).2 = db) -> guarded (lift_wt (db_access f)).
Proof. intros Hf. apply guarded_lift_wt, guarded_access. intros. rewrite Hf. by left. Qed.

Lemma guarded_send f : guarded (send f).
Proof. apply guarded_same. intros w. unfold send. by destruct (en_link (w_env w)) as [|[] ?]. Qed.

Lemma guarded_ignore {A} (m : M A) : guarded m -> guarded (ignore m).
Proof. intros H w. apply H. Qed.

Lemma guarded_attempt {A} (m : M A) : guarded m -> guarded (attempt m).
Proof.
  intros H w Hw Hp. destruct (H w Hw Hp) as (? & ? & ?). unfold attempt.
  by destruct (m w).
Qed.

Lemma advances_log rows db db' : advances rows db = Some db' -> db_log db' = db_log db.
Proof.
  revert db. induction rows as [|[[w s] row] rows IH]; intros db; simpl; [by intros [= ->]|].
  destruct (advance w s _ db) as [[] d] eqn:E; [|done]. intros ->%IH.
  by apply advance_inv in E as (r & _ & _ & ->).
Qed.

Lemma settle_refusal_log fault spec o db : db_log (settle_refusal fault spec o db).2 = db_log db.
Proof.
  unfold settle_refusal. destruct (seq_storage _); [|done].
  destruct (storage_original _); [|done]. destruct (run_tx _ _ _) as [r db'] eqn:E. simpl.
  apply run_tx_inv in E as [->|(s & H%refusal_body_inv)]; [done|].
  destruct H as [(row & _ & -> & _)|[(row & k & _ & _ & [_ Hs] & _)|[[_ Hs] _]]]; [done|..];
    by apply advances_log in Hs.
Qed.

Lemma run_query_log {A} fault (f : Db -> A) db : (run_query fault f db).2 = db.
Proof. by destruct fault. Qed.

Lemma settled_row_log fault w s db : (settled_row fault w s db).2 = db.
Proof. unfold settled_row. destruct (seq_storage s); [apply run_query_log|done]. Qed.

Lemma conflict_row_log fault c t v pk pv db :
  (settled_conflict_row fault c t v pk pv db).2 = db.
Proof.
  unfold settled_conflict_row.
  match goal with |- context [run_query fault ?f db] =>
    pose proof (run_query_log fault f db) as E; destruct (run_query fault f db) as [[r|e] d] end;
    simpl in *; done.
Qed.

Lemma guarded_ret {A} (a : A) : guarded (ret a).
Proof. by apply guarded_same. Qed.
Lemma guarded_fail {A} e : guarded (fail e : M A).
Proof. by apply guarded_same. Qed.
Lemma guarded_of_result {A} (r : Result A SessionError) : guarded (of_result r).
Proof. by destruct r; apply guarded_same. Qed.
Lemma guarded_get : guarded get_state.
Proof. by apply guarded_same. Qed.
Lemma guarded_modify f : (forall s, st_principal (f s) = st_principal s) -> guarded (modify f).
Proof. intros H. apply guarded_same. intros w. simpl. by rewrite H. Qed.
Lemma guarded_note a b c d e f g : guarded (note_write a b c d e f g).
Proof. by apply guarded_same. Qed.
Lemma guarded_refusal spec o : guarded (lift_wt (db_access (fun f => settle_refusal f spec o))).
Proof. apply guarded_lift_wt, guarded_access. intros. left. apply settle_refusal_log. Qed.

Hint Resolve guarded_bind guarded_send guarded_ignore guarded_ret guarded_fail guarded_of_result
  guarded_get guarded_modify guarded_note guarded_refusal guarded_attempt : guarded.
Hint Resolve run_query_log settled_row_log conflict_row_log guarded_read : guarded.

Lemma guarded_answer seq o : guarded (answer_outcome seq o).
Proof.
  destruct o as [|reason|t vc cols vals]; simpl; [apply guarded_send| |].
  - case_decide; [|apply guarded_send]. apply guarded_bind.
    { apply guarded_same. intros w. unfold rejected_write.
      by destruct (en_reactions (w_env w)) as [|[] ?]. }
    intros r. apply guarded_bind; [|intros; apply guarded_send].
    destruct r; [apply guarded_ret|by apply guarded_modify].
  - apply guarded_bind; [auto with guarded|]. intros st.
    apply guarded_bind; [apply guarded_read; intros; apply conflict_row_log|].
    intros; apply guarded_send.
Qed.

Lemma guarded_recorded c spec s : guarded (recorded_outcome c spec s).
Proof.
  unfold recorded_outcome. apply guarded_bind.
  - destruct (sm_forked s); [|destruct (decide _)]; auto with guarded.
  - intros _. destruct (sm_forked s); unfold parse_outcome; auto with guarded.
Qed.

Lemma guarded_settle_and_refuse spec reason : guarded (settle_and_refuse spec reason).
Proof.
  unfold settle_and_refuse. apply guarded_bind; [apply guarded_refusal|]. intros s.
  apply guarded_bind; [apply guarded_get|]. intros st.
  apply guarded_bind; [apply guarded_recorded|]. intros o.
  apply guarded_bind; [by apply guarded_modify|]. intros _.
  destruct o; [apply guarded_answer|apply guarded_send|apply guarded_answer].
Qed.

Lemma guarded_refresh : guarded refresh_writer_row.
Proof.
  unfold refresh_writer_row. apply guarded_bind; [apply guarded_get|]. intros st.
  destruct (st_writer_row st) as [row|]; [|apply guarded_ret]. apply guarded_bind.
  - destruct (row_device_key row); apply guarded_access; intros; left;
      unfold writer_by_key, writer_by_number; by rewrite run_query_log.
  - intros [[fresh|]|e]; auto using guarded_ret.
    apply guarded_bind; [by apply guarded_modify|intros; apply guarded_ret].
Qed.

Lemma guarded_retry {A} (once : M (Result A WriteError)) retryable fuel b :
  guarded once -> guarded (retry_loop once retryable fuel b).
Proof.
  intros Ho. revert b. induction fuel as [|fuel IH]; intros b; simpl;
    (apply guarded_bind; [done|]); intros [a|e]; try apply guarded_ret;
    (destruct (retryable e); [|apply guarded_ret]);
    destruct (next_wait retry_policy b) as [[wait|] b']; try apply guarded_ret.
  apply guarded_bind; [by apply guarded_same|intros; apply IH].
Qed.

Lemma guarded_redelivered writer seq raw : guarded (redelivered writer seq raw).
Proof.
  unfold redelivered. apply guarded_bind; [apply guarded_get|]. intros st.
  apply guarded_bind; [apply guarded_read; intros; apply settled_row_log|].
  intros [row|]; [|apply guarded_send].
  apply guarded_bind; [apply guarded_of_result|]. intros previous.
  apply guarded_bind; [apply guarded_of_result|]. intros stored.
  case_decide.
  - apply guarded_bind; [apply guarded_note|intros; apply guarded_send].
  - apply guarded_bind; [case_decide; auto with guarded|]. intros _.
    apply guarded_bind; [apply guarded_of_result|intros; apply guarded_answer].
Qed.

Lemma guarded_permit patch : guarded (mutation_permit patch).
Proof.
  assert (Hdef : forall seq wait, guarded
    (bind (defer_mutation seq wait) (fun _ =>
       bind (modify (fun s => set_deferred (<[seq := retry_ms wait]> (st_deferred s)) s))
         (fun _ => ret (@None unit))))).
  { intros seq wait. apply guarded_bind; [apply guarded_send|]. intros _.
    apply guarded_bind; [by apply guarded_modify|intros; apply guarded_ret]. }
  unfold mutation_permit. apply guarded_bind.
  { apply guarded_same. intros w. unfold reader_permit. by destruct (en_permits (w_env w)). }
  intros [wait|]; [apply Hdef|]. apply guarded_bind.
  { apply guarded_same. intros w. unfold allow_mutation_bytes. by destruct (en_meter (w_env w)). }
  intros [wait|]; [apply Hdef|apply guarded_ret].
Qed.

Lemma guarded_authorize ops c : guarded (every_op_authorized ops c).
Proof.
  induction ops as [|op ops IH]; simpl; [apply guarded_ret|].
  apply guarded_bind; [by apply guarded_same|]. intros [[]|]; auto using guarded_ret.
Qed.

Lemma guarded_provenance pv raw c sid : guarded (provenance_original pv raw c sid).
Proof.
  unfold provenance_original. destruct (pv_writer pv) as [k|n].
  - apply guarded_bind; [apply guarded_read; intros; apply run_query_log|].
    intros [row|]; [destruct (same_account _ _); apply guarded_ret|].
    destruct (pr_identity c) as [user|]; [|apply guarded_ret].
    destruct (negb has_enrolment); [apply guarded_ret|].
    apply guarded_bind; [by apply guarded_same|]. intros r.
    apply guarded_bind; [apply guarded_of_result|].
    intros [record|]; [|apply guarded_ret]. destruct (kr_revoked record); [apply guarded_ret|].
    apply guarded_bind.
    { apply guarded_lift_wt, guarded_access. intros fault db. left.
      unfold insert_device_writer, run_stmt, insert_key.
      destruct fault; [|done..|]; destruct (key_rows k db); done. }
    intros _. apply guarded_bind; [apply guarded_read; intros; apply run_query_log|].
    intros; apply guarded_ret.
  - apply guarded_bind; [apply guarded_read; intros; apply run_query_log|].
    intros; apply guarded_ret.
Qed.

Lemma guarded_settle_copy spec ow os seq : guarded (settle_copy spec ow os seq).
Proof.
  unfold settle_copy. apply guarded_bind; [apply guarded_read; intros; apply settled_row_log|].
  intros stored. apply guarded_bind; [apply guarded_get|]. intros st. apply guarded_bind.
  { destruct stored as [row|]; [|apply guarded_ret].
    apply guarded_bind; [case_decide; auto with guarded|intros; apply guarded_of_result]. }
  intros o. apply guarded_bind; [apply guarded_refusal|]. intros s.
  apply guarded_bind; [apply guarded_recorded|intros; apply guarded_answer].
Qed.

Lemma guarded_answer_write out seq spec : guarded (answer_write out seq spec).
Proof.
  destruct out as [[|t r vc cols vals|s]|[|err|d| |d]]; simpl;
    try apply guarded_settle_and_refuse;
    (apply guarded_bind; [by apply guarded_modify|]; intros _); try apply guarded_send.
  apply guarded_bind; [apply guarded_get|]. intros st.
  apply guarded_bind; [apply guarded_recorded|intros; apply guarded_answer].
Qed.
End Authorized.

Lemma every_op_allowed ops caller w :
  (every_op_authorized ops caller w).1 = Ok Allowed ->
  Forall (fun op => exists q, may_write q caller (po_table_id op) (po_write op) = Ok true) ops.
Proof.
  revert w. induction ops as [|op ops IH]; intros w; [constructor|]. simpl. unfold bind, ask.
  destruct (may_write _ _ _ _) as [[]|] eqn:E; try done.
  intros H. constructor; [eauto|]. by eapply IH.
Qed.

(** The plan of [payload], every op of it allowed to [caller]. *)
Definition plan_allowed (caller : Caller) (payload : bytes) : Prop :=
  exists plan, plan_write payload = Ok plan /\
    Forall (fun op => exists q, may_write q caller (po_table_id op) (po_write op) = Ok true)
      (wp_ops plan).

Lemma guarded_apply_new_write caller patch seq spec :
  guarded caller (plan_allowed caller (mp_patchset_zstd patch)) (apply_new_write patch seq spec).
Proof.
  unfold apply_new_write. apply guarded_bind_value; [apply guarded_get|].
  intros st w Hp [= <-]. rewrite Hp.
  destruct (plan_write _) as [plan|err] eqn:Epl; [|apply guarded_settle_and_refuse].
  apply guarded_bind_value; [apply guarded_authorize|].
  intros v w' _ Hv. destruct v.
  - assert (HA : plan_allowed caller (mp_patchset_zstd patch))
      by (exists plan; split; [done|by eapply every_op_allowed]).
    apply guarded_bind; [apply guarded_permit|]. intros [_|]; [|apply guarded_ret].
    apply guarded_bind; [|intros; apply guarded_answer_write].
    apply guarded_bind; [by apply guarded_same|]. intros b. apply guarded_retry.
    apply guarded_access. by right.
  - apply guarded_settle_and_refuse.
  - apply guarded_bind; [by apply guarded_modify|intros; apply guarded_send].
Qed.

Lemma guarded_handle_mutation caller patch :
  guarded caller (plan_allowed caller (mp_patchset_zstd patch)) (handle_mutation patch).
Proof.
  unfold handle_mutation. apply guarded_bind; [apply guarded_get|]. intros st.
  apply guarded_bind; [by apply guarded_modify|]. intros _.
  destruct (st_pending_header st) as [header|]; [|apply guarded_fail].
  apply guarded_bind.
  { unfold admit_mutation. case_decide; [|apply guarded_ret].
    apply guarded_bind; [apply guarded_send|intros; apply guarded_ret]. }
  intros []; simpl; [|apply guarded_ret].
  destruct (match st_writer_row st with None => true | Some _ => false end).
  { apply guarded_bind; [apply guarded_ignore, guarded_send|intros; apply guarded_fail]. }
  apply guarded_bind.
  { apply guarded_bind; [by apply guarded_same|]. intros b.
    apply guarded_retry, guarded_refresh. }
  assert (Hind : forall s, guarded caller (plan_allowed caller (mp_patchset_zstd patch))
    (bind (modify (set_indeterminate (Some s))) (fun _ => reject_indeterminate s))).
  { intros s. apply guarded_bind; [by apply guarded_modify|intros; apply guarded_send]. }
  intros [u|[]]; try apply guarded_fail; try apply Hind.
  apply guarded_bind; [apply guarded_get|]. intros st'.
  destruct (st_writer_row st') as [row|]; [|apply guarded_fail].
  destruct (decompress _) as [raw|err].
  2:{ apply guarded_bind; [apply guarded_ignore, guarded_send|intros; apply guarded_fail]. }
  destruct (_ <=? _); [apply guarded_redelivered|]. destruct (_ <? _).
  - unfold past_frontier. apply guarded_bind; [apply guarded_get|]. intros s.
    destruct (match st_indeterminate s with Some u0 => _ | None => _ end); [apply guarded_send|].
    destruct (min_deadline _ _ _) as [ms|].
    + apply guarded_bind; [by apply guarded_modify|intros; apply guarded_send].
    + apply guarded_bind; [apply guarded_ignore, guarded_send|intros; by apply guarded_modify].
  - unfold frontier_write. destruct (oversized patch); [apply guarded_settle_and_refuse|].
    apply guarded_bind.
    + apply guarded_attempt. unfold new_write.
      destruct (mh_provenance header) as [pv|]; [|apply guarded_apply_new_write].
      apply guarded_bind; [apply guarded_get|]. intros s.
      apply guarded_bind; [apply guarded_provenance|].
      intros [[[[ow ofr] oh] op]|]; [|apply guarded_apply_new_write].
      destruct (_ <=? _); [apply guarded_settle_copy|].
      destruct (_ =? _); [apply guarded_apply_new_write|].
      apply guarded_bind; [apply guarded_ignore, guarded_send|intros; apply guarded_fail].
    + intros answered. apply guarded_bind; [apply guarded_refresh|].
      intros [u'|[]]; apply guarded_of_result || apply guarded_fail.
Qed.

(** C30. No upload is applied that the policy did not allow: with no other
    session in between, if handling a mutation changed the application's
    tables, then its upload was planned and every op of the plan was allowed
    to the connection's caller. *)
Theorem applied_only_if_allowed patch w :
  alone w ->
  db_log (w_db (handle_mutation patch w).2) <> db_log (w_db w) ->
  plan_allowed (st_principal (w_state w)) (mp_patchset_zstd patch).
Proof.
  intros Hw Hne.
  by destruct (guarded_handle_mutation (st_principal (w_state w)) patch w Hw eq_refl)
    as (_ & _ & [?|?]).
Qed.
End WritePath.
