(* ===== verification/Writers.v ===== *)
(** Writers and the connections that write as them: the handshake's writer
    request, the device bind, the retirement and the sweep
    (src/crates/connetto-server/src/session.rs). *)

From stdpp Require Import base list numbers option strings gmap sets.
From S2P Require Import Prelude Wire Chain Backoff Plan WriterStore WriteTarget Settlement.
From S2P Require Import Session Mutation Answers.
Open Scope Z_scope.

Section Writers.
Context {CT : Catalog} {DP : Deployment} {SHA : Sha256} {SV : Services}.

(** ** The handshake's writer request *)

(** What the handshake resolved: the connection's row and the grant it
    acknowledges, or a refusal already sent. *)
Inductive Admission :=
| WriterAdmitted (row : option WriterRow) (grant : option WriterGrant)
| Turned_away.

Definition prune_at_handshake (writer : Z) (settled_through : option Z) : M unit :=
  match settled_through with
  | Some seq => lift_wt (db_access (fun f => prune_settled f writer seq))
  | None => ret tt
  end.

Definition admit_writer (principal : Caller) (session_id : bytes) (request : WriterRequest)
    (settled_through : option Z) : M Admission :=
  let user_id := pr_identity principal in
  let bind_session := match user_id with None => Some session_id | Some _ => None end in
  match request with
  | ReqIssue =>
      issued <- lift_wt (db_access (fun f => issue_writer f user_id bind_session)) ;;;
      let '(writer, frontier) := issued in
      prune_at_handshake writer settled_through ;;;
      ret (WriterAdmitted
        (Some {| row_writer := writer; row_user_id := user_id; row_device_key := None;
                 row_frontier := frontier; row_head := None; row_retired_at := None |})
        (Some {| wg_number := u64_or_zero writer; wg_frontier := u64_or_zero frontier |}))
  | ReqNumber number =>
      row <- lift_wt (db_access (fun f =>
        writer_by_number f (i64_or_max number) user_id bind_session)) ;;;
      match row with
      | Some row =>
          match row_retired_at row with
          | Some _ =>
              prune_at_handshake (row_writer row) settled_through ;;;
              ignore (send (FFatalError WriterRetired)) ;;;
              ret Turned_away
          | None =>
              prune_at_handshake (row_writer row) settled_through ;;;
              ret (WriterAdmitted (Some row)
                (Some {| wg_number := number; wg_frontier := u64_or_zero (row_frontier row) |}))
          end
      | None => ignore (send (FFatalError WriterUnknown)) ;;; ret Turned_away
      end
  | ReqDevice => ret (WriterAdmitted None None)
  end.

(** ** The device bind *)

Inductive BindVerdict := BvWriter (outcome : WriterOutcome) | BvRevoked.

Definition no_answer : SessionError := SProtocol "the enrolment store did not answer".

Definition ask_key_record (user : option Id) (key : bytes) : M (option KeyRecord) :=
  record <- ask (fun q => key_record q user key) ;;;
  of_result (map_err (fun _ => no_answer) record).

Definition register_session (writer : Z) (session : bytes) : M unit :=
  fun w => (Ok tt, with_audit (w_audit w) (w_abuse w) (w_questions w) (w_seeds w) (w_slept w)
    (<[writer := {[session]} ∪ default ∅ (w_writer_sessions w !! writer)]> (w_writer_sessions w))
    (w_closed w) w).

(** Switch the connection to the row's writer. *)
Definition bind_row (row : WriterRow) : M BindVerdict :=
  match row_retired_at row with
  | Some _ => ret (BvWriter Retired)
  | None =>
      st <- get_state ;;;
      modify (fun s => set_indeterminate None (set_row (Some row) s)) ;;;
      register_session (row_writer row) (st_session_id st) ;;;
      ret (BvWriter (Bound (u64_or_zero (row_frontier row))))
  end.

Definition bind_device (user_id : Id) (bd : BindDevice) : M BindVerdict :=
  if negb has_enrolment then fail (SProtocol "no device enrolment installed")
  else
    record <- ask_key_record (Some user_id) (bd_key_id bd) ;;;
    match record with
    | None => ret (BvWriter NotEnrolled)
    | Some record =>
        if kr_revoked record then ret BvRevoked
        else
          st <- get_state ;;;
          let message := writer_bind_message (st_bind_nonce st) in
          match spki_point (kr_public_key record) with
          | None => ret (BvWriter NotEnrolled)
          | Some point =>
              if negb (verify point message (bd_signature bd)) then ret (BvWriter NotEnrolled)
              else
                row <- lift_wt (db_access (fun f => writer_by_key f (bd_key_id bd))) ;;;
                match row with
                | Some row => bind_row row
                | None =>
                    lift_wt (db_access (fun f =>
                      insert_device_writer f (Some user_id) (bd_key_id bd))) ;;;
                    row <- lift_wt (db_access (fun f => writer_by_key f (bd_key_id bd))) ;;;
                    row <- of_result (ok_or row (SProtocol "the device writer row did not stand")) ;;;
                    bind_row row
                end
          end
    end.

Definition handle_bind_device (bd : BindDevice) : M unit :=
  st <- get_state ;;;
  match pr_identity (st_principal st) with
  | Some user_id =>
      verdict <- bind_device user_id bd ;;;
      match verdict with
      | BvWriter outcome => send (FWriterAnswer (bd_request_id bd) outcome)
      | BvRevoked =>
          ignore (send (FFatalError DeviceRevoked)) ;;;
          fail (SProtocol "a bind of a revoked key")
      end
  | None => send (FWriterAnswer (bd_request_id bd) NotEnrolled)
  end.

(** ** Retirement *)

Definition retire_unbound_device_key (user_id : Id) (key : bytes) (now : Z) :
    M (option WriterRow) :=
  if negb has_enrolment then ret None
  else
    record <- ask_key_record (Some user_id) key ;;;
    match record with
    | None => ret None
    | Some record =>
        if kr_revoked record then ret None
        else
          lift_wt (db_access (fun f => insert_retired_device_writer f (Some user_id) key now)) ;;;
          lift_wt (db_access (fun f => writer_by_key f key))
    end.

(** [writer_sessions.remove(&writer)], then [close_session] of each; what is
    closed is recorded with the reason it is told. *)
Definition close_writer_sessions (writer : Z) : M unit :=
  fun w => (Ok tt, with_audit (w_audit w) (w_abuse w) (w_questions w) (w_seeds w) (w_slept w)
    (delete writer (w_writer_sessions w))
    (w_closed w ++ ((fun s => (s, WriterRetired)) <$>
       elements (default ∅ (w_writer_sessions w !! writer)))) w).

Definition mark_and_close (row : WriterRow) (now : Z) : M WriterOutcome :=
  retired <- lift_wt (db_access (fun f =>
    mark_writer_retired f (row_writer row) (row_device_key row) now)) ;;;
  if retired : bool then close_writer_sessions (row_writer row) ;;; ret Retired
  else ret Retired.

Definition retire_writer (user_id : option Id) (session : bytes) (writer : WriterRef) (now : Z) :
    M WriterOutcome :=
  let bind_session := match user_id with None => Some session | Some _ => None end in
  match writer with
  | Number number =>
      row <- lift_wt (db_access (fun f =>
        writer_by_number f (i64_or_max number) user_id bind_session)) ;;;
      match row with Some row => mark_and_close row now | None => ret Unknown end
  | Device key =>
      match user_id with
      | None => ret Unknown
      | Some user =>
          row <- lift_wt (db_access (fun f => writer_by_key f key)) ;;;
          match row with
          | Some row =>
              if same_account (row_user_id row) (Some user) then mark_and_close row now
              else ret Unknown
          | None =>
              row <- retire_unbound_device_key user key now ;;;
              match row with Some row => mark_and_close row now | None => ret Unknown end
          end
      end
  end.

Definition handle_retire_writer (rw : RetireWriter) (now : Z) : M unit :=
  st <- get_state ;;;
  outcome <- retire_writer (pr_identity (st_principal st)) (st_session_id st) (rw_writer rw) now ;;;
  send (FWriterAnswer (rw_request_id rw) outcome).

(** A connection's end: a device writer's live set forgets it. *)
Definition leave_writer_sessions : M unit :=
  fun w =>
    match st_writer_row (w_state w) with
    | Some row =>
        match row_device_key row, w_writer_sessions w !! row_writer row with
        | Some _, Some live =>
            (Ok tt, with_audit (w_audit w) (w_abuse w) (w_questions w) (w_seeds w) (w_slept w)
               (<[row_writer row := live ∖ {[st_session_id (w_state w)]}]> (w_writer_sessions w))
               (w_closed w) w)
        | _, _ => (Ok tt, w)
        end
    | None => (Ok tt, w)
    end.

(** ** The sweep *)

Fixpoint sweep_list (writers : list (Z * option bytes)) : M Z :=
  match writers with
  | [] => ret 0
  | (writer, key) :: rest =>
      match key ≫= try32 with
      | None => sweep_list rest
      | Some key =>
          record <- ask_key_record None key ;;;
          if match record with None => true | Some record => kr_revoked record end then
            lift_wt (db_access (fun f => prune_writer f writer)) ;;;
            n <- sweep_list rest ;;; ret (n + 1)
          else sweep_list rest
      end
  end.

Definition sweep_writer_rows : M Z :=
  if negb has_enrolment then ret 0
  else
    writers <- lift_wt (db_access list_device_writers) ;;;
    sweep_list writers.

(** ** The invariant, with the writer a connection writes as changing *)

Section Invariant.
Context (init : App).

(** The registry of live sessions holds device writers only. *)
Definition live_ok (w : World) : Prop :=
  forall n, is_Some (w_writer_sessions w !! n) ->
    exists r, db_writers (w_db w) !! n = Some r /\ is_Some (wr_device_key r).

Definition inv_ok (w : World) : Prop := world_ok init w /\ live_ok w.

Definition inv {A} (P : World -> Prop) (m : M A) (Q : A -> World -> Prop) : Prop :=
  forall w, inv_ok w -> P w ->
    inv_ok (m w).2 /\ db_le (w_db w) (w_db (m w).2) /\
    match (m w).1 with Ok a => Q a (m w).2 | Err _ => True end.

Lemma inv_bind {A B} P (m : M A) R (k : A -> M B) Q :
  inv P m R -> (forall a, inv (R a) (k a) Q) -> inv P (bind m k) Q.
Proof.
  intros Hm Hk w Hok HP. unfold bind. destruct (Hm w Hok HP) as (Hok' & Hle & HR).
  destruct (m w) as [[a|e] w']; simpl in *; [|done].
  destruct (Hk a w' Hok' HR) as (? & ? & ?). split_and!; [done|by etrans|done].
Qed.

Lemma inv_weaken {A} (P P' : World -> Prop) (m : M A) (Q Q' : A -> World -> Prop) :
  inv P m Q -> (forall w, P' w -> P w) -> (forall a w, Q a w -> Q' a w) -> inv P' m Q'.
Proof.
  intros Hm HP HQ w Hok Hw. destruct (Hm w Hok (HP _ Hw)) as (? & ? & Hr).
  split_and!; [done..|]. destruct (m w).1; eauto.
Qed.

Lemma inv_ret {A} (P : World -> Prop) (a : A) (Q : A -> World -> Prop) :
  (forall w, P w -> Q a w) -> inv P (ret a) Q.
Proof. intros H w Hok HP. split_and!; [done..|]. by apply H. Qed.

Lemma inv_fail {A} P e (Q : A -> World -> Prop) : inv P (fail e) Q.
Proof. by intros w Hok HP. Qed.

Lemma inv_of_result {A} (P : World -> Prop) r (Q : A -> World -> Prop) :
  (forall a w, r = Ok a -> P w -> Q a w) -> inv P (of_result r) Q.
Proof. intros H. destruct r; [apply inv_ret; eauto|apply inv_fail]. Qed.

Lemma inv_silent {A} (m : M A) P :
  (forall w, w_db (m w).2 = w_db w /\ w_writer_sessions (m w).2 = w_writer_sessions w /\
     st_writer_row (w_state (m w).2) = st_writer_row (w_state w)) ->
  inv P m (fun _ _ => True).
Proof.
  intros H w [[Hdb Hst] Hl] _. destruct (H w) as (Hd & Ho & Hr).
  split; [|split; [by rewrite Hd|by destruct (m w).1]].
  split; [split; [by rewrite Hd|rewrite Hr, Hd; done]|]. unfold live_ok. by rewrite Ho, Hd.
Qed.

Lemma inv_send f P : inv P (send f) (fun _ _ => True).
Proof.
  apply inv_silent. intros w. unfold send. by destruct (en_link (w_env w)) as [|[] ?].
Qed.

Lemma inv_ignore {A} (m : M A) P : inv P m (fun _ _ => True) -> inv P (ignore m) (fun _ _ => True).
Proof. intros H w Hok HP. destruct (H w Hok HP) as (? & ? & _). done. Qed.

Lemma live_ok_mono w w' :
  db_le (w_db w) (w_db w') -> w_writer_sessions w' = w_writer_sessions w ->
  live_ok w -> live_ok w'.
Proof.
  intros (Hle & _) E H n Hn. rewrite E in Hn. apply H in Hn as (r & Hr & Hk).
  apply Hle in Hr as (r' & Hr' & (_ & _ & Ek & _)). exists r'. by rewrite Ek.
Qed.

Lemma inv_access {A} (f : Fault -> Db -> A * Db) P (Q : A -> Db -> Prop) :
  (forall fault db, db_ok init db ->
     db_ok init (f fault db).2 /\ db_le db (f fault db).2 /\ Q (f fault db).1 (f fault db).2) ->
  inv P (db_access f) (fun a w => Q a (w_db w)).
Proof.
  intros Hf w [Hok Hl] _.
  destruct (tri_access init (0, 0) f (fun _ => True) Q) with w as [[H1 H2 _ H4 _] H3]; try done.
  { intros fault db Hdb _. by apply Hf. }
  split_and!; [|done|done]. split; [done|]. by eapply live_ok_mono.
Qed.

Lemma inv_lift_wt {A} P (m : M (Result A WriteError)) (Q : A -> World -> Prop) :
  inv P m (fun r w => match r with Ok a => Q a w | Err _ => True end) -> inv P (lift_wt m) Q.
Proof.
  intros H. eapply inv_bind; [exact H|]. intros [a|e]; [|apply inv_fail]. apply inv_ret. auto.
Qed.

(** A statement or a read whose answer needs no fact. *)
Lemma inv_statement {A} (f : Fault -> Db -> Result A WriteError * Db) P :
  (forall fault db, db_ok init db -> db_ok init (f fault db).2 /\ db_le db (f fault db).2) ->
  inv P (lift_wt (db_access f)) (fun _ _ => True).
Proof.
  intros Hf. apply inv_lift_wt. eapply inv_weaken; [|done|].
  - apply (inv_access f P (fun _ _ => True)). intros fault db Hok. by destruct (Hf fault db Hok).
  - by intros [] w _.
Qed.

Definition row_fact (k : option bytes) (o : option WriterRow) (w : World) : Prop :=
  match o with
  | Some row => row_ok (w_db w) row /\
                match k with Some key => row_device_key row = Some key | None => True end
  | None => True
  end.

Lemma inv_by_key k P :
  inv P (lift_wt (db_access (fun f => writer_by_key f k))) (row_fact (Some k)).
Proof.
  apply inv_lift_wt. eapply inv_weaken;
    [apply (inv_access _ P (fun r db => match r with
       | Ok (Some row) => row_ok db row /\ row_device_key row = Some k | _ => True end))|done|].
  - intros fault db Hok. unfold writer_by_key. rewrite run_query_same. split_and!; [done..|].
    destruct ((run_query _ _ _).1) as [[row|]|] eqn:E; try done. apply run_query_Ok in E.
    apply by_key_inv in E as (r & Hr & Hrow & Hk). split.
    + rewrite Hrow. by eapply writer_row_ok.
    + rewrite Hrow. exact Hk.
  - intros [[row|]|e] w H; done.
Qed.

Lemma inv_by_number n u sid P :
  inv P (lift_wt (db_access (fun f => writer_by_number f n u sid))) (row_fact None).
Proof.
  apply inv_lift_wt. eapply inv_weaken;
    [apply (inv_access _ P (fun r db => match r with
       | Ok (Some row) => row_ok db row | _ => True end))|done|].
  - intros fault db Hok. unfold writer_by_number. rewrite run_query_same. split_and!; [done..|].
    destruct ((run_query _ _ _).1) as [[row|]|] eqn:E; try done. apply run_query_Ok in E.
    apply by_number_inv in E as (_ & r & Hr & -> & _). by eapply writer_row_ok.
  - intros [[row|]|e] w H; done.
Qed.

Lemma inv_ask_key_record u k P : inv P (ask_key_record u k) (fun _ _ => True).
Proof.
  eapply inv_bind; [by apply inv_silent|]. intros r. by apply inv_of_result.
Qed.

Lemma inv_bind_row row P :
  (forall w, P w -> row_ok (w_db w) row /\ is_Some (row_device_key row)) ->
  inv P (bind_row row) (fun _ _ => True).
Proof.
  intros H. unfold bind_row. destruct (row_retired_at row); [by apply inv_ret|].
  intros w [[Hdb Hst] Hl] HP. destruct (H w HP) as [Hrow Hkey].
  unfold bind, get_state, modify, register_session. simpl. split_and!; try done.
  split; [split; [done|]; simpl; by intros row' [= <-]|].
  intros n Hn. simpl in *. destruct (decide (row_writer row = n)) as [<-|Hne].
  - destruct Hrow as (r & Hr & Hk & _). exists r. by rewrite Hk.
  - rewrite lookup_insert_ne in Hn by done. by apply Hl.
Qed.

Lemma inv_bind_device u bd P : inv P (bind_device u bd) (fun _ _ => True).
Proof.
  unfold bind_device. destruct (negb has_enrolment); [apply inv_fail|].
  eapply inv_bind; [apply inv_ask_key_record|]. intros [record|]; [|by apply inv_ret].
  destruct (kr_revoked record); [by apply inv_ret|].
  eapply inv_bind; [by apply inv_silent|]. intros st.
  destruct (spki_point _) as [point|]; [|by apply inv_ret].
  destruct (negb _); [by apply inv_ret|].
  eapply inv_bind; [apply inv_by_key|]. intros [row|].
  - apply inv_bind_row. intros w [? E]. rewrite E. eauto.
  - eapply inv_bind; [apply inv_statement; intros fault db Hok;
      by apply run_stmt_ok; [|apply insert_key_ok]|]. intros ?.
    eapply inv_bind; [apply inv_by_key|]. intros o.
    apply inv_bind with (fun row w => row_ok (w_db w) row /\ is_Some (row_device_key row)).
    + apply inv_of_result. intros row w Ho%ok_or_Ok. subst o. intros [? E]. rewrite E. eauto.
    + intros row. by apply inv_bind_row.
Qed.

Lemma inv_handle_bind_device bd P : inv P (handle_bind_device bd) (fun _ _ => True).
Proof.
  unfold handle_bind_device. eapply inv_bind; [by apply inv_silent|]. intros st.
  destruct (pr_identity _) as [u|]; [|apply inv_send].
  eapply inv_bind; [apply inv_bind_device|]. intros [o|]; [apply inv_send|].
  eapply inv_bind; [apply inv_ignore, inv_send|]. intros ?. apply inv_fail.
Qed.

Lemma inv_mark_and_close row now P : inv P (mark_and_close row now) (fun _ _ => True).
Proof.
  unfold mark_and_close. eapply inv_bind.
  { apply inv_statement. intros fault db Hok. by apply run_stmt_ok; [|apply mark_retired_ok]. }
  intros []; [|by apply inv_ret]. apply inv_bind with (fun _ _ => True); [|intros; by apply inv_ret].
  intros w [Hok Hl] _. simpl. split_and!; [|done|done]. split; [done|].
  intros n Hn. simpl in Hn. apply Hl. destruct Hn as [x Hn]. apply lookup_delete_Some in Hn as [_ ?].
  eauto.
Qed.

Lemma inv_retire_writer u sid wr now P : inv P (retire_writer u sid wr now) (fun _ _ => True).
Proof.
  unfold retire_writer. destruct wr as [k|n].
  - destruct u as [user|]; [|by apply inv_ret]. eapply inv_bind; [apply inv_by_key|].
    intros [row|]; [destruct (same_account _ _); [apply inv_mark_and_close|by apply inv_ret]|].
    apply inv_bind with (fun _ _ => True).
    + unfold retire_unbound_device_key. destruct (negb has_enrolment); [by apply inv_ret|].
      eapply inv_bind; [apply inv_ask_key_record|]. intros [record|]; [|by apply inv_ret].
      destruct (kr_revoked record); [by apply inv_ret|].
      eapply inv_bind; [apply inv_statement; intros fault db Hok;
        by apply run_stmt_ok; [|apply insert_retired_key_ok]|]. intros ?.
      eapply inv_weaken; [apply (inv_by_key _ (fun _ => True))|by intros|by intros].
    + intros [row|]; [apply inv_mark_and_close|by apply inv_ret].
  - eapply inv_bind; [apply inv_by_number|].
    intros [row|]; [apply inv_mark_and_close|by apply inv_ret].
Qed.

Lemma prune_settled_ok fault w s db :
  db_ok init db -> db_ok init (prune_settled fault w s db).2 /\ db_le db (prune_settled fault w s db).2.
Proof. apply (exec_tx_ok init (TxPrune fault w s)). Qed.

Lemma prune_writer_ok fault w db :
  db_ok init db -> db_ok init (prune_writer fault w db).2 /\ db_le db (prune_writer fault w db).2.
Proof. apply (exec_tx_ok init (TxPruneAll fault w)). Qed.

Lemma inv_sweep P : inv P sweep_writer_rows (fun _ _ => True).
Proof.
  unfold sweep_writer_rows. destruct (negb has_enrolment); [by apply inv_ret|].
  eapply inv_bind; [apply inv_statement; intros fault db Hok; unfold list_device_writers;
    by rewrite run_query_same|]. intros ws.
  induction ws as [|[n k] ws IH]; simpl; [by apply inv_ret|].
  destruct (k ≫= try32) as [key|]; [|done].
  eapply inv_bind; [apply inv_ask_key_record|]. intros r.
  destruct (match r with None => true | Some record => kr_revoked record end); [|done].
  eapply inv_bind; [apply inv_statement; intros; by apply prune_writer_ok|]. intros ?.
  eapply inv_bind; [exact IH|]. intros c. by apply inv_ret.
Qed.

Definition admission_ok (a : Admission) (w : World) : Prop :=
  match a with WriterAdmitted (Some row) _ => row_ok (w_db w) row | _ => True end.

Lemma inv_prune n s row :
  inv (fun w => row_ok (w_db w) row) (prune_at_handshake n s) (fun _ w => row_ok (w_db w) row).
Proof.
  unfold prune_at_handshake. destruct s as [q|]; [|by apply inv_ret].
  intros w Hok HP. destruct (inv_statement (fun f => prune_settled f n q) (fun _ => True))
    with w as (? & Hle & _); try done.
  { intros; by apply prune_settled_ok. }
  split_and!; [done..|]. destruct (lift_wt _ w).1; [|done]. by eapply row_ok_mono.
Qed.

Lemma inv_admit_writer p sid req st P : inv P (admit_writer p sid req st) admission_ok.
Proof.
  unfold admit_writer. destruct req as [|n|]; [| |by apply inv_ret].
  - apply inv_bind with (fun r w => let '(n, f) := r in row_ok (w_db w)
      {| row_writer := n; row_user_id := pr_identity p; row_device_key := None;
         row_frontier := f; row_head := None; row_retired_at := None |}).
    + apply inv_lift_wt. eapply inv_weaken; [|done|].
      * apply (inv_access _ P (fun r db => match r with
          | Ok (n, f) => row_ok db {| row_writer := n; row_user_id := pr_identity p;
              row_device_key := None; row_frontier := f; row_head := None;
              row_retired_at := None |} | Err _ => True end)).
        intros fault db Hok. unfold issue_writer.
        set (sid' := match pr_identity p with None => Some sid | Some _ => None end).
        destruct (run_stmt_ok init fault (issue (pr_identity p) sid') db Hok (issue_ok _ _ _ _ Hok)).
        split_and!; [done..|]. destruct fault; try done.
        exists (fresh_writer (pr_identity p) sid' None None). simpl.
        rewrite lookup_insert_eq. split_and!; done || lia.
      * by intros [[n f]|e] w H.
    + intros [n f]. eapply inv_bind; [apply inv_prune|]. intros ?. by apply inv_ret.
  - eapply inv_bind; [apply inv_by_number|]. intros [row|].
    + destruct (row_retired_at row).
      * eapply inv_bind; [eapply inv_weaken; [apply (inv_prune _ _ row)|by intros w [? _]|done]|].
        intros ?. eapply inv_bind; [apply inv_ignore, inv_send|]. intros ?. by apply inv_ret.
      * eapply inv_bind; [eapply inv_weaken; [apply (inv_prune _ _ row)|by intros w [? _]|done]|].
        intros ?. by apply inv_ret.
    + eapply inv_bind; [apply inv_ignore, inv_send|]. intros ?. by apply inv_ret.
Qed.

(** ** The mutation handler keeps it too *)

Lemma inv_of_tri {A} key P (m : M A) Q : tri init key P m Q -> inv P m Q.
Proof.
  intros H w [Hok Hl] HP. destruct (H w Hok HP) as [[H1 H2 _ H4 _] H3].
  split_and!; [|done|done]. split; [done|]. by eapply live_ok_mono.
Qed.

Lemma inv_answer_outcome seq o P : inv P (answer_outcome seq o) (fun _ _ => True).
Proof.
  destruct o as [|reason|t vc cols vals]; simpl; [apply inv_send| |].
  - case_decide; [|apply inv_send]. eapply inv_bind.
    { apply inv_silent. intros w. unfold rejected_write.
      by destruct (en_reactions (w_env w)) as [|[] ?]. }
    intros r. eapply inv_bind; [destruct r; [by apply (inv_ret _ _ (fun _ _ => True))|by apply inv_silent]|].
    intros ?. apply inv_send.
  - eapply inv_bind; [by apply inv_silent|]. intros st. eapply inv_bind; [|intros; apply inv_send].
    apply inv_statement. intros fault db Hok. by rewrite settled_conflict_row_same.
Qed.

Lemma inv_redelivered n seq raw P : inv P (redelivered n seq raw) (fun _ _ => True).
Proof.
  unfold redelivered. eapply inv_bind; [by apply inv_silent|]. intros st. eapply inv_bind.
  { apply inv_statement. intros fault db Hok. by rewrite settled_row_same. }
  intros [row|]; [|apply inv_send].
  eapply inv_bind; [apply (inv_of_result (fun _ => True) _ (fun _ _ => True)); done|]. intros previous.
  eapply inv_bind; [apply (inv_of_result _ _ (fun _ _ => True)); done|]. intros stored.
  case_decide.
  - eapply inv_bind; [by apply inv_silent|intros; apply inv_send].
  - eapply inv_bind; [case_decide; [by apply inv_silent|by apply (inv_ret _ _ (fun _ _ => True))]|]. intros ?.
    eapply inv_bind; [apply (inv_of_result _ _ (fun _ _ => True)); done|].
    intros o. apply inv_answer_outcome.
Qed.

Lemma inv_handle_mutation patch P : inv P (handle_mutation patch) (fun _ _ => True).
Proof.
  unfold handle_mutation. eapply inv_bind; [by apply inv_silent|]. intros st.
  eapply inv_bind; [by apply inv_silent|]. intros ?.
  destruct (st_pending_header st) as [header|]; [|apply inv_fail].
  eapply inv_bind.
  { unfold admit_mutation. case_decide; [|by apply (inv_ret _ _ (fun _ _ => True))].
    eapply inv_bind; [apply inv_send|]. intros ?. by apply (inv_ret _ _ (fun _ _ => True)). }
  intros b. destruct (negb b); [by apply inv_ret|].
  destruct (match st_writer_row st with None => true | Some _ => false end).
  { eapply inv_bind; [apply inv_ignore, inv_send|intros; apply inv_fail]. }
  eapply inv_bind; [apply (inv_of_tri (0, 0)), tri_refresh_with_retry|].
  assert (Hind : forall s R, inv R
    (bind (modify (set_indeterminate (Some s))) (fun _ => reject_indeterminate s)) (fun _ _ => True)).
  { intros s R. eapply inv_bind; [by apply inv_silent|intros; apply inv_send]. }
  intros [u|[]]; try apply inv_fail; try apply Hind.
  eapply inv_bind; [by apply inv_silent|]. intros st'.
  destruct (st_writer_row st') as [row|]; [|apply inv_fail].
  destruct (decompress _) as [raw|err].
  2:{ eapply inv_bind; [apply inv_ignore, inv_send|intros; apply inv_fail]. }
  destruct (_ <=? _); [apply inv_redelivered|]. destruct (_ <? _).
  - apply (inv_of_tri (0, mp_client_seq patch)), tri_past_frontier.
  - by apply (inv_of_tri (row_writer row, mp_client_seq patch)), tri_frontier_write.
Qed.
End Invariant.

(** ** One connection *)

(** The frames of the write path a client sends, and the clock a retirement
    reads. *)
Inductive Incoming :=
| InHeader (header : MutationHeader)
| InPatch (patch : MutationPatch)
| InBind (bd : BindDevice)
| InRetire (rw : RetireWriter) (now : Z).

Definition handle_frame (f : Incoming) : M unit :=
  match f with
  | InHeader header => modify (set_header (Some header))
  | InPatch patch => handle_mutation patch
  | InBind bd => handle_bind_device bd
  | InRetire rw now => handle_retire_writer rw now
  end.

(** The loop over the client's frames: a closing session takes no more, and an
    error ends it. *)
Fixpoint handle_frames (frames : list Incoming) : M unit :=
  match frames with
  | [] => ret tt
  | f :: rest =>
      st <- get_state ;;;
      if st_closing st then ret tt else handle_frame f ;;; handle_frames rest
  end.

Definition fresh_state (principal : Caller) (session_id nonce : bytes)
    (row : option WriterRow) : SessionState :=
  {| st_principal := principal; st_pending_header := None; st_writer_row := row;
     st_session_id := session_id; st_bind_nonce := nonce; st_indeterminate := None;
     st_deferred := ∅; st_closing := false |}.

Definition run_session (principal : Caller) (session_id nonce : bytes) (request : WriterRequest)
    (settled_through : option Z) (frames : list Incoming) : M unit :=
  admission <- admit_writer principal session_id request settled_through ;;;
  match admission with
  | Turned_away => ret tt
  | WriterAdmitted row _ =>
      modify (fun _ => fresh_state principal session_id nonce row) ;;;
      ended <- attempt (handle_frames frames) ;;;
      leave_writer_sessions ;;;
      of_result ended
  end.

Lemma inv_handle_frames init frames P :
  inv init P (handle_frames frames) (fun _ _ => True).
Proof.
  apply inv_weaken with (fun _ => True) (fun _ _ => True); [|done..].
  induction frames as [|f rest IH]; simpl; [by apply inv_ret|].
  eapply inv_bind; [by apply inv_silent|]. intros st.
  destruct (st_closing st); [by apply inv_ret|]. eapply inv_bind; [|intros; apply IH].
  destruct f as [h|patch|bd|rw now]; simpl.
  - by apply inv_silent.
  - apply inv_handle_mutation.
  - apply inv_handle_bind_device.
  - unfold handle_retire_writer. eapply inv_bind; [by apply inv_silent|]. intros st'.
    eapply inv_bind; [apply inv_retire_writer|]. intros o. apply inv_send.
Qed.

Lemma inv_leave init P : inv init P leave_writer_sessions (fun _ _ => True).
Proof.
  intros w [Hok Hl] _. unfold leave_writer_sessions.
  destruct (st_writer_row (w_state w)) as [row|]; [|done].
  destruct (row_device_key row); [|done].
  destruct (w_writer_sessions w !! row_writer row) as [live|] eqn:E; [|done]. simpl.
  split_and!; [|done|done]. split; [done|]. intros n Hn. simpl in Hn. apply Hl.
  destruct (decide (row_writer row = n)) as [<-|]; [eauto|].
  by rewrite lookup_insert_ne in Hn.
Qed.

(** C16. A whole connection keeps the invariant: from the handshake that
    issues, looks up or defers its writer, through any frames the client
    sends, to its end, with other sessions' transactions and failures at every
    database access, the tables stay consistent and only move forward, the
    connection writes as a writer that stands, and the registry of live
    sessions names device writers only. *)
Theorem session_keeps_invariant init principal sid nonce request through frames w :
  inv_ok init w ->
  let w' := (run_session principal sid nonce request through frames w).2 in
  inv_ok init w' /\ db_le (w_db w) (w_db w').
Proof.
  intros Hok. assert (H : inv init (fun _ => True)
    (run_session principal sid nonce request through frames) (fun _ _ => True)).
  { unfold run_session. eapply inv_bind; [apply inv_admit_writer|].
    intros [row grant|]; [|by apply inv_ret].
    apply inv_bind with (fun _ _ => True).
    - intros w0 [[Hdb _] Hl] Hrow. simpl. split_and!; try done. split; [|done].
      split; [done|]. simpl. intros row' Hr. destruct row; [|done]. by injection Hr as <-.
    - intros ?. apply inv_bind with (fun _ _ => True).
      + intros w0 Hok0 _. destruct (inv_handle_frames init frames (fun _ => True) w0 Hok0)
          as (? & ? & _); [done|]. unfold attempt. by destruct (handle_frames frames w0).
      + intros r. eapply inv_bind; [apply inv_leave|]. intros ?. by apply inv_of_result. }
  destruct (H w Hok I) as (? & ? & _). done.
Qed.


(** ** Who may write as whom *)

Lemma bind_Ok {A B} (m : M A) (k : A -> M B) w b w' :
  bind m k w = (Ok b, w') -> exists a w1, m w = (Ok a, w1) /\ k a w1 = (Ok b, w').
Proof. unfold bind. destruct (m w) as [[a|e] w1]; [eauto|done]. Qed.

Lemma lift_wt_Ok {A} (m : M (Result A WriteError)) w a w' :
  lift_wt m w = (Ok a, w') -> m w = (Ok (Ok a), w').
Proof.
  unfold lift_wt. intros (r & w1 & Hm & Hr)%bind_Ok. destruct r; [|done].
  by injection Hr as -> ->.
Qed.

Lemma access_query_Ok {A} (f : Db -> A) w (a : A) w' :
  db_access (fun flt => run_query flt f) w = (Ok (Ok a), w') ->
  f (w_db w') = a /\ w_state w' = w_state w.
Proof.
  unfold db_access. destruct (en_access (w_env w)) as [|acc rest]; simpl.
  - by intros [= <- <-].
  - pose proof (run_query_same (ac_fault acc) f (run_txs (ac_foreign acc) (w_db w))) as Hs.
    destruct (run_query _ _ _) as [r d] eqn:E. intros [= -> <-]. simpl in *. subst d.
    split; [|done]. eapply run_query_Ok. by rewrite E.
Qed.

Lemma ask_key_record_Ok u k w o w' :
  ask_key_record u k w = (Ok o, w') ->
  (exists q, key_record q u k = Ok o) /\ w_state w' = w_state w.
Proof.
  unfold ask_key_record. intros (r & w1 & [= <- <-] & H)%bind_Ok.
  destruct (key_record (w_questions w) u k) as [x|] eqn:E; simpl in H; [|done].
  injection H as -> <-. eauto.
Qed.

Lemma bind_row_Bound row w f w' :
  bind_row row w = (Ok (BvWriter (Bound f)), w') ->
  row_retired_at row = None /\ f = u64_or_zero (row_frontier row) /\
  st_writer_row (w_state w') = Some row /\ st_indeterminate (w_state w') = None /\
  exists live, w_writer_sessions w' !! row_writer row = Some live /\
    st_session_id (w_state w) ∈ live.
Proof.
  unfold bind_row. destruct (row_retired_at row); [done|].
  unfold bind, get_state, modify, register_session, ret. intros [= <- <-]. simpl.
  split_and!; try done. eexists. rewrite lookup_insert_eq. split; [done|]. set_solver.
Qed.

(** A bind needs the device's key: a connection is bound to a device
    writer only if an enrolment is installed, the store holds the key for the
    caller's account unrevoked, and the signature verifies with it over this
    connection's own nonce; the writer was not retired when read, the
    connection then writes as the writer of that very key, and its session is
    registered so that a retirement can close it. *)
Theorem bind_requires_key user bd w f w' :
  bind_device user bd w = (Ok (BvWriter (Bound f)), w') ->
  has_enrolment = true /\
  (exists q record point, key_record q (Some user) (bd_key_id bd) = Ok (Some record) /\
     kr_revoked record = false /\ spki_point (kr_public_key record) = Some point /\
     verify point (writer_bind_message (st_bind_nonce (w_state w))) (bd_signature bd) = true) /\
  (exists row live, st_writer_row (w_state w') = Some row /\
     row_device_key row = Some (bd_key_id bd) /\ row_retired_at row = None /\
     f = u64_or_zero (row_frontier row) /\ st_indeterminate (w_state w') = None /\
     w_writer_sessions w' !! row_writer row = Some live /\ st_session_id (w_state w) ∈ live).
Proof.
  unfold bind_device. destruct has_enrolment; simpl; [|done]. intros H. split; [done|]. revert H.
  intros (record & w1 & [[q Hq] Es]%ask_key_record_Ok & H)%bind_Ok.
  destruct record as [record|]; [|done]. destruct (kr_revoked record) eqn:Erv; [done|].
  apply bind_Ok in H as (st & w2 & [= <- <-] & H).
  destruct (spki_point _) as [point|] eqn:Ep; [|done].
  destruct (verify point _ _) eqn:Ev; simpl in H; [|done]. rewrite Es in Ev.
  split; [eauto 8|].
  assert (Hdone : forall row w3, row_device_key row = Some (bd_key_id bd) ->
    w_state w3 = w_state w -> bind_row row w3 = (Ok (BvWriter (Bound f)), w') ->
    exists row live, st_writer_row (w_state w') = Some row /\
      row_device_key row = Some (bd_key_id bd) /\ row_retired_at row = None /\
      f = u64_or_zero (row_frontier row) /\ st_indeterminate (w_state w') = None /\
      w_writer_sessions w' !! row_writer row = Some live /\ st_session_id (w_state w) ∈ live).
  { intros row w3 Hk E3 (Hr & Hf & Hrow & Hi & live & Hl & Hin)%bind_row_Bound.
    rewrite E3 in Hin. exists row, live. done. }
  apply bind_Ok in H as (o & w3 & [Hby E3]%lift_wt_Ok%access_query_Ok & H).
  destruct o as [row|].
  - apply by_key_inv in Hby as (r & _ & Hrow & Hk). eapply Hdone; [|..|exact H].
    + rewrite Hrow. exact Hk.
    + congruence.
  - apply bind_Ok in H as (u & w4 & Hins%lift_wt_Ok & H).
    assert (E4 : w_state w4 = w_state w3).
    { revert Hins. unfold db_access. destruct (en_access (w_env w3));
        destruct (insert_device_writer _ _ _ _); by intros [= _ <-]. }
    apply bind_Ok in H as (o & w5 & [Hby' E5]%lift_wt_Ok%access_query_Ok & H).
    apply bind_Ok in H as (row & w6 & Ho & H). destruct o as [row'|]; [|done].
    injection Ho as <- <-. apply by_key_inv in Hby' as (r & _ & Hrow & Hk).
    eapply Hdone; [|..|exact H]; [rewrite Hrow; exact Hk|congruence].
Qed.

(** A number request meets a writer of the caller's own account, or of its
    own run when it has no identity, that was not retired when read; nothing
    else is admitted. What was read is a state of the tables between the start
    and the end of the admission. *)
Theorem number_admits_own init principal sid n through w row grant w' :
  inv_ok init w ->
  admit_writer principal sid (ReqNumber n) through w = (Ok (WriterAdmitted row grant), w') ->
  exists r db, db_le (w_db w) db /\ db_le db (w_db w') /\
    row = Some (writer_row (i64_or_max n) r) /\
    db_writers db !! i64_or_max n = Some r /\ wr_user_id r = pr_identity principal /\
    wr_session_id r = match pr_identity principal with None => Some sid | Some _ => None end /\
    wr_retired_at r = None.
Proof.
  intros Hok. unfold admit_writer.
  intros (o & w1 & H1 & H)%bind_Ok.
  destruct (inv_by_number init (i64_or_max n) (pr_identity principal)
    (match pr_identity principal with None => Some sid | Some _ => None end) (fun _ => True) w Hok I)
    as (Hok1 & Hle1 & Hrow). rewrite H1 in *. simpl in Hok1, Hle1, Hrow.
  apply lift_wt_Ok, access_query_Ok in H1 as [Hby _].
  destruct o as [row0|]; [|unfold bind, ignore in H; done].
  apply by_number_inv in Hby as (_ & r & Hr & -> & Hu & Hs). simpl in H.
  destruct (wr_retired_at r) eqn:Er.
  - apply bind_Ok in H as (? & ? & _ & H). unfold bind, ignore, ret in H. done.
  - apply bind_Ok in H as (u & w2 & Hp & H). injection H as <- _ <-.
    destruct (inv_prune init (i64_or_max n) through (writer_row (i64_or_max n) r) w1 Hok1 (proj1 Hrow))
      as (_ & Hle2 & _). rewrite Hp in Hle2.
    exists r, (w_db w1). done.
Qed.

(** A number request also admits a device writer: the lookup by number
    does not ask for the absence of a device key, so an account's device writer
    is admitted under its table number with no signature of its key. *)
Theorem number_admits_device_writer principal user sid n key r w :
  en_access (w_env w) = [] -> 0 <= n <= i64_max ->
  pr_identity principal = Some user ->
  db_writers (w_db w) !! n = Some r -> wr_user_id r = Some user -> wr_session_id r = None ->
  wr_device_key r = Some key -> wr_retired_at r = None ->
  exists grant w', admit_writer principal sid (ReqNumber n) None w
    = (Ok (WriterAdmitted (Some (writer_row n r)) grant), w') /\
    row_device_key (writer_row n r) = Some key /\ w_questions w' = w_questions w.
Proof.
  intros Hacc Hn Hp Hr Hu Hs Hk Hret. eexists _, _. split.
  - unfold admit_writer, bind, lift_wt, bind, db_access. rewrite Hacc. simpl.
    rewrite i64_or_max_id by done. unfold by_number. rewrite Hr, Hp.
    rewrite decide_True by done. simpl. rewrite Hret. reflexivity.
  - done.
Qed.

Lemma closed_lift_wt {A} (f : Fault -> Db -> Result A WriteError * Db) w :
  w_closed (lift_wt (db_access f) w).2 = w_closed w.
Proof.
  unfold lift_wt, bind, db_access.
  by destruct (en_access (w_env w)); destruct (f _ _) as [[] ?].
Qed.

Lemma retire_closes_none init user sid n now w :
  inv_ok init w ->
  (forall r db, db_le (w_db w) db -> db_writers db !! i64_or_max n = Some r ->
     wr_device_key r = None) ->
  w_closed (retire_writer user sid (Number n) now w).2 = w_closed w.
Proof.
  intros Hok Hnum. unfold retire_writer.
  set (bs := match user with None => Some sid | Some _ => None end).
  destruct (inv_by_number init (i64_or_max n) user bs (fun _ => True) w Hok I)
    as (Hok1 & Hle1 & _).
  pose proof (closed_lift_wt (fun f => writer_by_number f (i64_or_max n) user bs) w) as Hc1.
  unfold bind at 1. destruct (lift_wt _ w) as [[o|e] w1] eqn:E1; [|done].
  apply lift_wt_Ok, access_query_Ok in E1 as [Hby _].
  destruct o as [row|]; [|done]. apply by_number_inv in Hby as (Hw & r & Hr & _).
  simpl in Hok1, Hle1, Hc1. unfold mark_and_close.
  destruct (inv_statement init (fun f => mark_writer_retired f (row_writer row) (row_device_key row) now)
    (fun _ => True)) with w1 as ([_ Hlive2] & Hle2 & _); try done.
  { intros fault db Hdb. by apply run_stmt_ok; [|apply mark_retired_ok]. }
  pose proof (closed_lift_wt (fun f => mark_writer_retired f (row_writer row)
    (row_device_key row) now) w1) as Hc2.
  unfold bind at 1. destruct (lift_wt _ w1) as [[b|e] w2]; simpl in *; [|congruence].
  destruct b; [|simpl; congruence]. unfold bind, close_writer_sessions, ret. simpl.
  destruct (w_writer_sessions w2 !! row_writer row) as [live|] eqn:El; simpl.
  - exfalso. destruct (Hlive2 (row_writer row)) as (r2 & Hr2 & Hk2); [eauto|].
    rewrite Hw in Hr2. destruct Hk2 as [k Hk2].
    rewrite (Hnum r2 (w_db w2)) in Hk2; [done|by etrans|done].
  - rewrite elements_empty. simpl. rewrite app_nil_r. congruence.
Qed.

(** Retiring a number writer closes no session: only a bind registers one,
    so when the number names a writer without a device key nothing is closed,
    whatever connections write as it. *)
Theorem retire_number_closes_none init user sid n now r w :
  inv_ok init w ->
  db_writers (w_db w) !! i64_or_max n = Some r -> wr_device_key r = None ->
  w_closed (retire_writer user sid (Number n) now w).2 = w_closed w.
Proof.
  intros Hok Hr Hk. apply (retire_closes_none init); [done|]. intros r' db [Hle _] Hr'.
  destruct (Hle _ _ Hr) as (r2 & E & _ & _ & Hk2 & _). congruence.
Qed.

(** ** The sweep prunes the dead only *)

Definition dead_key (key : bytes) : Prop :=
  exists q, key_record q None key = Ok None \/
    exists record, key_record q None key = Ok (Some record) /\ kr_revoked record = true.

Definition no_foreign (w : World) : Prop :=
  Forall (fun a => ac_foreign a = []) (en_access (w_env w)).

(** What a sweep over [ws] may have done to the tables. *)
Definition swept (ws : list (Z * option bytes)) (w w' : World) : Prop :=
  no_foreign w' /\ db_writers (w_db w') = db_writers (w_db w) /\
  db_log (w_db w') = db_log (w_db w) /\
  forall k row, db_settled (w_db w) !! k = Some row ->
    db_settled (w_db w') !! k = Some row \/
    exists key, (k.1, Some key) ∈ ws /\ dead_key key.

Lemma swept_refl ws w : no_foreign w -> swept ws w w.
Proof. intros. split_and!; try done. intros k row ?. by left. Qed.

Lemma swept_trans ws w1 w2 w3 : swept ws w1 w2 -> swept ws w2 w3 -> swept ws w1 w3.
Proof.
  intros (_ & E1 & L1 & S1) (A3 & E2 & L2 & S2). split_and!; [done|congruence|congruence|].
  intros k row Hk. destruct (S1 k row Hk) as [Hk2|?]; [|by right]. by apply S2.
Qed.

Lemma swept_mono ws ws' w w' : ws ⊆ ws' -> swept ws w w' -> swept ws' w w'.
Proof.
  intros Hs (A & E & L & S1). split_and!; try done. intros k row Hk.
  destruct (S1 k row Hk) as [?|(key & Hin & Hd)]; [by left|right; eauto].
Qed.

Lemma prune_swept n key w :
  no_foreign w -> dead_key key ->
  swept [(n, Some key)] w (lift_wt (db_access (fun f => prune_writer f n)) w).2.
Proof.
  intros Hw Hd.
  assert (Hf : forall fault db, db_writers (prune_writer fault n db).2 = db_writers db /\
    db_log (prune_writer fault n db).2 = db_log db /\
    forall k row, db_settled db !! k = Some row ->
      db_settled (prune_writer fault n db).2 !! k = Some row \/ k.1 = n).
  { intros fault db. unfold prune_writer. destruct (run_stmt _ _ _) as [r d] eqn:E. simpl.
    apply run_stmt_inv in E as [->| ->]; [split_and!; try done; by left|].
    split_and!; try done. intros k row Hk. simpl. destruct (decide (k.1 = n)) as [|Hne]; [by right|].
    left. apply map_lookup_filter_Some. split; [done|]. simpl. by apply Z.eqb_neq. }
  assert (Hacc : forall f : Fault -> Db -> Result unit WriteError * Db,
    (lift_wt (db_access f) w).2 = (db_access f w).2).
  { intros f. unfold lift_wt, bind. by destruct (db_access f w) as [[[]|] ?]. }
  rewrite Hacc. unfold db_access. unfold no_foreign in *.
  destruct (en_access (w_env w)) as [|acc rest] eqn:Ea; simpl.
  - destruct (Hf FNone (w_db w)) as (E & L & S1). simpl in *. split_and!; try done.
    intros k row Hk. destruct (S1 k row Hk) as [?|Hn]; [by left|right].
    exists key. rewrite Hn. split; [constructor|done].
  - apply Forall_cons in Hw as [Hfor Hrest]. rewrite Hfor. simpl.
    specialize (Hf (ac_fault acc) (w_db w)). destruct (prune_writer _ _ _) as [r d]. simpl in *.
    destruct Hf as (E & L & S1). split_and!; try done.
    intros k row Hk. destruct (S1 k row Hk) as [?|Hn]; [by left|right].
    exists key. rewrite Hn. split; [constructor|done].
Qed.

Lemma try32_Some b c : try32 b = Some c -> c = b.
Proof. unfold try32. case_decide; [by intros [= <-]|done]. Qed.

Lemma sweep_list_swept ws w : no_foreign w -> swept ws w (sweep_list ws w).2.
Proof.
  revert w. induction ws as [|[n o] ws IH]; intros w Hw; [by apply swept_refl|]. simpl.
  assert (Hrest : forall w, no_foreign w -> swept ((n, o) :: ws) w (sweep_list ws w).2).
  { intros v Hv. eapply swept_mono; [|by apply IH]. set_solver. }
  destruct (o ≫= try32) as [key|] eqn:Ek; [|by apply Hrest].
  destruct o as [key0|]; [|done]. apply try32_Some in Ek as ->.
  unfold ask_key_record, bind, ask. simpl.
  destruct (key_record (w_questions w) None key0) as [record|] eqn:Er; simpl;
    [|exact (swept_refl _ w Hw)].
  match goal with |- context [with_audit ?a ?b ?c ?d ?e ?f ?g w] =>
    set (w1 := with_audit a b c d e f g w) end.
  assert (Hw1 : no_foreign w1) by done.
  assert (Hs : forall v, swept ((n, Some key0) :: ws) w1 v -> swept ((n, Some key0) :: ws) w v) by done.
  destruct (match record with None => true | Some r => kr_revoked r end) eqn:Ed;
    [|apply Hs; by apply Hrest].
  assert (Hdead : dead_key key0).
  { exists (w_questions w). destruct record; eauto. }
  pose proof (prune_swept n key0 w1 Hw1 Hdead) as Hp.
  assert (Hsub : [(n, Some key0)] ⊆ (n, Some key0) :: ws).
  { intros x [->|Hx%not_elem_of_nil]%elem_of_cons; [constructor|done]. }
  apply Hs. destruct (lift_wt _ w1) as [[u|e] w2]; simpl in *.
  - eapply swept_trans; [eapply swept_mono; [exact Hsub|exact Hp]|].
    pose proof (Hrest w2 (proj1 Hp)) as Hr. unfold ret.
    by destruct (sweep_list ws w2) as [[c|e] w3].
  - eapply swept_mono; [exact Hsub|exact Hp].
Qed.

(** A sweep prunes only what cannot deliver any more: alone on the tables,
    it leaves every writer row, frontier and head as they are and the log of
    applied writes too, and a settled row it removed belongs to a device writer
    whose enrolment the store reported absent or revoked. *)
Theorem sweep_prunes_dead_only w :
  no_foreign w ->
  let w' := (sweep_writer_rows w).2 in
  db_writers (w_db w') = db_writers (w_db w) /\ db_log (w_db w') = db_log (w_db w) /\
  forall k row, db_settled (w_db w) !! k = Some row -> db_settled (w_db w') !! k = None ->
    exists r key, db_writers (w_db w) !! k.1 = Some r /\ wr_device_key r = Some key /\
      dead_key key.
Proof.
  intros Hw. unfold sweep_writer_rows. destruct (negb has_enrolment).
  { simpl. split_and!; try done. intros k row Hk Hn. congruence. }
  unfold bind. destruct (lift_wt _ w) as [[ws|e] w1] eqn:E.
  - apply lift_wt_Ok in E.
    assert (Hw1 : no_foreign w1 /\ w_db w1 = w_db w /\ ws = device_writers (w_db w)).
    { pose proof (access_query_Ok _ _ _ _ E) as [Hd _]. revert E. unfold db_access.
      unfold no_foreign in *. destruct (en_access (w_env w)) as [|acc rest]; simpl.
      - intros [= <- <-]. split_and!; [constructor|done|done].
      - apply Forall_cons in Hw as [-> Hrest]. simpl.
        unfold list_device_writers. pose proof (run_query_same (ac_fault acc) device_writers (w_db w)) as Hs.
        destruct (run_query _ _ _) as [r d]. simpl in Hs. subst d. intros [= _ <-]. simpl in *. done. }
    destruct Hw1 as (Hw1 & Ed & ->). pose proof (sweep_list_swept (device_writers (w_db w)) w1 Hw1)
      as (_ & E1 & E2 & E3). rewrite Ed in *. split_and!; [done..|].
    intros k row Hk Hn. destruct (E3 k row Hk) as [?|(key & Hin & Hd)]; [congruence|].
    unfold device_writers in Hin. apply list_elem_of_fmap in Hin as ([n r] & [= -> Ekey] & Hin).
    apply list_elem_of_filter in Hin as [_ Hin]. apply elem_of_map_to_list in Hin. eauto.
  - assert (Ed : w_db w1 = w_db w).
    { revert E. unfold lift_wt, bind, db_access, list_device_writers. unfold no_foreign in Hw.
      destruct (en_access (w_env w)) as [|acc rest]; simpl; [done|].
      apply Forall_cons in Hw as [-> _]. simpl.
      pose proof (run_query_same (ac_fault acc) device_writers (w_db w)) as Hs.
      destruct (run_query _ _ _) as [[r|e'] d]; simpl in *; subst d; by intros [= _ <-]. }
    simpl. rewrite Ed. split_and!; try done. intros k row Hk Hn. congruence.
Qed.
End Writers.
