(* ===== verification/Courier.v ===== *)
(** The courier: a signed range of one author's entries, settled in order
    under the author's identity (src/crates/connetto-server/src/session.rs
    [courier_deliver] and its helpers, courier.rs). *)

From stdpp Require Import base list numbers option strings gmap sets pretty.
From S2P Require Import Prelude Wire Chain Backoff Plan WriterStore WriteTarget Settlement.
From S2P Require Import Session Mutation Answers Writers.
Open Scope Z_scope.

Record CourierEntry := {
  ce_seq : Z;
  ce_changeset : bytes;
  ce_provenance : option Provenance;
}.

Inductive CourierRefusal :=
| CNotEnrolled
| CWriterRetired
| CSequenceGap (expected got : Z).

Inductive CourierDelivery :=
| Refused (refusal : CourierRefusal)
| Entries (outcomes : list SettledOutcome).

Section Courier.
Context {CT : Catalog} {DP : Deployment} {SHA : Sha256} {SV : Services}.

(** The loop that checks the sequences and chains the hashes: the hash of each
    entry and the last of them, or the gap. *)
Fixpoint chain_entries (expected : Z) (previous : bytes) (entries : list CourierEntry) :
    Result (list bytes * bytes) CourierRefusal :=
  match entries with
  | [] => Ok ([], previous)
  | entry :: rest =>
      if decide (ce_seq entry <> expected) then Err (CSequenceGap expected (ce_seq entry))
      else
        let hash := entry_hash previous (ce_seq entry) (ce_changeset entry) in
        '(hashes, head) <-? chain_entries (sat_add u64_max (ce_seq entry) 1) hash rest ;;
        Ok (hash :: hashes, head)
  end.

Definition courier_settle_refusal (author : Caller) (settle : SettleSpec)
    (reason : MutationRejectReason) : M SettledOutcome :=
  settlement <- lift_wt (db_access (fun f => settle_refusal f settle (Rejected reason))) ;;;
  recorded_outcome author settle settlement.

(** The outcome of a copy whose original settled already, or the settle
    instruction with its original bound. *)
Definition courier_original (author : Caller) (session_id : bytes) (entry : CourierEntry)
    (settle : SettleSpec) : M (SettledOutcome + SettleSpec) :=
  match ce_provenance entry with
  | None => ret (inr settle)
  | Some provenance =>
      original <- provenance_original provenance (ce_changeset entry) author session_id ;;;
      match original with
      | None => ret (inr settle)
      | Some (writer, frontier, hash, previous) =>
          if pv_seq provenance <=? frontier then
            stored <- lift_wt (db_access (fun f => settled_row f writer (pv_seq provenance))) ;;;
            outcome <- match stored with
                       | None => ret Applied
                       | Some row => recorded_outcome author settle
                                       {| sm_row := row; sm_forked := false |}
                       end ;;;
            settlement <- lift_wt (db_access (fun f => settle_refusal f settle outcome)) ;;;
            outcome <- recorded_outcome author settle settlement ;;;
            ret (inl outcome)
          else if pv_seq provenance =? frontier + 1 then
            ret (inr (spec_with_original settle (writer, pv_seq provenance, hash, previous)))
          else
            fail (SProtocol ("a provenance sequence " +:+ pretty (pv_seq provenance)
              +:+ " past the original frontier " +:+ pretty frontier))
      end
  end.

Definition courier_entry (author : Caller) (session_id : bytes) (writer : Z)
    (entry : CourierEntry) (hash previous_hash : bytes) : M SettledOutcome :=
  let settle := {| ss_writer := writer; ss_seq := ce_seq entry; ss_entry_hash := hash;
                   ss_previous_hash := previous_hash; ss_path := Courier;
                   ss_original := None |} in
  bound <- courier_original author session_id entry settle ;;;
  match bound with
  | inl outcome => ret outcome
  | inr settle =>
      payload <- of_result (map_err (fun err =>
        SProtocol ("the changeset will not compress, " +:+ err))
        (compress (ce_changeset entry))) ;;;
      match plan_write payload with
      | Err err => courier_settle_refusal author settle (reject_reason err)
      | Ok plan =>
          verdict <- every_op_authorized (wp_ops plan) author ;;;
          match verdict with
          | Denied =>
              ignore rejected_write ;;;
              courier_settle_refusal author settle RUnauthorized
          | Undetermined => ret (Rejected RIndeterminate)
          | Allowed =>
              outcome <- commit_with_retry author plan payload settle ;;;
              match outcome with
              | Ok WoApplied => ret Applied
              | Ok (WoConflict table _ version_column pk_columns pk_values) =>
                  ret (Conflict table version_column pk_columns pk_values)
              | Ok (WoSettled settlement) => recorded_outcome author settle settlement
              | Err WUnauthorized => courier_settle_refusal author settle RUnauthorized
              | Err (WMaterializer err) => courier_settle_refusal author settle (reject_reason err)
              | Err (WBackend detail) => courier_settle_refusal author settle (ROther detail)
              | Err WFrontier | Err (WTransient _) => ret (Rejected RIndeterminate)
              end
          end
      end
  end.

Definition is_rejected (o : SettledOutcome) : bool :=
  match o with Rejected _ => true | _ => false end.

(** The loop over the entries and their hashes: a refusal stops the range. *)
Fixpoint courier_entries_loop (author : Caller) (session_id : bytes) (writer : Z)
    (previous : bytes) (entries : list (CourierEntry * bytes)) : M (list SettledOutcome) :=
  match entries with
  | [] => ret []
  | (entry, hash) :: rest =>
      outcome <- courier_entry author session_id writer entry hash previous ;;;
      if is_rejected outcome then ret [outcome]
      else
        outcomes <- courier_entries_loop author session_id writer hash rest ;;;
        ret (outcome :: outcomes)
  end.

(** The author's writer row, created at frontier 0 when it never bound;
    [None] when it is retired. *)
Definition courier_writer (user : Id) (key : bytes) : M (option WriterRow) :=
  row <- lift_wt (db_access (fun f => writer_by_key f key)) ;;;
  match row with
  | Some row => match row_retired_at row with Some _ => ret None | None => ret (Some row) end
  | None =>
      lift_wt (db_access (fun f => insert_device_writer f (Some user) key)) ;;;
      row <- lift_wt (db_access (fun f => writer_by_key f key)) ;;;
      row <- of_result (ok_or row (SProtocol "the device writer row did not stand")) ;;;
      ret (Some row)
  end.

(** What the author's key signs over a range. *)
Definition range_vouch (author : bytes) (frontier : Z) (head last_hash : bytes)
    (entries : list CourierEntry) : bytes :=
  let '(vouch_seq, vouch_head) :=
    match last entries with Some e => (ce_seq e, last_hash) | None => (frontier, head) end in
  courier_range_message author vouch_seq vouch_head
    ((fun e => (ce_seq e, ce_provenance e)) <$> entries).

(** [session] is the fresh run handle of the delivery. *)
Definition courier_deliver (author : bytes) (entries : list CourierEntry) (signature : bytes)
    (session : bytes) : M CourierDelivery :=
  if negb has_enrolment then fail (SProtocol "no device enrolment installed")
  else
    record <- ask_key_record None author ;;;
    match record with
    | None => ret (Refused CNotEnrolled)
    | Some record =>
        if kr_revoked record || negb (kr_certificate_live record)
        then ret (Refused CNotEnrolled)
        else
          row <- courier_writer (kr_user record) author ;;;
          match row with
          | None => ret (Refused CWriterRetired)
          | Some row =>
              let frontier := u64_or_zero (row_frontier row) in
              let head := head_or_genesis (row_head row) in
              match chain_entries (sat_add u64_max frontier 1) head entries with
              | Err refusal => ret (Refused refusal)
              | Ok (hashes, last_hash) =>
                  match spki_point (kr_public_key record) with
                  | None => ret (Refused CNotEnrolled)
                  | Some point =>
                      if negb (verify point (range_vouch author frontier head last_hash entries)
                                 signature)
                      then ret (Refused CNotEnrolled)
                      else
                        let principal := {| pr_session_id := session;
                          pr_identity := Some (kr_user record); pr_capabilities := [] |} in
                        outcomes <- courier_entries_loop principal session (row_writer row) head
                          (zip entries hashes) ;;;
                        ret (Entries outcomes)
                  end
              end
          end
    end.

(** ** What a delivery reports *)

Section Recorded.
Context (init : App).

(** An outcome the courier reports for [key]: indeterminate, with nothing
    promised, or what the record says. *)
Definition reported (key : Z * Z) (o : SettledOutcome) (db : Db) : Prop :=
  o = Rejected RIndeterminate \/ answered key o db.

Lemma reported_mono key o db db' : db_le db db' -> reported key o db -> reported key o db'.
Proof. intros Hle [?|?]; [by left|right; by eapply answered_mono]. Qed.

Section Entry.
Context (key : Z * Z).

Lemma tri_courier_refusal author spec reason P :
  key = (ss_writer spec, ss_seq spec) ->
  tri init key P (courier_settle_refusal author spec reason)
    (fun o w => reported key o (w_db w)).
Proof.
  intros Hkey. eapply tri_bind; [by apply tri_settle_refusal|]. intros s.
  eapply tri_weaken; [apply tri_recorded_outcome|done|]. by right.
Qed.

(** The bound settle instruction keeps the entry's key. *)
Definition bound_ok (r : SettledOutcome + SettleSpec) (w : World) : Prop :=
  match r with
  | inl o => reported key o (w_db w)
  | inr spec => key = (ss_writer spec, ss_seq spec)
  end.

Lemma tri_courier_original author sid entry spec P :
  key = (ss_writer spec, ss_seq spec) ->
  tri init key P (courier_original author sid entry spec) bound_ok.
Proof.
  intros Hkey. apply tri_weaken with (fun _ => True) bound_ok; [|done..].
  unfold courier_original. destruct (ce_provenance entry) as [pv|]; [|by apply tri_ret].
  apply tri_bind_keep; [apply stable_True|apply tri_provenance_original|].
  intros [[[[ow ofr] oh] op]|]; [|by apply tri_ret].
  destruct (_ <=? _).
  - apply tri_read; [apply stable_True|intros; apply settled_row_same|]. intros stored.
    apply tri_bind_keep; [apply stable_True| |].
    + destruct stored as [row|]; [|by apply tri_ret]. apply tri_bind_keep; [apply stable_True| |].
      * simpl. case_decide; [apply tri_note|by apply tri_ret].
      * intros _. by apply tri_of_result.
    + intros o. eapply tri_bind; [by apply tri_settle_refusal|]. intros s.
      eapply tri_bind; [apply tri_recorded_outcome|]. intros o'. apply tri_ret. by right.
  - destruct (_ =? _); [by apply tri_ret|apply tri_fail].
Qed.

Lemma tri_courier_entry author sid writer entry hash previous P :
  key = (writer, ce_seq entry) ->
  tri init key P (courier_entry author sid writer entry hash previous)
    (fun o w => reported key o (w_db w)).
Proof.
  intros Hkey. unfold courier_entry. eapply tri_bind; [by apply tri_courier_original|].
  intros [o|spec]; [by apply tri_ret|].
  assert (Hpure : forall (m : M SettledOutcome) Q, (key = (ss_writer spec, ss_seq spec) ->
    tri init key (fun _ => True) m Q) -> tri init key (fun w => bound_ok (inr spec) w) m Q).
  { intros m Q H w Hok HP. by apply H. }
  apply Hpure. intros Hk.
  apply tri_bind_keep; [apply stable_True|by apply tri_of_result|]. intros payload.
  destruct (plan_write payload) as [plan|err]; [|by apply tri_courier_refusal].
  apply tri_bind_keep; [apply stable_True|apply tri_every_op_authorized|].
  intros [].
  - eapply tri_bind; [by apply tri_commit_with_retry|].
    intros [[|t r vc cols vals|s]|[|err|d| |d]]; simpl; try (by apply tri_courier_refusal);
      try (apply tri_ret; intros; by left).
    + apply tri_ret. intros w H. by right.
    + apply tri_ret. intros w H. by right.
    + eapply tri_weaken; [apply tri_recorded_outcome|done|]. by right.
  - apply tri_bind_keep; [apply stable_True| |].
    { eapply tri_ignore. apply (tri_silent init key _ (fun _ => True)). intros w.
      unfold rejected_write. by destruct (en_reactions (w_env w)). }
    intros _. by apply tri_courier_refusal.
  - apply tri_ret. by left.
Qed.
End Entry.

(** The reports of a range: each outcome is the record's, only the last can be
    a refusal, and the list is short only when it is one. *)
Definition range_reported (writer : Z) (entries : list CourierEntry)
    (outs : list SettledOutcome) (db : Db) : Prop :=
  (forall i e o, entries !! i = Some e -> outs !! i = Some o -> reported (writer, ce_seq e) o db) /\
  (forall i o, outs !! i = Some o -> is_rejected o = true -> S i = length outs) /\
  ((length outs < length entries)%nat -> exists o, last outs = Some o /\ is_rejected o = true) /\
  (length outs <= length entries)%nat.

Lemma range_reported_stop writer e entries o db :
  is_rejected o = true -> reported (writer, ce_seq e) o db ->
  range_reported writer (e :: entries) [o] db.
Proof.
  intros Hr Ho. split_and!; simpl.
  - intros [|i] e' o'; simpl; [by intros [= <-] [= <-]|done].
  - by intros [|i] o'.
  - intros _. by exists o.
  - lia.
Qed.

Lemma range_reported_cons writer e entries o outs db :
  is_rejected o = false -> reported (writer, ce_seq e) o db ->
  range_reported writer entries outs db -> range_reported writer (e :: entries) (o :: outs) db.
Proof.
  intros Hr Ho (H1 & H2 & H3 & H4). split_and!; simpl.
  - intros [|i] e' o'; simpl; [by intros [= <-] [= <-]|apply H1].
  - intros [|i] o'; simpl; [intros [= <-]; congruence|]. intros Hi Hi'.
    by rewrite (H2 i o').
  - intros Hl. destruct H3 as (o' & Hlast & Hrej); [lia|]. exists o'. split; [|done].
    rewrite last_cons. by rewrite Hlast.
  - lia.
Qed.

Lemma inv_entries_loop author sid writer previous zipped P :
  inv init P (courier_entries_loop author sid writer previous zipped)
    (fun outs w => range_reported writer zipped.*1 outs (w_db w)).
Proof.
  apply inv_weaken with (fun _ => True)
    (fun outs w => range_reported writer zipped.*1 outs (w_db w)); [|done..].
  revert previous. induction zipped as [|[e hash] rest IH]; intros previous; simpl.
  { apply inv_ret. intros w _. split_and!; simpl; try (by intros ? ?); lia. }
  eapply inv_bind; [apply (inv_of_tri init (writer, ce_seq e)); by apply tri_courier_entry|].
  intros o. simpl. destruct (is_rejected o) eqn:Er.
  { apply inv_ret. intros w Ho. by apply range_reported_stop. }
  intros w Hok Ho. unfold bind.
  destruct (IH hash w Hok I) as (Hok' & Hle & HQ).
  destruct (courier_entries_loop author sid writer hash rest w) as [[outs|err] w']; simpl in *;
    [|done].
  split_and!; [done..|]. apply range_reported_cons; [done| |done]. by eapply reported_mono.
Qed.

Lemma inv_courier_writer u k P : inv init P (courier_writer u k) (row_fact (Some k)).
Proof.
  unfold courier_writer. eapply inv_bind; [apply inv_by_key|]. intros [row|].
  - destruct (row_retired_at row); [by apply inv_ret|]. by apply inv_ret.
  - eapply inv_bind; [apply inv_statement; intros fault db Hok;
      by apply run_stmt_ok; [|apply insert_key_ok]|]. intros ?.
    eapply inv_bind; [apply inv_by_key|]. intros o.
    apply inv_bind with (fun row w => row_fact (Some k) (Some row) w).
    + apply inv_of_result. intros row w Ho%ok_or_Ok. by subst o.
    + intros row. by apply inv_ret.
Qed.

Lemma chain_entries_length expected previous entries hashes head :
  chain_entries expected previous entries = Ok (hashes, head) -> length hashes = length entries.
Proof.
  revert expected previous hashes head. induction entries as [|e es IH];
    intros expected previous hashes head; simpl; [by intros [= <- <-]|].
  case_decide as Hne; [done|]. intros ([hs hd] & H & [= <- <-])%rbind_Ok. simpl. f_equal. by eapply IH.
Qed.

Lemma fst_zip_hashes (entries : list CourierEntry) (hashes : list bytes) :
  length hashes = length entries -> (zip entries hashes).*1 = entries.
Proof. intros H. apply fst_zip. lia. Qed.

(** What a delivery of [entries] leaves when it processes them. *)
Definition delivery_reported (author : bytes) (entries : list CourierEntry)
    (d : CourierDelivery) (w : World) : Prop :=
  match d with
  | Refused _ => True
  | Entries outs => exists writer r,
      db_writers (w_db w) !! writer = Some r /\ wr_device_key r = Some author /\
      range_reported writer entries outs (w_db w)
  end.

Lemma inv_courier_deliver author entries signature session P :
  inv init P (courier_deliver author entries signature session) (delivery_reported author entries).
Proof.
  unfold courier_deliver. destruct (negb has_enrolment); [apply inv_fail|].
  eapply inv_bind; [apply inv_ask_key_record|]. intros [record|]; [|by apply inv_ret].
  destruct (_ || _); [by apply inv_ret|].
  eapply inv_bind; [apply inv_courier_writer|]. intros [row|]; [|by apply inv_ret].
  destruct (chain_entries _ _ _) as [[hashes last_hash]|refusal] eqn:E; [|by apply inv_ret].
  destruct (spki_point _) as [point|]; [|by apply inv_ret].
  destruct (negb _); [by apply inv_ret|].
  intros w Hok [Hrow Hkey]. unfold bind.
  destruct (inv_entries_loop {| pr_session_id := session; pr_identity := Some (kr_user record);
      pr_capabilities := [] |} session (row_writer row) (head_or_genesis (row_head row))
      (zip entries hashes) (fun _ => True) w Hok I) as (Hok' & Hle & HQ).
  destruct (courier_entries_loop _ _ _ _ _ w) as [[outs|err] w']; simpl in *; [|done].
  rewrite fst_zip_hashes in HQ by (by eapply chain_entries_length).
  split_and!; [done..|]. apply (row_ok_mono _ _ _ Hle) in Hrow as (r & Hr & Hk & _).
  exists (row_writer row), r. split_and!; [done|congruence|done].
Qed.
End Recorded.

(** C32. A courier delivery reports the record: it keeps the invariant whatever
    happens around it; it reports one outcome per entry processed, in order,
    each of them what the record of the author key's writer at the entry's
    sequence says (or indeterminate, with
    nothing promised); and it stops at the first refusal, so a short list ends
    in one. *)
Theorem courier_reports_record init author entries signature session w :
  inv_ok init w ->
  let '(r, w') := courier_deliver author entries signature session w in
  inv_ok init w' /\ db_le (w_db w) (w_db w') /\
  match r with Ok d => delivery_reported author entries d w' | Err _ => True end.
Proof.
  intros Hok. pose proof (inv_courier_deliver init author entries signature session
    (fun _ => True) w Hok I) as H. by destruct (courier_deliver _ _ _ _ w).
Qed.

(** The hashes are the chain of the entries' changesets, at consecutive
    sequences from the expected one. *)
Lemma chain_entries_spec expected previous entries hashes head :
  0 <= expected -> expected + Z.of_nat (length entries) <= u64_max ->
  chain_entries expected previous entries = Ok (hashes, head) <->
  (forall i e, entries !! i = Some e -> ce_seq e = expected + Z.of_nat i) /\
  hashes = chain_hashes previous expected (ce_changeset <$> entries) /\
  head = chain_head previous expected (ce_changeset <$> entries).
Proof.
  revert expected previous hashes head. induction entries as [|e es IH];
    intros expected previous hashes head H0 Hb; simpl.
  { split; [intros [= <- <-]; split_and!; [done..|]; done|by intros (_ & -> & ->)]. }
  rewrite chain_head_cons. cbn [length] in Hb. case_decide as Hne.
  { split; [done|]. intros (Hs & _). specialize (Hs 0%nat e eq_refl). lia. }
  assert (Es : ce_seq e = expected) by lia. rewrite Es.
  unfold sat_add. rewrite Z.min_r by lia. rewrite rbind_Ok. split.
  - intros ([hs hd] & H & [= <- <-]). apply IH in H as (Hs & -> & ->); [|lia..].
    split_and!; [|done|done]. intros [|i] e'; simpl; [intros [= <-]; lia|].
    intros Hi. rewrite (Hs i e' Hi). lia.
  - intros (Hs & -> & ->). eexists (_, _). split; [|done].
    apply IH; [lia..|]. split_and!; [|done|done]. intros i e' Hi.
    rewrite (Hs (S i) e' Hi). lia.
Qed.

(** A writer found or made for a key is the writer of that key in the tables. *)
Lemma courier_writer_Ok user key w row w' :
  courier_writer user key w = (Ok (Some row), w') ->
  exists r, db_writers (w_db w') !! row_writer row = Some r /\
    row = writer_row (row_writer row) r /\ wr_device_key r = Some key.
Proof.
  unfold courier_writer.
  intros (o & w3 & [Hby _]%lift_wt_Ok%access_query_Ok & H')%bind_Ok.
  destruct o as [row'|].
  - destruct (row_retired_at row'); [done|]. injection H' as <- <-. by apply by_key_inv.
  - apply bind_Ok in H' as (? & ? & _ & H').
    apply bind_Ok in H' as (o & w4 & [Hby' _]%lift_wt_Ok%access_query_Ok & H').
    destruct o as [row'|]; [|done].
    unfold bind, of_result, ret in H'. simpl in H'. injection H' as <- <-. by apply by_key_inv.
Qed.

(** Entries settle only under the author's own voucher: a range is
    processed only if the store holds the key unrevoked with a live
    certificate, its entries run on from the frontier of that key's writer, as
    read from a state of the tables during the delivery, without a gap, and the
    signature verifies with the key over the hash chain of their changesets
    from the writer's head and over every provenance. *)
Theorem courier_range_vouched init author entries signature session w outs w' :
  inv_ok init w ->
  courier_deliver author entries signature session w = (Ok (Entries outs), w') ->
  exists q record point n r db hashes head,
    key_record q None author = Ok (Some record) /\
    kr_revoked record = false /\ kr_certificate_live record = true /\
    spki_point (kr_public_key record) = Some point /\
    db_le (w_db w) db /\ db_le db (w_db w') /\
    db_writers db !! n = Some r /\ wr_device_key r = Some author /\
    chain_entries (sat_add u64_max (u64_or_zero (wr_frontier r)) 1)
      (head_or_genesis (wr_head r)) entries = Ok (hashes, head) /\
    verify point (range_vouch author (u64_or_zero (wr_frontier r))
      (head_or_genesis (wr_head r)) head entries) signature = true.
Proof.
  intros Hok. unfold courier_deliver. destruct (negb has_enrolment); [done|].
  intros (record & w1 & Hask & H)%bind_Ok.
  destruct (inv_ask_key_record init None author (fun _ => True) w Hok I) as (Hok1 & Hle1 & _).
  rewrite Hask in Hok1, Hle1. apply ask_key_record_Ok in Hask as [[q Hq] _].
  destruct record as [record|]; [|done]. destruct (_ || _) eqn:Er; [done|].
  apply orb_false_iff in Er as [Hrev Hlive]. apply negb_false_iff in Hlive.
  apply bind_Ok in H as (o & w2 & Hw & H). destruct o as [row|]; [|done].
  destruct (inv_courier_writer init (kr_user record) author (fun _ => True) w1 Hok1 I)
    as (Hok2 & Hle2 & _). rewrite Hw in Hok2, Hle2.
  apply courier_writer_Ok in Hw as (r & Hr & Hrow & Hk).
  destruct (chain_entries _ _ _) as [[hashes head]|] eqn:Ec; [|done].
  destruct (spki_point _) as [point|] eqn:Ep; [|done].
  destruct (verify _ _ _) eqn:Ev; [|done]. simpl in H.
  apply bind_Ok in H as (outs' & w3 & Hloop & H). injection H as <- <-.
  pose proof (inv_entries_loop init {| pr_session_id := session;
    pr_identity := Some (kr_user record); pr_capabilities := [] |} session (row_writer row)
    (head_or_genesis (row_head row)) (zip entries hashes) (fun _ => True) w2 Hok2 I)
    as (_ & Hle3 & _). rewrite Hloop in Hle3.
  rewrite Hrow in Ec, Ev.
  exists q, record, point, (row_writer row), r, (w_db w2), hashes, head.
  split_and!; try done. by etrans.
Qed.
End Courier.
