(* ===== verification/Throttle.v ===== *)
(** The request throttles of the sync server, [connetto-server/src/throttle.rs].

    Instants and durations are nanoseconds on the monotonic clock, as [Z].
    Every method holds the one [Mutex] of its counter for its whole body, so an
    operation is a function from the state under the lock to the answer and the
    next state, and a history of concurrent calls is the sequence in which the
    lock was taken.

    The source writes the keyed store twice, as [CounterState] over fixed
    windows and as [ByteCounterState] over token buckets; the text of the two is
    the same up to the window type, so the store is a section over that type,
    instantiated at both. *)

From Stdlib Require Import ZArith Lia.
From stdpp Require Import base list numbers option strings gmap fin_maps.
From S2P Require Import Prelude.

Open Scope Z_scope.

(** ** Durations *)

Definition SECOND : Z := 1000000000.
Definition MINUTE : Z := 60 * SECOND.
Definition FIVE_MINUTES : Z := 300 * SECOND.
Definition MIB : Z := 1024 * 1024.
(** [Duration::MAX]. *)
Definition DURATION_MAX : Z := u64_max * SECOND + 999999999.

(** [now.saturating_duration_since(earlier)]. *)
Definition since (now earlier : Z) : Z := sat_sub now earlier.

Lemma since_eq now earlier : earlier <= now -> since now earlier = now - earlier.
Proof. unfold since, sat_sub. lia. Qed.

(** ** Configuration *)

Record Limit := { limit_max : Z; limit_window : Z }.

Inductive Tier := Identified | Anonymous.

(** [Tier::of], on the identity the handshake resolved. *)
Definition tier_of {Id} (identity : option Id) : Tier :=
  match identity with Some _ => Identified | None => Anonymous end.

Record ReadLimits := { page_bytes : Z; row_ceiling : Z; read_timeout : Z }.

Record TierLimits := {
  subscriptions : Limit;
  connections : Limit;
  credential_refusals : Limit;
  read : ReadLimits;
}.

Definition identified_limits : TierLimits := {|
  subscriptions := {| limit_max := 120; limit_window := MINUTE |};
  connections := {| limit_max := 30; limit_window := MINUTE |};
  credential_refusals := {| limit_max := 30; limit_window := MINUTE |};
  read := {| page_bytes := 8 * MIB; row_ceiling := 32 * MIB; read_timeout := 30 * SECOND |};
|}.

Definition anonymous_limits : TierLimits := {|
  subscriptions := {| limit_max := 30; limit_window := MINUTE |};
  connections := {| limit_max := 15; limit_window := MINUTE |};
  credential_refusals := {| limit_max := 10; limit_window := MINUTE |};
  read := {| page_bytes := MIB; row_ceiling := 8 * MIB; read_timeout := 5 * SECOND |};
|}.

Record ThrottleConfig := {
  identified : TierLimits;
  anonymous : TierLimits;
  refresh_failures_per_session : Limit;
  refresh_failures_per_account : Limit;
  reexec_timeout : Z;
  max_tracked : Z;
  content_bytes_per_identity : Z;
  content_bytes_window : Z;
  mutation_bytes_per_identity : Z;
  mutation_bytes_window : Z;
}.

Definition default_config : ThrottleConfig := {|
  identified := identified_limits;
  anonymous := anonymous_limits;
  refresh_failures_per_session := {| limit_max := 10; limit_window := FIVE_MINUTES |};
  refresh_failures_per_account := {| limit_max := 30; limit_window := FIVE_MINUTES |};
  reexec_timeout := 5 * SECOND;
  max_tracked := 100000;
  content_bytes_per_identity := 1024 * MIB;
  content_bytes_window := MINUTE;
  mutation_bytes_per_identity := 64 * MIB;
  mutation_bytes_window := MINUTE;
|}.

(** [ThrottleConfig::tier]. *)
Definition tier (c : ThrottleConfig) (t : Tier) : TierLimits :=
  match t with Identified => identified c | Anonymous => anonymous c end.

(** The array's [max]; the array is not empty, so the fallback is not reached. *)
Definition handle_retain (c : ThrottleConfig) : Z :=
  foldl Z.max (limit_window (subscriptions (identified c)))
    [limit_window (connections (identified c));
     limit_window (credential_refusals (identified c));
     limit_window (subscriptions (anonymous c));
     limit_window (connections (anonymous c));
     limit_window (credential_refusals (anonymous c))].

Definition auth_retain (c : ThrottleConfig) : Z :=
  Z.max (limit_window (refresh_failures_per_session c))
        (limit_window (refresh_failures_per_account c)).

(** The retention of a surface covers every window its counters read, so a key
    swept from the map could not have changed a decision. *)
Lemma handle_retain_covers c t :
  limit_window (subscriptions (tier c t)) <= handle_retain c /\
  limit_window (connections (tier c t)) <= handle_retain c /\
  limit_window (credential_refusals (tier c t)) <= handle_retain c.
Proof. unfold handle_retain. destruct t; simpl; lia. Qed.

(** ** Fixed windows *)

Record Window := { started : Z; count : Z }.

Definition opened (now : Z) : Window := {| started := now; count := 1 |}.

(** [Window::take]: the wait when refused, and the window afterwards. *)
Definition Window_take (w : Window) (limit : Limit) (now : Z) : option Z * Window :=
  let elapsed := since now (started w) in
  if decide (limit_window limit <= elapsed) then (None, opened now)
  else if decide (limit_max limit <= count w) then
    (Some (sat_sub (limit_window limit) elapsed), w)
  else (None, {| started := started w; count := count w + 1 |}).

(** [Window::add]: the running total and the window afterwards. *)
Definition Window_add (w : Window) (window : option Z) (now : Z) : Z * Window :=
  match window with
  | Some d =>
      if decide (d <= since now (started w)) then (1, opened now)
      else let n := sat_add u32_max (count w) 1 in (n, {| started := started w; count := n |})
  | None => let n := sat_add u32_max (count w) 1 in (n, {| started := started w; count := n |})
  end.

(** ** Token buckets *)

Record BucketWindow := { last_update : Z; available : Z }.

Definition full (limit_bytes now : Z) : BucketWindow :=
  {| last_update := now; available := limit_bytes |}.

(** What [elapsed] nanoseconds put back into a bucket. *)
Definition refill (limit_bytes window elapsed : Z) : Z :=
  default limit_bytes
    (try_into u64_max
       (Z.min (sat_mul u128_max elapsed limit_bytes / Z.max window 1) limit_bytes)).

(** What a bucket holds at [now], before a request is charged. *)
Definition refilled (b : BucketWindow) (limit_bytes window now : Z) : Z :=
  Z.min (sat_add u64_max (available b) (refill limit_bytes window (since now (last_update b))))
        limit_bytes.

(** The wait a refusal of [short] missing bytes carries. *)
Definition bucket_wait (limit_bytes window short : Z) : Z :=
  let nanos :=
    if decide (limit_bytes = 0) then u128_max
    else sat_mul u128_max short window / limit_bytes in
  Z.min (default window (try_into u64_max nanos)) window.

(** [BucketWindow::take]. *)
Definition Bucket_take (b : BucketWindow) (limit_bytes window declared now : Z) :
    Result unit Z * BucketWindow :=
  let available' := refilled b limit_bytes window now in
  if decide (available' < declared) then
    (Err (bucket_wait limit_bytes window (declared - available')),
     {| last_update := now; available := available' |})
  else (Ok tt, {| last_update := now; available := available' - declared |}).

(** ** The keyed store *)

Record Tracked (W : Type) := { window : W; touched : Z }.
Arguments window {W} _.
Arguments touched {W} _.
Arguments Build_Tracked {W} _ _.

Record CounterState (K : Type) `{Countable K} (W : Type) := {
  windows : gmap K (Tracked W);
  order : gmap Z K;
  next_touch : Z;
  last_sweep : Z;
}.
Arguments windows {K _ _ W} _.
Arguments order {K _ _ W} _.
Arguments next_touch {K _ _ W} _.
Arguments last_sweep {K _ _ W} _.
Arguments Build_CounterState {K _ _ W} _ _ _ _.

(** The least key of a [BTreeMap], the one [pop_first] removes. *)
Definition least (l : list Z) : option Z :=
  match l with [] => None | x :: l' => Some (foldl Z.min x l') end.

Definition first_key {A} (m : gmap Z A) : option (Z * A) :=
  t ← least (map_to_list m).*1; a ← m !! t; Some (t, a).

Section Store.
Context {K : Type} `{CK : Countable K} {W : Type}.
(** When a window last mattered: [started] for a fixed window, [last_update]
    for a bucket. *)
Context (stamp : W -> Z).

Definition new_state (now : Z) : CounterState K W :=
  {| windows := ∅; order := ∅; next_touch := 0; last_sweep := now |}.

Definition expired (retain now : Z) (st : CounterState K W) : list (K * Tracked W) :=
  map_to_list (filter (fun kt => retain <= since now (stamp (window kt.2))) (windows st)).

Definition drop_key (st : CounterState K W) (key : K) (t : Z) : CounterState K W :=
  {| windows := delete key (windows st); order := delete t (order st);
     next_touch := next_touch st; last_sweep := last_sweep st |}.

Definition sweep (retain now : Z) (st : CounterState K W) : CounterState K W :=
  let st' := foldl (fun s kt => drop_key s kt.1 (touched kt.2)) st (expired retain now st) in
  {| windows := windows st'; order := order st';
     next_touch := next_touch st'; last_sweep := now |}.

(** The sweep at the head of every operation. *)
Definition maybe_sweep (retain now : Z) (st : CounterState K W) : CounterState K W :=
  if decide (retain <= since now (last_sweep st)) then sweep retain now st else st.

Definition touch (key : K) (tr : Tracked W) (st : CounterState K W) : CounterState K W :=
  let t := next_touch st in
  {| windows := <[key := {| window := window tr; touched := t |}]> (windows st);
     order := <[t := key]> (delete (touched tr) (order st));
     next_touch := wrap_u64 (t + 1);
     last_sweep := last_sweep st |}.

(** The eviction loop of [admit]; each turn removes one entry of [order], so
    its size is enough fuel. *)
Fixpoint evict (fuel : nat) (cap : Z) (st : CounterState K W) : CounterState K W :=
  match fuel with
  | O => st
  | S fuel' =>
      if decide (Z.max cap 1 <= Z.of_nat (size (windows st))) then
        match first_key (order st) with
        | None => st
        | Some (t, evicted) => evict fuel' cap (drop_key st evicted t)
        end
      else st
  end.

Definition admit_key (key : K) (cap : Z) (w : W) (st : CounterState K W) : CounterState K W :=
  touch key {| window := w; touched := 0 |} (evict (size (order st)) cap st).

(** [Counters::forget]. *)
Definition forget (key : K) (st : CounterState K W) : CounterState K W :=
  match windows st !! key with
  | Some tr => drop_key st key (touched tr)
  | None => st
  end.

(** The invariant of the store. Every entry of [order] is the place of a
    tracked key, and every tracked key has its place in [order], except a key
    still at touch 0: [admit] touches its key with the placeholder
    [touched: 0], which takes the entry of the first key ever admitted out of
    [order] while that key stays tracked. *)
Record store_ok (cap : Z) (st : CounterState K W) : Prop := {
  ok_placed : forall t k, order st !! t = Some k ->
    exists tr, windows st !! k = Some tr /\ touched tr = t;
  ok_tracked : forall k tr, windows st !! k = Some tr ->
    order st !! touched tr = Some k \/ (touched tr = 0 /\ 1 < cap);
  ok_range : forall k tr, windows st !! k = Some tr -> 0 <= touched tr < next_touch st;
  ok_inj : forall k1 k2 tr1 tr2, windows st !! k1 = Some tr1 -> windows st !! k2 = Some tr2 ->
    touched tr1 = touched tr2 -> k1 = k2;
  ok_next : 0 <= next_touch st;
  ok_size : Z.of_nat (size (windows st)) <= Z.max cap 1;
}.
End Store.

(** ** The counters *)

Section Counters.
Context {K : Type} `{CK : Countable K}.
Implicit Types st : CounterState K Window.

Definition take (key : K) (limit : Limit) (retain cap now : Z) st :
    option Z * CounterState K Window :=
  let st := maybe_sweep started retain now st in
  match windows st !! key with
  | Some tr =>
      let '(wait, w) := Window_take (window tr) limit now in
      (wait, touch key {| window := w; touched := touched tr |} st)
  | None => (None, admit_key key cap (opened now) st)
  end.

Definition peek (key : K) (limit : Limit) (now : Z) st : option Z :=
  tr ← windows st !! key;
  let elapsed := since now (started (window tr)) in
  if decide (elapsed < limit_window limit /\ limit_max limit <= count (window tr)) then
    Some (sat_sub (limit_window limit) elapsed)
  else None.

Definition tally (key : K) (over : option Z) (retain cap now : Z) st :
    Z * CounterState K Window :=
  let st := maybe_sweep started retain now st in
  match windows st !! key with
  | Some tr =>
      let '(n, w) := Window_add (window tr) over now in
      (n, touch key {| window := w; touched := touched tr |} st)
  | None => (1, admit_key key cap (opened now) st)
  end.

Record BytePolicy := { limit_bytes : Z; byte_window : Z; retain : Z; cap : Z }.

(** [ByteCounters::allow]: a refused newcomer is not tracked. *)
Definition allow (key : K) (policy : BytePolicy) (declared now : Z)
    (st : CounterState K BucketWindow) : Result unit Z * CounterState K BucketWindow :=
  let st := maybe_sweep last_update (retain policy) now st in
  match windows st !! key with
  | Some tr =>
      let '(ok, b) := Bucket_take (window tr) (limit_bytes policy) (byte_window policy) declared now in
      (ok, touch key {| window := b; touched := touched tr |} st)
  | None =>
      let '(ok, b) := Bucket_take (full (limit_bytes policy) now)
                        (limit_bytes policy) (byte_window policy) declared now in
      (ok, if is_ok ok then admit_key key (cap policy) b st else st)
  end.
End Counters.

(** ** The three throttles built from them *)

Section Throttles.
Context {SessionId : Type} `{CS : Countable SessionId}.

Record HandleThrottle := {
  ht_config : ThrottleConfig;
  ht_retain : Z;
  ht_subscriptions : CounterState SessionId Window;
  ht_connections : CounterState SessionId Window;
  ht_credential_refusals : CounterState SessionId Window;
}.

Definition new_handle_throttle (c : ThrottleConfig) (now : Z) : HandleThrottle := {|
  ht_config := c; ht_retain := handle_retain c;
  ht_subscriptions := new_state now; ht_connections := new_state now;
  ht_credential_refusals := new_state now |}.

Definition subscription (handle : SessionId) (t : Tier) (now : Z) (h : HandleThrottle) :
    option Z * HandleThrottle :=
  let '(wait, s) := take handle (subscriptions (tier (ht_config h) t)) (ht_retain h)
                      (max_tracked (ht_config h)) now (ht_subscriptions h) in
  (wait, {| ht_config := ht_config h; ht_retain := ht_retain h; ht_subscriptions := s;
            ht_connections := ht_connections h;
            ht_credential_refusals := ht_credential_refusals h |}).

Definition connection (handle : SessionId) (t : Tier) (now : Z) (h : HandleThrottle) :
    option Z * HandleThrottle :=
  let '(wait, s) := take handle (connections (tier (ht_config h) t)) (ht_retain h)
                      (max_tracked (ht_config h)) now (ht_connections h) in
  (wait, {| ht_config := ht_config h; ht_retain := ht_retain h;
            ht_subscriptions := ht_subscriptions h; ht_connections := s;
            ht_credential_refusals := ht_credential_refusals h |}).

Definition credential_refusal (handle : SessionId) (t : Tier) (now : Z) (h : HandleThrottle) :
    option Z * HandleThrottle :=
  let '(wait, s) := take handle (credential_refusals (tier (ht_config h) t)) (ht_retain h)
                      (max_tracked (ht_config h)) now (ht_credential_refusals h) in
  (wait, {| ht_config := ht_config h; ht_retain := ht_retain h;
            ht_subscriptions := ht_subscriptions h; ht_connections := ht_connections h;
            ht_credential_refusals := s |}).

(** The longer of two waits. *)
Definition longer_wait (a b : option Z) : option Z :=
  match a, b with
  | Some x, Some y => Some (Z.max x y)
  | wait, None => wait
  | None, wait => wait
  end.

Record AuthThrottle := {
  at_config : ThrottleConfig;
  at_retain : Z;
  per_session : CounterState SessionId Window;
  per_account : CounterState string Window;
}.

Definition new_auth_throttle (c : ThrottleConfig) (now : Z) : AuthThrottle := {|
  at_config := c; at_retain := auth_retain c;
  per_session := new_state now; per_account := new_state now |}.

Definition refresh_blocked (session : SessionId) (account : option string) (now : Z)
    (a : AuthThrottle) : option Z :=
  let by_session := peek session (refresh_failures_per_session (at_config a)) now (per_session a) in
  let by_account :=
    acct ← account;
    peek acct (refresh_failures_per_account (at_config a)) now (per_account a) in
  longer_wait by_session by_account.

Definition refresh_failed (session : SessionId) (account : option string) (now : Z)
    (a : AuthThrottle) : option Z * AuthThrottle :=
  let c := at_config a in
  let '(by_session, ps) := take session (refresh_failures_per_session c) (at_retain a)
                             (max_tracked c) now (per_session a) in
  let '(by_account, pa) :=
    match account with
    | Some acct => take acct (refresh_failures_per_account c) (at_retain a)
                     (max_tracked c) now (per_account a)
    | None => (None, per_account a)
    end in
  (longer_wait by_session by_account,
   {| at_config := c; at_retain := at_retain a; per_session := ps; per_account := pa |}).
End Throttles.
Arguments HandleThrottle SessionId {_ _}.
Arguments AuthThrottle SessionId {_ _}.

Record ByteThrottle := {
  bt_config : ThrottleConfig;
  per_identity : CounterState string BucketWindow;
  mutations : CounterState string BucketWindow;
}.

Definition new_byte_throttle (c : ThrottleConfig) (now : Z) : ByteThrottle := {|
  bt_config := c; per_identity := new_state now; mutations := new_state now |}.

Definition content_policy (c : ThrottleConfig) : BytePolicy := {|
  limit_bytes := content_bytes_per_identity c; byte_window := content_bytes_window c;
  retain := content_bytes_window c; cap := max_tracked c |}.

Definition mutation_policy (c : ThrottleConfig) : BytePolicy := {|
  limit_bytes := mutation_bytes_per_identity c; byte_window := mutation_bytes_window c;
  retain := mutation_bytes_window c; cap := max_tracked c |}.

Definition allow_content_bytes (identity : string) (declared_len now : Z) (b : ByteThrottle) :
    bool * ByteThrottle :=
  if decide (content_bytes_per_identity (bt_config b) = 0) then (true, b)
  else
    let '(ok, s) := allow identity (content_policy (bt_config b)) declared_len now (per_identity b) in
    (is_ok ok, {| bt_config := bt_config b; per_identity := s; mutations := mutations b |}).

Definition mutation_limit (b : ByteThrottle) : option Z :=
  if decide (mutation_bytes_per_identity (bt_config b) = 0) then None
  else Some (mutation_bytes_per_identity (bt_config b)).

Definition allow_mutation_bytes (identity : string) (patch_len now : Z) (b : ByteThrottle) :
    Result unit Z * ByteThrottle :=
  if decide (mutation_bytes_per_identity (bt_config b) = 0) then (Ok tt, b)
  else
    let '(ok, s) := allow identity (mutation_policy (bt_config b)) patch_len now (mutations b) in
    (ok, {| bt_config := bt_config b; per_identity := per_identity b; mutations := s |}).
