(* ===== verification/Meters.v ===== *)
(** The keyed store of the throttles and the meters it serves.

    [store_ok] is kept by every operation of the store. A [Meter] is what a
    window type offers to the store, and [MeterLaws] the law under which the
    store's sweeps cannot be observed; fixed windows, tallies and token buckets
    are its instances, and [metered_refines] is the refinement every one of
    them inherits: with room for its keys, the store answers as a map that
    never forgets. *)

From Stdlib Require Import ZArith Lia.
From stdpp Require Import base list numbers option strings gmap fin_maps fin_map_dom.
From S2P Require Import Prelude Throttle.

Open Scope Z_scope.

(** ** The least key of a map *)

Lemma foldl_min_spec l x :
  (foldl Z.min x l = x \/ foldl Z.min x l ∈ l) /\
  foldl Z.min x l <= x /\ Forall (Z.le (foldl Z.min x l)) l.
Proof.
  revert x. induction l as [|y l IH]; intros x; simpl; [repeat split; auto; lia|].
  destruct (IH (Z.min x y)) as (Hin & Hle & Hall). split_and!.
  - destruct Hin as [->|?]; [|right; by right].
    destruct (Z.min_spec x y) as [[? ->]|[? ->]]; [by left|right; left].
  - lia.
  - constructor; [lia|done].
Qed.

Lemma least_Some l t : least l = Some t -> t ∈ l /\ Forall (Z.le t) l.
Proof.
  destruct l as [|x l]; simpl; [done|]. intros [= <-].
  destruct (foldl_min_spec l x) as ([->|?] & ? & ?).
  - split; [by left|constructor; [lia|]]. by destruct (foldl_min_spec l x) as (_ & _ & ?).
  - split; [by right|by constructor].
Qed.

Lemma first_key_Some {A} (m : gmap Z A) t a :
  first_key m = Some (t, a) ->
  m !! t = Some a /\ forall t' a', m !! t' = Some a' -> t <= t'.
Proof.
  unfold first_key. intros (t0 & Hl & (a0 & Hm & [= -> ->])%bind_Some)%bind_Some.
  split; [done|]. intros t' a' Ht'. apply least_Some in Hl as [_ Hall].
  rewrite Forall_forall in Hall. apply Hall, list_elem_of_fmap.
  exists (t', a'). by rewrite elem_of_map_to_list.
Qed.

Lemma first_key_None {A} (m : gmap Z A) : first_key m = None -> m = ∅.
Proof.
  unfold first_key. destruct (least (map_to_list m).*1) as [t|] eqn:E; simpl.
  - apply least_Some in E as [([? a] & -> & Ha)%list_elem_of_fmap _].
    apply elem_of_map_to_list in Ha. simpl. by rewrite Ha.
  - intros _. destruct (map_to_list m) as [|? l] eqn:El; [|done].
    by apply map_to_list_empty_iff.
Qed.

(** ** The store *)

Section Store.
Context {K : Type} `{CK : Countable K} {W : Type}.
Context (stamp : W -> Z).
Implicit Types st : CounterState K W.

Lemma drop_ok cap st k tr :
  store_ok cap st -> windows st !! k = Some tr -> store_ok cap (drop_key st k (touched tr)).
Proof.
  intros [Hp Ht Hr Hi Hn Hs] Hk. constructor; simpl; [..|done|].
  - intros t k' (Hne & Ho)%lookup_delete_Some.
    destruct (Hp _ _ Ho) as (tr' & Hk' & <-). exists tr'. split; [|done].
    rewrite lookup_delete_ne; [done|]. intros ->. congruence.
  - intros k' tr' (Hne & Hk')%lookup_delete_Some.
    destruct (Ht _ _ Hk') as [?|?]; [left|by right].
    rewrite lookup_delete_ne; [done|]. intros E. by apply Hne, (Hi _ _ _ _ Hk Hk').
  - intros k' tr' (_ & Hk')%lookup_delete_Some. eauto.
  - intros k1 k2 tr1 tr2 (_ & H1)%lookup_delete_Some (_ & H2)%lookup_delete_Some. eauto.
  - rewrite map_size_delete, Hk; simpl. lia.
Qed.

Definition drop_all (l : list (K * Tracked W)) st : CounterState K W :=
  foldl (fun s kt => drop_key s kt.1 (touched kt.2)) st l.

Lemma drop_all_lookup l st k :
  windows (drop_all l st) !! k = if decide (k ∈ l.*1) then None else windows st !! k.
Proof.
  revert st. induction l as [|[k' tr] l IH]; intros st; simpl; [done|].
  unfold drop_all in *. simpl. rewrite IH. simpl.
  destruct (decide (k ∈ l.*1)) as [|Hl]; [rewrite decide_True; [done|by right]|].
  destruct (decide (k = k')) as [->|].
  - rewrite lookup_delete_eq, decide_True; [done|by left].
  - rewrite lookup_delete_ne by done. rewrite decide_False; [done|].
    by intros [?|?]%elem_of_cons.
Qed.

Lemma drop_all_ok cap l st :
  NoDup l.*1 -> (forall kt, kt ∈ l -> windows st !! kt.1 = Some kt.2) ->
  store_ok cap st -> store_ok cap (drop_all l st).
Proof.
  revert st. induction l as [|[k tr] l IH]; intros st Hnd Hin Hok; [done|].
  simpl in Hnd. apply NoDup_cons in Hnd as [Hk Hnd]. apply IH; simpl; [done| |].
  - intros kt Hkt. rewrite lookup_delete_ne; [apply Hin; by right|].
    intros ->. apply Hk, list_elem_of_fmap. eauto.
  - apply drop_ok; [done|]. apply (Hin (k, tr)). by left.
Qed.

Lemma drop_all_other l st :
  next_touch (drop_all l st) = next_touch st /\ last_sweep (drop_all l st) = last_sweep st.
Proof. revert st. induction l as [|kt l IH]; intros st; [done|]. apply (IH (drop_key st _ _)). Qed.

(** A sweep drops exactly the keys whose stamp is [retain] old. *)
Lemma sweep_lookup retain now st k :
  windows (sweep stamp retain now st) !! k =
  match windows st !! k with
  | Some tr => if decide (retain <= since now (stamp (window tr))) then None else Some tr
  | None => None
  end.
Proof.
  unfold sweep. cbn [windows]. etrans; [apply drop_all_lookup|].
  destruct (decide _) as [Hin|Hout].
  - apply list_elem_of_fmap in Hin as ([? tr] & -> & Hin).
    apply elem_of_map_to_list, map_lookup_filter_Some in Hin as [Hk Hold]. simpl in *.
    by rewrite Hk, decide_True.
  - destruct (windows st !! k) as [tr|] eqn:E; [|done]. rewrite decide_False; [done|].
    intros Hold. apply Hout, list_elem_of_fmap. exists (k, tr). split; [done|].
    by apply elem_of_map_to_list, map_lookup_filter_Some.
Qed.

Lemma store_ok_resweep cap st s :
  store_ok cap st ->
  store_ok cap {| windows := windows st; order := order st;
                  next_touch := next_touch st; last_sweep := s |}.
Proof. intros []. by constructor. Qed.

Lemma maybe_sweep_ok cap retain now st :
  store_ok cap st -> store_ok cap (maybe_sweep stamp retain now st).
Proof.
  intros Hok. unfold maybe_sweep. case_decide; [|done].
  apply (store_ok_resweep cap (drop_all _ st)), drop_all_ok; [| |done].
  - apply NoDup_fst_map_to_list.
  - intros [k tr] [Hk _]%elem_of_map_to_list%map_lookup_filter_Some. done.
Qed.

Lemma maybe_sweep_next retain now st :
  next_touch (maybe_sweep stamp retain now st) = next_touch st.
Proof. unfold maybe_sweep. case_decide; [|done]. apply drop_all_other. Qed.

Lemma maybe_sweep_lookup retain now st k :
  windows (maybe_sweep stamp retain now st) !! k = windows st !! k \/
  (windows (maybe_sweep stamp retain now st) !! k = None /\
   exists tr, windows st !! k = Some tr /\ retain <= since now (stamp (window tr))).
Proof.
  unfold maybe_sweep. case_decide; [|by left]. rewrite sweep_lookup.
  destruct (windows st !! k) as [tr|]; [|by left].
  case_decide; [right; eauto|by left].
Qed.

Lemma touch_next key tr st :
  0 <= next_touch st < u64_max -> next_touch (touch key tr st) = next_touch st + 1.
Proof. intros. simpl. apply wrap_u64_small. unfold in_u64. lia. Qed.

(** Touching a key, tracked at its place or new with the placeholder place. *)
Lemma touch_ok cap key tr st :
  store_ok cap st -> next_touch st < u64_max ->
  (exists tr0, windows st !! key = Some tr0 /\ touched tr0 = touched tr) \/
  (windows st !! key = None /\ touched tr = 0 /\
   Z.of_nat (size (windows st)) < Z.max cap 1) ->
  store_ok cap (touch key tr st).
Proof.
  intros Hok Hlt Hcase. pose proof Hok as [Hp Ht Hr Hi Hn Hs].
  assert (Hfresh : forall k tr', windows st !! k = Some tr' -> touched tr' <> next_touch st)
    by (intros ?? ?%Hr; lia).
  assert (Hother : forall k tr', windows st !! k = Some tr' -> k <> key ->
    touched tr' = touched tr -> touched tr' = 0 /\ 1 < cap).
  { intros k tr' Hk Hne E. destruct Hcase as [(tr0 & H0 & E0)|(H0 & E0 & Hsz)].
    - exfalso. apply Hne, (Hi _ _ _ _ Hk H0). congruence.
    - split; [congruence|]. assert (size (windows st) <> 0%nat); [|lia].
      intros Hz%map_size_empty_inv. rewrite Hz in Hk. done. }
  constructor; [..|rewrite touch_next; lia|]; unfold touch; cbn [windows order next_touch].
  - intros t k Ht'. apply lookup_insert_Some in Ht' as [[<- <-]|[Hne Ho]].
    { exists {| window := window tr; touched := next_touch st |}. by rewrite lookup_insert_eq. }
    apply lookup_delete_Some in Ho as [Hne' Ho].
    destruct (Hp _ _ Ho) as (tr' & Hk & <-). exists tr'. split; [|done].
    rewrite lookup_insert_ne; [done|]. intros <-.
    destruct Hcase as [(tr0 & H0 & E0)|(H0 & _)]; congruence.
  - intros k tr' Hk. apply lookup_insert_Some in Hk as [[<- <-]|[Hne Hk]]; simpl.
    { left. by rewrite lookup_insert_eq. }
    destruct (decide (touched tr' = touched tr)) as [E|E]; [right; by eapply Hother|].
    destruct (Ht _ _ Hk) as [Ho|?]; [left|by right].
    rewrite lookup_insert_ne by (intros Heq; by apply (Hfresh _ _ Hk)).
    by rewrite lookup_delete_ne.
  - fold (touch key tr st). intros k tr' Hk. change (wrap_u64 (next_touch st + 1)) with (next_touch (touch key tr st)).
    rewrite touch_next by lia.
    apply lookup_insert_Some in Hk as [[<- <-]|[Hne Hk]]; simpl; [lia|].
    specialize (Hr _ _ Hk). lia.
  - intros k1 k2 tr1 tr2 H1 H2 E.
    apply lookup_insert_Some in H1 as [[<- <-]|[Hne1 H1]];
      apply lookup_insert_Some in H2 as [[<- <-]|[Hne2 H2]]; simpl in E; [done|..|eauto].
    + exfalso. by apply (Hfresh _ _ H2).
    + exfalso. by apply (Hfresh _ _ H1).
  - rewrite map_size_insert. destruct Hcase as [(tr0 & -> & _)|(-> & _ & ?)]; simpl; lia.
Qed.

Lemma drop_size k tr st :
  windows st !! k = Some tr ->
  Z.of_nat (size (windows (drop_key st k (touched tr)))) = Z.of_nat (size (windows st)) - 1.
Proof.
  intros Hk. simpl. rewrite map_size_delete, Hk. simpl.
  assert (size (windows st) <> 0%nat); [|lia].
  intros Hz%map_size_empty_inv. by rewrite Hz in Hk.
Qed.

(** With [order] empty, at most the one key at touch 0 is tracked. *)
Lemma unplaced_size cap st :
  store_ok cap st -> order st = ∅ -> Z.of_nat (size (windows st)) < Z.max cap 1.
Proof.
  intros Hok Ho. destruct (map_choose_or_empty (windows st)) as [(k & tr & Hk)|He].
  2:{ rewrite He, map_size_empty. lia. }
  assert (Hz : forall k' tr', windows st !! k' = Some tr' -> touched tr' = 0 /\ 1 < cap).
  { intros k' tr' Hk'. destruct (ok_tracked _ _ Hok _ _ Hk') as [H|H]; [|done].
    by rewrite Ho in H. }
  assert (E : windows st = {[k := tr]}).
  { apply map_eq. intros k'. destruct (decide (k = k')) as [<-|Hne].
    - by rewrite lookup_singleton_eq.
    - rewrite lookup_singleton_ne by done. destruct (windows st !! k') as [tr'|] eqn:Hk'; [|done].
      exfalso. apply Hne, (ok_inj _ _ Hok _ _ _ _ Hk Hk').
      destruct (Hz _ _ Hk), (Hz _ _ Hk'). congruence. }
  destruct (Hz _ _ Hk). rewrite E, map_size_singleton. lia.
Qed.

Lemma evict_spec cap fuel st :
  store_ok cap st -> (size (order st) <= fuel)%nat ->
  store_ok cap (evict fuel cap st) /\
  Z.of_nat (size (windows (evict fuel cap st))) < Z.max cap 1 /\
  windows (evict fuel cap st) ⊆ windows st /\
  next_touch (evict fuel cap st) = next_touch st.
Proof.
  revert st. induction fuel as [|fuel IH]; intros st Hok Hf; simpl.
  - split_and!; [done| |done..]. apply unplaced_size; [done|]. apply map_size_empty_inv. lia.
  - case_decide as Hsz; [|split_and!; [done|lia|done..]].
    destruct (first_key (order st)) as [[t k]|] eqn:Ef.
    2:{ split_and!; [done| |done..]. by apply unplaced_size, first_key_None. }
    apply first_key_Some in Ef as [Ho _]. destruct (ok_placed _ _ Hok _ _ Ho) as (tr & Hk & <-).
    destruct (IH (drop_key st k (touched tr))) as (H1 & H2 & H3 & H4).
    + by apply drop_ok.
    + simpl. rewrite map_size_delete, Ho. simpl. lia.
    + split_and!; [done|done| |done]. etrans; [exact H3|]. apply delete_subseteq.
Qed.

Lemma evict_sub cap fuel st : windows (evict fuel cap st) ⊆ windows st.
Proof.
  revert st. induction fuel as [|fuel IH]; intros st; simpl; [done|].
  case_decide; [|done]. destruct (first_key (order st)) as [[t k]|]; [|done].
  etrans; [apply IH|apply delete_subseteq].
Qed.

Lemma evict_idle cap fuel st :
  Z.of_nat (size (windows st)) < Z.max cap 1 -> evict fuel cap st = st.
Proof. intros. destruct fuel; simpl; [done|]. rewrite decide_False by lia. done. Qed.

Lemma admit_ok cap key w st :
  store_ok cap st -> next_touch st < u64_max -> windows st !! key = None ->
  store_ok cap (admit_key key cap w st) /\
  next_touch (admit_key key cap w st) = next_touch st + 1.
Proof.
  intros Hok Hlt Hk. unfold admit_key.
  destruct (evict_spec cap (size (order st)) st Hok ltac:(done)) as (H1 & H2 & H3 & H4).
  split.
  - apply touch_ok; [done|by rewrite H4|]. right. split_and!; [|done|done].
    destruct (windows (evict _ _ _) !! key) eqn:E; [|done].
    by rewrite (lookup_weaken _ _ _ _ E H3) in Hk.
  - rewrite touch_next; rewrite H4; [done|]. pose proof (ok_next _ _ Hok). lia.
Qed.

Lemma retouch_ok cap key tr w st :
  store_ok cap st -> next_touch st < u64_max -> windows st !! key = Some tr ->
  store_ok cap (touch key {| window := w; touched := touched tr |} st) /\
  next_touch (touch key {| window := w; touched := touched tr |} st) = next_touch st + 1.
Proof.
  intros Hok Hlt Hk. split.
  - apply touch_ok; [done..|left; eauto].
  - apply touch_next. pose proof (ok_next _ _ Hok). lia.
Qed.

Lemma forget_ok cap key st : store_ok cap st -> store_ok cap (forget key st).
Proof.
  intros Hok. unfold forget. destruct (windows st !! key) eqn:E; [|done]. by apply drop_ok.
Qed.

Lemma new_state_ok cap now : store_ok cap (new_state (K:=K) (W:=W) now).
Proof. constructor; simpl; [done..|lia|]. rewrite map_size_empty. lia. Qed.
End Store.

(** ** Meters: what a window promises to the store *)

(** A window type as the counters use it: the time it was last relevant, one
    event against a window already tracked, and the first event of a key, which
    may leave the key untracked. *)
Class Meter (A R W : Type) := {
  m_stamp : W -> Z;
  m_some : W -> A -> Z -> R * W;
  m_new : A -> Z -> R * option W;
}.

(** One event through the store. *)
Definition metered {K} `{Countable K} {A R W} `{Meter A R W} (retain cap : Z)
    (key : K) (a : A) (now : Z) (st : CounterState K W) : R * CounterState K W :=
  let st := maybe_sweep m_stamp retain now st in
  match windows st !! key with
  | Some tr =>
      let '(r, w) := m_some (window tr) a now in
      (r, touch key {| window := w; touched := touched tr |} st)
  | None =>
      let '(r, ow) := m_new a now in
      (r, match ow with Some w => admit_key key cap w st | None => st end)
  end.

(** The law under which dropping an old window cannot be observed: a window
    [retain] old is renewed, a renewed window stays renewed, and an event
    against a renewed window is answered as the first event of a key is. *)
Class MeterLaws {A R W} (M : Meter A R W) (retain : Z) := {
  m_ok : A -> Prop;
  m_inv : W -> Prop;
  renewed : W -> Z -> Prop;
  m_some_inv : forall w a now, m_ok a -> m_inv w -> m_inv (m_some w a now).2;
  m_new_inv : forall a now w, m_ok a -> (m_new a now).2 = Some w -> m_inv w;
  renewed_old : forall w now, m_inv w -> retain <= since now (m_stamp w) -> renewed w now;
  renewed_later : forall w now now', renewed w now -> now <= now' -> renewed w now';
  renewed_answer : forall w a now, m_ok a -> m_inv w -> renewed w now ->
    (m_some w a now).1 = (m_new a now).1 /\
    match (m_new a now).2 with
    | Some w' => (m_some w a now).2 = w'
    | None => renewed (m_some w a now).2 now
    end;
}.

#[export] Instance window_meter : Meter Limit (option Z) Window := {|
  m_stamp := started;
  m_some := Window_take;
  m_new := fun _ now => (None, Some (opened now)) |}.

#[export] Instance tally_meter : Meter (option Z) Z Window := {|
  m_stamp := started;
  m_some := Window_add;
  m_new := fun _ now => (1, Some (opened now)) |}.

Definition bucket_meter (policy : BytePolicy) : Meter Z (Result unit Z) BucketWindow := {|
  m_stamp := last_update;
  m_some := fun b declared now =>
    Bucket_take b (limit_bytes policy) (byte_window policy) declared now;
  m_new := fun declared now =>
    let '(ok, b) := Bucket_take (full (limit_bytes policy) now)
                      (limit_bytes policy) (byte_window policy) declared now in
    (ok, if is_ok ok then Some b else None) |}.

Lemma take_metered {K} `{Countable K} (key : K) limit retain cap now st :
  take key limit retain cap now st = metered retain cap key limit now st.
Proof. done. Qed.

Lemma tally_metered {K} `{Countable K} (key : K) over retain cap now st :
  tally key over retain cap now st = metered retain cap key over now st.
Proof. done. Qed.

Lemma allow_metered {K} `{Countable K} (key : K) policy declared now st :
  allow key policy declared now st =
  metered (H0 := bucket_meter policy) (retain policy) (cap policy) key declared now st.
Proof.
  unfold allow, metered. simpl.
  destruct (windows _ !! key); [done|]. by destruct (Bucket_take _ _ _ _ _) as [[] b].
Qed.

(** A history of timed events through an operation: the answers in order, and
    the state left behind. *)
Fixpoint run_events {K A S R : Type} (op : K -> A -> Z -> S -> R * S) (s : S)
    (evs : list (K * A * Z)) : list R * S :=
  match evs with
  | [] => ([], s)
  | (key, a, now) :: evs' =>
      let '(r, s') := op key a now s in
      let '(rs, s'') := run_events op s' evs' in (r :: rs, s'')
  end.

Section Metered.
Context {K : Type} `{CK : Countable K} {A R W : Type} {M : Meter A R W}.
Context (retain cap : Z).
Implicit Types st : CounterState K W.

Lemma metered_ok key a now st :
  store_ok cap st -> next_touch st < u64_max ->
  store_ok cap (metered retain cap key a now st).2 /\
  next_touch (metered retain cap key a now st).2 <= next_touch st + 1.
Proof.
  intros Hok Hlt. unfold metered. cbn zeta.
  apply (maybe_sweep_ok m_stamp cap retain now) in Hok.
  pose proof (maybe_sweep_next m_stamp retain now st) as En.
  set (st' := maybe_sweep m_stamp retain now st) in *. clearbody st'. rewrite <- En in *.
  destruct (windows st' !! key) as [tr|] eqn:Ek.
  - destruct (m_some (window tr) a now) as [r w]. cbn [snd].
    destruct (retouch_ok cap key tr w st' Hok Hlt Ek) as [? ->]. split; [done|lia].
  - destruct (m_new a now) as [r [w|]]; cbn [snd].
    + destruct (admit_ok cap key w st' Hok Hlt Ek) as [? ->]. split; [done|lia].
    + split; [done|lia].
Qed.

(** The reference: every key keeps its own window for ever, in a map with no
    bound, no sweep and no eviction. *)
Definition reference (key : K) (a : A) (now : Z) (m : gmap K W) : R * gmap K W :=
  match m !! key with
  | Some w => let '(r, w') := m_some w a now in (r, <[key := w']> m)
  | None =>
      let '(r, ow) := m_new a now in
      (r, match ow with Some w => <[key := w]> m | None => m end)
  end.

(** Events in the order of their times, none before [t0]. *)
Fixpoint in_order (t0 : Z) (evs : list (K * A * Z)) : Prop :=
  match evs with
  | [] => True
  | (_, _, now) :: evs' => t0 <= now /\ in_order now evs'
  end.

Lemma in_order_weaken t0 t1 evs : in_order t1 evs -> t0 <= t1 -> in_order t0 evs.
Proof. destruct evs as [|[[??]?] evs]; simpl; [done|]. intros [??] ?. split; [lia|done]. Qed.

Context {ML : MeterLaws M retain}.

(** The store at [now] stands for the reference map. *)
Definition stands_for (now : Z) st (m : gmap K W) : Prop :=
  forall k,
    match m !! k with
    | Some w => m_inv w /\
        ((exists tr, windows st !! k = Some tr /\ window tr = w) \/
         (windows st !! k = None /\ renewed w now))
    | None => windows st !! k = None
    end.

Lemma stands_for_sweep now now' st m :
  stands_for now st m -> now <= now' ->
  stands_for now' (maybe_sweep m_stamp retain now' st) m.
Proof.
  intros Hs Hle k. specialize (Hs k).
  destruct (maybe_sweep_lookup m_stamp retain now' st k) as [->|(-> & tr & Hk & Hold)].
  - destruct (m !! k) as [w|]; [|done]. destruct Hs as [? [?|[??]]]; [by auto|].
    split; [done|right]. eauto using renewed_later.
  - rewrite Hk in Hs. destruct (m !! k) as [w|]; [|done].
    destruct Hs as [Hi [(? & [= <-] & <-)|[??]]]; [|done].
    split; [done|right]. split; [done|]. by apply renewed_old.
Qed.

Lemma stands_for_set now st m key w st' :
  stands_for now st m -> m_inv w ->
  (exists t, windows st' = <[key := {| window := w; touched := t |}]> (windows st)) ->
  stands_for now st' (<[key := w]> m).
Proof.
  intros Hs Hw [t E] k. rewrite E. destruct (decide (key = k)) as [<-|Hne].
  - rewrite !lookup_insert_eq. split; [done|left]. eauto.
  - rewrite !lookup_insert_ne by done. apply Hs.
Qed.

(** One event keeps the correspondence and is answered alike, when the map has
    room for the key. *)
Lemma metered_simulates now0 now st m key a :
  stands_for now0 st m -> now0 <= now -> m_ok a ->
  (windows (maybe_sweep m_stamp retain now st) !! key = None ->
   Z.of_nat (size (windows (maybe_sweep m_stamp retain now st))) < Z.max cap 1) ->
  (metered retain cap key a now st).1 = (reference key a now m).1 /\
  stands_for now (metered retain cap key a now st).2 (reference key a now m).2.
Proof.
  intros Hs Hle Ha Hroom. apply (stands_for_sweep _ now) in Hs; [|done].
  unfold metered, reference. cbn zeta.
  set (st' := maybe_sweep m_stamp retain now st) in *. clearbody st'.
  pose proof (Hs key) as Hkey. destruct (m !! key) as [w|] eqn:Em.
  - destruct Hkey as [Hw [(tr & -> & <-)|[Hn Hr]]].
    + pose proof (m_some_inv _ _ now Ha Hw) as Hi.
      destruct (m_some (window tr) a now) as [r w'] eqn:E. simpl in *.
      split; [done|]. eapply stands_for_set; [done..|]. by eexists.
    + pose proof (renewed_answer _ _ _ Ha Hw Hr) as [E1 E2].
      pose proof (m_some_inv _ _ now Ha Hw) as Hi.
      rewrite Hn. destruct (m_some w a now) as [r w1], (m_new a now) as [r' [w2|]];
        simpl in *; subst; (split; [done|]).
      * eapply stands_for_set; [done..|]. eexists. unfold admit_key.
        by rewrite evict_idle by auto.
      * intros k. destruct (decide (key = k)) as [<-|Hne].
        -- rewrite lookup_insert_eq. split; [done|right]. done.
        -- rewrite lookup_insert_ne by done. apply Hs.
  - rewrite Hkey. pose proof (m_new_inv a now) as Hi.
    destruct (m_new a now) as [r [w2|]]; simpl in *; (split; [done|]); [|done].
    eapply stands_for_set; [done|by apply Hi|]. eexists. unfold admit_key.
    by rewrite evict_idle by auto.
Qed.

Lemma reference_dom key a now (m : gmap K W) :
  dom (reference key a now m).2 ⊆ {[key]} ∪ dom m.
Proof.
  unfold reference. destruct (m !! key).
  - destruct (m_some _ _ _). simpl. by rewrite dom_insert.
  - destruct (m_new _ _) as [? [?|]]; simpl; [by rewrite dom_insert|set_solver].
Qed.

Lemma stands_for_room now st m (keys : gset K) key :
  stands_for now st m -> dom m ⊆ keys -> key ∈ keys -> windows st !! key = None ->
  (size (windows st) < size keys)%nat.
Proof.
  intros Hs Hm Hkey Hk. rewrite <- size_dom.
  assert (Hd : dom (windows st) ⊆ keys).
  { etrans; [|exact Hm]. intros k [tr Htr]%elem_of_dom. specialize (Hs k).
    destruct (m !! k) eqn:E; [by apply elem_of_dom_2 in E|congruence]. }
  assert (Hn : key ∉ dom (windows st)) by by apply not_elem_of_dom.
  assert (Hsub : {[key]} ∪ dom (windows st) ⊆ keys) by set_solver.
  apply subseteq_size in Hsub. rewrite size_union, size_singleton in Hsub by set_solver. lia.
Qed.

(** A store that never meets more keys than it may track answers every event
    as the reference does. *)
Lemma metered_refines (keys : gset K) evs now0 st m :
  Z.of_nat (size keys) <= Z.max cap 1 ->
  stands_for now0 st m -> dom m ⊆ keys ->
  in_order now0 evs -> Forall (fun ev => m_ok ev.1.2 /\ ev.1.1 ∈ keys) evs ->
  (run_events (metered retain cap) st evs).1 = (run_events reference m evs).1.
Proof.
  intros Hcap. revert now0 st m.
  induction evs as [|[[key a] now] evs IH]; intros now0 st m Hs Hm Ho Hall; [done|].
  apply Forall_cons in Hall as [[Ha Hk] Hall]. destruct Ho as [Hle Ho]. simpl in *.
  destruct (metered_simulates now0 now st m key a) as [E1 E2]; [done..| |].
  { intros Hnone. pose proof (stands_for_sweep _ now st m Hs Hle) as Hs'.
    pose proof (stands_for_room _ _ _ keys key Hs' Hm Hk Hnone). lia. }
  pose proof (reference_dom key a now m) as Hd.
  destruct (metered retain cap key a now st) as [r st'], (reference key a now m) as [r' m'].
  simpl in *. subst r'. specialize (IH now st' m' E2 ltac:(set_solver) Ho Hall).
  destruct (run_events (metered _ _) st' evs), (run_events reference m' evs). simpl in *. congruence.
Qed.

Lemma new_stands_for now : stands_for now (new_state now) ∅.
Proof. intros k. by rewrite lookup_empty. Qed.
End Metered.

(** ** The laws of the three meters *)

#[export] Instance window_meter_laws retain : MeterLaws window_meter retain.
Proof.
  refine {| m_ok := fun l : Limit => limit_window l <= retain;
            m_inv := fun _ => True;
            renewed := fun w now => retain <= since now (started w) |}; [done|done|done|..].
  - intros w now now' Hr Hle. unfold since, sat_sub in *. lia.
  - intros w l now Hl _ Hr. simpl. unfold Window_take. rewrite decide_True by lia. done.
Defined.

#[export] Instance tally_meter_laws retain : MeterLaws tally_meter retain.
Proof.
  refine {| m_ok := fun over : option Z => exists d, over = Some d /\ d <= retain;
            m_inv := fun _ => True;
            renewed := fun w now => retain <= since now (started w) |}; [done|done|done|..].
  - intros w now now' Hr Hle. unfold since, sat_sub in *. lia.
  - intros w l now (d & -> & Hl) _ Hr. simpl. rewrite decide_True by lia. done.
Defined.

(** ** Token buckets *)

(** Limits are [u64] counts of bytes; a window of up to 584 years keeps the
    128-bit products of [take] below their saturation point. *)
Definition policy_ok (p : BytePolicy) : Prop :=
  0 < limit_bytes p <= u64_max /\ 0 < byte_window p < u64_max /\ byte_window p <= retain p.

Section Bucket.
Context (limit_bytes window : Z).
Context (Hlimit : 0 < limit_bytes <= u64_max) (Hwindow : 0 <= window <= u64_max).

Lemma refill_eq e :
  0 <= e ->
  refill limit_bytes window e =
  Z.min (sat_mul u128_max e limit_bytes / Z.max window 1) limit_bytes.
Proof.
  intros He. unfold refill, try_into.
  assert (0 <= sat_mul u128_max e limit_bytes / Z.max window 1).
  { apply Z.div_pos; [unfold sat_mul, u128_max; nia|lia]. }
  rewrite decide_True by lia. done.
Qed.

Lemma refill_range e : 0 <= e -> 0 <= refill limit_bytes window e <= limit_bytes.
Proof.
  intros He. rewrite refill_eq by done.
  assert (0 <= sat_mul u128_max e limit_bytes / Z.max window 1); [|lia].
  apply Z.div_pos; [unfold sat_mul, u128_max; nia|lia].
Qed.

(** The refill rate is at most [limit_bytes] per window. *)
Lemma refill_rate e : 0 <= e -> refill limit_bytes window e * Z.max window 1 <= e * limit_bytes.
Proof.
  intros He. rewrite refill_eq by done.
  pose proof (Z.mul_div_le (sat_mul u128_max e limit_bytes) (Z.max window 1)) as Hd.
  assert (sat_mul u128_max e limit_bytes <= e * limit_bytes) by (unfold sat_mul; lia).
  set (q := sat_mul u128_max e limit_bytes / Z.max window 1) in *.
  assert (Z.min q limit_bytes <= q) by lia. nia.
Qed.

Lemma refill_mono e e' :
  0 <= e <= e' -> refill limit_bytes window e <= refill limit_bytes window e'.
Proof.
  intros He. rewrite !refill_eq by lia.
  assert (sat_mul u128_max e limit_bytes <= sat_mul u128_max e' limit_bytes)
    by (unfold sat_mul; nia).
  apply Z.min_le_compat; [|lia]. apply Z.div_le_mono; lia.
Qed.

(** Enough time puts back enough bytes, at the exact rate. *)
Lemma refill_enough e n :
  0 <= n <= limit_bytes -> 0 <= e <= u64_max -> n * Z.max window 1 <= e * limit_bytes ->
  n <= refill limit_bytes window e.
Proof.
  intros Hn He Hr. rewrite refill_eq by lia. apply Z.min_glb; [|lia].
  apply Z.div_le_lower_bound; [lia|]. unfold sat_mul.
  assert (e * limit_bytes <= u128_max) by (unfold u64_max, u128_max in *; nia). lia.
Qed.

Lemma refill_full e : window <= e -> 0 < e -> refill limit_bytes window e = limit_bytes.
Proof.
  intros He He'. apply Z.le_antisymm; [apply refill_range; lia|].
  transitivity (refill limit_bytes window (Z.max window 1)).
  - apply refill_enough; unfold u64_max in *; nia.
  - apply refill_mono. lia.
Qed.

Lemma refilled_range b now :
  0 <= available b -> 0 <= refilled b limit_bytes window now <= limit_bytes.
Proof.
  intros Hb. unfold refilled, sat_add.
  pose proof (refill_range (since now (last_update b)) ltac:(unfold since, sat_sub; lia)).
  unfold u64_max in *. lia.
Qed.

Lemma refilled_eq b now :
  0 <= available b <= limit_bytes ->
  refilled b limit_bytes window now =
  Z.min (available b + refill limit_bytes window (since now (last_update b))) limit_bytes.
Proof.
  intros Hb. unfold refilled, sat_add.
  pose proof (refill_range (since now (last_update b)) ltac:(unfold since, sat_sub; lia)). lia.
Qed.

Lemma refilled_full now : refilled (full limit_bytes now) limit_bytes window now = limit_bytes.
Proof.
  rewrite refilled_eq by (simpl; lia). simpl.
  pose proof (refill_range (since now now) ltac:(unfold since, sat_sub; lia)). lia.
Qed.

Lemma Bucket_take_available b declared now :
  0 <= declared -> 0 <= available b <= limit_bytes ->
  0 <= available (Bucket_take b limit_bytes window declared now).2 <= limit_bytes.
Proof.
  intros Hd Hb. pose proof (refilled_range b now ltac:(lia)). unfold Bucket_take.
  case_decide; simpl; lia.
Qed.
End Bucket.

#[export] Instance bucket_meter_laws p (Hp : policy_ok p) :
  MeterLaws (bucket_meter p) (retain p).
Proof.
  refine {| m_ok := fun declared : Z => 0 <= declared;
            m_inv := fun b => 0 <= available b <= limit_bytes p;
            renewed := fun b now => refilled b (limit_bytes p) (byte_window p) now = limit_bytes p
                                    /\ 0 <= available b <= limit_bytes p |};
    destruct Hp as (Hl & Hw & Hr).
  - intros w d now Hd Hi. by apply Bucket_take_available.
  - intros d now w Hd. cbn [m_new bucket_meter].
    destruct (Bucket_take _ _ _ _ _) as [r b] eqn:E.
    pose proof (Bucket_take_available _ (byte_window p) Hl (full (limit_bytes p) now) d now Hd) as Ha.
    rewrite E in Ha. simpl in *. destruct (is_ok r); [|done]. intros [= <-]. apply Ha. lia.
  - intros b now Hi Hold. split; [|done]. rewrite refilled_eq by done.
    simpl in Hold. rewrite refill_full by lia. lia.
  - intros b now now' [E Hi] Hle. split; [|done]. rewrite refilled_eq in * by done.
    pose proof (refill_mono _ (byte_window p) Hl (since now (last_update b)) (since now' (last_update b))
      ltac:(unfold since, sat_sub; lia)). lia.
  - intros b d now Hd Hi [E _]. cbn [m_some m_new bucket_meter].
    unfold Bucket_take. rewrite E, refilled_full by done.
    case_decide; simpl; (split; [done|]); [|done].
    split; [|lia]. apply (refilled_full (limit_bytes p) (byte_window p) Hl).
Defined.
