(* ===== verification/Metering.v ===== *)
(** What the throttles promise their callers: the store stays consistent and
    bounded under any history of calls, a key's answers depend on that key
    alone, a limit bounds what a caller gets in any span of time, and a wait is
    one after which the caller is served. *)

From Stdlib Require Import ZArith Lia.
From stdpp Require Import base list numbers option strings gmap fin_maps fin_map_dom.
From S2P Require Import Prelude Throttle Meters.

Open Scope Z_scope.

(** ** Rates *)

(** How many events of [k] in the span [[t, t + d)] were let through. *)
Fixpoint admitted_in {K A} `{EqDecision K} (k : K) (t d : Z) (evs : list (K * A * Z))
    (rs : list (option Z)) : Z :=
  match evs, rs with
  | (key, _, now) :: evs', r :: rs' =>
      (if decide (key = k /\ t <= now < t + d /\ r = None) then 1 else 0)
      + admitted_in k t d evs' rs'
  | _, _ => 0
  end.

(** How many bytes [k] was granted in the span [[t, t1]]. *)
Fixpoint granted_in {K} `{EqDecision K} (k : K) (t t1 : Z) (evs : list (K * Z * Z))
    (rs : list (Result unit Z)) : Z :=
  match evs, rs with
  | (key, declared, now) :: evs', r :: rs' =>
      (if decide (key = k /\ t <= now <= t1 /\ r = Ok tt) then declared else 0)
      + granted_in k t t1 evs' rs'
  | _, _ => 0
  end.

Section Rates.
Context {K : Type} `{CK : Countable K}.

Lemma run_events_cons {A S R} (op : K -> A -> Z -> S -> R * S) s key a now evs :
  (run_events op s ((key, a, now) :: evs)).1 =
  (op key a now s).1 :: (run_events op (op key a now s).2 evs).1.
Proof. simpl. destruct (op key a now s). simpl. by destruct (run_events _ _ _). Qed.

Lemma run_events_ext {A S R} (op op' : K -> A -> Z -> S -> R * S) s evs :
  (forall key a now s, op key a now s = op' key a now s) ->
  run_events op s evs = run_events op' s evs.
Proof.
  intros E. revert s. induction evs as [|[[key a] now] evs IH]; intros s; simpl; [done|].
  rewrite E. destruct (op' key a now s). by rewrite IH.
Qed.

Lemma admitted_after {A} k t d now0 (evs : list (K * A * Z)) rs :
  in_order now0 evs -> t + d <= now0 -> admitted_in k t d evs rs = 0.
Proof.
  revert now0 rs. induction evs as [|[[key a] now] evs IH]; intros now0 [|r rs] Ho Hle; [done..|].
  destruct Ho as [? Ho]. simpl. rewrite decide_False by lia. rewrite (IH now); [done|done|lia].
Qed.

Section Window.
Context (limit : Limit) (k : K) (t : Z).

(** What [k]'s window may still let through inside the span. *)
Definition credit (o : option Window) : Z :=
  let M := Z.max 1 (limit_max limit) in
  match o with
  | None => M
  | Some w => if decide (t <= started w) then M - count w else 2 * M - count w
  end.

Definition counts_ok (m : gmap K Window) : Prop :=
  forall w, m !! k = Some w -> 1 <= count w <= Z.max 1 (limit_max limit).

Lemma reference_other {A R W} {M : Meter A R W} key a now (m : gmap K W) :
  key <> k -> (reference key a now m).2 !! k = m !! k.
Proof.
  intros Hne. unfold reference. destruct (m !! key).
  - destruct (m_some _ _ _). simpl. by rewrite lookup_insert_ne.
  - destruct (m_new _ _) as [? [?|]]; simpl; [by rewrite lookup_insert_ne|done].
Qed.

Lemma reference_counts key a now m :
  (key = k -> a = limit) -> counts_ok m -> counts_ok (reference key a now m).2.
Proof.
  intros Hl Hm w. destruct (decide (key = k)) as [->|Hne].
  2:{ rewrite reference_other by done. apply Hm. }
  rewrite Hl by done. unfold reference. destruct (m !! k) as [w0|] eqn:E; simpl.
  - specialize (Hm _ E). unfold Window_take.
    repeat case_decide; simpl; rewrite lookup_insert_eq; intros [= <-]; simpl; lia.
  - rewrite lookup_insert_eq. intros [= <-]. simpl. lia.
Qed.

(** An event of [k] inside the span spends one of its credit when admitted. *)
Lemma reference_credit now m :
  counts_ok m -> t <= now < t + limit_window limit ->
  (if decide ((reference k limit now m).1 = None) then 1 else 0)
  + credit ((reference k limit now m).2 !! k) <= credit (m !! k).
Proof.
  intros Hm Hnow. unfold reference. destruct (m !! k) as [w|] eqn:E; simpl.
  - specialize (Hm _ E). unfold Window_take, since, sat_sub in *.
    repeat case_decide; simpl; rewrite lookup_insert_eq; simpl;
      repeat case_decide; simpl in *; try done; lia.
  - rewrite lookup_insert_eq. simpl. repeat case_decide; lia.
Qed.

Lemma reference_rate evs now0 m :
  counts_ok m -> t <= now0 -> in_order now0 evs ->
  Forall (fun ev => ev.1.1 = k -> ev.1.2 = limit) evs ->
  admitted_in k t (limit_window limit) evs (run_events reference m evs).1 <= credit (m !! k).
Proof.
  revert now0 m. induction evs as [|[[key a] now] evs IH]; intros now0 m Hm Ht Ho Hall.
  { simpl. unfold credit. destruct (m !! k) as [w|] eqn:E; [|lia].
    specialize (Hm _ E). case_decide; lia. }
  apply Forall_cons in Hall as [Ha Hall]. simpl in Ha. destruct Ho as [Hle Ho].
  assert (Hc : 0 <= credit (m !! k)).
  { unfold credit. destruct (m !! k) as [w|] eqn:E; [|lia].
    specialize (Hm _ E). case_decide; lia. }
  rewrite run_events_cons. cbn [admitted_in].
  specialize (IH now _ (reference_counts key a now m Ha Hm) ltac:(lia) Ho Hall).
  destruct (decide (now < t + limit_window limit)) as [Hin|Hout].
  - destruct (decide (key = k)) as [->|Hne].
    + rewrite Ha in * by done. pose proof (reference_credit now m Hm ltac:(lia)).
      repeat case_decide; try lia; exfalso; naive_solver lia.
    + rewrite reference_other in IH by done. rewrite decide_False by naive_solver. lia.
  - rewrite decide_False by lia. rewrite (admitted_after _ _ _ now); [lia|done|lia].
Qed.

Lemma reference_rate_from evs now0 m :
  counts_ok m -> in_order now0 evs -> Forall (fun ev => ev.1.1 = k -> ev.1.2 = limit) evs ->
  admitted_in k t (limit_window limit) evs (run_events reference m evs).1
  <= 2 * Z.max 1 (limit_max limit).
Proof.
  revert now0 m. induction evs as [|[[key a] now] evs IH]; intros now0 m Hm Ho Hall.
  { simpl. lia. }
  destruct (decide (t <= now)) as [Hle|Hgt].
  - transitivity (credit (m !! k)).
    + apply (reference_rate _ now); [done|done| |done]. destruct Ho. by split.
    + unfold credit. destruct (m !! k) as [w|] eqn:E; [|lia].
      specialize (Hm _ E). case_decide; lia.
  - apply Forall_cons in Hall as [Ha Hall]. simpl in Ha. destruct Ho as [Hle Ho].
    rewrite run_events_cons. cbn [admitted_in]. rewrite decide_False by lia.
    specialize (IH now _ (reference_counts key a now m Ha Hm) Ho Hall). lia.
Qed.
End Window.

Section Bytes.
Context (p : BytePolicy) (Hp : policy_ok p) (k : K) (t t1 : Z).
#[local] Existing Instance bucket_meter.

(** What [k]'s bucket may still grant inside the span, scaled by the window. *)
Definition byte_credit (o : option BucketWindow) : Z :=
  match o with
  | Some b =>
      if decide (t <= last_update b) then
        available b * byte_window p + limit_bytes p * (t1 - last_update b)
      else limit_bytes p * byte_window p + limit_bytes p * (t1 - t)
  | None => limit_bytes p * byte_window p + limit_bytes p * (t1 - t)
  end.

Definition buckets_ok (now0 : Z) (m : gmap K BucketWindow) : Prop :=
  forall b, m !! k = Some b -> 0 <= available b <= limit_bytes p /\ last_update b <= now0.

(** A bucket at [now] holds at most what its credit covers. *)
Lemma refilled_credit b now :
  0 <= available b <= limit_bytes p -> t <= now -> last_update b <= now ->
  refilled b (limit_bytes p) (byte_window p) now * byte_window p + limit_bytes p * (t1 - now)
  <= byte_credit (Some b).
Proof.
  intros Hb Ht Hu. destruct Hp as (Hl & Hw & _). unfold byte_credit.
  rewrite refilled_eq by done. rewrite since_eq by done.
  pose proof (refill_rate _ (byte_window p) Hl ltac:(lia) (now - last_update b) ltac:(lia)) as Hr.
  rewrite Z.max_l in Hr by lia. case_decide; nia.
Qed.

Lemma reference_buckets key declared now0 now m :
  0 <= declared -> buckets_ok now0 m -> now0 <= now ->
  buckets_ok now (reference (M := bucket_meter p) key declared now m).2.
Proof.
  intros Hd Hm Hle b. destruct Hp as (Hl & _ & _). destruct (decide (key = k)) as [->|Hne].
  2:{ rewrite reference_other by done. intros Hb. destruct (Hm _ Hb). split; [done|lia]. }
  unfold reference. destruct (m !! k) as [b0|] eqn:E; cbn [m_some m_new bucket_meter];
    unfold Bucket_take.
  - destruct (Hm _ E). pose proof (refilled_range _ (byte_window p) Hl b0 now ltac:(lia)).
    case_decide; simpl; rewrite lookup_insert_eq; intros [= <-]; simpl; lia.
  - rewrite refilled_full by done. case_decide; simpl; [by rewrite E|].
    rewrite lookup_insert_eq. intros [= <-]. simpl. lia.
Qed.

(** An event of [k] in the span spends what it is granted. *)
Lemma reference_bytes declared now0 now m :
  0 <= declared -> buckets_ok now0 m -> now0 <= now -> t <= now ->
  (if decide ((reference (M := bucket_meter p) k declared now m).1 = Ok tt)
   then declared else 0) * byte_window p
  + byte_credit ((reference (M := bucket_meter p) k declared now m).2 !! k)
  <= byte_credit (m !! k).
Proof.
  intros Hd Hm Hle Ht. destruct Hp as (Hl & Hw & _). unfold reference.
  destruct (m !! k) as [b|] eqn:E; cbn [m_some m_new bucket_meter]; unfold Bucket_take.
  - destruct (Hm _ E) as [Hb Hu].
    pose proof (refilled_credit b now Hb Ht ltac:(lia)) as Hc.
    pose proof (refilled_range _ (byte_window p) Hl b now ltac:(lia)) as Hr.
    set (credit := byte_credit (Some b)) in *.
    set (av := refilled b (limit_bytes p) (byte_window p) now) in *.
    destruct (decide (av < declared)); simpl; rewrite lookup_insert_eq; simpl;
      repeat case_decide; try done; nia.
  - rewrite refilled_full by done.
    destruct (decide (limit_bytes p < declared)); simpl.
    + rewrite E. unfold byte_credit. repeat case_decide; try done; lia.
    + rewrite lookup_insert_eq. simpl. repeat case_decide; try done; nia.
Qed.

Lemma byte_credit_bounds now0 m :
  buckets_ok now0 m -> now0 <= t1 -> 0 <= byte_credit (m !! k) \/ t1 < t.
Proof.
  intros Hm Hle. destruct (decide (t1 < t)); [by right|left]. destruct Hp as (Hl & Hw & _).
  unfold byte_credit. destruct (m !! k) as [b|] eqn:E; [|nia].
  destruct (Hm _ E). case_decide; nia.
Qed.

Lemma granted_after now0 evs rs :
  in_order now0 evs -> t1 < now0 -> granted_in k t t1 evs rs = 0.
Proof.
  revert now0 rs. induction evs as [|[[key a] now] evs IH]; intros now0 [|r rs] Ho Hle; [done..|].
  destruct Ho as [? Ho]. simpl. rewrite decide_False by lia. rewrite (IH now); [done|done|lia].
Qed.

Lemma reference_granted evs now0 m :
  buckets_ok now0 m -> t <= t1 -> in_order now0 evs -> in_order t evs ->
  Forall (fun ev => 0 <= ev.1.2) evs ->
  granted_in k t t1 evs (run_events (reference (M := bucket_meter p)) m evs).1 * byte_window p
  <= Z.max 0 (byte_credit (m !! k)).
Proof.
  revert now0 m. induction evs as [|[[key d] now] evs IH]; intros now0 m Hm Ht1 Ho Ht Hall.
  { simpl. lia. }
  apply Forall_cons in Hall as [Hd Hall]. simpl in Hd.
  destruct Ho as [Hle Ho], Ht as [Ht _].
  rewrite run_events_cons. cbn [granted_in].
  pose proof (reference_buckets key d now0 now m Hd Hm Hle) as Hm'.
  specialize (IH now _ Hm' Ht1 Ho (in_order_weaken t now evs Ho Ht) Hall).
  destruct (decide (now <= t1)) as [Hin|Hout].
  2:{ rewrite decide_False by lia. rewrite (granted_after now) by (done || lia). lia. }
  destruct (decide (key = k)) as [->|Hne].
  - pose proof (reference_bytes d now0 now m Hd Hm Hle Ht) as Hs.
    destruct (byte_credit_bounds now _ Hm' Hin) as [Hc|?]; [|lia].
    repeat case_decide; try lia; exfalso; naive_solver lia.
  - rewrite decide_False by naive_solver. rewrite reference_other in IH by done. lia.
Qed.

Lemma reference_granted_from evs now0 m :
  buckets_ok now0 m -> t <= t1 -> in_order now0 evs -> Forall (fun ev => 0 <= ev.1.2) evs ->
  granted_in k t t1 evs (run_events (reference (M := bucket_meter p)) m evs).1 * byte_window p
  <= limit_bytes p * byte_window p + limit_bytes p * (t1 - t).
Proof.
  destruct Hp as (Hl & Hw & _).
  revert now0 m. induction evs as [|[[key d] now] evs IH]; intros now0 m Hm Ht1 Ho Hall.
  { simpl. nia. }
  destruct (decide (now < t)) as [Hlt|Hge].
  - apply Forall_cons in Hall as [Hd Hall]. simpl in Hd. destruct Ho as [Hle Ho].
    rewrite run_events_cons. cbn [granted_in]. rewrite decide_False by lia.
    apply (IH now); [|done..]. by eapply reference_buckets.
  - etrans; [eapply reference_granted; [done|done|done| |done]|].
    + split; [lia|]. apply Ho.
    + unfold byte_credit. destruct (m !! k) as [b|] eqn:E; [|nia].
      destruct (Hm _ E). case_decide; nia.
Qed.
End Bytes.
End Rates.

(** ** The store under any history of calls *)

(** A call that changes a counter. *)
Inductive CounterOp (K : Type) :=
| OpTake (key : K) (limit : Limit) (now : Z)
| OpTally (key : K) (over : option Z) (now : Z)
| OpForget (key : K).
Arguments OpTake {K} _ _ _.
Arguments OpTally {K} _ _ _.
Arguments OpForget {K} _.

Section Histories.
Context {K : Type} `{CK : Countable K}.
Implicit Types st : CounterState K Window.

Definition apply_op (retain cap : Z) st (op : CounterOp K) : CounterState K Window :=
  match op with
  | OpTake key limit now => (take key limit retain cap now st).2
  | OpTally key over now => (tally key over retain cap now st).2
  | OpForget key => forget key st
  end.

Lemma forget_next key st : next_touch (forget key st) = next_touch st.
Proof. unfold forget. by destruct (windows st !! key). Qed.

Lemma apply_op_ok retain cap st op :
  store_ok cap st -> next_touch st < u64_max ->
  store_ok cap (apply_op retain cap st op) /\
  next_touch (apply_op retain cap st op) <= next_touch st + 1.
Proof.
  intros Hok Hlt. destruct op as [key limit now|key over now|key]; cbn [apply_op].
  - rewrite take_metered. by apply metered_ok.
  - rewrite tally_metered. by apply metered_ok.
  - rewrite forget_next. split; [by apply forget_ok|lia].
Qed.

Lemma apply_ops_ok retain cap ops st :
  store_ok cap st -> next_touch st + Z.of_nat (length ops) <= u64_max ->
  store_ok cap (foldl (apply_op retain cap) st ops).
Proof.
  revert st. induction ops as [|op ops IH]; intros st Hok Hlen; [done|]. simpl in *.
  destruct (apply_op_ok retain cap st op Hok ltac:(lia)) as [Hok' Hn].
  apply IH; [done|lia].
Qed.

(** Whatever calls a counter has served, up to the 2^64 at which the touch
    sequence wraps: the map never holds more keys than its cap (and one, where
    the cap is zero), every place in the touch order is the place of a tracked
    key, places are distinct and lie below the next one to be handed out, and
    every tracked key past touch 0 has its place. *)
Theorem counters_consistent retain cap t0 (ops : list (CounterOp K)) :
  Z.of_nat (length ops) <= u64_max ->
  let st := foldl (apply_op retain cap) (new_state t0) ops in
  Z.of_nat (size (windows st)) <= Z.max cap 1 /\
  (forall t k, order st !! t = Some k ->
    exists tr, windows st !! k = Some tr /\ touched tr = t) /\
  (forall k tr, windows st !! k = Some tr ->
    0 <= touched tr < next_touch st /\ (0 < touched tr -> order st !! touched tr = Some k)).
Proof.
  intros Hlen st.
  assert (Hok : store_ok cap st) by (apply apply_ops_ok; [apply new_state_ok|done]).
  split_and!; [apply Hok|apply Hok|]. intros k tr Hk.
  split; [by apply (ok_range _ _ Hok _ _ Hk)|]. intros Hpos.
  destruct (ok_tracked _ _ Hok _ _ Hk) as [?|[??]]; [done|lia].
Qed.

(** Eviction takes placed keys in the order of their places. *)
Lemma evict_order cap fuel st k tr k' tr' :
  store_ok cap st -> windows st !! k = Some tr -> windows (evict fuel cap st) !! k = None ->
  windows (evict fuel cap st) !! k' = Some tr' ->
  touched tr < touched tr' \/ touched tr' = 0.
Proof.
  revert st. induction fuel as [|fuel IH]; intros st Hok Hk Hgone Hstay; simpl in *; [congruence|].
  case_decide; [|congruence].
  destruct (first_key (order st)) as [[t e]|] eqn:Ef; [|congruence].
  apply first_key_Some in Ef as [Ho Hleast].
  destruct (ok_placed _ _ Hok _ _ Ho) as (tre & Hke & <-).
  destruct (decide (k = e)) as [->|Hne].
  - rewrite Hk in Hke. injection Hke as <-.
    assert (Hd := lookup_weaken _ _ _ _ Hstay (evict_sub _ _ _)).
    simpl in Hd. apply lookup_delete_Some in Hd as [Hne Hk'].
    destruct (ok_tracked _ _ Hok _ _ Hk') as [Ho'|[??]]; [left|by right].
    specialize (Hleast _ _ Ho'). assert (touched tr <> touched tr'); [|lia].
    intros E. by apply Hne, (ok_inj _ _ Hok _ _ _ _ Hk Hk').
  - eapply (IH (drop_key st e (touched tre))); [by apply drop_ok| |done|done].
    simpl. by rewrite lookup_delete_ne.
Qed.

(** When tracking a new key makes room, what is dropped is the least
    recently touched: every key that stays was touched after every key that
    went, save a key still at touch 0. *)
Theorem take_evicts_least_recent limit retain cap now st key k tr k' tr' :
  store_ok cap st ->
  windows (maybe_sweep started retain now st) !! k = Some tr ->
  windows (take key limit retain cap now st).2 !! k = None ->
  windows (take key limit retain cap now st).2 !! k' = Some tr' -> k' <> key ->
  touched tr < touched tr' \/ touched tr' = 0.
Proof.
  intros Hok Hk Hgone Hstay Hne. apply (maybe_sweep_ok started cap retain now) in Hok.
  unfold take in *. cbn zeta in *.
  set (st' := maybe_sweep started retain now st) in *. clearbody st'.
  destruct (windows st' !! key) as [trk|] eqn:Ekey.
  - destruct (Window_take _ _ _) as [wait w]. simpl in *. exfalso.
    apply lookup_insert_None in Hgone as [? _]. congruence.
  - simpl in *. apply lookup_insert_None in Hgone as [Hgone _].
    rewrite lookup_insert_ne in Hstay by done. by eapply evict_order.
Qed.
End Histories.

(** Eviction is not exact for the first key a counter ever tracked: with
    room for two keys, three keys asking once each leave the first tracked and
    evict the second, although the second was touched more recently. *)
Theorem first_key_outlives_newer :
  let limit := {| limit_max := 30; limit_window := MINUTE |} in
  let ask := fun key now st => (take key limit MINUTE 2 now st).2 in
  let st := ask 3 30 (ask 2 20 (ask 1 10 (new_state (K := Z) 0))) in
  (windows st !! 1, windows st !! 2, windows st !! 3) =
  (Some {| window := opened 10; touched := 0 |}, None,
   Some {| window := opened 30; touched := 2 |}).
Proof. vm_compute. reflexivity. Qed.

(** ** What a caller gets *)

Section Callers.
Context {K : Type} `{CK : Countable K}.

Definition keys_of {A} (evs : list (K * A * Z)) : gset K := list_to_set (evs.*1.*1).

Lemma elem_of_keys {A} (evs : list (K * A * Z)) : Forall (fun ev => ev.1.1 ∈ keys_of evs) evs.
Proof.
  apply Forall_forall. intros ev Hev. unfold keys_of.
  apply elem_of_list_to_set, list_elem_of_fmap. exists ev.1. split; [done|].
  apply list_elem_of_fmap. eauto.
Qed.

Lemma take_run_reference retain cap t0 (evs : list (K * Limit * Z)) :
  in_order t0 evs -> Forall (fun ev => limit_window ev.1.2 <= retain) evs ->
  Z.of_nat (size (keys_of evs)) <= Z.max cap 1 ->
  (run_events (fun key limit now => take key limit retain cap now) (new_state t0) evs).1 =
  (run_events reference ∅ evs).1.
Proof.
  intros Ho Hw Hk.
  rewrite (run_events_ext _ (metered retain cap)) by (intros; apply take_metered).
  eapply (metered_refines retain cap (keys_of evs) evs t0); [done|apply new_stands_for| |done|].
  - set_solver.
  - apply Forall_and. split; [done|apply elem_of_keys].
Qed.

(** The events of one key, and the answers they got. *)
Definition of_key {A} (k : K) (evs : list (K * A * Z)) : list (K * A * Z) :=
  filter (fun ev => ev.1.1 = k) evs.

Fixpoint answers_of {A R} (k : K) (evs : list (K * A * Z)) (rs : list R) : list R :=
  match evs, rs with
  | (key, _, _) :: evs', r :: rs' =>
      if decide (key = k) then r :: answers_of k evs' rs' else answers_of k evs' rs'
  | _, _ => []
  end.

Lemma in_order_of_key {A} (k : K) t0 (evs : list (K * A * Z)) :
  in_order t0 evs -> in_order t0 (of_key k evs).
Proof.
  unfold of_key. revert t0. induction evs as [|[[key a] now] evs IH]; intros t0; [done|].
  intros [Hle Ho]. rewrite filter_cons. simpl. case_decide.
  - split; [done|]. by apply IH.
  - by eapply in_order_weaken; [apply IH|].
Qed.

Lemma keys_of_key {A} (k : K) (evs : list (K * A * Z)) :
  (size (keys_of (of_key k evs)) <= 1)%nat.
Proof.
  rewrite <- (size_singleton (C := gset K) k). apply subseteq_size.
  intros k' Hk'. unfold keys_of in Hk'. apply elem_of_list_to_set, list_elem_of_fmap in Hk' as (? & -> & Hk').
  apply list_elem_of_fmap in Hk' as (ev & -> & Hev). apply list_elem_of_filter in Hev as [-> _].
  set_solver.
Qed.

(** In the reference a key's answers come from its own events alone. *)
Lemma reference_isolated {A R W} {M : Meter A R W} (k : K) evs (m m' : gmap K W) :
  m !! k = m' !! k ->
  answers_of k evs (run_events reference m evs).1 =
  (run_events reference m' (of_key k evs)).1.
Proof.
  unfold of_key. revert m m'. induction evs as [|[[key a] now] evs IH]; intros m m' E; [done|].
  rewrite run_events_cons, filter_cons. cbn [answers_of fst snd].
  destruct (decide (key = k)) as [->|Hne].
  - rewrite run_events_cons.
    assert (E2 : (reference k a now m).1 = (reference k a now m').1 /\
      (reference k a now m).2 !! k = (reference k a now m').2 !! k).
    { unfold reference. rewrite <- E. destruct (m !! k) as [w|] eqn:Ek.
      - destruct (m_some w a now). simpl. by rewrite !lookup_insert_eq.
      - destruct (m_new a now) as [? [?|]]; simpl; [by rewrite !lookup_insert_eq|].
        by rewrite Ek, <- E. }
    destruct E2 as [-> E2]. f_equal. by apply IH.
  - apply IH. by rewrite reference_other.
Qed.

(** A fixed-window counter with room for the keys it meets answers a
    caller as it would if that caller were alone: neither what other callers
    ask, nor the sweeps and evictions they trigger, changes a key's answers. *)
Theorem take_isolated retain cap t0 (k : K) (evs : list (K * Limit * Z)) :
  in_order t0 evs -> Forall (fun ev => limit_window ev.1.2 <= retain) evs ->
  Z.of_nat (size (keys_of evs)) <= Z.max cap 1 ->
  let run evs := (run_events (fun key limit now => take key limit retain cap now)
                    (new_state t0) evs).1 in
  answers_of k evs (run evs) = run (of_key k evs).
Proof.
  intros Ho Hw Hk run. unfold run. rewrite !take_run_reference; try done.
  - by apply reference_isolated.
  - by apply in_order_of_key.
  - apply Forall_forall. intros ev [_ Hev]%list_elem_of_filter.
    by eapply Forall_forall in Hw.
  - pose proof (keys_of_key k evs). lia.
Qed.

(** *** The handle throttle *)

(** The three signals of a sync connection. *)
Inductive Signal := Subscribing | Connecting | CredentialRefused.

Definition signal_limit (s : Signal) (l : TierLimits) : Limit :=
  match s with
  | Subscribing => subscriptions l
  | Connecting => connections l
  | CredentialRefused => credential_refusals l
  end.

Definition signal_call (s : Signal) (handle : K) (t : Tier) (now : Z) (h : HandleThrottle K) :
    option Z * HandleThrottle K :=
  match s with
  | Subscribing => subscription handle t now h
  | Connecting => connection handle t now h
  | CredentialRefused => credential_refusal handle t now h
  end.

Definition signal_counter (s : Signal) (h : HandleThrottle K) : CounterState K Window :=
  match s with
  | Subscribing => ht_subscriptions h
  | Connecting => ht_connections h
  | CredentialRefused => ht_credential_refusals h
  end.

Definition with_limits (s : Signal) (c : ThrottleConfig) (evs : list (K * Tier * Z)) :
    list (K * Limit * Z) :=
  (fun ev => (ev.1.1, signal_limit s (tier c ev.1.2), ev.2)) <$> evs.

Lemma signal_call_take s handle t now h :
  let taken := take handle (signal_limit s (tier (ht_config h) t)) (ht_retain h)
                 (max_tracked (ht_config h)) now (signal_counter s h) in
  (signal_call s handle t now h).1 = taken.1 /\
  signal_counter s (signal_call s handle t now h).2 = taken.2 /\
  ht_config (signal_call s handle t now h).2 = ht_config h /\
  ht_retain (signal_call s handle t now h).2 = ht_retain h.
Proof.
  destruct s; simpl; unfold subscription, connection, credential_refusal;
    by destruct (take _ _ _ _ _ _).
Qed.

Lemma signal_run_take s c evs h :
  ht_config h = c -> ht_retain h = handle_retain c ->
  (run_events (signal_call s) h evs).1 =
  (run_events (fun key limit now => take key limit (handle_retain c) (max_tracked c) now)
     (signal_counter s h) (with_limits s c evs)).1.
Proof.
  revert h. induction evs as [|[[key t] now] evs IH]; intros h Hc Hr; [done|].
  unfold with_limits. rewrite fmap_cons, !run_events_cons. cbn [fst snd].
  destruct (signal_call_take s key t now h) as (-> & Hs & Hc' & Hr').
  rewrite Hc, Hr in *. f_equal. rewrite IH by congruence. by rewrite Hs.
Qed.

Lemma in_order_limits s c t0 evs : in_order t0 (with_limits s c evs) <-> in_order t0 evs.
Proof.
  revert t0. induction evs as [|[[key t] now] evs IH]; intros t0; [done|]. simpl. by rewrite IH.
Qed.

Lemma keys_of_limits s c evs : keys_of (with_limits s c evs) = keys_of evs.
Proof. unfold keys_of, with_limits. rewrite <- !list_fmap_compose. done. Qed.

Lemma admitted_in_limits s c k t d evs rs :
  admitted_in k t d (with_limits s c evs) rs = admitted_in k t d evs rs.
Proof.
  revert rs. induction evs as [|[[key a] now] evs IH]; intros [|r rs]; [done..|].
  simpl. by rewrite IH.
Qed.

Lemma signal_limit_covered s c t : limit_window (signal_limit s (tier c t)) <= handle_retain c.
Proof. pose proof (handle_retain_covers c t). destruct s; simpl; lia. Qed.

(** The limit of a tier bounds what a handle gets on each signal: in any
    span as long as the limit's window, whatever else the server serves, a
    handle is let through at most twice the limit (a fixed window ends inside
    the span at most once). A limit of zero lets one event through per window,
    since opening a window does not consult the limit. *)
Theorem handle_rate_bounded s c t0 t (k : K) who evs :
  in_order t0 evs ->
  Z.of_nat (size (keys_of evs)) <= Z.max (max_tracked c) 1 ->
  Forall (fun ev => ev.1.1 = k -> ev.1.2 = who) evs ->
  let limit := signal_limit s (tier c who) in
  admitted_in k t (limit_window limit) evs
    (run_events (signal_call s) (new_handle_throttle c t0) evs).1
  <= 2 * Z.max 1 (limit_max limit).
Proof.
  intros Ho Hk Hwho limit. rewrite (signal_run_take s c) by done.
  replace (signal_counter s _) with (new_state (K := K) (W := Window) t0) by by destruct s.
  rewrite take_run_reference.
  - rewrite <- (admitted_in_limits s c). apply (reference_rate_from limit k t _ t0).
    + intros w. by rewrite lookup_empty.
    + by apply in_order_limits.
    + unfold with_limits. rewrite Forall_fmap. eapply Forall_impl; [exact Hwho|].
      intros [[key tr] now] H. simpl in *. intros ->. unfold limit. by rewrite H.
  - by apply in_order_limits.
  - unfold with_limits. rewrite Forall_fmap. apply Forall_forall. intros. apply signal_limit_covered.
  - by rewrite keys_of_limits.
Qed.

(** *** Waits *)

(** What [peek] and [take] say of a key, by its window alone. *)
Lemma take_answer key limit retain cap now (st : CounterState K Window) :
  limit_window limit <= retain ->
  (take key limit retain cap now st).1 = peek key limit now st.
Proof.
  intros Hr. unfold take, peek. cbn zeta.
  destruct (maybe_sweep_lookup started retain now st key) as [->|(-> & tr & -> & Hold)]; simpl.
  - destruct (windows st !! key) as [tr|]; simpl; [|done]. unfold Window_take.
    destruct (decide (limit_window limit <= _)); [rewrite decide_False by lia; done|].
    destruct (decide (limit_max limit <= _)); [rewrite decide_True by lia; done|].
    by rewrite decide_False by lia.
  - by rewrite decide_False by lia.
Qed.

(** A refused event leaves the caller's window as it was. *)
Lemma take_refused key limit retain cap now (st : CounterState K Window) d :
  limit_window limit <= retain -> (take key limit retain cap now st).1 = Some d ->
  exists tr t', windows st !! key = Some tr /\
    windows (take key limit retain cap now st).2 !! key =
      Some {| window := window tr; touched := t' |} /\
    since now (started (window tr)) < limit_window limit /\
    limit_max limit <= count (window tr) /\
    d = limit_window limit - since now (started (window tr)).
Proof.
  intros Hr Hd. pose proof Hd as Hp. rewrite take_answer in Hp by done. unfold peek in Hp.
  destruct (windows st !! key) as [tr|] eqn:E; simpl in Hp; [|done].
  case_decide as Hc; [|done]. injection Hp as <-. exists tr.
  unfold take in *. cbn zeta in *.
  destruct (maybe_sweep_lookup started retain now st key) as [Es|(Es & tr' & Hk & Hold)].
  2:{ rewrite Es in Hd. done. }
  rewrite Es, E in *. unfold Window_take in *. rewrite decide_False, decide_True by lia.
  eexists. simpl. rewrite lookup_insert_eq. split_and!; [done|done|lia|lia|].
  unfold sat_sub. lia.
Qed.

(** The wait a refusal carries is exact: until it is over the same call is
    refused with what remains of it, from then on it is served, and asking in
    the meantime does not move it. *)
Theorem take_wait_exact key limit retain cap now (st : CounterState K Window) d now' :
  limit_window limit <= retain ->
  (forall tr, windows st !! key = Some tr -> started (window tr) <= now) ->
  (take key limit retain cap now st).1 = Some d -> now <= now' ->
  0 < d <= limit_window limit /\
  (take key limit retain cap now' (take key limit retain cap now st).2).1 =
  if decide (now' < now + d) then Some (now + d - now') else None.
Proof.
  intros Hr Hpast Hd Hnow. apply take_refused in Hd as (tr & t' & E & E' & Hlt & Hmax & ->); [|done].
  specialize (Hpast _ E). rewrite take_answer by done. unfold peek. rewrite E'. simpl.
  unfold since, sat_sub in *. split; [lia|]. case_decide; case_decide; try lia; [|done].
  f_equal. lia.
Qed.

End Callers.

Section Gates.
Context {K : Type} `{CK : Countable K}.

(** The gate before a refresh and the record of a failed one agree: a
    refresh is turned away exactly when recording its failure would report a
    wait, and with the same wait, over both the session and its account. *)
Theorem refresh_gate_exact (session : K) account now (a : AuthThrottle K) :
  at_retain a = auth_retain (at_config a) ->
  refresh_blocked session account now a = (refresh_failed session account now a).1 /\
  at_retain (refresh_failed session account now a).2 = auth_retain (at_config a).
Proof.
  intros Hr. unfold refresh_blocked, refresh_failed. cbn zeta.
  pose proof (take_answer session (refresh_failures_per_session (at_config a)) (at_retain a)
    (max_tracked (at_config a)) now (per_session a)) as E1.
  rewrite <- E1 by (rewrite Hr; unfold auth_retain; lia).
  destruct (take session _ _ _ _ _) as [w1 s1]. destruct account as [acct|]; simpl; [|done].
  pose proof (take_answer acct (refresh_failures_per_account (at_config a)) (at_retain a)
    (max_tracked (at_config a)) now (per_account a)) as E2.
  rewrite <- E2 by (rewrite Hr; unfold auth_retain; lia).
  by destruct (take acct _ _ _ _ _).
Qed.
End Gates.

(** ** Byte meters *)

Section ByteMeters.

Lemma allow_run_reference {K} `{CK : Countable K} p t0 (evs : list (K * Z * Z)) :
  policy_ok p -> in_order t0 evs -> Forall (fun ev => 0 <= ev.1.2) evs ->
  Z.of_nat (size (keys_of evs)) <= Z.max (cap p) 1 ->
  (run_events (fun key declared now => allow key p declared now) (new_state t0) evs).1 =
  (run_events (reference (M := bucket_meter p)) ∅ evs).1.
Proof.
  intros Hp Ho Hd Hk.
  rewrite (run_events_ext _ (metered (H0 := bucket_meter p) (retain p) (cap p)))
    by (intros; apply allow_metered).
  eapply (metered_refines (M := bucket_meter p) (ML := bucket_meter_laws p Hp)
            (retain p) (cap p) (keys_of evs) evs t0); [done|apply new_stands_for| |done|].
  - set_solver.
  - apply Forall_and. split; [|apply elem_of_keys]. exact Hd.
Qed.

(** The configured mutation budget is one the meter's arithmetic is exact for. *)
Definition mutation_budget_ok (c : ThrottleConfig) : Prop :=
  0 < mutation_bytes_per_identity c <= u64_max /\ 0 < mutation_bytes_window c < u64_max.

Lemma mutation_policy_ok c : mutation_budget_ok c -> policy_ok (mutation_policy c).
Proof. unfold mutation_budget_ok, policy_ok. simpl. lia. Qed.

Lemma mutation_run_allow c evs b :
  bt_config b = c -> mutation_bytes_per_identity c <> 0 ->
  (run_events allow_mutation_bytes b evs).1 =
  (run_events (fun key declared now => allow key (mutation_policy c) declared now)
     (mutations b) evs).1.
Proof.
  intros Hc Hz. revert b Hc. induction evs as [|[[key d] now] evs IH]; intros b Hc; [done|].
  rewrite !run_events_cons. unfold allow_mutation_bytes at 1 3. rewrite Hc, decide_False by done.
  destruct (allow key _ d now (mutations b)) as [r s]. simpl. f_equal. by rewrite IH.
Qed.

(** The mutation meter bounds what an identity may send: over any span of
    time, whatever the other identities send, the patch bytes let through are
    at most one full allowance plus what the rate of one allowance per window
    yields over the span. *)
Theorem mutation_bytes_bounded c t0 t t1 (who : string) evs :
  mutation_budget_ok c -> t <= t1 ->
  in_order t0 evs -> Forall (fun ev => 0 <= ev.1.2) evs ->
  Z.of_nat (size (keys_of evs)) <= Z.max (max_tracked c) 1 ->
  granted_in who t t1 evs (run_events allow_mutation_bytes (new_byte_throttle c t0) evs).1
    * mutation_bytes_window c
  <= mutation_bytes_per_identity c * mutation_bytes_window c
     + mutation_bytes_per_identity c * (t1 - t).
Proof.
  intros Hc Ht Ho Hd Hk. pose proof (mutation_policy_ok c Hc) as Hp.
  rewrite (mutation_run_allow c) by (done || destruct Hc; lia).
  change (mutations (new_byte_throttle c t0)) with (new_state (K := string) (W := BucketWindow) t0).
  rewrite allow_run_reference by done.
  apply (reference_granted_from (mutation_policy c) Hp who t t1 evs t0); [|done..].
  intros b. by rewrite lookup_empty.
Qed.

Context {K : Type} `{CK : Countable K}.

Lemma bucket_wait_eq p short :
  policy_ok p -> 0 <= short <= limit_bytes p ->
  bucket_wait (limit_bytes p) (byte_window p) short = short * byte_window p / limit_bytes p /\
  short * byte_window p / limit_bytes p <= byte_window p.
Proof.
  intros (Hl & Hw & _) Hs. unfold bucket_wait. cbn zeta. rewrite decide_False by lia.
  assert (short * byte_window p <= u128_max) by (unfold u64_max, u128_max in *; nia).
  unfold sat_mul. rewrite (Z.min_r u128_max) by done.
  assert (0 <= short * byte_window p / limit_bytes p <= byte_window p).
  { split; [apply Z.div_pos; nia|]. apply Z.div_le_upper_bound; nia. }
  unfold try_into. rewrite decide_True by lia. simpl. lia.
Qed.

(** What a call does to the bucket of a tracked key. *)
Lemma allow_tracked key p declared now (st : CounterState K BucketWindow) tr :
  windows (maybe_sweep last_update (retain p) now st) !! key = Some tr ->
  (allow key p declared now st).1 =
    (Bucket_take (window tr) (limit_bytes p) (byte_window p) declared now).1 /\
  exists t, windows (allow key p declared now st).2 !! key =
    Some {| window := (Bucket_take (window tr) (limit_bytes p) (byte_window p) declared now).2;
            touched := t |}.
Proof.
  intros E. unfold allow. cbn zeta. rewrite E. destruct (Bucket_take _ _ _ _ _) as [r b].
  split; [done|]. eexists. simpl. by rewrite lookup_insert_eq.
Qed.

(** A newcomer, or a key back after its bucket was swept, has a full bucket. *)
Lemma allow_fresh key p declared now (st : CounterState K BucketWindow) :
  policy_ok p -> windows (maybe_sweep last_update (retain p) now st) !! key = None ->
  (allow key p declared now st).1 = Ok tt <-> declared <= limit_bytes p.
Proof.
  intros (Hl & Hw & _) E. unfold allow. cbn zeta. rewrite E. unfold Bucket_take.
  rewrite refilled_full by done. case_decide; simpl; split; (done || lia).
Qed.

(** A refused request that fits a full bucket is not charged, and is
    served one nanosecond after the wait it was given, or at any time later,
    if nothing else is sent meanwhile. *)
Theorem allow_wait_sufficient key p declared now (st : CounterState K BucketWindow) d now' :
  policy_ok p -> 0 <= declared <= limit_bytes p ->
  (forall tr, windows st !! key = Some tr ->
    0 <= available (window tr) <= limit_bytes p /\ last_update (window tr) <= now) ->
  (allow key p declared now st).1 = Err d -> now + d + 1 <= now' ->
  0 <= d <= byte_window p /\
  (allow key p declared now' (allow key p declared now st).2).1 = Ok tt.
Proof.
  intros Hp Hd Hst Hr Hnow. pose proof Hp as (Hl & Hw & _).
  destruct (maybe_sweep_lookup last_update (retain p) now st key) as [E|(E & _)].
  2:{ apply (allow_fresh key p declared now st Hp) in E. destruct E as [_ E].
      rewrite E in Hr by lia. done. }
  destruct (windows st !! key) as [tr|] eqn:Ek.
  2:{ apply (allow_fresh key p declared now st Hp) in E. destruct E as [_ E].
      rewrite E in Hr by lia. done. }
  destruct (Hst _ eq_refl) as [Ha Hu].
  destruct (allow_tracked key p declared now st tr E) as [E1 [t E2]].
  rewrite Hr in E1. unfold Bucket_take in E1, E2.
  set (av := refilled (window tr) (limit_bytes p) (byte_window p) now) in *.
  assert (Hav : 0 <= av <= limit_bytes p) by (apply refilled_range; lia).
  case_decide; simpl in E1, E2; [|done]. injection E1 as ->.
  destruct (bucket_wait_eq p (declared - av) Hp ltac:(lia)) as [Hwait Hle].
  rewrite Hwait in *. set (w := (declared - av) * byte_window p / limit_bytes p) in *.
  assert (Hw0 : 0 <= w) by (apply Z.div_pos; nia). split; [lia|].
  set (st' := (allow key p declared now st).2) in *.
  destruct (maybe_sweep_lookup last_update (retain p) now' st' key) as [E'|(E' & _)].
  2:{ apply (allow_fresh key p declared now' st' Hp E'). lia. }
  rewrite E2 in E'. destruct (allow_tracked key p declared now' st' _ E') as [-> _].
  unfold Bucket_take. cbn [window]. rewrite refilled_eq by (simpl; lia). cbn [available last_update].
  assert (declared - av <= refill (limit_bytes p) (byte_window p) (since now' now)); [|rewrite decide_False by lia; done].
  rewrite since_eq by lia. etrans; [|apply (refill_mono _ _ Hl (w + 1)); lia].
  apply refill_enough; [lia..|]. rewrite Z.max_l by lia.
  pose proof (Z.mul_succ_div_gt ((declared - av) * byte_window p) (limit_bytes p)) as Hgt.
  fold w in Hgt. nia.
Qed.

(** Calls for one key and one size, each soon enough after the last that less
    than one byte comes back in between. *)
Fixpoint hammering (key : K) (p : BytePolicy) (declared last : Z) (evs : list (K * Z * Z)) : Prop :=
  match evs with
  | [] => True
  | (key', declared', now) :: evs' =>
      key' = key /\ declared' = declared /\ last <= now /\
      (now - last) * limit_bytes p < byte_window p /\ hammering key p declared now evs'
  end.

Lemma refill_nothing p e :
  policy_ok p -> 0 <= e -> e * limit_bytes p < byte_window p ->
  refill (limit_bytes p) (byte_window p) e = 0.
Proof.
  intros (Hl & Hw & _) He Hlt.
  pose proof (refill_range _ (byte_window p) Hl e He).
  pose proof (refill_rate _ (byte_window p) Hl ltac:(lia) e He). nia.
Qed.

(** Hammering does drain a partial refill: every call, refused or not,
    restarts the refill clock and keeps only whole bytes, so a caller that asks
    again before one byte has come back is refused for as long as it goes on,
    however long that is. *)
Theorem hammering_starves key p declared last evs (st : CounterState K BucketWindow) tr :
  policy_ok p -> windows st !! key = Some tr -> last_update (window tr) = last ->
  0 <= available (window tr) <= limit_bytes p -> available (window tr) < declared ->
  hammering key p declared last evs ->
  Forall (fun r => r <> Ok tt)
    (run_events (fun key declared now => allow key p declared now) st evs).1.
Proof.
  intros Hp. pose proof Hp as (Hl & Hw & Hr).
  revert last st tr. induction evs as [|[[key' d'] now] evs IH]; intros last st tr Hk Hu Ha Hlt Hh.
  { constructor. }
  destruct Hh as (-> & -> & Hle & Hsoon & Hh). rewrite run_events_cons.
  assert (E : windows (maybe_sweep last_update (retain p) now st) !! key = Some tr).
  { destruct (maybe_sweep_lookup last_update (retain p) now st key) as [->|(_ & tr' & Hk' & Hold)];
      [done|]. rewrite Hk in Hk'. injection Hk' as <-.
    rewrite Hu, since_eq in Hold by done. nia. }
  destruct (allow_tracked key p declared now st tr E) as [E1 [t E2]].
  unfold Bucket_take in E1, E2. rewrite refilled_eq, Hu, since_eq, refill_nothing in E1, E2
    by (done || lia).
  rewrite Z.add_0_r, Z.min_l in E1, E2 by lia.
  rewrite decide_True in E1, E2 by done. constructor; [by rewrite E1|].
  eapply (IH now); [exact E2|done|simpl; lia|simpl; lia|done].
Qed.

End ByteMeters.

(** The mutation limit says what can never be sent: with no limit every
    patch passes and nothing is recorded; with one, a patch longer than it is
    refused whatever the bucket holds and however long its sender has waited,
    so deferring it would never end, while one within it passes from a sender
    the meter does not know. *)
Theorem mutation_limit_exact (who : string) len now b :
  mutation_bytes_window (bt_config b) < u64_max ->
  0 < mutation_bytes_window (bt_config b) ->
  0 <= mutation_bytes_per_identity (bt_config b) <= u64_max ->
  (forall tr, windows (mutations b) !! who = Some tr -> 0 <= available (window tr)) ->
  match mutation_limit b with
  | None => allow_mutation_bytes who len now b = (Ok tt, b)
  | Some limit =>
      (limit < len -> exists d, (allow_mutation_bytes who len now b).1 = Err d) /\
      (len <= limit -> windows (mutations b) !! who = None ->
       (allow_mutation_bytes who len now b).1 = Ok tt)
  end.
Proof.
  intros Hw Hw0 Hl Hst. unfold mutation_limit, allow_mutation_bytes. case_decide; [done|].
  assert (Hp : policy_ok (mutation_policy (bt_config b)))
    by (apply mutation_policy_ok; unfold mutation_budget_ok; lia).
  pose proof Hp as (Hl' & _). set (p := mutation_policy (bt_config b)) in *.
  replace (mutation_bytes_per_identity (bt_config b)) with (limit_bytes p) by done.
  assert (Hpair : forall r : Result unit Z * CounterState string BucketWindow,
    (let '(ok, s) := r in (ok, {| bt_config := bt_config b; per_identity := per_identity b;
                                  mutations := s |})).1 = r.1) by by intros [].
  rewrite Hpair. pose proof (allow_fresh who p len now (mutations b) Hp) as Hf.
  split.
  - intros Hlen.
    destruct (maybe_sweep_lookup last_update (retain p) now (mutations b) who) as [E|(E & _)].
    + destruct (windows (mutations b) !! who) as [tr|] eqn:Ek.
      * destruct (allow_tracked who p len now (mutations b) tr E) as [-> _].
        pose proof (refilled_range _ (byte_window p) Hl' (window tr) now (Hst _ eq_refl)).
        unfold Bucket_take. rewrite decide_True by lia. by eexists.
      * destruct (allow who p len now (mutations b)).1 as [[]|d]; [|by exists d].
        specialize (Hf E). destruct Hf as [Hf _]. specialize (Hf eq_refl). lia.
    + destruct (allow who p len now (mutations b)).1 as [[]|d]; [|by exists d].
      specialize (Hf E). destruct Hf as [Hf _]. specialize (Hf eq_refl). lia.
  - intros Hlen Hnone. apply Hf; [|done].
    by destruct (maybe_sweep_lookup last_update (retain p) now (mutations b) who)
      as [->|(-> & _)].
Qed.

(** ** Applications at concrete histories *)

Definition two_a_minute : Limit := {| limit_max := 2; limit_window := MINUTE |}.

Definition ask_ops : list (CounterOp Z) :=
  [OpTake 1 two_a_minute 10; OpTake 2 two_a_minute 20; OpTake 1 two_a_minute 30].
Definition asked : CounterState Z Window := foldl (apply_op MINUTE 2) (new_state 0) ask_ops.

Lemma counters_consistent_witness : Z.of_nat (size (windows asked)) <= 2.
Proof.
  destruct (counters_consistent MINUTE 2 0 ask_ops) as [H _]; [vm_compute; discriminate|exact H].
Defined.

Lemma take_evicts_least_recent_witness :
  windows (take 3 two_a_minute MINUTE 2 40 asked).2 !! 2 = None /\ (1 < 2 \/ 2 = 0).
Proof.
  split; [vm_compute; reflexivity|].
  apply (take_evicts_least_recent two_a_minute MINUTE 2 40 asked 3
    2 {| window := opened 20; touched := 1 |}
    1 {| window := {| started := 10; count := 2 |}; touched := 2 |}).
  - apply apply_ops_ok; [apply new_state_ok|vm_compute; discriminate].
  - vm_compute. reflexivity.
  - vm_compute. reflexivity.
  - vm_compute. reflexivity.
  - discriminate.
Defined.

Definition two_callers : list (Z * Limit * Z) :=
  [(1, two_a_minute, 10); (2, two_a_minute, 20); (1, two_a_minute, 30); (1, two_a_minute, 40)].

Lemma take_isolated_witness :
  answers_of 1 two_callers
    (run_events (fun key limit now => take key limit MINUTE 2 now) (new_state 0) two_callers).1
  = [None; None; Some (MINUTE - 30)].
Proof.
  etrans; [apply (take_isolated MINUTE 2 0 1 two_callers)|].
  - simpl. lia.
  - repeat constructor; simpl; lia.
  - vm_compute. discriminate.
  - vm_compute. reflexivity.
Defined.

Definition subscriber : list (Z * Tier * Z) := [(1, Anonymous, 10); (2, Identified, 20); (1, Anonymous, 30)].

Lemma handle_rate_bounded_witness :
  admitted_in 1 0 MINUTE subscriber
    (run_events (signal_call Subscribing) (new_handle_throttle default_config 0) subscriber).1
  <= 60.
Proof.
  apply (handle_rate_bounded Subscribing default_config 0 0 1 Anonymous subscriber).
  - simpl. lia.
  - vm_compute. discriminate.
  - repeat constructor; simpl; congruence.
Defined.

Lemma take_wait_exact_witness :
  (take 1 two_a_minute MINUTE 2 (10 + MINUTE) (take 1 two_a_minute MINUTE 2 40 asked).2).1 = None.
Proof.
  destruct (take_wait_exact 1 two_a_minute MINUTE 2 40 asked (MINUTE - 30) (10 + MINUTE)) as [_ ->].
  - simpl. lia.
  - intros tr. vm_compute. intros [= <-]. discriminate.
  - vm_compute. reflexivity.
  - vm_compute. discriminate.
  - vm_compute. reflexivity.
Defined.

Lemma refresh_gate_exact_witness :
  refresh_blocked 1 (Some "ann") 5 (new_auth_throttle (SessionId := Z) default_config 0) = None.
Proof.
  destruct (refresh_gate_exact 1 (Some "ann") 5 (new_auth_throttle (SessionId := Z) default_config 0))
    as [-> _]; vm_compute; reflexivity.
Defined.

Lemma default_budget_ok : mutation_budget_ok default_config.
Proof. unfold mutation_budget_ok. vm_compute. repeat split; discriminate. Qed.

Definition sender : list (string * Z * Z) := [("ann", 64 * MIB, 10); ("bob", 5, 20); ("ann", 1, 30)].

Lemma mutation_bytes_bounded_witness :
  granted_in "ann" 0 30 sender (run_events allow_mutation_bytes (new_byte_throttle default_config 0) sender).1
    * MINUTE <= 64 * MIB * MINUTE + 64 * MIB * 30.
Proof.
  apply (mutation_bytes_bounded default_config 0 0 30 "ann" sender).
  - apply default_budget_ok.
  - lia.
  - simpl. lia.
  - repeat constructor; vm_compute; discriminate.
  - vm_compute. discriminate.
Defined.

(** Three bytes in ten nanoseconds. *)
Definition tiny : BytePolicy := {| limit_bytes := 3; byte_window := 10; retain := 10; cap := 4 |}.
Definition spent : CounterState Z BucketWindow := (allow 1 tiny 3 0 (new_state 0)).2.

Lemma tiny_ok : policy_ok tiny.
Proof. unfold policy_ok, u64_max. simpl. lia. Qed.

Lemma allow_wait_sufficient_witness : (allow 1 tiny 2 7 (allow 1 tiny 2 0 spent).2).1 = Ok tt.
Proof.
  destruct (allow_wait_sufficient 1 tiny 2 0 spent 6 7) as [_ H].
  - apply tiny_ok.
  - simpl. lia.
  - intros tr. vm_compute. intros [= <-]. repeat split; discriminate.
  - vm_compute. reflexivity.
  - lia.
  - exact H.
Defined.

Lemma hammering_starves_witness :
  Forall (fun r => r <> Ok tt)
    (run_events (fun key declared now => allow key tiny declared now) spent
       ((fun i => (1, 1, 3 * Z.of_nat i)) <$> seq 1 20)).1.
Proof.
  apply (hammering_starves 1 tiny 1 0 _ spent {| window := {| last_update := 0; available := 0 |}; touched := 0 |}).
  - apply tiny_ok.
  - vm_compute. reflexivity.
  - reflexivity.
  - simpl. lia.
  - simpl. lia.
  - simpl. repeat split; lia.
Defined.

Lemma mutation_limit_exact_witness :
  exists d, (allow_mutation_bytes "ann" (64 * MIB + 1) 5 (new_byte_throttle default_config 0)).1 = Err d.
Proof.
  pose proof (mutation_limit_exact "ann" (64 * MIB + 1) 5 (new_byte_throttle default_config 0)) as H.
  destruct H as [H _].
  - vm_compute. reflexivity.
  - vm_compute. reflexivity.
  - vm_compute. split; discriminate.
  - intros tr. vm_compute. discriminate.
  - apply H. vm_compute. reflexivity.
Defined.
