(* ===== verification/Frames.v ===== *)
(** Frames on byte streams and on message transports: the length-prefixed codec
    (connetto-core/src/codec.rs), the tagged frames of a WebSocket
    (connetto-core/src/transport.rs), the peer link's frames and their reader
    (connetto-peer/src/frame.rs) and the chunk stream under the Bluetooth
    exchange (connetto-peer/src/exchange.rs). MessagePack is a parameter, class
    [MsgPack], of which the round trip is assumed. *)

From stdpp Require Import base list numbers option strings.
From S2P Require Import Prelude.
Open Scope Z_scope.

(** [rmp_serde::to_vec_named] and [rmp_serde::from_slice] at one type; [None] is
    their error. *)
Class MsgPack (A : Type) := {
  to_vec_named : A -> option bytes;
  from_slice : bytes -> option A;
}.
Class MsgPackLaws (A : Type) {P : MsgPack A} := {
  from_to_vec : forall (a : A) b, to_vec_named a = Some b -> from_slice b = Some a;
}.

(** The length of a byte string, as the [usize] the code compares. *)
Definition blen (b : bytes) : Z := Z.of_nat (length b).

(** A [u32] length header ahead of its payload. *)
Definition with_header (payload : bytes) : bytes := be_bytes 4 (blen payload) ++ payload.

Lemma blen_app a b : blen (a ++ b) = blen a + blen b.
Proof. unfold blen. rewrite length_app. lia. Qed.
Lemma blen_nonneg b : 0 <= blen b.
Proof. unfold blen. lia. Qed.
Lemma blen_header z : blen (be_bytes 4 z) = 4.
Proof. unfold blen. by rewrite length_be_bytes. Qed.
Lemma blen_with_header p : blen (with_header p) = 4 + blen p.
Proof. unfold with_header. by rewrite blen_app, blen_header. Qed.

Lemma take_header p rest : take 4 (with_header p ++ rest) = be_bytes 4 (blen p).
Proof.
  unfold with_header. rewrite <- app_assoc, take_app_le by (rewrite length_be_bytes; lia).
  apply take_ge. rewrite length_be_bytes. lia.
Qed.
Lemma drop_header p rest : drop 4 (with_header p ++ rest) = p ++ rest.
Proof.
  unfold with_header. rewrite <- app_assoc, drop_app_ge by (rewrite length_be_bytes; lia).
  by rewrite length_be_bytes.
Qed.

(** ** codec.rs: length-prefixed framing *)

Module Codec.

Definition DEFAULT_MAX_FRAME_LEN : Z := 64 * 1024 * 1024.
Definition FRAME_HEADER_LEN : Z := 4.
Definition TAG_CONTROL : Z := 0.
Definition TAG_BULK : Z := 1.

Inductive CodecError :=
| Encode
| Decode
| FrameTooLarge (header_len limit : Z)
| FrameTruncated (expected got : Z)
| FrameHeaderTruncated (got : Z).

#[global] Instance CodecError_eq_dec : EqDecision CodecError.
Proof. solve_decision. Defined.

(** [encode_control] and [encode_bulk], [decode_control] and [decode_bulk]: one
    body at two types. *)
Definition encode_payload {A} {P : MsgPack A} (message : A) : Result bytes CodecError :=
  ok_or (to_vec_named message) Encode.
Definition decode_payload {A} {P : MsgPack A} (payload : bytes) : Result A CodecError :=
  ok_or (from_slice payload) Decode.

(** [None] is the panic of [expect] on a payload past [u32::MAX]. *)
Definition prepend_length (payload : bytes) : option bytes :=
  if decide (blen payload <= u32_max) then Some (with_header payload) else None.

Definition encode_framed {A} {P : MsgPack A} (message : A) : option (Result bytes CodecError) :=
  match encode_payload message with
  | Ok payload => Ok <$> prepend_length payload
  | Err e => Some (Err e)
  end.

Definition split_framed (buffer : bytes) (limit : Z) : Result (bytes * Z) CodecError :=
  if decide (blen buffer < FRAME_HEADER_LEN) then Err (FrameHeaderTruncated (blen buffer))
  else
    let header_len := from_be (take 4 buffer) in
    if decide (header_len > limit) then Err (FrameTooLarge header_len limit)
    else
      let end_ := FRAME_HEADER_LEN + header_len in
      if decide (blen buffer < end_) then
        Err (FrameTruncated header_len (blen buffer - FRAME_HEADER_LEN))
      else Ok (take (Z.to_nat header_len) (drop 4 buffer), end_).

Definition decode_framed_with_limit {A} {P : MsgPack A} (buffer : bytes) (limit : Z) :
    Result (A * Z) CodecError :=
  '(payload, consumed) <-? split_framed buffer limit ;;
  message <-? decode_payload payload ;;
  Ok (message, consumed).

Definition decode_framed {A} {P : MsgPack A} (buffer : bytes) : Result (A * Z) CodecError :=
  decode_framed_with_limit buffer DEFAULT_MAX_FRAME_LEN.

Lemma prepend_length_Some p b :
  prepend_length p = Some b <-> b = with_header p /\ blen p <= u32_max.
Proof. unfold prepend_length. case_decide; naive_solver. Qed.

Lemma encode_framed_Ok {A} {P : MsgPack A} (m : A) b :
  encode_framed m = Some (Ok b) <->
  exists p, to_vec_named m = Some p /\ b = with_header p /\ blen p <= u32_max.
Proof.
  unfold encode_framed, encode_payload. destruct (to_vec_named m) as [p|] eqn:E; simpl.
  - rewrite fmap_Some. setoid_rewrite prepend_length_Some. naive_solver.
  - naive_solver.
Qed.

(** What [split_framed] reads of a whole frame, wherever it ends. *)
Lemma split_framed_prefix p rest n limit :
  blen p <= u32_max ->
  split_framed (take n (with_header p ++ rest)) limit =
    let got := Z.of_nat (Nat.min n (length (with_header p ++ rest))) in
    if decide (got < 4) then Err (FrameHeaderTruncated got)
    else if decide (blen p > limit) then Err (FrameTooLarge (blen p) limit)
    else if decide (got < 4 + blen p) then Err (FrameTruncated (blen p) (got - 4))
    else Ok (p, 4 + blen p).
Proof.
  intros Hp. unfold split_framed, FRAME_HEADER_LEN.
  assert (Hlen : blen (take n (with_header p ++ rest)) =
    Z.of_nat (Nat.min n (length (with_header p ++ rest)))) by (unfold blen; by rewrite length_take).
  rewrite Hlen. cbv zeta. set (got := Z.of_nat _) in *.
  case_decide; [done|].
  assert (Hn : (4 <= n)%nat) by lia.
  rewrite take_take, Nat.min_l by done. rewrite take_header, from_be4
    by (split; [apply blen_nonneg | exact Hp]).
  case_decide; [done|]. case_decide as Hg; [done|]. f_equal. f_equal.
  rewrite skipn_firstn_comm, drop_header, take_take.
  pose proof (blen_nonneg p).
  rewrite Nat.min_l by (unfold got, blen in *; lia).
  unfold blen. rewrite Nat2Z.id. apply take_app_length.
Qed.

End Codec.

(** A framed message decodes back with its exact length whatever follows it in
    the buffer, and a buffer that stops short is always an error that says how
    much was there: fewer than four bytes a truncated header, fewer than the
    header announces a truncated payload. A payload past the limit is refused
    from its header alone. *)
Theorem framed_roundtrip {A} {P : MsgPack A} {L : MsgPackLaws A} (m : A) framed rest limit :
  Codec.encode_framed m = Some (Ok framed) ->
  (blen framed <= 4 + limit ->
     Codec.decode_framed_with_limit (framed ++ rest) limit = Ok (m, blen framed)) /\
  (forall n, (n < length framed)%nat ->
     Codec.decode_framed_with_limit (A := A) (take n framed) limit =
     Err (if decide (n < 4)%nat then Codec.FrameHeaderTruncated (Z.of_nat n)
          else if decide (blen framed > 4 + limit) then
            Codec.FrameTooLarge (blen framed - 4) limit
          else Codec.FrameTruncated (blen framed - 4) (Z.of_nat n - 4))).
Proof.
  intros (p & Hp & -> & Hb)%Codec.encode_framed_Ok. rewrite blen_with_header.
  unfold Codec.decode_framed_with_limit. split.
  - intros Hl. rewrite <- (take_ge (with_header p ++ rest) (length (with_header p ++ rest))) by done.
    rewrite Codec.split_framed_prefix by done. cbv zeta. rewrite Nat.min_id.
    pose proof (blen_nonneg p). pose proof (blen_nonneg rest).
    change (Z.of_nat (length (with_header p ++ rest))) with (blen (with_header p ++ rest)).
    rewrite blen_app, blen_with_header. repeat (case_decide; [lia|]). simpl.
    unfold Codec.decode_payload. by rewrite (from_to_vec _ _ Hp).
  - intros n Hn. rewrite <- (app_nil_r (with_header p)) in Hn |- *.
    rewrite Codec.split_framed_prefix by done. cbv zeta. rewrite Nat.min_l by lia.
    rewrite app_nil_r in Hn. pose proof (blen_with_header p) as Hw. unfold blen in Hw at 1.
    repeat case_decide; try lia; simpl; do 2 f_equal; lia.
Qed.

(** ** transport.rs: one tag byte ahead of each WebSocket message *)

Module WebSocket.
Section WithMessages.
Context {Control Bulk : Type} {PC : MsgPack Control} {PB : MsgPack Bulk}.

Inductive IncomingFrame :=
| InControl (m : Control)
| InBulk (m : Bulk).

(** A message of the socket as [recv] distinguishes them. *)
Inductive WsMessage :=
| Binary (b : bytes)
| WsClose
| WsOther.

Inductive WebSocketError :=
| WsCodec (e : Codec.CodecError)
| EmptyFrame
| UnknownTag (tag : Z)
| WsFailed.

Definition send_control (message : Control) : Result WsMessage WebSocketError :=
  payload <-? map_err WsCodec (Codec.encode_payload message) ;;
  Ok (Binary (Codec.TAG_CONTROL :: payload)).

Definition send_bulk (message : Bulk) : Result WsMessage WebSocketError :=
  payload <-? map_err WsCodec (Codec.encode_payload message) ;;
  Ok (Binary (Codec.TAG_BULK :: payload)).

Definition recv_binary (buf : bytes) : Result (option IncomingFrame) WebSocketError :=
  match buf with
  | [] => Err EmptyFrame
  | tag :: payload =>
      if decide (tag = Codec.TAG_CONTROL) then
        m <-? map_err WsCodec (Codec.decode_payload payload) ;; Ok (Some (InControl m))
      else if decide (tag = Codec.TAG_BULK) then
        m <-? map_err WsCodec (Codec.decode_payload payload) ;; Ok (Some (InBulk m))
      else Err (UnknownTag tag)
  end.

(** What is left of the socket, [None] for a failed read; its end is [[]]. *)
Fixpoint recv (stream : list (option WsMessage)) :
    Result (option IncomingFrame) WebSocketError * list (option WsMessage) :=
  match stream with
  | [] => (Ok None, [])
  | Some (Binary buf) :: rest => (recv_binary buf, rest)
  | Some WsClose :: rest => (Ok None, rest)
  | Some WsOther :: rest => recv rest
  | None :: rest => (Err WsFailed, rest)
  end.

Definition send (f : IncomingFrame) : Result WsMessage WebSocketError :=
  match f with InControl m => send_control m | InBulk m => send_bulk m end.

(** As many [recv] as there are frames to come, and one more. *)
Fixpoint recv_all (fuel : nat) (stream : list (option WsMessage)) :
    list IncomingFrame * option (Result (option IncomingFrame) WebSocketError) :=
  match fuel with
  | O => ([], None)
  | S fuel' =>
      match recv stream with
      | (Ok (Some f), rest) => let '(fs, r) := recv_all fuel' rest in (f :: fs, r)
      | (r, _) => ([], Some r)
      end
  end.

Lemma recv_other l rest : Forall (.= Some WsOther) l -> recv (l ++ rest) = recv rest.
Proof. by induction 1 as [|x l -> _ IH]. Qed.

Context {LC : MsgPackLaws Control} {LB : MsgPackLaws Bulk}.

Lemma recv_send f msg rest : send f = Ok msg -> recv (Some msg :: rest) = (Ok (Some f), rest).
Proof.
  destruct f as [m|m]; simpl; unfold send_control, send_bulk, Codec.encode_payload;
    (destruct (to_vec_named m) as [p|] eqn:E; simpl; [|done]); intros [= <-]; simpl;
    unfold Codec.decode_payload; by rewrite (from_to_vec _ _ E).
Qed.
End WithMessages.
Arguments IncomingFrame : clear implicits.
End WebSocket.

Section WebSocketStream.
Context {Control Bulk : Type} {PC : MsgPack Control} {PB : MsgPack Bulk}.
Context {LC : MsgPackLaws Control} {LB : MsgPackLaws Bulk}.
Import WebSocket.

(** The socket carries the frames [fs] when its messages are theirs in order,
    with any number of pings, pongs and texts in between, then a close. *)
Inductive carries : list (IncomingFrame Control Bulk) -> list (option WsMessage) -> Prop :=
| carries_end rest : carries [] (Some WsClose :: rest)
| carries_cut : carries [] []
| carries_other fs stream : carries fs stream -> carries fs (Some WsOther :: stream)
| carries_frame f msg fs stream :
    send f = Ok msg -> carries fs stream -> carries (f :: fs) (Some msg :: stream).

(** What one end of a WebSocket sends the other receives, in order, each
    frame on the plane it was sent on, whatever pings, pongs and texts come in
    between; and the close or the end of the socket ends the frames cleanly. *)
Theorem websocket_delivers fs stream :
  carries fs stream -> recv_all (S (length fs)) stream = (fs, Some (Ok None)).
Proof.
  induction 1 as [rest| |fs stream _ IH|f msg fs stream Hs _ IH]; [done|done|exact IH|].
  cbn [length recv_all]. rewrite (recv_send _ _ _ Hs). cbn [length recv_all] in IH.
  by rewrite IH.
Qed.
End WebSocketStream.

(** ** error.rs and frame.rs: the peer link's frames *)

Module Peer.

Definition MAX_FRAME_LEN : Z := 4 * 1024 * 1024.
Definition PROTOCOL_VERSION : Z := 1.

Inductive CloseReason :=
| Closed | Protocol | PeerLost | Duplicate | PeerRevoked | PeerExpired
| UnsupportedVersion | CertificateExpired | ClockOutsideWindow | Withdrawn | Revoked.

#[global] Instance CloseReason_eq_dec : EqDecision CloseReason.
Proof. solve_decision. Defined.

Inductive PeerFrame :=
| Hello (version dial : Z) (numbers : list (bytes * Z))
| List_ (list signer : bytes)
| Close (reason : CloseReason)
| Certificate (leaf issuer : bytes)
| Offer (ssid passphrase : bytes) (security : Z) (port : option Z)
| Ping
| Pong.

#[global] Instance PeerFrame_eq_dec : EqDecision PeerFrame.
Proof. solve_decision. Defined.

(** The I/O errors the code tells apart. *)
Inductive IoError := UnexpectedEof | TimedOut | OtherIo.

Inductive FrameError := Io (e : IoError) | TooLong | Malformed.

Section Reader.
Context {P : MsgPack PeerFrame}.

Definition write_frame (frame : PeerFrame) : Result bytes FrameError :=
  body <-? ok_or (to_vec_named frame) Malformed ;;
  if decide (blen body > MAX_FRAME_LEN) then Err TooLong else Ok (with_header body).

(** What is left of a stream of bytes: how it goes on past them is [e], [None] for
    its end. *)
Definition Source : Type := bytes * option IoError.

Definition read_exact (n : nat) (rd : Source) : Result bytes IoError * Source :=
  if decide (n <= length rd.1)%nat then (Ok (take n rd.1), (drop n rd.1, rd.2))
  else (Err (default UnexpectedEof rd.2), ([], rd.2)).

Definition read_frame (rd : Source) : Result (option PeerFrame) FrameError * Source :=
  match read_exact 4 rd with
  | (Err UnexpectedEof, rd) => (Ok None, rd)
  | (Err e, rd) => (Err (Io e), rd)
  | (Ok len, rd) =>
      let len := from_be len in
      if decide (len > MAX_FRAME_LEN) then (Err TooLong, rd)
      else
        match read_exact (Z.to_nat len) rd with
        | (Err e, rd) => (Err (Io e), rd)
        | (Ok body, rd) => (f <-? ok_or (from_slice body) Malformed ;; Ok (Some f), rd)
        end
  end.

(** [FrameReader]: its pending bytes. [decode] leaves them in place until they
    hold a whole frame. *)
Definition decode (pending : bytes) : Result (option PeerFrame) FrameError * bytes :=
  if decide (blen pending < 4) then (Ok None, pending)
  else
    let len := from_be (take 4 pending) in
    if decide (len > MAX_FRAME_LEN) then (Err TooLong, pending)
    else
      let end_ := (4 + Z.to_nat len)%nat in
      if decide (length pending < end_)%nat then (Ok None, pending)
      else
        (f <-? ok_or (from_slice (take (Z.to_nat len) (drop 4 pending))) Malformed ;; Ok (Some f),
         drop end_ pending).

(** The reads a stream answers, each the bytes of one [read] or its failure. A
    read of nothing, and the end of the list, is the stream's end. *)
Inductive Read := Data (chunk : bytes) | ReadFailed (e : IoError).

Inductive NextOutcome :=
| Returned (r : Result (option PeerFrame) FrameError)
| Dropped.

(** [FrameReader::next]. The future may be dropped while it waits: [reads] is how
    many of its reads complete first. *)
Fixpoint next (reads : nat) (pending : bytes) (rd : list Read) {struct rd} :
    NextOutcome * (bytes * list Read) :=
  match decode pending with
  | (Ok None, pending) =>
      match reads, rd with
      | O, _ => (Dropped, (pending, rd))
      | S _, [] =>
          (Returned (if decide (pending = []) then Ok None else Err (Io UnexpectedEof)),
           (pending, []))
      | S _, Data [] :: rd' =>
          (Returned (if decide (pending = []) then Ok None else Err (Io UnexpectedEof)),
           (pending, rd'))
      | S reads', Data chunk :: rd' => next reads' (pending ++ chunk) rd'
      | S _, ReadFailed e :: rd' => (Returned (Err (Io e)), (pending, rd'))
      end
  | (r, pending) => (Returned r, (pending, rd))
  end.

(** A call that is not dropped, and calls one after the other. *)
Definition next_whole (st : bytes * list Read) : NextOutcome * (bytes * list Read) :=
  next (S (length st.2)) st.1 st.2.

Fixpoint read_all (fuel : nat) (st : bytes * list Read) :
    list PeerFrame * option (Result (option PeerFrame) FrameError) :=
  match fuel with
  | O => ([], None)
  | S fuel' =>
      match next_whole st with
      | (Returned (Ok (Some f)), st') => let '(fs, r) := read_all fuel' st' in (f :: fs, r)
      | (Returned r, _) => ([], Some r)
      | (Dropped, _) => ([], None)
      end
  end.

Fixpoint next_calls (calls : list nat) (st : bytes * list Read) :
    list NextOutcome * (bytes * list Read) :=
  match calls with
  | [] => ([], st)
  | n :: calls' =>
      let '(o, st1) := next n st.1 st.2 in
      let '(os, st2) := next_calls calls' st1 in (o :: os, st2)
  end.

Fixpoint write_frames (fs : list PeerFrame) : Result bytes FrameError :=
  match fs with
  | [] => Ok []
  | f :: fs' => b <-? write_frame f ;; bs <-? write_frames fs' ;; Ok (b ++ bs)
  end.

Lemma write_frame_Ok f b :
  write_frame f = Ok b ->
  exists body, to_vec_named f = Some body /\ b = with_header body /\ blen body <= MAX_FRAME_LEN.
Proof.
  unfold write_frame. rewrite rbind_Ok. setoid_rewrite ok_or_Ok. intros (body & Hb & H).
  case_decide; [done|]. injection H as <-. exists body. repeat split; [done|lia].
Qed.

(** A frame's header as the reader compares it. *)
Lemma header_value body rest :
  blen body <= MAX_FRAME_LEN -> from_be (take 4 (with_header body ++ rest)) = blen body.
Proof.
  intros Hb. rewrite take_header. apply from_be4. split; [apply blen_nonneg|].
  unfold MAX_FRAME_LEN, u32_max in *. lia.
Qed.

Lemma take_drop_body body rest :
  take (Z.to_nat (blen body)) (drop 4 (with_header body ++ rest)) = body /\
  drop (4 + Z.to_nat (blen body)) (with_header body ++ rest) = rest.
Proof.
  rewrite <- drop_drop, drop_header. unfold blen. rewrite Nat2Z.id.
  split; [apply take_app_length | apply drop_app_length].
Qed.

Lemma decode_prefix body n rest :
  blen body <= MAX_FRAME_LEN -> (n < length (with_header body))%nat ->
  decode (take n (with_header body ++ rest)) = (Ok None, take n (with_header body ++ rest)).
Proof.
  intros Hb Hn. pose proof (blen_with_header body) as Hw. unfold blen in Hw at 1.
  assert (Hl : length (take n (with_header body ++ rest)) = n).
  { rewrite length_take, length_app. lia. }
  unfold decode. case_decide as H4; [done|]. unfold blen in H4. rewrite Hl in H4.
  rewrite take_take, Nat.min_l by lia. rewrite header_value by done.
  case_decide; [lia|]. case_decide; [done|]. unfold blen in *. lia.
Qed.

Context {L : MsgPackLaws PeerFrame}.

Lemma decode_frame f b rest :
  write_frame f = Ok b -> decode (b ++ rest) = (Ok (Some f), rest).
Proof.
  intros (body & Hf & -> & Hb)%write_frame_Ok. unfold decode.
  pose proof (blen_nonneg body). pose proof (blen_nonneg rest).
  pose proof (blen_with_header body) as Hw. unfold blen in Hw at 1.
  case_decide as H4; [rewrite blen_app, blen_with_header in H4; lia|].
  rewrite header_value by done. case_decide; [lia|].
  case_decide as Hl; [rewrite length_app in Hl; unfold blen in *; lia|].
  destruct (take_drop_body body rest) as [-> ->]. by rewrite (from_to_vec _ _ Hf).
Qed.

Definition nonempty_bytes (c : bytes) : Prop := c <> [].
Definition data (chunks : list bytes) : list Read := Data <$> chunks.

Lemma split_at_prefix {A} (p c b rest : list A) :
  p ++ c = b ++ rest -> (length p < length b)%nat -> p = take (length p) (b ++ rest).
Proof. intros <- Hl. by rewrite take_app_length. Qed.

(** One call on a stream that still carries a frame: it returns that frame or was
    dropped, and the bytes left are those after it. *)
Lemma next_frame f b rest reads pending chunks :
  write_frame f = Ok b -> Forall nonempty_bytes chunks ->
  pending ++ concat chunks = b ++ rest ->
  exists pending' chunks',
    Forall nonempty_bytes chunks' /\ (length chunks' <= length chunks)%nat /\
    let st := (pending', data chunks') in
    (next reads pending (data chunks) = (Returned (Ok (Some f)), st) /\
       pending' ++ concat chunks' = rest) \/
    ((reads <= length chunks)%nat /\ next reads pending (data chunks) = (Dropped, st) /\
       pending' ++ concat chunks' = b ++ rest).
Proof.
  intros Hf. revert reads pending. induction chunks as [|c chunks IH]; intros reads pending Hne Heq.
  - simpl in Heq. rewrite app_nil_r in Heq. subst pending. exists rest, [].
    split; [done|]. split; [done|]. left. simpl.
    rewrite (decode_frame _ _ _ Hf). by rewrite app_nil_r.
  - destruct (decide (length pending < length b)%nat) as [Hlt|Hge].
    + pose proof (split_at_prefix _ _ _ _ Heq Hlt) as Hp.
      assert (Hd : decode pending = (Ok None, pending)).
      { destruct (write_frame_Ok _ _ Hf) as (body & _ & -> & Hb).
        rewrite Hp. by apply decode_prefix. }
      simpl. rewrite Hd. inversion Hne as [|? ? Hc Hne']; subst. destruct reads as [|reads].
      { exists pending, (c :: chunks). split; [done|]. split; [done|].
        right. split; [lia|]. split; [done|exact Heq]. }
      destruct c as [|x c]; [done|].
      destruct (IH reads (pending ++ x :: c) Hne') as (p' & ch' & H1 & H2 & H3).
      { by rewrite <- app_assoc. }
      exists p', ch'. split; [done|]. split; [simpl; lia|].
      destruct H3 as [H3|(H3 & H4)]; [by left|right; split; [simpl; lia|done]].
    + assert (Hsp : b = take (length b) pending /\ rest = drop (length b) pending ++ concat (c :: chunks)).
      { assert (He : take (length b) (pending ++ concat (c :: chunks)) = take (length b) (b ++ rest) /\
          drop (length b) (pending ++ concat (c :: chunks)) = drop (length b) (b ++ rest))
          by (by rewrite Heq).
        rewrite take_app_le, drop_app_le, take_app_length, drop_app_length in He by lia.
        destruct He as [He1 He2]. by split. }
      destruct Hsp as [Hb Hrest].
      exists (drop (length b) pending), (c :: chunks). split; [done|]. split; [done|]. left.
      split; [|by rewrite <- Hrest]. rewrite <- (take_drop (length b) pending) at 1.
      rewrite <- Hb. simpl. by rewrite (decode_frame _ _ _ Hf).
Qed.

(** The reader [st] still owes the frames [fs]. *)
Definition owes (st : bytes * list Read) (fs : list PeerFrame) : Prop :=
  exists chunks bs, st.2 = data chunks /\ Forall nonempty_bytes chunks /\
    write_frames fs = Ok bs /\ st.1 ++ concat chunks = bs.

(** What a call does to what the reader owes. *)
Definition call_ok (may_drop : Prop) (fs : list PeerFrame) (o : NextOutcome)
    (st : bytes * list Read) : Prop :=
  match o with
  | Dropped => may_drop /\ owes st fs
  | Returned (Ok (Some f)) => exists fs', fs = f :: fs' /\ owes st fs'
  | Returned (Ok None) => fs = [] /\ owes st []
  | Returned (Err _) => False
  end.

Lemma concat_nonempty chunks : Forall nonempty_bytes chunks -> concat chunks = [] -> chunks = [].
Proof. intros [|c l Hc _]; [done|]. by intros [? _]%app_eq_nil. Qed.

Lemma next_owes st fs n :
  owes st fs ->
  call_ok (n <= length st.2)%nat fs (next n st.1 st.2).1 (next n st.1 st.2).2.
Proof.
  destruct st as [pending rd]. intros (chunks & bs & Hr & Hne & Hw & Heq). simpl in *. subst rd.
  destruct fs as [|f fs]; simpl in Hw.
  - injection Hw as <-. apply app_eq_nil in Heq as [-> Hc].
    apply concat_nonempty in Hc as ->; [|done]. simpl. destruct n as [|n]; simpl.
    + split; [lia|]. by exists [], [].
    + split; [done|]. by exists [], [].
  - apply rbind_Ok in Hw as (b & Hb & Hw). apply rbind_Ok in Hw as (bs' & Hbs & [= <-]).
    destruct (next_frame f b bs' n pending chunks Hb Hne Heq)
      as (p' & ch' & Hne' & _ & [[-> H]|(Hn & -> & H)]); simpl.
    + exists fs. split; [done|]. by exists ch', bs'.
    + unfold data. rewrite length_fmap. split; [done|]. exists ch', (b ++ bs').
      repeat split; try done. simpl. by rewrite Hb, Hbs.
Qed.

Lemma next_whole_owes st fs : owes st fs -> call_ok False fs (next_whole st).1 (next_whole st).2.
Proof.
  intros H. pose proof (next_owes st fs (S (length st.2)) H) as Hn. unfold next_whole.
  destruct (next (S (length st.2)) st.1 st.2) as [[r|] st']; [exact Hn|]. simpl in *. lia.
Qed.

Lemma read_all_S n st :
  read_all (S n) st =
  match next_whole st with
  | (Returned (Ok (Some f)), st') => let '(fs, r) := read_all n st' in (f :: fs, r)
  | (Returned r, _) => ([], Some r)
  | (Dropped, _) => ([], None)
  end.
Proof. done. Qed.

Lemma read_all_owes fs st : owes st fs -> read_all (S (length fs)) st = (fs, Some (Ok None)).
Proof.
  revert st. induction fs as [|f fs IH]; intros st H;
    pose proof (next_whole_owes _ _ H) as Hn; rewrite read_all_S;
    destruct (next_whole st) as [[[[g|]|e]|] st']; simpl in Hn; try naive_solver.
  destruct Hn as (fs' & [= <- <-] & Ho). cbn [length]. by rewrite IH.
Qed.

Definition delivered (os : list NextOutcome) : list PeerFrame :=
  omap (fun o => match o with Returned (Ok (Some f)) => Some f | _ => None end) os.

(** An outcome the calls may show while the frames of [fs] from [k] on are to come. *)
Definition clean (rest : list PeerFrame) (o : NextOutcome) : Prop :=
  match o with
  | Dropped | Returned (Ok (Some _)) => True
  | Returned (Ok None) => rest = []
  | Returned (Err _) => False
  end.

Lemma next_calls_owes calls fs st :
  owes st fs ->
  exists rest, let '(os, st') := next_calls calls st in
    delivered os ++ rest = fs /\ Forall (clean rest) os /\ owes st' rest.
Proof.
  revert fs st. induction calls as [|n calls IH]; intros fs st H; [by exists fs|].
  simpl. pose proof (next_owes st fs n H) as Hn.
  destruct (next n st.1 st.2) as [o st1] eqn:E; simpl in Hn.
  assert (Hcase : exists fs1, owes st1 fs1 /\ delivered [o] ++ fs1 = fs /\
     match o with Returned (Ok None) => fs1 = [] | Returned (Err _) => False | _ => True end).
  { destruct o as [[[f|]|e]|]; simpl in Hn; [|destruct Hn as [-> Hn]|done|destruct Hn as [_ Hn]].
    - destruct Hn as (fs' & -> & Ho). exists fs'. simpl. eauto.
    - exists []. simpl. eauto.
    - exists fs. simpl. eauto. }
  destruct Hcase as (fs1 & Ho & Hd & Hc). destruct (IH fs1 st1 Ho) as (rest & Hr).
  destruct (next_calls calls st1) as [os st2]. destruct Hr as (Hr & Hcl & Ho').
  exists rest. repeat split; [| |done].
  - rewrite <- Hd, <- Hr. change (o :: os) with ([o] ++ os). unfold delivered.
    by rewrite omap_app, app_assoc.
  - constructor; [|done]. destruct o as [[[f|]|e]|]; simpl in *; try done.
    rewrite Hc in Hr. by apply app_eq_nil in Hr as [_ ->].
Qed.
End Reader.
End Peer.

(** C38. The peer link loses no frame to how the network cuts the bytes or to
    reads given up half way. Whatever chunks the bytes of the frames arrive in,
    and however many calls of [next] are dropped after however many reads, the
    calls return the written frames in order with no error and report the end
    only after the last; and undropped calls then return all the others and a
    clean end. *)
Theorem reader_refines_stream {P : MsgPack Peer.PeerFrame} {L : MsgPackLaws Peer.PeerFrame}
    fs bs chunks calls :
  Peer.write_frames fs = Ok bs -> concat chunks = bs -> Forall Peer.nonempty_bytes chunks ->
  exists rest, let '(os, st) := Peer.next_calls calls ([], Peer.data chunks) in
    Peer.delivered os ++ rest = fs /\ Forall (Peer.clean rest) os /\
    Peer.read_all (S (length rest)) st = (rest, Some (Ok None)).
Proof.
  intros Hw Hc Hne. destruct (Peer.next_calls_owes calls fs ([], Peer.data chunks)) as (rest & H).
  { by exists chunks, bs. }
  exists rest. destruct (Peer.next_calls calls _) as [os st]. destruct H as (H1 & H2 & H3).
  repeat split; [done|done|]. by apply Peer.read_all_owes.
Qed.

(** The reader of a single frame, [read_frame], on a stream of whole frames: it
    returns the first and leaves the rest. *)
Lemma read_frame_roundtrip {P : MsgPack Peer.PeerFrame} {L : MsgPackLaws Peer.PeerFrame}
    f b rest e :
  Peer.write_frame f = Ok b -> Peer.read_frame (b ++ rest, e) = (Ok (Some f), (rest, e)).
Proof.
  intros (body & Hf & -> & Hb)%Peer.write_frame_Ok. unfold Peer.read_frame, Peer.read_exact. simpl.
  pose proof (blen_with_header body) as Hw. unfold blen in Hw at 1.
  rewrite decide_True by (rewrite length_app; unfold blen in Hw; lia).
  rewrite Peer.header_value by done. case_decide; [lia|].
  simpl. rewrite drop_header. unfold blen. rewrite Nat2Z.id.
  rewrite decide_True by (rewrite length_app; lia).
  rewrite take_app_length, drop_app_length. by rewrite (from_to_vec _ _ Hf).
Qed.

(** A stream cut inside the length header reads as a clean end, where the
    [FrameReader] reports [UnexpectedEof]. *)
Lemma read_frame_cut_header {P : MsgPack Peer.PeerFrame} b :
  (0 < length b < 4)%nat ->
  (Peer.read_frame (b, None)).1 = Ok None /\
  (Peer.next_whole (b, [])).1 = Peer.Returned (Err (Peer.Io Peer.UnexpectedEof)).
Proof.
  intros Hb. destruct b as [|x [|y [|z [|w b]]]]; simpl in Hb; try lia; done.
Qed.

(** ** exchange.rs: the byte stream over bounded chunks *)

Module Chunks.

(** [slice::chunks], on fuel the slice's length covers. *)
Fixpoint chunks_fuel (fuel n : nat) (l : bytes) : list bytes :=
  match fuel, l with
  | _, [] | O, _ => []
  | S fuel', _ => take n l :: chunks_fuel fuel' n (drop n l)
  end.
Definition chunks (n : nat) (l : bytes) : list bytes := chunks_fuel (length l) n l.

(** The channel to the stream: the chunks in it and whether its sender is gone. *)
Record ChunkStream := {
  inbound : list bytes;
  inbound_closed : bool;
  tx : option bool;      (** the bridge's input, and whether the bridge still runs *)
  chunk : nat;
  pending : bytes;
  sent : list bytes;     (** what reached the bridge *)
}.

Inductive Poll (A : Type) := Ready (a : A) | Pending.
Arguments Ready {A} _.
Arguments Pending {A}.

(** [ChunkStream::new]; [None] is the assertion on the chunk size. *)
Definition new (inbound : list bytes) (closed : bool) (chunk_size : nat) : option ChunkStream :=
  if decide (0 < chunk_size)%nat then
    Some {| inbound := inbound; inbound_closed := closed; tx := Some true; chunk := chunk_size;
            pending := []; sent := [] |}
  else None.

(** The [while] of [poll_read]: receive until a chunk holds bytes. *)
Fixpoint fill (pending : bytes) (inbound : list bytes) : bytes * list bytes :=
  match pending, inbound with
  | [], c :: inbound' => fill c inbound'
  | _, _ => (pending, inbound)
  end.

(** [poll_read] into a buffer with [remaining] places: the bytes put there. *)
Definition poll_read (remaining : nat) (s : ChunkStream) : Poll bytes * ChunkStream :=
  let '(p, i) := fill (pending s) (inbound s) in
  let upd p' := {| inbound := i; inbound_closed := inbound_closed s; tx := tx s;
                   chunk := chunk s; pending := p'; sent := sent s |} in
  if decide (p = []) then ((if inbound_closed s then Ready [] else Pending), upd [])
  else
    let n := Nat.min (length p) remaining in
    (Ready (take n p), upd (drop n p)).

Definition poll_write (buf : bytes) (s : ChunkStream) : Result nat Peer.IoError * ChunkStream :=
  if decide (buf = []) then (Ok O, s)
  else
    match tx s with
    | Some true =>
        (Ok (length buf),
         {| inbound := inbound s; inbound_closed := inbound_closed s; tx := tx s;
            chunk := chunk s; pending := pending s; sent := sent s ++ chunks (chunk s) buf |})
    | _ => (Err Peer.OtherIo, s)
    end.

Definition poll_shutdown (s : ChunkStream) : ChunkStream :=
  {| inbound := inbound s; inbound_closed := inbound_closed s; tx := None; chunk := chunk s;
     pending := pending s; sent := sent s |}.

Definition poll_flush (s : ChunkStream) : Result unit Peer.IoError :=
  match tx s with Some _ => Ok tt | None => Err Peer.OtherIo end.

(** Writes one after the other, and reads with buffers of the given sizes. *)
Definition writes (bufs : list bytes) (s : ChunkStream) : ChunkStream :=
  foldl (fun s b => (poll_write b s).2) s bufs.

Fixpoint reads (caps : list nat) (s : ChunkStream) : list (Poll bytes) :=
  match caps with
  | [] => []
  | c :: caps' => let '(r, s') := poll_read c s in r :: reads caps' s'
  end.

Lemma chunks_fuel_spec fuel n l :
  (0 < n)%nat -> (length l <= fuel)%nat ->
  concat (chunks_fuel fuel n l) = l /\
  Forall (fun c => c <> [] /\ (length c <= n)%nat) (chunks_fuel fuel n l).
Proof.
  intros Hn. revert l. induction fuel as [|fuel IH]; intros l Hl; destruct l as [|x l];
    simpl in *; try done; [lia|].
  destruct n as [|n]; [lia|]. simpl.
  destruct (IH (drop n l)) as [IH1 IH2]; [rewrite length_drop; lia|].
  split; [by rewrite IH1, take_drop|].
  constructor; [|done]. split; [done|]. simpl. rewrite length_take. lia.
Qed.

Lemma fill_spec p i :
  let '(p', i') := fill p i in
  p' ++ concat i' = p ++ concat i /\ (p' = [] -> i' = []).
Proof.
  revert p. induction i as [|c i IH]; intros [|x p]; simpl; try done.
  apply IH.
Qed.

Definition available (s : ChunkStream) : bytes := pending s ++ concat (inbound s).

(** One read of a closed stream: the next bytes, none only at its end. *)
Lemma poll_read_spec cap s :
  (0 < cap)%nat -> inbound_closed s = true ->
  exists b s', poll_read cap s = (Ready b, s') /\ inbound_closed s' = true /\
    available s = b ++ available s' /\ (b = [] <-> available s = []).
Proof.
  intros Hc Hcl. unfold poll_read, available. pose proof (fill_spec (pending s) (inbound s)) as Hf.
  destruct (fill (pending s) (inbound s)) as [p i]. destruct Hf as [<- Hf].
  case_decide as Hp; rewrite Hcl.
  - rewrite Hp, (Hf Hp). by eexists _, _.
  - eexists _, _. split; [done|]. simpl. split; [done|]. rewrite app_assoc, take_drop.
    split; [done|]. destruct p as [|x p]; [done|]. destruct cap as [|cap]; [lia|]. done.
Qed.

Lemma writes_spec bufs s :
  (0 < chunk s)%nat -> tx s = Some true ->
  concat (sent (writes bufs s)) = concat (sent s) ++ concat bufs /\
  (Forall (fun c => c <> [] /\ (length c <= chunk s)%nat) (sent s) ->
   Forall (fun c => c <> [] /\ (length c <= chunk s)%nat) (sent (writes bufs s))).
Proof.
  intros Hc. revert s Hc. induction bufs as [|b bufs IH]; intros s Hc Htx.
  { simpl. by rewrite app_nil_r. }
  change (writes (b :: bufs) s) with (writes bufs (poll_write b s).2).
  unfold poll_write. case_decide as Hb; simpl; [subst b; by apply IH|].
  rewrite Htx. simpl.
  match goal with |- context [writes bufs ?s'] => destruct (IH s') as [IH1 IH2] end; [done..|].
  simpl in *. destruct (chunks_fuel_spec (length b) (chunk s) b Hc) as [H1 H2]; [done|].
  split.
  - rewrite IH1, concat_app. unfold chunks. by rewrite H1, <- app_assoc.
  - intros Hs. apply IH2. by apply Forall_app.
Qed.

Fixpoint read_bytes (rs : list (Poll bytes)) : option bytes :=
  match rs with
  | [] => Some []
  | Ready b :: rs' => (b ++.) <$> read_bytes rs'
  | Pending :: _ => None
  end.

(** Reads of a closed stream return a prefix of it, all of it once as many reads
    ran as it has bytes. *)
Lemma reads_spec caps s :
  Forall (fun c => (0 < c)%nat) caps -> inbound_closed s = true ->
  exists b, read_bytes (reads caps s) = Some b /\ b `prefix_of` available s /\
    ((length (available s) <= length caps)%nat -> b = available s).
Proof.
  intros Hcaps. revert s. induction Hcaps as [|c caps Hc _ IH]; intros s Hcl.
  { exists []. split; [done|]. split; [apply prefix_nil|]. simpl.
    intros ?. symmetry. apply length_zero_iff_nil. lia. }
  destruct (poll_read_spec c s Hc Hcl) as (b & s' & E & Hcl' & Hav & Hb). simpl. rewrite E. simpl.
  destruct (IH s' Hcl') as (b' & -> & Hp & Hall). simpl. exists (b ++ b'). split; [done|].
  rewrite Hav. split; [by apply prefix_app|]. intros Hl. f_equal. apply Hall.
  destruct b as [|x b]; [|rewrite length_app in Hl; simpl in Hl; lia].
  destruct Hb as [Hb _]. rewrite Hb in Hav by done. simpl in Hav. rewrite <- Hav. simpl. lia.
Qed.

End Chunks.

(** The chunk stream is a faithful byte pipe. Whatever buffers one side writes,
    every chunk it hands out is non-empty and at most the agreed size, and a
    reader of those chunks, among which the peer may have put empty ones, gets
    exactly the written bytes with any sequence of non-empty read buffers at
    least as long as the bytes, and a prefix of them with a shorter one. *)
Theorem chunk_stream_roundtrip size bufs w inbound caps r :
  Chunks.new [] false size = Some w ->
  filter (fun c => c <> []) inbound = Chunks.sent (Chunks.writes bufs w) ->
  Chunks.new inbound true size = Some r ->
  Forall (fun c => (0 < c)%nat) caps ->
  Forall (fun c => c <> [] /\ (length c <= size)%nat) (Chunks.sent (Chunks.writes bufs w)) /\
  exists b, Chunks.read_bytes (Chunks.reads caps r) = Some b /\ b `prefix_of` concat bufs /\
    ((length (concat bufs) <= length caps)%nat -> b = concat bufs).
Proof.
  unfold Chunks.new. case_decide as Hs; [|done]. intros [= <-] Hin [= <-] Hcaps.
  match type of Hin with _ = Chunks.sent (Chunks.writes bufs ?w) =>
    destruct (Chunks.writes_spec bufs w) as [H1 H2] end; [done..|].
  split; [by apply H2|].
  assert (Hav : concat inbound = concat bufs).
  { transitivity (concat (filter (fun c => c <> []) inbound)).
    - clear. induction inbound as [|c l IH]; [done|]. rewrite filter_cons.
      case_decide as Hc; simpl; rewrite IH; [done|]. by rewrite Hc.
    - by rewrite Hin, H1. }
  match goal with |- context [Chunks.reads caps ?r] =>
    destruct (Chunks.reads_spec caps r Hcaps) as (b & Hb & Hp & Hall) end; [done|].
  unfold Chunks.available in *. simpl in *. rewrite Hav in *. by exists b.
Qed.
