(* ===== verification/Discovery.v ===== *)
(** Peer discovery: the policy over the instances a browse finds
    (connetto-peer/src/policy.rs), and the driver that feeds it
    (connetto-peer/src/discovery.rs, fingerprint.rs, beacon.rs). An [Instant] and
    a [Duration] are nanoseconds, a fingerprint is its 32 bytes. The
    [BTreeMap] of instances is a [gmap]; where the code's iteration order shows,
    the order is written out. *)

From stdpp Require Import base list numbers option strings gmap sorting.
From S2P Require Import Prelude Backoff Frames.
Open Scope Z_scope.

Definition Fingerprint : Type := bytes.

(** ** Socket addresses in the order a [BTreeSet] keeps them *)

Inductive SocketAddr :=
| V4 (ip port : Z)
| V6 (ip port flowinfo scope_id : Z).

#[export] Instance SocketAddr_eq_dec : EqDecision SocketAddr.
Proof. solve_decision. Defined.

Definition addr_key (a : SocketAddr) : list Z :=
  match a with
  | V4 ip port => [0; ip; port]
  | V6 ip port flow scope => [1; ip; port; flow; scope]
  end.
Definition addr_cmp (a b : SocketAddr) : comparison := bytes_cmp (addr_key a) (addr_key b).

(** [BTreeSet::insert], on the set as its sorted list. *)
Fixpoint addr_insert (a : SocketAddr) (l : list SocketAddr) : list SocketAddr :=
  match l with
  | [] => [a]
  | b :: l' =>
      match addr_cmp a b with
      | Lt => a :: l
      | Eq => l
      | Gt => b :: addr_insert a l'
      end
  end.
Definition addr_set (addrs : list SocketAddr) : list SocketAddr :=
  foldl (fun s a => addr_insert a s) [] addrs.

Definition is_ipv4 (a : SocketAddr) : bool := match a with V4 _ _ => true | V6 _ _ _ _ => false end.

(** ** policy.rs *)

Module Policy.

Definition FIRST_WAIT : Z := 5 * NANOS_PER_SEC.
Definition MAX_WAIT : Z := 300 * NANOS_PER_SEC.
Definition MAX_DIALS : nat := 8.
Definition MAX_INSTANCES : nat := 256.

Inductive InstanceState := New | Linked | Waiting | Barred.

#[global] Instance InstanceState_eq_dec : EqDecision InstanceState.
Proof. solve_decision. Defined.

Record Instance_ := {
  name : string;
  state : InstanceState;
  addresses : list SocketAddr;
  wait : Z;
  retry_at : option Z;
  seq : Z;
}.

Inductive DialOutcome := DialLinked | DialUnreachable | DialRefused.

Inductive Action := Found (a : SocketAddr) | Gone | Dial | Browse.

#[global] Instance Action_eq_dec : EqDecision Action.
Proof. solve_decision. Defined.

Record Policy := {
  own : Fingerprint;
  autolink : bool;
  instances : gmap Fingerprint Instance_;
  next_seq : Z;
  in_flight : gset Fingerprint;
}.

Definition set_instances (m : gmap Fingerprint Instance_) (p : Policy) : Policy :=
  {| own := own p; autolink := autolink p; instances := m; next_seq := next_seq p;
     in_flight := in_flight p |}.
Definition set_in_flight (s : gset Fingerprint) (p : Policy) : Policy :=
  {| own := own p; autolink := autolink p; instances := instances p; next_seq := next_seq p;
     in_flight := s |}.
Definition set_next_seq (n : Z) (p : Policy) : Policy :=
  {| own := own p; autolink := autolink p; instances := instances p; next_seq := n;
     in_flight := in_flight p |}.

Definition with_state (s : InstanceState) (retry : option Z) (w : Z) (e : Instance_) : Instance_ :=
  {| name := name e; state := s; addresses := addresses e; wait := w; retry_at := retry;
     seq := seq e |}.

Definition bars (reason : Peer.CloseReason) : bool :=
  match reason with
  | Peer.PeerRevoked | Peer.PeerExpired | Peer.Protocol => true
  | _ => false
  end.

Definition new (own : Fingerprint) (autolink : bool) : Policy :=
  {| own := own; autolink := autolink; instances := ∅; next_seq := 0; in_flight := ∅ |}.

Definition set_own (fp : Fingerprint) (p : Policy) : Policy :=
  {| own := fp; autolink := autolink p; instances := instances p; next_seq := next_seq p;
     in_flight := in_flight p |}.

(** The order [(seq, fingerprint)]: [min_by_key] on the map's order keeps the first
    of the lowest. *)
Definition older (x y : Fingerprint * Instance_) : Prop :=
  seq x.2 < seq y.2 \/ (seq x.2 = seq y.2 /\ bytes_cmp x.1 y.1 <> Gt).
#[export] Instance older_dec x y : Decision (older x y).
Proof. unfold older. apply _. Defined.

Definition min_by_seq (l : list (Fingerprint * Instance_)) : option (Fingerprint * Instance_) :=
  foldr (fun x o => match o with
                    | None => Some x
                    | Some y => Some (if decide (older x y) then x else y)
                    end) None l.

Definition oldest_unlinked (m : gmap Fingerprint Instance_) : option Fingerprint :=
  fst <$> min_by_seq (filter (fun x => state x.2 <> Linked) (map_to_list m)).

(** The eviction of [found]; [None] when every tracked instance is linked. *)
Definition make_room (fp : Fingerprint) (p : Policy) : option Policy :=
  if decide (instances p !! fp = None /\ (MAX_INSTANCES <= size (instances p))%nat) then
    oldest ← oldest_unlinked (instances p);
    Some (set_instances (delete oldest (instances p)) p)
  else Some p.

Definition capacity (p : Policy) : nat := (MAX_DIALS - size (in_flight p))%nat.

Definition found (nm : string) (fp : Fingerprint) (addrs : list SocketAddr) (p : Policy) :
    list Action * Policy :=
  if decide (fp = own p) then ([], p)
  else
    let fresh := bool_decide (instances p !! fp = None) in
    match make_room fp p with
    | None => ([], p)
    | Some p =>
        let sq := next_seq p in
        let p := if fresh then set_next_seq (sq + 1) p else p in
        let cap := capacity p in
        let entry := default {| name := nm; state := New; addresses := []; wait := FIRST_WAIT;
                                retry_at := None; seq := sq |} (instances p !! fp) in
        let known := if decide (name entry = nm) then addresses entry else [] in
        let resolved := addr_set addrs in
        let actions := Found <$> filter (fun a => a ∉ known) resolved in
        let entry := {| name := nm; state := state entry; addresses := resolved;
                        wait := wait entry; retry_at := retry_at entry; seq := seq entry |} in
        let p := set_instances (<[fp := entry]> (instances p)) p in
        if decide (state entry = New /\ autolink p = true /\ (0 < cap)%nat /\ fp ∉ in_flight p)
        then (actions ++ [Dial], set_in_flight ({[fp]} ∪ in_flight p) p)
        else (actions, p)
    end.

Definition removed (fp : Fingerprint) (p : Policy) : list Action * Policy :=
  match instances p !! fp with
  | Some _ => ([Gone], set_instances (delete fp (instances p)) p)
  | None => ([], p)
  end.

Definition linked (fp : Fingerprint) (p : Policy) : Policy :=
  match instances p !! fp with
  | Some e => set_instances (<[fp := with_state Linked None FIRST_WAIT e]> (instances p)) p
  | None => p
  end.

Definition unlinked (now : Z) (fp : Fingerprint) (reason : Peer.CloseReason) (p : Policy) : Policy :=
  match instances p !! fp with
  | Some e =>
      if bars reason then
        set_instances (<[fp := with_state Barred None (wait e) e]> (instances p)) p
      else if decide (state e = Linked) then
        set_instances
          (<[fp := with_state Waiting (if autolink p then Some (now + FIRST_WAIT) else None)
                     FIRST_WAIT e]> (instances p)) p
      else p
  | None => p
  end.

Definition dial_entry (autolink : bool) (now : Z) (outcome : DialOutcome) (e : Instance_) : Instance_ :=
  match outcome with
  | DialLinked =>
      if decide (state e <> Barred) then with_state Linked None FIRST_WAIT e else e
  | DialUnreachable =>
      match state e with
      | New | Waiting =>
          with_state Waiting (if autolink then Some (now + wait e) else retry_at e)
            (Z.min (wait e * 2) MAX_WAIT) e
      | _ => e
      end
  | DialRefused =>
      match state e with
      | New | Waiting => with_state Barred None (wait e) e
      | _ => e
      end
  end.

Definition dial_result (now : Z) (fp : Fingerprint) (outcome : DialOutcome) (p : Policy) : Policy :=
  let p := match instances p !! fp with
           | Some e => set_instances (<[fp := dial_entry (autolink p) now outcome e]> (instances p)) p
           | None => p
           end in
  set_in_flight (in_flight p ∖ {[fp]}) p.

Definition readdress (e : Instance_) : Instance_ :=
  if decide (state e = Waiting) then with_state New None FIRST_WAIT e else e.
Definition addresses_changed (p : Policy) : list Action * Policy :=
  ([Browse], set_instances (readdress <$> instances p) p).

(** What [due] lets dial: the filter over the instances. *)
Definition ready (p : Policy) (now : Z) (fp : Fingerprint) (e : Instance_) : bool :=
  bool_decide (fp ∉ in_flight p) &&
  match state e with
  | New => autolink p
  | Waiting => match retry_at e with Some at_ => bool_decide (at_ <= now) | None => false end
  | Linked | Barred => false
  end.

Definition by_seq (x y : Z * Fingerprint) : Prop := x.1 <= y.1.
#[export] Instance by_seq_dec x y : Decision (by_seq x y).
Proof. unfold by_seq. apply _. Defined.

Definition ready_list (p : Policy) (now : Z) : list (Z * Fingerprint) :=
  (fun x => (seq x.2, x.1)) <$>
    filter (fun x => ready p now x.1 x.2 = true) (map_to_list (instances p)).

Definition due (now : Z) (p : Policy) : list Fingerprint * Policy :=
  if decide (capacity p = O) then ([], p)
  else
    let started := snd <$> take (capacity p) (merge_sort by_seq (ready_list p now)) in
    (started, set_in_flight (list_to_set started ∪ in_flight p) p).

Definition addresses_of (fp : Fingerprint) (p : Policy) : list SocketAddr :=
  default [] (addresses <$> instances p !! fp).
Definition retry_of (fp : Fingerprint) (p : Policy) : option Z :=
  instances p !! fp ≫= retry_at.

(** ** The invariant *)

Definition entry_ok (auto : bool) (nseq : Z) (e : Instance_) : Prop :=
  0 <= seq e < nseq /\ FIRST_WAIT <= wait e <= MAX_WAIT /\
  (is_Some (retry_at e) <-> state e = Waiting /\ auto = true) /\
  (state e = New -> wait e = FIRST_WAIT).

Definition seq_inj (m : gmap Fingerprint Instance_) : Prop :=
  forall fp1 fp2 e1 e2, m !! fp1 = Some e1 -> m !! fp2 = Some e2 -> seq e1 = seq e2 -> fp1 = fp2.

Record ok (p : Policy) : Prop := {
  ok_size : (size (instances p) <= MAX_INSTANCES)%nat;
  ok_flight : (size (in_flight p) <= MAX_DIALS)%nat;
  ok_entries : map_Forall (fun _ e => entry_ok (autolink p) (next_seq p) e) (instances p);
  ok_seq : seq_inj (instances p);
  ok_manual : autolink p = false -> in_flight p = ∅;
  ok_next : 0 <= next_seq p;
}.

Lemma seq_inj_delete fp m : seq_inj m -> seq_inj (delete fp m).
Proof. intros H fp1 fp2 e1 e2 [_ H1]%lookup_delete_Some [_ H2]%lookup_delete_Some. by eapply H. Qed.

(** An update of a tracked entry that keeps its place. *)
Lemma seq_inj_update fp e e' m :
  seq_inj m -> m !! fp = Some e -> seq e' = seq e -> seq_inj (<[fp := e']> m).
Proof.
  intros H He Hs fp1 fp2 e1 e2 [[<- <-]|[N1 H1]]%lookup_insert_Some [[<- <-]|[N2 H2]]%lookup_insert_Some Heq;
    [done| | |by eapply H].
  - exfalso. apply N2. eapply (H fp fp2); [done..|congruence].
  - exfalso. apply N1. symmetry. eapply (H fp1 fp); [done..|congruence].
Qed.

Lemma ok_update p fp e e' :
  ok p -> instances p !! fp = Some e -> seq e' = seq e ->
  entry_ok (autolink p) (next_seq p) e' ->
  ok (set_instances (<[fp := e']> (instances p)) p).
Proof.
  intros [H1 H2 H3 H4 H5 H6] He Hs He'. constructor; simpl; try done.
  - rewrite map_size_insert, He. simpl. lia.
  - by apply map_Forall_insert_2.
  - by eapply seq_inj_update.
Qed.

Lemma ok_in_flight p s :
  ok p -> (size s <= MAX_DIALS)%nat -> (autolink p = false -> s = ∅) -> ok (set_in_flight s p).
Proof. intros [] ??. by constructor. Qed.

Lemma entry_ok_at p fp e :
  ok p -> instances p !! fp = Some e -> entry_ok (autolink p) (next_seq p) e.
Proof. intros H. by apply (ok_entries p H). Qed.

Lemma wait_bounds : FIRST_WAIT <= FIRST_WAIT <= MAX_WAIT /\ 0 < FIRST_WAIT.
Proof. unfold FIRST_WAIT, MAX_WAIT, NANOS_PER_SEC. lia. Qed.

(** Every way an operation changes a tracked entry keeps it well formed. *)
Lemma with_state_ok auto n e s retry w :
  entry_ok auto n e -> FIRST_WAIT <= w <= MAX_WAIT -> (s = New -> w = FIRST_WAIT) ->
  (is_Some retry <-> s = Waiting /\ auto = true) ->
  entry_ok auto n (with_state s retry w e).
Proof. by intros (? & ? & ? & ?) ? ? ?. Qed.

Lemma dial_entry_ok auto n now oc e :
  entry_ok auto n e -> entry_ok auto n (dial_entry auto now oc e) /\ seq (dial_entry auto now oc e) = seq e.
Proof.
  intros He. pose proof He as (_ & Hw & Hr & _). pose proof wait_bounds as Hb.
  destruct oc; simpl.
  - case_decide; [|done]. split; [|done]. apply with_state_ok; [done|lia|done|].
    split; [by intros [? ?]|naive_solver].
  - destruct (state e) eqn:Hs; (split; [|done]); try done;
      (apply with_state_ok; [done|unfold MAX_WAIT, NANOS_PER_SEC in *; lia|done|]);
      destruct auto; naive_solver.
  - destruct (state e) eqn:Hs; (split; [|done]); try done;
      (apply with_state_ok; [done|lia|done|]); (split; [by intros [? ?]|naive_solver]).
Qed.

Lemma linked_ok fp p : ok p -> ok (linked fp p).
Proof.
  intros H. unfold linked. destruct (instances p !! fp) as [e|] eqn:E; [|done].
  eapply ok_update; [done..|]. apply with_state_ok; [by eapply entry_ok_at|apply wait_bounds|done|].
  split; [by intros [? ?]|naive_solver].
Qed.

Lemma unlinked_ok now fp reason p : ok p -> ok (unlinked now fp reason p).
Proof.
  intros H. unfold unlinked. destruct (instances p !! fp) as [e|] eqn:E; [|done].
  pose proof (entry_ok_at _ _ _ H E) as He. destruct (bars reason).
  - eapply ok_update; [done..|]. apply with_state_ok; [done|apply He|done|].
    split; [by intros [? ?]|naive_solver].
  - case_decide; [|done]. eapply ok_update; [done..|].
    apply with_state_ok; [done|apply wait_bounds|done|]. destruct (autolink p); naive_solver.
Qed.

Lemma dial_result_ok now fp oc p : ok p -> ok (dial_result now fp oc p).
Proof.
  intros H. unfold dial_result. set (q := match _ with Some _ => _ | None => _ end).
  assert (Hq : ok q /\ in_flight q = in_flight p /\ autolink q = autolink p).
  { unfold q. destruct (instances p !! fp) as [e|] eqn:E; [|done]. split; [|done].
    destruct (dial_entry_ok (autolink p) (next_seq p) now oc e (entry_ok_at _ _ _ H E)) as [? ?].
    by eapply ok_update. }
  destruct Hq as (Hq & Hf & Ha). apply ok_in_flight; [done| |].
  - etrans; [|apply (ok_flight q Hq)]. apply subseteq_size. set_solver.
  - intros Hm. rewrite (ok_manual q Hq Hm). set_solver.
Qed.

Lemma removed_ok fp p : ok p -> ok (removed fp p).2.
Proof.
  intros H. unfold removed. destruct (instances p !! fp) as [e|] eqn:E; [|done].
  destruct H as [H1 H2 H3 H4 H5 H6]. constructor; simpl; try done.
  - rewrite map_size_delete, E. simpl. lia.
  - by apply map_Forall_delete.
  - by apply seq_inj_delete.
Qed.

Lemma readdress_ok auto n e : entry_ok auto n e -> entry_ok auto n (readdress e) /\ seq (readdress e) = seq e.
Proof.
  intros He. unfold readdress. case_decide; [|done]. split; [|done].
  apply with_state_ok; [done|apply wait_bounds|done|]. split; [by intros [? ?]|naive_solver].
Qed.

Lemma addresses_changed_ok p : ok p -> ok (addresses_changed p).2.
Proof.
  intros [H1 H2 H3 H4 H5 H6]. constructor; simpl; try done.
  - by rewrite map_size_fmap.
  - intros fp e'. rewrite lookup_fmap. intros (e & E & ->)%fmap_Some.
    by apply readdress_ok, (H3 fp).
  - intros fp1 fp2 e1 e2. rewrite !lookup_fmap.
    intros (x1 & E1 & ->)%fmap_Some (x2 & E2 & ->)%fmap_Some Hs.
    apply (H4 fp1 fp2 x1 x2 E1 E2).
    destruct (readdress_ok _ _ _ (H3 _ _ E1)) as [_ <-].
    by destruct (readdress_ok _ _ _ (H3 _ _ E2)) as [_ <-].
Qed.

Lemma min_by_seq_None l : min_by_seq l = None <-> l = [].
Proof. destruct l as [|x l]; [done|]. simpl. destruct (min_by_seq l); naive_solver. Qed.

Lemma min_by_seq_Some l x :
  min_by_seq l = Some x -> x ∈ l /\ forall y, y ∈ l -> seq x.2 <= seq y.2.
Proof.
  revert x. induction l as [|z l IH]; intros x; [done|]. simpl.
  destruct (min_by_seq l) as [y|] eqn:E.
  - destruct (IH y eq_refl) as [Hy Hmin]. intros [= <-]. case_decide as Ho.
    + split; [left|]. intros w [->|Hw]%elem_of_cons; [lia|]. specialize (Hmin w Hw).
      unfold older in Ho. lia.
    + split; [by right|]. intros w [->|Hw]%elem_of_cons; [|by apply Hmin].
      unfold older in Ho. lia.
  - intros [= <-]. apply min_by_seq_None in E as ->. split; [left|].
    by intros w ->%list_elem_of_singleton.
Qed.

Lemma oldest_unlinked_Some m fp :
  oldest_unlinked m = Some fp ->
  exists e, m !! fp = Some e /\ state e <> Linked /\
    forall fp' e', m !! fp' = Some e' -> state e' <> Linked -> seq e <= seq e'.
Proof.
  unfold oldest_unlinked. intros ([fp0 e] & [Hin Hmin]%min_by_seq_Some & ->)%fmap_Some.
  apply list_elem_of_filter in Hin as [Hs Hin%elem_of_map_to_list]. simpl in *. exists e.
  split; [done|]. split; [done|]. intros fp' e' He' Hs'. apply (Hmin (fp', e')).
  apply list_elem_of_filter. split; [done|]. by apply elem_of_map_to_list.
Qed.

Lemma oldest_unlinked_None m :
  oldest_unlinked m = None <-> map_Forall (fun _ e => state e = Linked) m.
Proof.
  unfold oldest_unlinked. rewrite fmap_None, min_by_seq_None. split.
  - intros H fp e He. apply dec_stable. intros Hs.
    assert ((fp, e) ∈ filter (fun x : Fingerprint * Instance_ => state x.2 <> Linked) (map_to_list m)) as Hin
      by (apply list_elem_of_filter; split; [done|by apply elem_of_map_to_list]).
    rewrite H in Hin. by apply not_elem_of_nil in Hin.
  - intros H. destruct (filter _ _) as [|[fp e] l] eqn:E; [done|].
    assert ((fp, e) ∈ filter (fun x : Fingerprint * Instance_ => state x.2 <> Linked) (map_to_list m)) as Hin
      by (rewrite E; left).
    apply list_elem_of_filter in Hin as [Hs Hin%elem_of_map_to_list]. by specialize (H _ _ Hin).
Qed.

Lemma make_room_spec fp p q :
  ok p -> make_room fp p = Some q ->
  ok q /\ in_flight q = in_flight p /\ next_seq q = next_seq p /\ autolink q = autolink p /\
  own q = own p /\ instances q !! fp = instances p !! fp /\
  (instances p !! fp = None -> (size (instances q) < MAX_INSTANCES)%nat).
Proof.
  intros H. unfold make_room. case_decide as Hd.
  - intros (fp0 & Hold & [= <-])%bind_Some. destruct Hd as [Hf Hsz].
    apply oldest_unlinked_Some in Hold as (e & He & _ & _).
    assert (Hr : ok (removed fp0 p).2) by by apply removed_ok.
    unfold removed in Hr. rewrite He in Hr. simpl in Hr. split_and!; try done; simpl.
    + apply lookup_delete_ne. congruence.
    + intros _. rewrite map_size_delete, He. simpl.
      pose proof (ok_size p H). unfold MAX_INSTANCES in *. lia.
  - intros [= <-]. split_and!; try done. intros Hn. apply not_and_l in Hd as [|]; [done|lia].
Qed.

(** [found], with what it does to the table and the running dials. *)
Lemma found_spec nm fp addrs p :
  ok p ->
  let '(actions, p') := found nm fp addrs p in
  ok p' /\ own p' = own p /\ autolink p' = autolink p /\
  in_flight p' = (if decide (Dial ∈ actions) then {[fp]} else ∅) ∪ in_flight p /\
  (Dial ∈ actions ->
     fp <> own p /\ fp ∉ in_flight p /\ autolink p = true /\ (size (in_flight p) < MAX_DIALS)%nat /\
     exists e, instances p' !! fp = Some e /\ state e = New).
Proof.
  intros H. unfold found. case_decide as Hown.
  { split_and!; try done; set_solver. }
  destruct (make_room fp p) as [q|] eqn:Er; [|split_and!; try done; set_solver].
  destruct (make_room_spec _ _ _ H Er) as (Hq & Hf & Hn & Ha & Ho & Hi & Hsz). cbv zeta.
  set (fresh := bool_decide _). set (q1 := if fresh then _ else _).
  set (entry0 := default _ _). set (resolved := addr_set addrs).
  set (entry := {| name := nm |}). set (acts := Found <$> _).
  assert (Hq1 : in_flight q1 = in_flight p /\ autolink q1 = autolink p /\ own q1 = own p /\
    instances q1 = instances q) by (unfold q1; destruct fresh; by rewrite <- Hf, <- Ha, <- Ho).
  destruct Hq1 as (Hf1 & Ha1 & Ho1 & Hi1).
  assert (Hok : ok (set_instances (<[fp := entry]> (instances q1)) q1)).
  { pose proof wait_bounds as Hw.
    assert (Hl : instances q1 !! fp = instances p !! fp) by (by rewrite Hi1, Hi).
    unfold entry, entry0. rewrite Hl, Hi1. unfold q1, fresh.
    destruct (instances p !! fp) as [e|] eqn:Ee.
    - rewrite bool_decide_eq_false_2 by done. simpl. eapply ok_update; [done|by rewrite Hi|done|].
      apply (entry_ok_at q fp e); [done|by rewrite Hi].
    - rewrite bool_decide_eq_true_2 by done. simpl.
      destruct Hq as [K1 K2 K3 K4 K5 K6]. constructor; simpl; try done.
      + rewrite map_size_insert, Hi. specialize (Hsz eq_refl). simpl. lia.
      + apply map_Forall_insert_2.
        * split_and!; simpl; try done; try lia. split; [by intros [? ?]|naive_solver].
        * intros fp' e' He'. destruct (K3 _ _ He') as (? & ? & ? & ?). split_and!; try done; lia.
      + intros fp1 fp2 e1 e2 [[<- <-]|[N1 H1]]%lookup_insert_Some
          [[<- <-]|[N2 H2]]%lookup_insert_Some; simpl; intros Hs; [done| | |by eapply K4].
        * destruct (K3 _ _ H2) as (? & _). lia.
        * destruct (K3 _ _ H1) as (? & _). lia.
      + lia. }
  assert (HnD : Dial ∉ acts).
  { unfold acts. by intros (? & ? & _)%list_elem_of_fmap. }
  case_decide as Hd; simpl.
  - destruct Hd as (Hs & Hau & Hcap & Hfl). simpl in *. unfold capacity in Hcap.
    rewrite decide_True by (apply elem_of_app; right; left). rewrite Hf1, Ha1 in *.
    split_and!; try done.
    + apply ok_in_flight; [done| |simpl; rewrite Ha1; congruence].
      rewrite size_union, size_singleton by set_solver. lia.
    + intros _. split_and!; [done..|lia|]. exists entry. by rewrite lookup_insert_eq.
  - rewrite decide_False by done. split_and!; try done. rewrite Hf1. set_solver.
Qed.

Definition ready_at (p : Policy) (now : Z) (fp : Fingerprint) : Prop :=
  exists e, instances p !! fp = Some e /\ ready p now fp e = true.
Definition seq_of (p : Policy) (fp : Fingerprint) : Z := default (-1) (seq <$> instances p !! fp).

Lemma ready_list_spec p now s fp :
  (s, fp) ∈ ready_list p now <-> ready_at p now fp /\ s = seq_of p fp.
Proof.
  unfold ready_list, ready_at, seq_of. rewrite list_elem_of_fmap. split.
  - intros ([fp' e] & [= -> ->] & [Hr Hin%elem_of_map_to_list]%list_elem_of_filter). simpl in *.
    rewrite Hin. eauto.
  - intros [(e & He & Hr) ->]. exists (fp, e). rewrite He. split; [done|].
    apply list_elem_of_filter. split; [done|]. by apply elem_of_map_to_list.
Qed.

Lemma ready_list_NoDup p now : NoDup (snd <$> ready_list p now).
Proof.
  unfold ready_list. rewrite <- list_fmap_compose.
  apply (sublist_NoDup _ (fst <$> map_to_list (instances p))); [apply NoDup_fst_map_to_list|].
  apply fmap_sublist, sublist_filter.
Qed.

#[export] Instance by_seq_trans : Transitive by_seq.
Proof. intros x y z. unfold by_seq. lia. Qed.
#[export] Instance by_seq_total : Total by_seq.
Proof. intros x y. unfold by_seq. lia. Qed.

(** The instances [due] starts are the first of this list. *)
Definition queue (p : Policy) (now : Z) : list (Z * Fingerprint) :=
  merge_sort by_seq (ready_list p now).

Lemma queue_elem p now s fp : (s, fp) ∈ queue p now <-> ready_at p now fp /\ s = seq_of p fp.
Proof. unfold queue. rewrite merge_sort_Permutation. apply ready_list_spec. Qed.

Lemma queue_NoDup p now : NoDup (snd <$> queue p now).
Proof. unfold queue. rewrite merge_sort_Permutation. apply ready_list_NoDup. Qed.

Lemma queue_sorted p now : StronglySorted by_seq (queue p now).
Proof. apply StronglySorted_merge_sort; apply _. Qed.

Lemma sorted_app_le {A} (R : relation A) l k x y :
  StronglySorted R (l ++ k) -> x ∈ l -> y ∈ k -> R x y.
Proof.
  induction l as [|a l IH]; simpl; [by intros _ ?%not_elem_of_nil|].
  intros [Hs Hf]%StronglySorted_inv [->|Hx]%elem_of_cons Hy; [|by apply IH].
  rewrite Forall_forall in Hf. apply Hf. apply elem_of_app. by right.
Qed.

Lemma ready_not_in_flight p now fp : ready_at p now fp -> fp ∉ in_flight p.
Proof. intros (e & _ & [H _]%andb_true_iff). by apply bool_decide_eq_true in H. Qed.

Lemma ready_autolink p now fp : ok p -> ready_at p now fp -> autolink p = true.
Proof.
  intros H (e & He & [_ Hr]%andb_true_iff). destruct (entry_ok_at _ _ _ H He) as (_ & _ & Hi & _).
  destruct (state e); [done|done| |done]. destruct (retry_at e) eqn:E; [|done].
  apply Hi. by eexists.
Qed.

Lemma due_spec now p :
  ok p ->
  let '(started, p') := due now p in
  ok p' /\ NoDup started /\ in_flight p' = list_to_set started ∪ in_flight p /\
  instances p' = instances p /\ own p' = own p /\ autolink p' = autolink p /\
  exists late, queue p now = ((fun fp => (seq_of p fp, fp)) <$> started) ++ late /\
    (late = [] \/ size (in_flight p') = MAX_DIALS) /\
    Forall (ready_at p now) started.
Proof.
  intros H. pose proof (ok_flight p H) as Hfl. unfold due.
  case_decide as Hc.
  { split_and!; try done; [constructor|set_solver|]. exists (queue p now). split_and!; try done.
    right. unfold capacity in Hc. lia. }
  cbv zeta. fold (queue p now). set (front := take (capacity p) (queue p now)).
  set (late := drop (capacity p) (queue p now)).
  assert (Hq : front ++ late = queue p now) by apply take_drop.
  assert (Hin : forall x, x ∈ front -> ready_at p now x.2 /\ x.1 = seq_of p x.2).
  { intros [s fp] Hx. apply queue_elem. rewrite <- Hq. apply elem_of_app. by left. }
  pose proof (queue_NoDup p now) as Hnd. rewrite <- Hq, fmap_app, NoDup_app in Hnd.
  destruct Hnd as (Hnd & _ & _).
  assert (Hdisj : (list_to_set (snd <$> front) : gset Fingerprint) ## in_flight p).
  { intros fp Hl Hf. apply elem_of_list_to_set, list_elem_of_fmap in Hl as (x & -> & Hx).
    destruct (Hin x Hx) as [Hr _]. by apply (ready_not_in_flight _ _ _ Hr). }
  assert (Hsz : size (list_to_set (snd <$> front) ∪ in_flight p : gset Fingerprint) =
                (length front + size (in_flight p))%nat).
  { by rewrite size_union, size_list_to_set, length_fmap by done. }
  assert (Hlen : length front = Nat.min (capacity p) (length (queue p now)))
    by (unfold front; by rewrite length_take).
  split_and!; try done.
  - apply ok_in_flight; [done| |].
    + rewrite Hsz. unfold capacity in *. lia.
    + intros Hm. destruct front as [|x l]; [by rewrite (ok_manual p H Hm)|].
      destruct (Hin x ltac:(left)) as [Hr _]. pose proof (ready_autolink _ _ _ H Hr). congruence.
  - exists late. split_and!.
    + rewrite <- Hq. f_equal. rewrite <- list_fmap_compose. symmetry.
      rewrite <- (list_fmap_id front) at 2. apply list_fmap_ext. intros i [s fp] Hx%list_elem_of_lookup_2.
      destruct (Hin _ Hx) as [_ Hs]. simpl in *. by rewrite <- Hs.
    + simpl. rewrite Hsz. destruct (decide (capacity p <= length (queue p now))%nat).
      * right. unfold capacity in *. lia.
      * left. unfold late. apply drop_ge. lia.
    + apply Forall_forall. intros fp (x & -> & Hx)%list_elem_of_fmap. by apply Hin.
Qed.

(** An instance found or waiting, with its wait, through failed dials in a row. *)
Definition retrying (fp : Fingerprint) (w : Z) (p : Policy) : Prop :=
  exists e, instances p !! fp = Some e /\ wait e = w /\ (state e = New \/ state e = Waiting).

Lemma unreachable_once fp t w p :
  autolink p = true -> retrying fp w p ->
  autolink (dial_result t fp DialUnreachable p) = true /\
  retrying fp (Z.min (w * 2) MAX_WAIT) (dial_result t fp DialUnreachable p).
Proof.
  intros Ha (e & He & <- & Hs). unfold retrying, dial_result. rewrite He, Ha. simpl.
  split; [done|]. exists (dial_entry true t DialUnreachable e). rewrite lookup_insert_eq.
  destruct Hs as [Hs|Hs]; simpl; rewrite Hs; simpl; auto.
Qed.

Lemma double_wait w n :
  0 <= w ->
  Z.min (Z.min (w * 2) MAX_WAIT * 2 ^ Z.of_nat n) MAX_WAIT = Z.min (w * 2 ^ Z.of_nat (S n)) MAX_WAIT.
Proof.
  intros Hw. rewrite Nat2Z.inj_succ, Z.pow_succ_r by lia.
  assert (1 <= 2 ^ Z.of_nat n) by (apply (Z.pow_le_mono_r 2 0); lia).
  assert (0 < MAX_WAIT) by (unfold MAX_WAIT, NANOS_PER_SEC; lia).
  destruct (Z.le_ge_cases (w * 2) MAX_WAIT); nia.
Qed.

Lemma unreachable_streak fp times p w :
  0 <= w <= MAX_WAIT -> autolink p = true -> retrying fp w p ->
  let q := foldl (fun q t => dial_result t fp DialUnreachable q) p times in
  autolink q = true /\ retrying fp (Z.min (w * 2 ^ Z.of_nat (length times)) MAX_WAIT) q.
Proof.
  revert p w. induction times as [|t times IH]; intros p w Hw Ha Hr.
  { simpl. rewrite Z.mul_1_r, Z.min_l by lia. done. }
  destruct (unreachable_once fp t w p Ha Hr) as [Ha' Hr'].
  destruct (IH _ (Z.min (w * 2) MAX_WAIT) ltac:(lia) Ha' Hr') as [Hq Hq'].
  rewrite double_wait in Hq' by lia. done.
Qed.

End Policy.

(** ** Histories of the policy: its operations, and the dials that run *)

Module History.
Import Policy.

Inductive Op :=
| OpSetOwn (fp : Fingerprint)
| OpFound (nm : string) (fp : Fingerprint) (addrs : list SocketAddr)
| OpRemoved (fp : Fingerprint)
| OpLinked (fp : Fingerprint)
| OpUnlinked (now : Z) (fp : Fingerprint) (reason : Peer.CloseReason)
| OpAddresses
| OpDue (now : Z).

(** An operation, with the dials it starts. *)
Definition step (o : Op) (p : Policy) : list Fingerprint * Policy :=
  match o with
  | OpSetOwn fp => ([], set_own fp p)
  | OpFound nm fp addrs =>
      let '(acts, p') := found nm fp addrs p in (if decide (Dial ∈ acts) then [fp] else [], p')
  | OpRemoved fp => ([], (removed fp p).2)
  | OpLinked fp => ([], linked fp p)
  | OpUnlinked now fp reason => ([], unlinked now fp reason p)
  | OpAddresses => ([], (addresses_changed p).2)
  | OpDue now => due now p
  end.

(** [history running p]: [p] after some operations, [running] the dials that were
    started and have not ended. A dial ends once, with an outcome. *)
Inductive history : list Fingerprint -> Policy -> Prop :=
| history_new own auto : history [] (new own auto)
| history_step o running p :
    history running p -> history ((step o p).1 ++ running) (step o p).2
| history_end now fp oc l1 l2 p :
    history (l1 ++ fp :: l2) p -> history (l1 ++ l2) (dial_result now fp oc p).

Lemma new_ok own auto : ok (new own auto).
Proof.
  constructor; try done; simpl.
  - vm_compute. lia.
  - vm_compute. lia.
Qed.

Lemma in_flight_untouched p fp reason now :
  in_flight (linked fp p) = in_flight p /\ in_flight (unlinked now fp reason p) = in_flight p /\
  in_flight (removed fp p).2 = in_flight p.
Proof.
  unfold linked, unlinked, removed. destruct (instances p !! fp); [|done].
  destruct (bars reason); [done|]. by case_decide.
Qed.

(** What every operation does to the running dials. *)
Lemma step_spec o p :
  ok p ->
  ok (step o p).2 /\ NoDup (step o p).1 /\
  (forall fp, fp ∈ (step o p).1 -> fp ∉ in_flight p) /\
  in_flight (step o p).2 = list_to_set (step o p).1 ∪ in_flight p.
Proof.
  intros H. pose proof (in_flight_untouched p) as Hu.
  assert (Hnil : forall q, ok q -> in_flight q = in_flight p ->
    ok q /\ NoDup (@nil Fingerprint) /\ (forall fp, fp ∈ @nil Fingerprint -> fp ∉ in_flight p) /\
    in_flight q = list_to_set (@nil Fingerprint) ∪ in_flight p).
  { intros q Hq Hf. split_and!; [done|constructor|by intros fp ?%not_elem_of_nil|set_solver]. }
  destruct o as [fp|nm fp addrs|fp|fp|now fp reason| |now]; simpl.
  - apply (Hnil (set_own fp p)); [|done]. destruct H. by constructor.
  - pose proof (found_spec nm fp addrs p H) as Hs. destruct (found nm fp addrs p) as [acts p'].
    destruct Hs as (Hok & _ & _ & Hf & Hd). simpl. case_decide as Hin.
    + destruct (Hd Hin) as (_ & Hn & _). split_and!; [done|apply NoDup_singleton| |by rewrite Hf; simpl; rewrite (right_id_L ∅ (∪))].
      by intros fp' ->%list_elem_of_singleton.
    + apply Hnil; [done|set_solver].
  - apply (Hnil (removed fp p).2); [by apply removed_ok|]. by apply (Hu fp Peer.Closed 0).
  - apply (Hnil (linked fp p)); [by apply linked_ok|]. by apply (Hu fp Peer.Closed 0).
  - apply (Hnil (unlinked now fp reason p)); [by apply unlinked_ok|]. by apply Hu.
  - apply (Hnil (addresses_changed p).2); [by apply addresses_changed_ok|done].
  - pose proof (due_spec now p H) as Hs. destruct (due now p) as [st p'].
    destruct Hs as (Hok & Hnd & Hf & _ & _ & _ & late & _ & _ & Hr). simpl. split_and!; try done.
    intros fp Hin. rewrite Forall_forall in Hr. by apply (ready_not_in_flight p now), Hr.
Qed.

Lemma dial_result_in_flight now fp oc p :
  in_flight (dial_result now fp oc p) = in_flight p ∖ {[fp]}.
Proof. unfold dial_result. by destruct (instances p !! fp). Qed.

Lemma history_spec running p :
  history running p -> ok p /\ NoDup running /\ list_to_set running = in_flight p.
Proof.
  induction 1 as [own auto|o running p _ (Hok & Hnd & Hset)|now fp oc l1 l2 p _ (Hok & Hnd & Hset)].
  - split_and!; [apply new_ok|constructor|done].
  - destruct (step_spec o p Hok) as (Hok' & Hnd' & Hdisj & Hf). split_and!; [done| |].
    + apply NoDup_app. split_and!; try done. intros fp Hin Hr. apply (Hdisj fp Hin).
      rewrite <- Hset. by apply elem_of_list_to_set.
    + rewrite Hf, list_to_set_app_L. by rewrite Hset.
  - assert (Hperm : l1 ++ fp :: l2 ≡ₚ fp :: l1 ++ l2) by (symmetry; apply Permutation_middle).
    rewrite Hperm in Hnd. apply NoDup_cons in Hnd as [Hfp Hnd].
    split_and!; [by apply dial_result_ok|done|].
    rewrite dial_result_in_flight, <- Hset, list_to_set_app_L, list_to_set_app_L. simpl.
    set_solver.
Qed.

End History.

(** However discovery is driven (finds, removals, links, closes, address changes
    and timers, in any order, with outcomes arriving late), at most [MAX_DIALS]
    dials run at once, never two to the same instance, and the policy's record of
    them is exact; it never tracks more than [MAX_INSTANCES] instances, its
    backoffs stay between the first and the longest wait, and a retry is pending
    exactly for the waiting instances of a device that dials. *)
Theorem dials_bounded running p :
  History.history running p ->
  NoDup running /\ (length running <= Policy.MAX_DIALS)%nat /\
  list_to_set running = Policy.in_flight p /\
  (size (Policy.instances p) <= Policy.MAX_INSTANCES)%nat /\
  map_Forall (fun _ e =>
    Policy.FIRST_WAIT <= Policy.wait e <= Policy.MAX_WAIT /\
    (is_Some (Policy.retry_at e) <->
     Policy.state e = Policy.Waiting /\ Policy.autolink p = true)) (Policy.instances p).
Proof.
  intros (Hok & Hnd & Hset)%History.history_spec. pose proof Hok as [H1 H2 H3 _ _ _].
  split_and!; [done| |done|done|].
  - rewrite <- (size_list_to_set (C := gset Fingerprint) running) by done. by rewrite Hset.
  - intros fp e He. by destruct (H3 fp e He) as (_ & ? & ? & _).
Qed.

(** [due] starts exactly the oldest of the ready instances: those it starts are
    in the order they were found, each is one the policy may dial now (new, or
    waiting with its retry due, and not being dialled), every other ready
    instance was found later than all of them, and one is left waiting only when
    the bound of running dials is reached. *)
Theorem due_oldest_first running p now :
  History.history running p ->
  let '(started, p') := Policy.due now p in
  Forall (Policy.ready_at p now) started /\
  StronglySorted (fun a b => Policy.seq_of p a < Policy.seq_of p b) started /\
  forall fp, Policy.ready_at p now fp -> fp ∉ started ->
    size (Policy.in_flight p') = Policy.MAX_DIALS /\
    Forall (fun a => Policy.seq_of p a < Policy.seq_of p fp) started.
Proof.
  intros (Hok & _ & _)%History.history_spec. pose proof (Policy.due_spec now p Hok) as Hs.
  destruct (Policy.due now p) as [started p'].
  destruct Hs as (_ & Hnd & _ & _ & _ & _ & late & Hq & Hfull & Hr).
  pose proof (Policy.queue_sorted p now) as Hsort. rewrite Hq in Hsort.
  assert (Hlt : forall a b, Policy.ready_at p now a -> Policy.ready_at p now b -> a <> b ->
    Policy.seq_of p a <= Policy.seq_of p b -> Policy.seq_of p a < Policy.seq_of p b).
  { intros a b (ea & Ha & _) (eb & Hb & _) Hab Hle.
    pose proof (Policy.ok_seq p Hok a b ea eb Ha Hb) as Hinj.
    unfold Policy.seq_of in *. rewrite Ha, Hb in *. simpl in *.
    destruct (decide (Policy.seq ea = Policy.seq eb)) as [He|]; [by destruct (Hab (Hinj He))|lia]. }
  split; [done|]. split.
  - clear Hq Hfull. revert Hsort Hnd Hr. induction started as [|a l IH]; [constructor|].
    simpl. intros [Hsort Hall]%StronglySorted_inv [Ha Hnd]%NoDup_cons [Hra Hrl]%Forall_cons.
    constructor; [by apply IH|]. apply Forall_forall. intros b Hb.
    rewrite Forall_forall in Hall. rewrite Forall_forall in Hrl. apply Hlt; [done|by apply Hrl|by intros ->|].
    apply (Hall (Policy.seq_of p b, b)). apply elem_of_app. left.
    apply list_elem_of_fmap. by exists b.
  - intros fp Hfp Hni.
    assert (Hl : (Policy.seq_of p fp, fp) ∈ late).
    { assert (Hin : (Policy.seq_of p fp, fp) ∈ Policy.queue p now) by (by apply Policy.queue_elem).
      rewrite Hq in Hin. apply elem_of_app in Hin as [(a & [= _ ->] & Ha)%list_elem_of_fmap|]; done. }
    split; [destruct Hfull as [->|]; [by apply not_elem_of_nil in Hl|done]|].
    apply Forall_forall. intros a Ha. rewrite Forall_forall in Hr.
    apply Hlt; [by apply Hr|done|by intros ->|].
    refine (Policy.sorted_app_le Policy.by_seq _ _ (Policy.seq_of p a, a) _ Hsort _ Hl).
    apply list_elem_of_fmap. by exists a.
Qed.

(** Finding an instance when the table is full costs exactly the oldest instance
    without a link: it alone leaves, without an event, and the new one is tracked;
    and when every tracked instance is linked the find changes nothing. *)
Theorem find_evicts_oldest running p nm fp addrs :
  History.history running p -> fp <> Policy.own p -> Policy.instances p !! fp = None ->
  size (Policy.instances p) = Policy.MAX_INSTANCES ->
  let '(actions, p') := Policy.found nm fp addrs p in
  match Policy.oldest_unlinked (Policy.instances p) with
  | None => actions = [] /\ p' = p
  | Some oldest =>
      (exists e, Policy.instances p !! oldest = Some e /\ Policy.state e <> Policy.Linked /\
         forall fp' e', Policy.instances p !! fp' = Some e' -> Policy.state e' <> Policy.Linked ->
           fp' <> oldest -> Policy.seq e < Policy.seq e') /\
      (exists e, Policy.instances p' = <[fp := e]> (delete oldest (Policy.instances p)) /\
         Policy.seq e = Policy.next_seq p) /\
      Policy.Gone ∉ actions
  end.
Proof.
  intros (Hok & _ & _)%History.history_spec Hown Hfresh Hsz.
  unfold Policy.found. rewrite decide_False by done.
  unfold Policy.make_room. rewrite decide_True by (split; [done|lia]).
  destruct (Policy.oldest_unlinked (Policy.instances p)) as [oldest|] eqn:Eo; [|done].
  apply Policy.oldest_unlinked_Some in Eo as (e & He & Hs & Hmin).
  rewrite bool_decide_eq_true_2 by done. simpl.
  assert (Hne : oldest <> fp) by congruence. rewrite lookup_delete_ne, Hfresh by done. simpl.
  match goal with |- context [Policy.Found <$> ?l] => set (acts := Policy.Found <$> l) end.
  assert (Hg : Policy.Gone ∉ acts) by (by intros (? & ? & _)%list_elem_of_fmap).
  match goal with |- let '(_, _) := (if ?d then _ else _) in _ => destruct d end; simpl;
    (split; [|split; [by eexists|set_solver]]); (exists e; split_and!; [done..|]);
    intros fp' e' He' Hs' Hn; specialize (Hmin fp' e' He' Hs');
    (destruct (decide (Policy.seq e = Policy.seq e')) as [Heq|]; [|lia]);
    by destruct Hn; symmetry; eapply (Policy.ok_seq p Hok).
Qed.

(** An instance that stays unreachable is retried at doubling intervals, 5 s
    first and never more than 300 s: after the (k+1)-th failed dial in a row, the
    next is due [min (5 s * 2^k) 300 s] after that failure. *)
Theorem retries_back_off running p fp e times now :
  History.history running p -> Policy.autolink p = true ->
  Policy.instances p !! fp = Some e -> Policy.state e = Policy.New ->
  let fail t q := Policy.dial_result t fp Policy.DialUnreachable q in
  Policy.retry_of fp (fail now (foldl (fun q t => fail t q) p times)) =
    Some (now + Z.min (Policy.FIRST_WAIT * 2 ^ Z.of_nat (length times)) Policy.MAX_WAIT).
Proof.
  intros (Hok & _ & _)%History.history_spec Hauto He Hnew fail.
  destruct (Policy.entry_ok_at _ _ _ Hok He) as (_ & _ & _ & Hw). specialize (Hw Hnew).
  destruct (Policy.unreachable_streak fp times p Policy.FIRST_WAIT) as (Ha' & e' & He' & Hw' & Hs');
    [vm_compute; by split|done|by exists e; auto|].
  unfold fail. unfold Policy.retry_of. set (q := foldl _ _ _) in *. unfold Policy.dial_result.
  rewrite He', Ha'. simpl. rewrite lookup_insert_eq. by destruct Hs' as [Hs'|Hs']; rewrite Hs'; simpl; rewrite Hw'.
Qed.

(** ** fingerprint.rs, beacon.rs: what an advertisement carries of a device *)

Module Advert.

Definition hex_digit (n : Z) : Z := if decide (n < 10) then 48 + n else 87 + n.
(** [Fingerprint]'s [Display], each byte as [{byte:02x}]; text is its UTF-8 bytes. *)
Definition display (fp : Fingerprint) : bytes :=
  concat ((fun b => [hex_digit (Z.shiftr b 4); hex_digit (Z.land b 15)]) <$> fp).

Definition digit_value (c : Z) : option Z :=
  if decide (48 <= c <= 57) then Some (c - 48)
  else if decide (97 <= c <= 102) then Some (c - 87)
  else if decide (65 <= c <= 70) then Some (c - 55)
  else None.

(** [u8::from_str_radix(_, 16)] on the two bytes of a pair: a leading plus sign is
    skipped. A byte past ASCII is no digit, so the UTF-8 check decides nothing. *)
Definition from_str_radix (a b : Z) : option Z :=
  if decide (a = 43) then digit_value b
  else x ← digit_value a; y ← digit_value b; Some (x * 16 + y).

Fixpoint pairs (text : bytes) : option bytes :=
  match text with
  | [] => Some []
  | a :: b :: rest => x ← from_str_radix a b; xs ← pairs rest; Some (x :: xs)
  | [_] => None
  end.

Definition fingerprint_text (text : bytes) : option Fingerprint :=
  if decide (length text <> 64%nat) then None else pairs text.

Definition TXT_VERSION : string := "v".
Definition TXT_FINGERPRINT : string := "fp".

(** The first pair under the key decides, one without a value being none. *)
Definition fingerprint_of (txt : list (string * option bytes)) : option Fingerprint :=
  kv ← list_find (fun p => p.1 = TXT_FINGERPRINT) txt;
  value ← kv.2.2;
  fingerprint_text value.

(** The pairs [register] puts in the TXT record. *)
Definition props (own : Fingerprint) : list (string * option bytes) :=
  [(TXT_VERSION, Some (bytes_of_string "1")); (TXT_FINGERPRINT, Some (display own))].

Definition prefix (fp : Fingerprint) : bytes := take 8 fp.

Record Beacon := { version : Z; beacon_prefix : bytes }.

Definition beacon_of (fp : Fingerprint) : Beacon :=
  {| version := Peer.PROTOCOL_VERSION; beacon_prefix := prefix fp |}.
Definition to_service_data (b : Beacon) : bytes := version b :: beacon_prefix b.
Definition from_service_data (data : bytes) : option Beacon :=
  v ← head data;
  if decide (9 <= length data)%nat then
    Some {| version := v; beacon_prefix := take 8 (drop 1 data) |}
  else None.
Definition matches_ (b : Beacon) (fp : Fingerprint) : bool :=
  bool_decide (beacon_prefix b = prefix fp).

Lemma from_str_radix_display b :
  in_u8 b -> from_str_radix (hex_digit (Z.shiftr b 4)) (hex_digit (Z.land b 15)) = Some b.
Proof.
  unfold in_u8, u8_max. intros Hb.
  assert (Hl : Z.land b 15 = b mod 16) by (change 15 with (Z.ones 4); by rewrite Z.land_ones).
  rewrite Z.shiftr_div_pow2, Hl by lia. change (2 ^ 4) with 16.
  pose proof (Z.div_mod b 16 ltac:(lia)). pose proof (Z.mod_pos_bound b 16 ltac:(lia)).
  assert (0 <= b / 16 < 16) by (split; [apply Z.div_pos; lia|apply Z.div_lt_upper_bound; lia]).
  set (hi := b / 16) in *. set (lo := b mod 16) in *.
  assert (Hd : forall n, 0 <= n < 16 -> digit_value (hex_digit n) = Some n /\ hex_digit n <> 43).
  { intros n Hn. unfold hex_digit, digit_value. repeat case_decide; try lia; split; try lia; f_equal; lia. }
  unfold from_str_radix. destruct (Hd hi) as [-> ?]; [done|]. destruct (Hd lo) as [-> _]; [done|].
  rewrite decide_False by done. simpl. f_equal. lia.
Qed.

Lemma pairs_display fp : wf_bytes fp -> pairs (display fp) = Some fp.
Proof.
  induction 1 as [|b fp Hb _ IH]; [done|].
  change (display (b :: fp)) with
    (hex_digit (Z.shiftr b 4) :: hex_digit (Z.land b 15) :: display fp).
  cbn [pairs]. by rewrite from_str_radix_display, IH.
Qed.

Lemma length_display fp : length (display fp) = (2 * length fp)%nat.
Proof.
  induction fp as [|b fp IH]; [done|].
  change (length (display (b :: fp))) with (S (S (length (display fp)))). rewrite IH. simpl. lia.
Qed.

(** A TXT value may spell a byte with a plus sign. *)
Lemma plus_sign_accepted :
  fingerprint_text (concat (replicate 32 [43; 102])) = Some (replicate 32 15).
Proof. done. Qed.

(** The beacon of a device decodes and matches it, and a longer advertisement
    decodes to the same beacon. *)
Lemma beacon_roundtrip fp rest :
  length fp = 32%nat ->
  from_service_data (to_service_data (beacon_of fp) ++ rest) = Some (beacon_of fp) /\
  matches_ (beacon_of fp) fp = true.
Proof.
  intros Hl. split; [|by apply bool_decide_eq_true].
  assert (Hp : length (prefix fp) = 8%nat) by (unfold prefix; rewrite length_take; lia).
  unfold from_service_data, to_service_data. simpl.
  rewrite decide_True by (rewrite length_app; lia). f_equal.
  unfold beacon_of. f_equal. rewrite drop_0, <- Hp. apply take_app_length.
Qed.

End Advert.

(** The fingerprint a device advertises is the one its peers read: the TXT pairs
    of a registration give back the 32 bytes, and a text that is not 64 bytes
    long gives none. *)
Theorem advert_roundtrip fp :
  length fp = 32%nat -> wf_bytes fp ->
  Advert.fingerprint_of (Advert.props fp) = Some fp /\
  (forall text, length text <> 64%nat -> Advert.fingerprint_text text = None).
Proof.
  intros Hl Hw. split.
  - unfold Advert.fingerprint_of. simpl. unfold Advert.fingerprint_text.
    rewrite decide_False by (rewrite Advert.length_display, Hl; lia). by apply Advert.pairs_display.
  - intros text Ht. unfold Advert.fingerprint_text. by rewrite decide_True.
Qed.

(** ** discovery.rs: the runner around the policy *)

Module Driver.
Import Policy.

(** [Node::link]'s answers as [dial] tells them apart. *)
Inductive LinkAnswer := LinkOk | LinkUnreachable | LinkTimeout | LinkNotServing | LinkRefused.

Fixpoint dial_in_order (link : SocketAddr -> LinkAnswer) (l : list SocketAddr) : DialOutcome :=
  match l with
  | [] => DialUnreachable
  | a :: l' =>
      match link a with
      | LinkOk => DialLinked
      | LinkUnreachable | LinkTimeout | LinkNotServing => dial_in_order link l'
      | LinkRefused => DialRefused
      end
  end.

Definition dial_order (addrs : list SocketAddr) : list SocketAddr :=
  filter (fun a => is_ipv4 a = true) addrs ++ filter (fun a => is_ipv4 a = false) addrs.
Definition dial (link : SocketAddr -> LinkAnswer) (addrs : list SocketAddr) : DialOutcome :=
  dial_in_order link (dial_order addrs).

(** The state of [serve_round]. A retry timer is its deadline. *)
Record Round := {
  policy : Policy;
  names : gmap string Fingerprint;
  current : Z * Fingerprint;
  registered : option string;
  timers : gmap Fingerprint Z;
}.

Inductive Effect :=
| ReportFound (a : SocketAddr) (fp : Fingerprint)
| ReportGone (fp : Fingerprint)
| SpawnDial (fp : Fingerprint) (addrs : list SocketAddr)
| Unregister (name : string)
| Register (own : Fingerprint) (port : Z).

(** A command, with what the node and the session answer to it: the fingerprint of
    the event's peer, the name the new advertisement got. *)
Inductive Command :=
| Serve (port : Z) (own : Fingerprint) (advertised : option string)
| Stop
| NodeEvent (fp : option Fingerprint) (reason : option Peer.CloseReason)
| DialOutcome_ (fp : Fingerprint) (outcome : DialOutcome)
| RetryDue.

Inductive DnsSdEvent :=
| Resolved (name : string) (txt : list (string * option bytes)) (addrs : list SocketAddr)
| Removed (name : string)
| Restart
| Fault
| SessionEnded.

(** The round goes on, or ends and tells whether to browse again. *)
Inductive Next := Go (r : Round) | Break (re_browse : bool) (r : Round).

Definition set_policy (p : Policy) (r : Round) : Round :=
  {| policy := p; names := names r; current := current r; registered := registered r;
     timers := timers r |}.
Definition set_names (n : gmap string Fingerprint) (r : Round) : Round :=
  {| policy := policy r; names := n; current := current r; registered := registered r;
     timers := timers r |}.

Definition arm_retry (fp : Fingerprint) (r : Round) : Round :=
  {| policy := policy r; names := names r; current := current r; registered := registered r;
     timers := match retry_of fp (policy r) with
               | Some at_ => <[fp := at_]> (timers r)
               | None => delete fp (timers r)
               end |}.

Definition apply (actions : list Action) (fp : Fingerprint) (p : Policy) : list Effect :=
  omap (fun a => match a with
                 | Found addr => Some (ReportFound addr fp)
                 | Gone => Some (ReportGone fp)
                 | Dial => Some (SpawnDial fp (addresses_of fp p))
                 | Browse => None
                 end) actions.

Definition spawn_due (now : Z) (r : Round) : list Effect * Round :=
  let '(started, p) := due now (policy r) in
  ((fun fp => SpawnDial fp (addresses_of fp p)) <$> started, set_policy p r).

Definition re_register (port : Z) (own : Fingerprint) (advertised : option string) (r : Round) :
    list Effect * Round :=
  ((match registered r with Some n => [Unregister n] | None => [] end) ++ [Register own port],
   {| policy := set_own own (policy r); names := names r; current := (port, own);
      registered := advertised; timers := timers r |}).

Definition on_command (now : Z) (c : Command) (r : Round) : list Effect * Next :=
  match c with
  | Serve port own advertised =>
      if decide ((port, own) = current r) then ([], Go r)
      else let '(effs, r) := re_register port own advertised r in (effs, Go r)
  | Stop => ([], Break false r)
  | NodeEvent None _ => ([], Go r)
  | NodeEvent (Some fp) None => ([], Go (arm_retry fp (set_policy (linked fp (policy r)) r)))
  | NodeEvent (Some fp) (Some reason) =>
      ([], Go (arm_retry fp (set_policy (unlinked now fp reason (policy r)) r)))
  | DialOutcome_ fp outcome =>
      let r := arm_retry fp (set_policy (dial_result now fp outcome (policy r)) r) in
      let '(effs, r) := spawn_due now r in (effs, Go r)
  | RetryDue => let '(effs, r) := spawn_due now r in (effs, Go r)
  end.

Definition on_event (e : DnsSdEvent) (r : Round) : list Effect * Next :=
  match e with
  | Resolved name txt addrs =>
      match Advert.fingerprint_of txt with
      | None => ([], Go r)
      | Some fp =>
          let r := set_names (<[name := fp]> (names r)) r in
          let '(actions, p) := found name fp addrs (policy r) in
          (apply actions fp p, Go (set_policy p r))
      end
  | Removed name =>
      match names r !! name with
      | None => ([], Go r)
      | Some fp =>
          let r := set_names (delete name (names r)) r in
          let last_name := bool_decide (map_Forall (fun _ still => still <> fp) (names r)) in
          let '(actions, p) := if last_name then removed fp (policy r) else ([], policy r) in
          (apply actions fp p, Go (set_policy p r))
      end
  | Restart => ([], Break true (set_policy (addresses_changed (policy r)).2 r))
  | Fault => ([], Go r)
  | SessionEnded => ([], Break false r)
  end.

(** A round's start: a new session, the policy kept. *)
Definition start_round (p : Policy) (current : Z * Fingerprint) (advertised : option string) : Round :=
  {| policy := p; names := ∅; current := current; registered := advertised; timers := ∅ |}.

(** The rounds of [run] under one standing. *)
Inductive reach : Round -> Prop :=
| reach_serve own auto port advertised : reach (start_round (new own auto) (port, own) advertised)
| reach_command now c r effs r' : reach r -> on_command now c r = (effs, Go r') -> reach r'
| reach_event e r effs r' : reach r -> on_event e r = (effs, Go r') -> reach r'
| reach_restart e r effs r' advertised :
    reach r -> on_event e r = (effs, Break true r') ->
    reach (start_round (policy r') (current r') advertised).

(** Every pending retry has its timer, set at its deadline. *)
Definition armed (r : Round) : Prop :=
  forall fp t, retry_of fp (policy r) = Some t -> timers r !! fp = Some t.

Lemma retry_of_ne p m fp fp' e :
  fp' <> fp -> m = <[fp := e]> (instances p) ->
  retry_of fp' (set_instances m p) = retry_of fp' p.
Proof. intros Hne ->. unfold retry_of. simpl. by rewrite lookup_insert_ne. Qed.

Lemma retry_of_due now fp p : retry_of fp (due now p).2 = retry_of fp p.
Proof. unfold due. by case_decide. Qed.

(** The operations on one instance leave the other retries alone. *)
Lemma retry_frame fp fp' now reason oc p :
  fp' <> fp ->
  retry_of fp' (linked fp p) = retry_of fp' p /\
  retry_of fp' (unlinked now fp reason p) = retry_of fp' p /\
  retry_of fp' (dial_result now fp oc p) = retry_of fp' p.
Proof.
  intros Hne. unfold linked, unlinked, dial_result.
  destruct (instances p !! fp) as [e|]; [|done]. split_and!.
  - by eapply retry_of_ne.
  - destruct (bars reason); [by eapply retry_of_ne|]. case_decide; [by eapply retry_of_ne|done].
  - exact (retry_of_ne p _ fp fp' _ Hne eq_refl).
Qed.

Lemma arm_retry_armed fp p' r :
  armed r -> (forall fp', fp' <> fp -> retry_of fp' p' = retry_of fp' (policy r)) ->
  armed (arm_retry fp (set_policy p' r)).
Proof.
  intros Ha Hframe fp' t Ht. unfold arm_retry in *. simpl in *.
  destruct (decide (fp' = fp)) as [->|Hne].
  - rewrite Ht. by rewrite lookup_insert_eq.
  - rewrite Hframe in Ht by done. specialize (Ha _ _ Ht).
    destruct (retry_of fp p'); [by rewrite lookup_insert_ne|by rewrite lookup_delete_ne].
Qed.

Lemma retry_of_make_room fp p q fp' t :
  make_room fp p = Some q -> retry_of fp' q = Some t -> retry_of fp' p = Some t.
Proof.
  unfold make_room. case_decide; [|by intros [= <-]].
  intros (o & _ & [= <-])%bind_Some. unfold retry_of. simpl.
  intros (e & [_ He]%lookup_delete_Some & Hr)%bind_Some. by rewrite He.
Qed.

(** A find arms no retry. *)
Lemma retry_of_found nm fp addrs p fp' t :
  retry_of fp' (found nm fp addrs p).2 = Some t -> retry_of fp' p = Some t.
Proof.
  unfold found. case_decide; [done|]. destruct (make_room fp p) as [q|] eqn:E; [|done].
  cbv zeta. set (q1 := if bool_decide _ then _ else _).
  assert (Hq : instances q1 = instances q) by (unfold q1; by case_bool_decide).
  set (entry0 := default _ _). intros Hr. apply (retry_of_make_room fp p q fp' t E).
  assert (Hr' : retry_of fp' (set_instances (<[fp := {| name := nm; state := state entry0;
     addresses := addr_set addrs; wait := wait entry0; retry_at := retry_at entry0;
     seq := seq entry0 |}]> (instances q1)) q1) = Some t).
  { by revert Hr; match goal with |- context [if ?d then _ else _] => destruct d end. }
  clear Hr. unfold retry_of in *. simpl in Hr'. rewrite Hq in Hr'.
  destruct (decide (fp' = fp)) as [->|Hne].
  - rewrite lookup_insert_eq in Hr'. simpl in Hr'. unfold entry0 in Hr'. rewrite Hq in Hr'.
    by destruct (instances q !! fp).
  - by rewrite lookup_insert_ne in Hr'.
Qed.

Definition round_ok (r : Round) : Prop := ok (policy r) /\ armed r.

Lemma spawn_due_ok now r : round_ok r -> round_ok (spawn_due now r).2.
Proof.
  intros [Hok Ha]. unfold spawn_due. pose proof (due_spec now (policy r) Hok) as Hs.
  pose proof (retry_of_due now) as Hr.
  destruct (due now (policy r)) as [st p] eqn:E. destruct Hs as (Hok' & _). split; [done|].
  intros fp t Ht. apply Ha. simpl in Ht. specialize (Hr fp (policy r)). rewrite E in Hr.
  by rewrite <- Hr.
Qed.

Lemma set_own_ok fp p : ok p -> ok (set_own fp p).
Proof. intros []. by constructor. Qed.

Lemma on_command_ok now c r effs r' :
  round_ok r -> on_command now c r = (effs, Go r') -> round_ok r'.
Proof.
  intros [Hok Ha] H.
  assert (Hone : forall fp p', ok p' -> (forall fp', fp' <> fp -> retry_of fp' p' = retry_of fp' (policy r)) ->
    round_ok (arm_retry fp (set_policy p' r))).
  { intros fp p' Hok' Hf. split; [done|]. by apply arm_retry_armed. }
  destruct c as [port own adv| |[fp|] [reason|]|fp oc|]; simpl in H; try done.
  - case_decide; simplify_eq; [done|]. split; [by apply set_own_ok|exact Ha].
  - injection H as <- <-. apply Hone; [by apply unlinked_ok|].
    intros fp' Hne. by apply (retry_frame fp fp' now reason DialLinked).
  - injection H as <- <-. apply Hone; [by apply linked_ok|].
    intros fp' Hne. by apply (retry_frame fp fp' now Peer.Closed DialLinked).
  - by simplify_eq.
  - by simplify_eq.
  - match type of H with (let '(_, _) := spawn_due now ?q in _) = _ =>
      pose proof (spawn_due_ok now q) as Hs; destruct (spawn_due now q) as [effs0 r0] end.
    simplify_eq. apply Hs, Hone; [by apply dial_result_ok|].
    intros fp' Hne. by apply (retry_frame fp fp' now Peer.Closed oc).
  - pose proof (spawn_due_ok now r) as Hs. destruct (spawn_due now r) as [effs0 r0].
    simplify_eq. by apply Hs.
Qed.

Lemma retry_of_removed fp fp' p t :
  retry_of fp' (removed fp p).2 = Some t -> retry_of fp' p = Some t.
Proof.
  unfold removed. destruct (instances p !! fp); [|done]. unfold retry_of. simpl.
  intros (e & [_ He]%lookup_delete_Some & Hr)%bind_Some. by rewrite He.
Qed.

Lemma on_event_ok e r effs n :
  round_ok r -> on_event e r = (effs, n) ->
  match n with Go r' => round_ok r' | Break b r' => b = true -> ok (policy r') /\ forall fp, retry_of fp (policy r') = None end.
Proof.
  intros [Hok Ha] H. destruct e as [nm txt addrs|nm| | |]; simpl in H.
  - destruct (Advert.fingerprint_of txt) as [fp|]; [|by simplify_eq].
    pose proof (found_spec nm fp addrs (policy r) Hok) as Hs.
    pose proof (retry_of_found nm fp addrs (policy r)) as Hr.
    destruct (found nm fp addrs (policy r)) as [acts p]. simplify_eq.
    destruct Hs as (Hok' & _). split; [done|]. intros fp' t Ht. by apply Ha, Hr.
  - destruct (names r !! nm) as [fp|]; [|by simplify_eq].
    case_bool_decide; [|by simplify_eq].
    pose proof (removed_ok fp (policy r) Hok) as Hok'.
    pose proof (retry_of_removed fp) as Hr. specialize (fun fp' => Hr fp' (policy r)).
    destruct (removed fp (policy r)) as [acts p]. simplify_eq. split; [done|].
    intros fp' t Ht. by apply Ha, Hr.
  - simplify_eq. intros _. split; [by apply addresses_changed_ok|]. intros fp. unfold retry_of. simpl.
    rewrite lookup_fmap. destruct (instances (policy r) !! fp) as [e|] eqn:E; [|done]. simpl.
    destruct (entry_ok_at _ _ _ Hok E) as (_ & _ & Hi & _). unfold readdress.
    case_decide as Hs; [done|]. destruct (retry_at e); [|done]. destruct Hs. by apply Hi.
  - by simplify_eq.
  - by simplify_eq.
Qed.

Lemma reach_ok r : reach r -> round_ok r.
Proof.
  induction 1 as [own auto port adv|now c r effs r' _ IH H|e r effs r' _ IH H|e r effs r' adv _ IH H].
  - split; [apply History.new_ok|done].
  - by eapply on_command_ok.
  - exact (on_event_ok e r effs _ IH H).
  - destruct (on_event_ok e r effs _ IH H eq_refl) as [Hok Hn]. split; [done|].
    intros fp t. simpl. by rewrite Hn.
Qed.

(** After a restart the new session holds no names, so the removal of an instance
    it has not resolved again reports nothing, whatever the policy tracks. *)
Lemma restart_forgets_names p current advertised nm :
  on_event (Removed nm) (start_round p current advertised) =
  ([], Go (start_round p current advertised)).
Proof. done. Qed.

End Driver.

(** A pending retry is never forgotten: at every point of a standing, over
    commands, browse events and re-browses, each instance whose retry is pending
    has a timer set at exactly that deadline, whose command starts the due dials. *)
Theorem retries_armed r fp t :
  Driver.reach r -> Policy.retry_of fp (Driver.policy r) = Some t ->
  Driver.timers r !! fp = Some t /\
  forall now, t <= now -> fp ∉ Policy.in_flight (Driver.policy r) ->
    (size (Policy.in_flight (Driver.policy r)) < Policy.MAX_DIALS)%nat ->
    exists effs r', Driver.on_command now Driver.RetryDue r = (effs, Driver.Go r') /\
      (fp ∈ Policy.in_flight (Driver.policy r') \/
       size (Policy.in_flight (Driver.policy r')) = Policy.MAX_DIALS).
Proof.
  intros [Hok Ha]%Driver.reach_ok Ht. split; [by apply Ha|]. intros now Hnow Hfl Hroom.
  assert (Hr : Policy.ready_at (Driver.policy r) now fp).
  { unfold Policy.retry_of in Ht. apply bind_Some in Ht as (e & He & Ht). exists e. split; [done|].
    destruct (Policy.entry_ok_at _ _ _ Hok He) as (_ & _ & Hi & _).
    destruct Hi as [Hi _]. rewrite Ht in Hi. destruct (Hi ltac:(by eexists)) as [Hs _].
    unfold Policy.ready. rewrite Hs, Ht. by rewrite !bool_decide_eq_true_2. }
  unfold Driver.on_command, Driver.spawn_due.
  pose proof (Policy.due_spec now (Driver.policy r) Hok) as Hs.
  destruct (Policy.due now (Driver.policy r)) as [st p].
  destruct Hs as (_ & _ & Hf & _ & _ & _ & late & Hq & Hlate & _).
  eexists _, _. split; [done|]. simpl. destruct Hlate as [->|Hfull]; [left|by right].
  assert (Hin : (Policy.seq_of (Driver.policy r) fp, fp) ∈ Policy.queue (Driver.policy r) now)
    by (by apply Policy.queue_elem).
  rewrite Hq, app_nil_r in Hin. apply list_elem_of_fmap in Hin as (a & [= _ ->] & Hin).
  rewrite Hf. apply elem_of_union_l. by apply elem_of_list_to_set.
Qed.

(** A dial outcome that arrives after its link already fell marks the instance
    linked and drops the retry the close had armed: no link stands, and no timer
    or due check dials it again. *)
Theorem late_outcome_strands p fp e now now' now'' reason :
  Policy.instances p !! fp = Some e -> Policy.state e = Policy.New -> Policy.bars reason = false ->
  let q := Policy.dial_result now' fp Policy.DialLinked
             (Policy.unlinked now fp reason (Policy.linked fp p)) in
  Policy.retry_of fp q = None /\ ~ Policy.ready_at q now'' fp.
Proof.
  intros He Hs Hb q.
  assert (Hq : exists e', Policy.instances q !! fp = Some e' /\ Policy.state e' = Policy.Linked /\
    Policy.retry_at e' = None).
  { unfold q, Policy.linked, Policy.unlinked, Policy.dial_result. rewrite He. simpl.
    rewrite lookup_insert_eq, Hb. simpl. rewrite lookup_insert_eq. simpl.
    by rewrite lookup_insert_eq; eexists. }
  destruct Hq as (e' & He' & Hs' & Hr'). split.
  - unfold Policy.retry_of. by rewrite He'.
  - intros (e0 & He0 & H). simplify_eq. unfold Policy.ready in H. rewrite Hs' in H.
    by rewrite andb_false_r in H.
Qed.
