(* ===== verification/Links.v ===== *)
(** The peer node's links (connetto-peer/src/node.rs and link.rs): which connection
    to a peer is kept, what the node reports of it, and how kept revocation lists
    close and reach the links. The certificate and list parsers, third-party
    code, are parameters, class [X509].

    The links map is under one lock, and so is the list of kept lists: each
    definition here is what the code does under one lock, and a system step is one
    of them, so that threads interleave between them as they do in the code. *)

From stdpp Require Import base list numbers option strings gmap.
From S2P Require Import Prelude Backoff Frames Discovery.
Open Scope Z_scope.

Definition KeyId : Type := bytes.

Record DeviceIdentity := { deployment : bytes; account : string; key : KeyId }.
#[export] Instance DeviceIdentity_eq_dec : EqDecision DeviceIdentity.
Proof. solve_decision. Defined.

(** device_cert/revocation.rs: a verified list, and whether it names a serial. *)
Record RevocationList := { rl_number : Z; rl_revoked : list bytes }.

Fixpoint trim (serial : bytes) : bytes :=
  match serial with
  | 0 :: rest => trim rest
  | _ => serial
  end.
Definition revokes (l : RevocationList) (serial : bytes) : bool :=
  existsb (fun listed => bool_decide (trim listed = trim serial)) (rl_revoked l).

(** The X.509 code: serial and key id of a certificate, a list verified under its
    signer and the node's roots, the fingerprint of a leaf. *)
Class X509 := {
  certificate_serial : bytes -> option bytes;
  certificate_key_id : bytes -> option KeyId;
  verify_list : bytes -> bytes -> option RevocationList;
  leaf_fingerprint : bytes -> Fingerprint;
}.

Inductive PeerEvent :=
| EvLinked (peer : DeviceIdentity)
| EvUnlinked (peer : DeviceIdentity) (reason : Peer.CloseReason)
| EvListReceived (list signer : bytes).

Inductive LinkCommand :=
| CmdClose (reason : Peer.CloseReason)
| CmdList (list signer : bytes) (issuer : KeyId) (number : Z)
| CmdCertificate (leaf issuer : bytes).

Record KeptList := {
  kl_issuer : KeyId;
  kl_number : Z;
  kl_der : bytes;
  kl_signer : bytes;
  kl_parsed : RevocationList;
}.

Record LinkSlot := {
  slot_peer : DeviceIdentity;
  slot_remote : SocketAddr;
  slot_leaf : bytes;
  slot_issuer : bytes;
  slot_numbers : gmap KeyId Z;
  slot_dialer : KeyId;
  slot_dial : Z;
  slot_seq : Z;
}.

Inductive SlotState := Live (slot : LinkSlot) | AwaitingKeeper (peer : DeviceIdentity).

Record Identity := { id_certificate : bytes; id_issuer : bytes; id_key : KeyId }.

(** [NodeState]. [mail] is every command sent to each link's task, by the link's
    registration number; [events] is what was sent to the device, in order. *)
Record NodeState := {
  root_key_ids : list KeyId;
  own_key : option KeyId;
  identity : option Identity;
  lists : list KeptList;
  links : gmap KeyId SlotState;
  listening : bool;
  serving : bool;
  dial_count : Z;
  next_seq : Z;
  fingerprints : gmap KeyId Fingerprint;
  mail : gmap Z (list LinkCommand);
  events : list PeerEvent;
}.

Record Handshaken := {
  hs_peer : DeviceIdentity;
  hs_leaf : bytes;
  hs_issuer : bytes;
  hs_numbers : gmap KeyId Z;
  hs_dialer : KeyId;
  hs_dial : Z;
  hs_presented : bytes;
  hs_remote : SocketAddr;
}.

Inductive LinkError := LeNotServing | LeRefusedRevoked.

(** ** Field updates *)

Definition set_links (m : gmap KeyId SlotState) (n : NodeState) : NodeState :=
  {| root_key_ids := root_key_ids n; own_key := own_key n; identity := identity n; lists := lists n;
     links := m; listening := listening n; serving := serving n; dial_count := dial_count n;
     next_seq := next_seq n; fingerprints := fingerprints n; mail := mail n; events := events n |}.
Definition set_lists (l : list KeptList) (n : NodeState) : NodeState :=
  {| root_key_ids := root_key_ids n; own_key := own_key n; identity := identity n; lists := l;
     links := links n; listening := listening n; serving := serving n; dial_count := dial_count n;
     next_seq := next_seq n; fingerprints := fingerprints n; mail := mail n; events := events n |}.
Definition set_identity (o : option KeyId) (i : option Identity) (n : NodeState) : NodeState :=
  {| root_key_ids := root_key_ids n; own_key := o; identity := i; lists := lists n;
     links := links n; listening := listening n; serving := serving n; dial_count := dial_count n;
     next_seq := next_seq n; fingerprints := fingerprints n; mail := mail n; events := events n |}.
Definition set_serving (listen serve : bool) (n : NodeState) : NodeState :=
  {| root_key_ids := root_key_ids n; own_key := own_key n; identity := identity n; lists := lists n;
     links := links n; listening := listen; serving := serve; dial_count := dial_count n;
     next_seq := next_seq n; fingerprints := fingerprints n; mail := mail n; events := events n |}.
Definition set_counters (dials seqs : Z) (n : NodeState) : NodeState :=
  {| root_key_ids := root_key_ids n; own_key := own_key n; identity := identity n; lists := lists n;
     links := links n; listening := listening n; serving := serving n; dial_count := dials;
     next_seq := seqs; fingerprints := fingerprints n; mail := mail n; events := events n |}.
Definition set_fingerprints (m : gmap KeyId Fingerprint) (n : NodeState) : NodeState :=
  {| root_key_ids := root_key_ids n; own_key := own_key n; identity := identity n; lists := lists n;
     links := links n; listening := listening n; serving := serving n; dial_count := dial_count n;
     next_seq := next_seq n; fingerprints := m; mail := mail n; events := events n |}.
Definition set_mail (m : gmap Z (list LinkCommand)) (n : NodeState) : NodeState :=
  {| root_key_ids := root_key_ids n; own_key := own_key n; identity := identity n; lists := lists n;
     links := links n; listening := listening n; serving := serving n; dial_count := dial_count n;
     next_seq := next_seq n; fingerprints := fingerprints n; mail := m; events := events n |}.

(** [events.send], and a command sent to the task of link [seq]. *)
Definition emit (e : PeerEvent) (n : NodeState) : NodeState :=
  {| root_key_ids := root_key_ids n; own_key := own_key n; identity := identity n; lists := lists n;
     links := links n; listening := listening n; serving := serving n; dial_count := dial_count n;
     next_seq := next_seq n; fingerprints := fingerprints n; mail := mail n;
     events := events n ++ [e] |}.
Definition mail_of (n : NodeState) (seq : Z) : list LinkCommand := default [] (mail n !! seq).
Definition send (seq : Z) (c : LinkCommand) (n : NodeState) : NodeState :=
  set_mail (<[seq := mail_of n seq ++ [c]]> (mail n)) n.

Definition new_node (roots : list KeyId) : NodeState :=
  {| root_key_ids := roots; own_key := None; identity := None; lists := []; links := ∅;
     listening := false; serving := false; dial_count := 0; next_seq := 0; fingerprints := ∅;
     mail := ∅; events := [] |}.

(** ** node.rs *)

Section Node.
Context {X : X509}.

Definition chain_revoked (n : NodeState) (leaf issuer : bytes) : bool :=
  match certificate_serial leaf, certificate_serial issuer, certificate_key_id issuer with
  | Some leaf_serial, Some issuer_serial, Some issuer_key =>
      existsb (fun kept =>
        (bool_decide (kl_issuer kept = issuer_key) && revokes (kl_parsed kept) leaf_serial) ||
        (bool_decide (kl_issuer kept ∈ root_key_ids n) && revokes (kl_parsed kept) issuer_serial))
        (lists n)
  | _, _, _ => false
  end.

(** [IpAddr::to_canonical]: an IPv4-mapped address is its IPv4 address. *)
Definition to_canonical (a : SocketAddr) : SocketAddr :=
  match a with
  | V4 ip port => V4 ip port
  | V6 ip port _ _ =>
      if decide (Z.shiftr ip 32 = 0xffff) then V4 (Z.land ip 0xffffffff) port else V6 ip port 0 0
  end.

(** The duplicate rule: whether a new connection takes the place of the kept one. *)
Definition keep_new (existing : option SlotState) (dialer : KeyId) (dial : Z) : bool :=
  match existing with
  | None | Some (AwaitingKeeper _) => true
  | Some (Live slot) =>
      if decide (slot_dialer slot = dialer) then bool_decide (dial > slot_dial slot)
      else match bytes_cmp dialer (slot_dialer slot) with Lt => true | _ => false end
  end.

Definition catch_up_renewal (seq : Z) (presented : bytes) (n : NodeState) : NodeState :=
  match identity n with
  | Some held =>
      if decide (id_certificate held <> presented) then
        send seq (CmdCertificate (id_certificate held) (id_issuer held)) n
      else n
  | None => n
  end.

(** [register_link]: whether the connection is kept. A connection that is not kept
    is told [Close Duplicate] and hung up. *)
Definition register_link (h : Handshaken) (n : NodeState) : Result bool LinkError * NodeState :=
  let peer_key := key (hs_peer h) in
  let n := set_counters (dial_count n) (next_seq n + 1) n in
  let seq := next_seq n in
  if negb (serving n) then (Err LeNotServing, n)
  else if chain_revoked n (hs_leaf h) (hs_issuer h) then (Err LeRefusedRevoked, n)
  else
    let existing := links n !! peer_key in
    if keep_new existing (hs_dialer h) (hs_dial h) then
      let n := match existing with
               | Some (Live slot) => send (slot_seq slot) (CmdClose Peer.Duplicate) n
               | _ => n
               end in
      let slot := {| slot_peer := hs_peer h; slot_remote := to_canonical (hs_remote h);
                     slot_leaf := hs_leaf h; slot_issuer := hs_issuer h;
                     slot_numbers := hs_numbers h; slot_dialer := hs_dialer h;
                     slot_dial := hs_dial h; slot_seq := seq |} in
      let n := catch_up_renewal seq (hs_presented h) n in
      let n := set_links (<[peer_key := Live slot]> (links n)) n in
      let n := set_fingerprints (<[peer_key := leaf_fingerprint (hs_leaf h)]> (fingerprints n)) n in
      (Ok true, match existing with None => emit (EvLinked (hs_peer h)) n | _ => n end)
    else (Ok false, n).

(** [Node::link] takes its dial number before it connects. *)
Definition take_dial (n : NodeState) : Result (Z * Identity) LinkError * NodeState :=
  match identity n with
  | None => (Err LeNotServing, n)
  | Some held => (Ok (dial_count n + 1, held), set_counters (dial_count n + 1) (next_seq n) n)
  end.

Definition live_slots (n : NodeState) : list LinkSlot :=
  omap (fun kv => match kv.2 with Live slot => Some slot | AwaitingKeeper _ => None end)
    (map_to_list (links n)).

Definition renew_links (n : NodeState) : NodeState :=
  match identity n with
  | None => n
  | Some held =>
      foldl (fun n slot => send (slot_seq slot)
                             (CmdCertificate (id_certificate held) (id_issuer held)) n)
        n (live_slots n)
  end.

(** [Node::serve]; [bound] is whether the port binds and a runtime drives it. *)
Definition serve (i : Identity) (bound : bool) (n : NodeState) : Result unit unit * NodeState :=
  let renewed := match identity n with
                 | None => true
                 | Some held => bool_decide (id_certificate held <> id_certificate i)
                 end in
  let n := set_identity (Some (id_key i)) (Some i) n in
  if listening n then (Ok tt, if renewed then renew_links n else n)
  else if bound then (Ok tt, set_serving true true n)
  else (Err tt, n).

(** [stop_state]: the events it still has to send once the lock is free. *)
Definition stop_state (reason : Peer.CloseReason) (n : NodeState) : list PeerEvent * NodeState :=
  let n := set_identity None None n in
  let drained := map_to_list (links n) in
  let n := set_links ∅ (set_serving false false n) in
  ((fun kv => match kv.2 with
              | Live slot => EvUnlinked (slot_peer slot) reason
              | AwaitingKeeper peer => EvUnlinked peer reason
              end) <$> drained,
   foldl (fun n kv => match kv.2 with
                      | Live slot => send (slot_seq slot) (CmdClose reason) n
                      | AwaitingKeeper _ => n
                      end) n drained).

(** [keep_list], the part under the lists lock: the list is kept, unless one of its
    issuer with the same or a higher number is. *)
Definition keep_insert (list signer : bytes) (n : NodeState) : option KeptList * NodeState :=
  match certificate_key_id signer, verify_list list signer with
  | Some issuer, Some parsed =>
      let kept := {| kl_issuer := issuer; kl_number := rl_number parsed; kl_der := list;
                     kl_signer := signer; kl_parsed := parsed |} in
      match list_find (fun l => kl_issuer l = issuer) (lists n) with
      | Some (_, existing) =>
          if decide (kl_number existing >= kl_number kept) then (None, n)
          else (Some kept, set_lists (filter (fun l => kl_issuer l <> issuer) (lists n) ++ [kept]) n)
      | None => (Some kept, set_lists (filter (fun l => kl_issuer l <> issuer) (lists n) ++ [kept]) n)
      end
  | _, _ => (None, n)
  end.

(** Whether a peer with these numbers lacks the list. *)
Definition lacks (numbers : gmap KeyId Z) (kept : KeptList) : bool :=
  match numbers !! kl_issuer kept with
  | None => true
  | Some had => bool_decide (kl_number kept > had)
  end.

(** The part under the links lock: what one link is sent. *)
Definition sweep_slot (kept : KeptList) (n0 : NodeState) (n : NodeState) (slot : LinkSlot) : NodeState :=
  let n := if lacks (slot_numbers slot) kept then
             send (slot_seq slot)
               (CmdList (kl_der kept) (kl_signer kept) (kl_issuer kept) (kl_number kept)) n
           else n in
  if chain_revoked n0 (slot_leaf slot) (slot_issuer slot) then
    send (slot_seq slot) (CmdClose Peer.PeerRevoked) n
  else n.
Definition keep_sweep (kept : KeptList) (n : NodeState) : NodeState :=
  foldl (sweep_slot kept n) n (live_slots n).

(** [exchange_hello]: the lists the peer lacks, by the numbers its hello names. *)
Definition hello_lists (n : NodeState) (peer_numbers : gmap KeyId Z) : list KeptList :=
  filter (fun kept => lacks peer_numbers kept = true) (lists n).

(** ** link.rs *)

(** The link's own slot, while it is the current one. *)
Definition own_slot (k : KeyId) (seq : Z) (n : NodeState) : option LinkSlot :=
  match links n !! k with
  | Some (Live slot) => if decide (slot_seq slot = seq) then Some slot else None
  | _ => None
  end.

(** [finish]: the event still to send, once the lock is free. *)
Definition finish (k : KeyId) (seq : Z) (reason : Peer.CloseReason) (n : NodeState) :
    option PeerEvent * NodeState :=
  match own_slot k seq n with
  | None => (None, n)
  | Some slot =>
      if decide (reason = Peer.Duplicate) then
        (None, set_links (<[k := AwaitingKeeper (slot_peer slot)]> (links n)) n)
      else (Some (EvUnlinked (slot_peer slot) reason), set_links (delete k (links n)) n)
  end.

(** The task a [Duplicate] close leaves, after the hello timeout. *)
Definition keeper_timeout (k : KeyId) (n : NodeState) : option PeerEvent * NodeState :=
  match links n !! k with
  | Some (AwaitingKeeper peer) =>
      (Some (EvUnlinked peer Peer.Duplicate), set_links (delete k (links n)) n)
  | _ => (None, n)
  end.

(** A list was written to the peer: a later forward does not resend it. *)
Definition list_written (k : KeyId) (seq : Z) (issuer : KeyId) (number : Z) (n : NodeState) : NodeState :=
  match own_slot k seq n with
  | Some slot =>
      let slot := {| slot_peer := slot_peer slot; slot_remote := slot_remote slot;
                     slot_leaf := slot_leaf slot; slot_issuer := slot_issuer slot;
                     slot_numbers := <[issuer := number]> (slot_numbers slot);
                     slot_dialer := slot_dialer slot; slot_dial := slot_dial slot;
                     slot_seq := slot_seq slot |} in
      set_links (<[k := Live slot]> (links n)) n
  | None => n
  end.

(** [renew] once the new chain verified: the link's chain is replaced. *)
Definition renew_slot (k : KeyId) (seq : Z) (leaf issuer : bytes) (n : NodeState) : NodeState :=
  match own_slot k seq n with
  | Some slot =>
      let slot := {| slot_peer := slot_peer slot; slot_remote := slot_remote slot;
                     slot_leaf := leaf; slot_issuer := issuer; slot_numbers := slot_numbers slot;
                     slot_dialer := slot_dialer slot; slot_dial := slot_dial slot;
                     slot_seq := slot_seq slot |} in
      set_fingerprints (<[k := leaf_fingerprint leaf]> (fingerprints n))
        (set_links (<[k := Live slot]> (links n)) n)
  | None => n
  end.

(** What stops the frame loop. *)
Inductive Stop := StopClose (reason : Peer.CloseReason) | WriteFailed.

Inductive Refusal :=
| RUntrusted | RRevoked | RExpired | RNotYetValid | RProfile | RAttestation | ROwnKey.

(** [renew]'s decision: [verified] is the verifier's answer, the key the chain names. *)
Definition renew_reason (verified : Result KeyId Refusal) (k : KeyId) : option Peer.CloseReason :=
  match verified with
  | Err RRevoked => Some Peer.PeerRevoked
  | Err (RExpired | RNotYetValid) => Some Peer.PeerExpired
  | Err _ => Some Peer.Protocol
  | Ok named => if decide (named <> k) then Some Peer.Protocol else None
  end.

(** What a received frame does to the link: the stop, the event, and whether a [Pong]
    is owed; [written] is whether that write succeeds. *)
Definition on_frame (k : KeyId) (frame : Result (option Peer.PeerFrame) Peer.FrameError)
    (written : bool) (verified : Result KeyId Refusal) : option Stop * option PeerEvent :=
  match frame with
  | Err (Peer.TooLong | Peer.Malformed) => (Some (StopClose Peer.Protocol), None)
  | Err (Peer.Io _) => (Some (StopClose Peer.Closed), None)
  | Ok None => (Some (StopClose Peer.Closed), None)
  | Ok (Some Peer.Ping) => (if written then None else Some WriteFailed, None)
  | Ok (Some Peer.Pong) => (None, None)
  | Ok (Some (Peer.List_ list signer)) => (None, Some (EvListReceived list signer))
  | Ok (Some (Peer.Certificate _ _)) => (StopClose <$> renew_reason verified k, None)
  | Ok (Some (Peer.Close reason)) =>
      (Some (StopClose (if decide (reason = Peer.Duplicate) then Peer.Duplicate else Peer.Closed)), None)
  | Ok (Some (Peer.Hello _ _ _ | Peer.Offer _ _ _ _)) => (Some (StopClose Peer.Protocol), None)
  end.

(** [queued_close] over the frames that were still to read, [None] when the bound
    passes first. *)
Fixpoint queued_close (frames : list (Result (option Peer.PeerFrame) Peer.FrameError)) : Peer.CloseReason :=
  match frames with
  | [] => Peer.Closed
  | Ok (Some (Peer.Close reason)) :: _ =>
      if decide (reason = Peer.Duplicate) then Peer.Duplicate else Peer.Closed
  | Ok None :: _ | Err _ :: _ => Peer.Closed
  | Ok (Some _) :: rest => queued_close rest
  end.

(** The reason the loop finishes with. *)
Definition stop_reason (s : Stop)
    (frames : list (Result (option Peer.PeerFrame) Peer.FrameError)) : Peer.CloseReason :=
  match s with StopClose reason => reason | WriteFailed => queued_close frames end.

(** ** The threads of a node *)

(** A node with what its threads still have to do: the events to send after a lock,
    the kept lists to sweep the links for, the verified chains to put in place.
    [stale] is a ghost: the links given a chain that was revoked by then. *)
Record Sys := {
  node : NodeState;
  unsent : list PeerEvent;
  sweeps : list KeptList;
  renewals : list (KeyId * Z * bytes * bytes);
  stale : list Z;
}.

Definition on_node (n : NodeState) (s : Sys) : Sys :=
  {| node := n; unsent := unsent s; sweeps := sweeps s; renewals := renewals s;
     stale := stale s |}.
Definition owe (evs : list PeerEvent) (n : NodeState) (s : Sys) : Sys :=
  {| node := n; unsent := unsent s ++ evs; sweeps := sweeps s; renewals := renewals s;
     stale := stale s |}.

Inductive step : Sys -> Sys -> Prop :=
| step_dial s : step s (on_node (take_dial (node s)).2 s)
| step_register h s : step s (on_node (register_link h (node s)).2 s)
| step_serve i bound s : step s (on_node (serve i bound (node s)).2 s)
| step_stop reason s :
    step s (owe (stop_state reason (node s)).1 (stop_state reason (node s)).2 s)
| step_finish k seq reason s :
    step s (owe (option_list (finish k seq reason (node s)).1) (finish k seq reason (node s)).2 s)
| step_timeout k s :
    step s (owe (option_list (keeper_timeout k (node s)).1) (keeper_timeout k (node s)).2 s)
| step_list_event list signer s : step s (on_node (emit (EvListReceived list signer) (node s)) s)
| step_written k seq issuer number s : step s (on_node (list_written k seq issuer number (node s)) s)
| step_keep list signer s :
    step s {| node := (keep_insert list signer (node s)).2; unsent := unsent s;
              sweeps := sweeps s ++ option_list (keep_insert list signer (node s)).1;
              renewals := renewals s; stale := stale s |}
| step_sweep kept l1 l2 s :
    sweeps s = l1 ++ kept :: l2 ->
    step s {| node := keep_sweep kept (node s); unsent := unsent s; sweeps := l1 ++ l2;
              renewals := renewals s; stale := stale s |}
| step_verify k seq leaf issuer s :
    chain_revoked (node s) leaf issuer = false ->
    step s {| node := node s; unsent := unsent s; sweeps := sweeps s;
              renewals := (k, seq, leaf, issuer) :: renewals s; stale := stale s |}
| step_renew k seq leaf issuer l1 l2 s :
    renewals s = l1 ++ (k, seq, leaf, issuer) :: l2 ->
    step s {| node := renew_slot k seq leaf issuer (node s); unsent := unsent s; sweeps := sweeps s;
              renewals := l1 ++ l2;
              stale := if chain_revoked (node s) leaf issuer then seq :: stale s else stale s |}
| step_emit e l1 l2 s :
    unsent s = l1 ++ e :: l2 ->
    step s {| node := emit e (node s); unsent := l1 ++ l2; sweeps := sweeps s;
              renewals := renewals s; stale := stale s |}.

Definition start (roots : list KeyId) : Sys :=
  {| node := new_node roots; unsent := []; sweeps := []; renewals := []; stale := [] |}.

Inductive reach (roots : list KeyId) : Sys -> Prop :=
| reach_start : reach roots (start roots)
| reach_step s s' : reach roots s -> step s s' -> reach roots s'.
End Node.

(** ** What is reported of a peer *)

Fixpoint count {A} (f : A -> bool) (l : list A) : nat :=
  match l with [] => O | x :: l' => ((if f x then 1 else 0) + count f l')%nat end.

Lemma count_app {A} (f : A -> bool) l k : count f (l ++ k) = (count f l + count f k)%nat.
Proof. induction l as [|x l IH]; simpl; lia. Qed.
Lemma count_perm {A} (f : A -> bool) l k : l ≡ₚ k -> count f l = count f k.
Proof. induction 1; simpl; lia. Qed.
Lemma count_ext {A} (f g : A -> bool) l : (forall x, x ∈ l -> f x = g x) -> count f l = count g l.
Proof.
  induction l as [|x l IH]; intros H; [done|]. simpl. rewrite H by left. f_equal.
  apply IH. intros y Hy. apply H. by right.
Qed.
Lemma count_fmap {A B} (f : B -> bool) (g : A -> B) l : count f (g <$> l) = count (fun x => f (g x)) l.
Proof. induction l as [|x l IH]; [done|]. simpl. f_equal. exact IH. Qed.

(** A key occurs once in a map that holds it. *)
Lemma count_key {A} (m : gmap KeyId A) k :
  count (fun kv => bool_decide (kv.1 = k)) (map_to_list m) = if decide (is_Some (m !! k)) then 1%nat else O.
Proof.
  induction m as [|k' x m Hk IH] using map_ind.
  - rewrite map_to_list_empty. simpl. rewrite decide_False; [done|]. rewrite lookup_empty. by intros [? ?].
  - rewrite (count_perm _ _ ((k', x) :: map_to_list m)) by (by apply map_to_list_insert).
    simpl. rewrite IH. destruct (decide (k' = k)) as [->|Hne].
    + rewrite bool_decide_eq_true_2, lookup_insert_eq by done.
      rewrite decide_False by (rewrite Hk; by intros [? ?]). by rewrite decide_True by (by eexists).
    + rewrite bool_decide_eq_false_2, lookup_insert_ne by done. done.
Qed.

Definition slot_identity (s : SlotState) : DeviceIdentity :=
  match s with Live slot => slot_peer slot | AwaitingKeeper peer => peer end.

Definition is_linked (k : KeyId) (e : PeerEvent) : bool :=
  match e with EvLinked p => bool_decide (key p = k) | _ => false end.
Definition is_unlinked (k : KeyId) (e : PeerEvent) : bool :=
  match e with EvUnlinked p _ => bool_decide (key p = k) | _ => false end.

Definition slots_named (n : NodeState) : Prop :=
  forall k s, links n !! k = Some s -> key (slot_identity s) = k.

(** The node's events and links after a step that touches neither. *)
Definition quiet (n n' : NodeState) : Prop :=
  links n' = links n /\ events n' = events n /\ lists n' = lists n /\
  root_key_ids n' = root_key_ids n.
Lemma quiet_refl n : quiet n n.
Proof. done. Qed.
Lemma quiet_trans a b c : quiet a b -> quiet b c -> quiet a c.
Proof. unfold quiet. intuition congruence. Qed.
Lemma quiet_send seq c n : quiet n (send seq c n).
Proof. done. Qed.
Lemma quiet_foldl {A} (f : NodeState -> A -> NodeState) l n :
  (forall n x, quiet n (f n x)) -> quiet n (foldl f n l).
Proof.
  intros H. revert n. induction l as [|x l IH]; intros n; [apply quiet_refl|].
  simpl. eapply quiet_trans; [apply H|apply IH].
Qed.
#[export] Hint Resolve quiet_refl quiet_send : connetto.

Section Reports.
Context {X : X509}.

Lemma quiet_catch_up seq presented n : quiet n (catch_up_renewal seq presented n).
Proof. unfold catch_up_renewal. destruct (identity n); [|done]. by case_decide. Qed.
Lemma quiet_renew_links n : quiet n (renew_links n).
Proof. unfold renew_links. destruct (identity n); [|done]. apply quiet_foldl. auto with connetto. Qed.
Lemma quiet_sweep_slot kept n0 n slot : quiet n (sweep_slot kept n0 n slot).
Proof. unfold sweep_slot. destruct (lacks _ _), (chain_revoked _ _ _); done. Qed.
Lemma quiet_sweep kept n : quiet n (keep_sweep kept n).
Proof. apply quiet_foldl. intros; apply quiet_sweep_slot. Qed.

(** The links and events of a registration, by its outcome. *)
Lemma register_cases h n :
  let '(r, n') := register_link h n in
  match r with
  | Ok true =>
      (exists slot, links n' = <[key (hs_peer h) := Live slot]> (links n) /\
         slot_peer slot = hs_peer h /\ slot_dialer slot = hs_dialer h /\ slot_dial slot = hs_dial h /\
         slot_leaf slot = hs_leaf h /\ slot_issuer slot = hs_issuer h /\ slot_seq slot = next_seq n + 1) /\
      events n' = events n ++ (match links n !! key (hs_peer h) with
                               | None => [EvLinked (hs_peer h)] | Some _ => [] end) /\
      chain_revoked n (hs_leaf h) (hs_issuer h) = false
  | _ => links n' = links n /\ events n' = events n
  end /\ lists n' = lists n /\ root_key_ids n' = root_key_ids n.
Proof.
  unfold register_link. cbv zeta. simpl. destruct (serving n); [|done]. simpl.
  destruct (chain_revoked _ (hs_leaf h) (hs_issuer h)) eqn:Hrev; [done|].
  destruct (keep_new _ _ _); [|done].
  set (n1 := match links n !! key (hs_peer h) with Some (Live slot) => _ | _ => _ end).
  assert (H1 : quiet n n1) by (unfold n1; destruct (links n !! _) as [[]|]; done).
  pose proof (quiet_trans _ _ _ H1 (quiet_catch_up (next_seq n + 1) (hs_presented h) n1)) as H2.
  set (n2 := catch_up_renewal (next_seq n + 1) (hs_presented h) n1) in *.
  destruct H2 as (Hl & He & Hls & Hr).
  destruct (links n !! key (hs_peer h)); simpl; rewrite Hl, He, Hls, Hr; rewrite ?app_nil_r;
    (split_and!; [by eexists|done|done|done|done]).
Qed.

Definition tracked (k : KeyId) (n : NodeState) : nat :=
  if decide (is_Some (links n !! k)) then 1%nat else O.

Definition balanced (k : KeyId) (s : Sys) : Prop :=
  count (is_linked k) (events (node s)) =
  (count (is_unlinked k) (events (node s)) + count (is_unlinked k) (unsent s) + tracked k (node s))%nat /\
  count (is_linked k) (unsent s) = O.

Lemma tracked_insert k k' x n :
  tracked k (set_links (<[k' := x]> (links n)) n) =
  if decide (k' = k) then 1%nat else tracked k n.
Proof.
  unfold tracked. simpl. destruct (decide (k' = k)) as [->|Hne].
  - rewrite lookup_insert_eq. by rewrite decide_True by (by eexists).
  - by rewrite lookup_insert_ne.
Qed.

Lemma tracked_delete k k' n s0 :
  links n !! k' = Some s0 ->
  (tracked k (set_links (delete k' (links n)) n) + (if decide (k' = k) then 1 else 0))%nat = tracked k n.
Proof.
  intros H. unfold tracked. simpl. destruct (decide (k' = k)) as [->|Hne].
  - rewrite lookup_delete_eq. rewrite decide_False by (by intros [? ?]).
    by rewrite decide_True by (by eexists).
  - rewrite lookup_delete_ne by done. lia.
Qed.

(** Every step keeps each slot under its peer's key. *)
Lemma slots_named_insert k x n :
  key (slot_identity x) = k -> slots_named n -> slots_named (set_links (<[k := x]> (links n)) n).
Proof.
  intros Hx H k' s. simpl. intros [[<- <-]|[_ Hs]]%lookup_insert_Some; [done|by apply H].
Qed.

Lemma slots_named_delete k n : slots_named n -> slots_named (set_links (delete k (links n)) n).
Proof. intros H k' s. simpl. intros [_ Hs]%lookup_delete_Some. by apply H. Qed.

Lemma slots_named_quiet n n' : quiet n n' -> slots_named n -> slots_named n'.
Proof. intros (Hl & _) H k s. rewrite Hl. apply H. Qed.

Lemma balanced_quiet k n s :
  quiet (node s) n -> balanced k s -> balanced k (on_node n s).
Proof.
  intros (Hl & He & _) [H1 H2]. split; [|done]. unfold tracked in *. simpl. by rewrite Hl, He.
Qed.

(** A slot leaves the map and its event is owed. *)
Lemma balanced_delete k k' s0 reason s :
  links (node s) !! k' = Some s0 -> key (slot_identity s0) = k' -> balanced k s ->
  balanced k (owe [EvUnlinked (slot_identity s0) reason]
                (set_links (delete k' (links (node s))) (node s)) s).
Proof.
  intros Hs Hk [H1 H2]. unfold balanced, owe. cbn [unsent node events set_links].
  rewrite !count_app. simpl. rewrite Hk.
  pose proof (tracked_delete k k' (node s) s0 Hs) as Ht.
  case_bool_decide; [rewrite decide_True in Ht by done|rewrite decide_False in Ht by done]; lia.
Qed.

Lemma owe_nil n s : owe [] n s = on_node n s.
Proof. unfold owe. by rewrite app_nil_r. Qed.

Lemma own_slot_Some k seq n slot :
  own_slot k seq n = Some slot -> links n !! k = Some (Live slot) /\ slot_seq slot = seq.
Proof.
  unfold own_slot. destruct (links n !! k) as [[s|p]|]; [|done|done].
  case_decide; [|done]. by intros [= <-].
Qed.

(** Replacing a slot by one of the same peer. *)
Lemma balanced_replace k k' x x' s :
  links (node s) !! k' = Some x -> slot_identity x' = slot_identity x ->
  slots_named (node s) -> balanced k s ->
  slots_named (set_links (<[k' := x']> (links (node s))) (node s)) /\
  balanced k (on_node (set_links (<[k' := x']> (links (node s))) (node s)) s).
Proof.
  intros Hx Hid Hn [H1 H2]. split.
  - apply slots_named_insert; [rewrite Hid; by apply Hn|done].
  - split; [|done]. cbn [on_node node events set_links unsent]. rewrite tracked_insert, H1. f_equal.
    destruct (decide (k' = k)) as [->|]; [|done]. unfold tracked. rewrite Hx.
    by rewrite decide_True by (by eexists).
Qed.

Lemma keep_insert_quiet list signer n :
  links (keep_insert list signer n).2 = links n /\ events (keep_insert list signer n).2 = events n.
Proof.
  unfold keep_insert. destruct (certificate_key_id signer), (verify_list list signer); try done.
  destruct (list_find _ _) as [[i e]|]; [by case_decide|done].
Qed.

Lemma stop_quiet reason n :
  links (stop_state reason n).2 = ∅ /\ events (stop_state reason n).2 = events n.
Proof.
  unfold stop_state. cbv zeta. simpl.
  match goal with |- context [foldl ?f ?n0 ?l] => pose proof (quiet_foldl f l n0) as Hq end.
  destruct Hq as (Hl & He & _); [|by rewrite Hl, He].
  intros n0 [k' [slot|p]]; simpl; auto with connetto.
Qed.

Lemma stop_events k reason n :
  slots_named n ->
  count (is_unlinked k) (stop_state reason n).1 = tracked k n /\
  count (is_linked k) (stop_state reason n).1 = O.
Proof.
  intros Hn. unfold stop_state, tracked. cbv zeta. cbn [fst links set_identity].
  rewrite !count_fmap. split.
  - rewrite <- (count_key (links n) k). apply count_ext. intros [k' s] Hin%elem_of_map_to_list.
    specialize (Hn _ _ Hin). destruct s; simpl in *; by rewrite Hn.
  - rewrite (count_ext _ (fun _ => false)); [by induction (map_to_list _)|].
    by intros [k' [slot|p]] _.
Qed.

Lemma finish_balanced k k' seq reason s :
  slots_named (node s) -> balanced k s ->
  slots_named (finish k' seq reason (node s)).2 /\
  balanced k (owe (option_list (finish k' seq reason (node s)).1) (finish k' seq reason (node s)).2 s).
Proof.
  intros Hn Hb. unfold finish. destruct (own_slot k' seq (node s)) as [slot|] eqn:E.
  - apply own_slot_Some in E as [E _]. case_decide; simpl; rewrite ?owe_nil.
    + by apply (balanced_replace k k' (Live slot)).
    + split; [by apply slots_named_delete|].
      by apply (balanced_delete k k' (Live slot)); [|apply (Hn _ _ E)|].
  - simpl. rewrite owe_nil. split; [done|]. apply balanced_quiet; [apply quiet_refl|done].
Qed.

Lemma timeout_balanced k k' s :
  slots_named (node s) -> balanced k s ->
  slots_named (keeper_timeout k' (node s)).2 /\
  balanced k (owe (option_list (keeper_timeout k' (node s)).1) (keeper_timeout k' (node s)).2 s).
Proof.
  intros Hn Hb. unfold keeper_timeout. destruct (links (node s) !! k') as [[slot|p]|] eqn:E; simpl;
    rewrite ?owe_nil; try (split; [done|]; apply balanced_quiet; [apply quiet_refl|done]).
  split; [by apply slots_named_delete|].
  by apply (balanced_delete k k' (AwaitingKeeper p)); [|apply (Hn _ _ E)|].
Qed.

Lemma register_balanced k h s :
  slots_named (node s) -> balanced k s ->
  slots_named (register_link h (node s)).2 /\ balanced k (on_node (register_link h (node s)).2 s).
Proof.
  intros Hn [H1 H2]. pose proof (register_cases h (node s)) as Hc.
  destruct (register_link h (node s)) as [r n']. destruct Hc as [Hc _].
  destruct r as [[|]|]; simpl.
  2,3: destruct Hc as [Hl He]; (split; [intros k0 s0; rewrite Hl; apply Hn|]);
    unfold balanced, tracked in *; simpl; by rewrite Hl, He.
  destruct Hc as ((slot & Hl & Hp & _) & He & _). split.
  - intros k0 s0. rewrite Hl. intros [[<- <-]|[_ Hs0]]%lookup_insert_Some; [simpl; by rewrite Hp|].
    by apply Hn.
  - split; [|done]. unfold tracked in *. simpl. rewrite Hl, He, !count_app, H1.
    destruct (decide (key (hs_peer h) = k)) as [<-|Hne].
    + rewrite lookup_insert_eq. rewrite (decide_True (P := is_Some (Some _))) by (by eexists).
      destruct (links (node s) !! key (hs_peer h)) eqn:E; simpl;
        rewrite ?bool_decide_eq_true_2 by done; lia.
    + rewrite lookup_insert_ne by done.
      destruct (links (node s) !! key (hs_peer h)); simpl;
        rewrite ?bool_decide_eq_false_2 by done; lia.
Qed.

Lemma step_balanced k s s' :
  step s s' -> slots_named (node s) -> balanced k s -> slots_named (node s') /\ balanced k s'.
Proof.
  intros Hst Hn Hb.
  assert (Hq : forall n, quiet (node s) n -> slots_named n /\ balanced k (on_node n s)).
  { intros n Hq. split; [by eapply slots_named_quiet|by apply balanced_quiet]. }
  destruct Hst as [s|h s|i bound s|reason s|k' seq reason s|k' s|l sg s|k' seq iss num s|l sg s
    |kept l1 l2 s Hs|k' seq leaf iss s Hv|k' seq leaf iss l1 l2 s Hs|e l1 l2 s Hs]; cbn [on_node node].
  - apply Hq. unfold take_dial. by destruct (identity (node s)).
  - by apply register_balanced.
  - apply Hq. unfold serve. cbv zeta. cbn [listening set_identity]. destruct (listening (node s)).
    + destruct (identity (node s)) as [held|]; [case_bool_decide|]; cbn [snd];
        (apply (quiet_trans _ (set_identity (Some (id_key i)) (Some i) (node s)));
         [done|first [apply quiet_renew_links|apply quiet_refl]]).
    + by destruct bound.
  - destruct (stop_quiet reason (node s)) as [Hl He].
    destruct (stop_events k reason (node s) Hn) as [Hu Hli]. cbn [owe node].
    split; [intros k0 s0; by rewrite Hl|]. destruct Hb as [H1 H2].
    unfold balanced, owe. cbn [unsent node]. rewrite !count_app, Hu, Hli, He. split; [|lia].
    unfold tracked at 2. rewrite Hl, lookup_empty. rewrite decide_False by (by intros [? ?]). lia.
  - by apply finish_balanced.
  - by apply timeout_balanced.
  - split; [exact Hn|]. destruct Hb as [H1 H2]. unfold balanced, tracked in *. simpl.
    rewrite !count_app. simpl. split; [lia|done].
  - unfold list_written. destruct (own_slot k' seq (node s)) as [slot|] eqn:E; [|by apply (Hq (node s))].
    apply own_slot_Some in E as [E _]. by apply (balanced_replace k k' (Live slot)).
  - destruct (keep_insert_quiet l sg (node s)) as [Hl He].
    split; [intros k0 s0; simpl; rewrite Hl; apply Hn|].
    unfold balanced, tracked in *. simpl. by rewrite Hl, He.
  - destruct (quiet_sweep kept (node s)) as (Hl & He & _).
    split; [intros k0 s0; simpl; rewrite Hl; apply Hn|].
    unfold balanced, tracked in *. simpl. by rewrite Hl, He.
  - done.
  - unfold renew_slot. destruct (own_slot k' seq (node s)) as [slot|] eqn:E; [|done].
    apply own_slot_Some in E as [E _].
    by destruct (balanced_replace k k' (Live slot)
      (Live {| slot_peer := slot_peer slot; slot_remote := slot_remote slot; slot_leaf := leaf;
               slot_issuer := iss; slot_numbers := slot_numbers slot; slot_dialer := slot_dialer slot;
               slot_dial := slot_dial slot; slot_seq := slot_seq slot |}) s E eq_refl Hn Hb).
  - split; [exact Hn|]. destruct Hb as [H1 H2]. unfold balanced, tracked in *. simpl.
    rewrite Hs, !count_app in H1, H2. rewrite !count_app. simpl in *. split; [|lia].
    destruct (is_linked k e) eqn:El; [lia|]. lia.
Qed.

Lemma reach_balanced roots k s : reach roots s -> slots_named (node s) /\ balanced k s.
Proof.
  induction 1 as [|s s' _ [IH1 IH2] Hs].
  - split; [by intros k' s'; simpl; rewrite lookup_empty|]. by split.
  - by eapply step_balanced.
Qed.

Lemma chain_unlisted n leaf issuer : lists n = [] -> chain_revoked n leaf issuer = false.
Proof.
  intros Hn. unfold chain_revoked. rewrite Hn.
  by destruct (certificate_serial leaf), (certificate_serial issuer), (certificate_key_id issuer).
Qed.

(** The first link to a peer of a node that keeps no list. *)
Lemma register_fresh h n :
  serving n = true -> lists n = [] -> links n !! key (hs_peer h) = None ->
  let n' := (register_link h n).2 in
  (exists slot, links n' = <[key (hs_peer h) := Live slot]> (links n) /\
     slot_seq slot = next_seq n + 1 /\ slot_peer slot = hs_peer h) /\
  events n' = events n ++ [EvLinked (hs_peer h)] /\ lists n' = [] /\ serving n' = true.
Proof.
  intros Hs Hl Hk. pose proof (register_cases h n) as Hr.
  assert (Hok : (register_link h n).1 = Ok true /\ serving (register_link h n).2 = true).
  { unfold register_link. cbv zeta. simpl. rewrite Hs, Hk. simpl. rewrite chain_unlisted by done. simpl.
    split; [done|]. unfold catch_up_renewal. simpl. destruct (identity n) as [held|]; simpl; [|done].
    by case_decide. }
  destruct (register_link h n) as [r n']. simpl in *. destruct Hok as [-> Hs'].
  destruct Hr as (((slot & Hl' & Hp & _ & _ & _ & _ & Hq) & He & _) & Hls & _).
  rewrite Hk in He. rewrite Hls, Hl, Hs', He. split_and!; [by exists slot|done..].
Qed.

End Reports.

(** C23. Over every interleaving of the node's threads the reports of a peer add up:
    the links reported are the closes reported, the closes still to be reported,
    and one more exactly while the node holds the peer. So when nothing is left
    to send, a peer is reported linked exactly while the node keeps a link to it
    or waits for its keeper, and no close is ever reported twice. *)
Theorem link_reports_balanced {X : X509} roots s k :
  reach roots s ->
  let linked := count (is_linked k) (events (node s)) in
  let unlinked := count (is_unlinked k) (events (node s)) in
  (unlinked <= linked)%nat /\
  linked = (unlinked + count (is_unlinked k) (unsent s) +
            (if decide (is_Some (links (node s) !! k)) then 1 else 0))%nat /\
  (unsent s = [] -> is_Some (links (node s) !! k) <-> linked = S unlinked).
Proof.
  intros [_ [H _]]%(reach_balanced roots k). cbv zeta. unfold tracked in H. rewrite H.
  split; [lia|]. split; [done|]. intros Hu. rewrite Hu. simpl. case_decide; split; try done; lia.
Qed.

(** The close is reported after the lock is released: a link that registers in
    between is reported first, and the peer's last report says it is gone while
    its link is live. *)
Theorem close_report_overtaken {X : X509} (h : Handshaken) :
  exists s, reach [] s /\ unsent s = [] /\
    events (node s) = [EvLinked (hs_peer h); EvLinked (hs_peer h);
                       EvUnlinked (hs_peer h) Peer.Closed] /\
    exists slot, links (node s) !! key (hs_peer h) = Some (Live slot).
Proof.
  set (i := {| id_certificate := []; id_issuer := []; id_key := [] |}).
  set (n1 := (serve i true (new_node [])).2).
  set (n2 := (register_link h n1).2).
  set (n3 := (finish (key (hs_peer h)) 1 Peer.Closed n2).2).
  set (n4 := (register_link h n3).2).
  set (e := EvUnlinked (hs_peer h) Peer.Closed).
  destruct (register_fresh h n1) as ((slot1 & Hl2 & Hq2 & Hp2) & He2 & Hls2 & Hs2); [done..|]. fold n2 in Hl2, He2, Hls2, Hs2.
  assert (Hown : own_slot (key (hs_peer h)) 1 n2 = Some slot1).
  { unfold own_slot. rewrite Hl2, lookup_insert_eq. by rewrite decide_True. }
  assert (H3 : links n3 = ∅ /\ events n3 = [EvLinked (hs_peer h)] /\ lists n3 = [] /\ serving n3 = true /\
    (finish (key (hs_peer h)) 1 Peer.Closed n2).1 = Some e).
  { unfold n3, finish. rewrite Hown. rewrite decide_False by done. simpl. rewrite Hl2, He2, Hls2, Hs2, Hp2.
    split_and!; try done. rewrite delete_insert_eq. by rewrite delete_id. }
  destruct H3 as (Hl3 & He3 & Hls3 & Hs3 & Hev).
  destruct (register_fresh h n3) as ((slot2 & Hl4 & _) & He4 & _ & _); [done|done|by rewrite Hl3|].
  fold n4 in Hl4, He4.
  exists {| node := emit e n4; unsent := []; sweeps := []; renewals := []; stale := [] |}. split_and!.
  - pose proof (step_serve i true (start [])) as S1.
    pose proof (step_register h (on_node n1 (start []))) as S2.
    pose proof (step_finish (key (hs_peer h)) 1 Peer.Closed (on_node n2 (start []))) as S3.
    unfold owe in S3. cbn [on_node node unsent sweeps renewals stale start] in S1, S2, S3.
    rewrite Hev in S3. fold n1 in S1. fold n2 in S2. fold n3 in S3.
    pose proof (step_register h {| node := n3; unsent := [e]; sweeps := []; renewals := []; stale := [] |}) as S4.
    cbn [on_node node unsent sweeps renewals stale] in S4. fold n4 in S4.
    pose proof (step_emit e [] [] {| node := n4; unsent := [e]; sweeps := []; renewals := []; stale := [] |} eq_refl) as S5.
    exact (reach_step _ _ _ (reach_step _ _ _ (reach_step _ _ _ (reach_step _ _ _
      (reach_step _ _ _ (reach_start []) S1) S2) S3) S4) S5).
  - done.
  - simpl. by rewrite He4, He3.
  - exists slot2. simpl. by rewrite Hl4, lookup_insert_eq.
Qed.

(** ** Revoked links are told to close *)

Section Revocation.
Context {X : X509}.

Definition mail_grows (n n' : NodeState) : Prop :=
  forall seq c, c ∈ mail_of n seq -> c ∈ mail_of n' seq.
Lemma mail_grows_refl n : mail_grows n n.
Proof. by intros ? ?. Qed.
Lemma mail_grows_trans a b c : mail_grows a b -> mail_grows b c -> mail_grows a c.
Proof. intros H1 H2 q x Hx. by apply H2, H1. Qed.
Lemma mail_grows_send seq c n : mail_grows n (send seq c n).
Proof.
  intros q x Hx. unfold mail_of, send in *. simpl. destruct (decide (seq = q)) as [->|Hne].
  - rewrite lookup_insert_eq. simpl. apply elem_of_app. by left.
  - by rewrite lookup_insert_ne.
Qed.
Lemma send_sent seq c n : c ∈ mail_of (send seq c n) seq.
Proof. unfold mail_of, send. simpl. rewrite lookup_insert_eq. simpl. apply elem_of_app. right. left. Qed.
Lemma mail_grows_foldl {A} (f : NodeState -> A -> NodeState) l n :
  (forall n x, mail_grows n (f n x)) -> mail_grows n (foldl f n l).
Proof.
  intros H. revert n. induction l as [|x l IH]; intros n; [apply mail_grows_refl|].
  simpl. eapply mail_grows_trans; [apply H|apply IH].
Qed.
Lemma mail_grows_sweep_slot kept n0 n slot : mail_grows n (sweep_slot kept n0 n slot).
Proof.
  unfold sweep_slot. destruct (lacks _ _), (chain_revoked _ _ _);
    eauto using mail_grows_send, mail_grows_trans, mail_grows_refl.
Qed.

Lemma chain_revoked_lists n n' leaf issuer :
  lists n' = lists n -> root_key_ids n' = root_key_ids n ->
  chain_revoked n' leaf issuer = chain_revoked n leaf issuer.
Proof. intros Hl Hr. unfold chain_revoked. by rewrite Hl, Hr. Qed.

Lemma elem_of_live_slots n k slot : links n !! k = Some (Live slot) -> slot ∈ live_slots n.
Proof.
  intros H. unfold live_slots. apply list_elem_of_omap. exists (k, Live slot).
  split; [by apply elem_of_map_to_list|done].
Qed.

(** A sweep tells every revoked link to close. *)
Lemma sweep_closes kept n k slot :
  links n !! k = Some (Live slot) -> chain_revoked n (slot_leaf slot) (slot_issuer slot) = true ->
  CmdClose Peer.PeerRevoked ∈ mail_of (keep_sweep kept n) (slot_seq slot).
Proof.
  intros Hk Hrev. apply elem_of_live_slots in Hk. unfold keep_sweep.
  revert Hk. generalize (live_slots n) as l. intros l.
  assert (H : forall m, slot ∈ l ->
    CmdClose Peer.PeerRevoked ∈ mail_of (foldl (sweep_slot kept n) m l) (slot_seq slot));
    [|by apply H].
  induction l as [|x l IH]; intros m Hin; [by apply not_elem_of_nil in Hin|]. simpl.
  apply elem_of_cons in Hin as [<-|Hin]; [|by apply IH].
  apply (mail_grows_foldl (sweep_slot kept n) l); [intros; apply mail_grows_sweep_slot|].
  unfold sweep_slot. rewrite Hrev. apply send_sent.
Qed.

Definition told (s : Sys) (slot : LinkSlot) : Prop :=
  CmdClose Peer.PeerRevoked ∈ mail_of (node s) (slot_seq slot) \/ sweeps s <> [] \/
  slot_seq slot ∈ stale s.

Definition closing (s : Sys) : Prop :=
  forall k slot, links (node s) !! k = Some (Live slot) ->
    chain_revoked (node s) (slot_leaf slot) (slot_issuer slot) = true -> told s slot.

(** A step that keeps the lists, adds no link and changes no chain. *)
Lemma closing_frame s s' :
  lists (node s') = lists (node s) -> root_key_ids (node s') = root_key_ids (node s) ->
  mail_grows (node s) (node s') -> sweeps s' = sweeps s -> stale s' = stale s ->
  (forall k slot, links (node s') !! k = Some (Live slot) ->
     chain_revoked (node s) (slot_leaf slot) (slot_issuer slot) = true ->
     exists k0 slot0, links (node s) !! k0 = Some (Live slot0) /\ slot_leaf slot0 = slot_leaf slot /\
       slot_issuer slot0 = slot_issuer slot /\ slot_seq slot0 = slot_seq slot) ->
  closing s -> closing s'.
Proof.
  intros Hl Hr Hm Hsw Hst Hlinks H k slot Hk Hrev.
  rewrite (chain_revoked_lists (node s)) in Hrev by done.
  destruct (Hlinks k slot Hk Hrev) as (k0 & slot0 & Hk0 & E1 & E2 & E3).
  rewrite <- E1, <- E2 in Hrev. destruct (H k0 slot0 Hk0 Hrev) as [Hc|Hc]; unfold told in *;
    rewrite Hsw, Hst, <- E3; auto.
Qed.

Lemma stop_mail reason n : mail_grows n (stop_state reason n).2.
Proof.
  unfold stop_state. cbv zeta. cbn [snd].
  apply (mail_grows_trans _ (set_links ∅ (set_serving false false (set_identity None None n))));
    [by intros ? ?|].
  apply mail_grows_foldl. intros n0 [k [slot|p]]; simpl; [apply mail_grows_send|apply mail_grows_refl].
Qed.

Lemma serve_frame i bound n :
  quiet n (serve i bound n).2 /\ mail_grows n (serve i bound n).2.
Proof.
  unfold serve. cbv zeta. cbn [listening set_identity]. destruct (listening n);
    [|by destruct bound; split; [done|intros ? ?|done|intros ? ?]].
  set (n1 := set_identity _ _ n).
  assert (H : quiet n1 (renew_links n1) /\ mail_grows n1 (renew_links n1)).
  { split; [apply quiet_renew_links|]. unfold renew_links. simpl. apply mail_grows_foldl.
    intros; apply mail_grows_send. }
  destruct (match identity n with Some held => _ | None => _ end); cbn [snd].
  2: { split; [done|]. intros q c Hin. exact Hin. }
  destruct H as [H1 H2]. split; [by apply (quiet_trans _ n1)|].
  intros q c Hin. by apply H2.
Qed.

Lemma register_mail h n : mail_grows n (register_link h n).2.
Proof.
  unfold register_link. cbv zeta. simpl. destruct (serving n); [|by intros ? ?]. simpl.
  destruct (chain_revoked _ _ _); [by intros ? ?|]. destruct (keep_new _ _ _); [|by intros ? ?].
  set (n0 := set_counters _ _ n).
  set (n1 := match links n !! key (hs_peer h) with Some (Live slot) => _ | _ => _ end).
  assert (H1 : mail_grows n n1).
  { unfold n1. destruct (links n !! _) as [[slot|]|]; [|by intros ? ?|by intros ? ?].
    apply (mail_grows_trans _ n0); [by intros ? ?|apply mail_grows_send]. }
  assert (H2 : mail_grows n1 (catch_up_renewal (next_seq n + 1) (hs_presented h) n1)).
  { unfold catch_up_renewal. destruct (identity n1); [|apply mail_grows_refl].
    case_decide; [apply mail_grows_send|apply mail_grows_refl]. }
  pose proof (mail_grows_trans _ _ _ H1 H2) as H. by destruct (links n !! key (hs_peer h)).
Qed.

Lemma step_closing s s' : step s s' -> closing s -> closing s'.
Proof.
  intros Hst Hc.
  assert (Hq : forall n, quiet (node s) n -> mail_grows (node s) n -> closing (on_node n s)).
  { intros n (Hl & _ & Hls & Hr) Hm. apply (closing_frame s); try done. simpl.
    intros k slot Hk _. rewrite Hl in Hk. by exists k, slot. }
  destruct Hst as [s|h s|i bound s|reason s|k' seq reason s|k' s|l sg s|k' seq iss num s|l sg s
    |kept l1 l2 s Hs|k' seq leaf iss s Hv|k' seq leaf iss l1 l2 s Hs|e l1 l2 s Hs].
  - apply Hq; unfold take_dial; [by destruct (identity (node s))|].
    by destruct (identity (node s)); intros ? ?.
  - pose proof (register_cases h (node s)) as Hr. pose proof (register_mail h (node s)) as Hm.
    destruct (register_link h (node s)) as [r n']. destruct Hr as (Hr & Hls & Hrt).
    apply (closing_frame s); try done. simpl. intros k slot Hk Hrev.
    destruct r as [[|]|]; [|destruct Hr as [Hl _]; rewrite Hl in Hk; by exists k, slot..].
    destruct Hr as ((slot1 & Hl & _ & _ & _ & Hlf & Hiss & _) & _ & Hun). rewrite Hl in Hk.
    apply lookup_insert_Some in Hk as [[_ [= <-]]|[_ Hk]]; [|by exists k, slot].
    rewrite Hlf, Hiss in Hrev. congruence.
  - by apply Hq; apply serve_frame.
  - destruct (stop_quiet reason (node s)) as [Hl _]. intros k slot. cbn [owe node]. by rewrite Hl.
  - unfold finish. destruct (own_slot k' seq (node s)) as [slot|] eqn:E; cbn [fst snd];
      [case_decide|]; apply (closing_frame s); try done; simpl; try by intros ? ?.
    + intros k x Hk _. apply lookup_insert_Some in Hk as [[_ [=]]|[_ Hk]]. by exists k, x.
    + intros k x [_ Hk]%lookup_delete_Some _. by exists k, x.
    + intros k x Hk _. by exists k, x.
  - unfold keeper_timeout. destruct (links (node s) !! k') as [[slot|p]|]; cbn [fst snd];
      apply (closing_frame s); try done; simpl; try by intros ? ?.
    + intros k x Hk _. by exists k, x.
    + intros k x [_ Hk]%lookup_delete_Some _. by exists k, x.
    + intros k x Hk _. by exists k, x.
  - exact Hc.
  - unfold list_written. destruct (own_slot k' seq (node s)) as [slot|] eqn:E; [|exact Hc].
    apply own_slot_Some in E as [E _]. apply (closing_frame s); try done; [by intros ? ?|]. simpl.
    intros k x [[<- [= <-]]|[_ Hk]]%lookup_insert_Some _; [by exists k', slot|by exists k, x].
  - unfold keep_insert. destruct (certificate_key_id sg) as [iss|], (verify_list l sg) as [parsed|];
      cbn [fst snd option_list]; rewrite ?app_nil_r; try exact Hc.
    destruct (list_find _ (lists (node s))) as [[i ex]|]; [case_decide|]; cbn [fst snd option_list];
      rewrite ?app_nil_r; try exact Hc; intros k slot _ _; right; left; simpl; by destruct (sweeps s).
  - intros k slot Hk Hrev. left. simpl in *. destruct (quiet_sweep kept (node s)) as (Hl & _ & Hls & Hr).
    rewrite Hl in Hk. rewrite (chain_revoked_lists (node s)) in Hrev by done. by eapply sweep_closes.
  - exact Hc.
  - unfold renew_slot. destruct (own_slot k' seq (node s)) as [slot|] eqn:E; simpl.
    + apply own_slot_Some in E as [E Hseq]. intros k x Hk Hrev. simpl in *.
      rewrite (chain_revoked_lists (node s)) in Hrev by done.
      apply lookup_insert_Some in Hk as [[<- [= <-]]|[_ Hk]]; simpl in *.
      * right. right. simpl. rewrite Hrev, Hseq. left.
      * destruct (Hc k x Hk Hrev) as [H|[H|H]]; [by left|by right; left|]. right. right. simpl.
        destruct (chain_revoked (node s) leaf iss); [by right|done].
    + intros k x Hk Hrev. destruct (Hc k x Hk Hrev) as [H|[H|H]]; [by left|by right; left|].
      right. right. simpl. destruct (chain_revoked (node s) leaf iss); [by right|done].
  - exact Hc.
Qed.

(** Only [keep_insert] touches the kept lists. *)
Lemma register_lists h n : lists (register_link h n).2 = lists n.
Proof. pose proof (register_cases h n) as H. destruct (register_link h n). simpl. by destruct H as (_ & ? & _). Qed.

Lemma step_lists s s' :
  step s s' -> lists (node s') = lists (node s) \/
  exists list signer, node s' = (keep_insert list signer (node s)).2.
Proof.
  destruct 1 as [s|h s|i bound s|reason s|k' seq reason s|k' s|l sg s|k' seq iss num s|l sg s
    |kept l1 l2 s Hs|k' seq leaf iss s Hv|k' seq leaf iss l1 l2 s Hs|e l1 l2 s Hs]; simpl;
    try (left; done); try (right; by eexists _, _); left.
  - unfold take_dial. by destruct (identity (node s)).
  - apply register_lists.
  - by destruct (serve_frame i bound (node s)) as [(_ & _ & ? & _) _].
  - match goal with |- lists (foldl ?f ?n0 ?l) = _ => pose proof (quiet_foldl f l n0) as Hq end.
    destruct Hq as (_ & _ & Hl & _); [|by rewrite Hl].
    intros n0 [k' [slot|p]]; simpl; auto with connetto.
  - unfold finish. destruct (own_slot k' seq (node s)); [by case_decide|done].
  - unfold keeper_timeout. by destruct (links (node s) !! k') as [[]|].
  - unfold list_written. by destruct (own_slot k' seq (node s)).
  - by destruct (quiet_sweep kept (node s)) as (_ & _ & ? & _).
  - unfold renew_slot. by destruct (own_slot k' seq (node s)).
Qed.

Definition newer (ls ls' : list KeptList) : Prop :=
  forall l, l ∈ ls -> exists l', l' ∈ ls' /\ kl_issuer l' = kl_issuer l /\
    kl_number l <= kl_number l' /\ (kl_number l = kl_number l' -> l' = l).

Lemma NoDup_issuers ls l l' :
  NoDup (kl_issuer <$> ls) -> l ∈ ls -> l' ∈ ls -> kl_issuer l = kl_issuer l' -> l = l'.
Proof.
  induction ls as [|x ls IH]; [by intros _ ?%not_elem_of_nil|]. csimpl.
  intros [Hx Hnd]%NoDup_cons [->|Hl]%elem_of_cons [->|Hl']%elem_of_cons Heq; try done.
  - destruct Hx. rewrite Heq. apply list_elem_of_fmap. by exists l'.
  - destruct Hx. rewrite <- Heq. apply list_elem_of_fmap. by exists l.
  - by apply IH.
Qed.

Lemma keep_insert_lists list signer n :
  NoDup (kl_issuer <$> lists n) ->
  NoDup (kl_issuer <$> lists (keep_insert list signer n).2) /\
  newer (lists n) (lists (keep_insert list signer n).2).
Proof.
  intros Hnd. assert (Href : newer (lists n) (lists n)) by (intros l Hl; exists l; split_and!; done || lia).
  unfold keep_insert. destruct (certificate_key_id signer) as [iss|], (verify_list list signer) as [parsed|];
    try done.
  set (kept := {| kl_issuer := iss |}).
  assert (Hput : (forall l, l ∈ lists n -> kl_issuer l = iss -> kl_number l < kl_number kept) ->
    NoDup (kl_issuer <$> filter (fun l => kl_issuer l <> iss) (lists n) ++ [kept]) /\
    newer (lists n) (filter (fun l => kl_issuer l <> iss) (lists n) ++ [kept])).
  { intros Hlt. split.
    - rewrite fmap_app. apply NoDup_app. split_and!; [| |apply NoDup_singleton].
      + eapply sublist_NoDup; [exact Hnd|]. apply fmap_sublist, sublist_filter.
      + intros x (l & -> & [Hne _]%list_elem_of_filter)%list_elem_of_fmap Hk.
        by apply list_elem_of_singleton in Hk.
    - intros l Hl. destruct (decide (kl_issuer l = iss)) as [He|Hne].
      + exists kept. specialize (Hlt l Hl He). split_and!; [apply elem_of_app; right; left|done|lia|lia].
      + exists l. split_and!; [apply elem_of_app; left; by apply list_elem_of_filter|done|lia|done]. }
  destruct (list_find _ (lists n)) as [[i ex]|] eqn:Ef.
  - apply list_find_Some in Ef as (Hex & Hiss & _). apply list_elem_of_lookup_2 in Hex.
    case_decide as Hge; cbn [snd lists set_lists]; [done|]. apply Hput. intros l Hl He.
    rewrite (NoDup_issuers (lists n) l ex Hnd Hl Hex) by congruence. lia.
  - apply Hput. intros l Hl He. apply list_find_None in Ef. rewrite Forall_forall in Ef.
    by destruct (Ef l Hl).
Qed.

Lemma lists_step s s' :
  step s s' -> NoDup (kl_issuer <$> lists (node s)) ->
  NoDup (kl_issuer <$> lists (node s')) /\ newer (lists (node s)) (lists (node s')).
Proof.
  intros Hs Hnd. destruct (step_lists s s' Hs) as [Hl|(list & signer & Hn)].
  - rewrite Hl. split; [done|]. intros l Hin. exists l. split_and!; done || lia.
  - rewrite Hn. by apply keep_insert_lists.
Qed.

End Revocation.

(** Revocation reaches every link: over every interleaving of registrations,
    closes, renewals and kept lists, a live link whose chain a kept list revokes
    has been told to close with [PeerRevoked], or the sweep that tells it is
    still to run; the one exception is a link whose renewed chain was put in
    place after a list revoked it. *)
Theorem revoked_links_told {X : X509} roots s k slot :
  reach roots s -> links (node s) !! k = Some (Live slot) ->
  chain_revoked (node s) (slot_leaf slot) (slot_issuer slot) = true ->
  sweeps s = [] -> slot_seq slot ∉ stale s ->
  CmdClose Peer.PeerRevoked ∈ mail_of (node s) (slot_seq slot).
Proof.
  intros Hr. assert (Hc : closing s).
  { induction Hr as [|s s' _ IH Hs]; [by intros ? ?; simpl; rewrite lookup_empty|].
    by eapply step_closing. }
  intros Hk Hrev Hsw Hst. by destruct (Hc k slot Hk Hrev) as [|[|]].
Qed.

(** The node keeps one list per issuer and only ever replaces it by one with a
    higher number: a replayed or reordered older list changes nothing. *)
Theorem kept_lists_newest {X : X509} roots s s' l :
  reach roots s -> step s s' -> l ∈ lists (node s) ->
  NoDup (kl_issuer <$> lists (node s')) /\
  exists l', l' ∈ lists (node s') /\ kl_issuer l' = kl_issuer l /\ kl_number l <= kl_number l' /\
    (kl_number l = kl_number l' -> l' = l).
Proof.
  intros Hr Hs Hin.
  assert (Hnd : forall s, reach roots s -> NoDup (kl_issuer <$> lists (node s))).
  { clear. induction 1 as [|s s' _ IH Hs]; [constructor|]. by apply (lists_step s). }
  split; [by eapply Hnd, reach_step|]. by apply (lists_step s s' Hs (Hnd s Hr)).
Qed.

(** ** The duplicate rule, at the two ends of the connections between two peers *)

(** A connection, as both ends name it. *)
Record Conn := { c_dialer : KeyId; c_dial : Z }.
#[export] Instance Conn_eq_dec : EqDecision Conn.
Proof. solve_decision. Defined.

(** The rule [keep_new] applies, as an order on connections. *)
Definition beats (c c' : Conn) : Prop :=
  if decide (c_dialer c' = c_dialer c) then c_dial c > c_dial c'
  else bytes_cmp (c_dialer c) (c_dialer c') = Lt.

Lemma beats_asym c c' : beats c c' -> ~ beats c' c.
Proof.
  unfold beats. destruct (decide (c_dialer c' = c_dialer c)) as [He|Hne].
  - rewrite decide_True by done. lia.
  - rewrite decide_False by congruence. rewrite (bytes_cmp_antisym (c_dialer c)).
    by destruct (bytes_cmp (c_dialer c) (c_dialer c')).
Qed.
Lemma beats_total c c' : c <> c' -> beats c c' \/ beats c' c.
Proof.
  intros Hne. unfold beats. destruct (decide (c_dialer c' = c_dialer c)) as [He|Hn].
  - rewrite (decide_True (P := c_dialer c = c_dialer c')) by done.
    destruct c as [d1 n1], c' as [d2 n2]; simpl in *. subst.
    assert (n1 <> n2) by congruence. lia.
  - rewrite (decide_False (P := c_dialer c = c_dialer c')) by congruence.
    rewrite (bytes_cmp_antisym (c_dialer c)).
    destruct (bytes_cmp (c_dialer c) (c_dialer c')) eqn:E; auto.
    apply bytes_cmp_Eq in E. congruence.
Qed.
Lemma beats_trans a b c : beats a b -> beats b c -> beats a c.
Proof.
  unfold beats. intros Hab Hbc.
  destruct (decide (c_dialer b = c_dialer a)) as [E1|N1], (decide (c_dialer c = c_dialer b)) as [E2|N2].
  - rewrite decide_True by congruence. lia.
  - rewrite decide_False by congruence. by rewrite <- E1.
  - rewrite decide_False by congruence. by rewrite E2.
  - pose proof (bytes_cmp_Lt_trans _ _ _ Hab Hbc) as H. rewrite decide_False; [done|].
    intros He. rewrite He, bytes_cmp_refl in H. done.
Qed.

(** Among some connections one beats all the others. *)
Lemma best_exists cs : cs <> [] -> exists m, m ∈ cs /\ forall c, c ∈ cs -> c <> m -> beats m c.
Proof.
  induction cs as [|c cs IH]; [done|]. intros _. destruct cs as [|d cs].
  - exists c. split; [left|]. by intros ? ->%list_elem_of_singleton.
  - destruct IH as (m & Hm & Hbest); [done|]. destruct (decide (c = m)) as [->|Hne].
    { exists m. split; [left|]. intros x [->|Hx]%elem_of_cons Hn; [done|by apply Hbest]. }
    destruct (beats_total c m Hne) as [Hb|Hb].
    + exists c. split; [left|]. intros x [->|Hx]%elem_of_cons Hn; [done|].
      destruct (decide (x = m)) as [->|Hxm]; [done|]. eapply beats_trans; [exact Hb|by apply Hbest].
    + exists m. split; [by right|]. intros x [->|Hx]%elem_of_cons Hn; [done|by apply Hbest].
Qed.

Lemma keep_new_beats slot c :
  keep_new (Some (Live slot)) (c_dialer c) (c_dial c) = true <->
  beats c {| c_dialer := slot_dialer slot; c_dial := slot_dial slot |}.
Proof.
  unfold keep_new, beats. simpl. case_decide; [apply bool_decide_eq_true|].
  by destruct (bytes_cmp _ _).
Qed.

Lemma NoDup_snd {A} (l : list (A * Z)) x y q :
  NoDup (snd <$> l) -> (x, q) ∈ l -> (y, q) ∈ l -> x = y.
Proof.
  induction l as [|[a p] l IH]; [by intros _ ?%not_elem_of_nil|]. csimpl.
  intros [Hp Hnd]%NoDup_cons Hx Hy.
  apply elem_of_cons in Hx as [Hx|Hx]; apply elem_of_cons in Hy as [Hy|Hy]; simplify_eq; [done| | |by apply IH].
  - destruct Hp. apply list_elem_of_fmap. by exists (y, p).
  - destruct Hp. apply list_elem_of_fmap. by exists (x, p).
Qed.

(** One end: its node, the connections whose task it runs with their registration
    numbers, those it registered, and the [Close Duplicate] frames that await it. *)
Record End := {
  en : NodeState;
  tasks : list (Conn * Z);
  registered : list Conn;
  closes : list Conn;
}.

Section Ends.
Context {X : X509}.
(** What the handshake of a connection taught an end about its peer. *)
Context (hs : bool -> Conn -> Handshaken).

Definition slot_conn (slot : LinkSlot) : Conn :=
  {| c_dialer := slot_dialer slot; c_dial := slot_dial slot |}.

(** The connection a registration makes its end close: the one it replaces, or
    itself. *)
Definition loser (k : KeyId) (n : NodeState) (c : Conn) (r : Result bool LinkError) : list Conn :=
  match r with
  | Ok true => match links n !! k with Some (Live slot) => [slot_conn slot] | _ => [] end
  | Ok false => [c]
  | Err _ => []
  end.

(** A step of one end, with the [Close Duplicate] frames it sends the other. *)
Inductive end_step (side : bool) (cs : list Conn) : End -> End -> list Conn -> Prop :=
| end_register c e r n' :
    c ∈ cs -> c ∉ registered e -> register_link (hs side c) (en e) = (r, n') ->
    end_step side cs e
      {| en := n';
         tasks := (match r with Ok true => [(c, next_seq n')] | _ => [] end) ++ tasks e;
         registered := c :: registered e; closes := closes e |}
      (loser (key (hs_peer (hs side c))) (en e) c r)
| end_close c seq e :
    c ∈ closes e -> (c, seq) ∈ tasks e ->
    end_step side cs e
      {| en := (finish (key (hs_peer (hs side c))) seq Peer.Duplicate (en e)).2; tasks := tasks e;
         registered := registered e; closes := closes e |} []
| end_timeout k e :
    end_step side cs e
      {| en := (keeper_timeout k (en e)).2; tasks := tasks e; registered := registered e;
         closes := closes e |} [].

Definition add_closes (l : list Conn) (e : End) : End :=
  {| en := en e; tasks := tasks e; registered := registered e; closes := l ++ closes e |}.

(** The two ends, started without links; a frame one end sends awaits the other. *)
Inductive ends (cs : list Conn) (n0 : bool -> NodeState) : End -> End -> Prop :=
| ends_start :
    ends cs n0 {| en := n0 true; tasks := []; registered := []; closes := [] |}
               {| en := n0 false; tasks := []; registered := []; closes := [] |}
| ends_left a b a' out : ends cs n0 a b -> end_step true cs a a' out -> ends cs n0 a' (add_closes out b)
| ends_right a b b' out : ends cs n0 a b -> end_step false cs b b' out -> ends cs n0 (add_closes out a) b'.

Lemma register_result h n :
  serving n = true -> lists n = [] ->
  (register_link h n).1 = Ok (keep_new (links n !! key (hs_peer h)) (hs_dialer h) (hs_dial h)) /\
  serving (register_link h n).2 = true /\ next_seq (register_link h n).2 = next_seq n + 1.
Proof.
  intros Hs Hl. unfold register_link. cbv zeta. simpl. rewrite Hs, chain_unlisted by done. simpl.
  destruct (keep_new _ _ _); [|done]. simpl. unfold catch_up_renewal.
  destruct (links n !! key (hs_peer h)) as [[slot|p]|]; simpl;
    (destruct (identity n) as [held|]; simpl; [case_decide|]); done.
Qed.

Context (pk : bool -> KeyId) (cs : list Conn) (m : Conn).
Context (Hhs : forall side c, key (hs_peer (hs side c)) = pk side /\
                 hs_dialer (hs side c) = c_dialer c /\ hs_dial (hs side c) = c_dial c).
Context (Hm : m ∈ cs) (Hbest : forall c, c ∈ cs -> c <> m -> beats m c).

Record end_ok (side : bool) (e : End) : Prop := {
  eo_serving : serving (en e) = true;
  eo_lists : lists (en e) = [];
  eo_seqs : Forall (fun t => t.2 <= next_seq (en e)) (tasks e);
  eo_nodup : NoDup (snd <$> tasks e);
  eo_registered : forall c q, (c, q) ∈ tasks e -> c ∈ registered e /\ c ∈ cs;
  eo_slot : forall slot, links (en e) !! pk side = Some (Live slot) ->
              (slot_conn slot, slot_seq slot) ∈ tasks e;
  eo_best : m ∈ registered e ->
              exists slot, links (en e) !! pk side = Some (Live slot) /\ slot_conn slot = m;
  eo_closes : m ∉ closes e;
}.

Lemma add_closes_ok side e out : end_ok side e -> m ∉ out -> end_ok side (add_closes out e).
Proof. intros [] Hout. constructor; simpl; try done. set_solver. Qed.

(** The best connection is always kept, and no registration closes it. *)
Lemma register_best side e c r n' :
  end_ok side e -> c ∈ cs -> c ∉ registered e -> register_link (hs side c) (en e) = (r, n') ->
  exists kept, r = Ok kept /\ m ∉ loser (pk side) (en e) c r /\ (c = m -> kept = true) /\
    (m ∈ registered e -> kept = false).
Proof.
  intros He Hc Hnr Hr. destruct (Hhs side c) as (Hpk & Hd & Hdl).
  destruct (register_result (hs side c) (en e)) as (Hres & _); [apply He|apply He|].
  rewrite Hr, Hpk, Hd, Hdl in Hres. simpl in Hres. subst r. eexists. split; [done|].
  assert (Hslot : forall slot, links (en e) !! pk side = Some (Live slot) ->
    keep_new (Some (Live slot)) (c_dialer c) (c_dial c) = true -> slot_conn slot <> m).
  { intros slot Hs Hk%keep_new_beats Heq. fold (slot_conn slot) in Hk. rewrite Heq in Hk.
    destruct (decide (c = m)) as [->|Hne]; [by apply (beats_asym _ _ Hk)|].
    by apply (beats_asym _ _ Hk), Hbest. }
  assert (Hcm : c = m -> keep_new (links (en e) !! pk side) (c_dialer c) (c_dial c) = true).
  { intros ->. destruct (links (en e) !! pk side) as [[slot|p]|] eqn:Hs; [|done|done].
    apply keep_new_beats. destruct (eo_registered _ _ He _ _ (eo_slot _ _ He _ Hs)) as [Hin Hcs].
    apply Hbest; [exact Hcs|]. intros Heq. fold (slot_conn slot) in Heq. by rewrite Heq in Hin. }
  split_and!; [|exact Hcm|].
  - unfold loser. destruct (keep_new _ _ _) eqn:Hk.
    + destruct (links (en e) !! pk side) as [[slot|p]|] eqn:Hs; try by apply not_elem_of_nil.
      intros Hin%list_elem_of_singleton. by apply (Hslot slot).
    + intros Hin%list_elem_of_singleton. by specialize (Hcm (eq_sym Hin)).
  - intros Hreg. destruct (eo_best _ _ He Hreg) as (slot & Hs & Heq). rewrite Hs in *.
    destruct (keep_new _ _ _) eqn:Hk; [|done]. by destruct (Hslot slot).
Qed.

Lemma end_step_ok side e e' out :
  end_ok side e -> end_step side cs e e' out -> end_ok side e' /\ m ∉ out.
Proof.
  intros He Hst. destruct Hst as [c e r n' Hc Hnr Hr|c seq e Hcl Ht|k e].
  - destruct (register_best side e c r n' He Hc Hnr Hr) as (kept & -> & Hout & Hcm & Hkeep).
    destruct (Hhs side c) as (Hpk & Hd & Hdl).
    destruct (register_result (hs side c) (en e)) as (_ & Hsv & Hsq); [apply He|apply He|].
    pose proof (register_cases (hs side c) (en e)) as Hcases. rewrite Hr in Hsv, Hsq, Hcases. simpl in Hsv, Hsq.
    rewrite Hpk in *. split; [|exact Hout]. destruct Hcases as (Hcase & Hls & _).
    destruct He as [H1 H2 H3 H4 H5 H6 H7 H8].
    assert (H3' : Forall (fun t : Conn * Z => t.2 <= next_seq n') (tasks e)).
    { eapply Forall_impl; [exact H3|]. simpl. intros t Hle. lia. }
    destruct kept; simpl.
    + destruct Hcase as ((slot & Hl & _ & Hsd & Hsdl & _ & _ & Hsseq) & _).
      assert (Hsc : slot_conn slot = c).
      { unfold slot_conn. rewrite Hsd, Hsdl, Hd, Hdl. by destruct c. }
      constructor; simpl; try done; [by rewrite Hls| | | | |].
      * constructor; [simpl; lia|done].
      * csimpl. apply NoDup_cons. split; [|done]. intros ([c0 q0] & Hq & Hin)%list_elem_of_fmap.
        rewrite Forall_forall in H3. specialize (H3 _ Hin). simpl in *. lia.
      * intros c0 q0 [[= -> ->]|Hin]%elem_of_cons; [split; [left|done]|].
        destruct (H5 _ _ Hin). split; [by right|done].
      * rewrite Hl, lookup_insert_eq. intros slot0 [= <-]. rewrite Hsc, Hsseq, Hsq. left.
      * intros [->|Hreg]%elem_of_cons; [|by specialize (Hkeep Hreg)].
        exists slot. by rewrite Hl, lookup_insert_eq.
    + destruct Hcase as [Hl _]. constructor; simpl; try done; rewrite ?Hls, ?Hl; try done.
      * intros c0 q0 Hin. destruct (H5 _ _ Hin). split; [by right|done].
      * intros [->|Hreg]%elem_of_cons; [by specialize (Hcm eq_refl)|by apply H7].
  - split; [|by apply not_elem_of_nil]. destruct (Hhs side c) as (Hpk & _ & _).
    destruct He as [H1 H2 H3 H4 H5 H6 H7 H8]. rewrite Hpk. unfold finish.
    destruct (own_slot (pk side) seq (en e)) as [slot|] eqn:E; [|by constructor].
    apply own_slot_Some in E as [E Hseq]. rewrite decide_True by done.
    assert (Hnm : m ∉ registered e).
    { intros (slot' & Hs' & Hc')%H7. rewrite E in Hs'. injection Hs' as <-.
      pose proof (H6 _ E) as Hin. rewrite Hseq, Hc' in Hin.
      assert (c = m) by by apply (NoDup_snd (tasks e) c m seq). congruence. }
    constructor; simpl; try done. by rewrite lookup_insert_eq.
  - split; [|by apply not_elem_of_nil]. destruct He as [H1 H2 H3 H4 H5 H6 H7 H8].
    unfold keeper_timeout. destruct (links (en e) !! k) as [[slot|p]|] eqn:E; [by constructor| |by constructor].
    constructor; simpl; try done.
    + intros slot [_ Hs]%lookup_delete_Some. by apply H6.
    + intros (slot & Hs & Hc)%H7. exists slot. split; [|done]. rewrite lookup_delete_ne; [done|congruence].
Qed.

Lemma ends_ok n0 a b :
  (forall side, serving (n0 side) = true /\ lists (n0 side) = [] /\ links (n0 side) !! pk side = None) ->
  ends cs n0 a b -> end_ok true a /\ end_ok false b.
Proof.
  intros H0. induction 1 as [|a b a' out _ [Ha Hb] Hs|a b b' out _ [Ha Hb] Hs].
  - assert (H : forall side, end_ok side {| en := n0 side; tasks := []; registered := []; closes := [] |}).
    { intros side. destruct (H0 side) as (Hsv & Hl & Hk). constructor; simpl; try done.
      - constructor.
      - by intros c q ?%not_elem_of_nil.
      - by rewrite Hk.
      - by intros ?%not_elem_of_nil.
      - by apply not_elem_of_nil. }
    split; apply H.
  - destruct (end_step_ok true a a' out Ha Hs). split; [done|by apply add_closes_ok].
  - destruct (end_step_ok false b b' out Hb Hs). split; [by apply add_closes_ok|done].
Qed.
End Ends.

(** The connection an end keeps to its peer. *)
Definition held (k : KeyId) (e : End) : option Conn :=
  match links (en e) !! k with Some (Live slot) => Some (slot_conn slot) | _ => None end.

(** The duplicate rule makes the two ends of a pair agree. Whatever connections
    two peers open to each other at once, whichever end registers which first,
    and however the closes of the losing ones cross, there is one connection
    that each end keeps from the moment it registers it; neither end is ever
    told to close it, so once both registered it both keep that same one. *)
Theorem duplicate_rule_agrees {X : X509} (hs : bool -> Conn -> Handshaken) (pk : bool -> KeyId)
    (cs : list Conn) (n0 : bool -> NodeState) :
  cs <> [] ->
  (forall side c, key (hs_peer (hs side c)) = pk side /\
     hs_dialer (hs side c) = c_dialer c /\ hs_dial (hs side c) = c_dial c) ->
  (forall side, serving (n0 side) = true /\ lists (n0 side) = [] /\ links (n0 side) !! pk side = None) ->
  exists m, m ∈ cs /\ forall a b, ends hs cs n0 a b ->
    (m ∈ registered a -> held (pk true) a = Some m) /\
    (m ∈ registered b -> held (pk false) b = Some m) /\
    m ∉ closes a /\ m ∉ closes b.
Proof.
  intros Hne Hhs H0. destruct (best_exists cs Hne) as (m & Hm & Hbest). exists m. split; [done|].
  intros a b Hab. destruct (ends_ok hs pk cs m Hhs Hm Hbest n0 a b H0 Hab) as [Ha Hb].
  unfold held. split_and!; [| |apply Ha|apply Hb].
  - intros (slot & -> & ->)%(eo_best _ _ _ _ _ Ha). done.
  - intros (slot & -> & ->)%(eo_best _ _ _ _ _ Hb). done.
Qed.
