(* ===== verification/Guard.v ===== *)
(** The abuse detector and the request guard of the sync server,
    [connetto-server/src/abuse.rs] and [connetto-server/src/guard.rs].

    One guard owns every tally kept about a caller. A caller with an identity is
    tallied against that person over a window, and the tally that reaches its
    threshold is a [Crossing], which a spawned task turns into a ban (see
    [Bans]); a caller without one is tallied against its connection, which is
    closed from the threshold on. The tallies live in the bounded, swept store of
    [Throttle]; [guard_refines] shows that, with room for its keys, the guard
    answers as a specification that keeps plain counts for ever and has no loop. *)

From Stdlib Require Import ZArith Lia.
From stdpp Require Import base list numbers option strings gmap fin_maps fin_map_dom.
From S2P Require Import Prelude Throttle Meters.

Open Scope Z_scope.

(** ** Thresholds: [abuse.rs] *)

Definition DAY : Z := 24 * 3600 * SECOND.

Inductive Signal := RefusedGrant | UnresolvableSubscription | RejectedWrite | FailedRenewal.

#[export] Instance Signal_eq_dec : EqDecision Signal.
Proof. solve_decision. Defined.

Definition label (s : Signal) : string :=
  match s with
  | RefusedGrant => "refused_grant"
  | UnresolvableSubscription => "unresolvable_subscription"
  | RejectedWrite => "rejected_write"
  | FailedRenewal => "failed_renewal"
  end.

(** [Signal::ALL]. *)
Definition ALL : list Signal :=
  [RefusedGrant; UnresolvableSubscription; RejectedWrite; FailedRenewal].

Record PersonLimits := {
  refused_grants : Limit;
  unresolvable_subscriptions : Limit;
  rejected_writes : Limit;
  failed_renewals : Limit;
}.

Definition new_person_limits : PersonLimits := {|
  refused_grants := {| limit_max := 200; limit_window := DAY |};
  unresolvable_subscriptions := {| limit_max := 1000; limit_window := DAY |};
  rejected_writes := {| limit_max := 1000; limit_window := DAY |};
  failed_renewals := {| limit_max := 100; limit_window := DAY |};
|}.

Definition person_limit (p : PersonLimits) (s : Signal) : Limit :=
  match s with
  | RefusedGrant => refused_grants p
  | UnresolvableSubscription => unresolvable_subscriptions p
  | RejectedWrite => rejected_writes p
  | FailedRenewal => failed_renewals p
  end.

Record ConnectionLimits := {
  c_refused_grants : Z;
  c_unresolvable_subscriptions : Z;
  c_rejected_writes : Z;
}.

Definition new_connection_limits : ConnectionLimits := {|
  c_refused_grants := 50; c_unresolvable_subscriptions := 100; c_rejected_writes := 200 |}.

Definition connection_limit (c : ConnectionLimits) (s : Signal) : option Z :=
  match s with
  | RefusedGrant => Some (c_refused_grants c)
  | UnresolvableSubscription => Some (c_unresolvable_subscriptions c)
  | RejectedWrite => Some (c_rejected_writes c)
  | FailedRenewal => None
  end.

Record AbuseLimits := { person_limits : PersonLimits; connection_limits : ConnectionLimits }.

Definition new_abuse_limits : AbuseLimits :=
  {| person_limits := new_person_limits; connection_limits := new_connection_limits |}.

Record AbuseConfig := { config_person : PersonLimits; config_connection : ConnectionLimits }.

Inductive AbuseConfigError :=
  | ZeroWindow (signal : Signal)
  | ZeroCount (tier : string) (signal : Signal)
  | ConnectionNotBelowPerson (signal : Signal) (connection person : Z).

#[export] Instance AbuseConfigError_eq_dec : EqDecision AbuseConfigError.
Proof. solve_decision. Defined.

(** One turn of the loop of [build]: [Some] is the early return. *)
Definition check_signal (l : AbuseLimits) (s : Signal) : option AbuseConfigError :=
  let person := person_limit (person_limits l) s in
  if decide (limit_window person = 0) then Some (ZeroWindow s)
  else if decide (limit_max person = 0) then Some (ZeroCount "person" s)
  else match connection_limit (connection_limits l) s with
  | None => None
  | Some connection =>
      if decide (connection = 0) then Some (ZeroCount "connection" s)
      else if decide (limit_max person <= connection) then
        Some (ConnectionNotBelowPerson s connection (limit_max person))
      else None
  end.

Fixpoint check_signals (l : AbuseLimits) (ss : list Signal) : option AbuseConfigError :=
  match ss with
  | [] => None
  | s :: ss' =>
      match check_signal l s with Some e => Some e | None => check_signals l ss' end
  end.

(** [AbuseLimits::build]. *)
Definition build (l : AbuseLimits) : Result AbuseConfig AbuseConfigError :=
  match check_signals l ALL with
  | Some e => Err e
  | None => Ok {| config_person := person_limits l; config_connection := connection_limits l |}
  end.

(** The array's [max]; it is not empty, so the fallback is not reached. *)
Definition abuse_person_retain (c : AbuseConfig) : Z :=
  default DAY (match (fun s => limit_window (person_limit (config_person c) s)) <$> ALL with
               | [] => None
               | w :: ws => Some (foldl Z.max w ws)
               end).

Inductive Enforcement := Ignore | BanFor (ttl : Z) | BanPermanently.

Inductive Reaction := Continue | Close.

#[export] Instance Reaction_eq_dec : EqDecision Reaction.
Proof. solve_decision. Defined.

(** ** The guard: [guard.rs] *)

(** The deployment's id type and its [Display] are arguments of the whole
    guard; a session handle is a key of the tallies. *)
Class Identity (Id : Type) := { to_string : Id -> string }.

Section Guard.
Context {SessionId : Type} `{CS : Countable SessionId}.
Context {Id : Type} `{ID : Identity Id}.

Record Crossing := {
  x_user_id : Id;
  x_session : SessionId;
  x_signal : Signal;
  x_limit : Z;
  x_window : Z;
  x_count : Z;
  x_proposed : Enforcement;
}.

Record Caller := { session : SessionId; user : option Id }.

Record Owner := { rendering : string; owner_id : Id; seen : Z }.

Record PersonTallies := {
  p_refused_grants : CounterState string Window;
  p_unresolvable_subscriptions : CounterState string Window;
  p_rejected_writes : CounterState string Window;
  p_failed_renewals : CounterState string Window;
}.

Definition new_person_tallies (now : Z) : PersonTallies := {|
  p_refused_grants := new_state now; p_unresolvable_subscriptions := new_state now;
  p_rejected_writes := new_state now; p_failed_renewals := new_state now |}.

(** [PersonTallies::of], and the write through the reference it returns. *)
Definition person_of (p : PersonTallies) (s : Signal) : CounterState string Window :=
  match s with
  | RefusedGrant => p_refused_grants p
  | UnresolvableSubscription => p_unresolvable_subscriptions p
  | RejectedWrite => p_rejected_writes p
  | FailedRenewal => p_failed_renewals p
  end.

Definition set_person (p : PersonTallies) (s : Signal) (st : CounterState string Window) :
    PersonTallies :=
  match s with
  | RefusedGrant => {| p_refused_grants := st;
      p_unresolvable_subscriptions := p_unresolvable_subscriptions p;
      p_rejected_writes := p_rejected_writes p; p_failed_renewals := p_failed_renewals p |}
  | UnresolvableSubscription => {| p_refused_grants := p_refused_grants p;
      p_unresolvable_subscriptions := st;
      p_rejected_writes := p_rejected_writes p; p_failed_renewals := p_failed_renewals p |}
  | RejectedWrite => {| p_refused_grants := p_refused_grants p;
      p_unresolvable_subscriptions := p_unresolvable_subscriptions p;
      p_rejected_writes := st; p_failed_renewals := p_failed_renewals p |}
  | FailedRenewal => {| p_refused_grants := p_refused_grants p;
      p_unresolvable_subscriptions := p_unresolvable_subscriptions p;
      p_rejected_writes := p_rejected_writes p; p_failed_renewals := st |}
  end.

Record ConnectionTallies := {
  k_refused_grants : CounterState SessionId Window;
  k_unresolvable_subscriptions : CounterState SessionId Window;
  k_rejected_writes : CounterState SessionId Window;
}.

Definition new_connection_tallies (now : Z) : ConnectionTallies := {|
  k_refused_grants := new_state now; k_unresolvable_subscriptions := new_state now;
  k_rejected_writes := new_state now |}.

Definition connection_of (c : ConnectionTallies) (s : Signal) :
    option (CounterState SessionId Window) :=
  match s with
  | RefusedGrant => Some (k_refused_grants c)
  | UnresolvableSubscription => Some (k_unresolvable_subscriptions c)
  | RejectedWrite => Some (k_rejected_writes c)
  | FailedRenewal => None
  end.

Definition set_connection (c : ConnectionTallies) (s : Signal)
    (st : CounterState SessionId Window) : ConnectionTallies :=
  match s with
  | RefusedGrant => {| k_refused_grants := st;
      k_unresolvable_subscriptions := k_unresolvable_subscriptions c;
      k_rejected_writes := k_rejected_writes c |}
  | UnresolvableSubscription => {| k_refused_grants := k_refused_grants c;
      k_unresolvable_subscriptions := st; k_rejected_writes := k_rejected_writes c |}
  | RejectedWrite => {| k_refused_grants := k_refused_grants c;
      k_unresolvable_subscriptions := k_unresolvable_subscriptions c;
      k_rejected_writes := st |}
  | FailedRenewal => c
  end.

(** The counters of the guard. The handle and byte throttles it also owns are
    used only through their own operations ([Throttle]); the ban list, the
    enforcement policy and the two hooks are [Bans]'. *)
Record RequestGuard := {
  auth : AuthThrottle SessionId;
  owners : gmap SessionId Owner;
  abuse : AbuseConfig;
  person_retain : Z;
  key_cap : Z;
  person : PersonTallies;
  connection_tallies : ConnectionTallies;
}.

Definition new_guard (throttle : ThrottleConfig) (abuse : AbuseConfig) (now : Z) :
    RequestGuard := {|
  key_cap := max_tracked throttle;
  auth := new_auth_throttle throttle now;
  owners := ∅;
  person_retain := abuse_person_retain abuse;
  abuse := abuse;
  person := new_person_tallies now;
  connection_tallies := new_connection_tallies now |}.

Definition with_auth (g : RequestGuard) (a : AuthThrottle SessionId) : RequestGuard := {|
  auth := a; owners := owners g; abuse := abuse g; person_retain := person_retain g;
  key_cap := key_cap g; person := person g; connection_tallies := connection_tallies g |}.
Definition with_owners (g : RequestGuard) (o : gmap SessionId Owner) : RequestGuard := {|
  auth := auth g; owners := o; abuse := abuse g; person_retain := person_retain g;
  key_cap := key_cap g; person := person g; connection_tallies := connection_tallies g |}.
Definition with_person (g : RequestGuard) (p : PersonTallies) : RequestGuard := {|
  auth := auth g; owners := owners g; abuse := abuse g; person_retain := person_retain g;
  key_cap := key_cap g; person := p; connection_tallies := connection_tallies g |}.
Definition with_connection (g : RequestGuard) (c : ConnectionTallies) : RequestGuard := {|
  auth := auth g; owners := owners g; abuse := abuse g; person_retain := person_retain g;
  key_cap := key_cap g; person := person g; connection_tallies := c |}.

Definition learn_owner (s : SessionId) (account : Id) (now : Z) (g : RequestGuard) :
    RequestGuard :=
  let kept := filter (fun so => since now (seen so.2) < at_retain (auth g)) (owners g) in
  with_owners g
    (<[s := {| rendering := to_string account; owner_id := account; seen := now |}]> kept).

Definition owner_of (s : SessionId) (now : Z) (g : RequestGuard) : option (string * Id) :=
  o ← owners g !! s;
  if decide (since now (seen o) < at_retain (auth g)) then Some (rendering o, owner_id o)
  else None.

(** The owner is read at [t1], the throttle asked at [t2]. *)
Definition guard_refresh_blocked (s : SessionId) (t1 t2 : Z) (g : RequestGuard) : option Z :=
  refresh_blocked s (fst <$> owner_of s t1 g) t2 (auth g).

(** The loop of [person_signal]: the tallies afterwards, and the last count that
    met the threshold. *)
Fixpoint person_loop (times : nat) (key : string) (limit : Limit) (retain cap now : Z)
    (st : CounterState string Window) (crossed : option Z) :
    CounterState string Window * option Z :=
  match times with
  | O => (st, crossed)
  | S n =>
      let '(count, st) := tally key (Some (limit_window limit)) retain cap now st in
      person_loop n key limit retain cap now st
        (if decide (count = limit_max limit) then Some count else crossed)
  end.

(** [person_signal], with the [Crossing] it hands to [enforce], if any. *)
Definition person_signal (u : Id) (s : SessionId) (sig : Signal) (times : nat) (now : Z)
    (g : RequestGuard) : option Crossing * RequestGuard :=
  let limit := person_limit (config_person (abuse g)) sig in
  let '(st, crossed) := person_loop times (to_string u) limit (person_retain g) (key_cap g) now
                          (person_of (person g) sig) None in
  (count ← crossed;
   Some {| x_user_id := u; x_session := s; x_signal := sig; x_limit := limit_max limit;
           x_window := limit_window limit; x_count := count; x_proposed := BanPermanently |},
   with_person g (set_person (person g) sig st)).

Fixpoint connection_loop (times : nat) (s : SessionId) (limit cap now : Z)
    (st : CounterState SessionId Window) (reached : bool) :
    CounterState SessionId Window * bool :=
  match times with
  | O => (st, reached)
  | S n =>
      let '(count, st) := tally s None DURATION_MAX cap now st in
      connection_loop n s limit cap now st (reached || bool_decide (limit <= count))
  end.

Definition connection_signal (s : SessionId) (sig : Signal) (times : nat) (now : Z)
    (g : RequestGuard) : Reaction * RequestGuard :=
  match connection_limit (config_connection (abuse g)) sig,
        connection_of (connection_tallies g) sig with
  | Some limit, Some counters =>
      let '(st, reached) := connection_loop times s limit (key_cap g) now counters false in
      (if reached then Close else Continue,
       with_connection g (set_connection (connection_tallies g) sig st))
  | _, _ => (Continue, g)
  end.

(** [signal], behind [refused_grants], [unresolvable_subscription] and
    [rejected_write]; [times] is a [u32]. *)
Definition signal (c : Caller) (sig : Signal) (times : nat) (now : Z) (g : RequestGuard) :
    Reaction * option Crossing * RequestGuard :=
  match times with
  | O => (Continue, None, g)
  | _ =>
      match user c with
      | Some u =>
          let '(x, g) := person_signal u (session c) sig times now g in (Continue, x, g)
      | None =>
          let '(r, g) := connection_signal (session c) sig times now g in (r, None, g)
      end
  end.

(** Three readings of the clock: the owner's, the throttle's, the tally's. *)
Definition guard_refresh_failed (s : SessionId) (t1 t2 t3 : Z) (g : RequestGuard) :
    option Z * option Crossing * RequestGuard :=
  let owner := owner_of s t1 g in
  let '(wait, a) := refresh_failed s (fst <$> owner) t2 (auth g) in
  let g := with_auth g a in
  match owner with
  | Some (_, id) =>
      let '(x, g) := person_signal id s FailedRenewal 1 t3 g in (wait, x, g)
  | None => (wait, None, g)
  end.

Definition forget_connection (s : SessionId) (g : RequestGuard) : RequestGuard :=
  foldl (fun g sig =>
           match connection_of (connection_tallies g) sig with
           | Some counters =>
               with_connection g (set_connection (connection_tallies g) sig (forget s counters))
           | None => g
           end) g ALL.

(** ** Histories of calls *)

Inductive Call :=
  | Report (c : Caller) (sig : Signal) (times : nat) (now : Z)
  | LearnOwner (s : SessionId) (account : Id) (now : Z)
  | RefreshBlocked (s : SessionId) (t1 t2 : Z)
  | RefreshFailed (s : SessionId) (t1 t2 t3 : Z)
  | ForgetConnection (s : SessionId).

Inductive Answer :=
  | Reacted (r : Reaction) (x : option Crossing)
  | Waited (wait : option Z) (x : option Crossing)
  | Done.

Definition guard_step (g : RequestGuard) (call : Call) : Answer * RequestGuard :=
  match call with
  | Report c sig times now =>
      let '(r, x, g) := signal c sig times now g in (Reacted r x, g)
  | LearnOwner s account now => (Done, learn_owner s account now g)
  | RefreshBlocked s t1 t2 => (Waited (guard_refresh_blocked s t1 t2 g) None, g)
  | RefreshFailed s t1 t2 t3 =>
      let '(wait, x, g) := guard_refresh_failed s t1 t2 t3 g in (Waited wait x, g)
  | ForgetConnection s => (Done, forget_connection s g)
  end.

Fixpoint run_calls {S : Type} (step : S -> Call -> Answer * S) (s : S) (calls : list Call) :
    list Answer * S :=
  match calls with
  | [] => ([], s)
  | call :: calls' =>
      let '(a, s') := step s call in
      let '(rest, s'') := run_calls step s' calls' in (a :: rest, s'')
  end.

(** ** What the guard promises: plain counts, kept for ever *)

Record Spec := {
  sp_session : gmap SessionId Window;
  sp_account : gmap string Window;
  sp_owners : gmap SessionId Owner;
  sp_person : Signal -> gmap string Window;
  sp_connection : Signal -> gmap SessionId Z;
}.

Definition new_spec : Spec := {|
  sp_session := ∅; sp_account := ∅; sp_owners := ∅;
  sp_person := fun _ => ∅; sp_connection := fun _ => ∅ |}.

(** The tally still running at [now]. *)
Definition live (over now : Z) (ow : option Window) : option Window :=
  w ← ow; if decide (over <= since now (started w)) then None else Some w.

Definition live_count (over now : Z) (ow : option Window) : Z :=
  from_option count 0 (live over now ow).

(** [n] reports at once: the running tally grows by [n], or a new one opens. *)
Definition reported (over now : Z) (n : nat) (ow : option Window) : Window :=
  {| started := from_option started now (live over now ow);
     count := sat_add u32_max (live_count over now ow) (Z.of_nat n) |}.

(** The threshold lies in the reports just counted. *)
Definition crosses (limit : Limit) (now : Z) (n : nat) (ow : option Window) : bool :=
  bool_decide (limit_max limit <= count (reported (limit_window limit) now n ow)) &&
  (bool_decide (live_count (limit_window limit) now ow < limit_max limit)
   || bool_decide (limit_max limit = u32_max)).

Definition upd {A} (f : Signal -> A) (sig : Signal) (a : A) : Signal -> A :=
  fun s => if decide (s = sig) then a else f s.

Definition spec_person (ab : AbuseConfig) (u : Id) (s : SessionId) (sig : Signal)
    (times : nat) (now : Z) (sp : Spec) : option Crossing * Spec :=
  let limit := person_limit (config_person ab) sig in
  let m := sp_person sp sig in
  let key := to_string u in
  (if crosses limit now times (m !! key) then
     Some {| x_user_id := u; x_session := s; x_signal := sig; x_limit := limit_max limit;
             x_window := limit_window limit; x_count := limit_max limit;
             x_proposed := BanPermanently |}
   else None,
   {| sp_session := sp_session sp; sp_account := sp_account sp; sp_owners := sp_owners sp;
      sp_person := upd (sp_person sp) sig
                     (<[key := reported (limit_window limit) now times (m !! key)]> m);
      sp_connection := sp_connection sp |}).

Definition spec_connection (ab : AbuseConfig) (s : SessionId) (sig : Signal) (times : nat)
    (sp : Spec) : Reaction * Spec :=
  match connection_limit (config_connection ab) sig with
  | None => (Continue, sp)
  | Some limit =>
      let m := sp_connection sp sig in
      let n := sat_add u32_max (default 0 (m !! s)) (Z.of_nat times) in
      (if decide (limit <= n) then Close else Continue,
       {| sp_session := sp_session sp; sp_account := sp_account sp;
          sp_owners := sp_owners sp; sp_person := sp_person sp;
          sp_connection := upd (sp_connection sp) sig (<[s := n]> m) |})
  end.

Definition spec_owner (tc : ThrottleConfig) (s : SessionId) (now : Z) (sp : Spec) :
    option (string * Id) :=
  o ← sp_owners sp !! s;
  if decide (since now (seen o) < auth_retain tc) then Some (rendering o, owner_id o) else None.

(** The wait a running, exhausted window still asks for. *)
Definition spec_peek {K} `{Countable K} (key : K) (limit : Limit) (now : Z)
    (m : gmap K Window) : option Z :=
  w ← live (limit_window limit) now (m !! key);
  if decide (limit_max limit <= count w) then
    Some (limit_window limit - since now (started w))
  else None.

Definition spec_refresh (tc : ThrottleConfig) (s : SessionId) (account : option string)
    (now : Z) (sp : Spec) : option Z * Spec :=
  let '(by_session, ms) := reference s (refresh_failures_per_session tc) now (sp_session sp) in
  let '(by_account, ma) :=
    match account with
    | Some a => reference a (refresh_failures_per_account tc) now (sp_account sp)
    | None => (None, sp_account sp)
    end in
  (longer_wait by_session by_account,
   {| sp_session := ms; sp_account := ma; sp_owners := sp_owners sp;
      sp_person := sp_person sp; sp_connection := sp_connection sp |}).

Definition spec_step (tc : ThrottleConfig) (ab : AbuseConfig) (sp : Spec) (call : Call) :
    Answer * Spec :=
  match call with
  | Report _ _ O _ => (Reacted Continue None, sp)
  | Report {| session := s; user := Some u |} sig times now =>
      let '(x, sp) := spec_person ab u s sig times now sp in (Reacted Continue x, sp)
  | Report {| session := s; user := None |} sig times _ =>
      let '(r, sp) := spec_connection ab s sig times sp in (Reacted r None, sp)
  | LearnOwner s account now =>
      (Done, {| sp_session := sp_session sp; sp_account := sp_account sp;
                sp_owners := <[s := {| rendering := to_string account; owner_id := account;
                                       seen := now |}]> (sp_owners sp);
                sp_person := sp_person sp; sp_connection := sp_connection sp |})
  | RefreshBlocked s t1 t2 =>
      (Waited (longer_wait
        (spec_peek s (refresh_failures_per_session tc) t2 (sp_session sp))
        (a ← fst <$> spec_owner tc s t1 sp;
         spec_peek a (refresh_failures_per_account tc) t2 (sp_account sp))) None, sp)
  | RefreshFailed s t1 t2 t3 =>
      let owner := spec_owner tc s t1 sp in
      let '(wait, sp) := spec_refresh tc s (fst <$> owner) t2 sp in
      match owner with
      | Some (_, id) =>
          let '(x, sp) := spec_person ab id s FailedRenewal 1 t3 sp in (Waited wait x, sp)
      | None => (Waited wait None, sp)
      end
  | ForgetConnection s =>
      (Done, {| sp_session := sp_session sp; sp_account := sp_account sp;
                sp_owners := sp_owners sp; sp_person := sp_person sp;
                sp_connection := fun sig => delete s (sp_connection sp sig) |})
  end.
End Guard.
Arguments RequestGuard SessionId {_ _} Id.
Arguments Spec SessionId {_ _} Id.
Arguments Crossing SessionId Id : clear implicits.
Arguments Caller SessionId Id : clear implicits.
Arguments Owner Id : clear implicits.
Arguments Call SessionId Id : clear implicits.
Arguments Answer SessionId Id : clear implicits.

(** ** The configuration *)

(** What [build] demands of one signal. *)
Definition signal_valid (p : PersonLimits) (c : ConnectionLimits) (s : Signal) : Prop :=
  limit_window (person_limit p s) <> 0 /\ limit_max (person_limit p s) <> 0 /\
  forall k, connection_limit c s = Some k -> k <> 0 /\ k < limit_max (person_limit p s).

Definition config_valid (c : AbuseConfig) : Prop :=
  forall s, signal_valid (config_person c) (config_connection c) s.

Lemma check_signal_None l s :
  check_signal l s = None <-> signal_valid (person_limits l) (connection_limits l) s.
Proof.
  unfold check_signal, signal_valid. repeat case_decide; split; try done; try naive_solver.
  - destruct (connection_limit _ s) as [k|]; [|naive_solver].
    repeat case_decide; try done. intros _. split_and!; [done..|]. intros ? [= <-]. lia.
  - intros (_ & _ & Hk). destruct (connection_limit _ s) as [k|]; [|done].
    destruct (Hk k) as [? ?]; [done|]. rewrite !decide_False by lia. done.
Qed.

Lemma check_signals_None l ss :
  check_signals l ss = None <->
  Forall (signal_valid (person_limits l) (connection_limits l)) ss.
Proof.
  induction ss as [|s ss IH]; simpl; [done|]. rewrite Forall_cons, <- check_signal_None, <- IH.
  destruct (check_signal l s); naive_solver.
Qed.

Lemma elem_of_ALL s : s ∈ ALL.
Proof. destruct s; unfold ALL; repeat (left || right). Qed.

Lemma abuse_retain_covers c s :
  limit_window (person_limit (config_person c) s) <= abuse_person_retain c.
Proof. unfold abuse_person_retain. destruct s; simpl; lia. Qed.

Definition error_signal (e : AbuseConfigError) : Signal :=
  match e with ZeroWindow s | ZeroCount _ s | ConnectionNotBelowPerson s _ _ => s end.

Lemma check_signal_names l s e : check_signal l s = Some e -> error_signal e = s.
Proof.
  unfold check_signal. repeat case_decide; try (intros [= <-]; done).
  destruct (connection_limit _ s); [|done]. repeat case_decide; by intros [= <-].
Qed.

Lemma check_signals_first l ss e :
  check_signals l ss = Some e ->
  exists before after, ss = before ++ error_signal e :: after /\
    check_signal l (error_signal e) = Some e /\
    Forall (signal_valid (person_limits l) (connection_limits l)) before.
Proof.
  induction ss as [|s ss IH]; simpl; [done|]. destruct (check_signal l s) as [e'|] eqn:E.
  - intros [= ->]. pose proof (check_signal_names _ _ _ E) as <-. exists [], ss. by split_and!.
  - intros (b & a & -> & He & Hb)%IH. exists (s :: b), a. split_and!; [done|done|].
    constructor; [|done]. by apply check_signal_None.
Qed.

(** [AbuseLimits::build] accepts exactly the thresholds that can do their
    job: every window and every count is non-zero, and a connection's count is
    below its person's. A refusal names the first signal of the list that fails
    and the first of its checks that does, every signal before it being sound;
    the shipped thresholds are accepted. *)
Theorem build_exact (l : AbuseLimits) :
  match build l with
  | Ok c => c = {| config_person := person_limits l; config_connection := connection_limits l |}
            /\ config_valid c
  | Err e =>
      (exists before after, ALL = before ++ error_signal e :: after /\
         Forall (signal_valid (person_limits l) (connection_limits l)) before) /\
      ~ signal_valid (person_limits l) (connection_limits l) (error_signal e) /\
      let p := person_limit (person_limits l) (error_signal e) in
      let k := connection_limit (connection_limits l) (error_signal e) in
      match e with
      | ZeroWindow _ => limit_window p = 0
      | ZeroCount t _ => limit_window p <> 0 /\
          (t = "person" /\ limit_max p = 0 \/ t = "connection" /\ limit_max p <> 0 /\ k = Some 0)
      | ConnectionNotBelowPerson _ n m =>
          limit_window p <> 0 /\ m = limit_max p /\ m <> 0 /\ n <> 0 /\ k = Some n /\ m <= n
      end
  end /\ is_ok (build new_abuse_limits) = true.
Proof.
  split; [|by vm_compute]. unfold build. destruct (check_signals l ALL) as [e|] eqn:E.
  - apply check_signals_first in E as (b & a & Hl & He & Hb). split_and!; [eauto|..].
    + rewrite <- check_signal_None, He. done.
    + clear Hl Hb. unfold check_signal in He. cbv zeta in *.
      repeat case_decide; [by destruct e; simplify_eq/=|by destruct e; simplify_eq/=; auto|].
      destruct (connection_limit _ _) as [k|] eqn:Ek; [|done].
      repeat case_decide; destruct e; simplify_eq/=; split_and!; auto.
  - split; [done|]. apply check_signals_None in E. rewrite Forall_forall in E.
    intros s. apply E, elem_of_ALL.
Qed.

(** ** The refinement *)

Section Refinement.
Context {SessionId : Type} `{CS : Countable SessionId}.
Context {Id : Type} `{ID : Identity Id}.

(** *** One person's reports *)

Section Person.
Context (limit : Limit) (retain cap now : Z) (people : gset string).
Context (Hw : 0 < limit_window limit <= retain) (Hmax : limit_max limit <= u32_max).
Context (Hroom : Z.of_nat (size people) <= Z.max cap 1).
#[local] Notation over := (limit_window limit) (only parsing).
#[local] Existing Instance tally_meter_laws.

Lemma reference_reported key (m : gmap string Window) :
  reference key (Some over) now m =
  (count (reported over now 1 (m !! key)), <[key := reported over now 1 (m !! key)]> m).
Proof.
  unfold reference, reported, live_count, live. destruct (m !! key) as [w|]; simpl; [|by vm_compute].
  case_decide; simpl; [by vm_compute|done].
Qed.

Lemma since_self : since now now = 0.
Proof. unfold since, sat_sub. lia. Qed.

Lemma reported_live n ow :
  live over now (Some (reported over now n ow)) = Some (reported over now n ow).
Proof.
  unfold live at 1, reported. simpl. rewrite decide_False; [done|].
  unfold live. destruct ow as [w|]; simpl; [case_decide; simpl|]; rewrite ?since_self; lia.
Qed.

Lemma reported_S n ow :
  reported over now (S n) ow = reported over now n (Some (reported over now 1 ow)).
Proof.
  unfold reported at 1 2. unfold live_count at 2. rewrite reported_live. simpl.
  f_equal. unfold sat_add. lia.
Qed.

Lemma crosses_S n ow :
  crosses limit now (S (S n)) ow =
  crosses limit now 1 ow || crosses limit now (S n) (Some (reported over now 1 ow)).
Proof.
  unfold crosses. rewrite (reported_S (S n)).
  assert (E : live_count over now (Some (reported over now 1 ow)) = count (reported over now 1 ow))
    by (unfold live_count; by rewrite reported_live).
  rewrite E.
  assert (H : count (reported over now 1 ow) <=
              count (reported over now (S n) (Some (reported over now 1 ow)))).
  { unfold reported at 2, sat_add. rewrite E. simpl.
    unfold reported, sat_add. simpl. lia. }
  assert (Hge : live_count over now ow <= count (reported over now 1 ow) \/
                count (reported over now 1 ow) = u32_max).
  { unfold reported, sat_add. simpl. lia. }
  repeat case_bool_decide; simpl; done || lia.
Qed.

Lemma crosses_1 ow crossed :
  (if decide (count (reported over now 1 ow) = limit_max limit)
   then Some (count (reported over now 1 ow)) else crossed) =
  if crosses limit now 1 ow then Some (limit_max limit) else crossed.
Proof.
  unfold crosses, reported, sat_add. simpl.
  repeat case_bool_decide; case_decide; simpl; done || (f_equal; lia) || lia.
Qed.

(** The loop is the closed form. *)
Lemma person_loop_reports n key st m crossed now0 :
  stands_for retain now0 st m -> now0 <= now -> dom m ⊆ people -> key ∈ people ->
  let st' := person_loop (S n) key limit retain cap now st crossed in
  stands_for retain now st'.1 (<[key := reported over now (S n) (m !! key)]> m) /\
  st'.2 = if crosses limit now (S n) (m !! key) then Some (limit_max limit) else crossed.
Proof.
  revert st m crossed now0. induction n as [|n IH]; intros st m crossed now0 Hs Hle Hd Hk.
  all: destruct (metered_simulates retain cap now0 now st m key (Some over)) as [E1 E2];
    [done|done|by eexists; split; [done|lia]| |].
  1,3: intros Hn; pose proof (stands_for_room _ _ _ _ people key
         (stands_for_sweep retain _ now st m Hs Hle) Hd Hk Hn); lia.
  all: rewrite reference_reported in E1, E2.
  all: cbn [person_loop]; rewrite tally_metered;
    destruct (metered _ _ _ _ _ st) as [c st1]; cbn [fst snd] in E1, E2; subst c; rewrite crosses_1.
  - done.
  - edestruct (IH st1) as [H1 H2]; [exact E2|done|rewrite dom_insert; set_solver|done|].
    rewrite lookup_insert_eq in H1, H2. rewrite insert_insert_eq, <- reported_S in H1.
    split; [exact H1|]. etrans; [exact H2|]. rewrite crosses_S.
    by destruct (crosses limit now 1 _), (crosses limit now (S n) _).
Qed.
End Person.

(** *** One connection's reports *)

(** A store never swept since [t0] holds exactly the counts of [m]. *)
Definition holds (t0 : Z) (st : CounterState SessionId Window) (m : gmap SessionId Z) : Prop :=
  last_sweep st = t0 /\ forall k, (fun tr => count (window tr)) <$> windows st !! k = m !! k.

Lemma holds_size t0 st m : holds t0 st m -> size (windows st) = size m.
Proof.
  intros [_ H]. rewrite <- !size_dom. f_equal. apply set_eq. intros k.
  rewrite !elem_of_dom, <- H, fmap_is_Some. done.
Qed.

Lemma holds_room t0 st m (keys : gset SessionId) key :
  holds t0 st m -> dom m ⊆ keys -> key ∈ keys -> m !! key = None ->
  (size (windows st) < size keys)%nat.
Proof.
  intros Hh Hd Hk Hn. rewrite (holds_size _ _ _ Hh), <- size_dom.
  apply not_elem_of_dom in Hn. assert (Hs : {[key]} ∪ dom m ⊆ keys) by set_solver.
  apply subseteq_size in Hs. rewrite size_union, size_singleton in Hs by set_solver. lia.
Qed.

Lemma maybe_sweep_idle t0 st m now :
  holds t0 st m -> t0 <= now < t0 + DURATION_MAX ->
  maybe_sweep started DURATION_MAX now st = st.
Proof.
  intros [Hl _] Hn. unfold maybe_sweep. rewrite decide_False; [done|].
  rewrite Hl, since_eq by lia. lia.
Qed.

Lemma holds_tally t0 st m cap now s (keys : gset SessionId) :
  holds t0 st m -> t0 <= now < t0 + DURATION_MAX ->
  dom m ⊆ keys -> s ∈ keys -> Z.of_nat (size keys) <= Z.max cap 1 ->
  let n := sat_add u32_max (default 0 (m !! s)) 1 in
  (tally s None DURATION_MAX cap now st).1 = n /\
  holds t0 (tally s None DURATION_MAX cap now st).2 (<[s := n]> m).
Proof.
  intros Hh Hn Hd Hs Hc. unfold tally. rewrite (maybe_sweep_idle t0 st m) by done.
  pose proof Hh as [Hl Hm]. specialize (Hm s) as Hk.
  destruct (windows st !! s) as [tr|] eqn:E; simpl in Hk; rewrite <- Hk; simpl.
  - split; [done|]. split; [done|]. intros k. simpl.
    destruct (decide (s = k)) as [<-|Hne]; [by rewrite !lookup_insert_eq|].
    rewrite !lookup_insert_ne by done. apply Hm.
  - pose proof (holds_room _ _ _ _ _ Hh Hd Hs (eq_sym Hk)).
    unfold admit_key. rewrite evict_idle by lia.
    split; [by vm_compute|]. split; [done|]. intros k. simpl.
    destruct (decide (s = k)) as [<-|Hne]; [by rewrite !lookup_insert_eq|].
    rewrite !lookup_insert_ne by done. apply Hm.
Qed.

Lemma connection_loop_reports n t0 st m limit cap now s reached (keys : gset SessionId) :
  holds t0 st m -> t0 <= now < t0 + DURATION_MAX ->
  dom m ⊆ keys -> s ∈ keys -> Z.of_nat (size keys) <= Z.max cap 1 ->
  let c := sat_add u32_max (default 0 (m !! s)) (Z.of_nat (S n)) in
  let st' := connection_loop (S n) s limit cap now st reached in
  holds t0 st'.1 (<[s := c]> m) /\ st'.2 = reached || bool_decide (limit <= c).
Proof.
  intros Hh Hn Hd Hs Hc. revert st m reached Hh Hd.
  induction n as [|n IH]; intros st m reached Hh Hd; cbn zeta;
    destruct (holds_tally t0 st m cap now s keys Hh Hn Hd Hs Hc) as [E1 E2];
    cbn [connection_loop]; destruct (tally _ _ _ _ _ st) as [c st1];
    cbn [fst snd] in E1, E2; subst c; [done|].
  edestruct (IH st1) as [H1 H2]; [exact E2|rewrite dom_insert; set_solver|].
  rewrite lookup_insert_eq in H1, H2. rewrite insert_insert_eq in H1. simpl in H1, H2.
  replace (sat_add u32_max (sat_add u32_max (default 0 (m !! s)) 1) (Z.of_nat (S n)))
    with (sat_add u32_max (default 0 (m !! s)) (Z.of_nat (S (S n)))) in H1, H2
    by (unfold sat_add; lia).
  split; [exact H1|]. etrans; [exact H2|]. unfold sat_add.
  rewrite <- orb_assoc. f_equal. repeat case_bool_decide; done || lia.
Qed.

Lemma holds_forget t0 st m s : holds t0 st m -> holds t0 (forget s st) (delete s m).
Proof.
  intros [Hl Hm]. unfold forget. pose proof (Hm s) as Hs.
  destruct (windows st !! s) as [tr|] eqn:E; (split; [done|]); intros k; simpl;
    (destruct (decide (s = k)) as [<-|Hne];
     [rewrite ?lookup_delete_eq, ?E; done|rewrite ?lookup_delete_ne by done; apply Hm]).
Qed.

(** *** Session owners *)

Definition owners_stand (retain now : Z) (os m : gmap SessionId (Owner Id)) : Prop :=
  forall k, os !! k = m !! k \/
    (os !! k = None /\ exists o, m !! k = Some o /\ retain <= since now (seen o)).

Lemma owners_later retain now now' os m :
  owners_stand retain now os m -> now <= now' -> owners_stand retain now' os m.
Proof.
  intros H Hle k. destruct (H k) as [?|(? & o & ? & ?)]; [by left|right].
  split; [done|]. exists o. split; [done|]. unfold since, sat_sub in *. lia.
Qed.

Lemma owners_learn retain now os m s o :
  owners_stand retain now os m ->
  owners_stand retain now
    (<[s := o]> (filter (fun so => since now (seen so.2) < retain) os)) (<[s := o]> m).
Proof.
  intros H k. destruct (decide (s = k)) as [<-|Hne]; [left; by rewrite !lookup_insert_eq|].
  rewrite !lookup_insert_ne by done.
  destruct (filter _ os !! k) as [o'|] eqn:E.
  - apply map_lookup_filter_Some in E as [E _].
    destruct (H k) as [E'|[E' _]]; [left; congruence|congruence].
  - destruct (H k) as [E'|(E' & ?)]; [|right; by auto].
    destruct (os !! k) as [o'|] eqn:Eo; [|by left]. right. split; [done|].
    exists o'. split; [congruence|].
    pose proof (proj1 (map_lookup_filter_None _ _ _) E) as [?|Hf]; [congruence|].
    specialize (Hf _ Eo). simpl in Hf. lia.
Qed.

Lemma owners_lookup retain now os m s :
  owners_stand retain now os m ->
  (o ← os !! s; if decide (since now (seen o) < retain) then Some (rendering o, owner_id o) else None)
  = (o ← m !! s; if decide (since now (seen o) < retain) then Some (rendering o, owner_id o) else None).
Proof.
  intros H. destruct (H s) as [->|(-> & o & -> & Ho)]; [done|].
  simpl. by rewrite decide_False by lia.
Qed.

(** *** The simulation *)

Section Simulation.
Context (tc : ThrottleConfig) (ab : AbuseConfig) (t0 : Z).
Context (sessions : gset SessionId) (people : gset string).
Context (Hab : forall s, 0 < limit_window (person_limit (config_person ab) s) /\
                         0 < limit_max (person_limit (config_person ab) s) <= u32_max).
Context (Hsessions : Z.of_nat (size sessions) <= Z.max (max_tracked tc) 1).
Context (Hpeople : Z.of_nat (size people) <= Z.max (max_tracked tc) 1).
#[local] Existing Instance tally_meter_laws.
#[local] Existing Instance window_meter_laws.
Implicit Types (g : RequestGuard SessionId Id) (sp : Spec SessionId Id).

Record simulates (now : Z) g sp : Prop := {
  sim_abuse : abuse g = ab;
  sim_retain : person_retain g = abuse_person_retain ab;
  sim_cap : key_cap g = max_tracked tc;
  sim_config : at_config (auth g) = tc;
  sim_auth_retain : at_retain (auth g) = auth_retain tc;
  sim_person : forall sig, dom (sp_person sp sig) ⊆ people /\
    stands_for (M := tally_meter) (abuse_person_retain ab) now (person_of (person g) sig)
      (sp_person sp sig);
  sim_connection : forall sig st, connection_of (connection_tallies g) sig = Some st ->
    dom (sp_connection sp sig) ⊆ sessions /\ holds t0 st (sp_connection sp sig);
  sim_session : dom (sp_session sp) ⊆ sessions /\
    stands_for (M := window_meter) (auth_retain tc) now (per_session (auth g)) (sp_session sp);
  sim_account : dom (sp_account sp) ⊆ people /\
    stands_for (M := window_meter) (auth_retain tc) now (per_account (auth g)) (sp_account sp);
  sim_owners : owners_stand (auth_retain tc) now (owners g) (sp_owners sp);
  sim_known : map_Forall (fun _ o => rendering o ∈ people /\ rendering o = to_string (owner_id o))
                (sp_owners sp);
}.

Lemma stands_for_later {K A R W} `{CK : Countable K} {M : Meter A R W} retain
    {ML : MeterLaws M retain} now now' (st : CounterState K W) m :
  stands_for retain now st m -> now <= now' -> stands_for retain now' st m.
Proof.
  intros H Hle k. specialize (H k). destruct (m !! k); [|done].
  destruct H as [? [?|[??]]]; split; [done|by left|done|right; eauto using renewed_later].
Qed.

Lemma simulates_later now now' g sp :
  simulates now g sp -> now <= now' -> simulates now' g sp.
Proof.
  intros [] Hle. constructor; try done.
  - intros sig. destruct (sim_person0 sig). split; [done|]. by eapply stands_for_later.
  - destruct sim_session0. split; [done|]. by eapply stands_for_later.
  - destruct sim_account0. split; [done|]. by eapply stands_for_later.
  - by eapply owners_later.
Qed.

Lemma person_of_set p sig st s :
  person_of (set_person p sig st) s = if decide (s = sig) then st else person_of p s.
Proof. destruct sig, s; done. Qed.

Lemma connection_of_set c sig st s :
  connection_of (set_connection (SessionId := SessionId) c sig st) s =
  if decide (s = sig) then (fun _ => st) <$> connection_of c s else connection_of c s.
Proof. destruct sig, s; done. Qed.

Lemma person_signal_simulates now u s sig n g sp :
  simulates now g sp -> to_string u ∈ people ->
  (person_signal u s sig (S n) now g).1 = (spec_person ab u s sig (S n) now sp).1 /\
  simulates now (person_signal u s sig (S n) now g).2 (spec_person ab u s sig (S n) now sp).2.
Proof.
  intros Hsim Hu. pose proof Hsim as []. destruct (sim_person0 sig) as [Hd Hs].
  destruct (Hab sig) as (Hw & _ & Hm). pose proof (abuse_retain_covers ab sig).
  unfold person_signal, spec_person. rewrite sim_abuse0, sim_retain0, sim_cap0.
  edestruct (person_loop_reports (person_limit (config_person ab) sig) (abuse_person_retain ab)
    (max_tracked tc) now people ltac:(lia) Hm Hpeople n (to_string u)
    (person_of (person g) sig) (sp_person sp sig) None now) as [H1 H2]; [done..|].
  destruct (person_loop _ _ _ _ _ _ _ _) as [st x]. cbn [fst snd] in *. subst x.
  split; [by destruct (crosses _ _ _ _)|].
  constructor; try done; simpl. intros s'. rewrite person_of_set. unfold upd.
  case_decide; [subst s'|apply sim_person0]. split; [|done]. rewrite dom_insert. set_solver.
Qed.

Lemma connection_signal_simulates now s sig n g sp :
  simulates now g sp -> s ∈ sessions -> t0 <= now < t0 + DURATION_MAX ->
  (connection_signal s sig (S n) now g).1 = (spec_connection ab s sig (S n) sp).1 /\
  simulates now (connection_signal s sig (S n) now g).2 (spec_connection ab s sig (S n) sp).2.
Proof.
  intros Hsim Hs Hn. pose proof Hsim as []. unfold connection_signal, spec_connection.
  rewrite sim_abuse0, sim_cap0.
  destruct (connection_limit (config_connection ab) sig) as [limit|] eqn:El; [|done].
  destruct (connection_of (connection_tallies g) sig) as [st|] eqn:E; [|by destruct sig].
  destruct (sim_connection0 _ _ E) as [Hd Hh].
  destruct (connection_loop_reports n t0 st _ limit (max_tracked tc) now s false sessions
    Hh Hn Hd Hs Hsessions) as [H1 H2].
  destruct (connection_loop _ _ _ _ _ _ _) as [st' r]. cbn [fst snd] in *. subst r.
  rewrite orb_false_l. split; [by repeat case_bool_decide; case_decide|].
  constructor; try done; simpl. intros s' st''. rewrite connection_of_set. unfold upd.
  case_decide; [subst s'|apply sim_connection0]. rewrite E. intros [= <-].
  split; [|done]. rewrite dom_insert. set_solver.
Qed.
Lemma take_simulates {K} `{CK : Countable K} (keys : gset K) key limit now st m :
  stands_for (M := window_meter) (auth_retain tc) now st m -> dom m ⊆ keys -> key ∈ keys ->
  limit_window limit <= auth_retain tc -> Z.of_nat (size keys) <= Z.max (max_tracked tc) 1 ->
  let r := reference (M := window_meter) key limit now m in
  (take key limit (auth_retain tc) (max_tracked tc) now st).1 = r.1 /\
  dom r.2 ⊆ keys /\
  stands_for (M := window_meter) (auth_retain tc) now
    (take key limit (auth_retain tc) (max_tracked tc) now st).2 r.2.
Proof.
  intros Hs Hd Hk Hl Hc. cbn zeta. rewrite take_metered.
  destruct (metered_simulates (auth_retain tc) (max_tracked tc) now now st m key limit)
    as [E1 E2]; [done..| |].
  - intros Hn. pose proof (stands_for_room _ _ _ _ keys key
      (stands_for_sweep _ _ now st m Hs ltac:(done)) Hd Hk Hn). lia.
  - split_and!; [done| |done]. pose proof (reference_dom key limit now m). set_solver.
Qed.

Lemma refresh_failed_simulates now s account g sp :
  simulates now g sp -> s ∈ sessions -> (forall a, account = Some a -> a ∈ people) ->
  (refresh_failed s account now (auth g)).1 = (spec_refresh tc s account now sp).1 /\
  simulates now (with_auth g (refresh_failed s account now (auth g)).2)
    (spec_refresh tc s account now sp).2.
Proof.
  intros [] Hs Ha. unfold refresh_failed, spec_refresh.
  rewrite sim_config0, sim_auth_retain0.
  destruct sim_session0 as [Hds Hss], sim_account0 as [Hda Hsa].
  destruct (take_simulates sessions s (refresh_failures_per_session tc) now
    (per_session (auth g)) (sp_session sp)) as (E1 & D1 & S1); [done..|unfold auth_retain; lia|done|].
  destruct (take s _ _ _ _ _) as [w1 st1], (reference s _ _ _) as [w1' m1].
  cbn [fst snd] in *. subst w1'. destruct account as [a|].
  - destruct (take_simulates people a (refresh_failures_per_account tc) now
      (per_account (auth g)) (sp_account sp)) as (E2 & D2 & S2);
      [done..|by apply Ha|unfold auth_retain; lia|done|].
    destruct (take a _ _ _ _ _) as [w2 st2], (reference a _ _ _) as [w2' m2].
    cbn [fst snd] in *. subst w2'. split; [done|]. by constructor.
  - split; [done|]. by constructor.
Qed.

Lemma owner_of_simulates now s g sp :
  simulates now g sp -> owner_of s now g = spec_owner tc s now sp.
Proof. intros []. unfold owner_of, spec_owner. rewrite sim_auth_retain0. by apply owners_lookup. Qed.

Lemma spec_owner_known now t s g sp r u :
  simulates now g sp -> spec_owner tc s t sp = Some (r, u) -> r ∈ people /\ r = to_string u.
Proof.
  intros [] (o & Ho & Hif)%bind_Some. case_decide; simplify_eq. by apply (sim_known0 _ _ Ho).
Qed.

Lemma peek_simulates {K} `{CK : Countable K} key limit now st (m : gmap K Window) :
  stands_for (M := window_meter) (auth_retain tc) now st m ->
  limit_window limit <= auth_retain tc ->
  peek key limit now st = spec_peek key limit now m.
Proof.
  intros Hs Hl. unfold peek, spec_peek, live. specialize (Hs key).
  destruct (m !! key) as [w|] eqn:E; [|by rewrite Hs].
  destruct Hs as [_ [(tr & -> & <-)|[-> Hr]]]; simpl in *.
  - unfold sat_sub. repeat case_decide; simpl; rewrite ?decide_False by lia;
      rewrite ?decide_True by lia; try done; try lia; try (f_equal; lia).
  - rewrite decide_True by lia. done.
Qed.

Lemma forget_simulates now s g sp :
  simulates now g sp ->
  simulates now (forget_connection s g) (spec_step tc ab sp (ForgetConnection s)).2.
Proof.
  intros []. unfold forget_connection. simpl.
  constructor; try done; simpl. intros sig st Hst.
  assert (exists st0, connection_of (connection_tallies g) sig = Some st0 /\ st = forget s st0)
    as (st0 & E & ->) by (destruct sig; simpl in *; naive_solver).
  destruct (sim_connection0 _ _ E) as [Hd Hh]. split; [|by apply holds_forget].
  rewrite dom_delete. set_solver.
Qed.

(** The callers of a history are among those there is room for. *)
Definition known (call : Call SessionId Id) : Prop :=
  match call with
  | Report {| session := s; user := Some u |} _ _ _ => to_string u ∈ people
  | Report {| session := s; user := None |} _ _ _ => s ∈ sessions
  | LearnOwner _ account _ => to_string account ∈ people
  | RefreshFailed s _ _ _ => s ∈ sessions
  | _ => True
  end.

(** The readings of the clock a call makes. *)
Definition times_of (call : Call SessionId Id) : list Z :=
  match call with
  | Report _ _ _ now | LearnOwner _ _ now => [now]
  | RefreshBlocked _ t1 t2 => [t1; t2]
  | RefreshFailed _ t1 t2 t3 => [t1; t2; t3]
  | ForgetConnection _ => []
  end.

(** The clock never goes back from [t], and stays below [Duration::MAX]. *)
Fixpoint ticks (t : Z) (l : list Z) : Prop :=
  match l with [] => True | x :: l' => t <= x < t0 + DURATION_MAX /\ ticks x l' end.

Lemma report_simulates now c sig times g sp :
  simulates now g sp -> t0 <= now < t0 + DURATION_MAX -> known (Report c sig times now) ->
  (guard_step g (Report c sig times now)).1 = (spec_step tc ab sp (Report c sig times now)).1 /\
  simulates now (guard_step g (Report c sig times now)).2
    (spec_step tc ab sp (Report c sig times now)).2.
Proof.
  intros Hsim Hn Hk. destruct c as [s [u|]], times as [|n]; try done;
    cbn [guard_step spec_step known] in *.
  - destruct (person_signal_simulates now u s sig n g sp Hsim Hk) as [E1 E2].
    unfold signal. cbn [user session].
    destruct (person_signal _ _ _ _ _ _), (spec_person _ _ _ _ _ _ _). cbn [fst snd] in *. by subst.
  - destruct (connection_signal_simulates now s sig n g sp Hsim Hk Hn) as [E1 E2].
    unfold signal. cbn [user session].
    destruct (connection_signal _ _ _ _ _), (spec_connection _ _ _ _ _). cbn [fst snd] in *. by subst.
Qed.

Lemma refresh_simulates now s t1 t2 t3 g sp :
  simulates now g sp -> s ∈ sessions -> now <= t1 -> t1 <= t2 -> t2 <= t3 ->
  let call := RefreshFailed s t1 t2 t3 in
  (guard_step g call).1 = (spec_step tc ab sp call).1 /\
  simulates t3 (guard_step g call).2 (spec_step tc ab sp call).2.
Proof.
  intros Hsim Hs H1 H2 H3. cbn [guard_step spec_step]. unfold guard_refresh_failed.
  apply (simulates_later _ t1) in Hsim; [|done].
  rewrite (owner_of_simulates t1 s g sp Hsim). pose proof (spec_owner_known t1 t1 s g sp) as Hko.
  destruct (refresh_failed_simulates t2 s (fst <$> spec_owner tc s t1 sp) g sp) as [E1 E2].
  { by eapply simulates_later. } { done. }
  { intros a ([r u] & Ho & ->)%fmap_Some. by destruct (Hko r u Hsim Ho). }
  destruct (refresh_failed _ _ _ _) as [w a], (spec_refresh _ _ _ _ _) as [w' sp'].
  cbn [fst snd] in *. subst w'. apply (simulates_later _ t3) in E2; [|done].
  destruct (spec_owner tc s t1 sp) as [[r u]|]; [|done].
  destruct (Hko r u Hsim eq_refl) as [Hr ->].
  destruct (person_signal_simulates t3 u s FailedRenewal 0 (with_auth g a) sp' E2 Hr) as [F1 F2].
  destruct (person_signal _ _ _ _ _ _), (spec_person _ _ _ _ _ _ _). cbn [fst snd] in *. by subst.
Qed.

Lemma guard_step_simulates now call rest g sp :
  simulates now g sp -> t0 <= now -> known call -> ticks now (times_of call ++ rest) ->
  (guard_step g call).1 = (spec_step tc ab sp call).1 /\
  exists now', t0 <= now' /\ ticks now' rest /\
    simulates now' (guard_step g call).2 (spec_step tc ab sp call).2.
Proof.
  intros Hsim Ht Hk Hc. destruct call as [c sig times t|s a t|s t1 t2|s t1 t2 t3|s]; simpl in Hc.
  - destruct Hc as [Ht' Hc]. apply (simulates_later _ t) in Hsim; [|lia].
    destruct (report_simulates t c sig times g sp Hsim ltac:(lia) Hk). split; [done|].
    exists t. split_and!; [lia|done|done].
  - destruct Hc as [Ht' Hc]. apply (simulates_later _ t) in Hsim; [|lia]. split; [done|].
    exists t. split_and!; [lia|done|]. destruct Hsim. constructor; try done; simpl.
    + rewrite sim_auth_retain0. by apply owners_learn.
    + apply map_Forall_insert_2; [done|]. done.
  - destruct Hc as (Ht1 & Ht2 & Hc). split.
    + simpl. unfold guard_refresh_blocked, refresh_blocked.
      rewrite (owner_of_simulates t1 s g sp) by (eapply simulates_later; [done|lia]).
      apply (simulates_later _ t2) in Hsim; [|lia]. destruct Hsim. rewrite sim_config0.
      rewrite (peek_simulates _ _ t2 _ (sp_session sp)) by (apply sim_session0 || (unfold auth_retain; lia)).
      do 2 f_equal. destruct (spec_owner _ _ _ _) as [[r u]|]; simpl; [|done].
      apply peek_simulates; [apply sim_account0|unfold auth_retain; lia].
    + exists t2. split_and!; [lia|done|]. eapply simulates_later; [done|lia].
  - destruct Hc as (Ht1 & Ht2 & Ht3 & Hc).
    destruct (refresh_simulates now s t1 t2 t3 g sp) as [E1 E2]; [done|done|lia..|].
    split; [done|]. exists t3. split_and!; [lia|done|done].
  - split; [done|]. exists now. split_and!; [done|done|]. by apply forget_simulates.
Qed.

Lemma guard_run_simulates now calls g sp :
  simulates now g sp -> t0 <= now -> Forall known calls -> ticks now (calls ≫= times_of) ->
  (run_calls guard_step g calls).1 = (run_calls (spec_step tc ab) sp calls).1.
Proof.
  revert now g sp. induction calls as [|call calls IH]; intros now g sp Hsim Ht Hk Hc; [done|].
  apply Forall_cons in Hk as [Hk Hks]. cbn [mbind list_bind] in Hc.
  destruct (guard_step_simulates now call _ g sp Hsim Ht Hk Hc) as (E & now' & Ht' & Hc' & Hsim').
  simpl. destruct (guard_step g call) as [a g'], (spec_step _ _ sp call) as [a' sp'].
  cbn [fst snd] in *. subst a'. specialize (IH now' g' sp' Hsim' Ht' Hks Hc').
  destruct (run_calls guard_step g' calls), (run_calls _ sp' calls). simpl in *. congruence.
Qed.

Lemma new_guard_simulates : simulates t0 (new_guard tc ab t0) new_spec.
Proof.
  constructor; try done; simpl.
  - intros sig. rewrite dom_empty. split; [done|]. destruct sig; apply new_stands_for.
  - intros sig st E. rewrite dom_empty. split; [done|].
    assert (st = new_state t0) as -> by (destruct sig; simplify_eq/=; done).
    split; [done|]. intros k. done.
  - intros k. by left.
Qed.
End Simulation.

Lemma built_sound l ab :
  build l = Ok ab ->
  (forall s, 0 <= limit_window (person_limit (person_limits l) s) /\
             in_u32 (limit_max (person_limit (person_limits l) s))) ->
  forall s, 0 < limit_window (person_limit (config_person ab) s) /\
            0 < limit_max (person_limit (config_person ab) s) <= u32_max.
Proof.
  unfold build. destruct (check_signals l ALL) as [e|] eqn:E; [done|]. intros [= <-] Hl s.
  apply check_signals_None in E. rewrite Forall_forall in E.
  destruct (Hl s), (E s (elem_of_ALL s)) as (Hw & ? & _). unfold in_u32 in *. simpl. lia.
Qed.

(** C22. With room for every person and every unidentified connection a history
    names, the guard answers it call by call as the specification does: one
    running count per person and signal and one per connection and signal, never
    swept, evicted or looped over. So a person draws a [Crossing] exactly on the
    report that takes its running count to the threshold, whichever of its
    sessions the reports come from; a connection is told to close from its
    threshold on, until it is forgotten; a failed renewal is charged to the owner
    seen recently, if any; and a blocked renewal waits for the rest of its
    window. *)
Theorem guard_refines tc l ab t0 (sessions : gset SessionId) (people : gset string)
    (calls : list (Call SessionId Id)) :
  build l = Ok ab ->
  (forall s, 0 <= limit_window (person_limit (person_limits l) s) /\
             in_u32 (limit_max (person_limit (person_limits l) s))) ->
  Z.of_nat (size sessions) <= Z.max (max_tracked tc) 1 ->
  Z.of_nat (size people) <= Z.max (max_tracked tc) 1 ->
  Forall (known sessions people) calls ->
  ticks t0 t0 (calls ≫= times_of) ->
  (run_calls guard_step (new_guard tc ab t0) calls).1 =
  (run_calls (spec_step tc ab) new_spec calls).1.
Proof.
  intros Hb Hl Hs Hp Hk Hc. pose proof (built_sound l ab Hb Hl) as Hab.
  eapply (guard_run_simulates tc _ t0 sessions people); [done|done|done|apply new_guard_simulates|done..].
Qed.

(** *** What a crossing costs *)

(** How often [key] crossed on [sig], and how many reports it could answer for:
    its own, and any failed renewal when those are what is counted. *)
Definition crossed_by (key : string) (sig : Signal) (x : option (Crossing SessionId Id)) : Z :=
  match x with
  | Some x => if decide (to_string (x_user_id x) = key /\ x_signal x = sig) then 1 else 0
  | None => 0
  end.

Definition crossings_of (key : string) (sig : Signal) (answers : list (Answer SessionId Id)) : Z :=
  foldr (fun a n => match a with
                    | Reacted _ x | Waited _ x => crossed_by key sig x + n
                    | Done => n
                    end) 0 answers.

Definition reports_of (key : string) (sig : Signal) (calls : list (Call SessionId Id)) : Z :=
  foldr (fun call n => match call with
    | Report {| user := Some u |} s times _ =>
        (if decide (to_string u = key /\ s = sig) then Z.of_nat times else 0) + n
    | RefreshFailed _ _ _ _ => (if decide (sig = FailedRenewal) then 1 else 0) + n
    | _ => n
    end) 0 calls.

Section Cost.
Context (tc : ThrottleConfig) (ab : AbuseConfig) (key : string) (sig : Signal).
Notation threshold := (limit_max (person_limit (config_person ab) sig)) (only parsing).
Context (Hmax : 0 < threshold < u32_max).

(** The reports of the running tally not yet spent on a crossing. *)
Definition unspent (ow : option Window) : Z :=
  match ow with Some w => if decide (count w < threshold) then Z.max 0 (count w) else 0 | None => 0 end.

Lemma spec_person_cost u s sig' n now (sp : Spec SessionId Id) :
  let r := spec_person ab u s sig' n now sp in
  crossed_by key sig r.1 * threshold + unspent (sp_person r.2 sig !! key) <=
  (if decide (to_string u = key /\ sig' = sig) then Z.of_nat n else 0)
  + unspent (sp_person sp sig !! key).
Proof.
  cbn zeta. unfold spec_person. cbn [fst snd sp_person]. unfold upd.
  destruct (decide (to_string u = key /\ sig' = sig)) as [[<- ->]|Hne].
  2:{ assert (E : (if decide (sig = sig') then
          <[to_string u := reported (limit_window (person_limit (config_person ab) sig')) now n
             (sp_person sp sig' !! to_string u)]> (sp_person sp sig') else sp_person sp sig) !! key
          = sp_person sp sig !! key).
      { case_decide; [subst|done]. apply lookup_insert_ne. naive_solver. }
      rewrite E. unfold crossed_by. destruct (crosses _ _ _ _); simpl; [rewrite decide_False by done|]; lia. }
  rewrite decide_True by done. rewrite lookup_insert_eq.
  set (ow := sp_person sp sig !! to_string u). unfold crosses.
  assert (Hc : live_count (limit_window (person_limit (config_person ab) sig)) now ow
     = 0 \/ exists w, ow = Some w /\
     live_count (limit_window (person_limit (config_person ab) sig)) now ow = count w).
  { unfold live_count, live. destruct ow as [w|]; simpl; [|by left]. case_decide; simpl; eauto. }
  unfold unspent, reported, sat_add; cbn [count started].
  set (c0 := live_count _ now ow) in *. clearbody c0 ow.
  destruct Hc as [->|(w & -> & ->)]; repeat case_bool_decide; simpl;
    rewrite ?decide_True by done; repeat case_decide; try destruct ow; repeat case_decide; lia.
Qed.

Lemma spec_step_cost call (sp : Spec SessionId Id) :
  let r := spec_step tc ab sp call in
  crossings_of key sig [r.1] * threshold + unspent (sp_person r.2 sig !! key) <=
  reports_of key sig [call] + unspent (sp_person sp sig !! key).
Proof.
  cbn zeta. destruct call as [[s [u|]] sig' [|n] t|s a t|s t1 t2|s t1 t2 t3|s];
    cbn [spec_step]; try (simpl; repeat case_decide; lia).
  - pose proof (spec_person_cost u s sig' (S n) t sp) as H. cbn zeta in H.
    destruct (spec_person _ _ _ _ _ _ _) as [x sp']. cbn [fst snd] in *.
    cbn [crossings_of foldr reports_of]. lia.
  - unfold spec_connection. destruct (connection_limit _ _); simpl; lia.
  - destruct (spec_refresh tc s _ t2 sp) as [w sp'] eqn:E.
    assert (Ep : sp_person sp' = sp_person sp).
    { unfold spec_refresh in E. destruct (reference s _ _ _).
      destruct (fst <$> spec_owner tc s t1 sp); [destruct (reference _ _ _ _)|]; by simplify_eq. }
    rewrite <- Ep. destruct (spec_owner tc s t1 sp) as [[r u]|].
    + pose proof (spec_person_cost u s FailedRenewal 1 t3 sp') as H. cbn zeta in H.
      destruct (spec_person _ _ _ _ _ _ _) as [x sp'']. cbn [fst snd] in *.
      cbn [crossings_of foldr reports_of]. repeat case_decide; naive_solver lia.
    + simpl. case_decide; lia.
Qed.

Lemma spec_run_cost calls (sp : Spec SessionId Id) :
  crossings_of key sig (run_calls (spec_step tc ab) sp calls).1 * threshold <=
  reports_of key sig calls + unspent (sp_person sp sig !! key).
Proof.
  revert sp. induction calls as [|call calls IH]; intros sp.
  { simpl. unfold unspent. destruct (_ !! key); repeat case_decide; lia. }
  pose proof (spec_step_cost call sp) as H. cbn zeta in H. simpl.
  destruct (spec_step tc ab sp call) as [a sp']. specialize (IH sp').
  destruct (run_calls _ sp' calls) as [rest sp'']. cbn [fst snd] in *.
  destruct a; simpl in *; destruct call as [[? [?|]] ? ? ?| | | |]; simpl in *; lia.
Qed.
End Cost.

(** Nobody is put up for a ban on less than the threshold says: over any
    history the crossings of a person on a signal, times the threshold, are at
    most that person's reports of it. A tally that already crossed draws no
    second answer however long its window runs, and what a rolled-over window
    had counted is never reused. *)
Theorem crossings_earned tc l ab t0 (sessions : gset SessionId) (people : gset string)
    (calls : list (Call SessionId Id)) key sig :
  build l = Ok ab ->
  (forall s, 0 <= limit_window (person_limit (person_limits l) s) /\
             in_u32 (limit_max (person_limit (person_limits l) s))) ->
  limit_max (person_limit (config_person ab) sig) < u32_max ->
  Z.of_nat (size sessions) <= Z.max (max_tracked tc) 1 ->
  Z.of_nat (size people) <= Z.max (max_tracked tc) 1 ->
  Forall (known sessions people) calls ->
  ticks t0 t0 (calls ≫= times_of) ->
  crossings_of key sig (run_calls guard_step (new_guard tc ab t0) calls).1
    * limit_max (person_limit (config_person ab) sig)
  <= reports_of key sig calls.
Proof.
  intros Hb Hl Hm Hs Hp Hk Hc. pose proof (built_sound l ab Hb Hl) as Hab.
  rewrite (guard_run_simulates tc ab t0 sessions people Hab Hs Hp t0 calls _ new_spec);
    [|apply new_guard_simulates|done..].
  destruct (Hab sig) as (? & ? & ?).
  pose proof (spec_run_cost tc ab key sig ltac:(lia) calls new_spec) as H'.
  assert (E : unspent ab sig (sp_person (SessionId := SessionId) (Id := Id) new_spec sig !! key) = 0)
    by done. lia.
Qed.
End Refinement.
