(* ===== verification/Bans.v ===== *)
(** What a crossing costs: the ban list of [connetto-server/src/ban.rs] and the
    part of [connetto-server/src/guard.rs] that reads and writes it.

    The guard spawns one task per crossing, which asks the policy, writes the
    ban and then reports it; [lift_ban] reads the row, deletes it and then
    reports. The statements are the transactions, so each task is a small state
    machine whose transitions interleave freely ([ban_step]); the database's
    clock moves forward on its own, and any statement may fail, before it takes
    effect or with its answer lost after it did. *)

From Stdlib Require Import ZArith Lia.
From stdpp Require Import base list numbers option strings gmap fin_maps pretty.
From S2P Require Import Prelude Throttle Guard.

Open Scope Z_scope.

Section Bans.
Context {SessionId : Type} {Id : Type} `{CI : Countable Id} `{ID : Identity Id}.
(** What [make_interval(secs => ...)] adds for a span, a double of seconds
    rounded to the resolution of a timestamp. *)
Context (interval : Z -> Z).

(** ** The table and its statements: [connetto_ban_table!] *)

Record Row := { row_session : SessionId; row_reason : string; row_banned_at : Z;
                row_expires_at : option Z }.

Record Ban := { ban_session : SessionId; ban_reason : string; ban_banned_at : Z;
                ban_expires_at : option Z; applies : bool }.

Record NewBan := { new_user_id : Id; new_session : SessionId; new_reason : string;
                   new_ttl : option Z }.

Notation Table := (gmap Id Row).

(** The verdict is the statement's: [expires_at IS NULL OR expires_at > now()]. *)
Definition ban_row (now : Z) (user_id : Id) (t : Table) : option Ban :=
  (fun r =>
    let open := bool_decide (row_expires_at r = None) in
    let fresh := (fun e => bool_decide (now < e)) <$> row_expires_at r in
    {| ban_session := row_session r; ban_reason := row_reason r;
       ban_banned_at := row_banned_at r; ban_expires_at := row_expires_at r;
       applies := open || default false fresh |}) <$> t !! user_id.

(** A span of more than [i64::MAX] whole seconds is stored as no expiry. *)
Definition expiry (now : Z) (ttl : option Z) : option Z :=
  d ← ttl; if decide (d / SECOND <= i64_max) then Some (now + interval d) else None.

Definition ban_upsert (now : Z) (b : NewBan) (t : Table) : Table :=
  <[new_user_id b := {| row_session := new_session b; row_reason := new_reason b;
                        row_banned_at := now; row_expires_at := expiry now (new_ttl b) |}]> t.

(** How many rows the statement removed, with the table left behind. *)
Definition ban_delete (user_id : Id) (t : Table) : nat * Table :=
  (match t !! user_id with Some _ => 1%nat | None => 0%nat end, delete user_id t).

(** ** The store: [PgBanStore] *)

(** What becomes of a statement: carried out and answered, not carried out, or
    carried out with its answer lost. *)
Inductive BanFate := Ran | NotRun | Unheard.

Definition heard_of (f : BanFate) : bool := match f with Ran => true | _ => false end.

Inductive BanError := Unreachable.

(** [up] is whether the connection and the statement succeed. *)
Definition check (up : bool) (now : Z) (user_id : Id) (t : Table) : Result (option Ban) BanError :=
  if up then Ok (ban_row now user_id t) else Err Unreachable.

Definition impose (f : BanFate) (now : Z) (b : NewBan) (t : Table) : Result unit BanError * Table :=
  match f with
  | Ran => (Ok tt, ban_upsert now b t)
  | NotRun => (Err Unreachable, t)
  | Unheard => (Err Unreachable, ban_upsert now b t)
  end.

Definition lift (f : BanFate) (user_id : Id) (t : Table) : Result bool BanError * Table :=
  let '(removed, t') := ban_delete user_id t in
  match f with
  | Ran => (Ok (bool_decide (0 < removed)%nat), t')
  | NotRun => (Err Unreachable, t)
  | Unheard => (Err Unreachable, t')
  end.

(** ** The guard's use of it *)

Inductive AuthOp := Banned | BanLifted.
Record AuthEvent := { ev_session : SessionId; ev_user : option Id; ev_op : AuthOp }.

(** What the deployment attached while assembling the server. *)
Record Deployment := {
  bans_configured : bool;
  enforcement : option (Crossing SessionId Id -> Enforcement);
  audited : bool;
  closing : bool;
}.

(** [RequestGuard::banned]. *)
Definition banned (d : Deployment) (up : bool) (now : Z) (user_id : Id) (t : Table) :
    Result (option Ban) BanError :=
  if bans_configured d then
    rbind (check up now user_id t) (fun found =>
      Ok (b ← found; if applies b then Some b else None))
  else Ok None.

Definition verdict (d : Deployment) (x : Crossing SessionId Id) : Enforcement :=
  match enforcement d with Some on_threshold => on_threshold x | None => x_proposed x end.

(** [format!("{} {} per {}s", label, limit, window.as_secs())]. *)
Definition reason (x : Crossing SessionId Id) : string :=
  (label (x_signal x) +:+ " " +:+ pretty (x_limit x) +:+ " per " +:+
   pretty (x_window x / SECOND) +:+ "s")%string.

Definition starting_now (x : Crossing SessionId Id) (ttl : option Z) : NewBan :=
  {| new_user_id := x_user_id x; new_session := x_session x; new_reason := reason x;
     new_ttl := ttl |}.

(** Where a task stands: what it does at its next turn. *)
Inductive Task :=
  | Asking (x : Crossing SessionId Id)
  | Imposing (x : Crossing SessionId Id) (ttl : option Z)
  | Reporting (x : Crossing SessionId Id)
  | LiftChecking (user_id : Id)
  | Lifting (user_id : Id) (session : SessionId)
  | LiftReporting (user_id : Id) (session : SessionId).

(** What the statements did to one identity's row, in the order they ran, and
    whether the task heard of it; kept only to state the accounting below. *)
Inductive Change := Imposed (user_id : Id) (heard : bool) | Removed (user_id : Id) (heard : bool).

Record World := {
  db_now : Z;
  table : Table;
  tasks : list Task;
  audit_log : list AuthEvent;
  closed : list string;
  changes : list Change;
}.

(** [enforce], up to the spawn. *)
Definition enforce (d : Deployment) (x : Crossing SessionId Id) (w : World) : World :=
  if bans_configured d then
    {| db_now := db_now w; table := table w; tasks := tasks w ++ [Asking x];
       audit_log := audit_log w; closed := closed w; changes := changes w |}
  else w.

(** [lift_ban], up to its first await. *)
Definition lift_ban (d : Deployment) (user_id : Id) (w : World) : World :=
  if bans_configured d then
    {| db_now := db_now w; table := table w; tasks := tasks w ++ [LiftChecking user_id];
       audit_log := audit_log w; closed := closed w; changes := changes w |}
  else w.

Definition written (w : World) (t : Table) (cs : list Change) : World :=
  {| db_now := db_now w; table := t; tasks := tasks w; audit_log := audit_log w;
     closed := closed w; changes := changes w ++ cs |}.

(** One turn of a task, its statement of fate [f]: its next state, if it goes on,
    and its effects. *)
Definition turn (d : Deployment) (f : BanFate) (task : Task) (w : World) : option Task * World :=
  match task with
  | Asking x =>
      (match verdict d x with
       | Ignore => None
       | BanFor ttl => Some (Imposing x (Some ttl))
       | BanPermanently => Some (Imposing x None)
       end, w)
  | Imposing x ttl =>
      let '(r, t) := impose f (db_now w) (starting_now x ttl) (table w) in
      (match r with Ok _ => Some (Reporting x) | Err _ => None end,
       written w t (match f with NotRun => [] | _ => [Imposed (x_user_id x) (heard_of f)] end))
  | Reporting x =>
      (None,
       {| db_now := db_now w; table := table w; tasks := tasks w;
          audit_log := if audited d then
            audit_log w ++ [{| ev_session := x_session x; ev_user := Some (x_user_id x);
                               ev_op := Banned |}] else audit_log w;
          closed := if closing d then closed w ++ [to_string (x_user_id x)] else closed w;
          changes := changes w |})
  | LiftChecking u =>
      (match check (heard_of f) (db_now w) u (table w) with
       | Ok (Some b) => Some (Lifting u (ban_session b))
       | _ => None
       end, w)
  | Lifting u s =>
      let '(r, t) := lift f u (table w) in
      (match r with Ok true => Some (LiftReporting u s) | _ => None end,
       written w t (match f, table w !! u with
         | NotRun, _ | _, None => [] | _, Some _ => [Removed u (heard_of f)] end))
  | LiftReporting u s =>
      (None,
       {| db_now := db_now w; table := table w; tasks := tasks w;
          audit_log := if audited d then
            audit_log w ++ [{| ev_session := s; ev_user := Some u; ev_op := BanLifted |}]
            else audit_log w;
          closed := closed w; changes := changes w |})
  end.

(** The [i]-th task takes its turn. *)
Definition run_task (d : Deployment) (f : BanFate) (i : nat) (w : World) : World :=
  match tasks w !! i with
  | None => w
  | Some task =>
      let '(next, w') := turn d f task w in
      {| db_now := db_now w'; table := table w';
         tasks := firstn i (tasks w) ++ option_list next ++ skipn (S i) (tasks w);
         audit_log := audit_log w'; closed := closed w'; changes := changes w' |}
  end.

(** A crossing comes from [person_signal], which always proposes the same. *)
Inductive ban_step (d : Deployment) (w : World) : World -> Prop :=
  | s_enforce x : x_proposed x = BanPermanently -> ban_step d w (enforce d x w)
  | s_lift u : ban_step d w (lift_ban d u w)
  | s_task f i : ban_step d w (run_task d f i w)
  | s_clock t : db_now w <= t ->
      ban_step d w {| db_now := t; table := table w; tasks := tasks w;
                      audit_log := audit_log w; closed := closed w; changes := changes w |}.

Definition start (now : Z) : World :=
  {| db_now := now; table := ∅; tasks := []; audit_log := []; closed := []; changes := [] |}.

(** ** The accounts *)

Definition occurrences {A} (f : A -> bool) (l : list A) : nat :=
  length (filter (fun a => f a = true) l).

Lemma occurrences_app {A} (f : A -> bool) l l' :
  occurrences f (l ++ l') = (occurrences f l + occurrences f l')%nat.
Proof. unfold occurrences. by rewrite filter_app, length_app. Qed.

Lemma occurrences_1 {A} (f : A -> bool) a : occurrences f [a] = if f a then 1%nat else 0%nat.
Proof. unfold occurrences. rewrite filter_cons. case_decide as E; [by rewrite E|]. by destruct (f a). Qed.

Lemma occurrences_at {A} (f : A -> bool) l i a (next : option A) :
  l !! i = Some a ->
  (occurrences f (firstn i l ++ option_list next ++ skipn (S i) l) + (if f a then 1 else 0) =
   occurrences f l + match next with Some b => if f b then 1 else 0 | None => 0 end)%nat.
Proof.
  intros E. rewrite <- (take_drop_middle _ _ _ E) at 3. rewrite !occurrences_app.
  change (a :: drop (S i) l) with ([a] ++ drop (S i) l). rewrite occurrences_app, occurrences_1.
  destruct next as [b|]; simpl; [rewrite occurrences_1|]; unfold occurrences; simpl; lia.
Qed.

Section Accounts.
Context (u : Id).

Definition is_imposed (c : Change) : bool :=
  match c with Imposed v _ => bool_decide (v = u) | Removed _ _ => false end.
Definition is_removed (c : Change) : bool :=
  match c with Removed v _ => bool_decide (v = u) | Imposed _ _ => false end.
(** Changes of the row whose task never heard of them. *)
Definition is_lost_ban (c : Change) : bool :=
  match c with Imposed v heard => bool_decide (v = u) && negb heard | Removed _ _ => false end.
Definition is_lost_lift (c : Change) : bool :=
  match c with Removed v heard => bool_decide (v = u) && negb heard | Imposed _ _ => false end.
Definition is_reporting (t : Task) : bool :=
  match t with Reporting x => bool_decide (x_user_id x = u) | _ => false end.
Definition is_lift_reporting (t : Task) : bool :=
  match t with LiftReporting v _ => bool_decide (v = u) | _ => false end.
Definition is_event (op : bool) (e : AuthEvent) : bool :=
  bool_decide (ev_user e = Some u) &&
  match ev_op e with Banned => op | BanLifted => negb op end.

(** The last thing the statements did to the row. *)
Definition last_change (l : list Change) : option bool :=
  foldl (fun r c => if is_imposed c then Some true else if is_removed c then Some false else r)
    None l.

Lemma last_change_snoc l c :
  last_change (l ++ [c]) =
  if is_imposed c then Some true else if is_removed c then Some false else last_change l.
Proof. unfold last_change. by rewrite foldl_app. Qed.

Record accounted (d : Deployment) (w : World) : Prop := {
  acc_row : bool_decide (is_Some (table w !! u)) = default false (last_change (changes w));
  acc_banned : audited d = true ->
    (occurrences (is_event true) (audit_log w) + occurrences is_reporting (tasks w)
     + occurrences is_lost_ban (changes w) = occurrences is_imposed (changes w))%nat;
  acc_lifted : audited d = true ->
    (occurrences (is_event false) (audit_log w) + occurrences is_lift_reporting (tasks w)
     + occurrences is_lost_lift (changes w) = occurrences is_removed (changes w))%nat;
  acc_closed : closing d = true -> (forall v, to_string v = to_string u -> v = u) ->
    (occurrences (fun k => bool_decide (k = to_string u)) (closed w)
     + occurrences is_reporting (tasks w) + occurrences is_lost_ban (changes w) =
     occurrences is_imposed (changes w))%nat;
  acc_permanent : enforcement d = None ->
    (forall x ttl, Imposing x ttl ∈ tasks w -> ttl = None) /\
    (forall x, Asking x ∈ tasks w -> x_proposed x = BanPermanently) /\
    forall r, table w !! u = Some r -> row_expires_at r = None;
}.

Lemma elem_of_replaced {A} (l : list A) i (next : option A) t :
  t ∈ firstn i l ++ option_list next ++ skipn (S i) l -> next = Some t \/ t ∈ l.
Proof.
  rewrite !elem_of_app. intros [H|[H|H]].
  - right. by eapply elem_of_take in H as (? & ?%list_elem_of_lookup_2 & _).
  - destruct next as [b|]; [|by apply not_elem_of_nil in H].
    apply list_elem_of_singleton in H as ->. by left.
  - right. apply list_elem_of_lookup in H as [j Hj]. rewrite lookup_drop in Hj.
    by eapply list_elem_of_lookup_2.
Qed.

Lemma turn_permanent d f task w next w' :
  turn d f task w = (next, w') -> enforcement d = None ->
  (forall x, task = Asking x -> x_proposed x = BanPermanently) ->
  (forall x ttl, next = Some (Imposing x ttl) -> ttl = None) /\
  (forall x, next <> Some (Asking x)).
Proof.
  intros Ht Hd Ha. destruct task; simpl in Ht; split; try (by repeat case_match; naive_solver).
  intros x' ttl ->. unfold verdict in Ht. rewrite Hd, (Ha _ eq_refl) in Ht. by simplify_eq.
Qed.

Lemma last_change_app l c : last_change (l ++ c) =
  match last_change c with Some b => Some b | None => last_change l end.
Proof.
  induction c as [|a c IH] using rev_ind; [by rewrite app_nil_r|].
  rewrite app_assoc, !last_change_snoc, IH. by repeat case_match.
Qed.

(** The table after one statement, and the last change it logs. *)
Lemma imposing_table w x ttl f :
  let t := (impose f (db_now w) (starting_now x ttl) (table w)).2 in
  let cs := match f with NotRun => [] | _ => [Imposed (x_user_id x) (heard_of f)] end in
  bool_decide (is_Some (table w !! u)) = default false (last_change (changes w)) ->
  bool_decide (is_Some (t !! u)) = default false (last_change (changes w ++ cs)).
Proof.
  intros t cs Hrow. rewrite last_change_app. subst t cs.
  destruct f; simpl; unfold ban_upsert, last_change; simpl; [|done|];
    (destruct (decide (x_user_id x = u)) as [->|Hne];
      [rewrite lookup_insert_eq; by rewrite !bool_decide_eq_true_2 by eauto
      |rewrite lookup_insert_ne by done; by rewrite (bool_decide_eq_false_2 (_ = u))]).
Qed.

Lemma lifting_table w v f :
  let t := (lift f v (table w)).2 in
  let cs := match f, table w !! v with NotRun, _ | _, None => [] | _, Some _ => [Removed v (heard_of f)] end in
  bool_decide (is_Some (table w !! u)) = default false (last_change (changes w)) ->
  bool_decide (is_Some (t !! u)) = default false (last_change (changes w ++ cs)).
Proof.
  intros t cs Hrow. rewrite last_change_app. subst t cs. unfold lift, ban_delete.
  destruct (table w !! v) as [row|] eqn:Ev; destruct f; simpl; rewrite ?delete_id by done; try done;
    unfold last_change; simpl;
    (destruct (decide (v = u)) as [->|Hne];
      [rewrite lookup_delete_eq; by rewrite (bool_decide_eq_true_2 (u = u)) by done
      |rewrite lookup_delete_ne by done; by rewrite (bool_decide_eq_false_2 (v = u))]).
Qed.

(** What a turn does to the table is what it logs. *)
Lemma turn_table d f task w next w' :
  turn d f task w = (next, w') -> accounted d w ->
  bool_decide (is_Some (table w' !! u)) = default false (last_change (changes w')).
Proof.
  intros Ht [Hrow _ _ _ _]. destruct task as [x|x ttl|x|v|v s|v s]; simpl in Ht;
    try (by repeat case_match; simplify_eq/=).
  - pose proof (imposing_table w x ttl f Hrow) as H. destruct (impose _ _ _ _) as [r t].
    by simplify_eq/=.
  - pose proof (lifting_table w v f Hrow) as H. destruct (lift _ _ _) as [r t]. by simplify_eq/=.
Qed.

(** The reports still due, those made and those never to be made move together
    with the changes. *)
Lemma turn_counts d f task w next w' :
  turn d f task w = (next, w') ->
  let due (g : Task -> bool) := (match next with Some b => if g b then 1 else 0 | None => 0 end)%nat in
  let was (g : Task -> bool) := (if g task then 1 else 0)%nat in
  let had g w := occurrences g (changes w) in
  (audited d = true ->
   (occurrences (is_event true) (audit_log w') + due is_reporting + had is_lost_ban w' + had is_imposed w =
    occurrences (is_event true) (audit_log w) + was is_reporting + had is_lost_ban w + had is_imposed w')%nat /\
   (occurrences (is_event false) (audit_log w') + due is_lift_reporting + had is_lost_lift w' + had is_removed w =
    occurrences (is_event false) (audit_log w) + was is_lift_reporting + had is_lost_lift w + had is_removed w')%nat) /\
  (closing d = true -> (forall v, to_string v = to_string u -> v = u) ->
   let mine := fun k => bool_decide (k = to_string u) in
   (occurrences mine (closed w') + due is_reporting + had is_lost_ban w' + had is_imposed w =
    occurrences mine (closed w) + was is_reporting + had is_lost_ban w + had is_imposed w')%nat).
Proof.
  intros Ht. cbn zeta. destruct task as [x|x ttl|x|v|v s|v s]; simpl in Ht.
  - split; intros; repeat case_match; simplify_eq/=; split_and?; lia.
  - split; intros; destruct f; simplify_eq/=; rewrite ?app_nil_r, ?occurrences_app, ?occurrences_1; simpl;
      repeat case_bool_decide; split_and?; simpl; lia.
  - simplify_eq/=. split.
    + intros ->. rewrite !occurrences_app, !occurrences_1. unfold is_event. simpl.
      repeat case_bool_decide; simpl; split; lia || congruence.
    + intros -> Hinj. rewrite !occurrences_app, !occurrences_1. simpl.
      repeat case_bool_decide; try lia; exfalso; naive_solver.
  - split; intros; repeat case_match; simplify_eq/=; split_and?; lia.
  - unfold lift, ban_delete in Ht.
    destruct f, (table w !! v); simplify_eq/=; rewrite ?app_nil_r, ?occurrences_app, ?occurrences_1; simpl;
      split; intros; repeat case_bool_decide; split_and?; simpl; lia.
  - simplify_eq/=. split; [|intros; lia].
    intros ->. rewrite !occurrences_app, !occurrences_1. unfold is_event. simpl.
    repeat case_bool_decide; simpl; split; lia || congruence.
Qed.

(** A row left by a turn is the one that was there, or the one just imposed. *)
Lemma turn_row d f task w next w' r :
  turn d f task w = (next, w') -> table w' !! u = Some r ->
  table w !! u = Some r \/
  exists x ttl, task = Imposing x ttl /\ row_expires_at r = expiry (db_now w) ttl.
Proof.
  intros Ht Hu. destruct task as [x|x ttl|x|v|v s|v s]; simpl in Ht;
    [by simplify_eq/=; auto| |by simplify_eq/=; auto|by simplify_eq/=; auto| |by simplify_eq/=; auto].
  - destruct f; simplify_eq/=; [|by auto|]; unfold ban_upsert in Hu;
      apply lookup_insert_Some in Hu as [[_ <-]|[_ ?]]; eauto 6.
  - unfold lift, ban_delete in Ht. destruct f; simplify_eq/=; [|by auto|];
      apply lookup_delete_Some in Hu as [_ ?]; auto.
Qed.

Lemma run_task_accounted d f i w : accounted d w -> accounted d (run_task d f i w).
Proof.
  intros Hacc. unfold run_task. destruct (tasks w !! i) as [task|] eqn:Ht; [|done].
  destruct (turn d f task w) as [next w'] eqn:Eturn.
  pose proof (occurrences_at is_reporting _ _ _ next Ht) as Hr.
  pose proof (occurrences_at is_lift_reporting _ _ _ next Ht) as Hlr.
  destruct (turn_counts _ _ _ _ _ _ Eturn) as [Ha Hc]. cbn zeta in Ha, Hc.
  pose proof (turn_table _ _ _ _ _ _ Eturn Hacc) as Hrow.
  apply list_elem_of_lookup_2 in Ht. destruct Hacc as [_ Hban Hlift Hclose Hperm].
  constructor; simpl; [done|..].
  - intros H. destruct (Ha H) as [? _]. specialize (Hban H). lia.
  - intros H. destruct (Ha H) as [_ ?]. specialize (Hlift H). lia.
  - intros H H'. specialize (Hc H H'). specialize (Hclose H H'). lia.
  - intros H. destruct (Hperm H) as (Hi & Hk & Hp).
    destruct (turn_permanent _ _ _ _ _ _ Eturn H) as [Ht1 Ht2]; [by intros x ->; eauto|].
    split_and!.
    + intros x ttl [?|?]%elem_of_replaced; eauto.
    + intros x [?|?]%elem_of_replaced; [by destruct (Ht2 x)|eauto].
    + intros r Hu. destruct (turn_row _ _ _ _ _ _ _ Eturn Hu) as [?|(x & ttl & -> & ->)]; [eauto|].
      by rewrite (Hi _ _ Ht).
Qed.

Lemma step_accounted d w w' : ban_step d w w' -> accounted d w -> accounted d w'.
Proof.
  intros [x Hx|v|f i|t Ht] Hacc; [| |by apply run_task_accounted|by destruct Hacc].
  - unfold enforce. destruct (bans_configured d); [|done]. destruct Hacc as [? Hb Hl Hc Hp].
    constructor; simpl; rewrite ?occurrences_app, ?occurrences_1; simpl; rewrite ?Nat.add_0_r; [done..|].
    intros Hd. destruct (Hp Hd) as (? & ? & ?). split_and!; [..|done].
    + intros ?? [?|H']%elem_of_app; [eauto|]. by apply list_elem_of_singleton in H'.
    + intros ? [?|H']%elem_of_app; [eauto|]. apply list_elem_of_singleton in H'. by simplify_eq.
  - unfold lift_ban. destruct (bans_configured d); [|done]. destruct Hacc as [? Hb Hl Hc Hp].
    constructor; simpl; rewrite ?occurrences_app, ?occurrences_1; simpl; rewrite ?Nat.add_0_r; [done..|].
    intros Hd. destruct (Hp Hd) as (? & ? & ?). split_and!; [..|done].
    + intros ?? [?|H']%elem_of_app; [eauto|]. by apply list_elem_of_singleton in H'.
    + intros ? [?|H']%elem_of_app; [eauto|]. by apply list_elem_of_singleton in H'.
Qed.

Lemma reach_accounted d now w : rtc (ban_step d) (start now) w -> accounted d w.
Proof.
  intros H. refine (rtc_ind_r (R := ban_step d) (accounted d) (start now) _ _ w H).
  - constructor; simpl; [done..|]. intros _. split_and!; [| |by intros ?].
    + by intros ?? ?%not_elem_of_nil.
    + by intros ? ?%not_elem_of_nil.
  - intros ?? _ ??. by eapply step_accounted.
Qed.
End Accounts.

(** C39. Every ban and every lift a task hears of is answered for. However the tasks
    of one server process interleave and whichever statements fail, the rows
    written are those whose task made its [Banned] event, those whose task is still
    to make it and those whose statement took effect with its answer lost, which
    are never reported; likewise the closings of the person's connections, when no
    other identity has the same text; and the rows removed against the [BanLifted]
    events. The table holds the person exactly when the last statement on that row
    wrote it. *)
Theorem bans_accounted d now w u :
  rtc (ban_step d) (start now) w ->
  (table w !! u <> None <-> last_change u (changes w) = Some true) /\
  (audited d = true ->
   (occurrences (is_event u true) (audit_log w) + occurrences (is_reporting u) (tasks w)
    + occurrences (is_lost_ban u) (changes w) = occurrences (is_imposed u) (changes w))%nat /\
   (occurrences (is_event u false) (audit_log w) + occurrences (is_lift_reporting u) (tasks w)
    + occurrences (is_lost_lift u) (changes w) = occurrences (is_removed u) (changes w))%nat) /\
  (closing d = true -> (forall v, to_string v = to_string u -> v = u) ->
   (occurrences (fun k => bool_decide (k = to_string u)) (closed w)
    + occurrences (is_reporting u) (tasks w) + occurrences (is_lost_ban u) (changes w) =
    occurrences (is_imposed u) (changes w))%nat).
Proof.
  intros [Hrow Hb Hl Hc _]%(reach_accounted u). split_and!; [|by auto..].
  rewrite not_eq_None_Some. split; [intros Hs|intros E].
  - rewrite bool_decide_eq_true_2 in Hrow by done. by destruct (last_change u _) as [[]|].
  - rewrite E in Hrow. by apply bool_decide_eq_true in Hrow.
Qed.

(** A ban does not lapse by accident. With connetto's own answer to a
    crossing, a person whose row the statements last wrote is refused at every
    later moment of the database's clock, or the check is an error when the list
    cannot be read: never an absence. Only a lift ends it. *)
Theorem ban_holds d now w u up t :
  rtc (ban_step d) (start now) w -> bans_configured d = true -> enforcement d = None ->
  last_change u (changes w) = Some true ->
  match banned d up t u (table w) with
  | Ok (Some b) => applies b = true /\ ban_expires_at b = None /\ up = true
  | Ok None => False
  | Err _ => up = false
  end.
Proof.
  intros [Hrow _ _ _ Hp]%(reach_accounted u) Hd He Hl. destruct (Hp He) as (_ & _ & Hr).
  rewrite Hl in Hrow. simpl in Hrow. apply bool_decide_eq_true in Hrow as [r Er].
  unfold banned. rewrite Hd. destruct up; [|done]. simpl. unfold ban_row. rewrite Er. simpl.
  rewrite (Hr _ Er). by rewrite bool_decide_eq_true_2.
Qed.

(** A ban with a span is refused exactly until the database's clock reaches the
    expiry stamped when it was written; the row outlives it. *)
Lemma timed_ban_applies d now x ttl w t :
  bans_configured d = true -> ttl / SECOND <= i64_max ->
  let tbl := (impose Ran now (starting_now x (Some ttl)) (table w)).2 in
  is_Some (tbl !! x_user_id x) /\
  ((exists b, banned d true t (x_user_id x) tbl = Ok (Some b)) <-> t < now + interval ttl).
Proof.
  intros Hd Hs. cbn zeta. unfold banned, check, rbind. rewrite Hd.
  unfold impose, ban_row, ban_upsert, starting_now. cbn [snd new_user_id new_session new_ttl new_reason].
  rewrite lookup_insert_eq. split; [by eexists|]. cbn [fmap option_fmap option_map mbind option_bind].
  unfold expiry. cbn [mbind option_bind]. rewrite decide_True by done.
  case_bool_decide as E; [done|]. cbn [fmap option_fmap option_map default orb from_option id].
  simpl. destruct (bool_decide _) eqn:Eb; [apply bool_decide_eq_true in Eb|apply bool_decide_eq_false in Eb];
    split; naive_solver.
Qed.
End Bans.
