(* ===== verification/Cursor.v ===== *)
(** Resume cursors: [connetto-server/src/fence.rs], [connetto-server/src/timeline.rs]
    and the judgement of a presented cursor, [Resume::of] in
    [connetto-server/src/session.rs].

    Commit positions and snapshot fences are types of the change-data library,
    so they are parameters here: [PgPosition] is what the server uses of a
    position, [PgPositionLaws] what it relies on (the order is the order of the
    three parts, the encoding has 20 bytes, reads back, and sorts as positions
    do), and [PgFence] likewise for a fence. Text is its UTF-8 bytes. *)

From Stdlib Require Import ZArith Lia.
From stdpp Require Import base list numbers option strings.
From S2P Require Import Prelude.

Open Scope Z_scope.

(** ** The change-data library's types *)

Definition cmp_parts (a b : Z * Z * Z) : comparison :=
  let '(l, x, o) := a in let '(l', x', o') := b in
  match l ?= l' with Eq => match x ?= x' with Eq => o ?= o' | c => c end | c => c end.

Class PgPosition (P : Type) := {
  commit_lsn : P -> Z;
  xid : P -> Z;
  ordinal : P -> Z;
  new_position : Z -> Z -> Z -> P;
  before_commit : Z -> P;
  at_commit : Z -> Z -> P;
  pos_cmp : P -> P -> comparison;
  to_opaque : P -> bytes;
  from_opaque : bytes -> option P;
}.

Definition parts {P} `{PgPosition P} (p : P) : Z * Z * Z := (commit_lsn p, xid p, ordinal p).

Class PgPositionLaws (P : Type) `{PgPosition P} := {
  lsn_u64 : forall p, in_u64 (commit_lsn p);
  xid_u32 : forall p, in_u32 (xid p);
  ordinal_u64 : forall p, in_u64 (ordinal p);
  new_parts : forall p, new_position (commit_lsn p) (xid p) (ordinal p) = p;
  parts_new : forall l x o, in_u64 l -> in_u32 x -> in_u64 o -> parts (new_position l x o) = (l, x, o);
  pos_cmp_parts : forall p q, pos_cmp p q = cmp_parts (parts p) (parts q);
  before_lsn : forall l, in_u64 l -> commit_lsn (before_commit l) = l;
  before_least : forall l p, in_u64 l -> l <= commit_lsn p -> pos_cmp (before_commit l) p <> Gt;
  opaque_len : forall p, length (to_opaque p) = 20%nat;
  opaque_wf : forall p, wf_bytes (to_opaque p);
  opaque_roundtrip : forall p, from_opaque (to_opaque p) = Some p;
  opaque_order : forall p q, bytes_cmp (to_opaque p) (to_opaque q) = pos_cmp p q;
}.

Inductive Seen := Held | Missed | Beyond.

#[export] Instance Seen_eq_dec : EqDecision Seen.
Proof. solve_decision. Defined.

(** [PgSnapshotFence]: parsed from a snapshot's text and the insert position
    read inside it. *)
Class PgFence (P F : Type) := {
  parse_fence : bytes -> Z -> option F;
  insert_lsn : F -> Z;
  seen_by : P -> F -> Seen;
  (** [PgXid::INVALID]. *)
  invalid_xid : Z;
}.

Class PgFenceLaws (P F : Type) `{PgFence P F} := {
  insert_parse : forall s l f, parse_fence s l = Some f -> insert_lsn f = l;
  invalid_u32 : in_u32 invalid_xid;
}.

(** ** The order of positions *)

Section Order.
Context {P : Type} `{PL : PgPositionLaws P}.
Implicit Types p q : P.

Definition pos_leb p q : bool := match pos_cmp p q with Gt => false | _ => true end.
Definition pos_ltb p q : bool := match pos_cmp p q with Lt => true | _ => false end.
Definition pos_le p q : Prop := pos_cmp p q <> Gt.
Definition pos_lt p q : Prop := pos_cmp p q = Lt.

Lemma pos_leb_le p q : pos_leb p q = true <-> pos_le p q.
Proof. unfold pos_leb, pos_le. by destruct (pos_cmp p q). Qed.

Lemma pos_ltb_lt p q : pos_ltb p q = true <-> pos_lt p q.
Proof. unfold pos_ltb, pos_lt. by destruct (pos_cmp p q). Qed.

Lemma parts_inj p q : parts p = parts q -> p = q.
Proof.
  unfold parts. intros [= E1 E2 E3]. rewrite <- (new_parts p), <- (new_parts q). congruence.
Qed.

Lemma cmp_parts_Eq a b : cmp_parts a b = Eq <-> a = b.
Proof.
  destruct a as [[l x] o], b as [[l' x'] o']. simpl. split.
  - destruct (l ?= l') eqn:E1; [|done..]. destruct (x ?= x') eqn:E2; [|done..].
    intros E3. apply Z.compare_eq in E1, E2, E3. congruence.
  - intros [= -> -> ->]. by rewrite !Z.compare_refl.
Qed.

Lemma cmp_parts_lt a b :
  cmp_parts a b = Lt <->
  a.1.1 < b.1.1 \/ (a.1.1 = b.1.1 /\ (a.1.2 < b.1.2 \/ (a.1.2 = b.1.2 /\ a.2 < b.2))).
Proof.
  destruct a as [[l x] o], b as [[l' x'] o']. simpl.
  destruct (Z.compare_spec l l'), (Z.compare_spec x x'), (Z.compare_spec o o');
    split; try done; try lia.
Qed.

Lemma cmp_parts_opp a b : cmp_parts b a = CompOpp (cmp_parts a b).
Proof.
  destruct a as [[l x] o], b as [[l' x'] o']. simpl.
  rewrite (Z.compare_antisym l l'), (Z.compare_antisym x x'), (Z.compare_antisym o o').
  destruct (l ?= l'); simpl; [|done..]. by destruct (x ?= x').
Qed.

Lemma pos_lt_iff p q :
  pos_lt p q <-> commit_lsn p < commit_lsn q \/ (commit_lsn p = commit_lsn q /\
    (xid p < xid q \/ (xid p = xid q /\ ordinal p < ordinal q))).
Proof. unfold pos_lt. rewrite pos_cmp_parts, cmp_parts_lt. done. Qed.

Lemma pos_lt_trans p q r : pos_lt p q -> pos_lt q r -> pos_lt p r.
Proof. rewrite !pos_lt_iff. lia. Qed.

Lemma pos_lt_irrefl p : ~ pos_lt p p.
Proof. rewrite pos_lt_iff. lia. Qed.

Lemma pos_le_iff p q : pos_le p q <-> ~ pos_lt q p.
Proof.
  unfold pos_le, pos_lt. rewrite !pos_cmp_parts, (cmp_parts_opp (parts p) (parts q)).
  by destruct (cmp_parts (parts p) (parts q)).
Qed.

Lemma pos_lt_total p q : pos_lt p q \/ p = q \/ pos_lt q p.
Proof.
  unfold pos_lt. rewrite !pos_cmp_parts, (cmp_parts_opp (parts p) (parts q)).
  destruct (cmp_parts (parts p) (parts q)) eqn:E; [right; left|by left|by right; right].
  by apply parts_inj, cmp_parts_Eq.
Qed.

Lemma pos_lt_le p q : pos_lt p q -> pos_le p q.
Proof. rewrite pos_le_iff, !pos_lt_iff. lia. Qed.

Lemma pos_le_lt_trans p q r : pos_le p q -> pos_lt q r -> pos_lt p r.
Proof. rewrite pos_le_iff, !pos_lt_iff. lia. Qed.

Lemma pos_lt_le_trans p q r : pos_lt p q -> pos_le q r -> pos_lt p r.
Proof. rewrite pos_le_iff, !pos_lt_iff. lia. Qed.

Lemma pos_le_trans p q r : pos_le p q -> pos_le q r -> pos_le p r.
Proof. rewrite !pos_le_iff, !pos_lt_iff. lia. Qed.

Lemma pos_le_refl p : pos_le p p.
Proof. rewrite pos_le_iff. apply pos_lt_irrefl. Qed.

Lemma pos_leb_ltb p q : pos_leb p q = negb (pos_ltb q p).
Proof.
  unfold pos_leb, pos_ltb. rewrite !pos_cmp_parts, (cmp_parts_opp (parts p) (parts q)).
  by destruct (cmp_parts (parts p) (parts q)).
Qed.

(** A read's position lies before every commit that starts at its place or
    later, and after every commit that starts earlier. *)
Lemma before_commit_splits l p :
  in_u64 l -> pos_le (before_commit l) p <-> l <= commit_lsn p.
Proof.
  intros Hl. split; [|by apply before_least].
  intros Hle. destruct (Z.lt_ge_cases (commit_lsn p) l) as [Hlt|]; [|done].
  apply pos_le_iff in Hle. destruct Hle. apply pos_lt_iff. left. by rewrite before_lsn.
Qed.
End Order.

(** ** UTF-8 *)

Definition continuation (b : Z) : bool := bool_decide (128 <= b <= 191).

(** [core::str::from_utf8] succeeds. *)
Fixpoint from_utf8 (l : bytes) : bool :=
  match l with
  | [] => true
  | a :: l1 =>
      if decide (0 <= a <= 127) then from_utf8 l1
      else match l1 with
      | [] => false
      | b :: l2 =>
          if decide (194 <= a <= 223) then continuation b && from_utf8 l2
          else match l2 with
          | [] => false
          | c :: l3 =>
              if decide (224 <= a <= 239) then
                bool_decide ((if decide (a = 224) then 160 else 128) <= b
                             <= (if decide (a = 237) then 159 else 191))
                && continuation c && from_utf8 l3
              else match l3 with
              | [] => false
              | d :: l4 =>
                  bool_decide (240 <= a <= 244)
                  && bool_decide ((if decide (a = 240) then 144 else 128) <= b
                                  <= (if decide (a = 244) then 143 else 191))
                  && continuation c && continuation d && from_utf8 l4
              end
          end
      end
  end.

(** ** Text *)

(** [str::split] on one ASCII byte. *)
Fixpoint split_on (sep : Z) (s : bytes) : list bytes :=
  match s with
  | [] => [[]]
  | c :: s' =>
      if decide (c = sep) then [] :: split_on sep s'
      else match split_on sep s' with
           | [] => [[c]]
           | f :: fs => (c :: f) :: fs
           end
  end.

Definition digit (radix c : Z) : option Z :=
  v ← (if decide (48 <= c <= 57) then Some (c - 48)
       else if decide (97 <= c <= 122) then Some (c - 87)
       else if decide (65 <= c <= 90) then Some (c - 55) else None);
  if decide (v < radix) then Some v else None.

Fixpoint digits (radix max acc : Z) (s : bytes) : option Z :=
  match s with
  | [] => Some acc
  | c :: s' =>
      d ← digit radix c;
      if decide (acc * radix + d <= max) then digits radix max (acc * radix + d) s' else None
  end.

(** [uN::from_str_radix], and [str::parse] at radix 10. *)
Definition parse_unsigned (radix max : Z) (s : bytes) : option Z :=
  match s with
  | [] => None
  | c :: s' =>
      if decide (c = 43) then match s' with [] => None | _ => digits radix max 0 s' end
      else digits radix max 0 s
  end.

(** ** Fences: [fence.rs] *)

Section Fence.
Context {P F : Type} `{PL : PgPositionLaws P} `{FL : !PgFence P F}.

Record Unseen := { running : list Z; unseen_from : Z }.

(** [Unseen::contains]. *)
Definition unseen_contains (u : Unseen) (x : Z) : bool :=
  bool_decide (x ∈ running u) || bool_decide (wrap_u32 (x - unseen_from u) < Z.shiftl 1 31).

Definition low_bits (s : bytes) : option Z :=
  x ← parse_unsigned 10 u64_max s; try_into u32_max (Z.land x u32_max).

Record ReadFence := { snapshot : bytes; fence : F }.

(** [ReadFence::parse] on the text of a [&str]. *)
Definition parse_read_fence (s : bytes) (lsn : Z) : option ReadFence :=
  f ← parse_fence s lsn; Some {| snapshot := s; fence := f |}.

Definition seen (f : ReadFence) (at_ : P) : Seen := seen_by at_ (fence f).

Definition unseen (f : ReadFence) : Unseen :=
  let fields := drop 1 (split_on 58 (snapshot f)) in
  {| unseen_from := default (invalid_xid (P := P) (F := F)) (s ← fields !! 0%nat; low_bits s);
     running := match fields !! 1%nat with
                | Some l => omap low_bits (split_on 44 l)
                | None => []
                end |}.

(** [encode_into], as the bytes appended. *)
Definition encode_fence (f : ReadFence) : bytes :=
  be_bytes 8 (insert_lsn (P := P) (fence f)) ++ snapshot f.

Definition decode_fence (b : bytes) : option ReadFence :=
  if decide (length b < 8)%nat then None
  else if from_utf8 (drop 8 b) then parse_read_fence (drop 8 b) (from_be (take 8 b)) else None.

Definition POSITION_LEN : nat := 20.

Definition snapshot_cursor (read : P) (f : option ReadFence) : bytes :=
  to_opaque read ++ match f with Some f => encode_fence f | None => [] end.

Definition split_snapshot_cursor (b : bytes) : option (P * option ReadFence) :=
  if decide (length b < POSITION_LEN)%nat then None
  else
    position ← from_opaque (take POSITION_LEN b);
    match drop POSITION_LEN b with
    | [] => Some (position, None)
    | rest => f ← decode_fence rest; Some (position, Some f)
    end.

(** ** Positions on a timeline: [timeline.rs] *)

Definition FIRST_TIMELINE : Z := 1.

Record Position := { system : Z; timeline : Z; at_ : P }.

Definition ENCODED_LEN : nat := 32.

Definition to_cursor_bytes (p : Position) : bytes :=
  be_bytes 8 (system p) ++ be_bytes 4 (timeline p) ++ to_opaque (at_ p).

Definition fenced_cursor_bytes (p : Position) (f : option ReadFence) : bytes :=
  to_cursor_bytes p ++ match f with Some f => encode_fence f | None => [] end.

Definition from_cursor_bytes (b : bytes) : option Position :=
  if decide (length b = ENCODED_LEN) then
    a ← from_opaque (drop 4 (drop 8 b));
    Some {| system := from_be (take 8 b); timeline := from_be (take 4 (drop 8 b)); at_ := a |}
  else None.

Definition from_fenced_cursor (b : bytes) : option (Position * option ReadFence) :=
  if decide (length b < ENCODED_LEN)%nat then None
  else
    position ← from_cursor_bytes (take ENCODED_LEN b);
    match drop ENCODED_LEN b with
    | [] => Some (position, None)
    | rest => f ← decode_fence rest; Some (position, Some f)
    end.

Record TimelineHistory := {
  h_system : Z;
  current : Z;
  (** Each ancestor timeline and where it ended. *)
  ended : list (Z * Z);
}.

#[export] Instance TimelineHistory_eq_dec : EqDecision TimelineHistory.
Proof. solve_decision. Defined.

Definition default_history : TimelineHistory :=
  {| h_system := 0; current := FIRST_TIMELINE; ended := [] |}.

(** [TimelineHistory::first]. *)
Definition first_history (s : Z) : TimelineHistory :=
  {| h_system := s; current := FIRST_TIMELINE; ended := [] |}.

(** [TimelineHistory::contains]. *)
Definition contains (h : TimelineHistory) (p : Position) : bool :=
  bool_decide (system p = h_system h) &&
  (bool_decide (timeline p = current h)
   || existsb (fun te => bool_decide (te.1 = timeline p) && pos_leb (at_ p) (before_commit te.2))
        (ended h)).

Definition stamp (h : TimelineHistory) (a : P) : bytes :=
  to_cursor_bytes {| system := h_system h; timeline := current h; at_ := a |}.

(** [Resume::of]. *)
Inductive Resume :=
  | Fresh
  | At (position : P) (f : option ReadFence)
  | BeyondHistory.

Definition resume_of (cursor : option bytes) (h : TimelineHistory) : Resume :=
  match cursor with
  | None | Some [] => Fresh
  | Some b =>
      match from_fenced_cursor b with
      | Some (p, f) =>
          if decide (commit_lsn (at_ p) = 0) then Fresh
          else if contains h p then At (at_ p) f else BeyondHistory
      | None => BeyondHistory
      end
  end.
End Fence.
Arguments ReadFence F : clear implicits.
Arguments Position P : clear implicits.
Arguments Resume P F : clear implicits.

(** ** What a cursor promises *)

Section Cursors.
Context {P F : Type} `{PL : PgPositionLaws P} `{FP : !PgFence P F} `{FL : !PgFenceLaws P F}.

(** A fence as [ReadFence::parse] makes it, from the text of a [&str]. *)
Definition fence_ok (f : ReadFence F) : Prop :=
  from_utf8 (snapshot f) = true /\ in_u64 (insert_lsn (P := P) (fence f)) /\
  parse_fence (P := P) (snapshot f) (insert_lsn (P := P) (fence f)) = Some (fence f).

Definition position_ok (p : Position P) : Prop := in_u64 (system p) /\ in_u32 (timeline p).

Lemma parse_read_fence_ok s l f :
  from_utf8 s = true -> in_u64 l -> parse_read_fence (P := P) s l = Some f -> fence_ok f.
Proof.
  intros Hs Hl (g & Hg & [= <-])%bind_Some. unfold fence_ok. simpl.
  by rewrite (insert_parse _ _ _ Hg).
Qed.

Lemma decode_encode_fence f : fence_ok f -> decode_fence (P := P) (encode_fence (P := P) f) = Some f.
Proof.
  intros (Hu & Hl & Hp). unfold decode_fence, encode_fence.
  rewrite decide_False by (rewrite length_app, length_be_bytes; lia).
  rewrite (drop_app_length' (be_bytes 8 _)), (take_app_length' (be_bytes 8 _))
    by (by rewrite length_be_bytes).
  rewrite Hu, from_be8 by done. unfold parse_read_fence. rewrite Hp. by destruct f.
Qed.

Lemma encode_fence_cons f : exists b l, encode_fence (P := P) f = b :: l.
Proof.
  destruct (encode_fence f) as [|b l] eqn:E; [|eauto].
  apply (f_equal length) in E. unfold encode_fence in E. rewrite length_app, length_be_bytes in E. done.
Qed.

Lemma to_cursor_bytes_len (p : Position P) : length (to_cursor_bytes p) = ENCODED_LEN.
Proof. unfold to_cursor_bytes. by rewrite !length_app, !length_be_bytes, opaque_len. Qed.

Lemma from_to_cursor_bytes p : position_ok p -> from_cursor_bytes (to_cursor_bytes p) = Some p.
Proof.
  intros [Hs Ht]. unfold from_cursor_bytes. rewrite decide_True by apply to_cursor_bytes_len.
  unfold to_cursor_bytes.
  rewrite (drop_app_length' (be_bytes 8 _)), (take_app_length' (be_bytes 8 _))
    by (by rewrite length_be_bytes).
  rewrite (drop_app_length' (be_bytes 4 _)), (take_app_length' (be_bytes 4 _))
    by (by rewrite length_be_bytes).
  rewrite opaque_roundtrip. simpl. rewrite from_be8, from_be4 by done. by destruct p.
Qed.

Lemma from_fenced p f :
  position_ok p -> (forall g, f = Some g -> fence_ok g) ->
  from_fenced_cursor (F := F) (fenced_cursor_bytes p f) = Some (p, f).
Proof.
  intros Hp Hf. unfold from_fenced_cursor, fenced_cursor_bytes.
  rewrite decide_False by (rewrite length_app, to_cursor_bytes_len; lia).
  rewrite (drop_app_length' (to_cursor_bytes p)), (take_app_length' (to_cursor_bytes p))
    by (by rewrite to_cursor_bytes_len).
  rewrite from_to_cursor_bytes by done. simpl. destruct f as [g|]; [|done].
  destruct (encode_fence_cons g) as (b & l & E). rewrite E, <- E, decode_encode_fence by auto. done.
Qed.

(** A cursor reads back as what was written: a position with its cluster and
    timeline, with or without the fence of the snapshot that issued it, and the
    cursor of a snapshot before it is stamped; every other length is refused. *)
Theorem cursor_roundtrip p f (b : bytes) :
  position_ok p -> (forall g, f = Some g -> fence_ok g) ->
  from_fenced_cursor (F := F) (fenced_cursor_bytes p f) = Some (p, f) /\
  split_snapshot_cursor (F := F) (snapshot_cursor (at_ p) f) = Some (at_ p, f) /\
  ((length b < ENCODED_LEN)%nat -> from_fenced_cursor (P := P) (F := F) b = None) /\
  (length b <> ENCODED_LEN -> from_cursor_bytes (P := P) b = None).
Proof.
  intros Hp Hf. split_and!; [by apply from_fenced| | |].
  - unfold split_snapshot_cursor, snapshot_cursor.
    rewrite decide_False by (rewrite length_app, opaque_len; unfold POSITION_LEN; lia).
    rewrite (drop_app_length' (to_opaque _)), (take_app_length' (to_opaque _))
      by (by rewrite opaque_len).
    rewrite opaque_roundtrip. simpl. destruct f as [g|]; [|done].
    destruct (encode_fence_cons g) as (c & l & E). rewrite E, <- E, decode_encode_fence by auto. done.
  - intros Hb. unfold from_fenced_cursor. by rewrite decide_True.
  - intros Hb. unfold from_cursor_bytes. by rewrite decide_False.
Qed.

Lemma bytes_cmp_app a b c d :
  length a = length b ->
  bytes_cmp (a ++ c) (b ++ d) = match bytes_cmp a b with Eq => bytes_cmp c d | o => o end.
Proof.
  revert b. induction a as [|x a IH]; intros [|y b] Hl; try done. simpl.
  destruct (x ?= y); [|done..]. apply IH. by injection Hl.
Qed.

(** Big-endian bytes sort as the numbers do. *)
Lemma bytes_cmp_from_be a b :
  wf_bytes a -> wf_bytes b -> length a = length b ->
  bytes_cmp a b = (from_be a ?= from_be b).
Proof.
  intros Ha. revert b. induction Ha as [|x a Hx Ha IH]; intros b Hb Hl.
  { by destruct b. }
  destruct Hb as [|y b Hy Hb]; [done|]. injection Hl as Hl. simpl. rewrite !from_be_cons, <- Hl.
  pose proof (from_be_range a Ha). pose proof (from_be_range b Hb). rewrite <- Hl in *.
  set (N := 256 ^ Z.of_nat (length a)) in *. rewrite IH by done. symmetry.
  destruct (Z.compare_spec x y) as [->|Hxy|Hxy].
  - destruct (Z.compare_spec (from_be a) (from_be b)) as [->| |];
      [apply Z.compare_refl|apply Z.compare_lt_iff; lia|apply Z.compare_gt_iff; lia].
  - apply Z.compare_lt_iff. nia.
  - apply Z.compare_gt_iff. nia.
Qed.

Lemma bytes_cmp_be n a b :
  0 <= a < 256 ^ Z.of_nat n -> 0 <= b < 256 ^ Z.of_nat n ->
  bytes_cmp (be_bytes n a) (be_bytes n b) = (a ?= b).
Proof.
  intros Ha Hb. rewrite bytes_cmp_from_be by (auto with connetto; by rewrite !length_be_bytes).
  by rewrite !from_be_bytes, !Z.mod_small.
Qed.

(** The bytes of cursors sort as the cursors were issued: by cluster, then
    by timeline, so past every promotion, then by commit position; two cursors
    are the same bytes only when they are the same position. *)
Theorem cursor_order (p q : Position P) :
  position_ok p -> position_ok q ->
  bytes_cmp (to_cursor_bytes p) (to_cursor_bytes q) =
  match system p ?= system q with
  | Eq => match timeline p ?= timeline q with Eq => pos_cmp (at_ p) (at_ q) | c => c end
  | c => c
  end.
Proof.
  unfold position_ok, in_u64, in_u32, u64_max, u32_max. intros [Hs Ht] [Hs' Ht'].
  unfold to_cursor_bytes. rewrite bytes_cmp_app by (by rewrite !length_be_bytes).
  rewrite bytes_cmp_be by (simpl; lia). destruct (system p ?= system q); [|done..].
  rewrite bytes_cmp_app by (by rewrite !length_be_bytes).
  rewrite bytes_cmp_be by (simpl; lia). destruct (timeline p ?= timeline q); [|done..].
  apply opaque_order.
Qed.

Lemma unseen_from_u32 (f : ReadFence F) : in_u32 (unseen_from (unseen (P := P) f)).
Proof.
  unfold unseen. cbn [unseen_from]. destruct (s ← _; low_bits s) as [x|] eqn:Eu; simpl.
  - apply bind_Some in Eu as (s & _ & (y & _ & Hx)%bind_Some). by apply try_into_Some in Hx as [<- ?].
  - apply invalid_u32.
Qed.

(** *** A presented cursor *)

Definition history_ok (h : TimelineHistory) : Prop := in_u64 (h_system h) /\ in_u32 (current h).

(** [h'] is [h] after a promotion that ended its timeline at [switch]: the
    ancestors are kept, the old timeline joins them, and no ancestor is named
    twice. *)
Definition promoted (h h' : TimelineHistory) (switch : Z) : Prop :=
  h_system h' = h_system h /\ ended h' = ended h ++ [(current h, switch)] /\
  current h' <> current h /\ Forall (fun te => te.1 <> current h) (ended h) /\
  in_u64 switch.

Lemma resume_of_stamped h h' a f :
  history_ok h -> (forall g, f = Some g -> fence_ok g) -> commit_lsn a <> 0 ->
  resume_of (F := F) (Some (fenced_cursor_bytes
    {| system := h_system h; timeline := current h; at_ := a |} f)) h' =
  if contains h' {| system := h_system h; timeline := current h; at_ := a |}
  then At a f else BeyondHistory.
Proof.
  intros Hh Hf Ha. unfold resume_of.
  rewrite from_fenced by done. cbn [at_].
  destruct (fenced_cursor_bytes _ _) as [|b l] eqn:E.
  { apply (f_equal length) in E. unfold fenced_cursor_bytes in E.
    rewrite length_app, to_cursor_bytes_len in E. done. }
  by rewrite decide_False.
Qed.

(** A cursor this server issued resumes where it says while the database is
    on the same timeline. After a promotion it resumes exactly when its commit
    starts before the point where the old timeline ended, or is a read at or
    before it, so a client is never caught up across changes the database lost;
    and a cursor of another cluster never resumes. *)
Theorem resume_across_promotion h h' switch a f :
  history_ok h -> (forall g, f = Some g -> fence_ok g) -> commit_lsn a <> 0 ->
  promoted h h' switch ->
  let c := Some (fenced_cursor_bytes {| system := h_system h; timeline := current h; at_ := a |} f) in
  resume_of (F := F) c h = At a f /\
  (resume_of (F := F) c h' = At a f <-> pos_le a (before_commit switch)) /\
  (resume_of (F := F) c h' = BeyondHistory <-> ~ pos_le a (before_commit switch)) /\
  (commit_lsn a < switch -> resume_of (F := F) c h' = At a f) /\
  (forall h2, h_system h2 <> h_system h -> resume_of (F := F) c h2 = BeyondHistory).
Proof.
  intros Hh Hf Ha (Hsys & Hend & Hcur & Hfresh & Hsw). cbn zeta.
  rewrite !resume_of_stamped by done.
  assert (Hc : contains h' {| system := h_system h; timeline := current h; at_ := a |} =
               pos_leb a (before_commit switch)).
  { unfold contains. cbn [system timeline at_]. rewrite bool_decide_eq_true_2 by done. simpl.
    rewrite bool_decide_eq_false_2 by done. simpl. rewrite Hend, existsb_app.
    assert (existsb (fun te => bool_decide (te.1 = current h) && pos_leb a (before_commit te.2))
              (ended h) = false) as ->.
    { apply not_true_is_false. intros ([t e] & Hin & Hb)%existsb_exists.
      apply andb_prop in Hb as [Hb%bool_decide_eq_true _]. rewrite Forall_forall in Hfresh.
      by apply (Hfresh (t, e)); [apply list_elem_of_In|]. }
    simpl. rewrite bool_decide_eq_true_2 by done. by rewrite orb_false_r. }
  rewrite Hc. split_and!.
  - unfold contains. cbn [system timeline]. by rewrite !bool_decide_eq_true_2.
  - rewrite <- pos_leb_le. by destruct (pos_leb _ _).
  - rewrite <- pos_leb_le. by destruct (pos_leb _ _).
  - intros Hlt. assert (E : pos_leb a (before_commit switch) = true); [|by rewrite E].
    apply pos_leb_le, pos_lt_le, pos_lt_iff. left. by rewrite before_lsn.
  - intros h2 Hne. rewrite resume_of_stamped by done. unfold contains. cbn [system].
    by rewrite bool_decide_eq_false_2.
Qed.
End Cursors.
