(* ===== verification/Pending.v ===== *)
(** The durable half of the client's write queue: the bookkeeping tables of
    [connetto-client/src/lib.rs], the statements on them, and what a restart
    loads back.

    A writer's queue is the client's half of the (writer, sequence) identity the
    server settles by. The tables hold one row per writer (its next sequence and
    chain head) and one per queued entry; [load_writer_queues] rebuilds the queues
    from them when the replica opens. *)

From Stdlib Require Import ZArith Lia Sorted.
From stdpp Require Import base numbers option list sorting gmap strings.
From S2P Require Import Prelude Wire Chain Cursor.

Open Scope Z_scope.

#[export] Instance WriterRef_countable : Countable WriterRef.
Proof.
  refine (inj_countable' (fun w => match w with Device k => inl k | Number n => inr n end)
    (fun x => match x with inl k => Device k | inr n => Number n end) _). by intros [].
Defined.

(** ** Storage identities *)

Definition UNISSUED_NUMBER : Z := 0.
Definition unissued : WriterRef := Number UNISSUED_NUMBER.

Definition is_real_writer (w : WriterRef) : bool :=
  negb (match w with Number n => bool_decide (n = UNISSUED_NUMBER) | Device _ => false end).

Definition hex_digit (b : Z) : option Z :=
  if decide (48 <= b <= 57) then Some (b - 48)
  else if decide (97 <= b <= 102) then Some (b - 97 + 10)
  else None.

(** [{number}]: 20 digits hold every [u64]. *)
Fixpoint decimal_fuel (fuel : nat) (z : Z) : bytes :=
  match fuel with
  | O => []
  | S f => (if decide (z < 10) then [] else decimal_fuel f (z / 10)) ++ [48 + z mod 10]
  end.
Definition decimal (z : Z) : bytes := decimal_fuel 20 z.

Definition HEX : bytes := bytes_of_string "0123456789abcdef".
Definition hex_char (nibble : Z) : Z := default 0 (HEX !! Z.to_nat nibble).

Definition writer_id (w : WriterRef) : bytes :=
  match w with
  | Number n => bytes_of_string "number:" ++ decimal n
  | Device id =>
      bytes_of_string "device:" ++
      (id ≫= fun b => [hex_char (Z.shiftr b 4); hex_char (Z.land b 15)])
  end.

#[global] Arguments writer_id : simpl never.

(** [str::split_once]. *)
Fixpoint split_once (sep : Z) (s : bytes) : option (bytes * bytes) :=
  match s with
  | [] => None
  | c :: s' =>
      if decide (c = sep) then Some ([], s')
      else '(a, b) ← split_once sep s'; Some (c :: a, b)
  end.

(** The pairs of hexadecimal digits of a device id. *)
Fixpoint hex_pairs (s : bytes) : option bytes :=
  match s with
  | [] => Some []
  | h :: l :: s' => hi ← hex_digit h; lo ← hex_digit l; rest ← hex_pairs s'; Some ((hi * 16 + lo) :: rest)
  | [_] => None
  end.

Definition writer_from_id (id : bytes) : option WriterRef :=
  '(kind, rest) ← split_once 58 id;
  if decide (kind = bytes_of_string "number") then
    n ← parse_unsigned 10 u64_max rest; Some (Number n)
  else if decide (kind = bytes_of_string "device" /\ length rest = 64%nat) then
    b ← hex_pairs rest; Some (Device b)
  else None.

(** ** Queues and their rows *)

Inductive ClientError :=
  | EProtocol (detail : string)
  | ESession
  | EDatabase
  | ETransport
  | ENotConnected
  | ERefused (reason : FatalErrorReason)
  | EApply
  | EDeviceChip.

(** The client sequence as the storage integer. *)
Definition client_seq_storage (seq : Z) : Result Z ClientError := ok_or (try_into i64_max seq) ESession.

Record PendingEntry := {
  pe_changeset : bytes;
  pe_hash : bytes;
  pe_position : Z;
  pe_provenance : option Provenance;
}.

Record WriterQueue := {
  wq_next : Z;
  wq_head : bytes;
  wq_pending : gmap Z PendingEntry;
}.

(** [WriterQueue::fresh]. *)
Definition fresh_queue : WriterQueue := {| wq_next := 1; wq_head := GENESIS; wq_pending := ∅ |}.

(** A row of [_connetto_pending], under its key [(writer, seq)]. *)
Record PendingRow := {
  pr_changeset : bytes;
  pr_hash : bytes;
  pr_position : Z;
  pr_prov_writer : option bytes;
  pr_prov_seq : option Z;
}.

(** The certificate the replica holds: its key, and whether it is in force. *)
Record Held := { held_key : bytes; held_live : bool }.

Record Tables := {
  t_writers : gmap bytes (Z * bytes);
  t_pending : gmap (bytes * Z) PendingRow;
  t_retire : gset bytes;
  t_retired_keys : gset bytes;
  t_certificate : option Held;
}.

Definition set_writers (m : gmap bytes (Z * bytes)) (t : Tables) : Tables :=
  {| t_writers := m; t_pending := t_pending t; t_retire := t_retire t;
     t_retired_keys := t_retired_keys t; t_certificate := t_certificate t |}.
Definition set_pending (m : gmap (bytes * Z) PendingRow) (t : Tables) : Tables :=
  {| t_writers := t_writers t; t_pending := m; t_retire := t_retire t;
     t_retired_keys := t_retired_keys t; t_certificate := t_certificate t |}.
Definition set_retire (s : gset bytes) (t : Tables) : Tables :=
  {| t_writers := t_writers t; t_pending := t_pending t; t_retire := s;
     t_retired_keys := t_retired_keys t; t_certificate := t_certificate t |}.
Definition set_retired_keys (s : gset bytes) (t : Tables) : Tables :=
  {| t_writers := t_writers t; t_pending := t_pending t; t_retire := t_retire t;
     t_retired_keys := s; t_certificate := t_certificate t |}.
Definition set_certificate (c : option Held) (t : Tables) : Tables :=
  {| t_writers := t_writers t; t_pending := t_pending t; t_retire := t_retire t;
     t_retired_keys := t_retired_keys t; t_certificate := c |}.

(** ** The statements *)

Definition persist_writer_state (w : WriterRef) (next : Z) (head : bytes) (t : Tables) :
    Result Tables ClientError :=
  n <-? client_seq_storage next;;
  Ok (set_writers (<[writer_id w := (n, head)]> (t_writers t)) t).

Definition delete_writer_pending (w : WriterRef) (t : Tables) : Result Tables ClientError :=
  Ok (set_pending (filter (fun kr => kr.1.1 <> writer_id w) (t_pending t)) t).

Definition drop_writer_state (w : WriterRef) (t : Tables) : Result Tables ClientError :=
  delete_writer_pending w (set_writers (delete (writer_id w) (t_writers t)) t).

Definition persist_pending (w : WriterRef) (seq : Z) (changeset hash : bytes)
    (provenance : option Provenance) (position : Z) (t : Tables) : Result Tables ClientError :=
  prov <-? match provenance with
           | Some p => s <-? client_seq_storage (pv_seq p);; Ok (Some (writer_id (pv_writer p)), Some s)
           | None => Ok (None, None)
           end;;
  seq <-? client_seq_storage seq;;
  position <-? client_seq_storage position;;
  Ok (set_pending (<[(writer_id w, seq) :=
        {| pr_changeset := changeset; pr_hash := hash; pr_position := position;
           pr_prov_writer := prov.1; pr_prov_seq := prov.2 |}]> (t_pending t)) t).

Definition delete_pending (w : WriterRef) (seq : Z) (t : Tables) : Result Tables ClientError :=
  seq <-? client_seq_storage seq;;
  Ok (set_pending (delete (writer_id w, seq) (t_pending t)) t).

(** An update of key columns fails when two rows would share a key. *)
Definition rekeyed {K A} `{Countable K} (f : K -> K) (m : gmap K A) : Result (gmap K A) ClientError :=
  let m' := list_to_map ((fun kv => (f kv.1, kv.2)) <$> map_to_list m) in
  if decide (size m' = size m) then Ok m' else Err EDatabase.

Definition rekey_writer (from to : WriterRef) (t : Tables) : Result Tables ClientError :=
  p <-? rekeyed (fun k => (if decide (k.1 = writer_id from) then writer_id to else k.1, k.2))
          (t_pending t);;
  w <-? rekeyed (fun id => if decide (id = writer_id from) then writer_id to else id) (t_writers t);;
  Ok (set_writers w (set_pending p t)).

Definition persist_retire (w : WriterRef) (t : Tables) : Result Tables ClientError :=
  Ok (set_retire ({[writer_id w]} ∪ t_retire t) t).
Definition clear_retire (w : WriterRef) (t : Tables) : Result Tables ClientError :=
  Ok (set_retire (t_retire t ∖ {[writer_id w]}) t).
Definition persist_retired_key (key : bytes) (t : Tables) : Result Tables ClientError :=
  Ok (set_retired_keys ({[key]} ∪ t_retired_keys t) t).

(** ** What a restart loads *)

Definition load_writer_states (t : Tables) : gmap WriterRef (Z * bytes) :=
  list_to_map (omap (fun row : bytes * (Z * bytes) =>
    w ← writer_from_id row.1; n ← try_into u64_max row.2.1;
    if decide (length row.2.2 = 32%nat) then Some (w, (n, row.2.2)) else None)
    (map_to_list (t_writers t))).

Record LoadedEntry := {
  le_seq : Z; le_changeset : bytes; le_hash : bytes; le_position : Z; le_provenance : option Provenance }.

(** [ORDER BY writer, seq]. *)
Definition row_le (a b : (bytes * Z) * PendingRow) : Prop :=
  match bytes_cmp a.1.1 b.1.1 with Lt => True | Eq => a.1.2 <= b.1.2 | Gt => False end.
#[export] Instance row_le_dec a b : Decision (row_le a b).
Proof. unfold row_le. destruct (bytes_cmp _ _); apply _. Defined.

Definition load_provenance (r : PendingRow) : option Provenance :=
  id ← pr_prov_writer r; s ← pr_prov_seq r;
  w ← writer_from_id id; s ← try_into u64_max s;
  Some {| pv_writer := w; pv_seq := s |}.

Definition load_row (row : (bytes * Z) * PendingRow) : option (WriterRef * LoadedEntry) :=
  w ← writer_from_id row.1.1;
  s ← try_into u64_max row.1.2;
  if decide (length (pr_hash row.2) = 32%nat) then
    p ← try_into u64_max (pr_position row.2);
    Some (w, {| le_seq := s; le_changeset := pr_changeset row.2; le_hash := pr_hash row.2;
                le_position := p; le_provenance := load_provenance row.2 |})
  else None.

Definition load_pending (t : Tables) : gmap WriterRef (list LoadedEntry) :=
  foldl (fun queues we => <[we.1 := default [] (queues !! we.1) ++ [we.2]]> queues) ∅
    (omap load_row (merge_sort row_le (map_to_list (t_pending t)))).

Definition load_retires (t : Tables) : list WriterRef :=
  omap writer_from_id (merge_sort (fun a b => bytes_cmp a b <> Gt) (elements (t_retire t))).

Definition load_retired_keys (t : Tables) : gset bytes :=
  filter (fun k => length k = 32%nat) (t_retired_keys t).

(** The largest of a list of numbers. *)
Definition list_max_opt (l : list Z) : option Z :=
  foldr (fun z o => Some (match o with Some y => Z.max z y | None => z end)) None l.
Definition max_key {A} (m : gmap Z A) : option Z := list_max_opt (map_to_list m).*1.

(** The loop over one writer's entries. *)
Definition load_queue (q : WriterQueue) (entries : list LoadedEntry) : WriterQueue :=
  let pending := foldl (fun m e => <[le_seq e := {| pe_changeset := le_changeset e; pe_hash := le_hash e;
      pe_position := le_position e; pe_provenance := le_provenance e |}]> m) (wq_pending q) entries in
  match last entries with
  | None => {| wq_next := wq_next q; wq_head := wq_head q; wq_pending := pending |}
  | Some e =>
      {| wq_next := match max_key pending with
                    | Some max_seq => Z.max (wq_next q) (max_seq + 1)
                    | None => wq_next q
                    end;
         wq_head := le_hash e; wq_pending := pending |}
  end.

Definition positions (queues : gmap WriterRef WriterQueue) : list Z :=
  (map_to_list queues).*2 ≫= fun q => pe_position <$> (map_to_list (wq_pending q)).*2.

Definition load_writer_queues (t : Tables) : gmap WriterRef WriterQueue * Z :=
  let states := (fun s => {| wq_next := s.1; wq_head := s.2; wq_pending := ∅ |}) <$> load_writer_states t in
  let queues := merge (fun q es => match es with
                                   | Some es => Some (load_queue (default fresh_queue q) es)
                                   | None => q
                                   end) states (load_pending t) in
  (queues, match list_max_opt (positions queues) with Some p => p + 1 | None => 1 end).

(** ** Storage identities read back *)

Definition writer_ok (w : WriterRef) : Prop :=
  match w with Device k => length k = 32%nat /\ wf_bytes k | Number n => in_u64 n end.

Lemma digits_app radix max acc l l' :
  digits radix max acc (l ++ l') = v ← digits radix max acc l; digits radix max v l'.
Proof.
  revert acc. induction l as [|c l IH]; intros acc; [done|]. simpl.
  destruct (digit radix c); simpl; [|done]. case_decide; [|done]. apply IH.
Qed.

Lemma decimal_digit z : digit 10 (48 + z mod 10) = Some (z mod 10).
Proof.
  pose proof (Z.mod_pos_bound z 10 ltac:(lia)). unfold digit.
  rewrite decide_True by lia. simpl. replace (48 + z mod 10 - 48) with (z mod 10) by lia.
  by rewrite decide_True by lia.
Qed.

Lemma digits_decimal f z max :
  0 <= z < 10 ^ Z.of_nat f -> z <= max -> digits 10 max 0 (decimal_fuel f z) = Some z.
Proof.
  revert z. induction f as [|f IH]; intros z Hz Hm; [simpl in *; f_equal; lia|].
  cbn [decimal_fuel]. rewrite digits_app. case_decide as Hs.
  - simpl. rewrite decimal_digit. simpl. rewrite Z.mod_small by lia. by rewrite decide_True by lia.
  - pose proof (Z.div_mod z 10 ltac:(lia)). pose proof (Z.mod_pos_bound z 10 ltac:(lia)).
    rewrite IH; [|split; [apply Z.div_pos; lia|]|lia].
    + simpl. rewrite decimal_digit. simpl. rewrite decide_True by lia. f_equal. lia.
    + apply Z.div_lt_upper_bound; [lia|]. rewrite Nat2Z.inj_succ, Z.pow_succ_r in Hz by lia. lia.
Qed.

Lemma decimal_head f z : 0 <= z -> exists c l, decimal_fuel (S f) z = c :: l /\ c <> 43.
Proof.
  revert z. induction f as [|f IH]; intros z Hz; pose proof (Z.mod_pos_bound z 10 ltac:(lia)).
  - cbn [decimal_fuel]. exists (48 + z mod 10), []. case_decide; simpl; split; [done|lia|done|lia].
  - remember (S f) as g. cbn [decimal_fuel]. case_decide; simpl.
    + exists (48 + z mod 10), []. split; [done|lia].
    + subst g. destruct (IH (z / 10)) as (c & l & -> & Hc); [apply Z.div_pos; lia|].
      by exists c, (l ++ [48 + z mod 10]).
Qed.

Lemma parse_decimal z : in_u64 z -> parse_unsigned 10 u64_max (decimal z) = Some z.
Proof.
  unfold in_u64. intros Hz. unfold decimal, parse_unsigned.
  destruct (decimal_head 19 z) as (c & l & E & Hc); [lia|].
  rewrite E. rewrite decide_False by done. rewrite <- E.
  apply digits_decimal; [|lia]. unfold u64_max in *. change (10 ^ Z.of_nat 20) with 100000000000000000000. lia.
Qed.

Lemma hex_nibble n : 0 <= n < 16 -> hex_digit (hex_char n) = Some n.
Proof.
  intros Hn. assert (E : n = Z.of_nat (Z.to_nat n)) by lia. revert E. generalize (Z.to_nat n).
  intros k ->. do 16 (destruct k as [|k]; [done|]). lia.
Qed.

Lemma hex_pairs_bytes k : wf_bytes k ->
  hex_pairs (k ≫= fun b => [hex_char (Z.shiftr b 4); hex_char (Z.land b 15)]) = Some k.
Proof.
  induction 1 as [|b k Hb _ IH]; [done|]. cbn [mbind list_bind app hex_pairs].
  unfold in_u8, u8_max in Hb.
  assert (Hl : Z.land b 15 = b mod 16) by (change 15 with (Z.ones 4); by rewrite Z.land_ones).
  rewrite Z.shiftr_div_pow2, Hl by lia. change (2 ^ 4) with 16.
  pose proof (Z.div_mod b 16 ltac:(lia)). pose proof (Z.mod_pos_bound b 16 ltac:(lia)).
  assert (0 <= b / 16 < 16) by (split; [apply Z.div_pos; lia|apply Z.div_lt_upper_bound; lia]).
  rewrite !hex_nibble by lia. simpl. change (list_bind _ _ ?f k) with (k ≫= f). rewrite IH. simpl. do 2 f_equal. lia.
Qed.

Lemma hex_length k :
  length (k ≫= fun b => [hex_char (Z.shiftr b 4); hex_char (Z.land b 15)]) = (2 * length k)%nat.
Proof. induction k as [|b k IH]; [done|]. cbn [mbind list_bind app length]. change (list_bind _ _ ?f k) with (k ≫= f). rewrite IH. lia. Qed.

(** A storage identity names its writer: the rows of different writers are
    different rows, and a restart finds each again. *)
Lemma writer_from_to w : writer_ok w -> writer_from_id (writer_id w) = Some w.
Proof.
  destruct w as [k|n]; simpl writer_ok; intros Hw.
  - destruct Hw as [Hl Hw]. unfold writer_from_id, writer_id. simpl split_once. cbn [mbind option_bind].
    rewrite decide_False by done. rewrite decide_True by (split; [done|rewrite hex_length; lia]).
    by rewrite hex_pairs_bytes.
  - unfold writer_from_id, writer_id. simpl split_once. cbn [mbind option_bind].
    rewrite decide_True by done. by rewrite parse_decimal.
Qed.

Lemma writer_id_inj w w' : writer_ok w -> writer_ok w' -> writer_id w = writer_id w' -> w = w'.
Proof. intros H1 H2 E. apply writer_from_to in H1, H2. rewrite E in H1. congruence. Qed.
