(* ===== verification/ClientState.v ===== *)
(** The state of a client connection that the write protocol touches
    ([ConnettoConnection] of [connetto-client/src/lib.rs]), and the monad its
    methods run in.

    A method threads the connection and may end in an error, which keeps whatever
    was changed before it ([?] after a mutation of [self]). Whether each database
    access and each send succeeds is read from [faults], so a statement about all
    connections is one about every pattern of failures. *)

From Stdlib Require Import ZArith Lia.
From stdpp Require Import base numbers option list gmap strings pretty.
From S2P Require Import Prelude Wire Chain Backoff Pending.

Open Scope Z_scope.

(** What the client uses of the SQLite session extension, the diffset format and
    zstd: the logical rendering of a captured changeset, its upload bytes and op
    count, the rows it touches, its inverse, and applying one to the replica, as a
    rollback does and as a reapply does; and a device key's signature. *)
Class Changes := {
  Replica : Type;
  logical : bytes -> option bytes;
  compress : bytes -> option bytes;
  count_ops : bytes -> Z;
  affected_rows : bytes -> option nat;
  invert_changeset : bytes -> option bytes;
  apply_omit : bytes -> Replica -> option Replica;
  apply_server_wins : bytes -> Replica -> option Replica;
  sign : bytes -> bytes -> option bytes;
}.

Inductive WriterTaskKind :=
  | Bind (key_id signature : bytes)
  | Retire (writer : WriterRef).

Record WriterTask := { wt_kind : WriterTaskKind; wt_request_id : string; wt_deadline : Z }.

Definition WRITER_ANSWER_WAIT : Z := 30 * NANOS_PER_SEC.

Record ResendTimer := { rt_armed : Z; rt_wait : Z }.
#[export] Instance ResendTimer_eq_dec : EqDecision ResendTimer.
Proof. solve_decision. Defined.

Inductive Resend :=
  | RsIdle
  | RsWaiting (episode : Backoff) (timer : ResendTimer)
  | RsResent (episode : Backoff).

Definition RESEND_POLICY : RetryPolicy := default_policy.

(** What the connection sends on the write path. *)
Inductive ClientFrame :=
  | CHeader (h : MutationHeader)
  | CPatch (p : MutationPatch)
  | CBind (b : BindDevice)
  | CRetire (r : RetireWriter).

(** A mutation handed to a live connection, as the server will read it. *)
Record Upload := {
  up_writer : WriterRef;
  up_seq : Z;
  up_provenance : option Provenance;
  up_changeset : bytes;
}.

Inductive ClientEvent :=
  | EvNonFatal (related_to : option string)
  | EvMutationApplied (client_seq : Z)
  | EvMutationDeferred (client_seq : Z)
  | EvMutationRejected (client_seq : Z) (reason : MutationRejectReason) (rows : nat)
  | EvMutationConflict (client_seq : Z) (rows : nat) (server_row : option ConflictRow)
  | EvRateLimited (related_to : option Z) (retry_after_ms : Z)
  | EvServerClosed (reason : FatalErrorReason).

Section State.
Context {CH : Changes}.

(** [captured] is the capture session's changeset; [wire] the challenge of the
    live connection; [writer_keys] the device's keys once handed over, and the key
    they open; [attach_replay] the frontier a replay under way starts from;
    [commands] how often the enrolment task was told to enrol afresh. The last
    four are ghosts no method reads: the frames and the mutations handed to a
    connection the server has not ended, the numbers the server issued, and
    whether the server still listens. *)
Record Client := {
  db : Tables;
  replica : Replica;
  captured : bytes;
  writers : gmap WriterRef WriterQueue;
  next_position : Z;
  bound_writer : option WriterRef;
  wire : option (option bytes);
  writer_tasks : list WriterTask;
  writer_in_flight : option WriterTask;
  pending_bind : option WriterTask;
  writer_keys : option (option bytes);
  retired_keys : gset bytes;
  resend : Resend;
  resends_armed : Z;
  attach_replay : option (option Z);
  commands : nat;
  next_request : Z;
  seeds : Z;
  monotonic_now : Z;
  faults : list bool;
  sent : list ClientFrame;
  uploads : list Upload;
  issued : gset Z;
  peer_open : bool;
}.

Definition with_db (v : Tables) (c : Client) : Client :=
  {| db := v; replica := replica c; captured := captured c; writers := writers c;
     next_position := next_position c; bound_writer := bound_writer c; wire := wire c;
     writer_tasks := writer_tasks c; writer_in_flight := writer_in_flight c;
     pending_bind := pending_bind c; writer_keys := writer_keys c; retired_keys := retired_keys c;
     resend := resend c; resends_armed := resends_armed c; attach_replay := attach_replay c;
     commands := commands c; next_request := next_request c; seeds := seeds c;
     monotonic_now := monotonic_now c; faults := faults c; sent := sent c; uploads := uploads c;
     issued := issued c; peer_open := peer_open c |}.
Definition with_replica (v : Replica) (c : Client) : Client :=
  {| db := db c; replica := v; captured := captured c; writers := writers c;
     next_position := next_position c; bound_writer := bound_writer c; wire := wire c;
     writer_tasks := writer_tasks c; writer_in_flight := writer_in_flight c;
     pending_bind := pending_bind c; writer_keys := writer_keys c; retired_keys := retired_keys c;
     resend := resend c; resends_armed := resends_armed c; attach_replay := attach_replay c;
     commands := commands c; next_request := next_request c; seeds := seeds c;
     monotonic_now := monotonic_now c; faults := faults c; sent := sent c; uploads := uploads c;
     issued := issued c; peer_open := peer_open c |}.
Definition with_captured (v : bytes) (c : Client) : Client :=
  {| db := db c; replica := replica c; captured := v; writers := writers c;
     next_position := next_position c; bound_writer := bound_writer c; wire := wire c;
     writer_tasks := writer_tasks c; writer_in_flight := writer_in_flight c;
     pending_bind := pending_bind c; writer_keys := writer_keys c; retired_keys := retired_keys c;
     resend := resend c; resends_armed := resends_armed c; attach_replay := attach_replay c;
     commands := commands c; next_request := next_request c; seeds := seeds c;
     monotonic_now := monotonic_now c; faults := faults c; sent := sent c; uploads := uploads c;
     issued := issued c; peer_open := peer_open c |}.
Definition with_writers (v : gmap WriterRef WriterQueue) (c : Client) : Client :=
  {| db := db c; replica := replica c; captured := captured c; writers := v;
     next_position := next_position c; bound_writer := bound_writer c; wire := wire c;
     writer_tasks := writer_tasks c; writer_in_flight := writer_in_flight c;
     pending_bind := pending_bind c; writer_keys := writer_keys c; retired_keys := retired_keys c;
     resend := resend c; resends_armed := resends_armed c; attach_replay := attach_replay c;
     commands := commands c; next_request := next_request c; seeds := seeds c;
     monotonic_now := monotonic_now c; faults := faults c; sent := sent c; uploads := uploads c;
     issued := issued c; peer_open := peer_open c |}.
Definition with_next_position (v : Z) (c : Client) : Client :=
  {| db := db c; replica := replica c; captured := captured c; writers := writers c; next_position := v;
     bound_writer := bound_writer c; wire := wire c; writer_tasks := writer_tasks c;
     writer_in_flight := writer_in_flight c; pending_bind := pending_bind c; writer_keys := writer_keys c;
     retired_keys := retired_keys c; resend := resend c; resends_armed := resends_armed c;
     attach_replay := attach_replay c; commands := commands c; next_request := next_request c;
     seeds := seeds c; monotonic_now := monotonic_now c; faults := faults c; sent := sent c;
     uploads := uploads c; issued := issued c; peer_open := peer_open c |}.
Definition with_bound_writer (v : option WriterRef) (c : Client) : Client :=
  {| db := db c; replica := replica c; captured := captured c; writers := writers c;
     next_position := next_position c; bound_writer := v; wire := wire c; writer_tasks := writer_tasks c;
     writer_in_flight := writer_in_flight c; pending_bind := pending_bind c; writer_keys := writer_keys c;
     retired_keys := retired_keys c; resend := resend c; resends_armed := resends_armed c;
     attach_replay := attach_replay c; commands := commands c; next_request := next_request c;
     seeds := seeds c; monotonic_now := monotonic_now c; faults := faults c; sent := sent c;
     uploads := uploads c; issued := issued c; peer_open := peer_open c |}.
Definition with_wire (v : option (option bytes)) (c : Client) : Client :=
  {| db := db c; replica := replica c; captured := captured c; writers := writers c;
     next_position := next_position c; bound_writer := bound_writer c; wire := v;
     writer_tasks := writer_tasks c; writer_in_flight := writer_in_flight c;
     pending_bind := pending_bind c; writer_keys := writer_keys c; retired_keys := retired_keys c;
     resend := resend c; resends_armed := resends_armed c; attach_replay := attach_replay c;
     commands := commands c; next_request := next_request c; seeds := seeds c;
     monotonic_now := monotonic_now c; faults := faults c; sent := sent c; uploads := uploads c;
     issued := issued c; peer_open := peer_open c |}.
Definition with_writer_tasks (v : list WriterTask) (c : Client) : Client :=
  {| db := db c; replica := replica c; captured := captured c; writers := writers c;
     next_position := next_position c; bound_writer := bound_writer c; wire := wire c; writer_tasks := v;
     writer_in_flight := writer_in_flight c; pending_bind := pending_bind c; writer_keys := writer_keys c;
     retired_keys := retired_keys c; resend := resend c; resends_armed := resends_armed c;
     attach_replay := attach_replay c; commands := commands c; next_request := next_request c;
     seeds := seeds c; monotonic_now := monotonic_now c; faults := faults c; sent := sent c;
     uploads := uploads c; issued := issued c; peer_open := peer_open c |}.
Definition with_writer_in_flight (v : option WriterTask) (c : Client) : Client :=
  {| db := db c; replica := replica c; captured := captured c; writers := writers c;
     next_position := next_position c; bound_writer := bound_writer c; wire := wire c;
     writer_tasks := writer_tasks c; writer_in_flight := v; pending_bind := pending_bind c;
     writer_keys := writer_keys c; retired_keys := retired_keys c; resend := resend c;
     resends_armed := resends_armed c; attach_replay := attach_replay c; commands := commands c;
     next_request := next_request c; seeds := seeds c; monotonic_now := monotonic_now c;
     faults := faults c; sent := sent c; uploads := uploads c; issued := issued c;
     peer_open := peer_open c |}.
Definition with_pending_bind (v : option WriterTask) (c : Client) : Client :=
  {| db := db c; replica := replica c; captured := captured c; writers := writers c;
     next_position := next_position c; bound_writer := bound_writer c; wire := wire c;
     writer_tasks := writer_tasks c; writer_in_flight := writer_in_flight c; pending_bind := v;
     writer_keys := writer_keys c; retired_keys := retired_keys c; resend := resend c;
     resends_armed := resends_armed c; attach_replay := attach_replay c; commands := commands c;
     next_request := next_request c; seeds := seeds c; monotonic_now := monotonic_now c;
     faults := faults c; sent := sent c; uploads := uploads c; issued := issued c;
     peer_open := peer_open c |}.
Definition with_writer_keys (v : option (option bytes)) (c : Client) : Client :=
  {| db := db c; replica := replica c; captured := captured c; writers := writers c;
     next_position := next_position c; bound_writer := bound_writer c; wire := wire c;
     writer_tasks := writer_tasks c; writer_in_flight := writer_in_flight c;
     pending_bind := pending_bind c; writer_keys := v; retired_keys := retired_keys c; resend := resend c;
     resends_armed := resends_armed c; attach_replay := attach_replay c; commands := commands c;
     next_request := next_request c; seeds := seeds c; monotonic_now := monotonic_now c;
     faults := faults c; sent := sent c; uploads := uploads c; issued := issued c;
     peer_open := peer_open c |}.
Definition with_retired_keys (v : gset bytes) (c : Client) : Client :=
  {| db := db c; replica := replica c; captured := captured c; writers := writers c;
     next_position := next_position c; bound_writer := bound_writer c; wire := wire c;
     writer_tasks := writer_tasks c; writer_in_flight := writer_in_flight c;
     pending_bind := pending_bind c; writer_keys := writer_keys c; retired_keys := v; resend := resend c;
     resends_armed := resends_armed c; attach_replay := attach_replay c; commands := commands c;
     next_request := next_request c; seeds := seeds c; monotonic_now := monotonic_now c;
     faults := faults c; sent := sent c; uploads := uploads c; issued := issued c;
     peer_open := peer_open c |}.
Definition with_resend (v : Resend) (c : Client) : Client :=
  {| db := db c; replica := replica c; captured := captured c; writers := writers c;
     next_position := next_position c; bound_writer := bound_writer c; wire := wire c;
     writer_tasks := writer_tasks c; writer_in_flight := writer_in_flight c;
     pending_bind := pending_bind c; writer_keys := writer_keys c; retired_keys := retired_keys c;
     resend := v; resends_armed := resends_armed c; attach_replay := attach_replay c;
     commands := commands c; next_request := next_request c; seeds := seeds c;
     monotonic_now := monotonic_now c; faults := faults c; sent := sent c; uploads := uploads c;
     issued := issued c; peer_open := peer_open c |}.
Definition with_resends_armed (v : Z) (c : Client) : Client :=
  {| db := db c; replica := replica c; captured := captured c; writers := writers c;
     next_position := next_position c; bound_writer := bound_writer c; wire := wire c;
     writer_tasks := writer_tasks c; writer_in_flight := writer_in_flight c;
     pending_bind := pending_bind c; writer_keys := writer_keys c; retired_keys := retired_keys c;
     resend := resend c; resends_armed := v; attach_replay := attach_replay c; commands := commands c;
     next_request := next_request c; seeds := seeds c; monotonic_now := monotonic_now c;
     faults := faults c; sent := sent c; uploads := uploads c; issued := issued c;
     peer_open := peer_open c |}.
Definition with_attach_replay (v : option (option Z)) (c : Client) : Client :=
  {| db := db c; replica := replica c; captured := captured c; writers := writers c;
     next_position := next_position c; bound_writer := bound_writer c; wire := wire c;
     writer_tasks := writer_tasks c; writer_in_flight := writer_in_flight c;
     pending_bind := pending_bind c; writer_keys := writer_keys c; retired_keys := retired_keys c;
     resend := resend c; resends_armed := resends_armed c; attach_replay := v; commands := commands c;
     next_request := next_request c; seeds := seeds c; monotonic_now := monotonic_now c;
     faults := faults c; sent := sent c; uploads := uploads c; issued := issued c;
     peer_open := peer_open c |}.
Definition with_commands (v : nat) (c : Client) : Client :=
  {| db := db c; replica := replica c; captured := captured c; writers := writers c;
     next_position := next_position c; bound_writer := bound_writer c; wire := wire c;
     writer_tasks := writer_tasks c; writer_in_flight := writer_in_flight c;
     pending_bind := pending_bind c; writer_keys := writer_keys c; retired_keys := retired_keys c;
     resend := resend c; resends_armed := resends_armed c; attach_replay := attach_replay c; commands := v;
     next_request := next_request c; seeds := seeds c; monotonic_now := monotonic_now c;
     faults := faults c; sent := sent c; uploads := uploads c; issued := issued c;
     peer_open := peer_open c |}.
Definition with_next_request (v : Z) (c : Client) : Client :=
  {| db := db c; replica := replica c; captured := captured c; writers := writers c;
     next_position := next_position c; bound_writer := bound_writer c; wire := wire c;
     writer_tasks := writer_tasks c; writer_in_flight := writer_in_flight c;
     pending_bind := pending_bind c; writer_keys := writer_keys c; retired_keys := retired_keys c;
     resend := resend c; resends_armed := resends_armed c; attach_replay := attach_replay c;
     commands := commands c; next_request := v; seeds := seeds c; monotonic_now := monotonic_now c;
     faults := faults c; sent := sent c; uploads := uploads c; issued := issued c;
     peer_open := peer_open c |}.
Definition with_seeds (v : Z) (c : Client) : Client :=
  {| db := db c; replica := replica c; captured := captured c; writers := writers c;
     next_position := next_position c; bound_writer := bound_writer c; wire := wire c;
     writer_tasks := writer_tasks c; writer_in_flight := writer_in_flight c;
     pending_bind := pending_bind c; writer_keys := writer_keys c; retired_keys := retired_keys c;
     resend := resend c; resends_armed := resends_armed c; attach_replay := attach_replay c;
     commands := commands c; next_request := next_request c; seeds := v; monotonic_now := monotonic_now c;
     faults := faults c; sent := sent c; uploads := uploads c; issued := issued c;
     peer_open := peer_open c |}.
Definition with_monotonic_now (v : Z) (c : Client) : Client :=
  {| db := db c; replica := replica c; captured := captured c; writers := writers c;
     next_position := next_position c; bound_writer := bound_writer c; wire := wire c;
     writer_tasks := writer_tasks c; writer_in_flight := writer_in_flight c;
     pending_bind := pending_bind c; writer_keys := writer_keys c; retired_keys := retired_keys c;
     resend := resend c; resends_armed := resends_armed c; attach_replay := attach_replay c;
     commands := commands c; next_request := next_request c; seeds := seeds c; monotonic_now := v;
     faults := faults c; sent := sent c; uploads := uploads c; issued := issued c;
     peer_open := peer_open c |}.
Definition with_faults (v : list bool) (c : Client) : Client :=
  {| db := db c; replica := replica c; captured := captured c; writers := writers c;
     next_position := next_position c; bound_writer := bound_writer c; wire := wire c;
     writer_tasks := writer_tasks c; writer_in_flight := writer_in_flight c;
     pending_bind := pending_bind c; writer_keys := writer_keys c; retired_keys := retired_keys c;
     resend := resend c; resends_armed := resends_armed c; attach_replay := attach_replay c;
     commands := commands c; next_request := next_request c; seeds := seeds c;
     monotonic_now := monotonic_now c; faults := v; sent := sent c; uploads := uploads c;
     issued := issued c; peer_open := peer_open c |}.
Definition with_sent (v : list ClientFrame) (c : Client) : Client :=
  {| db := db c; replica := replica c; captured := captured c; writers := writers c;
     next_position := next_position c; bound_writer := bound_writer c; wire := wire c;
     writer_tasks := writer_tasks c; writer_in_flight := writer_in_flight c;
     pending_bind := pending_bind c; writer_keys := writer_keys c; retired_keys := retired_keys c;
     resend := resend c; resends_armed := resends_armed c; attach_replay := attach_replay c;
     commands := commands c; next_request := next_request c; seeds := seeds c;
     monotonic_now := monotonic_now c; faults := faults c; sent := v; uploads := uploads c;
     issued := issued c; peer_open := peer_open c |}.
Definition with_uploads (v : list Upload) (c : Client) : Client :=
  {| db := db c; replica := replica c; captured := captured c; writers := writers c;
     next_position := next_position c; bound_writer := bound_writer c; wire := wire c;
     writer_tasks := writer_tasks c; writer_in_flight := writer_in_flight c;
     pending_bind := pending_bind c; writer_keys := writer_keys c; retired_keys := retired_keys c;
     resend := resend c; resends_armed := resends_armed c; attach_replay := attach_replay c;
     commands := commands c; next_request := next_request c; seeds := seeds c;
     monotonic_now := monotonic_now c; faults := faults c; sent := sent c; uploads := v;
     issued := issued c; peer_open := peer_open c |}.
Definition with_issued (v : gset Z) (c : Client) : Client :=
  {| db := db c; replica := replica c; captured := captured c; writers := writers c;
     next_position := next_position c; bound_writer := bound_writer c; wire := wire c;
     writer_tasks := writer_tasks c; writer_in_flight := writer_in_flight c;
     pending_bind := pending_bind c; writer_keys := writer_keys c; retired_keys := retired_keys c;
     resend := resend c; resends_armed := resends_armed c; attach_replay := attach_replay c;
     commands := commands c; next_request := next_request c; seeds := seeds c;
     monotonic_now := monotonic_now c; faults := faults c; sent := sent c; uploads := uploads c;
     issued := v; peer_open := peer_open c |}.
Definition with_peer_open (v : bool) (c : Client) : Client :=
  {| db := db c; replica := replica c; captured := captured c; writers := writers c;
     next_position := next_position c; bound_writer := bound_writer c; wire := wire c;
     writer_tasks := writer_tasks c; writer_in_flight := writer_in_flight c;
     pending_bind := pending_bind c; writer_keys := writer_keys c; retired_keys := retired_keys c;
     resend := resend c; resends_armed := resends_armed c; attach_replay := attach_replay c;
     commands := commands c; next_request := next_request c; seeds := seeds c;
     monotonic_now := monotonic_now c; faults := faults c; sent := sent c; uploads := uploads c;
     issued := issued c; peer_open := v |}.

(** ** The monad *)

Definition CM (A : Type) : Type := Client -> Result A ClientError * Client.

Definition ret {A} (a : A) : CM A := fun c => (Ok a, c).
Definition throw {A} (e : ClientError) : CM A := fun c => (Err e, c).
Definition bind {A B} (m : CM A) (k : A -> CM B) : CM B :=
  fun c => match m c with (Ok a, c') => k a c' | (Err e, c') => (Err e, c') end.
Definition get : CM Client := fun c => (Ok c, c).
Definition modify (f : Client -> Client) : CM unit := fun c => (Ok tt, f c).
(** [if let Ok(..) = m]: the error is looked at, not returned. *)
Definition attempt {A} (m : CM A) : CM (Result A ClientError) := fun c => let '(r, c') := m c in (Ok r, c').
Definition lift {A} (r : Result A ClientError) : CM A := fun c => (r, c).
End State.

Notation "x <~ m ;; k" := (bind m (fun x => k))
  (at level 100, m at next level, right associativity) : connetto_scope.
Notation "m ~> k" := (bind m (fun _ => k)) (at level 100, right associativity) : connetto_scope.

Section Effects.
Context {CH : Changes}.

Definition fault : CM bool := fun c =>
  match faults c with [] => (Ok false, c) | b :: l => (Ok b, with_faults l c) end.

(** One statement, or the statements of one transaction: all or none. *)
Definition statement (f : Tables -> Result Tables ClientError) : CM unit :=
  failed <~ fault;;
  if failed then throw EDatabase
  else c <~ get;; t <~ lift (f (db c));; modify (with_db t).

Definition query {A} (f : Tables -> A) : CM A :=
  failed <~ fault;; if failed then throw EDatabase else c <~ get;; ret (f (db c)).

(** [self.wire()?.transport.send_..]. *)
Definition send (frame : ClientFrame) : CM unit :=
  c <~ get;;
  match wire c with
  | None => throw ENotConnected
  | Some _ => failed <~ fault;;
              if failed then throw ETransport else modify (fun c => with_sent (sent c ++ [frame]) c)
  end.

Fixpoint for_each {A} (f : A -> CM unit) (l : list A) : CM unit :=
  match l with [] => ret tt | a :: l' => f a ~> for_each f l' end.

Definition is_connected (c : Client) : bool := match wire c with Some _ => true | None => false end.
End Effects.
