(* ===== verification/ClientWriter.v ===== *)
(** The client's half of the write protocol: the methods of [ConnettoConnection]
    ([connetto-client/src/lib.rs], [enrolment/mod.rs]) that queue local writes
    under a writer, send them, settle them on the server's answers, and move a
    queue from one writer to another. *)

From Stdlib Require Import ZArith Lia.
From stdpp Require Import base numbers option list sorting gmap strings pretty.
From S2P Require Import Prelude Wire Chain Backoff Cursor Pending ClientState.

Open Scope Z_scope.

Section Client.
Context {SHA : Sha256} {CH : Changes}.

(** ** Choosing a writer *)

(** The smallest issued number among the queues. *)
Definition number_identity (ws : gmap WriterRef WriterQueue) : option Z :=
  (fun z => - z) <$> list_max_opt (omap (fun w =>
    match w with
    | Number n => if decide (n <> UNISSUED_NUMBER) then Some (- n) else None
    | Device _ => None
    end) (map_to_list ws).*1).

Definition holds_pending (w : WriterRef) (ws : gmap WriterRef WriterQueue) : bool :=
  match ws !! w with Some q => bool_decide (wq_pending q <> ∅) | None => false end.

Definition device_certificate : CM (option Held) := query t_certificate.

Definition is_device (w : WriterRef) : bool := match w with Device _ => true | Number _ => false end.

(** Every device writer this replica still holds, in id order. *)
Definition device_writers (ws : gmap WriterRef WriterQueue) : list WriterRef :=
  merge_sort (fun a b => WriterRef_cmp a b <> Gt) (filter (fun w => is_device w = true) (map_to_list ws).*1).

Definition choose_writer : CM WriterRef :=
  found <~ attempt device_certificate;;
  c <~ get;;
  match found with
  | Ok (Some h) =>
      if decide (held_key h ∈ retired_keys c)
      then ret (match number_identity (writers c) with Some n => Number n | None => unissued end)
      else ret (Device (held_key h))
  | _ => ret (match number_identity (writers c) with Some n => Number n | None => unissued end)
  end.

Definition settled_through (w : WriterRef) (ws : gmap WriterRef WriterQueue) : Z :=
  match ws !! w with
  | Some q =>
      match (fun z => - z) <$> list_max_opt ((fun kv => - kv.1) <$> map_to_list (wq_pending q)) with
      | Some seq => sat_sub seq 1
      | None => sat_sub (wq_next q) 1
      end
  | None => 0
  end.

Definition device_bindable : CM bool :=
  c <~ get;;
  if negb (bool_decide (device_writers (writers c) <> [])) then ret false
  else found <~ device_certificate;;
       match found with
       | None => ret false
       | Some h => ret (bool_decide (held_key h ∉ retired_keys c) && held_live h)
       end.

(** The writer to present at the next handshake, and how much of it is settled. *)
Definition writer_handshake : CM (WriterRequest * option Z) :=
  c <~ get;;
  let number := number_identity (writers c) in
  match number with
  | Some n =>
      if holds_pending (Number n) (writers c)
      then ret (ReqNumber n, Some (settled_through (Number n) (writers c)))
      else if holds_pending unissued (writers c) then ret (ReqIssue, None)
      else bindable <~ device_bindable;;
           if bindable then ret (ReqDevice, None)
           else ret (ReqNumber n, Some (settled_through (Number n) (writers c)))
  | None =>
      if holds_pending unissued (writers c) then ret (ReqIssue, None)
      else bindable <~ device_bindable;;
           if bindable then ret (ReqDevice, None) else ret (ReqIssue, None)
  end.

(** ** Sending *)

Definition record_upload (w : WriterRef) (seq : Z) (provenance : option Provenance) (changeset : bytes) :
    CM unit :=
  modify (fun c => if peer_open c then
    with_uploads (uploads c ++ [{| up_writer := w; up_seq := seq; up_provenance := provenance;
                                   up_changeset := changeset |}]) c else c).

Definition send_mutation (w : WriterRef) (seq : Z) (changeset : bytes) (provenance : option Provenance) :
    CM unit :=
  c <~ get;;
  if decide (bound_writer c <> Some w) then
    throw (EProtocol "a mutation left for a writer the connection is not bound to")
  else
    upload <~ lift (ok_or (logical changeset) EApply);;
    payload <~ lift (ok_or (compress upload) ESession);;
    (record_upload w seq provenance changeset ~>
     (send (CHeader {| mh_client_seq := seq; mh_op_count := count_ops upload;
                       mh_provenance := provenance |}) ~>
      send (CPatch {| mp_client_seq := seq; mp_patchset_zstd := payload |}))).

(** The queued entries in sequence order. *)
Definition key_le {A} (a b : Z * A) : Prop := a.1 <= b.1.
#[export] Instance key_le_dec {A} : RelDecision (@key_le A).
Proof. intros a b. unfold key_le. apply _. Defined.
Definition in_order {A} (m : gmap Z A) : list (Z * A) := merge_sort key_le (map_to_list m).

Definition replay_pending : CM unit :=
  c <~ get;;
  if negb (is_connected c) then ret tt
  else match bound_writer c with
       | None => ret tt
       | Some w =>
           match writers c !! w with
           | None => ret tt
           | Some q => for_each (fun se => send_mutation w se.1 (pe_changeset se.2) (pe_provenance se.2))
                         (in_order (wq_pending q))
           end
       end.

(** ** Queueing a write *)

Definition put_queue (w : WriterRef) (q : WriterQueue) : CM unit :=
  modify (fun c => with_writers (<[w := q]> (writers c)) c).

Definition append_entry (w : WriterRef) (changeset : bytes) (provenance : option Provenance) : CM Z :=
  c <~ get;;
  let position := next_position c in
  let queue := default fresh_queue (writers c !! w) in
  let seq := wq_next queue in
  upload <~ lift (ok_or (logical changeset) EApply);;
  let hash := entry_hash (wq_head queue) seq upload in
  let entry := {| pe_changeset := changeset; pe_hash := hash; pe_position := position;
                  pe_provenance := provenance |} in
  (statement (fun t =>
     t <-? persist_writer_state w (seq + 1) hash t;;
     persist_pending w seq changeset hash provenance position t) ~>
   (put_queue w {| wq_next := seq + 1; wq_head := hash;
                   wq_pending := <[seq := entry]> (wq_pending queue) |} ~>
    (modify (with_next_position (position + 1)) ~> ret seq))).

(** [push]. The captured changes are queued before the capture is reset, and the
    reset may fail; then the changes stay captured. *)
Definition push : CM (option Z) :=
  c <~ get;;
  let changeset := captured c in
  match changeset with
  | [] => ret None
  | _ =>
      w <~ choose_writer;;
      seq <~ append_entry w changeset None;;
      failed <~ fault;;
      if failed then throw ESession
      else
        (modify (with_captured []) ~>
         (c <~ get;;
          if is_connected c && bool_decide (bound_writer c = Some w) then
            send_mutation w seq changeset None ~> ret (Some seq)
          else ret (Some seq)))
  end.

(** ** Moving a queue to another writer *)

Record CarriedEntry := {
  ce_source : WriterRef; ce_original : Z; ce_entry : PendingEntry; ce_seq : Z; ce_hash : bytes }.

(** The tails of the dead writers in append order. *)
Definition position_le (a b : WriterRef * Z * PendingEntry) : Prop :=
  pe_position a.2 <= pe_position b.2.
#[export] Instance position_le_dec : RelDecision position_le.
Proof. intros a b. unfold position_le. apply _. Defined.
Definition carry_plan (dead : list WriterRef) (ws : gmap WriterRef WriterQueue) :
    list (WriterRef * Z * PendingEntry) :=
  merge_sort position_le
    (dead ≫= fun w => match ws !! w with
                      | Some q => (fun se => (w, se.1, se.2)) <$> in_order (wq_pending q)
                      | None => []
                      end).

(** Their places in the target's queue, with the frontier they leave. *)
Fixpoint carry_place (next : Z) (head : bytes) (plan : list (WriterRef * Z * PendingEntry)) :
    Result (list CarriedEntry * Z * bytes) ClientError :=
  match plan with
  | [] => Ok ([], next, head)
  | (source, original, entry) :: plan' =>
      upload <-? ok_or (logical (pe_changeset entry)) EApply;;
      let hash := entry_hash head next upload in
      rest <-? carry_place (next + 1) hash plan';;
      Ok ({| ce_source := source; ce_original := original; ce_entry := entry; ce_seq := next;
             ce_hash := hash |} :: rest.1.1, rest.1.2, rest.2)
  end.

Definition carried_provenance (e : CarriedEntry) : option Provenance :=
  match pe_provenance (ce_entry e) with
  | Some p => Some p
  | None => if is_real_writer (ce_source e)
            then Some {| pv_writer := ce_source e; pv_seq := ce_original e |} else None
  end.

Fixpoint try_fold {A S E} (f : A -> S -> Result S E) (l : list A) (s : S) : Result S E :=
  match l with [] => Ok s | a :: l' => s <-? f a s;; try_fold f l' s end.

Definition carry_tables (target : WriterRef) (plan : list CarriedEntry) (next : Z) (head : bytes)
    (dead : list WriterRef) (t : Tables) : Result Tables ClientError :=
  t <-? try_fold (fun e t => persist_pending target (ce_seq e) (pe_changeset (ce_entry e)) (ce_hash e)
          (carried_provenance e) (pe_position (ce_entry e)) t) plan t;;
  t <-? (match plan with [] => Ok t | _ => persist_writer_state target next head t end);;
  try_fold (fun w t =>
    t <-? (match w with Device key => persist_retired_key key t | Number _ => Ok t end);;
    drop_writer_state w t) dead t.

Definition carried_queue (q : WriterQueue) (plan : list CarriedEntry) (next : Z) (head : bytes) : WriterQueue :=
  {| wq_next := next; wq_head := head;
     wq_pending := foldl (fun m e => <[ce_seq e :=
       {| pe_changeset := pe_changeset (ce_entry e); pe_hash := ce_hash e;
          pe_position := pe_position (ce_entry e); pe_provenance := carried_provenance e |}]> m)
       (wq_pending q) plan |}.

Definition device_keys_of (l : list WriterRef) : list bytes :=
  omap (fun w => match w with Device k => Some k | Number _ => None end) l.

Definition carry_writers (dead : list WriterRef) (target : WriterRef) : CM unit :=
  c <~ get;;
  let queue := default fresh_queue (writers c !! target) in
  placed <~ lift (carry_place (wq_next queue) (wq_head queue) (carry_plan dead (writers c)));;
  let plan := placed.1.1 in let next := placed.1.2 in let head := placed.2 in
  (statement (carry_tables target plan next head dead) ~>
   modify (fun c =>
     let ws := match plan with
               | [] => writers c
               | _ => <[target := carried_queue queue plan next head]> (writers c)
               end in
     with_retired_keys (list_to_set (device_keys_of dead) ∪ retired_keys c)
       (with_writers (foldl (fun ws w => delete w ws) ws dead) c))).

Definition tail_target (dead : WriterRef) (ws : gmap WriterRef WriterQueue) : WriterRef :=
  match number_identity ws with
  | Some n => if decide (Number n <> dead) then Number n else unissued
  | None => unissued
  end.

Definition carry_to_live (dead : WriterRef) : CM unit :=
  c <~ get;;
  attempt (carry_writers [dead] (tail_target dead (writers c))) ~> ret tt.

(** Durably excludes the held device keys and carries their tails. *)
Definition exclude_device_writers : CM unit :=
  c <~ get;;
  devices <~ match device_writers (writers c) with
             | [] => found <~ device_certificate;;
                     ret (match found with Some h => [Device (held_key h)] | None => [] end)
             | l => ret l
             end;;
  let target := match number_identity (writers c) with Some n => Number n | None => unissued end in
  (carry_writers devices target ~>
   modify (fun c =>
     let keeps task := match wt_kind task with
                       | Bind key _ => bool_decide (key ∉ retired_keys c)
                       | Retire _ => true
                       end in
     let c := with_writer_tasks (filter (fun task => keeps task = true) (writer_tasks c))
                (with_pending_bind None c) in
     match bound_writer c with
     | Some (Device _) => with_bound_writer (Some target) c
     | _ => c
     end)).

Definition retire_device : CM ClientEvent :=
  exclude_device_writers ~>
  (modify (fun c => match writer_keys c with Some _ => with_commands (S (commands c)) c | None => c end) ~>
   ret (EvNonFatal None)).

(** ** Binds and retirements *)

Definition writer_request_id : CM string :=
  c <~ get;;
  (modify (with_next_request (next_request c + 1)) ~>
   ret ("writer-" +:+ pretty (next_request c))%string).

Definition new_task (kind : WriterTaskKind) : CM WriterTask :=
  id <~ writer_request_id;;
  c <~ get;;
  ret {| wt_kind := kind; wt_request_id := id; wt_deadline := monotonic_now c + WRITER_ANSWER_WAIT |}.

Definition push_task (task : WriterTask) : CM unit :=
  modify (fun c => with_writer_tasks (writer_tasks c ++ [task]) c).

Definition flush_writer_tasks : CM unit :=
  c <~ get;;
  match writer_in_flight c, wire c, writer_tasks c with
  | None, Some _, task :: tasks =>
      modify (with_writer_tasks tasks) ~>
      (send (match wt_kind task with
             | Bind key signature => CBind {| bd_request_id := wt_request_id task; bd_key_id := key;
                                              bd_signature := signature |}
             | Retire w => CRetire {| rw_request_id := wt_request_id task; rw_writer := w |}
             end) ~>
       modify (with_writer_in_flight (Some task)))
  | _, _, _ => ret tt
  end.

Definition bind_task : CM WriterTask :=
  c <~ get;;
  challenge <~ lift (ok_or (wire c ≫= id) (EProtocol "the connection opened without a challenge"));;
  keys <~ lift (ok_or (writer_keys c) (EProtocol "the device holds no keys to bind with"));;
  key <~ lift (ok_or keys EDeviceChip);;
  signature <~ lift (ok_or (sign key (writer_bind_message challenge)) EDeviceChip);;
  let queue := default fresh_queue (writers c !! Device key) in
  (put_queue (Device key) queue ~>
   (statement (persist_writer_state (Device key) (wq_next queue) (wq_head queue)) ~>
    new_task (Bind key signature))).

Definition plan_bind : CM unit :=
  bindable <~ device_bindable;;
  if negb bindable then ret tt
  else
    c <~ get;;
    match bound_writer c, writer_keys c with
    | Some (Device _), _ => ret tt
    | _, None => ret tt
    | _, Some _ =>
        task <~ bind_task;;
        (modify (fun c =>
           let keeps queued := match wt_kind queued, wt_kind task with
                               | Bind other _, Bind key _ => bool_decide (other = key)
                               | _, _ => true
                               end in
           with_writer_tasks (filter (fun queued => keeps queued = true) (writer_tasks c)) c) ~>
         (c <~ get;;
          match bound_writer c with
          | None => push_task task
          | Some _ => modify (with_pending_bind (Some task))
          end))
    end.

(** Retire the number writer whose tail settled. *)
Definition retire_number (number : WriterRef) : CM unit :=
  statement (persist_retire number) ~>
  (statement (fun t => Ok (set_writers (delete (writer_id number) (t_writers t)) t)) ~>
   (statement (delete_writer_pending number) ~>
    (task <~ new_task (Retire number);;
     (push_task task ~> modify (fun c => with_writers (delete number (writers c)) c))))).

Definition finish_number_tail : CM unit :=
  c <~ get;;
  match bound_writer c with
  | Some (Number n) =>
      match writers c !! Number n with
      | Some q =>
          if decide (wq_pending q <> ∅) then ret tt
          else match pending_bind c with
               | Some bind_ =>
                   modify (with_pending_bind None) ~>
                   (push_task bind_ ~> (retire_number (Number n) ~> flush_writer_tasks))
               | None => ret tt
               end
      | None => ret tt
      end
  | _ => ret tt
  end.

(** ** The server's answers *)

(** [settle_resend]. *)
Definition settle_resend : CM unit :=
  modify (fun c => match resend c with RsResent _ => with_resend RsIdle c | _ => c end).

(** [defer_pending], the wait asked for or the schedule's. *)
Definition defer_pending (asked : option Z) : CM unit :=
  c <~ get;;
  match resend c with
  | RsWaiting _ _ => ret tt
  | other =>
      let '(episode, seeds') := match other with
                                | RsResent e => (e, seeds c)
                                | _ => new_backoff (seeds c)
                                end in
      let '(wait, episode) := next_wait RESEND_POLICY episode in
      let timer := {| rt_armed := resends_armed c + 1;
                      rt_wait := default (default (max_backoff RESEND_POLICY) wait) asked |} in
      modify (fun c => with_seeds seeds' (with_resends_armed (resends_armed c + 1)
                         (with_resend (RsWaiting episode timer) c)))
  end.

Definition resend_deferred (timer : ResendTimer) : CM unit :=
  c <~ get;;
  match resend c with
  | RsWaiting episode armed =>
      if decide (armed = timer /\ is_connected c = true) then
        modify (with_resend (RsResent episode)) ~> replay_pending
      else ret tt
  | _ => ret tt
  end.

(** Drops an entry from a queue: whether it was there. *)
Definition take_pending (w : WriterRef) (seq : Z) : CM (option PendingEntry) :=
  c <~ get;;
  match writers c !! w with
  | None => ret None
  | Some q =>
      match wq_pending q !! seq with
      | None => ret None
      | Some e => put_queue w {| wq_next := wq_next q; wq_head := wq_head q;
                                 wq_pending := delete seq (wq_pending q) |} ~> ret (Some e)
      end
  end.

Definition rollback (w : WriterRef) (seq : Z) : CM nat :=
  taken <~ take_pending w seq;;
  match taken with
  | None => ret 0%nat
  | Some e =>
      rows <~ lift (ok_or (affected_rows (pe_changeset e)) EApply);;
      inverse <~ lift (ok_or (invert_changeset (pe_changeset e)) EApply);;
      (statement (delete_pending w seq) ~>
       (c <~ get;;
        undone <~ lift (ok_or (apply_omit inverse (replica c)) EApply);;
        (modify (with_replica undone) ~> ret rows)))
  end.

Definition mutation_applied (seq : Z) : CM ClientEvent :=
  c <~ get;;
  (match bound_writer c with
   | None => ret tt
   | Some w =>
       taken <~ take_pending w seq;;
       match taken with Some _ => statement (delete_pending w seq) | None => ret tt end
   end ~>
   (settle_resend ~> (finish_number_tail ~> ret (EvMutationApplied seq)))).

Definition holds_seq (w : option WriterRef) (seq : Z) (ws : gmap WriterRef WriterQueue) : bool :=
  match w ≫= fun w => ws !! w with
  | Some q => bool_decide (is_Some (wq_pending q !! seq))
  | None => false
  end.

Definition mutation_rejected (seq : Z) (reason : MutationRejectReason) : CM ClientEvent :=
  c <~ get;;
  if decide (reason = RIndeterminate) then
    ((if holds_seq (bound_writer c) seq (writers c) then defer_pending None else ret tt) ~>
     ret (EvMutationDeferred seq))
  else
    (settle_resend ~>
     (rows <~ match bound_writer c with Some w => rollback w seq | None => ret 0%nat end;;
      (finish_number_tail ~> ret (EvMutationRejected seq reason rows)))).

(** A conflict outside a binding panics the client; here it is an error. *)
Definition mutation_conflict (seq : Z) (server_row : option ConflictRow) : CM ClientEvent :=
  settle_resend ~>
  (c <~ get;;
   w <~ lift (ok_or (bound_writer c) (EProtocol "a conflict arrives for the bound writer"));;
   rows <~ rollback w seq;;
   (finish_number_tail ~> ret (EvMutationConflict seq rows server_row))).

Definition rate_limited (related_to : option Z) (retry_after_ms : Z) : CM ClientEvent :=
  c <~ get;;
  let throttled := match related_to with
                   | Some seq => existsb (fun wq => bool_decide (is_Some (wq_pending wq.2 !! seq)))
                                   (map_to_list (writers c))
                   | None => false
                   end in
  ((if throttled then defer_pending (Some (from_millis retry_after_ms)) else ret tt) ~>
   ret (EvRateLimited related_to retry_after_ms)).

Definition answer_bind (key : bytes) (request_id : string) (outcome : WriterOutcome) : CM ClientEvent :=
  c <~ get;;
  match outcome with
  | Bound frontier =>
      if decide (key ∈ retired_keys c) then
        flush_writer_tasks ~> ret (EvNonFatal (Some request_id))
      else
        let queue := default fresh_queue (writers c !! Device key) in
        let next := Z.max (sat_add u64_max frontier 1) (wq_next queue) in
        (put_queue (Device key) {| wq_next := next; wq_head := wq_head queue;
                                   wq_pending := wq_pending queue |} ~>
         (statement (persist_writer_state (Device key) next (wq_head queue)) ~>
          (modify (with_bound_writer (Some (Device key))) ~>
           (c <~ get;;
            (carry_writers (filter (fun w => is_device w = false) (map_to_list (writers c)).*1) (Device key) ~>
             (flush_writer_tasks ~> (replay_pending ~> ret (EvNonFatal (Some request_id)))))))))
  | Retired | NotEnrolled | Unknown => retire_device
  end.

Definition settle_writer_task (request_id : string) (outcome : WriterOutcome) : CM ClientEvent :=
  c <~ get;;
  match writer_in_flight c with
  | None => throw (EProtocol "a writer answer arrived with nothing in flight")
  | Some task =>
      if decide (wt_request_id task <> request_id) then
        throw (EProtocol "the writer answer names a foreign request")
      else
        (modify (with_writer_in_flight None) ~>
         match wt_kind task with
         | Bind key _ => answer_bind key request_id outcome
         | Retire w => statement (clear_retire w) ~>
                       (flush_writer_tasks ~> ret (EvNonFatal (Some request_id)))
         end)
  end.

Definition server_closed (reason : FatalErrorReason) : CM ClientEvent :=
  modify (with_peer_open false) ~>
  (c <~ get;;
   (match reason with
    | WriterRetired | WriterUnknown =>
        match bound_writer c with
        | Some (Device _) => retire_device ~> ret tt
        | Some w => carry_to_live w
        | None => ret tt
        end
    | DeviceRevoked => exclude_device_writers
    | _ => ret tt
    end ~> ret (EvServerClosed reason))).

(** The write path's arms of [handle_control]. *)
Definition handle_control (frame : Frame) : CM ClientEvent :=
  match frame with
  | FMutationApplied seq => mutation_applied seq
  | FMutationReject seq reason => mutation_rejected seq reason
  | FMutationConflict seq _ server_row => mutation_conflict seq server_row
  | FRateLimitedFrame related_to ms => rate_limited related_to ms
  | FFatalError reason => server_closed reason
  | FWriterAnswer request_id outcome => settle_writer_task request_id outcome
  end.

(** ** Connecting *)

Definition disconnected : CM unit :=
  modify (fun c =>
    with_peer_open false (with_wire None (with_pending_bind None (with_writer_in_flight None
      (with_writer_tasks [] (with_bound_writer None (with_resend RsIdle (with_attach_replay None c)))))))).

Definition check_writer_deadlines : CM unit :=
  c <~ get;;
  match writer_in_flight c with
  | Some task => if decide (wt_deadline task <= monotonic_now c) then disconnected else ret tt
  | None => ret tt
  end.

Definition apply_writer_grant (request : WriterRequest) (granted : option WriterGrant) :
    CM (option WriterRef) :=
  match request with
  | ReqIssue =>
      grant <~ lift (ok_or granted (EProtocol "the server issued no writer to an issue"));;
      if decide (wg_number grant = UNISSUED_NUMBER) then
        throw (EProtocol "the server issued the unissued number")
      else if decide (wg_frontier grant <> 0) then
        throw (EProtocol "a fresh number arrived with a frontier")
      else
        let number := Number (wg_number grant) in
        c <~ get;;
        (statement (fun t =>
           match writers c !! unissued with
           | Some q => t <-? rekey_writer unissued number t;;
                       persist_writer_state number (wq_next q) (wq_head q) t
           | None => persist_writer_state number 1 GENESIS t
           end) ~>
         (modify (fun c =>
            with_issued ({[wg_number grant]} ∪ issued c)
              (with_writers (<[number := default fresh_queue (writers c !! unissued)]>
                               (delete unissued (writers c))) c)) ~>
          ret (Some number)))
  | ReqNumber n =>
      grant <~ lift (ok_or granted (EProtocol "the server answered a number without a grant"));;
      if decide (wg_number grant <> n) then
        throw (EProtocol "the server confirmed another number than the handshake named")
      else
        c <~ get;;
        match writers c !! Number n with
        | Some _ => ret (Some (Number n))
        | None => statement (persist_writer_state (Number n) 1 GENESIS) ~>
                  (put_queue (Number n) fresh_queue ~> ret (Some (Number n)))
        end
  | ReqDevice =>
      match granted with
      | Some _ => throw (EProtocol "the server answered a device handshake with a grant")
      | None =>
          found <~ attempt device_certificate;;
          (match found with
           | Ok (Some h) => carry_writers [unissued] (Device (held_key h))
           | _ => ret tt
           end ~> ret None)
      end
  end.

(** Raise the bound writer's next sequence to the frontier and replay. *)
Definition reconcile_pending (frontier : option Z) : CM unit :=
  c <~ get;;
  match bound_writer c, frontier with
  | Some w, Some f =>
      match writers c !! w with
      | Some q =>
          let raised := Z.max (sat_add u64_max f 1) (wq_next q) in
          if decide (raised <> wq_next q) then
            put_queue w {| wq_next := raised; wq_head := wq_head q; wq_pending := wq_pending q |} ~>
            (statement (persist_writer_state w raised (wq_head q)) ~> replay_pending)
          else replay_pending
      | None => replay_pending
      end
  | _, _ => replay_pending
  end.

Definition resume_attach : CM unit :=
  c <~ get;;
  match attach_replay c with
  | None => ret tt
  | Some frontier => reconcile_pending frontier ~> modify (with_attach_replay None)
  end.

(** What a handshake came to. *)
Inductive HandshakeAnswer :=
  | HsFailed
  | HsRefused (reason : FatalErrorReason)
  | HsAck (grant : option WriterGrant) (challenge : option bytes).

Definition refused_writer (reason : FatalErrorReason) : bool :=
  match reason with WriterUnknown | WriterRetired => true | _ => false end.

(** [answer] is what the server makes of the handshake. *)
Definition attach (answer : WriterRequest -> option Z -> HandshakeAnswer) : CM unit :=
  query (fun _ => tt) ~>
  (asked <~ writer_handshake;;
   let request := asked.1 in
   match answer request asked.2 with
   | HsFailed => throw ETransport
   | HsRefused reason =>
       match request, refused_writer reason with
       | ReqNumber n, true => carry_to_live (Number n) ~> throw (ERefused reason)
       | _, _ => throw (ERefused reason)
       end
   | HsAck grant challenge =>
       bound <~ apply_writer_grant request grant;;
       let frontier := match bound with Some (Number _) => wg_frontier <$> grant | _ => None end in
       (modify (fun c => with_peer_open true (with_attach_replay (Some frontier)
                           (with_bound_writer bound (with_wire (Some challenge) c)))) ~>
        (plan_bind ~>
         (retires <~ query load_retires;;
          (for_each (fun w => task <~ new_task (Retire w);; push_task task) retires ~>
           (flush_writer_tasks ~> resume_attach)))))
   end).

(** ** The device's certificate and keys *)

Definition with_device_writer (keys : option bytes) : CM unit :=
  modify (with_writer_keys (Some keys)) ~>
  (c <~ get;; if is_connected c then plan_bind ~> flush_writer_tasks else ret tt).

Definition store_device_certificate (h : Held) : CM unit :=
  statement (fun t => Ok (set_certificate (Some h) t)) ~>
  (c <~ get;;
   (match writers c !! Device (held_key h) with
    | Some _ => ret tt
    | None => statement (persist_writer_state (Device (held_key h)) 1 GENESIS) ~>
              put_queue (Device (held_key h)) fresh_queue
    end ~>
    (c <~ get;;
     ((if is_connected c then plan_bind ~> flush_writer_tasks else ret tt) ~>
      (c <~ get;;
       match number_identity (writers c) with
       | Some n =>
           if holds_pending (Number n) (writers c) then ret tt
           else if decide (bound_writer c = Some (Number n)) then finish_number_tail
           else retire_number (Number n) ~>
                (c <~ get;; if is_connected c then flush_writer_tasks else ret tt)
       | None => ret tt
       end))))).

Definition delete_device_certificate : CM unit :=
  statement (fun t => Ok (set_certificate None t)).

(** ** Reapplying what is queued after a resync *)

Definition reapply_pending : CM unit :=
  c <~ get;;
  let queued := merge_sort position_le
    (map_to_list (writers c) ≫= fun wq => (fun se => (wq.1, se.1, se.2)) <$> map_to_list (wq_pending wq.2)) in
  match queued with
  | [] => ret tt
  | _ =>
      failed <~ fault;;
      if failed then throw EDatabase
      else r <~ lift (try_fold (fun e r => ok_or (apply_server_wins (pe_changeset e.2) r) EApply)
                        queued (replica c));;
           modify (with_replica r)
  end.

(** ** Opening the replica *)

(** A process opens the replica: what was in memory is gone, and the queues are
    the tables'. *)
Definition open_replica (c : Client) : Client :=
  let '(queues, position) := load_writer_queues (db c) in
  with_peer_open false (with_commands 0%nat (with_attach_replay None (with_resends_armed 0
    (with_resend RsIdle (with_retired_keys (load_retired_keys (db c)) (with_writer_keys None
      (with_pending_bind None (with_writer_in_flight None (with_writer_tasks [] (with_wire None
        (with_bound_writer None (with_next_position position (with_writers queues
          (with_captured [] c)))))))))))))).
End Client.
