(* ===== verification/Reopen.v ===== *)
(** What a restart of the client finds: the queues loaded from the tables are the
    queues the tables describe. *)

From Stdlib Require Import ZArith Lia Sorted.
From stdpp Require Import base numbers option list sorting gmap strings.
From S2P Require Import Prelude Wire Chain Cursor Pending.

Open Scope Z_scope.

(** ** Rows of queued entries *)

Definition row_of_entry (e : PendingEntry) : PendingRow :=
  {| pr_changeset := pe_changeset e; pr_hash := pe_hash e; pr_position := pe_position e;
     pr_prov_writer := (fun p => writer_id (pv_writer p)) <$> pe_provenance e;
     pr_prov_seq := pv_seq <$> pe_provenance e |}.

Definition in_i64 (z : Z) : Prop := 0 <= z <= i64_max.

Definition provenance_ok (p : Provenance) : Prop := writer_ok (pv_writer p) /\ in_i64 (pv_seq p).

Definition entry_ok (e : PendingEntry) : Prop :=
  length (pe_hash e) = 32%nat /\ in_i64 (pe_position e) /\
  forall p, pe_provenance e = Some p -> provenance_ok p.

Lemma i64_u64 z : in_i64 z -> try_into u64_max z = Some z.
Proof. unfold in_i64, i64_max. intros. apply try_into_Some. unfold u64_max. lia. Qed.

Definition entry_of (l : LoadedEntry) : PendingEntry :=
  {| pe_changeset := le_changeset l; pe_hash := le_hash l; pe_position := le_position l;
     pe_provenance := le_provenance l |}.

Lemma load_row_entry w s e :
  writer_ok w -> in_i64 s -> entry_ok e ->
  load_row ((writer_id w, s), row_of_entry e) =
  Some (w, {| le_seq := s; le_changeset := pe_changeset e; le_hash := pe_hash e;
              le_position := pe_position e; le_provenance := pe_provenance e |}).
Proof.
  intros Hw Hs (Hh & Hp & Hv). unfold load_row. cbn [fst snd]. rewrite writer_from_to by done.
  cbn [mbind option_bind row_of_entry pr_position pr_hash]. rewrite (i64_u64 s) by done. cbn [mbind option_bind].
  rewrite decide_True by done. rewrite (i64_u64 (pe_position e)) by done.
  cbn [mbind option_bind]. unfold load_provenance. simpl. destruct (pe_provenance e) as [[pw ps]|]; [|done]. simpl.
  destruct (Hv _ eq_refl) as [Hpw Hps]. simpl in *. by rewrite writer_from_to, i64_u64.
Qed.

(** ** The loops of the loader *)

Lemma group_lookup {A} (l : list (WriterRef * A)) (m : gmap WriterRef (list A)) w :
  foldl (fun q we => <[we.1 := default [] (q !! we.1) ++ [we.2]]> q) m l !! w =
  match snd <$> filter (fun we => we.1 = w) l with
  | [] => m !! w
  | es => Some (default [] (m !! w) ++ es)
  end.
Proof.
  revert m. induction l as [|[w' a] l IH]; intros m; [done|]. cbn [foldl]. rewrite IH. clear IH.
  cbn [fst snd]. rewrite filter_cons. simpl. case_decide as Hw.
  - subst w'. rewrite fmap_cons. cbn [snd]. destruct (snd <$> filter _ l); rewrite lookup_insert_eq; [done|].
    simpl. by rewrite <- (assoc_L (++)).
  - rewrite lookup_insert_ne by done. done.
Qed.

Lemma foldl_insert_notin {K V A} `{Countable K} (f : A -> K) (g : A -> V) (l : list A) (m : gmap K V) s :
  s ∉ f <$> l -> foldl (fun m a => <[f a := g a]> m) m l !! s = m !! s.
Proof.
  revert m. induction l as [|a l IH]; intros m Hs; [done|]. cbn [foldl].
  rewrite fmap_cons, not_elem_of_cons in Hs. destruct Hs as [Hne Hs].
  rewrite IH by done. by rewrite lookup_insert_ne.
Qed.

Lemma foldl_insert_in {K V A} `{Countable K} (f : A -> K) (g : A -> V) (l : list A) (m : gmap K V) a :
  NoDup (f <$> l) -> a ∈ l -> foldl (fun m a => <[f a := g a]> m) m l !! f a = Some (g a).
Proof.
  revert m. induction l as [|b l IH]; intros m Hnd Ha; [by apply not_elem_of_nil in Ha|].
  cbn [foldl]. rewrite fmap_cons in Hnd. apply NoDup_cons in Hnd as [Hb Hnd].
  apply elem_of_cons in Ha as [->|Ha]; [|by apply IH].
  rewrite foldl_insert_notin by done. apply lookup_insert_eq.
Qed.

Lemma foldl_insert_inv {K V A} `{Countable K} (f : A -> K) (g : A -> V) (l : list A) (m : gmap K V) k v :
  NoDup (f <$> l) -> foldl (fun m a => <[f a := g a]> m) m l !! k = Some v ->
  (exists a, a ∈ l /\ k = f a /\ v = g a) \/ (k ∉ f <$> l /\ m !! k = Some v).
Proof.
  intros Hnd Hk. destruct (decide (k ∈ f <$> l)) as [Hin|Hin].
  - left. apply list_elem_of_fmap in Hin as (a & -> & Ha). exists a.
    rewrite foldl_insert_in in Hk by done. by simplify_eq.
  - right. by rewrite foldl_insert_notin in Hk.
Qed.

Lemma list_max_opt_spec l :
  match list_max_opt l with
  | Some m => m ∈ l /\ forall z, z ∈ l -> z <= m
  | None => l = []
  end.
Proof.
  induction l as [|z l IH]; [done|]. cbn [list_max_opt foldr]. fold (list_max_opt l).
  destruct (list_max_opt l) as [m|] eqn:E.
  - destruct IH as [Hm Hle]. split.
    + destruct (Z.max_spec z m) as [[_ ->]|[_ ->]]; [by apply list_elem_of_further|apply list_elem_of_here].
    + intros y [->|Hy]%elem_of_cons; [lia|]. specialize (Hle _ Hy). lia.
  - subst l. split; [apply list_elem_of_here|]. by intros y ->%list_elem_of_singleton.
Qed.

Lemma max_key_spec {A} (m : gmap Z A) :
  match max_key m with
  | Some k => is_Some (m !! k) /\ forall s, is_Some (m !! s) -> s <= k
  | None => m = ∅
  end.
Proof.
  unfold max_key. pose proof (list_max_opt_spec (map_to_list m).*1) as H.
  assert (Hin : forall s, s ∈ (map_to_list m).*1 <-> is_Some (m !! s)).
  { intros s. rewrite list_elem_of_fmap. split.
    - intros ([k a] & -> & Hk). apply elem_of_map_to_list in Hk. simpl. by rewrite Hk.
    - intros [a Ha]. exists (s, a). split; [done|]. by apply elem_of_map_to_list. }
  destruct (list_max_opt _) as [k|].
  - destruct H as [Hk Hle]. split; [by apply Hin|]. intros s Hs. by apply Hle, Hin.
  - apply map_to_list_empty_iff. by apply fmap_nil_inv in H.
Qed.

(** ** Loading tables that hold well-formed rows *)

Record rows_ok (t : Tables) : Prop := {
  ro_rows : forall id s row, t_pending t !! (id, s) = Some row ->
    exists w e n h, writer_ok w /\ id = writer_id w /\ row = row_of_entry e /\ entry_ok e /\
      t_writers t !! id = Some (n, h) /\ 0 < s < n;
  ro_states : forall id n h, t_writers t !! id = Some (n, h) ->
    exists w, writer_ok w /\ id = writer_id w /\ length h = 32%nat /\ 1 <= n <= i64_max;
}.

Section Load.
Context (t : Tables) (Hok : rows_ok t).

Lemma load_states_lookup w n h :
  load_writer_states t !! w = Some (n, h) <-> writer_ok w /\ t_writers t !! writer_id w = Some (n, h).
Proof.
  unfold load_writer_states. set (f := fun row : bytes * (Z * bytes) => _).
  assert (Hf : forall id st x, t_writers t !! id = Some st -> f (id, st) = Some x ->
    writer_ok x.1 /\ id = writer_id x.1 /\ x.2 = st).
  { intros id [n' h'] [w' [n1 h1]] Hst Hx. destruct (ro_states t Hok _ _ _ Hst) as (w0 & Hw & -> & Hl & Hn).
    unfold f in Hx. cbn [fst snd] in Hx. rewrite writer_from_to in Hx by done. cbn [mbind option_bind] in Hx.
    rewrite i64_u64 in Hx by (unfold in_i64; lia). cbn [mbind option_bind] in Hx. rewrite decide_True in Hx by done. by simplify_eq. }
  split.
  - intros H. apply elem_of_list_to_map_2, list_elem_of_omap in H as ([id st] & Hin & Hx).
    apply elem_of_map_to_list in Hin. destruct (Hf _ _ _ Hin Hx) as (Hw & -> & Ex). simpl in Ex. by subst st.
  - intros [Hw Hst]. apply elem_of_list_to_map_1'.
    + intros y Hy. apply list_elem_of_omap in Hy as ([id st] & Hin & Hx).
      apply elem_of_map_to_list in Hin. destruct (Hf _ _ _ Hin Hx) as (_ & -> & Ey). simpl in *. subst y. congruence.
    + apply list_elem_of_omap. exists (writer_id w, (n, h)). split; [by apply elem_of_map_to_list|].
      destruct (ro_states t Hok _ _ _ Hst) as (w0 & _ & _ & Hl & Hn).
      unfold f. cbn [fst snd]. rewrite writer_from_to by done. cbn [mbind option_bind].
      rewrite i64_u64 by (unfold in_i64; lia). cbn [mbind option_bind]. by rewrite decide_True.
Qed.

(** The loaded entries of a writer, in the order the rows come. *)
Definition loaded (w : WriterRef) : list LoadedEntry :=
  snd <$> filter (fun we => we.1 = w) (omap load_row (merge_sort row_le (map_to_list (t_pending t)))).

Lemma elem_of_loaded w l :
  l ∈ loaded w <-> writer_ok w /\
  t_pending t !! (writer_id w, le_seq l) = Some (row_of_entry (entry_of l)) /\ entry_ok (entry_of l) /\ in_i64 (le_seq l).
Proof.
  unfold loaded. rewrite list_elem_of_fmap. split.
  - intros ([w' l'] & -> & [Hw Hin]%list_elem_of_filter). simpl in *. subst w'.
    apply list_elem_of_omap in Hin as ([[id s] row] & Hin & Hx).
    rewrite merge_sort_Permutation in Hin. apply elem_of_map_to_list in Hin.
    destruct (ro_rows t Hok _ _ _ Hin) as (w0 & e & n & h & Hw & -> & -> & He & Hst & Hs).
    destruct (ro_states t Hok _ _ _ Hst) as (_ & _ & _ & _ & Hn).
    rewrite load_row_entry in Hx by (done || unfold in_i64; lia). simplify_eq. unfold entry_of. simpl.
    destruct e; simpl in *. split_and!; [done|done|done|unfold in_i64; lia..].
  - intros (Hw & Hin & He & Hs). exists (w, l). split; [done|]. apply list_elem_of_filter. split; [done|].
    apply list_elem_of_omap. exists ((writer_id w, le_seq l), row_of_entry (entry_of l)).
    rewrite merge_sort_Permutation. split; [by apply elem_of_map_to_list|].
    rewrite load_row_entry by done. by destruct l.
Qed.

Lemma loaded_keys : NoDup ((fun we : WriterRef * LoadedEntry => (we.1, le_seq we.2)) <$>
  omap load_row (merge_sort row_le (map_to_list (t_pending t)))).
Proof.
  assert (Hp : omap load_row (merge_sort row_le (map_to_list (t_pending t))) ≡ₚ
    omap load_row (map_to_list (t_pending t))).
  { by apply omap_Permutation, merge_sort_Permutation. }
  rewrite Hp. clear Hp.
  assert (Hrow : forall k row, (k, row) ∈ map_to_list (t_pending t) ->
    exists w l, load_row (k, row) = Some (w, l) /\ k = (writer_id w, le_seq l)).
  { intros [id s] row Hin%elem_of_map_to_list.
    destruct (ro_rows t Hok _ _ _ Hin) as (w0 & e & n & h & Hw & -> & -> & He & Hst & Hs).
    destruct (ro_states t Hok _ _ _ Hst) as (_ & _ & _ & _ & Hn).
    rewrite load_row_entry by (done || unfold in_i64; lia). eauto. }
  pose proof (NoDup_fst_map_to_list (t_pending t)) as Hnd. revert Hnd Hrow.
  generalize (map_to_list (t_pending t)). clear. intros l. induction l as [|[k row] l IH]; intros Hnd Hrow; [constructor|].
  cbn [fmap list_fmap] in Hnd. apply NoDup_cons in Hnd as [Hk Hnd].
  destruct (Hrow k row) as (w & e & E & Ek); [apply list_elem_of_here|].
  cbn [omap list_omap]. rewrite E. cbn [fmap list_fmap]. apply NoDup_cons. split.
  - intros Hin. apply Hk. apply list_elem_of_fmap in Hin as ([w' e'] & Eq & Hin). simpl in Eq.
    apply list_elem_of_omap in Hin as ([k' row'] & Hin & E').
    destruct (Hrow k' row') as (w2 & e2 & E2 & Ek2); [by apply list_elem_of_further|].
    rewrite E' in E2. injection E2 as <- <-. injection Eq as E3 E4.
    apply list_elem_of_fmap. exists (k', row'). split; [|done]. simpl. rewrite Ek, Ek2. congruence.
  - apply IH; [done|]. intros k' row' Hin. apply Hrow. by apply list_elem_of_further.
Qed.

Lemma loaded_seqs w : NoDup (le_seq <$> loaded w).
Proof.
  unfold loaded. pose proof loaded_keys as Hnd. revert Hnd.
  generalize (omap load_row (merge_sort row_le (map_to_list (t_pending t)))).
  intros l. induction l as [|[w' e] l IH]; intros Hnd; [constructor|].
  cbn [fmap list_fmap] in Hnd. apply NoDup_cons in Hnd as [Hk Hnd]. rewrite filter_cons. simpl.
  case_decide as Hw; [|by apply IH]. subst w'. simpl. apply NoDup_cons. split; [|by apply IH].
  intros Hin. apply Hk. apply list_elem_of_fmap in Hin as (e1 & E1 & Hin).
  apply list_elem_of_fmap in Hin as ([w1 e2] & -> & [Hw1 Hin]%list_elem_of_filter). simpl in *. subst w1.
  apply list_elem_of_fmap. exists (w, e2). simpl. by rewrite E1.
Qed.

Lemma load_queue_entries q w :
  wq_pending q = ∅ ->
  forall s e, wq_pending (load_queue q (loaded w)) !! s = Some e <->
    writer_ok w /\ t_pending t !! (writer_id w, s) = Some (row_of_entry e) /\ entry_ok e.
Proof.
  intros Hq s e.
  assert (Hp : wq_pending (load_queue q (loaded w)) =
    foldl (fun m l => <[le_seq l := entry_of l]> m) ∅ (loaded w)).
  { unfold load_queue. rewrite Hq. by destruct (last (loaded w)). }
  rewrite Hp. clear Hp. split.
  - intros Hs. destruct (decide (s ∈ le_seq <$> loaded w)) as [Hin|Hnin].
    + apply list_elem_of_fmap in Hin as (l & -> & Hl). pose proof Hl as Hl'.
      rewrite (foldl_insert_in le_seq entry_of) in Hs by (done || apply loaded_seqs). simplify_eq.
      apply elem_of_loaded in Hl' as (? & ? & ? & _). done.
    + rewrite foldl_insert_notin in Hs by done. by rewrite lookup_empty in Hs.
  - intros (Hw & Hrow & He).
    set (l := {| le_seq := s; le_changeset := pe_changeset e; le_hash := pe_hash e;
                 le_position := pe_position e; le_provenance := pe_provenance e |}).
    assert (El : entry_of l = e) by (by destruct e).
    rewrite <- El. change s with (le_seq l). apply (foldl_insert_in le_seq entry_of); [apply loaded_seqs|].
    apply elem_of_loaded. rewrite El. destruct (ro_rows t Hok _ _ _ Hrow) as (w0 & e0 & n & h & _ & _ & _ & _ & Hst & Hs).
    destruct (ro_states t Hok _ _ _ Hst) as (_ & _ & _ & _ & Hn). split_and!; [done..|unfold in_i64; simpl; lia].
Qed.

(** The queues loaded are the queues the tables describe. *)
Lemma load_queues_lookup w q :
  (load_writer_queues t).1 !! w = Some q ->
  writer_ok w /\ length (wq_head q) = 32%nat /\
  (exists h, t_writers t !! writer_id w = Some (wq_next q, h) /\ (wq_pending q = ∅ -> wq_head q = h)) /\
  forall s e, wq_pending q !! s = Some e <->
    t_pending t !! (writer_id w, s) = Some (row_of_entry e) /\ entry_ok e.
Proof.
  unfold load_writer_queues. cbn [fst]. rewrite lookup_merge, lookup_fmap. unfold load_pending. rewrite group_lookup.
  fold (loaded w). rewrite lookup_empty. simpl.
  destruct (load_writer_states t !! w) as [[n h]|] eqn:Est.
  - pose proof Est as [Hw Hst]%load_states_lookup. destruct (ro_states t Hok _ _ _ Hst) as (_ & _ & _ & Hl & Hn).
    set (q0 := {| wq_next := n; wq_head := h; wq_pending := ∅ |}).
    assert (Hpend := load_queue_entries q0 w eq_refl).
    destruct (loaded w) as [|l ls] eqn:El; simpl; intros [= <-].
    + split_and!; [done|done|by eexists|]. intros s e. specialize (Hpend s e).
      unfold load_queue in Hpend. simpl in *. rewrite Hpend. naive_solver.
    + rewrite <- El in *. fold q0. assert (Hlast : exists x, last (loaded w) = Some x /\ x ∈ loaded w).
      { rewrite El. destruct (last_is_Some (l :: ls)) as [_ [x Hx]]; [done|].
        exists x. split; [done|]. by apply last_Some_elem_of. }
      destruct Hlast as (x & Hx & Hxin). pose proof Hxin as (_ & _ & (Hxh & _) & _)%elem_of_loaded.
      split; [done|]. split; [unfold load_queue; rewrite Hx; done|]. split.
      * exists h. assert (Hnx : wq_next (load_queue q0 (loaded w)) = n).
        { assert (Hpe : match max_key (wq_pending (load_queue q0 (loaded w))) with
            | Some k => k < n | None => True end).
          { pose proof (max_key_spec (wq_pending (load_queue q0 (loaded w)))) as Hm.
            destruct (max_key _) as [k|]; [|done]. destruct Hm as [[e He] _].
            apply Hpend in He as (_ & Hrow & _).
            destruct (ro_rows t Hok _ _ _ Hrow) as (w0 & e0 & n' & h' & _ & _ & _ & _ & Hst' & Hs).
            rewrite Hst in Hst'. simplify_eq. lia. }
          unfold load_queue in *. rewrite Hx in *. cbn [wq_next wq_pending q0] in *.
          destruct (max_key _); lia. }
        rewrite Hnx. split; [done|]. intros He. apply elem_of_loaded in Hxin as (_ & Hrow & Hxe & _).
        assert (Hin : wq_pending (load_queue q0 (loaded w)) !! le_seq x = Some (entry_of x)) by (by apply Hpend).
        by rewrite He, lookup_empty in Hin.
      * intros s e. rewrite Hpend. naive_solver.
  - destruct (loaded w) as [|l ls] eqn:El; simpl; [done|]. intros _.
    assert (Hl : l ∈ loaded w) by (rewrite El; apply list_elem_of_here).
    apply elem_of_loaded in Hl as (Hw & Hrow & _).
    destruct (ro_rows t Hok _ _ _ Hrow) as (w0 & e0 & n & h & _ & _ & _ & _ & Hst & _).
    exfalso. assert (Hx : load_writer_states t !! w = Some (n, h)) by (by apply load_states_lookup). congruence.
Qed.

Lemma load_queues_some w st :
  writer_ok w -> t_writers t !! writer_id w = Some st -> is_Some ((load_writer_queues t).1 !! w).
Proof.
  destruct st as [n h]. intros Hw Hst. unfold load_writer_queues. cbn [fst]. rewrite lookup_merge, lookup_fmap.
  rewrite (proj2 (load_states_lookup w n h)) by done. simpl. by destruct (load_pending t !! w).
Qed.
End Load.

Lemma row_of_entry_inj e e' : entry_ok e -> entry_ok e' -> row_of_entry e = row_of_entry e' -> e = e'.
Proof.
  destruct e as [c h p v], e' as [c' h' p' v']. intros (_ & _ & H1) (_ & _ & H2) [= -> -> -> Ew Es].
  f_equal. simpl in *. destruct v as [[w s]|], v' as [[w' s']|]; simplify_eq/=; [|done].
  destruct (H1 _ eq_refl) as [Hw _], (H2 _ eq_refl) as [Hw' _]. simpl in *.
  by rewrite (writer_id_inj _ _ Hw Hw' Ew).
Qed.

Lemma list_max_opt_nonneg l : Forall (fun z => 0 <= z) l ->
  0 <= match list_max_opt l with Some p => p + 1 | None => 1 end.
Proof.
  intros Hl. pose proof (list_max_opt_spec l) as Hm. destruct (list_max_opt l) as [m|]; [|lia].
  destruct Hm as [Hin _]. rewrite Forall_forall in Hl. specialize (Hl _ Hin). lia.
Qed.

Lemma load_position t : rows_ok t -> 0 <= (load_writer_queues t).2.
Proof.
  intros Hok. pose proof (load_queues_lookup t Hok) as Hq. unfold load_writer_queues in *. cbn [fst snd] in *.
  apply list_max_opt_nonneg. unfold positions. rewrite Forall_forall. intros z Hz.
  apply list_elem_of_bind in Hz as (q & Hz & Hqin). apply list_elem_of_fmap in Hqin as ([w q'] & -> & Hqin).
  apply elem_of_map_to_list in Hqin. destruct (Hq _ _ Hqin) as (_ & _ & _ & He).
  apply list_elem_of_fmap in Hz as (e & -> & Hz). apply list_elem_of_fmap in Hz as ([s e'] & -> & Hz).
  apply elem_of_map_to_list, He in Hz as [_ (_ & Hp & _)]. unfold in_i64 in Hp. simpl in *. lia.
Qed.
