(* ===== verification/Ledger.v ===== *)
(** The identities a client's writes go by, and the invariant of its tables and
    queues that keeps each identity to one write.

    A write first queued under a real writer as its sequence [s] is known to the
    server by that pair for ever: carried to another writer it names the pair as
    its provenance. The ledger maps every pair ever given out to the provenance
    and the changeset it stands for. *)

From Stdlib Require Import ZArith Lia.
From stdpp Require Import base numbers option list gmap strings.
From S2P Require Import Prelude Wire Chain Backoff Cursor Pending ClientState ClientWriter Reopen.

Open Scope Z_scope.

Abbreviation Ledger := (gmap (WriterRef * Z) (option Provenance * bytes)).

(** What a queued entry claims of the ledger: its own pair under a real writer,
    its provenance alone while it waits for a number. *)
Definition known (L : Ledger) (w : WriterRef) (s : Z) (e : PendingEntry) : Prop :=
  if is_real_writer w then L !! (w, s) = Some (pe_provenance e, pe_changeset e)
  else forall p, pe_provenance e = Some p -> L !! (pv_writer p, pv_seq p) = Some (None, pe_changeset e).

(** A writer new entries may go under. *)
Definition live (keys : gset bytes) (w : WriterRef) : Prop :=
  match w with Device k => k ∉ keys | Number _ => True end.

Record ledger_ok (L : Ledger) (iss : gset Z) : Prop := {
  lo_ids : forall w s x, L !! (w, s) = Some x ->
    writer_ok w /\ is_real_writer w = true /\ in_i64 s /\ forall n, w = Number n -> n ∈ iss;
  lo_prov : forall id p cs, L !! id = Some (Some p, cs) -> L !! (pv_writer p, pv_seq p) = Some (None, cs);
}.

Record tables_ok (L : Ledger) (keys : gset bytes) (iss : gset Z) (t : Tables) : Prop := {
  to_rows : rows_ok t;
  to_known : forall w s e, writer_ok w -> entry_ok e ->
    t_pending t !! (writer_id w, s) = Some (row_of_entry e) -> known L w s e;
  to_taken : forall w s x n h, L !! (w, s) = Some x -> live keys w ->
    t_writers t !! writer_id w = Some (n, h) -> s < n;
  to_devices : forall k s x, L !! (Device k, s) = Some x ->
    k ∈ keys \/ is_Some (t_writers t !! writer_id (Device k));
  to_numbers : forall n st, in_u64 n -> t_writers t !! writer_id (Number n) = Some st -> n = 0 \/ n ∈ iss;
  to_retired : t_retired_keys t = keys;
  to_keys : forall k, k ∈ keys -> length k = 32%nat;
  to_cert : forall h, t_certificate t = Some h -> writer_ok (Device (held_key h));
}.

Record memory_ok (L : Ledger) (keys : gset bytes) (iss : gset Z) (t : Tables)
    (ws : gmap WriterRef WriterQueue) : Prop := {
  mo_queue : forall w q, ws !! w = Some q ->
    writer_ok w /\ 1 <= wq_next q /\ length (wq_head q) = 32%nat /\
    forall n h, t_writers t !! writer_id w = Some (n, h) -> n <= wq_next q;
  mo_pending : forall w q s e, ws !! w = Some q -> wq_pending q !! s = Some e ->
    t_pending t !! (writer_id w, s) = Some (row_of_entry e) /\ entry_ok e;
  mo_taken : forall w s x q, L !! (w, s) = Some x -> live keys w -> ws !! w = Some q -> s < wq_next q;
  mo_sub : forall w st, writer_ok w -> t_writers t !! writer_id w = Some st -> is_Some (ws !! w);
  mo_numbers : forall n q, ws !! Number n = Some q -> n = 0 \/ n ∈ iss;
}.

Section Sound.
Context {CH : Changes}.

Definition task_ok (task : WriterTask) : Prop :=
  match wt_kind task with Bind key _ => writer_ok (Device key) | Retire _ => True end.

(** A write is queued: its place in the order of writing, and its changes. *)
Definition queued (ws : gmap WriterRef WriterQueue) (x : Z * bytes) : Prop :=
  exists w q s e, ws !! w = Some q /\ wq_pending q !! s = Some e /\ x = (pe_position e, pe_changeset e).

(** [S] are writes that must still be queued. *)
Record sound (L : Ledger) (S : Z * bytes -> Prop) (c : Client) : Prop := {
  so_ledger : ledger_ok L (issued c);
  so_tables : tables_ok L (retired_keys c) (issued c) (db c);
  so_memory : memory_ok L (retired_keys c) (issued c) (db c) (writers c);
  so_uploads : Forall (fun u => L !! (up_writer u, up_seq u) = Some (up_provenance u, up_changeset u)) (uploads c);
  so_bound : peer_open c = true -> forall w, bound_writer c = Some w -> is_real_writer w = true /\ writer_ok w;
  so_keys : forall k, writer_keys c = Some (Some k) -> writer_ok (Device k);
  so_tasks : Forall task_ok (writer_tasks c) /\ (forall x, writer_in_flight c = Some x -> task_ok x) /\
             (forall x, pending_bind c = Some x -> task_ok x);
  so_position : 0 <= next_position c;
  so_held : forall x, S x -> queued (writers c) x;
}.

(** The tables hold no entry that is not in memory. *)
Definition mirrors (c : Client) : Prop :=
  forall w s row, writer_ok w -> t_pending (db c) !! (writer_id w, s) = Some row ->
    exists q e, writers c !! w = Some q /\ wq_pending q !! s = Some e.

(** Every entry in memory is in the tables; the converse fails once an answered
    entry could not be deleted from them. *)
Definition ok (mirrored : bool) (S : Z * bytes -> Prop) (c : Client) : Prop :=
  exists L, sound L S c /\ (mirrored = true -> mirrors c).

(** Whether the client goes on after a result, [t] the errors it tolerates. *)
Definition survives {A} (t : ClientError -> bool) (r : Result A ClientError) : bool :=
  match r with Ok _ => true | Err e => t e end.

(** [m] keeps the invariant when run from [c], mirrored if the client goes on, and
    a result it returns satisfies [Q]. *)
Definition upholds {A} (t : ClientError -> bool) (S : Z * bytes -> Prop) (m : CM A) (c : Client)
    (Q : A -> Client -> Prop) : Prop :=
  ok (survives t (m c).1) S (m c).2 /\ match (m c).1 with Ok a => Q a (m c).2 | Err _ => True end.

Lemma ok_weaken b S c : ok true S c -> ok b S c.
Proof. intros (L & H & Hm). exists L. split; [done|]. intros _. by apply Hm. Qed.

Lemma upholds_ret {A} t S (a : A) c (Q : A -> Client -> Prop) : ok true S c -> Q a c -> upholds t S (ret a) c Q.
Proof. done. Qed.

Lemma upholds_throw {A} t S e c (Q : A -> Client -> Prop) : ok true S c -> upholds t S (throw e) c Q.
Proof. split; [by apply ok_weaken|done]. Qed.

Lemma upholds_bind {A B} t S (m : CM A) (k : A -> CM B) c Q R :
  upholds t S m c Q -> (forall a c', ok true S c' -> Q a c' -> upholds t S (k a) c' R) ->
  upholds t S (bind m k) c R.
Proof.
  unfold upholds, bind. intros [Hok HQ] Hk. destruct (m c) as [[a|e] c']; [by apply Hk|done].
Qed.

Lemma upholds_weaken {A} t S (m : CM A) c (Q R : A -> Client -> Prop) :
  upholds t S m c Q -> (forall a c', Q a c' -> R a c') -> upholds t S m c R.
Proof. intros [Hok HQ] HR. split; [done|]. destruct (m c).1; [by apply HR|done]. Qed.

Lemma upholds_get {B} t S (k : Client -> CM B) c R : upholds t S (k c) c R -> upholds t S (bind get k) c R.
Proof. done. Qed.

Lemma upholds_modify {B} t S f (k : unit -> CM B) c R : upholds t S (k tt) (f c) R -> upholds t S (bind (modify f) k) c R.
Proof. done. Qed.

Lemma upholds_lift {A B} t S (r : Result A ClientError) (k : A -> CM B) c R :
  ok true S c -> (forall a, r = Ok a -> upholds t S (k a) c R) -> upholds t S (bind (lift r) k) c R.
Proof. intros Hok Hk. destruct r as [a|e]; [by apply Hk|by apply upholds_throw]. Qed.

(** Two clients the invariant cannot tell apart. *)
Definition same (c c' : Client) : Prop :=
  db c' = db c /\ writers c' = writers c /\ retired_keys c' = retired_keys c /\ issued c' = issued c /\
  uploads c' = uploads c /\ bound_writer c' = bound_writer c /\ peer_open c' = peer_open c /\
  writer_keys c' = writer_keys c /\ writer_tasks c' = writer_tasks c /\
  writer_in_flight c' = writer_in_flight c /\ pending_bind c' = pending_bind c /\
  next_position c' = next_position c.

Lemma same_refl c : same c c.
Proof. by repeat split. Qed.

Lemma same_trans c1 c2 c3 : same c1 c2 -> same c2 c3 -> same c1 c3.
Proof. unfold same. intros. destruct_and!. split_and!; congruence. Qed.

Lemma sound_same L S c c' : same c c' -> sound L S c -> sound L S c'.
Proof.
  intros (E1 & E2 & E3 & E4 & E5 & E6 & E7 & E8 & E9 & E10 & E11 & E12) [].
  constructor; rewrite ?E1, ?E2, ?E3, ?E4, ?E5, ?E6, ?E7, ?E8, ?E9, ?E10, ?E11, ?E12; done.
Qed.

Lemma ok_same b S c c' : same c c' -> ok b S c -> ok b S c'.
Proof.
  intros Hs (L & H & Hm). exists L. split; [by eapply sound_same|].
  destruct Hs as (E1 & E2 & _). unfold mirrors. by rewrite E1, E2.
Qed.

(** The durable state, the queues and the retired keys set together. *)
Definition stored (t : Tables) (ws : gmap WriterRef WriterQueue) (keys : gset bytes) (c : Client) : Client :=
  with_retired_keys keys (with_writers ws (with_db t c)).

Lemma stored_twice t ws keys t' ws' keys' c : stored t ws keys (stored t' ws' keys' c) = stored t ws keys c.
Proof. by destruct c. Qed.

Lemma stored_id c : stored (db c) (writers c) (retired_keys c) c = c.
Proof. by destruct c. Qed.

(** ** The effects *)

Lemma fault_cases c : exists b l, fault c = (Ok b, with_faults l c).
Proof.
  unfold fault. destruct (faults c) as [|b l] eqn:E; [|by eauto]. exists false, [].
  f_equal. destruct c. simpl in *. by subst.
Qed.

Lemma same_faults l c : same c (with_faults l c).
Proof. by repeat split. Qed.

Lemma statement_cases f c :
  (exists e l, statement f c = (Err e, with_faults l c)) \/
  (exists t l, f (db c) = Ok t /\ statement f c = (Ok tt, with_db t (with_faults l c))).
Proof.
  unfold statement, bind. destruct (fault_cases c) as (b & l & ->).
  destruct b; [left; by eexists _, _|]. unfold get, lift. simpl.
  destruct (f (db c)) as [t|e] eqn:E; [right|left]; by eexists _, _.
Qed.

Lemma statement_inv f c r c' :
  statement f c = (r, c') ->
  exists l, (exists e, r = Err e /\ c' = with_faults l c) \/
            (exists t, f (db c) = Ok t /\ r = Ok tt /\ c' = with_db t (with_faults l c)).
Proof.
  intros E. destruct (statement_cases f c) as [(e & l & Ee)|(t & l & Ht & Et)]; rewrite E in *; simplify_eq;
    exists l; [left|right]; eauto.
Qed.

Lemma bind_inv {A B} (m : CM A) (k : A -> CM B) c r c' :
  bind m k c = (r, c') ->
  (exists e, m c = (Err e, c') /\ r = Err e) \/ (exists a c1, m c = (Ok a, c1) /\ k a c1 = (r, c')).
Proof. unfold bind. destruct (m c) as [[a|e] c1]; intros H; simplify_eq; eauto. Qed.

Lemma query_cases {A} (f : Tables -> A) c :
  exists l, query f c = (Err EDatabase, with_faults l c) \/ query f c = (Ok (f (db c)), with_faults l c).
Proof.
  unfold query, bind. destruct (fault_cases c) as (b & l & ->). exists l. destruct b; [by left|by right].
Qed.

Lemma send_cases frame c :
  exists c', same c c' /\ (send frame c = (Ok tt, c') \/ send frame c = (Err ETransport, c') \/
                           send frame c = (Err ENotConnected, c')).
Proof.
  unfold send, bind, get. destruct (wire c); [|by exists c; auto using same_refl].
  destruct (fault_cases c) as (b & l & ->). destruct b; eexists; (split; [|by auto]); by repeat split.
Qed.

Lemma statement_error f c e c' : statement f c = (Err e, c') -> e = EDatabase \/ f (db c) = Err e.
Proof.
  unfold statement, bind. destruct (fault_cases c) as (b & l & ->). destruct b; [intros [= <- _]; by left|].
  unfold get, lift. cbn. destruct (f (db c)); intros H; simplify_eq. by right.
Qed.

Lemma upholds_statement {B} t S f (k : unit -> CM B) c R :
  ok true S c -> (forall tb l, f (db c) = Ok tb -> upholds t S (k tt) (with_db tb (with_faults l c)) R) ->
  upholds t S (bind (statement f) k) c R.
Proof.
  intros Hok Hk. unfold upholds, bind. destruct (statement_cases f c) as [(e & l & ->)|(tb & l & Ht & ->)].
  - split; [|done]. apply ok_weaken. eapply ok_same; [apply same_faults|done].
  - by apply Hk.
Qed.

(** The same from a state the tables do not mirror: a failure ends the pump. *)
Lemma upholds_statement_weak {B} t S f (k : unit -> CM B) c R :
  ok false S c -> t EDatabase = false -> (forall e, f (db c) = Err e -> t e = false) ->
  (forall tb l, f (db c) = Ok tb -> upholds t S (k tt) (with_db tb (with_faults l c)) R) ->
  upholds t S (bind (statement f) k) c R.
Proof.
  intros Hok Hd He Hk. unfold upholds, bind. destruct (statement_cases f c) as [(e & l & E)|(tb & l & Ht & ->)].
  - rewrite E. split; [|done]. cbn. assert (t e = false) as -> by
      (destruct (statement_error _ _ _ _ E) as [->|Ef]; [done|by apply He]).
    eapply ok_same; [apply same_faults|done].
  - by apply Hk.
Qed.

Lemma upholds_query {A B} t S (f : Tables -> A) (k : A -> CM B) c R :
  ok true S c -> (forall l, ok true S (with_faults l c) -> upholds t S (k (f (db c))) (with_faults l c) R) ->
  upholds t S (bind (query f) k) c R.
Proof.
  intros Hok Hk. unfold upholds, bind. destruct (query_cases f c) as (l & [-> | ->]).
  - split; [|done]. apply ok_weaken. eapply ok_same; [apply same_faults|done].
  - apply Hk. eapply ok_same; [apply same_faults|done].
Qed.

Lemma upholds_eq {A B} t S (m : CM A) (k : A -> CM B) a c c' R :
  m c = (Ok a, c') -> upholds t S (k a) c' R -> upholds t S (bind m k) c R.
Proof. unfold upholds, bind. by intros ->. Qed.

Lemma upholds_lift_weak {A B} t S (o : option A) e (k : A -> CM B) c R :
  ok false S c -> t e = false -> (forall a, o = Some a -> upholds t S (k a) c R) ->
  upholds t S (bind (lift (ok_or o e)) k) c R.
Proof.
  intros Hok He Hk. destruct o as [a|]; [by apply Hk|]. unfold upholds, bind, lift. cbn. by rewrite He.
Qed.

(** A property of the client that holds however [m] ends. *)
Lemma after_bind {A B} (P : Client -> Prop) (m : CM A) (k : A -> CM B) c :
  P (m c).2 -> (forall a c', m c = (Ok a, c') -> P c' -> P (k a c').2) -> P (bind m k c).2.
Proof. unfold bind. destruct (m c) as [[a|e] c']; intros Hm Hk; [by apply Hk|done]. Qed.

Lemma after_step {A B} (P : Client -> Prop) (m : CM A) (k : A -> CM B) c :
  P (m c).2 -> (forall a c', P c' -> P (k a c').2) -> P (bind m k c).2.
Proof. intros Hm Hk. apply after_bind; [done|]. intros a c' _. apply Hk. Qed.

Lemma after_lift {A B} (P : Client -> Prop) (r : Result A ClientError) (k : A -> CM B) c :
  P c -> (forall a, r = Ok a -> P (k a c).2) -> P (bind (lift r) k c).2.
Proof. intros Hc Hk. destruct r as [a|e]; [by apply Hk|done]. Qed.

(** Nothing is asked of the result. *)
Definition anyhow {A} (_ : A) (_ : Client) : Prop := True.

Lemma upholds_any {A} t S (m : CM A) c : ok true S (m c).2 -> upholds t S m c anyhow.
Proof. intros H. split; [by apply ok_weaken|]. by destruct (m c).1. Qed.

Lemma upholds_then {A B} t S (m : CM A) (k : A -> CM B) c R :
  upholds t S m c anyhow -> (forall a c', ok true S c' -> upholds t S (k a) c' R) -> upholds t S (bind m k) c R.
Proof. intros Hm Hk. eapply upholds_bind; [done|]. intros a c' Hok _. by apply Hk. Qed.

Lemma send_same frame c : same c (send frame c).2.
Proof. destruct (send_cases frame c) as (c' & Hsm & [-> |[-> | ->]]); done. Qed.

Lemma upholds_send t S frame c : ok true S c -> upholds t S (send frame) c anyhow.
Proof. intros Hok. apply upholds_any. eapply ok_same; [apply send_same|done]. Qed.

Lemma ok_tasks b S c ts : Forall task_ok ts -> ok b S c -> ok b S (with_writer_tasks ts c).
Proof. intros Ht (L & [? ? ? ? ? ? (? & ? & ?) ? ?] & Hm). exists L. split; [by constructor|done]. Qed.

Lemma ok_task_in_flight b S c t :
  (forall x, t = Some x -> task_ok x) -> ok b S c -> ok b S (with_writer_in_flight t c).
Proof. intros Ht (L & [? ? ? ? ? ? (? & ? & ?) ? ?] & Hm). exists L. split; [by constructor|done]. Qed.

Lemma ok_pending_bind b S c t :
  (forall x, t = Some x -> task_ok x) -> ok b S c -> ok b S (with_pending_bind t c).
Proof. intros Ht (L & [? ? ? ? ? ? (? & ? & ?) ? ?] & Hm). exists L. split; [by constructor|done]. Qed.

Lemma ok_bound b S c v :
  (peer_open c = true -> forall w, v = Some w -> is_real_writer w = true /\ writer_ok w) ->
  ok b S c -> ok b S (with_bound_writer v c).
Proof. intros Ht (L & [] & Hm). exists L. split; [by constructor|done]. Qed.

Lemma tasks_ok b S c : ok b S c ->
  Forall task_ok (writer_tasks c) /\ (forall x, writer_in_flight c = Some x -> task_ok x) /\
  (forall x, pending_bind c = Some x -> task_ok x).
Proof. intros (L & [] & _). done. Qed.
End Sound.

(** ** Placing entries in a writer's queue

    Appending a write, raising a frontier, carrying tails and taking an issued
    number all come down to it. *)

Section Place.
Context {CH : Changes}.
Context (L : Ledger) (S : Z * bytes -> Prop) (c : Client) (target : WriterRef) (placed : list (Z * PendingEntry)).
Context (next : Z) (head : bytes).
Definition standing : WriterQueue := default fresh_queue (writers c !! target).

Definition enter : Ledger :=
  if is_real_writer target
  then foldl (fun L se => <[(target, se.1) := (pe_provenance se.2, pe_changeset se.2)]> L) L placed
  else L.

Definition placed_tables : Tables :=
  set_writers (<[writer_id target := (next, head)]> (t_writers (db c)))
    (set_pending (foldl (fun m se => <[(writer_id target, se.1) := row_of_entry se.2]> m)
                    (t_pending (db c)) placed) (db c)).

Definition placed_queue : WriterQueue :=
  {| wq_next := next; wq_head := head;
     wq_pending := foldl (fun m se => <[se.1 := se.2]> m) (wq_pending standing) placed |}.

Definition placed_client : Client :=
  stored placed_tables (<[target := placed_queue]> (writers c)) (retired_keys c) c.

Record placeable : Prop := {
  pl_ok : writer_ok target;
  pl_next : wq_next standing <= next <= i64_max;
  pl_head : length head = 32%nat;
  pl_seqs : NoDup placed.*1;
  pl_range : forall s e, (s, e) ∈ placed -> wq_next standing <= s < next /\ entry_ok e;
  pl_claims : forall s e p, (s, e) ∈ placed -> pe_provenance e = Some p ->
    L !! (pv_writer p, pv_seq p) = Some (None, pe_changeset e);
  pl_free : is_real_writer target = true -> live (retired_keys c) target ->
    forall s x, L !! (target, s) = Some x -> s < wq_next standing;
  pl_new : is_real_writer target = true -> forall s e, (s, e) ∈ placed -> L !! (target, s) = None;
  pl_number : forall n, target = Number n -> n = 0 \/ n ∈ issued c;
}.

Context (Hs : sound L S c) (Hp : placeable).

Lemma queue_next : 1 <= wq_next standing /\ length (wq_head standing) = 32%nat.
Proof.
  unfold standing. destruct (writers c !! target) as [q'|] eqn:E; simpl.
  - destruct (mo_queue _ _ _ _ _ (so_memory _ _ _ Hs) _ _ E) as (_ & ? & ? & _). done.
  - split; [lia|]. done.
Qed.

Lemma placed_ids : NoDup ((fun se : Z * PendingEntry => (target, se.1)) <$> placed).
Proof.
  change (NoDup (pair target ∘ fst <$> placed)). rewrite list_fmap_compose.
  apply NoDup_fmap_2; [intros ?? [=]; done|]. apply Hp.
Qed.

Lemma placed_keys : NoDup ((fun se : Z * PendingEntry => (writer_id target, se.1)) <$> placed).
Proof.
  change (NoDup (pair (writer_id target) ∘ fst <$> placed)). rewrite list_fmap_compose.
  apply NoDup_fmap_2; [intros ?? [=]; done|]. apply Hp.
Qed.

Lemma enter_inv id x :
  enter !! id = Some x ->
  (is_real_writer target = true /\ exists s e, (s, e) ∈ placed /\ id = (target, s) /\
     x = (pe_provenance e, pe_changeset e)) \/ L !! id = Some x.
Proof.
  unfold enter. destruct (is_real_writer target); [|by right]. intros H.
  apply (foldl_insert_inv (fun se : Z * PendingEntry => (target, se.1))
    (fun se => (pe_provenance se.2, pe_changeset se.2))) in H; [|apply placed_ids].
  destruct H as [([s e] & Hin & -> & ->)|[_ H]]; [left|by right]. split; [done|]. by exists s, e.
Qed.

Lemma enter_new s e :
  is_real_writer target = true -> (s, e) ∈ placed ->
  enter !! (target, s) = Some (pe_provenance e, pe_changeset e).
Proof.
  intros Hr Hin. unfold enter. rewrite Hr.
  by apply (foldl_insert_in (fun se : Z * PendingEntry => (target, se.1))
    (fun se => (pe_provenance se.2, pe_changeset se.2)) _ _ (s, e) placed_ids).
Qed.

Lemma enter_old id x : L !! id = Some x -> enter !! id = Some x.
Proof.
  intros H. unfold enter. destruct (is_real_writer target) eqn:Hr; [|done].
  rewrite (foldl_insert_notin (fun se : Z * PendingEntry => (target, se.1))
    (fun se => (pe_provenance se.2, pe_changeset se.2))); [done|].
  intros ([s e] & -> & Hin)%list_elem_of_fmap. simpl in *. by rewrite (pl_new Hp Hr s e Hin) in H.
Qed.

Lemma placed_row id s row :
  t_pending placed_tables !! (id, s) = Some row ->
  (exists e, (s, e) ∈ placed /\ id = writer_id target /\ row = row_of_entry e) \/
  (t_pending (db c) !! (id, s) = Some row).
Proof.
  intros H. apply (foldl_insert_inv (fun se : Z * PendingEntry => (writer_id target, se.1))
    (fun se => row_of_entry se.2)) in H; [|apply placed_keys].
  destruct H as [([s' e] & Hin & [= -> ->] & ->)|[_ H]]; [left; by exists e|by right].
Qed.

Lemma placed_row_in s e :
  (s, e) ∈ placed -> t_pending placed_tables !! (writer_id target, s) = Some (row_of_entry e).
Proof.
  apply (foldl_insert_in (fun se : Z * PendingEntry => (writer_id target, se.1))
    (fun se => row_of_entry se.2) _ _ (s, e) placed_keys).
Qed.

Lemma table_next n h : t_writers (db c) !! writer_id target = Some (n, h) -> n <= wq_next standing.
Proof.
  intros H. destruct (mo_sub _ _ _ _ _ (so_memory _ _ _ Hs) target (n, h) (pl_ok Hp) H) as [q' E].
  unfold standing. rewrite E. by apply (mo_queue _ _ _ _ _ (so_memory _ _ _ Hs) _ _ E) in H.
Qed.

Lemma placed_row_old w s row :
  writer_ok w -> t_pending (db c) !! (writer_id w, s) = Some row ->
  t_pending placed_tables !! (writer_id w, s) = Some row.
Proof.
  intros Hw H. unfold placed_tables. cbn [t_pending set_writers set_pending].
  rewrite (foldl_insert_notin (fun se : Z * PendingEntry => (writer_id target, se.1))
    (fun se => row_of_entry se.2)); [done|].
  intros ([s' e] & [= E ->] & Hin)%list_elem_of_fmap. apply writer_id_inj in E; [|done|apply Hp]. subst w.
  destruct (ro_rows _ (to_rows _ _ _ _ (so_tables _ _ _ Hs)) _ _ _ H) as (w0 & e0 & n & h & _ & _ & _ & _ & Hst & Hlt).
  apply table_next in Hst. destruct (pl_range Hp _ _ Hin). simpl in *. lia.
Qed.

Lemma ledger_place : ledger_ok enter (issued c).
Proof.
  pose proof queue_next. constructor.
  - intros w s x [(Hr & s' & e & Hin & [= -> ->] & ->)|H']%enter_inv; [|by apply (lo_ids _ _ (so_ledger _ _ _ Hs) _ _ x)].
    split_and!; [apply Hp|done| |].
    + destruct (pl_range Hp _ _ Hin), (pl_next Hp). unfold in_i64. lia.
    + intros n E. destruct (pl_number Hp n E) as [->|]; [|done]. by rewrite E in Hr.
  - intros id p cs [(Hr & s & e & Hin & -> & [= E ->])|H']%enter_inv.
    + apply enter_old. by eapply (pl_claims Hp).
    + apply enter_old. by eapply (lo_prov _ _ (so_ledger _ _ _ Hs)).
Qed.

Lemma rows_place : rows_ok placed_tables.
Proof.
  pose proof queue_next as [Hq _]. pose proof (pl_next Hp) as Hn. constructor.
  - intros id s row [(e & Hin & -> & ->)|H]%placed_row.
    + destruct (pl_range Hp _ _ Hin) as [Hr He]. exists target, e, next, head.
      split_and!; [apply Hp|done|done|done|by simpl; rewrite lookup_insert_eq|lia|lia].
    + destruct (ro_rows _ (to_rows _ _ _ _ (so_tables _ _ _ Hs)) _ _ _ H) as (w & e & n & h & Hw & -> & -> & He & Hst & Hlt).
      destruct (decide (w = target)) as [->|Hne].
      * pose proof (table_next _ _ Hst). exists target, e, next, head.
        split_and!; [done..|by simpl; rewrite lookup_insert_eq|lia|lia].
      * exists w, e, n, h. split_and!; [done..| |lia|lia]. simpl. rewrite lookup_insert_ne; [done|].
        intros E. apply Hne. symmetry. apply writer_id_inj; [apply Hp|done|done].
  - intros id n h H. simpl in H. apply lookup_insert_Some in H as [[<- [= <- <-]]|[_ H]].
    + exists target. split_and!; [apply Hp|done|apply Hp|lia|lia].
    + by apply (ro_states _ (to_rows _ _ _ _ (so_tables _ _ _ Hs))).
Qed.

Lemma tables_place : tables_ok enter (retired_keys c) (issued c) placed_tables.
Proof.
  pose proof queue_next as [Hq _]. pose proof (pl_next Hp) as Hn.
  pose proof (so_tables _ _ _ Hs) as [Hrows Hknown Htaken Hdev Hnum Hret Hkeys Hcert].
  constructor; try done.
  - apply rows_place.
  - intros w s e Hw He [(e' & Hin & E & Er)|H]%placed_row.
    + apply writer_id_inj in E; [|done|apply Hp]. subst w.
      apply row_of_entry_inj in Er; [|done|by apply (pl_range Hp) in Hin as [_ ?]]. subst e'.
      unfold known. destruct (is_real_writer target) eqn:Hr; [by apply enter_new|].
      intros p Hpr. apply enter_old. by eapply (pl_claims Hp).
    + specialize (Hknown _ _ _ Hw He H). unfold known in *. destruct (is_real_writer w).
      * by apply enter_old.
      * intros p Hpr. by apply enter_old, Hknown.
  - intros w s x n h Hx Hl Hst. simpl in Hst.
    apply enter_inv in Hx as [(Hr & s' & e & Hin & [= -> ->] & ->)|Hx].
    + rewrite lookup_insert_eq in Hst. simplify_eq. by apply (pl_range Hp) in Hin as [[] _].
    + destruct (lo_ids _ _ (so_ledger _ _ _ Hs) _ _ _ Hx) as (Hw & Hr & _).
      apply lookup_insert_Some in Hst as [[E [= <- <-]]|[_ Hst]]; [|by eapply Htaken].
      apply writer_id_inj in E; [|apply Hp|done]. subst w.
      pose proof (pl_free Hp Hr Hl _ _ Hx). lia.
  - intros k s x Hx. apply enter_inv in Hx as [(Hr & s' & e & Hin & [= E1 E2] & ->)|Hx].
    + right. rewrite E1. simpl. rewrite lookup_insert_eq. by eexists.
    + destruct (Hdev _ _ _ Hx) as [|[st Hst]]; [by left|right]. simpl.
      destruct (decide (writer_id target = writer_id (Device k))) as [->|].
      * rewrite lookup_insert_eq. by eexists.
      * rewrite lookup_insert_ne by done. by eexists.
  - intros n st Hn' Hst. simpl in Hst. apply lookup_insert_Some in Hst as [[E _]|[_ Hst]]; [|by eapply Hnum].
    apply writer_id_inj in E; [|apply Hp|done]. by apply (pl_number Hp).
Qed.

Lemma memory_place :
  memory_ok enter (retired_keys c) (issued c) placed_tables (<[target := placed_queue]> (writers c)).
Proof.
  pose proof queue_next as [Hq _]. pose proof (pl_next Hp) as Hn.
  pose proof (so_memory _ _ _ Hs) as [Hqueue Hpend Htaken Hsub Hnum]. constructor.
  - intros w q' [[<- <-]|[Hne Hw]]%lookup_insert_Some.
    + split_and!; [apply Hp|simpl; lia|apply Hp|]. intros n h Hst. simpl in Hst.
      rewrite lookup_insert_eq in Hst. simplify_eq. simpl. lia.
    + destruct (Hqueue _ _ Hw) as (Hok & Hn1 & Hl & Hst). split_and!; [done..|]. intros n h H.
      simpl in H. rewrite lookup_insert_ne in H; [by apply Hst in H|].
      intros E. apply Hne. apply writer_id_inj; [apply Hp|done|done].
  - intros w q' s e [[<- <-]|[Hne Hw]]%lookup_insert_Some He.
    + simpl in He. apply (foldl_insert_inv fst snd) in He; [|apply Hp].
      destruct He as [([s' e'] & Hin & -> & ->)|[Hns He]].
      * split; [by apply placed_row_in|by apply (pl_range Hp) in Hin as [_ ?]].
      * unfold standing in He. destruct (writers c !! target) as [q0|] eqn:E; [|by simpl in He; rewrite lookup_empty in He].
        destruct (Hpend _ _ _ _ E He) as [Hrow Hok]. split; [|done]. apply placed_row_old; [apply Hp|done].
    + destruct (Hpend _ _ _ _ Hw He) as [Hrow Hok]. split; [|done].
      apply placed_row_old; [|done]. by apply (Hqueue _ _ Hw).
  - intros w s x q' Hx Hl [[<- <-]|[Hne Hw]]%lookup_insert_Some.
    + simpl. apply enter_inv in Hx as [(Hr & s' & e & Hin & [= ->] & ->)|Hx].
      * by apply (pl_range Hp) in Hin as [[] _].
      * destruct (lo_ids _ _ (so_ledger _ _ _ Hs) _ _ _ Hx) as (_ & Hr & _).
        pose proof (pl_free Hp Hr Hl _ _ Hx). lia.
    + apply enter_inv in Hx as [(Hr & s' & e & Hin & [= E1 E2] & ->)|Hx]; [by subst|by eapply Htaken].
  - intros w st Hw Hst. simpl in Hst. destruct (decide (w = target)) as [->|Hne].
    + rewrite lookup_insert_eq. by eexists.
    + rewrite lookup_insert_ne by done. apply lookup_insert_Some in Hst as [[E _]|[_ Hst]]; [|by eapply Hsub].
      apply writer_id_inj in E; [by subst|apply Hp|done].
  - intros n q' [[E _]|[_ Hw]]%lookup_insert_Some; [by apply (pl_number Hp)|by eapply Hnum].
Qed.

Lemma standing_seq s e : wq_pending standing !! s = Some e -> s < wq_next standing.
Proof.
  unfold standing. destruct (writers c !! target) as [q|] eqn:E; simpl; [|by rewrite lookup_empty].
  intros He. destruct (mo_pending _ _ _ _ _ (so_memory _ _ _ Hs) _ _ _ _ E He) as [Hrow _].
  destruct (ro_rows _ (to_rows _ _ _ _ (so_tables _ _ _ Hs)) _ _ _ Hrow) as (w0 & e0 & n & h & _ & _ & _ & _ & Hst & Hlt).
  apply table_next in Hst. unfold standing in Hst. rewrite E in Hst. simpl in Hst. lia.
Qed.

Lemma placed_keep s e : wq_pending standing !! s = Some e -> wq_pending placed_queue !! s = Some e.
Proof.
  intros He. simpl. rewrite (foldl_insert_notin fst snd); [done|].
  intros ([s' e'] & -> & Hin)%list_elem_of_fmap. apply standing_seq in He.
  apply (pl_range Hp) in Hin as [[] _]. simpl in *. lia.
Qed.

Lemma queued_place x : queued (writers c) x -> queued (<[target := placed_queue]> (writers c)) x.
Proof.
  intros (w & q & s & e & Hq & He & ->). destruct (decide (w = target)) as [->|Hne].
  - exists target, placed_queue, s, e. split_and!; [by rewrite lookup_insert_eq| |done].
    apply placed_keep. unfold standing. by rewrite Hq.
  - exists w, q, s, e. by rewrite lookup_insert_ne.
Qed.

Lemma sound_place : sound enter S placed_client.
Proof.
  pose proof Hs as []. constructor; simpl; try done.
  - apply ledger_place.
  - apply tables_place.
  - apply memory_place.
  - eapply Forall_impl; [done|]. simpl. intros u Hu. by apply enter_old.
  - intros x Hx. by apply queued_place, so_held0.
Qed.

Lemma mirrors_place : mirrors c -> mirrors placed_client.
Proof.
  intros H2 w s row Hw H. assert (Hcases := placed_row (writer_id w) s row H). cbn.
  destruct Hcases as [(e & Hin & E & ->)|Hold].
  - apply writer_id_inj in E; [|done|apply Hp]. subst w. exists placed_queue, e.
    split; [by rewrite lookup_insert_eq|]. simpl.
    by apply (foldl_insert_in fst snd _ _ (s, e) (pl_seqs Hp)).
  - destruct (H2 _ _ _ Hw Hold) as (q' & e & Hq' & He). destruct (decide (w = target)) as [->|Hne].
    + exists placed_queue, e. rewrite lookup_insert_eq. split; [done|]. apply placed_keep. unfold standing. by rewrite Hq'.
    + exists q', e. by rewrite lookup_insert_ne.
Qed.
End Place.

(** ** Dropping writers *)

Section Drop.
Context {CH : Changes}.

Definition device_key (w : WriterRef) : gset bytes := match w with Device k => {[k]} | Number _ => ∅ end.

Definition dropped_tables (w : WriterRef) (t : Tables) : Tables :=
  {| t_writers := delete (writer_id w) (t_writers t);
     t_pending := filter (fun kr => kr.1.1 <> writer_id w) (t_pending t);
     t_retire := t_retire t; t_retired_keys := device_key w ∪ t_retired_keys t;
     t_certificate := t_certificate t |}.

Definition dropped_client (c : Client) (w : WriterRef) : Client :=
  stored (dropped_tables w (db c)) (delete w (writers c)) (device_key w ∪ retired_keys c) c.

Context (L : Ledger) (S : Z * bytes -> Prop) (c : Client) (w : WriterRef).
Context (Hs : sound L S c) (Hw : writer_ok w).

Lemma dropped_row id s row :
  t_pending (dropped_tables w (db c)) !! (id, s) = Some row <->
  t_pending (db c) !! (id, s) = Some row /\ id <> writer_id w.
Proof. simpl. rewrite map_lookup_filter_Some. done. Qed.

Lemma dropped_state id st :
  t_writers (dropped_tables w (db c)) !! id = Some st <-> writer_id w <> id /\ t_writers (db c) !! id = Some st.
Proof. simpl. rewrite lookup_delete_Some. done. Qed.

Lemma live_drop v : live (device_key w ∪ retired_keys c) v -> live (retired_keys c) v.
Proof. destruct v; [simpl; set_solver|done]. Qed.

Lemma tables_drop : tables_ok L (device_key w ∪ retired_keys c) (issued c) (dropped_tables w (db c)).
Proof.
  pose proof (so_tables _ _ _ Hs) as [Hrows Hknown Htaken Hdev Hnum Hret Hkeys Hcert]. constructor; try done.
  - constructor.
    + intros id s row [H Hne]%dropped_row.
      destruct (ro_rows _ Hrows _ _ _ H) as (v & e & n & h & Hv & -> & -> & He & Hst & Hlt).
      exists v, e, n, h. split_and!; [done..| |lia|lia]. simpl. by rewrite lookup_delete_ne.
    + intros id n h [_ H]%dropped_state. by apply (ro_states _ Hrows).
  - intros v s e Hv He [H _]%dropped_row. by apply Hknown.
  - intros v s x n h Hx Hl%live_drop [_ H]%dropped_state. by eapply Htaken.
  - intros k s x Hx. simpl. destruct (decide (w = Device k)) as [->|Hne]; [left; set_solver|].
    destruct (Hdev _ _ _ Hx) as [|[st Hst]]; [left; set_solver|right].
    destruct (lo_ids _ _ (so_ledger _ _ _ Hs) _ _ _ Hx) as (Hk & _).
    rewrite lookup_delete_ne; [by eexists|]. intros E. apply Hne. by apply writer_id_inj.
  - intros n st Hn [_ H]%dropped_state. by eapply Hnum.
  - simpl. by rewrite Hret.
  - intros k [Hk|Hk]%elem_of_union; [|by apply Hkeys]. destruct w; [|set_solver].
    simpl in Hk. apply elem_of_singleton in Hk. subst. by destruct Hw.
Qed.

Lemma memory_drop :
  memory_ok L (device_key w ∪ retired_keys c) (issued c) (dropped_tables w (db c)) (delete w (writers c)).
Proof.
  pose proof (so_memory _ _ _ Hs) as [Hqueue Hpend Htaken Hsub Hnum]. constructor.
  - intros v q [Hne Hv]%lookup_delete_Some. destruct (Hqueue _ _ Hv) as (Hok & Hn1 & Hl & Hst).
    split_and!; [done..|]. intros n h [_ H]%dropped_state. by eapply Hst.
  - intros v q s e [Hne Hv]%lookup_delete_Some He. destruct (Hpend _ _ _ _ Hv He) as [Hrow Hok].
    split; [|done]. apply dropped_row. split; [done|]. intros E. apply Hne.
    symmetry. apply writer_id_inj; [by apply (Hqueue _ _ Hv)|done|done].
  - intros v s x q Hx Hl%live_drop [_ Hv]%lookup_delete_Some. by eapply Htaken.
  - intros v st Hv [Hne H]%dropped_state. rewrite lookup_delete_ne; [by eapply Hsub|].
    by intros ->.
  - intros n q [_ H]%lookup_delete_Some. by eapply Hnum.
Qed.

Lemma sound_drop :
  (forall x, S x -> queued (delete w (writers c)) x) -> sound L S (dropped_client c w).
Proof.
  intros Hheld. pose proof Hs as []. constructor; simpl; try done; [apply tables_drop|apply memory_drop].
Qed.

Lemma mirrors_drop : mirrors c -> mirrors (dropped_client c w).
Proof.
  intros H2 v s row Hv [H Hne]%dropped_row. destruct (H2 _ _ _ Hv H) as (q & e & Hq & He).
  exists q, e. split; [|done]. cbn. rewrite lookup_delete_ne; [done|]. by intros ->.
Qed.
End Drop.

(** Several at once. *)
Section DropAll.
Context {CH : Changes}.

Definition drop_all (c : Client) (dead : list WriterRef) : Client := foldl dropped_client c dead.

Lemma queued_delete_all dead ws x :
  queued (foldl (fun ws w => delete w ws) ws dead) x <->
  exists w q s e, w ∉ dead /\ ws !! w = Some q /\ wq_pending q !! s = Some e /\
    x = (pe_position e, pe_changeset e).
Proof.
  assert (Hl : forall w q, foldl (fun ws w => delete w ws) ws dead !! w = Some q <-> w ∉ dead /\ ws !! w = Some q).
  { revert ws. induction dead as [|v dead IH]; intros ws w q; cbn [foldl]; [set_solver|].
    rewrite IH, lookup_delete_Some, not_elem_of_cons. naive_solver. }
  unfold queued. setoid_rewrite Hl. naive_solver.
Qed.

Lemma ok_drop_all b S c dead :
  Forall writer_ok dead -> ok b S c ->
  (forall x, S x -> queued (foldl (fun ws w => delete w ws) (writers c) dead) x) ->
  ok b S (drop_all c dead).
Proof.
  intros Hd. revert c. induction Hd as [|w dead Hw Hd IH]; intros c Hok Hheld; [done|].
  cbn [drop_all foldl]. apply IH; [|done]. destruct Hok as (L & Hs & Hm). exists L. split.
  - apply sound_drop; [done..|]. intros x Hx. apply Hheld in Hx. cbn [foldl] in Hx.
    apply queued_delete_all in Hx as (v & q & s & e & _ & Hq & He & ->). by exists v, q, s, e.
  - intros Hb. apply mirrors_drop; [done|by apply Hm].
Qed.

Lemma drop_all_fields c dead :
  drop_all c dead =
  stored (foldl (fun t w => dropped_tables w t) (db c) dead)
    (foldl (fun ws w => delete w ws) (writers c) dead)
    (list_to_set (device_keys_of dead) ∪ retired_keys c) c.
Proof.
  revert c. induction dead as [|w dead IH]; intros c; cbn [drop_all foldl].
  - cbn [device_keys_of omap list_omap list_to_set]. by rewrite union_empty_l_L, stored_id.
  - fold (drop_all (dropped_client c w) dead). rewrite IH. unfold dropped_client.
    rewrite stored_twice. f_equal. cbn. destruct w as [k|n]; cbn; [|by rewrite union_empty_l_L].
    by rewrite (comm_L (∪) {[k]} (list_to_set _)), (assoc_L (∪)).
Qed.
End DropAll.
