(* ===== verification/Carry.v ===== *)
(** Queueing a write and carrying queues between writers keep the invariant of
    the client's tables and queues. *)

From Stdlib Require Import ZArith Lia.
From stdpp Require Import base numbers option list sorting gmap strings.
From S2P Require Import Prelude Wire Chain Backoff Cursor Pending ClientState ClientWriter Reopen Ledger.

Open Scope Z_scope.

(** ** Statements that went through *)

Lemma client_seq_storage_ok z y : client_seq_storage z = Ok y -> y = z /\ in_i64 z.
Proof.
  unfold client_seq_storage, ok_or. destruct (try_into i64_max z) eqn:E; [|done].
  intros [= <-]. apply try_into_Some in E as [-> H]. done.
Qed.

Lemma persist_state_ok w next head t t' :
  persist_writer_state w next head t = Ok t' ->
  in_i64 next /\ t' = set_writers (<[writer_id w := (next, head)]> (t_writers t)) t.
Proof.
  unfold persist_writer_state. destruct (client_seq_storage next) eqn:E; [|done]. simpl. intros [= <-].
  apply client_seq_storage_ok in E as [-> H]. done.
Qed.

Lemma persist_pending_ok w s e t t' :
  persist_pending w s (pe_changeset e) (pe_hash e) (pe_provenance e) (pe_position e) t = Ok t' ->
  in_i64 s /\ in_i64 (pe_position e) /\
  t' = set_pending (<[(writer_id w, s) := row_of_entry e]> (t_pending t)) t.
Proof.
  unfold persist_pending. intros H.
  destruct (match pe_provenance e with Some p => _ | None => _ end) as [[pw ps]|] eqn:Ep; [|done].
  simpl in H. destruct (client_seq_storage s) eqn:Es; [|done].
  simpl in H. destruct (client_seq_storage (pe_position e)) eqn:Eq; [|done]. simpl in H. injection H as <-.
  apply client_seq_storage_ok in Es as [-> Hs], Eq as [-> Hq]. split_and!; [done..|].
  unfold row_of_entry. do 3 f_equal; destruct (pe_provenance e) as [p|]; simpl in *; try congruence;
    destruct (client_seq_storage (pv_seq p)) eqn:E; simpl in Ep; simplify_eq; [done|].
  by apply client_seq_storage_ok in E as [-> _].
Qed.

Lemma delete_pending_ok w s t t' :
  delete_pending w s t = Ok t' -> in_i64 s /\ t' = set_pending (delete (writer_id w, s) (t_pending t)) t.
Proof.
  unfold delete_pending. destruct (client_seq_storage s) eqn:E; [|done]. simpl. intros [= <-].
  apply client_seq_storage_ok in E as [-> H]. done.
Qed.

(** ** Writers that new entries may be queued under *)

Section Hosts.
Context {CH : Changes}.

Definition hosts (c : Client) (w : WriterRef) : Prop :=
  writer_ok w /\ live (retired_keys c) w /\
  (is_Some (writers c !! w) \/ w = unissued \/ is_device w = true).

Lemma host_taken L S c w s x :
  sound L S c -> hosts c w -> L !! (w, s) = Some x -> s < wq_next (standing c w).
Proof.
  intros Hs (Hok & Hl & Hin) Hx. unfold standing. destruct (writers c !! w) as [q|] eqn:E; simpl.
  - by eapply (mo_taken _ _ _ _ _ (so_memory _ _ _ Hs)).
  - destruct (lo_ids _ _ (so_ledger _ _ _ Hs) _ _ _ Hx) as (_ & Hr & _).
    destruct Hin as [[q Hq]|[->|Hd]]; [done|done|]. destruct w as [k|]; [|done].
    destruct (to_devices _ _ _ _ (so_tables _ _ _ Hs) _ _ _ Hx) as [Hk|[st Hst]]; [by apply Hl in Hk|].
    destruct (mo_sub _ _ _ _ _ (so_memory _ _ _ Hs) _ _ Hok Hst) as [q Hq]. congruence.
Qed.

Lemma host_number L S c n : sound L S c -> hosts c (Number n) -> n = 0 \/ n ∈ issued c.
Proof.
  intros Hs (_ & _ & [[q Hq]|[[= ->]|Hd]]); [|by left|done].
  by eapply (mo_numbers _ _ _ _ _ (so_memory _ _ _ Hs)).
Qed.

(** Entries at or past a host's next sequence may be placed under it. *)
Lemma host_placeable L S c w placed next head :
  sound L S c -> hosts c w ->
  wq_next (standing c w) <= next <= i64_max -> length head = 32%nat -> NoDup placed.*1 ->
  (forall s e, (s, e) ∈ placed -> wq_next (standing c w) <= s < next /\ entry_ok e) ->
  (forall s e p, (s, e) ∈ placed -> pe_provenance e = Some p ->
     L !! (pv_writer p, pv_seq p) = Some (None, pe_changeset e)) ->
  placeable L c w placed next head.
Proof.
  intros Hs Hh Hn Hl Hnd Hr Hc. constructor; try done.
  - by destruct Hh.
  - intros _ _ s x. by apply (host_taken L S).
  - intros _ s e Hin. destruct (L !! (w, s)) as [x|] eqn:E; [|done].
    apply (host_taken L S c) in E; [|done..]. apply Hr in Hin. lia.
  - intros n ->. by eapply host_number.
Qed.

Lemma ok_place b S c w placed next head :
  ok b S c -> (forall L, sound L S c -> placeable L c w placed next head) ->
  ok b S (placed_client c w placed next head).
Proof.
  intros (L & Hs & Hm) Hp. specialize (Hp L Hs). exists (enter L w placed). split; [by apply sound_place|].
  intros Hb. eapply mirrors_place; [done..|by apply Hm].
Qed.
End Hosts.

(** ** Appending *)

Section Append.
Context {SHA : Sha256} {CH : Changes}.

Lemma sound_position L S c p : 0 <= p -> sound L S c -> sound L S (with_next_position p c).
Proof. intros Hp []. by constructor. Qed.

Lemma ok_position b S c p : 0 <= p -> ok b S c -> ok b S (with_next_position p c).
Proof. intros Hp (L & Hs & Hm). exists L. split; [by apply sound_position|done]. Qed.

(** An append changes nothing, or places the write at the writer's next sequence. *)
Lemma append_cases w cs c :
  (exists e c', append_entry w cs None c = (Err e, c') /\ same c c') \/
  exists l hash, let seq := wq_next (standing c w) in
    let e := {| pe_changeset := cs; pe_hash := hash; pe_position := next_position c; pe_provenance := None |} in
    length hash = 32%nat /\ in_i64 (seq + 1) /\ in_i64 (next_position c) /\
    append_entry w cs None c =
      (Ok seq, with_next_position (next_position c + 1)
                 (placed_client (with_faults l c) w [(seq, e)] (seq + 1) hash)).
Proof.
  destruct (append_entry w cs None c) as [r c'] eqn:E. unfold append_entry in E.
  unfold bind at 1 in E. cbn [get] in E. fold (standing c w) in E. unfold bind at 1, lift at 1 in E.
  destruct (logical cs) as [upload|]; cbn [ok_or] in E; [|simplify_eq; left; by exists EApply, c'].
  set (hash := entry_hash (wq_head (standing c w)) (wq_next (standing c w)) upload) in *.
  set (e := {| pe_changeset := cs; pe_hash := hash; pe_position := next_position c; pe_provenance := None |}) in *.
  apply bind_inv in E as [(x & E & ->)|(u & c1 & E & Ek)];
    destruct (statement_inv _ _ _ _ E) as (l & [(y & Ey & ->)|(t & Ht & Ey & ->)]); simplify_eq.
  { left. by exists y, (with_faults l c). }
  right. exists l, hash. cbn in Ht.
  destruct (persist_writer_state w _ hash (db c)) as [t1|] eqn:E1; [|done].
  apply persist_state_ok in E1 as [Hn ->].
  destruct (persist_pending_ok w _ e _ _ Ht) as (Hs & Hp & Et).
  split_and!; [apply entry_hash_length|done|done|]. rewrite Et in Ek. cbn in Ek. simplify_eq. by destruct c.
Qed.

Lemma append_ok b S c w cs :
  ok b S c -> hosts c w ->
  let r := append_entry w cs None c in
  ok b S r.2 /\
  match r.1 with
  | Ok seq => seq = wq_next (standing c w) /\ bound_writer r.2 = bound_writer c /\
      exists q e, writers r.2 !! w = Some q /\ wq_pending q !! seq = Some e /\
        pe_changeset e = cs /\ pe_provenance e = None
  | Err _ => True
  end.
Proof.
  intros Hok Hh. destruct (append_cases w cs c) as [(e & c' & -> & Hsm)|(l & hash & Hl & Hn & Hp & ->)].
  { split; [by eapply ok_same|done]. }
  cbn [fst snd]. set (e := {| pe_changeset := cs |}). split; [|split; [done|split; [done|]]].
  - assert (Hpos : 0 <= next_position c) by (destruct Hok as (L & Hs & _); apply Hs).
    apply ok_position; [lia|]. apply ok_place; [by eapply ok_same, Hok; apply same_faults|].
    change (standing c w) with (standing (with_faults l c) w) in *.
    intros L Hs. apply (host_placeable L S); [done|done|unfold in_i64 in Hn; lia|done| | |].
    + apply NoDup_singleton.
    + intros s e' [= -> ->]%list_elem_of_singleton. split; [lia|].
      by split_and!.
    + by intros s e' p [= -> ->]%list_elem_of_singleton.
  - eexists _, e. split; [cbn; by rewrite lookup_insert_eq|]. split; [cbn; by rewrite lookup_insert_eq|done].
Qed.
End Append.

(** ** Carrying *)

Section Carry.
Context {SHA : Sha256} {CH : Changes}.

Lemma elem_of_in_order {A} (m : gmap Z A) s a : (s, a) ∈ in_order m <-> m !! s = Some a.
Proof. unfold in_order. by rewrite merge_sort_Permutation, elem_of_map_to_list. Qed.

Lemma elem_of_carry_plan dead ws w s e :
  (w, s, e) ∈ carry_plan dead ws <-> w ∈ dead /\ exists q, ws !! w = Some q /\ wq_pending q !! s = Some e.
Proof.
  unfold carry_plan. rewrite merge_sort_Permutation, list_elem_of_bind. split.
  - intros (v & Hv & Hin). destruct (ws !! v) as [q|] eqn:E; [|by apply not_elem_of_nil in Hv].
    apply list_elem_of_fmap in Hv as ([s' e'] & [= -> -> ->] & Hse). split; [done|]. exists q.
    split; [done|]. by apply elem_of_in_order.
  - intros (Hw & q & Hq & He). exists w. split; [|done]. rewrite Hq. apply list_elem_of_fmap.
    exists (s, e). split; [done|]. by apply elem_of_in_order.
Qed.

Definition of_carried (e : CarriedEntry) : WriterRef * Z * PendingEntry := (ce_source e, ce_original e, ce_entry e).

Definition carried_entry (e : CarriedEntry) : PendingEntry :=
  {| pe_changeset := pe_changeset (ce_entry e); pe_hash := ce_hash e;
     pe_position := pe_position (ce_entry e); pe_provenance := carried_provenance e |}.

Definition carried_placed (l : list CarriedEntry) : list (Z * PendingEntry) :=
  (fun e => (ce_seq e, carried_entry e)) <$> l.

(** The carried entries take consecutive sequences from the target's next. *)
Lemma carry_place_spec plan next head l n h :
  length head = 32%nat -> carry_place next head plan = Ok (l, n, h) ->
  of_carried <$> l = plan /\ n = next + Z.of_nat (length plan) /\ length h = 32%nat /\
  NoDup (ce_seq <$> l) /\
  forall e, e ∈ l -> next <= ce_seq e < n /\ length (ce_hash e) = 32%nat.
Proof.
  revert next head l n h. induction plan as [|[[w s] e] plan IH]; intros next head l n h Hh E; simpl in E.
  - simplify_eq. split_and!; [done|simpl; lia|done|constructor|]. by intros e He%not_elem_of_nil.
  - destruct (logical (pe_changeset e)) as [up|]; [|done]. simpl in E.
    destruct (carry_place (next + 1) _ plan) as [[[l' n'] h']|] eqn:E'; [|done]. simpl in E. simplify_eq.
    apply IH in E' as (Hl & Hn & Hh' & Hnd & Hr); [|apply entry_hash_length]. split_and!.
    + rewrite fmap_cons. by rewrite Hl.
    + simpl. lia.
    + done.
    + rewrite fmap_cons. apply NoDup_cons. split; [|done].
      intros (x & Hx & Hin)%list_elem_of_fmap. apply Hr in Hin as [? _]. simpl in Hx. lia.
    + intros x [->|Hx]%elem_of_cons; simpl; [|destruct (Hr _ Hx); split; [lia|done]].
      split; [simpl in *; lia|apply entry_hash_length].
Qed.

Lemma try_fold_pending target plan t t' :
  try_fold (fun e t => persist_pending target (ce_seq e) (pe_changeset (ce_entry e)) (ce_hash e)
    (carried_provenance e) (pe_position (ce_entry e)) t) plan t = Ok t' ->
  t' = set_pending (foldl (fun m se => <[(writer_id target, se.1) := row_of_entry se.2]> m)
         (t_pending t) (carried_placed plan)) t.
Proof.
  revert t. induction plan as [|e plan IH]; intros t E; cbn [try_fold] in E; [simplify_eq; by destruct t'|].
  destruct (persist_pending target _ _ _ _ _ t) as [t1|] eqn:E1; [|done]. cbn [rbind] in E.
  destruct (persist_pending_ok target (ce_seq e) (carried_entry e) _ _ E1) as (_ & _ & ->). by apply IH in E.
Qed.

Lemma try_fold_drop dead t :
  try_fold (fun w t => t <-? (match w with Device key => persist_retired_key key t | Number _ => Ok t end);;
    drop_writer_state w t) dead t = Ok (foldl (fun t w => dropped_tables w t) t dead).
Proof.
  revert t. induction dead as [|w dead IH]; intros t; [done|]. cbn [try_fold foldl]. rewrite <- IH.
  destruct w as [k|n]; cbn; [done|]. unfold dropped_tables. cbn. by rewrite union_empty_l_L.
Qed.

(** The client after the carried entries took their places. *)
Definition carried_client (c : Client) (target : WriterRef) (plan : list CarriedEntry) (next : Z)
    (head : bytes) : Client :=
  match plan with [] => c | _ => placed_client c target (carried_placed plan) next head end.

Lemma carried_pending (q : WriterQueue) plan next head :
  wq_pending (carried_queue q plan next head) =
  foldl (fun m se => <[se.1 := se.2]> m) (wq_pending q) (carried_placed plan).
Proof.
  cbn [wq_pending carried_queue]. generalize (wq_pending q). unfold carried_placed.
  induction plan as [|e plan IH]; intros m; [done|]. cbn. apply IH.
Qed.

(** A carry changes nothing, or places the tails and drops the dead writers. *)
Lemma carry_cases dead target c :
  let q := standing c target in
  (exists e c', carry_writers dead target c = (Err e, c') /\ same c c') \/
  exists l plan next head,
    carry_place (wq_next q) (wq_head q) (carry_plan dead (writers c)) = Ok (plan, next, head) /\
    (plan <> [] -> in_i64 next) /\
    carry_writers dead target c =
      (Ok tt, drop_all (carried_client (with_faults l c) target plan next head) dead).
Proof.
  intros q. destruct (carry_writers dead target c) as [r c'] eqn:E. unfold carry_writers in E.
  unfold bind at 1 in E. cbn [get] in E. fold (standing c target) in E. fold q in E. unfold bind at 1, lift at 1 in E.
  destruct (carry_place _ _ _) as [[[plan next] head]|x] eqn:Ep; [|simplify_eq; left; by exists x, c'].
  apply bind_inv in E as [(x & E & ->)|(u & c1 & E & Ek)];
    destruct (statement_inv _ _ _ _ E) as (l & [(y & Ey & ->)|(t & Ht & Ey & ->)]); simplify_eq.
  { left. by exists y, (with_faults l c). }
  right. exists l, plan, next, head. split; [done|]. unfold carry_tables in Ht. cbn [fst snd] in Ht.
  destruct (try_fold _ plan (db c)) as [t1|] eqn:E1; [|done]. cbn [rbind] in Ht.
  apply try_fold_pending in E1. destruct plan as [|e plan].
  - split; [done|]. cbn [rbind] in Ht. rewrite try_fold_drop in Ht. injection Ht as <-. subst t1.
    cbn in Ek. simplify_eq. unfold carried_client. rewrite drop_all_fields. by destruct c as [[] ? ? ? ?].
  - destruct (persist_writer_state target next head t1) as [t2|] eqn:E2; [|done]. cbn [rbind] in Ht.
    apply persist_state_ok in E2 as [Hn ->]. split; [done|].
    rewrite try_fold_drop in Ht. injection Ht as <-. subst t1. simplify_eq.
    unfold carried_client, placed_client. rewrite drop_all_fields, stored_twice.
    unfold modify in Ek. injection Ek as <- <-. unfold placed_queue. rewrite <- (carried_pending _ _ next head).
    by destruct c.
Qed.

(** What an entry in memory claims, the ledger holds. *)
Lemma entry_known L S c w q s e :
  sound L S c -> writers c !! w = Some q -> wq_pending q !! s = Some e ->
  writer_ok w /\ entry_ok e /\ 0 < s < wq_next q /\ in_i64 s /\ known L w s e.
Proof.
  intros Hs Hq He. destruct (mo_queue _ _ _ _ _ (so_memory _ _ _ Hs) _ _ Hq) as (Hw & _ & _ & Hnx).
  destruct (mo_pending _ _ _ _ _ (so_memory _ _ _ Hs) _ _ _ _ Hq He) as [Hrow Hok].
  destruct (ro_rows _ (to_rows _ _ _ _ (so_tables _ _ _ Hs)) _ _ _ Hrow) as (w0 & e0 & n & h & _ & _ & _ & _ & Hst & Hlt).
  destruct (ro_states _ (to_rows _ _ _ _ (so_tables _ _ _ Hs)) _ _ _ Hst) as (_ & _ & _ & _ & Hn).
  apply Hnx in Hst. split_and!; [done|done|lia|lia|unfold in_i64; lia..|]. by apply (to_known _ _ _ _ (so_tables _ _ _ Hs)).
Qed.

(** A carried entry names what it was first queued as. *)
Lemma carried_claim L S c e q p :
  sound L S c -> writers c !! ce_source e = Some q -> wq_pending q !! ce_original e = Some (ce_entry e) ->
  carried_provenance e = Some p ->
  provenance_ok p /\ L !! (pv_writer p, pv_seq p) = Some (None, pe_changeset (ce_entry e)).
Proof.
  intros Hs Hq He Hp. destruct (entry_known _ _ _ _ _ _ _ Hs Hq He) as (Hw & (_ & _ & Hok) & _ & Hi & Hk).
  unfold carried_provenance in Hp. unfold known in Hk. destruct (pe_provenance (ce_entry e)) as [p'|] eqn:Ep.
  - simplify_eq. split; [by apply Hok|]. destruct (is_real_writer (ce_source e)); [|by apply Hk].
    by eapply (lo_prov _ _ (so_ledger _ _ _ Hs)).
  - destruct (is_real_writer (ce_source e)); [|done]. simplify_eq. by split.
Qed.

Lemma elem_of_placed s e plan : (s, e) ∈ carried_placed plan <-> exists x, x ∈ plan /\ s = ce_seq x /\ e = carried_entry x.
Proof. unfold carried_placed. rewrite list_elem_of_fmap. naive_solver. Qed.

Lemma carried_placeable S c dead target plan next head :
  hosts c target -> in_i64 next ->
  carry_place (wq_next (standing c target)) (wq_head (standing c target)) (carry_plan dead (writers c)) =
    Ok (plan, next, head) ->
  forall L, sound L S c -> placeable L c target (carried_placed plan) next head.
Proof.
  intros Hh Hi E L Hs. destruct (queue_next L S c target Hs) as [Hn Hl].
  apply carry_place_spec in E as (Hp & -> & Hhd & Hnd & Hr); [|done].
  assert (Hsrc : forall x, x ∈ plan -> exists q, writers c !! ce_source x = Some q /\
    wq_pending q !! ce_original x = Some (ce_entry x)).
  { intros x Hx. apply (list_elem_of_fmap_2 of_carried) in Hx. rewrite Hp in Hx.
    by apply elem_of_carry_plan in Hx as [_ ?]. }
  apply (host_placeable L S); [done|done|unfold in_i64 in Hi; lia|done| | |].
  - unfold carried_placed. rewrite <- list_fmap_compose. done.
  - intros s e (x & Hx & -> & ->)%elem_of_placed. destruct (Hr _ Hx) as [? Hxh]. split; [done|].
    destruct (Hsrc _ Hx) as (q & Hq & He).
    destruct (entry_known _ _ _ _ _ _ _ Hs Hq He) as (_ & (_ & Hpos & _) & _). split_and!; [done|done|].
    intros p Hcp. by destruct (carried_claim _ _ _ _ _ _ Hs Hq He Hcp).
  - intros s e p (x & Hx & -> & ->)%elem_of_placed Hcp. destruct (Hsrc _ Hx) as (q & Hq & He).
    by destruct (carried_claim _ _ _ _ _ _ Hs Hq He Hcp).
Qed.

Lemma carried_queued L S c dead target plan next head x :
  sound L S c -> target ∉ dead -> (plan <> [] -> placeable L c target (carried_placed plan) next head) ->
  of_carried <$> plan = carry_plan dead (writers c) ->
  queued (writers c) x ->
  queued (foldl (fun ws w => delete w ws) (writers (carried_client c target plan next head)) dead) x.
Proof.
  intros Hs Ht Hp Hplan (w & q & s & e & Hq & He & ->). apply queued_delete_all.
  destruct (decide (w ∈ dead)) as [Hd|Hd].
  - assert (Hin : (w, s, e) ∈ carry_plan dead (writers c)) by (apply elem_of_carry_plan; eauto).
    rewrite <- Hplan in Hin. apply list_elem_of_fmap in Hin as (y & [= -> -> ->] & Hy).
    assert (Hne : plan <> []) by (by intros ->; apply not_elem_of_nil in Hy). specialize (Hp Hne).
    exists target, (placed_queue c target (carried_placed plan) next head), (ce_seq y), (carried_entry y).
    split_and!; [done| | |done].
    + unfold carried_client. destruct plan; [done|]. cbn. by rewrite lookup_insert_eq.
    + apply (foldl_insert_in fst snd _ _ (ce_seq y, carried_entry y) (pl_seqs _ _ _ _ _ _ Hp)).
      apply elem_of_placed. by exists y.
  - unfold carried_client. destruct plan as [|y plan]; [by exists w, q, s, e|].
    destruct (decide (w = target)) as [->|Hne].
    + exists target, (placed_queue c target (carried_placed (y :: plan)) next head), s, e.
      split_and!; [done|by cbn; rewrite lookup_insert_eq| |done].
      eapply placed_keep; [done|by apply Hp|]. unfold standing. by rewrite Hq.
    + exists w, q, s, e. split_and!; [done| |done|done]. cbn. by rewrite lookup_insert_ne.
Qed.

Lemma carry_ok b S c dead target :
  ok b S c -> hosts c target -> target ∉ dead -> Forall writer_ok dead ->
  ok b S (carry_writers dead target c).2.
Proof.
  intros Hok Hh Ht Hd.
  destruct (carry_cases dead target c) as [(e & c' & -> & Hsm)|(l & plan & next & head & Hp & Hn & ->)];
    [by eapply ok_same|]. cbn [snd].
  assert (Hok' : ok b S (with_faults l c)) by (by eapply ok_same, Hok; apply same_faults).
  assert (Hpl : plan <> [] -> forall L, sound L S (with_faults l c) ->
    placeable L (with_faults l c) target (carried_placed plan) next head).
  { intros Hne. by eapply (carried_placeable S (with_faults l c)); [|apply Hn|]. }
  apply ok_drop_all; [done| |].
  - unfold carried_client. destruct plan; [done|]. by apply ok_place; [|apply Hpl].
  - destruct Hok' as (L & Hs & _). intros x Hx. destruct (queue_next L S _ target Hs) as [_ Hl].
    apply carry_place_spec in Hp as (Hp & _); [|done].
    apply (carried_queued L S (with_faults l c) dead); [done|done| |done|by apply Hs].
    intros Hne. by apply Hpl.
Qed.
End Carry.
