(* ===== verification/Grant.v ===== *)
(** Taking an issued number, raising a frontier, settling an entry and retiring a
    number keep the invariant of the client's tables and queues. *)

From Stdlib Require Import ZArith Lia.
From stdpp Require Import base numbers option list sorting gmap strings.
From S2P Require Import Prelude Wire Chain Backoff Cursor Pending ClientState ClientWriter Reopen Ledger Carry.

Open Scope Z_scope.

(** ** Rekeying *)

Lemma rekeyed_lookup {K A} `{Countable K} (f : K -> K) (m m' : gmap K A) :
  (forall k k', is_Some (m !! k) -> is_Some (m !! k') -> f k = f k' -> k = k') ->
  rekeyed f m = Ok m' -> forall k v, m' !! k = Some v <-> exists k0, m !! k0 = Some v /\ k = f k0.
Proof.
  intros Hinj E k v. unfold rekeyed in E. case_decide; [|done]. injection E as <-.
  rewrite <- elem_of_list_to_map.
  - rewrite list_elem_of_fmap. setoid_rewrite <- elem_of_map_to_list. split.
    + intros ([k0 v0] & [= -> ->] & Hin). eauto.
    + intros (k0 & Hin & ->). by exists (k0, v).
  - rewrite <- list_fmap_compose. change (NoDup (f ∘ fst <$> map_to_list m)). rewrite list_fmap_compose.
    apply NoDup_fmap_2_strong; [|apply NoDup_fst_map_to_list].
    intros x y Hx Hy. apply list_elem_of_fmap in Hx as ([x' vx] & -> & Hx), Hy as ([y' vy] & -> & Hy).
    apply elem_of_map_to_list in Hx, Hy. apply Hinj; simpl; eauto.
Qed.

Lemma foldl_in_order {A} (m : gmap Z A) : foldl (fun m se => <[se.1 := se.2]> m) ∅ (in_order m) = m.
Proof.
  assert (Hnd : NoDup (in_order m).*1).
  { unfold in_order. rewrite merge_sort_Permutation. apply NoDup_fst_map_to_list. }
  apply map_eq. intros s. apply option_eq. intros a. split.
  - intros H. apply (foldl_insert_inv fst snd) in H; [|done].
    destruct H as [([s' a'] & Hin & -> & ->)|[_ H]]; [by apply elem_of_in_order|by rewrite lookup_empty in H].
  - intros H. by apply (foldl_insert_in fst snd _ _ (s, a) Hnd), elem_of_in_order.
Qed.

Section Issue.
Context {SHA : Sha256} {CH : Changes}.
Context (L : Ledger) (S : Z * bytes -> Prop) (c : Client) (n : Z).
Context (Hs : sound L S c) (Hm : mirrors c).
Context (Hn : in_u64 n) (Hn0 : n <> 0) (Hfresh : n ∉ issued c).
Definition pool : WriterQueue := standing c unissued.

Lemma unissued_ok : writer_ok unissued.
Proof. cbn. unfold in_u64, UNISSUED_NUMBER, u64_max. lia. Qed.

Lemma number_id : writer_id (Number n) <> writer_id unissued.
Proof. intros E. apply writer_id_inj in E; [injection E as E; by apply Hn0|done|apply unissued_ok]. Qed.

Lemma number_absent :
  t_writers (db c) !! writer_id (Number n) = None /\ writers c !! Number n = None /\
  forall s, t_pending (db c) !! (writer_id (Number n), s) = None.
Proof.
  assert (Hst : t_writers (db c) !! writer_id (Number n) = None).
  { destruct (t_writers (db c) !! _) as [st|] eqn:E; [|done].
    by destruct (to_numbers _ _ _ _ (so_tables _ _ _ Hs) _ _ Hn E). }
  split_and!; [done| |].
  - destruct (writers c !! Number n) as [q|] eqn:E; [|done].
    by destruct (mo_numbers _ _ _ _ _ (so_memory _ _ _ Hs) _ _ E).
  - intros s. destruct (t_pending (db c) !! _) as [row|] eqn:E; [|done].
    destruct (ro_rows _ (to_rows _ _ _ _ (so_tables _ _ _ Hs)) _ _ _ E) as (? & ? & ? & ? & _ & _ & _ & _ & H & _).
    congruence.
Qed.

(** The unissued rows are the unissued entries. *)
Lemma pool_row s row :
  t_pending (db c) !! (writer_id unissued, s) = Some row <->
  exists e, wq_pending pool !! s = Some e /\ row = row_of_entry e.
Proof.
  unfold pool, standing. split.
  - intros H. destruct (Hm _ _ _ unissued_ok H) as (q & e & Hq & He). rewrite Hq. simpl.
    exists e. split; [done|]. destruct (mo_pending _ _ _ _ _ (so_memory _ _ _ Hs) _ _ _ _ Hq He). congruence.
  - intros (e & He & ->). destruct (writers c !! unissued) as [q|] eqn:Hq; simpl in He; [|by rewrite lookup_empty in He].
    by apply (mo_pending _ _ _ _ _ (so_memory _ _ _ Hs) _ _ _ _ Hq He).
Qed.

Definition issued_client : Client :=
  placed_client (with_issued ({[n]} ∪ issued c) c) (Number n) (in_order (wq_pending pool))
    (wq_next pool) (wq_head pool).

Lemma foldl_placed_lookup (placed : list (Z * PendingEntry)) (id : bytes) (m : gmap (bytes * Z) PendingRow) k row :
  NoDup placed.*1 -> (forall s, m !! (id, s) = None) ->
  foldl (fun m se => <[(id, se.1) := row_of_entry se.2]> m) m placed !! k = Some row <->
  (exists s e, (s, e) ∈ placed /\ k = (id, s) /\ row = row_of_entry e) \/ m !! k = Some row.
Proof.
  intros Hnd Hid.
  assert (Hnd' : NoDup ((fun se : Z * PendingEntry => (id, se.1)) <$> placed)).
  { change (NoDup (pair id ∘ fst <$> placed)). rewrite list_fmap_compose.
    apply NoDup_fmap_2; [intros ?? [=]; done|done]. }
  split.
  - intros H. apply (foldl_insert_inv (fun se : Z * PendingEntry => (id, se.1)) (fun se => row_of_entry se.2)) in H; [|done].
    destruct H as [([s e] & Hin & -> & ->)|[_ H]]; [left; by exists s, e|by right].
  - intros [(s & e & Hin & -> & ->)|H].
    + apply (foldl_insert_in (fun se : Z * PendingEntry => (id, se.1)) (fun se => row_of_entry se.2) _ _ (s, e) Hnd' Hin).
    + rewrite (foldl_insert_notin (fun se : Z * PendingEntry => (id, se.1)) (fun se => row_of_entry se.2)); [done|].
      intros ([s e] & -> & _)%list_elem_of_fmap. by rewrite Hid in H.
Qed.

Lemma in_order_keys {A} (m : gmap Z A) : NoDup (in_order m).*1.
Proof. unfold in_order. rewrite merge_sort_Permutation. apply NoDup_fst_map_to_list. Qed.

Lemma rekey_pending p :
  rekeyed (fun k => (if decide (k.1 = writer_id unissued) then writer_id (Number n) else k.1, k.2))
    (t_pending (db c)) = Ok p ->
  p = t_pending (dropped_tables unissued (db issued_client)).
Proof.
  intros E. destruct number_absent as (_ & _ & Hrow).
  unshelve epose proof (rekeyed_lookup _ _ _ _ E) as Hl.
  { intros [id s] [id' s'] [r Hr] [r' Hr'] [= Ei ->]. cbn in *. f_equal.
    repeat case_decide; subst; [done|by rewrite Hrow in Hr'|by rewrite Hrow in Hr|done]. }
  apply map_eq. intros [id s]. apply option_eq. intros row.
  rewrite Hl. cbn. rewrite map_lookup_filter_Some.
  rewrite (foldl_placed_lookup _ _ _ _ _ (in_order_keys _) Hrow). cbn. split.
  - intros ([id0 s0] & Hk & Ek). cbn in Ek. case_decide as Hd; injection Ek as -> ->.
    + subst id0. split; [|apply number_id]. left.
      apply pool_row in Hk as (e & He & ->). exists s0, e. split; [by apply elem_of_in_order|done].
    + split; [by right|done].
  - intros [[(s' & e & Hin & [= -> ->] & ->)|Hk] Hne].
    + exists (writer_id unissued, s'). cbn. rewrite decide_True by done. split; [|done].
      apply pool_row. exists e. split; [by apply elem_of_in_order|done].
    + exists (id, s). cbn. by rewrite decide_False.
Qed.

Lemma rekey_writers m :
  rekeyed (fun id => if decide (id = writer_id unissued) then writer_id (Number n) else id)
    (t_writers (db c)) = Ok m ->
  <[writer_id (Number n) := (wq_next pool, wq_head pool)]> m = t_writers (dropped_tables unissued (db issued_client)).
Proof.
  intros E. destruct number_absent as (Hst & _ & _).
  unshelve epose proof (rekeyed_lookup _ _ _ _ E) as Hl.
  { intros id id' [r Hr] [r' Hr'] Ei. repeat case_decide; subst; congruence. }
  cbn. apply map_eq. intros id.
  destruct (decide (id = writer_id (Number n))) as [->|Hne].
  - rewrite lookup_insert_eq, lookup_delete_ne, lookup_insert_eq; [done|]. intros H. by apply number_id.
  - rewrite lookup_insert_ne by done. destruct (decide (id = writer_id unissued)) as [->|Hne'].
    + rewrite lookup_delete_eq. apply eq_None_not_Some. intros [st Hx]. apply Hl in Hx as (k0 & _ & Ek).
      case_decide; [by apply number_id|done].
    + rewrite lookup_delete_ne, lookup_insert_ne by done. apply option_eq. intros st. rewrite Hl. split.
      * intros (k0 & Hk & ->). by case_decide.
      * intros Hk. exists id. by rewrite decide_False.
Qed.

Lemma sound_issued : sound L S (with_issued ({[n]} ∪ issued c) c).
Proof.
  pose proof Hs as [[Hids Hprov] [? ? ? ? Hnum ? ? ?] [? ? ? ? Hmem] ? ? ? ? ? ?]. constructor; try done.
  - constructor; [|done]. intros w s x Hx. destruct (Hids _ _ _ Hx) as (? & ? & ? & Hi).
    split_and!; [done..|]. intros n' E. apply Hi in E. simpl. set_solver.
  - constructor; try done. intros n' st Hn' Hst. simpl. destruct (Hnum _ _ Hn' Hst); [by left|set_solver].
  - constructor; try done. intros n' q Hq. simpl. destruct (Hmem _ _ Hq); [by left|set_solver].
Qed.

Lemma pool_ok : 1 <= wq_next pool /\ length (wq_head pool) = 32%nat.
Proof. apply (queue_next L S c unissued Hs). Qed.

Lemma pool_entry s e : wq_pending pool !! s = Some e -> 0 < s < wq_next pool /\ entry_ok e /\ known L unissued s e.
Proof.
  unfold pool, standing. destruct (writers c !! unissued) as [q|] eqn:Hq; simpl; [|by rewrite lookup_empty].
  intros He. destruct (entry_known _ _ _ _ _ _ _ Hs Hq He) as (_ & ? & ? & _ & ?). done.
Qed.

Lemma issued_placeable :
  in_i64 (wq_next pool) ->
  placeable L (with_issued ({[n]} ∪ issued c) c) (Number n) (in_order (wq_pending pool)) (wq_next pool) (wq_head pool).
Proof.
  intros Hi. destruct number_absent as (_ & Hq & _). destruct pool_ok as [Hp Hl].
  assert (Hst : standing (with_issued ({[n]} ∪ issued c) c) (Number n) = fresh_queue).
  { unfold standing. cbn. by rewrite Hq. }
  assert (HL : forall s, L !! (Number n, s) = None).
  { intros s. destruct (L !! _) as [x|] eqn:E; [|done].
    destruct (lo_ids _ _ (so_ledger _ _ _ Hs) _ _ _ E) as (_ & _ & _ & H). destruct (Hfresh (H n eq_refl)). }
  constructor; rewrite ?Hst; try done.
  - unfold in_i64 in Hi. cbn. lia.
  - apply in_order_keys.
  - intros s e Hin%elem_of_in_order. destruct (pool_entry _ _ Hin) as (? & ? & _). cbn. split; [lia|done].
  - intros s e p Hin%elem_of_in_order Hpr. destruct (pool_entry _ _ Hin) as (_ & _ & Hk). by apply Hk.
  - intros _ _ s x Hx. by rewrite HL in Hx.
  - intros n' [= <-]. right. cbn. set_solver.
Qed.

Lemma issued_writers :
  writers (dropped_client issued_client unissued) = <[Number n := pool]> (delete unissued (writers c)).
Proof.
  destruct number_absent as (_ & Hq & _). cbn. rewrite delete_insert_ne by (by intros [=]).
  do 2 f_equal. unfold placed_queue, standing. cbn. rewrite Hq. cbn [default wq_pending fresh_queue].
  rewrite foldl_in_order. by destruct pool.
Qed.

Lemma issued_ok : in_i64 (wq_next pool) -> ok true S (dropped_client issued_client unissued).
Proof.
  intros Hi. pose proof (issued_placeable Hi) as Hp. pose proof sound_issued as Hs'.
  exists (enter L (Number n) (in_order (wq_pending pool))). split.
  - apply sound_drop; [by apply sound_place|apply unissued_ok|]. intros x Hx.
    change (queued (writers (dropped_client issued_client unissued)) x). rewrite issued_writers.
    destruct (so_held _ _ _ Hs _ Hx) as (w & q & s & e & Hw & He & ->).
    destruct (decide (w = unissued)) as [->|Hne].
    + exists (Number n), pool, s, e. rewrite lookup_insert_eq. unfold pool, standing. by rewrite Hw.
    + exists w, q, s, e. rewrite lookup_insert_ne, lookup_delete_ne; [done..|].
      intros <-. destruct number_absent as (_ & Hq & _). congruence.
  - intros _. apply mirrors_drop; [apply unissued_ok|]. eapply mirrors_place; [done|done|exact Hm].
Qed.

(** The statement of an issue, when it goes through. *)
Lemma issue_statement t :
  match writers c !! unissued with
  | Some q => t <-? rekey_writer unissued (Number n) (db c);; persist_writer_state (Number n) (wq_next q) (wq_head q) t
  | None => persist_writer_state (Number n) 1 GENESIS (db c)
  end = Ok t -> in_i64 (wq_next pool) /\ t = db (dropped_client issued_client unissued).
Proof.
  destruct (writers c !! unissued) as [q|] eqn:Hq.
  - assert (Epool : pool = q) by (unfold pool, standing; by rewrite Hq). intros E.
    unfold rekey_writer in E. destruct (rekeyed _ (t_pending (db c))) as [p|] eqn:Ep; [|done]. cbn [rbind] in E.
    destruct (rekeyed _ (t_writers (db c))) as [m|] eqn:Em; [|done]. cbn [rbind] in E.
    apply persist_state_ok in E as [Hi ->]. rewrite <- Epool in *. split; [done|].
    apply rekey_pending in Ep. apply rekey_writers in Em. cbn [t_writers set_writers].
    rewrite Em, Ep. cbn. unfold dropped_tables. cbn. by rewrite union_empty_l_L.
  - assert (Epool : pool = fresh_queue) by (unfold pool, standing; by rewrite Hq). intros E.
    apply persist_state_ok in E as [Hi ->]. rewrite Epool. split; [done|]. cbn. rewrite Epool. cbn.
    assert (Hno : t_writers (db c) !! writer_id unissued = None).
    { destruct (t_writers (db c) !! writer_id unissued) as [st|] eqn:E; [|done].
      destruct (mo_sub _ _ _ _ _ (so_memory _ _ _ Hs) _ _ unissued_ok E). congruence. }
    unfold dropped_tables. cbn. unfold set_writers. f_equal.
    + symmetry. apply delete_id. rewrite lookup_insert_ne; [done|apply number_id].
    + symmetry. apply map_filter_id. intros [id s] row Hrow. cbn. intros ->.
      destruct (ro_rows _ (to_rows _ _ _ _ (so_tables _ _ _ Hs)) _ _ _ Hrow) as (? & ? & ? & ? & _ & _ & _ & _ & H & _).
      congruence.
    + by rewrite union_empty_l_L.
Qed.
End Issue.

(** ** Settling, raising, retiring *)

Section Settle.
Context {SHA : Sha256} {CH : Changes}.
Implicit Types (L : Ledger) (S : Z * bytes -> Prop) (c : Client).

Lemma ok_tables b S c t :
  t_writers t = t_writers (db c) -> t_pending t = t_pending (db c) ->
  t_retired_keys t = t_retired_keys (db c) ->
  (forall h, t_certificate t = Some h -> writer_ok (Device (held_key h))) ->
  ok b S c -> ok b S (with_db t c).
Proof.
  intros E1 E2 E3 Hc (L & Hs & Hm). exists L. split.
  - pose proof Hs as [? [[] ? ? ? ? ? ? ?] [] ? ? ? ? ? ?].
    constructor; try done; constructor; cbn; rewrite ?E1, ?E2, ?E3; try done.
    constructor; by rewrite ?E1, ?E2.
  - intros Hb. specialize (Hm Hb). unfold mirrors in *. cbn. by rewrite E2.
Qed.

(** Whether a write must be kept other than by the entry at [(w, seq)]. *)
Definition spare (S : Z * bytes -> Prop) (w : WriterRef) (seq : Z) (c : Client) : Prop :=
  forall x, S x -> exists w' q s e, writers c !! w' = Some q /\ wq_pending q !! s = Some e /\
    x = (pe_position e, pe_changeset e) /\ (w', s) <> (w, seq).

Definition settled_queue (q : WriterQueue) (seq : Z) : WriterQueue :=
  {| wq_next := wq_next q; wq_head := wq_head q; wq_pending := delete seq (wq_pending q) |}.

Definition taken_client (w : WriterRef) (q : WriterQueue) (seq : Z) (c : Client) : Client :=
  with_writers (<[w := settled_queue q seq]> (writers c)) c.

Definition settled_client (w : WriterRef) (q : WriterQueue) (seq : Z) (c : Client) : Client :=
  with_db (set_pending (delete (writer_id w, seq) (t_pending (db c))) (db c)) (taken_client w q seq c).

Lemma settled_entry q seq s e :
  wq_pending (settled_queue q seq) !! s = Some e <-> seq <> s /\ wq_pending q !! s = Some e.
Proof. cbn. apply lookup_delete_Some. Qed.

Lemma sound_taken L S c w q seq :
  sound L S c -> writers c !! w = Some q -> spare S w seq c -> sound L S (taken_client w q seq c).
Proof.
  intros Hs Hq Hsp. pose proof Hs as [? ? [Hqueue Hpend Htaken Hsub Hnum] ? ? ? ? ? ?]. constructor; try done.
  - constructor; cbn.
    + intros v q' [[<- <-]|[_ Hv]]%lookup_insert_Some; [by apply (Hqueue w q)|by apply Hqueue].
    + intros v q' s e [[<- <-]|[_ Hv]]%lookup_insert_Some He; [|by apply (Hpend v q')].
      apply settled_entry in He as [_ He]. by apply (Hpend w q).
    + intros v s x q' Hx Hl [[<- <-]|[_ Hv]]%lookup_insert_Some; [by apply (Htaken w s x q)|by eapply Htaken].
    + intros v st Hv Hst. destruct (decide (v = w)) as [->|Hne]; [by rewrite lookup_insert_eq; eexists|].
      rewrite lookup_insert_ne by done. by eapply Hsub.
    + intros n q' [[-> _]|[_ Hv]]%lookup_insert_Some; by eapply Hnum.
  - intros x Hx. destruct (Hsp x Hx) as (v & q' & s & e & Hv & He & -> & Hne).
    destruct (decide (v = w)) as [->|Hvw].
    + exists w, (settled_queue q seq), s, e. cbn. rewrite lookup_insert_eq. split_and!; [done| |done].
      simplify_eq. apply lookup_delete_Some. split; [by intros ->|done].
    + exists v, q', s, e. cbn. by rewrite lookup_insert_ne.
Qed.

Lemma sound_unrow L S c w seq :
  sound L S c -> writer_ok w -> (forall q, writers c !! w = Some q -> wq_pending q !! seq = None) ->
  sound L S (with_db (set_pending (delete (writer_id w, seq) (t_pending (db c))) (db c)) c).
Proof.
  intros Hs Hw Hno. pose proof Hs as [? [[Hrows Hstates] Hknown ? ? ? ? ? ?] [Hqueue Hpend ? ? ?] ? ? ? ? ? ?].
  constructor; try done.
  - constructor; try done.
    + constructor; [|done]. cbn. intros id s row [_ H]%lookup_delete_Some. by apply Hrows.
    + cbn. intros v s e Hv He [_ H]%lookup_delete_Some. by apply Hknown.
  - constructor; try done. intros v q s e Hq He. destruct (Hpend _ _ _ _ Hq He) as [Hrow Hok]. split; [|done].
    cbn. apply lookup_delete_Some. split; [|done]. intros [= E <-].
    apply writer_id_inj in E; [|done|by apply (Hqueue v q)]. subst v. by rewrite (Hno _ Hq) in He.
Qed.

Lemma settled_ok b S c w q seq :
  ok b S c -> writers c !! w = Some q -> spare S w seq c -> ok b S (settled_client w q seq c).
Proof.
  intros (L & Hs & Hm) Hq Hsp. exists L.
  assert (Hw : writer_ok w) by (by apply (mo_queue _ _ _ _ _ (so_memory _ _ _ Hs) _ _ Hq)). split.
  - apply (sound_unrow L S (taken_client w q seq c)); [by apply sound_taken|done|].
    cbn. intros q'. rewrite lookup_insert_eq. intros [= <-]. cbn. apply lookup_delete_eq.
  - intros Hb v s row Hv H. cbn in H. apply lookup_delete_Some in H as [Hne H]. cbn.
    destruct (Hm Hb _ _ _ Hv H) as (q' & e & Hq' & He). destruct (decide (v = w)) as [->|Hvw].
    + exists (settled_queue q seq), e. rewrite lookup_insert_eq. split; [done|]. simplify_eq.
      apply settled_entry. split; [by intros ->|done].
    + exists q', e. by rewrite lookup_insert_ne.
Qed.

Lemma taken_ok S c w q seq :
  ok true S c -> writers c !! w = Some q -> spare S w seq c -> ok false S (taken_client w q seq c).
Proof. intros (L & Hs & _) Hq Hsp. exists L. split; [by apply sound_taken|done]. Qed.
End Settle.

Section Raise.
Context {SHA : Sha256} {CH : Changes}.
Implicit Types (L : Ledger) (S : Z * bytes -> Prop) (c : Client).

(** A writer whose frontier may be set without one being in memory. *)
Definition seat (c : Client) (w : WriterRef) : Prop :=
  writer_ok w /\ (is_Some (writers c !! w) \/ w = unissued \/ is_device w = true).

Lemma raise_placeable L S c w next :
  sound L S c -> seat c w -> wq_next (standing c w) <= next <= i64_max ->
  placeable L c w [] next (wq_head (standing c w)).
Proof.
  intros Hs [Hw Hin] Hn. destruct (queue_next L S c w Hs) as [_ Hl].
  constructor; try done; try (by intros s e ?%not_elem_of_nil).
  - constructor.
  - by intros s e p ?%not_elem_of_nil.
  - intros _ Hl' s x Hx. by apply (host_taken L S c w s x).
  - by intros _ s e ?%not_elem_of_nil.
  - intros n ->. destruct Hin as [[q Hq]|[[= ->]|Hd]]; [|by left|done].
    by eapply (mo_numbers _ _ _ _ _ (so_memory _ _ _ Hs)).
Qed.

Definition raised (q : WriterQueue) (next : Z) : WriterQueue :=
  {| wq_next := next; wq_head := wq_head q; wq_pending := wq_pending q |}.

Lemma sound_raised L S c w next :
  sound L S c -> seat c w -> wq_next (standing c w) <= next ->
  sound L S (with_writers (<[w := raised (standing c w) next]> (writers c)) c).
Proof.
  intros Hs [Hw Hin] Hn. destruct (queue_next L S c w Hs) as [H1 Hl].
  pose proof Hs as [? [? ? ? ? Hnumt ? ? ?] [Hqueue Hpend Htaken Hsub Hnum] ? ? ? ? ? Hheld]. constructor; try done.
  - constructor; cbn.
    + intros v q' [[<- <-]|[_ Hv]]%lookup_insert_Some; [|by apply Hqueue].
      split_and!; [done|cbn; lia|done|]. intros n h Hst. destruct (Hsub _ _ Hw Hst) as [q Hq].
      apply (Hqueue _ _ Hq) in Hst. cbn. unfold standing in Hn. rewrite Hq in Hn. cbn in Hn. lia.
    + intros v q' s e [[<- <-]|[_ Hv]]%lookup_insert_Some He; [|by apply (Hpend v q')].
      unfold standing in He. destruct (writers c !! w) as [q|] eqn:Hq; cbn in He; [by apply (Hpend w q)|].
      by rewrite lookup_empty in He.
    + intros v s x q' Hx Hlv [[<- <-]|[_ Hv]]%lookup_insert_Some; [|by eapply Htaken].
      cbn. pose proof (host_taken L S c w s x Hs (conj Hw (conj Hlv Hin)) Hx). lia.
    + intros v st Hv Hst. destruct (decide (v = w)) as [->|Hne]; [by rewrite lookup_insert_eq; eexists|].
      rewrite lookup_insert_ne by done. by eapply Hsub.
    + intros n q' [[-> _]|[_ Hv]]%lookup_insert_Some; [|by eapply Hnum].
      destruct Hin as [[q Hq]|[[= ->]|Hd]]; [by eapply Hnum|by left|done].
  - intros x Hx. destruct (Hheld _ Hx) as (v & q' & s & e & Hv & He & ->).
    destruct (decide (v = w)) as [->|Hvw].
    + exists w, (raised (standing c w) next), s, e. cbn. rewrite lookup_insert_eq.
      split_and!; [done| |done]. unfold standing. by rewrite Hv.
    + exists v, q', s, e. cbn. by rewrite lookup_insert_ne.
Qed.

Lemma ok_raised b S c w next :
  ok b S c -> seat c w -> wq_next (standing c w) <= next ->
  ok b S (with_writers (<[w := raised (standing c w) next]> (writers c)) c).
Proof.
  intros (L & Hs & Hm) Hseat Hn. exists L. split; [by apply sound_raised|]. intros Hb v s row Hv H.
  destruct (Hm Hb _ _ _ Hv H) as (q & e & Hq & He). cbn. destruct (decide (v = w)) as [->|Hne].
  - exists (raised (standing c w) next), e. rewrite lookup_insert_eq. split; [done|]. cbn. unfold standing. by rewrite Hq.
  - exists q, e. by rewrite lookup_insert_ne.
Qed.

(** Setting a frontier in memory and then in the tables. *)
Lemma raise_upholds {A} t S c w next (k : unit -> CM A) R :
  ok true S c -> seat c w -> wq_next (standing c w) <= next ->
  (forall l, in_i64 next -> let c' := placed_client (with_faults l c) w [] next (wq_head (standing c w)) in
     ok true S c' -> upholds t S (k tt) c' R) ->
  upholds t S (put_queue w (raised (standing c w) next) ~>
             bind (statement (persist_writer_state w next (wq_head (standing c w)))) k) c R.
Proof.
  intros Hok Hseat Hn Hk. apply upholds_modify. set (c1 := with_writers _ c). apply upholds_statement.
  - by apply ok_raised.
  - intros tb l Ht. apply persist_state_ok in Ht as [Hi ->].
    assert (E : with_db (set_writers (<[writer_id w := (next, wq_head (standing c w))]> (t_writers (db c1))) (db c1))
                  (with_faults l c1) =
                placed_client (with_faults l c) w [] next (wq_head (standing c w))) by (by destruct c).
    rewrite E. apply Hk; [done|]. apply ok_place; [by eapply ok_same, Hok; apply same_faults|].
    intros L Hs. apply (raise_placeable L S (with_faults l c)); [done|done|]. unfold in_i64 in Hi.
    change (standing (with_faults l c) w) with (standing c w). lia.
Qed.
End Raise.

Section Retire.
Context {SHA : Sha256} {CH : Changes}.
Implicit Types (L : Ledger) (S : Z * bytes -> Prop) (c : Client).

Lemma sound_unstate L S c n :
  sound L S c -> in_u64 n -> (forall s, t_pending (db c) !! (writer_id (Number n), s) = None) ->
  sound L S (with_db (set_writers (delete (writer_id (Number n)) (t_writers (db c))) (db c)) c).
Proof.
  intros Hs Hn Hno.
  pose proof Hs as [[Hids ?] [[Hrows Hstates] ? Htaken Hdev Hnumt ? ? ?] [Hqueue ? ? Hsub ?] ? ? ? ? ? ?].
  constructor; try done; constructor; cbn; try done.
  - constructor; cbn.
    + intros id s row H. destruct (Hrows _ _ _ H) as (w & e & m & h & Hw & -> & -> & He & Hst & Hlt).
      exists w, e, m, h. split_and!; [done..| |lia|lia]. rewrite lookup_delete_ne; [done|].
      intros E. by rewrite <- E, Hno in H.
    + intros id m h [_ H]%lookup_delete_Some. by apply Hstates.
  - intros w s x m h Hx Hl [_ H]%lookup_delete_Some. by eapply Htaken.
  - intros k s x Hx. destruct (Hdev _ _ _ Hx) as [|[st Hst]]; [by left|right].
    rewrite lookup_delete_ne; [by eexists|]. intros E. apply writer_id_inj in E; [done|done|].
    by apply (Hids _ _ _ Hx).
  - intros m st Hm [_ H]%lookup_delete_Some. by eapply Hnumt.
  - intros w q Hq. destruct (Hqueue _ _ Hq) as (? & ? & ? & H). split_and!; [done..|].
    intros m h [_ Hst]%lookup_delete_Some. by eapply H.
  - intros w st Hw [_ H]%lookup_delete_Some. by eapply Hsub.
Qed.
End Retire.
