(* ===== verification/Upkeep.v ===== *)
(** Every method of the client's write path keeps the invariant of its tables and
    queues. *)

From Stdlib Require Import ZArith Lia.
From stdpp Require Import base numbers option list sorting gmap strings.
From S2P Require Import Prelude Wire Chain Backoff Cursor Pending ClientState ClientWriter Reopen Ledger Carry Grant.

Open Scope Z_scope.

Section Upkeep.
Context {SHA : Sha256} {CH : Changes}.
Implicit Types (t : ClientError -> bool) (S : Z * bytes -> Prop) (c : Client).

(** ** Sending *)

Definition has_entry (c : Client) (w : WriterRef) (s : Z) (e : PendingEntry) : Prop :=
  exists q, writers c !! w = Some q /\ wq_pending q !! s = Some e.

Lemma upload_ok b S c w s e :
  ok b S c -> bound_writer c = Some w -> has_entry c w s e ->
  ok b S (record_upload w s (pe_provenance e) (pe_changeset e) c).2.
Proof.
  intros (L & Hs & Hm) Hb (q & Hq & He). unfold record_upload, modify. cbn. destruct (peer_open c) eqn:Ho; [|by exists L].
  exists L. split; [|done]. destruct (entry_known _ _ _ _ _ _ _ Hs Hq He) as (_ & _ & _ & _ & Hk).
  destruct (so_bound _ _ _ Hs Ho _ Hb) as [Hr _]. unfold known in Hk. rewrite Hr in Hk.
  destruct Hs. constructor; try done. cbn. apply Forall_app. split; [done|]. by constructor.
Qed.

Lemma record_fields w s p cs c :
  let c' := (record_upload w s p cs c).2 in writers c' = writers c /\ bound_writer c' = bound_writer c.
Proof. unfold record_upload, modify. cbn. by destruct (peer_open c). Qed.

Lemma send_mutation_ok b S c w s e :
  ok b S c -> has_entry c w s e ->
  let c' := (send_mutation w s (pe_changeset e) (pe_provenance e) c).2 in
  ok b S c' /\ writers c' = writers c.
Proof.
  intros Hok He. cbn zeta.
  assert (Hsend : forall f c1, ok b S c1 /\ writers c1 = writers c ->
    ok b S (send f c1).2 /\ writers (send f c1).2 = writers c).
  { intros f c1 [H1 H2]. pose proof (send_same f c1) as Hsm. split; [by eapply ok_same|].
    rewrite <- H2. apply Hsm. }
  set (P := fun c' : Client => ok b S c' /\ writers c' = writers c) in *.
  change (P (send_mutation w s (pe_changeset e) (pe_provenance e) c).2). assert (HP : P c) by done.
  unfold send_mutation. unfold bind at 1. cbn [get]. case_decide as Hb; [done|].
  destruct (decide (bound_writer c = Some w)) as [Hb'|]; [|done].
  apply after_lift; [done|]. intros upload _. apply after_lift; [done|]. intros payload _.
  destruct (record_fields w s (pe_provenance e) (pe_changeset e) c) as [Hw _].
  apply after_bind; [by split; [apply upload_ok|]|]. intros _ c1 _ H1.
  apply after_bind; [by apply Hsend|]. intros _ c2 _ H2. by apply Hsend.
Qed.

Lemma replay_ok b S c : ok b S c -> ok b S (replay_pending c).2.
Proof.
  intros Hok. unfold replay_pending. unfold bind at 1. cbn [get]. destruct (negb (is_connected c)); [done|].
  destruct (bound_writer c) as [w|]; [|done]. destruct (writers c !! w) as [q|] eqn:Hq; [|done].
  assert (Hin : forall s e, (s, e) ∈ in_order (wq_pending q) -> wq_pending q !! s = Some e).
  { intros s e. apply elem_of_in_order. }
  revert c Hok Hq Hin. generalize (in_order (wq_pending q)). intros l. induction l as [|[s e] l IH]; intros c Hok Hq Hin; [done|].
  cbn [for_each fst snd]. unfold bind.
  destruct (send_mutation_ok b S c w s e Hok) as [Hok' Hw].
  { exists q. split; [done|]. apply Hin. apply list_elem_of_here. }
  destruct (send_mutation w s _ _ c) as [[u|x] c'] eqn:E; [|done]. cbn [snd] in *.
  apply IH; [done|by rewrite Hw|]. intros s' e' Hse. apply Hin. by apply list_elem_of_further.
Qed.

Lemma replay_upholds t S c : ok true S c -> upholds t S replay_pending c anyhow.
Proof. intros H. by apply upholds_any, replay_ok. Qed.

Lemma flush_upholds t S c : ok true S c -> upholds t S flush_writer_tasks c anyhow.
Proof.
  intros Hok. unfold flush_writer_tasks. apply upholds_get.
  destruct (writer_in_flight c); [by apply upholds_ret|]. destruct (wire c); [|by apply upholds_ret].
  destruct (writer_tasks c) as [|task tasks] eqn:Et; [by apply upholds_ret|].
  destruct (tasks_ok _ _ _ Hok) as (Hts & _ & _). rewrite Et in Hts. apply Forall_cons in Hts as [Ht Hts].
  apply upholds_modify. eapply upholds_then; [apply upholds_send; by apply ok_tasks|].
  intros _ c' Hok'. apply upholds_any. cbn. apply ok_task_in_flight; [|done]. by intros x [= <-].
Qed.

(** ** Choosing a writer *)

Lemma number_identity_in (ws : gmap WriterRef WriterQueue) n : number_identity ws = Some n -> is_Some (ws !! Number n) /\ n <> 0.
Proof.
  unfold number_identity. intros H. apply fmap_Some in H as (z & Hz & ->).
  pose proof (list_max_opt_spec (omap (fun w => match w with
    | Number n => if decide (n <> UNISSUED_NUMBER) then Some (- n) else None | Device _ => None end)
    (map_to_list ws).*1)) as Hm. rewrite Hz in Hm. destruct Hm as [Hin _].
  apply list_elem_of_omap in Hin as (w & Hw & E). destruct w as [|m]; [done|]. case_decide as Hd; [|done]. simplify_eq.
  rewrite Z.opp_involutive. split; [|done].
  apply list_elem_of_fmap in Hw as ([w q] & -> & Hw). apply elem_of_map_to_list in Hw. by eexists.
Qed.

Lemma hosts_same c c' w : same c c' -> hosts c w -> hosts c' w.
Proof. intros (_ & E2 & E3 & _). unfold hosts. by rewrite E2, E3. Qed.

Lemma memory_writer_ok b S c w q : ok b S c -> writers c !! w = Some q -> writer_ok w.
Proof. intros (L & Hs & _) Hq. by apply (mo_queue _ _ _ _ _ (so_memory _ _ _ Hs) _ _ Hq). Qed.

Lemma hosts_number b S c :
  ok b S c -> hosts c (match number_identity (writers c) with Some n => Number n | None => unissued end).
Proof.
  intros Hok. destruct (number_identity (writers c)) as [n|] eqn:En.
  - apply number_identity_in in En as [[q Hq] _]. split_and!; [by eapply memory_writer_ok|done|left; by eexists].
  - split_and!; [apply unissued_ok|done|by right; left].
Qed.

Lemma certificate_ok b S c h : ok b S c -> t_certificate (db c) = Some h -> writer_ok (Device (held_key h)).
Proof. intros (L & Hs & _). apply (to_cert _ _ _ _ (so_tables _ _ _ Hs)). Qed.

Lemma choose_ok b S c :
  ok b S c -> exists w c', choose_writer c = (Ok w, c') /\ same c c' /\ hosts c w.
Proof.
  intros Hok. unfold choose_writer, device_certificate. unfold bind at 1, attempt.
  destruct (query_cases t_certificate c) as (l & [-> | ->]).
  - eexists _, _. split; [done|]. split; [apply same_faults|]. exact (hosts_number _ _ _ Hok).
  - unfold bind. cbn [get]. destruct (t_certificate (db c)) as [h|] eqn:Eh.
    + case_decide as Hd; (eexists _, _; split; [done|]; split; [apply same_faults|]).
      * exact (hosts_number _ _ _ Hok).
      * split_and!; [by eapply certificate_ok|done|by right; right].
    + eexists _, _. split; [done|]. split; [apply same_faults|]. exact (hosts_number _ _ _ Hok).
Qed.

(** ** Queueing and carrying *)

Lemma push_ok b S c : ok b S c -> ok b S (push c).2.
Proof.
  intros Hok. unfold push. unfold bind at 1. cbn [get]. destruct (captured c) as [|x cs]; [done|].
  generalize (x :: cs) as changes. intros changes. destruct (choose_ok _ _ _ Hok) as (w & c1 & E & Hsm & Hh).
  unfold bind at 1. rewrite E.
  destruct (append_ok b S c1 w changes (ok_same _ _ _ _ Hsm Hok) (hosts_same _ _ _ Hsm Hh)) as [Hok2 Hseq].
  unfold bind at 1. destruct (append_entry w changes None c1) as [[seq|e] c2] eqn:Ea; [|done]. cbn [fst snd] in *.
  destruct Hseq as (_ & _ & q & e & Hq & He & Ec & Ep).
  unfold bind at 1. destruct (fault_cases c2) as (failed & l & ->).
  assert (Hok3 : ok b S (with_faults l c2)) by (by eapply ok_same, Hok2; apply same_faults).
  destruct failed; [done|]. unfold bind at 1, modify. unfold bind at 1. cbn [get].
  set (c3 := with_captured [] _). assert (Hok4 : ok b S c3) by (by eapply ok_same, Hok3; repeat split).
  destruct (is_connected c3 && _); [|done]. rewrite <- Ec, <- Ep.
  apply after_bind; [|by intros; cbn].
  apply send_mutation_ok; [done|]. by exists q.
Qed.

Lemma carry_to_live_ok b S c w :
  ok b S c -> writer_ok w -> is_real_writer w = true -> ok b S (carry_to_live w c).2.
Proof.
  intros Hok Hw Hr. unfold carry_to_live. unfold bind at 1. cbn [get]. unfold bind, attempt.
  set (dest := tail_target w (writers c)).
  assert (Ht : hosts c dest /\ dest <> w).
  { unfold dest, tail_target. destruct (number_identity (writers c)) as [n|] eqn:En; [case_decide as Hd|].
    - pose proof (hosts_number _ _ _ Hok) as Hh. by rewrite En in Hh.
    - split; [|by intros <-]. split_and!; [apply unissued_ok|done|by right; left].
    - split; [|by intros <-]. split_and!; [apply unissued_ok|done|by right; left]. }
  destruct Ht as [Hh Hne]. pose proof (carry_ok b S c [w] dest Hok Hh) as Hc.
  destruct (carry_writers [w] dest c) as [r c']. cbn in *. apply Hc; [|by constructor].
  by intros ?%list_elem_of_singleton.
Qed.

Lemma carry_upholds t S c dead target :
  ok true S c -> hosts c target -> target ∉ dead -> Forall writer_ok dead ->
  upholds t S (carry_writers dead target) c anyhow.
Proof. intros. by apply upholds_any, carry_ok. Qed.

(** What a carry leaves alone. *)
Lemma carry_fields dead target c :
  let c' := (carry_writers dead target c).2 in
  bound_writer c' = bound_writer c /\ peer_open c' = peer_open c /\ writer_tasks c' = writer_tasks c.
Proof.
  intros c'. unfold c'.
  destruct (carry_cases dead target c) as [(e & c1 & -> & Hsm)|(l & plan & next & head & _ & _ & ->)].
  - unfold same in Hsm. naive_solver.
  - cbn [snd]. rewrite drop_all_fields. unfold carried_client. by destruct plan.
Qed.

Lemma elem_of_device_writers ws w : w ∈ device_writers ws -> is_Some (ws !! w) /\ is_device w = true.
Proof.
  unfold device_writers. rewrite merge_sort_Permutation. intros [Hd Hw]%list_elem_of_filter. split; [|done].
  apply list_elem_of_fmap in Hw as ([v q] & -> & Hw). apply elem_of_map_to_list in Hw. by eexists.
Qed.

Definition unbound_device (c : Client) : Prop :=
  peer_open c = true -> forall k, bound_writer c <> Some (Device k).

Lemma exclude_upholds t S c :
  ok true S c -> unbound_device c -> upholds t S exclude_device_writers c anyhow.
Proof.
  intros Hok Hub. unfold exclude_device_writers. apply upholds_get.
  set (target := match number_identity (writers c) with Some n => Number n | None => unissued end).
  assert (Hh : hosts c target) by exact (hosts_number _ _ _ Hok).
  eapply (upholds_bind t _ _ _ _ (fun devices c' => same c c' /\ Forall writer_ok devices /\
    Forall (fun w => is_device w = true) devices)).
  { destruct (device_writers (writers c)) as [|w l] eqn:Ed.
    - apply upholds_query; [done|]. intros l Hl. apply upholds_ret; [done|]. split; [apply same_faults|].
      destruct (t_certificate (db c)) as [h|] eqn:Eh; [|done].
      split; repeat constructor; by eapply certificate_ok.
    - apply upholds_ret; [done|]. split; [apply same_refl|]. rewrite <- Ed, !Forall_forall.
      split; intros v [[q Hq] Hd]%elem_of_device_writers; [by eapply memory_writer_ok|done]. }
  intros devices c1 Hok1 (Hsm & Hdev & Hds).
  assert (Ht : target ∉ devices).
  { intros Hin. rewrite Forall_forall in Hds. apply Hds in Hin. unfold target in Hin. by destruct (number_identity _). }
  pose proof (carry_ok true S c1 devices target Hok1 (hosts_same _ _ _ Hsm Hh) Ht Hdev) as Hok2.
  pose proof (carry_fields devices target c1) as (Eb & Ep & Et). apply upholds_any.
  unfold bind. destruct (carry_writers devices target c1) as [[[]|e] c2]; [|done]. cbn [snd modify] in *.
  assert (Htask : Forall task_ok (writer_tasks c2)) by (by apply (tasks_ok _ _ _ Hok2)).
  set (c3 := with_writer_tasks _ (with_pending_bind None c2)).
  assert (Hok3 : ok true S c3).
  { apply ok_tasks; [|by apply ok_pending_bind]. apply Forall_forall. intros x [_ Hx]%list_elem_of_filter.
    by eapply Forall_forall in Htask. }
  destruct (bound_writer c3) as [[k|n]|] eqn:Ebw; [|done|done]. apply ok_bound; [|done].
  intros Hop w [= <-]. change (peer_open c2 = true) in Hop. change (bound_writer c2 = Some (Device k)) in Ebw.
  destruct Hsm as (_ & _ & _ & _ & _ & E6 & E7 & _). rewrite Ep, E7 in Hop. rewrite Eb, E6 in Ebw.
  by destruct (Hub Hop k).
Qed.

Lemma retire_device_upholds t S c :
  ok true S c -> unbound_device c -> upholds t S retire_device c anyhow.
Proof.
  intros Hok Hub. unfold retire_device. eapply upholds_then; [by apply exclude_upholds|].
  intros _ c' Hok'. apply upholds_modify, upholds_ret; [|done].
  destruct (writer_keys c'); [|done]. by eapply ok_same, Hok'; repeat split.
Qed.

(** ** Binds and retirements *)

Lemma new_task_same kind c :
  exists id d c', new_task kind c = (Ok {| wt_kind := kind; wt_request_id := id; wt_deadline := d |}, c') /\ same c c'.
Proof. eexists _, _, _. split; [done|]. by repeat split. Qed.

Lemma new_task_upholds {B} t S kind (k : WriterTask -> CM B) c R :
  ok true S c ->
  (forall task c', wt_kind task = kind -> same c c' -> ok true S c' -> upholds t S (k task) c' R) ->
  upholds t S (bind (new_task kind) k) c R.
Proof.
  intros Hok Hk. destruct (new_task_same kind c) as (id & d & c' & E & Hsm). unfold upholds, bind. rewrite E.
  apply Hk; [done|done|by eapply ok_same].
Qed.

Lemma push_task_ok b S c task : ok b S c -> task_ok task -> ok b S (push_task task c).2.
Proof.
  intros Hok Ht. cbn. apply ok_tasks; [|done]. apply Forall_app. split; [by apply (tasks_ok _ _ _ Hok)|by constructor].
Qed.

Lemma push_task_upholds t S c task : ok true S c -> task_ok task -> upholds t S (push_task task) c anyhow.
Proof. intros. by apply upholds_any, push_task_ok. Qed.

Lemma bind_task_upholds t S c : ok true S c -> upholds t S bind_task c (fun task _ => task_ok task).
Proof.
  intros Hok. unfold bind_task. apply upholds_get. apply upholds_lift; [done|]. intros challenge _.
  apply upholds_lift; [done|]. intros keys Ek. apply upholds_lift; [done|]. intros key Ekey.
  apply upholds_lift; [done|]. intros signature _.
  assert (Hkey : writer_ok (Device key)).
  { destruct Hok as (L & Hs & _). apply (so_keys _ _ _ Hs). destruct (writer_keys c); [|done]. cbn in Ek. simplify_eq.
    destruct keys; [|done]. cbn in Ekey. by simplify_eq. }
  fold (standing c (Device key)). set (q := standing c (Device key)).
  replace (put_queue (Device key) q) with (put_queue (Device key) (raised (standing c (Device key)) (wq_next q)))
    by (unfold q; by destruct (standing c (Device key))).
  apply raise_upholds; [done| |done|].
  { split; [done|by right; right]. }
  intros l _ c' Hok'. destruct (new_task_same (Bind key signature) c') as (id & d & c2 & E & Hsm).
  unfold upholds. rewrite E. split; [by eapply ok_same|done].
Qed.

Lemma Forall_filter_keep {A} (P : A -> Prop) (Q : A -> Prop) `{forall x, Decision (Q x)} (l : list A) :
  Forall P l -> Forall P (filter Q l).
Proof. intros Hl. apply Forall_forall. intros x [_ Hx]%list_elem_of_filter. by eapply Forall_forall in Hl. Qed.

Lemma bindable_cases c :
  exists r c', device_bindable c = (r, c') /\ same c c'.
Proof.
  unfold device_bindable. unfold bind at 1. cbn [get]. destruct (negb _); [by eexists _, _|].
  unfold bind. destruct (query_cases t_certificate c) as (l & [H|H]); unfold device_certificate; rewrite H;
    [|destruct (t_certificate (db c))]; eexists _, _; (split; [done|apply same_faults]).
Qed.

Lemma bindable_upholds {B} t S (k : bool -> CM B) c R :
  ok true S c -> (forall b c', same c c' -> ok true S c' -> upholds t S (k b) c' R) ->
  upholds t S (bind device_bindable k) c R.
Proof.
  intros Hok Hk. destruct (bindable_cases c) as (r & c' & E & Hsm). unfold upholds, bind. rewrite E.
  assert (ok true S c') by (by eapply ok_same). destruct r as [b|e]; [by apply Hk|]. split; [by apply ok_weaken|done].
Qed.

Lemma plan_bind_upholds t S c : ok true S c -> upholds t S plan_bind c anyhow.
Proof.
  intros Hok. unfold plan_bind. apply bindable_upholds; [done|]. intros b c1 _ Hok1.
  destruct (negb b); [by apply upholds_ret|]. apply upholds_get.
  assert (Hrun : upholds t S (task <~ bind_task;;
    (modify (fun c => with_writer_tasks (filter (fun queued => (match wt_kind queued, wt_kind task with
       | Bind other _, Bind key _ => bool_decide (other = key) | _, _ => true end) = true) (writer_tasks c)) c) ~>
     (c <~ get;; match bound_writer c with None => push_task task | Some _ => modify (with_pending_bind (Some task)) end)))
    c1 anyhow).
  { eapply upholds_bind; [by apply bind_task_upholds|]. intros task c2 Hok2 Ht. apply upholds_modify, upholds_get.
    set (c3 := with_writer_tasks _ c2). assert (Hok3 : ok true S c3).
    { apply ok_tasks; [|done]. apply Forall_filter_keep. by apply (tasks_ok _ _ _ Hok2). }
    destruct (bound_writer c3); [|by apply push_task_upholds]. apply upholds_any. cbn.
    apply ok_pending_bind; [|done]. by intros x [= <-]. }
  destruct (bound_writer c1) as [[k|n]|]; [by apply upholds_ret| |]; (destruct (writer_keys c1); [exact Hrun|by apply upholds_ret]).
Qed.

(** A number whose entries are settled leaves the tables and the memory. *)
Lemma drop_settled_ok S c n q :
  ok true S c -> writers c !! Number n = Some q -> wq_pending q = ∅ -> ok true S (dropped_client c (Number n)).
Proof.
  intros Hok Hq He. pose proof (memory_writer_ok _ _ _ _ _ Hok Hq) as Hn. destruct Hok as (L & Hs & Hm).
  exists L. split; [|intros _; by apply mirrors_drop, Hm]. apply sound_drop; [done..|]. intros x Hx.
  destruct (so_held _ _ _ Hs _ Hx) as (w & q' & s & e & Hw & Hse & ->). exists w, q', s, e.
  split_and!; [|done|done]. rewrite lookup_delete_ne; [done|]. intros <-. simplify_eq.
  by rewrite He, lookup_empty in Hse.
Qed.

Lemma settled_rows S c n q :
  ok true S c -> writers c !! Number n = Some q -> wq_pending q = ∅ ->
  forall s, t_pending (db c) !! (writer_id (Number n), s) = None.
Proof.
  intros Hok Hq He s. pose proof (memory_writer_ok _ _ _ _ _ Hok Hq) as Hn. destruct Hok as (L & Hs & Hm).
  destruct (t_pending (db c) !! _) as [row|] eqn:E; [|done].
  destruct (Hm eq_refl _ _ _ Hn E) as (q' & e & Hq' & Hse). simplify_eq. by rewrite He, lookup_empty in Hse.
Qed.

Lemma retire_number_upholds t S c n q :
  ok true S c -> writers c !! Number n = Some q -> wq_pending q = ∅ -> upholds t S (retire_number (Number n)) c anyhow.
Proof.
  intros Hok Hq He. pose proof (memory_writer_ok _ _ _ _ _ Hok Hq) as Hn.
  unfold retire_number. apply upholds_statement; [done|]. intros tb l [= <-].
  set (c1 := with_db _ _). assert (Hok1 : ok true S c1).
  { apply ok_tables; [done..| |by eapply ok_same, Hok; apply same_faults]. intros h. by apply (certificate_ok _ _ _ _ Hok). }
  apply upholds_statement; [done|]. intros t2 l2 [= <-]. set (c2 := with_db _ (with_faults l2 c1)).
  assert (Hok2 : ok true S c2).
  { destruct (Hok1) as (L & Hs & Hm). exists L. split; [|intros _; exact (Hm eq_refl)].
    apply (sound_same L S (with_db (set_writers (delete (writer_id (Number n)) (t_writers (db c1))) (db c1)) c1));
      [by repeat split|]. apply sound_unstate; [done..|]. by apply (settled_rows S c1 n q). }
  apply upholds_statement; [done|]. intros t3 l3 [= <-]. set (c3 := with_db _ (with_faults l3 c2)).
  destruct (new_task_same (Retire (Number n)) c3) as (id & d & c4 & E & Hsm).
  apply upholds_any. unfold bind. rewrite E. cbn [push_task modify snd]. set (task := {| wt_kind := _ |}).
  assert (Hd : ok true S (dropped_client c1 (Number n))) by (by apply (drop_settled_ok S c1 n q)).
  assert (Hfin : ok true S (with_writer_tasks (writer_tasks c1 ++ [task]) (dropped_client c1 (Number n)))).
  { by apply (push_task_ok true S (dropped_client c1 (Number n)) task). }
  destruct Hsm as (E1 & E2 & E3 & E4 & E5 & E6 & E7 & E8 & E9 & E10 & E11 & E12).
  eapply ok_same, Hfin. unfold same. cbn.
  rewrite ?E1, ?E2, ?E3, ?E4, ?E5, ?E6, ?E7, ?E8, ?E9, ?E10, ?E11, ?E12. cbn.
  split_and!; try done; [|by rewrite union_empty_l_L]. unfold dropped_tables. cbn. by rewrite union_empty_l_L.
Qed.

Lemma finish_upholds t S c : ok true S c -> upholds t S finish_number_tail c anyhow.
Proof.
  intros Hok. unfold finish_number_tail. apply upholds_get.
  destruct (bound_writer c) as [[k|n]|]; [by apply upholds_ret| |by apply upholds_ret].
  destruct (writers c !! Number n) as [q|] eqn:Hq; [|by apply upholds_ret].
  case_decide as Hd; [by apply upholds_ret|]. destruct (pending_bind c) as [task|] eqn:Ep; [|by apply upholds_ret].
  assert (Ht : task_ok task) by (by apply (tasks_ok _ _ _ Hok)).
  apply upholds_modify. unfold push_task. apply upholds_modify.
  eapply upholds_then; [|intros _ c' Hok'; by apply flush_upholds].
  apply (retire_number_upholds _ _ _ _ q); [|done|by destruct (decide (wq_pending q = ∅))].
  apply (push_task_ok true S (with_pending_bind None c)); [|done]. by apply ok_pending_bind.
Qed.

(** ** The server's answers *)

Lemma same_upholds {A} t S (m : CM A) c : ok true S c -> same c (m c).2 -> upholds t S m c anyhow.
Proof. intros Hok Hsm. apply upholds_any. by eapply ok_same. Qed.

Lemma settle_resend_same c : same c (settle_resend c).2.
Proof. cbn. destruct (resend c); by repeat split. Qed.

Lemma defer_same asked c : same c (defer_pending asked c).2.
Proof.
  unfold defer_pending, bind. cbn [get]. destruct (resend c) as [| |ep].
  - destruct (new_backoff (seeds c)) as [ep s]. destruct (next_wait RESEND_POLICY ep). by repeat split.
  - apply same_refl.
  - destruct (next_wait RESEND_POLICY ep). by repeat split.
Qed.

Lemma resend_deferred_upholds t S c timer : ok true S c -> upholds t S (resend_deferred timer) c anyhow.
Proof.
  intros Hok. unfold resend_deferred. apply upholds_get. destruct (resend c); [by apply upholds_ret| |by apply upholds_ret].
  case_decide; [|by apply upholds_ret]. apply upholds_modify, replay_upholds. by eapply ok_same, Hok; repeat split.
Qed.

Lemma take_cases w seq c :
  take_pending w seq c = (Ok None, c) \/
  exists q e, writers c !! w = Some q /\ wq_pending q !! seq = Some e /\
    take_pending w seq c = (Ok (Some e), taken_client w q seq c).
Proof.
  unfold take_pending, bind. cbn [get]. destruct (writers c !! w) as [q|] eqn:Hq; [|by left].
  destruct (wq_pending q !! seq) as [e|] eqn:He; [|by left]. right. by exists q, e.
Qed.

(** A database, session or apply failure ends the pump. *)
Definition strict (t : ClientError -> bool) : Prop := t EDatabase = false /\ t ESession = false /\ t EApply = false.

(** Deleting the row of an entry already out of memory. *)
Lemma unrow_upholds {B} t S c c1 w q seq (k : unit -> CM B) R :
  strict t -> ok true S c -> writers c !! w = Some q -> spare S w seq c -> c1 = taken_client w q seq c ->
  (forall c', ok true S c' -> upholds t S (k tt) c' R) ->
  upholds t S (bind (statement (delete_pending w seq)) k) c1 R.
Proof.
  intros (Hd & Hse & _) Hok Hq Hsp -> Hk. apply upholds_statement_weak; [by apply taken_ok|done| |].
  - unfold delete_pending, client_seq_storage. destruct (try_into i64_max seq); cbn; by intros e [= <-].
  - intros tb l Ht. apply delete_pending_ok in Ht as [_ ->]. apply Hk.
    apply (ok_same true S (settled_client w q seq c)); [by repeat split|]. by apply settled_ok.
Qed.

Lemma settle_upholds t S c w seq :
  strict t -> ok true S c -> spare S w seq c ->
  upholds t S (taken <~ take_pending w seq;;
    match taken with Some _ => statement (delete_pending w seq) | None => ret tt end) c anyhow.
Proof.
  intros Hst Hok Hsp. destruct (take_cases w seq c) as [E|(q & e & Hq & He & E)];
    (eapply upholds_eq; [exact E|]); [by apply upholds_ret|].
  pose proof (unrow_upholds t S c _ w q seq ret anyhow Hst Hok Hq Hsp eq_refl) as H.
  unfold upholds, bind in H. destruct (statement _ _) as [[[]|x] c'] eqn:Es; unfold upholds; rewrite Es; apply H; by intros.
Qed.

Lemma rollback_upholds t S c w seq :
  strict t -> ok true S c -> spare S w seq c -> upholds t S (rollback w seq) c anyhow.
Proof.
  intros Hst Hok Hsp. unfold rollback. destruct (take_cases w seq c) as [E|(q & e & Hq & He & E)];
    (eapply upholds_eq; [exact E|]); [by apply upholds_ret|].
  pose proof (taken_ok S c w q seq Hok Hq Hsp) as Hweak.
  apply upholds_lift_weak; [done|apply Hst|]. intros rows _. apply upholds_lift_weak; [done|apply Hst|]. intros inverse _.
  apply (unrow_upholds t S c _ w q seq _ anyhow Hst Hok Hq Hsp eq_refl). intros c' Hok'.
  apply upholds_get, upholds_lift; [done|]. intros undone _. apply upholds_modify, upholds_ret; [|done].
  by eapply ok_same, Hok'; repeat split.
Qed.

(** The writes of [S] are kept other than by the entry a final answer settles. *)
Definition final_seq (frame : Frame) : option Z :=
  match frame with
  | FMutationApplied seq => Some seq
  | FMutationReject seq reason => if decide (reason = RIndeterminate) then None else Some seq
  | FMutationConflict seq _ _ => Some seq
  | _ => None
  end.

Definition unsettled (S : Z * bytes -> Prop) (frame : Frame) (c : Client) : Prop :=
  forall seq w, final_seq frame = Some seq -> bound_writer c = Some w -> spare S w seq c.

Lemma spare_same S w seq c c' : same c c' -> spare S w seq c -> spare S w seq c'.
Proof. intros (_ & E & _). unfold spare. by rewrite E. Qed.

Lemma applied_upholds t S c seq :
  strict t -> ok true S c -> unsettled S (FMutationApplied seq) c -> upholds t S (mutation_applied seq) c anyhow.
Proof.
  intros Hst Hok Hu. unfold mutation_applied. apply upholds_get. eapply upholds_then.
  { destruct (bound_writer c) as [w|] eqn:Eb; [|by apply upholds_ret]. apply settle_upholds; [done|done|]. by apply Hu. }
  intros _ c1 Hok1. eapply upholds_then; [apply same_upholds; [done|apply settle_resend_same]|]. intros _ c2 Hok2.
  eapply upholds_then; [by apply finish_upholds|]. intros _ c3 Hok3. by apply upholds_ret.
Qed.

Lemma rejected_upholds t S c seq reason :
  strict t -> ok true S c -> unsettled S (FMutationReject seq reason) c -> upholds t S (mutation_rejected seq reason) c anyhow.
Proof.
  intros Hst Hok Hu. unfold mutation_rejected. apply upholds_get. unfold unsettled in Hu. cbn in Hu. case_decide as Hr.
  - eapply upholds_then; [|intros _ c1 Hok1; by apply upholds_ret].
    destruct (holds_seq _ _ _); [|by apply upholds_ret]. apply same_upholds; [done|apply defer_same].
  - eapply upholds_bind with (Q := fun _ c' => same c c').
    { apply upholds_ret; [|apply settle_resend_same]. eapply ok_same; [apply settle_resend_same|done]. }
    intros _ c1 Hok1 Hsm. eapply upholds_then.
    { destruct (bound_writer c) as [w|] eqn:Eb; [|by apply upholds_ret]. apply rollback_upholds; [done|done|].
      eapply spare_same; [done|]. by apply Hu. }
    intros rows c2 Hok2. eapply upholds_then; [by apply finish_upholds|]. intros _ c3 Hok3. by apply upholds_ret.
Qed.

Lemma conflict_upholds t S c seq code row :
  strict t -> ok true S c -> unsettled S (FMutationConflict seq code row) c -> upholds t S (mutation_conflict seq row) c anyhow.
Proof.
  intros Hst Hok Hu. unfold mutation_conflict. eapply upholds_bind with (Q := fun _ c' => same c c').
  { apply upholds_ret; [|apply settle_resend_same]. eapply ok_same; [apply settle_resend_same|done]. }
  intros _ c1 Hok1 Hsm. apply upholds_get, upholds_lift; [done|]. intros w Ew.
  assert (Eb : bound_writer c = Some w).
  { destruct Hsm as (_ & _ & _ & _ & _ & E & _). rewrite <- E. destruct (bound_writer c1); [|done]. cbn in Ew. congruence. }
  eapply upholds_then; [apply rollback_upholds; [done|done|]; eapply spare_same; [done|]; by apply Hu|].
  intros rows c2 Hok2. eapply upholds_then; [by apply finish_upholds|]. intros _ c3 Hok3. by apply upholds_ret.
Qed.

Lemma rate_limited_upholds t S c related ms : ok true S c -> upholds t S (rate_limited related ms) c anyhow.
Proof.
  intros Hok. unfold rate_limited. apply upholds_get. eapply upholds_then; [|intros _ c1 Hok1; by apply upholds_ret].
  match goal with |- context [if ?b then _ else _] => destruct b end; [|by apply upholds_ret].
  apply same_upholds; [done|apply defer_same].
Qed.

(** ** Binding the device *)

Lemma standing_next b S c w : ok b S c -> 1 <= wq_next (standing c w).
Proof. intros (L & Hs & _). by destruct (queue_next L S c w Hs). Qed.

Definition refusal (outcome : WriterOutcome) : bool := match outcome with Bound _ => false | _ => true end.

Lemma answer_bind_upholds t S c key id outcome :
  ok true S c -> writer_ok (Device key) -> (refusal outcome = true -> unbound_device c) ->
  upholds t S (answer_bind key id outcome) c anyhow.
Proof.
  intros Hok Hkey Hr. unfold answer_bind. apply upholds_get.
  destruct outcome as [frontier| | |]; [|apply retire_device_upholds; [done|by apply Hr]..].
  case_decide as Hk.
  { eapply upholds_then; [by apply flush_upholds|]. intros _ c1 Hok1. by apply upholds_ret. }
  fold (standing c (Device key)). apply raise_upholds; [done|split; [done|by right; right]|lia|].
  intros l Hi c1 Hok1. apply upholds_modify. set (c2 := with_bound_writer _ c1).
  assert (Hok2 : ok true S c2) by (apply ok_bound; [by intros _ w [= <-]|done]). apply upholds_get.
  eapply upholds_then.
  - apply carry_upholds; [done|split_and!; [done|exact Hk|by right; right]| |].
    + by intros [? _]%list_elem_of_filter.
    + apply Forall_forall. intros w [_ Hw]%list_elem_of_filter. apply list_elem_of_fmap in Hw as ([v q] & -> & Hw).
      apply elem_of_map_to_list in Hw. by eapply memory_writer_ok.
  - intros _ c3 Hok3. eapply upholds_then; [by apply flush_upholds|]. intros _ c4 Hok4.
    eapply upholds_then; [by apply replay_upholds|]. intros _ c5 Hok5. by apply upholds_ret.
Qed.

Definition sound_answer (frame : Frame) (c : Client) : Prop :=
  match frame with FWriterAnswer _ outcome => refusal outcome = true -> unbound_device c | _ => True end.

Lemma settle_task_upholds t S c id outcome :
  ok true S c -> sound_answer (FWriterAnswer id outcome) c -> upholds t S (settle_writer_task id outcome) c anyhow.
Proof.
  intros Hok Ha. unfold settle_writer_task. apply upholds_get.
  destruct (writer_in_flight c) as [task|] eqn:Et; [|by apply upholds_throw].
  case_decide; [by apply upholds_throw|]. apply upholds_modify.
  assert (Ht : task_ok task) by (destruct (tasks_ok _ _ _ Hok) as (_ & Hfl & _); by apply Hfl).
  assert (Hok1 : ok true S (with_writer_in_flight None c)) by (by apply ok_task_in_flight).
  unfold task_ok in Ht. destruct (wt_kind task) as [key sig|w]; [by apply answer_bind_upholds|].
  apply upholds_statement; [done|]. intros tb l [= <-]. eapply upholds_then; [apply flush_upholds|].
  - apply ok_tables; [done..| |by eapply ok_same, Hok1; apply same_faults]. intros h. by apply (certificate_ok _ _ _ _ Hok).
  - intros _ c2 Hok2. by apply upholds_ret.
Qed.

Lemma ok_closed b S c : ok b S c -> ok b S (with_peer_open false c).
Proof. intros (L & [] & Hm). exists L. split; [by constructor|done]. Qed.

Lemma server_closed_upholds t S c reason :
  ok true S c -> peer_open c = true -> upholds t S (server_closed reason) c anyhow.
Proof.
  intros Hok Ho. unfold server_closed. apply upholds_modify, upholds_get.
  pose proof (ok_closed _ _ _ Hok) as Hok1. set (c1 := with_peer_open false c) in *.
  eapply upholds_then; [|intros _ c2 Hok2; by apply upholds_ret].
  assert (Hub : unbound_device c1) by done.
  assert (Hlost : upholds t S (match bound_writer c1 with
    | Some (Device _) => retire_device ~> ret tt | Some w => carry_to_live w | None => ret tt end) c1 anyhow).
  { destruct (bound_writer c1) as [[k|n]|] eqn:Eb; [| |by apply upholds_ret].
    - eapply upholds_then; [by apply retire_device_upholds|]. intros _ c2 Hok2. by apply upholds_ret.
    - destruct (Hok) as (L & Hs & _). destruct (so_bound _ _ _ Hs Ho _ Eb) as [Hr Hw].
      by apply upholds_any, carry_to_live_ok. }
  destruct reason; try (by apply upholds_ret); [by apply exclude_upholds|exact Hlost..].
Qed.

Lemma handle_upholds t S c frame :
  strict t -> ok true S c -> peer_open c = true -> sound_answer frame c -> unsettled S frame c ->
  upholds t S (handle_control frame) c anyhow.
Proof.
  intros Hst Hok Ho Ha Hu. destruct frame; cbn [handle_control].
  all: first [by apply applied_upholds|by apply rejected_upholds|by eapply conflict_upholds
             |by apply rate_limited_upholds|by apply server_closed_upholds|by apply settle_task_upholds].
Qed.

(** ** Connecting *)

Lemma disconnected_upholds t S c : ok true S c -> upholds t S disconnected c anyhow.
Proof.
  intros (L & [] & Hm). apply upholds_any. exists L. split; [by constructor|done].
Qed.

Lemma deadlines_upholds t S c : ok true S c -> upholds t S check_writer_deadlines c anyhow.
Proof.
  intros Hok. unfold check_writer_deadlines. apply upholds_get. destruct (writer_in_flight c); [|by apply upholds_ret].
  case_decide; [by apply disconnected_upholds|by apply upholds_ret].
Qed.

(** What a handshake asks for is there. *)
Definition asks (c : Client) (request : WriterRequest) : Prop :=
  match request with
  | ReqNumber n => is_Some (writers c !! Number n) /\ n <> 0
  | ReqDevice => exists h, t_certificate (db c) = Some h /\ held_key h ∉ retired_keys c
  | ReqIssue => True
  end.

Lemma bindable_true c b c' : device_bindable c = (Ok b, c') -> b = true ->
  exists h, t_certificate (db c) = Some h /\ held_key h ∉ retired_keys c.
Proof.
  unfold device_bindable. unfold bind at 1. cbn [get]. destruct (negb _); [intros [= <- _]; done|].
  unfold bind. destruct (query_cases t_certificate c) as (l & [H|H]); unfold device_certificate; rewrite H; [done|].
  destruct (t_certificate (db c)) as [h|]; [|intros [= <- _]; done]. intros [= <- _] [Hb _]%andb_prop.
  exists h. split; [done|]. by apply bool_decide_eq_true in Hb.
Qed.

Lemma handshake_cases c :
  exists r c', writer_handshake c = (r, c') /\ same c c' /\
    match r with Ok (request, _) => asks c request | Err _ => True end.
Proof.
  assert (Hbind : forall request (settled : option Z),
    asks c request -> exists r c',
      bind device_bindable (fun b : bool => if b then ret (ReqDevice, None) else ret (request, settled)) c = (r, c') /\
      same c c' /\ match r with Ok (request, _) => asks c request | Err _ => True end).
  { intros request settled Hr. destruct (bindable_cases c) as (r & c' & E & Hsm). unfold bind. rewrite E.
    destruct r as [[]|e]; eexists _, _; (split; [done|]); (split; [done|]); [by eapply bindable_true|done|done]. }
  unfold writer_handshake. unfold bind at 1. cbn [get].
  destruct (number_identity (writers c)) as [n|] eqn:En.
  - apply number_identity_in in En. destruct (holds_pending (Number n) _); [eexists _, _; split; [done|]; by split; [apply same_refl|]|].
    destruct (holds_pending unissued _); [eexists _, _; split; [done|]; by split; [apply same_refl|]|]. by apply Hbind.
  - destruct (holds_pending unissued _); [eexists _, _; split; [done|]; by split; [apply same_refl|]|]. by apply Hbind.
Qed.

Lemma real_number n : n <> 0 -> is_real_writer (Number n) = true.
Proof. intros Hn. unfold is_real_writer. by rewrite bool_decide_false. Qed.

Definition bindable_writer (w : WriterRef) : Prop := is_real_writer w = true /\ writer_ok w.

Lemma grant_upholds t S c request granted :
  ok true S c -> asks c request ->
  (forall g, request = ReqIssue -> granted = Some g -> in_u64 (wg_number g) /\ wg_number g ∉ issued c) ->
  upholds t S (apply_writer_grant request granted) c (fun bound _ => forall w, bound = Some w -> bindable_writer w).
Proof.
  intros Hok Ha Hfresh. destruct request as [|n|]; cbn [apply_writer_grant].
  - apply upholds_lift; [done|]. intros g Eg. case_decide as H0; [by apply upholds_throw|].
    case_decide; [by apply upholds_throw|]. apply upholds_get.
    destruct (Hfresh g) as [Hg Hni]; [done|destruct granted; [cbn in Eg; congruence|done]|].
    apply upholds_statement; [done|]. intros tb l Ht. destruct Hok as (L & Hs & Hm). specialize (Hm eq_refl).
    destruct (issue_statement L S c (wg_number g) Hs Hm Hg H0 Hni tb Ht) as [Hi ->].
    pose proof (issued_ok L S c (wg_number g) Hs Hm Hg H0 Hni Hi) as Hfin.
    apply upholds_modify, upholds_ret.
    + eapply ok_same, Hfin. pose proof (issued_writers L S c (wg_number g) Hs Hg H0 Hni) as Ew.
      unfold same. rewrite Ew. cbn. split_and!; try done. by rewrite union_empty_l_L.
    + intros w [= <-]. split; [by apply real_number|done].
  - apply upholds_lift; [done|]. intros g _. case_decide; [by apply upholds_throw|]. apply upholds_get.
    destruct Ha as [[q Hq] Hn0]. rewrite Hq. apply upholds_ret; [done|]. intros w [= <-].
    split; [by apply real_number|by eapply memory_writer_ok].
  - destruct granted; [by apply upholds_throw|]. destruct Ha as (h & Eh & Hh).
    pose proof (certificate_ok _ _ _ _ Hok Eh) as Hkey. unfold device_certificate, upholds, bind, attempt.
    destruct (query_cases t_certificate c) as (l & [-> | ->]).
    + split; [by eapply ok_same, Hok; apply same_faults|done].
    + rewrite Eh. assert (Hok1 : ok true S (with_faults l c)) by (by eapply ok_same, Hok; apply same_faults).
      pose proof (carry_upholds t S (with_faults l c) [unissued] (Device (held_key h)) Hok1) as [Hc _].
      { split_and!; [done|done|by right; right]. }
      { by intros ?%list_elem_of_singleton. }
      { repeat constructor; apply unissued_ok. }
      destruct (carry_writers _ _ _) as [[[]|e] c']; [|done]. by split.
Qed.

Lemma reconcile_upholds t S c frontier : ok true S c -> upholds t S (reconcile_pending frontier) c anyhow.
Proof.
  intros Hok. unfold reconcile_pending. apply upholds_get.
  destruct (bound_writer c) as [w|]; [|by apply replay_upholds]. destruct frontier as [f|]; [|by apply replay_upholds].
  destruct (writers c !! w) as [q|] eqn:Hq; [|by apply replay_upholds]. case_decide; [|by apply replay_upholds].
  assert (Eq : standing c w = q) by (unfold standing; by rewrite Hq). rewrite <- Eq.
  apply raise_upholds; [done|split; [by eapply memory_writer_ok|left; by eexists]|lia|].
  intros l _ c' Hok'. by apply replay_upholds.
Qed.

Lemma resume_upholds t S c : ok true S c -> upholds t S resume_attach c anyhow.
Proof.
  intros Hok. unfold resume_attach. apply upholds_get. destruct (attach_replay c); [|by apply upholds_ret].
  eapply upholds_then; [by apply reconcile_upholds|]. intros _ c' Hok'. apply upholds_any. by eapply ok_same, Hok'; repeat split.
Qed.

Lemma for_each_upholds {A} t S (f : A -> CM unit) l c :
  ok true S c -> (forall a c', ok true S c' -> upholds t S (f a) c' anyhow) -> upholds t S (for_each f l) c anyhow.
Proof.
  intros Hok Hf. revert c Hok. induction l as [|a l IH]; intros c Hok; [by apply upholds_ret|].
  cbn [for_each]. eapply upholds_then; [by apply Hf|]. intros _ c'. apply IH.
Qed.

(** The server issues only numbers it never issued. *)
Definition fresh_answer (answer : WriterRequest -> option Z -> HandshakeAnswer) (c : Client) : Prop :=
  forall settled g challenge, answer ReqIssue settled = HsAck (Some g) challenge ->
    in_u64 (wg_number g) /\ wg_number g ∉ issued c.

Lemma ok_attached S c bound v replay :
  ok true S c -> (forall w, bound = Some w -> bindable_writer w) ->
  ok true S (with_peer_open true (with_attach_replay replay (with_bound_writer bound (with_wire v c)))).
Proof. intros (L & [] & Hm) Hb. exists L. split; [by constructor|done]. Qed.

Lemma attach_upholds t S c answer :
  ok true S c -> fresh_answer answer c -> upholds t S (attach answer) c anyhow.
Proof.
  intros Hok Hf. unfold attach. apply upholds_query; [done|]. intros l Hok0.
  destruct (handshake_cases (with_faults l c)) as (r & c1 & E & Hsm & Ha).
  assert (Hok1 : ok true S c1) by (by eapply ok_same).
  destruct r as [[request settled]|e]; [|apply upholds_any; unfold bind; by rewrite E].
  eapply upholds_eq; [exact E|]. cbn [fst snd].
  assert (Ha1 : asks c1 request) by (destruct Hsm as (E1 & E2 & E3 & _); unfold asks; by rewrite E1, E2, E3).
  destruct (answer request settled) as [|reason|grant challenge] eqn:Eans; [by apply upholds_throw| |].
  - destruct request as [|n|]; [by apply upholds_throw| |by apply upholds_throw].
    destruct (refused_writer reason); [|by apply upholds_throw].
    destruct Ha1 as [[q Hq] Hn0]. eapply upholds_then; [|intros _ c2 Hok2; by apply upholds_throw].
    apply upholds_any, carry_to_live_ok; [done|by eapply memory_writer_ok|by apply real_number].
  - eapply upholds_bind; [apply grant_upholds; [done|done|]|].
    { intros g -> ->. destruct (Hf _ _ _ Eans) as [Hg Hni]. split; [done|].
      destruct Hsm as (_ & _ & _ & E4 & _). by rewrite E4. }
    intros bound c2 Hok2 Hb. apply upholds_modify. eapply upholds_then; [by apply plan_bind_upholds, ok_attached|].
    intros _ c3 Hok3. apply upholds_query; [done|]. intros l2 Hok4. eapply upholds_then; [apply for_each_upholds; [done|]|].
    { intros w c5 Hok5. apply new_task_upholds; [done|]. intros task c6 Ek _ Hok6. apply push_task_upholds; [done|].
      unfold task_ok. by rewrite Ek. }
    intros _ c5 Hok5. eapply upholds_then; [by apply flush_upholds|]. intros _ c6 Hok6. by apply resume_upholds.
Qed.

(** ** The certificate *)

Lemma bind_flush_upholds t S c :
  ok true S c -> upholds t S (plan_bind ~> flush_writer_tasks) c anyhow.
Proof. intros Hok. eapply upholds_then; [by apply plan_bind_upholds|]. intros _ c'. apply flush_upholds. Qed.

Lemma with_device_upholds t S c keys :
  ok true S c -> (forall k, keys = Some k -> writer_ok (Device k)) -> upholds t S (with_device_writer keys) c anyhow.
Proof.
  intros (L & [] & Hm) Hk. unfold with_device_writer. apply upholds_modify, upholds_get.
  assert (Hok : ok true S (with_writer_keys (Some keys) c)).
  { exists L. split; [|done]. constructor; try done. intros k [= ->]. by apply Hk. }
  destruct (is_connected _); [by apply bind_flush_upholds|by apply upholds_ret].
Qed.

Lemma holds_nothing (ws : gmap WriterRef WriterQueue) w q : ws !! w = Some q -> holds_pending w ws = false -> wq_pending q = ∅.
Proof.
  unfold holds_pending. intros ->. rewrite bool_decide_eq_false. intros H. by destruct (decide (wq_pending q = ∅)).
Qed.

Lemma fresh_device_upholds t S c k :
  ok true S c -> writer_ok (Device k) -> writers c !! Device k = None ->
  upholds t S (statement (persist_writer_state (Device k) 1 GENESIS) ~> put_queue (Device k) fresh_queue) c anyhow.
Proof.
  intros Hok Hk Hq. apply upholds_statement; [done|]. intros tb l Ht. apply persist_state_ok in Ht as [Hi ->].
  apply upholds_any. assert (Es : standing (with_faults l c) (Device k) = fresh_queue) by (unfold standing; cbn; by rewrite Hq).
  assert (Hpl : ok true S (placed_client (with_faults l c) (Device k) [] 1 GENESIS)).
  { apply ok_place; [by eapply ok_same, Hok; apply same_faults|]. intros L Hs.
    change GENESIS with (wq_head fresh_queue). rewrite <- Es. apply (raise_placeable L S); [done|split; [done|by right; right]|].
    rewrite Es. cbn. unfold in_i64 in Hi. lia. }
  eapply ok_same, Hpl. unfold same. cbn. split_and!; try done. unfold placed_queue. cbn in Es. by rewrite Es.
Qed.

Lemma store_certificate_upholds t S c h :
  ok true S c -> writer_ok (Device (held_key h)) -> upholds t S (store_device_certificate h) c anyhow.
Proof.
  intros Hok Hh. unfold store_device_certificate. apply upholds_statement; [done|]. intros tb l [= <-].
  set (c1 := with_db _ _). assert (Hok1 : ok true S c1).
  { apply ok_tables; [done..| |by eapply ok_same, Hok; apply same_faults]. by intros h' [= <-]. }
  apply upholds_get. eapply upholds_then.
  { destruct (writers c1 !! Device (held_key h)) eqn:Hq; [by apply upholds_ret|by apply fresh_device_upholds]. }
  intros _ c2 Hok2. apply upholds_get. eapply upholds_then.
  { destruct (is_connected c2); [by apply bind_flush_upholds|by apply upholds_ret]. }
  intros _ c3 Hok3. apply upholds_get. destruct (number_identity (writers c3)) as [n|] eqn:En; [|by apply upholds_ret].
  apply number_identity_in in En as [[q Hq] _]. destruct (holds_pending _ _) eqn:Ep; [by apply upholds_ret|].
  case_decide; [by apply finish_upholds|].
  eapply upholds_then; [eapply retire_number_upholds; [done|done|by eapply holds_nothing]|].
  intros _ c4 Hok4. apply upholds_get. destruct (is_connected c4); [by apply flush_upholds|by apply upholds_ret].
Qed.

Lemma delete_certificate_upholds t S c : ok true S c -> upholds t S delete_device_certificate c anyhow.
Proof.
  intros Hok. apply upholds_any. unfold delete_device_certificate.
  destruct (statement_cases (fun tb : Tables => Ok (set_certificate None tb)) c) as [(e & l & ->)|(tb & l & [= <-] & ->)].
  - by eapply ok_same, Hok; apply same_faults.
  - apply ok_tables; [done..|by eapply ok_same, Hok; apply same_faults].
Qed.

Lemma reapply_same c : same c (reapply_pending c).2.
Proof.
  unfold reapply_pending, bind at 1. cbn [get]. destruct (merge_sort _ _); [apply same_refl|].
  unfold bind at 1. destruct (fault_cases c) as (b & l' & ->). destruct b; [apply same_faults|].
  unfold bind, lift. destruct (try_fold _ _ _); [by repeat split|apply same_faults].
Qed.
End Upkeep.
