(* ===== verification/Uploads.v ===== *)
(** The client's write path as a step relation, with restarts and failures, and
    what holds of every run of it: a write keeps one identity however often it is
    sent, none is lost before its answer, and a restart finds the queues again. *)

From Stdlib Require Import ZArith Lia.
From stdpp Require Import base numbers option list sorting gmap strings.
From S2P Require Import Prelude Wire Chain Backoff Cursor Pending ClientState ClientWriter Reopen Ledger Carry Grant Upkeep.

Open Scope Z_scope.

Section Restart.
Context {SHA : Sha256} {CH : Changes}.
Implicit Types (L : Ledger) (S : Z * bytes -> Prop) (c : Client).

Lemma loaded_keys_kept L keys iss t : tables_ok L keys iss t -> load_retired_keys t = keys.
Proof.
  intros Ht. unfold load_retired_keys. rewrite (to_retired _ _ _ _ Ht). apply set_eq. intros k.
  rewrite elem_of_filter. pose proof (to_keys _ _ _ _ Ht k). naive_solver.
Qed.

Lemma memory_loaded L keys iss t :
  tables_ok L keys iss t -> memory_ok L keys iss t (load_writer_queues t).1.
Proof.
  intros [Hrows Hknown Htaken Hdev Hnum Hret Hkeys Hcert]. constructor.
  - intros w q Hq. destruct (load_queues_lookup t Hrows _ _ Hq) as (Hw & Hl & (h & Hst & _) & _).
    destruct (ro_states _ Hrows _ _ _ Hst) as (_ & _ & _ & _ & Hn). split_and!; [done|lia|done|].
    intros n h' Hst'. rewrite Hst in Hst'. simplify_eq. lia.
  - intros w q s e Hq He. destruct (load_queues_lookup t Hrows _ _ Hq) as (_ & _ & _ & Hp). by apply Hp.
  - intros w s x q Hx Hlive Hq. destruct (load_queues_lookup t Hrows _ _ Hq) as (_ & _ & (h & Hst & _) & _).
    by eapply Htaken.
  - intros w st Hw Hst. by eapply load_queues_some.
  - intros n q Hq. destruct (load_queues_lookup t Hrows _ _ Hq) as (Hw & _ & (h & Hst & _) & _).
    by eapply Hnum.
Qed.

(** A row of the tables is loaded as the entry it stands for. *)
Lemma loaded_entry t w s e :
  rows_ok t -> writer_ok w -> entry_ok e -> t_pending t !! (writer_id w, s) = Some (row_of_entry e) ->
  exists q, (load_writer_queues t).1 !! w = Some q /\ wq_pending q !! s = Some e.
Proof.
  intros Hrows Hw He Hrow.
  destruct (ro_rows _ Hrows _ _ _ Hrow) as (? & ? & n & h & _ & _ & _ & _ & Hst & _).
  destruct (load_queues_some t Hrows w _ Hw Hst) as [q Hq]. exists q. split; [done|].
  by apply (load_queues_lookup t Hrows _ _ Hq).
Qed.

Lemma mirrors_loaded c : rows_ok (db c) -> mirrors (open_replica c).
Proof.
  intros Hrows. unfold open_replica. destruct (load_writer_queues (db c)) as [queues position] eqn:E.
  assert (Eq : (load_writer_queues (db c)).1 = queues) by (by rewrite E).
  intros w s row Hw Hrow. cbn in *. rewrite <- Eq.
  destruct (ro_rows _ Hrows _ _ _ Hrow) as (w' & e & n & h & Hw' & Eid & -> & He & _).
  destruct (loaded_entry (db c) w s e) as (q & Hq & Hs); [done..|]. by exists q, e.
Qed.

Lemma open_ok b S c : ok b S c -> ok true S (open_replica c).
Proof.
  intros (L & Hs & _). pose proof (so_tables _ _ _ Hs) as Ht. pose proof (to_rows _ _ _ _ Ht) as Hrows.
  pose proof (memory_loaded _ _ _ _ Ht) as Hmem. pose proof (load_position (db c) Hrows) as Hpos.
  pose proof (loaded_keys_kept _ _ _ _ Ht) as Hk. exists L. split; [|intros _; by apply mirrors_loaded].
  assert (Hheld : forall x, S x -> queued (load_writer_queues (db c)).1 x).
  { intros x Hx. destruct (so_held _ _ _ Hs _ Hx) as (w & q & s & e & Hq & He & ->).
    destruct (mo_pending _ _ _ _ _ (so_memory _ _ _ Hs) _ _ _ _ Hq He) as [Hrow Hok].
    destruct (loaded_entry (db c) w s e) as (q' & Hq' & He'); [done| |done|done|by exists w, q', s, e].
    by apply (mo_queue _ _ _ _ _ (so_memory _ _ _ Hs) _ _ Hq). }
  unfold open_replica. destruct (load_writer_queues (db c)) as [queues position]. cbn [fst snd] in *.
  destruct Hs. constructor; cbn; rewrite ?Hk; done.
Qed.
End Restart.

(** ** Runs *)

Section Runs.
Context {SHA : Sha256} {CH : Changes}.

(** What may happen to a client. *)
Inductive ClientOp :=
  | OpPush
  | OpAttach (answer : WriterRequest -> option Z -> HandshakeAnswer)
  | OpControl (frame : Frame)
  | OpReplay
  | OpResend (timer : ResendTimer)
  | OpResume
  | OpDisconnect
  | OpDeadlines
  | OpDeviceKeys (keys : option bytes)
  | OpStoreCertificate (h : Held)
  | OpDeleteCertificate
  | OpReapply
  | OpRestart.

(** A client, and whether its pump still runs. A frame whose handling fails for
    another reason than a lost transport ends the pump; writes are still queued
    then, until a restart. Every other operation may fail and the client goes on. *)
Record Run := { run_client : Client; run_pumps : bool }.

Definition is_disconnect (e : ClientError) : bool :=
  match e with ETransport | ENotConnected => true | _ => false end.

(** What each operation but a push, a frame and a restart runs. *)
Definition pump_op (op : ClientOp) : option (CM unit) :=
  match op with
  | OpPush | OpControl _ | OpRestart => None
  | OpAttach answer => Some (attach answer)
  | OpReplay => Some replay_pending
  | OpResend timer => Some (resend_deferred timer)
  | OpResume => Some resume_attach
  | OpDisconnect => Some disconnected
  | OpDeadlines => Some check_writer_deadlines
  | OpDeviceKeys keys => Some (with_device_writer keys)
  | OpStoreCertificate h => Some (store_device_certificate h)
  | OpDeleteCertificate => Some delete_device_certificate
  | OpReapply => Some reapply_pending
  end.

Definition run_op (op : ClientOp) (r : Run) : Run :=
  match op with
  | OpPush => {| run_client := (push (run_client r)).2; run_pumps := run_pumps r |}
  | OpRestart => {| run_client := open_replica (run_client r); run_pumps := true |}
  | OpControl frame =>
      let x := handle_control frame (run_client r) in
      {| run_client := x.2; run_pumps := survives is_disconnect x.1 |}
  | _ => match pump_op op with
         | Some m => {| run_client := (m (run_client r)).2; run_pumps := true |}
         | None => r
         end
  end.

(** What the operation relies on: the server issues each number once, answers
    only on a connection it has not closed, and refuses a binding only to a
    connection it does not hold bound to a device; device keys are 32 bytes. *)
Definition admits (op : ClientOp) (c : Client) : Prop :=
  match op with
  | OpAttach answer => fresh_answer answer c
  | OpControl frame => peer_open c = true /\ sound_answer frame c
  | OpDeviceKeys keys => forall k, keys = Some k -> writer_ok (Device k)
  | OpStoreCertificate h => writer_ok (Device (held_key h))
  | _ => True
  end.

(** The world around the client: local changes are captured, time passes, and
    the next accesses fail or do not. *)
Definition outside (c c' : Client) : Prop :=
  exists cs t fs, c' = with_captured cs (with_monotonic_now t (with_faults fs c)).

Inductive run_step : Run -> Run -> Prop :=
  | StepOp op r : (run_pumps r = true \/ op = OpPush \/ op = OpRestart) -> admits op (run_client r) -> run_step r (run_op op r)
  | StepOutside r c' : outside (run_client r) c' -> run_step r {| run_client := c'; run_pumps := run_pumps r |}.

(** A replica that was never opened before. *)
Definition new_client (r : Replica) (seed : Z) : Client :=
  {| db := {| t_writers := ∅; t_pending := ∅; t_retire := ∅; t_retired_keys := ∅; t_certificate := None |};
     replica := r; captured := []; writers := ∅; next_position := 1; bound_writer := None; wire := None;
     writer_tasks := []; writer_in_flight := None; pending_bind := None; writer_keys := None;
     retired_keys := ∅; resend := RsIdle; resends_armed := 0; attach_replay := None; commands := 0;
     next_request := 0; seeds := seed; monotonic_now := 0; faults := []; sent := []; uploads := [];
     issued := ∅; peer_open := false |}.

Inductive reached : Run -> Prop :=
  | ReachNew r seed : reached {| run_client := new_client r seed; run_pumps := true |}
  | ReachStep r r' : reached r -> run_step r r' -> reached r'.

(** The invariant along a run, with the writes that must be kept. *)
Definition settles (S : Z * bytes -> Prop) (op : ClientOp) (c : Client) : Prop :=
  match op with OpControl frame => unsettled S frame c | _ => True end.

Lemma run_op_ok S op r :
  (run_pumps r = true \/ op = OpPush \/ op = OpRestart) -> admits op (run_client r) -> settles S op (run_client r) ->
  ok (run_pumps r) S (run_client r) -> ok (run_pumps (run_op op r)) S (run_client (run_op op r)).
Proof.
  destruct r as [c b]. cbn [run_client run_pumps]. intros Hb Ha Hs Hok.
  assert (Htrue : op <> OpPush -> op <> OpRestart -> ok true S c) by (destruct Hb as [->|[]]; done).
  assert (Hany : forall m : CM unit, upholds (fun _ => true) S m c anyhow -> ok true S (m c).2).
  { intros m [Hm _]. by destruct (m c) as [[]]. }
  destruct op; cbn [run_op run_client run_pumps pump_op]; try (apply Hany; specialize (Htrue ltac:(done) ltac:(done))).
  - by apply push_ok.
  - by apply attach_upholds.
  - destruct Ha as [Ho Ha]. apply (handle_upholds is_disconnect S c frame); [done|by apply Htrue|done..].
  - by apply replay_upholds.
  - by apply resend_deferred_upholds.
  - by apply resume_upholds.
  - by apply disconnected_upholds.
  - by apply deadlines_upholds.
  - by apply with_device_upholds.
  - by apply store_certificate_upholds.
  - by apply delete_certificate_upholds.
  - apply same_upholds; [done|apply reapply_same].
  - by eapply open_ok.
Qed.

Lemma same_outside c c' : outside c c' -> same c c'.
Proof. intros (cs & t & fs & ->). by repeat split. Qed.

Lemma new_client_ok S r seed : (forall x, ~ S x) -> ok true S (new_client r seed).
Proof.
  intros HS.
  assert (Hrows : rows_ok (db (new_client r seed))) by (constructor; cbn; intros; simplify_map_eq).
  exists ∅. split.
  - constructor; cbn; try done. intros x Hx. by apply HS in Hx.
  - intros _ w s row _ H. cbn in H. by rewrite lookup_empty in H.
Qed.

Lemma reached_ok r : reached r -> ok (run_pumps r) (fun _ => False) (run_client r).
Proof.
  induction 1 as [r seed|r r' _ IH Hstep]; [apply new_client_ok; tauto|]. destruct Hstep as [op r Hb Ha|r c' Hout].
  - apply run_op_ok; [done|done| |done]. destruct op; try done. by intros seq w _ _ x [].
  - eapply ok_same, IH. by apply same_outside.
Qed.

(** ** Identities *)

(** The identities an upload names: its own, and the one it was first queued
    under when it was carried. *)
Definition provenance_id (p : Provenance) : WriterRef * Z := (pv_writer p, pv_seq p).
Definition upload_names (u : Upload) : list (WriterRef * Z) :=
  (up_writer u, up_seq u) :: option_list (provenance_id <$> up_provenance u).
Definition upload_origin (u : Upload) : WriterRef * Z :=
  match up_provenance u with Some p => provenance_id p | None => (up_writer u, up_seq u) end.

(** The ledger's entry under a name of an upload. *)
Lemma upload_named L iss u id :
  ledger_ok L iss -> L !! (up_writer u, up_seq u) = Some (up_provenance u, up_changeset u) ->
  id ∈ upload_names u ->
  exists p, L !! id = Some (p, up_changeset u) /\ upload_origin u = match p with Some p => provenance_id p | None => id end.
Proof.
  intros HL Hu. unfold upload_names, upload_origin. rewrite elem_of_cons. destruct (up_provenance u) as [p|] eqn:Ep; cbn.
  - intros [->| ->%list_elem_of_singleton]; [by exists (Some p)|]. exists None. split; [|done]. by apply (lo_prov _ _ HL) in Hu.
  - intros [->|?%not_elem_of_nil]; [|done]. by exists None.
Qed.

(** C10. Whatever the order of pushes, answers, carries, failures and restarts, two
    mutations the client ever sent that share an identity are the same write:
    they come from one place in one queue and carry the same changes. *)
Theorem uploads_identified (r : Run) (u v : Upload) (id : WriterRef * Z) :
  reached r -> u ∈ uploads (run_client r) -> v ∈ uploads (run_client r) ->
  id ∈ upload_names u -> id ∈ upload_names v ->
  upload_origin u = upload_origin v /\ up_changeset u = up_changeset v.
Proof.
  intros Hr Hu Hv Hiu Hiv. destruct (reached_ok r Hr) as (L & Hs & _).
  pose proof (so_ledger _ _ _ Hs) as HL. pose proof (so_uploads _ _ _ Hs) as Hup. rewrite Forall_forall in Hup.
  destruct (upload_named L _ u id HL (Hup _ Hu) Hiu) as (p & Hp & ->).
  destruct (upload_named L _ v id HL (Hup _ Hv) Hiv) as (p' & Hp' & ->). by simplify_eq.
Qed.

Lemma choose_eq c w c' : choose_writer c = (Ok w, c') -> forall b S, ok b S c -> same c c' /\ hosts c w /\ captured c' = captured c.
Proof.
  intros E b S Hok. destruct (choose_ok b S c Hok) as (w1 & c1 & E1 & Hsm & Hh).
  assert (captured c' = captured c) as ->; [|rewrite E in E1; by simplify_eq].
  revert E. unfold choose_writer, device_certificate, bind, attempt.
  destruct (query_cases t_certificate c) as (l & [-> | ->]); cbn; [by intros [= <- <-]|].
  destruct (t_certificate (db c)); cbn; [case_decide|]; by intros [= <- <-].
Qed.

Lemma send_fields frame c a c' : send frame c = (Ok a, c') -> writers c' = writers c /\ captured c' = captured c.
Proof.
  unfold send, bind. cbn [get]. destruct (wire c); [|done].
  destruct (fault_cases c) as (x & l & ->). destruct x; [done|]. by intros [= _ <-].
Qed.

Lemma send_mutation_fields w s cs p c a c' :
  send_mutation w s cs p c = (Ok a, c') -> writers c' = writers c /\ captured c' = captured c.
Proof.
  unfold send_mutation. unfold bind at 1. cbn [get]. case_decide; [done|]. unfold bind at 1, lift.
  destruct (logical cs) as [up|]; [|done]. cbn [ok_or]. unfold bind at 1.
  destruct (compress up) as [pay|]; [|done]. cbn [ok_or]. intros E.
  apply bind_inv in E as [(? & _ & ?)|(u & c1 & E1 & E)]; [done|].
  apply bind_inv in E as [(? & _ & ?)|(v & c2 & E2 & E)]; [done|].
  apply send_fields in E as [-> ->], E2 as [-> ->]. unfold record_upload, modify in E1. injection E1 as _ <-.
  by destruct (peer_open c).
Qed.

(** What a push does once its write is queued. *)
Lemma push_sends w s cs c seq c' :
  (failed <~ fault;;
   if failed then throw ESession
   else (modify (with_captured []) ~>
     (c <~ get;;
      if is_connected c && bool_decide (bound_writer c = Some w) then
        send_mutation w s cs None ~> ret (Some s)
      else ret (Some s)))) c = (Ok (Some seq), c') ->
  s = seq /\ writers c' = writers c /\ captured c' = [].
Proof.
  intros E. unfold bind at 1 in E. destruct (fault_cases c) as (b & l & Ef). rewrite Ef in E. destruct b; [done|].
  unfold bind at 1, modify, bind at 1 in E. cbn [get] in E. destruct (is_connected _ && _).
  - apply bind_inv in E as [(? & _ & ?)|(a & c1 & E1 & E)]; [done|]. injection E as -> <-.
    by apply send_mutation_fields in E1 as [-> ->].
  - by injection E as -> <-.
Qed.

(** A push that returns a sequence queued the captured changes, without
    provenance, under a writer and sequence that nothing sent before names. *)
Theorem push_allots_fresh (r : Run) (seq : Z) (c' : Client) :
  reached r -> push (run_client r) = (Ok (Some seq), c') ->
  exists w e, has_entry c' w seq e /\ pe_changeset e = captured (run_client r) /\ pe_provenance e = None /\
    captured c' = [] /\ forall u, u ∈ uploads (run_client r) -> (w, seq) ∉ upload_names u.
Proof.
  intros Hr E. pose proof (reached_ok r Hr) as Hok. generalize dependent (run_client r). intros c E Hok.
  unfold push in E. unfold bind at 1 in E. cbn [get] in E. destruct (captured c) as [|x cs] eqn:Ecap; [done|].
  rewrite <- Ecap in *. apply bind_inv in E as [(? & _ & ?)|(w & c1 & Ew & E)]; [done|].
  destruct (choose_eq _ _ _ Ew _ _ Hok) as (Hsm & Hh & Ec).
  destruct (append_ok _ _ c1 w (captured c) (ok_same _ _ _ _ Hsm Hok) (hosts_same _ _ _ Hsm Hh)) as [Hok2 Hseq].
  apply bind_inv in E as [(? & _ & ?)|(s & c2 & Ea & E)]; [done|]. rewrite Ea in Hok2, Hseq. cbn [fst snd] in *.
  destruct Hseq as (Es & _ & q & e & Hq & He & Hce & Hpe). apply push_sends in E as (-> & Hw' & Hc').
  exists w, e. split_and!; [by exists q; rewrite Hw'|done|done|done|].
  intros u Hu Hin. destruct Hok as (L & Hs & _). pose proof (so_uploads _ _ _ Hs) as Hup. rewrite Forall_forall in Hup.
  destruct (upload_named L _ u _ (so_ledger _ _ _ Hs) (Hup _ Hu) Hin) as (p & Hp & _).
  pose proof (host_taken L _ c w seq _ Hs Hh Hp) as Hlt. rewrite Es in Hlt. unfold standing in Hlt.
  destruct Hsm as (_ & E2 & _). rewrite E2 in Hlt. lia.
Qed.

(** ** Writes are kept *)

(** The sequence an operation settles. *)
Definition answers (op : ClientOp) : option Z :=
  match op with OpControl frame => final_seq frame | _ => None end.

(** C11. A queued write stays queued, with its changes and its place in the order of
    writing, through every step but the server's final answer for it: sends,
    carries, re-keyings, refusals, failed statements, a dead pump and restarts
    lose none. *)
Theorem writes_kept (r r' : Run) (w : WriterRef) (s : Z) (e : PendingEntry) :
  reached r -> run_step r r' -> has_entry (run_client r) w s e ->
  queued (writers (run_client r')) (pe_position e, pe_changeset e) \/
  exists frame, r' = run_op (OpControl frame) r /\ final_seq frame = Some s /\ bound_writer (run_client r) = Some w.
Proof.
  intros Hr Hstep (q & Hq & He). set (x := (pe_position e, pe_changeset e)).
  assert (Hok : ok (run_pumps r) (fun y => y = x) (run_client r)).
  { destruct (reached_ok r Hr) as (L & [] & Hm). exists L. split; [|done]. constructor; try done.
    intros y ->. by exists w, q, s, e. }
  assert (Hheld : forall b c, ok b (fun y => y = x) c -> queued (writers c) x).
  { intros b c (L & Hs & _). by apply (so_held _ _ _ Hs). }
  destruct Hstep as [op r Hb Ha|r c' Hout].
  - destruct (decide (answers op = Some s /\ bound_writer (run_client r) = Some w)) as [[Hf Hbw]|Hf].
    + right. destruct op as [| |frame| | | | | | | | | |]; try done. by exists frame.
    + left. eapply Hheld, run_op_ok; [done|done| |done]. destruct op; try done. intros seq v Hseq Hv y ->.
      exists w, q, s, e. split_and!; [done..|]. intros [= <- <-]. by apply Hf.
  - left. eapply Hheld, ok_same, Hok. by apply same_outside.
Qed.

(** The entries a client holds for a writer. *)
Definition held_entries (c : Client) (w : WriterRef) : gmap Z PendingEntry :=
  default ∅ (wq_pending <$> writers c !! w).

Lemma elem_of_held c w s e : held_entries c w !! s = Some e <-> has_entry c w s e.
Proof.
  unfold held_entries, has_entry. destruct (writers c !! w) as [q|]; cbn; [naive_solver|].
  rewrite lookup_empty. naive_solver.
Qed.

Lemma restart_queues (r : Run) (w : WriterRef) :
  reached r -> run_pumps r = true -> writer_ok w ->
  let c' := open_replica (run_client r) in
  retired_keys c' = retired_keys (run_client r) /\ held_entries c' w = held_entries (run_client r) w.
Proof.
  intros Hr Hp Hw c'. pose proof (reached_ok r Hr) as (L & Hs & Hm). specialize (Hm Hp).
  pose proof (so_tables _ _ _ Hs) as Ht. pose proof (to_rows _ _ _ _ Ht) as Hrows.
  assert (Ew : writers c' = (load_writer_queues (db (run_client r))).1).
  { unfold c', open_replica. by destruct (load_writer_queues _). }
  assert (Ek : retired_keys c' = load_retired_keys (db (run_client r))).
  { unfold c', open_replica. by destruct (load_writer_queues _). }
  rewrite Ek. split; [by eapply loaded_keys_kept|].
  apply map_eq. intros s. apply option_eq. intros e. rewrite !elem_of_held. unfold has_entry. rewrite Ew. split.
  - intros (q & Hq & He). destruct (load_queues_lookup _ Hrows _ _ Hq) as (_ & _ & _ & Hiff). apply Hiff in He as [Hrow Hok].
    destruct (Hm _ _ _ Hw Hrow) as (q' & e' & Hq' & He'). exists q'. split; [done|].
    destruct (mo_pending _ _ _ _ _ (so_memory _ _ _ Hs) _ _ _ _ Hq' He') as [Hrow' Hok'].
    rewrite Hrow in Hrow'. apply (inj Some) in Hrow'. by apply row_of_entry_inj in Hrow' as ->.
  - intros (q & Hq & He). destruct (mo_pending _ _ _ _ _ (so_memory _ _ _ Hs) _ _ _ _ Hq He) as [Hrow Hok].
    by apply loaded_entry.
Qed.

(** C31. A restart of a client whose pump runs finds its queues again: each writer's
    entries, with their sequences, changes, chain hashes, order and provenance, and
    the retired keys. *)
Theorem restart_restores (r : Run) (w : WriterRef) :
  reached r -> run_pumps r = true -> writer_ok w ->
  let c' := open_replica (run_client r) in
  retired_keys c' = retired_keys (run_client r) /\ held_entries c' w = held_entries (run_client r) w.
Proof. apply restart_queues. Qed.

(** ** Answered writes are gone *)

Definition gone (w : WriterRef) (seq : Z) (ws : gmap WriterRef WriterQueue) : Prop :=
  forall q, ws !! w = Some q -> wq_pending q !! seq = None.

Lemma statement_writers f c : writers (statement f c).2 = writers c.
Proof. destruct (statement_cases f c) as [(e & l & ->)|(t & l & _ & ->)]; done. Qed.

Lemma flush_writers c : writers (flush_writer_tasks c).2 = writers c.
Proof.
  unfold flush_writer_tasks. unfold bind at 1. cbn [get]. destruct (writer_in_flight c); [done|].
  destruct (wire c); [|done]. destruct (writer_tasks c) as [|task tasks]; [done|].
  apply (after_bind (fun c' => writers c' = writers c)); [done|]. intros _ c1 _ H1.
  apply (after_bind (fun c' => writers c' = writers c)); [|by intros _ c2 _ H2].
  rewrite <- H1. apply (send_same _ c1).
Qed.

Lemma retire_gone w seq number c : gone w seq (writers c) -> gone w seq (writers (retire_number number c).2).
Proof.
  set (P := fun c' : Client => gone w seq (writers c')). change (P c -> P (retire_number number c).2).
  assert (Hst : forall f c, P c -> P (statement f c).2) by (intros f c' Hg; unfold P; by rewrite statement_writers).
  intros Hg. unfold retire_number. do 3 (apply after_step; [by apply Hst|]; clear c Hg; intros _ c Hg).
  do 2 (apply after_step; [done|]; clear c Hg; intros ? c Hg). intros q Hq. cbn in Hq. apply lookup_delete_Some in Hq as [_ Hq]. by apply Hg.
Qed.

Lemma finish_gone w seq c : gone w seq (writers c) -> gone w seq (writers (finish_number_tail c).2).
Proof.
  set (P := fun c' : Client => gone w seq (writers c')). change (P c -> P (finish_number_tail c).2).
  intros Hg. unfold finish_number_tail. unfold bind at 1. cbn [get]. destruct (bound_writer c) as [[k|n]|]; [done| |done].
  destruct (writers c !! Number n) as [q|]; [|done]. case_decide; [done|]. destruct (pending_bind c) as [task|]; [|done].
  do 2 (apply after_step; [done|]; clear c Hg; intros _ c Hg).
  apply after_step; [by apply retire_gone|]. clear c Hg. intros _ c Hg. unfold P. by rewrite flush_writers.
Qed.

Lemma take_gone w seq c : gone w seq (writers (take_pending w seq c).2).
Proof.
  destruct (take_cases w seq c) as [E|(q & e & Hq & He & ->)].
  - rewrite E. cbn. intros q Hq. unfold take_pending, bind in E. cbn [get] in E. rewrite Hq in E.
    by destruct (wq_pending q !! seq).
  - cbn. intros q'. rewrite lookup_insert_eq. intros [= <-]. cbn. apply lookup_delete_eq.
Qed.

Lemma rollback_gone w seq c : gone w seq (writers (rollback w seq c).2).
Proof.
  unfold rollback. apply (after_bind (fun c' => gone w seq (writers c'))); [apply take_gone|].
  intros [e|] c1 _ Hg; [|done]. apply (after_lift (fun c' => gone w seq (writers c'))); [done|]. intros rows _.
  apply (after_lift (fun c' => gone w seq (writers c'))); [done|]. intros inverse _.
  apply (after_bind (fun c' => gone w seq (writers c'))); [by rewrite statement_writers|]. intros _ c2 _ Hg2.
  unfold bind at 1. cbn [get]. by apply (after_lift (fun c' => gone w seq (writers c'))).
Qed.

Lemma settle_resend_writers c : writers (settle_resend c).2 = writers c.
Proof. cbn. by destruct (resend c). Qed.

Lemma final_gone frame seq w c :
  final_seq frame = Some seq -> bound_writer c = Some w -> gone w seq (writers (handle_control frame c).2).
Proof.
  set (P := fun c' : Client => gone w seq (writers c')). change (gone w seq (writers ?c')) with (P c').
  assert (Hfin : forall (ev : ClientEvent) c1, P c1 -> P ((finish_number_tail ~> ret ev) c1).2).
  { intros ev c1 H1. apply after_bind; [by apply finish_gone|done]. }
  intros Hf Hb. assert (Es : settle_resend c = (Ok tt, (settle_resend c).2)) by done.
  assert (Hb0 : bound_writer (settle_resend c).2 = Some w) by (cbn; by destruct (resend c)).
  destruct frame as [s|s reason|s table row| | |]; cbn [final_seq handle_control] in *; try done.
  - injection Hf as ->. unfold mutation_applied. unfold bind at 1. cbn [get]. rewrite Hb.
    apply after_bind.
    + apply after_bind; [apply take_gone|]. intros [e|] c1 _ H1; [|done]. unfold P. by rewrite statement_writers.
    + intros _ c1 _ H1. apply after_bind; [unfold P; by rewrite settle_resend_writers|]. intros _ c2 _ H2. by apply Hfin.
  - case_decide as Hr; [done|]. injection Hf as ->. unfold mutation_rejected. unfold bind at 1. cbn [get].
    rewrite decide_False by done. unfold bind at 1. rewrite Es, Hb.
    apply after_step; [apply rollback_gone|]. intros rows c1 H1. by apply Hfin.
  - injection Hf as ->. unfold mutation_conflict. unfold bind at 1. rewrite Es.
    unfold bind at 1. cbn [get]. rewrite Hb0. unfold bind at 1, lift. cbn [ok_or].
    apply after_step; [apply rollback_gone|]. intros rows c1 H1. by apply Hfin.
Qed.

(** Once a final answer for a sequence is handled, the write is out of the queue
    and out of the tables: neither a replay nor a restart sends it again. *)
Theorem answered_settled (r : Run) (frame : Frame) (seq : Z) (w : WriterRef) :
  reached r -> run_pumps r = true -> admits (OpControl frame) (run_client r) ->
  final_seq frame = Some seq -> bound_writer (run_client r) = Some w ->
  let r' := run_op (OpControl frame) r in
  (forall e, ~ has_entry (run_client r') w seq e) /\
  (run_pumps r' = true -> forall e, ~ has_entry (run_client (run_op OpRestart r')) w seq e).
Proof.
  intros Hr Hp Ha Hf Hb r'. assert (Hr' : reached r') by (eapply ReachStep; [done|]; by constructor; [left|]).
  assert (Hg : gone w seq (writers (run_client r'))) by (by apply final_gone).
  split; [intros e (q & Hq & He); by rewrite (Hg _ Hq) in He|]. intros Hp' e He.
  assert (Hw : writer_ok w).
  { destruct (reached_ok r Hr) as (L & Hs & _). destruct Ha as [Ho _]. by apply (so_bound _ _ _ Hs Ho). }
  destruct (restart_queues r' w Hr' Hp' Hw) as [_ Heq]. apply elem_of_held in He. cbn [run_op run_client] in He.
  rewrite Heq in He. apply elem_of_held in He as (q & Hq & He). by rewrite (Hg _ Hq) in He.
Qed.
End Runs.
