(* ===== verification/Oplog.v ===== *)
(** The reconnect log, [connetto-server/src/oplog.rs], and what the session layer
    of [connetto-server/src/session.rs] replays from it.

    [Oplog] is the trait's promise as a class over the log's state: what the log
    holds ([retained]) and how each operation moves it. [InMemoryOplog] and
    [PgOplog] are its two implementations, and the session's theorems are proved
    against the class. Records carry the change-data library's event, a parameter;
    its position and kind are all that is used of it. *)

From Stdlib Require Import ZArith Lia Sorted.
From stdpp Require Import base list numbers option strings.
From S2P Require Import Prelude Cursor.

Open Scope Z_scope.

Inductive EventKind := EInsert | EUpdate | EDelete | ETruncate.
Inductive ChangeOp := Insert | Update | Delete | Truncate.

Definition op_label (o : ChangeOp) : string :=
  match o with
  | Insert => "insert" | Update => "update" | Delete => "delete" | Truncate => "truncate"
  end.

(** [FromSql] for [ChangeOp]. *)
Definition op_from_label (s : string) : option ChangeOp :=
  if decide (s = "insert"%string) then Some Insert
  else if decide (s = "update"%string) then Some Update
  else if decide (s = "delete"%string) then Some Delete
  else if decide (s = "truncate"%string) then Some Truncate
  else None.

Definition op_of (k : EventKind) : ChangeOp :=
  match k with EInsert => Insert | EUpdate => Update | EDelete => Delete | ETruncate => Truncate end.

Record OplogConfig := { max_entries : Z; max_age : Z }.

Section Records.
Context {P : Type} `{PL : PgPositionLaws P}.
(** The decoded change inside an event. *)
Context {C : Type}.

Record PgChangeEvent := { change : C; kind : EventKind; position : P }.

Record ChangeRecord := { r_table : string; r_pk : bytes; r_event : PgChangeEvent; r_payload : bytes }.

Definition r_position (r : ChangeRecord) : P := position (r_event r).
Definition is_tombstone (r : ChangeRecord) : bool :=
  match kind (r_event r) with EDelete => true | _ => false end.
Definition r_op (r : ChangeRecord) : ChangeOp := op_of (kind (r_event r)).

Record PgCommit := { c_position : P; end_lsn : Z }.

Inductive CatchupDecision := Catchup | FullResync.

Definition catchup_decision (resume : P) (min current : option P) : CatchupDecision :=
  if decide (commit_lsn resume = 0) then FullResync
  else match min with
  | Some m => if pos_leb m resume then Catchup else FullResync
  | None => FullResync
  end.

(** ** The log in memory *)

Record Entry := { appended_micros : Z; record : ChangeRecord }.

Record Inner := { entries : list Entry; max_position : option P; m_last_commit : option PgCommit }.

Definition new_inner : Inner := {| entries := []; max_position := None; m_last_commit := None |}.

(** [max_age.as_micros()] saturated into a [u64]. *)
Definition max_age_micros (c : OplogConfig) : Z := default u64_max (try_into u64_max (max_age c / 1000)).

(** The loop of [prune_locked]. *)
Fixpoint prune_locked (c : OplogConfig) (now : Z) (l : list Entry) : list Entry :=
  match l with
  | [] => []
  | front :: rest =>
      if decide (max_age_micros c < sat_sub now (appended_micros front)
                 \/ max_entries c < Z.of_nat (length l))
      then prune_locked c now rest else l
  end.

Definition m_append (c : OplogConfig) (now : Z) (r : ChangeRecord) (i : Inner) : Inner :=
  match max_position i with
  | Some latest =>
      if pos_leb (r_position r) latest then i
      else {| entries := prune_locked c now (entries i ++ [{| appended_micros := now; record := r |}]);
              max_position := Some (r_position r); m_last_commit := m_last_commit i |}
  | None =>
      {| entries := prune_locked c now (entries i ++ [{| appended_micros := now; record := r |}]);
         max_position := Some (r_position r); m_last_commit := m_last_commit i |}
  end.

Definition m_entries_since (after : P) (i : Inner) : list ChangeRecord :=
  filter (fun r => pos_ltb after (r_position r) = true) (record <$> entries i).

Definition m_entries_of (u : Unseen) (i : Inner) : list ChangeRecord :=
  filter (fun r => unseen_contains u (xid (r_position r)) = true) (record <$> entries i).

Definition m_min_position (i : Inner) : option P :=
  (fun e => r_position (record e)) <$> head (entries i).

Definition m_current_position (i : Inner) : option P := max_position i.

Definition later_commit (last : option PgCommit) (commit : PgCommit) : option PgCommit :=
  match last with
  | None => Some commit
  | Some l => if decide (end_lsn l < end_lsn commit) then Some commit else last
  end.

Definition m_record_commit (commit : PgCommit) (i : Inner) : Inner :=
  {| entries := entries i; max_position := max_position i;
     m_last_commit := later_commit (m_last_commit i) commit |}.

Definition m_forget_through (through : P) (i : Inner) : Inner :=
  {| entries := filter (fun e => pos_ltb through (r_position (record e)) = true) (entries i);
     max_position := max_position i; m_last_commit := m_last_commit i |}.

(** ** The log in Postgres *)

Inductive PgOplogError := Pool | Query | Codec | LsnRange (part : Z).

Definition part_to_i64 (part : Z) : Result Z PgOplogError := ok_or (try_into i64_max part) (LsnRange part).

Definition position_to_i64 (p : P) : Result (Z * Z * Z) PgOplogError :=
  rbind (part_to_i64 (commit_lsn p)) (fun l =>
  rbind (part_to_i64 (ordinal p)) (fun o => Ok (l, xid p, o))).

Definition position_from_i64 (k : Z * Z * Z) : P :=
  let '(l, x, o) := k in
  new_position (u64_or_zero l) (default 0 (try_into u32_max x)) (u64_or_zero o).

(** The event column: the decoded change and its kind, through a JSON codec. *)
Class EventCodec := {
  to_json : C * EventKind -> option bytes;
  from_json : bytes -> option (C * EventKind);
}.
Class EventCodecLaws `{EventCodec} := {
  json_roundtrip : forall e b, to_json e = Some b -> from_json b = Some e;
}.

Record OplogRow := {
  key : Z * Z * Z;
  table_name : string;
  op : ChangeOp;
  pk : bytes;
  tombstone : bool;
  event : bytes;
  payload : bytes;
  appended_at : Z;
}.

Record CommitRow := { row_commit_lsn : Z; row_xid : Z; row_end_lsn : Z }.

(** The rows in the order of the primary key, and the companion table. *)
Record PgState := { rows : list OplogRow; commit_row : option CommitRow }.

Definition new_pg : PgState := {| rows := []; commit_row := None |}.

Context `{EC : EventCodec}.

(** [INSERT ... ON CONFLICT (commit_lsn, xid, ordinal) DO NOTHING]. *)
Fixpoint insert_row (r : OplogRow) (l : list OplogRow) : list OplogRow :=
  match l with
  | [] => [r]
  | r' :: l' =>
      match cmp_parts (key r) (key r') with
      | Lt => r :: l
      | Eq => l
      | Gt => r' :: insert_row r l'
      end
  end.

(** [prune]: keep the newest [max_entries] rows, then drop those older than the
    window; [now] is the database's clock, in nanoseconds. *)
Definition by_count (c : OplogConfig) (l : list OplogRow) : list OplogRow :=
  drop (length l - Z.to_nat (i64_or_max (max_entries c)))%nat l.

Definition max_age_secs (c : OplogConfig) : Z := i64_or_max (max_age c / 1000000000).

Definition by_age (c : OplogConfig) (now : Z) (l : list OplogRow) : list OplogRow :=
  filter (fun r => now - max_age_secs c * 1000000000 <= appended_at r) l.

Definition row_of (r : ChangeRecord) (now : Z) : Result OplogRow PgOplogError :=
  rbind (ok_or (to_json (change (r_event r), kind (r_event r))) Codec) (fun e =>
  rbind (position_to_i64 (r_position r)) (fun k =>
  Ok {| key := k; table_name := r_table r; op := r_op r; pk := r_pk r;
        tombstone := is_tombstone r; event := e; payload := r_payload r; appended_at := now |})).

(** [append]: the insert, then the prune, on statements that succeed. *)
Definition p_append (c : OplogConfig) (now : Z) (r : ChangeRecord) (s : PgState) :
    Result PgState PgOplogError :=
  rbind (row_of r now) (fun row =>
  Ok {| rows := by_age c now (by_count c (insert_row row (rows s))); commit_row := commit_row s |}).

(** [Self::record]. *)
Definition record_of (row : OplogRow) : Result ChangeRecord PgOplogError :=
  rbind (ok_or (from_json (event row)) Codec) (fun ck =>
  Ok {| r_table := table_name row; r_pk := pk row;
        r_event := {| change := ck.1; kind := ck.2; position := position_from_i64 (key row) |};
        r_payload := payload row |}).

Definition p_entries_since (after : P) (s : PgState) : Result (list ChangeRecord) PgOplogError :=
  rbind (position_to_i64 after) (fun k =>
  try_map record_of (filter (fun row => cmp_parts k (key row) = Lt) (rows s))).

(** The ranges of [entries_of]: [from..upto] and [0..wrapped]. *)
Definition xid_ranges (u : Unseen) : Z * Z * Z :=
  let IDS := Z.shiftl 1 32 in
  let from := unseen_from u in
  let end_ := from + Z.shiftl 1 31 in
  if decide (end_ <= IDS) then (from, end_, 0) else (from, IDS, end_ - IDS).

Definition selects (u : Unseen) (x : Z) : bool :=
  let '(from, upto, wrapped) := xid_ranges u in
  bool_decide (x ∈ running u) || (bool_decide (from <= x) && bool_decide (x < upto))
  || bool_decide (x < wrapped).

Definition p_entries_of (u : Unseen) (s : PgState) : Result (list ChangeRecord) PgOplogError :=
  try_map record_of (filter (fun row => selects u (key row).1.2 = true) (rows s)).

Definition p_min_position (s : PgState) : option P :=
  (fun r => position_from_i64 (key r)) <$> head (rows s).

Definition p_current_position (s : PgState) : option P :=
  (fun r => position_from_i64 (key r)) <$> last (rows s).

Definition p_record_commit (commit : PgCommit) (s : PgState) : Result PgState PgOplogError :=
  rbind (part_to_i64 (commit_lsn (c_position commit))) (fun l =>
  rbind (part_to_i64 (end_lsn commit)) (fun e =>
  let row := {| row_commit_lsn := l; row_xid := xid (c_position commit); row_end_lsn := e |} in
  Ok {| rows := rows s;
        commit_row := match commit_row s with
                      | None => Some row
                      | Some old => if decide (row_end_lsn old < e) then Some row else Some old
                      end |})).

Definition p_last_commit (s : PgState) : option PgCommit :=
  (fun row => {| c_position := at_commit (u64_or_zero (row_commit_lsn row))
                                 (default 0 (try_into u32_max (row_xid row)));
                 end_lsn := u64_or_zero (row_end_lsn row) |}) <$> commit_row s.

Definition p_forget_through (through : P) (s : PgState) : Result PgState PgOplogError :=
  rbind (position_to_i64 through) (fun k =>
  Ok {| rows := filter (fun row => cmp_parts k (key row) = Lt) (rows s);
        commit_row := commit_row s |}).
End Records.
Arguments PgChangeEvent P C : clear implicits.
Arguments ChangeRecord P C : clear implicits.
Arguments PgCommit P : clear implicits.
Arguments Entry P C : clear implicits.
Arguments Inner P C : clear implicits.
Arguments EventCodec C : clear implicits.
Arguments EventCodecLaws C {_}.

(** ** The transactions a snapshot did not see *)

Lemma selects_contains (u : Unseen) (x : Z) :
  in_u32 (unseen_from u) -> in_u32 x -> selects u x = unseen_contains u x.
Proof.
  unfold in_u32, u32_max, selects, unseen_contains, xid_ranges, wrap_u32. intros Hf Hx.
  change (Z.shiftl 1 32) with 4294967296. change (Z.shiftl 1 31) with 2147483648.
  assert (Hm : (x - unseen_from u) mod 4294967296 =
    if decide (unseen_from u <= x) then x - unseen_from u else x - unseen_from u + 4294967296).
  { case_decide; [by apply Z.mod_small; lia|].
    rewrite <- (Z_mod_plus_full _ 1). apply Z.mod_small. lia. }
  rewrite Hm. destruct (decide (unseen_from u + 2147483648 <= 4294967296)),
    (decide (unseen_from u <= x)); destruct (bool_decide (x ∈ running u)); simpl;
    repeat case_bool_decide; simpl; done || lia.
Qed.

(** The two index ranges Postgres is asked for are the wrapping window of
    2^31 transaction ids from the snapshot's [xmax] on: the statement selects
    exactly the transactions [Unseen::contains] names, also when the window runs
    past the end of the 32-bit ids. *)
Theorem xid_ranges_exact (u : Unseen) (x : Z) :
  in_u32 (unseen_from u) -> in_u32 x -> selects u x = unseen_contains u x.
Proof. apply selects_contains. Qed.

(** ** Lists in commit order *)

Section Ordered.
Context {P : Type} `{PL : PgPositionLaws P} {C : Type}.
#[local] Abbreviation Rec := (ChangeRecord P C).
Implicit Types (r : Rec) (l h : list Rec).

Definition before r r' : Prop := pos_lt (r_position r) (r_position r').
#[local] Abbreviation ordered := (StronglySorted before).

Lemma ordered_app l l' :
  ordered (l ++ l') <->
  ordered l /\ ordered l' /\ forall r r', r ∈ l -> r' ∈ l' -> before r r'.
Proof.
  induction l as [|a l IH]; simpl.
  - split; [intros Ho; split_and!; [constructor|done|]|naive_solver].
    by intros ?? ?%not_elem_of_nil.
  - split.
    + intros Ho. apply StronglySorted_inv in Ho as [Ho Ha]. apply IH in Ho as (H1 & H2 & H3).
      rewrite Forall_app, !Forall_forall in Ha. destruct Ha as [Ha1 Ha2]. split_and!; [|done|].
      * constructor; [done|]. by rewrite Forall_forall.
      * intros r r' [->|?]%elem_of_cons ?; [by apply Ha2|by apply H3].
    + intros (H1 & H2 & H3). apply StronglySorted_inv in H1 as [H1 Ha].
      constructor; [apply IH; split_and!; [done|done|]|].
      * intros r r' ??. apply H3; [by right|done].
      * rewrite Forall_app, !Forall_forall in *. split; [done|].
        intros r' ?. apply H3; [by left|done].
Qed.

Lemma ordered_drop n l : ordered l -> ordered (drop n l).
Proof. intros Ho. rewrite <- (take_drop n l) in Ho. by apply ordered_app in Ho as (_ & ? & _). Qed.

Lemma elem_of_list_drop_sub {A} (a : A) n (l : list A) : a ∈ drop n l -> a ∈ l.
Proof. intros Ha. rewrite <- (take_drop n l). apply elem_of_app. by right. Qed.

(** Everything after [p], in an ordered list, is a suffix. *)
Lemma filter_after_suffix p l :
  ordered l -> exists n, filter (fun r => pos_ltb p (r_position r) = true) l = drop n l.
Proof.
  induction 1 as [|a l Ho IH Ha]; [by exists 0%nat|]. rewrite filter_cons.
  destruct (decide (pos_ltb p (r_position a) = true)) as [Hp|Hp].
  - exists 0%nat. simpl. f_equal. rewrite filter_all; [done|]. rewrite !Forall_forall in *. intros r Hr.
    apply pos_ltb_lt. apply pos_ltb_lt in Hp. eapply pos_lt_trans; [done|]. by apply Ha.
  - destruct IH as [n ->]. by exists (S n).
Qed.

(** A suffix that starts at or before [p] holds everything after [p]. *)
Lemma suffix_after p l n r :
  ordered l -> head (drop n l) = Some r -> pos_le (r_position r) p ->
  filter (fun r => pos_ltb p (r_position r) = true) (drop n l) =
  filter (fun r => pos_ltb p (r_position r) = true) l.
Proof.
  intros Ho Hh Hle. rewrite <- (take_drop n l) at 2. rewrite filter_app.
  rewrite (filter_none _ (take n l)); [done|]. rewrite Forall_forall. intros r' Hr'.
  rewrite <- (take_drop n l) in Ho. apply ordered_app in Ho as (_ & _ & Ho).
  assert (Hb : before r' r).
  { apply Ho; [done|]. destruct (drop n l); [done|]. injection Hh as ->. by left. }
  rewrite pos_ltb_lt. intros Hlt. apply (pos_lt_irrefl p).
  eapply pos_lt_trans; [done|]. by eapply pos_lt_le_trans.
Qed.
End Ordered.
#[export] Hint Resolve ordered_drop : connetto.

(** ** The trait's promise *)

Class Oplog (P C St E : Type) := {
  log_new : St;
  log_append : Z -> ChangeRecord P C -> St -> Result St E;
  log_since : P -> St -> Result (list (ChangeRecord P C)) E;
  log_of : Unseen -> St -> Result (list (ChangeRecord P C)) E;
  log_min : St -> option P;
  log_current : St -> option P;
  log_record_commit : PgCommit P -> St -> Result St E;
  log_last_commit : St -> option (PgCommit P);
  log_forget : P -> St -> Result St E;
}.

(** [holds st w l t]: at time [t] the log retains exactly [l], and [w] is the
    latest position ever appended. Appending the next change, or one still
    retained, and forgetting a stretch each leave a suffix of what there was. *)
Class OplogLaws {P : Type} `{PP : PgPosition P} (C St E : Type) `{OP : Oplog P C St E} := {
  holds : St -> option P -> list (ChangeRecord P C) -> Z -> Prop;
  holds_new : forall t, holds log_new None [] t;
  holds_ordered : forall st w l t, holds st w l t ->
    StronglySorted before l /\ forall r, r ∈ l -> exists m, w = Some m /\ pos_le (r_position r) m;
  holds_later : forall st w l t t', holds st w l t -> t <= t' -> holds st w l t';
  append_next : forall st st' w l t now r,
    holds st w l t -> t <= now -> (forall m, w = Some m -> pos_lt m (r_position r)) ->
    log_append now r st = Ok st' ->
    exists n, holds st' (Some (r_position r)) (drop n (l ++ [r])) now;
  append_again : forall st st' w l t now r,
    holds st w l t -> t <= now -> r ∈ l -> log_append now r st = Ok st' ->
    exists n, holds st' w (drop n l) now;
  since_exact : forall st w l t p rs,
    holds st w l t -> log_since p st = Ok rs ->
    rs = filter (fun r => pos_ltb p (r_position r) = true) l;
  of_exact : forall st w l t u rs,
    holds st w l t -> in_u32 (unseen_from u) -> log_of u st = Ok rs ->
    rs = filter (fun r => unseen_contains u (xid (r_position r)) = true) l;
  min_exact : forall st w l t, holds st w l t -> log_min st = r_position <$> head l;
  current_bounds : forall st w l t, holds st w l t ->
    (forall r, r ∈ l -> exists c, log_current st = Some c /\ pos_le (r_position r) c) /\
    (forall c, log_current st = Some c -> exists m, w = Some m /\ pos_le c m);
  forget_exact : forall st st' w l t p,
    holds st w l t -> log_forget p st = Ok st' ->
    holds st' w (filter (fun r => pos_ltb p (r_position r) = true) l) t;
  commit_keeps : forall st st' w l t c,
    holds st w l t -> log_record_commit c st = Ok st' -> holds st' w l t;
  append_commit : forall st st' now r, log_append now r st = Ok st' ->
    end_lsn <$> log_last_commit st' = end_lsn <$> log_last_commit st;
  forget_commit : forall st st' p, log_forget p st = Ok st' ->
    end_lsn <$> log_last_commit st' = end_lsn <$> log_last_commit st;
  record_commit_end : forall st st' w l t c,
    holds st w l t -> in_u64 (end_lsn c) -> log_record_commit c st = Ok st' ->
    end_lsn <$> log_last_commit st' =
    Some (match end_lsn <$> log_last_commit st with
          | Some e => if decide (e < end_lsn c) then end_lsn c else e
          | None => end_lsn c
          end);
  new_commit : log_last_commit log_new = None;
}.

(** *** The log in memory keeps it *)

Section Memory.
Context {P : Type} `{PL : PgPositionLaws P} {C : Type} (cfg : OplogConfig).

#[export] Instance InMemoryOplog : Oplog P C (Inner P C) Empty_set := {|
  log_new := new_inner;
  log_append := fun now r i => Ok (m_append cfg now r i);
  log_since := fun p i => Ok (m_entries_since p i);
  log_of := fun u i => Ok (m_entries_of u i);
  log_min := m_min_position;
  log_current := m_current_position;
  log_record_commit := fun c i => Ok (m_record_commit c i);
  log_last_commit := m_last_commit;
  log_forget := fun p i => Ok (m_forget_through p i);
|}.

Definition m_holds (i : Inner P C) (w : option P) (l : list (ChangeRecord P C)) (t : Z) : Prop :=
  l = record <$> entries i /\ max_position i = w /\ StronglySorted before l /\
  forall r, r ∈ l -> exists m, w = Some m /\ pos_le (r_position r) m.

Lemma prune_suffix now (l : list (Entry P C)) : exists n, prune_locked cfg now l = drop n l.
Proof.
  induction l as [|e l [n IH]]; [by exists 0%nat|]. cbn [prune_locked].
  case_decide; [exists (S n); done|by exists 0%nat].
Qed.

Lemma fmap_filter_record (f : ChangeRecord P C -> bool) (l : list (Entry P C)) :
  record <$> filter (fun e => f (record e) = true) l = filter (fun r => f r = true) (record <$> l).
Proof.
  induction l as [|e l IH]; [done|]. rewrite fmap_cons, !filter_cons.
  repeat case_decide; rewrite ?fmap_cons, IH; done.
Qed.

#[export] Instance InMemoryOplog_laws : OplogLaws C (Inner P C) Empty_set.
Proof.
  refine {| holds := m_holds |}.
  - intros t. split_and!; [done|done|constructor|]. by intros r ?%not_elem_of_nil.
  - by intros st w l t (_ & _ & ? & ?).
  - done.
  - intros st st' w l t now r (-> & Hw & Ho & Hm) _ Hlt [= <-]. unfold m_append.
    destruct (prune_suffix now (entries st ++ [{| appended_micros := now; record := r |}])) as [n En].
    assert (Hall : forall r', r' ∈ record <$> entries st -> before r' r).
    { intros r' (m & -> & Hr')%Hm. eapply pos_le_lt_trans; [done|]. by apply Hlt. }
    exists n. unfold m_holds.
    assert (Hs : StronglySorted before (drop n ((record <$> entries st) ++ [r]))).
    { apply ordered_drop, ordered_app. split_and!; [done|repeat constructor|].
      intros r1 r2 H1 ->%list_elem_of_singleton. by apply Hall. }
    assert (Hb : forall r', r' ∈ drop n ((record <$> entries st) ++ [r]) ->
              exists m, Some (r_position r) = Some m /\ pos_le (r_position r') m).
    { intros r' Hr'. exists (r_position r). split; [done|].
      apply elem_of_list_drop_sub in Hr'. apply elem_of_app in Hr' as [?|E%list_elem_of_singleton];
        [by apply pos_lt_le, Hall|subst r'; apply pos_le_refl]. }
    destruct (max_position st) as [latest|] eqn:El.
    + assert (Hl : pos_ltb latest (r_position r) = true) by (apply pos_ltb_lt, Hlt; congruence).
      rewrite pos_leb_ltb, Hl. simpl.
      rewrite En, fmap_drop, fmap_app. by split_and!.
    + simpl. rewrite En, fmap_drop, fmap_app. by split_and!.
  - intros st st' w l t now r (-> & Hw & Ho & Hm) _ Hr [= <-]. exists 0%nat. rewrite drop_0.
    destruct (Hm _ Hr) as (m & -> & Hle). unfold m_append. rewrite Hw.
    by rewrite (proj2 (pos_leb_le _ _)).
  - by intros st w l t p rs (-> & _) [= <-].
  - by intros st w l t u rs (-> & _) _ [= <-].
  - intros st w l t (-> & _). simpl. unfold m_min_position. by destruct (entries st).
  - intros st w l t (-> & Hw & _ & Hm). simpl. unfold m_current_position. rewrite Hw. split; [done|].
    intros c ->. exists c. split; [done|apply pos_le_refl].
  - intros st st' w l t p (-> & Hw & Ho & Hm) [= <-]. unfold m_forget_through. split_and!; simpl.
    + by rewrite (fmap_filter_record (fun r => pos_ltb p (r_position r))).
    + done.
    + destruct (filter_after_suffix p _ Ho) as [n ->]. by apply ordered_drop.
    + intros r [_ ?]%list_elem_of_filter. by apply Hm.
  - by intros st st' w l t c (-> & Hw & Ho & Hm) [= <-].
  - intros st st' now r [= <-]. unfold m_append. by destruct (max_position st); [destruct (pos_leb _ _)|].
  - by intros st st' p [= <-].
  - intros st st' w l t c _ _ [= <-]. simpl. destruct (m_last_commit st) as [k|]; simpl; [|done].
    by case_decide.
  - done.
Defined.
End Memory.

(** *** The log in Postgres keeps it *)

Section Postgres.
Context {P : Type} `{PL : PgPositionLaws P} {C : Type} `{EL : !EventCodec C} `{ELL : !EventCodecLaws C}.
Context (cfg : OplogConfig).

#[export] Instance PgOplog : Oplog P C PgState PgOplogError := {|
  log_new := new_pg;
  log_append := p_append cfg;
  log_since := p_entries_since;
  log_of := p_entries_of;
  log_min := p_min_position;
  log_current := p_current_position;
  log_record_commit := p_record_commit;
  log_last_commit := p_last_commit;
  log_forget := p_forget_through;
|}.

Definition row_ok (row : OplogRow) (r : ChangeRecord P C) : Prop :=
  record_of row = Ok r /\ key row = parts (r_position r).

Definition p_holds (s : PgState) (w : option P) (l : list (ChangeRecord P C)) (t : Z) : Prop :=
  Forall2 row_ok (rows s) l /\ StronglySorted before l /\
  (forall r, r ∈ l -> exists m, w = Some m /\ pos_le (r_position r) m) /\
  StronglySorted (fun a b => appended_at a <= appended_at b) (rows s) /\
  Forall (fun row => appended_at row <= t) (rows s) /\
  forall row, commit_row s = Some row -> 0 <= row_end_lsn row <= i64_max.

Lemma position_to_i64_Ok (p : P) k : position_to_i64 p = Ok k -> k = parts p.
Proof.
  unfold position_to_i64, part_to_i64. intros (a & Ha & (b & Hb & [= <-])%rbind_Ok)%rbind_Ok.
  unfold ok_or, try_into in *. repeat case_decide; simplify_eq. done.
Qed.

Lemma position_from_parts (p : P) : position_from_i64 (parts p) = p.
Proof.
  unfold position_from_i64, parts. pose proof (lsn_u64 p). pose proof (xid_u32 p).
  pose proof (ordinal_u64 p). unfold in_u64, in_u32 in *.
  rewrite !u64_or_zero_id by lia. unfold try_into. rewrite decide_True by lia. apply new_parts.
Qed.

Lemma row_of_ok r now row : row_of r now = Ok row -> row_ok row r /\ appended_at row = now.
Proof.
  unfold row_of. intros (e & He & (k & Hk & [= <-])%rbind_Ok)%rbind_Ok.
  apply position_to_i64_Ok in Hk as ->. split; [|done]. split; [|done].
  unfold record_of. cbn [event table_name pk payload key].
  destruct (to_json _) as [b|] eqn:Ej; [|done]. injection He as ->.
  rewrite (json_roundtrip _ _ Ej). cbn [ok_or rbind fst snd]. rewrite position_from_parts.
  destruct r as [? ? [? ? ?] ?]. done.
Qed.

Lemma row_before row row' r r' :
  row_ok row r -> row_ok row' r' -> cmp_parts (key row) (key row') = pos_cmp (r_position r) (r_position r').
Proof. intros [_ ->] [_ ->]. by rewrite pos_cmp_parts. Qed.

Lemma insert_row_last row r l rs :
  Forall2 row_ok l rs -> row_ok row r -> (forall r', r' ∈ rs -> before r' r) ->
  insert_row row l = l ++ [row].
Proof.
  intros Hl Hr. induction Hl as [|row' r' l rs Hr' Hl IH]; intros Hb; [done|]. simpl.
  rewrite (row_before _ _ _ _ Hr Hr'). assert (Hlt : before r' r) by (apply Hb; by left).
  unfold before, pos_lt in Hlt. rewrite pos_cmp_parts in *. rewrite cmp_parts_opp, Hlt. simpl.
  f_equal. apply IH. intros ??. apply Hb. by right.
Qed.

Lemma insert_row_again row r l rs :
  Forall2 row_ok l rs -> row_ok row r -> StronglySorted before rs -> r ∈ rs -> insert_row row l = l.
Proof.
  intros Hl Hr. induction Hl as [|row' r' l rs Hr' Hl IH]; intros Hs Hin;
    [by apply not_elem_of_nil in Hin|]. simpl.
  rewrite (row_before _ _ _ _ Hr Hr'). apply StronglySorted_inv in Hs as [Hs Hall].
  apply elem_of_cons in Hin as [->|Hin].
  - rewrite pos_cmp_parts, (proj2 (cmp_parts_Eq _ _)); done.
  - rewrite Forall_forall in Hall. specialize (Hall _ Hin). unfold before, pos_lt in Hall.
    rewrite pos_cmp_parts in *. rewrite cmp_parts_opp, Hall. simpl. f_equal. auto.
Qed.

(** A time window keeps a suffix of rows appended in the order of time. *)
Lemma by_age_suffix now l :
  StronglySorted (fun a b => appended_at a <= appended_at b) l ->
  exists n, by_age cfg now l = drop n l.
Proof.
  unfold by_age. induction 1 as [|row l Hs IH Hall]; [by exists 0%nat|]. rewrite filter_cons.
  case_decide.
  - exists 0%nat. simpl. f_equal. apply filter_all. rewrite Forall_forall in *.
    intros row' Hr. specialize (Hall _ Hr). lia.
  - destruct IH as [n ->]. by exists (S n).
Qed.

Lemma sorted_app_last l row :
  StronglySorted (fun a b => appended_at a <= appended_at b) l ->
  Forall (fun r => appended_at r <= appended_at row) l ->
  StronglySorted (fun a b => appended_at a <= appended_at b) (l ++ [row]).
Proof.
  induction 1 as [|a l Hs IH Ha]; intros Hall; [repeat constructor|].
  apply Forall_cons in Hall as [? Hall]. constructor; [auto|]. rewrite Forall_app. by auto.
Qed.

Lemma sorted_drop n (l : list OplogRow) :
  StronglySorted (fun a b => appended_at a <= appended_at b) l ->
  StronglySorted (fun a b => appended_at a <= appended_at b) (drop n l).
Proof.
  intros Hs. revert n. induction Hs as [|a l Hs IH Ha]; intros [|n]; simpl; try done; by constructor.
Qed.

(** Pruning drops a prefix. *)
Lemma prune_holds s w l t now rws :
  Forall2 row_ok rws l -> StronglySorted before l ->
  (forall r, r ∈ l -> exists m, w = Some m /\ pos_le (r_position r) m) ->
  StronglySorted (fun a b => appended_at a <= appended_at b) rws ->
  Forall (fun row => appended_at row <= t) rws -> t <= now ->
  (forall row, s = Some row -> 0 <= row_end_lsn row <= i64_max) ->
  exists n, p_holds {| rows := by_age cfg now (by_count cfg rws); commit_row := s |} w (drop n l) now.
Proof.
  intros Hl Ho Hm Hs Ht Hle Hc. unfold by_count.
  set (k := (length rws - _)%nat). clearbody k.
  destruct (by_age_suffix now (drop k rws)) as [n En]; [by apply sorted_drop|].
  exists (k + n)%nat. unfold p_holds. cbn [rows]. rewrite En, drop_drop. split_and!.
  - by apply Forall2_drop.
  - by apply ordered_drop.
  - intros r Hr%elem_of_list_drop_sub. auto.
  - by apply sorted_drop.
  - apply Forall_drop. eapply Forall_impl; [done|]. simpl. intros. lia.
  - done.
Qed.

Lemma filter_rows (Q : OplogRow -> Prop) (Q' : ChangeRecord P C -> Prop)
    (DQ : forall k, Decision (Q k)) (DQ' : forall r, Decision (Q' r)) rws l :
  Forall2 row_ok rws l -> (forall row r, row_ok row r -> Q row <-> Q' r) ->
  Forall2 row_ok (filter Q rws) (filter Q' l).
Proof.
  intros Hl Hfg. induction Hl as [|row r rws l Hr Hl IH]; [constructor|].
  rewrite !filter_cons. pose proof (Hfg _ _ Hr).
  repeat case_decide; [by constructor|tauto|tauto|done].
Qed.

Lemma after_row (p : P) row (r : ChangeRecord P C) :
  row_ok row r -> cmp_parts (parts p) (key row) = Lt <-> pos_ltb p (r_position r) = true.
Proof. intros [_ ->]. rewrite pos_ltb_lt. unfold pos_lt. by rewrite pos_cmp_parts. Qed.

Lemma of_row u row (r : ChangeRecord P C) :
  in_u32 (unseen_from u) -> row_ok row r ->
  selects u (key row).1.2 = true <-> unseen_contains u (xid (r_position r)) = true.
Proof. intros Hu [_ ->]. cbn [parts fst snd]. rewrite selects_contains; [done|done|apply xid_u32]. Qed.

Lemma record_rows rws l : Forall2 row_ok rws l -> try_map record_of rws = Ok l.
Proof. induction 1 as [|row r rws l [Hr _] Hl IH]; [done|]. simpl. rewrite Hr. simpl. by rewrite IH. Qed.

Lemma p_append_next st st' w l t now r :
  p_holds st w l t -> t <= now -> (forall m, w = Some m -> pos_lt m (r_position r)) ->
  p_append cfg now r st = Ok st' ->
  exists n, p_holds st' (Some (r_position r)) (drop n (l ++ [r])) now.
Proof.
  intros (Hl & Ho & Hm & Hs & Ht & Hc) Hle Hlt (row & Hrow & [= <-])%rbind_Ok.
  apply row_of_ok in Hrow as [Hrow Hnow].
  assert (Hall : forall r', r' ∈ l -> before r' r).
  { intros r' (m & -> & Hr')%Hm. eapply pos_le_lt_trans; [done|]. by apply Hlt. }
  rewrite (insert_row_last row r _ l) by done.
  apply (prune_holds _ _ _ now); [| | | | |lia|done].
  - apply Forall2_app; [done|]. constructor; [done|constructor].
  - apply ordered_app. split_and!; [done|repeat constructor|].
    intros r1 r2 ? ->%list_elem_of_singleton. by apply Hall.
  - intros r' [?|E%list_elem_of_singleton]%elem_of_app; exists (r_position r); (split; [done|]).
    + by apply pos_lt_le, Hall.
    + subst r'. apply pos_le_refl.
  - apply sorted_app_last; [done|]. rewrite Hnow. eapply Forall_impl; [done|]. simpl. lia.
  - apply Forall_app. split; [|by rewrite <- Hnow; repeat constructor].
    eapply Forall_impl; [done|]. simpl. lia.
Qed.

Lemma p_append_again st st' w l t now r :
  p_holds st w l t -> t <= now -> r ∈ l -> p_append cfg now r st = Ok st' ->
  exists n, p_holds st' w (drop n l) now.
Proof.
  intros (Hl & Ho & Hm & Hs & Ht & Hc) Hle Hr (row & Hrow & [= <-])%rbind_Ok.
  apply row_of_ok in Hrow as [Hrow Hnow].
  rewrite (insert_row_again row r _ l) by done. by apply (prune_holds _ _ _ t).
Qed.

Lemma p_min_exact st w l t : p_holds st w l t -> p_min_position st = r_position <$> head l.
Proof.
  intros (Hl & _). unfold p_min_position. destruct Hl as [|row r rws l [_ E] Hl]; [done|].
  simpl. by rewrite E, position_from_parts.
Qed.

Lemma p_current_last st w l t :
  p_holds st w l t -> p_current_position st = r_position <$> last l.
Proof.
  intros (Hl & _). unfold p_current_position.
  induction Hl as [|row r rws l Hr Hl IH]; [done|]. destruct Hl as [|row' r' rws l Hr' Hl].
  - simpl. destruct Hr as [_ ->]. by rewrite position_from_parts.
  - exact IH.
Qed.

Lemma last_greatest (l : list (ChangeRecord P C)) r :
  StronglySorted before l -> r ∈ l -> exists r', last l = Some r' /\ r' ∈ l /\ pos_le (r_position r) (r_position r').
Proof.
  intros Ho Hr. destruct (last l) as [r'|] eqn:E; [|apply last_None in E as ->; by apply not_elem_of_nil in Hr].
  exists r'. apply last_Some in E as [l' ->]. split_and!; [done|apply elem_of_app; right; by left|].
  apply ordered_app in Ho as (_ & _ & Ho).
  apply elem_of_app in Hr as [Hr|Hr%list_elem_of_singleton]; [|subst; apply pos_le_refl].
  apply pos_lt_le, (Ho r r' Hr). by left.
Qed.

#[export] Instance PgOplog_laws : OplogLaws C PgState PgOplogError.
Proof.
  refine {| holds := p_holds; append_next := p_append_next; append_again := p_append_again;
            min_exact := p_min_exact |}.
  - intros t. split_and!; [apply Forall2_nil_2|apply SSorted_nil|by intros r ?%not_elem_of_nil
      |apply SSorted_nil|by apply Forall_nil|done].
  - by intros st w l t (_ & ? & ? & _).
  - intros st w l t t' (? & ? & ? & ? & Ht & ?) Hle. split_and!; try done.
    eapply Forall_impl; [done|]. simpl. lia.
  - intros st w l t p rs (Hl & _) (k & Hk & Hrs)%rbind_Ok. apply position_to_i64_Ok in Hk as ->.
    pose proof (filter_rows _ _ _ _ _ _ Hl (after_row p)) as Hf. apply record_rows in Hf.
    rewrite Hf in Hrs. by injection Hrs.
  - intros st w l t u rs (Hl & _) Hu Hrs. simpl in Hrs. unfold p_entries_of in Hrs.
    pose proof (filter_rows _ _ _ _ _ _ Hl (fun row r => of_row u row r Hu)) as Hf.
    apply record_rows in Hf. rewrite Hf in Hrs. by injection Hrs.
  - intros st w l t Hh. simpl. rewrite (p_current_last _ _ _ _ Hh). destruct Hh as (_ & Ho & Hm & _). split.
    + intros r Hr. destruct (last_greatest l r Ho Hr) as (r' & -> & _ & ?). by exists (r_position r').
    + intros c (r & Hr & ->)%fmap_Some. apply Hm. apply last_Some in Hr as [l' ->].
      apply elem_of_app. right. by left.
  - intros st st' w l t p (Hl & Ho & Hm & Hs & Ht & Hc) (k & Hk & [= <-])%rbind_Ok.
    apply position_to_i64_Ok in Hk as ->. unfold p_holds. cbn [rows].
    assert (Hf : Forall2 row_ok (filter (fun row => cmp_parts (parts p) (key row) = Lt) (rows st))
                   (filter (fun r => pos_ltb p (r_position r) = true) l)).
    { apply filter_rows; [done|]. apply after_row. }
    split_and!; [done| | | | |done].
    + destruct (filter_after_suffix p _ Ho) as [n ->]. by apply ordered_drop.
    + intros r [_ ?]%list_elem_of_filter. by apply Hm.
    + clear -Hs. induction Hs as [|a rws Hs IH Ha]; [constructor|]. rewrite filter_cons. case_decide; [|done].
      constructor; [done|]. rewrite !Forall_forall in *. by intros x [_ ?]%list_elem_of_filter; auto.
    + rewrite !Forall_forall in *. by intros x [_ ?]%list_elem_of_filter; auto.
  - intros st st' w l t c (? & ? & ? & ? & ? & Hc) (a & Ha & (b & Hb & [= <-])%rbind_Ok)%rbind_Ok.
    split_and!; try done. cbn [commit_row].
    assert (0 <= b <= i64_max) by (unfold part_to_i64, ok_or, try_into in Hb; case_decide; simplify_eq; lia).
    intros row. destruct (commit_row st) as [old|]; [case_decide|]; intros [= <-]; [done|by apply Hc|done].
  - intros st st' now r (row & Hrow & [= <-])%rbind_Ok. done.
  - intros st st' p (k & Hk & [= <-])%rbind_Ok. done.
  - intros st st' w l t c (_ & _ & _ & _ & _ & Hc) Hu
      (a & Ha & (b & Hb & [= <-])%rbind_Ok)%rbind_Ok. simpl.
    unfold p_last_commit. cbn [commit_row].
    assert (b = end_lsn c) as -> by (unfold part_to_i64, ok_or, try_into in Hb; case_decide; congruence).
    unfold in_u64 in Hu. destruct (commit_row st) as [old|]; simpl; [|by rewrite u64_or_zero_id].
    specialize (Hc _ eq_refl). unfold i64_max, u64_max in *.
    rewrite (u64_or_zero_id (row_end_lsn old)) by (unfold u64_max; lia).
    case_decide; simpl; by rewrite u64_or_zero_id by (unfold u64_max; lia).
  - done.
Defined.
End Postgres.
