(* ===== verification/Catchup.v ===== *)
(** Catching a resuming client up from the reconnect log: [catchup_entries] and
    [catch_up_row] of [connetto-server/src/session.rs], proved against the log's
    interface ([Oplog]), so for the log in memory and the log in Postgres alike.

    The log goes on moving while a session reads it: other appends, prunes and
    trims run between the session's reads. [log_step] is one such move, [history]
    every change the log was ever given, and the cut of [tracks] how much of it
    was dropped. *)

From Stdlib Require Import ZArith Lia Sorted.
From stdpp Require Import base numbers option strings list relations.
From S2P Require Import Prelude Cursor Oplog.

Open Scope Z_scope.

Section Catchup.
Context {P F : Type} `{PL : PgPositionLaws P} `{FP : !PgFence P F} `{FL : !PgFenceLaws P F}.
Context {C St E : Type} {OP : Oplog P C St E} {OL : OplogLaws C St E}.
#[local] Abbreviation Rec := (ChangeRecord P C).
#[local] Abbreviation ordered := (StronglySorted before).
Implicit Types (st : St) (h : list Rec).

(** [h] is every change the log was given, in commit order. A change given again
    is one the log still retains. *)
Inductive log_step : St * list Rec * Z -> St * list Rec * Z -> Prop :=
  | step_append st st' h t now r :
      t <= now -> (forall r', r' ∈ h -> before r' r) -> log_append now r st = Ok st' ->
      log_step (st, h, t) (st', h ++ [r], now)
  | step_again st st' h t now r p rs :
      t <= now -> log_since p st = Ok rs -> r ∈ rs -> log_append now r st = Ok st' ->
      log_step (st, h, t) (st', h, now)
  | step_forget st st' h t p :
      log_forget p st = Ok st' -> log_step (st, h, t) (st', h, t)
  | step_commit st st' h t c :
      log_record_commit c st = Ok st' -> log_step (st, h, t) (st', h, t).

(** The log retains everything it was given past the first [n]. *)
Definition tracks st h (n : nat) (t : Z) : Prop :=
  ordered h /\ (n <= length h)%nat /\ holds st (r_position <$> last h) (drop n h) t.

Lemma last_before h r r' : (forall r', r' ∈ h -> before r' r) -> last h = Some r' -> before r' r.
Proof. intros Hall [l ->]%last_Some. apply Hall, elem_of_app. right. by left. Qed.

Lemma drop_min {A} n (l : list A) : drop (Nat.min n (length l)) l = drop n l.
Proof.
  destruct (Nat.min_spec n (length l)) as [[? ->]|[? ->]]; [done|]. by rewrite !drop_ge by lia.
Qed.

Lemma drop_tracks st h n k t :
  ordered h -> (n <= length h)%nat -> holds st (r_position <$> last h) (drop k (drop n h)) t ->
  exists n', (n <= n')%nat /\ tracks st h n' t.
Proof.
  intros Ho Hn Hk. rewrite drop_drop, <- drop_min in Hk.
  exists (Nat.min (n + k) (length h)). split; [lia|]. split_and!; [done|lia|done].
Qed.

(** A move never gives back what was dropped. *)
Lemma step_tracks st h n t st' h' t' :
  tracks st h n t -> log_step (st, h, t) (st', h', t') ->
  exists n', (n <= n')%nat /\ tracks st' h' n' t' /\ h `prefix_of` h'.
Proof.
  intros (Ho & Hn & Hh) Hs.
  inversion Hs as [? ? ? ? now r Hle Hall Hap|? ? ? ? now r p rs Hle Hsi Hr Hap|? ? ? ? p Hf|? ? ? ? c Hc];
    subst; clear Hs.
  - destruct (append_next st st' _ _ t t' r Hh Hle) as [k Hk]; [|done|].
    { intros m (r' & Hr' & ->)%fmap_Some. by eapply last_before. }
    rewrite <- drop_app_le in Hk by done.
    destruct (drop_tracks st' (h ++ [r]) n k t') as (n' & ? & ?).
    + apply ordered_app. split_and!; [done|repeat constructor|].
      intros ?? ? ->%list_elem_of_singleton. by auto.
    + rewrite length_app. lia.
    + by rewrite last_snoc.
    + exists n'. split_and!; [done|done|by eexists].
  - rewrite (since_exact _ _ _ _ _ _ Hh Hsi) in Hr. apply list_elem_of_filter in Hr as [_ Hr].
    destruct (append_again _ _ _ _ _ _ _ Hh Hle Hr Hap) as [k Hk].
    destruct (drop_tracks st' h' n k t') as (n' & ? & ?); [done..|]. exists n'. by split_and!.
  - pose proof (forget_exact _ _ _ _ _ _ Hh Hf) as Hk.
    destruct (filter_after_suffix p (drop n h')) as [k Ek]; [by apply ordered_drop|].
    rewrite Ek in Hk.
    destruct (drop_tracks st' h' n k t') as (n' & ? & ?); [done..|]. exists n'. by split_and!.
  - exists n. split_and!; [done| |done]. split_and!; [done|done|]. by eapply commit_keeps.
Qed.

Lemma steps_tracks s s' n :
  tracks s.1.1 s.1.2 n s.2 -> rtc log_step s s' ->
  exists n', (n <= n')%nat /\ tracks s'.1.1 s'.1.2 n' s'.2 /\ s.1.2 `prefix_of` s'.1.2.
Proof.
  intros Ht Hs. revert n Ht.
  induction Hs as [|[[st h] t] [[st1 h1] t1] s' Hstep _ IH]; intros n Ht; [by exists n|].
  destruct (step_tracks _ _ _ _ _ _ _ Ht Hstep) as (n1 & ? & Ht1 & ?).
  destruct (IH n1 Ht1) as (n2 & ? & ? & ?). exists n2. split_and!; [lia|done|]. by etrans.
Qed.

Lemma new_tracks t : tracks log_new [] 0 t.
Proof. split_and!; [constructor|done|apply holds_new]. Qed.

(** ** What a catchup replays *)

(** [fence.seen(..) == Seen::Missed] and [Seen::Held], neither without a fence. *)
Definition missed (f : option (ReadFence F)) (r : Rec) : bool :=
  match f with Some f => bool_decide (seen f (r_position r) = Missed) | None => false end.

Definition held (f : option (ReadFence F)) (r : Rec) : bool :=
  match f with Some f => bool_decide (seen f (r_position r) = Held) | None => false end.

(** [catchup_entries], over the two reads it makes of the log. *)
Definition catchup_entries (from : P) (f : option (ReadFence F)) (of_ since_ : list Rec) : list Rec :=
  match f with
  | Some _ => filter (fun r => pos_leb (r_position r) from = true /\ missed f r = true) of_
  | None => []
  end ++ filter (fun r => held f r = false) since_.

(** The records [catch_up_row] goes on with: those at or below the watermark it
    read once its route existed. *)
Definition replayed (ceiling : option P) (l : list Rec) : list Rec :=
  filter (fun r => from_option (fun c => pos_leb (r_position r) c) false ceiling = true) l.

(** What the caller is owed of the changes the log was given before its route
    existed: those after the cursor its snapshot does not hold, and those at or
    before it its snapshot missed. *)
Definition owed (from : P) (f : option (ReadFence F)) (r : Rec) : bool :=
  if pos_ltb from (r_position r) then negb (held f r) else missed f r.

Lemma owed_split from f h :
  ordered h ->
  filter (fun r => pos_leb (r_position r) from = true /\ missed f r = true) h ++
  filter (fun r => pos_ltb from (r_position r) = true /\ held f r = false) h =
  filter (fun r => owed from f r = true) h.
Proof.
  induction 1 as [|a h Ho IH Ha]; [done|]. rewrite !filter_cons.
  destruct (pos_ltb from (r_position a)) eqn:El.
  - assert (E1 : filter (fun r => pos_leb (r_position r) from = true /\ missed f r = true) h = []).
    { apply filter_none. rewrite Forall_forall in *. intros r Hr [Hle _]. apply pos_leb_le in Hle.
      apply pos_ltb_lt in El. specialize (Ha _ Hr). unfold before in Ha.
      apply (pos_lt_irrefl from). eapply pos_lt_le_trans; [|done]. by eapply pos_lt_trans. }
    rewrite <- IH, E1. unfold owed. rewrite El, pos_leb_ltb, El.
    destruct (held f a); repeat case_decide; naive_solver.
  - rewrite <- IH. unfold owed. rewrite pos_leb_ltb, El.
    destruct (missed f a); repeat case_decide; naive_solver.
Qed.

(** What a later log retains of the changes given by [h1], when it still reaches
    back to [r0]. *)
Lemma cut_filter (Q : Rec -> Prop) `{forall r, Decision (Q r)} h1 e h4 n n4 r0 :
  (h1 ++ e) `prefix_of` h4 -> ordered h4 -> (n <= n4)%nat ->
  head (drop n4 h4) = Some r0 ->
  (forall r, r ∈ h1 -> Q r -> ~ before r r0) -> (forall r, r ∈ e -> ~ Q r) ->
  filter Q (drop n (h1 ++ e)) = filter Q h1.
Proof.
  intros [e2 E2] Ho Hn Hh Hq He.
  assert (Ht : filter Q (take n (h1 ++ e)) = []).
  { apply filter_none. rewrite Forall_forall. intros r Hr HQ.
    assert (Hin : r ∈ h1).
    { assert (r ∈ h1 ++ e) as [?|?]%elem_of_app; [|done|by destruct (He r)].
      rewrite <- (take_drop n (h1 ++ e)). apply elem_of_app. by left. }
    apply (Hq r Hin HQ). rewrite <- (take_drop n4 h4) in Ho.
    apply ordered_app in Ho as (_ & _ & Ho). apply Ho.
    - subst h4. apply list_elem_of_lookup in Hr as [i Hi].
      apply list_elem_of_lookup. exists i. apply lookup_take_Some in Hi as [Hi Hlt].
      apply lookup_take_Some. split; [|lia]. by apply lookup_app_l_Some.
    - destruct (drop n4 h4); [done|]. injection Hh as ->. by left. }
  assert (Hx : filter Q (h1 ++ e) = filter Q h1).
  { rewrite filter_app. rewrite (filter_none _ e); [by rewrite app_nil_r|]. by rewrite Forall_forall. }
  rewrite <- Hx. rewrite <- (take_drop n (h1 ++ e)) at 2. by rewrite filter_app, Ht.
Qed.

(** The reads of one catchup: the watermark once the route is up, the records of
    the transactions the snapshot did not see, the records after the cursor, and
    the earliest retained position, the log moving in between; [h1] is what the
    log had been given when the route came up. *)
Inductive reads (from : P) (f : option (ReadFence F)) (h1 : list Rec) :
    option P -> list Rec -> list Rec -> option P -> Prop :=
  | reads_of t0 st1 t1 st2 h2 t2 of_ st3 h3 t3 since_ st4 h4 t4 :
      rtc log_step (log_new, [], t0) (st1, h1, t1) ->
      rtc log_step (st1, h1, t1) (st2, h2, t2) ->
      (forall g, f = Some g -> log_of (unseen (P := P) g) st2 = Ok of_) ->
      rtc log_step (st2, h2, t2) (st3, h3, t3) ->
      log_since from st3 = Ok since_ ->
      rtc log_step (st3, h3, t3) (st4, h4, t4) ->
      reads from f h1 (log_current st1) of_ since_ (log_min st4).

(** A change the snapshot missed comes from a transaction its text names, which
    is what [ReadFence::unseen] documents of the library's fence. *)
Definition fence_complete (f : option (ReadFence F)) : Prop :=
  forall g (p : P), f = Some g -> seen g p = Missed -> unseen_contains (unseen (P := P) g) (xid p) = true.

Lemma catchup_reaches from (min current : option P) :
  catchup_decision from min current = Catchup -> exists m, min = Some m /\ pos_le m from.
Proof.
  unfold catchup_decision. case_decide; [done|]. destruct min as [m|]; [|done].
  destruct (pos_leb m from) eqn:Em; [|done]. intros _. exists m. by rewrite <- pos_leb_le.
Qed.

(** What the watermark read at [st1] says of the changes given by then, and of
    the later ones. *)
Lemma ceiling_splits st1 h1 n1 t1 e r0 h4 n4 :
  tracks st1 h1 n1 t1 -> (n1 <= n4)%nat -> (h1 ++ e) `prefix_of` h4 -> ordered h4 ->
  head (drop n4 h4) = Some r0 ->
  (forall r, r ∈ h1 -> ~ before r r0 ->
     from_option (fun c => pos_leb (r_position r) c) false (log_current st1) = true) /\
  (forall r, r ∈ e -> from_option (fun c => pos_leb (r_position r) c) false (log_current st1) = false).
Proof.
  intros (Ho1 & Hn1 & Hh1) Hn [e2 E2] Ho Hhead.
  destruct (current_bounds _ _ _ _ Hh1) as [Hc1 Hc2]. split.
  - intros r Hr Hnb. assert (Hd : r ∈ drop n1 h1).
    { rewrite <- (take_drop n1 h1) in Hr. apply elem_of_app in Hr as [Hr|]; [|done].
      destruct Hnb. rewrite <- (take_drop n4 h4) in Ho. apply ordered_app in Ho as (_ & _ & Ho).
      apply Ho; [|destruct (drop n4 h4); [done|]; injection Hhead as ->; by left].
      subst h4. apply list_elem_of_lookup in Hr as [i Hi]. apply list_elem_of_lookup. exists i.
      apply lookup_take_Some in Hi as [Hi Hlt]. apply lookup_take_Some. split; [|lia].
      by do 2 apply lookup_app_l_Some. }
    destruct (Hc1 _ Hd) as (c & -> & Hle). simpl. by apply pos_leb_le.
  - intros r Hr. destruct (log_current st1) as [c|]; [|done]. simpl.
    destruct (Hc2 c eq_refl) as (m & Hm & Hcm). apply fmap_Some in Hm as (rl & Hrl & ->).
    apply last_Some in Hrl as [l' ->]. rewrite pos_leb_ltb. apply negb_false_iff, pos_ltb_lt.
    eapply pos_le_lt_trans; [done|]. subst h4. apply ordered_app in Ho as (Ho & _ & _).
    apply ordered_app in Ho as (_ & _ & Ho). apply Ho; [|done]. apply elem_of_app. right. by left.
Qed.

(** C17. A catchup that goes ahead replays exactly what the caller is owed of the
    changes the log was given before its route existed, in commit order, although
    the log is appended to, pruned and trimmed between the session's reads:
    without a fence every change after the cursor; with one, those after it the
    snapshot does not hold, and those before it the snapshot missed. The last
    holds provided the missed changes are themselves still retained, which the
    decision does not check, and the fence names their transactions. What the log was given later reaches the caller
    live. *)
Theorem catchup_replays_owed from f h1 ceiling of_ since_ min :
  reads from f h1 ceiling of_ since_ min ->
  catchup_decision from min ceiling = Catchup ->
  fence_complete f ->
  (forall r, r ∈ h1 -> pos_le (r_position r) from -> missed f r = true ->
     exists m, min = Some m /\ pos_le m (r_position r)) ->
  replayed ceiling (catchup_entries from f of_ since_) = filter (fun r => owed from f r = true) h1.
Proof.
  intros [t0 st1 t1 st2 h2 t2 of_' st3 h3 t3 since_' st4 h4 t4 H1 H2 Hof H3 Hsince H4] Hdec Hf Hret.
  destruct (steps_tracks (log_new, [], t0) _ 0 (new_tracks t0) H1) as (n1 & _ & T1 & _).
  destruct (steps_tracks (st1, h1, t1) _ _ T1 H2) as (n2 & N2 & T2 & P2).
  destruct (steps_tracks (st2, h2, t2) _ _ T2 H3) as (n3 & N3 & T3 & P3).
  destruct (steps_tracks (st3, h3, t3) _ _ T3 H4) as (n4 & N4 & T4 & P4). simpl in *.
  destruct (catchup_reaches _ _ _ Hdec) as (m & Hmin & Hm).
  pose proof T4 as (Ho4 & _ & Hh4). rewrite (min_exact _ _ _ _ Hh4) in Hmin, Hret.
  apply fmap_Some in Hmin as (r0 & Hr0 & ->). rewrite Hr0 in Hret. simpl in Hret.
  destruct P2 as [e2 ->], P3 as [e3 E3]. rewrite <- app_assoc in E3. subst h3.
  assert (P2' : h1 ++ e2 `prefix_of` h4).
  { etrans; [|exact P4]. rewrite app_assoc. by eexists. }
  destruct (ceiling_splits st1 h1 n1 t1 e2 r0 h4 n4) as [Hc He2]; [done|lia|done..|].
  destruct (ceiling_splits st1 h1 n1 t1 (e2 ++ e3) r0 h4 n4) as [_ He3]; [done|lia|done..|].
  pose proof T2 as (_ & _ & Hh2). pose proof T3 as (_ & _ & Hh3).
  rewrite (since_exact _ _ _ _ _ _ Hh3 Hsince).
  unfold replayed, catchup_entries. rewrite filter_app, <- owed_split by apply T1. f_equal.
  - destruct f as [g|].
    2:{ symmetry. apply filter_none. rewrite Forall_forall. by intros r _ [_ ?]. }
    rewrite (of_exact _ _ _ _ _ _ Hh2 (unseen_from_u32 g) (Hof g eq_refl)).
    rewrite !list_filter_filter.
    erewrite (cut_filter _ h1 e2 h4 n2 n4 r0); [|done|done|lia|done| |].
    + apply filter_ext_in. intros r Hr. split; [naive_solver|]. intros [Hle Hmi].
      destruct (Hret r Hr) as (m & [= <-] & Hge); [by apply pos_leb_le|done|].
      split_and!; [apply Hc; [done|by apply pos_le_iff]|done|done|].
      apply (Hf g); [done|]. unfold missed in Hmi. by apply bool_decide_eq_true in Hmi.
    + intros r Hr [[_ [Hle Hmi]] _]. destruct (Hret r Hr) as (m & [= <-] & Hge);
        [by apply pos_leb_le|done|]. by apply pos_le_iff.
    + intros r Hr [[Hx _] _]. by rewrite (He2 r Hr) in Hx.
  - rewrite !list_filter_filter.
    erewrite (cut_filter _ h1 (e2 ++ e3) h4 n3 n4 r0); [|done|done|lia|done| |].
    + apply filter_ext_in. intros r Hr. split; [naive_solver|]. intros [Hlt Hhe].
      split_and!; [|done|done]. apply Hc; [done|]. apply pos_le_iff.
      eapply pos_le_trans; [exact Hm|]. by apply pos_lt_le, pos_ltb_lt.
    + intros r Hr [[_ _] Hlt]. apply pos_le_iff.
      eapply pos_le_trans; [exact Hm|]. by apply pos_lt_le, pos_ltb_lt.
    + intros r Hr [[Hx _] _]. by rewrite (He3 r Hr) in Hx.
Qed.
End Catchup.
