(* ===== verification/Feed.v ===== *)
(** The change feed and its gaps: [ingest], [reconcile_history],
    [reconcile_stream] and [check_before_stream] of [connetto-server/src/session.rs], over the log's
    interface.

    The database's committed transactions are a sequence of items, each
    transaction's rows and then its commit, as the source delivers them. The feed
    opens at the slot's position, or right after the last item this process
    handled, and the slot can be lost and recreated further on, so that a stretch
    is never delivered. [feed_step] is one move of the whole; dispatching a row to
    subscribers is not part of it. *)

From Stdlib Require Import ZArith Lia Sorted.
From stdpp Require Import base numbers option strings list relations.
From S2P Require Import Prelude Cursor Oplog.

Open Scope Z_scope.

Section Feed.
Context {P : Type} `{PL : PgPositionLaws P}.
Context {C St E : Type} {OP : Oplog P C St E} {OL : OplogLaws C St E}.
#[local] Abbreviation Rec := (ChangeRecord P C).

(** [SourceItem], with where its transaction's commit record ends. *)
Inductive SourceItem :=
  | Event (r : Rec) (end_ : Z)
  | Commit (c : PgCommit P).

Definition item_pos (i : SourceItem) : P :=
  match i with Event r _ => r_position r | Commit c => c_position c end.
Definition item_end (i : SourceItem) : Z :=
  match i with Event _ e => e | Commit c => end_lsn c end.

Definition rows_of (l : list SourceItem) : list Rec :=
  omap (fun i => match i with Event r _ => Some r | Commit _ => None end) l.

(** [reconcile_stream]: the epoch's boundary if one was declared, the log, and
    the resume point. *)
Definition reconcile_stream (resume_lsn : Z) (log : St) (resume : option P) :
    Result (option Z * St * option P) E :=
  match log_last_commit log with
  | None => Ok (None, log, resume)
  | Some ingested =>
      if decide (resume_lsn <= end_lsn ingested) then Ok (None, log, resume)
      else
        let boundary := before_commit resume_lsn in
        rbind (log_forget boundary log) (fun log =>
        rbind (log_record_commit {| c_position := boundary; end_lsn := resume_lsn |} log) (fun log =>
        Ok (Some resume_lsn, log, None)))
  end.

(** [reconcile_history]: the history stored, the resume point, and whether every
    live connection was closed. *)
Definition reconcile_history (history : TimelineHistory) (stored : option TimelineHistory)
    (resume : option P) : option TimelineHistory * option P * bool :=
  if decide (stored = Some history) then (stored, resume, false)
  else match stored with
       | None => (Some history, resume, false)
       | Some _ => (Some history, None, true)
       end.

(** [check_before_stream], on the history and the slot's position just read: the
    gap, the history stored and the resume point. It leaves the log untouched. *)
Definition check_before_stream (history : TimelineHistory) (slot : option Z) (log : St)
    (stored : option TimelineHistory) (resume : option P) :
    option Z * option TimelineHistory * option P :=
  let '(stored, resume, _) := reconcile_history history stored resume in
  (at_ ← slot;
   ingested ← log_last_commit log;
   if decide (end_lsn ingested < at_) then Some at_ else None, stored, resume).

(** [reconcile_before_stream]. *)
Definition reconcile_before_stream (history : TimelineHistory) (slot : option Z) (log : St)
    (stored : option TimelineHistory) (resume : option P) :
    Result (option Z * option TimelineHistory * St * option P) E :=
  let '(gap, stored, resume) := check_before_stream history slot log stored resume in
  match gap with
  | Some at_ => rbind (reconcile_stream at_ log resume) (fun '(_, log, resume) =>
                Ok (gap, stored, log, resume))
  | None => Ok (None, stored, log, resume)
  end.

(** ** The system *)

Record Feed := {
  wal : list SourceItem;
  (** Where the next commit record goes. *)
  wal_end : Z;
  slot : Z;
  log : St;
  now : Z;
  resume : option P;
  (** The timeline history last read. *)
  history : option TimelineHistory;
  (** How many items the open stream has delivered or skipped. *)
  stream : option nat;
  (** The latest position the log was given, and how many items it has been
      through; kept only to state what it retains. *)
  top : option P;
  passed : nat;
}.

(** How far a stream opened at [s], after [p], skips. *)
Definition skips (s : Z) (p : option P) (i : SourceItem) : bool :=
  bool_decide (item_end i <= s) || match p with Some p => pos_leb (item_pos i) p | None => false end.

Fixpoint prefix_len (f : SourceItem -> bool) (l : list SourceItem) : nat :=
  match l with [] => 0 | i :: l' => if f i then S (prefix_len f l') else 0 end.

(** The items of one transaction. *)
Definition transaction (rs : list Rec) (c : PgCommit P) : list SourceItem :=
  ((fun r => Event r (end_lsn c)) <$> rs) ++ [Commit c].

Definition txn_ok (rs : list Rec) (c : PgCommit P) : Prop :=
  in_u64 (end_lsn c) /\ commit_lsn (c_position c) < end_lsn c /\
  StronglySorted before rs /\
  Forall (fun r => commit_lsn (r_position r) = commit_lsn (c_position c) /\
                   pos_lt (r_position r) (c_position c)) rs.

(** What a move is, where a theorem asks more of it than that it can happen: a row
    handed to the log, a slot lost and recreated, a promotion that keeps so many items
    and ends the old timeline there. *)
Inductive Cause :=
  | Ordinary
  | Row (i : nat) (r : Rec)
  | SlotLost
  | Promoted (kept : nat) (end_ : Z).

Inductive feed_step : Feed -> Cause -> Feed -> Prop :=
  (** A transaction commits. *)
  | f_commit f rs c :
      txn_ok rs c -> wal_end f <= commit_lsn (c_position c) ->
      feed_step f Ordinary {| wal := wal f ++ transaction rs c; wal_end := end_lsn c; slot := slot f;
                     log := log f; now := now f; resume := resume f; history := history f; stream := stream f;
                     top := top f; passed := passed f |}
  (** The checks run and the stream opens. *)
  | f_open f read gap stored' log' resume' :
      stream f = None ->
      reconcile_before_stream read (Some (slot f)) (log f) (history f) (resume f) =
      Ok (gap, stored', log', resume') ->
      let i := prefix_len (skips (slot f) resume') (wal f) in
      feed_step f Ordinary {| wal := wal f; wal_end := wal_end f; slot := slot f; log := log';
                     now := now f; resume := resume'; history := stored'; stream := Some i;
                     top := top f; passed := Nat.max (passed f) i |}
  (** A row: appended, then remembered. *)
  | f_row f i r e t log' :
      stream f = Some i -> wal f !! i = Some (Event r e) -> now f <= t ->
      log_append t r (log f) = Ok log' ->
      feed_step f (Row i r)
                  {| wal := wal f; wal_end := wal_end f; slot := slot f; log := log'; now := t;
                     resume := Some (r_position r); history := history f; stream := Some (S i);
                     top := if decide (i < passed f)%nat then top f else Some (r_position r);
                     passed := Nat.max (passed f) (S i) |}
  (** A commit: recorded, then acknowledged. *)
  | f_ack f i c log' :
      stream f = Some i -> wal f !! i = Some (Commit c) ->
      log_record_commit c (log f) = Ok log' ->
      feed_step f Ordinary {| wal := wal f; wal_end := wal_end f; slot := Z.max (slot f) (end_lsn c);
                     log := log'; now := now f; resume := Some (c_position c);
                     history := history f; stream := Some (S i); top := top f; passed := Nat.max (passed f) (S i) |}
  (** The acknowledgement fails, the commit recorded. *)
  | f_unacked f i c log' :
      stream f = Some i -> wal f !! i = Some (Commit c) ->
      log_record_commit c (log f) = Ok log' ->
      feed_step f Ordinary {| wal := wal f; wal_end := wal_end f; slot := slot f; log := log'; now := now f;
                     resume := resume f; history := history f; stream := None; top := top f;
                     passed := Nat.max (passed f) (S i) |}
  (** The stream fails, or the process restarts over the same log. *)
  | f_fail f :
      feed_step f Ordinary {| wal := wal f; wal_end := wal_end f; slot := slot f; log := log f; now := now f;
                     resume := resume f; history := history f; stream := None; top := top f; passed := passed f |}
  | f_restart f :
      feed_step f Ordinary {| wal := wal f; wal_end := wal_end f; slot := slot f; log := log f; now := now f;
                     resume := None; history := None; stream := None; top := top f; passed := passed f |}
  (** The process restarts with a log that did not survive. *)
  | f_restart_empty f :
      feed_step f Ordinary {| wal := wal f; wal_end := wal_end f; slot := slot f; log := log_new; now := now f;
                     resume := None; history := None; stream := None; top := None;
                     passed := prefix_len (skips (slot f) None) (wal f) |}
  (** The slot is lost and recreated further on. *)
  | f_slot_lost f s :
      slot f <= s <= wal_end f ->
      feed_step f SlotLost
                  {| wal := wal f; wal_end := wal_end f; slot := s; log := log f; now := now f;
                     resume := resume f; history := history f; stream := None; top := top f;
                     passed := match log_last_commit (log f) with
                               | Some _ => passed f
                               | None => Nat.max (passed f) (prefix_len (skips s None) (wal f))
                               end |}
  (** A standby is promoted: the transactions past the point it had reached are gone,
      its slot is at or behind the old one, and the new timeline goes on from there. *)
  | f_promoted f n s e :
      (forall i, n = S i -> exists c, wal f !! i = Some (Commit c)) ->
      Forall (fun it => item_end it <= e) (take n (wal f)) -> e <= wal_end f ->
      0 <= s <= slot f -> s <= e ->
      feed_step f (Promoted n e)
                  {| wal := take n (wal f); wal_end := e; slot := s; log := log f; now := now f;
                     resume := resume f; history := history f; stream := None; top := top f;
                     passed := Nat.min (passed f) n |}.

(** What the theorem asks: a row sent again is one the log still retains (the slot
    does not fall back past the retention window); a slot is lost once a commit was
    recorded, or while the log is empty; a promotion keeps everything the log was
    given. *)
Definition orderly (f : Feed) (c : Cause) : Prop :=
  match c with
  | Ordinary => True
  | Row i r => (i < passed f)%nat -> exists p rs, log_since p (log f) = Ok rs /\ r ∈ rs
  | SlotLost => log_last_commit (log f) <> None \/ log_min (log f) = None
  | Promoted kept e => (passed f <= kept)%nat /\ forall c, log_last_commit (log f) = Some c -> end_lsn c <= e
  end.

Definition orderly_step (f f' : Feed) : Prop := exists c, orderly f c /\ feed_step f c f'.

Definition fresh_feed (s : Z) (t : Z) : Feed :=
  {| wal := []; wal_end := s; slot := s; log := log_new; now := t; resume := None;
     history := None; stream := None; top := None; passed := 0 |}.

(** ** Lists of items *)

Lemma prefix_len_le g l : (prefix_len g l <= length l)%nat.
Proof. induction l as [|i l IH]; simpl; [lia|]. destruct (g i); lia. Qed.

Lemma prefix_len_skips g l i it :
  (i < prefix_len g l)%nat -> l !! i = Some it -> g it = true.
Proof.
  revert i. induction l as [|x l IH]; intros i Hi; simpl in *; [lia|].
  destruct (g x) eqn:Eg; [|lia]. destruct i as [|i]; simpl; [by intros [= <-]|]. apply IH. lia.
Qed.

Lemma prefix_len_stops g l it : l !! prefix_len g l = Some it -> g it = false.
Proof. induction l as [|x l IH]; simpl; [done|]. destruct (g x) eqn:Eg; [done|]. by intros [= <-]. Qed.

Lemma prefix_len_bound g l j :
  (j <= length l)%nat -> (forall it, l !! j = Some it -> g it = false) -> (prefix_len g l <= j)%nat.
Proof.
  intros Hj Hs. destruct (decide (prefix_len g l <= j)%nat) as [|Hgt]; [done|].
  pose proof (prefix_len_le g l). destruct (lookup_lt_is_Some_2 l j) as [it Hit]; [lia|].
  pose proof (prefix_len_skips g l j it ltac:(lia) Hit). by rewrite (Hs _ Hit) in *.
Qed.

Lemma rows_of_take_S l i it :
  l !! i = Some it ->
  rows_of (take (S i) l) = rows_of (take i l) ++ match it with Event r _ => [r] | Commit _ => [] end.
Proof.
  intros Hi. rewrite (take_S_r _ _ _ Hi). unfold rows_of. rewrite omap_app. f_equal. by destruct it.
Qed.

Lemma elem_of_rows l r : r ∈ rows_of l -> exists i e, l !! i = Some (Event r e).
Proof.
  unfold rows_of. intros ([r' e|c] & Hin & Hit)%list_elem_of_omap; simplify_eq.
  apply list_elem_of_lookup in Hin as [i Hi]. eauto.
Qed.

(** The items come in the order of their positions, transactions one after the
    other, each ending before the next one's commit record. *)
Record wal_ok (l : list SourceItem) (end_ : Z) : Prop := {
  wal_pos : forall i j a b, (i < j)%nat -> l !! i = Some a -> l !! j = Some b ->
    pos_lt (item_pos a) (item_pos b);
  wal_ends : forall i j a b, (i <= j)%nat -> l !! i = Some a -> l !! j = Some b ->
    item_end a <= item_end b;
  wal_next : forall i j c b, (i < j)%nat -> l !! i = Some (Commit c) -> l !! j = Some b ->
    end_lsn c < item_end b;
  wal_below : forall i a, l !! i = Some a ->
    commit_lsn (item_pos a) < item_end a /\ item_end a <= end_;
}.

Lemma rows_ordered l :
  (forall i j a b, (i < j)%nat -> l !! i = Some a -> l !! j = Some b -> pos_lt (item_pos a) (item_pos b)) ->
  StronglySorted before (rows_of l).
Proof.
  induction l as [|x l IH]; intros Hp; [constructor|].
  assert (Hl : StronglySorted before (rows_of l)).
  { apply IH. intros i j a b Hij Ha Hb. apply (Hp (S i) (S j)); [lia|done..]. }
  destruct x as [r e|c]; [|exact Hl]. simpl. constructor; [exact Hl|].
  rewrite Forall_forall. intros r' (j & e' & Hj)%elem_of_rows. by apply (Hp 0%nat (S j) _ _ ltac:(lia) eq_refl Hj).
Qed.

Lemma rows_take_ordered l end_ j : wal_ok l end_ -> StronglySorted before (rows_of (take j l)).
Proof.
  intros [Hp _ _ _]. apply rows_ordered. intros i k a b Hik Ha Hb.
  apply lookup_take_Some in Ha as [Ha _], Hb as [Hb _]. by apply (Hp i k).
Qed.

Lemma transaction_lookup rs c i it :
  transaction rs c !! i = Some it ->
  item_end it = end_lsn c /\
  ((exists r, rs !! i = Some r /\ it = Event r (end_lsn c)) \/ (i = length rs /\ it = Commit c)).
Proof.
  unfold transaction. intros Hi. apply lookup_app_Some in Hi as [Hi|[Hge Hi]].
  - rewrite list_lookup_fmap in Hi. apply fmap_Some in Hi as (r & Hr & ->). split; [done|]. eauto.
  - rewrite length_fmap in *. apply list_lookup_singleton_Some in Hi as [Ei <-]. split; [done|].
    right. split; [lia|done].
Qed.

Lemma transaction_ok rs c i it :
  txn_ok rs c -> transaction rs c !! i = Some it ->
  commit_lsn (item_pos it) = commit_lsn (c_position c) /\ item_end it = end_lsn c.
Proof.
  intros (_ & _ & _ & Hr) Hi. apply transaction_lookup in Hi as [He [(r & Hin & ->)|[_ ->]]]; [|done].
  split; [|done]. rewrite Forall_forall in Hr. by apply Hr; eapply list_elem_of_lookup_2.
Qed.

Lemma sorted_lookup (rs : list Rec) i j r r' :
  StronglySorted before rs -> (i < j)%nat -> rs !! i = Some r -> rs !! j = Some r' -> before r r'.
Proof.
  intros Hs. revert i j. induction Hs as [|a rs Hs IH Ha]; intros i j Hij Hi Hj; [done|].
  destruct i as [|i], j as [|j]; simpl in *; try lia.
  - injection Hi as ->. rewrite Forall_forall in Ha. by apply Ha; eapply list_elem_of_lookup_2.
  - apply (IH i j); [lia|done..].
Qed.

Lemma transaction_pos rs c i j a b :
  txn_ok rs c -> (i < j)%nat -> transaction rs c !! i = Some a -> transaction rs c !! j = Some b ->
  pos_lt (item_pos a) (item_pos b).
Proof.
  intros (_ & _ & Hs & Hr) Hij Ha Hb. rewrite Forall_forall in Hr.
  apply transaction_lookup in Ha as [_ [(r & Hra & ->)|[-> ->]]];
    apply transaction_lookup in Hb as [_ [(r' & Hrb & ->)|[-> ->]]]; simpl.
  - by eapply sorted_lookup.
  - apply Hr. by eapply list_elem_of_lookup_2.
  - apply lookup_lt_Some in Hrb. lia.
  - lia.
Qed.

Lemma wal_ok_commit l end_ rs c :
  wal_ok l end_ -> txn_ok rs c -> end_ <= commit_lsn (c_position c) ->
  wal_ok (l ++ transaction rs c) (end_lsn c).
Proof.
  intros [Hp He Hn Hb] Ht Hle. pose proof Ht as (_ & Hc & _). constructor.
  - intros i j a b Hij Ha Hj. apply lookup_app_Some in Ha as [Ha|[Hi Ha]];
      apply lookup_app_Some in Hj as [Hj|[Hj' Hj]].
    + by apply (Hp i j).
    + apply pos_lt_iff. left. destruct (Hb _ _ Ha). destruct (transaction_ok _ _ _ _ Ht Hj). lia.
    + apply lookup_lt_Some in Hj. lia.
    + apply (transaction_pos rs c (i - length l) (j - length l)); [done|lia|done..].
  - intros i j a b Hij Ha Hj. apply lookup_app_Some in Ha as [Ha|[Hi Ha]];
      apply lookup_app_Some in Hj as [Hj|[Hj' Hj]].
    + by apply (He i j).
    + destruct (Hb _ _ Ha). destruct (transaction_ok _ _ _ _ Ht Hj). lia.
    + apply lookup_lt_Some in Hj. lia.
    + destruct (transaction_ok _ _ _ _ Ht Ha), (transaction_ok _ _ _ _ Ht Hj). lia.
  - intros i j c' b Hij Ha Hj. apply lookup_app_Some in Ha as [Ha|[Hi Ha]];
      apply lookup_app_Some in Hj as [Hj|[Hj' Hj]].
    + by apply (Hn i j).
    + destruct (Hb _ _ Ha). simpl in *. destruct (transaction_ok _ _ _ _ Ht Hj). lia.
    + apply lookup_lt_Some in Hj. lia.
    + apply transaction_lookup in Ha as [_ [(r & _ & ?)|[Hl _]]]; [done|].
      apply lookup_lt_Some in Hj. unfold transaction in Hj. rewrite length_app, length_fmap in Hj. simpl in Hj. lia.
  - intros i a Ha. apply lookup_app_Some in Ha as [Ha|[Hi Ha]].
    + destruct (Hb _ _ Ha). lia.
    + destruct (transaction_ok _ _ _ _ Ht Ha). lia.
Qed.

(** ** What the log retains of the feed *)

Definition ingested (log : St) : option Z := end_lsn <$> log_last_commit log.

(** The item the log has not been through lies past the last commit recorded,
    past the resume point, past everything the log was given, and, before any
    commit is recorded, past the slot. *)
Definition ahead (last : option Z) (p m : option P) (s : Z) (it : SourceItem) : Prop :=
  (forall e, last = Some e -> e < item_end it) /\
  (forall q, p = Some q -> pos_lt q (item_pos it)) /\
  (forall q, m = Some q -> pos_lt q (item_pos it)) /\
  (last = None -> s < item_end it).

(** All of them lie in what is committed so far. *)
Definition within (last : option Z) (p m : option P) (s : Z) (end_ : Z) : Prop :=
  (forall e, last = Some e -> e <= end_) /\
  (forall q, p = Some q -> commit_lsn q < end_) /\
  (forall q, m = Some q -> commit_lsn q < end_) /\
  s <= end_.

(** An item the log has been through. *)
Definition went_through (f : Feed) (q : P) : Prop :=
  exists i it, (i < passed f)%nat /\ wal f !! i = Some it /\ item_pos it = q.

Record feed_ok (f : Feed) : Prop := {
  ok_wal : wal_ok (wal f) (wal_end f);
  ok_end : in_u64 (wal_end f);
  ok_slot : 0 <= slot f;
  ok_passed : (passed f <= length (wal f))%nat;
  ok_stream : forall i, stream f = Some i -> (i <= passed f)%nat;
  ok_within : within (ingested (log f)) (resume f) (top f) (slot f) (wal_end f);
  ok_ahead : forall it, wal f !! passed f = Some it ->
    ahead (ingested (log f)) (resume f) (top f) (slot f) it;
  ok_retained : exists k, holds (log f) (top f) (drop k (rows_of (take (passed f) (wal f)))) (now f);
  ok_went : forall q, resume f = Some q \/ top f = Some q -> went_through f q;
}.

Lemma went_more f f' q :
  went_through f q -> (passed f <= passed f')%nat -> (forall i it, wal f !! i = Some it -> wal f' !! i = Some it) -> went_through f' q.
Proof. intros (i & it & Hi & Hit & <-) Hp Hw. exists i, it. split_and!; [lia|by apply Hw|done]. Qed.

(** Past one item is past every later one. *)
Lemma ahead_later l end_ last p m s i j a b :
  wal_ok l end_ -> (i <= j)%nat -> l !! i = Some a -> l !! j = Some b ->
  ahead last p m s a -> ahead last p m s b.
Proof.
  intros [Hp He _ _] Hij Ha Hb (H1 & H2 & H3 & H4). pose proof (He i j a b Hij Ha Hb).
  destruct (decide (i = j)) as [->|Hne]; [by simplify_eq|].
  pose proof (Hp i j a b ltac:(lia) Ha Hb) as Hlt. split_and!.
  - intros e Hl. specialize (H1 _ Hl). lia.
  - intros q Hq. eapply pos_lt_trans; [by apply H2|done].
  - intros q Hq. eapply pos_lt_trans; [by apply H3|done].
  - intros Hl. specialize (H4 Hl). lia.
Qed.

Lemma ahead_new last p m s end_ it :
  within last p m s end_ -> end_ <= commit_lsn (item_pos it) -> commit_lsn (item_pos it) < item_end it ->
  ahead last p m s it.
Proof.
  intros (H1 & H2 & H3 & H4) Hle Hlt. split_and!.
  - intros e Hl. specialize (H1 _ Hl). lia.
  - intros q Hq. apply pos_lt_iff. left. specialize (H2 _ Hq). lia.
  - intros q Hq. apply pos_lt_iff. left. specialize (H3 _ Hq). lia.
  - intros _. lia.
Qed.

Lemma drop_snoc {A} n k (l : list A) x : exists k', drop n (drop k l ++ [x]) = drop k' (l ++ [x]).
Proof.
  destruct (decide (k <= length l)%nat).
  - exists (k + n)%nat. rewrite <- drop_app_le by done. by rewrite drop_drop.
  - exists (length l + n)%nat. rewrite (drop_ge l k) by lia.
    rewrite <- drop_drop, drop_app_length. done.
Qed.

Lemma f_commit_ok f rs c :
  feed_ok f -> txn_ok rs c -> wal_end f <= commit_lsn (c_position c) ->
  feed_ok {| wal := wal f ++ transaction rs c; wal_end := end_lsn c; slot := slot f;
             log := log f; now := now f; resume := resume f; history := history f; stream := stream f;
             top := top f; passed := passed f |}.
Proof.
  intros [Hw He Hs0 Hp Hs Hin Ha [k Hr] Hsn] Ht Hle. pose proof Ht as (Hu & Hc & _).
  constructor; simpl; try done.
  - by eapply wal_ok_commit.
  - rewrite length_app. lia.
  - destruct Hin as (H1 & H2 & H3 & H4). split_and!.
    + intros e Hl. specialize (H1 _ Hl). lia.
    + intros q Hq. specialize (H2 _ Hq). lia.
    + intros q Hq. specialize (H3 _ Hq). lia.
    + lia.
  - intros it Hit. apply lookup_app_Some in Hit as [Hit|[_ Hit]]; [by apply Ha|].
    destruct (transaction_ok _ _ _ _ Ht Hit). eapply ahead_new; [done|lia|lia].
  - exists k. by rewrite take_app_le.
  - intros q Hq. eapply went_more; [by apply Hsn|done|]. intros i it. by apply lookup_app_l_Some.
Qed.

(** The log goes through one more item, or through an old one again. *)
Lemma pass_item f i it last p :
  feed_ok f -> stream f = Some i -> wal f !! i = Some it ->
  (forall e, last = Some e -> ingested (log f) = Some e \/ exists c, it = Commit c /\ e = end_lsn c) ->
  (last = None -> ingested (log f) = None) ->
  (forall q, p = Some q -> resume f = Some q \/ q = item_pos it) ->
  forall m, (forall q, m = Some q -> top f = Some q \/ ((passed f <= i)%nat /\ q = item_pos it)) ->
  (forall it', wal f !! Nat.max (passed f) (S i) = Some it' -> ahead last p m (slot f) it') /\
  within last p m (slot f) (wal_end f) /\ (Nat.max (passed f) (S i) <= length (wal f))%nat.
Proof.
  intros Hok Hs Hit Hl Hn Hp m Hm. pose proof Hok as [Hw He Hs0 Hpa Hst Hin Ha _ _].
  specialize (Hst _ Hs). pose proof (lookup_lt_Some _ _ _ Hit).
  destruct (wal_below _ _ Hw _ _ Hit) as [Hb1 Hb2]. split_and!; [| |lia].
  - intros it' Hit'. assert (Hall : ahead (ingested (log f)) (resume f) (top f) (slot f) it').
    { pose proof (lookup_lt_Some _ _ _ Hit').
      destruct (lookup_lt_is_Some_2 (wal f) (passed f)) as [it0 Hit0]; [lia|].
      eapply (ahead_later _ _ _ _ _ _ (passed f)); [done| |done|done|by apply Ha]. lia. }
    destruct Hall as (H1 & H2 & H3 & H4).
    assert (Hlt : pos_lt (item_pos it) (item_pos it')) by (eapply (wal_pos _ _ Hw i); [|done..]; lia).
    split_and!.
    + intros e [?|(c & -> & ->)]%Hl; [by apply H1|]. eapply (wal_next _ _ Hw i); [|done..]. lia.
    + intros q [?| ->]%Hp; [by apply H2|done].
    + intros q [?|[_ ->]]%Hm; [by apply H3|done].
    + intros Hx. by apply H4, Hn.
  - destruct Hin as (H1 & H2 & H3 & H4). split_and!; [| | |done].
    + intros e [?|(c & -> & ->)]%Hl; [by apply H1|done].
    + intros q [?| ->]%Hp; [by apply H2|lia].
    + intros q [?|[_ ->]]%Hm; [by apply H3|lia].
Qed.

Lemma f_row_ok f i r e t log' :
  feed_ok f -> stream f = Some i -> wal f !! i = Some (Event r e) -> now f <= t ->
  orderly f (Row i r) ->
  log_append t r (log f) = Ok log' ->
  feed_ok {| wal := wal f; wal_end := wal_end f; slot := slot f; log := log'; now := t;
             resume := Some (r_position r); history := history f; stream := Some (S i);
             top := if decide (i < passed f)%nat then top f else Some (r_position r);
             passed := Nat.max (passed f) (S i) |}.
Proof.
  intros Hok Hs Hit Ht Hagain Hap. pose proof (append_commit _ _ _ _ Hap) as Hlast.
  destruct (pass_item f i (Event r e) (ingested log') (Some (r_position r)) Hok Hs Hit) with
    (m := if decide (i < passed f)%nat then top f else Some (r_position r)) as (Ha & Hin & Hle).
  { intros x Hx. left. unfold ingested in *. congruence. }
  { intros Hx. unfold ingested in *. congruence. }
  { intros q [= <-]. by right. }
  { intros q Hq. case_decide; [by left|right]. injection Hq as <-. split; [lia|done]. }
  pose proof Hok as [Hw He Hs0 Hpa Hst _ Hah [k Hr] Hsn]. specialize (Hst _ Hs).
  constructor; simpl; try done; [intros ? [= <-]; lia| |].
  - destruct (decide (i < passed f)%nat) as [Hlt|Hge].
    + destruct (Hagain Hlt) as (p & rs & Hsi & Hin'). rewrite (since_exact _ _ _ _ _ _ Hr Hsi) in Hin'.
      apply list_elem_of_filter in Hin' as [_ Hin'].
      destruct (append_again _ _ _ _ _ _ _ Hr Ht Hin' Hap) as [n Hn].
      exists (k + n)%nat. rewrite Nat.max_l by lia. by rewrite <- drop_drop.
    + assert (Ei : i = passed f) by lia. subst i. destruct (Hah _ Hit) as (_ & _ & Htop & _).
      destruct (append_next _ _ _ _ _ _ _ Hr Ht Htop Hap) as [n Hn].
      rewrite Nat.max_r by lia. rewrite (rows_of_take_S _ _ _ Hit).
      destruct (drop_snoc n k (rows_of (take (passed f) (wal f))) r) as [k' Ek].
      exists k'. by rewrite <- Ek.
  - intros q Hq. assert (q = r_position r \/ top f = Some q) as [->|Ht'].
    { destruct Hq as [[= <-]|Hq]; [by left|]. case_decide; [by right|left; congruence]. }
    + exists i, (Event r e). split_and!; simpl; [lia|done..].
    + eapply went_more; [apply (Hsn q); by right|simpl; lia|done].
Qed.

Lemma f_recorded_ok f i c log' p s st :
  feed_ok f -> stream f = Some i -> wal f !! i = Some (Commit c) ->
  log_record_commit c (log f) = Ok log' ->
  (p = Some (c_position c) \/ p = resume f) -> (s = slot f \/ s = Z.max (slot f) (end_lsn c)) ->
  (st = Some (S i) \/ st = None) ->
  feed_ok {| wal := wal f; wal_end := wal_end f; slot := s; log := log'; now := now f;
             resume := p; history := history f; stream := st; top := top f; passed := Nat.max (passed f) (S i) |}.
Proof.
  intros Hok Hs Hit Hrec Hp Hsl Hst. pose proof Hok as [Hw He Hs0 Hpa Hstr _ Hah [k Hr] Hsn].
  destruct (wal_below _ _ Hw _ _ Hit) as [Hb1 Hb2]. simpl in Hb1, Hb2.
  assert (Hu : in_u64 (end_lsn c)).
  { pose proof (lsn_u64 (c_position c)). unfold in_u64 in *. lia. }
  pose proof (record_commit_end _ _ _ _ _ _ Hr Hu Hrec) as Hlast. fold (ingested log') (ingested (log f)) in Hlast.
  assert (Hsome : exists x, ingested log' = Some x) by eauto.
  destruct (pass_item f i (Commit c) (ingested log') p Hok Hs Hit) with (m := top f) as (Ha & Hin & Hle).
  { intros x Hx. rewrite Hlast in Hx. destruct (ingested (log f)); [|right; by eexists; simplify_eq].
    case_decide; simplify_eq; [right; by eexists|by left]. }
  { intros Hx. destruct Hsome as [x Hx']. congruence. }
  { intros q Hq. destruct Hp as [->| ->]; [right; by simplify_eq|by left]. }
  { by left. }
  specialize (Hstr _ Hs). constructor; simpl; try done.
  - destruct Hsl as [->| ->]; lia.
  - intros j Hj. destruct Hst as [->| ->]; simplify_eq; lia.
  - destruct Hin as (? & ? & ? & ?). split_and!; [done..|]. destruct Hsl as [->| ->]; lia.
  - intros it Hx. destruct (Ha _ Hx) as (? & ? & ? & _). split_and!; [done..|].
    intros Hy. destruct Hsome as [x Hx']. congruence.
  - exists k. destruct (decide (i < passed f)%nat).
    + rewrite Nat.max_l by lia. by eapply commit_keeps.
    + assert (Ei : i = passed f) by lia. subst i. rewrite Nat.max_r by lia.
      rewrite (rows_of_take_S _ _ _ Hit). simpl. rewrite app_nil_r. by eapply commit_keeps.
  - intros q Hq. assert (q = c_position c \/ resume f = Some q \/ top f = Some q) as [->|Hq'].
    { destruct Hq as [Hq|Hq]; [|by right; right]. destruct Hp as [->| ->]; [left; congruence|by right; left]. }
    + exists i, (Commit c). split_and!; simpl; [lia|done..].
    + eapply went_more; [by apply (Hsn q)|simpl; lia|done].
Qed.

Lemma skips_spec s p it :
  skips s p it = false <-> s < item_end it /\ forall q, p = Some q -> pos_lt q (item_pos it).
Proof.
  unfold skips. rewrite orb_false_iff, bool_decide_eq_false. split.
  - intros [H1 H2]. split; [lia|]. intros q ->. rewrite pos_leb_ltb in H2.
    by apply negb_false_iff, pos_ltb_lt in H2.
  - intros [H1 H2]. split; [lia|]. destruct p as [q|]; [|done].
    rewrite pos_leb_ltb. by apply negb_false_iff, pos_ltb_lt, H2.
Qed.

(** Opening without a gap starts at an item the log has been through. *)
Lemma open_behind f :
  feed_ok f -> (forall e, ingested (log f) = Some e -> slot f <= e) ->
  (prefix_len (skips (slot f) (resume f)) (wal f) <= passed f)%nat.
Proof.
  intros [Hw _ _ Hpa _ _ Hah _ _] Hs. apply prefix_len_bound; [done|].
  intros it Hit. destruct (Hah _ Hit) as (H1 & H2 & _ & H4). apply skips_spec. split; [|done].
  destruct (ingested (log f)) as [e|]; [|by apply H4].
  specialize (H1 _ eq_refl). specialize (Hs _ eq_refl). lia.
Qed.

(** What lies before where the slot resumes is before its boundary. *)
Lemma forgotten_rows f s :
  wal_ok (wal f) (wal_end f) -> in_u64 s -> (passed f < prefix_len (skips s None) (wal f))%nat ->
  forall k, filter (fun r => pos_ltb (before_commit s) (r_position r) = true)
    (drop k (rows_of (take (passed f) (wal f)))) = [].
Proof.
  intros Hw Hs Hlt k. apply filter_none. rewrite Forall_forall.
  intros r Hr%elem_of_list_drop_sub. apply elem_of_rows in Hr as (i & e & Hi).
  apply lookup_take_Some in Hi as [Hi Hil].
  pose proof (prefix_len_skips (skips s None) (wal f) i _ ltac:(lia) Hi) as Hsk. unfold skips in Hsk.
  rewrite orb_false_r in Hsk. apply bool_decide_eq_true in Hsk.
  destruct (wal_below _ _ Hw _ _ Hi) as [Hb _]. simpl in *. rewrite pos_ltb_lt. intros Hx.
  apply pos_lt_le, before_commit_splits in Hx; [lia|done].
Qed.

(** Past where a stream from [s] starts, further on, is still past [s]. *)
Lemma ahead_of_slot f s :
  wal_ok (wal f) (wal_end f) ->
  forall it, wal f !! Nat.max (passed f) (prefix_len (skips s None) (wal f)) = Some it -> s < item_end it.
Proof.
  intros Hw it Hit. pose proof (lookup_lt_Some _ _ _ Hit).
  destruct (lookup_lt_is_Some_2 (wal f) (prefix_len (skips s None) (wal f))) as [a Ha]; [lia|].
  pose proof (prefix_len_stops _ _ _ Ha) as Hst. apply skips_spec in Hst as [Hst _].
  pose proof (wal_ends _ _ Hw _ _ _ _ (Nat.le_max_r (passed f) _) Ha Hit). lia.
Qed.

Lemma ahead_max f n it :
  feed_ok f -> wal f !! Nat.max (passed f) n = Some it ->
  ahead (ingested (log f)) (resume f) (top f) (slot f) it.
Proof.
  intros [Hw _ _ _ _ _ Hah _ _] Hit. pose proof (lookup_lt_Some _ _ _ Hit).
  destruct (lookup_lt_is_Some_2 (wal f) (passed f)) as [a Ha]; [lia|].
  eapply ahead_later; [done|apply (Nat.le_max_l (passed f) n)|done|done|]. by apply Hah.
Qed.

(** Forgetting the resume point, or the history, loses nothing. *)
Lemma f_restart_ok f q h :
  feed_ok f -> q = resume f \/ q = None ->
  feed_ok {| wal := wal f; wal_end := wal_end f; slot := slot f; log := log f; now := now f;
             resume := q; history := h; stream := None; top := top f; passed := passed f |}.
Proof.
  intros [Hw He Hs0 Hp Hs (? & ? & ? & ?) Ha Hr Hsn] Hq. constructor; simpl; try done.
  - split_and!; try done. destruct Hq as [->| ->]; done.
  - intros it Hit. destruct (Ha _ Hit) as (? & ? & ? & ?). split_and!; try done. destruct Hq as [->| ->]; done.
  - intros q' Hq'. eapply went_more; [apply (Hsn q')|done..]. destruct Hq as [->| ->]; naive_solver.
Qed.

Lemma reconcile_history_resume h stored q : (reconcile_history h stored q).1.2 = q \/ (reconcile_history h stored q).1.2 = None.
Proof. unfold reconcile_history. case_decide; [by left|]. destruct stored; auto. Qed.

(** The checks on a log, once the history is settled. *)
Lemma reconcile_before_inv h sl lg stored q gap stored' lg' q' :
  reconcile_before_stream h (Some sl) lg stored q = Ok (gap, stored', lg', q') ->
  exists q1, (q1 = q \/ q1 = None) /\
    match log_last_commit lg with
    | Some c => if decide (end_lsn c < sl) then reconcile_stream sl lg q1 = Ok (Some sl, lg', q')
                else lg' = lg /\ q' = q1
    | None => lg' = lg /\ q' = q1
    end.
Proof.
  unfold reconcile_before_stream, check_before_stream. pose proof (reconcile_history_resume h stored q) as Hq.
  destruct (reconcile_history h stored q) as [[st1 q1] cl]. simpl in *. intros Hrec. exists q1. split; [done|].
  unfold reconcile_stream in *. destruct (log_last_commit lg) as [c|]; simpl in *; [|by simplify_eq].
  destruct (decide (end_lsn c < sl)); [|by simplify_eq].
  rewrite decide_False in * by lia. apply rbind_Ok in Hrec as ([[g1 l1] r1] & Hr & Hrec).
  simplify_eq. apply rbind_Ok in Hr as (l1 & E1 & Hr). apply rbind_Ok in Hr as (l2 & E2 & Hr).
  simplify_eq. rewrite E1. simpl. rewrite E2. done.
Qed.

Lemma open_settled g log' resume' :
  feed_ok g ->
  match log_last_commit (log g) with
  | Some c => if decide (end_lsn c < slot g) then
                reconcile_stream (slot g) (log g) (resume g) = Ok (Some (slot g), log', resume')
              else log' = log g /\ resume' = resume g
  | None => log' = log g /\ resume' = resume g
  end ->
  let i := prefix_len (skips (slot g) resume') (wal g) in
  feed_ok {| wal := wal g; wal_end := wal_end g; slot := slot g; log := log';
             now := now g; resume := resume'; history := history g; stream := Some i;
             top := top g; passed := Nat.max (passed g) i |}.
Proof.
  intros Hok Hrec. cbn zeta.
  pose proof Hok as [Hw He Hs0 Hpa Hst Hin Hah [k Hr] Hsn].
  pose proof Hin as (Hin1 & Hin2 & Hin3 & Hin4).
  assert (Hslot : in_u64 (slot g)) by (unfold in_u64 in *; lia).
  destruct (log_last_commit (log g)) as [c|] eqn:El.
  2:{ destruct Hrec as [-> ->]. pose proof (open_behind g Hok) as Hb.
      rewrite Nat.max_l by (apply Hb; unfold ingested; by rewrite El).
      constructor; simpl; try done; [|by eexists].
      intros ? [= <-]. apply Hb. unfold ingested. by rewrite El. }
  destruct (decide (end_lsn c < slot g)) as [Hgap|Hno].
  2:{ destruct Hrec as [-> ->]. pose proof (open_behind g Hok) as Hb.
      assert (Hle : forall e, ingested (log g) = Some e -> slot g <= e).
      { unfold ingested. rewrite El. intros e [= <-]. lia. }
      rewrite Nat.max_l by auto. constructor; simpl; try done; [|by eexists].
      intros ? [= <-]. auto. }
  unfold reconcile_stream in Hrec. rewrite El, decide_False in Hrec by lia.
  apply rbind_Ok in Hrec as (log1 & Hf & Hrec). apply rbind_Ok in Hrec as (log2 & Hrc & Hrec).
  simplify_eq. pose proof (forget_exact _ _ _ _ _ _ Hr Hf) as Hh1.
  pose proof (commit_keeps _ _ _ _ _ _ Hh1 Hrc) as Hh2.
  pose proof (record_commit_end _ _ _ _ _ {| c_position := before_commit (slot g); end_lsn := slot g |}
    Hh1 Hslot Hrc) as Hlast.
  rewrite (forget_commit _ _ _ Hf), El in Hlast. simpl in Hlast. rewrite decide_True in Hlast by done.
  constructor; simpl; try done.
  - pose proof (prefix_len_le (skips (slot g) None) (wal g)). lia.
  - intros ? [= <-]. lia.
  - unfold ingested. rewrite Hlast. split_and!; [by intros e [= <-]|done|done|done].
  - intros it Hit. destruct (ahead_max g _ _ Hok Hit) as (_ & _ & H3 & _).
    pose proof (ahead_of_slot g (slot g) Hw it Hit) as Hsl. unfold ingested. rewrite Hlast.
    split_and!; [by intros e [= <-]|done|done|done].
  - destruct (decide (prefix_len (skips (slot g) None) (wal g) <= passed g)%nat) as [Hle|Hgt].
    + rewrite Nat.max_l by done.
      destruct (filter_after_suffix (before_commit (slot g)) (drop k (rows_of (take (passed g) (wal g)))))
        as [n En]; [by eapply ordered_drop, rows_take_ordered|].
      rewrite En, drop_drop in Hh2. eauto.
    + rewrite forgotten_rows in Hh2 by (done || lia). rewrite Nat.max_r by lia.
      eexists. by rewrite drop_ge.
  - intros q [?|Hq]; [done|]. eapply went_more; [apply (Hsn q); by right|simpl; lia|done].
Qed.

Lemma f_open_ok f read gap stored' log' resume' :
  feed_ok f ->
  reconcile_before_stream read (Some (slot f)) (log f) (history f) (resume f) =
  Ok (gap, stored', log', resume') ->
  let i := prefix_len (skips (slot f) resume') (wal f) in
  feed_ok {| wal := wal f; wal_end := wal_end f; slot := slot f; log := log';
             now := now f; resume := resume'; history := stored'; stream := Some i;
             top := top f; passed := Nat.max (passed f) i |}.
Proof.
  intros Hok (q & Hq & Hrec)%reconcile_before_inv.
  exact (open_settled _ log' resume' (f_restart_ok f q stored' Hok Hq) Hrec).
Qed.


Lemma f_restart_empty_ok f :
  feed_ok f ->
  feed_ok {| wal := wal f; wal_end := wal_end f; slot := slot f; log := log_new; now := now f;
             resume := None; history := None; stream := None; top := None;
             passed := prefix_len (skips (slot f) None) (wal f) |}.
Proof.
  intros [Hw He Hs0 Hp Hs (_ & _ & _ & Hsl) Ha Hr _].
  assert (Hn : ingested log_new = None) by (unfold ingested; by rewrite new_commit).
  constructor; simpl; rewrite ?Hn; try done.
  - apply prefix_len_le.
  - intros it Hit. apply prefix_len_stops, skips_spec in Hit as [? _]. by split_and!.
  - eexists. rewrite drop_ge by done. apply holds_new.
  - by intros q [?|?].
Qed.

Lemma f_promoted_ok f n s e :
  feed_ok f -> orderly f (Promoted n e) ->
  Forall (fun it => item_end it <= e) (take n (wal f)) -> e <= wal_end f -> 0 <= s <= slot f -> s <= e ->
  feed_ok {| wal := take n (wal f); wal_end := e; slot := s; log := log f; now := now f;
             resume := resume f; history := history f; stream := None; top := top f;
             passed := Nat.min (passed f) n |}.
Proof.
  intros [[W1 W2 W3 W4] He Hs0 Hp Hs (H1 & H2 & H3 & H4) Ha [k Hr] Hsn] [Hk Hc] HF Hle Hsl Hse.
  rewrite Forall_lookup in HF.
  assert (forall q, went_through f q -> commit_lsn q < e) as Hseen.
  { intros q (i & it & Hi & Hit & <-). destruct (W4 _ _ Hit). enough (item_end it <= e) by lia.
    apply (HF i). apply lookup_take_Some. split; [done|lia]. }
  constructor; simpl; rewrite ?(Nat.min_l (passed f) n) by done; try done.
  - constructor.
    + intros i j a b Hij [Hi _]%lookup_take_Some [Hj _]%lookup_take_Some. by eapply W1.
    + intros i j a b Hij [Hi _]%lookup_take_Some [Hj _]%lookup_take_Some. by eapply (W2 i j).
    + intros i j c b Hij [Hi _]%lookup_take_Some [Hj _]%lookup_take_Some. by eapply W3.
    + intros i a Hi. split; [|by eapply HF]. apply lookup_take_Some in Hi as [Hi _]. by eapply W4.
  - unfold in_u64 in *. lia.
  - lia.
  - rewrite length_take. lia.
  - split_and!; [|intros q Hq; apply Hseen, Hsn; auto..|lia].
    unfold ingested. intros x Hx. apply fmap_Some in Hx as (c & Hl & ->). by apply Hc.
  - intros it [Hit _]%lookup_take_Some. destruct (Ha _ Hit) as (A1 & A2 & A3 & A4). split_and!; [done..|].
    intros Hn. specialize (A4 Hn). lia.
  - exists k. by rewrite take_take, Nat.min_l.
  - intros q (i & it & Hi & Hit & <-)%Hsn. exists i, it. split_and!; simpl; [lia| |done].
    apply lookup_take_Some. split; [done|lia].
Qed.

Lemma f_slot_lost_ok f s :
  feed_ok f -> slot f <= s <= wal_end f ->
  log_last_commit (log f) <> None \/ log_min (log f) = None ->
  feed_ok {| wal := wal f; wal_end := wal_end f; slot := s; log := log f; now := now f;
             resume := resume f; history := history f; stream := None; top := top f;
             passed := match log_last_commit (log f) with
                       | Some _ => passed f
                       | None => Nat.max (passed f) (prefix_len (skips s None) (wal f))
                       end |}.
Proof.
  intros Hok Hsl Hd. pose proof Hok as [Hw He Hs0 Hp Hs (H1 & H2 & H3 & H4) Ha [k Hr] Hsn].
  destruct (log_last_commit (log f)) as [c|] eqn:El.
  - constructor; simpl; try done; [lia|by split_and!; [..|lia]| |by eexists].
    intros it Hit. destruct (Ha _ Hit) as (? & ? & ? & _). split_and!; [done..|].
    unfold ingested. by rewrite El.
  - destruct Hd as [?|Hmin]; [done|]. rewrite (min_exact _ _ _ _ Hr) in Hmin.
    destruct (drop k (rows_of (take (passed f) (wal f)))) as [|r l] eqn:Ed; [|done].
    constructor; simpl; try done; [lia| |by split_and!; [..|lia]| | |].
    + pose proof (prefix_len_le (skips s None) (wal f)). lia.
    + intros it Hit. destruct (ahead_max f _ _ Hok Hit) as (? & ? & ? & _). split_and!; [done..|].
      intros _. by apply (ahead_of_slot f s Hw).
    + eexists. by rewrite drop_ge.
    + intros q Hq. eapply went_more; [by apply (Hsn q)|simpl; lia|done].
Qed.

Lemma feed_step_ok f c f' : orderly f c -> feed_step f c f' -> feed_ok f -> feed_ok f'.
Proof.
  intros Hc Hstep Hok. destruct Hstep as [f rs c Ht Hle|f read gap stored' log' resume' Hs Hrec|
    f i r e t log' Hs Hit Ht Hap|f i c log' Hs Hit Hrec|f i c log' Hs Hit Hrec|f|f|f|f s Hsl|f n s e Hn HF He Hs Hse].
  - by apply f_commit_ok.
  - by eapply f_open_ok.
  - by eapply f_row_ok.
  - eapply f_recorded_ok; eauto.
  - eapply f_recorded_ok; eauto.
  - destruct Hok. by constructor.
  - apply f_restart_ok; auto.
  - by apply f_restart_empty_ok.
  - by apply f_slot_lost_ok.
  - by apply f_promoted_ok.
Qed.

Lemma fresh_feed_ok s t : in_u64 s -> feed_ok (fresh_feed s t).
Proof.
  intros Hs. assert (Hn : ingested log_new = None) by (unfold ingested; by rewrite new_commit).
  constructor; simpl; rewrite ?Hn; try done.
  - unfold in_u64 in *. lia.
  - exists 0%nat. apply holds_new.
  - by intros q [?|?].
Qed.

Lemma reach_feed_ok s t f : in_u64 s -> rtc orderly_step (fresh_feed s t) f -> feed_ok f.
Proof.
  intros Hs Hf. refine (rtc_ind_r (R := orderly_step) feed_ok (fresh_feed s t) _ _ f Hf).
  - by apply fresh_feed_ok.
  - intros ?? _ (c & Hc & Hstep) ?. by eapply feed_step_ok.
Qed.

End Feed.
