(* ===== verification/Gate.v ===== *)
(** The client's access gate (connetto-client/src/away.rs): what locks application
    access when the application was away, and what opens it again. A [Duration]
    is nanoseconds. The platform's mechanism is called, not modelled: what the
    gate uses of it is whether it is open, that it was locked, and the prompt it
    hands out, a number here. *)

From stdpp Require Import base list numbers option.
From S2P Require Import Prelude Backoff.
Open Scope Z_scope.

Record Moment := { monotonic : Z; wall : Z }.

Definition away_duration (at_ back : Moment) : Z :=
  Z.max (sat_sub (monotonic back) (monotonic at_)) (sat_sub (wall back) (wall at_)).

Inductive GateAskOutcome := Approved | Dismissed.
#[export] Instance GateAskOutcome_eq_dec : EqDecision GateAskOutcome.
Proof. solve_decision. Defined.

Inductive SinkEvent := SinkLocked | SinkUnlocked | SinkDismissed.

(** [GateController] with its [GateState]. [mechanism] is the armed mechanism's
    [is_open]; [ask] the prompt stored for the owner; [asks] how many were asked
    for and so the next one's number; [locks] the calls of the mechanism's [lock]. *)
Record Gate := {
  recheck : option Z;
  mechanism : option bool;
  locked : bool;
  prompting : bool;
  pending_away : option Moment;
  ask : option nat;
  asks : nat;
  locks : nat;
  sink : list SinkEvent;
}.

Definition new_gate : Gate :=
  {| recheck := None; mechanism := None; locked := false; prompting := false; pending_away := None;
     ask := None; asks := 0; locks := 0; sink := [] |}.

Definition is_armed (g : Gate) : bool := match mechanism g with Some _ => true | None => false end.
Definition is_locked (g : Gate) : bool := locked g.

Definition arm (grace : option Z) (mech : bool) (lock : bool) (g : Gate) : Gate :=
  {| recheck := grace; mechanism := Some mech; locked := lock; prompting := false;
     pending_away := None; ask := ask g; asks := asks g; locks := locks g; sink := sink g |}.
Definition enable (grace : option Z) (mech_open : bool) (g : Gate) : Gate :=
  arm grace mech_open (negb mech_open) g.
Definition enable_verified (grace : option Z) (mech_open : bool) (g : Gate) : Gate :=
  arm grace mech_open false g.

Definition away (at_ : Moment) (g : Gate) : Gate :=
  if negb (is_armed g) || locked g then g
  else match recheck g with
       | None => g
       | Some _ =>
           {| recheck := recheck g; mechanism := mechanism g; locked := locked g;
              prompting := prompting g; pending_away := Some at_; ask := ask g; asks := asks g;
              locks := locks g; sink := sink g |}
       end.

Definition start_prompt (g : Gate) : Gate :=
  {| recheck := recheck g; mechanism := mechanism g; locked := true; prompting := true;
     pending_away := pending_away g; ask := Some (asks g); asks := S (asks g); locks := S (locks g);
     sink := sink g ++ [SinkLocked] |}.

Definition take_pending (g : Gate) : Gate :=
  {| recheck := recheck g; mechanism := mechanism g; locked := locked g; prompting := prompting g;
     pending_away := None; ask := ask g; asks := asks g; locks := locks g; sink := sink g |}.

Definition back (at_ : Moment) (g : Gate) : bool * Gate :=
  if negb (is_armed g) then (false, g)
  else if locked g then
    if prompting g then (false, g) else (true, start_prompt g)
  else
    match pending_away g with
    | None => (false, g)
    | Some pending =>
        let g := take_pending g in
        match recheck g with
        | None => (false, g)
        | Some grace =>
            if decide (grace = 0 \/ away_duration pending at_ > grace) then (true, start_prompt g)
            else (false, g)
        end
    end.

Definition unlock (g : Gate) : bool * Gate :=
  if is_armed g && locked g && negb (prompting g) then (true, start_prompt g) else (false, g).

Definition set_locked (lock : bool) (g : Gate) : bool * Gate :=
  if decide (locked g = lock) then (false, g)
  else (true, {| recheck := recheck g; mechanism := mechanism g; locked := lock; prompting := false;
                 pending_away := None; ask := ask g; asks := asks g; locks := locks g;
                 sink := sink g ++ [if lock then SinkLocked else SinkUnlocked] |}).

Definition take_ask (g : Gate) : option nat * Gate :=
  (ask g, {| recheck := recheck g; mechanism := mechanism g; locked := locked g;
             prompting := prompting g; pending_away := pending_away g; ask := None; asks := asks g;
             locks := locks g; sink := sink g |}).
Definition restore_ask (a : nat) (g : Gate) : Gate :=
  {| recheck := recheck g; mechanism := mechanism g; locked := locked g; prompting := prompting g;
     pending_away := pending_away g; ask := Some a; asks := asks g; locks := locks g; sink := sink g |}.

(** [apply_outcome], with the owner's slot for the prompt it drove. *)
Definition apply_outcome (slot : option nat) (outcome : option GateAskOutcome) (g : Gate) :
    option nat * Gate :=
  match outcome with
  | None => (slot, g)
  | Some o =>
      (None, {| recheck := recheck g; mechanism := mechanism g;
                locked := if decide (o = Approved) then false else locked g; prompting := false;
                pending_away := pending_away g; ask := ask g; asks := asks g; locks := locks g;
                sink := sink g ++ [if decide (o = Approved) then SinkUnlocked else SinkDismissed] |})
  end.

(** ** Histories *)

Inductive Op :=
| OpEnable (grace : option Z) (mech_open : bool)
| OpEnableVerified (grace : option Z) (mech_open : bool)
| OpAway (at_ : Moment)
| OpBack (at_ : Moment)
| OpUnlock
| OpSetLocked (lock : bool)
| OpTakeAsk
| OpRestoreAsk (a : nat)
| OpOutcome (slot : option nat) (o : option GateAskOutcome).

Definition run (o : Op) (g : Gate) : Gate :=
  match o with
  | OpEnable d m => enable d m g
  | OpEnableVerified d m => enable_verified d m g
  | OpAway t => away t g
  | OpBack t => (back t g).2
  | OpUnlock => (unlock g).2
  | OpSetLocked b => (set_locked b g).2
  | OpTakeAsk => (take_ask g).2
  | OpRestoreAsk a => restore_ask a g
  | OpOutcome slot o => (apply_outcome slot o g).2
  end.
Definition run_all (ops : list Op) (g : Gate) : Gate := foldl (fun g o => run o g) g ops.

(** What may open the gate: the user's approval, the relay, or arming it open. *)
Definition opens (o : Op) : Prop :=
  match o with
  | OpOutcome _ (Some Approved) | OpSetLocked false | OpEnable _ true | OpEnableVerified _ _ => True
  | _ => False
  end.

Record gate_ok (g : Gate) : Prop := {
  gk_prompting : prompting g = true -> locked g = true /\ is_armed g = true;
  gk_pending : is_Some (pending_away g) ->
    locked g = false /\ is_armed g = true /\ is_Some (recheck g);
}.

Lemma start_prompt_ok g : is_armed g = true -> pending_away g = None -> gate_ok (start_prompt g).
Proof. intros Ha Hp. constructor; simpl; [done|]. rewrite Hp. by intros [? ?]. Qed.

Lemma locked_no_pending g : gate_ok g -> locked g = true -> pending_away g = None.
Proof.
  intros H Hl. destruct (pending_away g) as [t|] eqn:E; [|done].
  destruct (gk_pending g H) as (H1 & _); [rewrite E; by eexists|congruence].
Qed.

Lemma run_ok o g : gate_ok g -> gate_ok (run o g).
Proof.
  intros H. pose proof H as [Hp Hq]. destruct o as [d m|d m|t|t| |b| |a|slot [o|]]; simpl.
  - constructor; simpl; [done|by intros [? ?]].
  - constructor; simpl; [done|by intros [? ?]].
  - unfold away. destruct (is_armed g) eqn:Ha; [|done]. destruct (locked g) eqn:Hl; [done|]. simpl.
    destruct (recheck g) eqn:Hr; [|done]. constructor; simpl; [|by eauto].
    intros Hpr. destruct (Hp Hpr). congruence.
  - unfold back. destruct (is_armed g) eqn:Ha; [|done]. simpl. destruct (locked g) eqn:Hl.
    { destruct (prompting g); [done|]. apply start_prompt_ok; [done|by apply locked_no_pending]. }
    destruct (pending_away g) as [t0|] eqn:Ht; [|done].
    assert (Htk : gate_ok (take_pending g)).
    { constructor; simpl; [|by intros [? ?]]. intros Hpr. destruct (Hp Hpr). congruence. }
    simpl. destruct (recheck g); [|done]. case_decide; [|done]. by apply start_prompt_ok.
  - unfold unlock. destruct (is_armed g) eqn:Ha; [|done]. destruct (locked g) eqn:Hl; [|done].
    destruct (prompting g); [done|]. apply start_prompt_ok; [done|by apply locked_no_pending].
  - unfold set_locked. case_decide; [done|]. constructor; simpl; [done|by intros [? ?]].
  - by constructor.
  - by constructor.
  - constructor; simpl; [done|]. intros Hs. destruct (Hq Hs) as (Hl & Ha & Hr).
    split_and!; [by case_decide|done|done].
  - done.
Qed.

Lemma run_all_ok ops : gate_ok (run_all ops new_gate).
Proof.
  assert (H : forall g, gate_ok g -> gate_ok (run_all ops g)).
  { induction ops as [|o ops IH]; [done|]. intros g Hg. apply IH. by apply run_ok. }
  apply H. constructor; simpl; [done|by intros [? ?]].
Qed.

Lemma run_locked o g : ~ opens o -> locked g = true -> locked (run o g) = true.
Proof.
  intros Ho Hl. destruct o as [d [|]|d m|t|t| |[|]| |a|slot [[|]|]]; simpl in *; try done.
  - unfold away. by rewrite Hl, orb_true_r.
  - unfold back. rewrite Hl. destruct (is_armed g), (prompting g); done.
  - unfold unlock. by destruct (is_armed g && locked g && negb (prompting g)).
  - unfold set_locked. by case_decide.
Qed.

(** C40. A locked gate stays locked: from the moment it locks, whatever the
    application, the platform and the relay do, access is refused until the user
    approves a prompt, the relay says so, or the gate is armed anew open; and
    throughout a prompt is in flight only behind a locked, armed gate, and no away
    moment is kept that an approval would later measure from. *)
Theorem gate_stays_locked ops ops' :
  Forall (fun o => ~ opens o) ops' -> is_locked (run_all ops new_gate) = true ->
  let g := run_all (ops ++ ops') new_gate in
  is_locked g = true /\ pending_away g = None /\ (prompting g = true -> is_armed g = true).
Proof.
  intros Hops Hl0 g. enough (Hl : is_locked g = true).
  { pose proof (run_all_ok (ops ++ ops')) as Hok. split_and!; [done|by apply locked_no_pending|].
    intros Hp. by apply (gk_prompting g Hok). }
  unfold g. revert Hl0. clear g. unfold run_all. rewrite foldl_app. unfold is_locked.
  generalize (foldl (fun g o => run o g) new_gate ops). induction Hops as [|o l Ho _ IH]; [done|].
  intros g Hl. simpl. apply IH. by apply run_locked.
Qed.

(** The re-check is exact: after any history that leaves an armed gate open with
    a grace, going away at one moment and coming back at another locks the gate
    and starts a prompt exactly when the grace is zero or either clock says the
    time away exceeds it, and then the mechanism is locked, the prompt is stored
    for its owner and the sink is told; a clock set back cannot shorten the time
    away below the other clock's. *)
Theorem recheck_exact ops at_ back_at grace :
  let g := run_all ops new_gate in
  is_armed g = true -> is_locked g = false -> recheck g = Some grace -> 0 <= grace ->
  let '(started, g') := back back_at (away at_ g) in
  (started = true <->
     grace = 0 \/ monotonic back_at - monotonic at_ > grace \/ wall back_at - wall at_ > grace) /\
  is_locked g' = started /\ pending_away g' = None /\
  (started = true ->
     prompting g' = true /\ ask g' = Some (asks g) /\ locks g' = S (locks g) /\
     sink g' = sink g ++ [SinkLocked]).
Proof.
  intros g Ha Hl Hr Hg. unfold is_locked in Hl.
  assert (Haw : away at_ g = {| recheck := Some grace; mechanism := mechanism g; locked := false;
    prompting := prompting g; pending_away := Some at_; ask := ask g; asks := asks g;
    locks := locks g; sink := sink g |}).
  { unfold away. by rewrite Ha, Hl, Hr. }
  rewrite Haw. unfold back. simpl.
  assert (Ha' : is_armed {| recheck := Some grace; mechanism := mechanism g; locked := false;
    prompting := prompting g; pending_away := Some at_; ask := ask g; asks := asks g;
    locks := locks g; sink := sink g |} = true) by exact Ha.
  rewrite Ha'. simpl. unfold away_duration, sat_sub. case_decide as Hd.
  - split_and!; [|done|done|done]. split; [|done]. intros _. lia.
  - split_and!; [|done|done|done]. split; [done|]. lia.
Qed.

(** Arming a closed gate locks access without telling the sink. *)
Lemma arm_is_silent grace g :
  is_locked (enable grace false g) = true /\ sink (enable grace false g) = sink g.
Proof. done. Qed.

Lemma gate_stays_locked_witness :
  is_locked (run_all ([OpEnable (Some 5) false] ++
    [OpBack {| monotonic := 9; wall := 9 |}; OpTakeAsk; OpOutcome None (Some Dismissed); OpUnlock])
    new_gate) = true /\
  pending_away (run_all ([OpEnable (Some 5) false] ++
    [OpBack {| monotonic := 9; wall := 9 |}; OpTakeAsk; OpOutcome None (Some Dismissed); OpUnlock])
    new_gate) = None.
Proof.
  destruct (gate_stays_locked [OpEnable (Some 5) false]
    [OpBack {| monotonic := 9; wall := 9 |}; OpTakeAsk; OpOutcome None (Some Dismissed); OpUnlock])
    as (H1 & H2 & _).
  - repeat constructor; intros Ho; exact Ho.
  - reflexivity.
  - split; [exact H1|exact H2].
Defined.

Lemma recheck_exact_witness :
  let g := run_all [OpEnable (Some 5) true] new_gate in
  is_locked (back {| monotonic := 7; wall := 0 |} (away {| monotonic := 1; wall := 3 |} g)).2 = true.
Proof.
  pose proof (recheck_exact [OpEnable (Some 5) true] {| monotonic := 1; wall := 3 |}
    {| monotonic := 7; wall := 0 |} 5 eq_refl eq_refl eq_refl ltac:(lia)) as H.
  cbv zeta in *. destruct (back _ _) as [started g']. destruct H as (H1 & H2 & _). simpl.
  rewrite H2. apply H1. simpl. lia.
Defined.
