(* ===== verification/Caller.v ===== *)
(** Who is calling: connetto-core/src/auth.rs and the fold of a handshake's
    grants into a caller (connetto-server/src/session.rs [resolve_grants]).

    A checked grant names a person or a share key. The caller a handshake
    resolves carries at most one identity and any number of keys, and is rendered
    as text where Postgres settings, the file store and the meters key on it
    (connetto-server/src/capability.rs [rendered_caller], [meter_key]). *)

From Stdlib Require Import ZArith Lia Ascii Sorted.
From stdpp Require Import base list numbers option strings gmap sorting.
From S2P Require Import Prelude Throttle Guard.

Open Scope Z_scope.

(** ** Text *)

(** [str::contains] of a character. *)
Fixpoint has_char (c : ascii) (s : string) : bool :=
  match s with
  | EmptyString => false
  | String d s' => Ascii.eqb c d || has_char c s'
  end.

(** [str::split_once]. *)
Fixpoint split_once (c : ascii) (s : string) : option (string * string) :=
  match s with
  | EmptyString => None
  | String d s' =>
      if Ascii.eqb c d then Some (EmptyString, s')
      else '(a, b) ← split_once c s'; Some (String d a, b)
  end.

(** [slice::join]. *)
Fixpoint join (sep : string) (l : list string) : string :=
  match l with
  | [] => ""
  | [x] => x
  | x :: l' => x +:+ sep +:+ join sep l'
  end.

(** The order [str] sorts by, its bytes', which is that of these characters. *)
Definition string_le (a b : string) : Prop := String.leb a b = true.
#[export] Instance string_le_dec a b : Decision (string_le a b).
Proof. unfold string_le. apply _. Defined.

(** [Vec::dedup]. *)
Fixpoint dedup (l : list string) : list string :=
  match l with
  | [] => []
  | x :: l' =>
      match l' with
      | y :: _ => if decide (x = y) then dedup l' else x :: dedup l'
      | [] => [x]
      end
  end.

(** The text of a session id and its parser: those of the [uuid] crate, whose
    dashed form reads back and holds hexadecimal digits and dashes only. *)
Class SessionText (SessionId : Type) := {
  session_text : SessionId -> string;
  session_parse : string -> option SessionId;
  session_parse_text s : session_parse (session_text s) = Some s;
  session_text_plain s : has_char "." (session_text s) = false;
}.

(** The deployment's share-key type: its rendering and the character that packs
    a set of keys. *)
Class CapabilityKey (Key : Type) := {
  key_text : Key -> string;
  SEPARATOR : ascii;
}.

(** ** Bot lists: connetto-core/src/bots.rs *)

Inductive Verb := Read | Insert | Update | Delete.

Definition verb_as_str (v : Verb) : string :=
  match v with
  | Read => "read" | Insert => "insert" | Update => "update" | Delete => "delete"
  end.

Definition verb_parse (spelled : string) : option Verb :=
  if decide (spelled = "read") then Some Read
  else if decide (spelled = "insert") then Some Insert
  else if decide (spelled = "update") then Some Update
  else if decide (spelled = "delete") then Some Delete else None.

Record BotList := { entries : list (string * Verb) }.

Definition BOT_LIST_SEPARATOR : string := ",".
Definition BOT_LIST_WILDCARD : string := "*".

Definition bot_list_text (l : BotList) : string :=
  foldl (fun text '(table, verb) =>
           (if decide (text = "") then text else text +:+ BOT_LIST_SEPARATOR) +:+
           table +:+ ":" +:+ verb_as_str verb) "" (entries l).

(** ** The caller *)

Section Caller.
Context {SessionId Id Key : Type}.

Record AuthContext := { user_id : Id }.

Record VerifiedSession := {
  vs_context : AuthContext; vs_session_id : SessionId; vs_bot_list : option BotList;
}.

(** A [CapabilitySubject] is its key. *)
Inductive Subject :=
| Identified_ (session : VerifiedSession)
| Capability (key : Key).

Record CheckedGrant := { subject : Subject; expires_at : option Z }.

Inductive GrantRefused := Invalid (detail : string) | Revoked.

Record Principal := {
  session_id : SessionId; identity : option AuthContext;
  capabilities : list Key; bot_list : option BotList;
}.

Definition unidentified (s : SessionId) : Principal :=
  {| session_id := s; identity := None; capabilities := []; bot_list := None |}.

(** Whether the grant was accepted, with the caller left behind. *)
Definition accept (sub : Subject) (p : Principal) : bool * Principal :=
  match sub with
  | Capability k =>
      (true, {| session_id := session_id p; identity := identity p;
                capabilities := capabilities p ++ [k]; bot_list := bot_list p |})
  | Identified_ s =>
      match identity p with
      | None =>
          (true, {| session_id := vs_session_id s; identity := Some (vs_context s);
                    capabilities := capabilities p; bot_list := vs_bot_list s |})
      | Some _ =>
          (false, {| session_id := session_id p; identity := None;
                     capabilities := capabilities p; bot_list := None |})
      end
  end.

Context `{CK : CapabilityKey Key}.

Fixpoint first_seen (rendered : list string) (keys : list Key) : list Key :=
  match keys with
  | [] => []
  | k :: keys' =>
      if decide (key_text k ∈ rendered) then first_seen rendered keys'
      else k :: first_seen (rendered ++ [key_text k]) keys'
  end.

Definition with_capabilities (keys : list Key) (p : Principal) : Principal :=
  {| session_id := session_id p; identity := identity p;
     capabilities := first_seen [] keys; bot_list := bot_list p |}.

(** ** The grants of a handshake or a key swap *)

Inductive GrantSource := Handshake | Swap.

Record ResolvedGrants := {
  principal : Principal; key_expiry : gmap string Z; refusals : Z; wait : option Z;
}.

(** One accepted key's entry: the latest expiry of its copies, none once a copy
    has none. *)
Definition key_entry (key : string) (expires : option Z) (kx : gmap string Z)
    (unbounded : gset string) : gmap string Z * gset string :=
  match expires with
  | Some e =>
      if decide (key ∈ unbounded) then (kx, unbounded)
      else (<[key := Z.max (default e (kx !! key)) e]> kx, unbounded)
  | None => (delete key kx, {[key]} ∪ unbounded)
  end.

(** One turn of the loop, short of the meter: whether the grant was refused. *)
Definition fold_grant (source : GrantSource)
    (checked : Result CheckedGrant GrantRefused) (p : Principal) (kx : gmap string Z)
    (unbounded : gset string) : bool * Principal * gmap string Z * gset string :=
  match checked with
  | Err _ => (true, p, kx, unbounded)
  | Ok g =>
      match subject g, source with
      | Identified_ _, Swap => (true, p, kx, unbounded)
      | sub, _ =>
          let '(accepted, p) := accept sub p in
          match sub with
          | Capability k =>
              let '(kx, unbounded) :=
                if accepted then key_entry (key_text k) (expires_at g) kx unbounded
                else (kx, unbounded) in
              (negb accepted, p, kx, unbounded)
          | Identified_ _ => (negb accepted, p, kx, unbounded)
          end
      end
  end.

(** The authority checks each grant in turn; the meter charges each refusal at
    the instant it is made and ends the loop once it imposes a wait. *)
Fixpoint resolve_loop `{Countable SessionId} (source : GrantSource) (handle : SessionId)
    (checks : list (Result CheckedGrant GrantRefused * Z)) (p : Principal)
    (kx : gmap string Z) (unbounded : gset string) (n : Z) (ht : HandleThrottle SessionId) :
    ResolvedGrants * HandleThrottle SessionId :=
  match checks with
  | [] => ({| principal := p; key_expiry := kx; refusals := n; wait := None |}, ht)
  | (checked, now) :: rest =>
      let '(refused, p, kx, unbounded) := fold_grant source checked p kx unbounded in
      if refused then
        let n := sat_add u32_max n 1 in
        let '(w, ht) := credential_refusal handle Anonymous now ht in
        match w with
        | Some _ => ({| principal := p; key_expiry := kx; refusals := n; wait := w |}, ht)
        | None => resolve_loop source handle rest p kx unbounded n ht
        end
      else resolve_loop source handle rest p kx unbounded n ht
  end.

Definition resolve_grants `{Countable SessionId} (handle : SessionId)
    (checks : list (Result CheckedGrant GrantRefused * Z)) (source : GrantSource)
    (ht : HandleThrottle SessionId) : ResolvedGrants * HandleThrottle SessionId :=
  resolve_loop source handle checks (unidentified handle) ∅ ∅ 0 ht.

(** ** The caller as text *)

Definition subjects (keys : list Key) : list string :=
  dedup (merge_sort string_le (key_text <$> keys)).

Record ContentCaller := { cc_identity : option string; cc_subjects : list string;
                          cc_bot_list : string }.

Definition packed_subjects (separator : ascii) (c : ContentCaller) : option string :=
  match cc_subjects c with
  | [] => None
  | l => Some (join (String separator EmptyString) l)
  end.

Definition attributions (c : ContentCaller) : list string :=
  match cc_identity c with Some i => [i] | None => cc_subjects c end.

Definition storage_key (separator : ascii) (c : ContentCaller) : option string :=
  match cc_identity c with
  | Some i => Some ("user:" +:+ i)
  | None => (fun s => "keys:" +:+ s) <$> packed_subjects separator c
  end.

Context `{ID : Identity Id} `{ST : SessionText SessionId}.

Definition bot_list_for (p : Principal) : string :=
  match bot_list p with None => BOT_LIST_WILDCARD | Some l => bot_list_text l end.

Definition rendered_caller (p : Principal) : ContentCaller :=
  {| cc_identity := (fun c => to_string (user_id c)) <$> identity p;
     cc_subjects := subjects (capabilities p); cc_bot_list := bot_list_for p |}.

Definition meter_key (p : Principal) (run : SessionId) : string :=
  default (session_text run) (storage_key SEPARATOR (rendered_caller p)).
End Caller.

Arguments AuthContext : clear implicits.
Arguments VerifiedSession : clear implicits.
Arguments Subject : clear implicits.
Arguments CheckedGrant : clear implicits.
Arguments Principal : clear implicits.
Arguments ResolvedGrants : clear implicits.

(** ** Text lemmas *)

Lemma split_once_app c a b :
  has_char c a = false -> split_once c (a +:+ String c b) = Some (a, b).
Proof.
  induction a as [|d a IH]; simpl; intros H.
  - by rewrite Ascii.eqb_refl.
  - apply orb_false_elim in H as [-> H]. by rewrite IH.
Qed.

Lemma split_once_spec c s a b :
  split_once c s = Some (a, b) -> s = a +:+ String c b /\ has_char c a = false.
Proof.
  revert a. induction s as [|d s IH]; simpl; intros a H; [done|].
  destruct (Ascii.eqb c d) eqn:E.
  - apply Ascii.eqb_eq in E as ->. by simplify_eq.
  - apply bind_Some in H as ([a' b'] & H & ?). simplify_eq.
    destruct (IH a' H) as [-> Ha]. simpl. by rewrite E.
Qed.

Lemma join_cons c x y l : join (String c "") (x :: y :: l) = x +:+ String c (join (String c "") (y :: l)).
Proof. done. Qed.

(** Joining elements free of the separator loses nothing. *)
Lemma join_inj c l k :
  Forall (fun s => has_char c s = false) l -> Forall (fun s => has_char c s = false) k ->
  l <> [] -> k <> [] -> join (String c "") l = join (String c "") k -> l = k.
Proof.
  revert k. induction l as [|x l IH]; intros k Hl Hk Hln Hkn E; [done|].
  destruct k as [|y k]; [done|].
  apply Forall_cons in Hl as [Hx Hl], Hk as [Hy Hk].
  assert (Hno : forall x y k, has_char c x = false -> x = y +:+ String c k -> False).
  { clear. intros x y k H ->. induction y as [|d y IH]; simpl in H.
    - by rewrite Ascii.eqb_refl in H.
    - apply orb_false_elim in H as [_ H]. auto. }
  destruct l as [|x' l], k as [|y' k].
  - by simpl in E; subst.
  - rewrite join_cons in E. simpl in E. by apply Hno in E.
  - rewrite join_cons in E. simpl in E. symmetry in E. by apply Hno in E.
  - rewrite !join_cons in E.
    pose proof (split_once_app c x (join (String c "") (x' :: l)) Hx) as S1.
    rewrite E, (split_once_app c y _ Hy) in S1. simplify_eq. f_equal. by apply IH.
Qed.

(** ** Sorted, deduplicated renderings *)

#[export] Instance string_le_total : Total string_le.
Proof.
  intros a b. unfold string_le. destruct (String.leb_total a b) as [H|H]; auto.
Qed.

#[export] Instance string_le_antisymm : AntiSymm (=) string_le.
Proof. intros a b. apply String.leb_antisym. Qed.

#[export] Instance string_le_trans : Transitive string_le.
Proof.
  unfold string_le, String.leb. intros a. induction a as [|x a IH]; intros b d; simpl.
  - destruct b, d; done.
  - destruct b as [|y b]; [done|]. destruct d as [|z d]; [done|]. simpl. unfold Ascii.compare.
    destruct (N.compare_spec (N_of_ascii x) (N_of_ascii y)) as [E1|E1|E1],
             (N.compare_spec (N_of_ascii y) (N_of_ascii z)) as [E2|E2|E2],
             (N.compare_spec (N_of_ascii x) (N_of_ascii z)) as [E3|E3|E3];
      try done; try lia; apply IH.
Qed.

Lemma elem_of_dedup x l : x ∈ dedup l <-> x ∈ l.
Proof.
  induction l as [|a [|b l] IH]; [done|done|]. simpl in *.
  case_decide as E; [subst; rewrite IH|]; set_solver.
Qed.

Lemma dedup_sorted l :
  StronglySorted string_le l -> StronglySorted string_le (dedup l) /\ NoDup (dedup l).
Proof.
  induction l as [|a l IH]; [repeat constructor|]. intros [Hs Ha]%StronglySorted_inv.
  destruct (IH Hs) as [IHs IHn]. destruct l as [|b l].
  { split; [repeat constructor|]. apply NoDup_singleton. }
  cbn [dedup] in *. case_decide as E; [done|]. split.
  - constructor; [done|]. apply Forall_forall. intros x Hx.
    rewrite Forall_forall in Ha. apply Ha.
    by apply (proj1 (elem_of_dedup x (b :: l))).
  - apply NoDup_cons. split; [|done]. rewrite (elem_of_dedup a (b :: l)).
    intros [Hx|Hx]%elem_of_cons; [by subst|].
    apply E, (anti_symm string_le); [by apply Forall_cons in Ha as [? _]|].
    apply StronglySorted_inv in Hs as [_ Hb]. rewrite Forall_forall in Hb. by apply Hb.
Qed.

(** The rendered set decides the rendered list: neither the order nor the copies
    of the keys show. *)
Lemma subjects_eq `{CapabilityKey Key} (k1 k2 : list Key) :
  subjects k1 = subjects k2 <-> forall t, t ∈ key_text <$> k1 <-> t ∈ key_text <$> k2.
Proof.
  assert (Hm : forall k t, t ∈ subjects k <-> t ∈ key_text <$> k).
  { intros k t. unfold subjects. by rewrite elem_of_dedup, merge_sort_Permutation. }
  split; intros E.
  - intros t. by rewrite <- !Hm, E.
  - unfold subjects in *.
    destruct (dedup_sorted (merge_sort string_le (key_text <$> k1))) as [S1 N1];
      [apply (StronglySorted_merge_sort _)|].
    destruct (dedup_sorted (merge_sort string_le (key_text <$> k2))) as [S2 N2];
      [apply (StronglySorted_merge_sort _)|].
    apply (StronglySorted_unique string_le); [done..|].
    apply NoDup_Permutation; [done..|]. intros t. by rewrite !Hm, E.
Qed.

(** ** What a list of grants resolves to *)

Section Resolution.
Context {SessionId Id Key : Type} `{CK : CapabilityKey Key} `{CS : Countable SessionId}.

Notation Check := (Result (CheckedGrant SessionId Id Key) GrantRefused).
Notation subject := (subject (SessionId := SessionId) (Id := Id) (Key := Key)).
Notation Subject := (Subject SessionId Id Key).
Notation Principal := (Principal SessionId Id Key).
Notation ResolvedGrants := (ResolvedGrants SessionId Id Key).

(** The grants that check out, the logins and the keys among them. *)
Definition checked_out (checks : list Check) : list (CheckedGrant SessionId Id Key) :=
  omap (fun c => match c with Ok g => Some g | Err _ => None end) checks.

Definition login_of (sub : Subject) : option (VerifiedSession SessionId Id) :=
  match sub with Identified_ s => Some s | Capability _ => None end.

Definition key_of (sub : Subject) : option Key :=
  match sub with Identified_ _ => None | Capability k => Some k end.

Definition logins (checks : list Check) := omap login_of (subject <$> checked_out checks).
Definition keys (checks : list Check) := omap key_of (subject <$> checked_out checks).

(** When the copies of one key die. *)
Definition copies (t : string) (checks : list Check) : list (option Z) :=
  omap (fun g => k ← key_of (subject g); if decide (key_text k = t) then Some (expires_at g) else None)
    (checked_out checks).

(** A key lives as long as its longest-lived copy, for ever when a copy does. *)
Definition lives_until (l : list (option Z)) (e : Z) : Prop :=
  None ∉ l /\ Some e ∈ l /\ forall e', Some e' ∈ l -> e' <= e.

Definition accepted (gs : list (CheckedGrant SessionId Id Key)) (p : Principal) : Principal :=
  foldl (fun p g => (accept (subject g) p).2) p gs.

Definition dies (l : list (option Z)) (o : option Z) : Prop :=
  match o with Some e => lives_until l e | None => l = [] \/ None ∈ l end.

Definition tracks (l : string -> list (option Z)) (kx : gmap string Z) (u : gset string) : Prop :=
  forall t, dies (l t) (kx !! t) /\ (t ∈ u <-> None ∈ l t).

Lemma dies_iff l o e : dies l o -> o = Some e <-> lives_until l e.
Proof.
  unfold dies, lives_until. destruct o as [m|].
  - intros (Hn & Hm & Hmax). split; [intros [= <-]; done|].
    intros (_ & He & Hmx). f_equal. apply Hmx in Hm. apply Hmax in He. lia.
  - intros [->|H]; set_solver.
Qed.

Lemma key_entry_tracks l kx u t e kx' u' :
  tracks l kx u -> key_entry t e kx u = (kx', u') ->
  tracks (fun t' => l t' ++ if decide (t = t') then [e] else []) kx' u'.
Proof.
  intros H E t'. destruct (H t') as [Hd Hu]. unfold key_entry in E.
  destruct e as [e|]; [case_decide as Ht|]; simplify_eq/=; case_decide as Hc; subst;
    rewrite ?app_nil_r, ?lookup_insert_eq, ?lookup_insert_ne, ?lookup_delete_eq,
      ?lookup_delete_ne by done; (split; [|set_solver]); try done; unfold dies in *.
  - apply Hu in Ht. destruct (kx' !! t'); [by destruct Hd|set_solver].
  - rewrite Hu in Ht. destruct (kx !! t') as [m|]; simpl.
    + destruct Hd as (_ & Hm & Hmax). split_and!; [set_solver| |].
      * destruct (Z.max_spec m e) as [[_ ->]|[_ ->]]; set_solver.
      * intros e' [He|He%list_elem_of_singleton]%elem_of_app; simplify_eq; [|lia].
        apply Hmax in He. lia.
    + destruct Hd as [->|]; [|done]. simpl. rewrite Z.max_id.
      split_and!; [set_solver..|]. intros e' [= ->]%list_elem_of_singleton. lia.
  - set_solver.
Qed.

Lemma copies_app t l k : copies t (l ++ k) = copies t l ++ copies t k.
Proof. unfold copies, checked_out. by rewrite !omap_app. Qed.

Lemma fold_grant_all c p kx u refused p' kx' u' before :
  tracks (fun t => copies t before) kx u ->
  fold_grant Handshake c p kx u = (refused, p', kx', u') ->
  p' = accepted (checked_out [c]) p /\ tracks (fun t => copies t (before ++ [c])) kx' u'.
Proof.
  intros Ht Ef. assert (Hnone : (forall t, copies t [c] = []) ->
    tracks (fun t => copies t (before ++ [c])) kx u).
  { intros Hc t. rewrite copies_app, Hc, app_nil_r. apply Ht. }
  unfold accepted. destruct c as [[[s|k] e]|e]; simpl in *.
  - destruct (identity p); simplify_eq/=; auto.
  - destruct (key_entry _ _ _ _) as [kx1 u1] eqn:Ek. simplify_eq/=. split; [done|].
    apply (key_entry_tracks _ _ _ _ _ _ _ Ht) in Ek. intros t. specialize (Ek t).
    rewrite copies_app. unfold copies at 2 4, checked_out. simpl in *. by case_decide.
  - simplify_eq/=. auto.
Qed.

(** A list the meter did not cut short is folded whole. *)
Lemma resolve_loop_all handle checks p kx u n ht r ht' before :
  resolve_loop Handshake handle checks p kx u n ht = (r, ht') -> wait r = None ->
  tracks (fun t => copies t before) kx u ->
  principal r = accepted (checked_out checks.*1) p /\
  forall t, dies (copies t (before ++ checks.*1)) (key_expiry r !! t).
Proof.
  revert p kx u n ht before.
  induction checks as [|[c now] checks IH]; intros p kx u n ht before E Hw Ht; simpl in E.
  { simplify_eq/=. split; [done|]. intros t. rewrite app_nil_r. apply Ht. }
  destruct (fold_grant _ _ _ _ _) as [[[refused p'] kx'] u'] eqn:Ef.
  destruct (fold_grant_all _ _ _ _ _ _ _ _ _ Ht Ef) as [-> Ht'].
  assert (Hgo : forall n ht, resolve_loop Handshake handle checks (accepted (checked_out [c]) p) kx' u' n ht
    = (r, ht') -> principal r = accepted (checked_out (c :: checks.*1)) p /\
    forall t, dies (copies t (before ++ c :: checks.*1)) (key_expiry r !! t)).
  { intros n' ht1 E1. destruct (IH _ _ _ _ _ _ E1 Hw Ht') as [-> Hd]. split.
    - unfold accepted, checked_out. simpl. by destruct c.
    - intros t. by rewrite cons_middle, app_assoc. }
  destruct refused; [|by eapply Hgo].
  destruct (credential_refusal _ _ _ _) as [[w|] ht1]; [by simplify_eq/=|by eapply Hgo].
Qed.

(** The caller's parts, when at most one login is among the grants. *)
Lemma accepted_parts gs p :
  (length (omap login_of (subject <$> gs)) + (if identity p then 1 else 0) <= 1)%nat ->
  accepted gs p = {|
    session_id := default (session_id p) (vs_session_id <$> head (omap login_of (subject <$> gs)));
    identity := match head (omap login_of (subject <$> gs)) with
                | Some s => Some (vs_context s) | None => identity p end;
    capabilities := capabilities p ++ omap key_of (subject <$> gs);
    bot_list := match head (omap login_of (subject <$> gs)) with
                | Some s => vs_bot_list s | None => bot_list p end |}.
Proof.
  revert p. unfold accepted. induction gs as [|[[s|k] e] gs IH]; intros p H; csimpl in *.
  - rewrite app_nil_r. by destruct p.
  - destruct (identity p) eqn:Ei; [lia|]. rewrite IH by (csimpl; lia).
    destruct (omap login_of (subject <$> gs)) eqn:El; [done|]. simpl in H. lia.
  - rewrite IH by (csimpl; lia). csimpl. by rewrite <- app_assoc.
Qed.

Lemma resolved_parts handle checks ht :
  let r := (resolve_grants handle checks Handshake ht).1 in
  wait r = None -> (length (logins checks.*1) <= 1)%nat ->
  session_id (principal r) = default handle (vs_session_id <$> head (logins checks.*1)) /\
  identity (principal r) = vs_context <$> head (logins checks.*1) /\
  capabilities (principal r) = keys checks.*1 /\
  bot_list (principal r) = (head (logins checks.*1) ≫= vs_bot_list) /\
  forall t, dies (copies t checks.*1) (key_expiry r !! t).
Proof.
  intros r Hw Hl. subst r. unfold resolve_grants in *.
  destruct (resolve_loop _ _ _ _ _ _ _ _) as [r ht'] eqn:E. simpl in *.
  destruct (resolve_loop_all _ _ _ _ _ _ _ _ _ [] E Hw) as [Hp Hd].
  { intros t. split; [by left|set_solver]. }
  rewrite accepted_parts in Hp by (simpl; unfold logins in Hl; lia). rewrite Hp. simpl.
  unfold logins, keys. by destruct (head _).
Qed.

Lemma short_permutation {A} (l k : list A) : l ≡ₚ k -> (length l <= 1)%nat -> l = k.
Proof.
  intros P. destruct l as [|x [|y l]]; simpl; intros H; [|clear H|lia].
  - by apply Permutation_nil_l in P.
  - by apply Permutation_singleton_l in P.
Qed.

Lemma parts_permuted (l k : list Check) :
  l ≡ₚ k -> logins l ≡ₚ logins k /\ keys l ≡ₚ keys k /\ forall t, copies t l ≡ₚ copies t k.
Proof.
  intros P. assert (checked_out l ≡ₚ checked_out k) as Pc by (unfold checked_out; by rewrite P).
  unfold logins, keys, copies. split_and!; [by rewrite Pc..|]. intros t. by rewrite Pc.
Qed.

Lemma lives_until_permuted l k e : l ≡ₚ k -> lives_until l e -> lives_until k e.
Proof. unfold lives_until. intros P. by setoid_rewrite P. Qed.

Context `{ID : Identity Id} `{ST : SessionText SessionId}.

(** A handshake's caller does not depend on the order its grants came in, as
    long as at most one of them is a login and the refusals stay under the limit:
    the same run, the same identity, the same rendering in every Postgres
    setting, the same meter, and the same expiry of every key, which is that of
    the key's longest-lived copy. *)
Theorem grants_any_order handle checks1 checks2 ht1 ht2 :
  let r1 := (resolve_grants handle checks1 Handshake ht1).1 in
  let r2 := (resolve_grants handle checks2 Handshake ht2).1 in
  checks1.*1 ≡ₚ checks2.*1 -> (length (logins checks1.*1) <= 1)%nat ->
  wait r1 = None -> wait r2 = None ->
  session_id (principal r1) = session_id (principal r2) /\
  identity (principal r1) = identity (principal r2) /\
  rendered_caller (principal r1) = rendered_caller (principal r2) /\
  key_expiry r1 = key_expiry r2 /\
  forall t e, key_expiry r1 !! t = Some e <-> lives_until (copies t checks1.*1) e.
Proof.
  intros r1 r2 P Hl Hw1 Hw2. destruct (parts_permuted _ _ P) as (Pl & Pk & Pc).
  apply short_permutation in Pl as El; [|done].
  destruct (resolved_parts handle checks1 ht1 Hw1 Hl) as (S1 & I1 & C1 & B1 & D1).
  rewrite El in *.
  destruct (resolved_parts handle checks2 ht2 Hw2 Hl) as (S2 & I2 & C2 & B2 & D2).
  fold r1 in S1, I1, C1, B1, D1. fold r2 in S2, I2, C2, B2, D2.
  split_and!; [congruence|congruence| | |].
  - unfold rendered_caller, bot_list_for. rewrite I1, I2, B1, B2, C1, C2. f_equal.
    apply subjects_eq. intros t. by rewrite Pk.
  - apply map_eq. intros t. apply option_eq. intros e.
    rewrite (dies_iff _ _ e (D1 t)), (dies_iff _ _ e (D2 t)).
    split; apply lives_until_permuted; [|symmetry]; apply Pc.
  - intros t e. apply dies_iff, D1.
Qed.

(** A key with no separator in its rendering. *)
Definition packable (p : Principal) : Prop :=
  Forall (fun k => has_char SEPARATOR (key_text k) = false) (capabilities p).

Lemma string_app_inj (a x y : string) : a +:+ x = a +:+ y <-> x = y.
Proof. split; [|by intros ->]. induction a; simpl; intros E; [done|]. simplify_eq. auto. Qed.

Lemma subjects_nil (k : list Key) : subjects k = [] <-> k = [].
Proof.
  change (@nil string) with (subjects (@nil Key)) at 1. rewrite subjects_eq.
  destruct k as [|a k]; [done|]. split; [|done]. intros H.
  assert (key_text a ∈ key_text <$> (@nil Key)) as Hx by (apply H; set_solver). set_solver.
Qed.

Lemma subjects_packable p :
  packable p -> Forall (fun s => has_char SEPARATOR s = false) (subjects (capabilities p)).
Proof.
  intros H. apply Forall_forall. intros t Ht. unfold subjects in Ht.
  rewrite elem_of_dedup, merge_sort_Permutation in Ht.
  apply list_elem_of_fmap in Ht as (k & -> & Hk). unfold packable in H.
  rewrite Forall_forall in H. by apply H.
Qed.

Lemma packed_inj c d :
  Forall (fun s => has_char SEPARATOR s = false) (cc_subjects c) ->
  Forall (fun s => has_char SEPARATOR s = false) (cc_subjects d) ->
  packed_subjects SEPARATOR c = packed_subjects SEPARATOR d <-> cc_subjects c = cc_subjects d.
Proof.
  intros Hc Hd. split; [|by unfold packed_subjects; intros ->]. unfold packed_subjects.
  destruct (cc_subjects c) eqn:Ec, (cc_subjects d) eqn:Ed; try done.
  intros E%(inj Some). by apply (join_inj SEPARATOR).
Qed.

(** The name a caller owns rows and meters under is the caller's own: two
    callers share it exactly when they render the same identity, or have none
    and hold the same keys; only a caller with neither has no name. *)
Theorem storage_key_exact (p q : Principal) :
  packable p -> packable q ->
  let name x := storage_key SEPARATOR (rendered_caller x) in
  (name p = None <-> identity p = None /\ capabilities p = []) /\
  (name p <> None -> name p = name q <->
   match identity p, identity q with
   | Some a, Some b => to_string (user_id a) = to_string (user_id b)
   | None, None => forall t, t ∈ key_text <$> capabilities p <-> t ∈ key_text <$> capabilities q
   | _, _ => False
   end).
Proof.
  intros Hp Hq name. subst name. unfold storage_key, rendered_caller. simpl.
  apply subjects_packable in Hp, Hq. split.
  - destruct (identity p); simpl; [naive_solver|]. unfold packed_subjects. simpl.
    rewrite <- (subjects_nil (capabilities p)). destruct (subjects _); naive_solver.
  - intros _. destruct (identity p) as [a|], (identity q) as [b|]; simpl.
    + split; [|by intros ->]. intros [= E]. done.
    + destruct (packed_subjects _ _); naive_solver.
    + destruct (packed_subjects _ _); naive_solver.
    + rewrite <- subjects_eq. pose proof (packed_inj
        {| cc_identity := None; cc_subjects := subjects (capabilities p); cc_bot_list := bot_list_for p |}
        {| cc_identity := None; cc_subjects := subjects (capabilities q); cc_bot_list := bot_list_for q |}
        Hp Hq) as Hi. cbn [cc_subjects] in Hi. rewrite <- Hi.
      split; [|by intros ->]. destruct (packed_subjects _ _), (packed_subjects _ _); simpl;
        intros E; by simplify_eq/=.
Qed.
End Resolution.
