(* ===== verification/Tokens.v ===== *)
(** What connetto signs: connetto-server/src/authn/token.rs.

    Three things carry one signature: a login grant, a share key's grant and the
    resume blob of a run with no identity. The signature and the checks on it are
    the [jsonwebtoken] crate's, class [Jwt]; the claims are objects of JSON
    values, as [serde] writes and reads the claim structs. *)

From Stdlib Require Import ZArith Lia Ascii.
From stdpp Require Import base list numbers option strings gmap.
From S2P Require Import Prelude Throttle Caller.

Open Scope Z_scope.

(** ** Lifetimes *)

Definition HOUR : Z := 3600 * SECOND.
Definition DEFAULT_ACCESS_TTL : Z := 15 * MINUTE.
Definition DEFAULT_REFRESH_IDLE_WINDOW : Z := 336 * HOUR.
Definition DEFAULT_REFRESH_ABSOLUTE_CEILING : Z := 2160 * HOUR.
Definition DEFAULT_RESUME_TTL : Z := 336 * HOUR.
Definition DEFAULT_CAPABILITY_TTL : Z := 168 * HOUR.
Definition DEFAULT_CAPABILITY_MAX_TTL : Z := 720 * HOUR.
(** connetto-core/src/clock.rs. *)
Definition SERVER_SKEW : Z := 60 * SECOND.

Record AuthConfig := {
  ac_issuer : string; ac_audience : string; ac_access_ttl : Z; ac_resume_ttl : Z;
  capability_ttl : Z; capability_max_ttl : Z;
  refresh_idle_window : Z; refresh_absolute_ceiling : Z;
}.

Definition default_auth_config : AuthConfig := {|
  ac_issuer := "connetto"; ac_audience := "connetto";
  ac_access_ttl := DEFAULT_ACCESS_TTL; ac_resume_ttl := DEFAULT_RESUME_TTL;
  capability_ttl := DEFAULT_CAPABILITY_TTL;
  capability_max_ttl := DEFAULT_CAPABILITY_MAX_TTL;
  refresh_idle_window := DEFAULT_REFRESH_IDLE_WINDOW;
  refresh_absolute_ceiling := DEFAULT_REFRESH_ABSOLUTE_CEILING |}.

Record RefreshLifetimes := { idle_window : Z; absolute_ceiling : Z }.

Definition refresh_lifetimes (c : AuthConfig) : RefreshLifetimes :=
  {| idle_window := refresh_idle_window c; absolute_ceiling := refresh_absolute_ceiling c |}.

(** [Duration::as_secs]. *)
Definition as_secs (d : Z) : Z := d / SECOND.

Inductive TokenError := TokenKey (e : string) | TokenMint (e : string) | TokenVerify (e : string) | TokenClock.

(** The seconds since the epoch of an instant in nanoseconds. *)
Definition unix_secs (time : Z) : Result Z TokenError :=
  if decide (time < 0) then Err TokenClock else Ok (as_secs time).

(** ** JSON and the signing library *)

Inductive Json :=
| JNull
| JBool (b : bool)
| JNum (n : Z)
| JStr (s : string)
| JArr (l : list Json)
| JObj (fields : list (string * Json)).

(** What a type's [Serialize] and [Deserialize] write and read. *)
Class Serde (A : Type) := {
  to_json : A -> Json;
  of_json : Json -> option A;
  of_to_json a : of_json (to_json a) = Some a;
}.

Notation Claims := (gmap string Json).

(** The checks a verification pins; the algorithm is EdDSA throughout. *)
Record Validation := {
  leeway : Z; set_issuer : string; set_audience : string; required : list string;
}.

Class Jwt := {
  EncodingKey : Type;
  DecodingKey : Type;
  (** [encode(&Header::new(Algorithm::EdDSA), claims, key)]. *)
  encode : Claims -> EncodingKey -> Result string string;
  (** [decode(token, key, validation)] at a Unix second. *)
  decode : string -> DecodingKey -> Validation -> Z -> Result Claims string;
}.

(** What the crate documents of its checks: the issuer and the audience are the
    pinned ones and the expiry is no more than the leeway ago. The claims these
    checks read are a subject that is a string and an expiry that is a number. *)
Definition registered (c : Claims) : Prop :=
  (exists s, c !! "sub" = Some (JStr s)) /\ exists e, c !! "exp" = Some (JNum e).

Definition admits (v : Validation) (now : Z) (c : Claims) : Prop :=
  c !! "iss" = Some (JStr (set_issuer v)) /\ c !! "aud" = Some (JStr (set_audience v)) /\
  exists e, c !! "exp" = Some (JNum e) /\ now - leeway v <= e.

(** A key pair: what the one signs, the other reads back when the checks pass,
    and only then. *)
Definition key_pair `{Jwt} (ek : EncodingKey) (dk : DecodingKey) : Prop :=
  forall c t v now, encode c ek = Ok t -> registered c ->
    (admits v now c -> decode t dk v now = Ok c) /\
    (~ admits v now c -> exists e, decode t dk v now = Err e).

(** ** Claims *)

Definition as_u64 (j : Json) : option Z :=
  match j with JNum n => if decide (0 <= n <= u64_max) then Some n else None | _ => None end.

Definition as_str (j : Json) : option string :=
  match j with JStr s => Some s | _ => None end.

Section Tokens.
Context {SessionId Id Key : Type} `{ST : SessionText SessionId}.
Context `{SI : Serde Id} `{SK : Serde Key}.

Record AccessClaims := {
  ac_iss : string; ac_aud : string; ac_sub : Id; ac_iat : Z; ac_exp : Z; ac_sid : SessionId;
}.

Record CapabilityClaims := {
  cc_iss : string; cc_aud : string; cc_sub : Key; cc_iat : Z; cc_exp : Z;
}.

Inductive GrantClaims := User (c : AccessClaims) | ShareKey (c : CapabilityClaims).

Record ResumeClaims := {
  rc_iss : string; rc_aud : string; rc_sub : SessionId; rc_iat : Z; rc_exp : Z;
}.

Definition grant_json (g : GrantClaims) : Claims :=
  match g with
  | User c =>
      list_to_map [("knd", JStr "user"); ("iss", JStr (ac_iss c)); ("aud", JStr (ac_aud c));
        ("sub", to_json (ac_sub c)); ("iat", JNum (ac_iat c)); ("exp", JNum (ac_exp c));
        ("sid", JStr (session_text (ac_sid c)))]
  | ShareKey c =>
      list_to_map [("knd", JStr "key"); ("iss", JStr (cc_iss c)); ("aud", JStr (cc_aud c));
        ("sub", to_json (cc_sub c)); ("iat", JNum (cc_iat c)); ("exp", JNum (cc_exp c))]
  end.

Definition read_access (c : Claims) : option AccessClaims :=
  iss ← c !! "iss" ≫= as_str; aud ← c !! "aud" ≫= as_str; sub ← c !! "sub" ≫= of_json;
  iat ← c !! "iat" ≫= as_u64; exp ← c !! "exp" ≫= as_u64;
  sid ← (c !! "sid" ≫= as_str) ≫= session_parse;
  Some {| ac_iss := iss; ac_aud := aud; ac_sub := sub; ac_iat := iat; ac_exp := exp; ac_sid := sid |}.

Definition read_capability (c : Claims) : option CapabilityClaims :=
  iss ← c !! "iss" ≫= as_str; aud ← c !! "aud" ≫= as_str; sub ← c !! "sub" ≫= of_json;
  iat ← c !! "iat" ≫= as_u64; exp ← c !! "exp" ≫= as_u64;
  Some {| cc_iss := iss; cc_aud := aud; cc_sub := sub; cc_iat := iat; cc_exp := exp |}.

(** The tag inside the signed claims says how to read the rest. *)
Definition read_grant (c : Claims) : option GrantClaims :=
  tag ← c !! "knd" ≫= as_str;
  if decide (tag = "user") then User <$> read_access c
  else if decide (tag = "key") then ShareKey <$> read_capability c
  else None.

Definition resume_json (c : ResumeClaims) : Claims :=
  list_to_map [("iss", JStr (rc_iss c)); ("aud", JStr (rc_aud c));
    ("sub", JStr (session_text (rc_sub c))); ("iat", JNum (rc_iat c)); ("exp", JNum (rc_exp c));
    ("knd", JStr "run")].

Definition read_resume (c : Claims) : option ResumeClaims :=
  iss ← c !! "iss" ≫= as_str; aud ← c !! "aud" ≫= as_str;
  sub ← (c !! "sub" ≫= as_str) ≫= session_parse;
  iat ← c !! "iat" ≫= as_u64; exp ← c !! "exp" ≫= as_u64;
  tag ← c !! "knd" ≫= as_str;
  if decide (tag = "run") then
    Some {| rc_iss := iss; rc_aud := aud; rc_sub := sub; rc_iat := iat; rc_exp := exp |}
  else None.

(** ** The authority *)

Context `{JW : Jwt}.

Record TokenAuthority := {
  encoding : EncodingKey; decoding : DecodingKey; issuer : string; audience : string;
  access_ttl : Z; resume_ttl : Z;
}.

Definition from_keys (ek : EncodingKey) (dk : DecodingKey) (c : AuthConfig) : TokenAuthority := {|
  encoding := ek; decoding := dk; issuer := ac_issuer c; audience := ac_audience c;
  access_ttl := ac_access_ttl c; resume_ttl := ac_resume_ttl c |}.

Definition validation (a : TokenAuthority) : Validation := {|
  leeway := as_secs SERVER_SKEW; set_issuer := issuer a; set_audience := audience a;
  required := ["exp"; "iss"; "aud"; "sub"] |}.

Definition mint_access (a : TokenAuthority) (ctx : AuthContext Id) (s : SessionId) (issued_at : Z) :
    Result string TokenError :=
  iat <-? unix_secs issued_at;;
  let exp := sat_add u64_max iat (as_secs (access_ttl a)) in
  map_err TokenMint (encode (grant_json (User {|
    ac_iss := issuer a; ac_aud := audience a; ac_sub := user_id ctx; ac_iat := iat;
    ac_exp := exp; ac_sid := s |})) (encoding a)).

Definition mint_capability (a : TokenAuthority) (key : Key) (issued_at ttl : Z) :
    Result string TokenError :=
  iat <-? unix_secs issued_at;;
  map_err TokenMint (encode (grant_json (ShareKey {|
    cc_iss := issuer a; cc_aud := audience a; cc_sub := key; cc_iat := iat;
    cc_exp := sat_add u64_max iat (as_secs ttl) |})) (encoding a)).

Definition check_grant (a : TokenAuthority) (grant : string) (now : Z) :
    Result (CheckedGrant SessionId Id Key) TokenError :=
  claims <-? map_err TokenVerify (decode grant (decoding a) (validation a) now);;
  g <-? ok_or (read_grant claims) (TokenVerify "claims");;
  Ok (match g with
      | User c => {| subject := Identified_ {| vs_context := {| user_id := ac_sub c |};
                       vs_session_id := ac_sid c; vs_bot_list := None |};
                     expires_at := Some (ac_exp c) |}
      | ShareKey c => {| subject := Capability (cc_sub c); expires_at := Some (cc_exp c) |}
      end).

Definition mint_resume (a : TokenAuthority) (s : SessionId) (issued_at : Z) :
    Result string TokenError :=
  iat <-? unix_secs issued_at;;
  map_err TokenMint (encode (resume_json {|
    rc_iss := issuer a; rc_aud := audience a; rc_sub := s; rc_iat := iat;
    rc_exp := sat_add u64_max iat (as_secs (resume_ttl a)) |}) (encoding a)).

Definition verify_resume (a : TokenAuthority) (blob : string) (now : Z) :
    Result SessionId TokenError :=
  claims <-? map_err TokenVerify (decode blob (decoding a) (validation a) now);;
  c <-? ok_or (read_resume claims) (TokenVerify "claims");;
  Ok (rc_sub c).
End Tokens.

Arguments GrantClaims : clear implicits.
Arguments TokenAuthority {_}.

(** ** What a signed token says *)

Section Signed.
Context {SessionId Id Key : Type} `{ST : SessionText SessionId}.
Context `{SI : Serde Id} `{SK : Serde Key} `{JW : Jwt}.

Notation check_grant := (check_grant (SessionId := SessionId) (Id := Id) (Key := Key)).
Notation verify_resume := (verify_resume (SessionId := SessionId)).

Definition grant_exp (g : GrantClaims SessionId Id Key) : Z :=
  match g with User c => ac_exp c | ShareKey c => cc_exp c end.

Definition grant_wf (a : TokenAuthority) (g : GrantClaims SessionId Id Key) : Prop :=
  match g with
  | User c => ac_iss c = issuer a /\ ac_aud c = audience a /\ in_u64 (ac_iat c) /\ in_u64 (ac_exp c) /\
      exists s, to_json (ac_sub c) = JStr s
  | ShareKey c => cc_iss c = issuer a /\ cc_aud c = audience a /\ in_u64 (cc_iat c) /\ in_u64 (cc_exp c) /\
      exists s, to_json (cc_sub c) = JStr s
  end.

Definition as_checked (g : GrantClaims SessionId Id Key) : CheckedGrant SessionId Id Key :=
  match g with
  | User c => {| subject := Identified_ {| vs_context := {| user_id := ac_sub c |};
                   vs_session_id := ac_sid c; vs_bot_list := None |};
                 expires_at := Some (ac_exp c) |}
  | ShareKey c => {| subject := Capability (cc_sub c); expires_at := Some (cc_exp c) |}
  end.

#[local] Arguments as_u64 : simpl never.

Lemma as_u64_num n : in_u64 n -> as_u64 (JNum n) = Some n.
Proof. unfold in_u64, as_u64. intros H. by rewrite decide_True. Qed.

Lemma read_grant_json a g : grant_wf a g -> read_grant (grant_json g) = Some g.
Proof.
  destruct g as [[]|[]]; intros (_ & _ & Hi & He & _); unfold read_grant, grant_json;
    simplify_map_eq; unfold read_access, read_capability; simplify_map_eq;
    by rewrite of_to_json, !as_u64_num, ?session_parse_text.
Qed.

Lemma grant_registered a g : grant_wf a g -> registered (grant_json g).
Proof.
  destruct g as [[]|[]]; intros (_ & _ & _ & _ & s & Hs); unfold registered; simpl in *;
    rewrite Hs; split; eexists; by simplify_map_eq.
Qed.

Lemma grant_admitted a g now :
  grant_wf a g -> admits (validation a) now (grant_json g) <-> now - 60 <= grant_exp g.
Proof.
  destruct g as [[]|[]]; simpl; intros (-> & -> & _); unfold admits; simpl; simplify_map_eq;
    (split; [intros (_ & _ & e & [= <-] & H); exact H|eauto 6]).
Qed.

(** A signed grant reads back as its claims until a minute past its expiry, and
    is refused from then on. *)
Lemma signed_grant_reads a g t now :
  key_pair (encoding a) (decoding a) -> grant_wf a g -> encode (grant_json g) (encoding a) = Ok t ->
  (now <= grant_exp g + 60 -> check_grant a t now = Ok (as_checked g)) /\
  (grant_exp g + 60 < now -> exists e, check_grant a t now = Err (TokenVerify e)).
Proof.
  intros Hk Hw He. destruct (Hk _ _ (validation a) now He (grant_registered a g Hw)) as [H1 H2].
  rewrite grant_admitted in H1, H2 by done. unfold Tokens.check_grant. split; intros Hn.
  - rewrite H1 by lia. simpl. rewrite (read_grant_json a) by done. by destruct g.
  - destruct H2 as [e ->]; [lia|]. by exists e.
Qed.

Lemma unix_secs_range time iat : unix_secs time = Ok iat -> 0 <= iat /\ iat = time / SECOND.
Proof.
  unfold unix_secs, as_secs. case_decide; intros [= <-]. split; [|done].
  apply Z.div_pos; [lia|done].
Qed.

(** The blob reads as the run it was signed for, and never as a grant. *)
Lemma resume_reads c : in_u64 (rc_iat c) -> in_u64 (rc_exp c) ->
  read_resume (SessionId := SessionId) (resume_json c) = Some c.
Proof.
  intros Hi He. destruct c. unfold read_resume, resume_json. simplify_map_eq.
  by rewrite session_parse_text, !as_u64_num.
Qed.

Lemma resume_no_grant (c : ResumeClaims (SessionId := SessionId)) :
  read_grant (SessionId := SessionId) (Id := Id) (Key := Key) (resume_json c) = None.
Proof. unfold read_grant, resume_json. by simplify_map_eq. Qed.

Lemma read_resume_tag c r :
  read_resume (SessionId := SessionId) c = Some r -> c !! "knd" = Some (JStr "run").
Proof.
  unfold read_resume. intros H. repeat (apply bind_Some in H as (? & ? & H)).
  case_decide; subst; [|done]. destruct (c !! "knd") as [[]|]; by simplify_eq/=.
Qed.

Lemma grant_no_resume (g : GrantClaims SessionId Id Key) :
  read_resume (SessionId := SessionId) (grant_json g) = None.
Proof.
  destruct (read_resume _) eqn:E; [|done]. apply read_resume_tag in E.
  destruct g; unfold grant_json in E; by simplify_map_eq.
Qed.

Lemma exp_in_u64 iat ttl : 0 <= iat -> 0 <= ttl -> in_u64 (sat_add u64_max iat (as_secs ttl)).
Proof.
  intros Hi Ht. unfold in_u64, sat_add, as_secs.
  assert (0 <= ttl / SECOND) by (apply Z.div_pos; [lia|done]). unfold u64_max. lia.
Qed.

Lemma unwritten_resume c : registered (resume_json (SessionId := SessionId) c).
Proof. unfold registered, resume_json. split; eexists; by simplify_map_eq. Qed.

Lemma resume_admitted a c now :
  rc_iss c = issuer a -> rc_aud c = audience a ->
  admits (validation a) now (resume_json (SessionId := SessionId) c) <-> now <= rc_exp c + 60.
Proof.
  destruct c. simpl. intros -> ->. unfold admits, resume_json. simpl. simplify_map_eq.
  change (as_secs SERVER_SKEW) with 60. split.
  - intros (_ & _ & e & [= <-] & H). lia.
  - intros H. split_and!; [done..|]. eexists. split; [done|]. lia.
Qed.

Section Authority.
Context (a : TokenAuthority).
Context (Hpair : key_pair (encoding a) (decoding a)).
Context (Httl : 0 <= access_ttl a) (Hres : 0 <= resume_ttl a).

(** A login grant names the person and the run it was minted for from its minting
    until a minute past its lifetime, whoever presents it, and is refused after
    that; it is never read as a resume blob. *)
Theorem login_grant_window ctx s issued_at t :
  (exists u, to_json (user_id ctx) = JStr u) -> issued_at / SECOND <= u64_max ->
  mint_access (SessionId := SessionId) (Key := Key) a ctx s issued_at = Ok t ->
  exists exp, exp = sat_add u64_max (issued_at / SECOND) (access_ttl a / SECOND) /\
  (forall now, now <= exp + 60 -> check_grant a t now =
    Ok {| subject := Identified_ {| vs_context := ctx; vs_session_id := s; vs_bot_list := None |};
          expires_at := Some exp |}) /\
  (forall now, exp + 60 < now -> exists e, check_grant a t now = Err (TokenVerify e)) /\
  (forall now, exists e, verify_resume a t now = Err (TokenVerify e)).
Proof.
  intros Hu Hmax [iat [Hi Hm]]%rbind_Ok. apply unix_secs_range in Hi as [Hi0 ->].
  rewrite map_err_Ok in Hm. set (g := User _) in Hm. exists (grant_exp g).
  assert (Hw : grant_wf a g).
  { subst g. simpl. split_and!; [done|done|unfold in_u64; lia|by apply exp_in_u64|done]. }
  split_and!; [done|..]; intros now.
  - intros Hn. destruct (signed_grant_reads a g t now) as [H _]; [done..|].
    rewrite H by done. by destruct ctx.
  - intros Hn. destruct (signed_grant_reads a g t now) as [_ H]; [done..|auto].
  - unfold Tokens.verify_resume.
    destruct (decode t (decoding a) (validation a) now) as [c|e] eqn:Ed; [|by exists e].
    destruct (Hpair _ _ (validation a) now Hm (grant_registered a g Hw)) as [H1 H2].
    destruct (decide (now - 60 <= grant_exp g)) as [Hn|Hn].
    + rewrite H1 in Ed by by apply (grant_admitted a).
      assert (c = grant_json g) as -> by congruence. 
      cbn [map_err rbind]. rewrite grant_no_resume. simpl. eauto.
    + destruct H2 as [e He]; [by rewrite (grant_admitted a)|]. congruence.
Qed.

(** A share key's grant names its key for its lifetime, with the same minute's
    grace. *)
Lemma share_grant_window key issued_at ttl t :
  (exists u, to_json key = JStr u) -> issued_at / SECOND <= u64_max -> 0 <= ttl ->
  mint_capability (SessionId := SessionId) (Id := Id) a key issued_at ttl = Ok t ->
  exists exp, exp = sat_add u64_max (issued_at / SECOND) (ttl / SECOND) /\
  (forall now, now <= exp + 60 ->
    check_grant a t now = Ok {| subject := Capability key; expires_at := Some exp |}) /\
  (forall now, exp + 60 < now -> exists e, check_grant a t now = Err (TokenVerify e)).
Proof.
  intros Hu Hmax Ht [iat [Hi Hm]]%rbind_Ok. apply unix_secs_range in Hi as [Hi0 ->].
  rewrite map_err_Ok in Hm. set (g := ShareKey _) in Hm. exists (grant_exp g).
  assert (Hw : grant_wf a g).
  { subst g. simpl. split_and!; [done|done|unfold in_u64; lia|by apply exp_in_u64|done]. }
  split_and!; [done|..]; intros now Hn;
    (destruct (signed_grant_reads a g t now) as [H1 H2]; [done..|]); auto.
Qed.

(** A resume blob gives back the run it was minted for until a minute past its
    lifetime, is refused after that, and is never taken for a grant. *)
Theorem resume_blob_window s issued_at t :
  issued_at / SECOND <= u64_max -> mint_resume a s issued_at = Ok t ->
  exists exp, exp = sat_add u64_max (issued_at / SECOND) (resume_ttl a / SECOND) /\
  (forall now, now <= exp + 60 -> verify_resume a t now = Ok s) /\
  (forall now, exp + 60 < now -> exists e, verify_resume a t now = Err (TokenVerify e)) /\
  (forall now, exists e, check_grant a t now = Err (TokenVerify e)).
Proof.
  intros Hmax [iat [Hi Hm]]%rbind_Ok. apply unix_secs_range in Hi as [Hi0 ->].
  rewrite map_err_Ok in Hm. set (c := Build_ResumeClaims _ _ _ _ _) in Hm. exists (rc_exp c).
  assert (Hadm : forall now, admits (validation a) now (resume_json c) <-> now <= rc_exp c + 60).
  { intros now. by apply resume_admitted. }
  assert (Hdec : forall now, (now <= rc_exp c + 60 -> decode t (decoding a) (validation a) now = Ok (resume_json c)) /\
    (rc_exp c + 60 < now -> exists e, decode t (decoding a) (validation a) now = Err e)).
  { intros now. destruct (Hpair _ _ (validation a) now Hm (unwritten_resume c)) as [H1 H2].
    rewrite Hadm in H1, H2. split; intros Hn; [auto|apply H2; lia]. }
  split_and!; [done|..]; intros now; unfold Tokens.verify_resume, Tokens.check_grant;
    destruct (Hdec now) as [H1 H2].
  - intros Hn. rewrite H1 by done. cbn [map_err rbind].
    rewrite resume_reads; [done|unfold in_u64; simpl; lia|by apply exp_in_u64].
  - intros [e ->]%H2. simpl. eauto.
  - destruct (decide (now <= rc_exp c + 60)) as [Hn|Hn].
    + rewrite H1 by done. cbn [map_err rbind]. rewrite resume_no_grant. simpl. eauto.
    + destruct H2 as [e ->]; [lia|]. simpl. eauto.
Qed.
End Authority.
End Signed.
