(* ===== verification/AuthStore.v ===== *)
(** The login store: connetto-server/src/authn/store.rs and schema.rs.

    A login opens a session whose refresh token rotates on every use; a
    rotated-out token presented again ends the session. [InMemoryAuthStore] keeps
    the sessions in a map, [DbAuthStore] in Postgres through one statement per
    function of [connetto_auth_tables!]. Both are instances of the class
    [AuthStore], the source's trait, whose methods take what the call draws from
    the outside: the clock, the fresh session id and secret, and what became of
    each database statement. *)

From Stdlib Require Import ZArith Lia Ascii.
From stdpp Require Import base list numbers option strings gmap fin_maps.
From S2P Require Import Prelude Throttle Chain Caller Tokens.

Open Scope Z_scope.

(** ** Identities, answers and errors *)

Record VerifiedClaims := {
  vc_issuer : string; vc_subject : string; vc_email : option string; vc_name : option string;
  vc_amr : list string; vc_acr : option string;
}.

Record ResolvedIdentity := {
  ri_issuer : string; ri_subject : string; ri_email : option string; ri_name : option string;
  ri_amr : list string; ri_acr : option string;
}.

Definition verified_claims (i : ResolvedIdentity) : VerifiedClaims := {|
  vc_issuer := ri_issuer i; vc_subject := ri_subject i; vc_email := ri_email i;
  vc_name := ri_name i; vc_amr := ri_amr i; vc_acr := ri_acr i |}.

Inductive ResolveError := NoUser | ResolveBackend (e : string).

(** Provider tokens as a login brings them and as a store reads them back. *)
Record RetainedProviderToken := {
  rp_issuer : string; rp_access_token : string; rp_refresh_token : option string;
  rp_expires_in : option Z;
}.

Record StoredProviderToken := {
  sp_issuer : string; sp_access_token : string; sp_refresh_token : option string;
  still_valid : bool;
}.

Definition PROVIDER_TOKEN_MARGIN : Z := 30 * SECOND.

(** What became of a statement that commits on its own, or of a commit: it took
    effect and answered, it did not, or it took effect and its answer was lost. *)
Inductive Fate := Done | Failed (e : string) | Unheard (e : string).

(** What becomes of each step of one call on the database: an error, or none. *)
Record Fates := {
  f_pool : option string; f_begin : option string; f_read : option string;
  f_update : option string; f_rollback : option string; f_commit : Fate; f_stmt : Fate;
}.

Definition all_done : Fates := {|
  f_pool := None; f_begin := None; f_read := None; f_update := None; f_rollback := None;
  f_commit := Done; f_stmt := Done |}.

(** What [make_interval(secs => ...)] adds for a span: a double of seconds,
    rounded to the resolution of a timestamp. *)
Class Postgres := { interval : Z -> Z }.

Section AuthStore.
Context {SessionId : Type} `{CS : Countable SessionId} `{ST : SessionText SessionId}.
Context {Id : Type} `{SH : Sha256}.

Inductive AuthStoreError :=
| NotFound
| Expired
| Reuse (session_id : SessionId)
| Resolve (e : ResolveError)
| Backend (e : string).

Record IssuedSession := {
  is_session_id : SessionId; is_context : AuthContext Id; is_refresh_token : string;
  is_session_expires_at : Z;
}.

Record RefreshOutcome := {
  ro_session_id : SessionId; ro_context : AuthContext Id; ro_refresh_token : string;
  ro_session_expires_at : Z;
}.

(** What one call draws from the outside. *)
Record Draw := {
  clock : Z; new_session_id : SessionId; new_refresh_secret : string; fates : Fates;
}.

Notation Resolver := (VerifiedClaims -> Result Id ResolveError).

(** ** Refresh tokens *)

Definition hash_secret (secret : string) : bytes := sha256 (bytes_of_string secret).

Definition hashes_match (a b : bytes) : bool := bool_decide (a = b).

Definition format_refresh (s : SessionId) (secret : string) : string :=
  session_text s +:+ "." +:+ secret.

Definition split_refresh (token : string) : option (SessionId * string) :=
  '(id, secret) ← split_once "." token;
  s ← session_parse id;
  Some (s, secret).

(** ** The trait *)

Class AuthStore (S : Type) := {
  create_session : ResolvedIdentity -> Resolver -> Draw -> S -> Result IssuedSession AuthStoreError * S;
  session_is_live : SessionId -> Draw -> S -> Result bool AuthStoreError;
  rotate_refresh : string -> Draw -> S -> Result RefreshOutcome AuthStoreError * S;
  revoke_session : SessionId -> Draw -> S -> Result unit AuthStoreError * S;
  revoke_every_session : Draw -> S -> Result Z AuthStoreError * S;
  session_for_refresh : string -> Draw -> S -> Result (option SessionId) AuthStoreError;
  set_retained_provider_token :
    SessionId -> RetainedProviderToken -> Draw -> S -> Result unit AuthStoreError * S;
  retained_provider_token :
    SessionId -> Draw -> S -> Result (option StoredProviderToken) AuthStoreError;
}.

(** ** [InMemoryAuthStore] *)

Record RetainedRecord := {
  rr_issuer : string; rr_access_token : string; rr_refresh_token : option string;
  rr_expires_at : option Z;
}.

Record SessionRecord := {
  sr_context : AuthContext Id; sr_refresh_hash : bytes; sr_idle_deadline : Z;
  sr_absolute_deadline : Z; sr_revoked : bool; sr_retained : option RetainedRecord;
}.

Record InMemoryAuthStore := {
  lifetimes : RefreshLifetimes; sessions : gmap SessionId SessionRecord;
}.

Definition with_sessions (m : InMemoryAuthStore) (s : gmap SessionId SessionRecord) :
    InMemoryAuthStore := {| lifetimes := lifetimes m; sessions := s |}.

Definition record_revoked (r : SessionRecord) : SessionRecord := {|
  sr_context := sr_context r; sr_refresh_hash := sr_refresh_hash r;
  sr_idle_deadline := sr_idle_deadline r; sr_absolute_deadline := sr_absolute_deadline r;
  sr_revoked := true; sr_retained := sr_retained r |}.

Definition record_rotated (hash : bytes) (idle : Z) (r : SessionRecord) : SessionRecord := {|
  sr_context := sr_context r; sr_refresh_hash := hash; sr_idle_deadline := idle;
  sr_absolute_deadline := sr_absolute_deadline r; sr_revoked := sr_revoked r;
  sr_retained := sr_retained r |}.

Definition record_retained (t : RetainedRecord) (r : SessionRecord) : SessionRecord := {|
  sr_context := sr_context r; sr_refresh_hash := sr_refresh_hash r;
  sr_idle_deadline := sr_idle_deadline r; sr_absolute_deadline := sr_absolute_deadline r;
  sr_revoked := sr_revoked r; sr_retained := Some t |}.

Definition mem_create_session (i : ResolvedIdentity) (resolve : Resolver) (d : Draw)
    (m : InMemoryAuthStore) : Result IssuedSession AuthStoreError * InMemoryAuthStore :=
  let now := clock d in
  match resolve (verified_claims i) with
  | Err e => (Err (Resolve e), m)
  | Ok user =>
      let context := {| user_id := user |} in
      let idle := now + idle_window (lifetimes m) in
      let absolute := now + absolute_ceiling (lifetimes m) in
      let record := {| sr_context := context;
        sr_refresh_hash := hash_secret (new_refresh_secret d); sr_idle_deadline := idle;
        sr_absolute_deadline := absolute; sr_revoked := false; sr_retained := None |} in
      (Ok {| is_session_id := new_session_id d; is_context := context;
             is_refresh_token := format_refresh (new_session_id d) (new_refresh_secret d);
             is_session_expires_at := Z.min idle absolute |},
       with_sessions m (<[new_session_id d := record]> (sessions m)))
  end.

Definition mem_session_is_live (s : SessionId) (d : Draw) (m : InMemoryAuthStore) :
    Result bool AuthStoreError :=
  Ok (match sessions m !! s with
      | Some r => negb (sr_revoked r) && bool_decide (clock d <= sr_absolute_deadline r)
      | None => false
      end).

Definition mem_rotate_refresh (token : string) (d : Draw) (m : InMemoryAuthStore) :
    Result RefreshOutcome AuthStoreError * InMemoryAuthStore :=
  let now := clock d in
  match split_refresh token with
  | None => (Err NotFound, m)
  | Some (s, secret) =>
      match sessions m !! s with
      | None => (Err NotFound, m)
      | Some r =>
          if sr_revoked r then (Err NotFound, m)
          else if bool_decide (sr_absolute_deadline r < now) || bool_decide (sr_idle_deadline r < now)
          then (Err Expired, m)
          else if negb (hashes_match (hash_secret secret) (sr_refresh_hash r))
          then (Err (Reuse s), with_sessions m (<[s := record_revoked r]> (sessions m)))
          else
            let idle := Z.min (now + idle_window (lifetimes m)) (sr_absolute_deadline r) in
            (Ok {| ro_session_id := s; ro_context := sr_context r;
                   ro_refresh_token := format_refresh s (new_refresh_secret d);
                   ro_session_expires_at := idle |},
             with_sessions m
               (<[s := record_rotated (hash_secret (new_refresh_secret d)) idle r]> (sessions m)))
      end
  end.

Definition mem_revoke_session (s : SessionId) (d : Draw) (m : InMemoryAuthStore) :
    Result unit AuthStoreError * InMemoryAuthStore :=
  (Ok tt, with_sessions m (alter record_revoked s (sessions m))).

(** The sessions not yet revoked, as a count. *)
Definition mem_revoke_every_session (d : Draw) (m : InMemoryAuthStore) :
    Result Z AuthStoreError * InMemoryAuthStore :=
  let live := filter (fun p => sr_revoked p.2 = false) (sessions m) in
  (Ok (Z.of_nat (size live)),
   with_sessions m ((fun r => if sr_revoked r then r else record_revoked r) <$> sessions m)).

Definition mem_session_for_refresh (token : string) (d : Draw) (m : InMemoryAuthStore) :
    Result (option SessionId) AuthStoreError :=
  Ok ('(s, secret) ← split_refresh token;
      r ← sessions m !! s;
      if sr_revoked r || negb (hashes_match (hash_secret secret) (sr_refresh_hash r)) then None
      else Some s).

Definition mem_set_retained (s : SessionId) (t : RetainedProviderToken) (d : Draw)
    (m : InMemoryAuthStore) : Result unit AuthStoreError * InMemoryAuthStore :=
  let record := {| rr_issuer := rp_issuer t; rr_access_token := rp_access_token t;
    rr_refresh_token := rp_refresh_token t;
    rr_expires_at := (fun l => clock d + l) <$> rp_expires_in t |} in
  (Ok tt, with_sessions m (alter (record_retained record) s (sessions m))).

Definition mem_retained (s : SessionId) (d : Draw) (m : InMemoryAuthStore) :
    Result (option StoredProviderToken) AuthStoreError :=
  Ok (r ← sessions m !! s;
      t ← sr_retained r;
      Some {| sp_issuer := rr_issuer t; sp_access_token := rr_access_token t;
              sp_refresh_token := rr_refresh_token t;
              still_valid := match rr_expires_at t with
                | None => true
                | Some deadline => bool_decide (clock d + PROVIDER_TOKEN_MARGIN < deadline)
                end |}).

#[export] Instance mem_store : AuthStore InMemoryAuthStore := {|
  create_session := mem_create_session; session_is_live := mem_session_is_live;
  rotate_refresh := mem_rotate_refresh; revoke_session := mem_revoke_session;
  revoke_every_session := mem_revoke_every_session;
  session_for_refresh := mem_session_for_refresh;
  set_retained_provider_token := mem_set_retained; retained_provider_token := mem_retained |}.

(** ** The tables of [connetto_auth_tables!] and their statements

    A statement reads the database's clock, [now]. A provider token's row
    references its session's. *)

Context `{PG : Postgres}.

Record SessionTableRow := {
  row_user_id : Id; row_refresh_hash : bytes; row_idle_deadline : Z;
  row_absolute_deadline : Z; row_revoked : bool;
}.

Record ProviderTokenRow := {
  pt_issuer : string; pt_access_token : string; pt_refresh_token : option string;
  pt_expires_at : option Z;
}.

Record AuthDb := {
  connetto_sessions : gmap SessionId SessionTableRow;
  connetto_provider_tokens : gmap SessionId ProviderTokenRow;
}.

Definition with_rows (db : AuthDb) (t : gmap SessionId SessionTableRow) : AuthDb :=
  {| connetto_sessions := t; connetto_provider_tokens := connetto_provider_tokens db |}.

Definition new_session (now : Z) (s : SessionId) (user : Id) (hash : bytes) (idle ceiling : Z)
    (db : AuthDb) : Result (Z * Z * AuthDb) string :=
  match connetto_sessions db !! s with
  | Some _ => Err "duplicate key"
  | None =>
      let i := now + interval idle in
      let a := now + interval ceiling in
      Ok (i, a, with_rows db (<[s := {| row_user_id := user; row_refresh_hash := hash;
        row_idle_deadline := i; row_absolute_deadline := a; row_revoked := false |}]>
        (connetto_sessions db)))
  end.

Definition live_session (now : Z) (s : SessionId) (db : AuthDb) : option bool :=
  r ← connetto_sessions db !! s;
  if decide (now <= row_absolute_deadline r) then Some (row_revoked r) else None.

Record SessionRow := {
  fu_user_id : Id; fu_refresh_hash : bytes; fu_revoked : bool; idle_lapsed : bool;
  absolute_lapsed : bool;
}.

Definition session_row_for_update (now : Z) (s : SessionId) (db : AuthDb) : option SessionRow :=
  (fun r => {| fu_user_id := row_user_id r; fu_refresh_hash := row_refresh_hash r;
     fu_revoked := row_revoked r; idle_lapsed := bool_decide (row_idle_deadline r < now);
     absolute_lapsed := bool_decide (row_absolute_deadline r < now) |}) <$>
  connetto_sessions db !! s.

(** No row is [NotFound], an error of the statement. *)
Definition rotation_update (now : Z) (s : SessionId) (hash : bytes) (idle : Z) (db : AuthDb) :
    Result (Z * Z * AuthDb) string :=
  match connetto_sessions db !! s with
  | None => Err "Record not found"
  | Some r =>
      let i := now + interval idle in
      Ok (i, row_absolute_deadline r,
          with_rows db (<[s := {| row_user_id := row_user_id r; row_refresh_hash := hash;
            row_idle_deadline := i; row_absolute_deadline := row_absolute_deadline r;
            row_revoked := row_revoked r |}]> (connetto_sessions db)))
  end.

Definition row_revoke (r : SessionTableRow) : SessionTableRow := {|
  row_user_id := row_user_id r; row_refresh_hash := row_refresh_hash r;
  row_idle_deadline := row_idle_deadline r; row_absolute_deadline := row_absolute_deadline r;
  row_revoked := true |}.

Definition revoke_update (s : SessionId) (db : AuthDb) : AuthDb :=
  with_rows db (alter row_revoke s (connetto_sessions db)).

Definition revoke_every_update (db : AuthDb) : nat * AuthDb :=
  (size (filter (fun p => row_revoked p.2 = false) (connetto_sessions db)),
   with_rows db ((fun r => if row_revoked r then r else row_revoke r) <$> connetto_sessions db)).

Definition set_provider_token (now : Z) (s : SessionId) (issuer access : string)
    (refresh : option string) (expires_in : option Z) (db : AuthDb) : Result AuthDb string :=
  match connetto_sessions db !! s with
  | None => Err "foreign key"
  | Some _ =>
      Ok {| connetto_sessions := connetto_sessions db;
            connetto_provider_tokens := <[s := {| pt_issuer := issuer; pt_access_token := access;
              pt_refresh_token := refresh;
              pt_expires_at := (fun l => now + interval l) <$> expires_in |}]>
              (connetto_provider_tokens db) |}
  end.

Definition provider_token (now : Z) (s : SessionId) (db : AuthDb) : option StoredProviderToken :=
  (fun r =>
    let open := bool_decide (pt_expires_at r = None) in
    let fresh := (fun e => bool_decide (now + interval PROVIDER_TOKEN_MARGIN < e)) <$> pt_expires_at r in
    {| sp_issuer := pt_issuer r; sp_access_token := pt_access_token r;
       sp_refresh_token := pt_refresh_token r; still_valid := open || default false fresh |}) <$>
  connetto_provider_tokens db !! s.

(** ** [DbAuthStore] *)

Record DbAuthStore := { db_lifetimes : RefreshLifetimes; db : AuthDb }.

Definition on_db (st : DbAuthStore) (d : AuthDb) : DbAuthStore :=
  {| db_lifetimes := db_lifetimes st; db := d |}.

(** One statement on a connection of the pool, on its own. *)
Definition statement {A} (f : Fates) (run : AuthDb -> Result (A * AuthDb) string)
    (st : DbAuthStore) : Result A AuthStoreError * DbAuthStore :=
  match f_pool f with
  | Some e => (Err (Backend e), st)
  | None =>
      match f_stmt f, run (db st) with
      | Failed e, _ => (Err (Backend e), st)
      | _, Err e => (Err (Backend e), st)
      | Done, Ok (a, d) => (Ok a, on_db st d)
      | Unheard e, Ok (a, d) => (Err (Backend e), on_db st d)
      end
  end.

(** One read. *)
Definition query {A} (f : Fates) (run : AuthDb -> A) (st : DbAuthStore) : Result A AuthStoreError :=
  match f_pool f, f_read f with
  | Some e, _ | None, Some e => Err (Backend e)
  | None, None => Ok (run (db st))
  end.

(** A transaction: the body's writes stand when it succeeds and the commit
    takes effect; a body that fails is rolled back, and its error stands unless
    the rollback's own does. *)
Definition transaction {A} (f : Fates)
    (body : AuthDb -> Result (A * AuthDb) AuthStoreError) (st : DbAuthStore) :
    Result A AuthStoreError * DbAuthStore :=
  match f_begin f with
  | Some e => (Err (Backend e), st)
  | None =>
      match body (db st) with
      | Err err => (Err (match f_rollback f with Some e => Backend e | None => err end), st)
      | Ok (a, d) =>
          match f_commit f with
          | Done => (Ok a, on_db st d)
          | Failed e => (Err (Backend e), st)
          | Unheard e => (Err (Backend e), on_db st d)
          end
      end
  end.

Definition db_create_session (i : ResolvedIdentity) (resolve : Resolver) (d : Draw)
    (st : DbAuthStore) : Result IssuedSession AuthStoreError * DbAuthStore :=
  match resolve (verified_claims i) with
  | Err e => (Err (Resolve e), st)
  | Ok user =>
      let hash := hash_secret (new_refresh_secret d) in
      let s := new_session_id d in
      let '(r, st) := statement (fates d) (fun db =>
        '(i, a, db) <-? new_session (clock d) s user hash (idle_window (db_lifetimes st))
                          (absolute_ceiling (db_lifetimes st)) db;;
        Ok ((i, a), db)) st in
      ('(idle, absolute) <-? r;;
       Ok {| is_session_id := s; is_context := {| user_id := user |};
             is_refresh_token := format_refresh s (new_refresh_secret d);
             is_session_expires_at := Z.min idle absolute |}, st)
  end.

Definition db_session_is_live (s : SessionId) (d : Draw) (st : DbAuthStore) :
    Result bool AuthStoreError :=
  live <-? query (fates d) (live_session (clock d) s) st;;
  Ok (match live with Some revoked => negb revoked | None => false end).

(** The body of the rotation's transaction. *)
Definition rotation_body (s : SessionId) (presented : bytes) (d : Draw) (idle : Z) (db : AuthDb) :
    Result (RefreshOutcome * AuthDb) AuthStoreError :=
  match f_read (fates d) with
  | Some e => Err (Backend e)
  | None =>
      row <-? ok_or (session_row_for_update (clock d) s db) NotFound;;
      if fu_revoked row then Err NotFound
      else if absolute_lapsed row || idle_lapsed row then Err Expired
      else if negb (hashes_match presented (fu_refresh_hash row)) then Err (Reuse s)
      else match f_update (fates d) with
        | Some e => Err (Backend e)
        | None =>
            '(i, a, db) <-? map_err Backend
              (rotation_update (clock d) s (hash_secret (new_refresh_secret d)) idle db);;
            Ok ({| ro_session_id := s; ro_context := {| user_id := fu_user_id row |};
                   ro_refresh_token := format_refresh s (new_refresh_secret d);
                   ro_session_expires_at := Z.min i a |}, db)
        end
  end.

(** The revocation a replayed token calls for, on the connection at hand. *)
Definition revoke_replayed (s : SessionId) (fate : Fate)
    (outcome : Result RefreshOutcome AuthStoreError) (st : DbAuthStore) :
    Result RefreshOutcome AuthStoreError * DbAuthStore :=
  match outcome with
  | Err (Reuse _) =>
      match fate with
      | Done => (outcome, on_db st (revoke_update s (db st)))
      | Failed e => (Err (Backend e), st)
      | Unheard e => (Err (Backend e), on_db st (revoke_update s (db st)))
      end
  | _ => (outcome, st)
  end.

Definition db_rotate_refresh (token : string) (d : Draw) (st : DbAuthStore) :
    Result RefreshOutcome AuthStoreError * DbAuthStore :=
  match split_refresh token with
  | None => (Err NotFound, st)
  | Some (s, secret) =>
      match f_pool (fates d) with
      | Some e => (Err (Backend e), st)
      | None =>
          let '(outcome, st) := transaction (fates d)
            (rotation_body s (hash_secret secret) d (idle_window (db_lifetimes st))) st in
          revoke_replayed s (f_stmt (fates d)) outcome st
      end
  end.

Definition db_revoke_session (s : SessionId) (d : Draw) (st : DbAuthStore) :
    Result unit AuthStoreError * DbAuthStore :=
  statement (fates d) (fun db => Ok (tt, revoke_update s db)) st.

Definition db_revoke_every_session (d : Draw) (st : DbAuthStore) :
    Result Z AuthStoreError * DbAuthStore :=
  statement (fates d) (fun db =>
    let '(n, db) := revoke_every_update db in Ok (Z.min u64_max (Z.of_nat n), db)) st.

Definition db_session_for_refresh (token : string) (d : Draw) (st : DbAuthStore) :
    Result (option SessionId) AuthStoreError :=
  match split_refresh token with
  | None => Ok None
  | Some (s, secret) =>
      row <-? query (fates d) (session_row_for_update (clock d) s) st;;
      Ok (r ← row;
          if fu_revoked r || negb (hashes_match (hash_secret secret) (fu_refresh_hash r)) then None
          else Some s)
  end.

Definition db_set_retained (s : SessionId) (t : RetainedProviderToken) (d : Draw)
    (st : DbAuthStore) : Result unit AuthStoreError * DbAuthStore :=
  statement (fates d) (fun db =>
    db <-? set_provider_token (clock d) s (rp_issuer t) (rp_access_token t)
             (rp_refresh_token t) (rp_expires_in t) db;;
    Ok (tt, db)) st.

Definition db_retained (s : SessionId) (d : Draw) (st : DbAuthStore) :
    Result (option StoredProviderToken) AuthStoreError :=
  query (fates d) (provider_token (clock d) s) st.

#[export] Instance db_store : AuthStore DbAuthStore := {|
  create_session := db_create_session; session_is_live := db_session_is_live;
  rotate_refresh := db_rotate_refresh; revoke_session := db_revoke_session;
  revoke_every_session := db_revoke_every_session;
  session_for_refresh := db_session_for_refresh;
  set_retained_provider_token := db_set_retained; retained_provider_token := db_retained |}.
End AuthStore.

Arguments AuthStoreError : clear implicits.
Arguments IssuedSession : clear implicits.
Arguments RefreshOutcome : clear implicits.
Arguments Draw : clear implicits.
Arguments AuthStore SessionId Id S : clear implicits.
Arguments InMemoryAuthStore SessionId {_ _} Id.
Arguments AuthDb SessionId {_ _} Id.
Arguments DbAuthStore SessionId {_ _} Id.
