(* ===== verification/AuthContract.v ===== *)
(** What a login store promises, and that both stores of [AuthStore] keep it.

    The contract is a book of sessions: whose each is, the hash of the one
    credential that renews it, when it lapses and whether it was ended. A call
    answers and moves the book as the contract's function says, or reports a
    backend error and has then done nothing or all of it ([meets]). The class
    [Lawful] is what the authentication service and its theorems rely on. *)

From Stdlib Require Import ZArith Lia Ascii.
From stdpp Require Import base list numbers option strings gmap fin_maps.
From S2P Require Import Prelude Throttle Chain Caller Tokens AuthStore.

Open Scope Z_scope.

Section Contract.
Context {SessionId : Type} `{CS : Countable SessionId} `{ST : SessionText SessionId}.
Context {Id : Type} `{SH : Sha256}.

Notation Error := (AuthStoreError SessionId).
Notation IssuedSession := (IssuedSession SessionId Id).
Notation RefreshOutcome := (RefreshOutcome SessionId Id).
Notation Draw := (Draw SessionId).
Notation Resolver := (VerifiedClaims -> Result Id ResolveError).

Record Life := {
  owner : AuthContext Id; credential : bytes; lapses : Z; ceiling : Z; ended : bool;
}.

Record Kept := {
  kept_issuer : string; kept_access : string; kept_refresh : option string;
  kept_until : option Z;
}.

(** The spans a store counts with. *)
Record Terms := { idle_span : Z; ceiling_span : Z; lifetime : Z -> Z; margin : Z }.

Record Book := { terms : Terms; lives : gmap SessionId Life; kept : gmap SessionId Kept }.

Definition with_lives (b : Book) (l : gmap SessionId Life) : Book :=
  {| terms := terms b; lives := l; kept := kept b |}.

Definition end_life (l : Life) : Life := {|
  owner := owner l; credential := credential l; lapses := lapses l; ceiling := ceiling l;
  ended := true |}.

Definition renew_life (hash : bytes) (until : Z) (l : Life) : Life := {|
  owner := owner l; credential := hash; lapses := until; ceiling := ceiling l;
  ended := ended l |}.

Definition spec_create (i : ResolvedIdentity) (resolve : Resolver) (d : Draw) (b : Book) :
    Result IssuedSession Error * Book :=
  match resolve (verified_claims i) with
  | Err e => (Err (Resolve e), b)
  | Ok user =>
      let s := new_session_id d in
      let top := clock d + ceiling_span (terms b) in
      let until := Z.min (clock d + idle_span (terms b)) top in
      (Ok {| is_session_id := s; is_context := {| user_id := user |};
             is_refresh_token := format_refresh s (new_refresh_secret d);
             is_session_expires_at := until |},
       with_lives b (<[s := {| owner := {| user_id := user |};
         credential := hash_secret (new_refresh_secret d); lapses := until; ceiling := top;
         ended := false |}]> (lives b)))
  end.

Definition spec_live (s : SessionId) (now : Z) (b : Book) : bool :=
  match lives b !! s with
  | Some l => negb (ended l) && bool_decide (now <= ceiling l)
  | None => false
  end.

Definition spec_rotate (token : string) (d : Draw) (b : Book) :
    Result RefreshOutcome Error * Book :=
  match split_refresh token with
  | None => (Err NotFound, b)
  | Some (s, secret) =>
      match lives b !! s with
      | None => (Err NotFound, b)
      | Some l =>
          if ended l then (Err NotFound, b)
          else if decide (lapses l < clock d) then (Err Expired, b)
          else if decide (hash_secret secret = credential l) then
            let until := Z.min (clock d + idle_span (terms b)) (ceiling l) in
            (Ok {| ro_session_id := s; ro_context := owner l;
                   ro_refresh_token := format_refresh s (new_refresh_secret d);
                   ro_session_expires_at := until |},
             with_lives b (<[s := renew_life (hash_secret (new_refresh_secret d)) until l]> (lives b)))
          else (Err (Reuse s), with_lives b (<[s := end_life l]> (lives b)))
      end
  end.

Definition spec_revoke (s : SessionId) (b : Book) : Book :=
  with_lives b (alter end_life s (lives b)).

Definition spec_revoke_every (b : Book) : Z * Book :=
  (Z.of_nat (size (filter (fun p => ended p.2 = false) (lives b))),
   with_lives b (end_life <$> lives b)).

Definition spec_for_refresh (token : string) (b : Book) : option SessionId :=
  '(s, secret) ← split_refresh token;
  l ← lives b !! s;
  if ended l then None else if decide (hash_secret secret = credential l) then Some s else None.

Definition spec_set_retained (s : SessionId) (t : RetainedProviderToken) (now : Z) (b : Book) : Book :=
  match lives b !! s with
  | None => b
  | Some _ =>
      {| terms := terms b; lives := lives b;
         kept := <[s := {| kept_issuer := rp_issuer t; kept_access := rp_access_token t;
           kept_refresh := rp_refresh_token t;
           kept_until := (fun l => now + lifetime (terms b) l) <$> rp_expires_in t |}]> (kept b) |}
  end.

Definition spec_retained (s : SessionId) (now : Z) (b : Book) : option StoredProviderToken :=
  (fun k => {| sp_issuer := kept_issuer k; sp_access_token := kept_access k;
     sp_refresh_token := kept_refresh k;
     still_valid := match kept_until k with
       | None => true | Some e => bool_decide (now + margin (terms b) < e) end |}) <$> kept b !! s.

(** A call that meets the contract, given the book before it. *)
Definition meets {A} (old : Book) (spec got : Result A Error * Book) : Prop :=
  got = spec \/ exists e, got.1 = Err (Backend e) /\ (got.2 = old \/ got.2 = spec.2).

Definition answers {A} (spec : A) (got : Result A Error) : Prop :=
  got = Ok spec \/ exists e, got = Err (Backend e).

Context (S : Type) `{AS : AuthStore SessionId Id S}.

Class Lawful := {
  book : S -> Book;
  create_law i resolve d s : lives (book s) !! new_session_id d = None ->
    meets (book s) (spec_create i resolve d (book s)) (prod_map id book (create_session i resolve d s));
  live_law x d s : answers (spec_live x (clock d) (book s)) (session_is_live x d s);
  rotate_law t d s :
    meets (book s) (spec_rotate t d (book s)) (prod_map id book (rotate_refresh t d s));
  revoke_law x d s :
    meets (book s) (Ok tt, spec_revoke x (book s)) (prod_map id book (revoke_session x d s));
  revoke_every_law d s :
    (exists n, meets (book s) (Ok n, (spec_revoke_every (book s)).2)
                 (prod_map id book (revoke_every_session d s)) /\
       ((spec_revoke_every (book s)).1 <= u64_max -> n = (spec_revoke_every (book s)).1));
  for_refresh_law t d s : answers (spec_for_refresh t (book s)) (session_for_refresh t d s);
  set_retained_law x t d s :
    meets (book s) (Ok tt, spec_set_retained x t (clock d) (book s))
      (prod_map id book (set_retained_provider_token x t d s));
  retained_law x d s : answers (spec_retained x (clock d) (book s)) (retained_provider_token x d s);
  (** With every statement done, each call answers as the contract says. *)
  create_clean i resolve d s : fates d = all_done -> lives (book s) !! new_session_id d = None ->
    prod_map id book (create_session i resolve d s) = spec_create i resolve d (book s);
  live_clean x d s : fates d = all_done -> session_is_live x d s = Ok (spec_live x (clock d) (book s));
  rotate_clean t d s : fates d = all_done ->
    prod_map id book (rotate_refresh t d s) = spec_rotate t d (book s);
  revoke_clean x d s : fates d = all_done ->
    prod_map id book (revoke_session x d s) = (Ok tt, spec_revoke x (book s));
  revoke_every_clean d s : fates d = all_done -> (spec_revoke_every (book s)).1 <= u64_max ->
    prod_map id book (revoke_every_session d s) =
      (Ok (spec_revoke_every (book s)).1, (spec_revoke_every (book s)).2);
  for_refresh_clean t d s : fates d = all_done ->
    session_for_refresh t d s = Ok (spec_for_refresh t (book s));
  set_retained_clean x t d s : fates d = all_done -> is_Some (lives (book s) !! x) ->
    prod_map id book (set_retained_provider_token x t d s) =
      (Ok tt, spec_set_retained x t (clock d) (book s));
  retained_clean x d s : fates d = all_done ->
    retained_provider_token x d s = Ok (spec_retained x (clock d) (book s));
}.
End Contract.

Arguments Life : clear implicits.
Arguments Book SessionId {_ _} Id.
Arguments Lawful SessionId {_ _ _} Id {_} S {_}.
Arguments book {_ _ _ _ _ _ _ _ _}.
Arguments create_law {_ _ _ _ _ _ _ _ _}.
Arguments live_law {_ _ _ _ _ _ _ _ _}.
Arguments rotate_law {_ _ _ _ _ _ _ _ _}.
Arguments revoke_law {_ _ _ _ _ _ _ _ _}.
Arguments revoke_every_law {_ _ _ _ _ _ _ _ _}.
Arguments for_refresh_law {_ _ _ _ _ _ _ _ _}.
Arguments set_retained_law {_ _ _ _ _ _ _ _ _}.
Arguments retained_law {_ _ _ _ _ _ _ _ _}.
Arguments rotate_clean {_ _ _ _ _ _ _ _ _}.
Arguments revoke_clean {_ _ _ _ _ _ _ _ _}.
Arguments create_clean {_ _ _ _ _ _ _ _ _}.
Arguments live_clean {_ _ _ _ _ _ _ _ _}.
Arguments revoke_every_clean {_ _ _ _ _ _ _ _ _}.
Arguments for_refresh_clean {_ _ _ _ _ _ _ _ _}.
Arguments set_retained_clean {_ _ _ _ _ _ _ _ _}.
Arguments retained_clean {_ _ _ _ _ _ _ _ _}.

(** ** The store in memory *)

Section Memory.
Context {SessionId : Type} `{CS : Countable SessionId} `{ST : SessionText SessionId}.
Context {Id : Type} `{SH : Sha256}.

Notation Store := (InMemoryAuthStore SessionId Id).

Definition mem_life (r : SessionRecord (Id := Id)) : Life Id := {|
  owner := sr_context r; credential := sr_refresh_hash r;
  lapses := Z.min (sr_idle_deadline r) (sr_absolute_deadline r);
  ceiling := sr_absolute_deadline r; ended := sr_revoked r |}.

Definition mem_kept (r : SessionRecord (Id := Id)) : option Kept :=
  (fun t => {| kept_issuer := rr_issuer t; kept_access := rr_access_token t;
     kept_refresh := rr_refresh_token t; kept_until := rr_expires_at t |}) <$> sr_retained r.

Definition mem_book (m : Store) : Book SessionId Id := {|
  terms := {| idle_span := idle_window (lifetimes m); ceiling_span := absolute_ceiling (lifetimes m);
    lifetime := id; margin := PROVIDER_TOKEN_MARGIN |};
  lives := mem_life <$> sessions m; kept := omap mem_kept (sessions m) |}.

Lemma mem_book_eq m ss l k :
  mem_life <$> ss = l -> omap mem_kept ss = k ->
  mem_book (with_sessions m ss) = {| terms := terms (mem_book m); lives := l; kept := k |}.
Proof. by intros <- <-. Qed.

(** A record whose provider tokens stay as they were leaves what is kept. *)
Lemma mem_kept_insert (ss : gmap SessionId (SessionRecord (Id := Id))) s r :
  mem_kept r = (ss !! s ≫= mem_kept) -> omap mem_kept (<[s := r]> ss) = omap mem_kept ss.
Proof.
  intros E. apply map_eq. intros k. rewrite !lookup_omap.
  destruct (decide (s = k)) as [->|]; by simplify_map_eq.
Qed.

Lemma mem_create_exact i resolve d m :
  lives (mem_book m) !! new_session_id d = None ->
  prod_map id mem_book (mem_create_session i resolve d m) = spec_create i resolve d (mem_book m).
Proof.
  intros Hf. unfold mem_create_session, spec_create. destruct (resolve _); [|done].
  simpl in *. rewrite lookup_fmap, fmap_None in Hf. f_equal. apply mem_book_eq.
  - by rewrite fmap_insert.
  - rewrite mem_kept_insert; [done|by rewrite Hf].
Qed.

Lemma mem_rotate_exact t d m :
  prod_map id mem_book (mem_rotate_refresh t d m) = spec_rotate t d (mem_book m).
Proof.
  unfold mem_rotate_refresh, spec_rotate. destruct (split_refresh t) as [[s secret]|]; [|done].
  simpl. rewrite lookup_fmap. destruct (sessions m !! s) as [r|] eqn:Es; [|done]. simpl.
  destruct (sr_revoked r) eqn:Er; [done|].
  destruct (decide (Z.min _ _ < clock d)) as [Hl|Hl].
  { rewrite (proj2 (orb_true_iff _ _)); [done|]. rewrite !bool_decide_eq_true. lia. }
  rewrite (proj2 (orb_false_iff _ _)) by (rewrite !bool_decide_eq_false; lia).
  unfold hashes_match. case_bool_decide as Hh; simpl.
  - rewrite decide_True by done. unfold id. simpl. f_equal. apply mem_book_eq.
    + rewrite fmap_insert. unfold mem_life, renew_life. simpl. do 2 f_equal. lia.
    + apply mem_kept_insert. by rewrite Es.
  - rewrite decide_False by done. unfold id. simpl. f_equal. apply mem_book_eq.
    + by rewrite fmap_insert.
    + apply mem_kept_insert. by rewrite Es.
Qed.

Lemma mem_revoke_exact s d m :
  prod_map id mem_book (mem_revoke_session s d m) = (Ok tt, spec_revoke s (mem_book m)).
Proof.
  unfold mem_revoke_session, spec_revoke. simpl. unfold id. f_equal. apply mem_book_eq.
  - apply map_eq. intros k. rewrite lookup_fmap.
    destruct (decide (s = k)) as [->|]; simplify_map_eq; [|done]. by destruct (sessions m !! k).
  - apply map_eq. intros k. rewrite !lookup_omap.
    destruct (decide (s = k)) as [->|]; simplify_map_eq; [|done]. by destruct (sessions m !! k).
Qed.

Lemma mem_revoke_every_exact d m :
  prod_map id mem_book (mem_revoke_every_session d m) =
  (Ok (spec_revoke_every (mem_book m)).1, (spec_revoke_every (mem_book m)).2).
Proof.
  unfold mem_revoke_every_session, spec_revoke_every. simpl. unfold id. f_equal.
  - do 2 f_equal. rewrite map_filter_fmap, map_size_fmap. done.
  - apply mem_book_eq.
    + rewrite <- !map_fmap_compose. apply map_fmap_ext. intros k r _. simpl.
      by destruct (sr_revoked r) eqn:E; [destruct r; simpl in *; subst|].
    + apply map_eq. intros k. simpl. rewrite !lookup_omap, lookup_fmap.
      destruct (sessions m !! k) as [r|]; simpl; [|done]. by destruct (sr_revoked r).
Qed.

Lemma mem_set_retained_exact s t d m :
  prod_map id mem_book (mem_set_retained s t d m) =
  (Ok tt, spec_set_retained s t (clock d) (mem_book m)).
Proof.
  unfold mem_set_retained, spec_set_retained. simpl. unfold id. f_equal.
  rewrite lookup_fmap. destruct (sessions m !! s) as [r|] eqn:Es; simpl.
  - apply mem_book_eq; apply map_eq; intros k; rewrite ?lookup_omap, ?lookup_fmap;
      destruct (decide (s = k)) as [->|]; by simplify_map_eq.
  - destruct m as [l ss]. simpl in *. do 2 f_equal. apply map_eq. intros k.
    destruct (decide (s = k)) as [->|]; by simplify_map_eq.
Qed.

Lemma mem_live_exact x d m : mem_session_is_live x d m = Ok (spec_live x (clock d) (mem_book m)).
Proof.
  unfold spec_live, mem_session_is_live. simpl. rewrite lookup_fmap. by destruct (sessions m !! x).
Qed.

Lemma mem_for_refresh_exact t d m :
  mem_session_for_refresh t d m = Ok (spec_for_refresh t (mem_book m)).
Proof.
  unfold spec_for_refresh, mem_session_for_refresh.
  destruct (split_refresh t) as [[x secret]|]; [|done]. simpl. rewrite lookup_fmap.
  destruct (sessions m !! x) as [r|]; [|done]. simpl. unfold hashes_match.
  destruct (sr_revoked r); simpl; [done|]. by case_bool_decide; case_decide.
Qed.

Lemma mem_retained_exact x d m : mem_retained x d m = Ok (spec_retained x (clock d) (mem_book m)).
Proof.
  unfold spec_retained, mem_retained. simpl. rewrite lookup_omap.
  destruct (sessions m !! x) as [r|]; [|done]. simpl. unfold mem_kept. by destruct (sr_retained r).
Qed.

#[export] Instance mem_lawful : Lawful SessionId Id Store.
Proof.
  refine {| book := mem_book |}.
  - intros. left. by apply mem_create_exact.
  - intros. left. apply mem_live_exact.
  - intros. left. apply mem_rotate_exact.
  - intros. left. apply mem_revoke_exact.
  - intros. eexists. split; [left; apply mem_revoke_every_exact|done].
  - intros. left. apply mem_for_refresh_exact.
  - intros. left. apply mem_set_retained_exact.
  - intros. left. apply mem_retained_exact.
  - intros. by apply mem_create_exact.
  - intros. apply mem_live_exact.
  - intros. apply mem_rotate_exact.
  - intros. apply mem_revoke_exact.
  - intros. apply mem_revoke_every_exact.
  - intros. apply mem_for_refresh_exact.
  - intros. apply mem_set_retained_exact.
  - intros. apply mem_retained_exact.
Defined.
End Memory.

(** ** The store in Postgres *)

Section Database.
Context {SessionId : Type} `{CS : Countable SessionId} `{ST : SessionText SessionId}.
Context {Id : Type} `{SH : Sha256} `{PG : Postgres}.

Notation Store := (DbAuthStore SessionId Id).
Notation Error := (AuthStoreError SessionId).
Notation Book := (Book SessionId Id).

Definition row_life (r : SessionTableRow (Id := Id)) : Life Id := {|
  owner := {| user_id := row_user_id r |}; credential := row_refresh_hash r;
  lapses := Z.min (row_idle_deadline r) (row_absolute_deadline r);
  ceiling := row_absolute_deadline r; ended := row_revoked r |}.

Definition row_kept (r : ProviderTokenRow) : Kept := {|
  kept_issuer := pt_issuer r; kept_access := pt_access_token r;
  kept_refresh := pt_refresh_token r; kept_until := pt_expires_at r |}.

Definition tables_book (l : RefreshLifetimes) (d : AuthDb SessionId Id) : Book := {|
  terms := {| idle_span := interval (idle_window l); ceiling_span := interval (absolute_ceiling l);
    lifetime := interval; margin := interval PROVIDER_TOKEN_MARGIN |};
  lives := row_life <$> connetto_sessions d; kept := row_kept <$> connetto_provider_tokens d |}.

Definition db_book (st : Store) : Book := tables_book (db_lifetimes st) (db st).

(** A statement on its own meets what its effect on the tables does. *)
Lemma statement_meets {A} f (run : AuthDb SessionId Id -> Result (A * AuthDb SessionId Id) string)
    st (spec : Result A Error * Book) :
  match run (db st) with
  | Ok (a, d) => spec = (Ok a, tables_book (db_lifetimes st) d)
  | Err _ => True
  end -> meets (db_book st) spec (prod_map id db_book (statement f run st)).
Proof.
  unfold meets, statement. intros H. destruct (f_pool f) as [e|]; [right; exists e; auto|].
  destruct (run (db st)) as [[a d]|e'], (f_stmt f) as [|e|e]; subst; simpl; eauto 6.
Qed.

Lemma query_answers {A} f (run : AuthDb SessionId Id -> A) (st : Store) :
  answers (run (db st)) (query f run st).
Proof. unfold answers, query. destruct (f_pool f), (f_read f); eauto. Qed.

Lemma rotation_update_life now s hash idle db r :
  connetto_sessions db !! s = Some r ->
  exists db', rotation_update now s hash idle db =
    Ok (now + interval idle, row_absolute_deadline r, db') /\
  forall l, tables_book l db' = with_lives (tables_book l db)
    (<[s := renew_life hash (Z.min (now + interval idle) (row_absolute_deadline r)) (row_life r)]>
       (row_life <$> connetto_sessions db)).
Proof.
  intros E. unfold rotation_update. rewrite E. eexists. split; [done|]. intros l.
  unfold tables_book, with_lives. simpl. by rewrite fmap_insert.
Qed.

Lemma revoke_update_life s db l :
  tables_book l (revoke_update s db) = spec_revoke s (tables_book l db).
Proof.
  unfold tables_book, spec_revoke, with_lives. simpl. f_equal. apply map_eq. intros k.
  rewrite lookup_fmap. destruct (decide (s = k)) as [->|]; simplify_map_eq; [|done].
  by destruct (connetto_sessions db !! k).
Qed.

(** The rotation's transaction, read as the contract's: what it answers when
    every statement is done, and that it fails with a backend error otherwise. *)
Lemma rotation_body_spec t s secret d st :
  split_refresh t = Some (s, secret) ->
  let '(r, b) := spec_rotate t d (db_book st) in
  match rotation_body s (hash_secret secret) d (idle_window (db_lifetimes st)) (db st) with
  | Ok (out, db') => r = Ok out /\ b = tables_book (db_lifetimes st) db'
  | Err (Reuse s') => s' = s /\ r = Err (Reuse s) /\ b = spec_revoke s (db_book st)
  | Err (Backend e) => f_read (fates d) <> None \/ f_update (fates d) <> None
  | Err e => r = Err e /\ b = db_book st
  end.
Proof.
  intros Et. unfold spec_rotate. rewrite Et. unfold rotation_body.
  destruct (f_read (fates d)) as [e|]; [by repeat case_match; left|].
  unfold session_row_for_update. simpl. rewrite lookup_fmap.
  destruct (connetto_sessions (db st) !! s) as [r|] eqn:Es; [|done]. simpl.
  destruct (row_revoked r) eqn:Er; [done|].
  destruct (decide (Z.min _ _ < clock d)) as [Hl|Hl].
  { rewrite (proj2 (orb_true_iff _ _)); [done|]. rewrite !bool_decide_eq_true. lia. }
  rewrite (proj2 (orb_false_iff _ _)) by (rewrite !bool_decide_eq_false; lia).
  unfold hashes_match. case_bool_decide as Hh; simpl.
  - rewrite decide_True by done. destruct (f_update (fates d)) as [e|]; [by right|].
    destruct (rotation_update_life (clock d) s (hash_secret (new_refresh_secret d))
      (idle_window (db_lifetimes st)) (db st) r Es) as (db' & -> & Hb). simpl. by rewrite Hb.
  - rewrite decide_False by done. split_and!; [done..|]. unfold spec_revoke. f_equal. simpl.
    apply map_eq. intros k. destruct (decide (s = k)) as [->|]; by simplify_map_eq.
Qed.

Lemma db_rotate_meets t d st :
  meets (db_book st) (spec_rotate t d (db_book st)) (prod_map id db_book (db_rotate_refresh t d st)).
Proof.
  unfold db_rotate_refresh. destruct (split_refresh t) as [[s secret]|] eqn:Et.
  2: { left. unfold spec_rotate. by rewrite Et. }
  destruct (f_pool (fates d)) as [e|]; [right; exists e; auto|].
  pose proof (rotation_body_spec t s secret d st Et) as H.
  destruct (spec_rotate t d (db_book st)) as [r b]. unfold transaction.
  destruct (f_begin (fates d)) as [e|]; [right; exists e; auto|].
  destruct (rotation_body _ _ _ _ _) as [[out db']|err].
  - destruct H as [-> ->]. destruct (f_commit (fates d)) as [|e|e]; simpl; [by left|..];
      right; exists e; auto.
  - destruct (f_rollback (fates d)) as [e|]; [right; exists e; auto|].
    destruct err as [| |s'|e|e]; simpl.
    + destruct H as [-> ->]. by left.
    + destruct H as [-> ->]. by left.
    + destruct H as (-> & -> & ->).
      pose proof (revoke_update_life s (db st) (db_lifetimes st)) as Hr.
      destruct (f_stmt (fates d)) as [|e|e]; simpl; unfold id;
        [left; unfold db_book at 1; simpl; by rewrite Hr|right; exists e; auto..].
    + destruct H as [-> ->]. by left.
    + right. exists e. auto.
Qed.

Lemma db_rotate_clean t d st :
  fates d = all_done ->
  prod_map id db_book (db_rotate_refresh t d st) = spec_rotate t d (db_book st).
Proof.
  intros Hf. unfold db_rotate_refresh. rewrite Hf.
  destruct (split_refresh t) as [[s secret]|] eqn:Et.
  2: { unfold spec_rotate. by rewrite Et. }
  pose proof (rotation_body_spec t s secret d st Et) as H. rewrite Hf in H.
  destruct (spec_rotate t d (db_book st)) as [r b]. unfold transaction. simpl.
  destruct (rotation_body _ _ _ _ _) as [[out db']|[| |s'|e|e]]; simpl in *;
    try (by destruct H as [-> ->]); [|by destruct H].
  destruct H as (-> & -> & ->). unfold id, db_book at 1. simpl.
  by rewrite (revoke_update_life s (db st) (db_lifetimes st)).
Qed.

Lemma db_create_meets i resolve d st :
  lives (db_book st) !! new_session_id d = None ->
  meets (db_book st) (spec_create i resolve d (db_book st))
    (prod_map id db_book (db_create_session i resolve d st)).
Proof.
  intros Hf. unfold db_create_session, spec_create.
  destruct (resolve _) as [user|e]; [|by left]. simpl in Hf. rewrite lookup_fmap, fmap_None in Hf.
  set (run := fun db => _).
  pose proof (statement_meets (fates d) run st (Ok (clock d + interval (idle_window (db_lifetimes st)),
    clock d + interval (absolute_ceiling (db_lifetimes st))),
    with_lives (db_book st) (<[new_session_id d := {| owner := {| user_id := user |};
      credential := hash_secret (new_refresh_secret d);
      lapses := Z.min (clock d + interval (idle_window (db_lifetimes st)))
                  (clock d + interval (absolute_ceiling (db_lifetimes st)));
      ceiling := clock d + interval (absolute_ceiling (db_lifetimes st));
      ended := false |}]> (lives (db_book st))))) as H.
  destruct (statement (fates d) run st) as [r st']. destruct H as [E|(e & E & H)].
  - unfold run, new_session. rewrite Hf. simpl. f_equal. unfold db_book, with_lives, tables_book.
    simpl. by rewrite fmap_insert.
  - left. apply pair_equal_spec in E as [Er Eb]. unfold id in Er. simpl in Er, Eb.
    subst r. cbn [prod_map fst snd rbind]. by rewrite Eb.
  - right. exists e. simpl in *. by rewrite E.
Qed.

(** The answers of the reads, given the statement's. *)
Lemma query_clean {A} f (run : AuthDb SessionId Id -> A) (st : Store) :
  f = all_done -> query f run st = Ok (run (db st)).
Proof. by intros ->. Qed.

Lemma statement_clean {A} f (run : AuthDb SessionId Id -> Result (A * AuthDb SessionId Id) string)
    (st : Store) a d :
  f = all_done -> run (db st) = Ok (a, d) -> statement f run st = (Ok a, on_db st d).
Proof. unfold statement. intros -> ->. done. Qed.

Lemma live_read x now (st : Store) :
  match live_session now x (db st) with Some revoked => negb revoked | None => false end =
  spec_live x now (db_book st).
Proof.
  unfold spec_live, live_session. simpl. rewrite lookup_fmap.
  destruct (connetto_sessions (db st) !! x) as [r|]; [|done]. simpl.
  by case_decide; case_bool_decide; rewrite ?andb_true_r, ?andb_false_r.
Qed.

Lemma for_refresh_read x secret now t (st : Store) :
  split_refresh t = Some (x, secret) ->
  (r ← session_row_for_update now x (db st);
   if fu_revoked r || negb (hashes_match (hash_secret secret) (fu_refresh_hash r)) then None
   else Some x) = spec_for_refresh t (db_book st).
Proof.
  intros Et. unfold spec_for_refresh. rewrite Et. simpl. rewrite lookup_fmap.
  unfold session_row_for_update.
  destruct (connetto_sessions (db st) !! x) as [r|]; [|done]. simpl. unfold hashes_match.
  destruct (row_revoked r); simpl; [done|]. by case_bool_decide; case_decide.
Qed.

Lemma retained_read x now (st : Store) :
  provider_token now x (db st) = spec_retained x now (db_book st).
Proof.
  unfold provider_token, spec_retained. simpl. rewrite lookup_fmap.
  destruct (connetto_provider_tokens (db st) !! x) as [r|]; [|done]. simpl. do 3 f_equal.
  by destruct (pt_expires_at r).
Qed.

Lemma set_token_life x t now (st : Store) r :
  connetto_sessions (db st) !! x = Some r ->
  exists d, set_provider_token now x (rp_issuer t) (rp_access_token t) (rp_refresh_token t)
    (rp_expires_in t) (db st) = Ok d /\
  tables_book (db_lifetimes st) d = spec_set_retained x t now (db_book st).
Proof.
  intros E. unfold set_provider_token, spec_set_retained. simpl. rewrite lookup_fmap, E. simpl.
  eexists. split; [done|]. unfold tables_book. simpl. by rewrite fmap_insert.
Qed.

Lemma revoke_every_life (st : Store) :
  tables_book (db_lifetimes st) (revoke_every_update (db st)).2 = (spec_revoke_every (db_book st)).2 /\
  Z.of_nat (revoke_every_update (db st)).1 = (spec_revoke_every (db_book st)).1.
Proof.
  unfold revoke_every_update, spec_revoke_every. simpl. split.
  - unfold db_book, with_lives, tables_book. simpl. f_equal. rewrite <- !map_fmap_compose.
    apply map_fmap_ext. intros k r _. simpl.
    by destruct (row_revoked r) eqn:E; [destruct r; simpl in *; subst|].
  - f_equal. by rewrite map_filter_fmap, map_size_fmap.
Qed.

Lemma db_revoke_every_meets d st :
  exists n, meets (db_book st) (Ok n, (spec_revoke_every (db_book st)).2)
    (prod_map id db_book (db_revoke_every_session d st)) /\
  ((spec_revoke_every (db_book st)).1 <= u64_max -> n = (spec_revoke_every (db_book st)).1).
Proof.
  destruct (revoke_every_life st) as [Hb Hn].
  exists (Z.min u64_max (spec_revoke_every (db_book st)).1). split; [|lia].
  apply statement_meets. rewrite <- Hb, <- Hn. by destruct (revoke_every_update (db st)).
Qed.

Lemma db_create_clean i resolve d st :
  fates d = all_done -> lives (db_book st) !! new_session_id d = None ->
  prod_map id db_book (db_create_session i resolve d st) = spec_create i resolve d (db_book st).
Proof.
  intros Hc Hf. unfold db_create_session, spec_create.
  destruct (resolve _) as [user|e]; [|done]. simpl in Hf. rewrite lookup_fmap, fmap_None in Hf.
  erewrite statement_clean; [|done|by unfold new_session; rewrite Hf]. simpl. unfold id. f_equal.
  unfold db_book, with_lives, tables_book. simpl. by rewrite fmap_insert.
Qed.

#[export] Instance db_lawful : Lawful SessionId Id Store.
Proof.
  refine {| book := db_book |}.
  - apply db_create_meets.
  - intros x d s. simpl. unfold db_session_is_live. rewrite <- live_read.
    destruct (query_answers (fates d) (live_session (clock d) x) s) as [->|[e ->]];
      [by left|right; by exists e].
  - apply db_rotate_meets.
  - intros x d s. apply statement_meets. simpl. f_equal. symmetry. apply revoke_update_life.
  - apply db_revoke_every_meets.
  - intros t d s. simpl. unfold db_session_for_refresh.
    destruct (split_refresh t) as [[x secret]|] eqn:Et;
      [|left; unfold spec_for_refresh; by rewrite Et].
    rewrite <- (for_refresh_read x secret (clock d) t s Et).
    destruct (query_answers (fates d) (session_row_for_update (clock d) x) s) as [->|[e ->]];
      [by left|right; by exists e].
  - intros x t d s. apply statement_meets.
    destruct (connetto_sessions (db s) !! x) as [r|] eqn:E.
    + destruct (set_token_life x t (clock d) s r E) as (d' & -> & Hb). simpl. by rewrite Hb.
    + unfold set_provider_token. by rewrite E.
  - intros x d s. simpl. unfold db_retained. rewrite <- retained_read. apply query_answers.
  - apply db_create_clean.
  - intros x d s Hf. simpl. unfold db_session_is_live. rewrite query_clean by done. simpl.
    by rewrite live_read.
  - apply db_rotate_clean.
  - intros x d s Hf. simpl. unfold db_revoke_session.
    erewrite statement_clean; [|done|done]. simpl. unfold id. f_equal. apply revoke_update_life.
  - intros d s Hf Hn. simpl. destruct (revoke_every_life s) as [Hb Hs]. unfold db_revoke_every_session.
    rewrite (statement_clean _ _ s (Z.min u64_max (Z.of_nat (revoke_every_update (db s)).1))
      (revoke_every_update (db s)).2); [|done|by destruct (revoke_every_update (db s))].
    cbn [prod_map]. unfold id. rewrite Hs, Z.min_r by done. f_equal. exact Hb.
  - intros t d s Hf. simpl. unfold db_session_for_refresh.
    destruct (split_refresh t) as [[x secret]|] eqn:Et; [|unfold spec_for_refresh; by rewrite Et].
    rewrite query_clean by done. simpl. f_equal. by apply for_refresh_read.
  - intros x t d s Hf [l Hl]. simpl in Hl. rewrite lookup_fmap, fmap_Some in Hl.
    destruct Hl as (r & E & _). destruct (set_token_life x t (clock d) s r E) as (d' & E' & Hb).
    simpl. unfold db_set_retained. erewrite statement_clean; [|done|by rewrite E']. simpl.
    unfold id. f_equal. exact Hb.
  - intros x d s Hf. simpl. unfold db_retained. rewrite query_clean by done.
    by rewrite retained_read.
Defined.
End Database.
