(* ===== verification/AuthService.v ===== *)
(** The authentication service: connetto-server/src/authn/service.rs, over any
    login store, with the audit record of audit.rs, the provider registry of
    provider.rs, and the handshake authority.

    The service holds the store, the token authority and the guard it shares with
    the sessions; what it reports (a revocation to the observer, an access change
    to the audit sink, a crossing to the ban policy) accumulates in its state. *)

From Stdlib Require Import ZArith Lia Ascii.
From stdpp Require Import base list numbers option strings gmap fin_maps.
From S2P Require Import Prelude Throttle Guard Chain Caller Tokens AuthStore AuthContract.

Open Scope Z_scope.

(** ** Access changes: audit.rs *)

Inductive AuthOp :=
| LoggedOut | SessionRevoked | TokenReplayed | CapabilityMinted | PermissionChange
| ModelChange | Banned | BanLifted | WriteForked | WriteRedelivered.

Definition op_label (op : AuthOp) : string :=
  match op with
  | LoggedOut => "logged_out"
  | SessionRevoked => "session_revoked"
  | TokenReplayed => "token_replayed"
  | CapabilityMinted => "capability_minted"
  | PermissionChange => "permission_change"
  | ModelChange => "model_change"
  | Banned => "banned"
  | BanLifted => "ban_lifted"
  | WriteForked => "write_forked"
  | WriteRedelivered => "write_redelivered"
  end.

(** ** Providers: provider.rs *)

Inductive ProviderError :=
| PConfig (e : string) | PExchange (e : string) | PVerification (e : string)
| PAssurance (e : string) | PRefresh (e : string) | MissingIdToken.

(** A provider as the registry sees it. *)
Record IdentityProvider := {
  p_name : string; p_issuer : string; matches_issuer : string -> bool;
}.

Record ProviderRegistry := {
  reg_by_name : gmap string IdentityProvider; reg_by_issuer : gmap string IdentityProvider;
  reg_all : list IdentityProvider;
}.

Definition new_registry : ProviderRegistry :=
  {| reg_by_name := ∅; reg_by_issuer := ∅; reg_all := [] |}.

Definition register (p : IdentityProvider) (r : ProviderRegistry) : ProviderRegistry := {|
  reg_by_name := <[p_name p := p]> (reg_by_name r);
  reg_by_issuer := <[p_issuer p := p]> (reg_by_issuer r); reg_all := reg_all r ++ [p] |}.

Definition by_name (name : string) (r : ProviderRegistry) : option IdentityProvider :=
  reg_by_name r !! name.

Definition by_issuer (issuer : string) (r : ProviderRegistry) : option IdentityProvider :=
  match reg_by_issuer r !! issuer with
  | Some p => Some p
  | None => snd <$> list_find (fun p => matches_issuer p issuer = true) (reg_all r)
  end.

Record VerifiedLogin := { vl_identity : ResolvedIdentity; vl_retained : RetainedProviderToken }.

Section AuthService.
Context {SessionId : Type} `{CS : Countable SessionId} `{ST : SessionText SessionId}.
Context {Id Key : Type} `{ID : Identity Id} `{SI : Serde Id} `{SK : Serde Key}.
Context `{SH : Sha256} `{JW : Jwt}.
Context {S : Type} `{AS : AuthStore SessionId Id S}.

Notation Draw := (Draw SessionId).
Notation Resolver := (VerifiedClaims -> Result Id ResolveError).

Record AuthEvent := { ev_session : SessionId; ev_user_id : option Id; ev_op : AuthOp }.

Record TokenPair := {
  access_token : string; refresh_token : string; expires_in_secs : Z; pair_user_id : Id;
  session_expires_at_secs : Z;
}.

Inductive AuthError :=
| StoreError (e : AuthStoreError SessionId)
| TokenFault (e : TokenError)
| ProviderFault (e : ProviderError)
| RateLimited (wait : Z).

Record AuthService := {
  authority : TokenAuthority; store : S; registry : option ProviderRegistry;
  (** Whether each observer is attached. *)
  revocation_hook : bool; audit_hook : bool;
  guard : RequestGuard SessionId Id;
  (** What the observers were told, oldest first. *)
  told : list SessionId; audited : list AuthEvent;
  crossings : list (Crossing SessionId Id);
}.

(** The instants one call reads besides the store's draw: the wall clock, and
    the guard's at each of its steps. *)
Record Instants := {
  wall : Z; blocked1 : Z; blocked2 : Z; failed1 : Z; failed2 : Z; failed3 : Z; learnt : Z;
}.

Definition with_store (sv : AuthService) (s : S) : AuthService := {|
  authority := authority sv; store := s; registry := registry sv;
  revocation_hook := revocation_hook sv; audit_hook := audit_hook sv; guard := guard sv;
  told := told sv; audited := audited sv; crossings := crossings sv |}.

Definition with_guard (sv : AuthService) (g : RequestGuard SessionId Id) : AuthService := {|
  authority := authority sv; store := store sv; registry := registry sv;
  revocation_hook := revocation_hook sv; audit_hook := audit_hook sv; guard := g;
  told := told sv; audited := audited sv; crossings := crossings sv |}.

Definition with_crossing (sv : AuthService) (x : option (Crossing SessionId Id)) : AuthService := {|
  authority := authority sv; store := store sv; registry := registry sv;
  revocation_hook := revocation_hook sv; audit_hook := audit_hook sv; guard := guard sv;
  told := told sv; audited := audited sv; crossings := crossings sv ++ option_list x |}.

(** Unix seconds, clamped at the epoch. *)
Definition clamped_secs (time : Z) : Z := as_secs (Z.max 0 time).

Definition record (e : AuthEvent) (sv : AuthService) : AuthService :=
  if audit_hook sv then {|
    authority := authority sv; store := store sv; registry := registry sv;
    revocation_hook := revocation_hook sv; audit_hook := audit_hook sv; guard := guard sv;
    told := told sv; audited := audited sv ++ [e]; crossings := crossings sv |}
  else sv.

Definition notify_revoked (s : SessionId) (sv : AuthService) : AuthService :=
  if revocation_hook sv then {|
    authority := authority sv; store := store sv; registry := registry sv;
    revocation_hook := revocation_hook sv; audit_hook := audit_hook sv; guard := guard sv;
    told := told sv ++ [s]; audited := audited sv; crossings := crossings sv |}
  else sv.

Definition finish_login (issued : IssuedSession SessionId Id) (t : Instants) (sv : AuthService) :
    Result TokenPair AuthError * AuthService :=
  match mint_access (Key := Key) (authority sv) (is_context issued) (is_session_id issued) (wall t) with
  | Err e => (Err (TokenFault e), sv)
  | Ok token =>
      let user := user_id (is_context issued) in
      (Ok {| access_token := token; refresh_token := is_refresh_token issued;
             expires_in_secs := as_secs (access_ttl (authority sv)); pair_user_id := user;
             session_expires_at_secs := clamped_secs (is_session_expires_at issued) |},
       with_guard sv (learn_owner (is_session_id issued) user (learnt t) (guard sv)))
  end.

Definition login (i : ResolvedIdentity) (resolve : Resolver) (d : Draw) (t : Instants)
    (sv : AuthService) : Result TokenPair AuthError * AuthService :=
  let '(r, s) := create_session i resolve d (store sv) in
  let sv := with_store sv s in
  match r with
  | Err e => (Err (StoreError e), sv)
  | Ok issued => finish_login issued t sv
  end.

Definition login_with_provider (l : VerifiedLogin) (resolve : Resolver) (d d' : Draw)
    (t : Instants) (sv : AuthService) : Result TokenPair AuthError * AuthService :=
  let '(r, s) := create_session (vl_identity l) resolve d (store sv) in
  let sv := with_store sv s in
  match r with
  | Err e => (Err (StoreError e), sv)
  | Ok issued =>
      let '(r, s) := set_retained_provider_token (is_session_id issued) (vl_retained l) d' (store sv) in
      let sv := with_store sv s in
      match r with
      | Err e => (Err (StoreError e), sv)
      | Ok _ => finish_login issued t sv
      end
  end.

(** [upstream] is what the provider answers to a refresh. *)
Definition provider_access_token (x : SessionId)
    (upstream : IdentityProvider -> string -> Result RetainedProviderToken ProviderError)
    (d d' : Draw) (sv : AuthService) : Result (option string) AuthError * AuthService :=
  match retained_provider_token x d (store sv) with
  | Err e => (Err (StoreError e), sv)
  | Ok None => (Ok None, sv)
  | Ok (Some retained) =>
      if still_valid retained then (Ok (Some (sp_access_token retained)), sv)
      else
        match sp_refresh_token retained, registry sv with
        | Some refresh, Some reg =>
            match by_issuer (sp_issuer retained) reg with
            | None => (Ok (Some (sp_access_token retained)), sv)
            | Some provider =>
                match upstream provider refresh with
                | Err e => (Err (ProviderFault e), sv)
                | Ok refreshed =>
                    let refreshed := {| rp_issuer := sp_issuer retained;
                      rp_access_token := rp_access_token refreshed;
                      rp_refresh_token := rp_refresh_token refreshed;
                      rp_expires_in := rp_expires_in refreshed |} in
                    let '(r, s) := set_retained_provider_token x refreshed d' (store sv) in
                    let sv := with_store sv s in
                    match r with
                    | Err e => (Err (StoreError e), sv)
                    | Ok _ => (Ok (Some (rp_access_token refreshed)), sv)
                    end
                end
            end
        | _, _ => (Ok (Some (sp_access_token retained)), sv)
        end
  end.

(** Only a credential failure is charged to the session it names. *)
Definition credential_failure (e : AuthStoreError SessionId) : bool :=
  match e with NotFound | Expired | Reuse _ => true | Resolve _ | Backend _ => false end.

Definition charge_failure (named : option SessionId) (e : AuthStoreError SessionId) (t : Instants)
    (sv : AuthService) : AuthService :=
  match named with
  | Some s =>
      if credential_failure e then
        let '(_, x, g) := guard_refresh_failed s (failed1 t) (failed2 t) (failed3 t) (guard sv) in
        with_crossing (with_guard sv g) x
      else sv
  | None => sv
  end.

Definition report_replay (e : AuthStoreError SessionId) (sv : AuthService) : AuthService :=
  match e with
  | Reuse s =>
      record {| ev_session := s; ev_user_id := None; ev_op := TokenReplayed |} (notify_revoked s sv)
  | _ => sv
  end.

Definition refresh (token : string) (d : Draw) (t : Instants) (sv : AuthService) :
    Result TokenPair AuthError * AuthService :=
  let named := fst <$> split_refresh token in
  match named ≫= fun s => guard_refresh_blocked s (blocked1 t) (blocked2 t) (guard sv) with
  | Some wait => (Err (RateLimited wait), sv)
  | None =>
      let '(r, s) := rotate_refresh token d (store sv) in
      let sv := with_store sv s in
      match r with
      | Err e => (Err (StoreError e), report_replay e (charge_failure named e t sv))
      | Ok outcome =>
          match mint_access (Key := Key) (authority sv) (ro_context outcome) (ro_session_id outcome) (wall t) with
          | Err e => (Err (TokenFault e), sv)
          | Ok access =>
              let user := user_id (ro_context outcome) in
              (Ok {| access_token := access; refresh_token := ro_refresh_token outcome;
                     expires_in_secs := as_secs (access_ttl (authority sv)); pair_user_id := user;
                     session_expires_at_secs := clamped_secs (ro_session_expires_at outcome) |},
               with_guard sv (learn_owner (ro_session_id outcome) user (learnt t) (guard sv)))
          end
      end
  end.

Definition revoke_as (x : SessionId) (op : AuthOp) (d : Draw) (sv : AuthService) :
    Result unit AuthError * AuthService :=
  let '(r, s) := revoke_session x d (store sv) in
  let sv := with_store sv s in
  match r with
  | Err e => (Err (StoreError e), sv)
  | Ok _ =>
      (Ok tt, record {| ev_session := x; ev_user_id := None; ev_op := op |} (notify_revoked x sv))
  end.

Definition revoke (x : SessionId) (d : Draw) (sv : AuthService) :
    Result unit AuthError * AuthService :=
  revoke_as x SessionRevoked d sv.

Definition service_revoke_every (d : Draw) (sv : AuthService) : Result Z AuthError * AuthService :=
  let '(r, s) := revoke_every_session d (store sv) in
  (map_err StoreError r, with_store sv s).

Definition logout (token : string) (d d' : Draw) (sv : AuthService) :
    Result bool AuthError * AuthService :=
  match session_for_refresh token d (store sv) with
  | Err e => (Err (StoreError e), sv)
  | Ok None => (Ok false, sv)
  | Ok (Some x) =>
      let '(r, sv) := revoke_as x LoggedOut d' sv in
      (_ <-? r;; Ok true, sv)
  end.

(** ** The handshake authority *)

(** The text of an error, which no caller reads back. *)
Definition detail_of (e : TokenError) : string :=
  match e with TokenKey s | TokenMint s | TokenVerify s => s | TokenClock => "clock" end.

Definition authority_check_grant (grant : string) (now : Z) (d : Draw) (sv : AuthService) :
    Result (CheckedGrant SessionId Id Key) GrantRefused :=
  match check_grant (authority sv) grant now with
  | Err e => Err (Invalid (detail_of e))
  | Ok checked =>
      match subject checked with
      | Identified_ session =>
          match session_is_live (vs_session_id session) d (store sv) with
          | Err _ => Err (Invalid "auth store")
          | Ok false => Err Revoked
          | Ok true => Ok {| subject := Identified_ session; expires_at := expires_at checked |}
          end
      | Capability k => Ok {| subject := Capability k; expires_at := expires_at checked |}
      end
  end.

Definition mint_handle (s : SessionId) (now : Z) (sv : AuthService) : Result string TokenError :=
  mint_resume (authority sv) s now.

Definition read_handle (blob : string) (now : Z) (sv : AuthService) : Result SessionId TokenError :=
  verify_resume (authority sv) blob now.

(** session.rs [resume_handle]: the run a resume credential names, or a fresh one. *)
Definition resume_handle (presented : option string) (now : Z) (fresh : SessionId)
    (sv : AuthService) : SessionId :=
  match presented with
  | None => fresh
  | Some blob => match read_handle blob now sv with Ok s => s | Err _ => fresh end
  end.
End AuthService.
