(* ===== verification/AuthLife.v ===== *)
(** The life of a login: what holds of a session over any history of the
    authentication service ([AuthService]) on any store that keeps the contract
    ([AuthContract]).

    A history is a list of the service's calls, each with what it drew. A call
    that fails in the database has done nothing or all of its work, so the
    theorems cover every failure the store can report. *)

From Stdlib Require Import ZArith Lia Ascii.
From stdpp Require Import base list numbers option strings gmap fin_maps.
From S2P Require Import Prelude Throttle Guard Chain Caller Tokens AuthStore AuthContract AuthService.

Open Scope Z_scope.

Section Life.
Context {SessionId : Type} `{CS : Countable SessionId} `{ST : SessionText SessionId}.
Context {Id Key : Type} `{ID : Identity Id} `{SI : Serde Id} `{SK : Serde Key}.
Context `{SH : Sha256} `{JW : Jwt}.
Context {S : Type} `{AS : AuthStore SessionId Id S} `{LW : !Lawful SessionId Id S}.

Notation Service := (AuthService (SessionId := SessionId) (Id := Id) (S := S)).
Notation Draw := (Draw SessionId).
Notation Life := (Life Id).
Notation Book := (Book SessionId Id).
Notation Resolver := (VerifiedClaims -> Result Id ResolveError).

Inductive ServiceCall :=
| Login (i : ResolvedIdentity) (resolve : Resolver) (d : Draw) (t : Instants)
| ProviderLogin (l : VerifiedLogin) (resolve : Resolver) (d d' : Draw) (t : Instants)
| ProviderToken (x : SessionId)
    (upstream : IdentityProvider -> string -> Result RetainedProviderToken ProviderError) (d d' : Draw)
| Refresh (token : string) (d : Draw) (t : Instants)
| RevokeOne (x : SessionId) (d : Draw)
| RevokeAll (d : Draw)
| Logout (token : string) (d d' : Draw).

Definition serve (c : ServiceCall) (sv : Service) : Service :=
  match c with
  | Login i resolve d t => (login (Key := Key) i resolve d t sv).2
  | ProviderLogin l resolve d d' t => (login_with_provider (Key := Key) l resolve d d' t sv).2
  | ProviderToken x upstream d d' => (provider_access_token x upstream d d' sv).2
  | Refresh token d t => (refresh (Key := Key) token d t sv).2
  | RevokeOne x d => (revoke x d sv).2
  | RevokeAll d => (service_revoke_every d sv).2
  | Logout token d d' => (logout token d d' sv).2
  end.

Definition serve_all (cs : list ServiceCall) (sv : Service) : Service :=
  foldl (fun sv c => serve c sv) sv cs.

(** The secrets a call draws, and the session id a login draws. *)
Definition secrets (c : ServiceCall) : list string :=
  match c with
  | Login _ _ d _ | ProviderLogin _ _ d _ _ | Refresh _ d _ => [new_refresh_secret d]
  | _ => []
  end.

Definition opens (c : ServiceCall) : option SessionId :=
  match c with
  | Login _ _ d _ | ProviderLogin _ _ d _ _ => Some (new_session_id d)
  | _ => None
  end.

Definition sessions_of (sv : Service) : gmap SessionId Life := lives (book (store sv)).

(** Session ids are drawn fresh. *)
Fixpoint fresh_ids (cs : list ServiceCall) (sv : Service) : Prop :=
  match cs with
  | [] => True
  | c :: cs' =>
      match opens c with Some s => sessions_of sv !! s = None | None => True end /\
      fresh_ids cs' (serve c sv)
  end.

(** ** How a session's life goes on *)

(** Every session of the one book lives on in the other: the same owner and
    ceiling, ended once it was ended, its credential changed only to one of the
    secrets drawn, and lapsing no later than its ceiling if it did. *)
Definition later (drawn : list string) (l l' : Life) : Prop :=
  owner l' = owner l /\ ceiling l' = ceiling l /\
  (ended l = true -> ended l' = true /\ credential l' = credential l) /\
  (credential l' = credential l \/ exists x, x ∈ drawn /\ credential l' = hash_secret x) /\
  (lapses l <= ceiling l -> lapses l' <= ceiling l').

Definition goes_on (drawn : list string) (b b' : Book) : Prop :=
  terms b' = terms b /\
  forall s l, lives b !! s = Some l -> exists l', lives b' !! s = Some l' /\ later drawn l l'.

Lemma later_refl drawn l : later drawn l l.
Proof. unfold later. naive_solver. Qed.

Lemma goes_on_refl drawn b : goes_on drawn b b.
Proof. split; [done|]. eauto using later_refl. Qed.

Lemma goes_on_trans d1 d2 b1 b2 b3 :
  goes_on d1 b1 b2 -> goes_on d2 b2 b3 -> goes_on (d1 ++ d2) b1 b3.
Proof.
  intros [T1 H1] [T2 H2]. split; [congruence|]. intros s l Hl.
  destruct (H1 s l Hl) as (l1 & Hl1 & O1 & C1 & E1 & K1 & L1).
  destruct (H2 s l1 Hl1) as (l2 & Hl2 & O2 & C2 & E2 & K2 & L2).
  exists l2. split; [done|]. unfold later. split_and!; [congruence|congruence| | |auto].
  - intros He. destruct (E1 He) as [He1 Hk1]. destruct (E2 He1) as [He2 Hk2]. split; congruence.
  - destruct K2 as [->|(x & Hx & ->)]; [|right; exists x; set_solver].
    destruct K1 as [->|(x & Hx & ->)]; [by left|right; exists x; set_solver].
Qed.

Lemma goes_on_weaken d1 d2 b1 b2 : d1 ⊆ d2 -> goes_on d1 b1 b2 -> goes_on d2 b1 b2.
Proof.
  intros Hd [T H]. split; [done|]. intros s l Hl. destruct (H s l Hl) as (l' & Hl' & H').
  exists l'. split; [done|]. unfold later in *. destruct H' as (? & ? & ? & K & ?).
  split_and!; try done. destruct K as [|(x & Hx & ?)]; [by left|right; exists x; auto].
Qed.

(** One session's life changed. *)
Lemma goes_on_alter drawn b s f :
  (forall l, lives b !! s = Some l -> later drawn l (f l)) ->
  goes_on drawn b (with_lives b (alter f s (lives b))).
Proof.
  intros Hf. split; [done|]. intros s' l Hl. simpl.
  destruct (decide (s = s')) as [->|]; simplify_map_eq; eauto using later_refl.
Qed.

Lemma goes_on_insert drawn b s l l' :
  lives b !! s = Some l -> later drawn l l' -> goes_on drawn b (with_lives b (<[s := l']> (lives b))).
Proof.
  intros Hl Hf. split; [done|]. intros s' k Hk. simpl.
  destruct (decide (s = s')) as [->|]; simplify_map_eq; eauto using later_refl.
Qed.

Lemma end_life_later drawn l : later drawn l (end_life l).
Proof. unfold later. naive_solver. Qed.

(** A call that meets the contract leaves the old book or the contract's. *)
Lemma meets_goes_on {A} drawn b (spec got : Result A (AuthStoreError SessionId) * Book) :
  meets b spec got -> goes_on drawn b spec.2 -> goes_on drawn b got.2.
Proof. intros [->|(e & _ & [->| ->])]; auto using goes_on_refl. Qed.

Lemma spec_create_goes_on drawn i resolve d b :
  lives b !! new_session_id d = None -> goes_on drawn b (spec_create i resolve d b).2.
Proof.
  intros Hf. unfold spec_create. destruct (resolve _); simpl; [|apply goes_on_refl].
  split; [done|]. intros s l Hl. exists l. split; [|apply later_refl]. simpl.
  rewrite lookup_insert_ne; [done|]. intros <-. by rewrite Hf in Hl.
Qed.

Lemma spec_rotate_goes_on t d b : goes_on [new_refresh_secret d] b (spec_rotate t d b).2.
Proof.
  unfold spec_rotate. destruct (split_refresh t) as [[s secret]|]; [|apply goes_on_refl].
  destruct (lives b !! s) as [l|] eqn:Hl; [|apply goes_on_refl].
  destruct (ended l) eqn:He; [apply goes_on_refl|].
  case_decide; [apply goes_on_refl|]. case_decide; simpl.
  - eapply goes_on_insert; [done|]. unfold later. simpl. split_and!; [done|done|congruence| |lia].
    right. exists (new_refresh_secret d). set_solver.
  - eapply goes_on_insert; [done|apply end_life_later].
Qed.

Lemma spec_revoke_goes_on drawn x b : goes_on drawn b (spec_revoke x b).
Proof. apply goes_on_alter. eauto using end_life_later. Qed.

Lemma spec_revoke_every_goes_on drawn b : goes_on drawn b (spec_revoke_every b).2.
Proof.
  split; [done|]. intros s l Hl. simpl. exists (end_life l).
  rewrite lookup_fmap, Hl. split; [done|apply end_life_later].
Qed.

Lemma spec_set_retained_goes_on drawn x t now b : goes_on drawn b (spec_set_retained x t now b).
Proof.
  unfold spec_set_retained. destruct (lives b !! x); [|apply goes_on_refl].
  split; [done|]. eauto using later_refl.
Qed.

(** ** Reports leave the store alone *)

Lemma store_record (e : AuthEvent (SessionId := SessionId) (Id := Id)) (sv : Service) :
  store (record e sv) = store sv.
Proof. unfold record. by destruct (audit_hook sv). Qed.

Lemma store_notify s (sv : Service) : store (notify_revoked s sv) = store sv.
Proof. unfold notify_revoked. by destruct (revocation_hook sv). Qed.

Lemma store_charge named e t (sv : Service) : store (charge_failure named e t sv) = store sv.
Proof.
  unfold charge_failure. destruct named; [|done]. destruct (credential_failure e); [|done].
  by destruct (guard_refresh_failed _ _ _ _ _) as [[? ?] ?].
Qed.

Lemma store_replay e (sv : Service) : store (report_replay e sv) = store sv.
Proof. destruct e; simpl; try done. by rewrite store_record, store_notify. Qed.

Lemma store_finish issued t (sv : Service) : store (finish_login (Key := Key) issued t sv).2 = store sv.
Proof. unfold finish_login. by destruct (mint_access _ _ _ _). Qed.

(** ** One call, and a history *)

Lemma refresh_store token d t (sv : Service) :
  store (refresh (Key := Key) token d t sv).2 = store sv \/
  store (refresh (Key := Key) token d t sv).2 = (rotate_refresh token d (store sv)).2.
Proof.
  unfold refresh. destruct (_ ≫= _); [by left|]. right.
  destruct (rotate_refresh token d (store sv)) as [[out|e] s]; simpl.
  - by destruct (mint_access _ _ _ _).
  - by rewrite store_replay, store_charge.
Qed.

Lemma revoke_as_store x op d (sv : Service) :
  store (revoke_as x op d sv).2 = (revoke_session x d (store sv)).2.
Proof.
  unfold revoke_as. destruct (revoke_session x d (store sv)) as [[?|e] s]; simpl; [|done].
  by rewrite store_record, store_notify.
Qed.

Lemma revoke_goes_on drawn x d (s : S) :
  goes_on drawn (book s) (book (revoke_session x d s).2).
Proof.
  pose proof (meets_goes_on drawn _ _ _ (revoke_law x d s)) as H. simpl in H.
  apply H, spec_revoke_goes_on.
Qed.

Lemma retain_goes_on drawn x t d (s : S) :
  goes_on drawn (book s) (book (set_retained_provider_token x t d s).2).
Proof.
  pose proof (meets_goes_on drawn _ _ _ (set_retained_law x t d s)) as H. simpl in H.
  apply H, spec_set_retained_goes_on.
Qed.

Lemma create_goes_on drawn i resolve d (s : S) :
  lives (book s) !! new_session_id d = None ->
  goes_on drawn (book s) (book (create_session i resolve d s).2).
Proof.
  intros Hf. pose proof (meets_goes_on drawn _ _ _ (create_law i resolve d s Hf)) as H. simpl in H.
  by apply H, spec_create_goes_on.
Qed.

Lemma serve_goes_on c (sv : Service) :
  match opens c with Some s => sessions_of sv !! s = None | None => True end ->
  goes_on (secrets c) (book (store sv)) (book (store (serve c sv))).
Proof.
  intros Hf. destruct c as [i resolve d t|l resolve d d' t|x up d d'|tok d t|x d|d|tok d d']; simpl in *.
  - pose proof (create_goes_on [new_refresh_secret d] i resolve d (store sv) Hf) as H. unfold login.
    destruct (create_session _ _ _ _) as [[issued|e] s]; simpl in *; [by rewrite store_finish|done].
  - pose proof (create_goes_on [] (vl_identity l) resolve d (store sv) Hf) as H.
    unfold login_with_provider.
    destruct (create_session _ _ _ _) as [[issued|e] s]; simpl in *.
    2: { eapply goes_on_weaken; [|done]. set_solver. }
    pose proof (retain_goes_on [new_refresh_secret d] (is_session_id issued) (vl_retained l) d' s) as H'.
    pose proof (goes_on_trans _ _ _ _ _ H H') as H2.
    by destruct (set_retained_provider_token _ _ _ _) as [[?|e] s']; simpl in *;
      rewrite ?store_finish.
  - unfold provider_access_token.
    destruct (retained_provider_token _ _ _) as [[r|]|e]; simpl; try apply goes_on_refl.
    destruct (still_valid r); [apply goes_on_refl|].
    destruct (sp_refresh_token r), (registry sv); try apply goes_on_refl.
    destruct (by_issuer _ _); [|apply goes_on_refl]. destruct (up _ _); [|apply goes_on_refl].
    set (tok := Build_RetainedProviderToken _ _ _ _).
    pose proof (retain_goes_on [] x tok d' (store sv)) as H.
    by destruct (set_retained_provider_token _ _ _ _) as [[?|e] s'].
  - destruct (refresh_store tok d t sv) as [->| ->]; [apply goes_on_refl|].
    pose proof (meets_goes_on [new_refresh_secret d] _ _ _ (rotate_law tok d (store sv))) as H.
    simpl in H. apply H, spec_rotate_goes_on.
  - unfold revoke. rewrite revoke_as_store. apply revoke_goes_on.
  - unfold service_revoke_every. destruct (revoke_every_law d (store sv)) as (n & Hm & _).
    pose proof (meets_goes_on [] _ _ _ Hm) as H. simpl in H.
    destruct (revoke_every_session d (store sv)) as [r s]. apply H, spec_revoke_every_goes_on.
  - unfold logout. destruct (session_for_refresh _ _ _) as [[x|]|e]; simpl; try apply goes_on_refl.
    pose proof (revoke_as_store x LoggedOut d' sv) as Hs.
    destruct (revoke_as x LoggedOut d' sv) as [r sv']. simpl in *. rewrite Hs. apply revoke_goes_on.
Qed.

Lemma serve_all_goes_on cs (sv : Service) :
  fresh_ids cs sv -> goes_on (cs ≫= secrets) (book (store sv)) (book (store (serve_all cs sv))).
Proof.
  revert sv. induction cs as [|c cs IH]; intros sv; simpl; [intros _; apply goes_on_refl|].
  intros [Hf Hr]. eapply goes_on_trans; [by apply serve_goes_on|by apply IH].
Qed.

(** ** Refresh tokens *)

(** A renewal that was answered is the contract's. *)
Lemma refresh_Ok token d t (sv : Service) pair sv1 :
  refresh (Key := Key) token d t sv = (Ok pair, sv1) ->
  exists out, spec_rotate token d (book (store sv)) = (Ok out, book (store sv1)) /\
    refresh_token pair = ro_refresh_token out /\ pair_user_id pair = user_id (ro_context out) /\
    session_expires_at_secs pair = clamped_secs (ro_session_expires_at out).
Proof.
  unfold refresh. destruct (_ ≫= _); [done|].
  destruct (rotate_law token d (store sv)) as [E|(e & E & _)];
    destruct (rotate_refresh token d (store sv)) as [[out|e'] s]; simpl in *; try done.
  destruct (mint_access _ _ _ _); [|done]. intros [= <- <-]. exists out. by rewrite <- E.
Qed.

Lemma spec_rotate_Ok token d (b b' : Book) out :
  spec_rotate token d b = (Ok out, b') ->
  exists s secret l, split_refresh token = Some (s, secret) /\ lives b !! s = Some l /\
    ended l = false /\ clock d <= lapses l /\ hash_secret secret = credential l /\
    ro_session_id out = s /\ ro_context out = owner l /\
    ro_refresh_token out = format_refresh s (new_refresh_secret d) /\
    ro_session_expires_at out = Z.min (clock d + idle_span (terms b)) (ceiling l) /\
    b' = with_lives b (<[s := renew_life (hash_secret (new_refresh_secret d))
                               (ro_session_expires_at out) l]> (lives b)).
Proof.
  unfold spec_rotate. destruct (split_refresh token) as [[s secret]|]; [|done].
  destruct (lives b !! s) as [l|] eqn:Hl; [|done]. destruct (ended l) eqn:He; [done|].
  do 2 (case_decide; [|done] || (case_decide; [done|])). intros [= <- <-].
  exists s, secret, l. split_and!; try done. lia.
Qed.

(** With a credential that is not the session's, no renewal is answered. *)
Lemma stale_refused token s secret d t (sv : Service) :
  split_refresh token = Some (s, secret) ->
  (forall l, sessions_of sv !! s = Some l -> ended l = true \/ credential l <> hash_secret secret) ->
  forall pair, (refresh (Key := Key) token d t sv).1 <> Ok pair.
Proof.
  intros Et Hs pair E. destruct (refresh _ _ _ _) as [r sv1] eqn:Er. simpl in E. subst.
  apply refresh_Ok in Er as (out & Hr & _).
  apply spec_rotate_Ok in Hr as (s' & secret' & l & Et' & Hl & He & _ & Hc & _).
  simplify_eq. destruct (Hs l Hl) as [|]; congruence.
Qed.

Lemma record_reports e (sv : Service) :
  audited (record e sv) = audited sv ++ (if audit_hook sv then [e] else []) /\
  told (record e sv) = told sv.
Proof. unfold record. destruct (audit_hook sv); simpl; [done|]. by rewrite app_nil_r. Qed.

Lemma notify_reports s (sv : Service) :
  told (notify_revoked s sv) = told sv ++ (if revocation_hook sv then [s] else []) /\
  audited (notify_revoked s sv) = audited sv /\ audit_hook (notify_revoked s sv) = audit_hook sv.
Proof. unfold notify_revoked. destruct (revocation_hook sv); simpl; [done|]. by rewrite app_nil_r. Qed.

Lemma charge_reports named e t (sv : Service) :
  told (charge_failure named e t sv) = told sv /\ audited (charge_failure named e t sv) = audited sv /\
  revocation_hook (charge_failure named e t sv) = revocation_hook sv /\
  audit_hook (charge_failure named e t sv) = audit_hook sv.
Proof.
  unfold charge_failure. destruct named; [|done]. destruct (credential_failure e); [|done].
  by destruct (guard_refresh_failed _ _ _ _ _) as [[? ?] ?].
Qed.

(** What the service reports of a session's end. *)
Definition reports (op : AuthOp) (s : SessionId) (sv sv' : Service) : Prop :=
  told sv' = told sv ++ (if revocation_hook sv then [s] else []) /\
  audited sv' = audited sv ++ (if audit_hook sv then
    [{| ev_session := s; ev_user_id := None; ev_op := op |}] else []).

Lemma end_reported op s (sv : Service) :
  reports op s sv (record {| ev_session := s; ev_user_id := None; ev_op := op |} (notify_revoked s sv)).
Proof.
  destruct (record_reports {| ev_session := s; ev_user_id := None; ev_op := op |} (notify_revoked s sv))
    as [Ha Ht]. destruct (notify_reports s sv) as (Hn & Hna & Hh).
  unfold reports. by rewrite Ha, Ht, Hn, Hna, Hh.
Qed.

(** The guard's answer for the session a token names. *)
Definition held (token : string) (t : Instants) (sv : Service) : option Z :=
  (fst <$> split_refresh token) ≫= fun s => guard_refresh_blocked s (blocked1 t) (blocked2 t) (guard sv).

(** The answer of a refresh the guard let through, from what the store said. *)
Definition refresh_answer token t (sv : Service) (r : Result (RefreshOutcome SessionId Id) (AuthStoreError SessionId)) s' :=
  match r with
  | Err e => (Err (StoreError e),
      report_replay e (charge_failure (fst <$> split_refresh token) e t (with_store sv s')))
  | Ok out =>
      match mint_access (Key := Key) (authority sv) (ro_context out) (ro_session_id out) (wall t) with
      | Err e => (Err (TokenFault e), with_store sv s')
      | Ok access =>
          (Ok {| access_token := access; refresh_token := ro_refresh_token out;
                 expires_in_secs := as_secs (access_ttl (authority sv));
                 pair_user_id := user_id (ro_context out);
                 session_expires_at_secs := clamped_secs (ro_session_expires_at out) |},
           with_guard (with_store sv s')
             (learn_owner (ro_session_id out) (user_id (ro_context out)) (learnt t) (guard sv)))
      end
  end.

(** A refresh is held by the guard, or a step of the store fails in it, or the
    answer is the contract's. *)
Lemma refresh_cases token d t (sv : Service) :
  (exists w, held token t sv = Some w /\ refresh (Key := Key) token d t sv = (Err (RateLimited w), sv)) \/
  (exists e, fates d <> all_done /\ (refresh (Key := Key) token d t sv).1 = Err (StoreError (Backend e))) \/
  exists r s', spec_rotate token d (book (store sv)) = (r, book s') /\
    refresh (Key := Key) token d t sv = refresh_answer token t sv r s'.
Proof.
  unfold refresh, held. destruct (_ ≫= _) as [w|]; [left; by exists w|]. right.
  pose proof (rotate_clean token d (store sv)) as Hc.
  destruct (rotate_law token d (store sv)) as [E|(e & E & _)];
    destruct (rotate_refresh token d (store sv)) as [r s']; simpl in *.
  - right. exists r, s'. by rewrite <- E.
  - subst r. left. exists e. split; [|done]. intros Hf. specialize (Hc Hf). revert Hc.
    unfold spec_rotate. destruct (split_refresh token) as [[s secret]|]; [|done].
    destruct (_ !! s) as [l|]; [|done]. destruct (ended l); [done|]. by repeat case_decide.
Qed.

(** C14. A refresh token renews a session once. Presented again after any history of
    the service, whatever failed in it, it is refused. While the session is still
    good the presentation ends it, tells the observer and leaves the audit row of
    a replay, with two exceptions: the guard already holds the session's renewals
    (nothing changes then), or a step of the store fails in this presentation,
    which is answered as such. The later secrets are assumed not to hash to the
    used one's hash, and the later logins to draw unused session ids. *)
Theorem used_token_ends_session token s secret d t (sv : Service) pair sv1 cs d' t' :
  split_refresh token = Some (s, secret) ->
  refresh (Key := Key) token d t sv = (Ok pair, sv1) -> fresh_ids cs sv1 ->
  Forall (fun x => hash_secret x <> hash_secret secret) (new_refresh_secret d :: (cs ≫= secrets)) ->
  let sv2 := serve_all cs sv1 in
  let out := refresh (Key := Key) token d' t' sv2 in
  (forall p, out.1 <> Ok p) /\
  forall l, sessions_of sv2 !! s = Some l -> ended l = false -> clock d' <= lapses l ->
    (out.1 = Err (StoreError (Reuse s)) /\
     sessions_of out.2 !! s = Some (end_life l) /\ reports TokenReplayed s sv2 out.2) \/
    (exists w, held token t' sv2 = Some w /\ out = (Err (RateLimited w), sv2)) \/
    (exists e, fates d' <> all_done /\ out.1 = Err (StoreError (Backend e))).
Proof.
  intros Et E1 Hf [Hd Hcs]%Forall_cons sv2 out.
  apply refresh_Ok in E1 as (o & Hr & _).
  apply spec_rotate_Ok in Hr as (s' & secret' & l0 & Et' & Hl0 & _ & _ & _ & _ & _ & _ & _ & Hb).
  rewrite Et in Et'. injection Et' as <- <-.
  assert (Hl1 : lives (book (store sv1)) !! s = Some (renew_life (hash_secret (new_refresh_secret d))
    (ro_session_expires_at o) l0)) by (rewrite Hb; simpl; by simplify_map_eq).
  destruct (serve_all_goes_on cs sv1 Hf) as [_ Hgo]. fold sv2 in Hgo.
  destruct (Hgo _ _ Hl1) as (l2 & Hl2 & _ & _ & _ & Hk & _).
  assert (Hne : credential l2 <> hash_secret secret).
  { destruct Hk as [->|(x & Hx & ->)]; [done|]. rewrite Forall_forall in Hcs. by apply Hcs. }
  split.
  - subst out. eapply stale_refused; [done|]. intros l Hl. unfold sessions_of in Hl.
    rewrite Hl2 in Hl. simplify_eq. by right.
  - intros l Hl He Hn. unfold sessions_of in Hl. rewrite Hl2 in Hl. simplify_eq.
    destruct (refresh_cases token d' t' sv2) as [Hw|[Hb'|(r & s3 & Hsp & Er)]];
      [by right; left|by right; right|left].
    unfold spec_rotate in Hsp. rewrite Et, Hl2, He in Hsp.
    rewrite decide_False in Hsp by lia. rewrite decide_False in Hsp by done.
    injection Hsp as <- Hbk. subst out. rewrite Er. simpl.
    split_and!; [done| |].
    + unfold sessions_of. rewrite store_record, store_notify, store_charge. simpl.
      rewrite <- Hbk. simpl. by simplify_map_eq.
    + destruct (charge_reports (fst <$> split_refresh token) (Reuse s) t' (with_store sv2 s3))
        as (H1 & H2 & H3 & H4).
      pose proof (end_reported TokenReplayed s (charge_failure (fst <$> split_refresh token) (Reuse s) t'
        (with_store sv2 s3))) as H. unfold reports in *. by rewrite H1, H2, H3, H4 in H.
Qed.

(** ** Revocation *)

Lemma live_refused s l d (sv : Service) :
  sessions_of sv !! s = Some l -> ended l = true ->
  session_is_live s d (store sv) = Ok false \/ exists e, session_is_live s d (store sv) = Err (Backend e).
Proof.
  intros Hl He. destruct (live_law s d (store sv)) as [H|H]; [|by right]. left. rewrite H.
  unfold spec_live, sessions_of in *. by rewrite Hl, He.
Qed.

(** C29. A session that was ended stays ended: after any history of the service no
    grant that names it passes the handshake, however valid its signature, no
    token of it renews, and none logs it out a second time. *)
Theorem ended_for_good s l (sv : Service) cs :
  sessions_of sv !! s = Some l -> ended l = true -> fresh_ids cs sv ->
  let sv' := serve_all cs sv in
  (forall grant now d g login, check_grant (SessionId := SessionId) (Id := Id) (Key := Key) (authority sv') grant now = Ok g ->
     subject g = Identified_ login -> vs_session_id login = s ->
     authority_check_grant (Key := Key) grant now d sv' = Err Revoked \/
     authority_check_grant (Key := Key) grant now d sv' = Err (Invalid "auth store")) /\
  (forall token secret d t pair, split_refresh token = Some (s, secret) ->
     (refresh (Key := Key) token d t sv').1 <> Ok pair) /\
  (forall token secret d d', split_refresh token = Some (s, secret) ->
     (logout token d d' sv').1 <> Ok true).
Proof.
  intros Hl He Hf sv'. destruct (serve_all_goes_on cs sv Hf) as [_ Hgo].
  destruct (Hgo _ _ Hl) as (l' & Hl' & _ & _ & He' & _). destruct (He' He) as [Hend _].
  fold sv' in Hl'. split_and!.
  - intros grant now d g login Hg Hs <-. unfold authority_check_grant. rewrite Hg, Hs.
    destruct (live_refused _ l' d sv' Hl' Hend) as [->|[e ->]]; auto.
  - intros token secret d t pair Et. eapply stale_refused; [done|]. unfold sessions_of.
    intros k Hk. rewrite Hl' in Hk. simplify_eq. by left.
  - intros token secret d d' Et. unfold logout.
    destruct (for_refresh_law token d (store sv')) as [->|[e ->]]; [|done].
    unfold spec_for_refresh. rewrite Et. simpl. rewrite Hl'. simpl. by rewrite Hend.
Qed.

(** ** Lifetimes *)

Lemma login_Ok i resolve d t (sv : Service) pair sv1 :
  sessions_of sv !! new_session_id d = None ->
  login (Key := Key) i resolve d t sv = (Ok pair, sv1) ->
  exists issued, spec_create i resolve d (book (store sv)) = (Ok issued, book (store sv1)) /\
    refresh_token pair = is_refresh_token issued /\ pair_user_id pair = user_id (is_context issued) /\
    session_expires_at_secs pair = clamped_secs (is_session_expires_at issued).
Proof.
  intros Hf. unfold login.
  destruct (create_law i resolve d (store sv) Hf) as [E|(e & E & _)];
    destruct (create_session i resolve d (store sv)) as [[issued|e'] s]; simpl in *; try done.
  unfold finish_login. destruct (mint_access _ _ _ _); [|done]. intros [= <- <-].
  exists issued. by rewrite <- E.
Qed.

Lemma clamped_mono a b : a <= b -> clamped_secs a <= clamped_secs b.
Proof. intros H. unfold clamped_secs, as_secs. apply Z.div_le_mono; [done|lia]. Qed.

(** However often it is renewed, a session ends: no renewal is answered past the
    ceiling set at its login, none reports an end past it or past the idle window
    that follows the renewal, and every one carries the user who logged in. *)
Theorem session_lifetime_bounded i resolve d t (sv : Service) pair sv1 cs token secret d' t' pair' sv2 :
  sessions_of sv !! new_session_id d = None ->
  login (Key := Key) i resolve d t sv = (Ok pair, sv1) -> fresh_ids cs sv1 ->
  split_refresh token = Some (new_session_id d, secret) ->
  refresh (Key := Key) token d' t' (serve_all cs sv1) = (Ok pair', sv2) ->
  let tm := terms (book (store sv)) in
  pair_user_id pair' = pair_user_id pair /\
  clock d' <= clock d + ceiling_span tm /\
  session_expires_at_secs pair' <=
    clamped_secs (Z.min (clock d + ceiling_span tm) (clock d' + idle_span tm)).
Proof.
  intros Hnew E1 Hf Et E2 tm. apply login_Ok in E1 as (issued & Hc & _ & Hu & _); [|done].
  unfold spec_create in Hc. destruct (resolve _) as [user|]; [|done]. injection Hc as Hi Hb.
  assert (Ht1 : terms (book (store sv1)) = tm) by by rewrite <- Hb.
  set (l1 := Build_Life _ _ _ _ _) in Hb.
  assert (Hl1 : lives (book (store sv1)) !! new_session_id d = Some l1)
    by (rewrite <- Hb; simpl; by simplify_map_eq).
  destruct (serve_all_goes_on cs sv1 Hf) as [Ht2 Hgo].
  destruct (Hgo _ _ Hl1) as (l2 & Hl2 & Ho & Hceil & _ & _ & Hlap).
  apply refresh_Ok in E2 as (out & Hr & _ & Hu' & Hx).
  apply spec_rotate_Ok in Hr as (s' & x & l & Et' & Hl & _ & Hn & _ & _ & Ho' & _ & Hex & _).
  rewrite Et in Et'. injection Et' as <- <-. rewrite Hl2 in Hl. injection Hl as <-.
  rewrite Ht2, Ht1 in Hex. rewrite Hceil in Hex.
  assert (Hle : lapses l2 <= ceiling l2) by (apply Hlap; subst l1; simpl; lia).
  rewrite Hceil in Hle. subst l1 tm. simpl in *. split_and!.
  - rewrite Hu', Ho', Ho, Hu, <- Hi. done.
  - lia.
  - rewrite Hx, Hex. apply clamped_mono. lia.
Qed.

(** ** The token in hand *)

Lemma split_format s secret : split_refresh (format_refresh s secret) = Some (s, secret).
Proof.
  unfold split_refresh, format_refresh. simpl.
  rewrite (split_once_app "." (session_text s) secret) by apply session_text_plain. simpl.
  by rewrite session_parse_text.
Qed.

(** The calls that do not concern a session. *)
Definition leaves_alone (s : SessionId) (c : ServiceCall) : Prop :=
  match c with
  | Refresh tok _ _ | Logout tok _ _ => fst <$> split_refresh tok <> Some s
  | RevokeOne x _ => x <> s
  | RevokeAll _ => False
  | _ => True
  end.

Lemma meets_leaves {A} s (b : Book) (spec got : Result A (AuthStoreError SessionId) * Book) :
  meets b spec got -> lives spec.2 !! s = lives b !! s -> lives got.2 !! s = lives b !! s.
Proof. by intros [->|(e & _ & [->| ->])]. Qed.

Lemma create_leaves s i resolve d (st : S) l :
  lives (book st) !! new_session_id d = None -> lives (book st) !! s = Some l ->
  lives (book (create_session i resolve d st).2) !! s = Some l.
Proof.
  intros Hf Hl. rewrite <- Hl. apply (meets_leaves s _ _ _ (create_law i resolve d st Hf)).
  unfold spec_create. destruct (resolve _); simpl; [|done]. rewrite lookup_insert_ne; congruence.
Qed.

Lemma retain_leaves s x t d (st : S) :
  lives (book (set_retained_provider_token x t d st).2) !! s = lives (book st) !! s.
Proof.
  apply (meets_leaves s _ _ _ (set_retained_law x t d st)). simpl. unfold spec_set_retained.
  by destruct (lives (book st) !! x).
Qed.

Lemma rotate_leaves s tok d (st : S) :
  fst <$> split_refresh tok <> Some s ->
  lives (book (rotate_refresh tok d st).2) !! s = lives (book st) !! s.
Proof.
  intros Hs. apply (meets_leaves s _ _ _ (rotate_law tok d st)). unfold spec_rotate.
  destruct (split_refresh tok) as [[x secret]|]; [|done].
  assert (x <> s) by (intros ->; by destruct Hs).
  repeat case_match; simpl; rewrite ?lookup_insert_ne; done.
Qed.

Lemma revoke_leaves s x d (st : S) :
  x <> s -> lives (book (revoke_session x d st).2) !! s = lives (book st) !! s.
Proof.
  intros Hs. apply (meets_leaves s _ _ _ (revoke_law x d st)). simpl.
  by rewrite lookup_alter_ne.
Qed.

Lemma serve_leaves s c (sv : Service) l :
  match opens c with Some s => sessions_of sv !! s = None | None => True end ->
  leaves_alone s c -> sessions_of sv !! s = Some l -> sessions_of (serve c sv) !! s = Some l.
Proof.
  unfold sessions_of. intros Hf Ha Hl.
  destruct c as [i resolve d t|k resolve d d' t|x up d d'|tok d t|x d|d|tok d d']; simpl in *.
  - pose proof (create_leaves s i resolve d (store sv) l Hf Hl) as H. unfold login.
    destruct (create_session _ _ _ _) as [[issued|e] st]; simpl in *; [by rewrite store_finish|done].
  - pose proof (create_leaves s (vl_identity k) resolve d (store sv) l Hf Hl) as H.
    unfold login_with_provider. destruct (create_session _ _ _ _) as [[issued|e] st]; simpl in *; [|done].
    pose proof (retain_leaves s (is_session_id issued) (vl_retained k) d' st) as H'.
    destruct (set_retained_provider_token _ _ _ _) as [[?|e] st']; simpl in *;
      rewrite ?store_finish; simpl; congruence.
  - unfold provider_access_token.
    destruct (retained_provider_token _ _ _) as [[r|]|e]; simpl; try done.
    destruct (still_valid r); [done|]. destruct (sp_refresh_token r), (registry sv); try done.
    destruct (by_issuer _ _); [|done]. destruct (up _ _); [|done].
    set (tok := Build_RetainedProviderToken _ _ _ _).
    pose proof (retain_leaves s x tok d' (store sv)) as H.
    destruct (set_retained_provider_token _ _ _ _) as [[?|e] st']; simpl in *; congruence.
  - destruct (refresh_store tok d t sv) as [->| ->]; [done|]. by rewrite rotate_leaves.
  - unfold revoke. rewrite revoke_as_store. by rewrite revoke_leaves.
  - done.
  - unfold logout. destruct (for_refresh_law tok d (store sv)) as [E|[e E]]; rewrite E; [|done].
    unfold spec_for_refresh. destruct (split_refresh tok) as [[x secret]|]; [|done]. simpl.
    assert (x <> s) by (intros ->; by destruct Ha).
    destruct (lives _ !! x) as [k|]; [|done]. simpl. destruct (ended k); [done|].
    case_decide; [|done]. pose proof (revoke_as_store x LoggedOut d' sv) as Hs.
    destruct (revoke_as x LoggedOut d' sv) as [r sv']. simpl in *. by rewrite Hs, revoke_leaves.
Qed.

Lemma serve_all_leaves s cs (sv : Service) l :
  fresh_ids cs sv -> Forall (leaves_alone s) cs -> sessions_of sv !! s = Some l ->
  sessions_of (serve_all cs sv) !! s = Some l.
Proof.
  revert sv. induction cs as [|c cs IH]; intros sv; simpl; [done|].
  intros [Hf Hr] [Hc Hcs]%Forall_cons Hl. by apply IH, serve_leaves.
Qed.

(** C33. The token a renewal hands out is the one that works: whatever other sessions
    do meanwhile, presented by the reported deadline it renews the session for the
    same user, unless the guard holds the session's renewals, a step of the store
    fails in this presentation or signing fails. Meanwhile nothing presents,
    revokes or logs out this session, and no one ends every session. *)
Theorem latest_token_renews token d t (sv : Service) pair sv1 s cs d' t' :
  fst <$> split_refresh token = Some s ->
  refresh (Key := Key) token d t sv = (Ok pair, sv1) ->
  fresh_ids cs sv1 -> Forall (leaves_alone s) cs ->
  clamped_secs (clock d') < session_expires_at_secs pair ->
  let sv2 := serve_all cs sv1 in
  let out := (refresh (Key := Key) (refresh_token pair) d' t' sv2).1 in
  (exists pair', out = Ok pair' /\ pair_user_id pair' = pair_user_id pair /\
     refresh_token pair' = format_refresh s (new_refresh_secret d')) \/
  (exists w, held (refresh_token pair) t' sv2 = Some w /\ out = Err (RateLimited w)) \/
  (exists e, fates d' <> all_done /\ out = Err (StoreError (Backend e))) \/
  exists e, out = Err (TokenFault e).
Proof.
  intros Hs E1 Hf Hcs Hn sv2 out. apply refresh_Ok in E1 as (o & Hr & Htok & Hu & Hx).
  apply spec_rotate_Ok in Hr as (s' & secret & l0 & Et & Hl0 & He & _ & _ & _ & Ho & Hnt & _ & Hb).
  rewrite Et in Hs. injection Hs as ->.
  set (l1 := renew_life _ _ _) in Hb.
  assert (Hl1 : sessions_of sv1 !! s = Some l1)
    by (unfold sessions_of; rewrite Hb; simpl; by simplify_map_eq).
  apply (serve_all_leaves s cs) in Hl1; [|done..]. fold sv2 in Hl1.
  assert (Hlt : clock d' <= lapses l1).
  { rewrite Hx in Hn. apply Z.lt_le_incl, Z.lt_nge. intros Hge.
    apply clamped_mono in Hge. subst l1. simpl in Hge. lia. }
  subst out. rewrite Htok, Hnt.
  destruct (refresh_cases (format_refresh s (new_refresh_secret d)) d' t' sv2)
    as [(w & Hw & ->)|[Hbk|(r & s3 & Hsp & ->)]];
    [right; left; by exists w|by right; right; left|].
  unfold spec_rotate in Hsp. rewrite split_format in Hsp. unfold sessions_of in Hl1.
  rewrite Hl1 in Hsp. simpl in Hsp. rewrite He in Hsp. simpl in Hlt.
  rewrite decide_False in Hsp by lia. rewrite decide_True in Hsp by done.
  injection Hsp as <- Hbk. simpl.
  destruct (mint_access _ _ _ _); [left; eexists; split_and!; [done| |done]|do 3 right; by eexists].
  simpl. by rewrite Hu, Ho.
Qed.

(** ** Reports *)

Definition error_of {A E} (r : Result A E) : option E :=
  match r with Ok _ => None | Err e => Some e end.

(** The error a call answers. *)
Definition failure (c : ServiceCall) (sv : Service) : option (AuthError (SessionId := SessionId)) :=
  match c with
  | Login i resolve d t => error_of (login (Key := Key) i resolve d t sv).1
  | ProviderLogin l resolve d d' t => error_of (login_with_provider (Key := Key) l resolve d d' t sv).1
  | ProviderToken x upstream d d' => error_of (provider_access_token x upstream d d' sv).1
  | Refresh token d t => error_of (refresh (Key := Key) token d t sv).1
  | RevokeOne x d => error_of (revoke x d sv).1
  | RevokeAll d => error_of (service_revoke_every d sv).1
  | Logout token d d' => error_of (logout token d d' sv).1
  end.

(** The session a call reports the end of, and why. *)
Definition over (c : ServiceCall) (s : SessionId) : option AuthOp :=
  match c with
  | Refresh tok _ _ => if decide (fst <$> split_refresh tok = Some s) then Some TokenReplayed else None
  | RevokeOne x _ => if decide (x = s) then Some SessionRevoked else None
  | Logout tok _ _ => if decide (fst <$> split_refresh tok = Some s) then Some LoggedOut else None
  | _ => None
  end.

(** The sessions that were good are good. *)
Definition none_ended (m m' : gmap SessionId Life) : Prop :=
  forall s l, m !! s = Some l -> ended l = false -> exists l', m' !! s = Some l' /\ ended l' = false.

Lemma none_ended_refl m : none_ended m m.
Proof. intros s l. eauto. Qed.

Lemma none_ended_insert m s l l' :
  m !! s = Some l -> ended l' = false -> none_ended m (<[s := l']> m).
Proof.
  intros Hl He x k Hx Hk. destruct (decide (s = x)) as [->|]; simplify_map_eq; eauto.
Qed.

(** What a call reports of a session's end, and that it reports nothing else. *)
Definition ends (op : AuthOp) (s : SessionId) (sv sv' : Service) : Prop :=
  reports op s sv sv' /\ (forall l, sessions_of sv' !! s = Some l -> ended l = true) /\
  forall x, x <> s -> sessions_of sv' !! x = sessions_of sv !! x.

Definition quiet (sv sv' : Service) : Prop := told sv' = told sv /\ audited sv' = audited sv.

Lemma revoke_as_reports x op d (sv : Service) :
  match (revoke_as x op d sv).1 with
  | Ok _ => ends op x sv (revoke_as x op d sv).2
  | Err e => (exists e', e = StoreError (Backend e')) /\ quiet sv (revoke_as x op d sv).2
  end.
Proof.
  unfold revoke_as. destruct (revoke_law x d (store sv)) as [E|(e & E & _)];
    destruct (revoke_session x d (store sv)) as [r s]; simpl in *; unfold id in E.
  - apply pair_equal_spec in E as [-> E]. simpl.
    split_and!; [apply (end_reported op x (with_store sv s))|..]; unfold sessions_of;
      rewrite store_record, store_notify; simpl; rewrite E; simpl.
    + intros l. rewrite lookup_alter_eq, fmap_Some. by intros (k & _ & ->).
    + intros y Hy. by rewrite lookup_alter_ne.
  - subst r. split; [by exists e|done].
Qed.

Lemma spec_rotate_ends token d (b : Book) :
  match (spec_rotate token d b).1 with
  | Err (Reuse s) => exists l, lives b !! s = Some l /\
      (spec_rotate token d b).2 = with_lives b (<[s := end_life l]> (lives b))
  | _ => none_ended (lives b) (lives (spec_rotate token d b).2)
  end.
Proof.
  unfold spec_rotate. destruct (split_refresh token) as [[s secret]|]; [|apply none_ended_refl].
  destruct (lives b !! s) as [l|] eqn:Hl; [|apply none_ended_refl].
  destruct (ended l) eqn:He; [apply none_ended_refl|].
  case_decide; [apply none_ended_refl|]. case_decide; simpl; [|by eauto].
  by eapply none_ended_insert.
Qed.

(** A refresh ends a session exactly when it answers a replay, and then reports
    it; a backend error reports nothing. *)
Lemma refresh_reports token d t (sv : Service) :
  match (refresh (Key := Key) token d t sv).1 with
  | Err (StoreError (Reuse s)) => ends TokenReplayed s sv (refresh (Key := Key) token d t sv).2
  | Err (StoreError (Backend _)) => quiet sv (refresh (Key := Key) token d t sv).2
  | _ => quiet sv (refresh (Key := Key) token d t sv).2 /\
      none_ended (sessions_of sv) (sessions_of (refresh (Key := Key) token d t sv).2)
  end.
Proof.
  unfold refresh. destruct (_ ≫= _) as [w|]; [split; [done|apply none_ended_refl]|].
  pose proof (spec_rotate_ends token d (book (store sv))) as Hs.
  pose proof (rotate_law token d (store sv)) as Hm.
  destruct (rotate_refresh token d (store sv)) as [r st]. simpl in Hm. unfold id in Hm.
  set (named := fst <$> split_refresh token).
  assert (Hq : forall e, quiet sv (charge_failure named e t (with_store sv st))).
  { intros e. destruct (charge_reports named e t (with_store sv st)) as (H1 & H2 & _).
    by split. }
  assert (Hst : forall e, sessions_of (charge_failure named e t (with_store sv st)) = lives (book st))
    by (intros e; unfold sessions_of; by rewrite store_charge).
  destruct Hm as [E|(e & E & _)]; simpl in *; [|subst r; apply Hq].
  rewrite <- E in Hs. simpl in Hs. destruct r as [out|[| |s|e|e]]; simpl.
  - destruct (mint_access _ _ _ _); simpl; (split; [done|]); unfold sessions_of; by simpl.
  - split; [apply Hq|]. by rewrite Hst.
  - split; [apply Hq|]. by rewrite Hst.
  - destruct Hs as (l & Hl & Hb).
    destruct (charge_reports named (Reuse s) t (with_store sv st)) as (H1 & H2 & H3 & H4).
    pose proof (end_reported TokenReplayed s (charge_failure named (Reuse s) t (with_store sv st))) as H.
    split_and!; [unfold reports in *; by rewrite H1, H2, H3, H4 in H|..]; unfold sessions_of;
      rewrite store_record, store_notify, store_charge; simpl; rewrite Hb; simpl.
    + intros k Hk. by simplify_map_eq.
    + intros x Hx. by rewrite lookup_insert_ne.
  - split; [apply Hq|]. by rewrite Hst.
  - apply Hq.
Qed.

(** A replay names the session its token names. *)
Lemma refresh_names token d t (sv : Service) :
  match (refresh (Key := Key) token d t sv).1 with
  | Err (StoreError (Reuse s)) => fst <$> split_refresh token = Some s
  | _ => True
  end.
Proof.
  unfold refresh. destruct (_ ≫= _) as [w|]; [done|].
  pose proof (rotate_law token d (store sv)) as Hm.
  destruct (rotate_refresh token d (store sv)) as [r st]. simpl in Hm. unfold id in Hm.
  destruct Hm as [E|(e & E & _)]; simpl in *; [|by subst r].
  destruct r as [out|[| |s|e|e]]; simpl; try done; [by destruct (mint_access _ _ _ _)|].
  unfold spec_rotate in E. destruct (split_refresh token) as [[x secret]|]; [|done].
  by repeat case_match; simplify_eq/=.
Qed.

Lemma none_ended_alone c (sv : Service) :
  match opens c with Some s => sessions_of sv !! s = None | None => True end ->
  (forall s, leaves_alone s c) -> none_ended (sessions_of sv) (sessions_of (serve c sv)).
Proof. intros Hf Ha s l Hl He. exists l. split; [by apply serve_leaves|done]. Qed.

Lemma finish_quiet issued t (sv : Service) : quiet sv (finish_login (Key := Key) issued t sv).2.
Proof. unfold finish_login. by destruct (mint_access _ _ _ _). Qed.

Lemma login_quiet c (sv : Service) :
  match c with Login _ _ _ _ | ProviderLogin _ _ _ _ _ | ProviderToken _ _ _ _ => True | _ => False end ->
  quiet sv (serve c sv).
Proof.
  destruct c as [i resolve d t|l resolve d d' t|x up d d'|tok d t|x d|d|tok d d']; try done; intros _; simpl.
  - unfold login. destruct (create_session _ _ _ _) as [[issued|e] s]; [|done].
    apply (finish_quiet issued t (with_store sv s)).
  - unfold login_with_provider. destruct (create_session _ _ _ _) as [[issued|e] s]; [|done]. simpl.
    destruct (set_retained_provider_token _ _ _ _) as [[?|e] s']; [|done].
    apply (finish_quiet issued t (with_store (with_store sv s) s')).
  - unfold provider_access_token. repeat case_match; done.
Qed.

Lemma logout_reports token d d' (sv : Service) :
  (exists s, fst <$> split_refresh token = Some s /\ ends LoggedOut s sv (logout token d d' sv).2) \/
  quiet sv (logout token d d' sv).2 /\
  (sessions_of (logout token d d' sv).2 = sessions_of sv \/
   exists e, (logout token d d' sv).1 = Err (StoreError (Backend e))).
Proof.
  unfold logout. destruct (for_refresh_law token d (store sv)) as [->|[e ->]];
    [|right; split; [done|right; by exists e]].
  unfold spec_for_refresh. destruct (split_refresh token) as [[x secret]|]; [|right; split; [done|by left]]. simpl.
  destruct (lives _ !! x) as [l|]; simpl; [|right; split; [done|by left]].
  destruct (ended l); [right; split; [done|by left]|]. case_decide; [|right; split; [done|by left]].
  pose proof (revoke_as_reports x LoggedOut d' sv) as Hr.
  destruct (revoke_as x LoggedOut d' sv) as [[[]|err] sv']; simpl in *.
  - left. by exists x.
  - destruct Hr as [[e ->] Hq]. right. split; [done|]. right. by exists e.
Qed.

(** Every session a call ends is reported, once and with its cause, to the
    observer that closes its connection and to the audit sink, and nothing else
    is: a call ends one session and reports it, or it reports nothing and then
    has ended none, unless it answered a backend error. Revoking every session is
    the one call that ends sessions and reports none. *)
Theorem ends_reported c (sv : Service) :
  match opens c with Some s => sessions_of sv !! s = None | None => True end ->
  (forall d, c <> RevokeAll d) ->
  (exists s op, over c s = Some op /\ ends op s sv (serve c sv)) \/
  quiet sv (serve c sv) /\
  (none_ended (sessions_of sv) (sessions_of (serve c sv)) \/
   exists e, failure c sv = Some (StoreError (Backend e))).
Proof.
  intros Hf Hall.
  destruct c as [i resolve d t|l resolve d d' t|x up d d'|tok d t|x d|d|tok d d'].
  1-3: right; split; [by apply login_quiet|left; by apply none_ended_alone].
  - pose proof (refresh_reports tok d t sv) as H. pose proof (refresh_names tok d t sv) as Hn. simpl.
    destruct (refresh tok d t sv) as [[p|[[| |s|e|e]|e|e|w]] sv']; simpl in *;
      try (right; destruct H as [Hq He]; split; [done|by left]).
    + left. exists s, TokenReplayed. by rewrite decide_True.
    + right. split; [done|]. right. by exists e.
  - pose proof (revoke_as_reports x SessionRevoked d sv) as H. simpl. unfold revoke.
    destruct (revoke_as x SessionRevoked d sv) as [[[]|err] sv']; simpl in *.
    + left. exists x, SessionRevoked. by rewrite decide_True.
    + right. destruct H as [[e ->] Hq]. split; [done|]. right. by exists e.
  - by destruct (Hall d).
  - destruct (logout_reports tok d d' sv) as [(s & Hs & He)|[Hq [He|[e He]]]]; simpl.
    + left. exists s, LoggedOut. by rewrite decide_True.
    + right. split; [done|]. left. rewrite He. apply none_ended_refl.
    + right. split; [done|]. right. exists e. by rewrite He.
Qed.
End Life.
