(* ===== verification/AuthAgree.v ===== *)
(** The two login stores are interchangeable: over any history in which the
    database carries out its statements, the authentication service answers and
    reports the same on either. *)

From Stdlib Require Import ZArith Lia Ascii.
From stdpp Require Import base list numbers option strings gmap fin_maps.
From S2P Require Import Prelude Throttle Guard Chain Caller Tokens AuthStore AuthContract AuthService AuthLife.

Open Scope Z_scope.

Section Agree.
Context {SessionId : Type} `{CS : Countable SessionId} `{ST : SessionText SessionId}.
Context {Id Key : Type} `{ID : Identity Id} `{SI : Serde Id} `{SK : Serde Key}.
Context `{SH : Sha256} `{JW : Jwt}.

Notation Book := (Book SessionId Id).
Notation Call := (ServiceCall (SessionId := SessionId) (Id := Id)).
Notation Pair := (TokenPair (Id := Id)).
Notation Error := (AuthError (SessionId := SessionId)).

Inductive Reply :=
| RPair (r : Result Pair Error)
| RToken (r : Result (option string) Error)
| RUnit (r : Result unit Error)
| RCount (r : Result Z Error)
| RBool (r : Result bool Error).

Definition reply {S} `{AuthStore SessionId Id S} (c : Call)
    (sv : AuthService (SessionId := SessionId) (Id := Id) (S := S)) : Reply :=
  match c with
  | Login i resolve d t => RPair (login (Key := Key) i resolve d t sv).1
  | ProviderLogin l resolve d d' t => RPair (login_with_provider (Key := Key) l resolve d d' t sv).1
  | ProviderToken x upstream d d' => RToken (provider_access_token x upstream d d' sv).1
  | Refresh token d t => RPair (refresh (Key := Key) token d t sv).1
  | RevokeOne x d => RUnit (revoke x d sv).1
  | RevokeAll d => RCount (service_revoke_every d sv).1
  | Logout token d d' => RBool (logout token d d' sv).1
  end.

Fixpoint replies {S} `{AuthStore SessionId Id S} (cs : list Call)
    (sv : AuthService (SessionId := SessionId) (Id := Id) (S := S)) : list Reply :=
  match cs with
  | [] => []
  | c :: cs' => reply c sv :: replies cs' (serve (Key := Key) c sv)
  end.

(** Every statement of the call is carried out. *)
Definition carried_out (c : Call) : Prop :=
  match c with
  | Login _ _ d _ | Refresh _ d _ | RevokeOne _ d | RevokeAll d => fates d = all_done
  | ProviderLogin _ _ d d' _ | ProviderToken _ _ d d' | Logout _ d d' =>
      fates d = all_done /\ fates d' = all_done
  end.

(** A whole number of seconds, below the 285 years a double counts exactly in
    microseconds. *)
Definition whole_secs (span : Z) : Prop := span mod SECOND = 0 /\ 0 <= span < 2 ^ 53 * 1000.

(** A provider's token lifetime is a whole number of seconds. *)
Definition whole_lifetime (t : RetainedProviderToken) : Prop :=
  forall l, rp_expires_in t = Some l -> whole_secs l.

Definition whole_lifetimes (c : Call) : Prop :=
  match c with
  | ProviderLogin l _ _ _ _ => whole_lifetime (vl_retained l)
  | ProviderToken _ upstream _ _ => forall p r t, upstream p r = Ok t -> whole_lifetime t
  | _ => True
  end.

(** Books with the same sessions and provider tokens, counted with equal spans;
    a provider token belongs to a session. *)
Record same_book (b b' : Book) : Prop := {
  same_lives : lives b = lives b';
  same_kept : kept b = kept b';
  same_idle : idle_span (terms b) = idle_span (terms b');
  same_ceiling : ceiling_span (terms b) = ceiling_span (terms b');
  same_margin : margin (terms b) = margin (terms b');
  same_lifetime : forall l, whole_secs l -> lifetime (terms b) l = lifetime (terms b') l;
  kept_known : forall s, is_Some (kept b !! s) -> is_Some (lives b !! s);
}.

Lemma same_with_lives b b' l :
  same_book b b' -> (forall s, is_Some (lives b !! s) -> is_Some (l !! s)) ->
  same_book (with_lives b l) (with_lives b' l).
Proof. intros [] Hl. constructor; simpl; auto. Qed.

Lemma same_create i resolve d b b' :
  same_book b b' -> (spec_create i resolve d b).1 = (spec_create i resolve d b').1 /\
  same_book (spec_create i resolve d b).2 (spec_create i resolve d b').2.
Proof.
  intros H. destruct H eqn:E. clear E. unfold spec_create. destruct (resolve _); [|done]. simpl.
  rewrite same_idle0, same_ceiling0, same_lives0. split; [done|]. apply same_with_lives; [done|].
  intros s Hs. rewrite <- same_lives0. destruct (decide (new_session_id d = s)) as [->|];
    simplify_map_eq; eauto.
Qed.

Lemma same_rotate t d b b' :
  same_book b b' -> (spec_rotate t d b).1 = (spec_rotate t d b').1 /\
  same_book (spec_rotate t d b).2 (spec_rotate t d b').2.
Proof.
  intros H. destruct H eqn:E. clear E. unfold spec_rotate. rewrite same_idle0, same_lives0.
  destruct (split_refresh t) as [[s secret]|]; [|done].
  destruct (lives b' !! s) as [l|] eqn:Hl; [|done]. destruct (ended l); [done|].
  case_decide; [done|]. case_decide; (split; [done|]); apply same_with_lives; try done;
    intros x Hx; rewrite same_lives0 in Hx; destruct (decide (s = x)) as [->|]; simplify_map_eq; eauto.
Qed.

Lemma same_revoke x b b' : same_book b b' -> same_book (spec_revoke x b) (spec_revoke x b').
Proof.
  intros H. unfold spec_revoke. rewrite <- (same_lives _ _ H). apply same_with_lives; [done|].
  intros s Hs. destruct (decide (x = s)) as [->|]; simplify_map_eq; [|done].
  by apply fmap_is_Some.
Qed.

Lemma same_revoke_every b b' :
  same_book b b' -> (spec_revoke_every b).1 = (spec_revoke_every b').1 /\
  same_book (spec_revoke_every b).2 (spec_revoke_every b').2.
Proof.
  intros H. unfold spec_revoke_every. rewrite <- (same_lives _ _ H). split; [done|].
  apply same_with_lives; [done|]. intros s Hs. rewrite lookup_fmap. by apply fmap_is_Some.
Qed.

Lemma same_for_refresh t b b' : same_book b b' -> spec_for_refresh t b = spec_for_refresh t b'.
Proof. intros H. unfold spec_for_refresh. by rewrite (same_lives _ _ H). Qed.

Lemma same_retained s now b b' : same_book b b' -> spec_retained s now b = spec_retained s now b'.
Proof. intros H. unfold spec_retained. by rewrite (same_kept _ _ H), (same_margin _ _ H). Qed.

Lemma same_set_retained x t now b b' :
  whole_lifetime t -> same_book b b' -> same_book (spec_set_retained x t now b) (spec_set_retained x t now b').
Proof.
  intros Hw H. destruct H eqn:E. clear E. unfold spec_set_retained. rewrite same_lives0.
  destruct (lives b' !! x) as [l|] eqn:Hl; [|done]. constructor; simpl; try done.
  - rewrite same_kept0. do 2 f_equal. destruct (rp_expires_in t) eqn:El; simpl; [|done].
    by rewrite same_lifetime0 by eauto.
  - intros s Hs. destruct (decide (x = s)) as [->|]; [by rewrite Hl|].
    rewrite lookup_insert_ne in Hs by done. rewrite <- same_lives0. auto.
Qed.

Section Services.
Context {S1 S2 : Type} `{A1 : AuthStore SessionId Id S1} `{A2 : AuthStore SessionId Id S2}.
Context `{L1 : !Lawful SessionId Id S1} `{L2 : !Lawful SessionId Id S2}.

Notation Sv1 := (AuthService (SessionId := SessionId) (Id := Id) (S := S1)).
Notation Sv2 := (AuthService (SessionId := SessionId) (Id := Id) (S := S2)).

(** Services that differ in their store alone, on the same book. *)
Record alike (sv1 : Sv1) (sv2 : Sv2) : Prop := {
  al_authority : authority sv1 = authority sv2;
  al_registry : registry sv1 = registry sv2;
  al_revocation : revocation_hook sv1 = revocation_hook sv2;
  al_audit : audit_hook sv1 = audit_hook sv2;
  al_guard : guard sv1 = guard sv2;
  al_told : told sv1 = told sv2;
  al_audited : audited sv1 = audited sv2;
  al_crossings : crossings sv1 = crossings sv2;
  al_book : same_book (book (store sv1)) (book (store sv2));
}.

Lemma alike_store sv1 sv2 s1 s2 :
  alike sv1 sv2 -> same_book (book s1) (book s2) -> alike (with_store sv1 s1) (with_store sv2 s2).
Proof. intros [] H. constructor; simpl; done. Qed.

Lemma alike_guard sv1 sv2 g : alike sv1 sv2 -> alike (with_guard sv1 g) (with_guard sv2 g).
Proof. intros []. constructor; simpl; done. Qed.

Lemma alike_crossing sv1 sv2 x : alike sv1 sv2 -> alike (with_crossing sv1 x) (with_crossing sv2 x).
Proof. intros []. constructor; simpl; try done. by rewrite al_crossings0. Qed.

Lemma alike_record sv1 sv2 e : alike sv1 sv2 -> alike (record e sv1) (record e sv2).
Proof.
  intros H. pose proof H as []. unfold record. rewrite al_audit0.
  destruct (audit_hook sv2); [|done]. constructor; simpl; try done. by rewrite al_audited0.
Qed.

Lemma alike_notify sv1 sv2 s : alike sv1 sv2 -> alike (notify_revoked s sv1) (notify_revoked s sv2).
Proof.
  intros H. pose proof H as []. unfold notify_revoked. rewrite al_revocation0.
  destruct (revocation_hook sv2); [|done]. constructor; simpl; try done. by rewrite al_told0.
Qed.

Lemma alike_charge sv1 sv2 named e t :
  alike sv1 sv2 -> alike (charge_failure named e t sv1) (charge_failure named e t sv2).
Proof.
  intros H. unfold charge_failure. destruct named; [|done]. destruct (credential_failure e); [|done].
  rewrite (al_guard _ _ H). destruct (guard_refresh_failed _ _ _ _ _) as [[? ?] ?].
  by apply alike_crossing, alike_guard.
Qed.

Lemma alike_replay sv1 sv2 e : alike sv1 sv2 -> alike (report_replay e sv1) (report_replay e sv2).
Proof. intros H. destruct e; simpl; try done. by apply alike_record, alike_notify. Qed.

Lemma alike_finish issued t sv1 sv2 :
  alike sv1 sv2 ->
  (finish_login (Key := Key) issued t sv1).1 = (finish_login (Key := Key) issued t sv2).1 /\
  alike (finish_login (Key := Key) issued t sv1).2 (finish_login (Key := Key) issued t sv2).2.
Proof.
  intros H. unfold finish_login. rewrite (al_authority _ _ H).
  destruct (mint_access _ _ _ _); [|done]. simpl. split; [done|].
  rewrite (al_guard _ _ H). by apply alike_guard.
Qed.

(** Two calls answered by their contracts on the same book. *)
Lemma exact_pair {A} (r1 r2 : Result A (AuthStoreError SessionId)) (s1 : S1) (s2 : S2)
    (p1 p2 : Result A (AuthStoreError SessionId) * Book) :
  prod_map id book (r1, s1) = p1 -> prod_map id book (r2, s2) = p2 -> p1.1 = p2.1 ->
  same_book p1.2 p2.2 -> r1 = r2 /\ same_book (book s1) (book s2).
Proof. by intros <- <-. Qed.

Lemma alike_create i resolve d sv1 sv2 :
  alike sv1 sv2 -> fates d = all_done -> sessions_of sv1 !! new_session_id d = None ->
  exists r s1 s2, create_session i resolve d (store sv1) = (r, s1) /\
    create_session i resolve d (store sv2) = (r, s2) /\ alike (with_store sv1 s1) (with_store sv2 s2) /\
    forall issued, r = Ok issued -> is_Some (lives (book s1) !! is_session_id issued) /\
                             is_Some (lives (book s2) !! is_session_id issued).
Proof.
  intros H Hc Hf. destruct (same_create i resolve d _ _ (al_book _ _ H)) as [Ha Hb].
  pose proof (create_clean i resolve d (store sv1) Hc Hf) as E1.
  assert (Hf2 : lives (book (store sv2)) !! new_session_id d = None)
    by (rewrite <- (same_lives _ _ (al_book _ _ H)); done).
  pose proof (create_clean i resolve d (store sv2) Hc Hf2) as E2.
  destruct (create_session i resolve d (store sv1)) as [r1 s1],
    (create_session i resolve d (store sv2)) as [r2 s2].
  destruct (exact_pair _ _ _ _ _ _ E1 E2 Ha Hb) as [-> Hs].
  exists r2, s1, s2. split_and!; [done..|by apply alike_store|].
  intros issued ->. rewrite <- (same_lives _ _ Hs). simpl in E1. unfold spec_create in E1.
  destruct (resolve _); [|done]. injection E1 as -> ->. simpl. by simplify_map_eq.
Qed.

Lemma alike_retain x t d sv1 sv2 :
  whole_lifetime t -> alike sv1 sv2 -> fates d = all_done -> is_Some (sessions_of sv1 !! x) ->
  exists s1 s2, set_retained_provider_token x t d (store sv1) = (Ok tt, s1) /\
    set_retained_provider_token x t d (store sv2) = (Ok tt, s2) /\
    alike (with_store sv1 s1) (with_store sv2 s2).
Proof.
  intros Hw H Hc Hs.
  pose proof (set_retained_clean x t d (store sv1) Hc Hs) as E1.
  assert (Hs2 : is_Some (lives (book (store sv2)) !! x))
    by (by rewrite <- (same_lives _ _ (al_book _ _ H))).
  pose proof (set_retained_clean x t d (store sv2) Hc Hs2) as E2.
  destruct (set_retained_provider_token x t d (store sv1)) as [r1 s1],
    (set_retained_provider_token x t d (store sv2)) as [r2 s2].
  simpl in *. unfold id in *. injection E1 as -> E1. injection E2 as -> E2.
  exists s1, s2. split_and!; [done..|]. apply alike_store; [done|]. rewrite E1, E2.
  by apply same_set_retained, H.
Qed.

Lemma alike_revoke_as x op d sv1 sv2 :
  alike sv1 sv2 -> fates d = all_done ->
  (revoke_as x op d sv1).1 = (revoke_as x op d sv2).1 /\
  alike (revoke_as x op d sv1).2 (revoke_as x op d sv2).2.
Proof.
  intros H Hc. unfold revoke_as. pose proof (revoke_clean x d (store sv1) Hc) as E1.
  pose proof (revoke_clean x d (store sv2) Hc) as E2.
  destruct (revoke_session x d (store sv1)) as [r1 s1], (revoke_session x d (store sv2)) as [r2 s2].
  simpl in *. unfold id in *. injection E1 as -> E1. injection E2 as -> E2. simpl. split; [done|].
  apply alike_record, alike_notify, alike_store; [done|]. rewrite E1, E2. apply same_revoke, H.
Qed.

Lemma alike_refresh token d t sv1 sv2 :
  alike sv1 sv2 -> fates d = all_done ->
  (refresh (Key := Key) token d t sv1).1 = (refresh (Key := Key) token d t sv2).1 /\
  alike (refresh (Key := Key) token d t sv1).2 (refresh (Key := Key) token d t sv2).2.
Proof.
  intros H Hc. unfold refresh. rewrite (al_guard _ _ H). destruct (_ ≫= _); [done|].
  destruct (same_rotate token d _ _ (al_book _ _ H)) as [Ha Hb].
  pose proof (rotate_clean token d (store sv1) Hc) as E1.
  pose proof (rotate_clean token d (store sv2) Hc) as E2.
  destruct (rotate_refresh token d (store sv1)) as [r1 s1],
    (rotate_refresh token d (store sv2)) as [r2 s2].
  destruct (exact_pair _ _ _ _ _ _ E1 E2 Ha Hb) as [-> Hs].
  pose proof (alike_store _ _ _ _ H Hs) as H'. destruct r2 as [out|e]; simpl.
  - rewrite (al_authority _ _ H). destruct (mint_access _ _ _ _); simpl; [|done].
    split; [done|]. rewrite (al_guard _ _ H). by apply alike_guard.
  - split; [done|]. by apply alike_replay, alike_charge.
Qed.

Lemma alike_provider_login l resolve d d' t sv1 sv2 :
  whole_lifetime (vl_retained l) -> alike sv1 sv2 -> fates d = all_done -> fates d' = all_done ->
  sessions_of sv1 !! new_session_id d = None ->
  let out1 := login_with_provider (Key := Key) l resolve d d' t sv1 in
  let out2 := login_with_provider (Key := Key) l resolve d d' t sv2 in
  out1.1 = out2.1 /\ alike out1.2 out2.2.
Proof.
  intros Hw H Hc Hc' Hf out1 out2. subst out1 out2. unfold login_with_provider.
  destruct (alike_create (vl_identity l) resolve d sv1 sv2 H Hc Hf)
    as (r & s1 & s2 & -> & -> & H' & Hr).
  destruct r as [issued|e]; simpl; [|done]. destruct (Hr issued eq_refl) as [Hs _].
  destruct (alike_retain (is_session_id issued) (vl_retained l) d' _ _ Hw H' Hc' Hs)
    as (u1 & u2 & E1 & E2 & H''). simpl in E1, E2. rewrite E1, E2.
  apply (alike_finish issued t _ _ H'').
Qed.

Lemma alike_provider_token x upstream d d' sv1 sv2 :
  (forall p r t, upstream p r = Ok t -> whole_lifetime t) -> alike sv1 sv2 -> fates d = all_done -> fates d' = all_done ->
  (provider_access_token x upstream d d' sv1).1 = (provider_access_token x upstream d d' sv2).1 /\
  alike (provider_access_token x upstream d d' sv1).2 (provider_access_token x upstream d d' sv2).2.
Proof.
  intros Hw H Hc Hc'. unfold provider_access_token. rewrite !retained_clean by done.
  rewrite <- (same_retained x (clock d) _ _ (al_book _ _ H)), <- (al_registry _ _ H).
  destruct (spec_retained x (clock d) (book (store sv1))) as [r|] eqn:Er; [|done].
  destruct (still_valid r); [done|]. destruct (sp_refresh_token r), (registry sv1); try done.
  destruct (by_issuer _ _); [|done]. destruct (upstream _ _) as [got|] eqn:Eu; [|done].
  set (tok := Build_RetainedProviderToken _ _ _ _).
  assert (Hs : is_Some (sessions_of sv1 !! x)).
  { apply (kept_known _ _ (al_book _ _ H)). unfold spec_retained in Er.
    apply fmap_Some in Er as (k & Hk & _). by exists k. }
  destruct (alike_retain x tok d' _ _ (Hw _ _ _ Eu) H Hc' Hs) as (u1 & u2 & -> & -> & H'). done.
Qed.

Lemma alike_logout token d d' sv1 sv2 :
  alike sv1 sv2 -> fates d = all_done -> fates d' = all_done ->
  (logout token d d' sv1).1 = (logout token d d' sv2).1 /\
  alike (logout token d d' sv1).2 (logout token d d' sv2).2.
Proof.
  intros H Hc Hc'. unfold logout. rewrite !for_refresh_clean by done.
  rewrite <- (same_for_refresh token _ _ (al_book _ _ H)).
  destruct (spec_for_refresh _ _) as [x|]; [|done].
  destruct (alike_revoke_as x LoggedOut d' sv1 sv2 H Hc') as [Er H'].
  destruct (revoke_as x LoggedOut d' sv1), (revoke_as x LoggedOut d' sv2). simpl in *. by subst.
Qed.

Definition countable_sessions (c : Call) (sv : Sv1) : Prop :=
  match c with RevokeAll _ => (spec_revoke_every (book (store sv))).1 <= u64_max | _ => True end.

Lemma serve_alike c sv1 sv2 :
  alike sv1 sv2 -> carried_out c -> whole_lifetimes c -> countable_sessions c sv1 ->
  match opens c with Some s => sessions_of sv1 !! s = None | None => True end ->
  reply c sv1 = reply c sv2 /\ alike (serve (Key := Key) c sv1) (serve (Key := Key) c sv2).
Proof.
  intros H Hc Hw Hn Hf.
  destruct c as [i resolve d t|l resolve d d' t|x up d d'|tok d t|x d|d|tok d d']; simpl in *.
  - unfold login. destruct (alike_create i resolve d sv1 sv2 H Hc Hf) as (r & s1 & s2 & -> & -> & H' & _).
    destruct r as [issued|e]; simpl; [|done].
    destruct (alike_finish issued t _ _ H') as [-> ?]. done.
  - destruct (alike_provider_login l resolve d d' t sv1 sv2 Hw H (proj1 Hc) (proj2 Hc) Hf) as [-> ?]. done.
  - destruct (alike_provider_token x up d d' sv1 sv2 Hw H (proj1 Hc) (proj2 Hc)) as [-> ?]. done.
  - destruct (alike_refresh tok d t sv1 sv2 H Hc) as [-> ?]. done.
  - destruct (alike_revoke_as x SessionRevoked d sv1 sv2 H Hc) as [E ?]. unfold revoke. by rewrite E.
  - destruct (same_revoke_every _ _ (al_book _ _ H)) as [Ha Hb]. unfold service_revoke_every.
    pose proof (revoke_every_clean d (store sv1) Hc Hn) as E1.
    assert (Hn2 : (spec_revoke_every (book (store sv2))).1 <= u64_max) by by rewrite <- Ha.
    pose proof (revoke_every_clean d (store sv2) Hc Hn2) as E2.
    destruct (revoke_every_session d (store sv1)) as [r1 s1], (revoke_every_session d (store sv2)) as [r2 s2].
    cbn [prod_map fst snd] in E1, E2. unfold id in *. apply pair_equal_spec in E1 as [-> E1], E2 as [-> E2].
    rewrite Ha. split; [done|]. apply alike_store; [done|]. by rewrite E1, E2.
  - destruct (alike_logout tok d d' sv1 sv2 H (proj1 Hc) (proj2 Hc)) as [-> ?]. done.
Qed.

(** A history the contract answers throughout. *)
Fixpoint answered (cs : list Call) (sv : Sv1) : Prop :=
  match cs with
  | [] => True
  | c :: cs' => carried_out c /\ countable_sessions c sv /\ answered cs' (serve (Key := Key) c sv)
  end.

Lemma replies_alike cs sv1 sv2 :
  alike sv1 sv2 -> answered cs sv1 -> Forall whole_lifetimes cs -> fresh_ids (Key := Key) cs sv1 ->
  replies cs sv1 = replies cs sv2 /\
  alike (serve_all (Key := Key) cs sv1) (serve_all (Key := Key) cs sv2).
Proof.
  revert sv1 sv2. induction cs as [|c cs IH]; intros sv1 sv2 H; [done|].
  intros (Hc & Hn & Ha) [Hw Hws]%Forall_cons [Hf Hfs]. destruct (serve_alike c sv1 sv2 H Hc Hw Hn Hf) as [Er H'].
  simpl. destruct (IH _ _ H' Ha Hws Hfs) as [Es H'']. by rewrite Er, Es.
Qed.
End Services.

(** C28. The store in memory and the store in Postgres serve the same logins: started
    empty with the same configuration and given the same calls, with the same
    secrets drawn at the same instants, the service answers every history the
    database carries out alike on both, and reports the same ends to its
    observers. The windows and the provider tokens' lifetimes are whole seconds,
    which Postgres adds exactly (a finer span is rounded to its microseconds);
    logins draw unused session ids, and the sessions ended at once can be
    counted. *)
Theorem stores_agree `{PG : Postgres} cs (sv1 : AuthService (S := InMemoryAuthStore SessionId Id))
    (sv2 : AuthService (S := DbAuthStore SessionId Id)) :
  (forall span, whole_secs span -> interval span = span) ->
  whole_secs (idle_window (db_lifetimes (store sv2))) ->
  whole_secs (absolute_ceiling (db_lifetimes (store sv2))) -> Forall whole_lifetimes cs ->
  sessions (store sv1) = ∅ -> db (store sv2) = {| connetto_sessions := ∅; connetto_provider_tokens := ∅ |} ->
  lifetimes (store sv1) = db_lifetimes (store sv2) ->
  authority sv1 = authority sv2 -> registry sv1 = registry sv2 -> guard sv1 = guard sv2 ->
  revocation_hook sv1 = revocation_hook sv2 -> audit_hook sv1 = audit_hook sv2 ->
  told sv1 = told sv2 -> audited sv1 = audited sv2 -> crossings sv1 = crossings sv2 ->
  answered cs sv1 -> fresh_ids (Key := Key) cs sv1 ->
  replies cs sv1 = replies cs sv2 /\
  told (serve_all (Key := Key) cs sv1) = told (serve_all (Key := Key) cs sv2) /\
  audited (serve_all (Key := Key) cs sv1) = audited (serve_all (Key := Key) cs sv2).
Proof.
  intros Hi Hw1 Hw2 Hws Hs Hd Hl ? ? ? ? ? ? ? ? Ha Hf.
  assert (Hal : alike sv1 sv2).
  { constructor; try done. simpl. unfold mem_book, db_book, tables_book. rewrite Hs, Hd, Hl.
    constructor; simpl; rewrite ?Hi, ?omap_empty, ?fmap_empty by done; try done.
    { intros l Hw. by rewrite Hi. }
    intros s. rewrite lookup_empty. by intros []. }
  destruct (replies_alike cs sv1 sv2 Hal Ha Hws Hf) as [Hr []]. done.
Qed.
End Agree.
