(* ===== verification/Percent.v ===== *)
(** Percent-encoding of query values: connetto-core/src/percent.rs. A string is
    its bytes; the decoder is modelled up to the bytes it collects, which
    [String::from_utf8_lossy] leaves as they are when they are UTF-8. With it, the
    client's reader of a callback's query (connetto-client/src/auth.rs). *)

From Stdlib Require Import ZArith Lia Ascii.
From stdpp Require Import base list numbers option strings.
From S2P Require Import Prelude Caller.

Open Scope N_scope.

Definition byte_in (lo c hi : ascii) : bool :=
  (N_of_ascii lo <=? N_of_ascii c) && (N_of_ascii c <=? N_of_ascii hi).

(** [A-Z a-z 0-9 - _ . ~]. *)
Definition unreserved (c : ascii) : bool :=
  byte_in "A" c "Z" || byte_in "a" c "z" || byte_in "0" c "9" ||
  Ascii.eqb c "-" || Ascii.eqb c "_" || Ascii.eqb c "." || Ascii.eqb c "~".

Definition hex_digit (n : N) : ascii :=
  ascii_of_N (if n <? 10 then 48 + n else 55 + n).

(** [char::to_digit(16)]. *)
Definition to_digit16 (c : ascii) : option N :=
  let n := N_of_ascii c in
  if byte_in "0" c "9" then Some (n - 48)
  else if byte_in "A" c "F" then Some (n - 55)
  else if byte_in "a" c "f" then Some (n - 87)
  else None.

Fixpoint percent_encode (value : string) : string :=
  match value with
  | EmptyString => EmptyString
  | String c rest =>
      if unreserved c then String c (percent_encode rest)
      else String "%" (String (hex_digit (N_of_ascii c / 16))
             (String (hex_digit (N_of_ascii c mod 16)) (percent_encode rest)))
  end.

Fixpoint percent_decode (value : string) : string :=
  match value with
  | EmptyString => EmptyString
  | String c rest =>
      if Ascii.eqb c "%" then
        match rest with
        | String hi (String lo rest') =>
            match to_digit16 hi, to_digit16 lo with
            | Some h, Some l => String (ascii_of_N (h * 16 + l)) (percent_decode rest')
            | _, _ => String "%" (percent_decode rest')
            end
        | _ => String "%" EmptyString
        end
      else String c (percent_decode rest)
  end.

(** A statement about every character, settled by trying the 256. *)
Definition all_chars (p : ascii -> bool) : bool :=
  forallb (fun n => p (ascii_of_nat n)) (seq 0 256).

Lemma all_chars_spec p c : all_chars p = true -> p c = true.
Proof.
  unfold all_chars. rewrite forallb_forall. intros H.
  rewrite <- (ascii_nat_embedding c). apply H, in_seq. pose proof (nat_ascii_bounded c). lia.
Qed.

(** Decoding undoes encoding, byte for byte. *)
Lemma percent_roundtrip s : percent_decode (percent_encode s) = s.
Proof.
  induction s as [|c s IH]; [done|]. simpl. destruct (unreserved c) eqn:Eu.
  - assert (Hc : (implb (unreserved c) (negb (Ascii.eqb c "%"))) = true)
      by (apply (all_chars_spec (fun c => implb (unreserved c) (negb (Ascii.eqb c "%")))); by vm_compute).
    rewrite Eu in Hc. simpl in Hc. simpl. apply negb_true_iff in Hc as ->. by rewrite IH.
  - simpl. set (h := hex_digit (N_of_ascii c / 16)). set (l := hex_digit (N_of_ascii c mod 16)).
    assert (Hc : match to_digit16 h, to_digit16 l with
                 | Some a, Some b => Ascii.eqb (ascii_of_N (a * 16 + b)) c | _, _ => false end = true).
    { apply (all_chars_spec (fun c => match to_digit16 (hex_digit (N_of_ascii c / 16)),
        to_digit16 (hex_digit (N_of_ascii c mod 16)) with
        | Some a, Some b => Ascii.eqb (ascii_of_N (a * 16 + b)) c | _, _ => false end)). by vm_compute. }
    destruct (to_digit16 h), (to_digit16 l); try done. apply Ascii.eqb_eq in Hc as ->. by rewrite IH.
Qed.

(** An encoded value holds no character that a query is split at. *)
Lemma percent_encode_plain c s :
  unreserved c = false -> Ascii.eqb c "%" = false -> to_digit16 c = None ->
  has_char c (percent_encode s) = false.
Proof.
  intros Hu Hp Hd. induction s as [|x s IH]; [done|]. simpl. destruct (unreserved x) eqn:Ex; simpl.
  - rewrite IH, orb_false_r. apply Ascii.eqb_neq. intros ->. congruence.
  - rewrite Hp, IH, !orb_false_r. simpl.
    assert (Hh : forall n, (n < 16)%N -> Ascii.eqb c (hex_digit n) = false).
    { intros n Hn. apply Ascii.eqb_neq. intros ->.
      assert (Hall : forallb (fun n => match to_digit16 (hex_digit (N.of_nat n)) with
        | Some _ => true | None => false end) (seq 0 16) = true) by by vm_compute.
      rewrite forallb_forall in Hall. specialize (Hall (N.to_nat n)).
      rewrite N2Nat.id, Hd in Hall. assert (false = true) by (apply Hall, in_seq; lia). done. }
    rewrite !Hh; [done| |].
    + by apply N.mod_lt.
    + apply N.Div0.div_lt_upper_bound. pose proof (N_ascii_bounded x). lia.
Qed.

(** ** The client's reader *)

(** [str::split] at a character. *)
Fixpoint split_char (c : ascii) (s : string) : list string :=
  match s with
  | EmptyString => [EmptyString]
  | String d s' =>
      if Ascii.eqb c d then EmptyString :: split_char c s'
      else match split_char c s' with
        | x :: rest => String d x :: rest
        | [] => [String d EmptyString]
        end
  end.

(** [str::strip_prefix]. *)
Fixpoint strip_prefix (prefix s : string) : option string :=
  match prefix, s with
  | EmptyString, _ => Some s
  | String a p, String b s' => if Ascii.eqb a b then strip_prefix p s' else None
  | String _ _, EmptyString => None
  end.

Definition query_of (url : string) : string :=
  match split_once "?" url with None => "" | Some (_, query) => query end.

Definition read_piece (found : option string * option string) (piece : string) :
    option string * option string :=
  match strip_prefix "code=" piece with
  | Some value => (Some (percent_decode value), found.2)
  | None =>
      match strip_prefix "state=" piece with
      | Some value => (found.1, Some (percent_decode value))
      | None => found
      end
  end.

Definition code_and_state (query : string) (what : string) : Result (string * string) string :=
  let '(code, state) := foldl read_piece (None, None) (split_char "&" query) in
  code <-? ok_or code ("the " +:+ what +:+ " had no code")%string;;
  state <-? ok_or state ("the " +:+ what +:+ " had no state")%string;;
  Ok (code, state).

Lemma split_char_ne c s : split_char c s <> [].
Proof. destruct s; simpl; [done|]. case_match; [done|]. by destruct (split_char c s). Qed.

Lemma split_char_app c a b : split_char c (a +:+ String c b) = split_char c a ++ split_char c b.
Proof.
  induction a as [|d a IH]; simpl; [by rewrite Ascii.eqb_refl|].
  destruct (Ascii.eqb c d); [by rewrite IH|]. rewrite IH.
  pose proof (split_char_ne c a). by destruct (split_char c a).
Qed.

Lemma split_char_plain c s : has_char c s = false -> split_char c s = [s].
Proof.
  induction s as [|d s IH]; simpl; [done|]. intros [Hd H]%orb_false_elim. by rewrite Hd, IH.
Qed.

Lemma string_app_assoc (a b c : string) : (a +:+ b) +:+ c = a +:+ b +:+ c.
Proof.
  induction a as [|x a IH]; [done|].
  change ((String x a +:+ b) +:+ c) with (String x ((a +:+ b) +:+ c)).
  change (String x a +:+ b +:+ c) with (String x (a +:+ b +:+ c)). by rewrite IH.
Qed.

Lemma strip_prefix_app p s : strip_prefix p (p +:+ s) = Some s.
Proof. induction p as [|c p IH]; simpl; [done|]. by rewrite Ascii.eqb_refl, IH. Qed.

Lemma read_code found code :
  read_piece found ("code=" +:+ percent_encode code) = (Some code, found.2).
Proof. unfold read_piece. by rewrite strip_prefix_app, percent_roundtrip. Qed.

Lemma read_state found st :
  read_piece found ("state=" +:+ percent_encode st) = (found.1, Some st).
Proof.
  unfold read_piece. replace (strip_prefix "code=" _) with (@None string) by done.
  by rewrite strip_prefix_app, percent_roundtrip.
Qed.

(** Pieces that end in an encoded code and state read as them, whatever comes
    before. *)
Lemma pieces_read_back before code st what :
  (let '(c, s) := foldl read_piece (None, None)
     (before ++ ["code=" +:+ percent_encode code; "state=" +:+ percent_encode st]) in
   code <-? ok_or c ("the " +:+ what +:+ " had no code")%string;;
   state <-? ok_or s ("the " +:+ what +:+ " had no state")%string;;
   Ok (code, state)) = Ok (code, st).
Proof.
  rewrite foldl_app. destruct (foldl _ _ before) as [c s]. cbn [foldl].
  by rewrite read_code, read_state.
Qed.

(** The query the server's redirect ends in. *)
Lemma query_pieces code st :
  split_char "&" ("code=" +:+ percent_encode code +:+ "&state=" +:+ percent_encode st) =
  ["code=" +:+ percent_encode code; "state=" +:+ percent_encode st].
Proof.
  assert (Hp : forall s, has_char "&" (percent_encode s) = false)
    by (intros s; by apply percent_encode_plain).
  change ("code=" +:+ percent_encode code +:+ "&state=" +:+ percent_encode st)
    with ("code=" +:+ percent_encode code +:+ String "&" ("state=" +:+ percent_encode st)).
  rewrite <- string_app_assoc, split_char_app.
  rewrite !split_char_plain; [done|..]; simpl; apply Hp.
Qed.
