(* ===== verification/AuthHttp.v ===== *)
(** The login endpoints: connetto-server/src/authn/http.rs and the tables of
    in-flight logins and one-time codes of provider.rs.

    A handler is a function of the endpoints' state and of what it draws: the
    clocks, the identity provider's answers and the random strings. The URL
    parser, base64 and JSON text are those of the crates the source calls. *)

From Stdlib Require Import ZArith Lia Ascii.
From stdpp Require Import base list numbers option strings gmap fin_maps.
From S2P Require Import Prelude Throttle Guard Chain Caller Tokens AuthStore AuthContract AuthService AuthLife Percent.

Open Scope Z_scope.

(** ** Bounded, time-limited tables: provider.rs *)

Definition PENDING_LOGIN_TTL : Z := 600 * SECOND.
Definition AUTH_CODE_TTL : Z := 60 * SECOND.

Definition is_expired (created_at now ttl : Z) : bool := bool_decide (ttl < since now created_at).

(** [Iterator::min_by_key] over the entries in the map's order: the first of the
    least. *)
Fixpoint min_by_key {V} (created_at : V -> Z) (m : gmap string V) (order : list string) :
    option string :=
  match order with
  | [] => None
  | k :: order' =>
      match m !! k with
      | None => min_by_key created_at m order'
      | Some v =>
          match min_by_key created_at m order' with
          | Some k' =>
              match m !! k' with
              | Some v' => if decide (created_at v' < created_at v) then Some k' else Some k
              | None => Some k
              end
          | None => Some k
          end
      end
  end.

Definition evict_if_full {V} (created_at : V -> Z) (order : list string) (cap : nat) (now ttl : Z)
    (m : gmap string V) : gmap string V :=
  if decide (size m < cap)%nat then m
  else
    let m := filter (fun p => is_expired (created_at p.2) now ttl = false) m in
    if decide (cap <= size m)%nat then
      match min_by_key created_at m order with Some k => delete k m | None => m end
    else m.

Record PendingLogin := {
  pl_provider : string; pl_pkce_verifier : string; pl_nonce : string;
  client_redirect : option string; client_code_challenge : option string;
  client_state : option string;
}.

Record PendingEntry := { pe_login : PendingLogin; pe_created_at : Z }.

Record PendingLogins := { pending_inner : gmap string PendingEntry; pending_cap : nat; pending_ttl : Z }.

Definition default_pending : PendingLogins :=
  {| pending_inner := ∅; pending_cap := 4096; pending_ttl := PENDING_LOGIN_TTL |}.

Definition pending_insert (st : string) (p : PendingLogin) (now : Z) (order : list string)
    (t : PendingLogins) : PendingLogins :=
  let m := pending_inner t in
  let m := match m !! st with
    | None => evict_if_full pe_created_at order (pending_cap t) now (pending_ttl t) m
    | Some _ => m
    end in
  {| pending_inner := <[st := {| pe_login := p; pe_created_at := now |}]> m;
     pending_cap := pending_cap t; pending_ttl := pending_ttl t |}.

Definition pending_take (st : string) (now : Z) (t : PendingLogins) :
    option PendingLogin * PendingLogins :=
  match pending_inner t !! st with
  | None => (None, t)
  | Some e =>
      (if is_expired (pe_created_at e) now (pending_ttl t) then None else Some (pe_login e),
       {| pending_inner := delete st (pending_inner t); pending_cap := pending_cap t;
          pending_ttl := pending_ttl t |})
  end.

(** ** Redirects *)

Inductive Host := Ipv4 (a b c d : Z) | Ipv6 (segments : list Z) | Domain (host : string).
Record Url := { scheme : string; host : option Host }.

Definition to_ascii_lowercase (c : ascii) : ascii :=
  if byte_in "A" c "Z" then ascii_of_N (N_of_ascii c + 32) else c.

Fixpoint eq_ignore_ascii_case (a b : string) : bool :=
  match a, b with
  | EmptyString, EmptyString => true
  | String x a', String y b' =>
      Ascii.eqb (to_ascii_lowercase x) (to_ascii_lowercase y) && eq_ignore_ascii_case a' b'
  | _, _ => false
  end.

(** A [127.0.0.0/8] address, [::1], or the name itself. *)
Definition is_loopback_host (u : Url) : bool :=
  match host u with
  | Some (Ipv4 a _ _ _) => bool_decide (a = 127)
  | Some (Ipv6 segments) => bool_decide (segments = [0; 0; 0; 0; 0; 0; 0; 1])
  | Some (Domain h) => eq_ignore_ascii_case h "localhost"
  | None => false
  end.

(** The crates the handlers call: [url], [base64] and [serde_json]. *)
Class Texts (Id : Type) := {
  parse_url : string -> option Url;
  base64url : bytes -> string;
  json_text : Id -> option bytes;
}.

Record RedirectPolicy := { allowlist : list string }.

(** ** Requests and responses *)

Inductive CookieSameSite := Strict | SameSiteNone.

Definition parse_same_site (value : string) : option CookieSameSite :=
  if decide (value = "strict") then Some Strict
  else if decide (value = "none") then Some SameSiteNone else None.

Definition CLIENT_KIND_HEADER : string := "x-connetto-client".
Definition BROWSER_CLIENT : string := "browser".
Definition REFRESH_COOKIE_PREFIX : string := "__Host-Http-connetto-refresh-".

Record Cookie := {
  c_name : string; c_value : string; c_http_only : bool; c_secure : bool; c_path : string;
  c_same_site : CookieSameSite; c_max_age : Z;
}.

(** Request cookies and headers, by name. *)
Notation Jar := (gmap string string).
Notation Headers := (gmap string string).

Inductive SetCookie := AddCookie (c : Cookie) | RemoveCookie (c : Cookie).

Record StartQuery := {
  sq_provider : string; sq_redirect_uri : option string; sq_code_challenge : option string;
  sq_state : option string;
}.

Record CallbackQuery := { cq_code : string; cq_state : string }.
Record TokenExchangeRequest := { te_code : string; te_code_verifier : string }.

(** [LoginRedirect]: what a provider's authorize step yields. *)
Record LoginRedirect := {
  authorize_url : string; lr_state : string; lr_nonce : string; lr_pkce_verifier : string;
}.

Section AuthHttp.
Context {SessionId : Type} `{CS : Countable SessionId} `{ST : SessionText SessionId}.
Context {Id Key : Type} `{ID : Identity Id} `{SI : Serde Id} `{SK : Serde Key}.
Context `{SH : Sha256} `{JW : Jwt} `{TX : Texts Id}.
Context {S : Type} `{AS : AuthStore SessionId Id S}.

Notation Service := (AuthService (SessionId := SessionId) (Id := Id) (S := S)).
Notation Draw := (Draw SessionId).
Notation Resolver := (VerifiedClaims -> Result Id ResolveError).

Definition is_loopback_redirect (uri : string) : bool :=
  match parse_url uri with
  | None => false
  | Some u => bool_decide (scheme u = "http") && is_loopback_host u
  end.

Definition permits (p : RedirectPolicy) (uri : string) : bool :=
  bool_decide (uri ∈ allowlist p) || is_loopback_redirect uri.

(** ** One-time codes *)

Record IssuedAuthCode := {
  co_access_token : string; co_refresh_token : string; co_expires_in_secs : Z; co_user_id : Id;
  co_session_expires_at_secs : Z; code_challenge : string;
}.

Record CodeEntry := { ce_code : IssuedAuthCode; ce_created_at : Z }.

Record AuthCodes := { codes_inner : gmap string CodeEntry; codes_cap : nat; codes_ttl : Z }.

Definition default_codes : AuthCodes :=
  {| codes_inner := ∅; codes_cap := 4096; codes_ttl := AUTH_CODE_TTL |}.

(** [code] is drawn at random. *)
Definition issue (code : string) (issued : IssuedAuthCode) (now : Z) (order : list string)
    (t : AuthCodes) : AuthCodes :=
  let m := evict_if_full ce_created_at order (codes_cap t) now (codes_ttl t) (codes_inner t) in
  {| codes_inner := <[code := {| ce_code := issued; ce_created_at := now |}]> m;
     codes_cap := codes_cap t; codes_ttl := codes_ttl t |}.

Definition redeem (code : string) (now : Z) (t : AuthCodes) : option IssuedAuthCode * AuthCodes :=
  match codes_inner t !! code with
  | None => (None, t)
  | Some e =>
      (if is_expired (ce_created_at e) now (codes_ttl t) then None else Some (ce_code e),
       {| codes_inner := delete code (codes_inner t); codes_cap := codes_cap t;
          codes_ttl := codes_ttl t |})
  end.

(** ** Bodies and errors *)

Record RefreshRequest := { rq_refresh_token : option string; rq_user_id : option Id }.

Record TokenResponse := {
  tr_access_token : string; tr_refresh_token : option string; tr_expires_in : Z; tr_user_id : Id;
  tr_session_expires_at : Z;
}.

Definition response_of_pair (p : TokenPair (Id := Id)) : TokenResponse := {|
  tr_access_token := access_token p; tr_refresh_token := Some (refresh_token p);
  tr_expires_in := expires_in_secs p; tr_user_id := pair_user_id p;
  tr_session_expires_at := session_expires_at_secs p |}.

Inductive AuthApiError :=
| Service_ (e : AuthError (SessionId := SessionId))
| Provider_ (e : ProviderError)
| UnknownProvider | UnknownState | InvalidGrant | InvalidRedirect | InvalidRequest
| InvalidCredential.

(** The status of a refusal, with its [Retry-After] in whole seconds. *)
Definition provider_status (e : ProviderError) : Z :=
  match e with
  | PVerification _ | PAssurance _ | MissingIdToken => 401
  | PConfig _ | PExchange _ | PRefresh _ => 502
  end.

Definition error_status (e : AuthApiError) : Z :=
  match e with
  | Service_ (RateLimited _) => 429
  | Service_ (StoreError (Backend _)) | Service_ (TokenFault _) => 500
  | Service_ (StoreError _) | InvalidCredential => 401
  | Service_ (ProviderFault e) | Provider_ e => provider_status e
  | UnknownProvider => 404
  | UnknownState | InvalidGrant | InvalidRedirect | InvalidRequest => 400
  end.

Definition retry_after (e : AuthApiError) : option Z :=
  match e with
  | Service_ (RateLimited wait) =>
      Some (Z.max 1 (sat_add u64_max (as_secs wait) (if decide (0 < wait mod SECOND) then 1 else 0)))
  | _ => None
  end.

(** What an endpoint answers: a redirect, a token body or no content, with the
    cookies it sets. *)
Inductive Body := Location (url : string) | Tokens (t : TokenResponse) | NoContent.

Record Response := { body : Body; cookies : list SetCookie }.

(** ** The endpoints' state *)

Record AuthState := {
  cookie_same_site : CookieSameSite; service : Service; providers : ProviderRegistry;
  pending : PendingLogins; codes : AuthCodes; redirect_policy : RedirectPolicy;
}.

Definition with_pending (a : AuthState) (p : PendingLogins) : AuthState := {|
  cookie_same_site := cookie_same_site a; service := service a; providers := providers a;
  pending := p; codes := codes a; redirect_policy := redirect_policy a |}.

Definition with_codes (a : AuthState) (c : AuthCodes) : AuthState := {|
  cookie_same_site := cookie_same_site a; service := service a; providers := providers a;
  pending := pending a; codes := c; redirect_policy := redirect_policy a |}.

Definition with_service (a : AuthState) (s : Service) : AuthState := {|
  cookie_same_site := cookie_same_site a; service := s; providers := providers a;
  pending := pending a; codes := codes a; redirect_policy := redirect_policy a |}.

Definition is_marked_request (h : Headers) : Result bool AuthApiError :=
  match h !! CLIENT_KIND_HEADER with
  | None => Ok false
  | Some value => if decide (value = BROWSER_CLIENT) then Ok true else Err InvalidRequest
  end.

Definition refresh_cookie_name (user : Id) : Result string AuthApiError :=
  encoded <-? ok_or (json_text user) InvalidRequest;;
  Ok (REFRESH_COOKIE_PREFIX +:+ base64url encoded).

(** [now] is the wall clock in nanoseconds. *)
Definition refresh_cookie (name value : string) (same_site : CookieSameSite) (lapses_at_secs : Z)
    (now : Z) : Cookie := {|
  c_name := name; c_value := value; c_http_only := true; c_secure := true; c_path := "/";
  c_same_site := same_site;
  c_max_age := i64_or_max (sat_sub lapses_at_secs (if decide (now < 0) then 0 else as_secs now)) |}.

(** [begin] is the provider's authorize step. *)
Definition login_start (q : StartQuery)
    (begin : IdentityProvider -> Result LoginRedirect ProviderError) (now : Z) (order : list string)
    (a : AuthState) : Result Response AuthApiError * AuthState :=
  let checked := match sq_redirect_uri q, sq_code_challenge q with
    | Some uri, Some _ => permits (redirect_policy a) uri
    | None, None => true
    | _, _ => false
    end in
  if negb checked then (Err InvalidRedirect, a)
  else
    match by_name (sq_provider q) (providers a) with
    | None => (Err UnknownProvider, a)
    | Some provider =>
        match begin provider with
        | Err e => (Err (Provider_ e), a)
        | Ok redirect =>
            let p := {| pl_provider := sq_provider q; pl_pkce_verifier := lr_pkce_verifier redirect;
              pl_nonce := lr_nonce redirect; client_redirect := sq_redirect_uri q;
              client_code_challenge := sq_code_challenge q; client_state := sq_state q |} in
            (Ok {| body := Location (authorize_url redirect); cookies := [] |},
             with_pending a (pending_insert (lr_state redirect) p now order (pending a)))
        end
    end.

Definition callback_location (uri code state_param : string) : string :=
  uri +:+ (if has_char "?" uri then "&" else "?") +:+ "code=" +:+ percent_encode code +:+
  "&state=" +:+ percent_encode state_param.

(** What the callback draws. *)
Record CallbackDraw := {
  cd_taken : Z; cd_issued : Z; cd_code : string; cd_order : list string;
  cd_create : Draw; cd_retain : Draw; cd_instants : Instants;
}.

(** [complete] exchanges the provider's code; [resolve] is the deployment's. *)
Definition callback (q : CallbackQuery)
    (complete : IdentityProvider -> string -> string -> string -> Result VerifiedLogin ProviderError)
    (resolve : Resolver) (d : CallbackDraw) (a : AuthState) :
    Result Response AuthApiError * AuthState :=
  let '(taken, ps) := pending_take (cq_state q) (cd_taken d) (pending a) in
  let a := with_pending a ps in
  match taken with
  | None => (Err UnknownState, a)
  | Some p =>
      match by_name (pl_provider p) (providers a) with
      | None => (Err UnknownProvider, a)
      | Some provider =>
          match complete provider (cq_code q) (pl_pkce_verifier p) (pl_nonce p) with
          | Err e => (Err (Provider_ e), a)
          | Ok verified =>
              let '(r, sv) := login_with_provider (Key := Key) verified resolve (cd_create d)
                                (cd_retain d) (cd_instants d) (service a) in
              let a := with_service a sv in
              match r with
              | Err e => (Err (Service_ e), a)
              | Ok minted =>
                  match client_redirect p, client_code_challenge p with
                  | Some uri, Some challenge =>
                      if negb (permits (redirect_policy a) uri) then (Err InvalidRedirect, a)
                      else
                        let issued := {| co_access_token := access_token minted;
                          co_refresh_token := refresh_token minted;
                          co_expires_in_secs := expires_in_secs minted; co_user_id := pair_user_id minted;
                          co_session_expires_at_secs := session_expires_at_secs minted;
                          code_challenge := challenge |} in
                        (Ok {| body := Location (callback_location uri (cd_code d)
                                         (default "" (client_state p))); cookies := [] |},
                         with_codes a (issue (cd_code d) issued (cd_issued d) (cd_order d) (codes a)))
                  | None, None => (Ok {| body := Tokens (response_of_pair minted); cookies := [] |}, a)
                  | _, _ => (Err InvalidRedirect, a)
                  end
              end
          end
      end
  end.

Definition verify_pkce_s256 (verifier challenge : string) : bool :=
  bool_decide (base64url (sha256 (bytes_of_string verifier)) = challenge).

(** [now] is the instant of the redemption, [wall] the clock of the cookie. *)
Definition token (h : Headers) (q : TokenExchangeRequest) (now wall : Z) (a : AuthState) :
    Result Response AuthApiError * AuthState :=
  match is_marked_request h with
  | Err e => (Err e, a)
  | Ok marked =>
      let '(redeemed, cs) := redeem (te_code q) now (codes a) in
      let a := with_codes a cs in
      match redeemed with
      | None => (Err InvalidGrant, a)
      | Some issued =>
          if negb (verify_pkce_s256 (te_code_verifier q) (code_challenge issued)) then
            (Err InvalidGrant, a)
          else
            let answer refresh cs := Ok {| body := Tokens {|
              tr_access_token := co_access_token issued; tr_refresh_token := refresh;
              tr_expires_in := co_expires_in_secs issued; tr_user_id := co_user_id issued;
              tr_session_expires_at := co_session_expires_at_secs issued |}; cookies := cs |} in
            (if marked then
               name <-? refresh_cookie_name (co_user_id issued);;
               answer None [AddCookie (refresh_cookie name (co_refresh_token issued)
                 (cookie_same_site a) (co_session_expires_at_secs issued) wall)]
             else answer (Some (co_refresh_token issued)) [], a)
      end
  end.

(** The credential of a marked request: the cookie its account names. *)
Definition marked_credential (q : RefreshRequest) (jar : Jar) : Result (Id * string) AuthApiError :=
  user <-? ok_or (rq_user_id q) InvalidRequest;;
  match rq_refresh_token q with
  | Some _ => Err InvalidRequest
  | None =>
      name <-? refresh_cookie_name user;;
      value <-? ok_or (jar !! name) InvalidCredential;;
      Ok (user, value)
  end.

(** [d'] is the draw of the revocation a mismatched account calls for. *)
Definition http_refresh (h : Headers) (jar : Jar) (q : RefreshRequest) (d d' : Draw) (t : Instants)
    (now : Z) (a : AuthState) : Result Response AuthApiError * AuthState :=
  match is_marked_request h with
  | Err e => (Err e, a)
  | Ok marked =>
      match (if marked then p <-? marked_credential q jar;; Ok (Some p) else Ok None) with
      | Err e => (Err e, a)
      | Ok presented =>
          match (match presented with
                 | Some (_, cookie) => Ok cookie
                 | None => ok_or (rq_refresh_token q) InvalidRequest end) with
          | Err e => (Err e, a)
          | Ok tok =>
              let '(r, sv) := refresh (Key := Key) tok d t (service a) in
              let a := with_service a sv in
              match r with
              | Err e => (Err (Service_ e), a)
              | Ok minted =>
                  match presented with
                  | None => (Ok {| body := Tokens (response_of_pair minted); cookies := [] |}, a)
                  | Some (user, cookie) =>
                      match json_text user, json_text (pair_user_id minted) with
                      | Some named, Some rotated =>
                          if negb (bool_decide (named = rotated)) then
                            let a := match split_refresh cookie with
                              | Some (x, _) => with_service a (revoke x d' (service a)).2
                              | None => a
                              end in
                            (Err InvalidCredential, a)
                          else
                            (name <-? refresh_cookie_name user;;
                             Ok {| body := Tokens {| tr_access_token := access_token minted;
                                     tr_refresh_token := None; tr_expires_in := expires_in_secs minted;
                                     tr_user_id := pair_user_id minted;
                                     tr_session_expires_at := session_expires_at_secs minted |};
                                   cookies := [AddCookie (refresh_cookie name (refresh_token minted)
                                     (cookie_same_site a) (session_expires_at_secs minted) now)] |}, a)
                      | _, _ => (Err InvalidRequest, a)
                      end
                  end
              end
          end
      end
  end.

(** A logout's answer may carry a cookie beside an error. *)
Definition http_logout (h : Headers) (jar : Jar) (q : RefreshRequest) (d d' : Draw) (now : Z)
    (a : AuthState) : Result Response AuthApiError * list SetCookie * AuthState :=
  match is_marked_request h with
  | Err e => (Err e, [], a)
  | Ok true =>
      match rq_user_id q with
      | None => (Err InvalidRequest, [], a)
      | Some user =>
          match rq_refresh_token q with
          | Some _ => (Err InvalidRequest, [], a)
          | None =>
              match refresh_cookie_name user with
              | Err e => (Err e, [], a)
              | Ok name =>
                  let '(revoked, a) := match jar !! name with
                    | Some tok => let '(r, sv) := logout tok d d' (service a) in
                                  (map_err Service_ r, with_service a sv)
                    | None => (Ok false, a)
                    end in
                  let removed := RemoveCookie (refresh_cookie name "" (cookie_same_site a) 0 now) in
                  (_ <-? revoked;; Ok {| body := NoContent; cookies := [removed] |}, [removed], a)
              end
          end
      end
  | Ok false =>
      match rq_refresh_token q with
      | None => (Err InvalidRequest, [], a)
      | Some tok =>
          let '(r, sv) := logout tok d d' (service a) in
          (_ <-? map_err Service_ r;; Ok {| body := NoContent; cookies := [] |}, [], with_service a sv)
      end
  end.
End AuthHttp.

Arguments AuthCodes : clear implicits.
Arguments CodeEntry : clear implicits.
Arguments IssuedAuthCode : clear implicits.
Arguments RefreshRequest : clear implicits.
Arguments TokenResponse : clear implicits.
Arguments AuthApiError : clear implicits.
Arguments Response : clear implicits.
Arguments CallbackDraw : clear implicits.

(** ** The tables stay bounded *)

Lemma min_by_key_found {V} (created : V -> Z) m order k :
  min_by_key created m order = Some k -> k ∈ order /\ is_Some (m !! k).
Proof.
  revert k. induction order as [|x order IH]; intros k; simpl; [done|].
  destruct (m !! x) as [v|] eqn:Ex.
  - destruct (min_by_key created m order) as [k'|].
    + destruct (IH k' eq_refl) as [Hk' [v' Hv']]. rewrite Hv'.
      case_decide; intros [= <-]; [split; [set_solver|by rewrite Hv']|split; [set_solver|by rewrite Ex]].
    + intros [= <-]. split; [set_solver|by rewrite Ex].
  - intros H. destruct (IH k H). set_solver.
Qed.

Lemma min_by_key_some {V} (created : V -> Z) m order x :
  x ∈ order -> is_Some (m !! x) -> is_Some (min_by_key created m order).
Proof.
  induction order as [|y order IH]; [set_solver|]. intros Hx Hm. simpl.
  destruct (m !! y) as [v|] eqn:Ey.
  - destruct (min_by_key created m order) as [k|]; [|done].
    destruct (m !! k); [by case_decide|done].
  - apply IH; [|done]. apply elem_of_cons in Hx as [->|]; [|done]. by rewrite Ey in Hm; destruct Hm.
Qed.

(** The entry it gives up is one of the oldest. *)
Lemma min_by_key_least {V} (created : V -> Z) m order k v x w :
  min_by_key created m order = Some k -> m !! k = Some v -> x ∈ order -> m !! x = Some w ->
  created v <= created w.
Proof.
  revert k v. induction order as [|y order IH]; intros k v; simpl; [done|].
  destruct (m !! y) as [u|] eqn:Ey.
  - destruct (min_by_key created m order) as [k'|] eqn:Em.
    + destruct (min_by_key_found _ _ _ _ Em) as [_ [v' Hv']]. rewrite Hv'.
      case_decide as Hd; intros [= <-] Hk Hx Hw; apply elem_of_cons in Hx as [->|Hx]; simplify_eq.
      * lia.
      * by eapply IH.
      * done.
      * pose proof (IH k' v' eq_refl Hv' Hx Hw). lia.
    + intros [= <-] Hk Hx Hw. apply elem_of_cons in Hx as [->|Hx]; simplify_eq; [done|].
      assert (is_Some (min_by_key created m order)) as [? E]
        by (apply (min_by_key_some _ _ _ x); [done|by rewrite Hw]). by rewrite Em in E.
  - intros E Hk Hx Hw. apply elem_of_cons in Hx as [->|Hx]; [congruence|]. by eapply IH.
Qed.

(** An order an iteration may take: every key of the map. *)
Definition iterates {V} (m : gmap string V) (order : list string) : Prop :=
  forall k, is_Some (m !! k) -> k ∈ order.

Lemma evict_subseteq {V} (created : V -> Z) order cap now ttl (m : gmap string V) :
  evict_if_full created order cap now ttl m ⊆ m.
Proof.
  unfold evict_if_full. case_decide; [done|]. case_decide; [|apply map_filter_subseteq].
  destruct (min_by_key _ _ _); [|apply map_filter_subseteq].
  etrans; [apply delete_subseteq|apply map_filter_subseteq].
Qed.

Lemma evict_room {V} (created : V -> Z) order cap now ttl (m : gmap string V) :
  iterates m order -> (size m <= Nat.max cap 1)%nat ->
  (Datatypes.S (size (evict_if_full created order cap now ttl m)) <= Nat.max cap 1)%nat.
Proof.
  intros Ho Hm. unfold evict_if_full. case_decide as Hc; [lia|].
  set (m' := filter _ m). assert (Hsub : m' ⊆ m) by apply map_filter_subseteq.
  pose proof (map_subseteq_size _ _ Hsub) as Hs. case_decide as Hc'; [|lia].
  destruct (min_by_key created m' order) as [k|] eqn:E.
  - destruct (min_by_key_found _ _ _ _ E) as [_ [v Hv]].
    assert (size m' <> 0)%nat by (apply map_size_non_empty_iff; intros E0; by rewrite E0 in Hv).
    rewrite map_size_delete, Hv. lia.
  - assert (m' = ∅) as ->; [|rewrite map_size_empty; lia].
    apply map_empty. intros k. destruct (m' !! k) as [v|] eqn:Hk; [|done].
    assert (is_Some (min_by_key created m' order)) as [? Hx].
    { apply (min_by_key_some _ _ _ k); [|by rewrite Hk]. apply Ho. exists v.
      by eapply lookup_weaken. }
    by rewrite E in Hx.
Qed.
