(* ===== verification/AuthFlow.v ===== *)
(** What holds of every history of the login endpoints ([AuthHttp]): a one-time
    code comes from a login its redeemer began, is redeemed once, and goes only
    where the deployment permits; the browser's and the native client's contracts
    do not mix; the tables stay bounded. *)

From Stdlib Require Import ZArith Lia Ascii.
From stdpp Require Import base list numbers option strings gmap fin_maps.
From S2P Require Import Prelude Throttle Guard Chain Caller Tokens AuthStore AuthContract AuthService AuthLife Percent AuthHttp.

Open Scope Z_scope.

Section Flow.
Context {SessionId : Type} `{CS : Countable SessionId} `{ST : SessionText SessionId}.
Context {Id Key : Type} `{ID : Identity Id} `{SI : Serde Id} `{SK : Serde Key}.
Context `{SH : Sha256} `{JW : Jwt} `{TX : Texts Id}.
Context {S : Type} `{AS : AuthStore SessionId Id S}.

Notation State := (AuthState (SessionId := SessionId) (Id := Id) (S := S)).
Notation Draw := (Draw SessionId).
Notation Resolver := (VerifiedClaims -> Result Id ResolveError).
Notation Answer := (Result (Response Id) (AuthApiError SessionId)).
Notation callback := (callback (Key := Key)).
Notation http_refresh := (http_refresh (Key := Key)).

Inductive Request :=
| StartReq (q : StartQuery) (begin : IdentityProvider -> Result LoginRedirect ProviderError)
    (now : Z) (order : list string)
| CallbackReq (q : CallbackQuery)
    (complete : IdentityProvider -> string -> string -> string -> Result VerifiedLogin ProviderError)
    (resolve : Resolver) (d : CallbackDraw SessionId)
| TokenReq (h : gmap string string) (q : TokenExchangeRequest) (now wall : Z)
| RefreshReq (h jar : gmap string string) (q : RefreshRequest Id) (d d' : Draw) (t : Instants) (now : Z)
| LogoutReq (h jar : gmap string string) (q : RefreshRequest Id) (d d' : Draw) (now : Z).

Definition handle (r : Request) (a : State) : Answer * State :=
  match r with
  | StartReq q begin now order => login_start q begin now order a
  | CallbackReq q complete resolve d => callback q complete resolve d a
  | TokenReq h q now wall => token h q now wall a
  | RefreshReq h jar q d d' t now => http_refresh h jar q d d' t now a
  | LogoutReq h jar q d d' now => let '(r, _, a) := http_logout h jar q d d' now a in (r, a)
  end.

(** The requests served so far, each with its answer, and the state they left;
    [start] is a state with empty tables. *)
Record event := { asked : Request; got : Answer }.

Inductive history (start : State) : list event -> State -> Prop :=
| history_nil : history start [] start
| history_snoc es a r :
    history start es a ->
    (match r with
     | StartReq _ _ _ order => iterates (pending_inner (pending a)) order
     | CallbackReq _ _ _ d => iterates (codes_inner (codes a)) (cd_order d)
     | _ => True
     end) ->
    history start (es ++ [{| asked := r; got := (handle r a).1 |}]) (handle r a).2.

Definition blank (a : State) : Prop :=
  pending_inner (pending a) = ∅ /\ codes_inner (codes a) = ∅.

(** ** What a request changes *)

Lemma login_start_state q begin now order (a : State) :
  (login_start q begin now order a).2 = a \/
  exists provider redirect,
    begin provider = Ok redirect /\
    match sq_redirect_uri q, sq_code_challenge q with
    | Some uri, Some _ => permits (redirect_policy a) uri = true
    | None, None => True
    | _, _ => False
    end /\
    (login_start q begin now order a).2 = with_pending a (pending_insert (lr_state redirect)
      {| pl_provider := sq_provider q; pl_pkce_verifier := lr_pkce_verifier redirect;
         pl_nonce := lr_nonce redirect; client_redirect := sq_redirect_uri q;
         client_code_challenge := sq_code_challenge q; client_state := sq_state q |}
      now order (pending a)).
Proof.
  unfold login_start. case_match eqn:Ec; [by left|]. destruct (by_name _ _) as [p|]; [|by left].
  destruct (begin p) as [redirect|e] eqn:Eb; [|by left]. right. exists p, redirect.
  split_and!; [done| |done]. apply negb_false_iff in Ec.
  by destruct (sq_redirect_uri q), (sq_code_challenge q).
Qed.

Lemma take_state st now t :
  pending_inner (pending_take st now t).2 = delete st (pending_inner t) /\
  pending_cap (pending_take st now t).2 = pending_cap t /\
  pending_ttl (pending_take st now t).2 = pending_ttl t /\
  forall p, (pending_take st now t).1 = Some p ->
    exists e, pending_inner t !! st = Some e /\ pe_login e = p /\ since now (pe_created_at e) <= pending_ttl t.
Proof.
  unfold pending_take. destruct (pending_inner t !! st) as [e|] eqn:E; simpl.
  - split_and!; [done..|]. intros p. destruct (is_expired _ _ _) eqn:Ex; [done|]. intros [= <-].
    exists e. split_and!; [done..|]. apply bool_decide_eq_false in Ex. lia.
  - split_and!; [by rewrite delete_id|done..].
Qed.

(** A callback that issues a code does so for the login it took, at a permitted
    redirect; any other leaves the codes alone. *)
Lemma callback_state q complete resolve d (a : State) :
  let a' := (callback q complete resolve d a).2 in
  pending a' = (pending_take (cq_state q) (cd_taken d) (pending a)).2 /\
  redirect_policy a' = redirect_policy a /\
  (codes a' = codes a \/
   exists p uri challenge minted,
     (pending_take (cq_state q) (cd_taken d) (pending a)).1 = Some p /\
     client_redirect p = Some uri /\ client_code_challenge p = Some challenge /\
     permits (redirect_policy a) uri = true /\
     (callback q complete resolve d a).1 =
       Ok {| body := Location (callback_location uri (cd_code d) (default "" (client_state p)));
             cookies := [] |} /\
     codes a' = issue (cd_code d) {| co_access_token := access_token minted;
       co_refresh_token := refresh_token minted; co_expires_in_secs := expires_in_secs minted;
       co_user_id := pair_user_id minted;
       co_session_expires_at_secs := session_expires_at_secs minted;
       code_challenge := challenge |} (cd_issued d) (cd_order d) (codes a)).
Proof.
  intros a'. subst a'. unfold AuthHttp.callback.
  destruct (pending_take (cq_state q) (cd_taken d) (pending a)) as [[p|] ps]; simpl;
    [|split_and!; [done..|by left]].
  destruct (by_name _ _) as [prov|]; simpl; [|split_and!; [done..|by left]].
  destruct (complete _ _ _ _) as [verified|e]; simpl; [|split_and!; [done..|by left]].
  destruct (login_with_provider _ _ _ _ _ _) as [[minted|e] sv]; simpl; [|split_and!; [done..|by left]].
  destruct (client_redirect p) as [uri|] eqn:Eu, (client_code_challenge p) as [ch|] eqn:Ech; simpl;
    try (split_and!; [done..|by left]).
  destruct (permits _ uri) eqn:Ep; simpl; [|split_and!; [done..|by left]].
  split_and!; [done..|]. right. by exists p, uri, ch, minted.
Qed.

Lemma redeem_state code now (t : AuthCodes Id) :
  codes_inner (redeem code now t).2 = delete code (codes_inner t) /\
  codes_cap (redeem code now t).2 = codes_cap t /\ codes_ttl (redeem code now t).2 = codes_ttl t /\
  forall i, (redeem code now t).1 = Some i ->
    exists e, codes_inner t !! code = Some e /\ ce_code e = i /\ since now (ce_created_at e) <= codes_ttl t.
Proof.
  unfold redeem. destruct (codes_inner t !! code) as [e|] eqn:E; simpl.
  - split_and!; [done..|]. intros p. destruct (is_expired _ _ _) eqn:Ex; [done|]. intros [= <-].
    exists e. split_and!; [done..|]. apply bool_decide_eq_false in Ex. lia.
  - split_and!; [by rewrite delete_id|done..].
Qed.

Lemma token_state h q now wall (a : State) :
  (token h q now wall a).2 = a \/
  (token h q now wall a).2 = with_codes a (redeem (te_code q) now (codes a)).2.
Proof.
  unfold token. destruct (is_marked_request h) as [m|e]; [|by left]. right.
  destruct (redeem _ _ _) as [[i|] cs]; [|done]. by destruct (verify_pkce_s256 _ _).
Qed.

Lemma refresh_state h jar q d d' t now (a : State) :
  exists sv, (http_refresh h jar q d d' t now a).2 = with_service a sv.
Proof.
  assert (Hsame : exists sv, a = with_service a sv) by (exists (service a); by destruct a).
  unfold AuthHttp.http_refresh. destruct (is_marked_request h); [|done].
  destruct (if _ : bool then _ else _) as [p|e]; [|done].
  destruct (match p with Some _ => _ | None => _ end) as [tok|e]; [|done].
  destruct (refresh _ _ _ _) as [[minted|e] sv]; [|by eexists].
  destruct p as [[user cookie]|]; [|by eexists].
  destruct (json_text user), (json_text (pair_user_id minted)); try by eexists.
  case_match; [|by eexists]. destruct (split_refresh cookie) as [[x y]|]; by eexists.
Qed.

Lemma logout_state h jar q d d' now (a : State) :
  exists sv, (http_logout h jar q d d' now a).2 = with_service a sv.
Proof.
  assert (Hsame : exists sv, a = with_service a sv) by (exists (service a); by destruct a).
  unfold http_logout. destruct (is_marked_request h) as [[|]|e]; [| |done].
  - destruct (rq_user_id q); [|done]. destruct (rq_refresh_token q); [done|].
    destruct (refresh_cookie_name _); [|done]. destruct (jar !! _) as [tok|]; [|done].
    destruct (logout _ _ _ _). by eexists.
  - destruct (rq_refresh_token q); [|done]. destruct (logout _ _ _ _). by eexists.
Qed.

(** ** Where a pending login and a code come from *)

(** A login begun with this redirect, challenge and state: both or neither of the
    first two, the redirect permitted. *)
Definition started (policy : RedirectPolicy) (es : list event) (p : PendingLogin) : Prop :=
  exists ev q begin now order, ev ∈ es /\ asked ev = StartReq q begin now order /\
    client_redirect p = sq_redirect_uri q /\ client_code_challenge p = sq_code_challenge q /\
    client_state p = sq_state q /\
    match sq_redirect_uri q, sq_code_challenge q with
    | Some uri, Some _ => permits policy uri = true
    | None, None => True
    | _, _ => False
    end.

(** An exchange that names the code and passes the marker check. *)
Definition presents (code : string) (ev : event) : Prop :=
  match asked ev with
  | TokenReq h q _ _ => te_code q = code /\ exists m, is_marked_request (SessionId := SessionId) h = Ok m
  | _ => False
  end.

(** The callback that issued a code: it completed a login begun before it,
    delivered the code to that login's redirect, and nobody has presented the code
    since. *)
Definition issued_for (policy : RedirectPolicy) (es : list event) (code challenge : string) (at_ : Z) : Prop :=
  exists es1 ev es2 q complete resolve d p uri,
    es = es1 ++ ev :: es2 /\ asked ev = CallbackReq q complete resolve d /\
    cd_code d = code /\ cd_issued d = at_ /\ started policy es1 p /\
    client_redirect p = Some uri /\ client_code_challenge p = Some challenge /\
    permits policy uri = true /\
    got ev = Ok {| body := Location (callback_location uri code (default "" (client_state p)));
                   cookies := [] |} /\
    Forall (fun e => ~ presents code e) es2.

Lemma started_app policy es es' p : started policy es p -> started policy (es ++ es') p.
Proof. intros (ev & q & b & n & o & H & ?). exists ev, q, b, n, o. split; [set_solver|done]. Qed.

Lemma issued_for_snoc policy es ev code ch at_ :
  issued_for policy es code ch at_ -> ~ presents code ev -> issued_for policy (es ++ [ev]) code ch at_.
Proof.
  intros (es1 & e & es2 & q & c & r & d & p & uri & -> & H) Hn.
  exists es1, e, (es2 ++ [ev]), q, c, r, d, p, uri.
  split; [by rewrite <- app_assoc|]. destruct H as (? & ? & ? & ? & ? & ? & ? & ? & H2).
  split_and!; try done. apply Forall_app. split; [done|]. by constructor.
Qed.

Record flow (start : State) (es : list event) (a : State) : Prop := {
  fl_policy : redirect_policy a = redirect_policy start;
  fl_pending_cap : pending_cap (pending a) = pending_cap (pending start);
  fl_codes_cap : codes_cap (codes a) = codes_cap (codes start);
  fl_codes_ttl : codes_ttl (codes a) = codes_ttl (codes start);
  fl_pending_size : (size (pending_inner (pending a)) <= Nat.max (pending_cap (pending start)) 1)%nat;
  fl_codes_size : (size (codes_inner (codes a)) <= Nat.max (codes_cap (codes start)) 1)%nat;
  fl_pending : forall st e, pending_inner (pending a) !! st = Some e ->
    started (redirect_policy start) es (pe_login e);
  fl_codes : forall code e, codes_inner (codes a) !! code = Some e ->
    issued_for (redirect_policy start) es code (code_challenge (ce_code e)) (ce_created_at e);
}.

Lemma flow_service start es a sv : flow start es a -> flow start es (with_service a sv).
Proof. intros []. by constructor. Qed.

(** A request that touches neither table goes by. *)
Lemma flow_quiet start es a ev :
  flow start es a -> (forall code e, codes_inner (codes a) !! code = Some e -> ~ presents code ev) ->
  flow start (es ++ [ev]) a.
Proof.
  intros [] Hn. constructor; try done; [eauto using started_app|].
  intros code e He. apply issued_for_snoc; eauto.
Qed.

Lemma insert_size {V} (m : gmap string V) k v cap :
  (Datatypes.S (size m) <= cap)%nat -> (size (<[k := v]> m) <= cap)%nat.
Proof. intros H. rewrite map_size_insert. destruct (m !! k); simpl; lia. Qed.

Lemma pending_insert_lookup st p now order t st' e :
  pending_inner (pending_insert st p now order t) !! st' = Some e ->
  e = {| pe_login := p; pe_created_at := now |} \/ pending_inner t !! st' = Some e.
Proof.
  unfold pending_insert. simpl. intros [[_ <-]|[_ H]]%lookup_insert_Some; [by left|right].
  destruct (pending_inner t !! st); [done|]. eapply lookup_weaken; [done|apply evict_subseteq].
Qed.

Lemma flow_start start es (a : State) q begin now order :
  flow start es a -> iterates (pending_inner (pending a)) order ->
  let r := StartReq q begin now order in
  flow start (es ++ [{| asked := r; got := (handle r a).1 |}]) (handle r a).2.
Proof.
  intros Hf Ho r. destruct (login_start_state q begin now order a) as [E|(prov & redirect & Eb & Ep & E)].
  { simpl. rewrite E. apply flow_quiet; [done|]. by intros ? ? ? []. }
  simpl. rewrite E. destruct Hf. constructor; simpl; try done.
  - rewrite fl_pending_cap0. destruct (pending_inner (pending a) !! lr_state redirect) eqn:El.
    + rewrite map_size_insert_Some by by rewrite El. done.
    + by apply insert_size, evict_room.
  - intros st e He. apply pending_insert_lookup in He as [->|He]; [|by apply started_app; eauto].
    eexists _, q, begin, now, order. split_and!; [apply elem_of_app; right; by apply list_elem_of_singleton|done..|].
    simpl. by rewrite <- fl_policy0.
  - intros code e He. apply issued_for_snoc; [by eauto|by intros []].
Qed.

Lemma flow_callback start es (a : State) q complete resolve d :
  flow start es a -> iterates (codes_inner (codes a)) (cd_order d) ->
  let r := CallbackReq q complete resolve d in
  flow start (es ++ [{| asked := r; got := (handle r a).1 |}]) (handle r a).2.
Proof.
  intros Hf Ho r. destruct (callback_state q complete resolve d a) as (Hp & Hpol & Hc).
  destruct (take_state (cq_state q) (cd_taken d) (pending a)) as (Hi & Hcap & _ & Htaken).
  rewrite <- Hp in Hi, Hcap. change ((callback q complete resolve d a).2) with ((handle r a).2) in *.
  change ((callback q complete resolve d a).1) with ((handle r a).1) in *.
  pose proof Hf as []. constructor; try congruence.
  - destruct Hc as [->|(p & uri & ch & minted & _ & _ & _ & _ & _ & ->)]; done.
  - destruct Hc as [->|(p & uri & ch & minted & _ & _ & _ & _ & _ & ->)]; done.
  - rewrite Hi. etrans; [|exact fl_pending_size0]. apply map_subseteq_size, delete_subseteq.
  - destruct Hc as [->|(p & uri & ch & minted & _ & _ & _ & _ & _ & ->)]; [done|]. simpl.
    rewrite fl_codes_cap0. by apply insert_size, evict_room.
  - intros st e He. rewrite Hi in He. apply lookup_delete_Some in He as [_ He].
    apply started_app; eauto.
  - intros code e He. destruct Hc as [Hc|(p & uri & ch & minted & Ht & Hr & Hch & Hper & Hans & Hc)];
      rewrite Hc in He.
    { apply issued_for_snoc; [by eauto|by intros []]. }
    simpl in He. apply lookup_insert_Some in He as [[<- <-]|[Hne He]].
    + destruct (Htaken p Ht) as (e & Hel & Hpl & _).
      exists es. eexists _, [], q, complete, resolve, d, p, uri. subst p.
      split_and!; try done; [by eauto|by rewrite <- fl_policy0].
    + apply issued_for_snoc; [|by intros []]. apply fl_codes0. eapply lookup_weaken; [done|apply evict_subseteq].
Qed.

Lemma flow_token start es (a : State) h q now wall :
  flow start es a ->
  let r := TokenReq h q now wall in
  flow start (es ++ [{| asked := r; got := (handle r a).1 |}]) (handle r a).2.
Proof.
  intros Hf r. simpl. destruct (is_marked_request (SessionId := SessionId) h) as [m|e] eqn:Em.
  2: { assert (token h q now wall a = (Err e, a)) as -> by (unfold token; by rewrite Em).
       apply flow_quiet; [done|]. intros code e' _ [_ [m Hm]]. congruence. }
  assert (E : (token h q now wall a).2 = with_codes a (redeem (te_code q) now (codes a)).2).
  { unfold token. rewrite Em. destruct (redeem _ _ _) as [[i|] cs]; [|done].
    by destruct (verify_pkce_s256 _ _). }
  rewrite E. destruct (redeem_state (te_code q) now (codes a)) as (Hi & Hcap & Httl & _).
  destruct Hf. constructor; simpl; try congruence.
  - rewrite Hi. etrans; [|exact fl_codes_size0]. apply map_subseteq_size, delete_subseteq.
  - intros st e He. apply started_app; eauto.
  - intros code e He. rewrite Hi in He. apply lookup_delete_Some in He as [Hne He].
    apply issued_for_snoc; [by eauto|]. by intros [? _].
Qed.

Lemma history_flow start es a : blank start -> history start es a -> flow start es a.
Proof.
  intros [Hp Hc]. induction 1 as [|es a r _ IH Ho].
  - constructor; try done; rewrite ?Hp, ?Hc, ?map_size_empty; try lia; intros ? ?;
      rewrite lookup_empty; done.
  - destruct r as [q b n o|q c rs d|h q n w|h jar q d d' t n|h jar q d d' n].
    + by apply flow_start.
    + by apply flow_callback.
    + by apply flow_token.
    + simpl. destruct (refresh_state h jar q d d' t n a) as [sv ->].
      apply flow_service, flow_quiet; [done|by intros ? ? ? []].
    + simpl. destruct (logout_state h jar q d d' n a) as [sv E].
      destruct (http_logout h jar q d d' n a) as [[r cs] a'] eqn:El. simpl in *. subst a'.
      apply flow_service, flow_quiet; [done|by intros ? ? ? []].
Qed.

(** C15. A one-time code yields tokens only to whoever began the login it completes:
    an exchange that succeeds presents a code that a callback issued within its
    lifetime for a login begun before, to that login's permitted redirect, with
    the verifier whose hash is the challenge that login gave, and no exchange has
    presented the code since it was issued. *)
Theorem code_bound_to_login start es (a : State) h q now wall r a' :
  blank start -> history start es a -> token h q now wall a = (Ok r, a') ->
  exists issued_at, since now issued_at <= codes_ttl (codes start) /\
    issued_for (redirect_policy start) es (te_code q)
      (base64url (sha256 (bytes_of_string (te_code_verifier q)))) issued_at.
Proof.
  intros Hb Hh E. destruct (history_flow start es a Hb Hh) as [].
  unfold token in E. destruct (is_marked_request h) as [m|]; [|done].
  destruct (redeem_state (te_code q) now (codes a)) as (_ & _ & _ & Hr).
  destruct (redeem _ _ _) as [[i|] cs]; [|done]. destruct (Hr i eq_refl) as (e & He & Hi & Hs).
  destruct (verify_pkce_s256 _ _) eqn:Ev; [|done]. apply bool_decide_eq_true in Ev.
  exists (ce_created_at e). split; [by rewrite <- fl_codes_ttl0|]. rewrite Ev, <- Hi. by apply fl_codes0.
Qed.

(** Logins and codes in flight stay within their tables' capacities, whatever is
    requested. *)
Theorem login_tables_bounded start es (a : State) :
  blank start -> history start es a ->
  (size (pending_inner (pending a)) <= Nat.max (pending_cap (pending start)) 1)%nat /\
  (size (codes_inner (codes a)) <= Nat.max (codes_cap (codes start)) 1)%nat.
Proof. intros Hb Hh. by destruct (history_flow start es a Hb Hh) as []. Qed.

(** The redirect the server answers reads back at the client as the code and the
    client's own state, whatever redirect the client chose. *)
Theorem callback_reads_back uri code st what :
  code_and_state (query_of (callback_location uri code st)) what = Ok (code, st).
Proof.
  assert (Hq : exists before, split_char "&" (query_of (callback_location uri code st)) =
    before ++ ["code=" +:+ percent_encode code; "state=" +:+ percent_encode st]).
  { unfold callback_location, query_of.
    set (tail := "code=" +:+ percent_encode code +:+ "&state=" +:+ percent_encode st).
    destruct (has_char "?" uri) eqn:Eu.
    - destruct (split_once "?" uri) as [[u v]|] eqn:Es.
      + apply split_once_spec in Es as [-> Hu]. exists (split_char "&" v).
        rewrite string_app_assoc. change (String "?" v +:+ "&" +:+ tail) with (String "?" (v +:+ String "&" tail)).
        rewrite split_once_app, split_char_app by done. f_equal. apply query_pieces.
      + exfalso. clear - Eu Es. induction uri as [|c uri IH]; [done|]. cbn [has_char split_once] in *.
        destruct (Ascii.eqb "?" c); [done|]. destruct (split_once "?" uri) as [[]|]; [done|auto].
    - exists []. change ("?" +:+ tail) with (String "?" tail). rewrite split_once_app by done.
      apply query_pieces. }
  destruct Hq as [before Hq]. unfold code_and_state. rewrite Hq. apply pieces_read_back.
Qed.

(** ** The two contracts *)

Definition unmarked (h : gmap string string) : Prop := h !! CLIENT_KIND_HEADER = None.
Definition browser (h : gmap string string) : Prop := h !! CLIENT_KIND_HEADER = Some BROWSER_CLIENT.

(** A cookie the browser keeps to itself and to this origin. *)
Definition sealed (user : Id) (tok : string) (c : SetCookie) : Prop :=
  exists k, c = AddCookie k /\ c_value k = tok /\ c_http_only k = true /\ c_secure k = true /\
    c_path k = "/" /\ refresh_cookie_name (SessionId := SessionId) user = Ok (c_name k).

Definition refresh_in (b : Body (Id := Id)) : option string :=
  match b with Tokens t => tr_refresh_token t | _ => None end.

Lemma unmarked_check h : unmarked h -> is_marked_request (SessionId := SessionId) h = Ok false.
Proof. unfold unmarked, is_marked_request. by intros ->. Qed.

Lemma browser_check h : browser h -> is_marked_request (SessionId := SessionId) h = Ok true.
Proof. unfold browser, is_marked_request. by intros ->. Qed.

Lemma native_refresh h jar jar' q d d' t now (a : State) :
  unmarked h -> http_refresh h jar q d d' t now a = http_refresh h jar' q d d' t now a /\
  forall r a', http_refresh h jar q d d' t now a = (Ok r, a') -> cookies r = [] /\ is_Some (refresh_in (body r)).
Proof.
  intros Hh. unfold AuthHttp.http_refresh. rewrite !unmarked_check by done. split; [done|].
  intros r a'. destruct (ok_or _ _); [|done]. destruct (refresh _ _ _ _) as [[minted|e] sv]; [|done].
  intros [= <- _]. split; [done|by eexists].
Qed.

Lemma native_token h tq now wall (a : State) r a' :
  unmarked h -> token h tq now wall a = (Ok r, a') -> cookies r = [] /\ is_Some (refresh_in (body r)).
Proof.
  intros Hh. unfold token. rewrite unmarked_check by done.
  destruct (redeem _ _ _) as [[i|] cs]; [|done]. destruct (verify_pkce_s256 _ _); [|done].
  intros [= <- _]. split; [done|by eexists].
Qed.

Lemma native_logout h jar jar' q d d' now (a : State) :
  unmarked h -> http_logout h jar q d d' now a = http_logout h jar' q d d' now a /\
  forall r cs a', http_logout h jar q d d' now a = (r, cs, a') ->
    cs = [] /\ forall resp, r = Ok resp -> cookies resp = [].
Proof.
  intros Hh. unfold http_logout. rewrite !unmarked_check by done. split; [done|]. intros r cs a'.
  destruct (rq_refresh_token q) as [tok|]; [|by intros [= <- <- _]].
  destruct (logout _ _ _ _) as [x sv]. intros [= <- <- _]. split; [done|].
  intros resp. destruct x; simpl; [|done]. by intros [= <-].
Qed.

Lemma cookie_sealed (user : Id) name tok ss lapses now :
  refresh_cookie_name (SessionId := SessionId) user = Ok name ->
  sealed user tok (AddCookie (refresh_cookie name tok ss lapses now)).
Proof. intros H. eexists. by split_and!. Qed.

Lemma marked_refresh h jar q d d' t now (a : State) r a' :
  browser h -> http_refresh h jar q d d' t now a = (Ok r, a') ->
  refresh_in (body r) = None /\ exists user cookie minted c, rq_user_id q = Some user /\
    marked_credential (SessionId := SessionId) q jar = Ok (user, cookie) /\
    (refresh (Key := Key) cookie d t (service a)).1 = Ok minted /\
    cookies r = [c] /\ sealed user (refresh_token minted) c.
Proof.
  intros Hh. unfold AuthHttp.http_refresh. rewrite browser_check by done.
  destruct (marked_credential q jar) as [[user cookie]|e] eqn:Em; simpl; [|done].
  destruct (refresh _ _ _ _) as [[minted|e] sv] eqn:Er; [|done].
  destruct (json_text user), (json_text (pair_user_id minted)); try done. case_match; [done|].
  destruct (refresh_cookie_name user) as [name|] eqn:En; [|done]. simpl. intros [= <- _].
  split; [done|]. simpl. eexists user, cookie, minted, _. rewrite Er. split_and!; try done.
  - unfold marked_credential in Em. destruct (rq_user_id q); simpl in Em; [|done].
    destruct (rq_refresh_token q); [done|]. destruct (refresh_cookie_name i); simpl in Em; [|done].
    destruct (jar !! _); simpl in Em; [|done]. by simplify_eq.
  - by apply cookie_sealed.
Qed.

Lemma marked_token h tq now wall (a : State) r a' :
  browser h -> token h tq now wall a = (Ok r, a') ->
  refresh_in (body r) = None /\ exists i c, (redeem (te_code tq) now (codes a)).1 = Some i /\
    cookies r = [c] /\ sealed (co_user_id i) (co_refresh_token i) c.
Proof.
  intros Hh. unfold token. rewrite browser_check by done.
  destruct (redeem _ _ _) as [[i|] cs]; [|done]. destruct (verify_pkce_s256 _ _); [|done].
  destruct (refresh_cookie_name (co_user_id i)) as [name|] eqn:En; [|done]. simpl. intros [= <- _].
  split; [done|]. simpl. eexists i, _. split_and!; [done..|]. by apply cookie_sealed.
Qed.

(** A removal of the account's cookie and nothing else. *)
Definition removes (user : option Id) (cs : list SetCookie) : Prop :=
  exists u k, user = Some u /\ cs = [RemoveCookie k] /\
    refresh_cookie_name (SessionId := SessionId) u = Ok (c_name k).

Lemma marked_logout h jar q d d' now (a : State) r cs a' :
  browser h -> http_logout h jar q d d' now a = (r, cs, a') ->
  (forall resp, r = Ok resp -> refresh_in (body resp) = None /\ cookies resp = cs /\ removes (rq_user_id q) cs) /\
  (a' <> a -> removes (rq_user_id q) cs).
Proof.
  intros Hh. unfold http_logout. rewrite browser_check by done.
  destruct (rq_user_id q) as [user|]; [|by intros [= <- <- <-]].
  destruct (rq_refresh_token q); [by intros [= <- <- <-]|].
  destruct (refresh_cookie_name user) as [name|] eqn:En; [|by intros [= <- <- <-]].
  assert (Hr : removes (Some user) [RemoveCookie (refresh_cookie name "" (cookie_same_site a) 0 now)])
    by (eexists user, _; by split_and!).
  assert (Hc : forall tok, cookie_same_site (with_service a (logout tok d d' (service a)).2) =
    cookie_same_site a) by done.
  destruct (jar !! name) as [tok|]; [specialize (Hc tok); destruct (logout _ _ _ _) as [x sv]; simpl in Hc|];
    intros [= <- <- <-]; (split; [|done]); [|by intros resp [= <-]]. intros resp. destruct x; simpl; [|done]. by intros [= <-].
Qed.

End Flow.
