(* ===== verification/Share.v ===== *)
(** Minting share keys: connetto-server/src/capability.rs.

    [issue] checks the caller may read, and may perform every write the share
    certifies, before a key is signed. The row source and the visibility policy
    are the deployment's, so their answers are the call's arguments. *)

From Stdlib Require Import ZArith Lia Ascii.
From stdpp Require Import base list numbers option strings gmap.
From S2P Require Import Prelude Throttle Guard Caller Tokens AuthService.

Open Scope Z_scope.

(** The write verbs a share certifies. *)
Record ShareLevel := { update : bool; delete_ : bool }.

Definition read_level : ShareLevel := {| update := false; delete_ := false |}.
Definition with_update (l : ShareLevel) : ShareLevel := {| update := true; delete_ := delete_ l |}.
Definition with_delete (l : ShareLevel) : ShareLevel := {| update := update l; delete_ := true |}.
Definition is_read_only (l : ShareLevel) : bool := negb (update l) && negb (delete_ l).

Inductive WriteOp := OpInsert | OpUpdate | OpDelete.

Inductive RowWrite (Row : Type) := UpdateUsing (old : Row) | DeleteRow (old : Row).
Arguments UpdateUsing {Row}.
Arguments DeleteRow {Row}.

Definition write_op {Row} (w : RowWrite Row) : WriteOp :=
  match w with UpdateUsing _ => OpUpdate | DeleteRow _ => OpDelete end.

(** The questions a level asks about a row, in a fixed order. *)
Definition writes {Row} (l : ShareLevel) (row : Row) : list (RowWrite Row) :=
  (if update l then [UpdateUsing row] else []) ++ (if delete_ l then [DeleteRow row] else []).

Definition verbs (l : ShareLevel) : list WriteOp := write_op <$> writes l tt.

Inductive ShareError :=
| Unauthorized (table : string)
| NotWritable (table : string) (op : WriteOp)
| WriteUndecidable (table : string) (op : WriteOp) (detail : string)
| ShareRead (e : string)
| SharePolicy (e : string)
| TtlTooLong (requested ceiling : Z)
| SeparatorInKey (separator : ascii)
| ShareMint (e : TokenError)
| ShareRateLimited (retry_after : Z).

Section Share.
Context {SessionId Id Key Row Value : Type} `{ST : SessionText SessionId} `{CK : CapabilityKey Key}.
Context `{SI : Serde Id} `{SK : Serde Key} `{JW : Jwt}.

Notation Principal := (Principal SessionId Id Key).

Record IssuedCapability := {
  ic_key : Key; ic_token : string; ic_expires_at : Z; ic_level : ShareLevel;
}.

(** The audit row of a mint: who, and the row it is about. *)
Record MintEvent := {
  me_session : SessionId; me_user : option Id; me_op : AuthOp; me_table : string;
  me_row : list Value;
}.

Record CapabilityIssuer := {
  ci_authority : TokenAuthority; ci_ttl : Z; ci_max_ttl : Z; ci_audit : bool;
}.

Definition new_issuer (a : TokenAuthority) (c : AuthConfig) : CapabilityIssuer := {|
  ci_authority := a; ci_ttl := capability_ttl c; ci_max_ttl := capability_max_ttl c;
  ci_audit := false |}.

(** What the deployment answers a mint: the reader gate, the row read as the
    caller, and the visibility policy's read and write questions, true for
    [Allow]. *)
Record Seams := {
  gate : option Z;
  read_row : Result (option Row) string;
  may_see : Row -> Principal -> Result bool string;
  may_write : RowWrite Row -> Principal -> Result bool string;
}.

Fixpoint ask_writes (table : string) (s : Seams) (caller : Principal) (ws : list (RowWrite Row)) :
    Result unit ShareError :=
  match ws with
  | [] => Ok tt
  | w :: ws' =>
      verdict <-? map_err (WriteUndecidable table (write_op w)) (may_write s w caller);;
      if negb verdict then Err (NotWritable table (write_op w)) else ask_writes table s caller ws'
  end.

(** [fresh] is the key minted and [issued_at] the wall clock. *)
Definition issue (ci : CapabilityIssuer) (caller : Principal) (table : string) (key : list Value)
    (level : ShareLevel) (ttl : option Z) (s : Seams) (fresh : Key) (issued_at : Z) :
    Result IssuedCapability ShareError * list MintEvent :=
  let minted :=
    ttl <-? match ttl with
      | Some requested =>
          if decide (ci_max_ttl ci < requested) then Err (TtlTooLong requested (ci_max_ttl ci))
          else Ok requested
      | None => Ok (ci_ttl ci)
      end;;
    _ <-? match gate s with Some wait => Err (ShareRateLimited wait) | None => Ok tt end;;
    found <-? map_err ShareRead (read_row s);;
    row <-? ok_or found (Unauthorized table);;
    allowed <-? map_err SharePolicy (may_see s row caller);;
    if negb allowed then Err (Unauthorized table)
    else
      _ <-? ask_writes table s caller (writes level row);;
      if has_char SEPARATOR (key_text fresh) then Err (SeparatorInKey SEPARATOR)
      else
        token <-? map_err ShareMint
          (mint_capability (SessionId := SessionId) (Id := Id) (ci_authority ci) fresh issued_at ttl);;
        Ok {| ic_key := fresh; ic_token := token; ic_expires_at := issued_at + ttl; ic_level := level |} in
  (minted,
   match minted with
   | Ok _ =>
       if ci_audit ci then
         [{| me_session := session_id caller; me_user := user_id <$> identity caller;
             me_op := CapabilityMinted; me_table := table; me_row := key |}]
       else []
   | Err _ => []
   end).

Lemma ask_writes_Ok table s caller ws :
  ask_writes table s caller ws = Ok tt <-> Forall (fun w => may_write s w caller = Ok true) ws.
Proof.
  induction ws as [|w ws IH]; simpl; [done|]. rewrite Forall_cons, <- IH.
  destruct (may_write s w caller) as [[|]|e]; simpl; naive_solver.
Qed.

(** A share is minted exactly when the caller may: the lifetime asked for is
    within the ceiling, the reader has room, the row is one the caller reads and
    the policy lets it see, every write the share names is allowed on that row,
    and the key packs. *)
Definition certified (ci : CapabilityIssuer) (caller : Principal) (level : ShareLevel)
    (ttl : option Z) (s : Seams) (fresh : Key) : Prop :=
  (forall r, ttl = Some r -> r <= ci_max_ttl ci) /\ gate s = None /\
  has_char SEPARATOR (key_text fresh) = false /\
  exists row, read_row s = Ok (Some row) /\ may_see s row caller = Ok true /\
    Forall (fun w => may_write s w caller = Ok true) (writes level row).

Lemma issue_certified ci caller table key level ttl s fresh issued_at c events :
  issue ci caller table key level ttl s fresh issued_at = (Ok c, events) ->
  certified ci caller level ttl s fresh /\ ic_key c = fresh /\ ic_level c = level /\
  ic_expires_at c = issued_at + default (ci_ttl ci) ttl /\
  mint_capability (SessionId := SessionId) (Id := Id) (ci_authority ci) fresh issued_at
    (default (ci_ttl ci) ttl) = Ok (ic_token c).
Proof.
  unfold issue. intros [H _]%pair_equal_spec.
  apply rbind_Ok in H as (span & Hs & H). apply rbind_Ok in H as ([] & Hg & H).
  apply rbind_Ok in H as (found & Hr & H). apply rbind_Ok in H as (row & Hrow & H).
  apply rbind_Ok in H as (allowed & Hsee & H). rewrite map_err_Ok in Hr. rewrite map_err_Ok in Hsee.
  rewrite ok_or_Ok in Hrow. subst found. destruct allowed; simpl in H; [|done].
  apply rbind_Ok in H as ([] & Hw & H). apply ask_writes_Ok in Hw.
  destruct (has_char _ _) eqn:Hk; [done|]. apply rbind_Ok in H as (token & Ht & H).
  rewrite map_err_Ok in Ht. simplify_eq/=.
  assert (Hspan : span = default (ci_ttl ci) ttl /\ forall r, ttl = Some r -> r <= ci_max_ttl ci).
  { destruct ttl as [r|]; simpl in *; [case_decide; simplify_eq; split; [done|]; intros ? [= <-]; lia|].
    simplify_eq. split; done. }
  destruct Hspan as [-> Hmax]. unfold certified. split_and!; try done.
  - by destruct (gate s).
  - by exists row.
Qed.

(** C34. A share key is minted only when the caller itself may read the row and may
    perform every write the key certifies, for no longer than the ceiling when a
    lifetime is asked for; the key packs with others, its grant is good for that
    lifetime, and the mint leaves one audit row naming the caller, where a refused
    one leaves none. *)
Theorem share_certified ci caller table key level ttl s fresh issued_at :
  key_pair (encoding (ci_authority ci)) (decoding (ci_authority ci)) ->
  (exists u, to_json fresh = JStr u) -> issued_at / SECOND <= u64_max ->
  0 <= default (ci_ttl ci) ttl ->
  match issue ci caller table key level ttl s fresh issued_at with
  | (Ok c, events) =>
      certified ci caller level ttl s fresh /\
      events = (if ci_audit ci then [{| me_session := session_id caller;
        me_user := user_id <$> identity caller; me_op := CapabilityMinted; me_table := table;
        me_row := key |}] else []) /\
      exists exp, exp = sat_add u64_max (issued_at / SECOND) (default (ci_ttl ci) ttl / SECOND) /\
      forall now, now <= exp + 60 ->
        check_grant (SessionId := SessionId) (Id := Id) (ci_authority ci) (ic_token c) now =
          Ok {| subject := Capability (ic_key c); expires_at := Some exp |}
  | (Err _, events) => events = []
  end.
Proof.
  intros Hk Hj Hmax Hpos. destruct (issue _ _ _ _ _ _ _ _ _) as [[c|e] events] eqn:E.
  - destruct (issue_certified _ _ _ _ _ _ _ _ _ _ _ E) as (Hc & -> & _ & _ & Hm).
    split; [done|]. split.
    { unfold issue in E. apply pair_equal_spec in E as [E <-]. by rewrite E. }
    destruct (share_grant_window (ci_authority ci) Hk fresh issued_at _ _ Hj Hmax Hpos Hm)
      as (exp & He & Hgood & _). by exists exp.
  - unfold issue in E. apply pair_equal_spec in E as [E <-]. by rewrite E.
Qed.
End Share.
