(* ===== verification/Delivery.v ===== *)
(** Delivering subscriptions to one connection: the read half of
    connetto-server/src/session.rs.

    A session serves a subscription by a snapshot in pages or by a catchup from
    the reconnect log, then by live patches the feed puts on its channel. Rows
    wait in one queue behind the client's delivery credits. The session's own
    state and the routes it holds are the [World]; everything else the handlers
    consult is the interface [Outside]: the database reads, the engine that
    matches changes to subscriptions, the policy, the guard's meters, the link,
    and what the other tasks put on the session's channel between two steps. *)

From Stdlib Require Import ZArith Lia Ascii.
From stdpp Require Import base list numbers option strings gmap fin_maps.
From S2P Require Import Prelude Wire Backoff Throttle Guard Cursor Oplog Catchup Caller.

Open Scope Z_scope.

(** ** What a deployment brings *)

Class Wares := {
  Position : Type;
  Position_ops :: PgPosition Position;
  Fence : Type;
  Fence_ops :: PgFence Position Fence;
  (** The content of a change, a page's resume key, a bound value. *)
  Change : Type;
  PageKey : Type;
  Bind : Type;
  (** The types a caller is made of. *)
  SessionId : Type;
  Id : Type;
  Key : Type;
  Key_ops :: CapabilityKey Key;
  (** The first table a statement reads, when the parser finds one. *)
  table_from_select : string -> option string;
  compress : bytes -> Result bytes string;
  (** Configuration. *)
  read_limits : Tier -> ReadLimits;
  key_tables : option (list string);
  caller_function : option string;
  subject_set_function : option string;
}.

Section Delivery.
Context {WA : Wares}.

Notation Record_ := (ChangeRecord Position Change).
Notation Event := (PgChangeEvent Position Change).
Notation RFence := (ReadFence Fence).

(** The double quote. *)
Definition QUOTE : ascii := Ascii.ascii_of_nat 34.

Definition retry_ms (wait : Z) : Z := Z.min u64_max (as_millis wait).

Definition Viewer := Principal SessionId Id Key.

Definition viewer_tier (v : Viewer) : Tier :=
  match identity v with Some _ => Identified | None => Anonymous end.

Definition rendered_keys (keys : list Key) : gset string := list_to_set (key_text <$> keys).

(** ** Data *)

Inductive FullResyncReason :=
| CursorOutsideRetention
| AuthorizationChange
| TableTruncated (table : string)
| SnapshotInterrupted
| CursorBeyondHistory.

Record MemberTable := {
  mt_table : string; mt_subject : string; mt_identity : bool; mt_subjects : bool;
}.

Record RowRegistration := {
  rg_consumer : Z; rg_sub : Z; pg_sql : string; member_tables : list MemberTable;
  reads_subjects : bool;
}.

Record Subscribe := {
  sub_id : string; spec_query : string; spec_binds : list Bind; spec_priority : Z;
}.

Record ComputedCapture := { cap_sub : Z; cap_consumer : Z; per_viewer : bool }.

Inductive Registration := RegRow (sub : Z) | RegComputed (c : ComputedCapture).

Record Registered := {
  registration : Registration; rd_sql : string; rd_members : list MemberTable; rd_subjects : bool;
}.

Definition into_row (r : Registered) (consumer : Z) : Result RowRegistration ComputedCapture :=
  match registration r with
  | RegRow s => Ok {| rg_consumer := consumer; rg_sub := s; pg_sql := rd_sql r;
                      member_tables := rd_members r; reads_subjects := rd_subjects r |}
  | RegComputed c => Err c
  end.

Record AggregateUpdate := {
  au_sub : string; au_key : option bytes; au_values : option string; au_result : option string;
  au_full : bool;
}.

(** A computed result before it has a label. *)
Record ComputedChange := {
  cc_key : option bytes; cc_values : option string; cc_result : option string; cc_full : bool;
}.

Definition labelled (label : string) (c : ComputedChange) : AggregateUpdate := {|
  au_sub := label; au_key := cc_key c; au_values := cc_values c; au_result := cc_result c;
  au_full := cc_full c |}.

Inductive BulkMessage :=
| LivePatch (label : string) (cursor payload : bytes)
| SnapshotPatch (label : string) (payload : bytes).

Definition bulk_label (m : BulkMessage) : string :=
  match m with LivePatch l _ _ | SnapshotPatch l _ => l end.

(** Why a connection is closed: a rate limit, or what another task says. *)
Inductive FatalReason := FatalRateLimited (retry_after_ms : Z) | FatalOther (detail : string).

(** The frames the session sends that this file models. *)
Inductive OutFrame :=
| OBulk (m : BulkMessage)
| OSnapshotEnd (label : string) (cursor : bytes)
| OSnapshotBegin (label : string) (priority : Z)
| OFullResync (label : string) (reason : FullResyncReason)
| ORefused (label : string)
| ORateLimited (related_to : string) (retry_after_ms : Z)
| OMembershipOpened (label table : string)
| OAggregate (u : AggregateUpdate)
| OShareKeysReplaced (request_id : string)
| OPong (nonce : Z)
| OFatal (reason : FatalReason)
| OPaused
| OResumed
| OOther (control : string).

(** A slot of the unreserved reader share. *)
Definition Permit := option Z.

Inductive Outbound :=
| Live (label : string) (cursor payload : bytes)
| Aggregate (u : AggregateUpdate)
| Fatal (reason : FatalReason)
| Drop
| Control (f : OutFrame)
| Resnapshot (label : string) (reason : FullResyncReason)
| ReservedResnapshot (label : string) (owner : Z * Z) (permit : Permit)
| Rebootstrap (label : string) (retired : Z)
| Refuse (label : string).

Inductive Deliverable :=
| Rows (m : BulkMessage)
| SnapshotComplete (label : string) (cursor : bytes).

Definition costs_credit (d : Deliverable) : bool :=
  match d with Rows _ => true | SnapshotComplete _ _ => false end.

Definition deliverable_label (d : Deliverable) : string :=
  match d with Rows m => bulk_label m | SnapshotComplete l _ => l end.

(** The channel of a route is this session's. *)
Record Route := {
  rt_sub : Z; rt_label : string; rt_viewer : Viewer; rt_table : option string; rt_sql : string;
  rt_binds : list Bind; rt_members : list MemberTable; rt_fence : option RFence;
}.

Record RowSub := {
  rs_reg : RowRegistration; rs_sub : Subscribe; first_delivery : option Z; rs_delivered : Z;
  warned : bool;
}.

Record PagedRead := {
  pr_label : string; pr_sub : Subscribe; pr_reg : RowRegistration; pr_after : PageKey;
  pr_max_rows : Z; pr_limits : ReadLimits; pr_width : Z; pr_cursor : bytes; pr_delivered : Z;
  pr_restarted : bool; pr_tier : Tier; pr_permit : option Permit;
}.

Record ReadStart := {
  st_sub : Subscribe; st_reg : RowRegistration; st_tier : Tier; st_permit : option Permit;
  st_restarted : bool;
}.

Record MissedReplay := {
  ms_label : string; ms_consumer : Z; ms_fence : RFence; ms_cursor : bytes;
}.

Record ComputedSub := { cs_id : Z; cs_sub : Subscribe; cs_rebinds : bool }.

Record SnapshotPage := {
  patchset : bytes; page_cursor : bytes; next : option PageKey; filled : bool; widest_row : Z;
  page_rows_count : Z; page_size : Z;
}.

Record SnapshotEstimate := { est_width : Z }.

Inductive ReadFailure := ReadTimeout | ReadOther.

(** What a change does to a caller's copy of its row. *)
Inductive Transition := Nothing | Deliver | Withdraw.

(** Why a read was refused. *)
Inductive SubscribeRefusal :=
| TableTooWide (width ceiling : Z)
| WideRow (bytes ceiling average : Z)
| Unpageable (cap : Z)
| Interrupted (detail : string)
| EstimateFailed (detail : string)
| TimedOut (detail : string).

(** Errors that end a handler: the first two are caught by the subscription they
    concern. [EPending] stands for a handler still retrying. *)
Inductive DError :=
| ESnapshot (detail : string)
| EReadRefused (cause : SubscribeRefusal)
| ETransport
| EOplog (detail : string)
| EEngine (detail : string)
| EStream
| EPending.

(** A refused advance of a cursor in the engine. *)
Inductive AdvanceError := NonMonotonic | AdvanceFailed (detail : string).

(** What an error answer from the log says: whether reading again may help. *)
Record LogError := { transient : bool; log_detail : string }.

(** ** The other parties *)

Class Outside (En : Type) := {
  (** What the other tasks put on this session's channel while it waits, given
      the routes it holds. *)
  meanwhile : gmap Z Route -> gmap Z string -> En -> list Outbound * En;
  (** The same while the session keeps the feed from dispatching. *)
  meanwhile_gated : gmap Z Route -> gmap Z string -> En -> list Outbound * En;
  (** Whether a frame reaches the link. *)
  sends : OutFrame -> En -> bool * En;
  history_now : En -> TimelineHistory;
  estimate : string -> list Bind -> Viewer -> En -> Result SnapshotEstimate string * En;
  snapshot_page : string -> list Bind -> Viewer -> option PageKey -> Z -> Z -> En ->
    Result SnapshotPage (ReadFailure * string) * En;
  log_min_position : En -> Result (option Position) LogError * En;
  log_current_position : En -> Result (option Position) LogError * En;
  log_entries_of : Unseen -> En -> Result (list Record_) LogError * En;
  log_entries_since : Position -> En -> Result (list Record_) LogError * En;
  (** The engine. *)
  register : Z -> Subscribe -> Viewer -> En -> Result Registered string * En;
  replay_match : Event -> Z -> En -> Result (option bool) string * En;
  departure_notice : Event -> En -> Result (option bytes) string * En;
  withdrawal_patch : Event -> En -> Result (option bytes) string * En;
  advance_cursor : Z -> bytes -> En -> Result unit AdvanceError * En;
  first_answer : ComputedCapture -> Viewer -> En -> Result (list ComputedChange) string * En;
  event_table : Event -> En -> string;
  (** How often the policy fails to answer before it does, and its answer for one
      caller; an error is one that asking again would not cure. *)
  transition : Event -> Viewer -> En -> (nat * Result Transition unit) * En;
  (** The guard. *)
  reader_permit : Tier -> En -> Result Permit Z * En;
  meter_subscription : Tier -> En -> option Z * En;
  unresolvable_subscription : En -> Reaction * En;
  refused_grants : Z -> En -> Reaction * En;
  (** [resolve_grants] on the keys of a swap. *)
  resolve_keys : list string -> En -> ResolvedGrants SessionId Id Key * En;
  now_secs : En -> Z;
  (** The retry schedule's seed, and how many attempts of an unbounded retry are
      looked at. *)
  episode_seed : En -> Z * En;
  patience : En -> nat;
}.

Context {En : Type} {OU : Outside En}.

(** ** The session *)

Record World := {
  credits : Z; pending : list Deliverable; subs : gmap string RowSub; paging : list PagedRead;
  missed_replays : list MissedReplay; computed_subs : gmap string ComputedSub; viewer : Viewer;
  resume : Resume Position Fence; read_budget : Z; cursor_subjects : option (gset string);
  closing : bool;
  (** When each held key dies, and the reader slot remembered without holding it. *)
  held_expiry : gmap string Z; reservation : Permit;
  (** Whether the session holds the dispatch gate. *)
  gated : bool;
  (** The session's channel, oldest first. *)
  channel : list Outbound;
  (** This session's routes in the manager's tables, and its registrations in the
      engine. *)
  routes : gmap Z Route; computed_routes : gmap Z string; engine : gset Z;
  next_consumer : Z;
  (** The frames sent, oldest first. *)
  sent : list OutFrame;
  env : En;
}.

Definition with_credits (n : Z) (w : World) : World := {|
  credits := n; pending := pending w; subs := subs w; paging := paging w;
  missed_replays := missed_replays w; computed_subs := computed_subs w; viewer := viewer w;
  resume := resume w; read_budget := read_budget w; cursor_subjects := cursor_subjects w;
  closing := closing w; held_expiry := held_expiry w;
  reservation := reservation w; gated := gated w; channel := channel w; routes := routes w;
  computed_routes := computed_routes w; engine := engine w; next_consumer := next_consumer w;
  sent := sent w; env := env w |}.

Definition with_queue (q : list Deliverable) (w : World) : World := {|
  credits := credits w; pending := q; subs := subs w; paging := paging w;
  missed_replays := missed_replays w; computed_subs := computed_subs w; viewer := viewer w;
  resume := resume w; read_budget := read_budget w; cursor_subjects := cursor_subjects w;
  closing := closing w; held_expiry := held_expiry w;
  reservation := reservation w; gated := gated w; channel := channel w; routes := routes w;
  computed_routes := computed_routes w; engine := engine w; next_consumer := next_consumer w;
  sent := sent w; env := env w |}.

Definition with_subs (m : gmap string RowSub) (w : World) : World := {|
  credits := credits w; pending := pending w; subs := m; paging := paging w;
  missed_replays := missed_replays w; computed_subs := computed_subs w; viewer := viewer w;
  resume := resume w; read_budget := read_budget w; cursor_subjects := cursor_subjects w;
  closing := closing w; held_expiry := held_expiry w;
  reservation := reservation w; gated := gated w; channel := channel w; routes := routes w;
  computed_routes := computed_routes w; engine := engine w; next_consumer := next_consumer w;
  sent := sent w; env := env w |}.

Definition with_paging (l : list PagedRead) (w : World) : World := {|
  credits := credits w; pending := pending w; subs := subs w; paging := l;
  missed_replays := missed_replays w; computed_subs := computed_subs w; viewer := viewer w;
  resume := resume w; read_budget := read_budget w; cursor_subjects := cursor_subjects w;
  closing := closing w; held_expiry := held_expiry w;
  reservation := reservation w; gated := gated w; channel := channel w; routes := routes w;
  computed_routes := computed_routes w; engine := engine w; next_consumer := next_consumer w;
  sent := sent w; env := env w |}.

Definition with_missed (l : list MissedReplay) (w : World) : World := {|
  credits := credits w; pending := pending w; subs := subs w; paging := paging w;
  missed_replays := l; computed_subs := computed_subs w; viewer := viewer w;
  resume := resume w; read_budget := read_budget w; cursor_subjects := cursor_subjects w;
  closing := closing w; held_expiry := held_expiry w;
  reservation := reservation w; gated := gated w; channel := channel w; routes := routes w;
  computed_routes := computed_routes w; engine := engine w; next_consumer := next_consumer w;
  sent := sent w; env := env w |}.

Definition with_computed (m : gmap string ComputedSub) (w : World) : World := {|
  credits := credits w; pending := pending w; subs := subs w; paging := paging w;
  missed_replays := missed_replays w; computed_subs := m; viewer := viewer w;
  resume := resume w; read_budget := read_budget w; cursor_subjects := cursor_subjects w;
  closing := closing w; held_expiry := held_expiry w;
  reservation := reservation w; gated := gated w; channel := channel w; routes := routes w;
  computed_routes := computed_routes w; engine := engine w; next_consumer := next_consumer w;
  sent := sent w; env := env w |}.

Definition with_budget (b : Z) (w : World) : World := {|
  credits := credits w; pending := pending w; subs := subs w; paging := paging w;
  missed_replays := missed_replays w; computed_subs := computed_subs w; viewer := viewer w;
  resume := resume w; read_budget := b; cursor_subjects := cursor_subjects w;
  closing := closing w; held_expiry := held_expiry w;
  reservation := reservation w; gated := gated w; channel := channel w; routes := routes w;
  computed_routes := computed_routes w; engine := engine w; next_consumer := next_consumer w;
  sent := sent w; env := env w |}.

Definition with_closing (w : World) : World := {|
  credits := credits w; pending := pending w; subs := subs w; paging := paging w;
  missed_replays := missed_replays w; computed_subs := computed_subs w; viewer := viewer w;
  resume := resume w; read_budget := read_budget w; cursor_subjects := cursor_subjects w;
  closing := true; held_expiry := held_expiry w;
  reservation := reservation w; gated := gated w; channel := channel w; routes := routes w;
  computed_routes := computed_routes w; engine := engine w; next_consumer := next_consumer w;
  sent := sent w; env := env w |}.

Definition with_routes (m : gmap Z Route) (w : World) : World := {|
  credits := credits w; pending := pending w; subs := subs w; paging := paging w;
  missed_replays := missed_replays w; computed_subs := computed_subs w; viewer := viewer w;
  resume := resume w; read_budget := read_budget w; cursor_subjects := cursor_subjects w;
  closing := closing w; held_expiry := held_expiry w;
  reservation := reservation w; gated := gated w; channel := channel w; routes := m;
  computed_routes := computed_routes w; engine := engine w; next_consumer := next_consumer w;
  sent := sent w; env := env w |}.

Definition with_computed_routes (m : gmap Z string) (w : World) : World := {|
  credits := credits w; pending := pending w; subs := subs w; paging := paging w;
  missed_replays := missed_replays w; computed_subs := computed_subs w; viewer := viewer w;
  resume := resume w; read_budget := read_budget w; cursor_subjects := cursor_subjects w;
  closing := closing w; held_expiry := held_expiry w;
  reservation := reservation w; gated := gated w; channel := channel w; routes := routes w;
  computed_routes := m; engine := engine w; next_consumer := next_consumer w;
  sent := sent w; env := env w |}.

Definition with_engine (e : gset Z) (w : World) : World := {|
  credits := credits w; pending := pending w; subs := subs w; paging := paging w;
  missed_replays := missed_replays w; computed_subs := computed_subs w; viewer := viewer w;
  resume := resume w; read_budget := read_budget w; cursor_subjects := cursor_subjects w;
  closing := closing w; held_expiry := held_expiry w;
  reservation := reservation w; gated := gated w; channel := channel w; routes := routes w;
  computed_routes := computed_routes w; engine := e; next_consumer := next_consumer w;
  sent := sent w; env := env w |}.

Definition with_next_consumer (n : Z) (w : World) : World := {|
  credits := credits w; pending := pending w; subs := subs w; paging := paging w;
  missed_replays := missed_replays w; computed_subs := computed_subs w; viewer := viewer w;
  resume := resume w; read_budget := read_budget w; cursor_subjects := cursor_subjects w;
  closing := closing w; held_expiry := held_expiry w;
  reservation := reservation w; gated := gated w; channel := channel w; routes := routes w;
  computed_routes := computed_routes w; engine := engine w; next_consumer := n;
  sent := sent w; env := env w |}.

Definition with_sent (l : list OutFrame) (w : World) : World := {|
  credits := credits w; pending := pending w; subs := subs w; paging := paging w;
  missed_replays := missed_replays w; computed_subs := computed_subs w; viewer := viewer w;
  resume := resume w; read_budget := read_budget w; cursor_subjects := cursor_subjects w;
  closing := closing w; held_expiry := held_expiry w;
  reservation := reservation w; gated := gated w; channel := channel w; routes := routes w;
  computed_routes := computed_routes w; engine := engine w; next_consumer := next_consumer w;
  sent := l; env := env w |}.

(** A swap of the caller forgets the keys the resume cursor was stored under. *)
Definition with_viewer (v : Viewer) (w : World) : World := {|
  credits := credits w; pending := pending w; subs := subs w; paging := paging w;
  missed_replays := missed_replays w; computed_subs := computed_subs w; viewer := v;
  resume := resume w; read_budget := read_budget w; cursor_subjects := None;
  closing := closing w; held_expiry := held_expiry w;
  reservation := reservation w; gated := gated w; channel := channel w; routes := routes w;
  computed_routes := computed_routes w; engine := engine w; next_consumer := next_consumer w;
  sent := sent w; env := env w |}.

Definition with_expiry (m : gmap string Z) (w : World) : World := {|
  credits := credits w; pending := pending w; subs := subs w; paging := paging w;
  missed_replays := missed_replays w; computed_subs := computed_subs w; viewer := viewer w;
  resume := resume w; read_budget := read_budget w; cursor_subjects := cursor_subjects w;
  closing := closing w; held_expiry := m;
  reservation := reservation w; gated := gated w; channel := channel w; routes := routes w;
  computed_routes := computed_routes w; engine := engine w; next_consumer := next_consumer w;
  sent := sent w; env := env w |}.

Definition with_reservation (p : Permit) (w : World) : World := {|
  credits := credits w; pending := pending w; subs := subs w; paging := paging w;
  missed_replays := missed_replays w; computed_subs := computed_subs w; viewer := viewer w;
  resume := resume w; read_budget := read_budget w; cursor_subjects := cursor_subjects w;
  closing := closing w; held_expiry := held_expiry w;
  reservation := p; gated := gated w; channel := channel w; routes := routes w;
  computed_routes := computed_routes w; engine := engine w; next_consumer := next_consumer w;
  sent := sent w; env := env w |}.

Definition with_gate (b : bool) (w : World) : World := {|
  credits := credits w; pending := pending w; subs := subs w; paging := paging w;
  missed_replays := missed_replays w; computed_subs := computed_subs w; viewer := viewer w;
  resume := resume w; read_budget := read_budget w; cursor_subjects := cursor_subjects w;
  closing := closing w; held_expiry := held_expiry w;
  reservation := reservation w; gated := b; channel := channel w; routes := routes w;
  computed_routes := computed_routes w; engine := engine w; next_consumer := next_consumer w;
  sent := sent w; env := env w |}.

Definition with_channel (l : list Outbound) (w : World) : World := {|
  credits := credits w; pending := pending w; subs := subs w; paging := paging w;
  missed_replays := missed_replays w; computed_subs := computed_subs w; viewer := viewer w;
  resume := resume w; read_budget := read_budget w; cursor_subjects := cursor_subjects w;
  closing := closing w; held_expiry := held_expiry w;
  reservation := reservation w; gated := gated w; channel := l; routes := routes w;
  computed_routes := computed_routes w; engine := engine w; next_consumer := next_consumer w;
  sent := sent w; env := env w |}.

(** The other tasks' step. *)
Definition with_env (l : list Outbound) (e : En) (w : World) : World := {|
  credits := credits w; pending := pending w; subs := subs w; paging := paging w;
  missed_replays := missed_replays w; computed_subs := computed_subs w; viewer := viewer w;
  resume := resume w; read_budget := read_budget w; cursor_subjects := cursor_subjects w;
  closing := closing w; held_expiry := held_expiry w;
  reservation := reservation w; gated := gated w; channel := channel w ++ l; routes := routes w;
  computed_routes := computed_routes w; engine := engine w; next_consumer := next_consumer w;
  sent := sent w; env := e |}.

(** ** Effects

    A handler threads the world and may end in an error that keeps what was done
    before it. Every await lets the other tasks run first. *)

Definition DM (A : Type) : Type := World -> Result A DError * World.

Definition dret {A} (a : A) : DM A := fun w => (Ok a, w).
Definition dfail {A} (e : DError) : DM A := fun w => (Err e, w).
Definition dbind {A B} (m : DM A) (k : A -> DM B) : DM B :=
  fun w => match m w with (Ok a, w') => k a w' | (Err e, w') => (Err e, w') end.
Definition dget : DM World := fun w => (Ok w, w).
Definition dmod (f : World -> World) : DM unit := fun w => (Ok tt, f w).
Definition dlift {A} (r : Result A DError) : DM A := fun w => (r, w).

(** Runs [m] and hands its error to the caller as a value. *)
Definition dtry {A} (m : DM A) : DM (Result A DError) := fun w => (Ok (m w).1, (m w).2).

#[local] Notation "'let*' x ':=' m 'in' k" := (dbind m (fun x => k))
  (at level 200, x pattern, m at level 99, k at level 200, right associativity).
#[local] Notation "m ;; k" := (dbind m (fun _ => k)) (at level 100, right associativity).

Definition await : DM unit := fun w =>
  let others := if gated w then meanwhile_gated else meanwhile in
  let '(l, e) := others (routes w) (computed_routes w) (env w) in (Ok tt, with_env l e w).

(** A call of another part that does not wait, and one that does. *)
Definition call {A} (f : En -> A * En) : DM A := fun w =>
  let '(a, e) := f (env w) in (Ok a, with_env [] e w).

Definition ask {A} (f : En -> A * En) : DM A := await ;; call f.

(** [state.outbound.send]. *)
Definition put (o : Outbound) : DM unit := dmod (fun w => with_env [o] (env w) w).

Definition send (f : OutFrame) : DM unit :=
  let* ok := ask (sends f) in
  if ok then dmod (fun w => with_sent (sent w ++ [f]) w) else dfail ETransport.

(** [let _ = transport.send_control(..)]. *)
Definition try_send (f : OutFrame) : DM unit := let* _ := dtry (send f) in dret tt.

Definition history : DM TimelineHistory := let* w := dget in dret (history_now (env w)).

(** ** The queue *)

(** The loop over the queue, which it has popped down to [q]. *)
Fixpoint flush_queue (q : list Deliverable) : DM unit :=
  match q with
  | [] => dret tt
  | d :: q' =>
      let* w := dget in
      if bool_decide (credits w = 0) && costs_credit d then dret tt
      else
        dmod (with_queue q') ;;
        match d with
        | Rows m => send (OBulk m) ;; dmod (fun w => with_credits (credits w - 1) w)
        | SnapshotComplete l c => send (OSnapshotEnd l c)
        end ;;
        flush_queue q'
  end.

Definition flush : DM unit := let* w := dget in flush_queue (pending w).

Definition enqueue_and_flush (d : Deliverable) : DM unit :=
  dmod (fun w => with_queue (pending w ++ [d]) w) ;; flush.

(** ** Sizes *)

Definition GROWTH_WARN_FACTOR : Z := 100.

Definition page_rows (budget width : Z) : Z :=
  Z.max 1 (default u32_max (try_into u32_max (budget / Z.max width 1))).

(** [note_delivered]: the warning is a line of the log. *)
Definition noted (bytes budget : Z) (r : RowSub) : RowSub :=
  let delivered := sat_add u64_max (rs_delivered r) bytes in
  {| rs_reg := rs_reg r; rs_sub := rs_sub r; first_delivery := first_delivery r;
     rs_delivered := delivered;
     warned := warned r || match first_delivery r with
       | Some first => bool_decide (sat_mul u64_max (Z.max first budget) GROWTH_WARN_FACTOR < delivered)
       | None => false
       end |}.

Definition note_delivered (label : string) (bytes budget : Z) (w : World) : World :=
  with_subs (alter (noted bytes budget) label (subs w)) w.

Definition admit_page (page : SnapshotPage) (max_rows average : Z) (limits : ReadLimits) :
    Result unit SubscribeRefusal :=
  if decide (row_ceiling limits < widest_row page) then
    Err (WideRow (widest_row page) (row_ceiling limits) average)
  else
    match filled page, next page with
    | true, None => Err (Unpageable max_rows)
    | _, _ => Ok tt
    end.

(** ** Registrations and routes *)

Definition membership_label (table : string) : string := "connetto-membership:" +:+ table.

Definition add_route (consumer : Z) (r : Route) : DM unit :=
  await ;; dmod (fun w => with_routes (<[consumer := r]> (routes w)) w).

Definition remove_route (consumer : Z) : DM unit :=
  await ;; dmod (fun w => with_routes (delete consumer (routes w)) w).

Definition add_computed_route (sub : Z) (label : string) : DM unit :=
  await ;; dmod (fun w => with_computed_routes (<[sub := label]> (computed_routes w)) w).

Definition remove_computed_route (sub : Z) : DM unit :=
  await ;; dmod (fun w => with_computed_routes (delete sub (computed_routes w)) w).

Definition unregister (sub : Z) : DM unit :=
  await ;; dmod (fun w => with_engine (engine w ∖ {[sub]}) w).

Definition next_consumer_id : DM Z := fun w =>
  (Ok (next_consumer w), with_next_consumer (next_consumer w + 1) w).

Definition registered_id (r : Registered) : Z :=
  match registration r with RegRow s => s | RegComputed c => cap_sub c end.

(** [register_subscription]: translation, seeds and registration are the engine's. *)
Definition register_subscription (consumer : Z) (sub : Subscribe) : DM (Result Registered string) :=
  let* w := dget in
  let* r := ask (register consumer sub (viewer w)) in
  match r with
  | Ok reg => dmod (fun w => with_engine ({[registered_id reg]} ∪ engine w) w) ;; dret (Ok reg)
  | Err e => dret (Err e)
  end.

(** A resnapshot records the same subscription again, so what it delivered
    carries over. *)
Definition recorded (sub : Subscribe) (reg : RowRegistration) (old : option RowSub) : RowSub :=
  match old with
  | Some r => {| rs_reg := reg; rs_sub := sub; first_delivery := first_delivery r;
                 rs_delivered := rs_delivered r; warned := warned r |}
  | None => {| rs_reg := reg; rs_sub := sub; first_delivery := None; rs_delivered := 0;
               warned := false |}
  end.

Definition route_of (sub : Subscribe) (reg : RowRegistration) (v : Viewer) (f : option RFence) : Route := {|
  rt_sub := rg_sub reg; rt_label := sub_id sub; rt_viewer := v;
  rt_table := table_from_select (pg_sql reg); rt_sql := pg_sql reg; rt_binds := spec_binds sub;
  rt_members := member_tables reg; rt_fence := f |}.

Definition attach_row_route (sub : Subscribe) (reg : RowRegistration) (f : option RFence) : DM unit :=
  let* w := dget in
  add_route (rg_consumer reg) (route_of sub reg (viewer w) f) ;;
  dmod (fun w => with_subs (<[sub_id sub := recorded sub reg (subs w !! sub_id sub)]> (subs w)) w).

Definition without_label (label : string) (l : list PagedRead) : list PagedRead :=
  filter (fun r => pr_label r <> label) l.

(** The membership subscriptions of [tables] that no subscription of [m] needs. *)
Definition still_needed (m : gmap string RowSub) (table : string) : bool :=
  existsb (fun p => existsb (fun t => bool_decide (mt_table t = table)) (member_tables (rs_reg p.2)))
    (map_to_list m).

Fixpoint take_members (tables : list MemberTable) (w : World) : list (Z * Z) * World :=
  match tables with
  | [] => ([], w)
  | t :: tables' =>
      if still_needed (subs w) (mt_table t) then take_members tables' w
      else
        let hidden := membership_label (mt_table t) in
        let w := with_paging (without_label hidden (paging w)) w in
        match subs w !! hidden with
        | Some h =>
            let '(taken, w) := take_members tables' (with_subs (delete hidden (subs w)) w) in
            ((rg_consumer (rs_reg h), rg_sub (rs_reg h)) :: taken, w)
        | None => take_members tables' w
        end
  end.

Definition take_row_subscription (label : string) (w : World) : list (Z * Z) * World :=
  let w := with_paging (without_label label (paging w)) w in
  match subs w !! label with
  | None => ([], w)
  | Some row =>
      let '(taken, w) := take_members (member_tables (rs_reg row)) (with_subs (delete label (subs w)) w) in
      ((rg_consumer (rs_reg row), rg_sub (rs_reg row)) :: taken, w)
  end.

Fixpoint release (taken : list (Z * Z)) : DM unit :=
  match taken with
  | [] => dret tt
  | (consumer, sub) :: taken' => remove_route consumer ;; unregister sub ;; release taken'
  end.

Definition take_and_release (label : string) : DM unit :=
  let* taken := (fun w => let '(t, w') := take_row_subscription label w in (Ok t, w')) in
  release taken.

Definition refuse_subscription (label : string) : DM unit :=
  take_and_release label ;; send (ORefused label).

(** ** Snapshots *)

Definition stamp_fenced (h : TimelineHistory) (read : Position) (f : option RFence) : bytes :=
  stamp h read ++ match f with Some f => encode_fence (P := Position) f | None => [] end.

Definition first_page_end (h : TimelineHistory) (cursor : bytes) (label : string) (consumer : Z) :
    bytes * option MissedReplay :=
  match split_snapshot_cursor (P := Position) (F := Fence) cursor with
  | None => ([], None)
  | Some (read, f) =>
      let c := stamp_fenced h read f in
      (c, (fun f => {| ms_label := label; ms_consumer := consumer; ms_fence := f; ms_cursor := c |}) <$> f)
  end.

Definition send_page (label : string) (patch : bytes) : DM Z :=
  match compress patch with
  | Err e => dfail (EEngine e)
  | Ok payload =>
      enqueue_and_flush (Rows (SnapshotPatch label payload)) ;; dret (Z.of_nat (length payload))
  end.

(** The delivery counters at a snapshot's end. *)
Definition completed (delivered : Z) (r : RowSub) : RowSub := {|
  rs_reg := rs_reg r; rs_sub := rs_sub r;
  first_delivery := match first_delivery r with Some f => Some f | None => Some delivered end;
  rs_delivered := sat_add u64_max (rs_delivered r) delivered; warned := warned r |}.

Definition complete_snapshot (label : string) (cursor : bytes) (delivered : Z) : DM unit :=
  dmod (fun w => with_subs (alter (completed delivered) label (subs w)) w) ;;
  enqueue_and_flush (SnapshotComplete label cursor).

Definition snapshot_row (start : ReadStart) (resync : option FullResyncReason) : DM unit :=
  let sub := st_sub start in
  let reg := st_reg start in
  let label := sub_id sub in
  attach_row_route sub reg None ;;
  dmod (fun w => with_paging (without_label label (paging w)) w) ;;
  dmod (fun w => with_missed (filter (fun r => ms_label r <> label) (missed_replays w)) w) ;;
  let limits := read_limits (st_tier start) in
  let* w := dget in
  let* est := ask (estimate (pg_sql reg) (spec_binds sub) (viewer w)) in
  let* est := dlift (map_err (fun e => EReadRefused (EstimateFailed e)) est) in
  if decide (row_ceiling limits < est_width est) then
    dfail (EReadRefused (TableTooWide (est_width est) (row_ceiling limits)))
  else
    let max_rows := page_rows (page_bytes limits) (est_width est) in
    let* w := dget in
    let* page := ask (snapshot_page (pg_sql reg) (spec_binds sub) (viewer w) None max_rows
                        (read_timeout limits)) in
    let* page := dlift (map_err (fun e => match e with
                   | (ReadTimeout, d) => EReadRefused (TimedOut d)
                   | (ReadOther, d) => ESnapshot d end) page) in
    dlift (map_err EReadRefused (admit_page page max_rows (est_width est) limits)) ;;
    let* h := history in
    let '(cursor, replay) := first_page_end h (page_cursor page) label (rg_consumer reg) in
    match resync with Some reason => send (OFullResync label reason) | None => dret tt end ;;
    send (OSnapshotBegin label (spec_priority sub)) ;;
    let* delivered := send_page label (patchset page) in
    dmod (fun w => with_missed (missed_replays w ++ option_list replay) w) ;;
    match next page with
    | Some after =>
        dmod (fun w => with_paging (paging w ++ [{| pr_label := label; pr_sub := sub; pr_reg := reg;
          pr_after := after; pr_max_rows := max_rows; pr_limits := limits; pr_width := est_width est;
          pr_cursor := cursor; pr_delivered := delivered; pr_restarted := st_restarted start;
          pr_tier := st_tier start; pr_permit := st_permit start |}]) w)
    | None => complete_snapshot label cursor delivered
    end.

(** A page after the first failed: the whole read is taken again once. *)
Definition restart_or_refuse (start : ReadStart) : DM unit :=
  let label := sub_id (st_sub start) in
  if st_restarted start then refuse_subscription label
  else
    let* r := dtry (snapshot_row {| st_sub := st_sub start; st_reg := st_reg start;
      st_tier := st_tier start; st_permit := st_permit start; st_restarted := true |}
      (Some SnapshotInterrupted)) in
    match r with
    | Ok _ => dret tt
    | Err (ESnapshot _) | Err (EReadRefused _) => refuse_subscription label
    | Err e => dfail e
    end.

(** The next page of a read still arriving, its subscription still held. *)
Definition read_next (r : PagedRead) : DM unit :=
  let label := pr_label r in
  let reg := pr_reg r in
  let* w := dget in
  let* page := ask (snapshot_page (pg_sql reg) (spec_binds (pr_sub r)) (viewer w)
                     (Some (pr_after r)) (pr_max_rows r) (read_timeout (pr_limits r))) in
  match page with
  | Err _ =>
      restart_or_refuse {| st_sub := pr_sub r; st_reg := reg; st_tier := pr_tier r;
        st_permit := pr_permit r; st_restarted := pr_restarted r |}
  | Ok page =>
      match admit_page page (pr_max_rows r) (pr_width r) (pr_limits r) with
      | Err _ => refuse_subscription label
      | Ok _ =>
          let measured :=
            if decide (page_rows_count page = 0) then pr_width r
            else default u32_max (try_into u32_max (page_size page / page_rows_count page)) in
          let max_rows := page_rows (page_bytes (pr_limits r)) measured in
          let* bytes := send_page label (patchset page) in
          let carried := sat_add u64_max (pr_delivered r) bytes in
          match next page with
          | Some after =>
              dmod (fun w => with_paging (paging w ++ [{| pr_label := label;
                pr_sub := pr_sub r; pr_reg := reg; pr_after := after; pr_max_rows := max_rows;
                pr_limits := pr_limits r; pr_width := measured; pr_cursor := pr_cursor r;
                pr_delivered := carried; pr_restarted := pr_restarted r;
                pr_tier := pr_tier r; pr_permit := pr_permit r |}]) w)
          | None => complete_snapshot label (pr_cursor r) carried
          end
      end
  end.

Definition pump_page : DM unit :=
  let* w := dget in
  if bool_decide (credits w = 0) || negb (bool_decide (pending w = [])) then dret tt
  else
    match paging w with
    | [] => dret tt
    | r :: rest =>
        dmod (with_paging rest) ;;
        match subs w !! pr_label r with
        | None => dret tt
        | Some _ => read_next r
        end
    end.

(** Each attempt looks the subscription up afresh; an outage is retried for as
    long as it lasts, [fuel] attempts of which are looked at. *)
Fixpoint resnapshot_loop (fuel : nat) (label : string) (reason : FullResyncReason) (permit : option Permit) :
    DM unit :=
  let* w := dget in
  match subs w !! label with
  | None => dret tt
  | Some row =>
      let* r := dtry (snapshot_row {| st_sub := rs_sub row; st_reg := rs_reg row;
        st_tier := viewer_tier (viewer w); st_permit := permit; st_restarted := false |}
        (Some reason)) in
      match r with
      | Ok _ => dret tt
      | Err (ESnapshot _) =>
          match fuel with
          | O => dfail EPending
          | S fuel' => await ;; resnapshot_loop fuel' label reason permit
          end
      | Err (EReadRefused _) => refuse_subscription label
      | Err e => dfail e
      end
  end.

Definition resnapshot_row (label : string) (reason : FullResyncReason) (permit : option Permit) : DM unit :=
  dmod (fun w => with_queue (filter (fun d => deliverable_label d <> label) (pending w)) w) ;;
  dmod (fun w => with_paging (without_label label (paging w)) w) ;;
  let* w := dget in
  resnapshot_loop (patience (env w)) label reason permit.

(** ** Reads of the reconnect log *)

(** The waits of one read are taken from what is left of the connection's
    budget. *)
Fixpoint read_loop {R} (fuel : nat) (read : En -> Result R LogError * En) (episode : Backoff) : DM R :=
  let* r := ask read in
  match r with
  | Ok v => dret v
  | Err e =>
      if negb (transient e) then dfail (EOplog (log_detail e))
      else
        let* w := dget in
        if decide (read_budget w = 0) then dfail (EOplog (log_detail e))
        else
          match next_wait default_policy episode, fuel with
          | (Some wait, episode'), S fuel' =>
              dmod (with_budget (read_budget w - Z.min wait (read_budget w))) ;;
              await ;; read_loop fuel' read episode'
          | _, _ => dfail (EOplog (log_detail e))
          end
  end.

(** The shortest wait is 100 ms, so the budget runs out first. *)
Definition read_fuel (budget : Z) : nat := Z.to_nat (budget / from_millis 100 + 2).

Definition read_log {R} (read : En -> Result R LogError * En) : DM R :=
  let* seed := call episode_seed in
  let* w := dget in
  read_loop (read_fuel (read_budget w)) read (with_seed seed).

(** ** Replays *)

Definition engine_answer {A} (f : En -> Result A string * En) : DM A :=
  let* r := ask f in dlift (map_err EEngine r).

(** What a replayed record delivers to this caller. *)
Definition replay_payload (record : Record_) (departing : bool) : DM (option bytes) :=
  let event := r_event record in
  let* w := dget in
  let* a := ask (transition event (viewer w)) in
  let '(failures, answer) := a in
  (if decide (failures = 0%nat) then dret tt else try_send OPaused) ;;
  match answer with
  | Err _ => dfail EStream
  | Ok verdict =>
      (if decide (failures = 0%nat) then dret tt else try_send OResumed) ;;
      match verdict with
      | Nothing => dret None
      | Deliver =>
          if departing then
            let* notice := engine_answer (departure_notice event) in
            dret (Some (default (r_payload record) notice))
          else dret (Some (r_payload record))
      | Withdraw =>
          match kind event with
          | EDelete => dret (Some (r_payload record))
          | _ =>
              let* p := engine_answer (withdrawal_patch event) in
              match p with
              | Some p => dret (Some p)
              | None => dfail (EEngine "no operation to take the row back with")
              end
          end
      end
  end.

Definition is_truncate (r : Record_) : bool :=
  match kind (r_event r) with ETruncate => true | _ => false end.

(** The payloads of the records a fence missed, or that a truncate is among them. *)
Fixpoint missed_payloads (replay : MissedReplay) (records : list Record_) : DM (option (list bytes)) :=
  match records with
  | [] => dret (Some [])
  | r :: records' =>
      if negb (missed (Some (ms_fence replay)) r) then missed_payloads replay records'
      else
        let* matched := engine_answer (replay_match (r_event r) (ms_consumer replay)) in
        match matched with
        | None => missed_payloads replay records'
        | Some departing =>
            if is_truncate r then dret None
            else
              let* p := replay_payload r departing in
              let* rest := missed_payloads replay records' in
              dret ((fun l => option_list p ++ l) <$> rest)
        end
  end.

Fixpoint enqueue_all (ds : list Deliverable) : DM unit :=
  match ds with
  | [] => dret tt
  | d :: ds' => enqueue_and_flush d ;; enqueue_all ds'
  end.

Definition replay_one (replay : MissedReplay) : DM unit :=
  let* records := read_log (log_entries_of (unseen (P := Position) (ms_fence replay))) in
  let* payloads := missed_payloads replay records in
  match payloads with
  | None => refuse_subscription (ms_label replay)
  | Some ps =>
      enqueue_all ((fun p => Rows (LivePatch (ms_label replay) (ms_cursor replay) p)) <$> ps)
  end.

Fixpoint replay_each (l : list MissedReplay) : DM unit :=
  match l with
  | [] => dret tt
  | r :: l' => replay_one r ;; replay_each l'
  end.

Definition replay_missed : DM unit :=
  let* w := dget in dmod (with_missed []) ;; replay_each (missed_replays w).

(** The records of a catchup, each advancing the route's cursor and going out as
    a live patch. *)
Inductive Replayed := Finished | Replaced (reason : FullResyncReason).

Fixpoint replay_records (label : string) (reg : RowRegistration) (records : list Record_) : DM Replayed :=
  match records with
  | [] => dret Finished
  | r :: records' =>
      let* matched := engine_answer (replay_match (r_event r) (rg_consumer reg)) in
      match matched with
      | None => replay_records label reg records'
      | Some departing =>
          if is_truncate r then
            let* w := dget in dret (Replaced (TableTruncated (event_table (r_event r) (env w))))
          else
            let* p := replay_payload r departing in
            match p with
            | None => replay_records label reg records'
            | Some payload =>
                let* h := history in
                let cursor := stamp h (r_position r) in
                let* advanced := ask (advance_cursor (rg_sub reg) cursor) in
                match advanced with
                | Err (AdvanceFailed d) => dfail (EEngine d)
                | _ =>
                    enqueue_and_flush (Rows (LivePatch label cursor payload)) ;;
                    replay_records label reg records'
                end
            end
      end
  end.

Definition catch_up_row (sub : Subscribe) (reg : RowRegistration) (from : Position) (f : option RFence) :
    DM unit :=
  attach_row_route sub reg f ;;
  let* ceiling := read_log log_current_position in
  let* of_ := match f with
    | Some f => read_log (log_entries_of (unseen (P := Position) f))
    | None => dret []
    end in
  let* since_ := read_log (log_entries_since from) in
  let* min := read_log log_min_position in
  match catchup_decision from min ceiling with
  | FullResync => resnapshot_row (sub_id sub) CursorOutsideRetention None
  | Catchup =>
      let* r := replay_records (sub_id sub) reg
                  (Catchup.replayed ceiling (catchup_entries from f of_ since_)) in
      match r with
      | Replaced reason => resnapshot_row (sub_id sub) reason None
      | Finished =>
          let* h := history in
          enqueue_and_flush (SnapshotComplete (sub_id sub) (stamp h (default from ceiling)))
      end
  end.

(** ** Subscribing *)

Definition key_change_reaches (reg : RowRegistration) : bool :=
  reads_subjects reg ||
  match key_tables with
  | None => true
  | Some tables =>
      match table_from_select (pg_sql reg) with
      | None => true
      | Some t => bool_decide (t ∈ tables)
      end
  end.

Definition subscribe_row (sub : Subscribe) (reg : RowRegistration) (tier : Tier) (permit : option Permit) :
    DM unit :=
  let fresh resync := snapshot_row {| st_sub := sub; st_reg := reg; st_tier := tier;
    st_permit := permit; st_restarted := false |} resync in
  let* w := dget in
  match resume w with
  | Fresh => fresh None
  | BeyondHistory => fresh (Some CursorBeyondHistory)
  | At at_ f =>
      if key_change_reaches reg &&
         negb (bool_decide (cursor_subjects w = Some (rendered_keys (capabilities (viewer w)))))
      then fresh (Some AuthorizationChange)
      else
        let* min := read_log log_min_position in
        let* current := read_log log_current_position in
        match catchup_decision at_ min current with
        | Catchup => catch_up_row sub reg at_ f
        | FullResync => fresh (Some CursorOutsideRetention)
        end
  end.

(** ** Membership subscriptions *)

Fixpoint double_quotes (s : string) : string :=
  match s with
  | EmptyString => EmptyString
  | String c s' =>
      if decide (c = QUOTE) then String c (String c (double_quotes s')) else String c (double_quotes s')
  end.

Definition quote_ident (name : string) : string :=
  String QUOTE EmptyString +:+ double_quotes name +:+ String QUOTE EmptyString.

Definition subject_set_reach (function column : string) (separator : ascii) : string :=
  let sep := "'" +:+ String separator "'" in
  "CASE WHEN " +:+ function +:+ "() IS NOT NULL THEN " +:+ function +:+ "() <> '' AND instr(" +:+
  column +:+ ", " +:+ sep +:+ ") = 0 AND instr(" +:+ sep +:+ " || " +:+ function +:+ "() || " +:+
  sep +:+ ", " +:+ sep +:+ " || " +:+ column +:+ " || " +:+ sep +:+ ") > 0 END".

Inductive MirrorGap := GapIdentity | GapSubjects.

Definition mirror_predicate (member : MemberTable) (identity_function subjects_function : option string)
    (separator : ascii) : Result string MirrorGap :=
  let subject := quote_ident (mt_subject member) in
  match (if mt_identity member then
           match identity_function with
           | Some f => Ok [subject +:+ " = " +:+ f +:+ "()"]
           | None => Err GapIdentity
           end
         else Ok []) with
  | Err g => Err g
  | Ok own =>
      match (if mt_subjects member then
               match subjects_function with
               | Some f => Ok [subject_set_reach f subject separator]
               | None => Err GapSubjects
               end
             else Ok []) with
      | Err g => Err g
      | Ok held => Ok (join " OR " (own ++ held))
      end
  end.

Definition mirror_query (table predicate : string) : string :=
  "SELECT * FROM " +:+ quote_ident table +:+ " WHERE " +:+ predicate.

(** [SubscriptionPriority::default]. *)
Definition DEFAULT_PRIORITY : Z := 1.

Definition mirror_subscribe (table predicate : string) : Subscribe := {|
  sub_id := membership_label table; spec_query := mirror_query table predicate; spec_binds := [];
  spec_priority := DEFAULT_PRIORITY |}.

Definition open_membership_subscription (tier : Tier) (member : MemberTable) (permit : Permit) : DM unit :=
  let label := membership_label (mt_table member) in
  let* w := dget in
  match subs w !! label with
  | Some _ => dret tt
  | None =>
      if mt_identity member && negb (bool_decide (is_Some (identity (viewer w)))) then
        dfail (ESnapshot "a membership subscription over an identity term needs an identified caller")
      else
        await ;;
        match mirror_predicate member caller_function subject_set_function
                (SEPARATOR (Key := Key)) with
        | Err GapIdentity =>
            dfail (ESnapshot "a membership subscription needs the deployment's caller mapping")
        | Err GapSubjects =>
            dfail (ESnapshot "a membership subscription over a subject-set term needs the deployment's subject mapping")
        | Ok predicate =>
            let hidden := mirror_subscribe (mt_table member) predicate in
            send (OMembershipOpened label (mt_table member)) ;;
            let* consumer := next_consumer_id in
            let* registered := register_subscription consumer hidden in
            match registered with
            | Err e => dfail (ESnapshot e)
            | Ok r =>
                match into_row r consumer with
                | Err _ =>
                    dfail (ESnapshot "a membership subscription registered as something other than rows")
                | Ok reg =>
                    subscribe_row hidden {| rg_consumer := rg_consumer reg; rg_sub := rg_sub reg;
                      pg_sql := pg_sql reg; member_tables := [];
                      reads_subjects := reads_subjects reg || mt_subjects member |} tier (Some permit)
                end
            end
        end
  end.

(** ** Serving a subscribe *)

(** The allowance the membership subscriptions of a term cost: the wait, when it
    is refused. *)
Fixpoint precharge (tier : Tier) (tables : list MemberTable) : DM (option Z) :=
  match tables with
  | [] => dret None
  | t :: tables' =>
      let* w := dget in
      match subs w !! membership_label (mt_table t) with
      | Some _ => precharge tier tables'
      | None =>
          let* wait := call (meter_subscription tier) in
          match wait with
          | Some _ => dret wait
          | None => precharge tier tables'
          end
      end
  end.

Fixpoint open_memberships (label : string) (tier : Tier) (tables : list MemberTable) (permit : Permit) :
    DM unit :=
  match tables with
  | [] => dret tt
  | t :: tables' =>
      let* r := dtry (open_membership_subscription tier t permit) in
      match r with
      | Ok _ => open_memberships label tier tables' permit
      | Err (ESnapshot _) | Err (EReadRefused _) => refuse_subscription label
      | Err e => dfail e
      end
  end.

Definition serve_term_row (sub : Subscribe) (tier : Tier) (reg : RowRegistration) (permit : Permit) :
    DM unit :=
  let* wait := precharge tier (member_tables reg) in
  match wait with
  | Some wait => unregister (rg_sub reg) ;; send (ORateLimited (sub_id sub) (retry_ms wait))
  | None =>
      let* r := dtry (subscribe_row sub reg tier (Some permit)) in
      match r with
      | Err (ESnapshot _) | Err (EReadRefused _) =>
          dmod (fun w => with_subs (delete (sub_id sub) (subs w)) w) ;;
          remove_route (rg_consumer reg) ;;
          unregister (rg_sub reg) ;;
          send (ORefused (sub_id sub))
      | Ok _ => open_memberships (sub_id sub) tier (member_tables reg) permit
      | Err e => dfail e
      end
  end.

Definition refuse_computed_subscribe (label : string) (id : Z) : DM unit :=
  unregister id ;; send (ORefused label).

Fixpoint send_changes (label : string) (changes : list ComputedChange) : DM unit :=
  match changes with
  | [] => dret tt
  | c :: changes' => send (OAggregate (labelled label c)) ;; send_changes label changes'
  end.

Definition subscribe_computed (sub : Subscribe) (capture : ComputedCapture) (reads : bool)
    (resync : option FullResyncReason) : DM unit :=
  let id := cap_sub capture in
  let* w := dget in
  let* answer := ask (first_answer capture (viewer w)) in
  match answer with
  | Err _ => refuse_computed_subscribe (sub_id sub) id
  | Ok changes =>
      add_computed_route id (sub_id sub) ;;
      match resync with Some reason => send (OFullResync (sub_id sub) reason) | None => dret tt end ;;
      send_changes (sub_id sub) changes ;;
      dmod (fun w => with_computed (<[sub_id sub := {| cs_id := id; cs_sub := sub;
        cs_rebinds := per_viewer capture || reads |}]> (computed_subs w)) w)
  end.

Definition handle_subscribe (sub : Subscribe) : DM unit :=
  let* w := dget in
  let tier := viewer_tier (viewer w) in
  let* permit := ask (reader_permit tier) in
  match permit with
  | Err wait => send (ORateLimited (sub_id sub) (retry_ms wait))
  | Ok permit =>
      let* wait := call (meter_subscription tier) in
      match wait with
      | Some wait => send (ORateLimited (sub_id sub) (retry_ms wait))
      | None =>
          let* consumer := next_consumer_id in
          let* registered := register_subscription consumer sub in
          match registered with
          | Err _ =>
              let* reaction := call unresolvable_subscription in
              (if decide (reaction = Close) then dmod with_closing else dret tt) ;;
              send (ORefused (sub_id sub))
          | Ok r =>
              match into_row r consumer with
              | Ok reg => serve_term_row sub tier reg permit
              | Err capture => subscribe_computed sub capture (rd_subjects r) None
              end
          end
      end
  end.

Definition rebootstrap_computed (label : string) (retired : Z) : DM unit :=
  let* w := dget in
  match computed_subs w !! label with
  | None => dret tt
  | Some owner =>
      if decide (cs_id owner = retired) then
        let sub := cs_sub owner in
        dmod (fun w => with_computed (delete label (computed_subs w)) w) ;;
        let* consumer := next_consumer_id in
        let* registered := register_subscription consumer sub in
        match registered with
        | Err _ => send (ORefused (sub_id sub))
        | Ok r =>
            match into_row r consumer with
            | Err capture => subscribe_computed sub capture (rd_subjects r) (Some AuthorizationChange)
            | Ok reg => unregister (rg_sub reg) ;; send (ORefused (sub_id sub))
            end
        end
      else dret tt
  end.

(** ** Changes of the caller's share keys *)

Definition reached_by_keys (w : World) : list string * list string :=
  (fst <$> filter (fun p => key_change_reaches (rs_reg p.2) = true) (map_to_list (subs w)),
   fst <$> filter (fun p => cs_rebinds p.2 = true) (map_to_list (computed_subs w))).

Definition viewed_by (v : Viewer) (r : Route) : Route := {|
  rt_sub := rt_sub r; rt_label := rt_label r; rt_viewer := v; rt_table := rt_table r;
  rt_sql := rt_sql r; rt_binds := rt_binds r; rt_members := rt_members r; rt_fence := rt_fence r |}.

(** The routes of the session's subscriptions, under its current caller. *)
Definition reroute (v : Viewer) (held : gmap string RowSub) (m : gmap Z Route) : gmap Z Route :=
  foldr (fun p m => alter (viewed_by v) (rg_consumer (rs_reg p.2)) m) m (map_to_list held).

(** The query is unchanged, so its terms watch the same tables. *)
Definition reregistered (reg : RowRegistration) (r : RowSub) : RowSub := {|
  rs_reg := {| rg_consumer := rg_consumer reg; rg_sub := rg_sub reg; pg_sql := pg_sql reg;
               member_tables := member_tables (rs_reg r); reads_subjects := true |};
  rs_sub := rs_sub r; first_delivery := first_delivery r; rs_delivered := rs_delivered r;
  warned := warned r |}.

Definition register_again (label : string) : DM bool :=
  let* w := dget in
  match subs w !! label with
  | None => dret false
  | Some row =>
      if negb (reads_subjects (rs_reg row)) then dret true
      else
        let* consumer := next_consumer_id in
        let* registered := register_subscription consumer (rs_sub row) in
        remove_route (rg_consumer (rs_reg row)) ;;
        unregister (rg_sub (rs_reg row)) ;;
        match registered with
        | Err _ => dret false
        | Ok r =>
            match into_row r consumer with
            | Ok reg =>
                dmod (fun w => with_subs (alter (reregistered reg) label (subs w)) w) ;; dret true
            | Err capture => unregister (cap_sub capture) ;; dret false
            end
        end
  end.

Definition resend (label : string) (permit : option Permit) : DM unit :=
  let* served := register_again label in
  if served then
    match permit with
    | None => put (Resnapshot label AuthorizationChange)
    | Some permit =>
        let* w := dget in
        match subs w !! label with
        | None => dret tt
        | Some row =>
            put (ReservedResnapshot label (rg_consumer (rs_reg row), rg_sub (rs_reg row)) permit)
        end
    end
  else put (Refuse label).

Fixpoint resend_rows (rows : list string) (permit : option Permit) : DM unit :=
  match rows with
  | [] => dret tt
  | label :: rows' => resend label permit ;; resend_rows rows' permit
  end.

Fixpoint resend_computed (labels : list string) : DM unit :=
  match labels with
  | [] => dret tt
  | label :: labels' =>
      let* w := dget in
      match computed_subs w !! label with
      | None => dret tt
      | Some c =>
          remove_computed_route (cs_id c) ;;
          unregister (cs_id c) ;;
          put (Rebootstrap label (cs_id c))
      end ;;
      resend_computed labels'
  end.

(** The dispatch gate is held throughout. *)
Definition swap_keys (next_viewer : Viewer) (reached : list string * list string)
    (permit : option Permit) : DM unit :=
  await ;;
  dmod (with_gate true) ;;
  dmod (with_viewer next_viewer) ;;
  await ;;
  dmod (fun w => with_routes (reroute next_viewer (subs w) (routes w)) w) ;;
  resend_rows reached.1 permit ;;
  resend_computed reached.2 ;;
  dmod (with_gate false).

Definition expire_keys : DM unit :=
  let* w := dget in
  let now := now_secs (env w) in
  let expired := filter (fun p => p.2 <= now) (held_expiry w) in
  dmod (with_expiry (filter (fun p => ~ p.2 <= now) (held_expiry w))) ;;
  if decide (expired = ∅) then dret tt
  else
    let kept := filter (fun k => expired !! key_text k = None) (capabilities (viewer w)) in
    swap_keys (with_capabilities kept (viewer w)) (reached_by_keys w) None.

(** A slot is held by the reads still arriving and by the instructions queued for
    one. *)
Definition slot_held (slot : Z) (w : World) : bool :=
  existsb (fun r => bool_decide (pr_permit r = Some (Some slot))) (paging w) ||
  existsb (fun o => match o with
    | ReservedResnapshot _ _ p => bool_decide (p = Some slot)
    | _ => false
    end) (channel w).

(** [ReaderReservation::upgrade]. *)
Definition upgrade (w : World) : option Permit :=
  match reservation w with
  | Some slot => if slot_held slot w then Some (Some slot) else None
  | None => None
  end.

(** One allowance for each subscription a change of keys reaches. *)
Fixpoint charge (n : nat) (tier : Tier) : DM (option Z) :=
  match n with
  | O => dret None
  | S n' =>
      let* wait := call (meter_subscription tier) in
      match wait with Some _ => dret wait | None => charge n' tier end
  end.

(** The slot the resends share: the one already held, or a new one; the wait when
    there is none. *)
Definition reserve (tier : Tier) (rows : list string) : DM (Result (option Permit) Z) :=
  match rows with
  | [] => dret (Ok None)
  | _ =>
      let* w := dget in
      let* permit := match upgrade w with
        | Some p => dret (Ok p)
        | None =>
            match omap pr_permit (paging w) with
            | p :: _ => dret (Ok p)
            | [] => ask (reader_permit tier)
            end
        end in
      match permit with
      | Ok p => dmod (with_reservation p) ;; dret (Ok (Some p))
      | Err wait => dret (Err wait)
      end
  end.

Definition replace_share_keys (request_id : string) (keys : list string) : DM unit :=
  let* resolved := ask (resolve_keys keys) in
  let* reaction := call (refused_grants (refusals resolved)) in
  (if decide (reaction = Close) then dmod with_closing else dret tt) ;;
  match wait resolved with
  | Some wait => put (Fatal (FatalRateLimited (retry_ms wait)))
  | None =>
      let replaced :=
        dmod (with_expiry (key_expiry resolved)) ;;
        put (Control (OShareKeysReplaced request_id)) in
      let limited wait := put (Control (ORateLimited request_id (retry_ms wait))) in
      let* w := dget in
      let next_viewer := with_capabilities (capabilities (principal resolved)) (viewer w) in
      if decide (rendered_keys (capabilities next_viewer) = rendered_keys (capabilities (viewer w)))
      then replaced
      else
        let reached := reached_by_keys w in
        let tier := viewer_tier (viewer w) in
        let* permit := reserve tier reached.1 in
        match permit with
        | Err wait => limited wait
        | Ok permit =>
            let* refused := charge (length reached.1 + length reached.2) tier in
            match refused with
            | Some wait => limited wait
            | None => swap_keys next_viewer reached permit ;; replaced
            end
        end
  end.

(** ** The run loop *)

(** Whether the session goes on. *)
Definition handle_outbound (o : Outbound) : DM bool :=
  match o with
  | Live label cursor payload =>
      let* w := dget in
      let budget := page_bytes (read_limits (viewer_tier (viewer w))) in
      dmod (note_delivered label (Z.of_nat (length payload)) budget) ;;
      enqueue_and_flush (Rows (LivePatch label cursor payload)) ;;
      dret true
  | Aggregate u => send (OAggregate u) ;; dret true
  | Fatal reason => try_send (OFatal reason) ;; dret false
  | Drop => dret false
  | Control f => try_send f ;; dret true
  | Resnapshot label reason => resnapshot_row label reason None ;; dret true
  | ReservedResnapshot label owner permit =>
      let* w := dget in
      match subs w !! label with
      | Some row =>
          if decide ((rg_consumer (rs_reg row), rg_sub (rs_reg row)) = owner)
          then resnapshot_row label AuthorizationChange (Some permit) ;; dret true
          else dret true
      | None => dret true
      end
  | Rebootstrap label retired => rebootstrap_computed label retired ;; dret true
  | Refuse label => refuse_subscription label ;; dret true
  end.

(** The frames of the read half. *)
Inductive Inbound :=
| ISubscribe (sub : Subscribe)
| IUnsubscribe (label : string)
| IPing (nonce : Z)
| IAckCredits (credits : Z)
| IReplaceShareKeys (request_id : string) (keys : list string).

Definition unsubscribe (label : string) : DM unit :=
  take_and_release label ;;
  let* w := dget in
  match computed_subs w !! label with
  | None => dret tt
  | Some c =>
      dmod (fun w => with_computed (delete label (computed_subs w)) w) ;;
      remove_computed_route (cs_id c) ;;
      unregister (cs_id c)
  end.

Definition ack_credits (n : Z) : DM unit :=
  dmod (fun w => with_credits (sat_add u32_max (credits w) n) w) ;;
  flush ;;
  pump_page.

Definition handle_control (m : Inbound) : DM unit :=
  match m with
  | ISubscribe sub => handle_subscribe sub
  | IUnsubscribe label => unsubscribe label
  | IPing nonce => send (OPong nonce)
  | IAckCredits n => ack_credits n
  | IReplaceShareKeys request_id keys => replace_share_keys request_id keys
  end.

(** What ends the wait of one turn of the loop: a frame, the link's end, the head
    of the channel, a key's expiry. *)
Inductive Turn := Received (m : Inbound) | LinkEnded | Dispatched | KeysExpire.

(** One turn of the loop: whether the session goes on. *)
Definition turn (t : Turn) : DM bool :=
  let* w := dget in
  if closing w then dret false
  else
    (if decide (missed_replays w = []) then dret tt else replay_missed) ;;
    await ;;
    match t with
    | Received m => handle_control m ;; dret true
    | LinkEnded => dret false
    | Dispatched =>
        let* w := dget in
        match channel w with
        | [] => dret true
        | o :: rest => dmod (with_channel rest) ;; handle_outbound o
        end
    | KeysExpire => expire_keys ;; dret true
    end.

Fixpoint turns (l : list Turn) : DM bool :=
  match l with
  | [] => dret true
  | t :: l' => let* on := turn t in if on then turns l' else dret false
  end.

Fixpoint release_computed (ids : list Z) : DM unit :=
  match ids with
  | [] => dret tt
  | id :: ids' => remove_computed_route id ;; unregister id ;; release_computed ids'
  end.

(** The session's state ends here. *)
Definition unsubscribe_all : DM unit :=
  let* w := dget in
  dmod (fun w => with_subs ∅ (with_computed ∅ (with_paging [] w))) ;;
  release ((fun p => (rg_consumer (rs_reg p.2), rg_sub (rs_reg p.2))) <$> map_to_list (subs w)) ;;
  release_computed ((fun p => cs_id p.2) <$> map_to_list (computed_subs w)).

(** The loop, then the teardown, which runs whether or not it ended in an error. *)
Definition run_session (l : list Turn) : DM bool :=
  let* ended := dtry (turns l) in
  unsubscribe_all ;;
  dlift ended.

(** The session as the handshake leaves it. *)
Definition opened (initial_credits : Z) (v : Viewer) (r : Resume Position Fence) (budget : Z)
    (subjects : option (gset string)) (expiry : gmap string Z) (first_consumer : Z) (e : En) : World := {|
  credits := initial_credits; pending := []; subs := ∅; paging := []; missed_replays := [];
  computed_subs := ∅; viewer := v; resume := r; read_budget := budget; cursor_subjects := subjects;
  closing := false; held_expiry := expiry; reservation := None; gated := false; channel := [];
  routes := ∅; computed_routes := ∅; engine := ∅; next_consumer := first_consumer; sent := [];
  env := e |}.
End Delivery.
