(* ===== verification/Outflow.v ===== *)
(** Reasoning about the delivery of subscriptions: triples over the handlers of
    [Delivery], and the client's flow control.

    [hoare P m Q E] says what a handler leaves behind, whether it ends or fails.
    Most of a session's state is beside most points: [Aside] are the invariants
    that do not look at the other tasks, the budgets, the caller or the control
    frames, and [Bystander] those that also only look at the labels they own.
    Every handler is shown once to keep any such invariant. *)

From Stdlib Require Import ZArith Lia.
From stdpp Require Import base list numbers option strings gmap fin_maps.
From S2P Require Import Prelude Wire Backoff Throttle Guard Cursor Oplog Catchup Caller Delivery.

Open Scope Z_scope.

Section Triples.
Context {WA : Wares} {En : Type} {OU : Outside En}.

Notation World := (World (En := En)).
Notation DM := (DM (En := En)).

Implicit Types (w : World) (I P : World -> Prop) (E : DError -> World -> Prop).

Definition hoare {A} P (m : DM A) (Q : A -> World -> Prop) E : Prop :=
  forall w, P w -> match m w with (Ok a, w') => Q a w' | (Err e, w') => E e w' end.

(** A handler that keeps an invariant. *)
Definition keeps {A} I E (m : DM A) : Prop := hoare I m (fun _ => I) E.

Lemma h_conseq {A} P P' (m : DM A) (Q Q' : A -> World -> Prop) E E' :
  hoare P' m Q' E' -> (forall w, P w -> P' w) -> (forall a w, Q' a w -> Q a w) ->
  (forall e w, E' e w -> E e w) -> hoare P m Q E.
Proof. intros H HP HQ HE w Hw. specialize (H w (HP _ Hw)). destruct (m w) as [[a|e] w']; auto. Qed.

Lemma h_pre {A} P P' (m : DM A) (Q : A -> World -> Prop) E :
  hoare P' m Q E -> (forall w, P w -> P' w) -> hoare P m Q E.
Proof. intros H HP. by apply (h_conseq _ P' _ _ Q _ E). Qed.

Lemma h_ret {A} P (a : A) (Q : A -> World -> Prop) E :
  (forall w, P w -> Q a w) -> hoare P (dret a) Q E.
Proof. intros H w Hw. by apply H. Qed.

Lemma h_fail {A} P e (Q : A -> World -> Prop) E :
  (forall w, P w -> E e w) -> hoare P (dfail e) Q E.
Proof. intros H w Hw. by apply H. Qed.

Lemma h_bind {A B} P (m : DM A) (k : A -> DM B) R Q E :
  hoare P m R E -> (forall a, hoare (R a) (k a) Q E) -> hoare P (dbind m k) Q E.
Proof.
  intros Hm Hk w Hw. unfold dbind. specialize (Hm w Hw).
  destruct (m w) as [[a|e] w']; [by apply Hk|done].
Qed.

Lemma h_get {B} P (k : World -> DM B) Q E :
  (forall v, P v -> hoare (fun w => w = v) (k v) Q E) -> hoare P (dbind dget k) Q E.
Proof. intros H w Hw. by apply (H w Hw w). Qed.

Lemma h_mod P f (Q : unit -> World -> Prop) E :
  (forall w, P w -> Q tt (f w)) -> hoare P (dmod f) Q E.
Proof. intros H w Hw. by apply H. Qed.

Lemma h_lift {A} P (r : Result A DError) (Q : A -> World -> Prop) E :
  (forall a w, r = Ok a -> P w -> Q a w) -> (forall e w, r = Err e -> P w -> E e w) ->
  hoare P (dlift r) Q E.
Proof. intros HQ HE w Hw. unfold dlift. destruct r; eauto. Qed.

Lemma h_try {A} P (m : DM A) Q E E' :
  hoare P m Q E ->
  hoare P (dtry m) (fun r w => match r with Ok a => Q a w | Err e => E e w end) E'.
Proof. intros H w Hw. unfold dtry. specialize (H w Hw). by destruct (m w) as [[a|e] w']. Qed.

(** The state before, as a fact of the triple. *)
Lemma h_at {A} P (m : DM A) Q E :
  (forall v, P v -> hoare (fun w => w = v) m Q E) -> hoare P m Q E.
Proof. intros H w Hw. by apply (H w Hw w). Qed.

Lemma h_pure {A} P (p : Prop) (m : DM A) Q E :
  (p -> hoare P m Q E) -> hoare (fun w => p /\ P w) m Q E.
Proof. intros H w [Hp Hw]. by apply H. Qed.

(** ** Invariants aside *)

(** The control frames that open or close no snapshot and carry no rows. *)
Definition quiet (f : OutFrame) : bool :=
  match f with OBulk _ | OSnapshotEnd _ _ | OSnapshotBegin _ _ => false | _ => true end.

(** The frames another task has the session send open and close no snapshot. *)
Definition discreet (o : Outbound) : Prop := match o with Control f => quiet f = true | _ => True end.

(** Only the session itself asks for an answer to be computed again. *)
Definition foreign (o : Outbound) : Prop :=
  match o with Rebootstrap _ _ => False | _ => discreet o end.

Lemma foreign_discreet os : Forall foreign os -> Forall discreet os.
Proof. intros H. eapply Forall_impl; [exact H|]. by intros []. Qed.

(** What the other tasks queue. *)
Class Orderly : Prop := {
  meanwhile_foreign r c e : Forall foreign (meanwhile r c e).1;
  gated_foreign r c e : Forall foreign (meanwhile_gated r c e).1;
}.

Class Aside I E : Prop := {
  a_fault e w : I w -> E e w;
  a_env l e w : Forall foreign l -> I w -> I (with_env l e w);
  a_budget b w : I w -> I (with_budget b w);
  a_closing w : I w -> I (with_closing w);
  a_expiry m w : I w -> I (with_expiry m w);
  a_reservation p w : I w -> I (with_reservation p w);
  a_gate b w : I w -> I (with_gate b w);
  a_missed l w : I w -> I (with_missed l w);
  a_next n w : I w -> I (with_next_consumer n w);
  a_channel o l w : channel w = o :: l -> I w -> I (with_channel l w);
  a_viewer v w : I w -> I (with_viewer v w);
  a_sent f w : quiet f = true -> I w -> I (with_sent (sent w ++ [f]) w);
}.

(** What a failure leaves may be taken to be the invariant itself. *)
Lemma aside_self I E : Aside I E -> Aside I (fun _ => I).
Proof. intros []. split; auto. Qed.

Context {OR : Orderly}.

Section Keeping.
Context {I : World -> Prop} {E : DError -> World -> Prop} {AS : Aside I E}.

Lemma k_ret {A} (a : A) : keeps I E (dret a).
Proof. by apply h_ret. Qed.

Lemma k_fail {A} e : keeps (A := A) I E (dfail e).
Proof. apply h_fail. intros w. apply a_fault. Qed.

Lemma k_lift {A} (r : Result A DError) : keeps I E (dlift r).
Proof. apply h_lift; [done|]. intros e w _. apply a_fault. Qed.

Lemma k_bind {A B} (m : DM A) (k : A -> DM B) :
  keeps I E m -> (forall a, keeps I E (k a)) -> keeps I E (dbind m k).
Proof. intros Hm Hk. by apply (h_bind _ _ _ (fun _ => I)). Qed.

Lemma k_get {B} (k : World -> DM B) : (forall v, I v -> keeps I E (k v)) -> keeps I E (dbind dget k).
Proof. intros H w Hw. by apply (H w). Qed.

Lemma k_mod f : (forall w, I w -> I (f w)) -> keeps I E (dmod f).
Proof. intros H. by apply h_mod. Qed.

Lemma k_await : keeps I E await.
Proof.
  intros w Hw. unfold await.
  pose proof (meanwhile_foreign (routes w) (computed_routes w) (env w)) as H1.
  pose proof (gated_foreign (routes w) (computed_routes w) (env w)) as H2.
  destruct (gated w); [destruct (meanwhile_gated _ _ _)|destruct (meanwhile _ _ _)]; by apply a_env.
Qed.

Lemma k_call {A} (f : En -> A * En) : keeps I E (call f).
Proof. intros w Hw. unfold call. destruct (f (env w)) as [a e]. by apply a_env, Hw. Qed.

Lemma k_ask {A} (f : En -> A * En) : keeps I E (ask f).
Proof. apply k_bind; [apply k_await|intros _; apply k_call]. Qed.

Lemma k_send f : quiet f = true -> keeps I E (send f).
Proof.
  intros Hf. apply k_bind; [apply k_ask|]. intros [|]; [|apply k_fail].
  apply k_mod. intros w. by apply a_sent.
Qed.

Lemma k_next_consumer : keeps I E next_consumer_id.
Proof. intros w Hw. by apply a_next. Qed.

Lemma k_engine_answer {A} (f : En -> Result A string * En) : keeps I E (engine_answer f).
Proof. apply k_bind; [apply k_ask|intros; apply k_lift]. Qed.

Lemma k_history : keeps I E history.
Proof. apply k_get. intros. apply k_ret. Qed.
End Keeping.

(** A failure leaves the invariant too, so it may be swallowed. *)
Lemma k_try_send I E `{AS : !Aside I E} f : quiet f = true -> keeps I E (try_send f).
Proof.
  intros Hf. apply (h_bind _ _ _ (fun _ => I)); [|intros; by apply k_ret].
  eapply h_conseq; [apply (h_try I _ (fun _ => I) (fun _ => I) (fun _ => I))|done|by intros [?|?]
    |by intros; apply a_fault].
  pose proof (aside_self _ _ AS). by apply k_send.
Qed.
End Triples.

Create HintDb keeping.
#[export] Hint Resolve k_ret k_fail k_lift k_await k_call k_ask k_send k_try_send
  k_next_consumer k_engine_answer k_history : keeping.
#[export] Hint Extern 0 (Aside _ _) => exact _ : keeping.
#[export] Hint Extern 0 (Orderly) => exact _ : keeping.
#[export] Hint Extern 0 (discreet _) => (exact Logic.I || reflexivity || assumption) : keeping.

(** The steps an invariant aside does not see. *)
Ltac aside := first
  [ apply a_budget | apply a_closing | apply a_expiry | apply a_reservation
  | apply a_gate | apply a_missed | apply a_next | apply a_viewer ]; assumption.

(** Through a handler, one bind or case at a time. *)
Ltac walk_step :=
  match goal with
  | |- keeps _ _ (dbind dget _) => apply k_get; intros ? ?
  | |- keeps _ _ (dbind _ _) => apply k_bind; [|intros ?]
  | |- keeps _ _ (dmod _) => apply k_mod; intros ? ?
  | |- keeps _ _ (let '(_, _) := ?x in _) => destruct x
  | |- keeps _ _ (match ?x with _ => _ end) => destruct x
  | |- keeps _ _ (if ?x then _ else _) => destruct x
  end.
Ltac walk := cbv zeta; repeat first [solve [eauto 4 with keeping] | aside | walk_step; cbv zeta].

Section Asides_.
Context {WA : Wares} {En : Type} {OU : Outside En} {OR : Orderly}.

Notation World := (World (En := En)).
Notation DM := (DM (En := En)).

Implicit Types (w : World) (I P : World -> Prop) (E : DError -> World -> Prop).

Section Asides.
Context {I : World -> Prop} {E : DError -> World -> Prop} {AS : Aside I E}.

Lemma k_read_loop {R} fuel (read : En -> Result R LogError * En) ep : keeps I E (read_loop fuel read ep).
Proof. revert ep. induction fuel as [|fuel IH]; intros ep; simpl; walk. Qed.

Lemma k_read_log {R} (read : En -> Result R LogError * En) : keeps I E (read_log read).
Proof. unfold read_log. apply k_bind; [walk|intros]. apply k_get. intros. apply k_read_loop. Qed.

Lemma k_replay_payload r departing : keeps I E (replay_payload r departing).
Proof. unfold replay_payload. walk. Qed.

Lemma k_missed_payloads replay records : keeps I E (missed_payloads replay records).
Proof.
  induction records as [|r records IH]; simpl; [walk|].
  pose proof (k_replay_payload r). walk.
Qed.

Lemma k_precharge tier tables : keeps I E (precharge tier tables).
Proof. induction tables as [|t tables IH]; simpl; walk. Qed.

Lemma k_charge n tier : keeps I E (charge n tier).
Proof. induction n as [|n IH]; simpl; walk. Qed.

Lemma k_reserve tier rows : keeps I E (reserve tier rows).
Proof. unfold reserve. walk. Qed.

Lemma k_send_changes label changes : keeps I E (send_changes label changes).
Proof. induction changes as [|c changes IH]; simpl; walk. Qed.
End Asides.
End Asides_.

#[export] Hint Resolve k_read_log k_replay_payload k_missed_payloads k_precharge k_charge k_reserve
  k_send_changes : keeping.

(** ** Invariants of some labels *)

Section Bystanders.
Context {WA : Wares} {En : Type} {OU : Outside En} {OR : Orderly}.

Notation World := (World (En := En)).
Notation DM := (DM (En := En)).

Implicit Types (w : World) (I P : World -> Prop) (E : DError -> World -> Prop).

(** The errors a handler answers with a refusal of the one subscription. *)
Definition soft (e : DError) : bool :=
  match e with ESnapshot _ | EReadRefused _ => true | _ => false end.

Definition live (d : Deliverable) : bool :=
  match d with Rows (LivePatch _ _ _) => true | _ => false end.

Class Bystander (mine : string -> Prop) I E : Prop := {
  b_aside :: Aside I E;
  b_soft e w : soft e = true -> E e w -> I w;
  b_routes m w : I w -> I (with_routes m w);
  b_computed_routes m w : I w -> I (with_computed_routes m w);
  b_engine s w : I w -> I (with_engine s w);
  b_computed m w : I w -> I (with_computed m w);
  b_alter f label w : (forall r, rs_sub (f r) = rs_sub r) -> I w ->
    I (with_subs (alter f label (subs w)) w);
  b_insert label r w : ~ mine label -> sub_id (rs_sub r) = label -> I w ->
    I (with_subs (<[label := r]> (subs w)) w);
  b_delete label w : ~ mine label -> I w -> I (with_subs (delete label (subs w)) w);
  b_drop label w :
    I w -> I (with_subs (delete label (subs w)) (with_paging (without_label label (paging w)) w));
  b_unpage label w : ~ mine label -> I w -> I (with_paging (without_label label (paging w)) w);
  b_page r w : ~ mine (pr_label r) -> sub_id (pr_sub r) = pr_label r -> I w ->
    I (with_paging (paging w ++ [r]) w);
  b_purge label w : ~ mine label -> I w ->
    I (with_queue (filter (fun d => deliverable_label d <> label) (pending w)) w);
  b_begin label p w : ~ mine label -> I w ->
    I (with_sent (sent w ++ [OSnapshotBegin label p]) w);
  b_enqueue d w : live d = true \/ ~ mine (deliverable_label d) -> I w ->
    I (with_queue (pending w ++ [d]) w);
  b_put o w : discreet o -> I w -> I (with_env [o] (env w) w);
  b_flush : keeps I E flush;
}.

#[local] Hint Extern 0 (Bystander _ _ _) => exact _ : keeping.

Section Keeping.
Context {mine : string -> Prop} {I : World -> Prop} {E : DError -> World -> Prop}.
Context {BY : Bystander mine I E}.

Lemma k_catch {A B} (m : DM A) (k : Result A DError -> DM B) :
  keeps I E m -> (forall a, keeps I E (k (Ok a))) ->
  (forall e, soft e = true -> keeps I E (k (Err e))) ->
  (forall e, soft e = false -> k (Err e) = dfail e) -> keeps I E (dbind (dtry m) k).
Proof.
  intros Hm Hok Hsoft Hhard w Hw. specialize (Hm w Hw). unfold dbind, dtry.
  destruct (m w) as [[a|e] w']; simpl; [by apply Hok|].
  destruct (soft e) eqn:He.
  - apply (Hsoft e He). by apply (b_soft e).
  - by rewrite (Hhard e He).
Qed.

Lemma k_put o : discreet o -> keeps I E (put o).
Proof. intros Ho. apply k_mod. intros w. by apply b_put. Qed.

Lemma k_enqueue d : live d = true \/ ~ mine (deliverable_label d) -> keeps I E (enqueue_and_flush d).
Proof.
  intros Hd. apply k_bind; [|intros; apply b_flush]. apply k_mod. intros w. by apply b_enqueue.
Qed.

Lemma k_add_route c r : keeps I E (add_route c r).
Proof. unfold add_route. walk. by apply b_routes. Qed.

Lemma k_remove_route c : keeps I E (remove_route c).
Proof. unfold remove_route. walk. by apply b_routes. Qed.

Lemma k_add_computed_route c l : keeps I E (add_computed_route c l).
Proof. unfold add_computed_route. walk. by apply b_computed_routes. Qed.

Lemma k_remove_computed_route c : keeps I E (remove_computed_route c).
Proof. unfold remove_computed_route. walk. by apply b_computed_routes. Qed.

Lemma k_unregister s : keeps I E (unregister s).
Proof. unfold unregister. walk. by apply b_engine. Qed.

Lemma k_register_subscription c sub : keeps I E (register_subscription c sub).
Proof. unfold register_subscription. walk. by apply b_engine. Qed.

Lemma k_attach sub reg f : ~ mine (sub_id sub) -> keeps I E (attach_row_route sub reg f).
Proof.
  intros Hm. apply k_get. intros v Hv. apply k_bind; [apply k_add_route|].
  intros _. apply k_mod. intros w Hw. apply b_insert; try done.
  by destruct (subs w !! sub_id sub).
Qed.

Lemma k_release taken : keeps I E (release taken).
Proof.
  pose proof k_remove_route. pose proof k_unregister.
  induction taken as [|[c s] taken IH]; simpl; walk.
Qed.

Lemma k_release_computed ids : keeps I E (release_computed ids).
Proof.
  pose proof k_remove_computed_route. pose proof k_unregister.
  induction ids as [|id ids IH]; simpl; walk.
Qed.

(** What a subscription took out of the map leaves. *)
Lemma drop_absent label w :
  subs w !! label = None ->
  with_paging (without_label label (paging w)) w =
  with_subs (delete label (subs w)) (with_paging (without_label label (paging w)) w).
Proof. intros H. rewrite delete_id by done. by destruct w. Qed.

Lemma take_members_keeps tables w : I w -> I (take_members tables w).2.
Proof.
  revert w. induction tables as [|t tables IH]; intros w Hw; simpl; [done|].
  destruct (still_needed _ _); [by apply IH|].
  set (hidden := membership_label (mt_table t)).
  pose proof (b_drop hidden w Hw) as Hd. simpl in Hd.
  destruct (subs w !! hidden) as [h|] eqn:Hh; simpl.
  - destruct (take_members tables _) as [taken w'] eqn:Ht. simpl.
    specialize (IH _ Hd). by rewrite Ht in IH.
  - apply IH. by rewrite drop_absent.
Qed.

Lemma take_keeps label w : I w -> I (take_row_subscription label w).2.
Proof.
  intros Hw. unfold take_row_subscription. pose proof (b_drop label w Hw) as Hd. simpl in Hd |- *.
  destruct (subs w !! label) as [row|] eqn:Hr; simpl.
  - destruct (take_members _ _) as [taken w'] eqn:Ht. simpl.
    pose proof (take_members_keeps (member_tables (rs_reg row)) _ Hd) as H. by rewrite Ht in H.
  - by rewrite drop_absent.
Qed.

Lemma k_take_and_release label : keeps I E (take_and_release label).
Proof.
  apply k_bind; [|intros; apply k_release].
  intros w Hw. pose proof (take_keeps label w Hw) as H.
  by destruct (take_row_subscription label w).
Qed.

Lemma k_refuse label : keeps I E (refuse_subscription label).
Proof. apply k_bind; [apply k_take_and_release|intros; by apply k_send]. Qed.
End Keeping.
End Bystanders.

#[export] Hint Resolve k_add_route k_remove_route k_add_computed_route k_remove_computed_route
  k_unregister k_register_subscription k_attach k_release k_release_computed k_take_and_release
  k_refuse k_put k_enqueue : keeping.
#[export] Hint Extern 0 (Bystander _ _ _) => exact _ : keeping.

Section Handlers.
Context {WA : Wares} {En : Type} {OU : Outside En} {OR : Orderly}.

Notation World := (World (En := En)).
Notation DM := (DM (En := En)).

Context {mine : string -> Prop} {I : World -> Prop} {E : DError -> World -> Prop}.
Context {BY : Bystander mine I E}.

(** The rules above at this invariant, for the automation to find. *)
#[local] Hint Extern 1 (keeps _ _ (enqueue_and_flush _)) => (apply k_enqueue; (by left) || by right) : keeping.

Lemma k_send_page label patch : ~ mine label -> keeps I E (send_page label patch).
Proof. intros Hm. unfold send_page. walk. Qed.

Lemma k_complete label cursor n : ~ mine label -> keeps I E (complete_snapshot label cursor n).
Proof. intros Hm. unfold complete_snapshot. walk. by apply b_alter. Qed.

Lemma k_begin label p : ~ mine label -> keeps I E (send (OSnapshotBegin label p)).
Proof.
  intros Hm. apply k_bind; [walk|]. intros [|]; [|walk]. apply k_mod. intros w. by apply b_begin.
Qed.

#[local] Hint Resolve k_send_page k_complete k_begin : keeping.

Lemma k_snapshot_row start resync :
  ~ mine (sub_id (st_sub start)) -> keeps I E (snapshot_row start resync).
Proof.
  intros Hm. unfold snapshot_row. walk.
  - by apply b_unpage.
  - by apply b_page.
Qed.

#[local] Hint Resolve k_snapshot_row : keeping.

Lemma k_restart start : ~ mine (sub_id (st_sub start)) -> keeps I E (restart_or_refuse start).
Proof.
  intros Hm. unfold restart_or_refuse. destruct (st_restarted start); [walk|].
  apply k_catch; [walk|intros; walk| |]; by intros [] ?; walk.
Qed.

Lemma k_read_next r :
  ~ mine (pr_label r) -> ~ mine (sub_id (pr_sub r)) ->
  (forall r' w, pr_label r' = pr_label r -> pr_sub r' = pr_sub r -> I w ->
     I (with_paging (paging w ++ [r']) w)) ->
  keeps I E (read_next r).
Proof.
  intros Hl Hs Hp. unfold read_next. apply k_get. intros v Hv. apply k_bind; [walk|].
  intros [page|e]; [|by apply k_restart].
  walk.
Qed.

Lemma k_resnapshot_loop fuel label reason permit :
  ~ mine label ->
  (forall w row, I w -> subs w !! label = Some row -> ~ mine (sub_id (rs_sub row))) ->
  keeps I E (resnapshot_loop fuel label reason permit).
Proof.
  intros Hl Hs. induction fuel as [|fuel IH]; simpl; (apply k_get; intros v Hv);
    destruct (subs v !! label) as [row|] eqn:Hr; try (by apply k_ret);
    pose proof (Hs v row Hv Hr); apply k_catch; try (by intros; walk); by intros [] ?; walk.
Qed.

Lemma k_resnapshot label reason permit :
  ~ mine label ->
  (forall w row, I w -> subs w !! label = Some row -> ~ mine (sub_id (rs_sub row))) ->
  keeps I E (resnapshot_row label reason permit).
Proof.
  intros Hl Hs. unfold resnapshot_row. pose proof (k_resnapshot_loop). walk.
  - by apply b_purge.
  - by apply b_unpage.
Qed.

Lemma k_enqueue_all ds : Forall (fun d => live d = true) ds -> keeps I E (enqueue_all ds).
Proof. induction 1; simpl; walk. Qed.

Lemma k_replay_one replay : keeps I E (replay_one replay).
Proof.
  unfold replay_one. apply k_bind; [walk|intros records]. apply k_bind; [walk|].
  intros [ps|]; [|walk]. apply k_enqueue_all. apply Forall_fmap, Forall_true. done.
Qed.

Lemma k_replay_each l : keeps I E (replay_each l).
Proof. pose proof k_replay_one. induction l; simpl; walk. Qed.

Lemma k_replay_missed : keeps I E replay_missed.
Proof. pose proof k_replay_each. unfold replay_missed. walk. Qed.

Lemma k_replay_records label reg records : keeps I E (replay_records label reg records).
Proof. induction records as [|r records IH]; simpl; walk. Qed.

(** A subscription carries its own label, so one of another label is no one's. *)
Hypothesis named : forall label w row,
  ~ mine label -> I w -> subs w !! label = Some row -> ~ mine (sub_id (rs_sub row)).

#[local] Hint Resolve k_replay_records k_replay_missed : keeping.
#[local] Hint Extern 1 (keeps _ _ (resnapshot_row _ _ _)) =>
  (apply k_resnapshot; [|intros; eapply named]; eassumption) : keeping.

Lemma k_catch_up sub reg from f : ~ mine (sub_id sub) -> keeps I E (catch_up_row sub reg from f).
Proof. intros Hm. unfold catch_up_row. walk. Qed.

#[local] Hint Resolve k_catch_up : keeping.

Lemma k_subscribe_row sub reg tier permit :
  ~ mine (sub_id sub) -> keeps I E (subscribe_row sub reg tier permit).
Proof. intros Hm. unfold subscribe_row. walk. Qed.

#[local] Hint Resolve k_subscribe_row : keeping.

Lemma k_open_membership tier member permit :
  ~ mine (membership_label (mt_table member)) ->
  keeps I E (open_membership_subscription tier member permit).
Proof. intros Hm. unfold open_membership_subscription. walk. Qed.

(** No label of a client's own is a membership label. *)
Hypothesis unshared : forall table, ~ mine (membership_label table).

#[local] Hint Resolve k_open_membership : keeping.

Lemma k_open_memberships label tier tables permit :
  keeps I E (open_memberships label tier tables permit).
Proof.
  induction tables as [|t tables IH]; simpl; [walk|].
  apply k_catch; [by apply k_open_membership|by intros| |]; by intros [] ?; walk.
Qed.

#[local] Hint Resolve k_open_memberships : keeping.

Lemma k_serve_term sub tier reg permit :
  ~ mine (sub_id sub) -> keeps I E (serve_term_row sub tier reg permit).
Proof.
  intros Hm. unfold serve_term_row. apply k_bind; [walk|]. intros [wait|]; [walk|].
  apply k_catch; [walk|by intros; apply k_open_memberships| |]; intros [] ?; try done; walk.
  all: by apply b_delete.
Qed.

Lemma k_subscribe_computed sub capture reads resync :
  keeps I E (subscribe_computed sub capture reads resync).
Proof. unfold subscribe_computed, refuse_computed_subscribe. walk. by apply b_computed. Qed.

#[local] Hint Resolve k_subscribe_computed k_serve_term : keeping.

Lemma k_handle_subscribe sub : ~ mine (sub_id sub) -> keeps I E (handle_subscribe sub).
Proof. intros Hm. unfold handle_subscribe. walk. Qed.

Lemma k_rebootstrap label retired : keeps I E (rebootstrap_computed label retired).
Proof. unfold rebootstrap_computed. walk. by apply b_computed. Qed.

Lemma k_register_again label : keeps I E (register_again label).
Proof. unfold register_again. walk. by apply b_alter. Qed.

#[local] Hint Resolve k_rebootstrap k_register_again : keeping.

Lemma k_resend_rows rows permit : keeps I E (resend_rows rows permit).
Proof. induction rows as [|label rows IH]; simpl; unfold resend; walk. Qed.

Lemma k_resend_computed labels : keeps I E (resend_computed labels).
Proof. induction labels as [|label labels IH]; simpl; walk. Qed.

#[local] Hint Resolve k_resend_rows k_resend_computed : keeping.

Lemma k_swap_keys v reached permit : keeps I E (swap_keys v reached permit).
Proof. unfold swap_keys. walk. by apply b_routes. Qed.

#[local] Hint Resolve k_swap_keys : keeping.

Lemma k_expire_keys : keeps I E expire_keys.
Proof. unfold expire_keys. walk. Qed.

Lemma k_replace_share_keys request_id keys : keeps I E (replace_share_keys request_id keys).
Proof. unfold replace_share_keys. walk. Qed.

Lemma k_unsubscribe label : keeps I E (unsubscribe label).
Proof. unfold unsubscribe. walk. by apply b_computed. Qed.

Lemma k_handle_outbound o :
  discreet o -> (forall label reason permit, keeps I E (resnapshot_row label reason permit)) ->
  keeps I E (handle_outbound o).
Proof.
  intros Hd HR. destruct o; simpl in *; walk. by apply b_alter.
Qed.

(** One turn, given the handling of the frames it may receive. *)
Lemma k_turn t (I' : World -> Prop) (E' : DError -> World -> Prop) :
  (forall m, t = Received m -> hoare I (handle_control m) (fun _ => I') E') ->
  (forall w, I w -> I' w) -> (forall e w, E e w -> E' e w) ->
  (t = Dispatched -> forall label reason permit, keeps I E (resnapshot_row label reason permit)) ->
  (forall w, I w -> Forall discreet (channel w)) -> hoare I (turn t) (fun _ => I') E'.
Proof.
  intros Hm HI HE HR HD. unfold turn.
  assert (forall A (m : DM A), keeps I E m -> hoare I m (fun _ => I') E') as weak
    by (intros A m H; by apply (h_conseq _ _ _ _ _ _ _ H)).
  assert (forall A (m : DM A), keeps I E m -> hoare I m (fun _ => I) E') as weakE
    by (intros A m H; by apply (h_conseq _ _ _ _ _ _ _ H)).
  apply h_get. intros v Hv. destruct (closing v); [by apply h_ret; intros w ->; apply HI|].
  apply (h_bind _ _ _ (fun _ => I)).
  { assert (keeps I E (if decide (missed_replays v = []) then dret tt else replay_missed)) as K
      by (destruct (decide (missed_replays v = [])); walk).
    intros w ->. exact (weakE _ _ K v Hv). }
  intros _. apply (h_bind _ _ _ (fun _ => I)); [by apply weakE; walk|]. intros _.
  destruct t as [m| | |].
  - apply (h_bind _ _ _ (fun _ => I')); [by apply Hm|intros []; by apply h_ret].
  - apply weak. walk.
  - apply h_get. intros u Hu.
    destruct (channel u) as [|o rest] eqn:Hc; [by apply h_ret; intros w ->; apply HI|].
    pose proof (HD u Hu) as Ho. rewrite Hc in Ho. apply Forall_cons in Ho as [Ho _].
    intros w ->. apply (weak _ _ (k_handle_outbound o Ho (HR eq_refl))). by apply (a_channel o).
  - apply weak. apply k_bind; [apply k_expire_keys|intros; walk].
Qed.
End Handlers.

(** ** Draining the queue *)

Section Draining.
Context {WA : Wares} {En : Type} {OU : Outside En} {OR : Orderly}.

Notation World := (World (En := En)).
Notation DM := (DM (En := En)).

Definition frame_of (d : Deliverable) : OutFrame :=
  match d with Rows m => OBulk m | SnapshotComplete l c => OSnapshotEnd l c end.

(** The head of the queue handed to the link. *)
Definition delivered (d : Deliverable) (q : list Deliverable) (w : World) : World :=
  let w := with_sent (sent w ++ [frame_of d]) (with_queue q w) in
  if costs_credit d then with_credits (credits w - 1) w else w.

(** The window affords the head. *)
Definition affords (d : Deliverable) (w : World) : Prop := costs_credit d = true -> credits w <> 0.

Lemma affords_spec d w :
  bool_decide (credits w = 0) && costs_credit d = false <-> affords d w.
Proof.
  unfold affords. rewrite andb_false_iff, bool_decide_eq_false.
  destruct (costs_credit d); split; try (intros [|]; done); tauto.
Qed.

(** A wait and a question leave the session as it was. *)
Lemma await_eq (w : World) : exists ch e, Forall foreign ch /\ await w = (Ok tt, with_env ch e w).
Proof.
  unfold await.
  pose proof (meanwhile_foreign (routes w) (computed_routes w) (env w)) as D1.
  pose proof (gated_foreign (routes w) (computed_routes w) (env w)) as D2.
  destruct (gated w); [destruct (meanwhile_gated _ _ _)|destruct (meanwhile _ _ _)]; eauto.
Qed.

Lemma ask_answer {A} (f : En -> A * En) (w : World) :
  exists l e e0, Forall foreign l /\ ask f w = (Ok (f e0).1, with_env l e w).
Proof.
  unfold ask, dbind, await, call.
  pose proof (meanwhile_foreign (routes w) (computed_routes w) (env w)) as D1.
  pose proof (gated_foreign (routes w) (computed_routes w) (env w)) as D2.
  destruct (gated w).
  - destruct (meanwhile_gated _ _ _) as [l e]. simpl. exists l, (f e).2, e. split; [done|].
    destruct (f e) as [a e']. unfold with_env. simpl. by rewrite app_nil_r.
  - destruct (meanwhile _ _ _) as [l e]. simpl. exists l, (f e).2, e. split; [done|].
    destruct (f e) as [a e']. unfold with_env. simpl. by rewrite app_nil_r.
Qed.

Lemma ask_eq {A} (f : En -> A * En) (w : World) :
  exists l e a, Forall foreign l /\ ask f w = (Ok a, with_env l e w).
Proof. destruct (ask_answer f w) as (l & e & e0 & Hl & H). by exists l, e, (f e0).1. Qed.

(** One attempt at the head: it is handed over, or lost with the link. *)
Lemma deliver_step (I : World -> Prop) (E : DError -> World -> Prop) d q :
  (forall l e w, Forall foreign l -> I w -> I (with_env l e w)) ->
  (forall w, pending w = d :: q -> affords d w -> I w -> I (delivered d q w)) ->
  (forall w, pending w = d :: q -> I w -> E ETransport (with_queue q w)) ->
  hoare (fun w => (I w /\ pending w = d :: q) /\ affords d w)
    (dbind (dmod (with_queue q)) (fun _ =>
      match d with
      | Rows m => dbind (send (OBulk m)) (fun _ => dmod (fun w => with_credits (credits w - 1) w))
      | SnapshotComplete l c => send (OSnapshotEnd l c)
      end))
    (fun _ w => I w /\ pending w = q) E.
Proof.
  intros H0 H1 H2 w [[Hw Hq] Ha]. unfold dbind, send. simpl.
  destruct d as [m|lab c]; unfold dbind; simpl.
  - destruct (ask_eq (sends (OBulk m)) (with_queue q w)) as (l & e & [] & Hl & ->); simpl;
      pose proof (H0 l e w Hl Hw) as W; [split; [exact (H1 (with_env l e w) Hq Ha W)|done]|exact (H2 (with_env l e w) Hq W)].
  - destruct (ask_eq (sends (OSnapshotEnd lab c)) (with_queue q w)) as (l & e & [] & Hl & ->); simpl;
      pose proof (H0 l e w Hl Hw) as W; [split; [exact (H1 (with_env l e w) Hq Ha W)|done]|exact (H2 (with_env l e w) Hq W)].
Qed.

(** Where draining stops: the queue is empty, or the window is and the head costs. *)
Definition drained (w : World) : Prop :=
  match pending w with [] => True | d :: _ => costs_credit d = true /\ credits w = 0 end.

Lemma h_flush (I : World -> Prop) (E : DError -> World -> Prop) :
  (forall l e w, Forall foreign l -> I w -> I (with_env l e w)) ->
  (forall d q w, pending w = d :: q -> affords d w -> I w -> I (delivered d q w)) ->
  (forall d q w, pending w = d :: q -> I w -> E ETransport (with_queue q w)) ->
  hoare I flush (fun _ w => I w /\ drained w) E.
Proof.
  intros H0 H1 H2.
  assert (forall q, hoare (fun w => I w /\ pending w = q) (flush_queue q)
    (fun _ w => I w /\ drained w) E) as H.
  { induction q as [|d q IH]; simpl.
    { apply h_ret. intros w [Hw Hq]. unfold drained. by rewrite Hq. }
    apply h_get. intros v [Hv Hq].
    destruct (bool_decide (credits v = 0) && costs_credit d) eqn:Ha.
    { apply h_ret. intros w ->. apply andb_true_iff in Ha as [Ha%bool_decide_eq_true Hc].
      unfold drained. by rewrite Hq. }
    apply affords_spec in Ha.
    intros w ->. pose proof (deliver_step I E d q H0 (H1 d q) (H2 d q) v (conj (conj Hv Hq) Ha)) as Hd.
    unfold dbind in *. simpl in *.
    destruct d as [m|lab c]; simpl in *.
    - destruct (send (OBulk m) (with_queue q v)) as [[[]|e] w1]; [|done].
      by apply IH.
    - destruct (send (OSnapshotEnd lab c) (with_queue q v)) as [[[]|e] w1]; [|done].
      by apply IH. }
  intros w Hw. by apply (H (pending w)).
Qed.

Lemma k_flush I E `{AS : !Aside I E} :
  (forall d q w, pending w = d :: q -> affords d w -> I w -> I (delivered d q w)) ->
  (forall d q w, pending w = d :: q -> I w -> E ETransport (with_queue q w)) ->
  keeps I E flush.
Proof. intros H1 H2. eapply h_conseq; [apply h_flush; [by apply a_env|done|done]|done|by intros ? ? []|done]. Qed.

(** The credits a run of the queue costs. *)
Definition cost (q : list Deliverable) : Z :=
  Z.of_nat (length (filter (fun d => costs_credit d = true) q)).

Lemma cost_app a b : cost (a ++ b) = cost a + cost b.
Proof. unfold cost. rewrite filter_app, length_app. lia. Qed.

(** How far a drain has come from [w0]: what left the queue is what was sent. *)
Definition drain_from (w0 w : World) : Prop :=
  exists a, pending w0 = a ++ pending w /\ credits w = credits w0 - cost a /\
    sent w = sent w0 ++ (frame_of <$> a).

(** The same at the moment the link fails: one item is lost with it. *)
Definition drain_lost (w0 w : World) : Prop :=
  exists a d, pending w0 = a ++ d :: pending w /\ sent w = sent w0 ++ (frame_of <$> a).

Lemma drain_step w0 d q w :
  pending w = d :: q -> drain_from w0 w -> drain_from w0 (delivered d q w).
Proof.
  intros Hq (a & Ha & Hc & Hs). exists (a ++ [d]).
  rewrite cost_app, fmap_app, <- app_assoc. unfold delivered, cost in *.
  destruct d; simpl in *; rewrite Ha, Hq, Hs, <- app_assoc; split_and!; (done || lia).
Qed.

Lemma flush_order (w : World) :
  match flush w with
  | (Ok _, w') => drain_from w w' /\ drained w'
  | (Err e, w') => e = ETransport /\ drain_lost w w'
  end.
Proof.
  apply (h_flush (drain_from w) (fun e w' => e = ETransport /\ drain_lost w w')).
  - done.
  - intros d q w' Hq _. by apply drain_step.
  - intros d q w' Hq (a & Ha & _ & Hs). split; [done|]. exists a, d. by rewrite Ha, Hq.
  - exists []. split_and!; [done|unfold cost; simpl; lia|by rewrite app_nil_r].
Qed.

(** Draining keeps the order of the queue and stops only when it must: what
    is sent is a prefix of the queue, each row frame of it paid for with one
    credit, and what stays begins with a row frame no credit is left for. When the
    link fails, what had been sent is still a prefix, so nothing overtook. *)
Theorem flush_in_order (w : World) :
  match flush w with
  | (Ok _, w') => drain_from w w' /\ drained w'
  | (Err e, w') => e = ETransport /\ drain_lost w w'
  end.
Proof. exact (flush_order w). Qed.
End Draining.

(** ** Flow control *)

Section Flow.
Context {WA : Wares} {En : Type} {OU : Outside En} {OR : Orderly}.

Notation World := (World (En := En)).
Notation DM := (DM (En := En)).

Definition is_bulk (f : OutFrame) : bool := match f with OBulk _ => true | _ => false end.

(** The row frames sent. *)
Definition bulk_sent (w : World) : Z := Z.of_nat (length (filter (fun f => is_bulk f = true) (sent w))).

(** The window's account: what was spent on row frames and what is left are within
    what was granted. *)
Definition account (c : Z) (w : World) : Prop :=
  bulk_sent w + credits w <= c /\ 0 <= credits w /\ Forall discreet (channel w).

Lemma bulk_sent_app w f :
  bulk_sent (with_sent (sent w ++ [f]) w) = bulk_sent w + (if is_bulk f then 1 else 0).
Proof.
  unfold bulk_sent. simpl. rewrite filter_app, length_app, filter_cons, filter_nil.
  destruct (is_bulk f); simpl; lia.
Qed.

#[local] Instance account_aside c : Aside (account c) (fun _ => account c).
Proof.
  split; unfold account; simpl; try done.
  - intros l e w Hl%foreign_discreet (H1 & H2 & H3). split_and!; [done|done|]. by apply Forall_app.
  - intros o l w Hc (H1 & H2 & H3). split_and!; [done|done|]. rewrite Hc in H3. by apply Forall_cons in H3 as [].
  - intros f w Hf (H1 & H2 & H3). split_and!; [|done|done]. rewrite bulk_sent_app.
    destruct f; try done; simpl; lia.
Qed.

Lemma account_flush c : keeps (account c) (fun _ => account c) flush.
Proof.
  apply k_flush; [apply _| |by intros d q w _ H].
  intros d q w Hq Ha (H1 & H2 & H3). unfold affords, account, delivered, bulk_sent in *.
  destruct d; simpl in *; rewrite filter_app, length_app; simpl.
  - specialize (Ha eq_refl). split_and!; [|lia|done]. lia.
  - split_and!; [lia|lia|done].
Qed.

#[local] Instance account_bystander c :
  Bystander (fun _ => False) (account c) (fun _ => account c).
Proof.
  split; try apply _; try apply account_flush; unfold account; simpl; try done.
  2:{ intros o w Ho (H1 & H2 & H3). split_and!; [done|done|]. apply Forall_app. by repeat constructor. }
  intros label p w _ (H1 & H2 & H3). split_and!; [|done|done]. rewrite bulk_sent_app. simpl. lia.
Qed.

Lemma account_resnapshot c label reason permit :
  keeps (account c) (fun _ => account c) (resnapshot_row label reason permit).
Proof. apply (k_resnapshot (mine := fun _ => False)); auto. Qed.

Lemma account_pump c : keeps (account c) (fun _ => account c) pump_page.
Proof.
  unfold pump_page. apply k_get. intros v Hv. destruct (_ || _); [walk|].
  destruct (paging v) as [|r rest]; [walk|]. apply k_bind; [by apply k_mod|intros _].
  destruct (subs v !! pr_label r); [|walk]. apply (k_read_next (mine := fun _ => False)); auto.
Qed.

(** What a frame grants. *)
Definition granted (t : Turn) : Z := match t with Received (IAckCredits n) => n | _ => 0 end.

Lemma account_weaken c c' w : c <= c' -> account c w -> account c' w.
Proof. intros Hc (? & ? & ?). split_and!; [lia|done|done]. Qed.

Lemma account_ack c n :
  0 <= n -> hoare (account c) (ack_credits n) (fun _ => account (c + n)) (fun _ => account (c + n)).
Proof.
  intros Hn. apply (h_bind _ _ _ (fun _ => account (c + n))).
  - apply h_mod. intros w (H1 & H2 & H3). unfold account, sat_add in *. unfold bulk_sent in *. simpl.
    split_and!; [lia| |done]. unfold u32_max. lia.
  - intros _. apply k_bind; [apply account_flush|intros _; apply account_pump].
Qed.

(** Any frame but an acknowledgement grants nothing. *)
Lemma account_control c m :
  0 <= granted (Received m) ->
  hoare (account c) (handle_control m) (fun _ => account (c + granted (Received m)))
    (fun _ => account (c + granted (Received m))).
Proof.
  intros Hn. destruct m; simpl in *; try by apply account_ack.
  all: rewrite Z.add_0_r.
  - apply (k_handle_subscribe (mine := fun _ => False)); auto.
  - apply (k_unsubscribe (mine := fun _ => False)).
  - by apply k_send.
  - apply (k_replace_share_keys (mine := fun _ => False)).
Qed.

Lemma account_turn c t :
  0 <= granted t ->
  hoare (account c) (turn t) (fun _ => account (c + granted t)) (fun _ => account (c + granted t)).
Proof.
  intros Hg. apply (k_turn (mine := fun _ => False) (E := fun _ => account c)); auto.
  - intros m ->. by apply account_control.
  - intros w. apply account_weaken. lia.
  - intros _ w. apply account_weaken. lia.
  - intros. apply account_resnapshot.
  - by intros w (_ & _ & ?).
Qed.

Definition granted_by (l : list Turn) : Z := foldr (fun t n => granted t + n) 0 l.

Lemma granted_by_nonneg l : Forall (fun t => 0 <= granted t) l -> 0 <= granted_by l.
Proof. induction 1; simpl in *; lia. Qed.

Lemma account_turns c l :
  Forall (fun t => 0 <= granted t) l ->
  hoare (account c) (turns l) (fun _ => account (c + granted_by l)) (fun _ => account (c + granted_by l)).
Proof.
  intros Hl. revert c. induction Hl as [|t l Ht Hl IH]; intros c; simpl.
  - apply h_ret. intros w. apply account_weaken. lia.
  - pose proof (granted_by_nonneg l Hl).
    apply (h_bind _ _ _ (fun _ => account (c + granted t))).
    + eapply h_conseq; [by apply account_turn|done|done|]. intros ? w. apply account_weaken. lia.
    + intros [|]; [|apply h_ret; intros w; apply account_weaken; lia].
      eapply h_conseq; [apply IH|done| |]; intros ? w; apply account_weaken; lia.
Qed.

Lemma account_opened n v r b s x c e :
  0 <= n -> account n (opened (En := En) n v r b s x c e).
Proof. intros Hn. unfold account, bulk_sent. simpl. split_and!; [lia|lia|done]. Qed.

(** C20. The client's window bounds what it is sent: whatever the session is asked,
    by whomever and in whatever order, and whether or not it ends in an error, the
    row frames sent together with the credits left never exceed the credits the
    handshake gave and the acknowledgements added, and the credits never wrap. *)
Theorem credit_window n v r b s x c e l :
  0 <= n -> Forall (fun t => 0 <= granted t) l ->
  let w := (turns l (opened (En := En) n v r b s x c e)).2 in
  bulk_sent w + credits w <= n + granted_by l /\ 0 <= credits w.
Proof.
  intros Hn Hl w. pose proof (account_turns n l Hl _ (account_opened n v r b s x c e Hn)) as H.
  subst w. destruct (turns l _) as [[on|err] w]; destruct H as (H1 & H2 & _); done.
Qed.
End Flow.

(** ** Reads of the reconnect log end *)

Section Waiting.
Context {WA : Wares} {En : Type} {OU : Outside En} {OR : Orderly}.

Notation World := (World (En := En)).
Notation DM := (DM (En := En)).

Lemma default_backoff a : 1 <= a -> from_millis 200 <= backoff default_policy a <= 5 * NANOS_PER_SEC.
Proof.
  intros Ha. unfold backoff. change (as_millis (initial_backoff default_policy)) with 200.
  change (as_millis (max_backoff default_policy)) with 5000.
  assert (1 <= Z.min u128_max (2 ^ sat_sub a 1)) as Hf.
  { unfold u128_max. pose proof (Z.pow_pos_nonneg 2 (sat_sub a 1)). unfold sat_sub in *. lia. }
  unfold sat_mul, from_millis, NANOS_PER_SEC, NANOS_PER_MILLI, u64_max. unfold u128_max in *. lia.
Qed.

(** The default schedule never gives up and never waits less than 100 ms. *)
Lemma default_wait ep :
  0 <= bo_attempt ep -> exists wait ep', next_wait default_policy ep = (Some wait, ep') /\
    from_millis 100 <= wait /\ 0 <= bo_attempt ep'.
Proof.
  intros Ha. unfold next_wait. simpl max_attempts. cbv iota. simpl max_total_backoff. cbv iota.
  simpl jitter. cbv iota. set (b := {| bo_attempt := _; bo_waited := _; bo_seed := _ |}).
  assert (1 <= bo_attempt b) as Hb by (simpl; unfold sat_add, u32_max; lia).
  pose proof (default_backoff (bo_attempt b) Hb) as Hw.
  pose proof (jittered_range b (backoff default_policy (bo_attempt b))) as Hj.
  eexists _, _. split; [done|]. split; [|simpl in *; lia].
  unfold from_millis, NANOS_PER_SEC, NANOS_PER_MILLI, u64_max in *.
  assert (200 * 1000000 / 2 <= backoff default_policy (bo_attempt b) / 2) by (apply Z.div_le_mono; lia).
  change (200 * 1000000 / 2) with 100000000 in *. lia.
Qed.

Lemma budget_ask {A} (f : En -> A * En) (w : World) :
  exists a w', ask f w = (Ok a, w') /\ read_budget w' = read_budget w.
Proof. destruct (ask_eq f w) as (ch & e & a & _ & ->). by exists a, (with_env ch e w). Qed.

(** Enough attempts for what is left of the budget. *)
Definition enough (budget : Z) (fuel : nat) : Prop :=
  budget = 0 \/ budget / from_millis 100 + 1 <= Z.of_nat fuel.

Lemma enough_next budget wait fuel :
  0 <= budget -> from_millis 100 <= wait -> enough budget (S fuel) ->
  budget <> 0 -> enough (budget - Z.min wait budget) fuel.
Proof.
  intros Hb Hw [?|He] Hn; [done|]. unfold enough, from_millis, NANOS_PER_MILLI in *.
  destruct (decide (budget <= wait)); [left; lia|right].
  assert (budget - Z.min wait budget <= budget + (-1) * (100 * 1000000)) as Hle by lia.
  apply (Z.div_le_mono _ _ (100 * 1000000)) in Hle; [|lia].
  rewrite Z.div_add in Hle by lia. lia.
Qed.

Lemma read_loop_enough {R} (read : En -> Result R LogError * En) n m ep w :
  0 <= bo_attempt ep -> 0 <= read_budget w -> enough (read_budget w) n -> enough (read_budget w) m ->
  read_loop n read ep w = read_loop m read ep w.
Proof.
  revert m ep w. induction n as [|n IH]; intros m ep w Ha Hb Hn Hm;
    destruct (budget_ask read w) as (r & w1 & E1 & B1).
  - assert (read_budget w = 0) as Hz.
    { destruct Hn as [|Hn]; [done|]. unfold from_millis, NANOS_PER_MILLI in Hn.
      pose proof (Z.div_pos (read_budget w) (100 * 1000000)). lia. }
    destruct m; simpl; unfold dbind; rewrite E1; destruct r as [v|e]; try done;
      destruct (negb _); try done; simpl; by rewrite B1, Hz.
  - destruct m as [|m].
    { assert (read_budget w = 0) as Hz.
      { destruct Hm as [|Hm]; [done|]. unfold from_millis, NANOS_PER_MILLI in Hm.
        pose proof (Z.div_pos (read_budget w) (100 * 1000000)). lia. }
      simpl; unfold dbind; rewrite E1; destruct r as [v|e]; try done;
      destruct (negb _); try done; simpl; by rewrite B1, Hz. }
    destruct (default_wait ep Ha) as (wait & ep' & Ew & Hw & Ha').
    cbn [read_loop]. rewrite Ew. unfold dbind. rewrite E1. destruct r as [v|e]; [done|].
    destruct (negb _); [done|]. unfold dget. rewrite B1.
    destruct (decide (read_budget w = 0)) as [|Hz]; [done|]. unfold dmod.
    destruct (await_eq (with_budget (read_budget w - Z.min wait (read_budget w)) w1)) as (ch & e' & _ & ->).
    apply IH; simpl; [done|unfold from_millis, NANOS_PER_MILLI in *; lia| |]; by apply enough_next.
Qed.

End Waiting.
