(* ===== verification/Brackets.v ===== *)
(** The frames of one snapshot, as the client of a session sees them.

    Pages wait in the queue and the notice that opens a snapshot does not, a read
    may be taken again half way, and its subscription may end at any moment. For
    one label the frames are read as an automaton: a page is allowed only while a
    snapshot is open. The invariant of a label says where the automaton stands
    after everything sent and queued, and that an open snapshot has its next page
    still to read. *)

From Stdlib Require Import ZArith Lia.
From stdpp Require Import base list numbers option strings gmap fin_maps.
From S2P Require Import Prelude Wire Backoff Throttle Guard Cursor Oplog Catchup Caller Delivery Outflow.

Open Scope Z_scope.

(** ** The automaton *)

Inductive Mark := MBegin | MPage | MEnd.

(** Reads frames from a state (whether a snapshot is open) to a state. *)
Fixpoint scan (open : bool) (l : list Mark) : option bool :=
  match l with
  | [] => Some open
  | MBegin :: l' => scan true l'
  | MPage :: l' => if open then scan true l' else None
  | MEnd :: l' => scan false l'
  end.

Lemma scan_app o l1 l2 : scan o (l1 ++ l2) = scan o l1 ≫= fun o' => scan o' l2.
Proof. revert o. induction l1 as [|[] l1 IH]; intros o; simpl; [done|done| |done]. by destruct o. Qed.

Lemma scan_prefix o l1 l2 : is_Some (scan o (l1 ++ l2)) -> is_Some (scan o l1).
Proof. rewrite scan_app. destruct (scan o l1); [done|]. by intros []. Qed.

Section Brackets.
Context {WA : Wares} {En : Type} {OU : Outside En} {OR : Orderly}.

Notation World := (World (En := En)).
Notation DM := (DM (En := En)).

(** The label whose frames are read. *)
Variable l : string.

Definition sent_mark (f : OutFrame) : option Mark :=
  match f with
  | OSnapshotBegin l' _ => if decide (l' = l) then Some MBegin else None
  | OBulk (SnapshotPatch l' _) => if decide (l' = l) then Some MPage else None
  | OSnapshotEnd l' _ => if decide (l' = l) then Some MEnd else None
  | _ => None
  end.

Definition queue_mark (d : Deliverable) : option Mark :=
  match d with
  | Rows (SnapshotPatch l' _) => if decide (l' = l) then Some MPage else None
  | SnapshotComplete l' _ => if decide (l' = l) then Some MEnd else None
  | _ => None
  end.

Definition queued (w : World) : list Mark := omap queue_mark (pending w).
Definition marks (w : World) : list Mark := omap sent_mark (sent w) ++ queued w.

(** The frames sent so far read well. *)
Definition sent_ok (w : World) : Prop := is_Some (scan false (omap sent_mark (sent w))).

Definition of_label (r : PagedRead) : Prop := pr_label r = l.
#[local] Instance of_label_dec r : Decision (of_label r).
Proof. unfold of_label. apply _. Defined.

(** The reads of the label still arriving. *)
Definition reads (w : World) : list PagedRead := filter of_label (paging w).

(** What the rest of the session keeps: subscriptions and reads carry their own
    label. *)
Definition base (w : World) : Prop :=
  (forall label row, subs w !! label = Some row -> sub_id (rs_sub row) = label) /\
  Forall (fun r => sub_id (pr_sub r) = pr_label r) (paging w) /\
  Forall discreet (channel w).

(** A claim about the label's marks in the queue, the automaton's state behind
    them, the reads still arriving, and whether it is subscribed. *)
Definition Claim := list Mark -> bool -> nat -> bool -> Prop.

Definition holds (K : Claim) (w : World) : Prop :=
  base w /\ exists o, scan false (marks w) = Some o /\
    K (queued w) o (length (reads w)) (bool_decide (is_Some (subs w !! l))).

Class Closed (K : Claim) : Prop := {
  c_drop q o n s : K q o n s -> K q o 0%nat false;
  c_flush m q o n s : K (m :: q) o n s -> K q o n s;
}.

Definition fault (K : Claim) (e : DError) (w : World) : Prop :=
  sent_ok w /\ (soft e = true -> holds K w).

Lemma holds_sent_ok K w : holds K w -> sent_ok w.
Proof. intros (_ & o & Ho & _). apply (scan_prefix _ _ (queued w)). by exists o. Qed.

Lemma quiet_mark f : quiet f = true -> sent_mark f = None.
Proof. by destruct f. Qed.

Lemma frame_mark d : sent_mark (frame_of d) = queue_mark d.
Proof. by destruct d as [[]|]. Qed.

(** A claim is about five parts of the state. *)
Lemma holds_ext K w w' :
  sent w' = sent w -> pending w' = pending w -> paging w' = paging w -> subs w' = subs w ->
  (Forall discreet (channel w) -> Forall discreet (channel w')) -> holds K w -> holds K w'.
Proof.
  intros H1 H2 H3 H4 H5 ((B1 & B2 & B3) & o & Ho & HK).
  unfold holds, base, marks, queued, reads in *. rewrite H1, H2, H3, H4. split_and!; auto.
  by exists o.
Qed.

#[local] Instance holds_aside K : Aside (holds K) (fault K).
Proof.
  split; try (intros; by eapply holds_ext).
  - intros e w Hw. split; [by eapply holds_sent_ok|done].
  - intros l' e w Hl%foreign_discreet. apply holds_ext; try done. simpl. intros. by apply Forall_app.
  - intros o l' w Hc. apply holds_ext; try done. simpl. rewrite Hc. by intros []%Forall_cons.
  - intros f w Hf (B & o & Ho & HK). split; [done|]. exists o. split; [|done].
    unfold marks, queued in *. simpl. rewrite omap_app. simpl. by rewrite quiet_mark, app_nil_r.
Qed.

(** ** Closed claims are bystanders *)

Lemma reads_without label w :
  reads (with_paging (without_label label (paging w)) w) =
  if decide (label = l) then [] else reads w.
Proof.
  unfold reads, without_label, of_label. simpl. induction (paging w) as [|r p IH].
  - by destruct (decide (label = l)).
  - rewrite !filter_cons.
    destruct (decide (pr_label r <> label)) as [Hr|Hr%dec_stable].
    + rewrite filter_cons, IH. destruct (decide (label = l)) as [->|]; [|done]. by rewrite decide_False.
    + rewrite IH. destruct (decide (label = l)) as [->|]; [done|]. by rewrite decide_False by congruence.
Qed.

Lemma queued_purge label w :
  label <> l ->
  queued (with_queue (filter (fun d => deliverable_label d <> label) (pending w)) w) = queued w.
Proof.
  intros Hn. unfold queued. simpl. induction (pending w) as [|d q IH]; [done|].
  rewrite filter_cons. destruct (decide (deliverable_label d <> label)) as [Hd|Hd]; csimpl; [by rewrite IH|].
  rewrite IH. assert (queue_mark d = None) as ->; [|done].
  apply dec_stable in Hd. destruct d as [[]|]; simpl in *; try done; by rewrite decide_False by congruence.
Qed.

Lemma other_mark d : live d = true \/ deliverable_label d <> l -> queue_mark d = None.
Proof.
  intros [H|H]; destruct d as [[]|]; simpl in *; try done; by rewrite decide_False.
Qed.

Lemma base_paging p w :
  base w -> Forall (fun r => sub_id (pr_sub r) = pr_label r) p -> base (with_paging p w).
Proof. intros (B1 & _ & B3) Hp. split_and!; done. Qed.

Lemma base_unpage label w : base w -> base (with_paging (without_label label (paging w)) w).
Proof.
  intros B. apply base_paging; [done|]. destruct B as (_ & B & _). rewrite Forall_forall in B |- *.
  intros r [_ Hr]%list_elem_of_filter. by apply B.
Qed.

Lemma base_delete label w : base w -> base (with_subs (delete label (subs w)) w).
Proof.
  intros (B1 & B2 & B3). split_and!; [|done|done]. simpl.
  intros lab row [_ H]%lookup_delete_Some. by apply B1.
Qed.

Lemma base_insert label r w :
  sub_id (rs_sub r) = label -> base w -> base (with_subs (<[label := r]> (subs w)) w).
Proof.
  intros Hr (B1 & B2 & B3). split_and!; [|done|done]. simpl.
  intros lab row [[<- <-]|[_ H]]%lookup_insert_Some; [done|by apply B1].
Qed.

Lemma base_alter f label w :
  (forall r, rs_sub (f r) = rs_sub r) -> base w -> base (with_subs (alter f label (subs w)) w).
Proof.
  intros Hf (B1 & B2 & B3). split_and!; [|done|done]. simpl.
  intros lab row [(-> & r & H & ->)|[_ H]]%lookup_alter_Some; [rewrite Hf|]; by apply B1.
Qed.

Lemma marks_delivered d q w : pending w = d :: q -> marks (delivered d q w) = marks w.
Proof.
  intros Hq. unfold marks, queued, delivered. rewrite Hq.
  destruct (costs_credit d); simpl; rewrite omap_app, <- app_assoc; simpl; rewrite frame_mark;
    by destruct (queue_mark d).
Qed.

Lemma queued_delivered d q w :
  pending w = d :: q -> queued w = option_list (queue_mark d) ++ queued (delivered d q w).
Proof.
  intros Hq. unfold queued, delivered. rewrite Hq. simpl.
  by destruct (costs_credit d), (queue_mark d).
Qed.

Lemma holds_flush K `{!Closed K} : keeps (holds K) (fault K) flush.
Proof.
  apply k_flush; [apply _| |].
  - intros d q w Hq _ (B & o & Ho & HK). split; [by unfold delivered; destruct (costs_credit d)|].
    exists o. rewrite marks_delivered by done. split; [done|].
    rewrite (queued_delivered d q w Hq) in HK. unfold reads in *.
    assert (paging (delivered d q w) = paging w /\ subs (delivered d q w) = subs w) as [-> ->]
      by (unfold delivered; by destruct (costs_credit d)).
    destruct (queue_mark d); simpl in HK; [by eapply c_flush|done].
  - intros d q w Hq Hw. split; [|done]. by apply holds_sent_ok in Hw.
Qed.

Definition mine (label : string) : Prop := label = l.

Lemma holds_subs K (m : gmap string RowSub) w :
  base (with_subs m w) -> is_Some (m !! l) <-> is_Some (subs w !! l) -> holds K w ->
  holds K (with_subs m w).
Proof.
  intros B Hs (_ & o & Ho & HK). split; [done|]. exists o. split; [done|].
  unfold queued, reads in *. simpl. by rewrite (bool_decide_ext _ _ Hs).
Qed.

Lemma holds_reads K p w :
  base (with_paging p w) -> length (filter of_label p) = length (reads w) -> holds K w ->
  holds K (with_paging p w).
Proof.
  intros B Hn (_ & o & Ho & HK). split; [done|]. exists o. split; [done|].
  unfold queued, reads in *. simpl. by rewrite Hn.
Qed.

Lemma holds_drop K `{!Closed K} label w :
  holds K w ->
  holds K (with_subs (delete label (subs w)) (with_paging (without_label label (paging w)) w)).
Proof.
  intros Hw. destruct (decide (label = l)) as [->|Hn].
  - destruct Hw as (B & o & Ho & HK). split; [by apply (base_delete _ (with_paging _ w)), base_unpage|].
    exists o. split; [done|]. pose proof (reads_without l w) as Hr. rewrite decide_True in Hr by done.
    unfold queued, reads in *. simpl in *. rewrite Hr, lookup_delete_eq. simpl. by eapply c_drop.
  - apply holds_subs.
    + by apply (base_delete _ (with_paging _ w)), base_unpage; destruct Hw.
    + by rewrite lookup_delete_ne.
    + apply holds_reads; [by apply base_unpage; destruct Hw| |done].
      pose proof (reads_without label w) as Hr. rewrite decide_False in Hr by done.
      unfold reads in Hr. simpl in Hr. by rewrite Hr.
Qed.

#[local] Instance holds_bystander K `{!Closed K} : Bystander mine (holds K) (fault K).
Proof.
  split; unfold mine; try (intros; by eapply holds_ext).
  - apply _.
  - intros e w He [_ H]. by apply H.
  - intros f label w Hf Hw. apply holds_subs; [by apply base_alter; destruct Hw| |done].
    destruct (decide (label = l)) as [->|]; [|by rewrite lookup_alter_ne].
    by rewrite lookup_alter_eq, fmap_is_Some.
  - intros label r w Hn Hr Hw. apply holds_subs; [by apply base_insert; destruct Hw| |done].
    by rewrite lookup_insert_ne.
  - intros label w Hn Hw. apply holds_subs; [by apply base_delete; destruct Hw| |done].
    by rewrite lookup_delete_ne.
  - intros label w. by apply holds_drop.
  - intros label w Hn Hw. apply holds_reads; [by apply base_unpage; destruct Hw| |done].
    pose proof (reads_without label w) as Hr. rewrite decide_False in Hr by done.
    unfold reads in Hr. simpl in Hr. by rewrite Hr.
  - intros r w Hn Hr Hw. apply holds_reads; [| |done].
    + destruct Hw as ((B1 & B2 & B3) & _). apply base_paging; [done|]. apply Forall_app. by repeat constructor.
    + rewrite filter_app, filter_cons. unfold of_label at 2. rewrite decide_False by done.
      by rewrite app_nil_r.
  - intros label w Hn (B & o & Ho & HK). split; [done|]. exists o.
    unfold marks, reads in *. by rewrite queued_purge.
  - intros label p w Hn (B & o & Ho & HK). split; [done|]. exists o. split; [|done].
    unfold marks, queued in *. simpl. rewrite omap_app. simpl. by rewrite decide_False, app_nil_r.
  - intros d w Hd (B & o & Ho & HK). apply other_mark in Hd. split; [done|]. exists o.
    assert (queued (with_queue (pending w ++ [d]) w) = queued w) as Hq.
    { unfold queued. simpl. rewrite omap_app. simpl. by rewrite Hd, app_nil_r. }
    unfold marks, reads in *. by rewrite Hq.
  - intros o w Ho. apply holds_ext; try done. simpl. intros. apply Forall_app. by repeat constructor.
  - by apply holds_flush.
Qed.

(** ** The claims *)

(** Between handlers: an open snapshot of a live subscription has its next page to
    read, and only an open one has. *)
Definition standing : Claim := fun _ o n s =>
  (o = true -> s = true -> n = 1%nat) /\ (n <> 0%nat -> o = true) /\ (n <= 1)%nat.

(** Nothing of the label is on its way. *)
Definition fresh : Claim := fun q o n s => q = [] /\ n = 0%nat /\ (o = true -> s = false).

(** Within a handler: nothing of it is queued; nor is a read arriving; the
    automaton's state with no read arriving; no subscription. *)
Definition unqueued : Claim := fun q _ _ _ => q = [].
Definition ready : Claim := fun q _ n _ => q = [] /\ n = 0%nat.
Definition idle (o0 : bool) : Claim := fun _ o n _ => o = o0 /\ n = 0%nat.
Definition paused : Claim := fun q o n _ => q = [] /\ o = true /\ n = 0%nat.
Definition gone : Claim := fun _ _ n s => n = 0%nat /\ s = false.
Definition loose : Claim := fun _ o n _ => (n <> 0%nat -> o = true) /\ (n <= 1)%nat.
Definition any : Claim := fun _ _ _ _ => True.

Ltac claims :=
  unfold standing, fresh, unqueued, ready, idle, paused, gone, loose, any in *; naive_solver lia.

#[local] Instance standing_closed : Closed standing. Proof. split; claims. Qed.
#[local] Instance fresh_closed : Closed fresh. Proof. split; claims. Qed.
#[local] Instance ready_closed : Closed ready. Proof. split; claims. Qed.
#[local] Instance idle_closed o : Closed (idle o). Proof. split; claims. Qed.
#[local] Instance paused_closed : Closed paused. Proof. split; claims. Qed.
#[local] Instance gone_closed : Closed gone. Proof. split; claims. Qed.
#[local] Instance loose_closed : Closed loose. Proof. split; claims. Qed.

Lemma holds_mono (K K' : Claim) w :
  (forall q o n s, K q o n s -> K' q o n s) -> holds K w -> holds K' w.
Proof. intros H (B & o & Ho & HK). split; [done|]. exists o. auto. Qed.

Lemma fault_mono (K K' : Claim) e w :
  (forall q o n s, K q o n s -> K' q o n s) -> fault K e w -> fault K' e w.
Proof. intros H [Hs Hf]. split; [done|]. intros He. by eapply holds_mono, Hf. Qed.

(** A failure that ends the session. *)
Definition ruin (e : DError) (w : World) : Prop := soft e = false /\ sent_ok w.

Lemma ruin_fault K e w : ruin e w -> fault K e w.
Proof. intros [He Hw]. split; [done|]. by rewrite He. Qed.

(** ** The label's own snapshot *)

Lemma attach_mine (K : Claim) E sub reg f :
  sub_id sub = l -> (forall q o n s, K q o n s -> K q o n true) ->
  hoare (holds K) (attach_row_route sub reg f) (fun _ => holds K) E.
Proof.
  intros Hl HK w Hw. unfold attach_row_route, add_route, dbind, dget, dmod.
  destruct (await_eq w) as (ch & e & Hch & ->). simpl. rewrite Hl.
  pose proof (a_env ch e w Hch Hw) as (B & o & Ho & H).
  split.
  - apply (base_insert l (recorded sub reg (subs w !! l)) (with_env ch e w)); [|done].
    by destruct (subs w !! l).
  - exists o. split; [done|]. unfold queued, reads in *. simpl in *.
    rewrite lookup_insert_eq. simpl. by eapply HK.
Qed.

Lemma unpage_mine w :
  holds unqueued w -> holds ready (with_paging (without_label l (paging w)) w).
Proof.
  intros (B & o & Ho & HK). split; [by apply base_unpage|]. exists o. split; [done|].
  pose proof (reads_without l w) as Hr. rewrite decide_True in Hr by done.
  unfold reads, queued in *. simpl in *. by rewrite Hr.
Qed.

Lemma begin_mine p :
  hoare (holds ready) (send (OSnapshotBegin l p)) (fun _ => holds (idle true)) ruin.
Proof.
  intros w Hw. unfold send, dbind. destruct (ask_eq (sends (OSnapshotBegin l p)) w) as (ch & e & ok & Hch & ->).
  pose proof (a_env ch e w Hch Hw) as W. destruct ok; simpl; [|by split; [|eapply holds_sent_ok]].
  destruct W as (B & o & Ho & Hq & Hn). split; [done|]. exists true.
  unfold marks, queued, reads in *. simpl in *. rewrite Hq, app_nil_r in Ho |- *.
  rewrite omap_app, scan_app, Ho. simpl. by rewrite decide_True.
Qed.

Lemma flush_mine K `{!Closed K} : hoare (holds K) flush (fun _ => holds K) ruin.
Proof.
  intros w Hw. pose proof (flush_order w) as Hf. pose proof (holds_flush K w Hw) as Hk.
  destruct (flush w) as [[[]|e] w']; [done|]. destruct Hf as [-> _]. split; [done|]. by destruct Hk.
Qed.

(** A queued frame of the label moves the automaton. *)
Lemma enqueue_mine d m o o' :
  queue_mark d = Some m -> scan o [m] = Some o' ->
  hoare (holds (idle o)) (enqueue_and_flush d) (fun _ => holds (idle o')) ruin.
Proof.
  intros Hd Hs. apply (h_bind _ _ _ (fun _ => holds (idle o'))); [|intros _; apply flush_mine, _].
  apply h_mod. intros w (B & o1 & Ho & -> & Hn). split; [done|]. exists o'.
  unfold marks, queued, reads in *. simpl. rewrite omap_app, app_assoc, scan_app, Ho. simpl.
  by rewrite Hd.
Qed.

Lemma send_page_mine patch :
  hoare (holds (idle true)) (send_page l patch) (fun _ => holds (idle true)) ruin.
Proof.
  unfold send_page. destruct (compress patch) as [payload|e].
  - apply (h_bind _ _ _ (fun _ => holds (idle true))); [|intros; by apply h_ret].
    apply (enqueue_mine _ MPage); [|done]. simpl. by rewrite decide_True.
  - apply h_fail. intros w Hw. split; [done|]. by eapply holds_sent_ok.
Qed.

Lemma complete_mine cursor n :
  hoare (holds (idle true)) (complete_snapshot l cursor n) (fun _ => holds standing) ruin.
Proof.
  apply (h_bind _ _ _ (fun _ => holds (idle true))).
  - apply h_mod. intros w Hw. by apply b_alter.
  - intros _. eapply h_conseq; [apply (enqueue_mine (SnapshotComplete l cursor) MEnd true false)|done| |done]; try done.
    + simpl. by rewrite decide_True.
    + intros ? w. apply holds_mono. claims.
Qed.

(** The next page is booked. *)
Lemma page_mine r w :
  pr_label r = l -> sub_id (pr_sub r) = l -> holds (idle true) w ->
  holds standing (with_paging (paging w ++ [r]) w).
Proof.
  intros Hl Hs ((B1 & B2 & B3) & o & Ho & -> & Hn). split.
  { apply base_paging; [done|]. apply Forall_app. split; [done|]. repeat constructor. congruence. }
  exists true. split; [done|]. unfold reads in *. simpl.
  rewrite filter_app, length_app, Hn, filter_cons. unfold of_label at 1. rewrite decide_True by done.
  simpl. claims.
Qed.

(** The read itself: until the notice goes out nothing of the label is queued, so
    a refused read leaves nothing behind. *)
Lemma snapshot_mine start resync :
  sub_id (st_sub start) = l ->
  hoare (holds unqueued) (snapshot_row start resync) (fun _ => holds standing) (fault ready).
Proof.
  intros Hl. unfold snapshot_row. cbv zeta. rewrite Hl.
  apply (h_bind _ _ _ (fun _ => holds unqueued)); [by apply attach_mine|intros _].
  apply (h_bind _ _ _ (fun _ => holds ready)); [apply h_mod; intros w; apply unpage_mine|intros _].
  apply (h_bind _ _ _ (fun _ => holds ready)); [apply k_mod; intros w; apply a_missed|intros _].
  apply h_get. intros v Hv. apply (h_bind _ _ _ (fun _ => holds ready)); [intros w ->; by apply k_ask|].
  intros est. apply (h_bind _ _ _ (fun _ => holds ready)); [apply k_lift|]. intros es.
  destruct (decide _); [apply h_fail; intros w; apply a_fault|].
  apply h_get. intros v' Hv'. apply (h_bind _ _ _ (fun _ => holds ready)); [intros w ->; by apply k_ask|].
  intros page. apply (h_bind _ _ _ (fun _ => holds ready)); [apply k_lift|]. intros pg.
  apply (h_bind _ _ _ (fun _ => holds ready)); [apply k_lift|]. intros _.
  apply (h_bind _ _ _ (fun _ => holds ready)); [apply k_history|]. intros h.
  destruct (first_page_end _ _ _ _) as [cursor replay].
  apply (h_bind _ _ _ (fun _ => holds ready)); [destruct resync; [by apply k_send|apply k_ret]|]. intros _.
  eapply (h_conseq _ (holds ready) _ _ (fun _ => holds standing) _ ruin);
    [|done|done|intros e w; apply ruin_fault].
  apply (h_bind _ _ _ (fun _ => holds (idle true))); [apply begin_mine|]. intros _.
  apply (h_bind _ _ _ (fun _ => holds (idle true))); [apply send_page_mine|]. intros bytes_.
  apply (h_bind _ _ _ (fun _ => holds (idle true))); [apply h_mod; intros w; apply a_missed|]. intros _.
  destruct (next pg); [|apply complete_mine].
  apply h_mod. intros w. by apply page_mine.
Qed.

Lemma take_members_subs tables (w : World) k : subs w !! k = None -> subs (take_members tables w).2 !! k = None.
Proof.
  revert w. induction tables as [|t tables IH]; intros w Hw; simpl; [done|].
  destruct (still_needed _ _); [by apply IH|]. simpl.
  destruct (subs w !! membership_label (mt_table t)); [|by apply IH].
  destruct (take_members tables _) as [taken w'] eqn:Ht. simpl.
  change w' with ((taken, w').2). rewrite <- Ht. apply IH. simpl.
  destruct (decide (k = membership_label (mt_table t))) as [->|];
    [apply lookup_delete_eq|by rewrite lookup_delete_ne].
Qed.

Lemma taken_off_record label (w : World) : subs (take_row_subscription label w).2 !! label = None.
Proof.
  unfold take_row_subscription. simpl. destruct (subs w !! label) as [row|] eqn:Hr; [|done].
  destruct (take_members _ _) as [taken w'] eqn:Ht. simpl. change w' with ((taken, w').2).
  rewrite <- Ht. apply take_members_subs. simpl. apply lookup_delete_eq.
Qed.

Lemma holds_gone w : holds ready w -> subs w !! l = None -> holds gone w.
Proof.
  intros (B & o & Ho & _ & Hn) Hs. split; [done|]. exists o. split; [done|]. by rewrite Hs.
Qed.

Lemma refuse_mine :
  hoare (holds ready) (refuse_subscription l) (fun _ => holds standing) (fault standing).
Proof.
  assert (forall w, holds gone w -> holds standing w) as Hgs by (intros w; apply holds_mono; claims).
  eapply (h_conseq _ _ _ _ (fun _ => holds gone) _ (fault gone)); [|done|by intros ? w; apply Hgs|].
  2:{ intros e w. apply fault_mono. claims. }
  unfold refuse_subscription, take_and_release.
  apply (h_bind _ _ _ (fun _ => holds gone)); [|intros; by apply k_send].
  apply (h_bind _ _ _ (fun _ => holds gone)); [|intros; apply k_release].
  intros w Hw. pose proof (take_keeps l w Hw) as H1. pose proof (taken_off_record l w) as H2.
  destruct (take_row_subscription l w) as [taken w']. by apply holds_gone.
Qed.

Lemma ready_unqueued w : holds ready w -> holds unqueued w.
Proof. apply holds_mono. claims. Qed.

(** A read taken again, its soft failures handed to the caller. *)
Lemma snapshot_caught {B} start resync (k : Result unit DError -> DM B) Q E :
  sub_id (st_sub start) = l ->
  (forall a, hoare (holds standing) (k (Ok a)) Q E) ->
  (forall e, hoare (fun w => fault ready e w) (k (Err e)) Q E) ->
  hoare (holds ready) (dbind (dtry (snapshot_row start resync)) k) Q E.
Proof.
  intros Hl Hok Herr. eapply h_bind.
  - eapply h_conseq; [apply h_try, snapshot_mine, Hl|apply ready_unqueued|done|done].
  - intros [a|e]; [apply Hok|apply Herr].
Qed.

Lemma fault_refuse e :
  soft e = true ->
  hoare (fault ready e) (refuse_subscription l) (fun _ => holds standing) (fault standing).
Proof.
  intros He. eapply h_conseq; [apply refuse_mine| |done|done]. intros w [_ H]. by apply H.
Qed.

Lemma fault_fail {A} e (Q : A -> World -> Prop) :
  soft e = false -> hoare (fault ready e) (dfail e) Q (fault standing).
Proof. intros He. apply h_fail. intros w [Hs _]. split; [done|]. by rewrite He. Qed.

Lemma restart_mine start :
  sub_id (st_sub start) = l ->
  hoare (holds ready) (restart_or_refuse start) (fun _ => holds standing) (fault standing).
Proof.
  intros Hl. unfold restart_or_refuse. cbv zeta. rewrite Hl.
  destruct (st_restarted start); [apply refuse_mine|].
  apply snapshot_caught; [done|intros; by apply h_ret|].
  intros []; try (by apply fault_fail); by apply fault_refuse.
Qed.

Lemma read_next_mine r :
  pr_label r = l -> sub_id (pr_sub r) = l ->
  hoare (holds paused) (read_next r) (fun _ => holds standing) (fault standing).
Proof.
  intros Hl Hs. unfold read_next. cbv zeta. rewrite Hl.
  apply h_get. intros v Hv.
  assert (forall w, holds paused w -> holds ready w) as Hpr by (intros w; apply holds_mono; claims).
  assert (forall w, holds paused w -> holds (idle true) w) as Hpi by (intros w; apply holds_mono; claims).
  apply (h_bind _ _ _ (fun _ => holds paused)).
  { intros w ->. destruct (ask_eq (snapshot_page (pg_sql (pr_reg r)) (spec_binds (pr_sub r)) (viewer v)
      (Some (pr_after r)) (pr_max_rows r) (read_timeout (pr_limits r))) v) as (ch & e & a & Hch & ->).
    by apply a_env. }
  intros [page|e].
  - destruct (admit_page _ _ _ _).
    + eapply (h_conseq _ (holds (idle true)) _ _ (fun _ => holds standing) _ ruin);
        [|apply Hpi|done|intros e w; apply ruin_fault].
      apply (h_bind _ _ _ (fun _ => holds (idle true))); [apply send_page_mine|]. intros n.
      destruct (next page); [|apply complete_mine]. apply h_mod. intros w. by apply page_mine.
    + eapply h_conseq; [apply refuse_mine|apply Hpr|done|done].
  - eapply h_conseq; [by apply restart_mine|apply Hpr|done|done].
Qed.

Lemma pop_other r rest w :
  paging w = r :: rest -> pr_label r <> l -> holds standing w -> holds standing (with_paging rest w).
Proof.
  intros Hp Hn Hw. apply holds_reads; [| |done].
  - destruct Hw as ((B1 & B2 & B3) & _). apply base_paging; [done|].
    rewrite Hp in B2. by apply Forall_cons in B2 as [].
  - unfold reads. rewrite Hp, filter_cons. unfold of_label at 2. by rewrite decide_False.
Qed.

(** The label's own read taken from the front of the queue. *)
Lemma pop_mine r rest w :
  paging w = r :: rest -> pr_label r = l -> pending w = [] -> holds standing w ->
  holds paused (with_paging rest w).
Proof.
  intros Hp Hl Hq ((B1 & B2 & B3) & o & Ho & _ & H2 & H3).
  assert (reads w = r :: filter of_label rest) as Hr
    by (unfold reads; by rewrite Hp, filter_cons, decide_True).
  rewrite Hr in H2, H3. simpl in *. split.
  { apply base_paging; [done|]. rewrite Hp in B2. by apply Forall_cons in B2 as []. }
  exists o. split; [done|]. unfold queued, reads, paused. simpl. rewrite Hq. simpl.
  split_and!; [done|by apply H2|lia].
Qed.

Lemma pump_standing : keeps (holds standing) (fault standing) pump_page.
Proof.
  unfold pump_page. apply h_get. intros v Hv.
  destruct (_ || _) eqn:Hg; [by apply h_ret; intros w ->|].
  apply orb_false_iff in Hg as [_ Hq%negb_false_iff%bool_decide_eq_true].
  destruct (paging v) as [|r rest] eqn:Hp; [by apply h_ret; intros w ->|].
  assert (sub_id (pr_sub r) = pr_label r) as Hr.
  { destruct Hv as ((_ & B2 & _) & _). rewrite Hp in B2. by apply Forall_cons in B2 as []. }
  destruct (decide (pr_label r = l)) as [Hl|Hl].
  - apply (h_bind _ _ _ (fun _ w => holds paused w /\ subs w = subs v)).
    { apply h_mod. intros w ->. by split; [eapply pop_mine|]. }
    intros _. destruct (subs v !! pr_label r) eqn:Hs.
    + eapply h_conseq; [apply read_next_mine; congruence|by intros w []|done|done].
    + apply h_ret. intros w [(B & o & Ho & Hq' & Ho' & Hn) Hw]. split; [done|]. exists o.
      split; [done|]. rewrite Hw, <- Hl, Hs. simpl. claims.
  - apply (h_bind _ _ _ (fun _ => holds standing)).
    { apply h_mod. intros w ->. by eapply pop_other. }
    intros _. destruct (subs v !! pr_label r); [|apply k_ret].
    apply (k_read_next (mine := mine)); unfold mine; [done|congruence|].
    intros r' w H1 H2. apply (b_page (mine := mine)); unfold mine; congruence.
Qed.

(** Purging the label's frames and reads. *)
Lemma purge_mine w :
  holds any w ->
  holds unqueued (with_queue (filter (fun d => deliverable_label d <> l) (pending w)) w).
Proof.
  intros (B & o & Ho & _). 
  destruct (scan_prefix false (omap sent_mark (sent w)) (queued w)) as [o' Ho']; [by exists o|].
  assert (queued (with_queue (filter (fun d => deliverable_label d <> l) (pending w)) w) = []) as Hq.
  { unfold queued. simpl. clear. induction (pending w) as [|d q IH]; [done|].
    rewrite filter_cons. destruct (decide (deliverable_label d <> l)); [|done]. csimpl.
    by rewrite other_mark by auto. }
  split; [done|]. exists o'. unfold marks. rewrite Hq, app_nil_r. by split.
Qed.

Lemma resnapshot_loop_mine fuel reason permit :
  hoare (holds ready) (resnapshot_loop fuel l reason permit) (fun _ => holds standing) (fault standing).
Proof.
  induction fuel as [|fuel IH]; simpl; (apply h_at; intros v Hv; apply h_get; intros v' ->);
    (destruct (subs v !! l) as [row|] eqn:Hs;
      [|apply h_ret; intros w ->; apply (holds_mono gone); [claims|by apply holds_gone]]);
    (apply (h_pre _ (holds ready)); [|by intros w ->]);
    (apply snapshot_caught; [by destruct Hv as ((B & _) & _); apply B|intros; by apply h_ret|]);
    intros []; try (by apply fault_fail); try (by apply fault_refuse).
  - apply h_fail. intros w [H _]. by split.
  - apply (h_bind _ _ _ (fun _ => holds ready)); [|intros _; apply IH].
    intros w [_ H]. destruct (await_eq w) as (ch & e & Hch & ->). by apply a_env, H.
Qed.

Lemma resnapshot_mine reason permit :
  hoare (holds any) (resnapshot_row l reason permit) (fun _ => holds standing) (fault standing).
Proof.
  unfold resnapshot_row.
  apply (h_bind _ _ _ (fun _ => holds unqueued)); [apply h_mod; intros w; apply purge_mine|intros _].
  apply (h_bind _ _ _ (fun _ => holds ready)); [apply h_mod; intros w; apply unpage_mine|intros _].
  apply h_get. intros v Hv. eapply h_conseq; [apply resnapshot_loop_mine|by intros w ->|done|done].
Qed.

Lemma named_mine K label w row :
  ~ mine label -> holds K w -> subs w !! label = Some row -> ~ mine (sub_id (rs_sub row)).
Proof. intros Hn ((B & _) & _) Hs. by rewrite (B _ _ Hs). Qed.

Lemma resnapshot_standing label reason permit :
  keeps (holds standing) (fault standing) (resnapshot_row label reason permit).
Proof.
  destruct (decide (label = l)) as [->|Hn].
  - eapply h_conseq; [apply resnapshot_mine|intros w; by apply holds_mono|done|done].
  - apply (k_resnapshot (mine := mine)); [done|]. intros w row. by apply named_mine.
Qed.

(** ** A subscribe of the label *)

Lemma fault_ready_loose e w : fault ready e w -> fault loose e w.
Proof. apply fault_mono. claims. Qed.

Lemma loosen {A} (m : DM A) Q : hoare (holds ready) m Q (fault ready) -> hoare (holds ready) m Q (fault loose).
Proof. intros H. by eapply h_conseq; [apply H|done|done|apply fault_ready_loose]. Qed.

Lemma resnapshot_loose reason permit :
  hoare (holds ready) (resnapshot_row l reason permit) (fun _ => holds standing) (fault loose).
Proof.
  eapply h_conseq; [apply resnapshot_mine|intros w; by apply holds_mono|done|].
  intros e w. apply fault_mono. claims.
Qed.

Lemma catch_up_mine sub reg from f :
  sub_id sub = l ->
  hoare (holds ready) (catch_up_row sub reg from f) (fun _ => holds standing) (fault loose).
Proof.
  intros Hl. unfold catch_up_row. rewrite Hl.
  apply (h_bind _ _ _ (fun _ => holds ready)); [by apply attach_mine|intros _].
  apply (h_bind _ _ _ (fun _ => holds ready)); [apply loosen, k_read_log|intros ceiling].
  apply (h_bind _ _ _ (fun _ => holds ready)).
  { apply loosen. destruct f; [apply k_read_log|apply k_ret]. }
  intros of_. apply (h_bind _ _ _ (fun _ => holds ready)); [apply loosen, k_read_log|intros since_].
  apply (h_bind _ _ _ (fun _ => holds ready)); [apply loosen, k_read_log|intros min].
  destruct (catchup_decision _ _ _); [|apply resnapshot_loose].
  apply (h_bind _ _ _ (fun _ => holds ready)).
  { apply loosen, (k_replay_records (mine := mine)). }
  intros [|reason]; [|apply resnapshot_loose].
  apply (h_bind _ _ _ (fun _ => holds ready)); [apply loosen, k_history|intros h].
  intros w (B & o & Ho & Hq & Hn).
  assert (hoare (holds (idle o)) (enqueue_and_flush (SnapshotComplete l (stamp h (default from ceiling))))
    (fun _ => holds (idle false)) ruin) as H.
  { apply (enqueue_mine _ MEnd); [|by destruct o]. simpl. by rewrite decide_True. }
  specialize (H w). destruct (enqueue_and_flush _ w) as [[a|e] w'].
  - eapply holds_mono, H; [claims|]. split; [done|]. by exists o.
  - apply ruin_fault, H. split; [done|]. by exists o.
Qed.

Lemma snapshot_loose start resync :
  sub_id (st_sub start) = l ->
  hoare (holds ready) (snapshot_row start resync) (fun _ => holds standing) (fault loose).
Proof.
  intros Hl. apply loosen. eapply h_pre; [by apply snapshot_mine|apply ready_unqueued].
Qed.

Lemma subscribe_row_mine sub reg tier permit :
  sub_id sub = l ->
  hoare (holds ready) (subscribe_row sub reg tier permit) (fun _ => holds standing) (fault loose).
Proof.
  intros Hl. unfold subscribe_row. apply h_get. intros v Hv.
  apply (h_pre _ (holds ready)); [|by intros w ->].
  destruct (resume v); [by apply snapshot_loose| |by apply snapshot_loose].
  destruct (_ && _); [by apply snapshot_loose|].
  apply (h_bind _ _ _ (fun _ => holds ready)); [apply loosen, k_read_log|intros min].
  apply (h_bind _ _ _ (fun _ => holds ready)); [apply loosen, k_read_log|intros current].
  destruct (catchup_decision _ _ _); [by apply catch_up_mine|by apply snapshot_loose].
Qed.

(** The label is the client's own. *)
Hypothesis own : forall table, l <> membership_label table.

Lemma own_mine table : ~ mine (membership_label table).
Proof. intros H. by apply (own table). Qed.

Lemma delete_mine w : holds loose w -> holds standing (with_subs (delete l (subs w)) w).
Proof.
  intros (B & o & Ho & HK). split; [by apply base_delete|]. exists o. split; [done|].
  unfold queued, reads in *. simpl. rewrite lookup_delete_eq. simpl. claims.
Qed.

Lemma fresh_standing w : holds fresh w -> holds standing w.
Proof. apply holds_mono. claims. Qed.

Lemma keeps_fresh {A} (m : DM A) :
  keeps (holds fresh) (fault fresh) m -> hoare (holds fresh) m (fun _ => holds standing) (fault standing).
Proof.
  intros H. eapply h_conseq; [apply H|done|by intros a w; apply fresh_standing|].
  intros e w. apply fault_mono. claims.
Qed.

Lemma keeps_fresh_faults {A} (m : DM A) :
  keeps (holds fresh) (fault fresh) m -> hoare (holds fresh) m (fun _ => holds fresh) (fault standing).
Proof.
  intros H. eapply h_conseq; [apply H|done|done|]. intros e w. apply fault_mono. claims.
Qed.

Lemma serve_term_mine sub tier reg permit :
  sub_id sub = l ->
  hoare (holds fresh) (serve_term_row sub tier reg permit) (fun _ => holds standing) (fault standing).
Proof.
  intros Hl. unfold serve_term_row. rewrite Hl.
  apply (h_bind _ _ _ (fun _ => holds fresh)); [apply keeps_fresh_faults, k_precharge|].
  intros [wait|].
  { apply keeps_fresh. apply k_bind; [apply (k_unregister (mine := mine))|intros; by apply k_send]. }
  eapply h_bind.
  { eapply h_pre; [by apply h_try, subscribe_row_mine|]. intros w. apply holds_mono. claims. }
  intros [[]|e]; [by apply (k_open_memberships (mine := mine)); [intros ? w ?; apply named_mine|apply own_mine]|].
  assert (soft e = true -> hoare (fun w => fault loose e w)
    (dbind (dmod (fun w => with_subs (delete l (subs w)) w)) (fun _ =>
      dbind (remove_route (rg_consumer reg)) (fun _ => dbind (unregister (rg_sub reg)) (fun _ => send (ORefused l)))))
    (fun _ => holds standing) (fault standing)) as Hsoft.
  { intros He. apply (h_bind _ _ _ (fun _ => holds standing)).
    - apply h_mod. intros w [_ H]. by apply delete_mine, H.
    - intros _. pose proof (k_remove_route (mine := mine) (I := holds standing) (E := fault standing)).
      pose proof (k_unregister (mine := mine) (I := holds standing) (E := fault standing)).
      apply k_bind; [done|intros _]. apply k_bind; [done|intros _]. by apply k_send. }
  destruct e; try (by apply Hsoft); apply h_fail; intros w [H _]; by split.
Qed.

Lemma handle_subscribe_mine sub :
  sub_id sub = l ->
  hoare (holds fresh) (handle_subscribe sub) (fun _ => holds standing) (fault standing).
Proof.
  intros Hl. unfold handle_subscribe. apply h_get. intros v Hv.
  apply (h_pre _ (holds fresh)); [|by intros w ->]. cbv zeta.
  apply (h_bind _ _ _ (fun _ => holds fresh)); [apply keeps_fresh_faults, k_ask|].
  intros [permit|wait]; [|by apply keeps_fresh, k_send].
  apply (h_bind _ _ _ (fun _ => holds fresh)); [apply keeps_fresh_faults, k_call|].
  intros [wait|]; [by apply keeps_fresh, k_send|].
  apply (h_bind _ _ _ (fun _ => holds fresh)); [apply keeps_fresh_faults, k_next_consumer|].
  intros consumer.
  apply (h_bind _ _ _ (fun _ => holds fresh)).
  { apply keeps_fresh_faults, (k_register_subscription (mine := mine)). }
  intros [r|e].
  - destruct (into_row r consumer); [by apply serve_term_mine|].
    apply keeps_fresh, (k_subscribe_computed (mine := mine)).
  - apply keeps_fresh. apply k_bind; [apply k_call|]. intros reaction.
    apply k_bind; [destruct (decide _); [apply k_mod; intros w; apply a_closing|apply k_ret]|].
    intros _. by apply k_send.
Qed.

(** ** Runs *)

(** Nothing of the label is on its way to the client. *)
Definition settled (w : World) : Prop := queued w = [] /\ reads w = [].

Definition subscribes (t : Turn) : Prop :=
  match t with Received (ISubscribe sub) => sub_id sub = l | _ => False end.

(** The client subscribes under the label only once what an earlier use of it left
    in the queue has gone. *)
Fixpoint careful (ts : list Turn) (w : World) : Prop :=
  match ts with
  | [] => True
  | t :: ts' =>
      (subscribes t -> settled w) /\
      match turn t w with (Ok true, w') => careful ts' w' | _ => True end
  end.

(** The same as a test. *)
Definition settledb (w : World) : bool :=
  match queued w, reads w with [], [] => true | _, _ => false end.

Fixpoint carefulb (ts : list Turn) (w : World) : bool :=
  match ts with
  | [] => true
  | t :: ts' =>
      match t with
      | Received (ISubscribe sub) => negb (bool_decide (sub_id sub = l)) || settledb w
      | _ => true
      end &&
      match turn t w with (Ok true, w') => carefulb ts' w' | _ => true end
  end.

Lemma carefulb_sound ts w : carefulb ts w = true -> careful ts w.
Proof.
  revert w. induction ts as [|t ts IH]; intros w; simpl; [done|]. intros [Ht Hs]%andb_true_iff. split.
  - destruct t as [[sub| | | |]| | |]; simpl; try done. intros Hl. rewrite bool_decide_true in Ht by done.
    simpl in Ht. unfold settledb, settled in *. by destruct (queued w), (reads w).
  - destruct (turn t w) as [[[]|] w']; [|done..]. by apply IH.
Qed.

Lemma settled_fresh w : settled w -> holds standing w -> holds fresh w.
Proof.
  intros [Hq Hr] (B & o & Ho & HK). split; [done|]. exists o. split; [done|].
  rewrite Hq, Hr in *. simpl in *. destruct (bool_decide _); claims.
Qed.

Lemma control_standing m :
  ~ subscribes (Received m) -> keeps (holds standing) (fault standing) (handle_control m).
Proof.
  intros Hn. destruct m as [sub|label|nonce|n|request keys]; simpl in *.
  - apply (k_handle_subscribe (mine := mine)); [intros ? w ?; apply named_mine|apply own_mine|done].
  - apply (k_unsubscribe (mine := mine)).
  - by apply k_send.
  - unfold ack_credits. apply k_bind; [|intros _; apply k_bind; [apply holds_flush, _|intros _; apply pump_standing]].
    apply k_mod. intros w. by apply holds_ext.
  - apply (k_replace_share_keys (mine := mine)).
Qed.

Lemma turn_standing t w :
  (subscribes t -> settled w) -> holds standing w ->
  match turn t w with (Ok _, w') => holds standing w' | (Err e, w') => fault standing e w' end.
Proof.
  intros Hs Hw. destruct (match t with Received (ISubscribe sub) => bool_decide (sub_id sub = l) | _ => false end)
    eqn:Ht.
  - destruct t as [[sub| | | |]| | |]; try done. apply bool_decide_eq_true in Ht.
    assert (hoare (holds fresh) (turn (Received (ISubscribe sub))) (fun _ => holds standing) (fault standing)) as H.
    { apply (k_turn (mine := mine) (E := fault fresh)).
      - intros m [= <-]. by apply handle_subscribe_mine.
      - apply fresh_standing.
      - intros e w'. apply fault_mono. claims.
      - done.
      - by intros w' ((_ & _ & ?) & _). }
    apply (H w), settled_fresh; auto.
  - apply (k_turn (mine := mine) (I := holds standing) (E := fault standing)); auto.
    + intros m ->. apply control_standing. intros Hm. destruct m; try done. by rewrite bool_decide_true in Ht.
    + intros. apply resnapshot_standing.
    + by intros w' ((_ & _ & ?) & _).
Qed.

Lemma turns_standing ts w :
  careful ts w -> holds standing w ->
  match turns ts w with (Ok _, w') => holds standing w' | (Err e, w') => fault standing e w' end.
Proof.
  revert w. induction ts as [|t ts IH]; intros w; simpl; [done|]. intros [Hs Hc] Hw.
  pose proof (turn_standing t w Hs Hw) as Ht. unfold dbind.
  destruct (turn t w) as [[[]|e] w']; [by apply IH|done|done].
Qed.

Lemma opened_standing n v r b s x c e : holds standing (opened (En := En) n v r b s x c e).
Proof.
  split; [by split_and!|]. exists false. split; [done|]. unfold reads. simpl. claims.
Qed.

End Brackets.
