(* ===== verification/Tidy.v ===== *)
(** What a session holds in the parts it shares with others: its routes, through
    which the feed delivers, and its registrations in the engine.

    Both are taken before a subscription is recorded and given back when it ends,
    through a dozen paths: an unsubscribe, a refusal half way through a read, a
    registration rolled back, the session's end. The invariant says that every
    route and registration is owned by a subscription on record, apart from those
    a handler has in hand. *)

From Stdlib Require Import ZArith Lia.
From stdpp Require Import base list numbers option strings gmap fin_maps.
From S2P Require Import Prelude Wire Backoff Throttle Guard Cursor Oplog Catchup Caller Delivery Outflow.

Open Scope Z_scope.

Section Tidy.
Context {WA : Wares} {En : Type} {OU : Outside En} {OR : Orderly}.

Notation World := (World (En := En)).
Notation DM := (DM (En := En)).
Notation Regs := (gmap string (Subscribe * RowRegistration)).

(** The row subscriptions on record. *)
Definition regs (w : World) : Regs := (fun row => (rs_sub row, rs_reg row)) <$> subs w.

Definition consumer_held (m : Regs) (c : Z) : Prop :=
  exists label p, m !! label = Some p /\ rg_consumer p.2 = c.
Definition sub_held (m : Regs) (s : Z) : Prop :=
  exists label p, m !! label = Some p /\ rg_sub p.2 = s.
Definition computed_held (m : gmap string ComputedSub) (s : Z) : Prop :=
  exists label k, m !! label = Some k /\ cs_id k = s.

(** A fact of the record, of the reads still arriving and of the computed
    subscriptions. *)
Definition Fact := Regs -> list PagedRead -> gmap string ComputedSub -> Prop.

(** Every route and registration is owned, but for the consumers [X], the
    registrations [Y] and the computed routes [V] in hand. *)
Record owned (X Y V : list Z) (K : Fact) (w : World) : Prop := {
  o_routes c : is_Some (routes w !! c) -> consumer_held (regs w) c \/ c ∈ X;
  o_engine s : s ∈ engine w -> sub_held (regs w) s \/ computed_held (computed_subs w) s \/ s ∈ Y;
  o_computed s : is_Some (computed_routes w !! s) -> computed_held (computed_subs w) s \/ s ∈ V;
  o_named label p : regs w !! label = Some p -> sub_id p.1 = label;
  o_paging : Forall (fun r => sub_id (pr_sub r) = pr_label r /\
    regs w !! pr_label r = Some (pr_sub r, pr_reg r)) (paging w);
  o_foreign : Forall foreign (channel w);
  o_fact : K (regs w) (paging w) (computed_subs w);
}.

Definition top : Fact := fun _ _ _ => True.
Definition entry (label : string) (sub : Subscribe) (reg : RowRegistration) : Fact :=
  fun m _ _ => m !! label = Some (sub, reg).
Definition absent (label : string) : Fact := fun m _ _ => m !! label = None.
Definition uncomputed (label : string) : Fact := fun _ _ c => c !! label = None.
Definition unread (label : string) : Fact := fun _ p _ => Forall (fun r => pr_label r <> label) p.
Definition both (K1 K2 : Fact) : Fact := fun m p c => K1 m p c /\ K2 m p c.

(** What a failure leaves, when it is a soft one. *)
Definition mild (S : World -> Prop) (e : DError) (w : World) : Prop := soft e = true -> S w.

Lemma owned_ext X Y V K w w' :
  regs w' = regs w -> paging w' = paging w -> routes w' = routes w -> engine w' = engine w ->
  computed_subs w' = computed_subs w -> computed_routes w' = computed_routes w ->
  (Forall foreign (channel w) -> Forall foreign (channel w')) -> owned X Y V K w -> owned X Y V K w'.
Proof.
  intros H1 H2 H3 H4 H5 H6 H7 [].
  split; rewrite ?H1, ?H2, ?H3, ?H4, ?H5, ?H6; auto.
Qed.

Lemma owned_mono X X' Y Y' V V' (K K' : Fact) w :
  X ⊆ X' -> Y ⊆ Y' -> V ⊆ V' -> 
  (K (regs w) (paging w) (computed_subs w) -> K' (regs w) (paging w) (computed_subs w)) ->
  owned X Y V K w -> owned X' Y' V' K' w.
Proof.
  intros HX HY HV HK [R G C N P F T]. split; [| | |done|done|done|by apply HK].
  - intros c [?|?]%R; [by left|right; by apply HX].
  - intros s [?|[?|?]]%G; [by left|by right; left|right; right; by apply HY].
  - intros s [?|?]%C; [by left|right; by apply HV].
Qed.

Lemma owned_top X Y V K w : owned X Y V K w -> owned X Y V top w.
Proof. by apply owned_mono. Qed.

(** What a handler asks and sends is beside the point. *)
#[local] Instance owned_aside X Y V K S :
  (forall w, owned X Y V K w -> S w) -> Aside (owned X Y V K) (mild S) | 10.
Proof.
  intros HS. split; try (intros; match goal with H : owned _ _ _ _ ?w |- _ => by apply (owned_ext _ _ _ _ w) end).
  - intros e w Hw _. by apply HS.
  - intros l e w Hl. apply owned_ext; try done. simpl. intros. by apply Forall_app.
  - intros o l w Hc. apply owned_ext; try done. simpl. rewrite Hc. by intros []%Forall_cons.
Qed.

#[local] Instance owned_self X Y V K : Aside (owned X Y V K) (mild (owned X Y V K)).
Proof. by apply owned_aside. Qed.

Lemma owned_flush X Y V K : keeps (owned X Y V K) (mild (owned X Y V K)) flush.
Proof.
  apply k_flush; [apply _| |done].
  intros d q w _ _. unfold delivered. destruct (costs_credit d); by apply owned_ext.
Qed.

Lemma owned_enqueue X Y V K d : keeps (owned X Y V K) (mild (owned X Y V K)) (enqueue_and_flush d).
Proof. apply k_bind; [|intros; apply owned_flush]. apply k_mod. intros w. by apply owned_ext. Qed.

Lemma owned_send X Y V K f : keeps (owned X Y V K) (mild (owned X Y V K)) (send f).
Proof.
  apply k_bind; [apply k_ask|]. intros [|]; [|apply k_fail]. apply k_mod. intros w. by apply owned_ext.
Qed.

Lemma regs_alter f label w :
  (forall r, rs_sub (f r) = rs_sub r) -> (forall r, rs_reg (f r) = rs_reg r) ->
  regs (with_subs (alter f label (subs w)) w) = regs w.
Proof.
  intros H1 H2. unfold regs. simpl. apply map_eq. intros k. rewrite !lookup_fmap.
  destruct (decide (label = k)) as [->|Hn]; [|by rewrite lookup_alter_ne].
  rewrite lookup_alter_eq. destruct (subs w !! k); simpl; [by rewrite H1, H2|done].
Qed.

Lemma owned_alter X Y V K f label w :
  (forall r, rs_sub (f r) = rs_sub r) -> (forall r, rs_reg (f r) = rs_reg r) ->
  owned X Y V K w -> owned X Y V K (with_subs (alter f label (subs w)) w).
Proof. intros H1 H2. apply owned_ext; try done. by apply regs_alter. Qed.

Lemma owned_send_page X Y V K label patch : keeps (owned X Y V K) (mild (owned X Y V K)) (send_page label patch).
Proof.
  unfold send_page. destruct (compress patch); [|apply k_fail].
  apply k_bind; [apply owned_enqueue|intros; apply k_ret].
Qed.

Lemma owned_complete X Y V K label cursor n :
  keeps (owned X Y V K) (mild (owned X Y V K)) (complete_snapshot label cursor n).
Proof.
  apply k_bind; [|intros; apply owned_enqueue]. apply k_mod. intros w. by apply owned_alter.
Qed.

(** ** Giving back *)

Lemma h_await (P : World -> Prop) E :
  (forall ch e w, Forall foreign ch -> P w -> P (with_env ch e w)) -> hoare P await (fun _ => P) E.
Proof. intros H w Hw. destruct (await_eq w) as (ch & e & Hch & ->). by apply H. Qed.

Lemma owned_env X Y V K ch e w : Forall foreign ch -> owned X Y V K w -> owned X Y V K (with_env ch e w).
Proof. intros Hch. apply owned_ext; try done. simpl. intros. by apply Forall_app. Qed.

Lemma give_route c X Y V K E :
  hoare (owned (c :: X) Y V K) (remove_route c) (fun _ => owned X Y V K) E.
Proof.
  apply (h_bind _ _ _ (fun _ => owned (c :: X) Y V K)); [apply h_await; intros; by apply owned_env|intros _].
  apply h_mod. intros w [R G C N P F T]. split; try done. simpl. intros c' Hc.
  destruct (decide (c = c')) as [<-|Hn]; [by rewrite lookup_delete_eq in Hc; destruct Hc|].
  rewrite lookup_delete_ne in Hc by done. destruct (R c' Hc) as [?|[->|?]%elem_of_cons]; auto. done.
Qed.

Lemma give_computed_route s X Y V K E :
  hoare (owned X Y (s :: V) K) (remove_computed_route s) (fun _ => owned X Y V K) E.
Proof.
  apply (h_bind _ _ _ (fun _ => owned X Y (s :: V) K)); [apply h_await; intros; by apply owned_env|intros _].
  apply h_mod. intros w [R G C N P F T]. split; try done. simpl. intros c' Hc.
  destruct (decide (s = c')) as [<-|Hn]; [by rewrite lookup_delete_eq in Hc; destruct Hc|].
  rewrite lookup_delete_ne in Hc by done. destruct (C c' Hc) as [?|[->|?]%elem_of_cons]; auto. done.
Qed.

Lemma give_registration s X Y V K E :
  hoare (owned X (s :: Y) V K) (unregister s) (fun _ => owned X Y V K) E.
Proof.
  apply (h_bind _ _ _ (fun _ => owned X (s :: Y) V K)); [apply h_await; intros; by apply owned_env|intros _].
  apply h_mod. intros w [R G C N P F T]. split; try done. simpl.
  intros s' [Hs Hn]%elem_of_difference. destruct (G s' Hs) as [?|[?|[->|?]%elem_of_cons]]; auto.
  by destruct Hn; apply elem_of_singleton.
Qed.

Lemma give_all taken X Y V K E :
  hoare (owned (taken.*1 ++ X) (taken.*2 ++ Y) V K) (release taken) (fun _ => owned X Y V K) E.
Proof.
  induction taken as [|[c s] taken IH]; simpl; [by apply h_ret|].
  apply (h_bind _ _ _ (fun _ => owned (taken.*1 ++ X) (s :: taken.*2 ++ Y) V K)); [apply give_route|intros _].
  apply (h_bind _ _ _ (fun _ => owned (taken.*1 ++ X) (taken.*2 ++ Y) V K)); [apply give_registration|].
  intros _. apply IH.
Qed.

(** A fact that survives a subscription taken off the record with its reads. *)
Definition Shrinks (K : Fact) : Prop :=
  forall m p c label, K m p c -> K (delete label m) (without_label label p) c.

Lemma regs_delete label w : regs (with_subs (delete label (subs w)) w) = delete label (regs w).
Proof. unfold regs. simpl. by rewrite fmap_delete. Qed.

Lemma held_delete (m : Regs) label p c :
  m !! label = Some p -> consumer_held m c ->
  consumer_held (delete label m) c \/ c = rg_consumer p.2.
Proof.
  intros Hl (lab & q & Hq & Hc). destruct (decide (lab = label)) as [->|Hn].
  - right. congruence.
  - left. exists lab, q. by rewrite lookup_delete_ne.
Qed.

Lemma sub_held_delete (m : Regs) label p s :
  m !! label = Some p -> sub_held m s -> sub_held (delete label m) s \/ s = rg_sub p.2.
Proof.
  intros Hl (lab & q & Hq & Hc). destruct (decide (lab = label)) as [->|Hn].
  - right. congruence.
  - left. exists lab, q. by rewrite lookup_delete_ne.
Qed.

Lemma paging_delete (m : Regs) label (p : list PagedRead) :
  Forall (fun r => sub_id (pr_sub r) = pr_label r /\ m !! pr_label r = Some (pr_sub r, pr_reg r)) p ->
  Forall (fun r => sub_id (pr_sub r) = pr_label r /\
    delete label m !! pr_label r = Some (pr_sub r, pr_reg r)) (without_label label p).
Proof.
  rewrite !Forall_forall. intros H r [Hn Hr]%list_elem_of_filter. destruct (H r Hr) as [H1 H2].
  split; [done|]. by rewrite lookup_delete_ne.
Qed.

(** A subscription off the record, its route and registration in hand. *)
Lemma owned_drop X Y V K label row w :
  Shrinks K -> subs w !! label = Some row -> owned X Y V K w ->
  owned (rg_consumer (rs_reg row) :: X) (rg_sub (rs_reg row) :: Y) V K
    (with_subs (delete label (subs w)) (with_paging (without_label label (paging w)) w)).
Proof.
  intros HK Hr [R G C N P F T].
  assert (regs w !! label = Some (rs_sub row, rs_reg row)) as Hl by (unfold regs; by rewrite lookup_fmap, Hr).
  pose proof (regs_delete label (with_paging (without_label label (paging w)) w)) as Hd.
  change (regs (with_paging _ w)) with (regs w) in Hd. simpl in Hd.
  split; rewrite ?Hd; simpl.
  - intros c [Hc|?]%R; [|by right; apply elem_of_cons; right].
    destruct (held_delete _ _ _ _ Hl Hc) as [?| ->]; [by left|right; by left].
  - intros s [Hc|[?|?]]%G; [|by right; left|by right; right; apply elem_of_cons; right].
    destruct (sub_held_delete _ _ _ _ Hl Hc) as [?| ->]; [by left|right; right; by left].
  - done.
  - intros lab p [_ H]%lookup_delete_Some. by apply N.
  - by apply paging_delete.
  - done.
  - by apply HK.
Qed.

Lemma owned_unpage X Y V K label w :
  Shrinks K -> subs w !! label = None -> owned X Y V K w ->
  owned X Y V K (with_paging (without_label label (paging w)) w).
Proof.
  intros HK Hn [R G C N P F T].
  assert (regs w !! label = None) as Hl by (unfold regs; by rewrite lookup_fmap, Hn).
  split; try done.
  - change (regs (with_paging _ w)) with (regs w). simpl. apply (paging_delete _ label) in P.
    by rewrite delete_id in P.
  - change (regs (with_paging _ w)) with (regs w). simpl. apply (HK _ _ _ label) in T.
    by rewrite delete_id in T.
Qed.

Lemma owned_take_members X Y V K tables w :
  Shrinks K -> owned X Y V K w ->
  owned ((take_members tables w).1.*1 ++ X) ((take_members tables w).1.*2 ++ Y) V K (take_members tables w).2.
Proof.
  intros HK. revert X Y w. induction tables as [|t tables IH]; intros X Y w Hw; simpl; [done|].
  destruct (still_needed _ _); [by apply IH|]. set (hidden := membership_label (mt_table t)). simpl.
  destruct (subs w !! hidden) as [h|] eqn:Hh; [|by apply IH, owned_unpage].
  destruct (take_members tables _) as [taken w'] eqn:Ht. simpl.
  pose proof (IH _ _ _ (owned_drop _ _ _ _ _ _ _ HK Hh Hw)) as H.
  rewrite Ht in H. simpl in H. revert H. apply owned_mono; set_solver.
Qed.

Lemma owned_take X Y V K label w :
  Shrinks K -> owned X Y V K w ->
  owned ((take_row_subscription label w).1.*1 ++ X) ((take_row_subscription label w).1.*2 ++ Y) V K
    (take_row_subscription label w).2.
Proof.
  intros HK Hw. unfold take_row_subscription. simpl.
  destruct (subs w !! label) as [row|] eqn:Hr; [|by apply owned_unpage].
  pose proof (owned_take_members _ _ _ _ (member_tables (rs_reg row)) _ HK (owned_drop _ _ _ _ _ _ _ HK Hr Hw)) as H.
  destruct (take_members _ _) as [taken w'] eqn:Ht. simpl in *.
  revert H. apply owned_mono; set_solver.
Qed.

Lemma owned_release X Y V K E label :
  Shrinks K -> hoare (owned X Y V K) (take_and_release label) (fun _ => owned X Y V K) E.
Proof.
  intros HK. unfold take_and_release.
  apply (h_bind _ _ _ (fun taken => owned (taken.*1 ++ X) (taken.*2 ++ Y) V K)); [|intros; apply give_all].
  intros w Hw. pose proof (owned_take _ _ _ _ label _ HK Hw) as H.
  by destruct (take_row_subscription label w).
Qed.

(** ** Handlers that never fail softly *)

Definition hard {A} (m : DM A) : Prop :=
  hoare (fun _ => True) m (fun _ _ => True) (fun e _ => soft e = false).

Lemma hard_spec {A} (m : DM A) P Q S E :
  hard m -> hoare P m Q E -> hoare P m Q (mild S).
Proof.
  intros Hm H w Hw. specialize (H w Hw). specialize (Hm w Logic.I).
  destruct (m w) as [[a|e] w']; [done|]. unfold mild. by rewrite Hm.
Qed.

Lemma hard_ret {A} (a : A) : hard (dret a).
Proof. by apply h_ret. Qed.

Lemma hard_fail {A} e : soft e = false -> hard (A := A) (dfail e).
Proof. intros. by apply h_fail. Qed.

Lemma hard_bind {A B} (m : DM A) (k : A -> DM B) : hard m -> (forall a, hard (k a)) -> hard (dbind m k).
Proof.
  intros Hm Hk. apply (h_bind _ _ _ (fun _ _ => True)); [done|]. intros a. apply Hk.
Qed.

Lemma hard_get {B} (k : World -> DM B) : (forall w, hard (k w)) -> hard (dbind dget k).
Proof. intros H w _. by apply (H w). Qed.

Lemma hard_mod f : hard (dmod f).
Proof. by apply h_mod. Qed.

Lemma hard_await : hard await.
Proof. intros w _. by destruct (await_eq w) as (ch & e & _ & ->). Qed.

Lemma hard_ask {A} (f : En -> A * En) : hard (ask f).
Proof. intros w _. by destruct (ask_eq f w) as (ch & e & a & _ & ->). Qed.

Lemma hard_call {A} (f : En -> A * En) : hard (call f).
Proof. intros w _. unfold call. by destruct (f (env w)). Qed.

Lemma hard_send f : hard (send f).
Proof. apply hard_bind; [apply hard_ask|]. intros [|]; [apply hard_mod|by apply hard_fail]. Qed.

Lemma hard_try {A} (m : DM A) : hard (dtry m).
Proof. intros w _. done. Qed.

#[local] Hint Resolve hard_ret hard_fail hard_mod hard_await hard_ask hard_call hard_send hard_try : hardness.

Ltac hard_step :=
  match goal with
  | |- hard (dbind dget _) => apply hard_get; intros ?
  | |- hard (dbind _ _) => apply hard_bind; [|intros ?]
  | |- hard (match ?x with _ => _ end) => destruct x
  | |- hard (let '(_, _) := ?x in _) => destruct x
  | |- hard (if ?x then _ else _) => destruct x
  | |- hard (dlift (map_err _ ?x)) => destruct x; simpl; [apply hard_ret|by apply hard_fail]
  end.
Ltac harden := cbv zeta; repeat first [solve [eauto 3 with hardness] | hard_step; cbv zeta].

Lemma hard_flush : hard flush.
Proof.
  apply hard_get. intros w. generalize (pending w) as q. induction q as [|d q IH]; simpl; harden.
Qed.

Lemma hard_enqueue d : hard (enqueue_and_flush d).
Proof. apply hard_bind; [apply hard_mod|intros; apply hard_flush]. Qed.

Lemma hard_read_log {R} (read : En -> Result R LogError * En) : hard (read_log read).
Proof.
  unfold read_log. apply hard_bind; [harden|intros seed]. apply hard_get. intros w.
  generalize (read_fuel (read_budget w)), (with_seed seed). intros fuel.
  induction fuel as [|fuel IH]; intros ep; simpl; harden.
Qed.

Lemma hard_engine_answer {A} (f : En -> Result A string * En) : hard (engine_answer f).
Proof. unfold engine_answer. apply hard_bind; [harden|]. intros [a|e]; [by apply h_lift|by apply hard_fail]. Qed.

Lemma hard_history : hard history.
Proof. unfold history. harden. Qed.

#[local] Hint Resolve hard_flush hard_enqueue hard_read_log hard_engine_answer hard_history : hardness.

Lemma hard_try_send f : hard (try_send f).
Proof. unfold try_send. harden. Qed.

#[local] Hint Resolve hard_try_send : hardness.

Lemma hard_replay_payload r departing : hard (replay_payload r departing).
Proof. unfold replay_payload. harden. Qed.

#[local] Hint Resolve hard_replay_payload : hardness.

Lemma hard_replay_records label reg records : hard (replay_records label reg records).
Proof. induction records as [|r records IH]; simpl; harden. Qed.

Lemma hard_attach sub reg f : hard (attach_row_route sub reg f).
Proof. unfold attach_row_route, add_route. harden. Qed.

Lemma hard_release taken : hard (release taken).
Proof. induction taken as [|[c s] taken IH]; simpl; unfold remove_route, unregister; harden. Qed.

Lemma hard_refuse label : hard (refuse_subscription label).
Proof.
  unfold refuse_subscription, take_and_release. apply hard_bind; [|intros; harden].
  apply hard_bind; [|intros; apply hard_release]. intros w _. by destruct (take_row_subscription label w).
Qed.

#[local] Hint Resolve hard_replay_records hard_attach hard_refuse : hardness.

Lemma hard_resnapshot label reason permit : hard (resnapshot_row label reason permit).
Proof.
  unfold resnapshot_row. apply hard_bind; [harden|intros _]. apply hard_bind; [harden|intros _].
  apply hard_get. intros w. generalize (patience (env w)). intros fuel.
  induction fuel as [|fuel IH]; simpl; harden.
Qed.

#[local] Hint Resolve hard_resnapshot : hardness.

Lemma hard_catch_up sub reg from f : hard (catch_up_row sub reg from f).
Proof. unfold catch_up_row. harden. Qed.

(** ** Taking *)

Lemma owned_register X Y V K E c sub :
  hoare (owned X Y V K) (register_subscription c sub)
    (fun r w => match r with
      | Ok reg => (exists v e, (register c sub v e).1 = Ok reg) /\ owned X (registered_id reg :: Y) V K w
      | Err _ => owned X Y V K w
      end) E.
Proof.
  unfold register_subscription. apply h_get. intros v Hv w ->. unfold dbind.
  destruct (ask_answer (register c sub (viewer v)) v) as (ch & e & e0 & Hch & ->).
  pose proof (owned_env _ _ _ _ _ e _ Hch Hv) as [R G C N P F T].
  destruct (register c sub (viewer v) e0) as [[reg|err] e'] eqn:Hr; simpl; [|done].
  split; [exists (viewer v), e0; by rewrite Hr|]. split; try done. simpl.
  intros s [->%elem_of_singleton|Hs]%elem_of_union; [right; right; by left|].
  destruct (G s Hs) as [?|[?|?]]; auto. right; right. by right.
Qed.

Lemma attach_regs ch e sub reg f (v w : World) :
  regs (with_subs (<[sub_id sub := recorded sub reg (subs w !! sub_id sub)]> (subs w))
    (with_routes (<[rg_consumer reg := route_of sub reg (viewer v) f]> (routes w)) (with_env ch e w))) =
  <[sub_id sub := (sub, reg)]> (regs w).
Proof.
  unfold regs. simpl. rewrite fmap_insert. by destruct (subs w !! sub_id sub).
Qed.

Lemma attach_eq sub reg f (w : World) :
  exists ch e, Forall foreign ch /\
    attach_row_route sub reg f w =
    (Ok tt, with_subs (<[sub_id sub := recorded sub reg (subs w !! sub_id sub)]> (subs w))
      (with_routes (<[rg_consumer reg := route_of sub reg (viewer w) f]> (routes w)) (with_env ch e w))).
Proof.
  unfold attach_row_route, add_route, dbind, dget, dmod.
  destruct (await_eq w) as (ch & e & Hch & ->). by exists ch, e.
Qed.

(** A registration in hand becomes the label's. *)
Lemma attach_new X Y V E sub reg f :
  hoare (owned X (rg_sub reg :: Y) V (absent (sub_id sub))) (attach_row_route sub reg f)
    (fun _ => owned X Y V (both (entry (sub_id sub) sub reg) (unread (sub_id sub)))) E.
Proof.
  intros w Hw. destruct (attach_eq sub reg f w) as (ch & e & Hch & ->).
  destruct (owned_env _ _ _ _ _ e _ Hch Hw) as [R G C N P F T].
  change (regs (with_env ch e w)) with (regs w) in *. simpl in *. unfold absent in T.
  pose proof (attach_regs ch e sub reg f w w) as Hi. set (label := sub_id sub) in *.
  assert (forall c, consumer_held (regs w) c -> consumer_held (<[label := (sub, reg)]> (regs w)) c) as Hc.
  { intros c (lab & p & Hp & Hc). exists lab, p. rewrite lookup_insert_ne by congruence. done. }
  assert (forall s, sub_held (regs w) s -> sub_held (<[label := (sub, reg)]> (regs w)) s) as Hs.
  { intros s (lab & p & Hp & Hs). exists lab, p. rewrite lookup_insert_ne by congruence. done. }
  split; rewrite ?Hi; simpl.
  - intros c [<-|[_ Hr]]%lookup_insert_is_Some.
    + left. exists label, (sub, reg). by rewrite lookup_insert_eq.
    + destruct (R c Hr); auto.
  - intros s [?|[?|[->|?]%elem_of_cons]]%G; auto. left. exists label, (sub, reg). by rewrite lookup_insert_eq.
  - done.
  - intros lab p [[<- <-]|[_ ?]]%lookup_insert_Some; [done|by apply N].
  - rewrite Forall_forall in P |- *. intros r Hr. destruct (P r Hr) as [P1 P2]. split; [done|].
    rewrite lookup_insert_ne by congruence. done.
  - done.
  - split; [by apply lookup_insert_eq|]. unfold unread. rewrite Forall_forall in P |- *.
    intros r Hr. destruct (P r Hr) as [P1 P2]. congruence.
Qed.

(** A registration attached again is on record already. *)
Lemma attach_again X Y V K E sub reg f :
  (forall m p c, K m p c -> m !! sub_id sub = Some (sub, reg)) ->
  hoare (owned X Y V K) (attach_row_route sub reg f) (fun _ => owned X Y V K) E.
Proof.
  intros HK w Hw. destruct (attach_eq sub reg f w) as (ch & e & Hch & ->).
  destruct (owned_env _ _ _ _ _ e _ Hch Hw) as [R G C N P F T].
  change (regs (with_env ch e w)) with (regs w) in *. simpl in *.
  pose proof (HK _ _ _ T) as Hl.
  assert (<[sub_id sub := (sub, reg)]> (regs w) = regs w) as Hi by (by apply insert_id).
  split; rewrite ?(attach_regs ch e sub reg f w w), ?Hi; simpl; try done.
  intros c [<-|[_ Hr]]%lookup_insert_is_Some; [|by apply R].
  left. by exists (sub_id sub), (sub, reg).
Qed.

Lemma unpage_same X Y V K label w :
  (forall m p c, K m p c -> K m (without_label label p) c) -> owned X Y V K w ->
  owned X Y V K (with_paging (without_label label (paging w)) w).
Proof.
  intros HK [R G C N P F T]. split; try done; [|by apply HK].
  change (regs (with_paging _ w)) with (regs w). simpl. rewrite Forall_forall in P |- *.
  intros r [_ Hr]%list_elem_of_filter. by apply P.
Qed.

(** The part of a read behind its route: until the next page is booked the label
    has no read arriving. *)
Lemma owned_snapshot P0 X Y V K start resync :
  let label := sub_id (st_sub start) in
  (forall m p c, K m p c -> m !! label = Some (st_sub start, st_reg start)) ->
  (forall m p c label, K m p c -> K m (without_label label p) c) ->
  (forall E, hoare P0 (attach_row_route (st_sub start) (st_reg start) None) (fun _ => owned X Y V K) E) ->
  hoare P0 (snapshot_row start resync) (fun _ => owned X Y V (fun m _ c => exists p, K m p c))
    (mild (owned X Y V (both K (unread label)))).
Proof.
  intros label HK Hun Hat. unfold snapshot_row. cbv zeta.
  apply (h_bind _ _ _ (fun _ => owned X Y V K)); [apply Hat|intros _].
  set (J := both K (unread label)).
  apply (h_bind _ _ _ (fun _ => owned X Y V J)).
  { apply h_mod. intros w Hw. pose proof (unpage_same _ _ _ _ label _ (fun m p c => Hun m p c label) Hw) as [R G C N P F T].
    split; try done. split; [done|]. unfold unread. simpl. apply Forall_forall.
    by intros r [Hr _]%list_elem_of_filter. }
  intros _. apply (h_bind _ _ _ (fun _ => owned X Y V J)); [apply k_mod; intros w; apply a_missed|intros _].
  apply h_get. intros v Hv. apply (h_bind _ _ _ (fun _ => owned X Y V J)); [intros w ->; by apply k_ask|].
  intros est. apply (h_bind _ _ _ (fun _ => owned X Y V J)); [apply k_lift|]. intros es.
  destruct (decide _); [apply h_fail; intros w; apply a_fault|].
  apply h_get. intros v' Hv'. apply (h_bind _ _ _ (fun _ => owned X Y V J)); [intros w ->; by apply k_ask|].
  intros page. apply (h_bind _ _ _ (fun _ => owned X Y V J)); [apply k_lift|]. intros pg.
  apply (h_bind _ _ _ (fun _ => owned X Y V J)); [apply k_lift|]. intros _.
  apply (h_bind _ _ _ (fun _ => owned X Y V J)); [apply k_history|]. intros h.
  destruct (first_page_end _ _ _ _) as [cursor replay].
  apply (h_bind _ _ _ (fun _ => owned X Y V J)); [destruct resync; [apply owned_send|apply k_ret]|]. intros _.
  apply (h_bind _ _ _ (fun _ => owned X Y V J)); [apply owned_send|]. intros _.
  apply (h_bind _ _ _ (fun _ => owned X Y V J)); [apply owned_send_page|]. intros bytes_.
  apply (h_bind _ _ _ (fun _ => owned X Y V J)); [apply h_mod; intros w; apply a_missed|]. intros _.
  destruct (next pg).
  - apply h_mod. intros w [R G C N P F [T1 T2]]. split; try done.
    + change (regs (with_paging _ w)) with (regs w). simpl. apply Forall_app. split; [done|].
      repeat constructor. simpl. by apply HK in T1.
    + by exists (paging w).
  - eapply h_conseq; [apply owned_complete|done| |done]. intros a w. apply owned_mono; try done.
    intros [T _]. by exists (paging w).
Qed.

(** Failures from here on matter only where a handler catches them. *)
Definition some_failure : DError -> World -> Prop := mild (fun _ => True).

#[local] Instance owned_any X Y V K : Aside (owned X Y V K) some_failure.
Proof. by apply owned_aside. Qed.

Lemma to_any {A} P (m : DM A) Q S : hoare P m Q (mild S) -> hoare P m Q some_failure.
Proof. intros H. by eapply h_conseq; [apply H|done|done|]. Qed.

Lemma snapshot_new X Y V start resync :
  let label := sub_id (st_sub start) in
  hoare (owned X (rg_sub (st_reg start) :: Y) V (absent label)) (snapshot_row start resync)
    (fun _ => owned X Y V top)
    (mild (owned X Y V (both (entry label (st_sub start) (st_reg start)) (unread label)))).
Proof.
  intros label.
  pose proof (owned_snapshot (owned X (rg_sub (st_reg start) :: Y) V (absent label)) X Y V
    (both (entry label (st_sub start) (st_reg start)) (unread label)) start resync) as H.
  eapply h_conseq; [apply H|done|intros a w; apply owned_top|].
  - by intros m p c [].
  - intros m p c lab [H1 H2]. split; [done|]. unfold unread in *. rewrite Forall_forall in H2 |- *.
    intros r [_ Hr]%list_elem_of_filter. by apply H2.
  - intros E. apply attach_new.
  - intros e w Hm He. specialize (Hm He). revert Hm. apply owned_mono; try done. by intros [? _].
Qed.

Lemma snapshot_again X Y V start resync :
  let label := sub_id (st_sub start) in
  hoare (owned X Y V (entry label (st_sub start) (st_reg start))) (snapshot_row start resync)
    (fun _ => owned X Y V top) (mild (owned X Y V top)).
Proof.
  intros label.
  pose proof (owned_snapshot (owned X Y V (entry label (st_sub start) (st_reg start))) X Y V
    (entry label (st_sub start) (st_reg start)) start resync) as H.
  eapply h_conseq; [apply H|done|intros a w; apply owned_top|intros e w Hm He; by eapply owned_top, Hm].
  - done.
  - done.
  - intros E. by apply attach_again.
Qed.

Lemma shrinks_top : Shrinks top.
Proof. done. Qed.

Lemma owned_refuse X Y V K label :
  Shrinks K -> keeps (owned X Y V K) some_failure (refuse_subscription label).
Proof.
  intros HK. apply k_bind; [by apply owned_release|intros _]. by apply k_send.
Qed.

(** The failures of a read taken again are answered or end the session. *)
Lemma snapshot_again_caught {B} X Y V start resync (k : Result unit DError -> DM B) :
  let label := sub_id (st_sub start) in
  (forall a, keeps (owned X Y V top) some_failure (k (Ok a))) ->
  (forall e, soft e = true -> keeps (owned X Y V top) some_failure (k (Err e))) ->
  (forall e, soft e = false -> k (Err e) = dfail e) ->
  hoare (owned X Y V (entry label (st_sub start) (st_reg start)))
    (dbind (dtry (snapshot_row start resync)) k) (fun _ => owned X Y V top) some_failure.
Proof.
  intros label Hok Hsoft Hhard w Hw. pose proof (snapshot_again X Y V start resync w Hw) as H.
  unfold dbind, dtry. destruct (snapshot_row start resync w) as [[a|e] w']; simpl; [by apply Hok|].
  destruct (soft e) eqn:He; [by apply Hsoft, H|]. by rewrite Hhard.
Qed.

Lemma owned_restart X Y V start :
  hoare (owned X Y V (entry (sub_id (st_sub start)) (st_sub start) (st_reg start))) (restart_or_refuse start)
    (fun _ => owned X Y V top) some_failure.
Proof.
  unfold restart_or_refuse. cbv zeta. destruct (st_restarted start).
  - eapply h_pre; [by apply owned_refuse|intros w; apply owned_top].
  - apply (snapshot_again_caught X Y V {| st_sub := st_sub start; st_reg := st_reg start;
      st_tier := st_tier start; st_permit := st_permit start; st_restarted := true |}).
    + intros. apply k_ret.
    + intros [] ?; try done; by apply owned_refuse.
    + by intros [] ?.
Qed.

Lemma owned_read_next X Y V r :
  sub_id (pr_sub r) = pr_label r ->
  hoare (owned X Y V (entry (pr_label r) (pr_sub r) (pr_reg r))) (read_next r)
    (fun _ => owned X Y V top) some_failure.
Proof.
  intros Hs. set (K := entry (pr_label r) (pr_sub r) (pr_reg r)). unfold read_next. cbv zeta.
  apply h_get. intros v Hv. apply (h_bind _ _ _ (fun _ => owned X Y V K)); [intros w ->; by apply k_ask|].
  intros [page|e].
  - destruct (admit_page _ _ _ _); [|eapply h_pre; [by apply owned_refuse|intros w; apply owned_top]].
    apply (h_bind _ _ _ (fun _ => owned X Y V K)); [eapply to_any, owned_send_page|intros n].
    destruct (next page).
    + apply h_mod. intros w [R G C N P F T]. split; try done.
      change (regs (with_paging _ w)) with (regs w). simpl. apply Forall_app. split; [done|].
      by repeat constructor.
    + eapply h_conseq; [eapply to_any, owned_complete|done|intros ? w; apply owned_top|done].
  - subst K. rewrite <- Hs.
    apply (owned_restart X Y V {| st_sub := pr_sub r; st_reg := pr_reg r; st_tier := pr_tier r;
      st_permit := pr_permit r; st_restarted := pr_restarted r |}).
Qed.

Lemma owned_pump X Y V : keeps (owned X Y V top) some_failure pump_page.
Proof.
  unfold pump_page. apply h_get. intros v Hv.
  destruct (_ || _); [by apply h_ret; intros w ->|].
  destruct (paging v) as [|r rest] eqn:Hp; [by apply h_ret; intros w ->|].
  destruct Hv as [R G C N P F T]. rewrite Hp in P. apply Forall_cons in P as [[P1 P2] P3].
  apply (h_bind _ _ _ (fun _ => owned X Y V (entry (pr_label r) (pr_sub r) (pr_reg r)))).
  { apply h_mod. intros w ->. by split. }
  intros _. destruct (subs v !! pr_label r); [by apply owned_read_next|].
  apply h_ret. intros w. apply owned_top.
Qed.

Lemma owned_purge X Y V K q w : owned X Y V K w -> owned X Y V K (with_queue q w).
Proof. by apply owned_ext. Qed.

Lemma owned_resnapshot_loop X Y V fuel label reason permit :
  keeps (owned X Y V top) some_failure (resnapshot_loop fuel label reason permit).
Proof.
  induction fuel as [|fuel IH]; simpl; (apply h_get; intros v Hv);
    (destruct (subs v !! label) as [row|] eqn:Hs; [|by apply h_ret; intros w ->]);
    (assert (regs v !! label = Some (rs_sub row, rs_reg row)) as Hr by (unfold regs; by rewrite lookup_fmap, Hs));
    (pose proof (o_named _ _ _ _ _ Hv _ _ Hr) as Hn); simpl in Hn;
    (eapply h_pre; [apply (snapshot_again_caught X Y V {| st_sub := rs_sub row; st_reg := rs_reg row;
        st_tier := viewer_tier (viewer v); st_permit := permit; st_restarted := false |})
      |intros w ->; destruct Hv; split; try done; unfold entry; simpl; by rewrite Hn]);
    [intros; apply k_ret|intros [] ?; try done|by intros [] ?|intros; apply k_ret|intros [] ?; try done|by intros [] ?].
  all: try by apply owned_refuse.
  apply k_bind; [apply k_await|intros _; apply IH].
Qed.

Lemma owned_resnapshot X Y V label reason permit :
  keeps (owned X Y V top) some_failure (resnapshot_row label reason permit).
Proof.
  unfold resnapshot_row. apply k_bind; [apply k_mod; intros w; apply owned_purge|intros _].
  apply k_bind; [apply k_mod; intros w; by apply unpage_same|intros _].
  apply k_get. intros v Hv. apply owned_resnapshot_loop.
Qed.

(** ** Subscribing *)

Lemma owned_catch_up X Y V sub reg from f :
  hoare (owned X (rg_sub reg :: Y) V (absent (sub_id sub))) (catch_up_row sub reg from f)
    (fun _ => owned X Y V top) some_failure.
Proof.
  unfold catch_up_row.
  apply (h_bind _ _ _ (fun _ => owned X Y V top)).
  { eapply h_conseq; [apply attach_new|done|intros a w; apply owned_top|done]. }
  intros _. apply k_bind; [apply k_read_log|intros ceiling].
  apply k_bind; [destruct f; [apply k_read_log|apply k_ret]|intros of_].
  apply k_bind; [apply k_read_log|intros since_]. apply k_bind; [apply k_read_log|intros min].
  destruct (catchup_decision _ _ _); [|apply owned_resnapshot].
  apply k_bind.
  { induction (Catchup.replayed ceiling _) as [|r records IH]; simpl; [apply k_ret|].
    apply k_bind; [apply k_engine_answer|]. intros [departing|]; [|apply IH].
    destruct (is_truncate r); [apply k_get; intros; apply k_ret|].
    apply k_bind; [apply k_replay_payload|]. intros [payload|]; [|apply IH].
    apply k_bind; [apply k_history|intros h]. apply k_bind; [apply k_ask|].
    intros [[]|[|d]]; [| |apply k_fail];
      (apply k_bind; [eapply to_any, owned_enqueue|intros _; apply IH]). }
  intros [|reason]; [|apply owned_resnapshot].
  apply k_bind; [apply k_history|intros h]. eapply to_any, owned_enqueue.
Qed.

(** A soft failure of a first read leaves its registration on record, with no page
    of it booked. *)
Lemma owned_subscribe_row X Y V sub reg tier permit :
  hoare (owned X (rg_sub reg :: Y) V (absent (sub_id sub))) (subscribe_row sub reg tier permit)
    (fun _ => owned X Y V top)
    (mild (owned X Y V (both (entry (sub_id sub) sub reg) (unread (sub_id sub))))).
Proof.
  set (P := owned X (rg_sub reg :: Y) V (absent (sub_id sub))).
  assert (forall resync, hoare P (snapshot_row {| st_sub := sub; st_reg := reg; st_tier := tier;
    st_permit := permit; st_restarted := false |} resync) (fun _ => owned X Y V top)
    (mild (owned X Y V (both (entry (sub_id sub) sub reg) (unread (sub_id sub)))))) as Hs.
  { intros resync. apply (snapshot_new X Y V {| st_sub := sub; st_reg := reg; st_tier := tier;
    st_permit := permit; st_restarted := false |}). }
  unfold subscribe_row. cbv zeta. apply h_get. intros v Hv.
  apply (h_pre _ P); [|by intros w ->].
  destruct (resume v); [apply Hs| |apply Hs]. destruct (_ && _); [apply Hs|].
  apply (h_bind _ _ _ (fun _ => P)); [eapply hard_spec; [apply hard_read_log|apply k_read_log]|intros min].
  apply (h_bind _ _ _ (fun _ => P)); [eapply hard_spec; [apply hard_read_log|apply k_read_log]|intros current].
  destruct (catchup_decision _ _ _); [|apply Hs].
  eapply hard_spec; [apply hard_catch_up|apply owned_catch_up].
Qed.

(** The engine answers a mirror of a membership table with rows. *)
Hypothesis mirrors_rows : forall c table predicate v e r,
  (register c (mirror_subscribe table predicate) v e).1 = Ok r -> exists s, registration r = RegRow s.

Lemma owned_open_membership X Y V tier member permit :
  hoare (owned X Y V top) (open_membership_subscription tier member permit)
    (fun _ => owned X Y V top) (mild (owned X Y V top)).
Proof.
  unfold open_membership_subscription. cbv zeta. set (label := membership_label (mt_table member)).
  apply h_get. intros v Hv. destruct (subs v !! label) eqn:Hs; [by apply h_ret; intros w ->|].
  assert (owned X Y V (absent label) v) as Ha.
  { destruct Hv; split; try done. unfold absent, regs. by rewrite lookup_fmap, Hs. }
  apply (h_pre _ (owned X Y V (absent label))); [|by intros w ->].
  assert (Aside (owned X Y V (absent label)) (mild (owned X Y V top))) as HA
    by (apply owned_aside; intros w; apply owned_top).
  destruct (_ && _); [apply h_fail; intros w; apply a_fault|].
  apply (h_bind _ _ _ (fun _ => owned X Y V (absent label))); [apply k_await|intros _].
  destruct (mirror_predicate _ _ _ _) as [predicate|[]]; [|apply h_fail; intros w; apply a_fault..].
  set (hidden := mirror_subscribe (mt_table member) predicate).
  apply (h_bind _ _ _ (fun _ => owned X Y V (absent label))); [by apply k_send|intros _].
  apply (h_bind _ _ _ (fun _ => owned X Y V (absent label))); [apply k_next_consumer|intros consumer].
  eapply h_bind; [apply owned_register|].
  intros [r|err]; simpl; [|apply h_fail; intros w Hw _; by eapply owned_top].
  apply h_pure. intros (u & e & Hr). apply mirrors_rows in Hr as [s Hr].
  unfold into_row, registered_id. rewrite Hr. simpl.
  eapply h_conseq; [apply (owned_subscribe_row X Y V hidden)|done|done|].
  intros e' w Hm He. by eapply owned_top, Hm.
Qed.

Lemma owned_open_memberships X Y V label tier tables permit :
  keeps (owned X Y V top) some_failure (open_memberships label tier tables permit).
Proof.
  induction tables as [|t tables IH]; simpl; [apply k_ret|].
  intros w Hw. pose proof (owned_open_membership X Y V tier t permit w Hw) as H.
  unfold dbind, dtry. destruct (open_membership_subscription tier t permit w) as [[a|e] w']; simpl; [by apply IH|].
  destruct e; try done; by apply (owned_refuse _ _ _ _ _ shrinks_top), H.
Qed.

Lemma owned_rollback X Y V label sub reg w :
  owned X Y V (both (entry label sub reg) (unread label)) w ->
  owned (rg_consumer reg :: X) (rg_sub reg :: Y) V top (with_subs (delete label (subs w)) w).
Proof.
  intros Hw. destruct (o_fact _ _ _ _ _ Hw) as [T1 T2]. unfold entry, unread in *.
  assert (exists row, subs w !! label = Some row /\ rs_reg row = reg) as (row & Hs & <-).
  { unfold regs in T1. rewrite lookup_fmap in T1. destruct (subs w !! label) as [row|]; [|done].
    simplify_eq/=. eauto. }
  pose proof (owned_drop _ _ _ _ _ _ _ shrinks_top Hs (owned_top _ _ _ _ _ Hw)) as H.
  assert (without_label label (paging w) = paging w) as Hp.
  { unfold without_label. clear -T2. induction T2; [done|]. rewrite filter_cons, decide_True by done. by f_equal. }
  rewrite Hp in H. by apply (owned_ext _ _ _ _ _ (with_subs (delete label (subs w)) w)) in H.
Qed.

Lemma owned_serve_term X Y V sub tier reg permit :
  hoare (owned X (rg_sub reg :: Y) V (absent (sub_id sub))) (serve_term_row sub tier reg permit)
    (fun _ => owned X Y V top) some_failure.
Proof.
  unfold serve_term_row.
  eapply h_bind; [apply k_precharge|]. intros [wait|].
  - apply (h_bind _ _ _ (fun _ => owned X Y V top)); [|intros; by apply k_send].
    eapply h_conseq; [apply give_registration|done|intros ? w; apply owned_top|done].
  - intros w Hw. pose proof (owned_subscribe_row X Y V sub reg tier (Some permit) w Hw) as H.
    unfold dbind at 1, dtry. destruct (subscribe_row _ _ _ _ w) as [[a|e] w']; simpl.
    { by apply owned_open_memberships. }
    assert (soft e = true -> hoare (fun w => owned X Y V (both (entry (sub_id sub) sub reg) (unread (sub_id sub))) w)
      (dbind (dmod (fun w => with_subs (delete (sub_id sub) (subs w)) w)) (fun _ =>
        dbind (remove_route (rg_consumer reg)) (fun _ => dbind (unregister (rg_sub reg)) (fun _ =>
          send (ORefused (sub_id sub)))))) (fun _ => owned X Y V top) some_failure) as Hr.
    { intros _. apply (h_bind _ _ _ (fun _ => owned (rg_consumer reg :: X) (rg_sub reg :: Y) V top)).
      { apply h_mod. intros u. apply owned_rollback. }
      intros _. apply (h_bind _ _ _ (fun _ => owned X (rg_sub reg :: Y) V top)); [apply give_route|].
      intros _. apply (h_bind _ _ _ (fun _ => owned X Y V top)); [apply give_registration|].
      intros _. by apply k_send. }
    destruct e; try done; by apply Hr, H.
Qed.

Lemma owned_computed X Y V sub capture reads resync :
  hoare (owned X (cap_sub capture :: Y) V (uncomputed (sub_id sub)))
    (subscribe_computed sub capture reads resync) (fun _ => owned X Y V top) some_failure.
Proof.
  set (id := cap_sub capture). set (K := uncomputed (sub_id sub)).
  unfold subscribe_computed. cbv zeta. apply h_get. intros v Hv.
  apply (h_bind _ _ _ (fun _ => owned X (id :: Y) V K)); [intros w ->; by apply k_ask|].
  intros [changes|e].
  - apply (h_bind _ _ _ (fun _ => owned X (id :: Y) (id :: V) K)).
    { apply (h_bind _ _ _ (fun _ => owned X (id :: Y) V K)); [apply k_await|intros _].
      apply h_mod. intros w [R G Cm N P F T]. split; try done. simpl.
      intros s [<-|[_ Hs]]%lookup_insert_is_Some; [right; by left|].
      destruct (Cm s Hs); [by left|right; by right]. }
    intros _. apply (h_bind _ _ _ (fun _ => owned X (id :: Y) (id :: V) K)).
    { destruct resync; [by apply k_send|apply k_ret]. }
    intros _. apply (h_bind _ _ _ (fun _ => owned X (id :: Y) (id :: V) K)); [apply k_send_changes|intros _].
    apply h_mod. intros w [R G Cm N P F T]. unfold K, uncomputed in T.
    assert (forall s, computed_held (computed_subs w) s \/ s = id -> computed_held
      (<[sub_id sub := {| cs_id := id; cs_sub := sub; cs_rebinds := per_viewer capture || reads |}]>
        (computed_subs w)) s) as Hh.
    { intros s [(lab & k & Hk & Hs)| ->].
      - exists lab, k. rewrite lookup_insert_ne by congruence. done.
      - eexists (sub_id sub), _. by rewrite lookup_insert_eq. }
    split; try done; simpl.
    + intros s [?|[?|[->|?]%elem_of_cons]]%G; auto.
    + intros s [?|[->|?]%elem_of_cons]%Cm; auto.
  - apply (h_bind _ _ _ (fun _ => owned X Y V top)); [|intros; by apply k_send].
    eapply h_conseq; [apply give_registration|done|intros ? w; apply owned_top|done].
Qed.

(** A label not in use. *)
Definition unused (label : string) : Fact := both (absent label) (uncomputed label).

Lemma owned_handle_subscribe sub :
  hoare (owned [] [] [] (unused (sub_id sub))) (handle_subscribe sub)
    (fun _ => owned [] [] [] top) some_failure.
Proof.
  set (P := owned [] [] [] (unused (sub_id sub))).
  assert (forall f, quiet f = true -> hoare P (send f) (fun _ => owned [] [] [] top) some_failure) as Hsend.
  { intros f Hf. apply (h_pre _ (owned [] [] [] top)); [by apply k_send|intros w; apply owned_top]. }
  unfold handle_subscribe. cbv zeta. apply h_get. intros v Hv. apply (h_pre _ P); [|by intros w ->].
  apply (h_bind _ _ _ (fun _ => P)); [apply k_ask|]. intros [permit|wait]; [|by apply Hsend].
  apply (h_bind _ _ _ (fun _ => P)); [apply k_call|]. intros [wait|]; [by apply Hsend|].
  apply (h_bind _ _ _ (fun _ => P)); [apply k_next_consumer|]. intros consumer.
  eapply h_bind; [apply owned_register|]. intros [r|err]; simpl.
  - apply h_pure. intros _. unfold into_row, registered_id. destruct (registration r) as [s|c]; simpl.
    + eapply h_pre; [apply owned_serve_term|]. intros w. apply owned_mono; try done. by intros [].
    + eapply h_pre; [apply owned_computed|]. intros w. apply owned_mono; try done. by intros [].
  - apply (h_pre _ (owned [] [] [] top)); [|intros w; apply owned_top].
    apply k_bind; [apply k_call|intros reaction].
    apply k_bind; [|intros _; by apply k_send].
    destruct (decide _); [apply k_mod; intros w; apply a_closing|apply k_ret].
Qed.

Lemma owned_forget X Y V label k w :
  computed_subs w !! label = Some k -> owned X Y V top w ->
  owned X (cs_id k :: Y) (cs_id k :: V) top (with_computed (delete label (computed_subs w)) w).
Proof.
  intros Hk [R G C N P F T].
  assert (forall s, computed_held (computed_subs w) s ->
    computed_held (delete label (computed_subs w)) s \/ s = cs_id k) as Hd.
  { intros s (lab & k' & H & Hs). destruct (decide (lab = label)) as [->|Hn]; [right; congruence|].
    left. exists lab, k'. by rewrite lookup_delete_ne. }
  split; try done; simpl.
  - intros s [?|[[?| ->]%Hd|?]]%G; auto; right; right; [by left|by right].
  - intros s [[?| ->]%Hd|?]%C; auto; right; [by left|by right].
Qed.

Lemma owned_unsubscribe label : keeps (owned [] [] [] top) some_failure (unsubscribe label).
Proof.
  unfold unsubscribe. apply k_bind; [by apply owned_release|intros _].
  apply h_get. intros v Hv. destruct (computed_subs v !! label) as [k|] eqn:Hk; [|by apply h_ret; intros w ->].
  apply (h_bind _ _ _ (fun _ => owned [] [cs_id k] [cs_id k] top)).
  { apply h_mod. intros w ->. by apply owned_forget. }
  intros _. apply (h_bind _ _ _ (fun _ => owned [] [cs_id k] [] top)); [apply give_computed_route|].
  intros _. apply give_registration.
Qed.

Lemma owned_replay_missed X Y V K : Shrinks K -> keeps (owned X Y V K) some_failure replay_missed.
Proof.
  intros HK. unfold replay_missed. apply k_get. intros v Hv. apply k_bind; [apply k_mod; intros w; apply a_missed|intros _].
  induction (missed_replays v) as [|r l IH]; simpl; [apply k_ret|]. apply k_bind; [|intros _; apply IH].
  unfold replay_one. apply k_bind; [apply k_read_log|intros records].
  apply k_bind; [apply k_missed_payloads|]. intros [ps|]; [|by apply owned_refuse].
  induction ps as [|p ps IHp]; simpl; [apply k_ret|]. apply k_bind; [eapply to_any, owned_enqueue|intros _; apply IHp].
Qed.

Lemma owned_handle_outbound o : foreign o -> keeps (owned [] [] [] top) some_failure (handle_outbound o).
Proof.
  intros Ho. destruct o; simpl in *.
  - apply k_get. intros v Hv. cbv zeta. apply k_bind; [apply k_mod; intros w; by apply owned_alter|intros _].
    apply k_bind; [eapply to_any, owned_enqueue|intros _; apply k_ret].
  - apply k_bind; [by apply k_send|intros _; apply k_ret].
  - apply k_bind; [apply k_try_send; [apply _|done]|intros _; apply k_ret].
  - apply k_ret.
  - apply k_bind; [apply k_try_send; [apply _|done]|intros _; apply k_ret].
  - apply k_bind; [apply owned_resnapshot|intros _; apply k_ret].
  - apply k_get. intros v Hv. destruct (subs v !! label) as [row|]; [|apply k_ret].
    destruct (decide _); [|apply k_ret]. apply k_bind; [apply owned_resnapshot|intros _; apply k_ret].
  - done.
  - apply k_bind; [by apply owned_refuse|intros _; apply k_ret].
Qed.

(** ** Runs *)

(** What the statement asks of one turn: a subscribe under a label not in use, and
    no change of the caller's keys. *)
Definition plain (t : Turn) (w : World) : Prop :=
  match t with
  | Received (ISubscribe sub) => subs w !! sub_id sub = None /\ computed_subs w !! sub_id sub = None
  | Received (IReplaceShareKeys _ _) | KeysExpire => False
  | _ => True
  end.

Fixpoint plainly (ts : list Turn) (w : World) : Prop :=
  match ts with
  | [] => True
  | t :: ts' => plain t w /\ match turn t w with (Ok true, w') => plainly ts' w' | _ => True end
  end.

(** The same as a test. *)
Definition plainb (t : Turn) (w : World) : bool :=
  match t with
  | Received (ISubscribe sub) =>
      match subs w !! sub_id sub, computed_subs w !! sub_id sub with None, None => true | _, _ => false end
  | Received (IReplaceShareKeys _ _) | KeysExpire => false
  | _ => true
  end.

Fixpoint plainlyb (ts : list Turn) (w : World) : bool :=
  match ts with
  | [] => true
  | t :: ts' => plainb t w && match turn t w with (Ok true, w') => plainlyb ts' w' | _ => true end
  end.

Lemma plainlyb_sound ts w : plainlyb ts w = true -> plainly ts w.
Proof.
  revert w. induction ts as [|t ts IH]; intros w; simpl; [done|]. intros [Ht Hs]%andb_true_iff. split.
  - destruct t as [[sub| | | |]| | |]; simpl in *; try done.
    by destruct (subs w !! sub_id sub), (computed_subs w !! sub_id sub).
  - destruct (turn t w) as [[[]|] w']; [|done..]. by apply IH.
Qed.

(** The fact a turn's frame relies on. *)
Definition needs (t : Turn) : Fact :=
  match t with Received (ISubscribe sub) => unused (sub_id sub) | _ => top end.

Lemma needs_shrinks t : Shrinks (needs t).
Proof.
  destruct t as [[sub| | | |]| | |]; try done. intros m p c label [H1 H2]. split; [|done].
  unfold absent in *. by rewrite lookup_delete_None; right.
Qed.

Lemma plain_needs t w : plain t w -> owned [] [] [] top w -> owned [] [] [] (needs t) w.
Proof.
  intros Hp. apply owned_mono; try done. intros _. destruct t as [[sub| | | |]| | |]; try done.
  destruct Hp as [H1 H2]. split; [|done]. unfold absent, regs. by rewrite lookup_fmap, H1.
Qed.

(** A frame that changes no keys. *)
Definition keyless (t : Turn) : Prop :=
  match t with Received (IReplaceShareKeys _ _) | KeysExpire => False | _ => True end.

Lemma owned_control m :
  keyless (Received m) ->
  hoare (owned [] [] [] (needs (Received m))) (handle_control m) (fun _ => owned [] [] [] top) some_failure.
Proof.
  intros Hk. destruct m as [sub|label|nonce|n|request keys]; simpl in *.
  - apply owned_handle_subscribe.
  - apply owned_unsubscribe.
  - by apply (k_send (I := owned [] [] [] top)).
  - apply (k_bind (I := owned [] [] [] top)); [apply k_mod; intros u; by apply owned_ext|intros _].
    apply k_bind; [eapply to_any, owned_flush|intros _; apply owned_pump].
  - done.
Qed.

Lemma owned_turn t :
  keyless t ->
  hoare (owned [] [] [] (needs t)) (turn t) (fun _ => owned [] [] [] top) some_failure.
Proof.
  intros Hk. unfold turn. apply h_get. intros v Hv.
  destruct (closing v); [apply h_ret; intros w ->; by eapply owned_top|].
  apply (h_bind _ _ _ (fun _ => owned [] [] [] (needs t))).
  { intros w ->. assert (keeps (owned [] [] [] (needs t)) some_failure
      (if decide (missed_replays v = []) then dret tt else replay_missed)) as H.
    { destruct (decide (missed_replays v = [])); [apply k_ret|apply owned_replay_missed, needs_shrinks]. }
    by apply H. }
  intros _. apply (h_bind _ _ _ (fun _ => owned [] [] [] (needs t))); [apply k_await|intros _].
  destruct t as [m| | |]; simpl in Hk; [|by apply h_ret| |done].
  - apply (h_bind _ _ _ (fun _ => owned [] [] [] top)); [by apply owned_control|intros _; by apply h_ret].
  - apply h_get. intros u Hu. destruct (channel u) as [|o rest] eqn:Hc; [by apply h_ret; intros w ->|].
    pose proof (o_foreign _ _ _ _ _ Hu) as Ho. rewrite Hc in Ho. apply Forall_cons in Ho as [Ho _].
    intros w ->. apply (owned_handle_outbound o Ho).
    by apply (a_channel (E := some_failure) (I := owned [] [] [] top) o).
Qed.

Lemma owned_turns ts w on w' :
  plainly ts w -> owned [] [] [] top w -> turns ts w = (Ok on, w') -> owned [] [] [] top w'.
Proof.
  revert w. induction ts as [|t ts IH]; intros w; simpl; [by intros _ Hw [= _ <-]|].
  intros [Hp Hs] Hw. assert (keyless t) as Hk by (by destruct t as [[]| | |]).
  pose proof (owned_turn t Hk w (plain_needs t w Hp Hw)) as Ht. unfold dbind.
  destruct (turn t w) as [[[]|e] u]; [by apply IH|by intros [= _ <-]|done].
Qed.

(** ** The end of a session *)

Lemma give_computed ids X V' Y K E :
  hoare (owned X (ids ++ Y) (ids ++ V') K) (release_computed ids) (fun _ => owned X Y V' K) E.
Proof.
  induction ids as [|id ids IH]; simpl; [by apply h_ret|].
  apply (h_bind _ _ _ (fun _ => owned X (id :: ids ++ Y) (ids ++ V') K)); [apply give_computed_route|intros _].
  apply (h_bind _ _ _ (fun _ => owned X (ids ++ Y) (ids ++ V') K)); [apply give_registration|intros _].
  apply IH.
Qed.

(** Nothing on record. *)
Definition blank : Fact := fun m p c => m = ∅ /\ c = ∅.

(** What the record owned is in hand once it is dropped. *)
Lemma owned_dropped w :
  owned [] [] [] top w ->
  owned ((fun p => (rg_consumer (rs_reg p.2), rg_sub (rs_reg p.2))) <$> map_to_list (subs w)).*1
    (((fun p => (rg_consumer (rs_reg p.2), rg_sub (rs_reg p.2))) <$> map_to_list (subs w)).*2 ++
     ((fun p => cs_id p.2) <$> map_to_list (computed_subs w)))
    ((fun p => cs_id p.2) <$> map_to_list (computed_subs w)) blank
    (with_subs ∅ (with_computed ∅ (with_paging [] w))).
Proof.
  intros [R G C N P F T].
  assert (forall s, computed_held (computed_subs w) s -> s ∈ (fun p => cs_id p.2) <$> map_to_list (computed_subs w)) as Hc.
  { intros s (label & k & Hk & <-). apply list_elem_of_fmap. exists (label, k). split; [done|].
    by apply elem_of_map_to_list. }
  assert (forall label p, regs w !! label = Some p -> exists row,
    (label, row) ∈ map_to_list (subs w) /\ rs_reg row = p.2) as Hs.
  { intros label p Hp. unfold regs in Hp. rewrite lookup_fmap in Hp.
    destruct (subs w !! label) as [row|] eqn:Hr; [|done]. simplify_eq/=.
    exists row. split; [by apply elem_of_map_to_list|done]. }
  split; simpl; try done.
  - intros c [(label & p & Hp & <-)|[]%elem_of_nil]%R. right. destruct (Hs _ _ Hp) as (row & Hr & <-).
    rewrite <- list_fmap_compose. apply list_elem_of_fmap. by exists (label, row).
  - intros s [(label & p & Hp & <-)|[?|[]%elem_of_nil]]%G; right; right; apply elem_of_app; [left|right; by apply Hc].
    destruct (Hs _ _ Hp) as (row & Hr & <-).
    rewrite <- list_fmap_compose. apply list_elem_of_fmap. by exists (label, row).
  - intros s [?|[]%elem_of_nil]%C. right. by apply Hc.
Qed.

Lemma teardown :
  hoare (owned [] [] [] top) unsubscribe_all (fun _ => owned [] [] [] blank) some_failure.
Proof.
  unfold unsubscribe_all. apply h_get. intros v Hv.
  set (pairs := (fun p => (rg_consumer (rs_reg p.2), rg_sub (rs_reg p.2))) <$> map_to_list (subs v)).
  set (ids := (fun p => cs_id p.2) <$> map_to_list (computed_subs v)).
  apply (h_bind _ _ _ (fun _ => owned (pairs.*1 ++ []) (pairs.*2 ++ ids ++ []) (ids ++ []) blank)).
  { apply h_mod. intros w ->. rewrite !app_nil_r. by apply owned_dropped. }
  intros _. apply (h_bind _ _ _ (fun _ => owned [] (ids ++ []) (ids ++ []) blank)); [apply give_all|intros _].
  apply give_computed.
Qed.

Lemma owned_opened n v r b s x c e : owned [] [] [] top (opened (En := En) n v r b s x c e).
Proof.
  assert (regs (opened (En := En) n v r b s x c e) = ∅) as Hr by apply fmap_empty.
  split; rewrite ?Hr; simpl; try done.
  - intros k [? H]. by rewrite lookup_empty in H.
  - intros k [? H]. by rewrite lookup_empty in H.
Qed.

(** C5. A session gives back all it took. Whatever it served, refused, took again or
    rolled back half way, a session that ran without a failure of its own leaves no
    route behind, through which the feed would go on filtering and sending for no
    one, and no registration in the engine: provided its client used no label
    twice at a time and its share keys stayed as they were. *)
Theorem session_leaves_nothing n v r b s x c e ts on w :
  plainly ts (opened (En := En) n v r b s x c e) ->
  run_session ts (opened n v r b s x c e) = (Ok on, w) ->
  routes w = ∅ /\ computed_routes w = ∅ /\ engine w = ∅.
Proof.
  intros Hp Hr. unfold run_session, dbind, dtry in Hr. simpl in Hr.
  destruct (turns ts _) as [on' w1] eqn:Ht. simpl in Hr.
  assert (exists on'', on' = Ok on'') as [on'' ->].
  { destruct on'; [eauto|]. destruct (unsubscribe_all w1) as [[[]|] ?]; done. }
  pose proof (teardown w1 (owned_turns _ _ _ _ Hp (owned_opened _ _ _ _ _ _ _ _) Ht)) as Hd.
  destruct (unsubscribe_all w1) as [[[]|err] w2]; [|done]. unfold dlift in Hr. simplify_eq.
  destruct Hd as [R G C _ _ _ [H1 H2]]. split_and!.
  - apply map_empty. intros k. apply eq_None_not_Some. intros [(l & p & Hl & _)|[]%elem_of_nil]%R.
    by rewrite H1, lookup_empty in Hl.
  - apply map_empty. intros k. apply eq_None_not_Some. intros [(l & p & Hl & _)|[]%elem_of_nil]%C.
    by rewrite H2, lookup_empty in Hl.
  - apply set_eq. intros k. split; [|done]. intros [(l & p & Hl & _)|[(l & p & Hl & _)|[]%elem_of_nil]]%G.
    + by rewrite H1, lookup_empty in Hl.
    + by rewrite H2, lookup_empty in Hl.
Qed.
End Tidy.
