(* ===== verification/Rekey.v ===== *)
(** A change of the caller's share keys.

    The rows a caller may read depend on its keys, so when they change the session
    takes the dispatch gate, puts every route under the new caller and queues a
    resend of each subscription the change reaches. What was filtered under the old
    keys must be on the channel before the first resend. *)

From Stdlib Require Import ZArith Lia.
From stdpp Require Import base list numbers option strings gmap fin_maps.
From S2P Require Import Prelude Wire Backoff Throttle Guard Cursor Oplog Catchup Caller Delivery Outflow.

Open Scope Z_scope.

Section Rekey.
Context {WA : Wares} {En : Type} {OU : Outside En} {OR : Orderly}.

Notation World := (World (En := En)).
Notation DM := (DM (En := En)).

(** What the feed puts on the channel. *)
Definition dispatched (o : Outbound) : bool :=
  match o with Live _ _ _ | Aggregate _ => true | _ => false end.

(** The feed holds the gate while it dispatches. *)
Class GateShut : Prop :=
  gate_shut r c e : Forall (fun o => dispatched o = false) (meanwhile_gated r c e).1.

Context {GA : GateShut}.

(** The instruction that replaces what a label's subscription holds. *)
Definition resends (label : string) (o : Outbound) : Prop :=
  match o with
  | Resnapshot l AuthorizationChange | ReservedResnapshot l _ _ | Refuse l => l = label
  | _ => False
  end.

Definition recomputes (label : string) (id : Z) (o : Outbound) : Prop := o = Rebootstrap label id.

(** Under the gate since the channel was [ch], for the caller [v], whose routes
    [H] are the session's: everything queued since is no dispatch. *)
Record under (ch : list Outbound) (v : Viewer) (H : Z -> Prop) (w : World) : Prop := {
  u_gate : gated w = true;
  u_viewer : viewer w = v;
  u_routes c r : routes w !! c = Some r -> H c -> rt_viewer r = v;
  u_since : exists after, channel w = ch ++ after /\ Forall (fun o => dispatched o = false) after;
}.

(** ... and an instruction is among it. *)
Definition told (ch : list Outbound) (f : Outbound -> Prop) (w : World) : Prop :=
  exists after, channel w = ch ++ after /\ Exists f after.

Definition grows (w w' : World) : Prop := exists l, channel w' = channel w ++ l.

Lemma told_grows ch f w w' : grows w w' -> told ch f w -> told ch f w'.
Proof.
  intros [l Hl] (after & Ha & He). exists (after ++ l). rewrite Hl, Ha, <- app_assoc. split; [done|].
  apply Exists_app. by left.
Qed.

(** A step that never fails, keeps what is under the gate and takes nothing off the
    channel, the record of subscriptions or their computed answers. *)
Definition calm {A} (ch : list Outbound) (v : Viewer) (H : Z -> Prop) (m : DM A) : Prop :=
  forall w, under ch v H w -> exists a w',
    m w = (Ok a, w') /\ under ch v H w' /\ grows w w' /\
    dom (subs w') = dom (subs w) /\ computed_subs w' = computed_subs w.

Section Steps.
Context (ch : list Outbound) (v : Viewer) (H : Z -> Prop).

Lemma calm_ret {A} (a : A) : calm ch v H (dret a).
Proof. intros w Hw. exists a, w. split_and!; try done. exists []. by rewrite app_nil_r. Qed.

Lemma calm_bind {A B} (m : DM A) (k : A -> DM B) :
  calm ch v H m -> (forall a, calm ch v H (k a)) -> calm ch v H (dbind m k).
Proof.
  intros Hm Hk w Hw. destruct (Hm w Hw) as (a & w1 & E1 & U1 & [l1 G1] & S1 & C1).
  destruct (Hk a w1 U1) as (b & w2 & E2 & U2 & [l2 G2] & S2 & C2).
  exists b, w2. unfold dbind. rewrite E1. split_and!; [done|done| |congruence|congruence].
  exists (l1 ++ l2). by rewrite G2, G1, app_assoc.
Qed.

Lemma calm_get {B} (k : World -> DM B) : (forall w, calm ch v H (k w)) -> calm ch v H (dbind dget k).
Proof. intros Hk w Hw. by apply (Hk w w). Qed.

(** The other tasks, the gate shut. *)
Lemma under_env l e w :
  Forall (fun o => dispatched o = false) l -> under ch v H w -> under ch v H (with_env l e w).
Proof.
  intros Hl [G V R (after & Ha & Hf)]. split; try done. exists (after ++ l). simpl.
  rewrite Ha, <- app_assoc. split; [done|]. by apply Forall_app.
Qed.

Lemma calm_await : calm ch v H await.
Proof.
  intros w Hw. unfold await. rewrite (u_gate _ _ _ _ Hw).
  pose proof (gate_shut (routes w) (computed_routes w) (env w)) as Hg.
  destruct (meanwhile_gated _ _ _) as [l e]. exists tt, (with_env l e w).
  split_and!; try done; [by apply under_env|by exists l].
Qed.

Lemma calm_call {A} (f : En -> A * En) : calm ch v H (call f).
Proof.
  intros w Hw. unfold call. destruct (f (env w)) as [a e]. exists a, (with_env [] e w).
  split_and!; try done; [by apply under_env|by exists []].
Qed.

Lemma calm_put o : dispatched o = false -> calm ch v H (put o).
Proof.
  intros Ho w Hw. exists tt, (with_env [o] (env w) w).
  split_and!; try done; [apply under_env; [by constructor|done]|by exists [o]].
Qed.

(** A change of the session's own record. *)
Lemma calm_mod f :
  (forall w, under ch v H w -> under ch v H (f w)) ->
  (forall w, channel (f w) = channel w /\ dom (subs (f w)) = dom (subs w) /\ computed_subs (f w) = computed_subs w) ->
  calm ch v H (dmod f).
Proof.
  intros Hu Hf w Hw. exists tt, (f w). destruct (Hf w) as (H1 & H2 & H3). split_and!; auto.
  exists []. by rewrite app_nil_r.
Qed.

Lemma calm_remove_route c : calm ch v H (remove_route c).
Proof.
  apply calm_bind; [apply calm_await|intros _]. apply calm_mod; [|done].
  intros w [G V R S]. split; try done. simpl. intros k r [_ Hr]%lookup_delete_Some. by apply R.
Qed.

Lemma calm_remove_computed c : calm ch v H (remove_computed_route c).
Proof. apply calm_bind; [apply calm_await|intros _]. apply calm_mod; [|done]. by intros w []. Qed.

Lemma calm_unregister s : calm ch v H (unregister s).
Proof. apply calm_bind; [apply calm_await|intros _]. apply calm_mod; [|done]. by intros w []. Qed.

Lemma calm_register c sub : calm ch v H (register_subscription c sub).
Proof.
  apply calm_get. intros w0. apply calm_bind.
  { apply calm_bind; [apply calm_await|intros; apply calm_call]. }
  intros [reg|e]; [|apply calm_ret]. apply calm_bind; [|intros; apply calm_ret].
  apply calm_mod; [|done]. by intros w [].
Qed.

Lemma calm_next : calm ch v H next_consumer_id.
Proof.
  intros w Hw. eexists _, _. split_and!; try done; [by destruct Hw|]. exists []. by rewrite app_nil_r.
Qed.

Lemma calm_register_again label : calm ch v H (register_again label).
Proof.
  apply calm_get. intros w0. destruct (subs w0 !! label) as [row|]; [|apply calm_ret].
  destruct (negb _); [apply calm_ret|].
  apply calm_bind; [apply calm_next|intros c]. apply calm_bind; [apply calm_register|intros r].
  apply calm_bind; [apply calm_remove_route|intros _]. apply calm_bind; [apply calm_unregister|intros _].
  destruct r as [r|e]; [|apply calm_ret]. destruct (into_row r c) as [reg|capture].
  - apply calm_bind; [|intros; apply calm_ret]. apply calm_mod; [by intros w []|].
    intros w. simpl. by rewrite dom_alter_L.
  - apply calm_bind; [apply calm_unregister|intros; apply calm_ret].
Qed.
End Steps.

(** ** The resends *)

Lemma again_held label w w' : register_again label w = (Ok true, w') -> is_Some (subs w !! label).
Proof. unfold register_again, dbind. simpl. by destruct (subs w !! label). Qed.

Lemma told_put ch v H (f : Outbound -> Prop) o w :
  f o -> under ch v H w -> told ch f (with_env [o] (env w) w).
Proof.
  intros Hf [_ _ _ (after & Ha & _)]. exists (after ++ [o]). simpl. rewrite Ha, <- app_assoc.
  split; [done|]. apply Exists_app. right. by constructor.
Qed.

(** A step that also leaves an instruction. *)
Definition leaves (ch : list Outbound) (v : Viewer) (H : Z -> Prop) (m : DM unit) (f : Outbound -> Prop) : Prop :=
  forall w, under ch v H w -> exists w',
    m w = (Ok tt, w') /\ under ch v H w' /\ grows w w' /\
    dom (subs w') = dom (subs w) /\ computed_subs w' = computed_subs w /\ told ch f w'.

Lemma leaves_put ch v H f o : dispatched o = false -> f o -> leaves ch v H (put o) f.
Proof.
  intros Ho Hf w Hw. exists (with_env [o] (env w) w).
  split_and!; try done; [apply under_env; [by constructor|done]|by exists [o]|by eapply told_put].
Qed.

Lemma leaves_bind {A} ch v H (m : DM A) (k : A -> DM unit) f :
  calm ch v H m -> (forall a, leaves ch v H (k a) f) -> leaves ch v H (dbind m k) f.
Proof.
  intros Hm Hk w Hw. destruct (Hm w Hw) as (a & w1 & E1 & U1 & [l1 G1] & S1 & C1).
  destruct (Hk a w1 U1) as (w2 & E2 & U2 & [l2 G2] & S2 & C2 & T2).
  exists w2. unfold dbind. rewrite E1. split_and!; [done|done| |congruence|congruence|done].
  exists (l1 ++ l2). by rewrite G2, G1, app_assoc.
Qed.

Lemma resend_leaves ch v H label permit : leaves ch v H (resend label permit) (resends label).
Proof.
  intros w Hw. destruct (calm_register_again ch v H label w Hw) as (served & w1 & E1 & U1 & [l1 G1] & S1 & C1).
  unfold resend, dbind. rewrite E1.
  assert (exists o, dispatched o = false /\ resends label o /\
    (if served then match permit with
       | Some p => match subs w1 !! label with
         | None => (Ok tt, w1)
         | Some row => put (ReservedResnapshot label (rg_consumer (rs_reg row), rg_sub (rs_reg row)) p) w1
         end
       | None => put (Resnapshot label AuthorizationChange) w1
       end else put (Refuse label) w1) = put o w1) as (o & Ho & Hf & Eo).
  { destruct served; [|by exists (Refuse label)].
    destruct permit as [p|]; [|by exists (Resnapshot label AuthorizationChange)].
    apply again_held in E1. rewrite <- elem_of_dom, <- S1, elem_of_dom in E1. destruct E1 as [row ->].
    by exists (ReservedResnapshot label (rg_consumer (rs_reg row), rg_sub (rs_reg row)) p). }
  destruct (leaves_put ch v H _ o Ho Hf w1 U1) as (w2 & E2 & U2 & [l2 G2] & S2 & C2 & T2).
  exists w2. split_and!; [|done| |congruence|congruence|done].
  - rewrite <- E2, <- Eo. destruct served; [|done]. destruct permit; [|done]. simpl.
    by destruct (subs w1 !! label).
  - exists (l1 ++ l2). by rewrite G2, G1, app_assoc.
Qed.

Lemma resend_rows_told ch v H rows permit w :
  under ch v H w -> exists w',
    resend_rows rows permit w = (Ok tt, w') /\ under ch v H w' /\ grows w w' /\
    computed_subs w' = computed_subs w /\ forall label, label ∈ rows -> told ch (resends label) w'.
Proof.
  revert w. induction rows as [|label rows IH]; intros w Hw; simpl.
  - exists w. split_and!; try done; [exists []; by rewrite app_nil_r|by intros label ?%elem_of_nil].
  - destruct (resend_leaves ch v H label permit w Hw) as (w1 & E1 & U1 & [l1 G1] & S1 & C1 & T1).
    destruct (IH w1 U1) as (w2 & E2 & U2 & [l2 G2] & C2 & T2). exists w2. unfold dbind. rewrite E1.
    split_and!; [done|done| |congruence|].
    + exists (l1 ++ l2). by rewrite G2, G1, app_assoc.
    + intros lab [->|Hl]%elem_of_cons; [|by apply T2]. eapply told_grows, T1. by exists l2.
Qed.

Lemma recompute_leaves ch v H label c :
  leaves ch v H (dbind (remove_computed_route c) (fun _ => dbind (unregister c) (fun _ =>
    put (Rebootstrap label c)))) (recomputes label c).
Proof.
  apply leaves_bind; [apply calm_remove_computed|intros _].
  apply leaves_bind; [apply calm_unregister|intros _]. by apply leaves_put.
Qed.

Lemma resend_computed_told ch v H labels w :
  under ch v H w -> exists w',
    resend_computed labels w = (Ok tt, w') /\ under ch v H w' /\ grows w w' /\
    forall label c, label ∈ labels -> computed_subs w !! label = Some c -> told ch (recomputes label (cs_id c)) w'.
Proof.
  revert w. induction labels as [|label labels IH]; intros w Hw; simpl.
  - exists w. split_and!; try done; [exists []; by rewrite app_nil_r|by intros label ? ?%elem_of_nil].
  - unfold dbind at 1. simpl. destruct (computed_subs w !! label) as [c|] eqn:Hc.
    + destruct (recompute_leaves ch v H label (cs_id c) w Hw) as (w1 & E1 & U1 & [l1 G1] & S1 & C1 & T1).
      destruct (IH w1 U1) as (w2 & E2 & U2 & [l2 G2] & T2). exists w2. unfold dbind at 1. rewrite E1.
      split_and!; [done|done|exists (l1 ++ l2); by rewrite G2, G1, app_assoc|].
      intros lab c' [->|Hl]%elem_of_cons Hk; [|by apply T2; rewrite ?C1].
      rewrite Hc in Hk. simplify_eq. eapply told_grows, T1. by exists l2.
    + destruct (IH w Hw) as (w2 & E2 & U2 & G2 & T2). exists w2. split_and!; [done|done|done|].
      intros lab c' [->|Hl]%elem_of_cons Hk; [congruence|by apply T2].
Qed.

Lemma reroute_spec v (held : gmap string RowSub) m c r label row :
  reroute v held m !! c = Some r -> held !! label = Some row -> rg_consumer (rs_reg row) = c ->
  rt_viewer r = v.
Proof.
  intros Hr Hl Hc. apply elem_of_map_to_list in Hl. unfold reroute in Hr. revert r Hr Hl.
  induction (map_to_list held) as [|p l IH]; intros r Hr Hl; simpl in *; [by apply elem_of_nil in Hl|].
  destruct (decide (rg_consumer (rs_reg p.2) = c)) as [He|He].
  - rewrite He, lookup_alter_eq in Hr. apply fmap_Some in Hr as (r0 & _ & ->). done.
  - rewrite lookup_alter_ne in Hr by done. apply elem_of_cons in Hl as [<-|Hl]; [done|by eapply IH].
Qed.

(** C19. A change of share keys leaves nothing filtered under the old ones behind a
    resend. It always succeeds; every patch dispatched under the old keys is on the
    channel before the first instruction it queues, and nothing the feed dispatches
    comes after; each row subscription it reaches is resent or refused and each
    computed one computed again; and every route its subscriptions had that is left
    filters for the new caller. *)
Theorem keys_swapped (w : World) v reached permit :
  exists w' before after,
    swap_keys v reached permit w = (Ok tt, w') /\
    channel w' = channel w ++ before ++ after /\
    Forall (fun o => dispatched o = false) after /\
    (forall label, label ∈ reached.1 -> Exists (resends label) after) /\
    (forall label c, label ∈ reached.2 -> computed_subs w !! label = Some c ->
       Exists (recomputes label (cs_id c)) after) /\
    viewer w' = v /\ gated w' = false /\
    (forall label row r, subs w !! label = Some row ->
       routes w' !! rg_consumer (rs_reg row) = Some r -> rt_viewer r = v).
Proof.
  destruct (await_eq w) as (before & e & _ & Eb).
  set (wg := with_viewer v (with_gate true (with_env before e w))).
  pose proof (gate_shut (routes wg) (computed_routes wg) (env wg)) as Hg.
  destruct (meanwhile_gated (routes wg) (computed_routes wg) (env wg)) as [l1 e1] eqn:Eg.
  set (w1 := with_routes (reroute v (subs w) (routes w)) (with_env l1 e1 wg)).
  set (H := fun c => exists label row, subs w !! label = Some row /\ rg_consumer (rs_reg row) = c).
  assert (under (channel w ++ before) v H w1) as U1.
  { split; try done; [|by exists l1]. simpl. intros c r Hr (label & row & Hs & Hc). by eapply reroute_spec. }
  destruct (resend_rows_told _ _ _ reached.1 permit w1 U1) as (w2 & E2 & U2 & _ & C2 & T2).
  destruct (resend_computed_told _ _ _ reached.2 w2 U2) as (w3 & E3 & U3 & [l3 G3] & T3).
  destruct (u_since _ _ _ _ U3) as (after & Ha & Hf).
  exists (with_gate false w3), before, after.
  assert (forall f, told (channel w ++ before) f w3 -> Exists f after) as Ht.
  { intros f (after' & Ha' & He). rewrite Ha in Ha'. by simplify_list_eq. }
  split_and!.
  - unfold swap_keys, dbind. rewrite Eb. simpl. unfold await at 1. simpl.
    change (with_viewer v (with_gate true (with_env before e w))) with wg. simpl.
    unfold wg in Eg. simpl in Eg. rewrite Eg. unfold dmod. simpl. fold wg.
    change (with_routes (reroute v (subs w) (routes w)) (with_env l1 e1 wg)) with w1.
    by rewrite E2, E3.
  - simpl. by rewrite Ha, <- app_assoc.
  - done.
  - intros label Hl. apply Ht. eapply told_grows; [by exists l3|]. by apply T2.
  - intros label c Hl Hc. apply Ht. apply T3; [done|]. by rewrite C2.
  - apply (u_viewer _ _ _ _ U3).
  - done.
  - intros label row r Hs Hr. apply (u_routes _ _ _ _ U3 _ _ Hr). by exists label, row.
Qed.
End Rekey.
