(* ===== verification/FileTables.v ===== *)
(** The file server's tables and chunk store: connetto-file-server/src/schema.rs
    and store/.

    A manifest names the chunks of one upload of a file, keyed by the file's id and
    the uploader's key; the registry holds one row per chunk hash with its state;
    the chunk store maps hashes to bytes. One definition per statement of the
    schema, under the schema's names, and the store's operations. Rows of
    [manifest_chunks] are keyed by their position, which numbers them from zero
    for each manifest, so they are kept as a list; a foreign key ties them to
    their manifest and cascades. [INSERT .. ON CONFLICT DO NOTHING] keeps the
    row that is there. The deployment's own tables, behind the two functions it
    installs, are the class [ContentDeployment]. *)

From Stdlib Require Import ZArith Lia Ascii.
From stdpp Require Import base list numbers option strings gmap fin_maps fin_map_dom sorting.
From S2P Require Import Prelude Throttle Guard Caller.

Open Scope Z_scope.

(** BLAKE3, of which the code uses the digest of a byte string. *)
Class Blake3 := { blake3 : bytes -> bytes }.

(** Two contents under one digest. *)
Definition blake3_collision `{Blake3} : Prop := exists a b, a <> b /\ blake3 a = blake3 b.

(** What a deployment installs: the visibility of files to the caller a
    transaction has bound, and the setter of a file's state, which may raise. *)
Class ContentDeployment := {
  App : Type;
  connetto_visible_files : App -> list (string * string) -> list bytes -> list bytes;
  connetto_set_content_state : bytes -> string -> string -> App -> option App;
}.

(** ** Rows *)

Abbreviation ManifestKey := (bytes * string)%type.

Record ManifestRow := {
  total_len : Z; accepted_bytes : Z; committed : bool; created_at : Z; lost : bool }.

Record ChunkRow := { chunk_hash : bytes; chunk_len : Z; stored : bool }.

Inductive ChunkState := Pending | Stored | Deleting.

#[export] Instance ChunkState_eq_dec : EqDecision ChunkState.
Proof. solve_decision. Defined.

Section Tables.
Context {CD : ContentDeployment}.

Record FileDb := {
  manifests : gmap ManifestKey ManifestRow;
  manifest_chunks : gmap ManifestKey (list ChunkRow);
  chunk_registry : gmap bytes ChunkState;
  (** Served and accepted bytes by UTC day. *)
  traffic : gmap Z (Z * Z);
  app : App;
}.

Definition with_manifests (m : gmap ManifestKey ManifestRow) (db : FileDb) : FileDb := {|
  manifests := m; manifest_chunks := manifest_chunks db; chunk_registry := chunk_registry db;
  traffic := traffic db; app := app db |}.
Definition with_chunks (m : gmap ManifestKey (list ChunkRow)) (db : FileDb) : FileDb := {|
  manifests := manifests db; manifest_chunks := m; chunk_registry := chunk_registry db;
  traffic := traffic db; app := app db |}.
Definition with_registry (m : gmap bytes ChunkState) (db : FileDb) : FileDb := {|
  manifests := manifests db; manifest_chunks := manifest_chunks db; chunk_registry := m;
  traffic := traffic db; app := app db |}.
Definition with_traffic (m : gmap Z (Z * Z)) (db : FileDb) : FileDb := {|
  manifests := manifests db; manifest_chunks := manifest_chunks db;
  chunk_registry := chunk_registry db; traffic := m; app := app db |}.
Definition with_app (a : App) (db : FileDb) : FileDb := {|
  manifests := manifests db; manifest_chunks := manifest_chunks db;
  chunk_registry := chunk_registry db; traffic := traffic db; app := a |}.

(** The rows of a manifest, by position. *)
Definition manifest_rows (k : ManifestKey) (db : FileDb) : list ChunkRow :=
  default [] (manifest_chunks db !! k).

Definition names (h : bytes) (rows : list ChunkRow) : bool :=
  bool_decide (h ∈ chunk_hash <$> rows).

(** Whether any row references the hash. *)
Definition referenced (h : bytes) (db : FileDb) : bool :=
  existsb (fun p => names h p.2) (map_to_list (manifest_chunks db)).

(** ** Declaring an upload *)

Definition insert_registry_pending_batch_stmt (hashes : list bytes) (db : FileDb) : FileDb :=
  with_registry (chunk_registry db ∪ gset_to_gmap Pending (list_to_set hashes)) db.

(** The rows named, each locked until the transaction ends. *)
Definition lock_registry_rows_stmt (hashes : list bytes) (db : FileDb) : list (bytes * ChunkState) :=
  omap (fun h => (fun s => (h, s)) <$> chunk_registry db !! h) hashes.

Definition insert_manifest_stmt (k : ManifestKey) (total now : Z) (db : FileDb) : nat * FileDb :=
  match manifests db !! k with
  | Some _ => (0%nat, db)
  | None =>
      (1%nat, with_manifests (<[k := {| total_len := total; accepted_bytes := 0; committed := false;
                                        created_at := now; lost := false |}]> (manifests db)) db)
  end.

(** [rows] are numbered from zero, so those past the rows already there are new. *)
Definition insert_chunk_rows_batch_stmt (k : ManifestKey) (rows : list (bytes * Z)) (db : FileDb) : FileDb :=
  let old := manifest_rows k db in
  let new := (fun r => {| chunk_hash := r.1; chunk_len := r.2; stored := false |}) <$> rows in
  with_chunks (<[k := old ++ drop (length old) new]> (manifest_chunks db)) db.

(** ** Storing chunks *)

Definition set_stored (b : bool) (r : ChunkRow) : ChunkRow :=
  {| chunk_hash := chunk_hash r; chunk_len := chunk_len r; stored := b |}.

(** [UPDATE .. SET stored = b] on the rows [p] picks. *)
Definition update_stored (b : bool) (p : ChunkRow -> bool) (rows : list ChunkRow) : list ChunkRow :=
  (fun r => if p r then set_stored b r else r) <$> rows.

Definition unstored_chunk (h : bytes) (len : Z) (r : ChunkRow) : bool :=
  bool_decide (chunk_hash r = h) && bool_decide (chunk_len r = len) && negb (stored r).

Definition mark_chunk_stored_stmt (k : ManifestKey) (h : bytes) (len : Z) (db : FileDb) : nat * FileDb :=
  (length (filter (fun r => unstored_chunk h len r = true) (manifest_rows k db)),
   with_chunks (alter (update_stored true (unstored_chunk h len)) k (manifest_chunks db)) db).

Definition with_accepted (n : Z) (m : ManifestRow) : ManifestRow := {|
  total_len := total_len m; accepted_bytes := n; committed := committed m;
  created_at := created_at m; lost := lost m |}.

Definition tally_bytes_stmt (k : ManifestKey) (len allowed : Z) (db : FileDb) : nat * FileDb :=
  match manifests db !! k with
  | Some m =>
      if decide (accepted_bytes m <= allowed) then
        (1%nat, with_manifests (<[k := with_accepted (accepted_bytes m + len) m]> (manifests db)) db)
      else (0%nat, db)
  | None => (0%nat, db)
  end.

Definition mark_registry_stored_stmt (h : bytes) (db : FileDb) : FileDb :=
  with_registry (alter (fun s => if decide (s = Pending) then Stored else s) h (chunk_registry db)) db.

(** ** Committing *)

Definition lock_manifest_row_stmt (k : ManifestKey) (db : FileDb) : option bool :=
  committed <$> manifests db !! k.

Definition with_standing (c l : bool) (m : ManifestRow) : ManifestRow := {|
  total_len := total_len m; accepted_bytes := accepted_bytes m; committed := c;
  created_at := created_at m; lost := l |}.

Definition mark_manifest_committed_stmt (k : ManifestKey) (db : FileDb) : nat * FileDb :=
  match manifests db !! k with
  | Some m =>
      if committed m then (0%nat, db)
      else (1%nat, with_manifests (<[k := with_standing true (lost m) m]> (manifests db)) db)
  | None => (0%nat, db)
  end.

Definition all_unstored_chunk_hashes_stmt (k : ManifestKey) (db : FileDb) : list bytes :=
  chunk_hash <$> filter (fun r => stored r = false) (manifest_rows k db).

(** The committed manifests of a file, and the first uploader in order. *)
Definition committed_callers (file : bytes) (db : FileDb) : list string :=
  omap (fun p => if bool_decide (p.1.1 = file) && committed p.2 then Some p.1.2 else None)
    (map_to_list (manifests db)).

Definition any_committed_manifest_caller_stmt (file : bytes) (db : FileDb) : option string :=
  head (merge_sort string_le (committed_callers file db)).

(** ** Lost files *)

Definition lost_manifest_callers_stmt (file : bytes) (db : FileDb) : list string :=
  omap (fun p => if bool_decide (p.1.1 = file) && lost p.2 then Some p.1.2 else None)
    (map_to_list (manifests db)).

Definition is_lost (k : ManifestKey) (db : FileDb) : bool :=
  match manifests db !! k with Some m => lost m | None => false end.

Definition restore_lost_chunks_stmt (file : bytes) (db : FileDb) : FileDb :=
  with_chunks (map_imap (fun k rows => Some (
    if bool_decide (k.1 = file) && is_lost k db then update_stored true (fun _ => true) rows else rows))
    (manifest_chunks db)) db.

Definition restore_lost_manifests_stmt (file : bytes) (db : FileDb) : list string * FileDb :=
  (lost_manifest_callers_stmt file db,
   with_manifests (map_imap (fun k m => Some (
     if bool_decide (k.1 = file) && lost m then with_standing true false m else m))
     (manifests db)) db).

Definition delete_manifest_chunks_stmt (k : ManifestKey) (db : FileDb) : FileDb :=
  with_chunks (delete k (manifest_chunks db)) db.

Definition delete_manifest_stmt (k : ManifestKey) (db : FileDb) : FileDb :=
  with_chunks (delete k (manifest_chunks db)) (with_manifests (delete k (manifests db)) db).

Definition stored_rows_naming_stmt (hashes : list bytes) (db : FileDb) : list (ManifestKey * Z) :=
  map_to_list (manifest_chunks db) ≫= fun p =>
    match manifests db !! p.1 with
    | Some m =>
        if committed m || lost m then
          (fun r => (p.1, chunk_len r)) <$> filter (fun r => stored r = true /\ chunk_hash r ∈ hashes) p.2
        else []
    | None => []
    end.

Definition mark_manifest_lost_stmt (k : ManifestKey) (missing : Z) (db : FileDb) : nat * FileDb :=
  match manifests db !! k with
  | Some m =>
      if lost m then (0%nat, db)
      else (1%nat, with_manifests (<[k := with_accepted (accepted_bytes m - missing)
                                            (with_standing false true m)]> (manifests db)) db)
  | None => (0%nat, db)
  end.

Definition among (hashes : list bytes) (r : ChunkRow) : bool := bool_decide (chunk_hash r ∈ hashes).

Definition unstore_manifest_chunks_stmt (k : ManifestKey) (hashes : list bytes) (db : FileDb) : FileDb :=
  with_chunks (alter (update_stored false (among hashes)) k (manifest_chunks db)) db.

Definition unstore_chunks_stmt (hashes : list bytes) (db : FileDb) : FileDb :=
  with_chunks (update_stored false (among hashes) <$> manifest_chunks db) db.

Definition mark_registry_pending_stmt (hashes : list bytes) (db : FileDb) : FileDb :=
  with_registry (map_imap (fun h s => Some (
    if bool_decide (h ∈ hashes) && bool_decide (s = Stored) then Pending else s)) (chunk_registry db)) db.

(** ** Collecting *)

(** A row of the hash whose manifest is committed or was declared within the
    grace. *)
Definition surviving (cutoff : Z) (h : bytes) (db : FileDb) : bool :=
  existsb (fun p => names h p.2 &&
    match manifests db !! p.1 with
    | Some m => committed m || bool_decide (cutoff <= created_at m)
    | None => false
    end) (map_to_list (manifest_chunks db)).

Definition lock_sweep_rows_stmt (grace now : Z) (db : FileDb) : list bytes :=
  omap (fun p => if bool_decide (p.2 <> Deleting) && negb (surviving (now - grace) p.1 db)
                 then Some p.1 else None) (map_to_list (chunk_registry db)).

Definition stale (cutoff : Z) (m : ManifestRow) : bool :=
  negb (committed m) && negb (lost m) && bool_decide (created_at m < cutoff).

(** The chunk rows follow their manifest through the cascade. *)
Definition delete_orphaned_stmt (grace now : Z) (db : FileDb) : list bytes * FileDb :=
  let gone := filter (fun p => stale (now - grace) p.2 = true) (manifests db) in
  let kept := filter (fun p => stale (now - grace) p.2 = false) (manifests db) in
  ((fun p => p.1.1) <$> map_to_list gone,
   with_chunks (filter (fun p => gone !! p.1 = None) (manifest_chunks db)) (with_manifests kept db)).

Definition mark_unreferenced_deleting_stmt (hashes : list bytes) (db : FileDb) : FileDb :=
  with_registry (map_imap (fun h s => Some (
    if bool_decide (h ∈ hashes) && bool_decide (s <> Deleting) && negb (referenced h db)
    then Deleting else s)) (chunk_registry db)) db.

Definition list_deleting_hashes (db : FileDb) : list bytes :=
  omap (fun p => if bool_decide (p.2 = Deleting) then Some p.1 else None) (map_to_list (chunk_registry db)).

Definition delete_registry_row_stmt (h : bytes) (db : FileDb) : FileDb :=
  with_registry (delete h (chunk_registry db)) db.

Definition claim_orphan_stmt (h : bytes) (db : FileDb) : nat * FileDb :=
  match chunk_registry db !! h with
  | Some _ => (0%nat, db)
  | None => (1%nat, with_registry (<[h := Deleting]> (chunk_registry db)) db)
  end.
End Tables.

(** ** The chunk store: store/fs.rs and store/object.rs *)

(** A custom backend is a deployment's own code. *)
Inductive AnyStore := Fs | Object.

(** What is held under a hash, and when it was written. *)
Record StoredChunk := { data : bytes; modified : Z }.

Abbreviation ChunkMap := (gmap bytes StoredChunk).

(** A directory keeps the file already under the name; an object store puts
    over it. *)
Definition write_chunk (backend : AnyStore) (h d : bytes) (now : Z) (s : ChunkMap) : ChunkMap :=
  match backend, s !! h with
  | Fs, Some _ => s
  | _, _ => <[h := {| data := d; modified := now |}]> s
  end.

Definition read_chunk (h : bytes) (s : ChunkMap) : option bytes := data <$> s !! h.

Definition has_chunk (h : bytes) (s : ChunkMap) : bool := bool_decide (is_Some (s !! h)).

(** A missing chunk is not an error. *)
Definition delete_chunk (h : bytes) (s : ChunkMap) : ChunkMap := delete h s.
