(* ===== verification/FileCore.v ===== *)
(** Files as chunks: crates/connetto-file-core (params.rs, identity.rs, manifest.rs,
    process.rs, store.rs, mem.rs, encrypt.rs).

    A file is read once, cut into chunks that go to a chunk store under their
    digests, and described by a manifest. The chunk store is an interface,
    [ChunkStore] with its laws [StoreLaws]; the store in memory and the encrypting
    decorator over any store are instances. A reader answers each call with the
    bytes it has at hand, or an error. The chunker, the cipher and the compressor
    are the classes [Fastcdc], [Aead] and [Zstd]. *)

From Stdlib Require Import ZArith Lia.
From stdpp Require Import base list numbers option strings gmap.
From S2P Require Import Prelude Throttle FileTables.

Open Scope Z_scope.

(** ** Parameters *)

Record ChunkParams := { avg : Z; min : Z; max : Z; skip_compression : bool }.

Inductive MimeClass := Fasta | Mgf | Csv | Json | Jpeg | Png | Video | Gzip | Zip | Generic.

Definition TEXT_PARAMS : ChunkParams :=
  {| avg := 1048576; min := 262144; max := 4194304; skip_compression := false |}.

Definition MEDIA_PARAMS : ChunkParams := {| avg := 0; min := 0; max := 16777216; skip_compression := true |}.

Definition params (mime : MimeClass) : ChunkParams :=
  match mime with
  | Fasta | Mgf | Csv | Json | Generic => TEXT_PARAMS
  | Jpeg | Png | Video | Gzip | Zip => MEDIA_PARAMS
  end.

(** A manifest: the file's id and its chunks in order, each a digest and a length. *)
Record Manifest := { file_id : bytes; manifest_metas : list (bytes * Z) }.

(** ** Stores *)

Class ChunkStore (St E : Type) := {
  cs_write : bytes -> bytes -> St -> Result unit E * St;
  cs_read : bytes -> St -> Result bytes E;
  cs_has : bytes -> St -> Result bool E;
  cs_delete : bytes -> St -> Result unit E * St;
  read_failure_is_ambiguous : E -> bool;
}.

(** What is written is read back, and other chunks are not touched. *)
Class StoreLaws (St E : Type) {CS : ChunkStore St E} : Prop := {
  read_written h d s s' : cs_write h d s = (Ok tt, s') -> cs_read h s' = Ok d;
  read_other h h' d s s' : cs_write h d s = (Ok tt, s') -> h' <> h -> cs_read h' s' = cs_read h' s;
}.

Inductive MemStoreError := Absent (hash : bytes).

#[export] Instance MemStore : ChunkStore (gmap bytes bytes) MemStoreError := {|
  cs_write h d s := (Ok tt, <[h := d]> s);
  cs_read h s := ok_or (s !! h) (Absent h);
  cs_has h s := Ok (bool_decide (is_Some (s !! h)));
  cs_delete h s := (Ok tt, delete h s);
  read_failure_is_ambiguous _ := false |}.

#[export] Instance MemStore_laws : StoreLaws (gmap bytes bytes) MemStoreError.
Proof.
  split.
  - intros h d s s' [= <-]. simpl. by rewrite lookup_insert_eq.
  - intros h h' d s s' [= <-] Hn. simpl. by rewrite lookup_insert_ne by done.
Qed.

(** XChaCha20-Poly1305, the key derivation of BLAKE3, and zstd. *)
Class Aead := {
  derive_key : string -> bytes -> bytes;
  seal : bytes -> bytes -> bytes -> bytes -> option bytes;
  open_sealed : bytes -> bytes -> bytes -> bytes -> option bytes;
  open_seal key nonce aad msg ct :
    seal key nonce aad msg = Some ct ->
    open_sealed key nonce aad ct = Some msg /\ length ct = (length msg + 16)%nat;
}.

Class Zstd := {
  encode_all : bytes -> option bytes;
  decode_all : bytes -> option bytes;
  decode_back d c : encode_all d = Some c -> decode_all c = Some d;
}.

Inductive EncryptStoreError (E : Type) :=
| ENonce | EEncrypt | EDecrypt | ECompress | EDecompress | EBadFormat | EInner (e : E).
Arguments ENonce {E}.
Arguments EEncrypt {E}.
Arguments EDecrypt {E}.
Arguments ECompress {E}.
Arguments EDecompress {E}.
Arguments EBadFormat {E}.
Arguments EInner {E} e.

Definition PURPOSE_LABEL : string := "connetto-file-core 2026-09-02 chunk encryption key".
Definition NONCE_LEN : nat := 24.
Definition FLAG_COMPRESSED : Z := 1.
Definition FLAG_RAW : Z := 0.

(** [es_draws] is what the system's entropy will answer. *)
Record EncryptingStore (St : Type) := {
  es_inner : St; es_key : bytes; es_skip : bool; es_draws : list (option bytes) }.
Arguments es_inner {St} _.
Arguments es_key {St} _.
Arguments es_skip {St} _.
Arguments es_draws {St} _.

Section Encrypt.
Context {AE : Aead} {ZS : Zstd} {St E : Type} {CS : ChunkStore St E}.

Definition new_with (inner : St) (root_key : bytes) (skip : bool) (draws : list (option bytes)) : EncryptingStore St :=
  {| es_inner := inner; es_key := derive_key PURPOSE_LABEL root_key; es_skip := skip; es_draws := draws |}.

Definition compress_payload (d : bytes) (skip : bool) : option (Z * bytes) :=
  if skip then Some (FLAG_RAW, d)
  else
    c ← encode_all d;
    if decide (length c < length d)%nat then Some (FLAG_COMPRESSED, c) else Some (FLAG_RAW, d).

(** A buffer of zeros the drawn bytes are written over. *)
Definition fresh_nonce (draw : option bytes) : option bytes :=
  (fun b => firstn NONCE_LEN (b ++ repeat 0 NONCE_LEN)) <$> draw.

Definition encrypt_chunk (h d key : bytes) (skip : bool) (draw : option bytes) : Result bytes (EncryptStoreError E) :=
  '(flag, payload) <-? ok_or (compress_payload d skip) ECompress ;;
  nonce <-? ok_or (fresh_nonce draw) ENonce ;;
  ct <-? ok_or (seal key nonce h (flag :: payload)) EEncrypt ;;
  Ok (nonce ++ ct).

Definition decrypt_chunk (h stored key : bytes) : Result bytes (EncryptStoreError E) :=
  if decide (length stored < NONCE_LEN + 17)%nat then Err EBadFormat
  else
    flagged <-? ok_or (open_sealed key (firstn NONCE_LEN stored) h (skipn NONCE_LEN stored)) EDecrypt ;;
    match flagged with
    | [] => Err EBadFormat
    | flag :: payload =>
        if decide (flag = FLAG_COMPRESSED) then ok_or (decode_all payload) EDecompress
        else if decide (flag = FLAG_RAW) then Ok payload else Err EBadFormat
    end.

Definition with_inner (inner : St) (s : EncryptingStore St) : EncryptingStore St :=
  {| es_inner := inner; es_key := es_key s; es_skip := es_skip s; es_draws := es_draws s |}.

(** The draw is spent whatever becomes of the chunk; entropy that ran out fails. *)
Definition encrypted_write (h d : bytes) (s : EncryptingStore St) :
    Result unit (EncryptStoreError E) * EncryptingStore St :=
  let s' := {| es_inner := es_inner s; es_key := es_key s; es_skip := es_skip s; es_draws := tail (es_draws s) |} in
  match encrypt_chunk h d (es_key s) (es_skip s) (head (es_draws s) ≫= id) with
  | Err e => (Err e, s')
  | Ok stored =>
      let '(r, inner) := cs_write h stored (es_inner s) in (map_err EInner r, with_inner inner s')
  end.

Definition encrypted_read (h : bytes) (s : EncryptingStore St) : Result bytes (EncryptStoreError E) :=
  stored <-? map_err EInner (cs_read h (es_inner s)) ;; decrypt_chunk h stored (es_key s).

#[export] Instance Encrypting : ChunkStore (EncryptingStore St) (EncryptStoreError E) := {|
  cs_write := encrypted_write;
  cs_read := encrypted_read;
  cs_has h s := map_err EInner (cs_has h (es_inner s));
  cs_delete h s := let '(r, inner) := cs_delete h (es_inner s) in (map_err EInner r, with_inner inner s);
  read_failure_is_ambiguous e := match e with EInner e => read_failure_is_ambiguous e | _ => false end |}.

Lemma compress_payload_spec d skip flag payload :
  compress_payload d skip = Some (flag, payload) ->
  flag = FLAG_RAW /\ payload = d \/ flag = FLAG_COMPRESSED /\ decode_all payload = Some d.
Proof.
  unfold compress_payload. destruct skip; [intros [= <- <-]; by left|].
  destruct (encode_all d) as [c|] eqn:Ec; simpl; [|done]. case_decide; intros [= <- <-]; [|by left].
  right. split; [done|]. by apply decode_back.
Qed.

Lemma fresh_nonce_length draw nonce : fresh_nonce draw = Some nonce -> length nonce = NONCE_LEN.
Proof.
  unfold fresh_nonce. destruct draw as [b|]; [|done]. intros Hn.
  assert (firstn NONCE_LEN (b ++ repeat 0 NONCE_LEN) = nonce) as <- by (by apply (inj Some)).
  rewrite length_firstn, length_app, repeat_length. lia.
Qed.

(** What is encrypted under a digest is decrypted under it. *)
Lemma decrypt_encrypt h d key skip draw stored :
  encrypt_chunk h d key skip draw = Ok stored -> decrypt_chunk h stored key = Ok d.
Proof.
  unfold encrypt_chunk. rewrite rbind_Ok. intros ([flag payload] & Hc%ok_or_Ok & H). rewrite rbind_Ok in H.
  destruct H as (nonce & Hn%ok_or_Ok & H). rewrite rbind_Ok in H. destruct H as (ct & Hs%ok_or_Ok & [= <-]).
  apply fresh_nonce_length in Hn. destruct (open_seal _ _ _ _ _ Hs) as [Ho Hl]. simpl in Hl.
  unfold decrypt_chunk. rewrite length_app, Hn, decide_False by lia.
  rewrite <- Hn at 1 2. rewrite take_app_length, drop_app_length, Ho. simpl.
  destruct (compress_payload_spec _ _ _ _ Hc) as [[-> ->]|[-> Hd]].
  - unfold FLAG_RAW, FLAG_COMPRESSED. by rewrite decide_False, decide_True by done.
  - by rewrite decide_True, Hd by done.
Qed.

Context {SL : StoreLaws St E}.

#[export] Instance Encrypting_laws : StoreLaws (EncryptingStore St) (EncryptStoreError E).
Proof.
  split; intros h.
  - intros d s s'. simpl. unfold encrypted_write, encrypted_read.
    destruct (encrypt_chunk _ _ _ _ _) as [stored|e] eqn:Ee; [|done].
    destruct (cs_write h stored (es_inner s)) as [r inner] eqn:Ew. destruct r as [[]|e]; [|done].
    intros [= <-]. simpl. rewrite (read_written _ _ _ _ Ew). simpl. by eapply decrypt_encrypt.
  - intros h' d s s'. simpl. unfold encrypted_write, encrypted_read.
    destruct (encrypt_chunk _ _ _ _ _) as [stored|e] eqn:Ee; [|done].
    destruct (cs_write h stored (es_inner s)) as [r inner] eqn:Ew. destruct r as [[]|e]; [|done].
    intros [= <-] Hn. simpl. by rewrite (read_other _ _ _ _ _ Ew Hn).
Qed.
End Encrypt.

(** ** Reading *)

Inductive ReadError := Io (kind : Z).

(** What a reader will answer, call by call. *)
Definition Reader : Type := list (Result bytes ReadError).

(** [Read::read] into a buffer of [k] bytes. *)
Definition read (k : nat) (r : Reader) : Result bytes ReadError * Reader :=
  match r with
  | [] => (Ok [], [])
  | Err e :: r' => (Err e, r')
  | Ok b :: r' => (Ok (firstn k b), if decide (length b <= k)%nat then r' else Ok (skipn k b) :: r')
  end.

(** What is left to read, which bounds the loops below. *)
Definition left_over (r : Reader) : nat :=
  foldr (fun b n => match b with Ok d => S (length d) + n | Err _ => S n end)%nat 0%nat r.

Fixpoint fill_prefix (fuel : nat) (limit : Z) (buf : bytes) (r : Reader) : Result bytes ReadError * Reader :=
  match fuel with
  | O => (Ok buf, r)
  | S fuel' =>
      if decide (Z.of_nat (length buf) < limit) then
        match read (Z.to_nat (Z.min (limit - Z.of_nat (length buf)) 8192)) r with
        | (Err e, r) => (Err e, r)
        | (Ok [], r) => (Ok buf, r)
        | (Ok d, r) => fill_prefix fuel' limit (buf ++ d) r
        end
      else (Ok buf, r)
  end.

Definition read_prefix (limit : Z) (r : Reader) : Result bytes ReadError * Reader :=
  fill_prefix (S (left_over r)) limit [] r.

(** A reader that has nothing only at its end, and the bytes it holds. *)
Definition steady (r : Reader) : Prop := Forall (fun b => b <> Ok []) r.

Fixpoint stream (r : Reader) : Result bytes ReadError :=
  match r with
  | [] => Ok []
  | Err e :: _ => Err e
  | Ok b :: r' => rest <-? stream r' ;; Ok (b ++ rest)
  end.

(** The chunker: the pieces it cuts a stream into, up to the first error. They
    cover the stream, and none is above the size asked for. *)
Class Fastcdc := {
  stream_cdc : Z -> Z -> Z -> Reader -> list (Result bytes ReadError);
  cdc_covers lo av hi r ds : steady r -> stream_cdc lo av hi r = Ok <$> ds -> stream r = Ok (concat ds);
  cdc_whole lo av hi r content :
    steady r -> stream r = Ok content -> exists ds, stream_cdc lo av hi r = Ok <$> ds;
  cdc_max lo av hi r d : 0 < hi -> Ok d ∈ stream_cdc lo av hi r -> Z.of_nat (length d) <= hi;
}.

(** ** Processing a file *)

Inductive ProcessError (E : Type) := PRead (e : ReadError) | PStore (e : E).
Arguments PRead {E} e.
Arguments PStore {E} e.

(** The bytes hashed and the chunks recorded so far. *)
Record Pass := { hashed : bytes; metas : list (bytes * Z) }.

Section Process.
Context {BL : Blake3} {FC : Fastcdc} {St E : Type} {CS : ChunkStore St E}.

Definition store_chunk (d : bytes) (p : Pass) (s : St) : Result Pass (ProcessError E) * St :=
  match cs_write (blake3 d) d s with
  | (Ok _, s) => (Ok {| hashed := hashed p ++ d; metas := metas p ++ [(blake3 d, Z.of_nat (length d))] |}, s)
  | (Err e, s) => (Err (PStore e), s)
  end.

Fixpoint stream_slabs (fuel : nat) (slab_size : Z) (r : Reader) (p : Pass) (s : St) :
    Result Pass (ProcessError E) * St :=
  match fuel with
  | O => (Ok p, s)
  | S fuel' =>
      match read_prefix slab_size r with
      | (Err e, _) => (Err (PRead e), s)
      | (Ok [], _) => (Ok p, s)
      | (Ok slab, r) =>
          match store_chunk slab p s with
          | (Ok p, s) => stream_slabs fuel' slab_size r p s
          | (Err e, s) => (Err e, s)
          end
      end
  end.

Fixpoint stream_cdc_chunks (items : list (Result bytes ReadError)) (p : Pass) (s : St) :
    Result Pass (ProcessError E) * St :=
  match items with
  | [] => (Ok p, s)
  | Err e :: _ => (Err (PRead e), s)
  | Ok d :: items' =>
      match store_chunk d p s with
      | (Ok p, s) => stream_cdc_chunks items' p s
      | (Err e, s) => (Err e, s)
      end
  end.

(** [Cursor::chain]: the bytes at hand, then the reader. *)
Definition chain (d : bytes) (r : Reader) : Reader := match d with [] => r | _ => Ok d :: r end.

Definition process_file_from_reader (r : Reader) (mime : MimeClass) (s : St) :
    Result Manifest (ProcessError E) * St :=
  let p := params mime in
  let start := {| hashed := []; metas := [] |} in
  match read_prefix (max p + 1) r with
  | (Err e, _) => (Err (PRead e), s)
  | (Ok buf, rest) =>
      let '(done, s) :=
        if decide (Z.of_nat (length buf) <= max p) then store_chunk buf start s
        else
          let tail := skipn (Z.to_nat (max p)) buf in
          let buf := firstn (Z.to_nat (max p)) buf in
          if decide (avg p = 0) then
            match store_chunk buf start s with
            | (Ok q, s) =>
                let rest := chain tail rest in stream_slabs (S (left_over rest)) (max p) rest q s
            | e => e
            end
          else stream_cdc_chunks (stream_cdc (min p) (avg p) (max p) (chain buf (chain tail rest))) start s in
      match done with
      | Ok q => (Ok {| file_id := blake3 (hashed q); manifest_metas := metas q |}, s)
      | Err e => (Err e, s)
      end
  end.

Definition process_file (d : bytes) (mime : MimeClass) (s : St) : Result Manifest (ProcessError E) * St :=
  process_file_from_reader (chain d []) mime s.

Definition reassemble (m : Manifest) (s : St) : Result bytes E :=
  ds <-? try_map (fun c => cs_read c.1 s) (manifest_metas m) ;; Ok (concat ds).
End Process.

Section Cut.
Context {BL : Blake3} {FC : Fastcdc}.

Lemma read_steady (k : nat) r :
  (0 < k)%nat -> steady r ->
  match read k r with
  | (Err e, _) => stream r = Err e
  | (Ok d, r') =>
      steady r' /\ (length d <= k)%nat /\ stream r = (x <-? stream r' ;; Ok (d ++ x)) /\
      (d = [] -> r = [] /\ r' = []) /\ (d <> [] -> (left_over r' < left_over r)%nat)
  end.
Proof.
  intros Hk Hs. destruct r as [|[b|e] r]; simpl; [split_and!; (done || lia)| |done].
  apply Forall_cons in Hs as [Hb Hs]. assert (b <> []) as Hne by congruence.
  assert (firstn k b <> []) as Hf by (destruct b; [done|]; destruct k; [lia|done]).
  case_decide as Hl.
  - rewrite firstn_all2 by lia. split_and!; (done || lia).
  - split_and!; try done.
    + constructor; [|done]. intros [= He]. apply Hl. apply (f_equal length) in He. rewrite length_skipn in He. simpl in He. lia.
    + rewrite length_firstn. lia.
    + simpl. destruct (stream r); simpl; [|done]. rewrite app_assoc, firstn_skipn. done.
    + simpl. rewrite length_skipn. destruct b; [done|]. simpl. destruct k; simpl; lia.
Qed.

(** The buffer is filled to the limit unless the reader ends first. *)
Lemma fill_prefix_spec fuel limit buf r :
  (left_over r < fuel)%nat -> steady r -> Z.of_nat (length buf) <= limit ->
  match fill_prefix fuel limit buf r with
  | (Err e, _) => stream r = Err e
  | (Ok d, r') =>
      exists x, d = buf ++ x /\ steady r' /\ Z.of_nat (length d) <= limit /\ (left_over r' <= left_over r)%nat /\
        (x <> [] -> (left_over r' < left_over r)%nat) /\
        stream r = (y <-? stream r' ;; Ok (x ++ y)) /\ (Z.of_nat (length d) < limit -> r' = [])
  end.
Proof.
  revert buf r. induction fuel as [|fuel IH]; intros buf r Hf Hs Hl; [lia|]. simpl.
  case_decide as Hlt.
  2:{ exists []. rewrite app_nil_r. split_and!; try done; by destruct (stream r). }
  pose proof (read_steady (Z.to_nat (Z.min (limit - Z.of_nat (length buf)) 8192)) r) as H.
  destruct (read _ r) as [[d|e] r']; [|by apply H; [lia|]].
  destruct H as (Hs' & Hk & Hst & Hnil & Hdec); [lia|done|].
  destruct d as [|c d]; [|set (cd := c :: d) in *].
  - destruct (Hnil eq_refl) as [-> ->]. exists []. rewrite app_nil_r. split_and!; try done; lia.
  - assert (left_over r' < left_over r)%nat as Hd by (by apply Hdec).
    specialize (IH (buf ++ cd) r' ltac:(lia) Hs'). rewrite length_app in IH. specialize (IH ltac:(lia)).
    destruct (fill_prefix fuel limit (buf ++ cd) r') as [[x|e] r'']; [|by rewrite Hst, IH].
    destruct IH as (y & -> & H1 & H2 & H3 & _ & H4 & H5). exists (cd ++ y). rewrite app_assoc.
    split_and!; try done; [lia|lia|]. rewrite Hst, H4. destruct (stream r''); simpl; [|done]. by rewrite !app_assoc.
Qed.

Lemma read_prefix_spec limit r :
  0 <= limit -> steady r ->
  match read_prefix limit r with
  | (Err e, _) => stream r = Err e
  | (Ok d, r') =>
      steady r' /\ Z.of_nat (length d) <= limit /\ (left_over r' <= left_over r)%nat /\
      (d <> [] -> (left_over r' < left_over r)%nat) /\
      stream r = (y <-? stream r' ;; Ok (d ++ y)) /\ (Z.of_nat (length d) < limit -> r' = [])
  end.
Proof.
  intros Hl Hs. unfold read_prefix. pose proof (fill_prefix_spec (S (left_over r)) limit [] r ltac:(lia) Hs Hl) as H.
  destruct (fill_prefix _ _ _ _) as [[d|e] r']; [|done]. destruct H as (x & -> & H). done.
Qed.
End Cut.

(** ** A processed file *)

Section Processed.
Context {BL : Blake3} {FC : Fastcdc} {St E : Type} {CS : ChunkStore St E} {SL : StoreLaws St E}.

Implicit Types (ds : list bytes) (s : St) (p : Pass).

Definition metas_of ds : list (bytes * Z) := (fun d => (blake3 d, Z.of_nat (length d))) <$> ds.

(** The chunks [ds] are hashed, recorded and in the store. *)
Record Passed ds p s : Prop := {
  pa_hashed : hashed p = concat ds;
  pa_metas : metas p = metas_of ds;
  pa_stored : blake3_collision \/ Forall (fun d => cs_read (blake3 d) s = Ok d) ds;
}.

Lemma store_chunk_passed ds d p p' s s' :
  Passed ds p s -> store_chunk (E := E) d p s = (Ok p', s') -> Passed (ds ++ [d]) p' s'.
Proof.
  intros [H1 H2 H3]. unfold store_chunk. destruct (cs_write _ d s) as [[[]|e] s1] eqn:Ew; [|done]. intros [= <- <-].
  split; simpl.
  - rewrite H1, concat_app. simpl. by rewrite app_nil_r.
  - unfold metas_of. by rewrite H2, fmap_app.
  - destruct H3 as [?|HF]; [by left|].
    assert (forall x, x ∈ ds -> blake3_collision \/ cs_read (blake3 x) s1 = Ok x) as Hall.
    { intros x Hx. rewrite Forall_forall in HF. destruct (decide (blake3 x = blake3 d)) as [Hh|Hh].
      - destruct (decide (x = d)) as [->|Hn]; [right; by eapply read_written|left; by exists x, d].
      - right. rewrite (read_other _ _ _ _ _ Ew Hh). by apply HF. }
    assert (blake3_collision \/ Forall (fun x => cs_read (blake3 x) s1 = Ok x) ds) as [?|HF']; [|by left|].
    { clear HF H1 H2. induction ds as [|x ds IH]; [right; constructor|].
      destruct (Hall x) as [?|Hx]; [by left|by left|]. destruct IH as [?|IH]; [|by left|right; by constructor].
      intros y Hy. apply Hall. by right. }
    right. apply Forall_app. split; [done|]. constructor; [|constructor]. by eapply read_written.
Qed.

Lemma slabs_passed fuel n r ds p s p' s' :
  0 < n -> (left_over r < fuel)%nat -> steady r -> Passed ds p s ->
  stream_slabs (E := E) fuel n r p s = (Ok p', s') ->
  exists es, stream r = Ok (concat es) /\ Passed (ds ++ es) p' s' /\ Forall (fun d => Z.of_nat (length d) <= n) es.
Proof.
  intros Hn. revert r ds p s. induction fuel as [|fuel IH]; intros r ds p s Hf Hs Hp; [lia|]. simpl.
  pose proof (read_prefix_spec n r ltac:(lia) Hs) as H. destruct (read_prefix n r) as [[d|e] r']; [|done].
  destruct H as (Hs' & Hl & _ & Hd & Hst & Hend). destruct d as [|c d].
  - intros [= <- <-]. exists []. rewrite app_nil_r. split_and!; [|done|constructor].
    rewrite Hst, Hend by (simpl; lia). done.
  - set (cd := c :: d) in *. destruct (store_chunk cd p s) as [[p1|e] s1] eqn:Es; [|done].
    pose proof (store_chunk_passed _ _ _ _ _ _ Hp Es) as Hp1. intros Hr.
    destruct (IH r' (ds ++ [cd]) p1 s1) as (es & H1 & H2 & H3); [by specialize (Hd ltac:(done)); lia|done|done|done|].
    exists (cd :: es). rewrite Hst, H1. rewrite <- app_assoc in H2. split_and!; [done|done|by constructor].
Qed.

Lemma items_passed items ds p s p' s' :
  Passed ds p s -> stream_cdc_chunks (E := E) items p s = (Ok p', s') ->
  exists es, items = Ok <$> es /\ Passed (ds ++ es) p' s'.
Proof.
  revert ds p s. induction items as [|[d|e] items IH]; intros ds p s Hp; simpl; [|..|done].
  - intros [= <- <-]. exists []. by rewrite app_nil_r.
  - destruct (store_chunk d p s) as [[p1|e] s1] eqn:Es; [|done]. intros Hr.
    destruct (IH (ds ++ [d]) p1 s1) as (es & -> & H); [by eapply store_chunk_passed|done|].
    exists (d :: es). by rewrite <- app_assoc in H.
Qed.

Lemma stream_chain d r : stream (chain d r) = (x <-? stream r ;; Ok (d ++ x)).
Proof. destruct d; simpl; [by destruct (stream r)|done]. Qed.

Lemma steady_chain d r : steady r -> steady (chain d r).
Proof. intros Hs. destruct d; [done|]. by constructor. Qed.

Lemma start_passed s : Passed [] {| hashed := []; metas := [] |} s.
Proof. split; [done|done|right; constructor]. Qed.

Lemma params_max mime : 0 < max (params mime).
Proof. by destruct mime. Qed.

Lemma reassemble_passed ds p s :
  Passed ds p s -> blake3_collision \/
  reassemble (E := E) {| file_id := blake3 (hashed p); manifest_metas := metas p |} s = Ok (concat ds).
Proof.
  intros [_ H2 [?|HF]]; [by left|right]. unfold reassemble. simpl. rewrite H2. unfold metas_of.
  assert (try_map (fun c : bytes * Z => cs_read c.1 s) ((fun d => (blake3 d, Z.of_nat (length d))) <$> ds) = Ok ds) as ->;
    [|done]. clear H2. induction HF as [|d ds Hd HF IH]; [done|]. rewrite fmap_cons. cbn [try_map]. rewrite IH. simpl. by rewrite Hd.
Qed.

Lemma process_passed r mime s m s' :
  steady r -> process_file_from_reader (E := E) r mime s = (Ok m, s') ->
  exists ds p, stream r = Ok (concat ds) /\ Passed ds p s' /\
    m = {| file_id := blake3 (hashed p); manifest_metas := metas p |} /\
    Forall (fun d => Z.of_nat (length d) <= max (params mime)) ds.
Proof.
  intros Hs. unfold process_file_from_reader. pose proof (params_max mime) as Hmax.
  pose proof (read_prefix_spec (max (params mime) + 1) r ltac:(lia) Hs) as H.
  destruct (read_prefix _ r) as [[buf|e] rest]; [|done]. destruct H as (Hs' & Hl & _ & _ & Hst & Hend).
  case_decide as Hshort.
  { destruct (store_chunk buf _ s) as [[q|e] s1] eqn:Es; [|done]. intros [= <- <-].
    pose proof (store_chunk_passed _ _ _ _ _ _ (start_passed s) Es) as Hp. exists [buf], q.
    split_and!; [|done|done|by constructor]. rewrite Hst, Hend by lia. done. }
  set (n := Z.to_nat (max (params mime))). case_decide as Ha.
  - destruct (store_chunk _ _ s) as [[q|e] s1] eqn:Es; [|done].
    pose proof (store_chunk_passed _ _ _ _ _ _ (start_passed s) Es) as Hp.
    destruct (stream_slabs _ _ _ q s1) as [[q'|e] s2] eqn:Er; [|done]. intros [= <- <-].
    destruct (slabs_passed _ _ _ _ _ _ _ _ Hmax (Nat.lt_succ_diag_r _) (steady_chain (skipn n buf) rest Hs') Hp Er) as (es & H1 & H2 & H3).
    exists (firstn n buf :: es), q'. split_and!; [|done|done|].
    + rewrite stream_chain in H1. rewrite Hst. destruct (stream rest); [|done]. simpl in *. injection H1 as H1.
      by rewrite <- H1, app_assoc, firstn_skipn.
    + constructor; [|done]. rewrite length_firstn. lia.
  - destruct (stream_cdc_chunks _ _ s) as [[q'|e] s2] eqn:Er; [|done]. intros [= <- <-].
    destruct (items_passed _ _ _ _ _ _ (start_passed s) Er) as (es & H1 & H2). exists es, q'.
    assert (steady (chain (firstn n buf) (chain (skipn n buf) rest))) as Hst2 by (by apply steady_chain, steady_chain).
    split_and!; [|done|done|].
    + rewrite <- (cdc_covers _ _ _ _ _ Hst2 H1), !stream_chain, Hst. destruct (stream rest); [|done]. simpl.
      by rewrite app_assoc, firstn_skipn.
    + apply Forall_forall. intros d Hd. eapply cdc_max; [done|]. rewrite H1. by apply list_elem_of_fmap_2.
Qed.

(** A store that takes every chunk. *)
Definition takes_all : Prop := forall h d s, exists s', cs_write (E := E) h d s = (Ok tt, s').

Lemma store_chunk_total d p s : takes_all -> exists p' s', store_chunk (E := E) d p s = (Ok p', s').
Proof. intros Ha. unfold store_chunk. destruct (Ha (blake3 d) d s) as [s' ->]. eauto. Qed.

Lemma slabs_total fuel n r p s content :
  takes_all -> 0 < n -> steady r -> stream r = Ok content ->
  exists p' s', stream_slabs (E := E) fuel n r p s = (Ok p', s').
Proof.
  intros Ha Hn. revert r p s content. induction fuel as [|fuel IH]; intros r p s content Hs Hc; simpl; [eauto|].
  pose proof (read_prefix_spec n r ltac:(lia) Hs) as H. destruct (read_prefix n r) as [[d|e] r']; [|congruence].
  destruct H as (Hs' & _ & _ & _ & Hst & _). destruct d as [|c d]; [eauto|].
  destruct (store_chunk_total (c :: d) p s Ha) as (p1 & s1 & ->). rewrite Hst in Hc.
  rewrite rbind_Ok in Hc. destruct Hc as (y & Hy & _). by eapply IH.
Qed.

Lemma items_total ds p s : takes_all -> exists p' s', stream_cdc_chunks (E := E) (Ok <$> ds) p s = (Ok p', s').
Proof.
  intros Ha. revert p s. induction ds as [|d ds IH]; intros p s; simpl; [eauto|].
  destruct (store_chunk_total d p s Ha) as (p1 & s1 & ->). apply IH.
Qed.

Lemma process_total r mime s content :
  takes_all -> steady r -> stream r = Ok content ->
  exists m s', process_file_from_reader (E := E) r mime s = (Ok m, s').
Proof.
  intros Ha Hs Hc. unfold process_file_from_reader. pose proof (params_max mime) as Hmax.
  pose proof (read_prefix_spec (max (params mime) + 1) r ltac:(lia) Hs) as H.
  destruct (read_prefix _ r) as [[buf|e] rest]; [|congruence]. destruct H as (Hs' & _ & _ & _ & Hst & _).
  rewrite Hst, rbind_Ok in Hc. destruct Hc as (y & Hy & _).
  assert (stream (chain (skipn (Z.to_nat (max (params mime))) buf) rest) = Ok (skipn (Z.to_nat (max (params mime))) buf ++ y)) as Ht
    by (by rewrite stream_chain, Hy).
  case_decide; [|case_decide].
  - destruct (store_chunk_total buf {| hashed := []; metas := [] |} s Ha) as (p1 & s1 & ->). eauto.
  - destruct (store_chunk_total (firstn (Z.to_nat (max (params mime))) buf) {| hashed := []; metas := [] |} s Ha) as (p1 & s1 & ->).
    match goal with |- context [stream_slabs ?f ?n ?r p1 s1] => destruct (slabs_total f n r p1 s1 _ Ha Hmax (steady_chain _ _ Hs') Ht) as (p2 & s2 & ->) end.
    eauto.
  - destruct (cdc_whole (min (params mime)) (avg (params mime)) (max (params mime)) _
      (firstn (Z.to_nat (max (params mime))) buf ++ skipn (Z.to_nat (max (params mime))) buf ++ y)
      (steady_chain (firstn (Z.to_nat (max (params mime))) buf) _
         (steady_chain (skipn (Z.to_nat (max (params mime))) buf) _ Hs'))) as [ds ->].
    { by rewrite stream_chain, Ht. }
    destruct (items_total ds {| hashed := []; metas := [] |} s Ha) as (p2 & s2 & ->). eauto.
Qed.

(** C26. A file survives its chunks. Processing a reader, however its bytes come and
    whichever class it is of, succeeds on a store that takes every chunk. When it
    succeeds, on any store that keeps the laws (the encrypting one included), the
    manifest has the digest of the bytes read as its id, and digests and lengths of
    pieces that make them up, none above the class's largest; and reassembling it
    gives the bytes back, unless two contents share a digest. *)
Theorem process_reassembles r mime s content :
  steady r -> stream r = Ok content ->
  (takes_all -> exists m s', process_file_from_reader (E := E) r mime s = (Ok m, s')) /\
  forall m s', process_file_from_reader (E := E) r mime s = (Ok m, s') ->
    file_id m = blake3 content /\
    (exists ds, content = concat ds /\ manifest_metas m = metas_of ds /\
       Forall (fun d => Z.of_nat (length d) <= max (params mime)) ds) /\
    (blake3_collision \/ reassemble m s' = Ok content).
Proof.
  intros Hs Hc. split; [intros Ha; by eapply process_total|]. intros m s' Hp.
  destruct (process_passed r mime s m s' Hs Hp) as (ds & p & Hd & Hpa & -> & HF).
  assert (content = concat ds) as -> by congruence. simpl.
  split_and!; [by rewrite (pa_hashed _ _ _ Hpa)| |by apply reassemble_passed].
  exists ds. by rewrite (pa_metas _ _ _ Hpa).
Qed.
End Processed.
