(* ===== verification/FileServer.v ===== *)
(** The file server: connetto-file-server/src (upload.rs, db.rs, needed.rs, sweep.rs,
    reconcile.rs, quotas.rs, serve.rs, ticket.rs, caller.rs).

    A client declares the chunks of a file, puts those the server asks for and
    commits; the server collects what no manifest names, and a boot pass brings the
    store and a restored database back into step. The handlers run over a
    [FileWorld]: the tables, the chunk store and what a replica keeps in memory. A
    transaction's effect on the tables is kept or discarded as a whole; what it
    wrote to the store stays. [Move] lists the stretches that run without another's
    in between, one per transaction and one per access of the store, and the handlers
    are made of them. *)

From Stdlib Require Import ZArith Lia Ascii.
From stdpp Require Import base list numbers option strings gmap fin_maps fin_map_dom sorting.
From S2P Require Import Prelude Throttle Guard Cursor Caller Percent FileTables.

Open Scope Z_scope.

(** ** Texts *)

Definition hex_nibble (b : Z) : option Z :=
  if decide (48 <= b <= 57) then Some (b - 48)
  else if decide (97 <= b <= 102) then Some (b - 97 + 10)
  else if decide (65 <= b <= 70) then Some (b - 65 + 10) else None.

Fixpoint hex_pairs (s : bytes) : option bytes :=
  match s with
  | a :: b :: s' =>
      hi ← hex_nibble a; lo ← hex_nibble b; rest ← hex_pairs s';
      Some (Z.lor (Z.shiftl hi 4) lo :: rest)
  | _ => Some []
  end.

Definition parse_hex_32 (s : bytes) : option bytes :=
  if decide (length s = 64%nat) then hex_pairs s else None.

(** One digit of [{b:02x}]. *)
Definition nibble_digit (n : Z) : Z := if decide (n < 10) then 48 + n else 87 + n.

Definition hex_32 (b : bytes) : bytes :=
  b ≫= fun x => [nibble_digit (Z.shiftr x 4); nibble_digit (Z.land x 15)].

(** ** Errors *)

Inductive TicketError := TPostcard | TBase64 | TMalformed | TInvalidSignature | TExpired | TWrongVerb.

(** [EDb] stands for a failure of the database and for one of its pool. *)
Inductive ServerError :=
| NotFound | Ticket (e : TicketError) | HashMismatch | CommitRefused | CeilingExceeded | BodyTooLarge
| RegistryConflict | TooManyChunks | RangeNotSatisfiable | QuotaExceeded
| StorageCeiling (retry_after_secs : Z) | BandwidthCeiling (retry_after_secs : Z)
| EDb | EStore | BadParam.

(** The status of a refusal and its [Retry-After]. *)
Definition into_response (e : ServerError) : Z * option Z :=
  match e with
  | NotFound | Ticket _ => (404, None)
  | RangeNotSatisfiable => (416, None)
  | CeilingExceeded | BodyTooLarge | TooManyChunks => (413, None)
  | HashMismatch => (422, None)
  | CommitRefused => (409, None)
  | RegistryConflict => (503, None)
  | QuotaExceeded => (507, None)
  | StorageCeiling secs | BandwidthCeiling secs => (503, Some secs)
  | BadParam => (400, None)
  | EDb | EStore => (500, None)
  end.

(** ** Tickets *)

Inductive Verb := Read | Write.

#[export] Instance Verb_eq_dec : EqDecision Verb.
Proof. solve_decision. Defined.

Record TicketPayload := { tk_file : bytes; verb : Verb; ceiling : Z; expiry : Z; tk_caller : ContentCaller }.

(** Base64, Ed25519 and the payload's encoding. *)
Class TicketCodec := {
  b64_decode : bytes -> option bytes;
  ed25519_verifies : bytes -> bytes -> bytes -> bool;
  payload_from_bytes : bytes -> option TicketPayload;
}.

(** [str::rfind] of a byte: what is before and after its last occurrence. *)
Fixpoint rsplit_once (c : Z) (s : bytes) : option (bytes * bytes) :=
  match s with
  | [] => None
  | d :: s' =>
      match rsplit_once c s' with
      | Some (a, b) => Some (d :: a, b)
      | None => if decide (d = c) then Some ([], s') else None
      end
  end.

Definition SERVER_SKEW : Z := 60.

Definition verify `{TicketCodec} (public now : _) (token : bytes) : Result TicketPayload TicketError :=
  '(payload, sig) <-? ok_or (rsplit_once 46 token) TMalformed ;;
  payload <-? ok_or (b64_decode payload) TBase64 ;;
  sig <-? ok_or (b64_decode sig) TBase64 ;;
  if ed25519_verifies public payload sig then
    p <-? ok_or (payload_from_bytes payload) TPostcard ;;
    if decide (expiry p < now - SERVER_SKEW) then Err TExpired else Ok p
  else Err TInvalidSignature.

Definition verify_verb `{TicketCodec} (public : bytes) (now : Z) (token : bytes) (expected : Verb) :
    Result TicketPayload ServerError :=
  p <-? map_err Ticket (verify public now token) ;;
  if decide (verb p = expected) then Ok p else Err (Ticket TWrongVerb).

(** ** Callers *)

Record CallerSettings := { user_setting : string; subjects_setting : string; separator : ascii }.

Definition BOT_LIST_SETTING : string := "app.bot_list".

(** What a transaction binds; [marker] stands for a half the caller does not hold. *)
Definition bind_caller (settings : CallerSettings) (marker : string) (c : ContentCaller) :
    list (string * string) :=
  [(user_setting settings, default marker (cc_identity c));
   (subjects_setting settings, default marker (packed_subjects (separator settings) c));
   (BOT_LIST_SETTING, cc_bot_list c)].

Definition manifest_key (settings : CallerSettings) (c : ContentCaller) : Result string ServerError :=
  ok_or (storage_key (separator settings) c) NotFound.

Definition attributed (c : ContentCaller) : Result (list string) ServerError :=
  match attributions c with [] => Err NotFound | l => Ok l end.

(** [str::strip_prefix]. *)
Fixpoint strip_prefix (p s : string) : option string :=
  match p, s with
  | EmptyString, _ => Some s
  | String a p', String b s' => if Ascii.eqb a b then strip_prefix p' s' else None
  | _, _ => None
  end.

Definition attributions_of_key (settings : CallerSettings) (key : string) : list string :=
  match strip_prefix "user:" key with
  | Some identity => [identity]
  | None =>
      match strip_prefix "keys:" key with
      | Some keys => split_char (separator settings) keys
      | None => []
      end
  end.

(** ** Quotas and ceilings *)

Record QuotaSettings := {
  identity_quota : Z; storage_ceiling : Z; bandwidth_ceiling : Z; window_days : Z; refresh_secs : Z }.

Record CeilingTotals := { stored_bytes : Z; window_total : Z; oldest_day : option Z }.

(** The last day of chrono's calendar, counted from the epoch. *)
Definition MAX_DAY : Z := 95026236.

(** The instant, in seconds, at which a day leaves the window. *)
Definition window_exit_instant (oldest days : Z) : option Z :=
  if decide (oldest + days <= MAX_DAY) then Some ((oldest + days) * 86400) else None.

Definition bandwidth_retry_after_secs (oldest : option Z) (days now : Z) : Z :=
  match oldest ≫= fun day => window_exit_instant day days with
  | None => 1
  | Some target => Z.max 1 (target - now)
  end.

Definition check_deployment_ceilings (totals : CeilingTotals) (q : QuotaSettings) (new_bytes now : Z) :
    Result unit ServerError :=
  if decide (0 < storage_ceiling q /\
             storage_ceiling q < sat_add u64_max (stored_bytes totals) new_bytes) then
    Err (StorageCeiling (Z.max 1 (sat_mul u64_max (refresh_secs q) 6)))
  else if decide (0 < bandwidth_ceiling q /\ bandwidth_ceiling q <= window_total totals) then
    Err (BandwidthCeiling (bandwidth_retry_after_secs (oldest_day totals) (window_days q) now))
  else Ok tt.

Section Server.
Context {BL : Blake3} {CD : ContentDeployment} {TC : TicketCodec}.

(** What a replica is configured with; [marker] is drawn by its process. *)
Record FileConfig := {
  fc_settings : CallerSettings; fc_marker : string; fc_quotas : QuotaSettings; fc_public : bytes;
  fc_store : AnyStore; fc_grace : Z }.

Context (cfg : FileConfig).

(** A sum as [bigint], which the database refuses past its range. *)
Definition bigint_sum (l : list Z) : Result Z ServerError :=
  let n := foldr Z.add 0 l in if decide (n <= i64_max) then Ok n else Err EDb.

(** [u64::try_from(total).unwrap_or(u64::MAX)]. *)
Definition u64_or_max (n : Z) : Z := default u64_max (try_into u64_max n).

Definition uploader_committed_bytes (uploader : string) (db : FileDb) : Result Z ServerError :=
  n <-? bigint_sum (omap (fun p => if bool_decide (p.1.2 = uploader) && committed p.2
                                   then Some (total_len p.2) else None) (map_to_list (manifests db))) ;;
  Ok (u64_or_max n).

(** The distinct chunks of committed manifests, with their lengths. *)
Definition committed_chunks (db : FileDb) : gset (bytes * Z) :=
  list_to_set (map_to_list (manifest_chunks db) ≫= fun p =>
    match manifests db !! p.1 with
    | Some m => if committed m then (fun r => (chunk_hash r, chunk_len r)) <$> p.2 else []
    | None => []
    end).

Definition stored_chunk_bytes (db : FileDb) : Result Z ServerError :=
  n <-? bigint_sum (snd <$> elements (committed_chunks db)) ;; Ok (u64_or_max n).

(** The days inside the trailing window, and the oldest of them. *)
Definition window_bytes (days today : Z) (db : FileDb) : Result (Z * option Z) ServerError :=
  let inside := filter (fun p => today - days < p.1) (map_to_list (traffic db)) in
  n <-? bigint_sum ((fun p => p.2.1 + p.2.2) <$> inside) ;;
  Ok (u64_or_max n, match fst <$> inside with [] => None | d :: ds => Some (foldr Z.min d ds) end).

Definition ledger_add (today served accepted : Z) (db : FileDb) : FileDb :=
  let '(s, a) := default (0, 0) (traffic db !! today) in
  with_traffic (<[today := (s + i64_or_max served, a + i64_or_max accepted)]> (traffic db)) db.

(** ** Which chunks a caller already holds: needed.rs *)

Definition committed_file_ids_for (declared : list bytes) (db : FileDb) : list bytes :=
  remove_dups (omap (fun p =>
    match manifests db !! p.1 with
    | Some m => if committed m && existsb (fun h => names h p.2) declared then Some p.1.1 else None
    | None => None
    end) (map_to_list (manifest_chunks db))).

Definition present_chunk_hashes (visible declared : list bytes) (db : FileDb) : list bytes :=
  remove_dups (map_to_list (manifest_chunks db) ≫= fun p =>
    match manifests db !! p.1 with
    | Some m =>
        if committed m && bool_decide (p.1.1 ∈ visible)
        then filter (fun h => h ∈ declared) (chunk_hash <$> p.2) else []
    | None => []
    end).

Definition visible_committed_hashes_in (c : ContentCaller) (declared : list bytes) (db : FileDb) : list bytes :=
  match committed_file_ids_for declared db with
  | [] => []
  | candidates =>
      match connetto_visible_files (app db) (bind_caller (fc_settings cfg) (fc_marker cfg) c) candidates with
      | [] => []
      | visible => present_chunk_hashes visible declared db
      end
  end.

Definition own_stored_hashes (k : ManifestKey) (db : FileDb) : list bytes :=
  chunk_hash <$> filter (fun r => stored r = true) (manifest_rows k db).

Definition needed_hashes (c : ContentCaller) (chunks : list (bytes * Z)) (own : ManifestKey) (db : FileDb) :
    list bytes :=
  let present := visible_committed_hashes_in c chunks.*1 db in
  let mine := own_stored_hashes own db in
  filter (fun h => h ∉ present /\ h ∉ mine) chunks.*1.

(** Each distinct hash counts once, with the length it comes with first. *)
Fixpoint distinct_bytes (counted : list bytes) (pairs : list (bytes * Z)) : Z :=
  match pairs with
  | [] => 0
  | (h, len) :: pairs' =>
      if decide (h ∈ counted) then distinct_bytes counted pairs'
      else default 0 (try_into u64_max len) + distinct_bytes (h :: counted) pairs'
  end.

Definition new_declared_bytes (c : ContentCaller) (pairs : list (bytes * Z)) (db : FileDb) : Z :=
  let present := visible_committed_hashes_in c pairs.*1 db in
  distinct_bytes [] (filter (fun p => p.1 ∉ present) pairs).

(** ** The world of the handlers *)

(** A sweep in flight: the hashes it has still to delete, and the one whose bytes
    are gone and whose row is not. *)
Record Sweep := { todo : list bytes; dropping : option bytes }.

(** A boot pass in flight: what it listed and when it takes a chunk for old, the
    registry as it read it, the chunks it found missing with the bytes each manifest
    lacks, what it reports, and where it is. Before [Claimed] it holds no chunk. *)
Inductive Stage :=
| Listed
| Looking (rest : list bytes)
| Claimed (h : bytes) (rest : list bytes)
| Dropped (h : bytes) (rest : list bytes)
| Probing (rest : list bytes)
| Found
| Marking (files : list bytes)
| Marked
| Unstored
| Finished.

Record BootPass := {
  boot_cutoff : Z; listed : list (bytes * Z); registry : gmap bytes ChunkState;
  missing : list bytes; sums : gmap ManifestKey Z;
  orphans_removed : nat; lost_files : list bytes; stage : Stage }.

Record FileWorld := {
  db : FileDb; chunks : ChunkMap;
  (** The clock in seconds, and the totals a replica has cached. *)
  fw_clock : Z; ceilings : CeilingTotals;
  sweeps : list Sweep; boots : list BootPass;
  (** The hashes whose bytes the store itself has lost: a ghost. *)
  astray : gset bytes;
}.

Definition with_db (d : FileDb) (w : FileWorld) : FileWorld := {|
  db := d; chunks := chunks w; fw_clock := fw_clock w; ceilings := ceilings w;
  sweeps := sweeps w; boots := boots w; astray := astray w |}.
Definition with_store (s : ChunkMap) (w : FileWorld) : FileWorld := {|
  db := db w; chunks := s; fw_clock := fw_clock w; ceilings := ceilings w;
  sweeps := sweeps w; boots := boots w; astray := astray w |}.
Definition with_clock (n : Z) (w : FileWorld) : FileWorld := {|
  db := db w; chunks := chunks w; fw_clock := n; ceilings := ceilings w;
  sweeps := sweeps w; boots := boots w; astray := astray w |}.
Definition with_ceilings (t : CeilingTotals) (w : FileWorld) : FileWorld := {|
  db := db w; chunks := chunks w; fw_clock := fw_clock w; ceilings := t;
  sweeps := sweeps w; boots := boots w; astray := astray w |}.
Definition with_sweeps (l : list Sweep) (w : FileWorld) : FileWorld := {|
  db := db w; chunks := chunks w; fw_clock := fw_clock w; ceilings := ceilings w;
  sweeps := l; boots := boots w; astray := astray w |}.
Definition with_boots (l : list BootPass) (w : FileWorld) : FileWorld := {|
  db := db w; chunks := chunks w; fw_clock := fw_clock w; ceilings := ceilings w;
  sweeps := sweeps w; boots := l; astray := astray w |}.
Definition with_astray (s : gset bytes) (w : FileWorld) : FileWorld := {|
  db := db w; chunks := chunks w; fw_clock := fw_clock w; ceilings := ceilings w;
  sweeps := sweeps w; boots := boots w; astray := s |}.

(** How a transaction fares: carried out, failed, or carried out with its answer
    lost. An error of its body rolls the tables back; the store keeps what was
    written. *)
Inductive TxFate := Carried | RolledBack | Unanswered.

Definition transaction {A} (fate : TxFate) (body : FileWorld -> Result A ServerError * FileWorld)
    (w : FileWorld) : Result A ServerError * FileWorld :=
  match body w with
  | (Err e, w') => (Err e, with_db (db w) w')
  | (Ok a, w') =>
      match fate with
      | Carried => (Ok a, w')
      | RolledBack => (Err EDb, with_db (db w) w')
      | Unanswered => (Err EDb, w')
      end
  end.

(** ** Declaring: [insert_manifest] and [post_intent] *)

Inductive InsertManifestOutcome := Inserted | AlreadyPresent | Conflicted.

Definition i32_max : Z := 2147483647.

(** [chunk_rows]: positions and lengths must fit their columns. *)
Definition chunk_rows (l : list (bytes * Z)) : Result (list (bytes * Z)) ServerError :=
  if decide (Z.of_nat (length l) <= i32_max + 1 /\ Forall (fun c => 0 <= c.2 <= i64_max) l)
  then Ok l else Err EDb.

(** The transaction; every outcome but [Inserted] rolls back. *)
Definition insert_manifest (k : ManifestKey) (total now : Z) (l : list (bytes * Z)) (d : FileDb) :
    Result InsertManifestOutcome ServerError * FileDb :=
  let unique := remove_dups l.*1 in
  let d1 := insert_registry_pending_batch_stmt unique d in
  if existsb (fun p => bool_decide (p.2 = Deleting)) (lock_registry_rows_stmt unique d1)
  then (Ok Conflicted, d)
  else
    match insert_manifest_stmt k total now d1 with
    | (O, _) => (Ok AlreadyPresent, d)
    | (_, d2) =>
        match l with
        | [] => (Ok Inserted, d2)
        | _ =>
            match chunk_rows l with
            | Err e => (Err e, d)
            | Ok rows => (Ok Inserted, insert_chunk_rows_batch_stmt k rows d2)
            end
        end
    end.

(** A body's chunks, with no hash under two lengths. *)
Fixpoint parse_chunk_metas (seen : gmap bytes Z) (items : list (bytes * Z)) :
    Result (list (bytes * Z)) ServerError :=
  match items with
  | [] => Ok []
  | (text, len) :: items' =>
      h <-? ok_or (parse_hex_32 text) BadParam ;;
      if decide (i64_max < len) then Err BadParam
      else
        match seen !! h with
        | Some prev =>
            if decide (prev <> len) then Err BadParam
            else rest <-? parse_chunk_metas seen items' ;; Ok ((h, len) :: rest)
        | None => rest <-? parse_chunk_metas (<[h := len]> seen) items' ;; Ok ((h, len) :: rest)
        end
  end.

(** [checked_add] along the list. *)
Fixpoint checked_sum (l : list Z) (acc : Z) : option Z :=
  match l with
  | [] => Some acc
  | x :: l' => if decide (acc + x <= u64_max) then checked_sum l' (acc + x) else None
  end.

Definition MEDIA_MAX : Z := 16777216.

Record IntentRequest := { ir_total : Z; ir_chunks : list (bytes * Z) }.

(** What an intent declares: its key, its total and its chunks. *)
Definition declaration (token id : bytes) (body : IntentRequest) (now : Z) :
    Result (TicketPayload * ManifestKey * list (bytes * Z)) ServerError :=
  ticket <-? verify_verb (fc_public cfg) now token Write ;;
  file <-? ok_or (parse_hex_32 id) BadParam ;;
  if decide (file <> tk_file ticket) then Err NotFound
  else if decide (Z.min (sat_add u64_max (ceiling ticket) 1) (MEDIA_MAX / 256)
                  < Z.of_nat (length (ir_chunks body))) then Err TooManyChunks
  else
    l <-? parse_chunk_metas ∅ (ir_chunks body) ;;
    sum <-? ok_or (checked_sum l.*2 0) BadParam ;;
    if decide (sum <> ir_total body) then Err BadParam
    else if decide (ceiling ticket < sum) then Err CeilingExceeded
    else if decide (i64_max < ir_total body) then Err BadParam
    else
      key <-? manifest_key (fc_settings cfg) (tk_caller ticket) ;;
      Ok (ticket, (file, key), l).

(** [checked] is when the ticket was looked at, here and below. *)
Definition declare (token id : bytes) (body : IntentRequest) (checked : Z) (fate : TxFate) (w : FileWorld) :
    Result (TicketPayload * ManifestKey * list (bytes * Z)) ServerError * FileWorld :=
  match declaration token id body checked with
  | Err e => (Err e, w)
  | Ok (ticket, k, l) =>
      match transaction fate (fun w =>
              let '(r, d) := insert_manifest k (ir_total body) (fw_clock w) l (db w) in
              (r, with_db d w)) w with
      | (Ok Conflicted, w') => (Err RegistryConflict, w')
      | (Ok _, w') => (Ok (ticket, k, l), w')
      | (Err e, w') => (Err e, w')
      end
  end.

(** ** Storing: [put_chunk] *)

Inductive ChunkPutResult := Accepted | AlreadyStored | WouldExceedCeiling.

Definition declared_chunk_len (k : ManifestKey) (h : bytes) (d : FileDb) : Result (option Z) ServerError :=
  match filter (fun r => chunk_hash r = h) (manifest_rows k d) with
  | [] => Ok None
  | r :: _ => n <-? ok_or (try_into u64_max (chunk_len r)) EDb ;; Ok (Some n)
  end.

Definition account_chunk_put (k : ManifestKey) (h : bytes) (len limit : Z) (d : FileDb) :
    Result ChunkPutResult ServerError * FileDb :=
  match try_into i64_max len with
  | None => (Err EDb, d)
  | Some len =>
      match mark_chunk_stored_stmt k h len d with
      | (O, d1) => (Ok AlreadyStored, d1)
      | (_, d1) =>
          (* [checked_sub] of two values that are not negative cannot overflow *)
          match tally_bytes_stmt k len (limit - len) d1 with
          | (O, d2) => (Ok WouldExceedCeiling, d2)
          | (_, d2) => (Ok Accepted, mark_registry_stored_stmt h d2)
          end
      end
  end.

(** Under the chunk's registry row; [written] is whether the store takes the bytes. *)
Definition store_chunk (k : ManifestKey) (h body : bytes) (limit : Z) (written : bool) (w : FileWorld) :
    Result unit ServerError * FileWorld :=
  match chunk_registry (db w) !! h with
  | None => (Err NotFound, w)
  | Some Deleting => (Err RegistryConflict, w)
  | Some _ =>
      match declared_chunk_len k h (db w) with
      | Err e => (Err e, w)
      | Ok None => (Err NotFound, w)
      | Ok (Some len) =>
          if decide (Z.of_nat (length body) <> len) then (Err HashMismatch, w)
          else if written then
            let w := with_store (write_chunk (fc_store cfg) h body (fw_clock w) (chunks w)) w in
            match account_chunk_put k h len limit (db w) with
            | (Err e, _) => (Err e, w)
            | (Ok WouldExceedCeiling, d) => (Err CeilingExceeded, with_db d w)
            | (Ok _, d) =>
                (Ok tt, with_db (ledger_add (fw_clock w / 86400) 0 (Z.of_nat (length body)) d) w)
            end
          else (Err EStore, w)
      end
  end.

Definition put_chunk (text token body : bytes) (checked : Z) (written : bool) (fate : TxFate) (w : FileWorld) :
    Result unit ServerError * FileWorld :=
  match
    ticket <-? verify_verb (fc_public cfg) checked token Write ;;
    h <-? ok_or (parse_hex_32 text) BadParam ;;
    key <-? manifest_key (fc_settings cfg) (tk_caller ticket) ;;
    if decide (blake3 body <> h) then Err HashMismatch
    else Ok (h, (tk_file ticket, key), i64_or_max (ceiling ticket))
  with
  | Err e => (Err e, w)
  | Ok (h, k, limit) => transaction fate (store_chunk k h body limit written) w
  end.

(** ** Committing: [post_commit] *)

(** A manifest of rows, as [manifest_from_rows] reads it back. *)
Definition manifest_from_rows (rows : list ChunkRow) : Result (list (bytes * Z)) ServerError :=
  try_map (fun r => if decide (length (chunk_hash r) = 32%nat)
                    then n <-? ok_or (try_into u64_max (chunk_len r)) EDb ;; Ok (chunk_hash r, n)
                    else Err EDb) rows.

Inductive ManifestState := Committed | Uncommitted (m : list (bytes * Z)).

Definition load_manifest_locked (k : ManifestKey) (d : FileDb) : Result (option ManifestState) ServerError :=
  match lock_manifest_row_stmt k d with
  | None => Ok None
  | Some true => Ok (Some Committed)
  | Some false => m <-? manifest_from_rows (manifest_rows k d) ;; Ok (Some (Uncommitted m))
  end.

Definition file_committed (file : bytes) (d : FileDb) : bool :=
  match any_committed_manifest_caller_stmt file d with Some _ => true | None => false end.

(** Every chunk not stored through this manifest must be in a committed one of a
    file the caller may see. *)
Definition all_chunks_satisfied (k : ManifestKey) (c : ContentCaller) (d : FileDb) : bool :=
  match all_unstored_chunk_hashes_stmt k d with
  | [] => true
  | unstored =>
      let present := visible_committed_hashes_in c unstored d in
      forallb (fun h => bool_decide (h ∈ present)) unstored
  end.

(** Reads every chunk; [io] is whether the store answers. *)
Fixpoint read_all (io : bytes -> bool) (m : list (bytes * Z)) (s : ChunkMap) : Result bytes ServerError :=
  match m with
  | [] => Ok []
  | (h, len) :: m' =>
      if io h then
        d <-? ok_or (read_chunk h s) EStore ;;
        if decide (Z.of_nat (length d) <> len) then Err CommitRefused
        else rest <-? read_all io m' s ;; Ok (d ++ rest)
      else Err EStore
  end.

Definition verify_file_identity (io : bytes -> bool) (file : bytes) (m : list (bytes * Z)) (s : ChunkMap) :
    Result unit ServerError :=
  content <-? read_all io m s ;;
  if decide (blake3 content <> file) then Err CommitRefused else Ok tt.

(** The setter, once per name; a raise stops the transaction. *)
Fixpoint tell (file : bytes) (state : string) (names : list string) (d : FileDb) : Result FileDb ServerError :=
  match names with
  | [] => Ok d
  | n :: names' =>
      a <-? ok_or (connetto_set_content_state file state n (app d)) EDb ;;
      tell file state names' (with_app a d)
  end.

(** The lost manifests of others are given the committer's chunks. *)
Definition rechunk (file : bytes) (rows : list (bytes * Z)) (d : FileDb) (owner : string) : FileDb :=
  insert_chunk_rows_batch_stmt (file, owner) rows (delete_manifest_chunks_stmt (file, owner) d).

Definition commit_manifest_atomic (k : ManifestKey) (attributions : list string) (lost : list string)
    (m : list (bytes * Z)) (d : FileDb) : Result FileDb ServerError :=
  rows <-? chunk_rows m ;;
  match lost with
  | [] =>
      match mark_manifest_committed_stmt k d with
      | (O, _) => Ok d
      | (_, d) => tell k.1 "available" attributions d
      end
  | _ =>
      let d := foldl (rechunk k.1 rows) d (filter (fun owner => owner <> k.2) lost) in
      let '(restored, d) := restore_lost_manifests_stmt k.1 (restore_lost_chunks_stmt k.1 d) in
      let d := if decide (k.2 ∈ restored) then d else delete_manifest_stmt k d in
      tell k.1 "available" (restored ≫= attributions_of_key (fc_settings cfg)) d
  end.

(** A manifest's declared bytes, [saturating_add] along it. *)
Definition declared_bytes (m : list (bytes * Z)) : Z := foldl (fun acc c => sat_add u64_max acc c.2) 0 m.

(** The uploader's quota; a healer that is not an original uploader is charged
    nothing. *)
Definition check_quota (key : string) (lost : list string) (declared : Z) (d : FileDb) :
    Result unit ServerError :=
  if decide (0 < identity_quota (fc_quotas cfg) /\ (lost = [] \/ key ∈ lost)) then
    used <-? uploader_committed_bytes key d ;;
    if decide (identity_quota (fc_quotas cfg) < sat_add u64_max used declared) then Err QuotaExceeded else Ok tt
  else Ok tt.

(** The commit transaction. *)
Definition commit_body (k : ManifestKey) (attributions : list string) (new_bytes : Z) (io : bytes -> bool)
    (w : FileWorld) : Result unit ServerError * FileWorld :=
  match load_manifest_locked k (db w) with
  | Err e => (Err e, w)
  | Ok None => if file_committed k.1 (db w) then (Ok tt, w) else (Err NotFound, w)
  | Ok (Some Committed) =>
      match tell k.1 "available" attributions (db w) with
      | Ok d => (Ok tt, with_db d w)
      | Err e => (Err e, w)
      end
  | Ok (Some (Uncommitted m)) =>
      match
        _ <-? check_deployment_ceilings (ceilings w) (fc_quotas cfg) new_bytes (fw_clock w) ;;
        _ <-? verify_file_identity io k.1 m (chunks w) ;;
        let lost := lost_manifest_callers_stmt k.1 (db w) in
        _ <-? check_quota k.2 lost (declared_bytes m) (db w) ;;
        commit_manifest_atomic k attributions lost m (db w)
      with
      | Ok d => (Ok tt, with_db d w)
      | Err e => (Err e, w)
      end
  end.

(** Whose commit a request is: its caller, its manifest and who is told. *)
Definition committer (token id : bytes) (now : Z) :
    Result (ContentCaller * ManifestKey * list string) ServerError :=
  ticket <-? verify_verb (fc_public cfg) now token Write ;;
  file <-? ok_or (parse_hex_32 id) BadParam ;;
  if decide (file <> tk_file ticket) then Err NotFound
  else
    key <-? manifest_key (fc_settings cfg) (tk_caller ticket) ;;
    names <-? attributed (tk_caller ticket) ;;
    Ok (tk_caller ticket, (file, key), names).

Definition manifest_chunk_pairs (k : ManifestKey) (d : FileDb) : list (bytes * Z) :=
  (fun r => (chunk_hash r, chunk_len r)) <$> manifest_rows k d.

(** What the commit would add to the stored bytes, when a ceiling asks: its chunks
    as one read has them, and what is committed as another does. *)
Definition storage_new_bytes (c : ContentCaller) (k : ManifestKey) (d d' : FileDb) : Z :=
  if decide (0 < storage_ceiling (fc_quotas cfg)) then new_declared_bytes c (manifest_chunk_pairs k d) d'
  else 0.

(** ** Collecting: sweep.rs *)

(** The sweep's transaction, and what it lists afterwards. *)
Definition prepare_sweep (grace now : Z) (d : FileDb) : nat * FileDb :=
  let candidates := lock_sweep_rows_stmt grace now d in
  let '(orphans, d) := delete_orphaned_stmt grace now d in
  (length orphans,
   match candidates with [] => d | _ => mark_unreferenced_deleting_stmt candidates d end).

(** Each hash leaves the store first and the registry second; [drops] is whether
    the store deletes it. A failed deletion is left for the next sweep. Here nothing
    else fails and nobody else moves; sweeps that are interrupted or overlap are made
    of the moves below. The code skips a hash that is not 32 bytes, which no statement writes. *)
Fixpoint delete_store_then_records (drops : bytes -> bool) (hashes : list bytes) (w : FileWorld) :
    nat * bool * FileWorld :=
  match hashes with
  | [] => (0%nat, true, w)
  | h :: hashes' =>
      if drops h then
        let w := with_store (delete_chunk h (chunks w)) w in
        let w := with_db (delete_registry_row_stmt h (db w)) w in
        let '(n, ok, w) := delete_store_then_records drops hashes' w in
        (S n, ok, w)
      else
        let '(n, _, w) := delete_store_then_records drops hashes' w in (n, false, w)
  end.

Definition sweep (drops : bytes -> bool) (w : FileWorld) : Result nat ServerError * FileWorld :=
  if decide (i32_max < fc_grace cfg) then (Err BadParam, w)
  else
    let '(removed, d) := prepare_sweep (fc_grace cfg) (fw_clock w) (db w) in
    let '(n, ok, w) := delete_store_then_records drops (list_deleting_hashes d) (with_db d w) in
    (if ok then Ok (removed + n)%nat else Err EStore, w).

(** ** The boot pass: reconcile.rs *)

(** The bytes each manifest is missing. *)
Definition tally_missing (rows : list (ManifestKey * Z)) : gmap ManifestKey Z :=
  foldl (fun m r => <[r.1 := default 0 (m !! r.1) + r.2]> m) ∅ rows.

Fixpoint mark_lost (file : bytes) (owners : list (string * Z)) (missing : list bytes) (d : FileDb) :
    Result (bool * FileDb) ServerError :=
  match owners with
  | [] => Ok (false, d)
  | (key, n) :: owners' =>
      match mark_manifest_lost_stmt (file, key) n d with
      | (O, _) => mark_lost file owners' missing d
      | (_, d) =>
          d <-? tell file "lost" (attributions_of_key (fc_settings cfg) key)
                  (unstore_manifest_chunks_stmt (file, key) missing d) ;;
          '(_, d) <-? mark_lost file owners' missing d ;;
          Ok (true, d)
      end
  end.

(** [store.list], first of all. The clock reaches back further than any grace. *)
Definition boot_list (w : FileWorld) : BootPass := {|
  boot_cutoff := fw_clock w - fc_grace cfg;
  listed := (fun p => (p.1, modified p.2)) <$> map_to_list (chunks w);
  registry := ∅; missing := []; sums := ∅; orphans_removed := 0; lost_files := []; stage := Listed |}.

Definition at_stage (s : Stage) (b : BootPass) : BootPass := {|
  boot_cutoff := boot_cutoff b; listed := listed b; registry := registry b; missing := missing b;
  sums := sums b; orphans_removed := orphans_removed b; lost_files := lost_files b; stage := s |}.
Definition with_read (r : gmap bytes ChunkState) (b : BootPass) : BootPass := {|
  boot_cutoff := boot_cutoff b; listed := listed b; registry := r; missing := missing b;
  sums := sums b; orphans_removed := orphans_removed b; lost_files := lost_files b; stage := stage b |}.
Definition with_missing (l : list bytes) (b : BootPass) : BootPass := {|
  boot_cutoff := boot_cutoff b; listed := listed b; registry := registry b; missing := l;
  sums := sums b; orphans_removed := orphans_removed b; lost_files := lost_files b; stage := stage b |}.
Definition with_sums (m : gmap ManifestKey Z) (b : BootPass) : BootPass := {|
  boot_cutoff := boot_cutoff b; listed := listed b; registry := registry b; missing := missing b;
  sums := m; orphans_removed := orphans_removed b; lost_files := lost_files b; stage := stage b |}.
Definition with_outcome (n : nat) (l : list bytes) (b : BootPass) : BootPass := {|
  boot_cutoff := boot_cutoff b; listed := listed b; registry := registry b; missing := missing b;
  sums := sums b; orphans_removed := n; lost_files := l; stage := stage b |}.

(** The listed chunks that are old and that no registry row named. *)
Definition orphans (b : BootPass) : list bytes :=
  omap (fun p => if bool_decide (p.2 <= boot_cutoff b) && bool_decide (registry b !! p.1 = None)
                 then Some p.1 else None) (listed b).

(** The rows of stored chunks that were not listed, which are probed again. *)
Definition suspects (b : BootPass) : list bytes :=
  omap (fun p => if bool_decide (p.2 = Stored) && negb (bool_decide (p.1 ∈ (listed b).*1))
                 then Some p.1 else None) (map_to_list (registry b)).

(** The files of a tally and the owners of one, in the order of a [BTreeMap]. *)
Definition files_of (m : gmap ManifestKey Z) : list bytes :=
  merge_sort bytes_le (remove_dups ((fun p => p.1.1) <$> map_to_list m)).
Definition owners_of (file : bytes) (m : gmap ManifestKey Z) : list (string * Z) :=
  omap (fun key => (fun n => (key, n)) <$> m !! (file, key))
    (merge_sort string_le (omap (fun p => if decide (p.1.1 = file) then Some p.1.2 else None) (map_to_list m))).

(** The heads of the pass's three loops. *)
Definition probe_next (rest : list bytes) (b : BootPass) : BootPass :=
  match rest with
  | [] => at_stage (match missing b with [] => Finished | _ => Found end) b
  | _ => at_stage (Probing rest) b
  end.
Definition look_next (rest : list bytes) (b : BootPass) : BootPass :=
  match rest with [] => probe_next (suspects b) b | _ => at_stage (Looking rest) b end.
Definition mark_next (files : list bytes) (b : BootPass) : BootPass :=
  match files with [] => at_stage Marked b | _ => at_stage (Marking files) b end.

(** What the pass awaits, each a statement, a transaction or a call of the store. *)
Inductive BootStep := BRead | BClaim | BDrop | BForget | BProbe | BName | BMark | BUnstore | BPending.

(** An await that fails, before or after it took effect, ends the pass. *)
Definition boot_do (fate : TxFate) (w w' : FileWorld) (b : BootPass) : option BootPass * FileWorld :=
  match fate with Carried => (Some b, w') | RolledBack => (None, w) | Unanswered => (None, w') end.

Definition reconcile_step (s : BootStep) (fate : TxFate) (b : BootPass) (w : FileWorld) :
    option BootPass * FileWorld :=
  match s, stage b with
  | BRead, Listed =>
      let b := with_read (chunk_registry (db w)) b in boot_do fate w w (look_next (orphans b) b)
  | BClaim, Looking (h :: rest) =>
      match claim_orphan_stmt h (db w) with
      | (O, _) => boot_do fate w w (look_next rest b)
      | (_, d) => boot_do fate w (with_db d w) (at_stage (Claimed h rest) b)
      end
  | BDrop, Claimed h rest =>
      boot_do fate w (with_store (delete_chunk h (chunks w)) w) (at_stage (Dropped h rest) b)
  | BForget, Dropped h rest =>
      boot_do fate w (with_db (delete_registry_row_stmt h (db w)) w)
        (look_next rest (with_outcome (S (orphans_removed b)) (lost_files b) b))
  | BProbe, Probing (h :: rest) =>
      boot_do fate w w (probe_next rest (if has_chunk h (chunks w) then b else with_missing (missing b ++ [h]) b))
  | BName, Found =>
      let m := tally_missing (stored_rows_naming_stmt (missing b) (db w)) in
      boot_do fate w w (mark_next (files_of m) (with_sums m b))
  | BMark, Marking (file :: files) =>
      match mark_lost file (owners_of file (sums b)) (missing b) (db w) with
      | Err _ => (None, w)
      | Ok (marked, d) =>
          boot_do fate w (with_db d w)
            (mark_next files (with_outcome (orphans_removed b)
               (if marked then lost_files b ++ [file] else lost_files b) b))
      end
  | BUnstore, Marked =>
      boot_do fate w (with_db (unstore_chunks_stmt (missing b) (db w)) w) (at_stage Unstored b)
  | BPending, Unstored =>
      boot_do fate w (with_db (mark_registry_pending_stmt (missing b) (db w)) w) (at_stage Finished b)
  | _, _ => (Some b, w)
  end.

(** What a pass does next. *)
Definition boot_due (b : BootPass) : option BootStep :=
  match stage b with
  | Listed => Some BRead | Looking _ => Some BClaim | Claimed _ _ => Some BDrop | Dropped _ _ => Some BForget
  | Probing _ => Some BProbe | Found => Some BName | Marking _ => Some BMark | Marked => Some BUnstore
  | Unstored => Some BPending | Finished => None
  end.

(** The pass from listing to end, with the fate of each await in turn and nobody
    else at work; where no fate is left it has not ended. *)
Fixpoint boot_run (fates : list TxFate) (b : BootPass) (w : FileWorld) : option BootPass * FileWorld :=
  match boot_due b, fates with
  | Some s, fate :: fates' =>
      match reconcile_step s fate b w with (Some b, w) => boot_run fates' b w | e => e end
  | _, _ => (Some b, w)
  end.

Definition reconcile_store (fates : list TxFate) (w : FileWorld) : option BootPass * FileWorld :=
  boot_run fates (boot_list w) w.

(** ** The meters: [refresh_once] *)

(** Each meter is read and published on its own; [reads] is whether the database
    answers each. *)
Definition refresh_once (reads : bool * bool) (w : FileWorld) : FileWorld :=
  let t := ceilings w in
  let t := match stored_chunk_bytes (db w) with
           | Ok n => if reads.1 then {| stored_bytes := n; window_total := window_total t;
                                        oldest_day := oldest_day t |} else t
           | Err _ => t
           end in
  let t := match window_bytes (window_days (fc_quotas cfg)) (fw_clock w / 86400) (db w) with
           | Ok (n, day) => if reads.2 then {| stored_bytes := stored_bytes t; window_total := n;
                                               oldest_day := day |} else t
           | Err _ => t
           end in
  with_ceilings t w.

(** ** Serving: serve.rs *)

Definition visible_ascii (b : Z) : bool := bool_decide (32 <= b < 127 \/ b = 9).

Fixpoint strip_bytes (p s : bytes) : option bytes :=
  match p, s with
  | [], _ => Some s
  | a :: p', b :: s' => if decide (a = b) then strip_bytes p' s' else None
  | _, _ => None
  end.

Fixpoint split_at (c : Z) (s : bytes) : option (bytes * bytes) :=
  match s with
  | [] => None
  | d :: s' => if decide (d = c) then Some ([], s') else '(a, b) ← split_at c s'; Some (d :: a, b)
  end.

(** [str::trim] of visible ASCII. *)
Fixpoint trim_start (s : bytes) : bytes :=
  match s with
  | b :: s' => if decide (b = 32 \/ b = 9) then trim_start s' else s
  | [] => []
  end.

Definition trim (s : bytes) : bytes := rev (trim_start (rev (trim_start s))).

Definition parse_u64 (s : bytes) : option Z := parse_unsigned 10 u64_max (trim s).

(** An inclusive range of a file of [total] bytes, or none for all of it. *)
Definition parse_range (hdr : option bytes) (total : Z) : Result (option (Z * Z)) ServerError :=
  match hdr with
  | None => Ok None
  | Some value =>
      let s := if forallb visible_ascii value then value else [] in
      let s := default [] (strip_bytes (bytes_of_string "bytes=") s) in
      '(lo_s, hi_s) <-? ok_or (split_at 45 s) RangeNotSatisfiable ;;
      match trim lo_s with
      | [] =>
          n <-? ok_or (parse_u64 hi_s) RangeNotSatisfiable ;;
          if decide (total = 0 \/ n = 0) then Err RangeNotSatisfiable
          else Ok (Some (sat_sub total n, total - 1))
      | _ =>
          lo <-? ok_or (parse_u64 lo_s) RangeNotSatisfiable ;;
          if decide (total = 0 \/ total <= lo) then Err RangeNotSatisfiable
          else
            hi <-? match trim hi_s with
                   | [] => Ok (total - 1)
                   | _ => hi <-? ok_or (parse_u64 hi_s) RangeNotSatisfiable ;; Ok (Z.min hi (total - 1))
                   end ;;
            if decide (hi < lo) then Err RangeNotSatisfiable else Ok (Some (lo, hi))
      end
  end.

Record FileResponse := {
  fr_status : Z; fr_length : Z; fr_range : option (Z * Z); fr_total : Z; fr_chunks : list (bytes * Z) }.

Definition load_any_committed_manifest (file : bytes) (d : FileDb) :
    Result (option (list (bytes * Z))) ServerError :=
  match any_committed_manifest_caller_stmt file d with
  | None => Ok None
  | Some key => m <-? manifest_from_rows (manifest_rows (file, key) d) ;; Ok (Some m)
  end.

Definition file_visible_to_caller (file : bytes) (c : ContentCaller) (d : FileDb) : bool :=
  bool_decide (file ∈ connetto_visible_files (app d) (bind_caller (fc_settings cfg) (fc_marker cfg) c) [file]).

(** The response's head; the body is [serving_stream]. *)
Definition get_file (id token : bytes) (hdr : option bytes) (w : FileWorld) : Result FileResponse ServerError :=
  ticket <-? verify_verb (fc_public cfg) (fw_clock w) token Read ;;
  if decide (0 < bandwidth_ceiling (fc_quotas cfg) /\
             bandwidth_ceiling (fc_quotas cfg) <= window_total (ceilings w)) then
    Err (BandwidthCeiling (bandwidth_retry_after_secs (oldest_day (ceilings w))
                             (window_days (fc_quotas cfg)) (fw_clock w)))
  else
    file <-? ok_or (parse_hex_32 id) BadParam ;;
    if decide (file <> tk_file ticket) then Err NotFound
    else if file_visible_to_caller file (tk_caller ticket) (db w) then
      found <-? load_any_committed_manifest file (db w) ;;
      m <-? ok_or found NotFound ;;
      let total := foldr Z.add 0 m.*2 in
      range <-? parse_range hdr total ;;
      let n := match range with None => total | Some (lo, hi) => hi - lo + 1 end in
      if decide (ceiling ticket < n) then Err NotFound
      else Ok {| fr_status := match range with Some _ => 206 | None => 200 end;
                 fr_length := n; fr_range := range; fr_total := total; fr_chunks := m |}
    else Err NotFound.

(** The slices of the chunks that meet [lo..hi], the first of them at [cursor];
    [read] is the store at the moment each chunk is asked for. The body ends at the
    first error. *)
Fixpoint serving_stream (read : bytes -> option bytes) (m : list (bytes * Z)) (cursor lo hi : Z) :
    bytes * bool :=
  match m with
  | [] => ([], true)
  | (h, len) :: m' =>
      if decide (len = 0) then serving_stream read m' cursor lo hi
      else if decide (cursor + len - 1 < lo) then serving_stream read m' (cursor + len) lo hi
      else if decide (hi < cursor) then ([], true)
      else
        match read h with
        | None => ([], false)
        | Some d =>
            if decide (Z.of_nat (length d) <> len) then ([], false)
            else
              let from := sat_sub lo cursor in
              let upto := Z.min (hi - cursor) (len - 1) in
              let '(rest, ok) := serving_stream read m' (cursor + len) lo hi in
              (firstn (Z.to_nat (upto - from + 1)) (skipn (Z.to_nat from) d) ++ rest, ok)
        end
  end.

(** The body of a response. *)
Definition body_of (read : bytes -> option bytes) (r : FileResponse) : bytes * bool :=
  if decide (fr_total r = 0) then ([], true)
  else
    let '(lo, hi) := default (0, fr_total r - 1) (fr_range r) in
    serving_stream read (fr_chunks r) 0 lo hi.

(** ** Interleavings *)

Inductive Move :=
| MIntent (token id : bytes) (body : IntentRequest) (checked : Z) (fate : TxFate)
| MPut (text token body : bytes) (checked : Z) (written : bool) (fate : TxFate)
| MCommit (token id : bytes) (checked new_bytes : Z) (io : bytes -> bool) (fate : TxFate)
| MSweepMark | MSweepList | MSweepDrop (i : nat) (fate : TxFate) | MSweepForget (i : nat) | MSweepEnd (i : nat)
| MBootList | MBoot (s : BootStep) (i : nat) (fate : TxFate) | MBootEnd (i : nat)
| MRefresh (reads : bool * bool) | MServed (n : Z)
(** What the rest of the world does: the application's own writes, time, a store
    that loses a chunk, a process that dies. *)
| MApp (a : App) | MTick (n : Z) | MLose (h : bytes) | MCrash.

(** The commit transaction of a request whose checks passed. *)
Definition flip (token id : bytes) (checked new_bytes : Z) (io : bytes -> bool) (fate : TxFate) (w : FileWorld) :
    Result unit ServerError * FileWorld :=
  match committer token id checked with
  | Err e => (Err e, w)
  | Ok (_, k, names) => transaction fate (commit_body k names new_bytes io) w
  end.

(** A deletion that is said to have failed may have been carried out. *)
Definition sweep_drop (fate : TxFate) (s : Sweep) (w : FileWorld) : Sweep * FileWorld :=
  match dropping s, todo s with
  | None, h :: rest =>
      match fate with
      | Carried => ({| todo := rest; dropping := Some h |}, with_store (delete_chunk h (chunks w)) w)
      | RolledBack => ({| todo := rest; dropping := None |}, w)
      | Unanswered => ({| todo := rest; dropping := None |}, with_store (delete_chunk h (chunks w)) w)
      end
  | _, _ => (s, w)
  end.

Definition sweep_forget (s : Sweep) (w : FileWorld) : Sweep * FileWorld :=
  match dropping s with
  | Some h => ({| todo := todo s; dropping := None |}, with_db (delete_registry_row_stmt h (db w)) w)
  | None => (s, w)
  end.

(** A step of the sweep at [i]. *)
Definition sweep_step (i : nat) (f : Sweep -> FileWorld -> Sweep * FileWorld) (w : FileWorld) : FileWorld :=
  match sweeps w !! i with
  | Some s => let '(s, w') := f s w in with_sweeps (<[i := s]> (sweeps w)) w'
  | None => w
  end.

(** A step of the boot pass at [i]. *)
Definition boot_step (i : nat) (f : BootPass -> FileWorld -> option BootPass * FileWorld) (w : FileWorld) : FileWorld :=
  match boots w !! i with
  | Some b =>
      let '(b', w') := f b w in
      with_boots (match b' with Some b => <[i := b]> (boots w) | None => delete i (boots w) end) w'
  | None => w
  end.

Definition move (m : Move) (w : FileWorld) : FileWorld :=
  match m with
  | MIntent token id body checked fate => (declare token id body checked fate w).2
  | MPut text token body checked written fate => (put_chunk text token body checked written fate w).2
  | MCommit token id checked n io fate => (flip token id checked n io fate w).2
  | MSweepMark => with_db (prepare_sweep (fc_grace cfg) (fw_clock w) (db w)).2 w
  | MSweepList =>
      with_sweeps (sweeps w ++ [{| todo := list_deleting_hashes (db w); dropping := None |}]) w
  | MSweepDrop i fate => sweep_step i (sweep_drop fate) w
  | MSweepForget i => sweep_step i sweep_forget w
  | MSweepEnd i => with_sweeps (delete i (sweeps w)) w
  | MBootList => with_boots (boots w ++ [boot_list w]) w
  | MBoot s i fate => boot_step i (reconcile_step s fate) w
  | MBootEnd i => with_boots (delete i (boots w)) w
  | MRefresh reads => refresh_once reads w
  | MServed n => with_db (ledger_add (fw_clock w / 86400) n 0 (db w)) w
  | MApp a => with_db (with_app a (db w)) w
  | MTick n => with_clock (fw_clock w + Z.max 0 n) w
  | MLose h => with_astray ({[h]} ∪ astray w) (with_store (delete h (chunks w)) w)
  | MCrash => with_boots [] (with_sweeps [] w)
  end.

Definition moves (l : list Move) (w : FileWorld) : FileWorld := foldl (fun w m => move m w) w l.

(** Declares, then answers which chunks are needed; [others] move in between. *)
Definition post_intent (token id : bytes) (body : IntentRequest) (fate : TxFate) (others : list Move)
    (w : FileWorld) : Result (list bytes) ServerError * FileWorld :=
  match declare token id body (fw_clock w) fate w with
  | (Err e, w) => (Err e, w)
  | (Ok (ticket, k, l), w) =>
      let w := moves others w in
      (Ok (hex_32 <$> needed_hashes (tk_caller ticket) l k (db w)), w)
  end.

(** Checks that the chunks are there, measures, and commits; the others move
    before each access of the database. *)
Definition post_commit (token id : bytes) (io : bytes -> bool) (fate : TxFate)
    (others1 others2 others3 : list Move) (w : FileWorld) : Result unit ServerError * FileWorld :=
  match committer token id (fw_clock w) with
  | Err e => (Err e, w)
  | Ok (c, k, _) =>
      if all_chunks_satisfied k c (db w) then
        let w1 := moves others1 w in
        let w2 := moves others2 w1 in
        flip token id (fw_clock w) (storage_new_bytes c k (db w1) (db w2)) io fate (moves others3 w2)
      else (Err CommitRefused, w)
  end.
End Server.
