(* ===== verification/FileClient.v ===== *)
(** The client's transfers (connetto-file-client: upload.rs, http.rs, error.rs) and the
    addresses they use, which the server's signer mints (connetto-file-server:
    ticket.rs).

    A transfer is requests through [ContentHttp], each over the state [W] of whatever
    answers them. The parser of addresses, the JSON of the intent and the coding of
    tickets are classes. *)

From Stdlib Require Import ZArith Lia Ascii.
From stdpp Require Import base list numbers option strings gmap.
From S2P Require Import Prelude Throttle Guard Cursor Caller Percent FileTables FileCore FileServer.

Open Scope Z_scope.

Abbreviation text := bytes_of_string.

(** ** Errors *)

Inductive TransferStage := SIntent | SChunk | SCommit | SDownload.

Inductive ContentError :=
| CReplica | CClient | CStore | CArchive | CTransport (stage : TransferStage) | TicketRefused | TicketSignerError
| TicketRateLimited (retry_after_ms : Z) | TicketAbandoned | TicketLagged | MalformedGrant (url : bytes)
| Http (stage : TransferStage) (status : Z) | Redirected (stage : TransferStage) | Decode (stage : TransferStage)
| NoManifest (file : bytes) | LostChunk (file hash : bytes) | IdentityMismatch (expected actual : bytes)
| PinColumnMissing | HealColumnMissing.

Inductive AttemptOutcome := Retry | Refused | Lost.

Definition outcome (e : ContentError) : AttemptOutcome :=
  match e with
  | NoManifest _ | LostChunk _ _ => Lost
  | Http _ status => if decide (status ∈ [400; 413; 422; 507]) then Refused else Retry
  | Decode _ | Redirected _ | MalformedGrant _ | IdentityMismatch _ _ | CArchive | PinColumnMissing
  | HealColumnMissing => Refused
  | _ => Retry
  end.

(** ** Requests *)

Record HttpReply := { reply_status : Z; reply_body : bytes }.

Inductive HttpFailure := Transport | WasRedirected.

Class ContentHttp (W : Type) := {
  post : bytes -> option bytes -> W -> Result HttpReply HttpFailure * W;
  put : bytes -> bytes -> W -> Result HttpReply HttpFailure * W;
  get : bytes -> option (Z * Z) -> W -> Result HttpReply HttpFailure * W;
}.

(** The [url] crate: what the code reads of a parsed address. *)
Inductive UrlHost := Domain (d : string) | Ipv4 (a : Z) | Ipv6 (a : Z).

Record ParsedUrl := {
  scheme : string; host : option UrlHost; username : string; password : option string;
  query : option string; fragment : option string }.

Class UrlParser := { parse_address : bytes -> option ParsedUrl }.

(** [Ipv4Addr::LOCALHOST] and [Ipv6Addr::LOCALHOST], as numbers. *)
Definition loopback (h : option UrlHost) : bool :=
  match h with
  | Some (Domain d) => bool_decide (d = "localhost")
  | Some (Ipv4 a) => bool_decide (a = 2130706433)
  | Some (Ipv6 a) => bool_decide (a = 1)
  | None => false
  end.

Definition safe_address (u : ParsedUrl) : bool :=
  bool_decide (username u = "") && bool_decide (password u = None) &&
  (bool_decide (scheme u = "https") || bool_decide (scheme u = "http") && loopback (host u)).

Definition validate_ticket_url `{UrlParser} (grant_url : bytes) : Result unit ContentError :=
  u <-? ok_or (parse_address grant_url) (MalformedGrant grant_url) ;;
  if safe_address u then Ok tt else Err (MalformedGrant grant_url).

(** ** Splitting an address *)

(** [str::split_once], [str::strip_suffix] and [str::rsplit_once] of a text. *)
Fixpoint split_text (pat s : bytes) : option (bytes * bytes) :=
  match strip_bytes pat s with
  | Some rest => Some ([], rest)
  | None =>
      match s with
      | [] => None
      | c :: s' => '(a, b) ← split_text pat s'; Some (c :: a, b)
      end
  end.

Definition strip_suffix (pat s : bytes) : option bytes := (fun x => rev x) <$> strip_bytes (rev pat) (rev s).

Definition rsplit_text (pat s : bytes) : option (bytes * bytes) :=
  '(a, b) ← split_text (rev pat) (rev s); Some (rev b, rev a).

Record WriteEndpoints := { base : bytes; token : bytes }.

Definition split_grant (grant_url : bytes) : option WriteEndpoints :=
  '(address, tok) ← split_text (text "?t=") grant_url;
  stripped ← strip_suffix (text "/intent") address;
  '(b, _) ← rsplit_text (text "/files/") stripped;
  match tok, b with
  | [], _ | _, [] => None
  | _, _ => Some {| base := b; token := tok |}
  end.

Definition parse_grant `{UrlParser} (grant_url : bytes) : Result WriteEndpoints ContentError :=
  _ <-? validate_ticket_url grant_url ;; ok_or (split_grant grant_url) (MalformedGrant grant_url).

Definition chunk_address (e : WriteEndpoints) (hex : bytes) : bytes :=
  base e ++ text "/chunks/" ++ hex ++ text "?t=" ++ token e.

Definition commit_address (e : WriteEndpoints) (file : bytes) : bytes :=
  base e ++ text "/files/" ++ hex_32 file ++ text "/commit?t=" ++ token e.

(** ** Transfers *)

(** The JSON of an intent and of its answer. *)
Class IntentJson := {
  intent_to_vec : IntentRequest -> option bytes;
  intent_from_slice : bytes -> option IntentRequest;
  needed_to_vec : list bytes -> bytes;
  needed_from_slice : bytes -> option (list bytes);
}.

Section Transfer.
Context {UP : UrlParser} {IJ : IntentJson} {W : Type} {HT : ContentHttp W} {St E : Type} {CS : ChunkStore St E}.

Definition send (stage : TransferStage) (r : Result HttpReply HttpFailure) : Result HttpReply ContentError :=
  reply <-? map_err (fun f => match f with Transport => CTransport stage | WasRedirected => Redirected stage end) r ;;
  if decide (300 <= reply_status reply < 400) then Err (Redirected stage) else Ok reply.

Definition expect (reply : HttpReply) (wanted : Z) (stage : TransferStage) : Result HttpReply ContentError :=
  if decide (reply_status reply = wanted) then Ok reply else Err (Http stage (reply_status reply)).

Definition intent_of (m : Manifest) : IntentRequest :=
  {| ir_total := foldr Z.add 0 (manifest_metas m).*2;
     ir_chunks := (fun c => (hex_32 c.1, c.2)) <$> manifest_metas m |}.

Definition declare (intent_url : bytes) (m : Manifest) (w : W) : Result (list bytes) ContentError * W :=
  match intent_to_vec (intent_of m) with
  | None => (Err (Decode SIntent), w)
  | Some body =>
      let '(r, w) := post intent_url (Some body) w in
      (reply <-? send SIntent r ;; reply <-? expect reply 200 SIntent ;;
       ok_or (needed_from_slice (reply_body reply)) (Decode SIntent), w)
  end.

Fixpoint send_chunks (e : WriteEndpoints) (file : bytes) (l : list (bytes * Z)) (s : St) (needed : list bytes) (w : W) :
    Result unit ContentError * W :=
  match l with
  | [] => (Ok tt, w)
  | c :: l' =>
      if decide (hex_32 c.1 ∈ needed) then
        match cs_read c.1 s with
        | Err err => (Err (if read_failure_is_ambiguous err then CStore else LostChunk file c.1), w)
        | Ok d =>
            let '(r, w) := put (chunk_address e (hex_32 c.1)) d w in
            match reply <-? send SChunk r ;; expect reply 204 SChunk with
            | Ok _ => send_chunks e file l' s needed w
            | Err err => (Err err, w)
            end
        end
      else send_chunks e file l' s needed w
  end.

Definition upload (grant_url : bytes) (m : Manifest) (s : St) (w : W) : Result unit ContentError * W :=
  match parse_grant grant_url with
  | Err e => (Err e, w)
  | Ok e =>
      match declare grant_url m w with
      | (Err err, w) => (Err err, w)
      | (Ok needed, w) =>
          match send_chunks e (file_id m) (manifest_metas m) s needed w with
          | (Err err, w) => (Err err, w)
          | (Ok _, w) =>
              let '(r, w) := post (commit_address e (file_id m)) None w in
              (reply <-? send SCommit r ;; _ <-? expect reply 200 SCommit ;; Ok tt, w)
          end
      end
  end.

Definition download (grant_url : bytes) (w : W) : Result bytes ContentError * W :=
  match validate_ticket_url grant_url with
  | Err e => (Err e, w)
  | Ok _ =>
      let '(r, w) := get grant_url None w in
      (reply <-? send SDownload r ;; reply <-? expect reply 200 SDownload ;; Ok (reply_body reply), w)
  end.
End Transfer.

(** ** The signer *)

(** Base64, Ed25519 and postcard in the other direction. *)
Class TicketSigning := {
  SigningKey : Type;
  b64_encode : bytes -> bytes;
  public_key : SigningKey -> bytes;
  sign : SigningKey -> bytes -> bytes;
  payload_to_bytes : TicketPayload -> option bytes;
}.

Inductive ContentVerb := CRead | CWrite (declared_len : Z).

Section Signer.
Context {UP : UrlParser} {TS : TicketSigning}.

Record TicketSigner := { key_pair : SigningKey; base_url : bytes; ticket_ttl : Z; read_ceiling : Z }.

(** [trim_end_matches('/')]. *)
Fixpoint drop_slashes (s : bytes) : bytes :=
  match s with c :: s' => if decide (c = 47) then drop_slashes s' else s | [] => [] end.

(** [None] for a base that is not safe to mint against, or that has a query. *)
Definition normalize_base (b : bytes) : option bytes :=
  u ← parse_address b;
  if bool_decide (query u = None) && bool_decide (fragment u = None) && safe_address u
  then Some (rev (drop_slashes (rev b))) else None.

Definition mint (signer : TicketSigner) (p : TicketPayload) : option bytes :=
  payload ← payload_to_bytes p;
  Some (b64_encode payload ++ [46] ++ b64_encode (sign (key_pair signer) payload)).

Definition mint_content (signer : TicketSigner) (c : ContentCaller) (file : bytes) (v : ContentVerb) (now : Z) :
    option bytes :=
  if decide (ticket_ttl signer <= i64_max /\ now + ticket_ttl signer <= i64_max) then
    let '(local, ceil) := match v with CRead => (Read, read_ceiling signer) | CWrite n => (Write, n) end in
    tok ← mint signer {| tk_file := file; verb := local; ceiling := ceil; expiry := now + ticket_ttl signer;
                         tk_caller := c |};
    Some (base_url signer ++ text "/files/" ++ hex_32 file ++
            match v with CRead => text "?t=" | CWrite _ => text "/intent?t=" end ++ tok)
  else None.
End Signer.
