(* ===== verification/FileSafe.v ===== *)
(** What the file server keeps: no chunk a manifest names is collected, and a
    committed file's chunks make up the file its id names.

    The invariant is stated on what the tables say of each manifest, its [shape] and
    whether it is committed, and each statement is described by its effect on
    those. *)

From Stdlib Require Import ZArith Lia.
From stdpp Require Import base list numbers option strings gmap fin_maps fin_map_dom sorting.
From S2P Require Import Prelude Throttle Guard Cursor Caller Percent FileTables FileServer.

Open Scope Z_scope.

Create HintDb files.

Section Shapes.
Context {BL : Blake3} {CD : ContentDeployment}.

Implicit Types (d : FileDb) (k : ManifestKey) (h : bytes) (s : ChunkMap) (g : gset bytes).

(** A manifest's chunks, hash and length, in order. *)
Definition shape k d : list (bytes * Z) := manifest_chunk_pairs k d.

Definition is_committed k d : bool :=
  match manifests d !! k with Some m => committed m | None => false end.

Definition live h d : Prop := exists st, chunk_registry d !! h = Some st /\ st <> Deleting.

(** There are contents of the chunks' hashes and lengths that make up the file. *)
Definition true_content (file : bytes) (m : list (bytes * Z)) : Prop :=
  exists ds, Forall2 (fun c x => blake3 x = c.1 /\ Z.of_nat (length x) = c.2) m ds /\
    blake3 (concat ds) = file.

(** The tables and the store [s], which has lost [g]. *)
Record FileOk d s g : Prop := {
  ok_fk k : manifests d !! k = None -> shape k d = [];
  ok_live k h : h ∈ (shape k d).*1 -> live h d;
  ok_true k : is_committed k d = true -> true_content k.1 (shape k d);
  ok_held k h : is_committed k d = true -> h ∈ (shape k d).*1 -> is_Some (s !! h) \/ h ∈ g;
}.

(** Rows on their way out of the registry stay so. *)
Definition keeps_deleting d d' : Prop :=
  forall h, chunk_registry d !! h = Some Deleting -> chunk_registry d' !! h = Some Deleting.

Definition keeps_live d d' : Prop := forall h, live h d -> live h d'.

(** ** A change that touches no shape *)

Lemma ok_alike d d' s g :
  FileOk d s g ->
  (forall k, shape k d' = shape k d) ->
  (forall k, is_committed k d' = is_committed k d) ->
  (forall k, manifests d' !! k = None -> manifests d !! k = None) ->
  (forall k h, h ∈ (shape k d).*1 -> live h d -> live h d') ->
  FileOk d' s g.
Proof.
  intros [F L T H] Hs Hc Hm Hl. split; intros k.
  - intros Hn. rewrite Hs. apply F, Hm, Hn.
  - intros h Hh. rewrite Hs in Hh. eapply Hl; eauto.
  - rewrite Hc, Hs. apply T.
  - intros h. rewrite Hc, Hs. apply H.
Qed.

Lemma ok_store d s s' g g' :
  FileOk d s g -> (forall h, is_Some (s !! h) \/ h ∈ g -> is_Some (s' !! h) \/ h ∈ g') -> FileOk d s' g'.
Proof. intros [F L T H] Hs. split; [done..|]. intros k h Hc Hh. eauto. Qed.

(** ** Statements *)

Lemma shape_with_registry m k d : shape k (with_registry m d) = shape k d.
Proof. done. Qed.
Lemma shape_with_manifests m k d : shape k (with_manifests m d) = shape k d.
Proof. done. Qed.
Lemma shape_with_app a k d : shape k (with_app a d) = shape k d.
Proof. done. Qed.

Lemma shape_update b p rows :
  (fun r => (chunk_hash r, chunk_len r)) <$> update_stored b p rows = (fun r => (chunk_hash r, chunk_len r)) <$> rows.
Proof.
  unfold update_stored. rewrite <- list_fmap_compose. apply list_fmap_ext. intros i r _. simpl.
  by destruct (p r).
Qed.

Lemma shape_alter b p k' k d :
  shape k (with_chunks (alter (update_stored b p) k' (manifest_chunks d)) d) = shape k d.
Proof.
  unfold shape, manifest_chunk_pairs, manifest_rows. simpl. destruct (decide (k = k')) as [->|Hk].
  - rewrite lookup_alter_eq. destruct (manifest_chunks d !! k'); simpl; [apply shape_update|done].
  - by rewrite lookup_alter_ne.
Qed.

Lemma referenced_true k h d : h ∈ (shape k d).*1 -> referenced h d = true.
Proof.
  unfold shape, manifest_chunk_pairs, manifest_rows. intros Hh.
  destruct (manifest_chunks d !! k) as [rows|] eqn:E; simpl in Hh; [|by apply elem_of_nil in Hh].
  apply existsb_exists. exists (k, rows). split; [by apply list_elem_of_In, elem_of_map_to_list|].
  simpl. unfold names. rewrite bool_decide_eq_true. rewrite <- list_fmap_compose in Hh. exact Hh.
Qed.

Lemma live_pending_batch hashes d h :
  live h d \/ (h ∈ hashes /\ chunk_registry d !! h = None) -> live h (insert_registry_pending_batch_stmt hashes d).
Proof.
  unfold live. simpl. intros [(st & E & Hn)|[Hh E]].
  - exists st. split; [|done]. by apply lookup_union_Some_l.
  - exists Pending. split; [|done]. rewrite lookup_union_r by done.
    apply lookup_gset_to_gmap_Some. split; [by apply elem_of_list_to_set|done].
Qed.

Lemma deleting_pending_batch hashes d : keeps_deleting d (insert_registry_pending_batch_stmt hashes d).
Proof. intros h E. simpl. by apply lookup_union_Some_l. Qed.

(** ** Declaring *)

Lemma shape_insert k l k' d :
  shape k d = [] -> shape k' (insert_chunk_rows_batch_stmt k l d) = if decide (k' = k) then l else shape k' d.
Proof.
  unfold shape, manifest_chunk_pairs. intros Hn. unfold insert_chunk_rows_batch_stmt.
  apply fmap_nil_inv in Hn. rewrite Hn. simpl. unfold manifest_rows. simpl.
  destruct (decide (k' = k)) as [->|Hk].
  - rewrite lookup_insert_eq. simpl. rewrite drop_0, <- list_fmap_compose.
    transitivity (id <$> l); [|by rewrite list_fmap_id]. apply list_fmap_ext. intros i [a b] _. done.
  - by rewrite lookup_insert_ne.
Qed.

Lemma no_deleting_live hashes d h :
  existsb (fun p => bool_decide (p.2 = Deleting)) (lock_registry_rows_stmt hashes (insert_registry_pending_batch_stmt hashes d)) = false ->
  h ∈ hashes -> live h (insert_registry_pending_batch_stmt hashes d).
Proof.
  intros He Hh. destruct (chunk_registry d !! h) as [st|] eqn:E.
  - apply live_pending_batch. left. exists st. split; [done|]. intros ->.
    apply not_true_iff_false in He. apply He. apply existsb_exists. exists (h, Deleting). split; [|done].
    apply list_elem_of_In. unfold lock_registry_rows_stmt. apply list_elem_of_omap. exists h. split; [done|].
    rewrite (deleting_pending_batch hashes d h E). done.
  - apply live_pending_batch. by right.
Qed.

Lemma keep_self d s g : FileOk d s g -> FileOk d s g /\ keeps_deleting d d.
Proof. intros H. split; [done|by intros h]. Qed.

Lemma insert_manifest_ok k total now l d s g :
  FileOk d s g ->
  FileOk (insert_manifest k total now l d).2 s g /\ keeps_deleting d (insert_manifest k total now l d).2.
Proof.
  intros O. unfold insert_manifest.
  set (d1 := insert_registry_pending_batch_stmt _ d).
  assert (keeps_deleting d d1) as Kd by apply deleting_pending_batch.
  destruct (existsb _ _) eqn:He; [by apply keep_self|]. unfold insert_manifest_stmt.
  destruct (manifests d1 !! k) as [m|] eqn:Em; simpl; [by apply keep_self|].
  set (d2 := with_manifests _ d1).
  assert (forall h, h ∈ l.*1 -> live h d1) as Hlive.
  { intros h Hh. eapply no_deleting_live; [exact He|]. by apply elem_of_remove_dups. }
  assert (forall d3 l', (forall k', shape k' d3 = if decide (k' = k) then l' else shape k' d) ->
    manifests d3 = manifests d2 -> chunk_registry d3 = chunk_registry d1 ->
    (forall h, h ∈ l'.*1 -> h ∈ l.*1) -> FileOk d3 s g /\ keeps_deleting d d3) as Hgen.
  { intros d3 l' Hs Hm Hr Hl. split; [|intros h Hh; rewrite Hr; by apply Kd].
    assert (forall k', is_committed k' d3 = true -> k' <> k /\ is_committed k' d = true) as Hc.
    { intros k'. unfold is_committed. rewrite Hm. unfold d2. simpl. destruct (decide (k' = k)) as [->|Hk].
      - by rewrite lookup_insert_eq.
      - by rewrite lookup_insert_ne. }
    split.
    - intros k' Hn. rewrite Hm in Hn. unfold d2 in Hn. simpl in Hn.
      apply lookup_insert_None in Hn as [Hn Hk]. rewrite Hs, decide_False by done. by apply (ok_fk d s g).
    - intros k' h Hh. rewrite Hs in Hh. assert (live h d1) as (st & E & Hd).
      { case_decide; [by apply Hlive, Hl|]. apply live_pending_batch. left. by eapply (ok_live d s g). }
      exists st. by rewrite Hr.
    - intros k' [Hk H]%Hc. rewrite Hs, decide_False by done. by apply (ok_true d s g).
    - intros k' h [Hk H]%Hc. rewrite Hs, decide_False by done. by apply (ok_held d s g). }
  assert (shape k d2 = []) as Hk0 by (apply (ok_fk d s g O); exact Em).
  destruct l as [|c l]; simpl.
  - apply (Hgen d2 []); [|done..]. intros k'. case_decide; [by subst|done].
  - unfold chunk_rows. case_decide; simpl; [|by apply keep_self].
    apply (Hgen _ (c :: l)); [|done..]. intros k'. by rewrite shape_insert.
Qed.

(** ** Storing *)

Lemma account_ok k h len limit d s g :
  FileOk d s g ->
  FileOk (account_chunk_put k h len limit d).2 s g /\ keeps_deleting d (account_chunk_put k h len limit d).2.
Proof.
  intros O. unfold account_chunk_put. destruct (try_into i64_max len) as [n|]; [|by apply keep_self].
  unfold mark_chunk_stored_stmt. set (d1 := with_chunks _ d).
  assert (forall k', shape k' d1 = shape k' d) as S1 by (intros; apply shape_alter).
  assert (FileOk d1 s g) as O1 by (eapply ok_alike; eauto).
  destruct (length _); simpl; [by apply (keep_self d1)|]. unfold tally_bytes_stmt.
  destruct (manifests d1 !! k) as [m|] eqn:Em; simpl; [|by apply (keep_self d1)]. case_decide; simpl; [|by apply (keep_self d1)].
  split.
  - eapply ok_alike; [exact O1|done| | |].
    + intros k'. unfold is_committed. simpl. destruct (decide (k' = k)) as [->|Hk].
      * rewrite lookup_insert_eq. change (manifests d1) with (manifests d) in *. by rewrite Em.
      * by rewrite lookup_insert_ne.
    + intros k'. simpl. intros [Hn _]%lookup_insert_None. done.
    + intros k' h' _ (st & E & Hd). unfold live. simpl. destruct (decide (h' = h)) as [->|Hh].
      * rewrite lookup_alter_eq. simpl in E. rewrite E. simpl. eexists. split; [done|]. by case_decide.
      * rewrite lookup_alter_ne by done. eauto.
  - intros h' E. simpl. destruct (decide (h' = h)) as [->|Hh].
    + rewrite lookup_alter_eq, E. done.
    + by rewrite lookup_alter_ne.
Qed.

Lemma ledger_ok today n n' d s g : FileOk d s g -> FileOk (ledger_add today n n' d) s g.
Proof.
  intros O. unfold ledger_add. destruct (default (0, 0) _). eapply ok_alike; eauto.
Qed.

Lemma ledger_registry today n n' d : chunk_registry (ledger_add today n n' d) = chunk_registry d.
Proof. unfold ledger_add. by destruct (default (0, 0) _). Qed.

(** ** Committing *)

Lemma ok_app a d s g : FileOk d s g -> FileOk (with_app a d) s g.
Proof. intros O. eapply ok_alike; eauto. Qed.

Lemma tell_app file st l d d' : tell file st l d = Ok d' -> exists a, d' = with_app a d.
Proof.
  revert d. induction l as [|n l IH]; intros d; simpl.
  - intros [= <-]. exists (app d). by destruct d.
  - rewrite rbind_Ok. intros (a & _ & [b ->]%IH). by exists b.
Qed.

Definition store_sound s : Prop := forall h c, s !! h = Some c -> blake3 (data c) = h.

Lemma read_all_sound io m s content :
  store_sound s -> read_all io m s = Ok content ->
  (exists ds, Forall2 (fun c x => blake3 x = c.1 /\ Z.of_nat (length x) = c.2) m ds /\ content = concat ds) /\
  forall h, h ∈ m.*1 -> is_Some (s !! h).
Proof.
  intros Hs. revert content. induction m as [|[h len] m IH]; intros content; simpl.
  - intros [= <-]. split; [by exists []|]. intros h []%elem_of_nil.
  - destruct (io h); [|done]. rewrite rbind_Ok. intros (x & Hx%ok_or_Ok & H).
    unfold read_chunk in Hx. apply fmap_Some in Hx as (c & Hc & ->).
    case_decide as Hn; [done|]. rewrite rbind_Ok in H. destruct H as (rest & Hr & [= <-]).
    destruct (IH _ Hr) as [(ds & HF & ->) Hh]. split.
    + exists (data c :: ds). split; [|done]. constructor; [|done]. simpl. split; [by apply Hs|].
      destruct (decide (Z.of_nat (length (data c)) = len)); [done|]. by destruct Hn.
    + intros h' [->|?]%elem_of_cons; [by rewrite Hc|auto].
Qed.

Lemma shape_delete_chunks k k' d :
  shape k' (delete_manifest_chunks_stmt k d) = if decide (k' = k) then [] else shape k' d.
Proof.
  unfold shape, manifest_chunk_pairs, manifest_rows. simpl. case_decide as Hk.
  - subst. by rewrite lookup_delete_eq.
  - by rewrite lookup_delete_ne.
Qed.

Lemma shape_rechunk file rows owner k' d :
  shape k' (rechunk file rows d owner) = if decide (k' = (file, owner)) then rows else shape k' d.
Proof.
  unfold rechunk. rewrite shape_insert, shape_delete_chunks; [by repeat case_decide|].
  by rewrite shape_delete_chunks, decide_True.
Qed.

Lemma rechunk_all file rows owners d :
  let d' := foldl (rechunk file rows) d owners in
  manifests d' = manifests d /\ chunk_registry d' = chunk_registry d /\
  forall k', shape k' d' = if decide (k'.1 = file /\ k'.2 ∈ owners) then rows else shape k' d.
Proof.
  simpl. revert d. induction owners as [|o owners IH]; intros d; simpl.
  - split_and!; [done..|]. intros k'. rewrite decide_False; [done|]. intros [_ []%elem_of_nil].
  - destruct (IH (rechunk file rows d o)) as (Hm & Hr & Hs). split_and!; [by rewrite Hm|by rewrite Hr|].
    intros k'. rewrite Hs, shape_rechunk. destruct k' as [f o']. simpl.
    destruct (decide (f = file /\ o' ∈ owners)) as [[-> Ho]|Hn].
    + rewrite decide_True; [done|]. split; [done|by right].
    + case_decide as Hk; simplify_eq.
      * rewrite decide_True; [done|]. split; [done|by left].
      * rewrite decide_False; [done|]. intros [-> [->|Ho]%elem_of_cons]; [done|]. by apply Hn.
Qed.

Lemma elem_of_lost file owner d :
  owner ∈ lost_manifest_callers_stmt file d <-> is_lost (file, owner) d = true.
Proof.
  unfold lost_manifest_callers_stmt, is_lost. rewrite list_elem_of_omap. split.
  - intros (([f o] & m) & Hm%elem_of_map_to_list & H). simpl in H.
    destruct (decide (f = file)) as [->|Hf]; simpl in H.
    + rewrite bool_decide_true in H by done. simpl in H. destruct (lost m) eqn:El; simplify_eq. by rewrite Hm.
    + by rewrite bool_decide_false in H.
  - destruct (manifests d !! (file, owner)) as [m|] eqn:Em; [|done]. intros El.
    exists ((file, owner), m). split; [by apply elem_of_map_to_list|]. simpl. by rewrite bool_decide_true, El.
Qed.

Lemma shape_restore_chunks file k' d : shape k' (restore_lost_chunks_stmt file d) = shape k' d.
Proof.
  unfold shape, manifest_chunk_pairs, manifest_rows. simpl. rewrite map_lookup_imap.
  destruct (manifest_chunks d !! k') as [rows|]; simpl; [|done].
  destruct (_ && _); simpl; [apply shape_update|done].
Qed.

Lemma restored_committed file k' d :
  is_committed k' (restore_lost_manifests_stmt file d).2 =
    (bool_decide (k'.1 = file) && is_lost k' d || is_committed k' d).
Proof.
  unfold is_committed, is_lost. simpl. rewrite map_lookup_imap. destruct (manifests d !! k') as [m|]; simpl; [|by rewrite andb_false_r].
  by destruct (_ && _).
Qed.

Lemma restored_None file k' d :
  manifests (restore_lost_manifests_stmt file d).2 !! k' = None <-> manifests d !! k' = None.
Proof. simpl. rewrite map_lookup_imap. by destruct (manifests d !! k'). Qed.

(** A manifest whose chunks are all in the store and make up its file. *)
Definition verified (file : bytes) (m : list (bytes * Z)) s : Prop :=
  true_content file m /\ forall h, h ∈ m.*1 -> is_Some (s !! h).

(** What is committed anew is verified; the rest keeps its shape or goes. *)
Lemma ok_commit d d' s g :
  FileOk d s g ->
  chunk_registry d' = chunk_registry d ->
  (forall k, manifests d' !! k = None -> shape k d' = []) ->
  (forall k h, h ∈ (shape k d').*1 -> exists k0, h ∈ (shape k0 d).*1) ->
  (forall k, is_committed k d' = true ->
     verified k.1 (shape k d') s \/ (is_committed k d = true /\ shape k d' = shape k d)) ->
  FileOk d' s g /\ keeps_deleting d d'.
Proof.
  intros O Hr Hf Hs Hc. split; [split|].
  - done.
  - intros k h [k0 Hh]%Hs. destruct (ok_live d s g O k0 h Hh) as (st & E & Hd). exists st. by rewrite Hr.
  - intros k [[Ht _]|[H ->]]%Hc; [done|]. by apply (ok_true d s g).
  - intros k h [[_ Hh]|[H ->]]%Hc Hin; [left; by apply Hh|]. by apply (ok_held d s g O k).
  - intros h. by rewrite Hr.
Qed.

Lemma ok_committed k d s g :
  FileOk d s g -> verified k.1 (shape k d) s ->
  FileOk (mark_manifest_committed_stmt k d).2 s g /\ keeps_deleting d (mark_manifest_committed_stmt k d).2.
Proof.
  intros O V. unfold mark_manifest_committed_stmt.
  destruct (manifests d !! k) as [m|] eqn:Em; [|by apply keep_self].
  destruct (committed m) eqn:Ec; simpl; [by apply keep_self|]. apply ok_commit; [done|done| | |].
  - intros k'. simpl. intros [Hn _]%lookup_insert_None. by apply (ok_fk d s g).
  - intros k' h Hh. by exists k'.
  - intros k'. unfold is_committed. simpl. destruct (decide (k' = k)) as [->|Hk]; [by left|].
    rewrite lookup_insert_ne by done. by right.
Qed.

Lemma ok_delete_manifest k d s g :
  FileOk d s g -> FileOk (delete_manifest_stmt k d) s g /\ keeps_deleting d (delete_manifest_stmt k d).
Proof.
  intros O.
  assert (forall k', shape k' (delete_manifest_stmt k d) = if decide (k' = k) then [] else shape k' d) as Hs
    by (intros k'; exact (shape_delete_chunks k k' (with_manifests (delete k (manifests d)) d))).
  apply ok_commit; [done|done| | |].
  - intros k'. rewrite Hs. case_decide; [done|]. simpl. rewrite lookup_delete_ne by done. apply (ok_fk d s g O).
  - intros k' h. rewrite Hs. case_decide; [by intros []%elem_of_nil|eauto].
  - intros k'. rewrite Hs. unfold is_committed. simpl. case_decide as Hk.
    + subst. by rewrite lookup_delete_eq.
    + rewrite lookup_delete_ne by done. by right.
Qed.

(** The heal: every lost manifest of the file is committed under verified chunks. *)
Lemma ok_heal k m d s g :
  FileOk d s g -> shape k d = m -> verified k.1 m s ->
  let lost := lost_manifest_callers_stmt k.1 d in
  let d1 := foldl (rechunk k.1 m) d (filter (fun owner => owner <> k.2) lost) in
  let d2 := (restore_lost_manifests_stmt k.1 (restore_lost_chunks_stmt k.1 d1)).2 in
  FileOk d2 s g /\ keeps_deleting d d2.
Proof.
  intros O Hk V lost d1 d2.
  destruct (rechunk_all k.1 m (filter (fun owner => owner <> k.2) lost) d) as (Hm & Hr & Hs).
  fold d1 in Hm, Hr, Hs.
  assert (forall k', shape k' d2 = if decide (k'.1 = k.1 /\ k'.2 ∈ lost) then m else shape k' d) as Hs2.
  { intros k'. transitivity (shape k' d1); [apply shape_restore_chunks|]. rewrite Hs.
    destruct (decide (k'.1 = k.1 /\ k'.2 ∈ lost)) as [[H1 H2]|Hn].
    - case_decide as Hd; [done|]. destruct (decide (k'.2 = k.2)) as [He|He].
      + replace k' with k by (by destruct k, k'; simpl in *; subst). done.
      + destruct Hd. split; [done|]. apply list_elem_of_filter. done.
    - rewrite decide_False; [done|]. intros [H1 [_ H2]%list_elem_of_filter]. by apply Hn. }
  apply ok_commit; [done|done| | |].
  - intros k' Hn%restored_None. simpl in Hn. rewrite Hm in Hn. rewrite Hs2, decide_False; [by apply (ok_fk d s g)|].
    intros [H1 H2%elem_of_lost]. unfold is_lost in H2. rewrite <- H1, <- surjective_pairing, Hn in H2. done.
  - intros k' h. rewrite Hs2. case_decide; [|eauto]. intros Hh. exists k. by rewrite Hk.
  - intros k'. rewrite Hs2. unfold d2. rewrite restored_committed. intros H. destruct (decide (k'.1 = k.1 /\ k'.2 ∈ lost)) as [Hd|Hd].
    + left. destruct Hd as [-> _]. done.
    + right. split; [|done]. apply orb_true_iff in H as [[H1 H2]%andb_true_iff|H].
      * apply bool_decide_eq_true in H1. destruct Hd. split; [done|]. apply elem_of_lost.
        unfold is_lost in *. simpl in H2. rewrite <- H1, <- surjective_pairing, <- Hm. done.
      * revert H. unfold is_committed. simpl. by rewrite Hm.
Qed.

Lemma manifest_from_rows_Ok rows m :
  manifest_from_rows rows = Ok m -> m = (fun r => (chunk_hash r, chunk_len r)) <$> rows.
Proof.
  unfold manifest_from_rows. rewrite try_map_Ok. induction 1 as [|r c rows m Hc _ IH]; [done|].
  rewrite fmap_cons, <- IH. f_equal. case_decide; [|done].
  rewrite rbind_Ok in Hc. destruct Hc as (n & Hn%ok_or_Ok & [= <-]).
  apply try_into_Some in Hn as [-> _]. done.
Qed.

Lemma keep_trans d1 d2 d3 s g :
  keeps_deleting d1 d2 -> FileOk d3 s g /\ keeps_deleting d2 d3 -> FileOk d3 s g /\ keeps_deleting d1 d3.
Proof. intros K [O K']. split; [done|]. intros h Hh. by apply K', K. Qed.

Lemma told_ok file st l d d1 d' s g :
  FileOk d1 s g /\ keeps_deleting d d1 -> tell file st l d1 = Ok d' -> FileOk d' s g /\ keeps_deleting d d'.
Proof. intros [O K] [a ->]%tell_app. split; [by apply ok_app|done]. Qed.

Lemma commit_atomic_ok cfg k l m d d' s g :
  FileOk d s g -> shape k d = m -> verified k.1 m s ->
  commit_manifest_atomic cfg k l (lost_manifest_callers_stmt k.1 d) m d = Ok d' ->
  FileOk d' s g /\ keeps_deleting d d'.
Proof.
  intros O Hk V. pose proof (ok_heal k m d s g O Hk V) as Hh. cbv zeta in Hh. unfold commit_manifest_atomic.
  rewrite rbind_Ok. intros (rows & Hrows & H). unfold chunk_rows in Hrows. case_decide; simplify_eq.
  set (lost := lost_manifest_callers_stmt k.1 d) in *. destruct lost as [|o lost'] eqn:El.
  - pose proof (ok_committed k d s g O V) as Hc.
    destruct (mark_manifest_committed_stmt k d) as [[|n] d1]; simplify_eq; [by apply keep_self|].
    by eapply told_ok.
  - rewrite <- El in *. destruct (restore_lost_manifests_stmt _ _) as [restored d2]. simpl in Hh.
    eapply told_ok; [|exact H]. case_decide; [done|]. destruct Hh as [O2 K2].
    eapply keep_trans; [exact K2|]. by apply ok_delete_manifest.
Qed.

(** ** Collecting *)

Lemma shape_orphaned grace now k d :
  shape k (delete_orphaned_stmt grace now d).2 =
    match manifests d !! k with Some m => if stale (now - grace) m then [] else shape k d | None => shape k d end.
Proof.
  unfold shape, manifest_chunk_pairs, manifest_rows. simpl. rewrite map_lookup_filter.
  destruct (manifest_chunks d !! k) as [rows|] eqn:Ek; simpl.
  - rewrite map_lookup_filter. destruct (manifests d !! k) as [m|]; simpl; [|done].
    destruct (stale (now - grace) m); done.
  - destruct (manifests d !! k) as [m|]; [|done]. by destruct (stale _ _).
Qed.

Lemma ok_orphaned grace now d s g :
  FileOk d s g ->
  FileOk (delete_orphaned_stmt grace now d).2 s g /\ keeps_deleting d (delete_orphaned_stmt grace now d).2.
Proof.
  intros O. apply ok_commit; [done|done| | |].
  - intros k. rewrite shape_orphaned. simpl. rewrite map_lookup_filter.
    destruct (manifests d !! k) as [m|] eqn:Em; simpl; [|by intros _; apply (ok_fk d s g)].
    by destruct (stale _ m).
  - intros k h. rewrite shape_orphaned. intros Hh. exists k. destruct (manifests d !! k) as [m|]; [|done].
    destruct (stale _ m); [by apply elem_of_nil in Hh|done].
  - intros k. rewrite shape_orphaned. unfold is_committed. simpl. rewrite map_lookup_filter.
    destruct (manifests d !! k) as [m|] eqn:Em; simpl; [|done].
    destruct (stale _ m) eqn:Es; simpl; [done|]. by right.
Qed.

Lemma ok_mark hashes d s g :
  FileOk d s g ->
  FileOk (mark_unreferenced_deleting_stmt hashes d) s g /\
  keeps_deleting d (mark_unreferenced_deleting_stmt hashes d).
Proof.
  intros O. split.
  - eapply ok_alike; [exact O|done..|]. intros k h Hh (st & E & Hd). exists st. split; [|done].
    simpl. rewrite map_lookup_imap, E. simpl. by rewrite (referenced_true k h d Hh), andb_false_r.
  - intros h E. simpl. rewrite map_lookup_imap, E. simpl. by destruct (bool_decide (h ∈ hashes)).
Qed.

Lemma ok_prepare grace now d s g :
  FileOk d s g ->
  FileOk (prepare_sweep grace now d).2 s g /\ keeps_deleting d (prepare_sweep grace now d).2.
Proof.
  intros O. unfold prepare_sweep. pose proof (ok_orphaned grace now d s g O) as H.
  destruct (delete_orphaned_stmt grace now d) as [ids d1]. simpl in *.
  destruct (lock_sweep_rows_stmt grace now d); [done|]. destruct H as [O1 K1].
  eapply keep_trans; [exact K1|]. by apply ok_mark.
Qed.

(** A hash on its way out is named by no manifest, so it may go. *)
Lemma ok_drop h d s g :
  FileOk d s g -> chunk_registry d !! h = Some Deleting -> FileOk d (delete h s) g.
Proof.
  intros O E. split; [apply (ok_fk d s g O)|apply (ok_live d s g O)|apply (ok_true d s g O)|].
  intros k h' Hc Hh. destruct (decide (h' = h)) as [->|Hn].
  - destruct (ok_live d s g O k h Hh) as (st & E' & Hd). naive_solver.
  - rewrite lookup_delete_ne by done. by apply (ok_held d s g O k).
Qed.

Lemma ok_forget h d s g :
  FileOk d s g -> chunk_registry d !! h = Some Deleting -> FileOk (delete_registry_row_stmt h d) s g.
Proof.
  intros O E. eapply ok_alike; [exact O|done..|]. intros k h' _ (st & E' & Hd). exists st. split; [|done].
  simpl. rewrite lookup_delete_ne; [done|]. intros ->. naive_solver.
Qed.

(** ** The boot pass *)

Lemma ok_claim h d s g :
  FileOk d s g -> FileOk (claim_orphan_stmt h d).2 s g /\ keeps_deleting d (claim_orphan_stmt h d).2.
Proof.
  intros O. unfold claim_orphan_stmt. destruct (chunk_registry d !! h) eqn:E; [by apply keep_self|]. split.
  - eapply ok_alike; [exact O|done..|]. intros k h' _ (st & E' & Hd). exists st. split; [|done].
    simpl. rewrite lookup_insert_ne; [done|]. intros ->. congruence.
  - intros h' E'. simpl. rewrite lookup_insert_ne; [done|]. intros ->. congruence.
Qed.

Lemma ok_lost k n d s g :
  FileOk d s g ->
  FileOk (mark_manifest_lost_stmt k n d).2 s g /\ keeps_deleting d (mark_manifest_lost_stmt k n d).2.
Proof.
  intros O. unfold mark_manifest_lost_stmt. destruct (manifests d !! k) as [m|] eqn:Em; [|by apply keep_self].
  destruct (lost m); [by apply keep_self|]. simpl. apply (ok_commit d); [done|done| | |].
  - intros k'. simpl. intros [Hn _]%lookup_insert_None. by apply (ok_fk d s g).
  - eauto.
  - intros k'. unfold is_committed. simpl. destruct (decide (k' = k)) as [->|Hk].
    + by rewrite lookup_insert_eq.
    + rewrite lookup_insert_ne by done. by right.
Qed.

Lemma ok_unstore_manifest k hashes d s g : FileOk d s g -> FileOk (unstore_manifest_chunks_stmt k hashes d) s g.
Proof. intros O. eapply ok_alike; [exact O| |done..|eauto]. intros k'. apply shape_alter. Qed.

Lemma shape_unstore hashes k d : shape k (unstore_chunks_stmt hashes d) = shape k d.
Proof.
  unfold shape, manifest_chunk_pairs, manifest_rows. simpl. rewrite lookup_fmap.
  destruct (manifest_chunks d !! k); simpl; [apply shape_update|done].
Qed.

Lemma ok_unstore hashes d s g :
  FileOk d s g -> FileOk (unstore_chunks_stmt hashes d) s g /\ keeps_deleting d (unstore_chunks_stmt hashes d).
Proof.
  intros O. split; [|by intros h]. eapply ok_alike; [exact O| |done..|eauto]. intros k. apply shape_unstore.
Qed.

Lemma ok_pending hashes d s g :
  FileOk d s g ->
  FileOk (mark_registry_pending_stmt hashes d) s g /\ keeps_deleting d (mark_registry_pending_stmt hashes d).
Proof.
  intros O. split.
  - eapply ok_alike; [exact O|done..|]. intros k h _ (st & E & Hd). unfold live. simpl. rewrite map_lookup_imap, E. simpl.
    eexists. split; [done|]. by destruct (_ && _).
  - intros h E. simpl. rewrite map_lookup_imap, E. simpl. by rewrite andb_false_r.
Qed.

Lemma mark_lost_ok cfg file owners missing d s g b d' :
  FileOk d s g -> mark_lost cfg file owners missing d = Ok (b, d') -> FileOk d' s g /\ keeps_deleting d d'.
Proof.
  revert d b d'. induction owners as [|[o n] owners IH]; intros d b d' O; simpl; [intros [= <- <-]; by apply keep_self|].
  pose proof (ok_lost (file, o) n d s g O) as [O1 K1].
  destruct (mark_manifest_lost_stmt (file, o) n d) as [[|c] d1]; [by apply IH|].
  rewrite rbind_Ok. intros (d2 & [a ->]%tell_app & H). rewrite rbind_Ok in H.
  destruct H as ([b' d3] & H & [= _ <-]). eapply keep_trans; [exact K1|].
  eapply (keep_trans d1); [|eapply IH; [|exact H]; by apply ok_app, ok_unstore_manifest]. by intros h.
Qed.
End Shapes.

(** ** The world *)

Section Safe.
Context {BL : Blake3} {CD : ContentDeployment} {TC : TicketCodec} (cfg : FileConfig).

Implicit Types (w : FileWorld).

(** The hashes a sweep or a boot pass in flight is deleting. *)
Definition swept (sw : Sweep) : list bytes := option_list (dropping sw) ++ todo sw.
Definition claimed (b : BootPass) : list bytes :=
  match stage b with Claimed h _ | Dropped h _ => [h] | _ => [] end.
Definition owned w : list bytes := (sweeps w ≫= swept) ++ (boots w ≫= claimed).

(** Each is on its way out of the registry, and no two delete the same. *)
Record WorldOk w : Prop := {
  wo_files : FileOk (db w) (chunks w) (astray w);
  wo_sound : store_sound (chunks w);
  wo_nodup : NoDup (owned w);
  wo_owned h : h ∈ owned w -> chunk_registry (db w) !! h = Some Deleting;
}.

(** A stretch that deletes nothing, also when its tables are rolled back. *)
Definition carries w w' : Prop :=
  sweeps w' = sweeps w /\ boots w' = boots w /\ astray w' = astray w /\ store_sound (chunks w') /\
  FileOk (db w) (chunks w') (astray w) /\
  FileOk (db w') (chunks w') (astray w) /\ keeps_deleting (db w) (db w').

Lemma carries_ok w w' : WorldOk w -> carries w w' -> WorldOk w'.
Proof.
  intros [O S N F] (Hs & Hb & Ha & S' & _ & O' & K). split; unfold owned; rewrite ?Hs, ?Hb, ?Ha; [done..|].
  intros h Hh. by apply K, F.
Qed.

Lemma carries_refl w : WorldOk w -> carries w w.
Proof. intros [O S N F]. split_and!; [done..|by intros h]. Qed.

(** A stretch that changes the tables alone. *)
Lemma carries_db w d :
  WorldOk w -> FileOk d (chunks w) (astray w) /\ keeps_deleting (db w) d -> carries w (with_db d w).
Proof. intros [O S N F] [O' K]. by split_and!. Qed.

Lemma carries_transaction {A} fate (body : FileWorld -> Result A ServerError * FileWorld) w :
  carries w (body w).2 -> carries w (transaction fate body w).2.
Proof.
  intros (Hs & Hb & Ha & S' & O & O' & K). unfold transaction. destruct (body w) as [[a|e] w']; simpl in *.
  - destruct fate; split_and!; (done || by intros h).
  - split_and!; (done || by intros h).
Qed.

Lemma carries_declare token id body at_ fate w :
  WorldOk w -> carries w (declare cfg token id body at_ fate w).2.
Proof.
  intros W. unfold declare. destruct (declaration _ _ _ _ _) as [[[ticket k] l]|e]; [|by apply carries_refl].
  match goal with |- context [transaction ?f ?b w] =>
    assert (carries w (transaction f b w).2) as H; [|by destruct (transaction f b w) as [[[]|] ?]] end.
  apply carries_transaction. pose proof (insert_manifest_ok k (ir_total body) (fw_clock w) l _ _ _ (wo_files w W)) as H.
  destruct (insert_manifest _ _ _ _ _) as [r d]. by apply carries_db.
Qed.

Lemma write_sound (backend : AnyStore) (h x : bytes) (now : Z) (s : ChunkMap) :
  store_sound s -> blake3 x = h -> store_sound (write_chunk backend h x now s).
Proof.
  intros S Hx. unfold write_chunk. destruct backend, (s !! h); try done;
    intros h' c [[<- <-]|[_ Hc]]%lookup_insert_Some; (done || by apply S).
Qed.

Lemma write_held (backend : AnyStore) (h x : bytes) (now : Z) (s : ChunkMap) h' :
  is_Some (s !! h') -> is_Some (write_chunk backend h x now s !! h').
Proof.
  intros Hh. unfold write_chunk. destruct backend, (s !! h); try done;
    (apply lookup_insert_is_Some; destruct (decide (h = h')); [by left|by right]).
Qed.

Lemma carries_written w h x :
  WorldOk w -> blake3 x = h -> carries w (with_store (write_chunk (fc_store cfg) h x (fw_clock w) (chunks w)) w).
Proof.
  intros [O S N F] Hx.
  assert (FileOk (db w) (write_chunk (fc_store cfg) h x (fw_clock w) (chunks w)) (astray w)) as O'.
  { eapply ok_store; [exact O|]. intros h' [Hh|Hh]; [left; by apply write_held|by right]. }
  split_and!; simpl; [done|done|done|by apply write_sound|done|done|by intros h'].
Qed.

Lemma carries_put text token body at_ written fate w :
  WorldOk w -> carries w (put_chunk cfg text token body at_ written fate w).2.
Proof.
  intros W. unfold put_chunk. destruct (rbind _ _) as [[[h k] limit]|e] eqn:E; [|by apply carries_refl].
  assert (blake3 body = h) as Hb.
  { repeat (rewrite rbind_Ok in E; destruct E as (? & _ & E)). case_decide as Hn; [done|].
    congruence. }
  apply carries_transaction. unfold store_chunk.
  destruct (chunk_registry (db w) !! h) as [[]|]; try (by apply carries_refl).
  all: destruct (declared_chunk_len k h (db w)) as [[len|]|]; try (by apply carries_refl).
  all: case_decide; [by apply carries_refl|]; destruct written; [|by apply carries_refl].
  all: pose proof (carries_written w h body W Hb) as Hc; set (w1 := with_store _ w) in *.
  all: pose proof (carries_ok w w1 W Hc) as W1.
  all: pose proof (account_ok k h len limit _ _ _ (wo_files w1 W1)) as [O2 K2].
  all: destruct (account_chunk_put k h len limit (db w1)) as [[[]|e] d]; simpl in *; try done.
  all: destruct Hc as (H1 & H1' & H2 & H3 & H4 & H5 & H6); split_and!; simpl; try done.
  all: first [by apply ledger_ok | intros h' Hh; rewrite ?ledger_registry; by apply K2].
Qed.

Lemma carries_commit k l n io w : WorldOk w -> carries w (commit_body cfg k l n io w).2.
Proof.
  intros W. unfold commit_body. unfold load_manifest_locked, lock_manifest_row_stmt.
  destruct (manifests (db w) !! k) as [m|] eqn:Em; simpl.
  2:{ destruct (file_committed _ _); by apply carries_refl. }
  destruct (committed m) eqn:Ec; simpl.
  - destruct (tell _ _ _ _) as [d|e] eqn:Et; simpl; [|by apply carries_refl]. apply carries_db; [done|].
    eapply told_ok; [|exact Et]. apply keep_self, W.
  - destruct (manifest_from_rows _) as [rows|e] eqn:Er; simpl; [|by apply carries_refl].
    apply manifest_from_rows_Ok in Er. destruct (rbind _ _) as [d|e] eqn:E; simpl; [|by apply carries_refl].
    rewrite rbind_Ok in E. destruct E as (_ & _ & E). rewrite rbind_Ok in E. destruct E as ([] & Hv & E).
    rewrite rbind_Ok in E. destruct E as ([] & _ & E). unfold verify_file_identity in Hv.
    rewrite rbind_Ok in Hv. destruct Hv as (content & Hc & Hv). case_decide as Hf; [done|].
    apply carries_db; [done|]. eapply commit_atomic_ok; [apply W| |  |exact E]; [by rewrite Er|].
    destruct (read_all_sound _ _ _ _ (wo_sound w W) Hc) as [(ds & HF & ->) Hh]. split; [|done].
    exists ds. split; [done|]. destruct (decide (blake3 (concat ds) = k.1)); [done|]. by destruct Hf.
Qed.

(** ** Moves *)

(** A sweep that lists a hash is the only one to delete it: no other sweep in flight,
    and no boot pass, is about to. *)
Definition alone (m : Move) w : bool :=
  match m with
  | MSweepList => forallb (fun h => bool_decide (h ∉ owned w)) (list_deleting_hashes (db w))
  | _ => true
  end.

Fixpoint solo (l : list Move) w : bool :=
  match l with
  | [] => true
  | m :: l' => alone m w && solo l' (move cfg m w)
  end.

Lemma list_deleting_spec d h : h ∈ list_deleting_hashes d -> chunk_registry d !! h = Some Deleting.
Proof.
  unfold list_deleting_hashes. rewrite list_elem_of_omap. intros ([h' st] & Hm%elem_of_map_to_list & H).
  simpl in H. case_bool_decide; simplify_eq. done.
Qed.

Lemma list_deleting_nodup d : NoDup (list_deleting_hashes d).
Proof.
  unfold list_deleting_hashes. pose proof (NoDup_fst_map_to_list (chunk_registry d)) as H.
  induction (map_to_list (chunk_registry d)) as [|[h st] l IH]; simpl in *; [constructor|].
  apply NoDup_cons in H as [H1 H2]. case_bool_decide; [|by apply IH]. constructor; [|by apply IH].
  rewrite list_elem_of_omap. intros ([h' st'] & Hm & Hx). simpl in Hx. case_bool_decide; simplify_eq.
  apply H1. apply list_elem_of_fmap. by exists (h, Deleting).
Qed.

(** What the processes hold, up to order, apart from one of them. *)
Lemma held_apart {A B} (f : A -> list B) (l : list A) i x :
  l !! i = Some x -> exists r, l ≫= f ≡ₚ f x ++ r /\ (forall y, <[i := y]> l ≫= f ≡ₚ f y ++ r) /\ delete i l ≫= f ≡ₚ r.
Proof.
  revert i. induction l as [|z l IH]; intros i Hi; [done|]. destruct i as [|i]; simpl in Hi.
  - injection Hi as ->. by exists (l ≫= f).
  - destruct (IH _ Hi) as (r & H1 & H2 & H3). exists (f z ++ r).
    assert (forall u, f z ++ (u ++ r) ≡ₚ u ++ (f z ++ r)) as Hx by (intros u; by rewrite !(assoc_L (++)), (comm (++) u)).
    split_and!; [|intros y|]; [change (f z ++ (l ≫= f) ≡ₚ f x ++ (f z ++ r))|change (f z ++ (<[i := y]> l ≫= f) ≡ₚ f y ++ (f z ++ r))|
      change (f z ++ (delete i l ≫= f) ≡ₚ f z ++ r)]; [by rewrite H1, Hx|by rewrite H2, Hx|by rewrite H3].
Qed.

(** A process that goes on deletes what it deleted, less what it has let go of, and
    what it has claimed anew. *)
Lemma reheld w w' held held' rest :
  WorldOk w -> FileOk (db w') (chunks w') (astray w') -> store_sound (chunks w') ->
  owned w ≡ₚ held ++ rest -> owned w' ≡ₚ held' ++ rest ->
  NoDup held' -> (forall h, h ∈ held' -> h ∈ held \/ chunk_registry (db w) !! h = None) ->
  (forall h, h ∈ held' \/ h ∈ rest -> chunk_registry (db w') !! h = Some Deleting) ->
  WorldOk w'.
Proof.
  intros [O S N F] O' S' Hw Hw' Hn Hin Hd. split; [done..| |].
  - rewrite Hw'. rewrite Hw in N. apply NoDup_app in N as (_ & Na & Nr). apply NoDup_app. split_and!; [done| |done].
    intros h [Hh|Hh]%Hin Hr; [by apply (Na h)|]. rewrite (F h) in Hh; [done|]. rewrite Hw. apply elem_of_app. by right.
  - intros h. rewrite Hw', elem_of_app. apply Hd.
Qed.

Lemma swept_apart w i sw :
  sweeps w !! i = Some sw -> exists rest, owned w ≡ₚ swept sw ++ rest /\
    (forall w' sw', sweeps w' = <[i := sw']> (sweeps w) -> boots w' = boots w -> owned w' ≡ₚ swept sw' ++ rest) /\
    (forall w', sweeps w' = delete i (sweeps w) -> boots w' = boots w -> owned w' ≡ₚ rest).
Proof.
  intros Hi. destruct (held_apart swept _ _ _ Hi) as (r & H1 & H2 & H3). exists (r ++ (boots w ≫= claimed)).
  unfold owned. split_and!.
  - by rewrite H1, (assoc_L (++)).
  - intros w' sw' -> ->. by rewrite H2, (assoc_L (++)).
  - intros w' -> ->. by rewrite H3.
Qed.

Lemma claimed_apart w i b :
  boots w !! i = Some b -> exists rest, owned w ≡ₚ claimed b ++ rest /\
    (forall w' b', boots w' = <[i := b']> (boots w) -> sweeps w' = sweeps w -> owned w' ≡ₚ claimed b' ++ rest) /\
    (forall w', boots w' = delete i (boots w) -> sweeps w' = sweeps w -> owned w' ≡ₚ rest).
Proof.
  intros Hi. destruct (held_apart claimed _ _ _ Hi) as (r & H1 & H2 & H3). exists ((sweeps w ≫= swept) ++ r).
  unfold owned. assert (forall x, (sweeps w ≫= swept) ++ (x ++ r) ≡ₚ x ++ ((sweeps w ≫= swept) ++ r)) as Hx.
  { intros x. by rewrite !(assoc_L (++)), (comm (++) x). }
  split_and!.
  - by rewrite H1, Hx.
  - intros w' b' -> ->. by rewrite H2, Hx.
  - intros w' -> ->. by rewrite H3.
Qed.

Lemma sound_delete (h : bytes) (s : ChunkMap) : store_sound s -> store_sound (delete_chunk h s).
Proof. intros S h' c. unfold delete_chunk. intros [_ Hc]%lookup_delete_Some. by apply S. Qed.

(** The rows of the hashes others delete outlive the one that is forgotten. *)
Lemma forgotten_apart w h rest h' :
  WorldOk w -> owned w ≡ₚ h :: rest -> h' ∈ rest -> chunk_registry (delete_registry_row_stmt h (db w)) !! h' = Some Deleting.
Proof.
  intros [O S N F] Hw Hr. rewrite Hw in N. apply NoDup_cons in N as [Nh _]. simpl.
  rewrite lookup_delete_ne; [apply F; rewrite Hw; by right|]. by intros ->.
Qed.

(** A step of the sweep at [i]. *)
Lemma sweep_step_ok i f w :
  WorldOk w ->
  (forall sw rest, sweeps w !! i = Some sw -> owned w ≡ₚ swept sw ++ rest -> NoDup (swept sw) ->
     (forall h, h ∈ swept sw \/ h ∈ rest -> chunk_registry (db w) !! h = Some Deleting) ->
     let '(sw', w') := f sw w in
     boots w' = boots w /\ FileOk (db w') (chunks w') (astray w') /\ store_sound (chunks w') /\
     swept sw' `sublist_of` swept sw /\
     forall h, h ∈ swept sw' \/ h ∈ rest -> chunk_registry (db w') !! h = Some Deleting) ->
  WorldOk (sweep_step i f w).
Proof.
  intros W Hf. unfold sweep_step. destruct (sweeps w !! i) as [sw|] eqn:E; [|done].
  destruct (swept_apart w i sw E) as (rest & Hw & Hgo & _). pose proof W as [O S N F].
  assert (NoDup (swept sw)) as Ns by (rewrite Hw in N; by apply NoDup_app in N as (? & _)).
  specialize (Hf sw rest eq_refl Hw Ns ltac:(intros h Hh; apply F; rewrite Hw; by apply elem_of_app)).
  destruct (f sw w) as [sw' w']. destruct Hf as (Hb & O' & S' & Hsub & Hd).
  eapply (reheld w _ _ (swept sw') rest); [done|done|done|done|by apply Hgo|by eapply sublist_NoDup| |done].
  intros h Hh. left. by eapply elem_of_sublist.
Qed.

Lemma sweep_drop_ok i fate w : WorldOk w -> WorldOk (sweep_step i (sweep_drop fate) w).
Proof.
  intros W. pose proof W as [O S N F]. apply sweep_step_ok; [done|]. intros sw rest _ Hw Ns Hd.
  destruct sw as [[|h todo] [x|]]; unfold sweep_drop; simpl; try (by split_and!).
  assert (FileOk (db w) (delete h (chunks w)) (astray w)) as O' by (apply ok_drop; [done|]; apply Hd; left; by left).
  assert (todo `sublist_of` h :: todo) as Hsub by (by apply sublist_cons).
  assert (forall h', h' ∈ todo \/ h' ∈ rest -> chunk_registry (db w) !! h' = Some Deleting) as Hd'.
  { intros h' [Hh|Hh]; apply Hd; [left; by right|by right]. }
  destruct fate; split_and!; simpl; (done || by apply sound_delete).
Qed.

Lemma sweep_forget_ok i w : WorldOk w -> WorldOk (sweep_step i sweep_forget w).
Proof.
  intros W. pose proof W as [O S N F]. apply sweep_step_ok; [done|]. intros sw rest _ Hw Ns Hd.
  destruct sw as [todo [x|]]; unfold sweep_forget; simpl; [|by split_and!].
  split_and!; simpl; [done|apply ok_forget; [done|apply Hd; left; by left]|done|by apply sublist_cons|].
  intros h Hh. apply (forgotten_apart w x (todo ++ rest)); [done|done|by apply elem_of_app].
Qed.

(** Letting go of what is being deleted leaves it to the next sweep. *)
Lemma let_go w w' held rest :
  WorldOk w -> owned w ≡ₚ held ++ rest -> owned w' ≡ₚ rest ->
  db w' = db w -> chunks w' = chunks w -> astray w' = astray w -> WorldOk w'.
Proof.
  intros W Hw Hw' H1 H2 H3. pose proof W as [O S N F]. eapply (reheld w w' held []); rewrite ?H1, ?H2, ?H3; try done.
  - by apply NoDup_nil.
  - by intros h []%elem_of_nil.
  - intros h [[]%elem_of_nil|Hh]. apply F. rewrite Hw, elem_of_app. by right.
Qed.

(** ** The boot pass *)

Lemma claimed_probe rest b : claimed (probe_next rest b) = [].
Proof. by destruct rest; simpl; [destruct (missing b)|]. Qed.
Lemma claimed_look rest b : claimed (look_next rest b) = [].
Proof. destruct rest; [apply claimed_probe|done]. Qed.
Lemma claimed_mark files b : claimed (mark_next files b) = [].
Proof. by destruct files. Qed.

(** An await of the pass at [i], whatever becomes of it. *)
Lemma boot_do_ok i b b' fate w w' :
  WorldOk w -> boots w !! i = Some b ->
  sweeps w' = sweeps w -> boots w' = boots w -> store_sound (chunks w') ->
  FileOk (db w') (chunks w') (astray w') ->
  (forall h, h ∈ claimed b' -> (h ∈ claimed b \/ chunk_registry (db w) !! h = None) /\ chunk_registry (db w') !! h = Some Deleting) ->
  (forall rest h, owned w ≡ₚ claimed b ++ rest -> h ∈ rest -> chunk_registry (db w') !! h = Some Deleting) ->
  WorldOk (let '(o, w1) := boot_do fate w w' b' in
           with_boots (match o with Some b => <[i := b]> (boots w) | None => delete i (boots w) end) w1).
Proof.
  intros W E Hs Hb S' O' Hc Hr. destruct (claimed_apart w i b E) as (rest & Hw & Hgo & Hend).
  assert (NoDup (claimed b')) as Hn.
  { unfold claimed. destruct (stage b'); first [apply NoDup_nil; done|apply NoDup_singleton]. }
  destruct fate; simpl.
  - eapply (reheld w _ _ (claimed b') rest); [done|done|done|done|by apply Hgo|done| |].
    + intros h Hh. by apply Hc.
    + intros h [Hh|Hh]; [by apply Hc|by eapply Hr].
  - eapply (let_go w _ _ rest); [done|done|by apply Hend|done..].
  - eapply (reheld w _ _ [] rest); [done|done|done|done|by apply Hend|by apply NoDup_nil|by intros h []%elem_of_nil|].
    intros h [[]%elem_of_nil|Hh]. by eapply Hr.
Qed.

(** One that claims nothing and keeps what is being deleted. *)
Lemma boot_carries i b b' fate w w' :
  WorldOk w -> boots w !! i = Some b -> carries w w' -> claimed b' = [] ->
  WorldOk (let '(o, w1) := boot_do fate w w' b' in
           with_boots (match o with Some b => <[i := b]> (boots w) | None => delete i (boots w) end) w1).
Proof.
  intros W E (Hs & Hb & Ha & S' & _ & O' & K) Hc. eapply (boot_do_ok i b); try done.
  - by rewrite Ha.
  - rewrite Hc. by intros h []%elem_of_nil.
  - intros rest h Hw Hh. apply K, W. rewrite Hw, elem_of_app. by right.
Qed.

Lemma delete_absent {A} (l : list A) i : l !! i = None -> delete i l = l.
Proof.
  intros Hi%lookup_ge_None. rewrite delete_take_drop, take_ge, drop_ge by lia. apply app_nil_r.
Qed.

Lemma boot_still i b w : WorldOk w -> boots w !! i = Some b -> WorldOk (with_boots (<[i := b]> (boots w)) w).
Proof. intros [O S N F] E. split; unfold owned in *; simpl; rewrite ?list_insert_id; done. Qed.

Lemma boot_gone i w : WorldOk w -> WorldOk (with_boots (delete i (boots w)) w).
Proof.
  intros W. destruct (boots w !! i) as [b|] eqn:E.
  - destruct (claimed_apart w i b E) as (rest & Hw & _ & Hend). eapply (let_go w); [done|exact Hw|by apply Hend|done..].
  - pose proof W as [O S N F]. split; unfold owned in *; simpl; by rewrite ?(delete_absent _ _ E).
Qed.

Lemma boot_step_ok i s fate w : WorldOk w -> WorldOk (boot_step i (reconcile_step cfg s fate) w).
Proof.
  intros W. unfold boot_step. destruct (boots w !! i) as [b|] eqn:E; [|done]. pose proof W as [O S N F].
  assert (forall h, h ∈ claimed b -> chunk_registry (db w) !! h = Some Deleting) as Hd.
  { destruct (claimed_apart w i b E) as (rest & Hw & _). intros h Hh. apply F. rewrite Hw, elem_of_app. by left. }
  destruct s; simpl; destruct (stage b) as [|l|h l|h l|l| |l| | |] eqn:Eb; try (by apply boot_still).
  - apply (boot_carries i b); [done|done|by apply carries_refl|apply claimed_look].
  - destruct l as [|h l]; [by apply boot_still|]. pose proof (ok_claim h _ _ _ O) as Hk. unfold claim_orphan_stmt in *.
    destruct (chunk_registry (db w) !! h) as [st|] eqn:Eh; simpl in Hk.
    + apply (boot_carries i b); [done|done|by apply carries_refl|apply claimed_look].
    + destruct Hk as [O' K]. apply (boot_do_ok i b); [done..| |].
      * intros h' ->%list_elem_of_singleton. split; [by right|]. simpl. apply lookup_insert_eq.
      * intros rest h' Hw Hh. apply K, F. rewrite Hw, elem_of_app. by right.
  - apply (boot_do_ok i b); [done..|by apply sound_delete| | |].
    + apply ok_drop; [done|]. apply Hd. unfold claimed. rewrite Eb. by left.
    + unfold claimed in *. rewrite Eb in *. simpl. intros h' Hh. split; [by left|by apply Hd].
    + intros rest h' Hw Hh. apply F. rewrite Hw, elem_of_app. by right.
  - apply (boot_do_ok i b); [done..| | |].
    + apply ok_forget; [done|]. apply Hd. unfold claimed. rewrite Eb. by left.
    + rewrite claimed_look. by intros h' []%elem_of_nil.
    + unfold claimed. rewrite Eb. intros rest h' Hw Hh. by apply (forgotten_apart w h rest).
  - destruct l as [|h l]; [by apply boot_still|].
    apply (boot_carries i b); [done|done|by apply carries_refl|apply claimed_probe].
  - apply (boot_carries i b); [done|done|by apply carries_refl|apply claimed_mark].
  - destruct l as [|f l]; [by apply boot_still|]. destruct (mark_lost _ _ _ _ _) as [[m d]|e] eqn:Em; [|by apply boot_gone].
    apply (boot_carries i b); [done|done| |apply claimed_mark]. apply carries_db; [done|]. by eapply mark_lost_ok.
  - apply (boot_carries i b); [done|done| |done]. apply carries_db; [done|]. by apply ok_unstore.
  - apply (boot_carries i b); [done|done| |done]. apply carries_db; [done|]. by apply ok_pending.
Qed.

Lemma sweep_gone i w : WorldOk w -> WorldOk (with_sweeps (delete i (sweeps w)) w).
Proof.
  intros W. destruct (sweeps w !! i) as [b|] eqn:E.
  - destruct (swept_apart w i b E) as (rest & Hw & _ & Hend). eapply (let_go w); [done|exact Hw|by apply Hend|done..].
  - pose proof W as [O S N F]. split; unfold owned in *; simpl; by rewrite ?(delete_absent _ _ E).
Qed.

Lemma sweep_list_ok w :
  WorldOk w -> alone MSweepList w = true -> WorldOk (move cfg MSweepList w).
Proof.
  intros [O S N F] Ha. simpl in Ha. rewrite forallb_forall in Ha.
  assert (owned (move cfg MSweepList w) ≡ₚ list_deleting_hashes (db w) ++ owned w) as Hw.
  { unfold owned. simpl. rewrite bind_app. simpl. rewrite app_nil_r. by rewrite !(assoc_L (++)), (comm (++) (list_deleting_hashes _)). }
  split; [done..| |].
  - rewrite Hw. apply NoDup_app. split_and!; [apply list_deleting_nodup| |done].
    intros h Hh. specialize (Ha h ltac:(by apply list_elem_of_In)). by apply bool_decide_eq_true in Ha.
  - intros h. rewrite Hw, elem_of_app. intros [Hh|Hh]; [by apply list_deleting_spec|by apply F].
Qed.

Lemma move_ok m w : WorldOk w -> alone m w = true -> WorldOk (move cfg m w).
Proof.
  intros W Ha. destruct m; simpl.
  - eapply carries_ok; [exact W|by apply carries_declare].
  - eapply carries_ok; [exact W|by apply carries_put].
  - eapply carries_ok; [exact W|]. unfold flip. destruct (committer _ _ _ _) as [[[c k] l]|e]; [|by apply carries_refl].
    by apply carries_transaction, carries_commit.
  - eapply carries_ok; [exact W|]. apply carries_db; [done|]. apply ok_prepare, W.
  - by apply sweep_list_ok.
  - by apply sweep_drop_ok.
  - by apply sweep_forget_ok.
  - by apply sweep_gone.
  - destruct W as [O S N F]. split; [done..| |]; unfold owned in *; simpl; rewrite bind_app; simpl; by rewrite !app_nil_r.
  - by apply boot_step_ok.
  - by apply boot_gone.
  - destruct W as [O S N F]. by split.
  - eapply carries_ok; [exact W|]. apply carries_db; [done|]. split; [apply ledger_ok, W|].
    intros h. by rewrite ledger_registry.
  - eapply carries_ok; [exact W|]. apply carries_db; [done|]. split; [apply ok_app, W|by intros h].
  - destruct W as [O S N F]. by split.
  - destruct W as [O S N F]. split; simpl; [|by apply sound_delete|done|done].
    eapply ok_store; [exact O|]. intros h' [Hh|Hh]; [|right; set_solver].
    destruct (decide (h' = h)) as [->|Hn]; [right; set_solver|]. left. by rewrite lookup_delete_ne.
  - destruct W as [O S N F]. split; unfold owned; simpl; [done|done|by apply NoDup_nil|by intros h []%elem_of_nil].
Qed.

Lemma moves_ok l w : WorldOk w -> solo l w = true -> WorldOk (moves cfg l w).
Proof.
  revert w. induction l as [|m l IH]; intros w W; simpl; [done|].
  intros [Ha Hl]%andb_true_iff. by apply IH; [apply move_ok|].
Qed.

(** A server before its first request. *)
Definition blank (a : App) (now : Z) : FileWorld := {|
  db := {| manifests := ∅; manifest_chunks := ∅; chunk_registry := ∅; traffic := ∅; app := a |};
  chunks := ∅; fw_clock := now; ceilings := {| stored_bytes := 0; window_total := 0; oldest_day := None |};
  sweeps := []; boots := []; astray := ∅ |}.

Lemma blank_ok a now : WorldOk (blank a now).
Proof.
  split; simpl; [split|intros h c; by rewrite lookup_empty|by apply NoDup_nil|by intros h []%elem_of_nil].
  - done.
  - intros k h []%elem_of_nil.
  - intros k. unfold is_committed. simpl. by rewrite lookup_empty.
  - intros k h. unfold is_committed. simpl. by rewrite lookup_empty.
Qed.

(** The contents a manifest was committed with are what the store gives back, as
    far as no two contents share a digest. *)
Lemma read_back (s : ChunkMap) m ds :
  store_sound s -> Forall2 (fun c x => blake3 x = c.1 /\ Z.of_nat (length x) = c.2) m ds ->
  (forall h, h ∈ m.*1 -> is_Some (s !! h)) ->
  blake3_collision \/ read_all (fun _ => true) m s = Ok (concat ds).
Proof.
  intros S HF. induction HF as [|[h len] x m ds [Hx Hl] HF IH]; intros Hs; [by right|].
  destruct IH as [Hc|IH]; [|by left|]; [intros h' Hh; apply Hs; by right|].
  destruct (Hs h) as [c Hc]; [by left|]. pose proof (S h c Hc) as He. simpl in Hx, Hl.
  destruct (decide (data c = x)) as [<-|Hn].
  - right. simpl. unfold read_chunk. rewrite Hc. simpl. rewrite decide_False by auto. by rewrite IH.
  - left. exists (data c), x. split; [done|]. congruence.
Qed.

(** C6. What is committed stays whole. Whatever uploads, commits, sweeps, crashes and
    boot passes interleave, step by step and on any number of replicas, and whatever
    fails in them, before or after it took effect, no chunk a committed file names
    leaves the store unless the store itself lost it; and the chunks read back make up
    the file whose digest its id is, or exhibit two contents with one digest. The
    condition is on sweeps: when one lists what it will delete, no other sweep and no
    boot pass is still deleting a chunk on that list (two that are may collect a chunk
    uploaded between them). *)
Theorem committed_files_whole a now l k m :
  let w := moves cfg l (blank a now) in
  solo l (blank a now) = true ->
  manifests (db w) !! k = Some m -> committed m = true ->
  (forall h, h ∈ (manifest_chunk_pairs k (db w)).*1 -> chunks w !! h = None -> h ∈ astray w) /\
  ((forall h, h ∈ (manifest_chunk_pairs k (db w)).*1 -> is_Some (chunks w !! h)) ->
   blake3_collision \/
   exists content, read_all (fun _ => true) (manifest_chunk_pairs k (db w)) (chunks w) = Ok content /\
     blake3 content = k.1).
Proof.
  intros w Hl Hm Hc. pose proof (moves_ok l _ (blank_ok a now) Hl) as W. fold w in W. destruct W as [O S _ _].
  assert (is_committed k (db w) = true) as Hk by (unfold is_committed; by rewrite Hm). split.
  - intros h Hh Hn. destruct (ok_held _ _ _ O k h Hk Hh) as [[c Hs]|]; [congruence|done].
  - intros Hs. destruct (ok_true _ _ _ O k Hk) as (ds & HF & Hd).
    destruct (read_back _ _ _ S HF Hs) as [|Hr]; [by left|right]. eauto.
Qed.
End Safe.
