(* ===== verification/FileUse.v ===== *)
(** What the file server's callers get: downloads, commits, quotas, collection and
    the boot pass. *)

From Stdlib Require Import ZArith Lia.
From stdpp Require Import base list numbers option strings gmap fin_maps fin_map_dom sorting.
From S2P Require Import Prelude Throttle Guard Cursor Caller Percent FileTables FileServer FileSafe.

Open Scope Z_scope.

Section Download.
Context {BL : Blake3} {CD : ContentDeployment} {TC : TicketCodec} (cfg : FileConfig).

(** The bytes of a content from [lo] to [hi], both included. *)
Definition slice (lo hi : Z) (content : bytes) : bytes :=
  firstn (Z.to_nat (hi - lo + 1)) (skipn (Z.to_nat lo) content).

(** What of [lo..hi] lies in a content that starts at [cursor]. *)
Definition window (cursor lo hi : Z) (content : bytes) : bytes :=
  firstn (Z.to_nat (hi - Z.max lo cursor + 1)) (skipn (Z.to_nat (lo - cursor)) content).

Lemma window_start lo hi content : 0 <= lo -> window 0 lo hi content = slice lo hi content.
Proof. intros. unfold window, slice. by rewrite Z.max_l, Z.sub_0_r by lia. Qed.

Lemma window_past cursor lo hi x rest :
  0 <= cursor -> cursor + Z.of_nat (length x) <= lo ->
  window cursor lo hi (x ++ rest) = window (cursor + Z.of_nat (length x)) lo hi rest.
Proof.
  intros H0 Hc. unfold window. rewrite !Z.max_l by lia. rewrite skipn_app, skipn_all2 by lia. simpl.
  by replace (Z.to_nat (lo - cursor) - length x)%nat with (Z.to_nat (lo - (cursor + Z.of_nat (length x)))) by lia.
Qed.

Lemma window_before cursor lo hi content : hi < cursor -> window cursor lo hi content = [].
Proof. intros H. unfold window. by replace (Z.to_nat (hi - Z.max lo cursor + 1)) with 0%nat by lia. Qed.

Lemma window_meets cursor lo hi x rest :
  0 <= cursor -> lo < cursor + Z.of_nat (length x) -> cursor <= hi -> lo <= hi ->
  window cursor lo hi (x ++ rest) =
    firstn (Z.to_nat (Z.min (hi - cursor) (Z.of_nat (length x) - 1) - sat_sub lo cursor + 1))
      (skipn (Z.to_nat (sat_sub lo cursor)) x) ++
    window (cursor + Z.of_nat (length x)) lo hi rest.
Proof.
  intros H0 H1 H2 H3. unfold window, sat_sub.
  replace (Z.to_nat (Z.max 0 (lo - cursor))) with (Z.to_nat (lo - cursor)) by lia.
  rewrite skipn_app. replace (Z.to_nat (lo - cursor) - length x)%nat with 0%nat by lia.
  replace (Z.to_nat (lo - (cursor + Z.of_nat (length x)))) with 0%nat by lia.
  rewrite !skipn_O, firstn_app, length_skipn. f_equal.
  - destruct (decide (hi - cursor <= Z.of_nat (length x) - 1)).
    + f_equal. lia.
    + rewrite !firstn_all2; [done|rewrite length_skipn; lia..].
  - f_equal. lia.
Qed.

(** A chunk that is read is the one the manifest was committed with. *)
Definition sound_reader (read : bytes -> option bytes) : Prop := forall h x, read h = Some x -> blake3 x = h.

Lemma serving_window read m ds cursor lo hi :
  sound_reader read ->
  Forall2 (fun c x => blake3 x = c.1 /\ Z.of_nat (length x) = c.2) m ds -> 0 <= cursor -> lo <= hi ->
  let r := serving_stream read m cursor lo hi in
  blake3_collision \/
  r.1 `prefix_of` window cursor lo hi (concat ds) /\
  (r.2 = true -> r.1 = window cursor lo hi (concat ds)) /\
  ((forall h, h ∈ m.*1 -> is_Some (read h)) -> r.2 = true).
Proof.
  intros Hr HF. revert cursor. induction HF as [|[h len] x m ds [Hx Hl] HF IH]; intros cursor H0 Hh.
  - right. simpl. unfold window. rewrite skipn_nil, firstn_nil. by split_and!.
  - simpl in Hx, Hl. simpl. case_decide as E1.
    { assert (x = []) as -> by (apply length_zero_iff_nil; lia).
      destruct (IH cursor H0 Hh) as [|(I1 & I2 & I3)]; [by left|right].
      split_and!; [done..|]. intros Hs. apply I3. intros h' Hin. apply Hs. by right. }
    case_decide as E2.
    { rewrite window_past by lia. rewrite Hl. destruct (IH (cursor + len) ltac:(lia) Hh) as [|(I1 & I2 & I3)]; [by left|right].
      split_and!; [done..|]. intros Hs. apply I3. intros h' Hin. apply Hs. by right. }
    case_decide as E3; [right; rewrite window_before by lia; by split_and!|].
    destruct (read h) as [y|] eqn:Er.
    2:{ right. split_and!; [apply prefix_nil|done|]. intros Hs. destruct (Hs h) as [? Hx']; [by left|congruence]. }
    destruct (decide (y = x)) as [->|Hn].
    2:{ left. exists y, x. split; [done|]. rewrite (Hr h y Er). congruence. }
    rewrite decide_False by lia. destruct (IH (cursor + len) ltac:(lia) Hh) as [|(I1 & I2 & I3)]; [by left|right].
    destruct (serving_stream read m (cursor + len) lo hi) as [rest ok] eqn:Es. simpl in *.
    rewrite window_meets by lia. rewrite Hl. split_and!.
    + by apply prefix_app.
    + intros Hok. f_equal. by apply I2.
    + intros Hs. apply I3. intros h' Hin. apply Hs. by right.
Qed.

Lemma sum_lengths m ds :
  Forall2 (fun c x => blake3 x = c.1 /\ Z.of_nat (length x) = c.2) m ds ->
  foldr Z.add 0 m.*2 = Z.of_nat (length (concat ds)).
Proof. induction 1 as [|c x m ds [_ Hl] _ IH]; [done|]. rewrite fmap_cons. cbn [foldr concat]. rewrite IH, length_app. lia. Qed.

(** A range that is granted lies in the file. *)
Lemma parse_range_within hdr total lo hi :
  0 <= total -> parse_range hdr total = Ok (Some (lo, hi)) -> 0 <= lo /\ lo <= hi /\ hi < total.
Proof.
  intros Ht. unfold parse_range. destruct hdr as [v|]; [|done]. rewrite rbind_Ok. intros ([a b] & _ & H).
  assert (forall s n, parse_u64 s = Some n -> 0 <= n) as Hp.
  { intros s n Hn. unfold parse_u64, parse_unsigned in Hn.
    assert (forall s' acc, 0 <= acc -> digits 10 u64_max acc s' = Some n -> 0 <= n) as Hd.
    { induction s' as [|c s' IH]; intros acc Ha Hd; simpl in Hd; [by simplify_eq|].
      apply bind_Some in Hd as (x & Hx & Hd). unfold digit in Hx. apply bind_Some in Hx as (v0 & Hv & Hx).
      repeat case_decide; simplify_eq; try done; (eapply IH; [|exact Hd]; lia). }
    destruct (trim s) as [|c s']; [done|]. case_decide; [destruct s'; [done|]|]; (eapply Hd; [|exact Hn]; lia). }
  destruct (trim a) eqn:Ea.
  - rewrite rbind_Ok in H. destruct H as (n & Hn%ok_or_Ok%Hp & H). case_decide as Hd; [done|].
    simplify_eq. unfold sat_sub. lia.
  - rewrite rbind_Ok in H. destruct H as (n & Hn%ok_or_Ok%Hp & H). case_decide as Hd; [done|].
    rewrite rbind_Ok in H. destruct H as (n' & Hn' & H). case_decide as Hd'; [done|]. simplify_eq.
    split_and!; [done|lia|]. destruct (trim b); simplify_eq; [lia|].
    rewrite rbind_Ok in Hn'. destruct Hn' as (n2 & _ & [= <-]). lia.
Qed.

Lemma any_committed_spec file d key :
  any_committed_manifest_caller_stmt file d = Some key -> is_committed (file, key) d = true.
Proof.
  unfold any_committed_manifest_caller_stmt. intros H.
  assert (key ∈ committed_callers file d) as Hk.
  { rewrite <- (merge_sort_Permutation string_le (committed_callers file d)).
    destruct (merge_sort _ _); [done|]. simpl in H. simplify_eq. by left. }
  unfold committed_callers in Hk. apply list_elem_of_omap in Hk as (([f o] & m) & Hm%elem_of_map_to_list & H1).
  simpl in H1. destruct (bool_decide (f = file)) eqn:Ef; [|done]. apply bool_decide_eq_true in Ef. subst f.
  simpl in H1. destruct (committed m) eqn:Ec; simplify_eq. unfold is_committed. by rewrite Hm.
Qed.

(** The bounds of a response. *)
Definition bounds (r : FileResponse) : Z * Z := default (0, fr_total r - 1) (fr_range r).

Lemma response_exact w id token hdr r :
  WorldOk w ->
  get_file cfg id token hdr w = Ok r ->
  exists ticket content,
    verify_verb (fc_public cfg) (fw_clock w) token Read = Ok ticket /\
    parse_hex_32 id = Some (tk_file ticket) /\
    file_visible_to_caller cfg (tk_file ticket) (tk_caller ticket) (db w) = true /\
    blake3 content = tk_file ticket /\ Z.of_nat (length content) = fr_total r /\
    Z.of_nat (length (slice (bounds r).1 (bounds r).2 content)) = fr_length r /\
    fr_length r <= ceiling ticket /\
    forall read, sound_reader read ->
      blake3_collision \/
      (body_of read r).1 `prefix_of` slice (bounds r).1 (bounds r).2 content /\
      ((body_of read r).2 = true -> (body_of read r).1 = slice (bounds r).1 (bounds r).2 content) /\
      ((forall h, h ∈ (fr_chunks r).*1 -> is_Some (read h)) -> (body_of read r).2 = true).
Proof.
  intros W Hg. unfold get_file in Hg. rewrite rbind_Ok in Hg. destruct Hg as (ticket & Ht & Hg). case_decide; [done|].
  rewrite rbind_Ok in Hg. destruct Hg as (file & Hf%ok_or_Ok & Hg). case_decide as Hid; [done|].
  assert (file = tk_file ticket) as -> by done.
  destruct (file_visible_to_caller _ _ _ _) eqn:Hv; [|done].
  rewrite rbind_Ok in Hg. destruct Hg as (found & Hm & Hg). rewrite rbind_Ok in Hg.
  destruct Hg as (m & Hm'%ok_or_Ok & Hg). subst found. unfold load_any_committed_manifest in Hm.
  destruct (any_committed_manifest_caller_stmt _ _) as [key|] eqn:Ek; [|done].
  apply any_committed_spec in Ek. rewrite rbind_Ok in Hm. destruct Hm as (m' & Hm & [= ->]).
  apply manifest_from_rows_Ok in Hm.
  destruct (ok_true _ _ _ (wo_files w W) _ Ek) as (ds & HF & Hd). simpl in Hd.
  change (shape (tk_file ticket, key) (db w)) with (manifest_chunk_pairs (tk_file ticket, key) (db w)) in HF.
  unfold manifest_chunk_pairs in HF. rewrite <- Hm in HF. pose proof (sum_lengths _ _ HF) as Hsum.
  rewrite rbind_Ok in Hg. destruct Hg as (range & Hr & Hg). case_decide as Hceil; [done|].
  exists ticket, (concat ds). apply (f_equal (fun x => match x with Ok y => y | Err _ => r end)) in Hg. subst r.
  unfold bounds, body_of. simpl. rewrite Hsum in *.
  set (total := Z.of_nat (length (concat ds))) in *.
  assert (exists lo hi, default (0, total - 1) range = (lo, hi) /\ 0 <= lo /\ lo <= hi + 1 /\ hi < total /\
            (total <> 0 -> lo <= hi) /\ match range with Some (lo, hi) => hi - lo + 1 | None => total end = hi - lo + 1)
    as (lo & hi & -> & H1 & H2 & H3 & H4 & H5).
  { destruct range as [[lo hi]|].
    - apply parse_range_within in Hr; [|lia]. exists lo, hi. simpl. split_and!; (done || lia).
    - exists 0, (total - 1). simpl. split_and!; (done || lia). }
  simpl. split_and!; try done.
  - rewrite H5. unfold slice. rewrite length_firstn, length_skipn. lia.
  - lia.
  - intros read Hs. case_decide as Hz.
    + right. unfold slice. replace (Z.to_nat (hi - lo + 1)) with 0%nat by lia. by split_and!.
    + rewrite <- window_start by lia. apply serving_window; [done|done|lia|by apply H4].
Qed.

(** C9. A download is the file. A response under a ticket is to a caller the
    deployment shows the file to; there is one content, of the digest the file's id
    is and of the length announced for it, such that the body, whichever moment each
    of its chunks is read at, is the range of it that the response announces, of the
    announced length and within the ticket's ceiling: cut short by a chunk that cannot
    be read, but never other bytes, unless two contents share a digest. The server may
    have been through any interleaving that [committed_files_whole] allows: no sweep
    lists a chunk that another sweep or a boot pass is still deleting. *)
Theorem download_exact a now l id token hdr r :
  let w := moves cfg l (blank a now) in
  solo cfg l (blank a now) = true ->
  get_file cfg id token hdr w = Ok r ->
  exists ticket content,
    verify_verb (fc_public cfg) (fw_clock w) token Read = Ok ticket /\
    parse_hex_32 id = Some (tk_file ticket) /\
    file_visible_to_caller cfg (tk_file ticket) (tk_caller ticket) (db w) = true /\
    blake3 content = tk_file ticket /\ Z.of_nat (length content) = fr_total r /\
    Z.of_nat (length (slice (bounds r).1 (bounds r).2 content)) = fr_length r /\
    fr_length r <= ceiling ticket /\
    forall read, sound_reader read ->
      blake3_collision \/
      (body_of read r).1 `prefix_of` slice (bounds r).1 (bounds r).2 content /\
      ((body_of read r).2 = true -> (body_of read r).1 = slice (bounds r).1 (bounds r).2 content) /\
      ((forall h, h ∈ (fr_chunks r).*1 -> is_Some (read h)) -> (body_of read r).2 = true).
Proof.
  intros w Hl. apply response_exact. unfold w. by apply moves_ok; [apply blank_ok|].
Qed.
End Download.

(** ** A commit proves possession *)

Section Possession.
Context {BL : Blake3} {CD : ContentDeployment} {TC : TicketCodec} (cfg : FileConfig).

Implicit Types (d : FileDb) (k : ManifestKey) (w : FileWorld).

(** The same chunk, stored if it was. *)
Definition grown (r r' : ChunkRow) : Prop :=
  chunk_hash r' = chunk_hash r /\ chunk_len r' = chunk_len r /\ (stored r = true -> stored r' = true).

Definition same_at k d d' : Prop :=
  manifests d' !! k = manifests d !! k /\ manifest_chunks d' !! k = manifest_chunks d !! k.

(** What may have become of an upload that was neither committed nor lost, when it
    was not declared or committed anew: it is gone, or has more of its chunks. *)
Definition since k d d' : Prop :=
  is_committed k d' = false /\ is_lost k d' = false /\
  (manifests d' !! k = None \/ Forall2 grown (manifest_rows k d) (manifest_rows k d')).

Lemma same_at_refl k d : same_at k d d.
Proof. done. Qed.

Lemma same_at_trans k d d1 d2 : same_at k d d1 -> same_at k d1 d2 -> same_at k d d2.
Proof. intros [A B] [A' B']. split; congruence. Qed.

Lemma since_same k d d1 d2 : since k d d1 -> same_at k d1 d2 -> since k d d2.
Proof.
  intros (C & L & H) [A B]. unfold since, is_committed, is_lost, manifest_rows in *. rewrite A, B. done.
Qed.

Lemma since_gone k d d1 d2 : since k d d1 -> manifests d2 !! k = None -> since k d d2.
Proof.
  intros (C & L & H) Hn. unfold since, is_committed, is_lost. rewrite Hn. split_and!; [done..|by left].
Qed.

Lemma grown_refl rows : Forall2 grown rows rows.
Proof. apply Forall_Forall2_diag, Forall_forall. intros r _. by split_and!. Qed.

Lemma since_refl k d : is_committed k d = false -> is_lost k d = false -> since k d d.
Proof. intros C L. split_and!; [done..|]. right. apply grown_refl. Qed.

Lemma update_grown p rows rows' :
  Forall2 grown rows rows' -> Forall2 grown rows (update_stored true p rows').
Proof.
  unfold update_stored. intros H. apply Forall2_fmap_r. eapply Forall2_impl; [exact H|].
  intros r r' (A & B & C). simpl. by destruct (p r').
Qed.

(** Whose manifest a move declares or commits, and the steps of a boot pass that take
    chunks back: those may be any manifest's. *)
Definition concerns k (m : Move) : bool :=
  match m with
  | MIntent token id body checked _ =>
      match declaration cfg token id body checked with Ok (_, k', _) => bool_decide (k' = k) | Err _ => false end
  | MCommit token id checked _ _ _ =>
      match committer cfg token id checked with Ok (_, k', _) => bool_decide (k' = k) | Err _ => false end
  | MBoot (BMark | BUnstore) _ _ => true
  | _ => false
  end.

Lemma same_insert k k' total now l d :
  k' <> k -> same_at k d (insert_manifest k' total now l d).2.
Proof.
  intros Hk. unfold insert_manifest. destruct (existsb _ _); [done|]. unfold insert_manifest_stmt.
  destruct (manifests _ !! k'); simpl; [done|].
  destruct l as [|c l]; [|unfold chunk_rows; case_decide; simpl; [|done]];
    (split; simpl; [by rewrite lookup_insert_ne|]); [done|by rewrite lookup_insert_ne].
Qed.

Lemma since_account k d d1 k' h len limit :
  since k d d1 -> since k d (account_chunk_put k' h len limit d1).2.
Proof.
  intros H. unfold account_chunk_put. destruct (try_into i64_max len) as [n|]; [|done].
  unfold mark_chunk_stored_stmt. set (d2 := with_chunks _ d1).
  assert (since k d d2) as H2.
  { destruct H as (C & L & H). split_and!; [done..|]. destruct H as [H|H]; [by left|right].
    unfold manifest_rows, d2 in *. simpl. destruct (decide (k' = k)) as [->|Hk].
    - rewrite lookup_alter_eq. destruct (manifest_chunks d1 !! k); simpl in *; [by apply update_grown|done].
    - by rewrite lookup_alter_ne. }
  destruct (length _); [done|]. unfold tally_bytes_stmt.
  destruct (manifests d2 !! k') as [m|] eqn:Em; [|done]. case_decide; [|done]. simpl.
  destruct H2 as (C & L & H2). unfold since, is_committed, is_lost in *. simpl in *.
  destruct (decide (k' = k)) as [->|Hk].
  - rewrite lookup_insert_eq. rewrite Em in *. simpl. split_and!; [done..|].
    destruct H2; [done|]. by right.
  - rewrite lookup_insert_ne by done. done.
Qed.

Lemma same_tell k file st l d d' : tell file st l d = Ok d' -> same_at k d d'.
Proof. by intros [a ->]%tell_app. Qed.

Lemma same_rechunk k file rows owners d :
  (k.1 = file -> k.2 ∉ owners) -> same_at k d (foldl (rechunk file rows) d owners).
Proof.
  revert d. induction owners as [|o owners IH]; intros d Hk; [done|]. simpl.
  eapply same_at_trans; [|apply IH; intros Hf Ho; apply (Hk Hf); by right].
  assert ((file, o) <> k) as Hn by (intros <-; apply (Hk eq_refl); by left).
  split; [done|]. simpl. by rewrite lookup_insert_ne, lookup_delete_ne.
Qed.

(** A commit leaves alone every other manifest that is not lost. *)
Lemma same_commit k k' l m d d' :
  k' <> k -> is_lost k d = false ->
  commit_manifest_atomic cfg k' l (lost_manifest_callers_stmt k'.1 d) m d = Ok d' -> same_at k d d'.
Proof.
  intros Hk Hl. unfold commit_manifest_atomic. rewrite rbind_Ok. intros (rows & _ & H).
  assert (k.1 = k'.1 -> k.2 ∉ lost_manifest_callers_stmt k'.1 d) as Hn.
  { intros <- Ho%elem_of_lost. rewrite <- surjective_pairing in Ho. congruence. }
  destruct (lost_manifest_callers_stmt k'.1 d) as [|o os] eqn:El.
  - unfold mark_manifest_committed_stmt in H. destruct (manifests d !! k') as [m'|]; [|by simplify_eq].
    destruct (committed m'); [by simplify_eq|]. eapply same_at_trans; [|by eapply same_tell].
    split; [simpl; by rewrite lookup_insert_ne|done].
  - rewrite <- El in *. set (d1 := foldl _ d _) in *.
    assert (same_at k d d1) as H1.
    { apply same_rechunk. intros Hf [_ Ho]%list_elem_of_filter. by apply Hn. }
    unfold restore_lost_manifests_stmt in H. set (d2 := with_manifests _ _) in H.
    assert (same_at k d1 d2) as H2.
    { destruct H1 as [H1 _]. unfold same_at, d2. simpl. rewrite !map_lookup_imap.
      unfold is_lost in *. rewrite <- H1 in Hl. split.
      - destruct (manifests d1 !! k) as [m'|]; simpl; [|done]. by rewrite Hl, andb_false_r.
      - destruct (manifest_chunks d1 !! k); simpl; [|done].
        destruct (manifests d1 !! k); [by rewrite Hl, andb_false_r|by rewrite andb_false_r]. }
    eapply same_at_trans; [exact H1|]. eapply same_at_trans; [exact H2|].
    eapply same_at_trans; [|by eapply same_tell]. case_decide; [done|].
    split; simpl; by rewrite lookup_delete_ne.
Qed.

Lemma since_transaction {A} k d fate (body : FileWorld -> Result A ServerError * FileWorld) w :
  since k d (db w) -> since k d (db (body w).2) -> since k d (db (transaction fate body w).2).
Proof. intros H H'. unfold transaction. destruct (body w) as [[x|e] w']; [by destruct fate|done]. Qed.

Lemma same_commit_body k k' l n io w :
  k' <> k -> is_lost k (db w) = false -> same_at k (db w) (db (commit_body cfg k' l n io w).2).
Proof.
  intros Hk Hl. unfold commit_body. destruct (load_manifest_locked _ _) as [[[|m]|]|e]; [| | |by apply same_at_refl].
  - destruct (tell _ _ _ _) as [d'|e] eqn:Et; [|by apply same_at_refl]. by eapply same_tell.
  - destruct (rbind _ _) as [d'|e] eqn:E; [|by apply same_at_refl].
    rewrite rbind_Ok in E. destruct E as (_ & _ & E). rewrite rbind_Ok in E. destruct E as (_ & _ & E).
    rewrite rbind_Ok in E. destruct E as (_ & _ & E). by eapply same_commit.
  - destruct (file_committed _ _); apply same_at_refl.
Qed.

Lemma since_prepare k d d1 grace now : since k d d1 -> since k d (prepare_sweep grace now d1).2.
Proof.
  intros H. unfold prepare_sweep.
  assert (since k d (delete_orphaned_stmt grace now d1).2) as H1.
  { destruct (manifests (delete_orphaned_stmt grace now d1).2 !! k) as [m|] eqn:E; [|by eapply since_gone].
    eapply since_same; [exact H|]. apply map_lookup_filter_Some in E as [E Es]. simpl in Es. split; simpl.
    - rewrite E. by apply map_lookup_filter_Some.
    - destruct (manifest_chunks d1 !! k) as [rows|] eqn:Ek; [|apply map_lookup_filter_None; by left].
      apply map_lookup_filter_Some. split; [done|]. simpl. apply map_lookup_filter_None. right.
      intros m' Hm'. simpl. congruence. }
  destruct (delete_orphaned_stmt grace now d1) as [ids d2]. simpl in *.
  destruct (lock_sweep_rows_stmt grace now d1); [done|]. by eapply since_same.
Qed.

(** The other steps of a boot pass touch the registry and the store alone. *)
Lemma boot_rows k s i fate w :
  s <> BMark -> s <> BUnstore -> same_at k (db w) (db (boot_step i (reconcile_step cfg s fate) w)).
Proof.
  intros H1 H2. unfold boot_step. destruct (boots w !! i) as [b|]; [|done]. destruct s; try done; simpl;
    destruct (stage b) as [|[]| | |[]| | | | |]; try done; try (by destruct fate).
  unfold claim_orphan_stmt. destruct (chunk_registry (db w) !! _); by destruct fate.
Qed.

Lemma since_boot k d s i fate w :
  concerns k (MBoot s i fate) = false -> since k d (db w) -> since k d (db (move cfg (MBoot s i fate) w)).
Proof. intros Hq H. eapply since_same; [exact H|]. apply boot_rows; by intros ->. Qed.

Lemma since_move k d m w :
  concerns k m = false -> since k d (db w) -> since k d (db (move cfg m w)).
Proof.
  intros Hq H. destruct m; simpl in *; try done.
  - unfold declare. destruct (declaration _ _ _ _ _) as [[[ticket k'] l]|e]; [|done].
    apply bool_decide_eq_false in Hq.
    match goal with |- context [transaction ?f ?b w] =>
      assert (since k d (db (transaction f b w).2)) as H'; [|by destruct (transaction f b w) as [[[]|] ?]] end.
    apply since_transaction; [done|]. pose proof (same_insert k k' (ir_total body) (fw_clock w) l (db w) Hq) as Hs.
    destruct (insert_manifest _ _ _ _ _). by eapply since_same.
  - unfold put_chunk. destruct (rbind _ _) as [[[h k'] limit]|e]; [|done]. apply since_transaction; [done|].
    unfold store_chunk. destruct (chunk_registry (db w) !! h) as [[]|]; try done.
    all: destruct (declared_chunk_len k' h (db w)) as [[len|]|]; try done.
    all: case_decide; [done|]; destruct written; [|done].
    all: simpl; pose proof (since_account k d (db w) k' h len limit H) as H'.
    all: destruct (account_chunk_put k' h len limit (db w)) as [[[]|e] d']; simpl in *; try done.
    all: unfold ledger_add; destruct (default (0, 0) _); done.
  - unfold flip. destruct (committer _ _ _ _) as [[[c k'] l]|e]; [|done]. apply bool_decide_eq_false in Hq.
    apply since_transaction; [done|]. eapply since_same; [exact H|]. apply same_commit_body; [done|].
    by destruct H as (_ & L & _).
  - by apply since_prepare.
  - unfold sweep_step. destruct (sweeps w !! i) as [[[|h rest] [x|]]|]; simpl; try done. by destruct fate.
  - unfold sweep_step. destruct (sweeps w !! i) as [[rest [x|]]|]; done.
  - by apply since_boot.
  - unfold ledger_add. destruct (default (0, 0) _). done.
Qed.

Lemma since_moves k d l w :
  forallb (fun m => negb (concerns k m)) l = true -> since k d (db w) -> since k d (db (moves cfg l w)).
Proof.
  revert w. induction l as [|m l IH]; intros w; simpl; [done|].
  intros [Hm%negb_true_iff Hl]%andb_true_iff H. apply IH; [done|]. by apply since_move.
Qed.

(** A hash the caller is said to hold is in a committed file it may see. *)
Definition seen_in_file (c : ContentCaller) (h : bytes) (d : FileDb) : Prop :=
  exists k0 candidates, is_committed k0 d = true /\ h ∈ (manifest_chunk_pairs k0 d).*1 /\
    k0.1 ∈ connetto_visible_files (app d) (bind_caller (fc_settings cfg) (fc_marker cfg) c) candidates.

Lemma visible_hashes_seen c declared d h :
  h ∈ visible_committed_hashes_in cfg c declared d -> seen_in_file c h d.
Proof.
  unfold visible_committed_hashes_in. destruct (committed_file_ids_for declared d) as [|f fs] eqn:Ec; [by intros []%elem_of_nil|].
  destruct (connetto_visible_files _ _ _) as [|v vs] eqn:Ev; [by intros []%elem_of_nil|].
  unfold present_chunk_hashes. rewrite elem_of_remove_dups, list_elem_of_bind.
  intros ([k0 rows] & Hh & Hk%elem_of_map_to_list). simpl in *.
  destruct (manifests d !! k0) as [m|] eqn:Em; [|by apply elem_of_nil in Hh].
  destruct (committed m) eqn:Ecm; simpl in Hh; [|by apply elem_of_nil in Hh].
  case_bool_decide as Hv; [|by apply elem_of_nil in Hh]. apply list_elem_of_filter in Hh as [_ Hh].
  exists k0, (f :: fs). split_and!.
  - unfold is_committed. by rewrite Em.
  - unfold manifest_chunk_pairs, manifest_rows. rewrite Hk. simpl. by rewrite <- list_fmap_compose.
  - rewrite Ev. done.
Qed.

(** A commit that turns its own upload leaves the upload's rows as they were. *)
Lemma commit_same_rows k l n io w :
  is_lost k (db w) = false -> is_committed k (db w) = false ->
  is_committed k (db (commit_body cfg k l n io w).2) = true ->
  manifest_rows k (db (commit_body cfg k l n io w).2) = manifest_rows k (db w) /\ is_Some (manifests (db w) !! k).
Proof.
  intros Hl Hc. unfold commit_body, load_manifest_locked, lock_manifest_row_stmt.
  unfold is_committed in Hc. destruct (manifests (db w) !! k) as [m|] eqn:Em; simpl.
  2:{ destruct (file_committed _ _); unfold is_committed; simpl; by rewrite Em. }
  rewrite Hc. simpl. destruct (manifest_from_rows _) as [rows|e]; simpl; [|unfold is_committed; by rewrite Em, Hc].
  destruct (rbind _ _) as [d|e] eqn:E; simpl; [|unfold is_committed; by rewrite Em, Hc].
  rewrite rbind_Ok in E. destruct E as (_ & _ & E). rewrite rbind_Ok in E. destruct E as (_ & _ & E).
  rewrite rbind_Ok in E. destruct E as (_ & _ & E). unfold commit_manifest_atomic in E.
  rewrite rbind_Ok in E. destruct E as (rows' & _ & E). intros Hd. split; [|done].
  destruct (lost_manifest_callers_stmt k.1 (db w)) as [|o os] eqn:El.
  - unfold mark_manifest_committed_stmt in E. rewrite Em, Hc in E. apply tell_app in E as [a ->]. done.
  - assert (k.2 ∉ lost_manifest_callers_stmt k.1 (db w)) as Hn.
    { rewrite elem_of_lost, <- surjective_pairing, Hl. done. }
    exfalso. destruct (restore_lost_manifests_stmt _ _) as [restored d2] eqn:Er.
    assert (k.2 ∉ restored) as Hr.
    { unfold restore_lost_manifests_stmt in Er. injection Er as <- _. intros Ho%elem_of_lost. apply Hn, elem_of_lost.
      unfold is_lost in *. simpl in Ho.
      destruct (rechunk_all k.1 rows' (filter (fun owner => owner <> k.2) (o :: os)) (db w)) as (Hm & _).
      by rewrite Hm in Ho. }
    rewrite decide_False in E by done. apply tell_app in E as [a ->].
    unfold is_committed in Hd. simpl in Hd. by rewrite lookup_delete_eq in Hd.
Qed.

(** C8. A commit proves possession. An upload that a commit turns, under whatever
    failures and with any other requests in between as long as none of them declares
    or commits the same upload anew and no boot pass marks chunks or files as gone,
    has each of its chunks stored by the uploader itself or carried by a committed
    file that the deployment showed to the caller: naming a file's chunks does not
    obtain the file. *)
Theorem commit_proves_possession token id io fate o1 o2 o3 w c k names :
  let w' := (post_commit cfg token id io fate o1 o2 o3 w).2 in
  committer cfg token id (fw_clock w) = Ok (c, k, names) ->
  is_committed k (db w) = false -> is_lost k (db w) = false ->
  forallb (fun m => negb (concerns k m)) (o1 ++ o2 ++ o3) = true ->
  is_committed k (db w') = true ->
  forall r, r ∈ manifest_rows k (db w') ->
    stored r = true \/ seen_in_file c (chunk_hash r) (db w).
Proof.
  intros w' Hm Hc Hl Ho Hk r Hr. unfold w', post_commit in *. rewrite Hm in *.
  destruct (all_chunks_satisfied cfg k c (db w)) eqn:Ha; [|simpl in Hk; congruence].
  rewrite !forallb_app, !andb_true_iff in Ho. destruct Ho as (Ho1 & Ho2 & Ho3).
  set (w1 := moves cfg o1 w) in *. set (w2 := moves cfg o2 w1) in *. set (w3 := moves cfg o3 w2) in *.
  assert (since k (db w) (db w3)) as S3.
  { unfold w3, w2, w1. do 3 (apply since_moves; [done|]). by apply since_refl. }
  unfold flip in *. rewrite Hm in *. destruct S3 as (C3 & L3 & S3).
  set (body := commit_body cfg k names _ io) in *.
  assert (is_committed k (db (body w3).2) = true /\ manifest_rows k (db (transaction fate body w3).2) =
            manifest_rows k (db (body w3).2)) as [Hb Hrows].
  { unfold transaction in *. destruct (body w3) as [[x|e] wb]; [destruct fate|]; simpl in *; (done || congruence). }
  destruct (commit_same_rows k names _ io w3 L3 C3 Hb) as [Hs Hsome]. fold body in Hs.
  rewrite Hrows, Hs in Hr. destruct S3 as [S3|S3]; [rewrite S3 in Hsome; by destruct Hsome|].
  destruct (stored r) eqn:Es; [by left|right].
  apply list_elem_of_lookup in Hr as [i Hi]. destruct (Forall2_lookup_r _ _ _ _ _ S3 Hi) as (r0 & Hi0 & H1 & _ & H3).
  assert (chunk_hash r ∈ all_unstored_chunk_hashes_stmt k (db w)) as Hu.
  { rewrite H1. apply list_elem_of_fmap. exists r0. split; [done|]. apply list_elem_of_filter.
    split; [|by eapply list_elem_of_lookup_2]. destruct (stored r0) eqn:E0; [|done]. by rewrite H3 in Es. }
  unfold all_chunks_satisfied in Ha. destruct (all_unstored_chunk_hashes_stmt k (db w)) as [|h hs] eqn:Eu; [by apply elem_of_nil in Hu|].
  rewrite forallb_forall in Ha. specialize (Ha (chunk_hash r) ltac:(by apply list_elem_of_In)).
  apply bool_decide_eq_true in Ha. by eapply visible_hashes_seen.
Qed.
End Possession.

(** ** Quotas *)

Section Quota.
Context {BL : Blake3} {CD : ContentDeployment} {TC : TicketCodec} (cfg : FileConfig).

Implicit Types (d : FileDb) (k : ManifestKey) (w : FileWorld).

(** What a manifest counts towards an uploader. *)
Definition weight (key : string) (p : ManifestKey * ManifestRow) : Z :=
  if bool_decide (p.1.2 = key) && committed p.2 then total_len p.2 else 0.

(** The bytes an uploader holds in committed manifests. *)
Definition held_bytes (key : string) d : Z := foldr Z.add 0 (weight key <$> map_to_list (manifests d)).

Lemma sum_perm (l l' : list Z) : l ≡ₚ l' -> foldr Z.add 0 l = foldr Z.add 0 l'.
Proof. induction 1; simpl; lia. Qed.

Lemma held_insert key k m d :
  manifests d !! k = None -> held_bytes key (with_manifests (<[k := m]> (manifests d)) d) = weight key (k, m) + held_bytes key d.
Proof. intros Hn. unfold held_bytes. simpl. by rewrite (sum_perm _ _ (fmap_Permutation _ _ _ (map_to_list_insert _ _ _ Hn))). Qed.

Lemma held_update key k m m' d :
  manifests d !! k = Some m ->
  held_bytes key (with_manifests (<[k := m']> (manifests d)) d) = held_bytes key d - weight key (k, m) + weight key (k, m').
Proof.
  intros Hm. assert (delete k (manifests d) !! k = None) as Hn by apply lookup_delete_eq.
  pose proof (held_insert key k m' (with_manifests (delete k (manifests d)) d) Hn) as H1.
  pose proof (held_insert key k m (with_manifests (delete k (manifests d)) d) Hn) as H2.
  unfold held_bytes in *. simpl in *. rewrite insert_delete_eq in H1. rewrite insert_delete_id in H2 by done. lia.
Qed.

Lemma held_filter key (P : ManifestRow -> bool) d :
  (forall k m, P m = false -> committed m = false) ->
  held_bytes key (with_manifests (filter (fun p => P p.2 = true) (manifests d)) d) = held_bytes key d.
Proof.
  intros HP. unfold held_bytes. simpl. induction (manifests d) as [|k m M Hn IH] using map_ind; [done|].
  rewrite (sum_perm _ _ (fmap_Permutation _ _ _ (map_to_list_insert M k m Hn))). rewrite fmap_cons. cbn [foldr].
  destruct (P m) eqn:E.
  - rewrite map_filter_insert_True by done.
    assert (filter (fun p : ManifestKey * ManifestRow => P p.2 = true) M !! k = None) as Hf
      by (apply map_lookup_filter_None; by left).
    rewrite (sum_perm _ _ (fmap_Permutation _ _ _ (map_to_list_insert _ k m Hf))).
    rewrite fmap_cons. cbn [foldr]. by rewrite IH.
  - rewrite map_filter_insert_False by (simpl; congruence). rewrite delete_id by done. rewrite IH.
    unfold weight at 2. simpl. by rewrite (HP k m E), andb_false_r.
Qed.

Lemma uploader_bytes_held key d :
  uploader_committed_bytes key d = (n <-? (if decide (held_bytes key d <= i64_max) then Ok (held_bytes key d) else Err EDb) ;; Ok (u64_or_max n)).
Proof.
  unfold uploader_committed_bytes, bigint_sum, held_bytes.
  assert (forall l, foldr Z.add 0 (omap (fun p : ManifestKey * ManifestRow =>
      if bool_decide (p.1.2 = key) && committed p.2 then Some (total_len p.2) else None) l)
    = foldr Z.add 0 (weight key <$> l)) as ->; [|done].
  induction l as [|p l IH]; [done|]. rewrite fmap_cons. cbn [omap list_omap foldr]. unfold weight at 1.
  destruct (_ && _); simpl; [by rewrite <- IH|]. exact IH.
Qed.

Definition total_of (m : list (bytes * Z)) : Z := foldr Z.add 0 m.*2.

(** No manifest is lost; each declares its total; no uploader is past the quota. *)
Record QuotaOk d : Prop := {
  q_fk k : manifests d !! k = None -> shape k d = [];
  q_row k m : manifests d !! k = Some m ->
    lost m = false /\ total_len m <= i64_max /\ total_of (shape k d) = total_len m /\
    Forall (fun c => 0 <= c.2) (shape k d);
  q_sum key : held_bytes key d <= identity_quota (fc_quotas cfg);
}.

Lemma quota_alike d d' :
  QuotaOk d -> (forall k, shape k d' = shape k d) ->
  (forall k, manifests d' !! k = None -> manifests d !! k = None) ->
  (forall k m', manifests d' !! k = Some m' ->
     exists m, manifests d !! k = Some m /\ lost m' = lost m /\ total_len m' = total_len m) ->
  (forall key, held_bytes key d' <= identity_quota (fc_quotas cfg)) -> QuotaOk d'.
Proof.
  intros [F R S] Hs Hn Hm Hh. split; [|intros k m' (m & E & -> & ->)%Hm; rewrite Hs; by apply R|done].
  intros k Hk. rewrite Hs. by apply F, Hn.
Qed.

Lemma quota_app a d : QuotaOk d -> QuotaOk (with_app a d).
Proof. intros Q. eapply quota_alike; [exact Q|done|done|eauto|apply (q_sum d Q)]. Qed.

Lemma checked_sum_total l acc n :
  checked_sum l acc = Some n -> n = acc + foldr Z.add 0 l.
Proof.
  revert acc. induction l as [|x l IH]; intros acc; simpl; [intros [= <-]; lia|].
  case_decide; [|done]. intros ->%IH. lia.
Qed.

Lemma total_nonneg m : Forall (fun c : bytes * Z => 0 <= c.2) m -> 0 <= total_of m.
Proof. unfold total_of. induction 1 as [|c m Hc _ IH]; [done|]. rewrite fmap_cons. cbn [foldr]. lia. Qed.

Lemma declared_total m :
  Forall (fun c : bytes * Z => 0 <= c.2) m -> total_of m <= u64_max -> declared_bytes m = total_of m.
Proof.
  unfold declared_bytes. intros HF Ht.
  assert (forall acc, 0 <= acc -> acc + total_of m <= u64_max ->
    foldl (fun acc c => sat_add u64_max acc c.2) acc m = acc + total_of m) as H; [|by rewrite H by lia].
  clear Ht. induction HF as [|c m Hc HF IH]; intros acc Ha Hb; simpl; [unfold total_of; simpl; lia|].
  pose proof (total_nonneg m HF). unfold total_of in *. rewrite fmap_cons in *. cbn [foldr] in *.
  unfold sat_add at 2. rewrite Z.min_r by lia. rewrite IH by lia. lia.
Qed.

Lemma weight_open key k m : committed m = false -> weight key (k, m) = 0.
Proof. intros H. unfold weight. simpl. by rewrite H, andb_false_r. Qed.

Lemma quota_insert k total now l d :
  QuotaOk d -> total_of l = total -> total <= i64_max -> QuotaOk (insert_manifest k total now l d).2.
Proof.
  intros Q Ht Hi. unfold insert_manifest. destruct (existsb _ _); [done|]. unfold insert_manifest_stmt.
  destruct (manifests _ !! k) as [m|] eqn:Em; simpl; [done|]. simpl in Em.
  set (row := {| total_len := total |}). set (d1 := insert_registry_pending_batch_stmt _ d).
  set (d2 := with_manifests _ d1).
  assert (forall d3, (forall k', shape k' d3 = if decide (k' = k) then l else shape k' d) ->
    manifests d3 = manifests d2 -> Forall (fun c => 0 <= c.2) l -> QuotaOk d3) as Hgen.
  { intros d3 Hs Hm HF. destruct Q as [F R S]. split.
    - intros k' Hn. rewrite Hm in Hn. unfold d2 in Hn. simpl in Hn. apply lookup_insert_None in Hn as [Hn Hk].
      rewrite Hs, decide_False by done. by apply F.
    - intros k' m'. rewrite Hm, Hs. unfold d2. simpl. destruct (decide (k' = k)) as [->|Hk].
      + rewrite lookup_insert_eq. intros [= <-]. done.
      + rewrite lookup_insert_ne by done. apply R.
    - intros key. transitivity (held_bytes key d2); [unfold held_bytes; by rewrite Hm|].
      pose proof (held_insert key k row d1 Em) as H. rewrite weight_open in H by done.
      change (held_bytes key d2) with (held_bytes key (with_manifests (<[k := row]> (manifests d1)) d1)).
      rewrite H. apply S. }
  assert (shape k d2 = []) as Hk0 by (by apply (q_fk d Q)).
  destruct l as [|c l]; simpl.
  - apply (Hgen d2); [|done|constructor]. intros k'. case_decide; [by subst|done].
  - unfold chunk_rows. case_decide as Hd; simpl; [|done]. destruct Hd as [_ HF]. apply Hgen; [|done|].
    + intros k'. by rewrite shape_insert.
    + eapply Forall_impl; [exact HF|]. intros c'. simpl. lia.
Qed.

Lemma quota_account k h len limit d : QuotaOk d -> QuotaOk (account_chunk_put k h len limit d).2.
Proof.
  intros Q. unfold account_chunk_put. destruct (try_into i64_max len) as [n|]; [|done].
  unfold mark_chunk_stored_stmt. set (d1 := with_chunks _ d).
  assert (QuotaOk d1) as Q1.
  { eapply quota_alike; [exact Q|intros; apply shape_alter|done|eauto|apply (q_sum d Q)]. }
  destruct (length _); simpl; [done|]. unfold tally_bytes_stmt.
  destruct (manifests d1 !! k) as [m|] eqn:Em; simpl; [|done]. case_decide; simpl; [|done].
  eapply quota_alike; [exact Q1|done| | |].
  - intros k'. simpl. by intros [Hn _]%lookup_insert_None.
  - intros k' m'. simpl. intros [[<- <-]|[_ Hm]]%lookup_insert_Some; eauto.
  - intros key. etrans; [|apply (q_sum d1 Q1 key)]. apply Z.eq_le_incl.
    transitivity (held_bytes key (with_manifests (<[k := with_accepted (accepted_bytes m + n) m]> (manifests d1)) d1)); [done|].
    rewrite (held_update key k m _ d1 Em). unfold weight. simpl. lia.
Qed.

Lemma quota_ledger today n n' d : QuotaOk d -> QuotaOk (ledger_add today n n' d).
Proof.
  intros Q. unfold ledger_add. destruct (default (0, 0) _).
  eapply quota_alike; [exact Q|done|done|eauto|apply (q_sum d Q)].
Qed.

Lemma quota_no_lost file d : QuotaOk d -> lost_manifest_callers_stmt file d = [].
Proof.
  intros Q. destruct (lost_manifest_callers_stmt file d) as [|o l] eqn:E; [done|].
  assert (o ∈ lost_manifest_callers_stmt file d) as Ho%elem_of_lost by (rewrite E; by left).
  unfold is_lost in Ho. destruct (manifests d !! (file, o)) as [m|] eqn:Em; [|done].
  destruct (q_row d Q _ _ Em) as [Hl _]. congruence.
Qed.

Context (HQ : 0 < identity_quota (fc_quotas cfg) <= u64_max).

Lemma quota_commit k l n io w : QuotaOk (db w) -> QuotaOk (db (commit_body cfg k l n io w).2).
Proof.
  intros Q. unfold commit_body, load_manifest_locked, lock_manifest_row_stmt.
  destruct (manifests (db w) !! k) as [m|] eqn:Em; simpl; [|by destruct (file_committed _ _)].
  destruct (committed m) eqn:Ec; simpl.
  { destruct (tell _ _ _ _) as [d|e] eqn:Et; [|done]. apply tell_app in Et as [a ->]. by apply quota_app. }
  destruct (manifest_from_rows _) as [rows|e] eqn:Er; simpl; [|done]. apply manifest_from_rows_Ok in Er.
  rewrite (quota_no_lost k.1 (db w) Q). destruct (rbind _ _) as [d|e] eqn:E; simpl; [|done].
  rewrite rbind_Ok in E. destruct E as (_ & _ & E). rewrite rbind_Ok in E. destruct E as (_ & _ & E).
  rewrite rbind_Ok in E. destruct E as ([] & Hq & E). unfold commit_manifest_atomic in E.
  rewrite rbind_Ok in E. destruct E as (rows' & _ & E). unfold mark_manifest_committed_stmt in E.
  rewrite Em, Ec in E. apply tell_app in E as [a ->]. apply quota_app.
  destruct (q_row _ Q _ _ Em) as (Hl & Hi & Ht & HF).
  assert (declared_bytes rows = total_len m) as Hd.
  { rewrite <- Ht. subst rows. apply declared_total; [done|]. unfold u64_max, i64_max in *. lia. }
  unfold check_quota in Hq. rewrite decide_True in Hq by (split; [lia|by left]).
  rewrite uploader_bytes_held, rbind_Ok in Hq. destruct Hq as (used & Hu & Hq).
  rewrite rbind_Ok in Hu. destruct Hu as (u & Hu & [= <-]). case_decide as Hover; [done|].
  rewrite Hd in Hover. case_decide as Hh; [injection Hu as <-|done].
  eapply quota_alike; [exact Q|done| | |].
  - intros k'. simpl. by intros [Hn _]%lookup_insert_None.
  - intros k' m'. simpl. intros [[<- <-]|[_ Hm]]%lookup_insert_Some; eauto.
  - intros key.
    transitivity (held_bytes key (with_manifests (<[k := with_standing true (lost m) m]> (manifests (db w))) (db w))); [done|].
    rewrite (held_update key k m _ (db w) Em), (weight_open key k m Ec). pose proof (q_sum _ Q key) as Hk.
    unfold weight. simpl. case_bool_decide as Hkey; simpl; [|lia]. subst key.
    unfold u64_or_max, try_into, sat_add in Hover. unfold u64_max, i64_max in *.
    case_decide; simpl in Hover; [lia|]. lia.
Qed.

Lemma quota_prepare grace now d : QuotaOk d -> QuotaOk (prepare_sweep grace now d).2.
Proof.
  intros Q. unfold prepare_sweep.
  assert (QuotaOk (delete_orphaned_stmt grace now d).2) as Q1.
  { destruct Q as [F R S]. split.
    - intros k. rewrite shape_orphaned. simpl. rewrite map_lookup_filter. destruct (manifests d !! k) as [m|] eqn:Em; simpl.
      + by destruct (stale _ m).
      + intros _. by apply F.
    - intros k m. rewrite shape_orphaned. simpl. rewrite map_lookup_filter_Some. intros [Em Es]. simpl in Es.
      rewrite Em, Es. by apply R.
    - intros key. etrans; [|apply (S key)]. apply Z.eq_le_incl.
      transitivity (held_bytes key (with_manifests (filter (fun p => negb (stale (now - grace) p.2) = true) (manifests d)) d)).
      + unfold held_bytes. simpl. do 3 f_equal. apply map_filter_ext. intros k m _. simpl. by destruct (stale _ m).
      + apply (held_filter key (fun m => negb (stale (now - grace) m))). intros _ m. unfold stale. by destruct (committed m). }
  destruct (delete_orphaned_stmt grace now d) as [ids d1]. simpl in *.
  destruct (lock_sweep_rows_stmt grace now d); [done|].
  eapply quota_alike; [exact Q1|done|done|eauto|apply (q_sum d1 Q1)].
Qed.

Lemma quota_transaction {A} fate (body : FileWorld -> Result A ServerError * FileWorld) w :
  QuotaOk (db w) -> QuotaOk (db (body w).2) -> QuotaOk (db (transaction fate body w).2).
Proof. intros Q H. unfold transaction. destruct (body w) as [[x|e] w']; [destruct fate|]; done. Qed.

(** The step of a boot pass that marks files lost: it takes a file's bytes off an
    uploader's account and leaves the upload to be restored. *)
Definition reconciles (m : Move) : bool := match m with MBoot BMark _ _ => true | _ => false end.

Lemma quota_boot s i fate w :
  s <> BMark -> QuotaOk (db w) -> QuotaOk (db (boot_step i (reconcile_step cfg s fate) w)).
Proof.
  intros Hs Q. unfold boot_step. destruct (boots w !! i) as [b|]; [|done]. destruct s; try done; simpl;
    destruct (stage b) as [|[]| | |[]| | | | |]; try done; try (unfold claim_orphan_stmt; destruct (chunk_registry (db w) !! _));
    destruct fate; try done; simpl.
  all: eapply quota_alike; [exact Q|try (intros; apply shape_unstore); try done|done|eauto|apply (q_sum (db w) Q)].
Qed.

Lemma quota_move m w : reconciles m = false -> QuotaOk (db w) -> QuotaOk (db (move cfg m w)).
Proof.
  intros Hm Q. destruct m; simpl in *; try done.
  - unfold declare. destruct (declaration _ _ _ _ _) as [[[t k] l]|e] eqn:Ed; [|done].
    assert (total_of l = ir_total body /\ ir_total body <= i64_max) as [Ht Hi].
    { unfold declaration in Ed. repeat first [rewrite rbind_Ok in Ed; destruct Ed as (? & ? & Ed) | case_decide; [done|]].
      injection Ed as <- <- <-. split; [|lia].
      match goal with H : ok_or (checked_sum _ _) _ = Ok _ |- _ => apply ok_or_Ok, checked_sum_total in H; unfold total_of; lia end. }
    match goal with |- context [transaction fate ?b w] => pose proof (quota_transaction fate b w Q) as H; destruct (transaction fate b w) as [[[| |]|e] w'] end;
      apply H; cbv beta;
      pose proof (quota_insert k (ir_total body) (fw_clock w) l (db w) Q Ht Hi) as Hq;
      destruct (insert_manifest _ _ _ _ _); exact Hq.
  - unfold put_chunk. destruct (rbind _ _) as [[[h k] limit]|e]; [|done]. apply quota_transaction; [done|].
    unfold store_chunk. destruct (chunk_registry (db w) !! h) as [[| |]|]; try done;
    destruct (declared_chunk_len k h (db w)) as [[len|]|e]; try done; (case_decide; [done|]); (destruct written; [|done]);
    simpl; pose proof (quota_account k h len limit (db w) Q) as Qa;
    destruct (account_chunk_put k h len limit (db w)) as [[[| |]|e] d]; simpl in *; try done; by apply quota_ledger.
  - unfold flip. destruct (committer _ _ _ _) as [[[c k] l]|e]; [|done]. by apply quota_transaction, quota_commit.
  - by apply quota_prepare.
  - unfold sweep_step. destruct (sweeps w !! i) as [[todo [h|]]|]; simpl; [done| |done]. destruct todo; [done|]. by destruct fate.
  - unfold sweep_step. destruct (sweeps w !! i) as [[todo [h|]]|]; simpl; [|done|done].
    eapply quota_alike; [exact Q|done|done|eauto|apply (q_sum (db w) Q)].
  - apply quota_boot; [by intros ->|done].
  - by apply quota_ledger.
  - by apply quota_app.
Qed.

(** C27. The uploader's quota. Under every interleaving of uploads, commits, sweeps,
    crashes and failures in which the boot pass marks no file lost, the declared
    bytes of the files an uploader has committed never exceed the quota that is
    configured. (Commits of one uploader take turns by an advisory lock, so that the
    transaction is one stretch.) *)
Theorem quota_kept a now l key :
  existsb reconciles l = false ->
  held_bytes key (db (moves cfg l (blank a now))) <= identity_quota (fc_quotas cfg).
Proof.
  intros Hl. cut (QuotaOk (db (moves cfg l (blank a now)))); [intros Q; apply (q_sum _ Q)|].
  assert (QuotaOk (db (blank a now))) as Q0.
  { split; [done|intros k m; simpl; by rewrite lookup_empty|]. intros key'. unfold held_bytes. simpl.
    rewrite map_to_list_empty. simpl. lia. }
  revert Q0. generalize (blank a now) as w. induction l as [|m l IH]; intros w Q; [done|].
  simpl in Hl. apply orb_false_iff in Hl as [H1 H2]. apply (IH H2). by apply quota_move.
Qed.
End Quota.

(** ** Collection *)

Section Collection.
Context {BL : Blake3} {CD : ContentDeployment} {TC : TicketCodec} (cfg : FileConfig).

Implicit Types (d : FileDb) (k : ManifestKey) (w : FileWorld).

Lemma referenced_spec h d :
  referenced h d = true <-> exists k rows, manifest_chunks d !! k = Some rows /\ names h rows = true.
Proof.
  unfold referenced. rewrite existsb_exists. split.
  - intros ([k rows] & Hin%list_elem_of_In%elem_of_map_to_list & Hn). by exists k, rows.
  - intros (k & rows & Hk & Hn). exists (k, rows). split; [|done]. by apply list_elem_of_In, elem_of_map_to_list.
Qed.

Lemma surviving_referenced grace now h d :
  surviving (now - grace) h d = true -> referenced h (delete_orphaned_stmt grace now d).2 = true.
Proof.
  unfold surviving. rewrite existsb_exists. intros ([k rows] & Hin%list_elem_of_In%elem_of_map_to_list & Hs).
  simpl in Hs. apply andb_true_iff in Hs as [Hn Hm]. destruct (manifests d !! k) as [m|] eqn:Em; [|done].
  apply referenced_spec. exists k, rows. split; [|done]. simpl. apply map_lookup_filter_Some. split; [done|]. simpl.
  apply map_lookup_filter_None. right. intros m' Hm'. assert (m' = m) as -> by congruence. unfold stale. simpl.
  destruct (committed m); [done|]. simpl in Hm. apply bool_decide_eq_true in Hm. rewrite bool_decide_false by lia.
  by destruct (lost m).
Qed.

Lemma dropped_cons {V} (m : gmap bytes V) (x h : bytes) hs :
  (if decide (h ∈ hs) then None else delete x m !! h) = if decide (h ∈ x :: hs) then None else m !! h.
Proof.
  destruct (decide (h = x)) as [->|Hn].
  - rewrite lookup_delete_eq, (decide_True (P := x ∈ x :: hs)) by left. by case_decide.
  - rewrite lookup_delete_ne by done. rewrite (decide_ext (h ∈ x :: hs) (h ∈ hs)); [done|]. rewrite elem_of_cons. naive_solver.
Qed.

Lemma delete_all drops hashes w n w' :
  delete_store_then_records drops hashes w = (n, true, w') ->
  manifests (db w') = manifests (db w) /\ manifest_chunks (db w') = manifest_chunks (db w) /\
  (forall h, chunk_registry (db w') !! h = if decide (h ∈ hashes) then None else chunk_registry (db w) !! h) /\
  (forall h, chunks w' !! h = if decide (h ∈ hashes) then None else chunks w !! h).
Proof.
  revert w n w'. induction hashes as [|x hashes IH]; intros w n w' E; simpl in E.
  - injection E as _ <-. split_and!; [done|done|intros h; by rewrite decide_False by apply not_elem_of_nil..].
  - destruct (drops x); [|by destruct (delete_store_then_records _ _ _) as [[? ?] ?]].
    destruct (delete_store_then_records _ _ _) as [[n1 ok] w1] eqn:E1. injection E as _ -> ->.
    destruct (IH _ _ _ E1) as (H1 & H2 & H3 & H4). split_and!; [done|done|intros h..].
    + rewrite H3. apply dropped_cons.
    + rewrite H4. apply dropped_cons.
Qed.

Lemma elem_of_deleting d h : h ∈ list_deleting_hashes d <-> chunk_registry d !! h = Some Deleting.
Proof.
  split; [apply list_deleting_spec|]. intros E. unfold list_deleting_hashes. apply list_elem_of_omap.
  exists (h, Deleting). by rewrite elem_of_map_to_list.
Qed.

Lemma elem_of_sweep_rows grace now d h st :
  chunk_registry d !! h = Some st -> st <> Deleting -> surviving (now - grace) h d = false ->
  h ∈ lock_sweep_rows_stmt grace now d.
Proof.
  intros E Hs Hv. unfold lock_sweep_rows_stmt. apply list_elem_of_omap. exists (h, st).
  rewrite elem_of_map_to_list. split; [done|]. simpl. by rewrite bool_decide_true, Hv by done.
Qed.

(** What the sweep's transaction leaves of a registry row. *)
Lemma prepared_row grace now d h :
  let d' := (prepare_sweep grace now d).2 in
  manifests d' = manifests (delete_orphaned_stmt grace now d).2 /\
  manifest_chunks d' = manifest_chunks (delete_orphaned_stmt grace now d).2 /\
  (is_Some (chunk_registry d' !! h) <-> is_Some (chunk_registry d !! h)) /\
  (chunk_registry d' !! h <> Some Deleting -> is_Some (chunk_registry d !! h) -> referenced h d' = true) /\
  (referenced h d' = true -> chunk_registry d' !! h = chunk_registry d !! h).
Proof.
  intros d'. unfold d', prepare_sweep.
  pose proof (surviving_referenced grace now h d) as Hs. pose proof (elem_of_sweep_rows grace now d h) as Hc.
  assert (chunk_registry (delete_orphaned_stmt grace now d).2 = chunk_registry d) as Hr by done.
  destruct (delete_orphaned_stmt grace now d) as [ids d1]. simpl in *.
  assert (forall st, chunk_registry d !! h = Some st -> st <> Deleting -> referenced h d1 = false ->
            h ∈ lock_sweep_rows_stmt grace now d) as Hin.
  { intros st E Hd Hf. eapply Hc; [exact E|done|]. destruct (surviving _ _ _); [|done]. rewrite Hs in Hf; done. }
  destruct (lock_sweep_rows_stmt grace now d) as [|c cs] eqn:El.
  - rewrite Hr. split_and!; [done..| |done]. intros Hd [st E]. destruct (referenced h d1) eqn:Ef; [done|].
    destruct (not_elem_of_nil h). apply (Hin st); [done| |done]. congruence.
  - simpl. rewrite map_lookup_imap, Hr. split_and!; [done|done| | |].
    + destruct (chunk_registry d !! h); simpl; split; intros [? ?]; (done || by eexists).
    + intros Hd [st E]. rewrite E in Hd. simpl in Hd. change (referenced h d1 = true).
      destruct (referenced h d1) eqn:Ef; [done|]. exfalso. apply Hd. destruct (decide (st = Deleting)) as [->|Hn].
      * by rewrite (bool_decide_false (Deleting <> Deleting)), andb_false_r by auto.
      * rewrite bool_decide_true by (by apply (Hin st)). by rewrite bool_decide_true by done.
    + change (referenced h d1 = true -> chunk_registry d !! h ≫= (fun s => Some (
        if bool_decide (h ∈ c :: cs) && bool_decide (s <> Deleting) && negb (referenced h d1) then Deleting else s))
        = chunk_registry d !! h). intros ->. destruct (chunk_registry d !! h) as [st|]; [|done]. simpl. by rewrite andb_false_r.
Qed.

(** A sweep that succeeds collects all it may and nothing else: every chunk still
    registered is named by a manifest, each chunk that left the registry has left the
    store, the chunks still named keep their row and their bytes, and the manifests
    that go are the open ones declared before the grace. *)
Theorem sweep_collects drops w n w' :
  sweep cfg drops w = (Ok n, w') ->
  (forall h, is_Some (chunk_registry (db w') !! h) -> referenced h (db w') = true) /\
  (forall h, is_Some (chunk_registry (db w) !! h) -> chunk_registry (db w') !! h = None -> chunks w' !! h = None) /\
  (forall h, referenced h (db w') = true -> chunk_registry (db w) !! h <> Some Deleting ->
     chunk_registry (db w') !! h = chunk_registry (db w) !! h /\ chunks w' !! h = chunks w !! h) /\
  manifests (db w') = filter (fun p => stale (fw_clock w - fc_grace cfg) p.2 = false) (manifests (db w)).
Proof.
  unfold sweep. case_decide; [done|]. pose proof (prepared_row (fc_grace cfg) (fw_clock w) (db w)) as HP.
  destruct (prepare_sweep _ _ _) as [removed d] eqn:Ep. simpl in HP.
  destruct (delete_store_then_records _ _ _) as [[n1 ok] w1] eqn:E. destruct ok; [|done]. intros [= _ <-].
  destruct (delete_all _ _ _ _ _ E) as (H1 & H2 & H3 & H4). simpl in *.
  assert (forall h, referenced h (db w1) = referenced h d) as Hf by (intros h; unfold referenced; by rewrite H2).
  split_and!.
  - intros h. rewrite H3, Hf. case_decide as Hd; [by intros [? ?]|]. rewrite elem_of_deleting in Hd.
    destruct (HP h) as (_ & _ & Hi & Hr & _). intros Hs. apply Hr; [done|]. by apply Hi.
  - intros h Hs. rewrite H3, H4. case_decide as Hd; [done|]. destruct (HP h) as (_ & _ & Hi & _).
    apply Hi in Hs as [st E']. by rewrite E'.
  - intros h. rewrite Hf, H3, H4. intros Hr Hn. destruct (HP h) as (_ & _ & _ & _ & Hk). rewrite (Hk Hr).
    rewrite !decide_False by (rewrite elem_of_deleting; by rewrite (Hk Hr)). done.
  - rewrite H1. by destruct (HP []) as (-> & _).
Qed.
End Collection.
