(* ===== verification/FileTrip.v ===== *)
(** A file from one client to another: the client's transfers (upload.rs of
    connetto-file-client) answered by the file server's handlers through its routes
    (router.rs), under addresses its signer minted.

    [Setting] gathers what the libraries between the two document: the router takes
    apart the addresses the signer puts together, JSON and base64 are read back, a
    signature verifies under its key, a digest is 32 bytes. *)

From Stdlib Require Import ZArith Lia Ascii.
From stdpp Require Import base list numbers option strings gmap fin_maps sorting.
From S2P Require Import Prelude Throttle Guard Cursor Caller Percent FileTables FileCore FileServer FileClient FileSafe FileUse.

Open Scope Z_scope.

(** ** Texts *)

Definition is_byte (x : Z) : Prop := 0 <= x < 256.

Definition nibbles_back (x : Z) : bool :=
  match hex_nibble (nibble_digit (Z.shiftr x 4)), hex_nibble (nibble_digit (Z.land x 15)) with
  | Some hi, Some lo => Z.eqb (Z.lor (Z.shiftl hi 4) lo) x
  | _, _ => false
  end.

Lemma nibbles_all : forallb nibbles_back (Z.of_nat <$> seq 0 256) = true.
Proof. vm_compute. reflexivity. Qed.

Lemma nibbles_byte x :
  is_byte x ->
  exists hi lo, hex_nibble (nibble_digit (Z.shiftr x 4)) = Some hi /\
    hex_nibble (nibble_digit (Z.land x 15)) = Some lo /\ Z.lor (Z.shiftl hi 4) lo = x.
Proof.
  intros Hx. pose proof nibbles_all as H. rewrite forallb_forall in H.
  assert (nibbles_back x = true) as Hb.
  { apply H, list_elem_of_In, list_elem_of_fmap. exists (Z.to_nat x). split; [unfold is_byte in Hx; lia|].
    apply elem_of_seq. unfold is_byte in Hx. lia. }
  unfold nibbles_back in Hb. destruct (hex_nibble (nibble_digit (Z.shiftr x 4))) as [hi|]; [|done].
  destruct (hex_nibble (nibble_digit (Z.land x 15))) as [lo|]; [|done]. exists hi, lo. apply Z.eqb_eq in Hb. done.
Qed.

Lemma hex_cons x b :
  hex_32 (x :: b) = nibble_digit (Z.shiftr x 4) :: nibble_digit (Z.land x 15) :: hex_32 b.
Proof. done. Qed.

Lemma hex_pairs_hex b : Forall is_byte b -> hex_pairs (hex_32 b) = Some b.
Proof.
  induction 1 as [|x b Hx HF IH]; [done|]. destruct (nibbles_byte x Hx) as (hi & lo & H1 & H2 & H3).
  rewrite hex_cons. cbn [hex_pairs]. rewrite H1, H2. simpl. rewrite IH. simpl. by rewrite H3.
Qed.

Lemma length_hex b : length (hex_32 b) = (2 * length b)%nat.
Proof. induction b as [|x b IH]; [done|]. rewrite hex_cons. simpl. rewrite IH. lia. Qed.

Lemma parse_hex_hex b : Forall is_byte b -> length b = 32%nat -> parse_hex_32 (hex_32 b) = Some b.
Proof. intros HF Hl. unfold parse_hex_32. rewrite length_hex, Hl, decide_True by done. by apply hex_pairs_hex. Qed.

Lemma hex_inj b b' : Forall is_byte b -> Forall is_byte b' -> hex_32 b = hex_32 b' -> b = b'.
Proof.
  intros H H' E. apply (f_equal hex_pairs) in E. rewrite !hex_pairs_hex in E by done. congruence.
Qed.

Definition hex_lower (x : Z) : Prop := 48 <= x <= 57 \/ 97 <= x <= 102.

Definition digits_hex (x : Z) : bool :=
  forallb (fun c => bool_decide (48 <= c <= 57 \/ 97 <= c <= 102))
    [nibble_digit (Z.shiftr x 4); nibble_digit (Z.land x 15)].

Lemma digits_all : forallb digits_hex (Z.of_nat <$> seq 0 256) = true.
Proof. vm_compute. reflexivity. Qed.

Lemma hex_digits b : Forall is_byte b -> Forall hex_lower (hex_32 b).
Proof.
  induction 1 as [|x b Hx HF IH]; [constructor|]. rewrite hex_cons.
  assert (digits_hex x = true) as Hd.
  { pose proof digits_all as H. rewrite forallb_forall in H. apply H, list_elem_of_In, list_elem_of_fmap.
    exists (Z.to_nat x). unfold is_byte in Hx. split; [lia|]. apply elem_of_seq. lia. }
  unfold digits_hex in Hd. simpl in Hd. rewrite !andb_true_iff, !bool_decide_eq_true in Hd.
  destruct Hd as (H1 & H2 & _). constructor; [exact H1|]. by constructor.
Qed.

Lemma strip_bytes_app p s : strip_bytes p (p ++ s) = Some s.
Proof. induction p as [|c p IH]; [by destruct s|]. simpl. by rewrite decide_True by done. Qed.

(** The first character of the pattern is not in what comes before it. *)
Lemma split_text_app c p a b : c ∉ a -> split_text (c :: p) (a ++ (c :: p) ++ b) = Some (a, b).
Proof.
  induction a as [|d a IH]; intros Hn.
  - change ([] ++ (c :: p) ++ b) with ((c :: p) ++ b). pose proof (strip_bytes_app (c :: p) b) as H.
    simpl in *. by rewrite H.
  - apply not_elem_of_cons in Hn as [Hd Hn]. simpl. rewrite decide_False by done. simpl in IH. by rewrite IH.
Qed.

Lemma strip_suffix_app a p : strip_suffix p (a ++ p) = Some a.
Proof. unfold strip_suffix. rewrite rev_app_distr, strip_bytes_app. simpl. by rewrite rev_involutive. Qed.

Lemma rsplit_text_app p c a b : c ∉ b -> rsplit_text (p ++ [c]) (a ++ (p ++ [c]) ++ b) = Some (a, b).
Proof.
  intros Hn. unfold rsplit_text. rewrite !rev_app_distr. simpl. rewrite <- app_assoc.
  change (c :: rev p ++ rev a) with ((c :: rev p) ++ rev a). rewrite split_text_app.
  - simpl. by rewrite !rev_involutive.
  - intros H. apply Hn. apply list_elem_of_In. apply list_elem_of_In in H. by apply in_rev.
Qed.

Lemma rsplit_once_app c a b : c ∉ b -> rsplit_once c (a ++ c :: b) = Some (a, b).
Proof.
  intros Hn. assert (rsplit_once c b = None) as Hb.
  { induction b as [|d b IH]; [done|]. apply not_elem_of_cons in Hn as [Hd Hn]. simpl. rewrite IH by done.
    by rewrite decide_False by done. }
  induction a as [|d a IH]; simpl; [by rewrite Hb, decide_True by done|]. by rewrite IH.
Qed.

(** ** The server behind its routes *)

Inductive HttpRoute := RIntent (id tok : bytes) | RChunk (hash tok : bytes) | RCommit (id tok : bytes) | RFile (id tok : bytes).

(** Axum: the route of an address, and the status of a request that reaches none or
    whose body it refuses. [range_header] is the client's rendering of a range. *)
Class Routing := {
  route : bytes -> option HttpRoute;
  rejected : Z;
  range_header : Z * Z -> bytes;
}.

Definition INTENT_LIMIT : Z := 2097152.
Definition PUT_CHUNK_LIMIT : Z := 16777216 + 1024.

Definition intent_address (b file tok : bytes) : bytes := b ++ text "/files/" ++ hex_32 file ++ text "/intent?t=" ++ tok.
Definition read_address (b file tok : bytes) : bytes := b ++ text "/files/" ++ hex_32 file ++ text "?t=" ++ tok.

Section Served.
Context {BL : Blake3} {CD : ContentDeployment} {TC : TicketCodec} {TS : TicketSigning} {UP : UrlParser}
  {IJ : IntentJson} {RT : Routing} (cfg : FileConfig) (signer : TicketSigner).

Definition refused_reply (e : ServerError) : Result HttpReply HttpFailure :=
  Ok {| reply_status := (into_response e).1; reply_body := [] |}.

Definition no_route : Result HttpReply HttpFailure := Ok {| reply_status := rejected; reply_body := [] |}.

Definition serve_post (url : bytes) (body : option bytes) (w : FileWorld) : Result HttpReply HttpFailure * FileWorld :=
  match route url, body with
  | Some (RIntent id tok), Some b =>
      if decide (INTENT_LIMIT < Z.of_nat (length b)) then (refused_reply BodyTooLarge, w)
      else
        match intent_from_slice b with
        | None => (no_route, w)
        | Some req =>
            match post_intent cfg tok id req Carried [] w with
            | (Ok needed, w) => (Ok {| reply_status := 200; reply_body := needed_to_vec needed |}, w)
            | (Err e, w) => (refused_reply e, w)
            end
        end
  | Some (RCommit id tok), _ =>
      match post_commit cfg tok id (fun _ => true) Carried [] [] [] w with
      | (Ok _, w) => (Ok {| reply_status := 200; reply_body := [] |}, w)
      | (Err e, w) => (refused_reply e, w)
      end
  | _, _ => (no_route, w)
  end.

Definition serve_put (url body : bytes) (w : FileWorld) : Result HttpReply HttpFailure * FileWorld :=
  match route url with
  | Some (RChunk hash tok) =>
      if decide (PUT_CHUNK_LIMIT < Z.of_nat (length body)) then (refused_reply BodyTooLarge, w)
      else
        match put_chunk cfg hash tok body (fw_clock w) true Carried w with
        | (Ok _, w) => (Ok {| reply_status := 204; reply_body := [] |}, w)
        | (Err e, w) => (refused_reply e, w)
        end
  | _ => (no_route, w)
  end.

(** A body cut short fails in the client's transport; the bytes sent are counted. *)
Definition serve_get (url : bytes) (range : option (Z * Z)) (w : FileWorld) : Result HttpReply HttpFailure * FileWorld :=
  match route url with
  | Some (RFile id tok) =>
      match get_file cfg id tok (range_header <$> range) w with
      | Err e => (refused_reply e, w)
      | Ok r =>
          let '(body, whole) := body_of (fun h => read_chunk h (chunks w)) r in
          (if whole then Ok {| reply_status := fr_status r; reply_body := body |} else Err Transport,
           with_db (ledger_add (fw_clock w / 86400) (Z.of_nat (length body)) 0 (db w)) w)
      end
  | _ => (no_route, w)
  end.

#[export] Instance served : ContentHttp FileWorld := {| post := serve_post; put := serve_put; get := serve_get |}.

Definition b64_char (c : Z) : Prop := 65 <= c <= 90 \/ 97 <= c <= 122 \/ 48 <= c <= 57 \/ c = 45 \/ c = 95.
Definition url_safe (tok : bytes) : Prop := Forall (fun c => b64_char c \/ c = 46) tok.

Record Setting : Prop := {
  se_digest b : Forall is_byte (blake3 b) /\ length (blake3 b) = 32%nat;
  se_key : fc_public cfg = public_key (key_pair signer);
  se_ttl : 0 <= ticket_ttl signer;
  se_base : base_url signer <> [] /\ 63 ∉ base_url signer;
  se_safe file tok : url_safe tok ->
    (exists u, parse_address (intent_address (base_url signer) file tok) = Some u /\ safe_address u = true) /\
    (exists u, parse_address (read_address (base_url signer) file tok) = Some u /\ safe_address u = true);
  se_routes x tok : Forall is_byte x -> url_safe tok ->
    let e := {| base := base_url signer; token := tok |} in
    route (intent_address (base_url signer) x tok) = Some (RIntent (hex_32 x) tok) /\
    route (chunk_address e (hex_32 x)) = Some (RChunk (hex_32 x) tok) /\
    route (commit_address e x) = Some (RCommit (hex_32 x) tok) /\
    route (read_address (base_url signer) x tok) = Some (RFile (hex_32 x) tok);
  se_b64 x : b64_decode (b64_encode x) = Some x /\ Forall b64_char (b64_encode x);
  se_sign k m : ed25519_verifies (public_key k) m (sign k m) = true;
  se_postcard p b : payload_to_bytes p = Some b -> payload_from_bytes b = Some p;
  se_intent r b : intent_to_vec r = Some b -> intent_from_slice b = Some r;
  se_needed l : needed_from_slice (needed_to_vec l) = Some l;
  (** Which files a caller sees does not depend on which others are asked about. *)
  se_visible a b l f : f ∈ connetto_visible_files a b l <-> f ∈ l /\ f ∈ connetto_visible_files a b [f];
}.

Context (SE : Setting).

Lemma url_safe_no c tok : url_safe tok -> ~ (b64_char c \/ c = 46) -> c ∉ tok.
Proof. unfold url_safe. rewrite Forall_forall. intros H Hn Hin. by apply Hn, H. Qed.

Lemma minted p tok :
  mint signer p = Some tok ->
  url_safe tok /\ tok <> [] /\ forall now, now - SERVER_SKEW <= expiry p -> verify (fc_public cfg) now tok = Ok p.
Proof.
  unfold mint. destruct (payload_to_bytes p) as [b|] eqn:Ep; simpl; [|done]. intros [= <-].
  destruct (se_b64 SE b) as [D1 C1]. destruct (se_b64 SE (sign (key_pair signer) b)) as [D2 C2]. split_and!.
  - apply Forall_app. split; [by eapply Forall_impl; [exact C1|]; left|]. constructor; [by right|].
    by eapply Forall_impl; [exact C2|]; left.
  - by intros []%app_nil.
  - intros now He. unfold verify. rewrite rsplit_once_app.
    + simpl. rewrite D1. simpl. rewrite D2. simpl. rewrite (se_key SE), (se_sign SE), (se_postcard SE _ _ Ep). simpl.
      rewrite decide_False by lia. done.
    + rewrite Forall_forall in C2. intros Hin%C2. unfold b64_char in Hin. lia.
Qed.

Lemma hex_free c file : ~ hex_lower c -> c ∉ hex_32 (blake3 file).
Proof. intros Hn Hin. destruct (se_digest SE file) as [HF _]. apply hex_digits in HF. rewrite Forall_forall in HF. by apply Hn, HF. Qed.

Lemma split_minted content tok :
  url_safe tok -> tok <> [] ->
  split_grant (intent_address (base_url signer) (blake3 content) tok) = Some {| base := base_url signer; token := tok |}.
Proof.
  intros Hs Hn. destruct (se_base SE) as [Hb1 Hb2]. unfold split_grant, intent_address.
  set (hex := hex_32 (blake3 content)).
  replace (base_url signer ++ text "/files/" ++ hex ++ text "/intent?t=" ++ tok)
    with ((base_url signer ++ text "/files/" ++ hex ++ text "/intent") ++ text "?t=" ++ tok)
    by (rewrite <- !app_assoc; done).
  change (text "?t=") with (63 :: text "t="). rewrite split_text_app.
  2:{ rewrite !elem_of_app. intros [?|[H|[H|H]]]; [done|set_solver| |set_solver].
      revert H. apply hex_free. unfold hex_lower. lia. }
  cbn [mbind option_bind]. rewrite !app_assoc, strip_suffix_app. cbn [mbind option_bind].
  rewrite <- !app_assoc. change (text "/files/") with (text "/files" ++ [47]). rewrite rsplit_text_app.
  2:{ apply hex_free. unfold hex_lower. lia. }
  cbn [mbind option_bind]. destruct tok; [done|]. by destruct (base_url signer).
Qed.
End Served.

(** ** An upload on a quiet server *)

Section Run.
Context {BL : Blake3} {CD : ContentDeployment} {TC : TicketCodec} {TS : TicketSigning} {UP : UrlParser}
  {IJ : IntentJson} {RT : Routing} (cfg : FileConfig) (signer : TicketSigner) (SE : Setting cfg signer).

(** The file's pieces, and a caller with the ticket to write it. *)
Context (ds : list bytes) (c : ContentCaller) (key : string) (owners : list string) (p : TicketPayload) (tok : bytes).

Definition the_file : bytes := blake3 (concat ds).
Definition the_key : ManifestKey := (the_file, key).
Definition the_total : Z := Z.of_nat (length (concat ds)).
Definition the_manifest : Manifest := {| file_id := the_file; manifest_metas := metas_of ds |}.

Record Ready : Prop := {
  rd_consistent d d' : d ∈ ds -> d' ∈ ds -> blake3 d = blake3 d' -> d = d';
  rd_total : the_total <= i64_max;
  rd_count : Z.of_nat (length ds) <= Z.min (the_total + 1) 65536;
  rd_sizes d : d ∈ ds -> Z.of_nat (length d) <= 16777216;
  rd_ticket : tk_file p = the_file /\ verb p = Write /\ ceiling p = the_total /\ tk_caller p = c;
  rd_token : url_safe tok /\ tok <> [] /\ forall now, now - SERVER_SKEW <= expiry p -> verify (fc_public cfg) now tok = Ok p;
  rd_key : storage_key (separator (fc_settings cfg)) c = Some key;
  rd_owners : attributions c = owners /\ owners <> [];
  rd_quotas : identity_quota (fc_quotas cfg) = 0 /\ storage_ceiling (fc_quotas cfg) = 0 /\
              bandwidth_ceiling (fc_quotas cfg) = 0;
  rd_setter o a : is_Some (connetto_set_content_state the_file "available" o a);
}.

Context (RD : Ready).

Lemma sum_metas (l : list bytes) : foldr Z.add 0 (metas_of l).*2 = Z.of_nat (length (concat l)).
Proof.
  unfold metas_of. induction l as [|d l IH]; [done|]. rewrite !fmap_cons. cbn [foldr concat]. rewrite IH, length_app. simpl. lia.
Qed.

Lemma sum_part (d : bytes) : d ∈ ds -> Z.of_nat (length d) <= the_total.
Proof.
  unfold the_total. clear. induction ds as [|x l IH]; [by intros ?%elem_of_nil|]. simpl. rewrite length_app.
  intros [->|Hd]%elem_of_cons; [lia|]. specialize (IH Hd). lia.
Qed.

Lemma parse_metas (l : list bytes) (seen : gmap bytes Z) :
  l ⊆ ds -> (forall d n, d ∈ ds -> seen !! blake3 d = Some n -> n = Z.of_nat (length d)) ->
  parse_chunk_metas seen ((fun c => (hex_32 c.1, c.2)) <$> metas_of l) = Ok (metas_of l).
Proof.
  revert seen. induction l as [|d l IH]; intros seen Hl Hs; [done|].
  assert (d ∈ ds) as Hd by (apply Hl; by left). assert (l ⊆ ds) as Hl' by (intros x Hx; apply Hl; by right).
  unfold metas_of in *. rewrite !fmap_cons. cbn [parse_chunk_metas fst snd]. destruct (se_digest _ _ SE d) as [B L].
  rewrite parse_hex_hex by done. cbn [ok_or rbind]. pose proof (sum_part d Hd) as H1. pose proof (rd_total RD) as H2.
  rewrite decide_False by lia. destruct (seen !! blake3 d) as [n|] eqn:En.
  - rewrite (Hs d n Hd En). rewrite decide_False by (intros Hx; by apply Hx). by rewrite (IH seen Hl' Hs).
  - rewrite IH; [done|done|]. intros x n Hx. destruct (decide (blake3 d = blake3 x)) as [E|E].
    + rewrite E, lookup_insert_eq. intros [= <-]. by rewrite (rd_consistent RD d x Hd Hx E).
    + rewrite lookup_insert_ne by done. by apply Hs.
Qed.

Lemma checked_sum_ok (l : list Z) (acc : Z) :
  Forall (fun x => 0 <= x) l -> acc + foldr Z.add 0 l <= u64_max -> checked_sum l acc = Some (acc + foldr Z.add 0 l).
Proof.
  intros HF. revert acc. induction HF as [|x l Hx HF IH]; intros acc; simpl; [intros; f_equal; lia|]. intros Hl.
  assert (0 <= foldr Z.add 0 l) as Hp by (clear -HF; induction HF; simpl; lia).
  rewrite decide_True by lia. rewrite IH by lia. f_equal. lia.
Qed.

Lemma metas_lens (l : list bytes) : Forall (fun x => 0 <= x) (metas_of l).*2.
Proof. unfold metas_of. rewrite <- list_fmap_compose. apply Forall_fmap, Forall_true. intros d. simpl. lia. Qed.

Lemma verified_verb v now : verb p = v -> now - SERVER_SKEW <= expiry p -> verify_verb (fc_public cfg) now tok v = Ok p.
Proof.
  intros Hv Hn. unfold verify_verb. destruct (rd_token RD) as (_ & _ & H). rewrite (H now Hn). simpl. by rewrite decide_True.
Qed.

Lemma file_hex : parse_hex_32 (hex_32 the_file) = Some the_file.
Proof. destruct (se_digest _ _ SE (concat ds)) as [B L]. by apply parse_hex_hex. Qed.

Lemma declared_ok now :
  now - SERVER_SKEW <= expiry p ->
  declaration cfg tok (hex_32 the_file) (intent_of the_manifest) now = Ok (p, the_key, metas_of ds).
Proof.
  intros Hn. destruct (rd_ticket RD) as (T1 & T2 & T3 & T4). unfold declaration. rewrite (verified_verb Write now T2 Hn).
  cbn [rbind]. rewrite file_hex. cbn [ok_or rbind]. rewrite decide_False by (rewrite T1; intros Hx; by apply Hx).
  pose proof (rd_total RD) as Ht. pose proof (rd_count RD) as Hc.
  assert (0 <= the_total) as H0 by (unfold the_total; lia). unfold i64_max in Ht.
  assert (Z.of_nat (length (ir_chunks (intent_of the_manifest))) = Z.of_nat (length ds)) as Hlen.
  { simpl. unfold metas_of. by rewrite !length_fmap. }
  rewrite decide_False.
  2:{ rewrite Hlen, T3. unfold sat_add, MEDIA_MAX, u64_max. change (16777216 / 256) with 65536. lia. }
  change (ir_chunks (intent_of the_manifest)) with ((fun c => (hex_32 c.1, c.2)) <$> metas_of ds).
  rewrite parse_metas; [|done|intros d n _; by rewrite lookup_empty]. cbn [rbind].
  rewrite checked_sum_ok; [|apply metas_lens|rewrite sum_metas; unfold the_total, u64_max in *; lia].
  cbn [ok_or rbind]. rewrite Z.add_0_l. simpl ir_total. rewrite decide_False by (intros Hx; by apply Hx).
  rewrite sum_metas. fold the_total. rewrite decide_False by lia. rewrite decide_False by (unfold i64_max; lia).
  unfold manifest_key. rewrite T4, (rd_key RD). done.
Qed.

(** A committed file the caller sees that carries the hash. *)
Definition carried (h : bytes) (d : FileDb) : Prop :=
  exists k0, is_committed k0 d = true /\ h ∈ (manifest_chunk_pairs k0 d).*1 /\
    k0.1 ∈ connetto_visible_files (app d) (bind_caller (fc_settings cfg) (fc_marker cfg) c) [k0.1].

Lemma pairs_rows (k : ManifestKey) (rows : list ChunkRow) (d : FileDb) :
  manifest_chunks d !! k = Some rows -> (manifest_chunk_pairs k d).*1 = chunk_hash <$> rows.
Proof. intros E. unfold manifest_chunk_pairs, manifest_rows. rewrite E. simpl. by rewrite <- list_fmap_compose. Qed.

Lemma visible_spec declared (d : FileDb) (h : bytes) :
  h ∈ visible_committed_hashes_in cfg c declared d <-> h ∈ declared /\ carried h d.
Proof.
  set (bound := bind_caller (fc_settings cfg) (fc_marker cfg) c). split.
  - unfold visible_committed_hashes_in. destruct (committed_file_ids_for declared d) as [|f fs] eqn:Ec; [by intros []%elem_of_nil|].
    rewrite <- Ec. clear Ec. fold bound. destruct (connetto_visible_files _ _ _) as [|v vs] eqn:Ev; [by intros []%elem_of_nil|].
    rewrite <- Ev. unfold present_chunk_hashes. rewrite elem_of_remove_dups, list_elem_of_bind.
    intros ([k0 rows] & Hh & Hk%elem_of_map_to_list). simpl in *.
    destruct (manifests d !! k0) as [m|] eqn:Em; [|by apply elem_of_nil in Hh].
    destruct (committed m) eqn:Ecm; simpl in Hh; [|by apply elem_of_nil in Hh].
    case_bool_decide as Hv; [|by apply elem_of_nil in Hh]. apply list_elem_of_filter in Hh as [Hd Hh]. split; [done|].
    exists k0. rewrite (pairs_rows k0 rows d Hk). split_and!; [unfold is_committed; by rewrite Em|done|].
    by apply (se_visible _ _ SE) in Hv as [_ Hv].
  - intros [Hd (k0 & Hc & Hh & Hv)]. unfold is_committed in Hc. destruct (manifests d !! k0) as [m|] eqn:Em; [|done].
    destruct (manifest_chunks d !! k0) as [rows|] eqn:Ek.
    2:{ unfold manifest_chunk_pairs, manifest_rows in Hh. rewrite Ek in Hh. by apply elem_of_nil in Hh. }
    rewrite (pairs_rows k0 rows d Ek) in Hh.
    assert (k0.1 ∈ committed_file_ids_for declared d) as Hf.
    { unfold committed_file_ids_for. apply elem_of_remove_dups, list_elem_of_omap. exists (k0, rows).
      rewrite elem_of_map_to_list. split; [done|]. simpl. rewrite Em, Hc. simpl.
      assert (existsb (fun h => names h rows) declared = true) as ->; [|done]. apply existsb_exists. exists h.
      split; [by apply list_elem_of_In|]. unfold names. by apply bool_decide_eq_true. }
    unfold visible_committed_hashes_in. destruct (committed_file_ids_for declared d) as [|f fs] eqn:Ec; [by apply elem_of_nil in Hf|].
    assert (k0.1 ∈ connetto_visible_files (app d) bound (f :: fs)) as Hvis by (by apply (se_visible _ _ SE)). fold bound.
    destruct (connetto_visible_files (app d) bound (f :: fs)) as [|v vs]; [by apply elem_of_nil in Hvis|].
    unfold present_chunk_hashes. apply elem_of_remove_dups, list_elem_of_bind. exists (k0, rows).
    rewrite elem_of_map_to_list. split; [|done]. simpl. rewrite Em, Hc, bool_decide_true by done. simpl.
    by apply list_elem_of_filter.
Qed.

Definition staged_row (needed pre : list bytes) (d : bytes) : ChunkRow :=
  {| chunk_hash := blake3 d; chunk_len := Z.of_nat (length d);
     stored := bool_decide (blake3 d ∈ needed /\ blake3 d ∈ blake3 <$> pre) |}.

(** The upload declared in [w0] has its pieces [pre] behind it. *)
Record Progress (w0 : FileWorld) (needed pre : list bytes) (w : FileWorld) : Prop := {
  pg_ok : WorldOk w;
  pg_astray : astray w = ∅;
  pg_clock : fw_clock w = fw_clock w0;
  pg_row : exists m, manifests (db w) !! the_key = Some m /\ committed m = false /\ lost m = false /\
    0 <= accepted_bytes m <= Z.of_nat (length (concat pre));
  pg_rows : manifest_rows the_key (db w) = staged_row needed pre <$> ds;
  pg_others k : k <> the_key ->
    manifests (db w) !! k = manifests (db w0) !! k /\ manifest_rows k (db w) = manifest_rows k (db w0);
  pg_app : app (db w) = app (db w0);
  pg_held d : d ∈ pre -> blake3 d ∈ needed -> is_Some (chunks w !! blake3 d);
}.

Lemma progress_live w0 needed pre w d : Progress w0 needed pre w -> d ∈ ds -> live (blake3 d) (db w).
Proof.
  intros P Hd. apply (ok_live _ _ _ (wo_files w (pg_ok _ _ _ _ P)) the_key).
  unfold shape, manifest_chunk_pairs. rewrite (pg_rows _ _ _ _ P), <- !list_fmap_compose.
  apply list_elem_of_fmap. by exists d.
Qed.

(** What the start has to be: the file is new to the caller, and none of its chunks is
    on its way out. *)
Record Startable (w0 : FileWorld) : Prop := {
  st_ok : WorldOk w0;
  st_astray : astray w0 = ∅;
  st_clock : fw_clock w0 - SERVER_SKEW <= expiry p;
  st_new : manifests (db w0) !! the_key = None;
  st_chunks d : d ∈ ds -> chunk_registry (db w0) !! blake3 d <> Some Deleting;
  st_kept o : is_lost (the_file, o) (db w0) = false;
}.

Lemma metas_fit : chunk_rows (metas_of ds) = Ok (metas_of ds).
Proof.
  unfold chunk_rows. rewrite decide_True; [done|]. pose proof (rd_count RD) as Hc. split.
  - unfold metas_of. rewrite length_fmap. unfold i32_max. lia.
  - unfold metas_of. apply Forall_fmap, Forall_forall. intros d Hd. simpl. pose proof (sum_part d Hd). pose proof (rd_total RD). lia.
Qed.

Lemma not_deleting (hashes : list bytes) (d : FileDb) :
  (forall h, h ∈ hashes -> chunk_registry d !! h <> Some Deleting) ->
  existsb (fun q => bool_decide (q.2 = Deleting)) (lock_registry_rows_stmt hashes (insert_registry_pending_batch_stmt hashes d)) = false.
Proof.
  intros H. apply not_true_is_false. rewrite existsb_exists. intros ([h st] & Hin%list_elem_of_In & Hd).
  apply bool_decide_eq_true in Hd. simpl in Hd. subst st. unfold lock_registry_rows_stmt in Hin.
  apply list_elem_of_omap in Hin as (h' & Hh & E). simpl in E. apply fmap_Some in E as (st & E & [= -> <-]).
  apply lookup_union_Some_raw in E as [E|[_ E]]; [by apply (H h')|]. apply lookup_gset_to_gmap_Some in E as [_ ?]. done.
Qed.

(** The declaration's tables. *)
Lemma inserted (w0 : FileWorld) :
  Startable w0 ->
  exists d, insert_manifest the_key (ir_total (intent_of the_manifest)) (fw_clock w0) (metas_of ds) (db w0) = (Ok Inserted, d) /\
    app d = app (db w0) /\
    (exists m, manifests d !! the_key = Some m /\ committed m = false /\ lost m = false /\ accepted_bytes m = 0) /\
    manifest_rows the_key d = staged_row [] [] <$> ds /\
    forall k, k <> the_key -> manifests d !! k = manifests (db w0) !! k /\ manifest_rows k d = manifest_rows k (db w0).
Proof.
  intros S. unfold insert_manifest. rewrite not_deleting.
  2:{ intros h Hh. rewrite elem_of_remove_dups in Hh. unfold metas_of in Hh. rewrite <- list_fmap_compose in Hh.
      apply list_elem_of_fmap in Hh as (d & -> & Hd). by apply (st_chunks _ S). }
  unfold insert_manifest_stmt. rewrite (st_new _ S : manifests (insert_registry_pending_batch_stmt _ (db w0)) !! the_key = None).
  set (row := {| total_len := _ |}). set (d2 := with_manifests _ _).
  assert (manifest_rows the_key d2 = []) as Hnil.
  { apply (fmap_nil_inv (fun r => (chunk_hash r, chunk_len r))). apply (ok_fk _ _ _ (wo_files _ (st_ok _ S))). apply (st_new _ S). }
  assert (manifests d2 !! the_key = Some row) as Hrow by apply lookup_insert_eq.
  assert (forall k, k <> the_key -> manifests d2 !! k = manifests (db w0) !! k) as Hm
    by (intros k Hk; by apply lookup_insert_ne).
  destruct (metas_of ds) as [|x l] eqn:El.
  - exists d2. assert (ds = []) as -> by (by eapply fmap_nil_inv). split_and!; [done|done|by exists row|done|].
    intros k Hk. split; [by apply Hm|done].
  - rewrite <- El, metas_fit. eexists. split; [done|]. split; [done|]. split_and!; [by exists row| |].
    + unfold insert_chunk_rows_batch_stmt. rewrite Hnil. unfold manifest_rows. simpl. rewrite lookup_insert_eq. simpl.
      rewrite drop_0. unfold metas_of. rewrite <- list_fmap_compose. apply list_fmap_ext. intros i d _. simpl.
      done.
    + intros k Hk. split; [by apply Hm|]. unfold insert_chunk_rows_batch_stmt, manifest_rows at 1. simpl.
      by rewrite lookup_insert_ne.
Qed.

Lemma row_of_nil needed needed' d : staged_row needed [] d = staged_row needed' [] d.
Proof. unfold staged_row. f_equal. apply bool_decide_ext. split; by intros [_ ?%elem_of_nil]. Qed.

(** The intent asks for the chunks no file the caller sees carries. *)
Lemma intent_answers (w0 : FileWorld) :
  Startable w0 ->
  exists needed w1, post_intent cfg tok (hex_32 the_file) (intent_of the_manifest) Carried [] w0 = (Ok (hex_32 <$> needed), w1) /\
    Progress w0 needed [] w1 /\ (forall h, h ∈ needed -> exists d, d ∈ ds /\ h = blake3 d) /\
    forall d, d ∈ ds -> blake3 d ∉ needed -> carried (blake3 d) (db w1).
Proof.
  intros S. destruct (inserted w0 S) as (d & Hi & Ha & (m & Hm & Hc & Hl & H0) & Hrows & Hothers).
  set (w1 := with_db d w0). set (needed := needed_hashes cfg c (metas_of ds) the_key d).
  assert (FileServer.declare cfg tok (hex_32 the_file) (intent_of the_manifest) (fw_clock w0) Carried w0 =
            (Ok (p, the_key, metas_of ds), w1)) as Hd.
  { unfold FileServer.declare. rewrite (declared_ok _ (st_clock _ S)). unfold transaction. rewrite Hi. done. }
  assert (forall h, h ∈ needed <-> (exists x, x ∈ ds /\ h = blake3 x) /\ h ∉ visible_committed_hashes_in cfg c (metas_of ds).*1 d /\
            h ∉ own_stored_hashes the_key d) as Hn.
  { intros h. unfold needed, needed_hashes. rewrite list_elem_of_filter. unfold metas_of at 2. rewrite <- list_fmap_compose.
    rewrite list_elem_of_fmap. naive_solver. }
  assert (own_stored_hashes the_key d = []) as Hown.
  { unfold own_stored_hashes. rewrite Hrows. clear. by induction ds as [|x l IH]. }
  exists needed, w1. split_and!.
  - unfold post_intent. rewrite Hd. simpl. destruct (rd_ticket RD) as (_ & _ & _ & ->). done.
  - split; [|apply (st_astray _ S)|done| | |done|done|by intros ? ?%elem_of_nil].
    + pose proof (carries_declare cfg tok (hex_32 the_file) (intent_of the_manifest) (fw_clock w0) Carried w0 (st_ok _ S)) as K.
      rewrite Hd in K. by eapply carries_ok; [apply (st_ok _ S)|].
    + exists m. simpl. rewrite H0. split_and!; (done || lia).
    + simpl. rewrite Hrows. apply list_fmap_ext. intros i x _. apply row_of_nil.
  - intros h [Hh _]%Hn. done.
  - intros x Hx Hnot. assert (blake3 x ∈ (metas_of ds).*1) as Hin.
    { unfold metas_of. rewrite <- list_fmap_compose. apply list_elem_of_fmap. by exists x. }
    destruct (decide (blake3 x ∈ visible_committed_hashes_in cfg c (metas_of ds).*1 d)) as [Hv|Hv].
    + by apply visible_spec in Hv as [_ Hv].
    + exfalso. apply Hnot, Hn. split_and!; [by exists x|done|]. rewrite Hown. apply not_elem_of_nil.
Qed.

Lemma update_rows needed pre x :
  x ∈ ds -> blake3 x ∈ needed ->
  update_stored true (unstored_chunk (blake3 x) (Z.of_nat (length x))) (staged_row needed pre <$> ds) =
  staged_row needed (pre ++ [x]) <$> ds.
Proof.
  intros Hx Hn. unfold update_stored. rewrite <- list_fmap_compose. apply list_fmap_ext. intros i y Hy.
  apply list_elem_of_lookup_2 in Hy. simpl. unfold unstored_chunk. simpl.
  destruct (decide (blake3 y = blake3 x)) as [E|E].
  - rewrite (rd_consistent RD y x Hy Hx E) in *. rewrite !bool_decide_true by done. simpl.
    assert (staged_row needed (pre ++ [x]) x = set_stored true (staged_row needed pre x)) as ->.
    { unfold staged_row, set_stored. simpl. f_equal. apply bool_decide_eq_true. split; [done|].
      rewrite fmap_app, elem_of_app. right. by left. }
    destruct (bool_decide (blake3 x ∈ needed /\ blake3 x ∈ blake3 <$> pre)) eqn:Eb; simpl; [|done].
    unfold staged_row, set_stored. by rewrite Eb.
  - rewrite bool_decide_false by done. simpl. unfold staged_row. f_equal. apply bool_decide_ext.
    rewrite fmap_app, elem_of_app. split; [naive_solver|]. intros [? [?|H]]; [done|].
    apply list_elem_of_singleton in H. done.
Qed.

Lemma row_of_skip needed pre x y :
  blake3 x ∉ needed -> staged_row needed (pre ++ [x]) y = staged_row needed pre y.
Proof.
  intros Hn. unfold staged_row. f_equal. apply bool_decide_ext. rewrite fmap_app, elem_of_app. split; [|naive_solver].
  intros [Hy [?|H]]; [done|]. apply list_elem_of_singleton in H. exfalso. apply Hn. by rewrite <- H.
Qed.

Lemma length_snoc (pre : list bytes) (x : bytes) : length (concat (pre ++ [x])) = (length (concat pre) + length x)%nat.
Proof. rewrite concat_app, length_app. simpl. by rewrite app_nil_r. Qed.

(** A piece that is not asked for is passed over. *)
Lemma progress_skip w0 needed pre x w :
  Progress w0 needed pre w -> blake3 x ∉ needed -> Progress w0 needed (pre ++ [x]) w.
Proof.
  intros [P1 P2 P3 (m & P4 & P5 & P6 & P7) P8 P9 P10 P11] Hn. split; [done..| | |done|done|].
  - exists m. rewrite length_snoc. split_and!; (done || lia).
  - rewrite P8. apply list_fmap_ext. intros i y _. by rewrite row_of_skip.
  - intros d [Hd|Hd%list_elem_of_singleton]%elem_of_app; [by apply P11|]. by subst d.
Qed.

(** What the PUT's transaction leaves. *)
Lemma accounted w0 needed pre w x :
  Progress w0 needed pre w -> x ∈ ds -> blake3 x ∈ needed -> Z.of_nat (length (concat (pre ++ [x]))) <= the_total ->
  exists r d, account_chunk_put the_key (blake3 x) (Z.of_nat (length x)) the_total (db w) = (Ok r, d) /\
    r <> WouldExceedCeiling /\ app d = app (db w) /\
    (exists m, manifests d !! the_key = Some m /\ committed m = false /\ lost m = false /\
       0 <= accepted_bytes m <= Z.of_nat (length (concat (pre ++ [x])))) /\
    manifest_rows the_key d = staged_row needed (pre ++ [x]) <$> ds /\
    forall k, k <> the_key -> manifests d !! k = manifests (db w) !! k /\ manifest_rows k d = manifest_rows k (db w).
Proof.
  intros P Hx Hn Hle. pose proof (rd_total RD) as Ht. rewrite length_snoc in *. unfold account_chunk_put.
  assert (try_into i64_max (Z.of_nat (length x)) = Some (Z.of_nat (length x))) as -> by (apply try_into_Some; split; [done|lia]).
  unfold mark_chunk_stored_stmt. set (d1 := with_chunks _ (db w)).
  destruct (pg_row _ _ _ _ P) as (m & M1 & M2 & M3 & M4).
  assert (manifest_rows the_key d1 = staged_row needed (pre ++ [x]) <$> ds) as Hrows.
  { rewrite <- update_rows by done. rewrite <- (pg_rows _ _ _ _ P). unfold manifest_rows, d1. simpl.
    rewrite lookup_alter_eq. by destruct (manifest_chunks (db w) !! the_key). }
  assert (forall k, k <> the_key -> manifest_rows k d1 = manifest_rows k (db w)) as Hother.
  { intros k Hk. unfold manifest_rows, d1. simpl. by rewrite lookup_alter_ne. }
  destruct (length (filter _ _)) as [|n].
  - exists AlreadyStored, d1. split_and!; [done|done|done| |done|intros k Hk; split; [done|by apply Hother]]. exists m. split_and!; (done || lia).
  - unfold tally_bytes_stmt. rewrite (M1 : manifests d1 !! the_key = Some m). rewrite decide_True by lia.
    eexists Accepted, _. split; [reflexivity|]. split_and!; [done|done| |exact Hrows|].
    + eexists. split; [apply lookup_insert_eq|]. simpl. split_and!; (done || lia).
    + intros k Hk. split; [by apply lookup_insert_ne|]. by apply Hother.
Qed.

Lemma declared_len w0 needed pre w x :
  Progress w0 needed pre w -> x ∈ ds -> declared_chunk_len the_key (blake3 x) (db w) = Ok (Some (Z.of_nat (length x))).
Proof.
  intros P Hx. unfold declared_chunk_len. rewrite (pg_rows _ _ _ _ P).
  destruct (filter _ (staged_row needed pre <$> ds)) as [|r l] eqn:Ef.
  - assert (staged_row needed pre x ∈ filter (fun r => chunk_hash r = blake3 x) (staged_row needed pre <$> ds)) as Hin.
    { apply list_elem_of_filter. split; [done|]. by apply list_elem_of_fmap_2. }
    rewrite Ef in Hin. by apply elem_of_nil in Hin.
  - assert (r ∈ filter (fun r => chunk_hash r = blake3 x) (staged_row needed pre <$> ds)) as Hin by (rewrite Ef; by left).
    apply list_elem_of_filter in Hin as [Hh Hin]. apply list_elem_of_fmap in Hin as (y & -> & Hy). simpl in *.
    rewrite (rd_consistent RD y x Hy Hx Hh).
    assert (try_into u64_max (Z.of_nat (length x)) = Some (Z.of_nat (length x))) as ->; [|done].
    apply try_into_Some. split; [done|]. pose proof (sum_part x Hx). pose proof (rd_total RD). unfold i64_max, u64_max in *. lia.
Qed.

Lemma put_progress w0 needed pre w x :
  Startable w0 -> Progress w0 needed pre w -> x ∈ ds -> blake3 x ∈ needed ->
  Z.of_nat (length (concat (pre ++ [x]))) <= the_total ->
  exists w', put_chunk cfg (hex_32 (blake3 x)) tok x (fw_clock w) true Carried w = (Ok tt, w') /\
    Progress w0 needed (pre ++ [x]) w'.
Proof.
  intros S P Hx Hn Hle. destruct (rd_ticket RD) as (T1 & T2 & T3 & T4).
  pose proof (carries_put cfg (hex_32 (blake3 x)) tok x (fw_clock w) true Carried w (pg_ok _ _ _ _ P)) as K.
  unfold put_chunk in *. rewrite (verified_verb Write) in * by (rewrite ?(pg_clock _ _ _ _ P); try done; apply S).
  cbn [rbind] in *. destruct (se_digest _ _ SE x) as [B L]. rewrite parse_hex_hex in * by done. cbn [ok_or rbind] in *.
  unfold manifest_key in *. rewrite T4, (rd_key RD) in *. cbn [ok_or rbind] in *.
  rewrite decide_False in * by (intros Hc; by apply Hc). rewrite T1, T3 in *.
  assert (i64_or_max the_total = the_total) as Hlim.
  { unfold i64_or_max. assert (try_into i64_max the_total = Some the_total) as ->; [|done]. apply try_into_Some.
    split; [done|]. pose proof (rd_total RD). unfold the_total in *. lia. }
  rewrite Hlim in *. change (the_file, key) with the_key in *.
  destruct (progress_live _ _ _ _ x P Hx) as (st & Est & Hst).
  destruct (accounted _ _ _ _ _ P Hx Hn Hle) as (r & d & Ha & Hr & A1 & A2 & A3 & A4).
  set (w1 := with_store (write_chunk (fc_store cfg) (blake3 x) x (fw_clock w) (chunks w)) w) in *.
  set (w' := with_db (ledger_add (fw_clock w1 / 86400) 0 (Z.of_nat (length x)) d) w1).
  assert (transaction Carried (FileServer.store_chunk cfg the_key (blake3 x) x the_total true) w = (Ok tt, w')) as Hrun.
  { unfold transaction, FileServer.store_chunk. rewrite Est, (declared_len _ _ _ _ _ P Hx), decide_False by auto.
    fold w1. rewrite (Ha : account_chunk_put the_key (blake3 x) (Z.of_nat (length x)) the_total (db w1) = (Ok r, d)).
    destruct st; [..|done]; destruct r; done. }
  rewrite Hrun in *. exists w'. split; [done|]. simpl in K.
  destruct P as [P1 P2 P3 P4 P5 P6 P7 P8]. split.
  - by eapply carries_ok.
  - done.
  - done.
  - unfold w'. simpl. unfold ledger_add. by destruct (default (0, 0) _).
  - unfold w'. simpl. unfold ledger_add. by destruct (default (0, 0) _).
  - intros k Hk. destruct (P6 k Hk) as [Q1 Q2]. destruct (A4 k Hk) as [Q3 Q4]. rewrite <- Q1, <- Q2, <- Q3, <- Q4.
    unfold w'. simpl. unfold ledger_add. by destruct (default (0, 0) _).
  - unfold w'. simpl. unfold ledger_add. destruct (default (0, 0) _). simpl. by rewrite A1.
  - intros y [Hy|Hy%list_elem_of_singleton]%elem_of_app Hyn.
    + by apply write_held, P8.
    + subst y. unfold w', w1. simpl. unfold write_chunk. destruct (fc_store cfg), (chunks w !! blake3 x) eqn:E;
        rewrite ?lookup_insert_eq; [by rewrite E|done..].
Qed.

Context {St E : Type} {CS : ChunkStore St E} (store : St).

(** The pieces are in the client's store. *)
Definition stocked : Prop := forall d, d ∈ ds -> cs_read (E := E) (blake3 d) store = Ok d.

Definition the_ends : WriteEndpoints := {| base := base_url signer; token := tok |}.

Lemma asked_hex (needed : list bytes) x :
  (forall h, h ∈ needed -> exists d, d ∈ ds /\ h = blake3 d) ->
  hex_32 (blake3 x) ∈ hex_32 <$> needed <-> blake3 x ∈ needed.
Proof.
  intros Hn. rewrite list_elem_of_fmap. split.
  - intros (h & He & Hh). destruct (Hn h Hh) as (d & _ & ->).
    by rewrite (hex_inj _ _ (proj1 (se_digest _ _ SE x)) (proj1 (se_digest _ _ SE d)) He).
  - intros Hh. by exists (blake3 x).
Qed.

Lemma chunks_sent w0 needed pre rest w :
  Startable w0 -> stocked -> (forall h, h ∈ needed -> exists d, d ∈ ds /\ h = blake3 d) ->
  pre ++ rest = ds -> Progress w0 needed pre w ->
  exists w', send_chunks (E := E) (HT := served cfg) the_ends the_file (metas_of rest) store (hex_32 <$> needed) w = (Ok tt, w') /\
    Progress w0 needed ds w'.
Proof.
  intros S Hs Hn. revert pre w. induction rest as [|x rest IH]; intros pre w He P.
  - rewrite app_nil_r in He. subst pre. by exists w.
  - assert (x ∈ ds) as Hx by (rewrite <- He; set_solver).
    assert ((pre ++ [x]) ++ rest = ds) as He' by (by rewrite <- app_assoc).
    assert (Z.of_nat (length (concat (pre ++ [x]))) <= the_total) as Hle.
    { unfold the_total. rewrite <- He' at 1. rewrite (concat_app (pre ++ [x])), length_app. lia. }
    unfold metas_of. rewrite fmap_cons. fold (metas_of rest). cbn [send_chunks fst]. case_decide as Ha.
    + rewrite asked_hex in Ha by done. rewrite (Hs x Hx). cbn [put served]. unfold serve_put.
      destruct (se_routes _ _ SE (blake3 x) tok (proj1 (se_digest _ _ SE x)) (proj1 (rd_token RD))) as (_ & Hroute & _). fold the_ends in Hroute.
      rewrite Hroute. rewrite decide_False by (pose proof (rd_sizes RD x Hx); unfold PUT_CHUNK_LIMIT; lia).
      destruct (put_progress _ _ _ _ _ S P Hx Ha Hle) as (w' & -> & P'). by apply (IH (pre ++ [x])).
    + apply (IH (pre ++ [x])); [done|]. apply progress_skip; [done|]. by rewrite <- asked_hex.
Qed.

Lemma carried_kept w0 needed pre pre' w w' h :
  Progress w0 needed pre w -> Progress w0 needed pre' w' -> carried h (db w) -> carried h (db w').
Proof.
  intros P P' (k0 & Hc & Hh & Hv). exists k0. assert (k0 <> the_key) as Hk.
  { intros ->. unfold is_committed in Hc. destruct (pg_row _ _ _ _ P) as (m & Hm & Hf & _). rewrite Hm in Hc. congruence. }
  destruct (pg_others _ _ _ _ P k0 Hk) as [Q1 Q2]. destruct (pg_others _ _ _ _ P' k0 Hk) as [Q3 Q4].
  unfold is_committed, manifest_chunk_pairs in *. rewrite Q3, Q4, <- Q1, <- Q2.
  rewrite (pg_app _ _ _ _ P'), <- (pg_app _ _ _ _ P). done.
Qed.

Lemma told l (d : FileDb) : exists a, tell the_file "available" l d = Ok (with_app a d).
Proof.
  revert d. induction l as [|o l IH]; intros d; simpl; [exists (app d); by destruct d|].
  destruct (rd_setter RD o (app d)) as [a ->]. simpl. destruct (IH (with_app a d)) as [a' ->]. by exists a'.
Qed.

(** All the pieces are in the server's store. *)
Lemma all_held w0 needed w h :
  Progress w0 needed ds w -> (forall d, d ∈ ds -> blake3 d ∉ needed -> carried (blake3 d) (db w)) ->
  h ∈ (metas_of ds).*1 -> is_Some (chunks w !! h).
Proof.
  intros P Hc Hh. unfold metas_of in Hh. rewrite <- list_fmap_compose in Hh. apply list_elem_of_fmap in Hh as (d & -> & Hd).
  simpl. destruct (decide (blake3 d ∈ needed)) as [Hn|Hn]; [by apply (pg_held _ _ _ _ P)|].
  destruct (Hc d Hd Hn) as (k0 & H1 & H2 & _).
  destruct (ok_held _ _ _ (wo_files w (pg_ok _ _ _ _ P)) k0 _ H1 H2) as [?|Ha]; [done|].
  rewrite (pg_astray _ _ _ _ P) in Ha. set_solver.
Qed.

Lemma metas_contents : Forall2 (fun c x => blake3 x = c.1 /\ Z.of_nat (length x) = c.2) (metas_of ds) ds.
Proof. clear. unfold metas_of. induction ds; constructor; done. Qed.

Lemma rows_read needed pre : manifest_from_rows (staged_row needed pre <$> ds) = Ok (metas_of ds).
Proof.
  unfold manifest_from_rows, metas_of. assert (forall l, l ⊆ ds -> try_map (fun r =>
    if decide (length (chunk_hash r) = 32%nat) then n <-? ok_or (try_into u64_max (chunk_len r)) EDb ;; Ok (chunk_hash r, n)
    else Err EDb) (staged_row needed pre <$> l) = Ok ((fun d => (blake3 d, Z.of_nat (length d))) <$> l)) as H; [|by apply H].
  induction l as [|x l IH]; intros Hl; [done|]. rewrite !fmap_cons. cbn [try_map chunk_hash chunk_len staged_row].
  destruct (se_digest _ _ SE x) as [_ L]. rewrite decide_True by done.
  assert (x ∈ ds) as Hx by (apply Hl; by left). pose proof (sum_part x Hx). pose proof (rd_total RD).
  assert (try_into u64_max (Z.of_nat (length x)) = Some (Z.of_nat (length x))) as ->.
  { apply try_into_Some. split; [done|]. unfold i64_max, u64_max in *. lia. }
  cbn [ok_or rbind]. rewrite IH; [done|]. intros y Hy. apply Hl. by right.
Qed.

Lemma no_lost w0 needed w : Startable w0 -> Progress w0 needed ds w -> lost_manifest_callers_stmt the_file (db w) = [].
Proof.
  intros S P. destruct (lost_manifest_callers_stmt the_file (db w)) as [|o l] eqn:El; [done|].
  assert (o ∈ lost_manifest_callers_stmt the_file (db w)) as Ho%elem_of_lost by (rewrite El; by left).
  destruct (decide (o = key)) as [->|Hn].
  - destruct (pg_row _ _ _ _ P) as (m & Hm & _ & Hl & _). unfold is_lost in Ho. fold the_key in Ho. rewrite Hm in Ho. congruence.
  - pose proof (st_kept _ S o) as Hk. unfold is_lost in *.
    rewrite (proj1 (pg_others _ _ _ _ P (the_file, o) ltac:(intros [=]; done))) in Ho. congruence.
Qed.

Lemma committer_ok now : now - SERVER_SKEW <= expiry p -> committer cfg tok (hex_32 the_file) now = Ok (c, the_key, owners).
Proof.
  intros Hn. destruct (rd_ticket RD) as (T1 & T2 & T3 & T4). unfold committer. rewrite (verified_verb Write now T2 Hn).
  cbn [rbind]. rewrite file_hex. cbn [ok_or rbind]. rewrite decide_False by (rewrite T1; intros Hx; by apply Hx).
  unfold manifest_key, attributed. rewrite T4, (rd_key RD). cbn [ok_or rbind]. destruct (rd_owners RD) as [-> Ho].
  by destruct owners.
Qed.

Lemma satisfied w0 needed w :
  Progress w0 needed ds w -> (forall d, d ∈ ds -> blake3 d ∉ needed -> carried (blake3 d) (db w)) ->
  all_chunks_satisfied cfg the_key c (db w) = true.
Proof.
  intros P Hc. unfold all_chunks_satisfied. destruct (all_unstored_chunk_hashes_stmt the_key (db w)) as [|h l] eqn:El; [done|].
  rewrite <- El. apply forallb_forall. intros x Hx%list_elem_of_In. apply bool_decide_eq_true, visible_spec. split; [done|].
  unfold all_unstored_chunk_hashes_stmt in Hx. rewrite (pg_rows _ _ _ _ P) in Hx.
  apply list_elem_of_fmap in Hx as (r & -> & Hr). apply list_elem_of_filter in Hr as [Hs Hr].
  apply list_elem_of_fmap in Hr as (d & -> & Hd). simpl in *. apply Hc; [done|]. intros Hn.
  apply bool_decide_eq_false in Hs. apply Hs. split; [done|]. by apply list_elem_of_fmap_2.
Qed.

Lemma commit_done w0 needed w :
  Startable w0 -> Progress w0 needed ds w ->
  (forall d, d ∈ ds -> blake3 d ∉ needed -> carried (blake3 d) (db w)) ->
  blake3_collision \/
  exists w', post_commit cfg tok (hex_32 the_file) (fun _ => true) Carried [] [] [] w = (Ok tt, w') /\
    WorldOk w' /\ astray w' = ∅ /\ fw_clock w' = fw_clock w0 /\ is_committed the_key (db w') = true.
Proof.
  intros S P Hc. assert (fw_clock w - SERVER_SKEW <= expiry p) as Hn by (rewrite (pg_clock _ _ _ _ P); apply S).
  destruct (read_back (chunks w) _ _ (wo_sound w (pg_ok _ _ _ _ P)) metas_contents) as [|Hread];
    [intros h; by eapply all_held|by left|right].
  unfold post_commit. rewrite (committer_ok _ Hn), (satisfied _ _ _ P Hc). cbn [moves foldl]. unfold flip. rewrite (committer_ok _ Hn).
  set (n := storage_new_bytes _ _ _ _ _).
  pose proof (carries_transaction Carried _ w (carries_commit cfg the_key owners n (fun _ => true) w (pg_ok _ _ _ _ P))) as K.
  destruct (pg_row _ _ _ _ P) as (m & M1 & M2 & M3 & M4). destruct (rd_quotas RD) as (Q1 & Q2 & Q3).
  assert (exists a, commit_body cfg the_key owners n (fun _ => true) w =
    (Ok tt, with_db (with_app a (with_manifests (<[the_key := with_standing true (lost m) m]> (manifests (db w))) (db w))) w)) as [a Ha].
  { unfold commit_body, load_manifest_locked, lock_manifest_row_stmt. rewrite M1. simpl. rewrite M2, (pg_rows _ _ _ _ P), rows_read.
    simpl. unfold check_deployment_ceilings. rewrite Q2, Q3. rewrite !decide_False by lia. simpl.
    unfold verify_file_identity. rewrite Hread. simpl. rewrite decide_False by (intros Hx; by apply Hx). simpl.
    change the_key.1 with the_file. rewrite (no_lost _ _ _ S P). unfold check_quota. rewrite Q1, decide_False by lia. simpl.
    unfold commit_manifest_atomic. rewrite metas_fit. simpl. unfold mark_manifest_committed_stmt. rewrite M1, M2.
    match goal with |- context [tell _ _ _ ?d] => destruct (told owners d) as [a Hd]; rewrite Hd end. by exists a. }
  unfold transaction in *. rewrite Ha in *. simpl in K. eexists. split; [reflexivity|].
  split_and!; [by eapply carries_ok; [apply (pg_ok _ _ _ _ P)|]|apply (pg_astray _ _ _ _ P)|apply (pg_clock _ _ _ _ P)|].
  unfold is_committed. simpl. by rewrite lookup_insert_eq.
Qed.

Lemma declare_served body needed w0 w1 :
  intent_to_vec (intent_of the_manifest) = Some body -> Z.of_nat (length body) <= INTENT_LIMIT ->
  post_intent cfg tok (hex_32 the_file) (intent_of the_manifest) Carried [] w0 = (Ok needed, w1) ->
  FileClient.declare (HT := served cfg) (intent_address (base_url signer) the_file tok) the_manifest w0 = (Ok needed, w1).
Proof.
  intros Hb Hbl Hi. destruct (se_routes _ _ SE the_file tok (proj1 (se_digest _ _ SE _)) (proj1 (rd_token RD))) as (R1 & _).
  unfold FileClient.declare. rewrite Hb.
  assert (serve_post cfg (intent_address (base_url signer) the_file tok) (Some body) w0 =
    (Ok {| reply_status := 200; reply_body := needed_to_vec needed |}, w1)) as Hp.
  { unfold serve_post. rewrite R1, decide_False by lia. by rewrite (se_intent _ _ SE _ _ Hb), Hi. }
  change (@post _ (served cfg)) with (serve_post cfg). rewrite Hp. unfold send, expect. cbn [map_err rbind reply_status reply_body].
  rewrite decide_False by lia. cbn [rbind reply_status reply_body]. rewrite decide_True by done. cbn [rbind reply_body].
  by rewrite (se_needed _ _ SE).
Qed.

Lemma grant_parsed : parse_grant (intent_address (base_url signer) the_file tok) = Ok the_ends.
Proof.
  destruct (rd_token RD) as (U1 & U2 & _). unfold parse_grant, validate_ticket_url.
  destruct (se_safe _ _ SE the_file tok U1) as [(u & -> & Hu) _]. cbn [ok_or rbind]. rewrite Hu. cbn [rbind].
  pose proof (split_minted cfg signer SE (concat ds) tok U1 U2) as Hsplit. fold the_file in Hsplit. by rewrite Hsplit.
Qed.

(** The whole upload. *)
Lemma upload_done w0 :
  Startable w0 -> stocked ->
  (exists body, intent_to_vec (intent_of the_manifest) = Some body /\ Z.of_nat (length body) <= INTENT_LIMIT) ->
  blake3_collision \/
  exists w', upload (E := E) (HT := served cfg) (intent_address (base_url signer) the_file tok) the_manifest store w0 = (Ok tt, w') /\
    WorldOk w' /\ astray w' = ∅ /\ fw_clock w' = fw_clock w0 /\ is_committed the_key (db w') = true.
Proof.
  intros S Hs (body & Hb & Hbl). destruct (intent_answers w0 S) as (needed & w1 & Hi & P1 & Hn & Hc).
  destruct (chunks_sent w0 needed [] ds w1 S Hs Hn eq_refl P1) as (w2 & Hsend & P2).
  destruct (commit_done w0 needed w2 S P2) as [|(w3 & Hcommit & HW)]; [|by left|right].
  { intros d Hd Hnn. eapply carried_kept; [exact P1|exact P2|]. by apply Hc. }
  exists w3. split; [|done]. unfold upload. rewrite grant_parsed, (declare_served _ _ _ _ Hb Hbl Hi).
  cbn [file_id manifest_metas the_manifest]. rewrite Hsend. destruct (se_routes _ _ SE the_file tok (proj1 (se_digest _ _ SE _)) (proj1 (rd_token RD))) as (_ & _ & R3 & _).
  assert (serve_post cfg (commit_address the_ends the_file) None w2 = (Ok {| reply_status := 200; reply_body := [] |}, w3)) as Hp.
  { unfold serve_post, the_ends. by rewrite R3, Hcommit. }
  change (@post _ (served cfg)) with (serve_post cfg). rewrite Hp. done.
Qed.

Lemma rows_whole (rows : list ChunkRow) :
  Forall (fun r => length (chunk_hash r) = 32%nat /\ 0 <= chunk_len r <= u64_max) rows ->
  manifest_from_rows rows = Ok ((fun r => (chunk_hash r, chunk_len r)) <$> rows).
Proof.
  unfold manifest_from_rows. induction 1 as [|r rows [H1 H2] HF IH]; [done|]. rewrite fmap_cons. cbn [try_map].
  rewrite decide_True by done. assert (try_into u64_max (chunk_len r) = Some (chunk_len r)) as -> by (by apply try_into_Some).
  cbn [ok_or rbind]. by rewrite IH.
Qed.

(** Whoever's manifest of the file is served, it reads back as the same bytes. *)
Lemma served_manifest w k0 :
  WorldOk w -> k0.1 = the_file -> is_committed k0 (db w) = true ->
  blake3_collision \/
  exists m es, manifest_from_rows (manifest_rows k0 (db w)) = Ok m /\ m = manifest_chunk_pairs k0 (db w) /\
    Forall2 (fun c x => blake3 x = c.1 /\ Z.of_nat (length x) = c.2) m es /\ concat es = concat ds.
Proof.
  intros W Hk Hc. destruct (ok_true _ _ _ (wo_files w W) k0 Hc) as (es & HF & Hd). rewrite Hk in Hd.
  destruct (decide (concat es = concat ds)) as [He|He]; [|left; by exists (concat es), (concat ds)]. right.
  exists (manifest_chunk_pairs k0 (db w)), es. split_and!; [|done|exact HF|done]. apply rows_whole.
  change (shape k0 (db w)) with (manifest_chunk_pairs k0 (db w)) in HF. unfold manifest_chunk_pairs in HF.
  assert (forall x, x ∈ es -> Z.of_nat (length x) <= the_total) as Hle.
  { intros x Hx. unfold the_total. rewrite <- He. clear -Hx. induction es as [|y es IH]; [by apply elem_of_nil in Hx|].
    simpl. rewrite length_app. apply elem_of_cons in Hx as [->|Hx]; [lia|]. specialize (IH Hx). lia. }
  pose proof (rd_total RD) as Ht. clear He Hd. revert Hle. generalize dependent es.
  induction (manifest_rows k0 (db w)) as [|r rows IH]; intros es HF Hle; [constructor|].
  rewrite fmap_cons in HF. apply Forall2_cons_inv_l in HF as (x & es' & [H1 H2] & HF & ->). constructor.
  - simpl in H1, H2. rewrite <- H1. split; [apply (se_digest _ _ SE)|]. specialize (Hle x ltac:(by left)).
    unfold i64_max, u64_max in *. lia.
  - eapply IH; [exact HF|]. intros y Hy. apply Hle. by right.
Qed.

Lemma some_committed w : is_committed the_key (db w) = true -> exists o, any_committed_manifest_caller_stmt the_file (db w) = Some o.
Proof.
  unfold is_committed. destruct (manifests (db w) !! the_key) as [m|] eqn:Em; [|done]. intros Hc.
  assert (key ∈ committed_callers the_file (db w)) as Hk.
  { unfold committed_callers. apply list_elem_of_omap. exists (the_key, m). rewrite elem_of_map_to_list. split; [done|].
    simpl. by rewrite bool_decide_true, Hc by done. }
  unfold any_committed_manifest_caller_stmt. rewrite <- (merge_sort_Permutation string_le (committed_callers the_file (db w))) in Hk.
  destruct (merge_sort string_le (committed_callers the_file (db w))) as [|o l]; [by apply elem_of_nil in Hk|by exists o].
Qed.

Lemma whole_window (x : bytes) : window 0 0 (Z.of_nat (length x) - 1) x = x.
Proof.
  rewrite window_start by lia. unfold slice. simpl. replace (Z.to_nat (Z.of_nat (length x) - 1 - 0 + 1)) with (length x) by lia.
  by rewrite firstn_all.
Qed.

(** A download under a ticket to read it. *)
Lemma download_done w q rtok :
  WorldOk w -> astray w = ∅ -> is_committed the_key (db w) = true ->
  url_safe rtok -> verify_verb (fc_public cfg) (fw_clock w) rtok Read = Ok q -> tk_file q = the_file ->
  the_total <= ceiling q -> file_visible_to_caller cfg the_file (tk_caller q) (db w) = true ->
  blake3_collision \/
  (download (HT := served cfg) (read_address (base_url signer) the_file rtok) w).1 = Ok (concat ds).
Proof.
  intros W Ha Hc Hsafe Hq Hf Hceil Hvis. destruct (some_committed w Hc) as [o Ho].
  pose proof (any_committed_spec _ _ _ Ho) as Hco.
  destruct (served_manifest w (the_file, o) W eq_refl Hco) as [|(m & es & Hm & Hpairs & HF & Hes)]; [by left|].
  assert (forall h, h ∈ m.*1 -> is_Some (read_chunk h (chunks w))) as Hheld.
  { intros h Hh. rewrite Hpairs in Hh. destruct (ok_held _ _ _ (wo_files w W) (the_file, o) h Hco Hh) as [Hs|Hg].
    - unfold read_chunk. by apply fmap_is_Some.
    - rewrite Ha in Hg. set_solver. }
  assert (foldr Z.add 0 m.*2 = the_total) as Hsum by (rewrite (sum_lengths _ _ HF), Hes; done).
  set (r := {| fr_status := 200; fr_length := the_total; fr_range := None; fr_total := the_total; fr_chunks := m |}).
  assert (get_file cfg (hex_32 the_file) rtok None w = Ok r) as Hget.
  { unfold get_file. rewrite Hq. cbn [rbind]. destruct (rd_quotas RD) as (_ & _ & ->). rewrite decide_False by lia.
    rewrite file_hex. cbn [ok_or rbind]. rewrite decide_False by (rewrite Hf; intros Hx; by apply Hx). rewrite Hvis.
    unfold load_any_committed_manifest. rewrite Ho, Hm. cbn [rbind ok_or parse_range]. rewrite Hsum, decide_False by lia. done. }
  assert (sound_reader (fun h => read_chunk h (chunks w))) as Hsound.
  { intros h x Hx. unfold read_chunk in Hx. apply fmap_Some in Hx as (y & Hy & ->). by apply (wo_sound w W). }
  assert (blake3_collision \/ body_of (fun h => read_chunk h (chunks w)) r = (concat ds, true)) as [|Hbody]; [|by left|right].
  { unfold body_of. simpl. case_decide as Hz.
    - right. f_equal. symmetry. apply length_zero_iff_nil. unfold the_total in Hz. lia.
    - assert (0 <= the_total) by (unfold the_total; lia).
      destruct (serving_window _ m es 0 0 (the_total - 1) Hsound HF) as [|(_ & H2 & H3)]; [lia|lia|by left|right].
      specialize (H3 Hheld). specialize (H2 H3). unfold the_total in *. rewrite Hes, whole_window in H2.
      destruct (serving_stream _ _ _ _ _) as [b ok]. simpl in *. by subst. }
  unfold download, validate_ticket_url. destruct (se_safe _ _ SE the_file rtok Hsafe) as [_ (u & -> & Hu)].
  cbn [ok_or rbind]. rewrite Hu. destruct (se_routes _ _ SE the_file rtok (proj1 (se_digest _ _ SE _)) Hsafe) as (_ & _ & _ & R4).
  change (@get _ (served cfg)) with (serve_get cfg). unfold serve_get. rewrite R4. cbn [fmap option_fmap option_map].
  rewrite Hget, Hbody. cbn [rbind]. unfold send, expect. cbn [map_err rbind reply_status reply_body fr_status r].
  rewrite decide_False by (unfold r; simpl; lia). cbn [rbind]. by rewrite decide_True by done.
Qed.
End Run.

(** ** From one client to another *)

Section Travel.
Context {BL : Blake3} {FC : Fastcdc} {CD : ContentDeployment} {TC : TicketCodec} {TS : TicketSigning} {UP : UrlParser}
  {IJ : IntentJson} {RT : Routing} {St E : Type} {CS : ChunkStore St E} {SL : StoreLaws St E}
  (cfg : FileConfig) (signer : TicketSigner).

(** What the server asks of the upload of a file that is new to the caller: no quota or
    ceiling is set, none of its chunks is on its way out, the file is not lost, the
    application takes it, and the declaration fits. *)
Record Welcome (c : ContentCaller) (m : Manifest) (total : Z) (w : FileWorld) : Prop := {
  wc_quotas : identity_quota (fc_quotas cfg) = 0 /\ storage_ceiling (fc_quotas cfg) = 0 /\
              bandwidth_ceiling (fc_quotas cfg) = 0;
  wc_caller : exists key, storage_key (separator (fc_settings cfg)) c = Some key /\ manifests (db w) !! (file_id m, key) = None;
  wc_chunks h : h ∈ (manifest_metas m).*1 -> chunk_registry (db w) !! h <> Some Deleting;
  wc_kept o : is_lost (file_id m, o) (db w) = false;
  wc_setter o a : is_Some (connetto_set_content_state (file_id m) "available" o a);
  wc_size : total <= i64_max /\ Z.of_nat (length (manifest_metas m)) <= Z.min (total + 1) 65536;
  wc_json : exists body, intent_to_vec (intent_of m) = Some body /\ Z.of_nat (length body) <= INTENT_LIMIT;
}.

Lemma digests_apart (ds : list bytes) :
  blake3_collision \/ forall d d', d ∈ ds -> d' ∈ ds -> blake3 d = blake3 d' -> d = d'.
Proof.
  destruct (decide (Forall (fun d => Forall (fun d' => blake3 d = blake3 d' -> d = d') ds) ds)) as [H|H].
  - right. intros d d' Hd Hd'. rewrite Forall_forall in H. specialize (H d Hd). rewrite Forall_forall in H. by apply H.
  - left. apply not_Forall_Exists in H; [|apply _]. apply Exists_exists in H as (d & _ & H). simpl in H.
    apply not_Forall_Exists in H; [|apply _]. apply Exists_exists in H as (d' & _ & H). simpl in H. exists d, d'.
    destruct (decide (blake3 d = blake3 d')); [|by destruct H]. split; [|done]. intros ->. by apply H.
Qed.

Lemma key_attributed sep c key : storage_key sep c = Some key -> attributions c <> [].
Proof.
  unfold storage_key, attributions, packed_subjects. destruct (cc_identity c); [done|]. by destruct (cc_subjects c).
Qed.

Lemma minted_grant c file v now url :
  Setting cfg signer -> mint_content signer c file v now = Some url ->
  exists tok q, url_safe tok /\ tok <> [] /\ tk_file q = file /\ tk_caller q = c /\ now - SERVER_SKEW <= expiry q /\
    (forall t, t - SERVER_SKEW <= expiry q -> verify (fc_public cfg) t tok = Ok q) /\
    match v with
    | CRead => url = read_address (base_url signer) file tok /\ verb q = Read /\ ceiling q = read_ceiling signer
    | CWrite n => url = intent_address (base_url signer) file tok /\ verb q = Write /\ ceiling q = n
    end.
Proof.
  intros SE. unfold mint_content. case_decide; [|done]. pose proof (se_ttl _ _ SE) as Ht. unfold SERVER_SKEW in *.
  destruct v as [|n]; (destruct (mint signer _) as [tok|] eqn:Em; simpl; [|done]); intros [= <-];
    destruct (minted cfg signer SE _ _ Em) as (H1 & H2 & H3); eexists tok, _;
    (split_and!; [exact H1|exact H2|..|exact H3|done|done|done]); simpl; (done || lia).
Qed.

End Travel.
