(* ===== verification/QueryText.v ===== *)
(** What a client reads of its subscription queries: the specification a
    subscription is declared with (connetto-core/src/messages/subscription.rs), its
    values inlined as literals, its shape, and the rows of the replica it covers
    (connetto-client/src/live.rs). The SQL parser and the printing of floats are
    classes. *)

From Stdlib Require Import ZArith Lia Ascii String.
From stdpp Require Import base numbers option list gmap strings pretty sorting.
From S2P Require Import Prelude Plan Caller Pending.

Open Scope Z_scope.

(** ** Specifications *)

(** A priority is its raw byte. *)
Definition priority_new (raw : Z) : Z := if decide (raw > 3) then 3 else raw.
Definition default_priority : Z := 1.

(** A float is its 64 bits. *)
Inductive BindValue :=
  | Null
  | Integer (n : Z)
  | Real (bits : Z)
  | Text (s : string)
  | Blob (b : bytes).
#[export] Instance BindValue_eq_dec : EqDecision BindValue.
Proof. solve_decision. Defined.

Record SubscriptionSpec := { sp_priority : Z; sp_query : string; sp_binds : list BindValue }.
#[export] Instance SubscriptionSpec_eq_dec : EqDecision SubscriptionSpec.
Proof. solve_decision. Defined.

Definition spec_new (query : string) : SubscriptionSpec :=
  {| sp_priority := default_priority; sp_query := query; sp_binds := [] |}.
Definition with_binds (binds : list BindValue) (s : SubscriptionSpec) : SubscriptionSpec :=
  {| sp_priority := sp_priority s; sp_query := sp_query s; sp_binds := binds |}.

(** [==] on floats: by bits, but a NaN equals nothing and the two zeros are equal. *)
Definition f64_exponent (bits : Z) : Z := Z.land (Z.shiftr bits 52) 2047.
Definition f64_mantissa (bits : Z) : Z := Z.land bits 4503599627370495.
Definition f64_is_nan (bits : Z) : bool :=
  (f64_exponent bits =? 2047) && negb (f64_mantissa bits =? 0).
Definition f64_is_finite (bits : Z) : bool := negb (f64_exponent bits =? 2047).
Definition f64_is_zero (bits : Z) : bool := (bits =? 0) || (bits =? 9223372036854775808).
Definition f64_eq (a b : Z) : bool :=
  negb (f64_is_nan a) && negb (f64_is_nan b) && ((a =? b) || f64_is_zero a && f64_is_zero b).

(** The derived [PartialEq]s. *)
Definition bind_eq (a b : BindValue) : bool :=
  match a, b with
  | Real x, Real y => f64_eq x y
  | _, _ => bool_decide (a = b)
  end.
Fixpoint binds_eq (a b : list BindValue) : bool :=
  match a, b with
  | [], [] => true
  | x :: a', y :: b' => bind_eq x y && binds_eq a' b'
  | _, _ => false
  end.
Definition spec_eq (a b : SubscriptionSpec) : bool :=
  (sp_priority a =? sp_priority b) && String.eqb (sp_query a) (sp_query b)
  && binds_eq (sp_binds a) (sp_binds b).

(** ** Values as literals *)

(** [format!("{:?}")] of a finite float: digits, a sign, a point, an exponent. *)
Class FloatText := {
  f64_debug : Z -> string;
  f64_debug_plain : forall bits c, f64_is_finite bits = true ->
    c ∈ list_ascii_of_string (f64_debug bits) -> c ∈ list_ascii_of_string "0123456789.-+eE";
}.

Definition quote : ascii := "039"%char.
Definition double_quote : ascii := "034"%char.
Definition backtick : ascii := "096"%char.

(** [replace(c, "cc")]. *)
Fixpoint doubled (c : ascii) (s : string) : string :=
  match s with
  | EmptyString => EmptyString
  | String x s' => if Ascii.eqb x c then String x (String x (doubled c s')) else String x (doubled c s')
  end.

Definition quote_ident (name : string) : string :=
  String double_quote (doubled double_quote name ++ String double_quote EmptyString)%string.

Definition hex_digit (n : Z) : ascii :=
  ascii_of_nat (Z.to_nat (if decide (n < 10) then 48 + n else 55 + n)).

(** [{:02X}] of each byte. *)
Fixpoint hex_upper (b : bytes) : string :=
  match b with
  | [] => EmptyString
  | x :: b' => String (hex_digit (x / 16)) (String (hex_digit (x mod 16)) (hex_upper b'))
  end.

Section Literals.
Context {FT : FloatText}.

Definition bind_literal (b : BindValue) : Result string ClientError :=
  match b with
  | Null => Ok "NULL"%string
  | Integer n => Ok (pretty n)
  | Real bits => if f64_is_finite bits then Ok (f64_debug bits) else Err ESession
  | Text s => Ok (String quote (doubled quote s ++ String quote EmptyString)%string)
  | Blob b => Ok (String "X" (String quote (hex_upper b ++ String quote EmptyString)%string))
  end.

Definition opens_quote (c : ascii) : bool :=
  Ascii.eqb c quote || Ascii.eqb c double_quote || Ascii.eqb c backtick.

(** The loop of [inline_binds] over the characters. *)
Fixpoint inline_from (in_quote : option ascii) (sql : string) (binds : list BindValue)
    : Result string ClientError :=
  match sql with
  | EmptyString => match binds with [] => Ok EmptyString | _ :: _ => Err ESession end
  | String c rest =>
      match in_quote with
      | Some q =>
          out <-? inline_from (if Ascii.eqb c q then None else Some q) rest binds ;;
          Ok (String c out)
      | None =>
          if opens_quote c then out <-? inline_from (Some c) rest binds ;; Ok (String c out)
          else if Ascii.eqb c "?" then
            match binds with
            | [] => Err ESession
            | b :: binds' =>
                lit <-? bind_literal b ;;
                out <-? inline_from None rest binds' ;;
                Ok (lit ++ out)%string
            end
          else out <-? inline_from None rest binds ;; Ok (String c out)
      end
  end.

Definition inline_binds (sql : string) (binds : list BindValue) : Result string ClientError :=
  inline_from None sql binds.

Definition local_aggregate_probe (sql : string) (binds : list BindValue) : Result string ClientError :=
  inlined <-? inline_binds sql binds ;; Ok ("SELECT json_quote((" ++ inlined ++ ")) AS value")%string.
End Literals.

(** ** Parsed statements: the crate's syntax tree, as far as the client looks into it *)

(** Name parts that are plain identifiers carry their value. *)
Abbreviation ObjectName := (list (option string)).

Inductive Expr :=
  | Identifier (value : string)
  | CompoundIdentifier (parts : list string)
  | Function_ (name : ObjectName) (args : string)
  | OtherExpr (text : string).
#[export] Instance Expr_eq_dec : EqDecision Expr.
Proof. solve_decision. Defined.

Inductive SelectItem :=
  | UnnamedExpr (e : Expr)
  | ExprWithAlias (e : Expr) (alias : string)
  | OtherItem.
Inductive GroupByExpr :=
  | Expressions (exprs : list Expr) (mods : list string)
  | GroupByAll.
Inductive TableFactor := Table_ (name : ObjectName) | OtherFactor.
Record TableWithJoins := { tj_relation : TableFactor; tj_joins : list TableFactor }.
Record SelectStmt := {
  se_projection : list SelectItem;
  se_from : list TableWithJoins;
  se_selection : option Expr;
  se_group_by : GroupByExpr;
}.
Inductive SetExpr := SelectBody (s : SelectStmt) | OtherBody.
Inductive Statement := QueryStmt (body : SetExpr) | OtherStatement.

Class Sqlparser := {
  parse_sql : string -> option (list Statement);
  visit_relations : list Statement -> list ObjectName;
  display : Expr -> string;
}.

(** ** Shapes *)

Inductive QueryShape := Rows | Aggregate | Grouped.
#[export] Instance QueryShape_eq_dec : EqDecision QueryShape.
Proof. solve_decision. Defined.

Record ParsedSubscription := {
  ps_tables : gset string;
  ps_shape : QueryShape;
  ps_group_columns : list string;
}.

Definition AGGREGATE_FUNCTIONS : list string :=
  ["avg"; "count"; "max"; "min"; "stddev_pop"; "stddev_samp"; "sum"; "total"; "var_pop"; "var_samp"]%string.

(** [name.0.last().and_then(|part| part.as_ident())], lowercased. *)
Definition last_ident (name : ObjectName) : option string :=
  part ← last name; part' ← part; Some (to_lowercase part').

Definition is_aggregate_call (e : Expr) : bool :=
  match e with
  | Function_ name _ =>
      match last_ident name with
      | Some ident => bool_decide (ident ∈ AGGREGATE_FUNCTIONS)
      | None => false
      end
  | _ => false
  end.

Definition plain_column (e : Expr) : option string :=
  match e with
  | Identifier value => Some (to_lowercase value)
  | CompoundIdentifier parts => to_lowercase <$> last parts
  | _ => None
  end.

Definition item_expr (i : SelectItem) : option Expr :=
  match i with UnnamedExpr e | ExprWithAlias e _ => Some e | OtherItem => None end.

(** The loop over a grouped projection: its aggregate calls and its columns, or
    [None] at an item of another kind. *)
Fixpoint project (items : list SelectItem) (aggregates : nat) (projected : list string)
    : option (nat * list string) :=
  match items with
  | [] => Some (aggregates, projected)
  | i :: items' =>
      e ← item_expr i;
      if is_aggregate_call e then project items' (S aggregates) projected
      else column ← plain_column e; project items' aggregates (projected ++ [column])
  end.

Definition query_shape (body : SetExpr) : QueryShape * list string :=
  match body with
  | OtherBody => (Rows, [])
  | SelectBody select =>
      match se_group_by select with
      | Expressions [] [] =>
          match se_projection select with
          | [item] =>
              match item_expr item with
              | Some e => if is_aggregate_call e then (Aggregate, []) else (Rows, [])
              | None => (Rows, [])
              end
          | _ => (Rows, [])
          end
      | Expressions group_exprs [] =>
          match mapM plain_column group_exprs with
          | None => (Rows, [])
          | Some group_columns =>
              match project (se_projection select) 0 [] with
              | None => (Rows, group_columns)
              | Some (aggregates, projected) =>
                  if bool_decide (aggregates = 1%nat)
                     && bool_decide (merge_sort string_le projected = merge_sort string_le group_columns)
                  then (Grouped, group_columns) else (Rows, group_columns)
              end
          end
      | _ => (Rows, [])
      end
  end.

Section Queries.
Context {FT : FloatText} {SP : Sqlparser}.

Definition statements_of (sql : string) : Result (list Statement) ClientError :=
  ok_or (parse_sql sql) ESession.

Definition parse_subscription (sql : string) : Result ParsedSubscription ClientError :=
  statements <-? statements_of sql ;;
  let '(shape, group_columns) :=
    match statements with
    | [QueryStmt body] => query_shape body
    | _ => (Rows, [])
    end in
  Ok {| ps_tables := list_to_set (omap last_ident (visit_relations statements));
        ps_shape := shape; ps_group_columns := group_columns |}.

Definition subscription_tables (sql : string) : Result (gset string) ClientError :=
  parsed <-? parse_subscription sql ;; Ok (ps_tables parsed).

Definition subscription_is_aggregate (sql : string) : Result bool ClientError :=
  parsed <-? parse_subscription sql ;; Ok (negb (bool_decide (ps_shape parsed = Rows))).

(** ** Coverage *)

Record Coverage := { co_tables : gset string; co_predicate : option string }.

Definition collect_relation (relation : TableFactor) : option string :=
  match relation with Table_ name => last_ident name | OtherFactor => None end.

Definition outer_tables (select : SelectStmt) : gset string :=
  list_to_set (omap collect_relation
    (t ← se_from select; tj_relation t :: tj_joins t)).

Definition coverage_of (spec : SubscriptionSpec) : Result (option Coverage) ClientError :=
  sql <-? inline_binds (sp_query spec) (sp_binds spec) ;;
  parsed <-? parse_subscription sql ;;
  match ps_shape parsed with
  | Aggregate | Grouped => Ok None
  | Rows =>
      statements <-? statements_of sql ;;
      let '(tables, predicate) :=
        match statements with
        | [QueryStmt (SelectBody select)] => (outer_tables select, display <$> se_selection select)
        | _ => (ps_tables parsed, None)
        end in
      Ok (Some {| co_tables := tables; co_predicate := predicate |})
  end.

(** The wire subscriptions behind a row handle, by tier. *)
Definition wire_subscriptions (local tables : gset string) (query_spec : SubscriptionSpec)
    : list SubscriptionSpec :=
  let local_count := size (tables ∩ local) in
  if decide (local_count = 0%nat) then [query_spec]
  else if decide (local_count = size tables) then []
  else (fun table => spec_new ("SELECT * FROM " ++ quote_ident table)) <$>
         merge_sort string_le (elements (tables ∖ local)).
End Queries.

(** ** Inlined values stay inside their quotes *)

(** The quoted region a text ends in, and what of it lies outside any. *)
Fixpoint scan (q : option ascii) (s : string) : option ascii :=
  match s with
  | EmptyString => q
  | String c s' =>
      match q with
      | Some d => scan (if Ascii.eqb c d then None else q) s'
      | None => scan (if opens_quote c then Some c else None) s'
      end
  end.

Fixpoint outside (q : option ascii) (s : string) : string :=
  match s with
  | EmptyString => EmptyString
  | String c s' =>
      match q with
      | Some d => outside (if Ascii.eqb c d then None else q) s'
      | None => if opens_quote c then outside (Some c) s' else String c (outside None s')
      end
  end.

(** Each [?] replaced in turn. *)
Fixpoint fill (s : string) (vs : list string) : string :=
  match s with
  | EmptyString => EmptyString
  | String c s' =>
      if Ascii.eqb c "?" then
        match vs with [] => String c (fill s' []) | v :: vs' => (v ++ fill s' vs')%string end
      else String c (fill s' vs)
  end.

Fixpoint holes (s : string) : nat :=
  match s with
  | EmptyString => 0
  | String c s' => (if Ascii.eqb c "?" then 1 else 0) + holes s'
  end%nat.

Definition unquoted (s : string) : Prop := Forall (fun c => opens_quote c = false) (list_ascii_of_string s).

Lemma app_String c (a b : string) : (String c a ++ b)%string = String c (a ++ b)%string.
Proof. reflexivity. Qed.

Lemma list_of_app (a b : string) :
  list_ascii_of_string (a ++ b)%string = list_ascii_of_string a ++ list_ascii_of_string b.
Proof. induction a as [|c a IH]; simpl; [done|]. by rewrite IH. Qed.

Lemma scan_after q a b : scan q (a ++ b)%string = scan (scan q a) b.
Proof.
  revert q. induction a as [|c a IH]; intros q; simpl; [done|].
  destruct q; by rewrite IH.
Qed.

Lemma outside_app q a b : outside q (a ++ b)%string = (outside q a ++ outside (scan q a) b)%string.
Proof.
  revert q. induction a as [|c a IH]; intros [d|]; simpl; [done..| |]; [by rewrite IH|].
  destruct (opens_quote c); simpl; by rewrite IH.
Qed.

Lemma outside_plain s : unquoted s -> outside None s = s /\ scan None s = None.
Proof.
  unfold unquoted. induction s as [|c s IH]; simpl; [done|].
  intros [Hc Hs]%Forall_cons. rewrite Hc. destruct (IH Hs) as [-> ->]. done.
Qed.

(** A doubled quote closes a region and opens it again. *)
Lemma doubled_sealed s rest :
  outside (Some quote) (doubled quote s ++ rest)%string = outside (Some quote) rest /\
  scan (Some quote) (doubled quote s ++ rest)%string = scan (Some quote) rest.
Proof.
  induction s as [|c s IH]; [done|]. cbn [doubled].
  destruct (Ascii.eqb_spec c quote) as [->|Hc]; [exact IH|].
  apply Ascii.eqb_neq in Hc. rewrite app_String. cbn -[quote String.append]. by rewrite Hc.
Qed.

Lemma hex_digit_unquoted n : 0 <= n < 16 -> opens_quote (hex_digit n) = false.
Proof.
  intros Hn.
  assert (n ∈ seqZ 0 16) as Hin by (apply elem_of_seqZ; lia).
  clear Hn. revert n Hin.
  apply (Forall_forall (fun n => opens_quote (hex_digit n) = false)). by repeat constructor.
Qed.

Lemma unquoted_quoted s rest :
  unquoted s -> outside (Some quote) (s ++ rest)%string = outside (Some quote) rest /\
                scan (Some quote) (s ++ rest)%string = scan (Some quote) rest.
Proof.
  unfold unquoted. induction s as [|c s IH]; simpl; [done|].
  intros [Hc Hs]%Forall_cons. apply orb_false_iff in Hc as [[Hc _]%orb_false_iff _].
  rewrite Hc. by apply IH.
Qed.

Lemma hex_upper_unquoted b : wf_bytes b -> unquoted (hex_upper b).
Proof.
  unfold unquoted. induction 1 as [|x b Hx Hb IH]; cbn [hex_upper list_ascii_of_string]; [done|].
  unfold in_u8, u8_max in Hx.
  repeat constructor; [apply hex_digit_unquoted..|done].
  - split; [apply Z.div_pos; lia|]. apply Z.div_lt_upper_bound; lia.
  - apply Z.mod_pos_bound. lia.
Qed.

Section Sealed.
Context {FT : FloatText}.

(** What a value adds to a statement outside its quotes. *)
Definition plain_part (b : BindValue) : string :=
  match b with
  | Null => "NULL"
  | Integer n => pretty n
  | Real bits => f64_debug bits
  | Text _ => EmptyString
  | Blob _ => "X"
  end.

Definition bind_wf (b : BindValue) : Prop := match b with Blob b => wf_bytes b | _ => True end.

(** A character that neither opens a quote nor is a placeholder. *)
Definition bland (c : ascii) : Prop := opens_quote c = false /\ Ascii.eqb c "?" = false.

Lemma pretty_N_char_bland n : bland (pretty_N_char n).
Proof. unfold bland, pretty_N_char. repeat case_match; done. Qed.

Lemma pretty_N_go_bland x s :
  Forall bland (list_ascii_of_string s) -> Forall bland (list_ascii_of_string (pretty_N_go x s)).
Proof.
  revert s. induction (N.lt_wf_0 x) as [x _ IH]. intros s Hs.
  destruct (decide (0 < x)%N) as [Hx|Hx].
  - rewrite pretty_N_go_step by done. apply IH; [apply N.div_lt; lia|].
    simpl. constructor; [apply pretty_N_char_bland|done].
  - replace x with 0%N by lia. by rewrite pretty_N_go_0.
Qed.

Lemma pretty_N_bland (n : N) : Forall bland (list_ascii_of_string (pretty n)).
Proof.
  unfold pretty, pretty_N. case_decide; [by repeat constructor|]. by apply pretty_N_go_bland.
Qed.

Lemma pretty_bland (z : Z) : Forall bland (list_ascii_of_string (pretty z)).
Proof.
  destruct z as [|p|p]; [by repeat constructor|apply pretty_N_bland|].
  change (pretty (Zneg p)) with ("-" ++ pretty (Npos p))%string.
  rewrite list_of_app. apply Forall_app. split; [by repeat constructor|apply pretty_N_bland].
Qed.

Lemma f64_debug_bland bits : f64_is_finite bits = true -> Forall bland (list_ascii_of_string (f64_debug bits)).
Proof.
  intros Hf. apply Forall_forall. intros c Hc%f64_debug_plain; [|done]. revert c Hc.
  apply (Forall_forall bland). by repeat constructor.
Qed.

Lemma bland_unquoted s : Forall bland (list_ascii_of_string s) -> unquoted s.
Proof. intros H. eapply Forall_impl; [exact H|]. by intros c [? _]. Qed.

(** A literal opens no region it does not close, and leaves outside only what
    does not depend on the characters of a text or the bytes of a blob. *)
Lemma bind_literal_sealed b lit :
  bind_wf b -> bind_literal b = Ok lit -> outside None lit = plain_part b /\ scan None lit = None.
Proof.
  destruct b as [|n|bits|s|b]; cbn [bind_wf bind_literal plain_part]; intros Hwf H.
  - injection H as <-. done.
  - injection H as <-. apply outside_plain, bland_unquoted, pretty_bland.
  - case_match; simplify_eq. by apply outside_plain, bland_unquoted, f64_debug_bland.
  - injection H as <-. cbn. destruct (doubled_sealed s (String quote EmptyString)) as [-> ->]. done.
  - injection H as <-. cbn.
    destruct (unquoted_quoted (hex_upper b) (String quote EmptyString)) as [-> ->]; [|done].
    by apply hex_upper_unquoted.
Qed.

(** Inlining is total exactly when there is a finite value for each placeholder
    outside quotes; the outside of its result is the outside of the statement with
    [plain_part] at each placeholder. *)
Lemma inline_from_spec q sql binds out :
  Forall bind_wf binds -> inline_from q sql binds = Ok out ->
  outside q out = fill (outside q sql) (plain_part <$> binds) /\ scan q out = scan q sql /\
  length binds = holes (outside q sql).
Proof.
  revert q binds out. induction sql as [|c sql IH]; intros q binds out Hwf H.
  { destruct binds; simplify_eq/=. done. }
  cbn [inline_from] in H. destruct q as [d|].
  - apply rbind_Ok in H as (o & Ho & [= <-]). apply IH in Ho; [|done]. exact Ho.
  - destruct (opens_quote c) eqn:Hc.
    { apply rbind_Ok in H as (o & Ho & [= <-]). apply IH in Ho; [|done]. cbn. by rewrite Hc. }
    destruct (Ascii.eqb_spec c "?") as [->|Hq].
    + destruct binds as [|b binds]; [done|]. apply Forall_cons in Hwf as [Hb Hwf].
      apply rbind_Ok in H as (lit & Hlit & (o & Ho & [= <-])%rbind_Ok).
      apply IH in Ho as (E1 & E2 & E3); [|done]. apply bind_literal_sealed in Hlit as [F1 F2]; [|done].
      rewrite outside_app, scan_after, F1, F2, E1, E2. cbn. by rewrite E3.
    + apply rbind_Ok in H as (o & Ho & [= <-]). apply IH in Ho as (E1 & E2 & E3); [|done].
      apply Ascii.eqb_neq in Hq. cbn. rewrite Hc, E1. cbn. rewrite Hq. done.
Qed.

Definition has_literal (b : BindValue) : bool := match b with Real bits => f64_is_finite bits | _ => true end.

Lemma bind_literal_total b : has_literal b = true -> exists lit, bind_literal b = Ok lit.
Proof. destruct b; cbn [has_literal bind_literal]; eauto. intros ->. eauto. Qed.

Lemma inline_from_total q sql binds :
  Forall (fun b => has_literal b = true) binds -> length binds = holes (outside q sql) ->
  exists out, inline_from q sql binds = Ok out.
Proof.
  revert q binds. induction sql as [|c sql IH]; intros q binds Hl Hn.
  { destruct binds; [by eexists|done]. }
  cbn [inline_from]. cbn in Hn. destruct q as [d|].
  { destruct (IH _ _ Hl Hn) as [o ->]. by eexists. }
  destruct (opens_quote c).
  { destruct (IH _ _ Hl Hn) as [o ->]. by eexists. }
  cbn in Hn. destruct (Ascii.eqb c "?").
  - destruct binds as [|b binds]; [done|]. apply Forall_cons in Hl as [Hb Hl].
    destruct (bind_literal_total b Hb) as [lit ->]. injection Hn as Hn.
    destruct (IH _ _ Hl Hn) as [o ->]. by eexists.
  - destruct (IH _ _ Hl Hn) as [o ->]. by eexists.
Qed.

Lemma bind_literal_has b lit : bind_literal b = Ok lit -> has_literal b = true.
Proof. destruct b; cbn [has_literal bind_literal]; try done. by case_match. Qed.

Lemma inline_from_literals q sql binds out :
  inline_from q sql binds = Ok out -> Forall (fun b => has_literal b = true) binds.
Proof.
  revert q binds out. induction sql as [|c sql IH]; intros q binds out H.
  { by destruct binds. }
  cbn [inline_from] in H. destruct q as [d|]; [|destruct (opens_quote c); [|destruct (Ascii.eqb c "?")]].
  - apply rbind_Ok in H as (o & Ho & _). by eapply IH.
  - apply rbind_Ok in H as (o & Ho & _). by eapply IH.
  - destruct binds as [|b binds]; [done|]. apply rbind_Ok in H as (lit & Hl & (o & Ho & _)%rbind_Ok).
    constructor; [by eapply bind_literal_has|by eapply IH].
  - apply rbind_Ok in H as (o & Ho & _). by eapply IH.
Qed.

(** C37. A value inlined into a statement stays a value: outside its quoted regions
    the result reads as the statement with a number, NULL, the mark of a blob or nothing at
    each placeholder, whatever characters the texts hold, and the quotes stay balanced as
    they were; and inlining succeeds exactly when every placeholder outside quotes has a
    value and every value a literal. *)
Theorem inlined_values_sealed sql binds :
  Forall bind_wf binds ->
  (forall out, inline_binds sql binds = Ok out ->
     outside None out = fill (outside None sql) (plain_part <$> binds) /\ scan None out = scan None sql) /\
  ((exists out, inline_binds sql binds = Ok out) <->
     length binds = holes (outside None sql) /\ Forall (fun b => has_literal b = true) binds).
Proof.
  intros Hwf. unfold inline_binds. split; [|split].
  - intros out H%inline_from_spec; [|done]. tauto.
  - intros [out H]. split; [by apply inline_from_spec in H as (_ & _ & ?)|by eapply inline_from_literals].
  - intros [Hn Hl]. by apply inline_from_total.
Qed.
End Sealed.
