(* ===== verification/Subs.v ===== *)
(** The subscriptions a client has declared, persisted in its replica
    (connetto-client/src/subscriptions.rs): the normalised tables, one definition per
    statement or transaction on them, and the book of subscriptions they refine. The
    resting table of computed values lies beside them, because forgetting a
    subscription consults it; what is written to it is in [Rested].

    A statement or transaction that fails leaves the tables as they were, so each is a
    function of the tables; when a failure may strike is said where they are called
    ([Watch]). [now] is the replica's clock in seconds. *)

From Stdlib Require Import ZArith Lia Ascii String.
From stdpp Require Import base numbers option list gmap fin_maps strings sorting.
From S2P Require Import Prelude Backoff Caller Cursor Pending QueryText.

Open Scope Z_scope.

(** ** Bind values as stored *)

Definition KIND_NULL : Z := 0.
Definition KIND_INTEGER : Z := 1.
Definition KIND_REAL : Z := 2.
Definition KIND_TEXT : Z := 3.
Definition KIND_BLOB : Z := 4.

Abbreviation StoredBind := (Z * option bytes)%type.

Definition encode_bind (value : BindValue) : StoredBind :=
  match value with
  | Null => (KIND_NULL, None)
  | Integer n => (KIND_INTEGER, Some (be_bytes 8 n))
  | Real f => (KIND_REAL, Some (be_bytes 8 f))
  | Text s => (KIND_TEXT, Some (bytes_of_string s))
  | Blob b => (KIND_BLOB, Some b)
  end.

(** The canonical form of a list of values: each as its kind, a length and its bytes. *)
Fixpoint encode_binds (binds : list BindValue) : bytes :=
  match binds with
  | [] => []
  | value :: binds' =>
      let '(kind, stored) := encode_bind value in
      let payload := default [] stored in
      kind :: be_bytes 8 (Z.min u64_max (Z.of_nat (length payload))) ++ payload ++ encode_binds binds'
  end.

(** [i64::from_be_bytes]. *)
Definition i64_from_be (b : bytes) : Z :=
  let u := from_be b in if decide (u <= i64_max) then u else u - 18446744073709551616.

Fixpoint string_of_bytes (b : bytes) : string :=
  match b with
  | [] => EmptyString
  | x :: b' => String (ascii_of_N (Z.to_N x)) (string_of_bytes b')
  end.

(** [bytes.try_into()] at eight bytes. *)
Definition eight (b : bytes) : Result bytes ClientError :=
  if decide (length b = 8%nat) then Ok b else Err ESession.

Definition decode_bind (kind : Z) (value : option bytes) : Result BindValue ClientError :=
  let bytes' := ok_or value ESession in
  if decide (kind = KIND_NULL) then Ok Null
  else if decide (kind = KIND_INTEGER) then
    b <-? bytes' ;; b' <-? eight b ;; Ok (Integer (i64_from_be b'))
  else if decide (kind = KIND_REAL) then
    b <-? bytes' ;; b' <-? eight b ;; Ok (Real (from_be b'))
  else if decide (kind = KIND_TEXT) then
    b <-? bytes' ;; if from_utf8 b then Ok (Text (string_of_bytes b)) else Err ESession
  else if decide (kind = KIND_BLOB) then b <-? bytes' ;; Ok (Blob b)
  else Err ESession.

(** ** The tables *)

(** [_connetto_subscription]. A row with a pin's name is a pin, any other a watch. *)
Record SubRow := {
  su_query : Z;
  su_priority : Z;
  su_pin : option string;
  su_stopped : option Z;
  su_grace : Z;
}.

(** [_connetto_aggregates], keyed by query, binds and group. *)
Record AggRow := { ag_values : option string; ag_result : string; ag_at : Z }.

(** [_connetto_bind] is keyed by subscription and position. *)
Record SubTables := {
  query_text : gmap Z string;
  subscription : gmap string SubRow;
  bind_rows : gmap string (gmap Z StoredBind);
  aggregate : gmap (Z * bytes * bytes) AggRow;
}.

Definition no_subs : SubTables :=
  {| query_text := ∅; subscription := ∅; bind_rows := ∅; aggregate := ∅ |}.
Definition set_query_text (v : gmap Z string) (t : SubTables) : SubTables :=
  {| query_text := v; subscription := subscription t; bind_rows := bind_rows t; aggregate := aggregate t |}.
Definition set_subscription (v : gmap string SubRow) (t : SubTables) : SubTables :=
  {| query_text := query_text t; subscription := v; bind_rows := bind_rows t; aggregate := aggregate t |}.
Definition set_bind_rows (v : gmap string (gmap Z StoredBind)) (t : SubTables) : SubTables :=
  {| query_text := query_text t; subscription := subscription t; bind_rows := v; aggregate := aggregate t |}.
Definition set_aggregate (v : gmap (Z * bytes * bytes) AggRow) (t : SubTables) : SubTables :=
  {| query_text := query_text t; subscription := subscription t; bind_rows := bind_rows t; aggregate := v |}.

(** ** Writing *)

Definition DEFAULT_GRACE : Z := 300 * NANOS_PER_SEC.
Definition MAX_GRACE : Z := 600 * NANOS_PER_SEC.
Definition i32_max : Z := 2147483647.

Definition grace_seconds (grace : Z) : Z :=
  default 0 (try_into i64_max (Z.min grace MAX_GRACE / NANOS_PER_SEC)).

(** The row of a query text, unique by its text. *)
Definition query_id_of (sql : string) (t : SubTables) : option Z :=
  fst <$> find (fun p => String.eqb p.2 sql) (map_to_list (query_text t)).

(** The key SQLite gives a new row of a table with an integer primary key. *)
Definition next_rowid (m : gmap Z string) : Z := foldr Z.max 0 (map_to_list m).*1 + 1.

(** Insert or ignore, then select. *)
Definition intern_query (sql : string) (t : SubTables) : Z * SubTables :=
  match query_id_of sql t with
  | Some id => (id, t)
  | None => let id := next_rowid (query_text t) in (id, set_query_text (<[id := sql]> (query_text t)) t)
  end.

(** One row per value, from a position on. *)
Fixpoint number_binds (position : Z) (binds : list BindValue) (rows : gmap Z StoredBind)
    : Result (gmap Z StoredBind) ClientError :=
  match binds with
  | [] => Ok rows
  | value :: binds' =>
      p <-? ok_or (try_into i32_max position) EDatabase ;;
      number_binds (position + 1) binds' (<[p := encode_bind value]> rows)
  end.

Definition remember (sub_id : string) (spec : SubscriptionSpec) (grace : Z) (t : SubTables)
    : Result SubTables ClientError :=
  let '(query_id, t1) := intern_query (sp_query spec) t in
  let row := {|
    su_query := query_id; su_priority := sp_priority spec;
    su_pin := row ← subscription t1 !! sub_id; su_pin row;
    su_stopped := None; su_grace := grace_seconds grace |} in
  rows <-? number_binds 0 (sp_binds spec) ∅ ;;
  Ok (set_bind_rows (<[sub_id := rows]> (bind_rows t1))
       (set_subscription (<[sub_id := row]> (subscription t1)) t1)).

(** The query texts no subscription refers to go too, but those a rested value
    still needs. *)
Definition forget (sub_id : string) (t : SubTables) : SubTables :=
  let subs := delete sub_id (subscription t) in
  let orphans := filter (fun id => id ∉ (su_query <$> (map_to_list subs).*2)) (map_to_list (query_text t)).*1 in
  let referenced := filter (fun id => id ∈ orphans) ((fun k => k.1.1) <$> (map_to_list (aggregate t)).*1) in
  let deletable := filter (fun id => id ∉ referenced) orphans in
  set_query_text (filter (fun p => p.1 ∉ deletable) (query_text t))
    (set_subscription subs (set_bind_rows (delete sub_id (bind_rows t)) t)).

(** [UPDATE .. WHERE id = sub_id]. *)
Definition update_sub (sub_id : string) (f : SubRow -> SubRow) (t : SubTables) : SubTables :=
  set_subscription (alter f sub_id (subscription t)) t.

Definition stopped_at (v : option Z) (r : SubRow) : SubRow :=
  {| su_query := su_query r; su_priority := su_priority r; su_pin := su_pin r;
     su_stopped := v; su_grace := su_grace r |}.
Definition pin_named (v : option string) (r : SubRow) : SubRow :=
  {| su_query := su_query r; su_priority := su_priority r; su_pin := v;
     su_stopped := su_stopped r; su_grace := su_grace r |}.
Definition ended_at (now : Z) (r : SubRow) : SubRow :=
  {| su_query := su_query r; su_priority := su_priority r; su_pin := None;
     su_stopped := Some now; su_grace := 0 |}.

Definition release (now : Z) (sub_id : string) : SubTables -> SubTables :=
  update_sub sub_id (stopped_at (Some now)).
Definition hold (sub_id : string) : SubTables -> SubTables := update_sub sub_id (stopped_at None).
Definition end_ (now : Z) (sub_id : string) : SubTables -> SubTables := update_sub sub_id (ended_at now).
Definition release_pin (sub_id : string) : SubTables -> SubTables := update_sub sub_id (pin_named None).

Definition anchor_launch (now : Z) (t : SubTables) : SubTables :=
  set_subscription
    ((fun r => match su_pin r, su_stopped r with None, None => stopped_at (Some now) r | _, _ => r end)
       <$> subscription t) t.

(** The update runs when some stop moment lies ahead; else nothing is written. *)
Definition reanchor_ahead (now : Z) (t : SubTables) : SubTables :=
  set_subscription
    ((fun r => match su_stopped r with
               | Some s => if decide (now < s) then stopped_at (Some now) r else r
               | None => r
               end) <$> subscription t) t.

Definition pinned_id (name : string) (t : SubTables) : option string :=
  fst <$> find (fun p => bool_decide (su_pin p.2 = Some name)) (map_to_list (subscription t)).

(** [UPDATE .. SET pin_name = name]; the column is unique. *)
Definition set_pin (name sub_id : string) (t : SubTables) : Result SubTables ClientError :=
  match subscription t !! sub_id, pinned_id name t with
  | Some _, Some other =>
      if decide (other = sub_id) then Ok (update_sub sub_id (pin_named (Some name)) t) else Err EDatabase
  | _, _ => Ok (update_sub sub_id (pin_named (Some name)) t)
  end.

(** ** Reading *)

Definition position_le {A} (a b : Z * A) : Prop := a.1 <= b.1.
#[export] Instance position_le_dec {A} : RelDecision (@position_le A).
Proof. intros a b. unfold position_le. apply _. Defined.

Definition stored_binds (sub_id : string) (t : SubTables) : list StoredBind :=
  (merge_sort position_le (map_to_list (default ∅ (bind_rows t !! sub_id)))).*2.

Definition binds_of (sub_id : string) (t : SubTables) : Result (list BindValue) ClientError :=
  try_map (fun '(kind, value) => decode_bind kind value) (stored_binds sub_id t).

Definition identity_of (sub_id : string) (t : SubTables)
    : Result (option (Z * list BindValue)) ClientError :=
  match subscription t !! sub_id with
  | None => Ok None
  | Some row => binds <-? binds_of sub_id t ;; Ok (Some (su_query row, binds))
  end.

Definition id_le {A} (a b : string * A) : Prop := string_le a.1 b.1.
#[export] Instance id_le_dec {A} : RelDecision (@id_le A).
Proof. intros a b. unfold id_le. apply _. Defined.

(** The rows by id. A read without an order of its own is given this one. *)
Definition by_id {A} (m : gmap string A) : list (string * A) := merge_sort id_le (map_to_list m).

Definition live_identities (t : SubTables) : Result (list (Z * bytes)) ClientError :=
  try_map (fun '(sub_id, row) => binds <-? binds_of sub_id t ;; Ok (su_query row, encode_binds binds))
    (by_id (subscription t)).

Record Declared := { de_sub_id : string; de_spec : SubscriptionSpec; de_live : bool }.

Definition i64_min : Z := -9223372036854775808.
Definition sat_sub_i64 (a b : Z) : Z := Z.max i64_min (Z.min i64_max (a - b)).

Definition row_live (now : Z) (r : SubRow) : bool :=
  match su_pin r with
  | Some _ => true
  | None => match su_stopped r with
            | None => true
            | Some stopped => bool_decide (sat_sub_i64 now stopped < su_grace r)
            end
  end.

Definition declared_row (now : Z) (t : SubTables) (p : string * (string * SubRow))
    : Result Declared ClientError :=
  let '(sub_id, (sql, row)) := p in
  binds <-? binds_of sub_id t ;;
  raw <-? ok_or (try_into u8_max (su_priority row)) ESession ;;
  Ok {| de_sub_id := sub_id;
        de_spec := {| sp_priority := priority_new raw; sp_query := sql; sp_binds := binds |};
        de_live := row_live now row |}.

(** The join with the query texts. *)
Definition joined (t : SubTables) : list (string * (string * SubRow)) :=
  omap (fun '(sub_id, row) => (fun sql => (sub_id, (sql, row))) <$> query_text t !! su_query row)
    (by_id (subscription t)).

Definition declared (now : Z) (t : SubTables) : Result (list Declared) ClientError :=
  try_map (declared_row now t) (joined t).

Definition name_le (a b : string * string) : Prop := string_le a.1 b.1.
#[export] Instance name_le_dec : RelDecision name_le.
Proof. intros a b. unfold name_le. apply _. Defined.

Definition pins (t : SubTables) : list (string * string) :=
  merge_sort name_le
    (omap (fun '(_, (sql, row)) => (fun name => (name, sql)) <$> su_pin row) (joined t)).

Definition row_expired (now : Z) (r : SubRow) : bool :=
  match su_pin r, su_stopped r with
  | None, Some stopped => bool_decide (stopped + su_grace r <= now)
  | _, _ => false
  end.

Definition expired (now : Z) (t : SubTables) : list string :=
  (filter (fun p => row_expired now p.2 = true) (by_id (subscription t))).*1.

(** ** The book of subscriptions the tables stand for *)

Record Entry := {
  en_spec : SubscriptionSpec;
  en_pin : option string;
  en_stopped : option Z;
  en_grace : Z;
}.
Abbreviation Book := (gmap string Entry).

(** Values a subscription can carry: what Rust's types allow. No allocation is longer
    than [isize::MAX] bytes. *)
Definition value_ok (b : BindValue) : Prop :=
  match b with
  | Null => True
  | Integer n => i64_min <= n <= i64_max
  | Real bits => in_u64 bits
  | Text s => from_utf8 (bytes_of_string s) = true /\ Z.of_nat (length (bytes_of_string s)) <= i64_max
  | Blob b => wf_bytes b /\ Z.of_nat (length b) <= i64_max
  end.

Definition spec_ok (s : SubscriptionSpec) : Prop :=
  0 <= sp_priority s <= 3 /\ Forall value_ok (sp_binds s) /\ Z.of_nat (length (sp_binds s)) <= i32_max.

Definition entry_of (t : SubTables) (sub_id : string) (row : SubRow) : option Entry :=
  sql ← query_text t !! su_query row;
  match binds_of sub_id t with
  | Ok binds => Some {|
      en_spec := {| sp_priority := priority_new (su_priority row); sp_query := sql; sp_binds := binds |};
      en_pin := su_pin row; en_stopped := su_stopped row; en_grace := su_grace row |}
  | Err _ => None
  end.

Definition book (t : SubTables) : Book := map_imap (entry_of t) (subscription t).

(** What the operations do to a book. *)
Definition book_remember (sub_id : string) (spec : SubscriptionSpec) (grace : Z) (b : Book) : Book :=
  <[sub_id := {| en_spec := spec; en_pin := e ← b !! sub_id; en_pin e; en_stopped := None;
                 en_grace := grace_seconds grace |}]> b.
Definition entry_stopped (v : option Z) (e : Entry) : Entry :=
  {| en_spec := en_spec e; en_pin := en_pin e; en_stopped := v; en_grace := en_grace e |}.
Definition entry_pinned (v : option string) (e : Entry) : Entry :=
  {| en_spec := en_spec e; en_pin := v; en_stopped := en_stopped e; en_grace := en_grace e |}.
Definition entry_ended (now : Z) (e : Entry) : Entry :=
  {| en_spec := en_spec e; en_pin := None; en_stopped := Some now; en_grace := 0 |}.
Definition entry_live (now : Z) (e : Entry) : bool :=
  match en_pin e, en_stopped e with
  | Some _, _ | _, None => true
  | None, Some stopped => bool_decide (now - stopped < en_grace e)
  end.

(** The tables are in order: texts are stored once, every row names one, values
    read back, names are unique, and a stop moment is an instant of the clock. *)
Record subs_ok (t : SubTables) : Prop := {
  ok_texts : forall i j sql, query_text t !! i = Some sql -> query_text t !! j = Some sql -> i = j;
  ok_rows : forall s row, subscription t !! s = Some row ->
    is_Some (query_text t !! su_query row) /\ 0 <= su_priority row <= 3 /\ 0 <= su_grace row <= 600;
  ok_binds : forall s row, subscription t !! s = Some row ->
    exists binds, (Forall value_ok binds /\ Z.of_nat (length binds) <= i32_max) /\ binds_of s t = Ok binds;
  ok_bind_rows : forall s, is_Some (bind_rows t !! s) -> is_Some (subscription t !! s);
  ok_pins : forall s s' row row' name, subscription t !! s = Some row -> subscription t !! s' = Some row' ->
    su_pin row = Some name -> su_pin row' = Some name -> s = s';
  ok_stops : forall s row stopped, subscription t !! s = Some row -> su_stopped row = Some stopped ->
    0 <= stopped <= i64_max;
  ok_rested : forall k, is_Some (aggregate t !! k) -> is_Some (query_text t !! k.1.1);
}.

(** ** Values read back *)

Lemma i64_from_be_bytes n : i64_min <= n <= i64_max -> i64_from_be (be_bytes 8 n) = n.
Proof.
  unfold i64_from_be, i64_min, i64_max. intros Hn. rewrite from_be_bytes.
  change (256 ^ Z.of_nat 8) with 18446744073709551616.
  destruct (decide (0 <= n)) as [H0|H0].
  - rewrite Z.mod_small by lia. rewrite decide_True by lia. done.
  - replace (n mod 18446744073709551616) with (n + 18446744073709551616).
    2:{ rewrite <- (Z.mod_add n 1) by lia. rewrite Z.mod_small by lia. lia. }
    rewrite decide_False by lia. lia.
Qed.

Lemma string_of_bytes_of_string s : string_of_bytes (bytes_of_string s) = s.
Proof.
  induction s as [|c s IH]; [done|]. cbn [bytes_of_string string_of_bytes].
  by rewrite IH, N2Z.id, ascii_N_embedding.
Qed.

Lemma decode_encode_bind b :
  value_ok b -> decode_bind (encode_bind b).1 (encode_bind b).2 = Ok b.
Proof.
  unfold decode_bind. destruct b as [|n|bits|s|b]; cbn [value_ok encode_bind fst snd ok_or rbind]; intros Hb;
    repeat first [rewrite decide_True by done | rewrite decide_False by done]; [done|..|done].
  - unfold eight. rewrite decide_True by apply length_be_bytes. cbn [rbind]. by rewrite i64_from_be_bytes.
  - unfold eight. rewrite decide_True by apply length_be_bytes. cbn [rbind]. by rewrite from_be8.
  - destruct Hb as [-> _]. by rewrite string_of_bytes_of_string.
Qed.

Lemma bytes_of_string_inj s s' : bytes_of_string s = bytes_of_string s' -> s = s'.
Proof. intros E. by rewrite <- (string_of_bytes_of_string s), E, string_of_bytes_of_string. Qed.

Lemma encode_bind_inj a b : value_ok a -> value_ok b -> encode_bind a = encode_bind b -> a = b.
Proof.
  intros Ha%decode_encode_bind Hb%decode_encode_bind E. rewrite E in Ha. congruence.
Qed.

Lemma encode_bind_null a b :
  (encode_bind a).1 = (encode_bind b).1 -> default [] (encode_bind a).2 = default [] (encode_bind b).2 ->
  encode_bind a = encode_bind b.
Proof. destruct a, b; cbn; intros E1 E2; try done; congruence. Qed.

Lemma payload_fits b : value_ok b -> Z.of_nat (length (default [] (encode_bind b).2)) <= u64_max.
Proof.
  assert (i64_max <= u64_max) by done.
  destruct b; cbn [value_ok encode_bind snd default]; rewrite ?length_be_bytes; intros Hb; try done; cbn; lia.
Qed.

(** The canonical form identifies the values exactly. *)
Lemma encode_binds_inj a b :
  Forall value_ok a -> Forall value_ok b -> encode_binds a = encode_binds b -> a = b.
Proof.
  intros Ha. revert b. induction Ha as [|x a Hx Ha IH]; intros b Hb E.
  { destruct b as [|y b]; [done|]. cbn in E. by destruct (encode_bind y). }
  destruct Hb as [|y b Hy Hb]; cbn in E; [by destruct (encode_bind x)|].
  pose proof (payload_fits x Hx) as Lx. pose proof (payload_fits y Hy) as Ly.
  destruct (encode_bind x) as [kx px] eqn:Ex, (encode_bind y) as [ky py] eqn:Ey. cbn in Lx, Ly.
  apply cons_split in E as [-> E]. rewrite !Z.min_r in E by done. peel E.
  apply be8_inj in E0; [|unfold in_u64; lia..].
  apply app_split in E as [E1 E]; [|lia]. f_equal; [|by apply IH].
  apply encode_bind_inj; [done..|]. apply encode_bind_null; by rewrite Ex, Ey.
Qed.

(** Numbered rows read back in the order of the list. *)
Definition numbered (position : Z) (binds : list BindValue) : list (Z * StoredBind) :=
  imap (fun i b => (position + Z.of_nat i, encode_bind b)) binds.

Lemma numbered_cons position b binds :
  numbered position (b :: binds) = (position, encode_bind b) :: numbered (position + 1) binds.
Proof.
  unfold numbered. cbn. f_equal; [f_equal; lia|]. apply imap_ext. intros i x _. cbn. f_equal. lia.
Qed.

Lemma numbered_ge position binds p : p ∈ numbered position binds -> position <= p.1.
Proof.
  revert position. induction binds as [|b binds IH]; intros position; [by intros ?%elem_of_nil|].
  rewrite numbered_cons. intros [->|H%IH]%elem_of_cons; cbn; lia.
Qed.

Lemma numbered_sorted position binds :
  StronglySorted (@position_le StoredBind) (numbered position binds) /\ NoDup (numbered position binds).*1.
Proof.
  revert position. induction binds as [|b binds IH]; intros position; [by repeat constructor|].
  rewrite numbered_cons. destruct (IH (position + 1)) as [HS HN]. split.
  - constructor; [done|]. apply Forall_forall. intros p Hp%numbered_ge. unfold position_le. cbn. lia.
  - cbn. constructor; [|done]. intros (p & Hp & Hin%numbered_ge)%list_elem_of_fmap. lia.
Qed.

Lemma number_binds_Ok position binds rows :
  0 <= position -> position + Z.of_nat (length binds) <= i32_max + 1 ->
  number_binds position binds rows = Ok (foldl (fun m p => <[p.1 := p.2]> m) rows (numbered position binds)).
Proof.
  revert position rows. induction binds as [|b binds IH]; intros position rows H0 Hn; [done|].
  cbn [number_binds length] in *. unfold try_into. rewrite decide_True by lia. cbn [ok_or rbind].
  rewrite IH by lia. by rewrite numbered_cons.
Qed.

Lemma foldl_insert_lookup `{Countable K} {A} (l : list (K * A)) (rows : gmap K A) :
  NoDup l.*1 ->
  foldl (fun m p => <[p.1 := p.2]> m) rows l = list_to_map l ∪ rows.
Proof.
  revert rows. induction l as [|[k v] l IH]; intros rows HN; [by rewrite left_id_L by apply _|].
  cbn in HN. apply NoDup_cons in HN as [Hk HN]. cbn [foldl list_to_map foldr fst snd]. rewrite IH by done.
  rewrite <- insert_union_l, insert_union_r; [done|]. by apply not_elem_of_list_to_map_1.
Qed.

#[export] Instance position_le_total {A} : Total (@position_le A).
Proof. intros a b. unfold position_le. lia. Qed.
#[export] Instance position_le_trans {A} : Transitive (@position_le A).
Proof. intros a b c. unfold position_le. lia. Qed.

(** Rows sorted by distinct keys are determined by their set. *)
Lemma sorted_by_key {K A} (R : relation K) `{!AntiSymm (=) R} (l l' : list (K * A)) :
  StronglySorted (fun a b => R a.1 b.1) l -> StronglySorted (fun a b => R a.1 b.1) l' ->
  NoDup l.*1 -> l ≡ₚ l' -> l = l'.
Proof.
  intros Hl Hl' HN HP. revert l' Hl' HP. induction Hl as [|a l Hl IH Ha]; intros l' Hl' HP.
  { by apply Permutation_nil_l in HP. }
  destruct Hl' as [|a' l' Hl' Ha']; [by apply Permutation_nil_r in HP|].
  cbn in HN. apply NoDup_cons in HN as [Hna HN].
  assert (a = a') as <-.
  { assert (a ∈ a' :: l') as [?|H1]%elem_of_cons by (rewrite <- HP; left); [done|].
    assert (a' ∈ a :: l) as [?|H2]%elem_of_cons by (rewrite HP; left); [done|].
    rewrite Forall_forall in Ha, Ha'. specialize (Ha _ H2). specialize (Ha' _ H1).
    destruct Hna. apply list_elem_of_fmap. exists a'. split; [by apply (anti_symm R)|done]. }
  f_equal. apply IH; [done..|]. by apply Permutation_cons_inv in HP.
Qed.

Lemma stored_numbered sub_id t binds :
  bind_rows t !! sub_id = Some (list_to_map (numbered 0 binds)) ->
  stored_binds sub_id t = encode_bind <$> binds.
Proof.
  intros H. unfold stored_binds. rewrite H. cbn [default].
  destruct (numbered_sorted 0 binds) as [HS HN].
  rewrite <- (sorted_by_key Z.le (numbered 0 binds) (merge_sort position_le _)); [|done|..].
  - unfold numbered. rewrite fmap_imap. clear. generalize 0.
    induction binds as [|b binds IH]; intros z; [done|]. cbn. f_equal. etrans; [|exact (IH z)].
    by apply imap_ext.
  - apply (StronglySorted_merge_sort _).
  - done.
  - symmetry. etrans; [apply merge_sort_Permutation|]. by apply map_to_list_to_map.
Qed.

Lemma binds_of_stored sub_id t binds :
  Forall value_ok binds -> stored_binds sub_id t = encode_bind <$> binds -> binds_of sub_id t = Ok binds.
Proof.
  intros Hv H. unfold binds_of. rewrite H. apply try_map_Ok, Forall2_fmap_l. clear H.
  induction Hv as [|b l Hb%decode_encode_bind Hl IH]; constructor; [|done].
  unfold compose. revert Hb. by destruct (encode_bind b).
Qed.

(** ** The tables implement the book *)

Lemma query_id_of_Some sql t id : query_id_of sql t = Some id -> query_text t !! id = Some sql.
Proof.
  unfold query_id_of. intros ([i s] & Hf & [= <-])%fmap_Some. cbn in Hf.
  apply List.find_some in Hf as [Hin Heq%String.eqb_eq]. cbn in Heq. subst.
  by apply elem_of_map_to_list, list_elem_of_In.
Qed.

Lemma query_id_of_None sql t id : query_id_of sql t = None -> query_text t !! id <> Some sql.
Proof.
  unfold query_id_of. intros Hf%fmap_None Hid.
  apply elem_of_map_to_list, list_elem_of_In in Hid.
  apply (List.find_none _ _ Hf) in Hid. cbn in Hid. by rewrite String.eqb_refl in Hid.
Qed.

Lemma foldr_max_ge l (x : Z) : x ∈ l -> x <= foldr Z.max 0 l.
Proof. induction l as [|y l IH]; [by intros ?%elem_of_nil|]. intros [->|H%IH]%elem_of_cons; cbn; lia. Qed.

Lemma next_rowid_fresh m : m !! next_rowid m = None.
Proof.
  apply eq_None_not_Some. intros [sql H]. unfold next_rowid in H.
  assert (foldr Z.max 0 (map_to_list m).*1 + 1 ∈ (map_to_list m).*1) as Hin%foldr_max_ge; [|lia].
  apply list_elem_of_fmap. eexists (_, sql). split; [done|]. by apply elem_of_map_to_list.
Qed.

(** Interning finds or adds the text, and moves no other. *)
Lemma intern_query_spec sql t id t' :
  intern_query sql t = (id, t') ->
  subscription t' = subscription t /\ bind_rows t' = bind_rows t /\ aggregate t' = aggregate t /\
  query_text t' !! id = Some sql /\ query_text t ⊆ query_text t' /\
  (forall i s, query_text t' !! i = Some s -> query_text t !! i = Some s \/ i = id /\ s = sql /\
     forall j, query_text t !! j <> Some sql).
Proof.
  unfold intern_query. destruct (query_id_of sql t) as [i|] eqn:E; intros [= <- <-].
  { apply query_id_of_Some in E. by repeat split; auto. }
  cbn. repeat split; [by rewrite lookup_insert_eq|apply insert_subseteq, next_rowid_fresh|].
  intros i s [[<- <-]|[? H]]%lookup_insert_Some; [right|by left].
  repeat split. intros j. by apply query_id_of_None.
Qed.

Lemma book_lookup t s : book t !! s = subscription t !! s ≫= entry_of t s.
Proof. apply map_lookup_imap. Qed.

Lemma binds_of_ext s t t' : bind_rows t !! s = bind_rows t' !! s -> binds_of s t = binds_of s t'.
Proof. intros H. unfold binds_of, stored_binds. by rewrite H. Qed.

(** Every row of tables in order has its entry. *)
Lemma subs_ok_entry t s row :
  subs_ok t -> subscription t !! s = Some row ->
  exists e, book t !! s = Some e /\ en_pin e = su_pin row /\ en_stopped e = su_stopped row /\
    en_grace e = su_grace row /\ query_text t !! su_query row = Some (sp_query (en_spec e)) /\
    binds_of s t = Ok (sp_binds (en_spec e)) /\ sp_priority (en_spec e) = su_priority row.
Proof.
  intros Hok Hs. rewrite book_lookup, Hs. cbn.
  destruct (ok_rows _ Hok _ _ Hs) as ([sql Hq] & Hp & _).
  destruct (ok_binds _ Hok _ _ Hs) as (binds & _ & Hb). unfold entry_of. rewrite Hq, Hb. cbn.
  eexists. split_and!; [done..|]. cbn. unfold priority_new. case_decide; lia.
Qed.

Lemma book_None t s : subs_ok t -> book t !! s = None <-> subscription t !! s = None.
Proof.
  intros Hok. split.
  - intros Hb. destruct (subscription t !! s) as [row|] eqn:Hs; [|done].
    destruct (subs_ok_entry _ _ _ Hok Hs) as (e & He & _). congruence.
  - intros Hs. by rewrite book_lookup, Hs.
Qed.

Lemma remember_total sub_id spec grace t :
  spec_ok spec -> exists t', remember sub_id spec grace t = Ok t'.
Proof.
  intros (_ & _ & Hl). unfold remember. destruct (intern_query (sp_query spec) t) as [q t1].
  rewrite number_binds_Ok by lia. cbn. eauto.
Qed.

Lemma remember_inv sub_id spec grace t t' :
  spec_ok spec -> remember sub_id spec grace t = Ok t' ->
  exists q t1 row, intern_query (sp_query spec) t = (q, t1) /\
    row = {| su_query := q; su_priority := sp_priority spec; su_pin := row ← subscription t !! sub_id; su_pin row;
             su_stopped := None; su_grace := grace_seconds grace |} /\
    t' = {| query_text := query_text t1; subscription := <[sub_id := row]> (subscription t);
            bind_rows := <[sub_id := list_to_map (numbered 0 (sp_binds spec))]> (bind_rows t);
            aggregate := aggregate t |}.
Proof.
  intros (_ & _ & Hl) H. unfold remember in H.
  destruct (intern_query (sp_query spec) t) as [q t1] eqn:Ei.
  rewrite number_binds_Ok in H by lia. cbn in H. injection H as <-.
  pose proof Ei as (E1 & E2 & E3 & _)%intern_query_spec. exists q, t1. eexists. split_and!; [done..|].
  unfold set_bind_rows, set_subscription. cbn. rewrite E1, E2, E3.
  rewrite foldl_insert_lookup by apply numbered_sorted. by rewrite (right_id_L ∅ (∪)).
Qed.

Lemma grace_seconds_range g : 0 <= g -> 0 <= grace_seconds g <= 600.
Proof.
  intros Hg. unfold grace_seconds, try_into, MAX_GRACE, NANOS_PER_SEC, i64_max.
  assert (0 <= Z.min g (600 * 1000000000) / 1000000000 <= 600).
  { split; [apply Z.div_pos; lia|]. apply Z.div_le_upper_bound; lia. }
  rewrite decide_True by lia. done.
Qed.

(** An entry depends on the text its row names and on the values of its id. *)
Lemma entry_of_ext t t' s row :
  query_text t !! su_query row = query_text t' !! su_query row -> bind_rows t !! s = bind_rows t' !! s ->
  entry_of t s row = entry_of t' s row.
Proof. intros Hq Hb. unfold entry_of. by rewrite Hq, (binds_of_ext s t t'). Qed.

Lemma remember_book sub_id spec grace t t' :
  subs_ok t -> spec_ok spec -> remember sub_id spec grace t = Ok t' ->
  book t' = book_remember sub_id spec grace (book t).
Proof.
  intros Hok Hspec H. pose proof Hspec as (Hp & Hv & _).
  apply remember_inv in H as (q & t1 & row & Hi & Hrow & ->); [|done].
  apply intern_query_spec in Hi as (_ & _ & _ & Hq & Hsub & _).
  apply map_eq. intros s. rewrite book_lookup. unfold book_remember. cbn [subscription].
  destruct (decide (s = sub_id)) as [->|Hne].
  - rewrite !lookup_insert_eq. cbn. unfold entry_of. subst row. cbn [su_query query_text]. rewrite Hq. cbn.
    erewrite binds_of_stored; [|exact Hv|by apply stored_numbered, lookup_insert_eq]. f_equal. f_equal.
    + destruct spec. cbn in *. f_equal. unfold priority_new. case_decide; lia.
    + rewrite book_lookup. destruct (subscription t !! sub_id) as [row|] eqn:Hs; [|done].
      destruct (subs_ok_entry _ _ _ Hok Hs) as (e & He & Hpin & _). rewrite book_lookup, Hs in He. cbn in He |- *.
      by rewrite He.
  - rewrite !lookup_insert_ne, book_lookup by done.
    destruct (subscription t !! s) as [r|] eqn:Hs; [|done]. cbn. apply entry_of_ext; cbn.
    + destruct (ok_rows _ Hok _ _ Hs) as ([sql Hsql] & _). rewrite Hsql. by eapply lookup_weaken.
    + by rewrite lookup_insert_ne.
Qed.

Lemma remember_ok sub_id spec grace t t' :
  subs_ok t -> spec_ok spec -> 0 <= grace -> remember sub_id spec grace t = Ok t' -> subs_ok t'.
Proof.
  intros Hok Hspec Hg H. pose proof Hspec as (Hp & Hv & Hlen).
  apply remember_inv in H as (q & t1 & row & Hi & Hrow & ->); [|done].
  apply intern_query_spec in Hi as (_ & _ & _ & Hq & Hsub & Hnew). split; cbn.
  - intros i j sql Hi Hj. destruct (Hnew _ _ Hi) as [Hi'|(-> & -> & Hno)], (Hnew _ _ Hj) as [Hj'|(-> & E & Hno')];
      [by eapply (ok_texts _ Hok)| |by destruct (Hno j)|done]. subst. by destruct (Hno' i).
  - intros s r [[<- <-]|[? Hs]]%lookup_insert_Some.
    { subst row. cbn. split_and!; [by eexists|lia..|by apply grace_seconds_range|by apply grace_seconds_range]. }
    destruct (ok_rows _ Hok _ _ Hs) as ([sql Hsql] & ?). split; [|done]. exists sql. by eapply lookup_weaken.
  - intros s r [[<- <-]|[Hne Hs]]%lookup_insert_Some.
    { exists (sp_binds spec). split; [done|]. apply binds_of_stored; [done|]. by apply stored_numbered, lookup_insert_eq. }
    destruct (ok_binds _ Hok _ _ Hs) as (binds & ? & Hb). exists binds. split; [done|]. rewrite <- Hb.
    apply binds_of_ext. cbn. by rewrite lookup_insert_ne.
  - intros s [rows [[<- <-]|[Hne Hs]]%lookup_insert_Some]; [by rewrite lookup_insert_eq|].
    rewrite lookup_insert_ne by done. by eapply (ok_bind_rows _ Hok).
  - intros s s' r r' name Hs Hs' Hn Hn'.
    assert (forall s r, <[sub_id:=row]> (subscription t) !! s = Some r -> su_pin r = Some name ->
      exists r0, subscription t !! s = Some r0 /\ su_pin r0 = Some name) as Hkeep.
    { intros s0 r0 [[<- <-]|[Hne H0]]%lookup_insert_Some Hn0; [|by eauto]. subst row. cbn in Hn0.
      destruct (subscription t !! sub_id) as [r1|]; [|done]. by eauto. }
    destruct (Hkeep _ _ Hs Hn) as (r1 & ? & ?), (Hkeep _ _ Hs' Hn') as (r2 & ? & ?).
    by eapply (ok_pins _ Hok).
  - intros s r stopped [[<- <-]|[Hne Hs]]%lookup_insert_Some Hst; [by subst row|]. by eapply (ok_stops _ Hok).
  - intros k [sql Hk]%(ok_rested _ Hok). exists sql. by eapply lookup_weaken.
Qed.

(** A text stays exactly when a subscription or a rested value names it. *)
Lemma forget_texts sub_id t i sql :
  query_text (forget sub_id t) !! i = Some sql <->
  query_text t !! i = Some sql /\
  ((exists s r, s <> sub_id /\ subscription t !! s = Some r /\ su_query r = i) \/
   (exists k, is_Some (aggregate t !! k) /\ k.1.1 = i)).
Proof.
  unfold forget. cbn. rewrite map_lookup_filter_Some. cbn.
  set (subs := su_query <$> _). set (rest := (fun k : Z * bytes * bytes => k.1.1) <$> _).
  assert (i ∈ subs <-> exists s r, s <> sub_id /\ subscription t !! s = Some r /\ su_query r = i) as Hs.
  { unfold subs. rewrite list_elem_of_fmap. split.
    - intros (r & -> & ([s r'] & -> & Hin%elem_of_map_to_list)%list_elem_of_fmap).
      apply lookup_delete_Some in Hin as [? ?]. exists s, r'. by auto.
    - intros (s & r & Hne & Hs & <-). exists r. split; [done|]. apply list_elem_of_fmap. exists (s, r).
      split; [done|]. apply elem_of_map_to_list. by rewrite lookup_delete_ne. }
  assert (i ∈ rest <-> exists k, is_Some (aggregate t !! k) /\ k.1.1 = i) as Hr.
  { unfold rest. rewrite list_elem_of_fmap. split.
    - intros (k & -> & ([k' v] & -> & Hin%elem_of_map_to_list)%list_elem_of_fmap). exists k'. by rewrite Hin.
    - intros (k & [v Hk] & <-). exists k. split; [done|]. apply list_elem_of_fmap. exists (k, v).
      split; [done|]. by apply elem_of_map_to_list. }
  rewrite <- Hs, <- Hr, !list_elem_of_filter. split.
  - intros [Hi Hd]. split; [done|]. destruct (decide (i ∈ subs)); [by left|]. destruct (decide (i ∈ rest)); [by right|].
    destruct Hd. assert (i ∈ (map_to_list (query_text t)).*1)
      by (apply list_elem_of_fmap; exists (i, sql); split; [done|by apply elem_of_map_to_list]).
    tauto.
  - intros [Hi Hd]. split; [done|]. tauto.
Qed.

Lemma forget_book sub_id t : subs_ok t -> book (forget sub_id t) = delete sub_id (book t).
Proof.
  intros Hok. apply map_eq. intros s. rewrite book_lookup.
  change (subscription (forget sub_id t)) with (delete sub_id (subscription t)).
  destruct (decide (s = sub_id)) as [->|Hne]; [by rewrite !lookup_delete_eq|].
  rewrite !lookup_delete_ne, book_lookup by done. destruct (subscription t !! s) as [row|] eqn:Hs; [|done].
  cbn. destruct (ok_rows _ Hok _ _ Hs) as ([sql Hq] & _). apply entry_of_ext.
  - rewrite Hq. apply forget_texts. split; [done|]. left. eauto.
  - cbn. by rewrite lookup_delete_ne.
Qed.

Lemma forget_in_order sub_id t : subs_ok t -> subs_ok (forget sub_id t).
Proof.
  intros Hok. split; change (subscription (forget sub_id t)) with (delete sub_id (subscription t));
    change (aggregate (forget sub_id t)) with (aggregate t);
    change (bind_rows (forget sub_id t)) with (delete sub_id (bind_rows t)).
  - intros i j sql [Hi _]%forget_texts [Hj _]%forget_texts. by eapply (ok_texts _ Hok).
  - intros s row [Hne Hs]%lookup_delete_Some. destruct (ok_rows _ Hok _ _ Hs) as ([sql Hq] & ?).
    split; [|done]. exists sql. apply forget_texts. split; [done|]. left. eauto.
  - intros s row [Hne Hs]%lookup_delete_Some. destruct (ok_binds _ Hok _ _ Hs) as (binds & ? & Hb).
    exists binds. split; [done|]. rewrite <- Hb. apply binds_of_ext. cbn. by rewrite lookup_delete_ne.
  - intros s [rows [Hne Hs]%lookup_delete_Some]. rewrite lookup_delete_ne by done.
    by eapply (ok_bind_rows _ Hok).
  - intros s s' r r' name [_ ?]%lookup_delete_Some [_ ?]%lookup_delete_Some. by eapply (ok_pins _ Hok).
  - intros s r stopped [_ ?]%lookup_delete_Some. by eapply (ok_stops _ Hok).
  - intros k Hk. destruct (ok_rested _ Hok _ Hk) as [sql Hq]. exists sql. apply forget_texts.
    split; [done|]. right. eauto.
Qed.

(** Statements that touch only the state of rows. *)
Definition reshapes (r r' : SubRow) : Prop :=
  su_query r' = su_query r /\ su_priority r' = su_priority r /\
  (su_grace r' = su_grace r \/ su_grace r' = 0) /\
  (su_stopped r' = su_stopped r \/ forall stopped, su_stopped r' = Some stopped -> 0 <= stopped <= i64_max).

Lemma reshape_ok t m :
  subs_ok t ->
  (forall s r', m !! s = Some r' -> exists r, subscription t !! s = Some r /\ reshapes r r') ->
  (forall s, is_Some (subscription t !! s) -> is_Some (m !! s)) ->
  (forall s s' r r' name, m !! s = Some r -> m !! s' = Some r' -> su_pin r = Some name -> su_pin r' = Some name -> s = s') ->
  subs_ok (set_subscription m t).
Proof.
  intros Hok Hm Hdom Hpins. split; cbn; [apply (ok_texts _ Hok)|..|apply (ok_rested _ Hok)].
  - intros s r' (r & Hr & -> & -> & Hg & _)%Hm. destruct (ok_rows _ Hok _ _ Hr) as (? & ? & ?).
    split; [done|]. destruct Hg as [-> | ->]; lia.
  - intros s r' (r & Hr & _)%Hm. apply (ok_binds _ Hok _ _ Hr).
  - intros s Hs%(ok_bind_rows _ Hok). by apply Hdom.
  - done.
  - intros s r' stopped (r & Hr & _ & _ & _ & [Hst|Hst])%Hm; [|by apply Hst]. rewrite Hst. by apply (ok_stops _ Hok _ _ _ Hr).
Qed.

Lemma update_sub_ok sub_id f t :
  subs_ok t -> (forall r, reshapes r (f r)) ->
  (forall r name, subscription t !! sub_id = Some r -> su_pin (f r) = Some name ->
     su_pin r = Some name \/ forall s r', subscription t !! s = Some r' -> su_pin r' <> Some name) ->
  subs_ok (update_sub sub_id f t).
Proof.
  intros Hok Hf Hpin. apply reshape_ok; [done|..].
  - intros s r' [(-> & r & Hr & ->)|[Hne Hr]]%lookup_alter_Some; [by eauto|].
    exists r'. split; [done|]. unfold reshapes. tauto.
  - intros s [r Hs]. destruct (decide (s = sub_id)) as [->|Hne].
    + rewrite lookup_alter_eq, Hs. by eexists.
    + rewrite lookup_alter_ne by done. by eexists.
  - assert (forall s r name, alter f sub_id (subscription t) !! s = Some r -> su_pin r = Some name ->
      (exists r0, subscription t !! s = Some r0 /\ su_pin r0 = Some name) \/
      s = sub_id /\ forall s r', subscription t !! s = Some r' -> su_pin r' <> Some name) as Hkeep.
    { intros s r name [(-> & r0 & H0 & ->)|[Hne Hr]]%lookup_alter_Some Hn; [|by eauto].
      destruct (Hpin _ _ H0 Hn); eauto. }
    intros s s' r r' name Hs Hs' Hn Hn'.
    destruct (Hkeep _ _ _ Hs Hn) as [(r1 & H1 & N1)|[-> Hno]], (Hkeep _ _ _ Hs' Hn') as [(r2 & H2 & N2)|[-> Hno']];
      [by eapply (ok_pins _ Hok)|by destruct (Hno' _ _ H1)|by destruct (Hno _ _ H2)|done].
Qed.

Lemma book_update sub_id f g t :
  (forall r, entry_of t sub_id (f r) = g <$> entry_of t sub_id r) ->
  book (update_sub sub_id f t) = alter g sub_id (book t).
Proof.
  intros Hfg. apply map_eq. intros s. rewrite book_lookup. unfold update_sub. cbn.
  destruct (decide (s = sub_id)) as [->|Hne].
  - rewrite !lookup_alter_eq, book_lookup. destruct (subscription t !! sub_id); [|done]. cbn.
    rewrite <- Hfg. by apply entry_of_ext.
  - rewrite !lookup_alter_ne, book_lookup by done. by destruct (subscription t !! s).
Qed.

Lemma book_fmap f g t :
  (forall s r, entry_of t s (f r) = g <$> entry_of t s r) ->
  book (set_subscription (f <$> subscription t) t) = g <$> book t.
Proof.
  intros Hfg. apply map_eq. intros s. rewrite book_lookup, lookup_fmap, book_lookup. cbn.
  rewrite lookup_fmap. destruct (subscription t !! s); [|done]. cbn.
  rewrite <- Hfg. by apply entry_of_ext.
Qed.

Lemma entry_of_map t s r f g :
  su_query (f r) = su_query r ->
  (forall sql binds, {| en_spec := {| sp_priority := priority_new (su_priority (f r)); sp_query := sql; sp_binds := binds |};
      en_pin := su_pin (f r); en_stopped := su_stopped (f r); en_grace := su_grace (f r) |} =
     g {| en_spec := {| sp_priority := priority_new (su_priority r); sp_query := sql; sp_binds := binds |};
      en_pin := su_pin r; en_stopped := su_stopped r; en_grace := su_grace r |}) ->
  entry_of t s (f r) = g <$> entry_of t s r.
Proof.
  intros Hq Hg. unfold entry_of. rewrite Hq. destruct (query_text t !! su_query r); [|done]. cbn.
  destruct (binds_of s t); [|done]. cbn. by rewrite Hg.
Qed.

#[export] Instance id_le_total {A} : Total (@id_le A).
Proof. intros a b. unfold id_le. apply (total string_le). Qed.
#[export] Instance id_le_trans {A} : Transitive (@id_le A).
Proof. intros a b c. unfold id_le. apply (transitivity (R := string_le)). Qed.

Lemma elem_of_by_id {A} (m : gmap string A) s a : (s, a) ∈ by_id m <-> m !! s = Some a.
Proof. unfold by_id. by rewrite merge_sort_Permutation, elem_of_map_to_list. Qed.

Lemma NoDup_by_id {A} (m : gmap string A) : NoDup (by_id m).*1.
Proof.
  unfold by_id. rewrite (merge_sort_Permutation id_le). apply NoDup_fst_map_to_list.
Qed.

Lemma by_id_sorted {A} (m : gmap string A) : StronglySorted id_le (by_id m).
Proof. apply (StronglySorted_merge_sort _). Qed.

(** Reading the book by id is reading the rows by id. *)
Lemma by_id_imap {A B} (f : string -> A -> option B) (m : gmap string A) :
  by_id (map_imap f m) = omap (fun '(s, a) => (fun b => (s, b)) <$> f s a) (by_id m).
Proof.
  set (h := fun '(s, a) => (fun b => (s, b)) <$> f s a : option (string * B)).
  assert (Hkeys : forall l, (omap h l).*1 `sublist_of` l.*1).
  { induction l as [|[s a] l IH]; cbn; [done|]. destruct (f s a); cbn; by constructor. }
  apply (sorted_by_key string_le); [apply by_id_sorted| |apply NoDup_by_id|].
  - generalize (by_id_sorted m). generalize (by_id m). intros l Hl.
    induction Hl as [|[s a] l Hl IH Ha]; cbn; [constructor|]. destruct (f s a) as [b|]; cbn; [|done].
    constructor; [done|]. apply Forall_forall. intros [s' b'] Hin. cbn.
    apply list_elem_of_omap in Hin as ([s0 a0] & Hin & (b0 & _ & [= <- <-])%fmap_Some).
    rewrite Forall_forall in Ha. exact (Ha _ Hin).
  - apply NoDup_Permutation.
    + eapply NoDup_fmap_1, NoDup_by_id.
    + eapply (NoDup_fmap_1 fst), sublist_NoDup, Hkeys. apply NoDup_by_id.
    + intros [s b]. rewrite elem_of_by_id, map_lookup_imap, list_elem_of_omap. split.
      * intros (a & Ha & Hf)%bind_Some. exists (s, a). split; [by apply elem_of_by_id|]. cbn. by rewrite Hf.
      * intros ([s' a] & Hin%elem_of_by_id & (b' & Hf & [= <- <-])%fmap_Some). by rewrite Hin.
Qed.

(** ** Reading is reading the book *)

Definition declare (now : Z) (p : string * Entry) : Declared :=
  {| de_sub_id := p.1; de_spec := en_spec p.2; de_live := entry_live now p.2 |}.

Definition clock_ok (now : Z) : Prop := 0 <= now <= i64_max.

Lemma row_live_entry t s row e now :
  subs_ok t -> clock_ok now -> subscription t !! s = Some row -> book t !! s = Some e ->
  row_live now row = entry_live now e.
Proof.
  intros Hok Hnow Hs He. destruct (subs_ok_entry _ _ _ Hok Hs) as (e' & He' & Hp & Hst & Hg & _).
  rewrite He in He'. injection He' as <-. unfold row_live, entry_live. rewrite Hp, Hst, Hg.
  destruct (su_pin row); [done|]. destruct (su_stopped row) as [st|] eqn:E; [|done].
  pose proof (ok_stops _ Hok _ _ _ Hs E) as Hr. apply bool_decide_ext.
  unfold sat_sub_i64, clock_ok, i64_min, i64_max in *. lia.
Qed.

(** A watch is expired exactly when it is not live. *)
Lemma row_expired_entry t s row e now :
  subs_ok t -> subscription t !! s = Some row -> book t !! s = Some e ->
  row_expired now row = negb (entry_live now e).
Proof.
  intros Hok Hs He. destruct (subs_ok_entry _ _ _ Hok Hs) as (e' & He' & Hp & Hst & Hg & _).
  rewrite He in He'. injection He' as <-. unfold row_expired, entry_live. rewrite Hp, Hst, Hg.
  destruct (su_pin row); [done|]. destruct (su_stopped row) as [st|]; [|done].
  rewrite <- bool_decide_not. apply bool_decide_ext. lia.
Qed.

Lemma by_id_book t :
  by_id (book t) = omap (fun '(s, row) => (fun e => (s, e)) <$> entry_of t s row) (by_id (subscription t)).
Proof. apply by_id_imap. Qed.

Lemma by_id_rows (t : SubTables) : Forall (fun p => subscription t !! p.1 = Some p.2) (by_id (subscription t)).
Proof. apply Forall_forall. intros [s row] Hin. by apply elem_of_by_id. Qed.

(** What the entry of a row in order says of reading it. *)
Lemma entry_of_row t s row :
  subs_ok t -> subscription t !! s = Some row ->
  exists e, entry_of t s row = Some e /\ book t !! s = Some e /\
    query_text t !! su_query row = Some (sp_query (en_spec e)) /\ en_pin e = su_pin row /\
    forall now, clock_ok now ->
      declared_row now t (s, (sp_query (en_spec e), row)) = Ok (declare now (s, e)).
Proof.
  intros Hok Hs. destruct (subs_ok_entry _ _ _ Hok Hs) as (e & He & Hp & _ & _ & Hq & Hb & Hpr).
  exists e. pose proof He as He'. rewrite book_lookup, Hs in He'. split_and!; [done..|].
  intros now Hnow. unfold declared_row, declare. rewrite Hb. cbn [rbind].
  destruct (ok_rows _ Hok _ _ Hs) as (_ & Hr & _). unfold try_into, u8_max. rewrite decide_True by lia.
  cbn. rewrite (row_live_entry t s row e) by done. do 3 f_equal.
  destruct (en_spec e) as [pr q bs]. cbn in *. f_equal. subst. unfold priority_new. case_decide; lia.
Qed.

Lemma declared_book t now :
  subs_ok t -> clock_ok now -> declared now t = Ok (declare now <$> by_id (book t)).
Proof.
  intros Hok Hnow. unfold declared, joined. rewrite by_id_book. apply try_map_Ok.
  induction (by_id_rows t) as [|[s row] l Hs Hl IH]; [constructor|]. cbn in Hs.
  destruct (entry_of_row _ _ _ Hok Hs) as (e & He & _ & Hq & _ & Hd). cbn.
  rewrite Hq, He. cbn. constructor; [by apply Hd|done].
Qed.

Lemma expired_book t now :
  subs_ok t -> expired now t = (filter (fun p => entry_live now p.2 = false) (by_id (book t))).*1.
Proof.
  intros Hok. unfold expired. rewrite by_id_book.
  induction (by_id_rows t) as [|[s row] l Hs Hl IH]; [done|]. cbn in Hs.
  destruct (entry_of_row _ _ _ Hok Hs) as (e & He & Hb & _). cbn -[filter]. rewrite He. cbn -[filter].
  rewrite !filter_cons. cbn [snd]. pose proof (row_expired_entry t s row e now Hok Hs Hb) as E.
  rewrite E. destruct (entry_live now e); [exact IH|]. by apply (f_equal (cons s)).
Qed.

Lemma pins_book t :
  subs_ok t ->
  pins t = merge_sort name_le
    (omap (fun '(_, e) => (fun name => (name, sp_query (en_spec e))) <$> en_pin e) (by_id (book t))).
Proof.
  intros Hok. unfold pins, joined. f_equal. rewrite by_id_book.
  induction (by_id_rows t) as [|[s row] l Hs Hl IH]; [done|]. cbn in Hs.
  destruct (entry_of_row _ _ _ Hok Hs) as (e & He & _ & Hq & Hp & _). cbn.
  rewrite Hq, He. cbn. rewrite Hp. destruct (su_pin row); cbn; by rewrite IH.
Qed.

(** ** Histories *)

Inductive SubOp :=
  | ORemember (sub_id : string) (spec : SubscriptionSpec) (grace : Z)
  | OForget (sub_id : string)
  | ORelease (now : Z) (sub_id : string)
  | OHold (sub_id : string)
  | OEnd (now : Z) (sub_id : string)
  | OSetPin (name sub_id : string)
  | OReleasePin (sub_id : string)
  | OAnchor (now : Z)
  | OReanchor (now : Z).

Definition run_op (op : SubOp) (t : SubTables) : Result SubTables ClientError :=
  match op with
  | ORemember s spec g => remember s spec g t
  | OForget s => Ok (forget s t)
  | ORelease now s => Ok (release now s t)
  | OHold s => Ok (hold s t)
  | OEnd now s => Ok (end_ now s t)
  | OSetPin name s => set_pin name s t
  | OReleasePin s => Ok (release_pin s t)
  | OAnchor now => Ok (anchor_launch now t)
  | OReanchor now => Ok (reanchor_ahead now t)
  end.

Fixpoint run_ops (ops : list SubOp) (t : SubTables) : Result SubTables ClientError :=
  match ops with [] => Ok t | op :: ops' => t' <-? run_op op t ;; run_ops ops' t' end.

Definition op_ok (op : SubOp) : Prop :=
  match op with
  | ORemember _ spec g => spec_ok spec /\ 0 <= g
  | ORelease now _ | OEnd now _ | OAnchor now | OReanchor now => clock_ok now
  | _ => True
  end.

Definition entry_anchored (now : Z) (e : Entry) : Entry :=
  match en_pin e, en_stopped e with None, None => entry_stopped (Some now) e | _, _ => e end.
Definition entry_reanchored (now : Z) (e : Entry) : Entry :=
  match en_stopped e with
  | Some s => if decide (now < s) then entry_stopped (Some now) e else e
  | None => e
  end.

Definition book_op (op : SubOp) (b : Book) : Book :=
  match op with
  | ORemember s spec g => book_remember s spec g b
  | OForget s => delete s b
  | ORelease now s => alter (entry_stopped (Some now)) s b
  | OHold s => alter (entry_stopped None) s b
  | OEnd now s => alter (entry_ended now) s b
  | OSetPin name s => alter (entry_pinned (Some name)) s b
  | OReleasePin s => alter (entry_pinned None) s b
  | OAnchor now => entry_anchored now <$> b
  | OReanchor now => entry_reanchored now <$> b
  end.

Ltac book_row := unfold release, hold, end_, release_pin; apply book_update; intros ?; by apply entry_of_map.

Lemma set_pin_inv name sub_id t t' :
  set_pin name sub_id t = Ok t' -> t' = update_sub sub_id (pin_named (Some name)) t /\
  (is_Some (subscription t !! sub_id) -> pinned_id name t = None \/ pinned_id name t = Some sub_id).
Proof.
  unfold set_pin. destruct (subscription t !! sub_id); [|intros [= <-]; split; [done|by intros []]].
  destruct (pinned_id name t); [case_decide; [|done]|]; intros [= <-]; subst; auto.
Qed.

Lemma pinned_id_Some name t s :
  pinned_id name t = Some s -> exists r, subscription t !! s = Some r /\ su_pin r = Some name.
Proof.
  unfold pinned_id. intros ([s' r] & Hf & [= <-])%fmap_Some.
  apply List.find_some in Hf as [Hin Heq%bool_decide_eq_true]. exists r.
  split; [by apply elem_of_map_to_list, list_elem_of_In|done].
Qed.

Lemma pinned_id_None name t s r :
  pinned_id name t = None -> subscription t !! s = Some r -> su_pin r <> Some name.
Proof.
  unfold pinned_id. intros Hf%fmap_None Hs Hp.
  apply elem_of_map_to_list, list_elem_of_In, (List.find_none _ _ Hf) in Hs. cbn in Hs.
  by apply bool_decide_eq_false in Hs.
Qed.

Lemma run_op_book op t t' :
  subs_ok t -> op_ok op -> run_op op t = Ok t' -> book t' = book_op op (book t).
Proof.
  intros Hok Hop. destruct op; cbn [run_op book_op]; intros H.
  - destruct Hop. by eapply remember_book.
  - injection H as <-. by apply forget_book.
  - injection H as <-. book_row.
  - injection H as <-. book_row.
  - injection H as <-. book_row.
  - apply set_pin_inv in H as [-> _]. book_row.
  - injection H as <-. book_row.
  - injection H as <-. apply book_fmap. intros s r. apply (entry_of_map t s r (fun r => _)).
    + by destruct (su_pin r), (su_stopped r).
    + intros. unfold entry_anchored. cbn. destruct (su_pin r) eqn:E, (su_stopped r) eqn:E'; cbn; by rewrite ?E, ?E'.
  - injection H as <-. apply book_fmap. intros s r. apply (entry_of_map t s r (fun r => _)).
    + destruct (su_stopped r); [by case_decide|done].
    + intros. unfold entry_reanchored. cbn. destruct (su_stopped r) eqn:E; [case_decide|]; cbn; by rewrite ?E.
Qed.

Lemma pin_free_update t sub_id f :
  (forall r, su_pin (f r) = su_pin r) \/ (forall r, su_pin (f r) = None) ->
  forall r name, subscription t !! sub_id = Some r -> su_pin (f r) = Some name ->
    su_pin r = Some name \/ forall s r', subscription t !! s = Some r' -> su_pin r' <> Some name.
Proof. intros [H|H] r name _; rewrite H; [by left|done]. Qed.

Lemma fmap_rows_ok f t :
  subs_ok t -> (forall r, reshapes r (f r)) -> (forall r, su_pin (f r) = su_pin r) ->
  subs_ok (set_subscription (f <$> subscription t) t).
Proof.
  intros Hok Hf Hp. apply reshape_ok; [done|..].
  - intros s r'. rewrite lookup_fmap. intros (r & Hr & ->)%fmap_Some. eauto.
  - intros s. rewrite lookup_fmap. by intros [r ->].
  - intros s s' r r' name. rewrite !lookup_fmap.
    intros (r1 & Hs & ->)%fmap_Some (r2 & Hs' & ->)%fmap_Some. rewrite !Hp. by apply (ok_pins _ Hok).
Qed.

Lemma set_pin_ok name sub_id t t' : subs_ok t -> set_pin name sub_id t = Ok t' -> subs_ok t'.
Proof.
  intros Hok H. apply set_pin_inv in H as [-> Hfree].
  apply update_sub_ok; [done|intros r; by repeat split; auto|].
  intros r name' Hs [= <-]. destruct Hfree as [H|H]; [by rewrite Hs|right; eauto using pinned_id_None|].
  apply pinned_id_Some in H as (r' & Hs' & Hp). left. congruence.
Qed.

Lemma run_op_in_order op t t' : subs_ok t -> op_ok op -> run_op op t = Ok t' -> subs_ok t'.
Proof.
  intros Hok Hop. destruct op; cbn [run_op op_ok] in *; intros H.
  1: { destruct Hop. by eapply remember_ok. }
  1: { injection H as <-. by apply forget_in_order. }
  4: by eapply set_pin_ok.
  all: injection H as <-.
  1-4: apply update_sub_ok; [done|intros r; repeat split; auto; right; cbn; intros ? [=]; by subst
                            |apply pin_free_update; by auto].
  - apply fmap_rows_ok; [done| |]; intros r; repeat split;
      destruct (su_pin r) eqn:Ep, (su_stopped r) eqn:Es; cbn; auto. right. intros ? [=]. by subst.
  - apply fmap_rows_ok; [done| |]; intros r; repeat split; destruct (su_stopped r) eqn:Es; cbn; auto;
      case_decide; cbn; auto. right. intros ? [=]. by subst.
Qed.

Lemma run_ops_book ops t t' :
  subs_ok t -> Forall op_ok ops -> run_ops ops t = Ok t' ->
  subs_ok t' /\ book t' = foldl (fun b op => book_op op b) (book t) ops.
Proof.
  intros Hok Hops. revert t Hok. induction Hops as [|op ops Hop Hops IH]; intros t Hok; cbn.
  { by intros [= <-]. }
  intros (t1 & H1 & H)%rbind_Ok. rewrite <- (run_op_book op t t1) by done. apply IH; [|done].
  by eapply run_op_in_order.
Qed.

Lemma no_subs_ok : subs_ok no_subs.
Proof. split; cbn; intros *; rewrite ?lookup_empty; try done; by intros []. Qed.

(** Only a name another subscription holds is refused. *)
Lemma run_op_total op t :
  subs_ok t -> op_ok op ->
  (exists t', run_op op t = Ok t') \/
  exists name s s' e, op = OSetPin name s /\ s <> s' /\ book t !! s' = Some e /\ en_pin e = Some name.
Proof.
  intros Hok Hop. destruct op; cbn [run_op]; try (left; by eexists).
  - destruct Hop. left. by apply remember_total.
  - unfold set_pin. destruct (subscription t !! sub_id) eqn:Hs; [|left; by eexists].
    destruct (pinned_id name t) as [other|] eqn:Hp; [|left; by eexists].
    case_decide; [left; by eexists|]. right. apply pinned_id_Some in Hp as (r & Hr & Hn).
    destruct (subs_ok_entry _ _ _ Hok Hr) as (e & He & Hpe & _). exists name, sub_id, other, e.
    by rewrite Hpe.
Qed.

(** A statement that gives a subscription pinned under one name another name. *)
Definition repins (b : Book) (op : SubOp) : Prop :=
  match op with
  | OSetPin name s => exists e n, b !! s = Some e /\ en_pin e = Some n /\ n <> name
  | _ => False
  end.

(** A history in which no pin is taken over by another name. *)
Fixpoint pins_kept (ops : list SubOp) (b : Book) : Prop :=
  match ops with [] => True | op :: ops' => ~ repins b op /\ pins_kept ops' (book_op op b) end.

(** The statements that are meant to end a subscription's pin. *)
Definition ends_pin (s : string) (op : SubOp) : Prop :=
  match op with OReleasePin s' | OForget s' | OEnd _ s' => s' = s | _ => False end.

(** A pin ends only by a statement meant to end it. *)
Lemma pin_ends op (b : Book) s e name :
  ~ repins b op -> b !! s = Some e -> en_pin e = Some name -> ~ ends_pin s op ->
  exists e', book_op op b !! s = Some e' /\ en_pin e' = Some name.
Proof.
  intros Hr He Hp Hn.
  destruct op as [s' spec g|s'|now s'|s'|now s'|name' s'|s'|now|now]; cbn in *;
    rewrite ?lookup_fmap, ?He; cbn; try (destruct (decide (s' = s)) as [->|]; [|simplify_map_eq; eauto]);
    try done; unfold book_remember; simplify_map_eq; eauto.
  - destruct (decide (name = name')) as [->|]; eauto. destruct Hr. by eexists _, _.
  - unfold entry_anchored. rewrite Hp. eauto.
  - unfold entry_reanchored. destruct (en_stopped e); [case_decide|]; eauto.
Qed.

Notation book_ops := (foldl (fun b op => book_op op b)).

Lemma pin_lasts ops (b : Book) s e name :
  pins_kept ops b -> b !! s = Some e -> en_pin e = Some name -> Forall (fun op => ~ ends_pin s op) ops ->
  exists e', book_ops b ops !! s = Some e' /\ en_pin e' = Some name.
Proof.
  revert b e. induction ops as [|op ops IH]; intros b e; cbn; [eauto|].
  intros [Hr Hk] He Hp [Hn Hns]%Forall_cons.
  destruct (pin_ends op b s e name) as (e1 & He1 & Hp1); eauto.
Qed.

Lemma pins_kept_app pre post (b : Book) : pins_kept (pre ++ post) b -> pins_kept post (book_ops b pre).
Proof. revert b. induction pre as [|op pre IH]; intros b; cbn; [done|]. intros [_ H]. by apply IH. Qed.

(** C24. The normalised tables implement the book: after any history of statements
    on values and instants in their ranges in which none renames a pin, the tables
    stand for the book the same history writes, and each reader returns the book's
    own answer: the subscriptions declared and those run out up to their order, the
    pins by name. A pin lasts until its release or the end of its subscription, and
    of further statements only a name another subscription holds is refused. A
    history with a statement that gives a pinned subscription a second name is left
    out: it ends the pin the first name had. *)
Theorem tables_refine_book ops t now :
  Forall op_ok ops -> pins_kept ops ∅ -> clock_ok now -> run_ops ops no_subs = Ok t ->
  let b := book_ops ∅ ops in
  book t = b /\
  (exists ds, declared now t = Ok ds /\ ds ≡ₚ declare now <$> map_to_list b) /\
  expired now t ≡ₚ (filter (fun p => entry_live now p.2 = false) (map_to_list b)).*1 /\
  pins t = merge_sort name_le
    (omap (fun '(_, e) => (fun name => (name, sp_query (en_spec e))) <$> en_pin e) (by_id b)) /\
  (forall pre post name s, ops = pre ++ OSetPin name s :: post -> is_Some (book_ops ∅ pre !! s) ->
     Forall (fun op => ~ ends_pin s op) post -> exists e, b !! s = Some e /\ en_pin e = Some name) /\
  forall op, op_ok op ->
    (exists t', run_op op t = Ok t' /\ book t' = book_op op b) \/
    exists name s s' e, op = OSetPin name s /\ s <> s' /\ b !! s' = Some e /\ en_pin e = Some name.
Proof.
  intros Hops Hk Hnow H. apply run_ops_book in H as [Hok Hb]; [|apply no_subs_ok|done].
  replace (book no_subs) with (∅ : Book) in Hb by done. intros b. subst b.
  split_and!; [done|..]; rewrite <- ?Hb.
  - eexists. split; [by apply declared_book|]. by apply fmap_Permutation, merge_sort_Permutation.
  - rewrite expired_book by done. unfold by_id. by rewrite merge_sort_Permutation.
  - by apply pins_book.
  - intros pre post name s -> [e He] Hn. rewrite Hb, foldl_app. apply pins_kept_app in Hk as [_ Hk].
    cbn. apply (pin_lasts _ _ _ (entry_pinned (Some name) e)); [done| |done..]. cbn. by rewrite lookup_alter_eq, He.
  - intros op Hop. destruct (run_op_total op t Hok Hop) as [[t' Ht]|H]; [left|by right].
    exists t'. split; [done|]. by apply run_op_book.
Qed.
