(* ===== verification/Rested.v ===== *)
(** The resting table of computed values (connetto-client/src/aggregates.rs): the
    last answer of every statistic a client watched, keyed by query text and values so
    that it outlives the subscription and the process. A JSON text is read by the
    class [Json]. *)

From Stdlib Require Import ZArith Lia String.
From stdpp Require Import base numbers option list gmap fin_maps strings sorting.
From S2P Require Import Prelude Cursor Pending QueryText Subs.

Open Scope Z_scope.

(** A parsed text: an array as the texts of its elements, or anything else as its
    own. *)
Inductive JsonValue := JArray (elements : list string) | JOther (text : string).
Class Json := { from_str : string -> option JsonValue }.

Record AggregateFrame := {
  af_group_key : option bytes;
  af_group_values : option string;
  af_result : option string;
  af_full : bool;
}.

Definition SCALAR_KEY : bytes := [].

Abbreviation Stat := (Z * bytes)%type.

Section Rested.
Context {J : Json}.

(** ** Writing *)

Definition upsert (stat : Stat) (group_key : bytes) (values : option string) (result : string) (now : Z)
    (t : SubTables) : SubTables :=
  set_aggregate (<[(stat, group_key) := {| ag_values := values; ag_result := result; ag_at := now |}]>
                  (aggregate t)) t.

Definition remove (stat : Stat) (group_key : bytes) (t : SubTables) : SubTables :=
  set_aggregate (delete (stat, group_key) (aggregate t)) t.

(** [DELETE .. WHERE query_id = .. AND binds = ..]. *)
Definition remove_stat (stat : Stat) (t : SubTables) : SubTables :=
  set_aggregate (filter (fun p => p.1.1 <> stat) (aggregate t)) t.

Definition clear (query_id : Z) (binds : list BindValue) : SubTables -> SubTables :=
  remove_stat (query_id, encode_binds binds).

Definition is_json_array (json : string) : bool :=
  match from_str json with Some (JArray _) => true | _ => false end.

(** The elements, one row each, from a position on. *)
Fixpoint rest_rows (stat : Stat) (position : Z) (rows : list string) (now : Z) (t : SubTables) : SubTables :=
  match rows with
  | [] => t
  | element :: rows' =>
      rest_rows stat (position + 1) rows' now
        (upsert stat (be_bytes 8 (Z.min u64_max position)) None element now t)
  end.

Definition replace_whole (stat : Stat) (json : string) (now : Z) (t : SubTables) : Result SubTables ClientError :=
  match from_str json with
  | None => Err ESession
  | Some (JOther text) => Ok (upsert stat SCALAR_KEY None text now t)
  | Some (JArray rows) => Ok (rest_rows stat 0 rows now (remove_stat stat t))
  end.

Definition apply_frame (query_id : Z) (binds : list BindValue) (frame : AggregateFrame) (now : Z)
    (t : SubTables) : Result SubTables ClientError :=
  let stat := (query_id, encode_binds binds) in
  match af_result frame with
  | None => Ok (remove stat (default SCALAR_KEY (af_group_key frame)) t)
  | Some json =>
      match af_group_key frame with
      | Some key => Ok (upsert stat key (af_group_values frame) json now t)
      | None =>
          if af_full frame && is_json_array json then replace_whole stat json now t
          else Ok (upsert stat SCALAR_KEY None json now t)
      end
  end.

(** ** Reading *)

Definition lookup_scalar (query : string) (binds : list BindValue) (t : SubTables) : option (string * Z) :=
  query_id ← query_id_of query t;
  row ← aggregate t !! ((query_id, encode_binds binds), SCALAR_KEY);
  Some (ag_result row, ag_at row).

Definition key_before (a b : bytes * AggRow) : Prop := bytes_le a.1 b.1.
#[export] Instance key_before_dec : RelDecision key_before.
Proof. intros a b. unfold key_before. apply _. Defined.

(** The rows of a statistic beside the scalar one, by key. *)
Definition group_rows (stat : Stat) (t : SubTables) : list (bytes * AggRow) :=
  merge_sort key_before
    (omap (fun '((s, key), row) => if decide (s = stat /\ key <> SCALAR_KEY) then Some (key, row) else None)
       (map_to_list (aggregate t))).

Definition lookup_groups (query : string) (binds : list BindValue) (t : SubTables) : list AggRow :=
  match query_id_of query t with
  | None => []
  | Some query_id => (group_rows (query_id, encode_binds binds) t).*2
  end.

(** ** The cap *)

(** [GROUP BY query_id, binds], with the newest update of each. *)
Definition stats_of (t : SubTables) : list Stat := remove_dups ((fun p => p.1.1) <$> map_to_list (aggregate t)).
Definition recent (t : SubTables) (stat : Stat) : option Z :=
  foldr (fun p acc => if decide (p.1.1 = stat) then Some (default (ag_at p.2) (Z.max (ag_at p.2) <$> acc)) else acc)
    None (map_to_list (aggregate t)).

Definition older (a b : Stat * option Z) : Prop := default i64_min a.2 <= default i64_min b.2.
#[export] Instance older_dec : RelDecision older.
Proof. intros a b. unfold older. apply _. Defined.

Fixpoint evict (over : nat) (protected : gset Stat) (stats : list Stat) (t : SubTables) : SubTables :=
  match stats with
  | [] => t
  | stat :: stats' =>
      match over with
      | O => t
      | S over' =>
          if decide (stat ∈ protected) then evict over protected stats' t
          else evict over' protected stats' (remove_stat stat t)
      end
  end.

Definition enforce_cap (cap : nat) (protected : list Stat) (t : SubTables) : SubTables :=
  let stats := (fun stat => (stat, recent t stat)) <$> stats_of t in
  if decide (length stats <= cap)%nat then t
  else evict (length stats - cap) (list_to_set protected) (merge_sort older stats).*1 t.
End Rested.

(** ** What rests survives the subscriptions *)

Lemma run_op_aggregate op t t' : run_op op t = Ok t' -> aggregate t' = aggregate t.
Proof.
  destruct op; cbn [run_op]; intros H; try (by injection H as <-).
  - unfold remember in H. destruct (intern_query (sp_query spec) t) as [q t1] eqn:Ei.
    apply intern_query_spec in Ei as (_ & _ & Ha & _). apply rbind_Ok in H as (rows & _ & [= <-]). done.
  - by apply set_pin_inv in H as [-> _].
Qed.

(** The text a rested row is filed under keeps its key. *)
Lemma run_op_text op t t' k sql :
  run_op op t = Ok t' -> is_Some (aggregate t !! k) -> query_text t !! k.1.1 = Some sql ->
  query_text t' !! k.1.1 = Some sql.
Proof.
  intros H Hk Hq. destruct op; cbn [run_op] in H; try (by injection H as <-).
  - unfold remember in H. destruct (intern_query (sp_query spec) t) as [q t1] eqn:Ei.
    apply intern_query_spec in Ei as (_ & _ & _ & _ & Hsub & _). apply rbind_Ok in H as (rows & _ & [= <-]).
    cbn. by eapply lookup_weaken.
  - injection H as <-. apply forget_texts. split; [done|]. right. eauto.
  - by apply set_pin_inv in H as [-> _].
Qed.

Lemma run_ops_rested ops t t' :
  run_ops ops t = Ok t' ->
  aggregate t' = aggregate t /\
  forall k sql, is_Some (aggregate t !! k) -> query_text t !! k.1.1 = Some sql -> query_text t' !! k.1.1 = Some sql.
Proof.
  revert t. induction ops as [|op ops IH]; intros t; cbn; [by intros [= <-]|].
  intros (t1 & H1 & [Ha Hq]%IH)%rbind_Ok. pose proof (run_op_aggregate _ _ _ H1) as Ha1. split; [congruence|].
  intros k sql Hk Hs. apply Hq; [by rewrite Ha1|]. by eapply run_op_text.
Qed.

(** The rows a query and its values read: the same before and after, under
    whatever key the text has. *)
Definition rested_at (sql : string) (blob : bytes) (t : SubTables) (key : bytes) : option AggRow :=
  id ← query_id_of sql t; aggregate t !! ((id, blob), key).

Lemma query_id_of_eq t sql id :
  subs_ok t -> query_text t !! id = Some sql -> query_id_of sql t = Some id.
Proof.
  intros Hok Hid. destruct (query_id_of sql t) as [j|] eqn:E.
  - apply query_id_of_Some in E. f_equal. by eapply (ok_texts _ Hok).
  - by apply (query_id_of_None sql t id) in E.
Qed.

Lemma run_ops_rested_at ops t t' sql blob key :
  subs_ok t -> subs_ok t' -> run_ops ops t = Ok t' -> rested_at sql blob t' key = rested_at sql blob t key.
Proof.
  intros Hok Hok' [Ha Hq]%run_ops_rested. unfold rested_at. rewrite Ha.
  apply option_eq. intros row. rewrite !bind_Some. split; intros (id & Hid & Hrow).
  - exists id. split; [|done]. apply query_id_of_eq; [done|]. apply query_id_of_Some in Hid.
    destruct (ok_rested _ Hok ((id, blob), key)) as [s Hs]; [by eexists|].
    pose proof (Hq ((id, blob), key) s ltac:(by eexists) Hs) as Hs'. cbn in Hs, Hs'. congruence.
  - exists id. split; [|done]. apply query_id_of_eq; [done|]. apply query_id_of_Some in Hid.
    apply (Hq ((id, blob), key)); [by eexists|done].
Qed.

(** Both readers as functions of those rows. *)
Lemma lookup_scalar_at sql binds t :
  lookup_scalar sql binds t =
  (fun row => (ag_result row, ag_at row)) <$> rested_at sql (encode_binds binds) t SCALAR_KEY.
Proof.
  unfold lookup_scalar, rested_at. destruct (query_id_of sql t); [|done]. cbn. by destruct (aggregate t !! _).
Qed.

#[export] Instance key_before_total : Total key_before.
Proof. intros a b. unfold key_before. apply (total bytes_le). Qed.
#[export] Instance key_before_trans : Transitive key_before.
Proof. intros a b c. unfold key_before. apply (transitivity (R := bytes_le)). Qed.

Lemma elem_of_group_rows stat t key row :
  (key, row) ∈ group_rows stat t <-> key <> SCALAR_KEY /\ aggregate t !! (stat, key) = Some row.
Proof.
  unfold group_rows. rewrite merge_sort_Permutation, list_elem_of_omap. split.
  - intros ([[s k] r] & Hin%elem_of_map_to_list & H). case_decide as Hd; [|done]. destruct Hd as [-> ?].
    by simplify_eq.
  - intros [Hk H]. exists (stat, key, row). rewrite elem_of_map_to_list. split; [done|].
    by rewrite decide_True.
Qed.

Lemma group_rows_sorted stat t : StronglySorted key_before (group_rows stat t) /\ NoDup (group_rows stat t).*1.
Proof.
  split; [apply (StronglySorted_merge_sort _)|]. unfold group_rows. rewrite (merge_sort_Permutation key_before).
  generalize (NoDup_map_to_list (aggregate t)).
  assert (forall p q, p ∈ map_to_list (aggregate t) -> q ∈ map_to_list (aggregate t) -> p.1 = q.1 -> p = q) as Hfun.
  { intros [k r] [k' r'] Hp%elem_of_map_to_list Hq%elem_of_map_to_list. cbn. intros ->. congruence. }
  revert Hfun. generalize (map_to_list (aggregate t)). intros l Hfun HN.
  induction HN as [|[[s k] r] l Hn HN IH]; [constructor|].
  specialize (IH ltac:(intros; apply Hfun; [by right..|done])). cbn. case_decide as Hd; [|done]. cbn. constructor; [|done].
  intros ([k' r'] & -> & ([[s' k0] r0] & Hin & H)%list_elem_of_omap)%list_elem_of_fmap.
  case_decide as Hd'; [|done]. destruct Hd as [-> _], Hd' as [-> _]. cbn in *. simplify_eq.
  assert ((stat, k', r) = (stat, k', r')) as E by (apply Hfun; [by left|by right|done]).
  by rewrite <- E in Hin.
Qed.

(** Rows are determined by what each key holds. *)
Lemma group_rows_ext stat stat' t t' :
  (forall key, key <> SCALAR_KEY -> aggregate t !! (stat, key) = aggregate t' !! (stat', key)) ->
  group_rows stat t = group_rows stat' t'.
Proof.
  intros H. destruct (group_rows_sorted stat t) as [S1 N1], (group_rows_sorted stat' t') as [S2 N2].
  apply (sorted_by_key bytes_le); [done..|].
  apply NoDup_Permutation; [by eapply NoDup_fmap_1..|].
  intros [key row]. rewrite !elem_of_group_rows. split; intros [Hk Hr]; (split; [done|]).
  - by rewrite <- H.
  - by rewrite H.
Qed.

Lemma lookup_groups_at sql binds t t' :
  (forall key, rested_at sql (encode_binds binds) t key = rested_at sql (encode_binds binds) t' key) ->
  lookup_groups sql binds t = lookup_groups sql binds t'.
Proof.
  intros H. unfold lookup_groups. unfold rested_at in H.
  assert (forall stat u, (forall key, aggregate u !! (stat, key) = None) -> group_rows stat u = []) as Hnil.
  { intros stat u Hu. destruct (group_rows stat u) as [|[k r] l] eqn:E; [done|].
    assert ((k, r) ∈ group_rows stat u) as [_ Hin]%elem_of_group_rows by (rewrite E; left). by rewrite Hu in Hin. }
  destruct (query_id_of sql t) as [i|], (query_id_of sql t') as [j|]; cbn in H; [| | |done].
  - f_equal. by apply group_rows_ext.
  - by rewrite Hnil.
  - by rewrite Hnil.
Qed.

(** ** What a frame rests *)

Section Frames.
Context {J : Json}.

(** The rows of a whole answer, from a position on. *)
Definition positional (position : Z) (rows : list string) (now : Z) : list (bytes * AggRow) :=
  imap (fun i el => (be_bytes 8 (position + Z.of_nat i), {| ag_values := None; ag_result := el; ag_at := now |})) rows.

Lemma positional_cons position el rows now :
  positional position (el :: rows) now =
  (be_bytes 8 position, {| ag_values := None; ag_result := el; ag_at := now |}) :: positional (position + 1) rows now.
Proof.
  unfold positional. cbn. f_equal; [do 2 f_equal; lia|]. apply imap_ext. intros i x _. cbn. do 2 f_equal. lia.
Qed.

Lemma positional_keys position rows now p :
  p ∈ positional position rows now ->
  exists i, position <= i < position + Z.of_nat (length rows) /\ p.1 = be_bytes 8 i.
Proof.
  revert position. induction rows as [|el rows IH]; intros position; [by intros ?%elem_of_nil|].
  rewrite positional_cons. cbn [length].
  intros [->|(i & ? & ->)%IH]%elem_of_cons; [exists position|exists i]; (split; [lia|done]).
Qed.

Lemma positional_sorted position rows now :
  0 <= position -> position + Z.of_nat (length rows) <= u64_max ->
  StronglySorted key_before (positional position rows now) /\ NoDup (positional position rows now).*1.
Proof.
  unfold u64_max. revert position. induction rows as [|el rows IH]; intros position H0 Hn; [by repeat constructor|].
  cbn [length] in Hn. rewrite positional_cons. destruct (IH (position + 1)) as [HS HN]; [lia..|]. split.
  - constructor; [done|]. apply Forall_forall. intros p (i & Hi & E)%positional_keys.
    unfold key_before, bytes_le. cbn. rewrite E, bytes_cmp_be by (cbn; lia).
    rewrite (proj2 (Z.compare_lt_iff _ _)) by lia. done.
  - cbn. constructor; [|done]. intros (p & Hp & (i & Hi & E)%positional_keys)%list_elem_of_fmap.
    rewrite E in Hp. apply be8_inj in Hp; unfold in_u64, u64_max; lia.
Qed.

Lemma rest_rows_aggregate stat position rows now t :
  0 <= position -> position + Z.of_nat (length rows) <= u64_max ->
  aggregate (rest_rows stat position rows now t) =
  foldl (fun m p => <[p.1 := p.2]> m) (aggregate t) (prod_map (pair stat) id <$> positional position rows now).
Proof.
  revert position t. induction rows as [|el rows IH]; intros position t H0 Hn; [done|]. cbn [length] in Hn.
  cbn [rest_rows]. rewrite IH by lia. rewrite positional_cons. cbn. by rewrite Z.min_r by lia.
Qed.

Lemma positional_scalar position rows now : (SCALAR_KEY : bytes) ∉ (positional position rows now).*1.
Proof.
  intros (p & Hp & (i & _ & E)%positional_keys)%list_elem_of_fmap. rewrite E in Hp.
  by apply (f_equal length) in Hp; rewrite length_be_bytes in Hp.
Qed.

Lemma tagged_keys {A B C} (a : A) (l : list (B * C)) : (prod_map (pair a) id <$> l).*1 = pair a <$> l.*1.
Proof. induction l as [|[b c] l IH]; [done|]. cbn. by rewrite IH. Qed.

Lemma tagged_NoDup {A B C} (a : A) (l : list (B * C)) : NoDup l.*1 -> NoDup (prod_map (pair a) id <$> l).*1.
Proof. intros HN. rewrite tagged_keys. apply NoDup_fmap_2; [by intros ?? [= ->]|done]. Qed.

(** A whole answer replaces the statistic: its elements in order, and nothing else. *)
Lemma rest_rows_lookup stat rows now t k :
  Z.of_nat (length rows) <= u64_max ->
  aggregate (rest_rows stat 0 rows now (remove_stat stat t)) !! k =
  if decide (k.1 = stat) then (list_to_map (positional 0 rows now) : gmap bytes AggRow) !! k.2 else aggregate t !! k.
Proof.
  intros Hn. rewrite rest_rows_aggregate by lia. destruct (positional_sorted 0 rows now) as [_ HN]; [lia..|].
  rewrite foldl_insert_lookup by (by apply tagged_NoDup).
  destruct k as [s key]. cbn. case_decide as Hd.
  - subst s. rewrite lookup_union_l.
    + apply option_eq. intros row. rewrite <- !elem_of_list_to_map; [|done|].
      * rewrite list_elem_of_fmap. split; [by intros ([? ?] & [= -> ->] & ?)|]. intros H. by exists (key, row).
      * by apply tagged_NoDup.
    + apply map_lookup_filter_None. right. intros x _ []. done.
  - rewrite lookup_union_r.
    + apply option_eq. intros row. rewrite map_lookup_filter_Some. cbn. naive_solver.
    + apply not_elem_of_list_to_map_1. rewrite tagged_keys. by intros (? & [= -> _] & _)%list_elem_of_fmap.
Qed.
Lemma rest_rows_tables stat position rows now t :
  rest_rows stat position rows now t = set_aggregate (aggregate (rest_rows stat position rows now t)) t.
Proof.
  revert position t. induction rows as [|el rows IH]; intros position t; cbn [rest_rows]; [by destruct t|].
  by rewrite IH at 1.
Qed.

(** No array in memory has more elements than a [usize] counts. *)
Definition frame_ok (frame : AggregateFrame) : Prop :=
  forall json rows, af_result frame = Some json -> from_str json = Some (JArray rows) ->
    Z.of_nat (length rows) <= u64_max.

(** A frame writes only the resting table, and only its own statistic. *)
Lemma apply_frame_local query_id binds frame now t t' :
  frame_ok frame -> apply_frame query_id binds frame now t = Ok t' ->
  t' = set_aggregate (aggregate t') t /\
  forall k, k.1 <> (query_id, encode_binds binds) -> aggregate t' !! k = aggregate t !! k.
Proof.
  unfold apply_frame. set (stat := (query_id, _)). intros Hf H.
  assert (forall key values res u, u = upsert stat key values res now t -> u = set_aggregate (aggregate u) t /\
    forall k, k.1 <> stat -> aggregate u !! k = aggregate t !! k) as Hup.
  { intros key values res u ->. split; [done|]. intros k Hk. cbn. rewrite lookup_insert_ne; [done|]. by intros <-. }
  destruct (af_result frame) as [json|] eqn:Er.
  - destruct (af_group_key frame); [by injection H as <-; eapply Hup|].
    destruct (af_full frame && is_json_array json); [|by injection H as <-; eapply Hup].
    unfold replace_whole in H. destruct (from_str json) as [[rows|]|] eqn:Ej; [|by injection H as <-; eapply Hup|done].
    injection H as <-. split; [apply (rest_rows_tables stat 0 rows now (remove_stat stat t))|].
    intros k Hk. rewrite rest_rows_lookup by (by eapply Hf). by rewrite decide_False.
  - injection H as <-. split; [done|]. intros k Hk. cbn. rewrite lookup_delete_ne; [done|]. by intros <-.
Qed.

Lemma set_aggregate_ok m t :
  subs_ok t -> (forall k, is_Some (m !! k) -> is_Some (query_text t !! k.1.1)) -> subs_ok (set_aggregate m t).
Proof. intros Hok Hm. by destruct Hok; split. Qed.

Lemma apply_frame_ok query_id binds frame now t t' :
  subs_ok t -> frame_ok frame -> is_Some (query_text t !! query_id) ->
  apply_frame query_id binds frame now t = Ok t' -> subs_ok t'.
Proof.
  intros Hok Hf Hq [-> Hk]%apply_frame_local; [|done]. apply set_aggregate_ok; [done|]. intros k Hs.
  destruct (decide (k.1 = (query_id, encode_binds binds))) as [->|Hne]; [done|].
  rewrite Hk in Hs by done. by apply (ok_rested _ Hok).
Qed.

(** What a frame leaves for its statistic. *)
Definition frame_answer (frame : AggregateFrame) (now : Z) (at_key : bytes -> option AggRow)
    (scalar : option (string * Z)) (groups : list AggRow) : Prop :=
  match af_result frame, af_group_key frame with
  | None, key => at_key (default SCALAR_KEY key) = None
  | Some json, Some key => at_key key = Some {| ag_values := af_group_values frame; ag_result := json; ag_at := now |}
  | Some json, None =>
      match from_str json with
      | Some (JArray rows) =>
          if af_full frame then
            scalar = None /\ groups = (fun el => {| ag_values := None; ag_result := el; ag_at := now |}) <$> rows
          else scalar = Some (json, now)
      | _ => scalar = Some (json, now)
      end
  end.

Lemma apply_frame_answer query_id binds sql frame now t t' :
  subs_ok t -> frame_ok frame -> query_text t !! query_id = Some sql ->
  apply_frame query_id binds frame now t = Ok t' ->
  frame_answer frame now (rested_at sql (encode_binds binds) t') (lookup_scalar sql binds t') (lookup_groups sql binds t').
Proof.
  intros Hok Hf Hq H. pose proof (apply_frame_ok _ _ _ _ _ _ Hok Hf ltac:(by eexists) H) as Hok'.
  pose proof (apply_frame_local _ _ _ _ _ _ Hf H) as [Et _].
  assert (query_id_of sql t' = Some query_id) as Hid by (apply query_id_of_eq; [done|]; by rewrite Et).
  rewrite lookup_scalar_at. unfold rested_at, lookup_groups, frame_answer. rewrite Hid. cbn [mbind option_bind].
  clear Et Hid Hok'. unfold apply_frame, is_json_array, replace_whole in H.
  destruct (af_result frame) as [json|] eqn:Er.
  2:{ injection H as <-. cbn. destruct (af_group_key frame); apply lookup_delete_eq. }
  destruct (af_group_key frame) as [key|]; [injection H as <-; apply lookup_insert_eq|].
  assert (forall u, u = upsert (query_id, encode_binds binds) SCALAR_KEY None json now t ->
    (fun row => (ag_result row, ag_at row)) <$> aggregate u !! (query_id, encode_binds binds, SCALAR_KEY) = Some (json, now))
    as Hscalar by (by intros u ->; cbn; rewrite lookup_insert_eq).
  destruct (from_str json) as [[rows|text]|] eqn:Ej;
    [|rewrite andb_false_r in H; injection H as <-; by apply Hscalar..].
  destruct (af_full frame); [|injection H as <-; by apply Hscalar]. injection H as <-.
  pose proof (Hf _ _ Er Ej) as Hn. rewrite rest_rows_lookup, decide_True by done. cbn [fst snd].
  rewrite not_elem_of_list_to_map_1 by apply positional_scalar. split; [done|].
  destruct (positional_sorted 0 rows now) as [HS HN]; [lia..|].
  destruct (group_rows_sorted (query_id, encode_binds binds)
    (rest_rows (query_id, encode_binds binds) 0 rows now (remove_stat (query_id, encode_binds binds) t))) as [HS' HN'].
  rewrite (sorted_by_key bytes_le _ (positional 0 rows now) HS' HS HN').
  - unfold positional. rewrite fmap_imap. clear. generalize 0. induction rows as [|el rows IH]; intros z; [done|].
    cbn. f_equal. etrans; [|exact (IH z)]. by apply imap_ext.
  - apply NoDup_Permutation; [by eapply NoDup_fmap_1..|]. intros [key row].
    rewrite elem_of_group_rows, rest_rows_lookup, decide_True by done. cbn [fst snd].
    rewrite <- elem_of_list_to_map by done. split; [by intros [_ ?]|]. intros Hin. split; [|done].
    intros ->. apply (positional_scalar 0 rows now). apply list_elem_of_fmap. by exists (SCALAR_KEY, row).
Qed.

(** C25. A computed answer outlives the subscription it came for: what a frame
    rests under its subscription's query and values is found under that query and
    those values after any further history of the subscriptions, their end and
    restarts included, a whole answer in its order; and the frame touches the answer of
    no other statistic. *)
Theorem answers_outlive_subscriptions ops t s e row frame now t1 t2 :
  subs_ok t -> book t !! s = Some e -> subscription t !! s = Some row -> frame_ok frame ->
  apply_frame (su_query row) (sp_binds (en_spec e)) frame now t = Ok t1 ->
  Forall op_ok ops -> run_ops ops t1 = Ok t2 ->
  let sql := sp_query (en_spec e) in let binds := sp_binds (en_spec e) in
  identity_of s t = Ok (Some (su_query row, binds)) /\
  frame_answer frame now (rested_at sql (encode_binds binds) t2)
    (lookup_scalar sql binds t2) (lookup_groups sql binds t2) /\
  forall sql' binds', Forall value_ok binds' -> (sql', binds') <> (sql, binds) ->
    lookup_scalar sql' binds' t2 = lookup_scalar sql' binds' t /\
    lookup_groups sql' binds' t2 = lookup_groups sql' binds' t.
Proof.
  intros Hok He Hs Hf H1 Hops H2 sql binds.
  destruct (subs_ok_entry _ _ _ Hok Hs) as (e' & He' & _ & _ & _ & Hq & Hb & _).
  rewrite He in He'. injection He' as <-.
  destruct (ok_binds _ Hok _ _ Hs) as (bs & [Hbs _] & Hb'). rewrite Hb in Hb'. injection Hb' as Hb'.
  pose proof (apply_frame_ok _ _ _ _ _ _ Hok Hf ltac:(by eexists) H1) as Hok1.
  pose proof (proj1 (run_ops_book _ _ _ Hok1 Hops H2)) as Hok2.
  pose proof (fun q b k => run_ops_rested_at _ _ _ q b k Hok1 Hok2 H2) as Hat.
  split_and!; [unfold identity_of; by rewrite Hs, Hb|..].
  - pose proof (apply_frame_answer _ _ _ _ _ _ _ Hok Hf Hq H1) as Ha.
    unfold frame_answer in *. rewrite lookup_scalar_at in *.
    rewrite (lookup_groups_at sql binds t2 t1) by (intros; apply Hat). rewrite !Hat.
    destruct (af_result frame), (af_group_key frame); try done; by rewrite Hat.
  - intros sql' binds' Hv Hne. destruct (apply_frame_local _ _ _ _ _ _ Hf H1) as [Et Hk].
    assert (forall key, rested_at sql' (encode_binds binds') t2 key = rested_at sql' (encode_binds binds') t key) as E.
    { intros key. rewrite Hat. unfold rested_at.
      replace (query_id_of sql' t1) with (query_id_of sql' t) by (by rewrite Et).
      destruct (query_id_of sql' t) as [id|] eqn:Eid; [|done]. cbn. apply Hk. cbn. intros [= -> Eb].
      apply query_id_of_Some in Eid. destruct Hne. unfold sql. f_equal; [congruence|].
      apply encode_binds_inj; [done|by unfold binds; rewrite Hb'|done]. }
    split; [rewrite !lookup_scalar_at; by rewrite E|by apply lookup_groups_at].
Qed.
End Frames.

(** ** What the cap evicts *)

Lemma elem_of_stats_of stat t : stat ∈ stats_of t <-> exists key, is_Some (aggregate t !! (stat, key)).
Proof.
  unfold stats_of. rewrite elem_of_remove_dups, list_elem_of_fmap. split.
  - intros ([[s key] row] & -> & H%elem_of_map_to_list). exists key. by eexists.
  - intros (key & row & H). exists ((stat, key), row). by rewrite elem_of_map_to_list.
Qed.

Lemma remove_stats_lookup vs t k :
  aggregate (foldl (fun t stat => remove_stat stat t) t vs) !! k = if decide (k.1 ∈ vs) then None else aggregate t !! k.
Proof.
  revert t. induction vs as [|v vs IH]; intros t; cbn [foldl]; [by rewrite decide_False by apply not_elem_of_nil|].
  rewrite IH. unfold remove_stat. cbn. destruct (decide (k.1 ∈ vs)) as [Hv|Hv].
  { by rewrite decide_True by (by right). }
  destruct (decide (k.1 = v)) as [<-|Hne].
  - rewrite decide_True by left. apply map_lookup_filter_None. right. intros x _ H. by destruct H.
  - rewrite decide_False by (by intros [?|?]%elem_of_cons). apply option_eq. intros row.
    rewrite map_lookup_filter_Some. naive_solver.
Qed.

(** The loop removes the first so many that nothing protects. *)
Lemma evict_takes over protected stats t :
  evict over protected stats t =
  foldl (fun t stat => remove_stat stat t) t (take over (filter (fun s => s ∉ protected) stats)).
Proof.
  revert over t. induction stats as [|s stats IH]; intros [|over] t; cbn [evict]; try done.
  rewrite filter_cons. case_decide as Hp.
  - rewrite decide_False by (intros H; by apply H). apply IH.
  - rewrite decide_True by done. apply IH.
Qed.

#[export] Instance older_total : Total older.
Proof. intros a b. unfold older. lia. Qed.
#[export] Instance older_trans : Transitive older.
Proof. intros a b c. unfold older. lia. Qed.

Lemma sorted_filter {A} (R : relation A) (Q : A -> Prop) `{forall x, Decision (Q x)} l :
  StronglySorted R l -> StronglySorted R (filter Q l).
Proof.
  induction 1 as [|a l Hl IH Ha]; [constructor|]. rewrite filter_cons. case_decide; [|done].
  constructor; [done|]. rewrite Forall_forall in *. intros x [_ Hx]%list_elem_of_filter. by apply Ha.
Qed.

Lemma sorted_take_drop {A} (R : relation A) n (l : list A) x y :
  StronglySorted R l -> x ∈ take n l -> y ∈ drop n l -> R x y.
Proof.
  intros HS. revert n. induction HS as [|a l Hl IH Ha]; intros [|n]; cbn; try (by intros ?%elem_of_nil).
  intros [->|Hx]%elem_of_cons Hy; [|by eapply IH]. rewrite Forall_forall in Ha. apply Ha.
  by eapply subseteq_drop.
Qed.

Lemma length_filters {A} (Q : A -> Prop) `{forall x, Decision (Q x)} (l : list A) :
  (length (filter Q l) + length (filter (fun x => ~ Q x) l) = length l)%nat.
Proof. induction l as [|a l IH]; [done|]. rewrite !filter_cons. repeat case_decide; cbn; (done || lia). Qed.

Lemma length_without `{EqDecision A} (vs l : list A) :
  NoDup vs -> NoDup l -> vs ⊆ l -> (length (filter (fun x => x ∉ vs) l) + length vs = length l)%nat.
Proof.
  intros Hv Hl Hsub. rewrite Nat.add_comm, <- length_app. apply Permutation_length, NoDup_Permutation; [|done|].
  - apply NoDup_app. split_and!; [done| |by apply NoDup_filter]. by intros x Hx [? _]%list_elem_of_filter.
  - intros x. rewrite elem_of_app, list_elem_of_filter. destruct (decide (x ∈ vs)); [|tauto]. split; auto.
Qed.

(** The statistics in the order the cap looks at them. *)
Definition by_age (t : SubTables) : list Stat :=
  (merge_sort older ((fun stat => (stat, recent t stat)) <$> stats_of t)).*1.

Definition no_newer (t : SubTables) (a b : Stat) : Prop := default i64_min (recent t a) <= default i64_min (recent t b).

Lemma by_age_Permutation t : by_age t ≡ₚ stats_of t.
Proof.
  unfold by_age. rewrite merge_sort_Permutation, <- list_fmap_compose. by rewrite list_fmap_id.
Qed.

Lemma by_age_sorted t : StronglySorted (no_newer t) (by_age t).
Proof.
  unfold by_age. assert (Forall (fun p => p.2 = recent t p.1)
    (merge_sort older ((fun stat => (stat, recent t stat)) <$> stats_of t))) as HF.
  { apply Forall_forall. intros p. rewrite merge_sort_Permutation. by intros (s & -> & _)%list_elem_of_fmap. }
  revert HF. generalize (StronglySorted_merge_sort older ((fun stat => (stat, recent t stat)) <$> stats_of t)).
  generalize (merge_sort older ((fun stat => (stat, recent t stat)) <$> stats_of t)). intros l HS.
  induction HS as [|p l Hl IH Hp]; intros HF; cbn; [constructor|]. apply Forall_cons in HF as [E HF].
  constructor; [by apply IH|]. apply Forall_forall. intros s (q & -> & Hq)%list_elem_of_fmap.
  rewrite Forall_forall in Hp, HF. specialize (Hp _ Hq). unfold older in Hp. unfold no_newer.
  by rewrite <- E, <- (HF _ Hq).
Qed.

(** What is evicted. *)
Definition victims (cap : nat) (protected : list Stat) (t : SubTables) : list Stat :=
  take (length (stats_of t) - cap) (filter (fun s => s ∉ (list_to_set protected : gset Stat)) (by_age t)).

Lemma enforce_cap_victims cap protected t :
  enforce_cap cap protected t = foldl (fun t stat => remove_stat stat t) t (victims cap protected t).
Proof.
  unfold enforce_cap, victims, by_age. rewrite length_fmap. case_decide as Hc; [|apply evict_takes].
  by replace (length (stats_of t) - cap)%nat with 0%nat by lia.
Qed.

Lemma stats_of_evicted cap protected t :
  stats_of (enforce_cap cap protected t) ≡ₚ filter (fun s => s ∉ victims cap protected t) (stats_of t).
Proof.
  apply NoDup_Permutation; [apply NoDup_remove_dups|apply NoDup_filter, NoDup_remove_dups|].
  intros s. rewrite list_elem_of_filter, !elem_of_stats_of. rewrite enforce_cap_victims.
  setoid_rewrite remove_stats_lookup. cbn. case_decide as Hv; [|tauto]. split; [by intros (? & [? ?])|tauto].
Qed.

(** The cap evicts whole statistics, never a protected one, never one newer
    than an unprotected one it keeps, and no more than it must: what is left is the
    cap's number of statistics, or all the protected ones where they are more. *)
Theorem cap_evicts_oldest cap protected t :
  let t' := enforce_cap cap protected t in
  let kept s := s ∈ stats_of t' in
  (forall k, kept k.1 -> aggregate t' !! k = aggregate t !! k) /\
  (forall s, s ∈ stats_of t -> s ∈ protected -> kept s) /\
  (forall s s', s ∈ stats_of t -> ~ kept s -> kept s' -> s' ∉ protected ->
     default i64_min (recent t s) <= default i64_min (recent t s')) /\
  length (stats_of t') =
    Nat.min (length (stats_of t)) (Nat.max cap (length (filter (fun s => s ∈ protected) (stats_of t)))).
Proof.
  intros t' kept. unfold kept, t'. set (vs := victims cap protected t).
  assert (forall s, s ∈ stats_of (enforce_cap cap protected t) <-> s ∈ stats_of t /\ s ∉ vs) as Hkept.
  { intros s. rewrite stats_of_evicted, list_elem_of_filter. tauto. }
  pose proof (by_age_Permutation t) as HP.
  assert (NoDup (filter (fun s => s ∉ (list_to_set protected : gset Stat)) (by_age t))) as HN.
  { apply NoDup_filter. rewrite HP. apply NoDup_remove_dups. }
  split_and!.
  - intros k [_ Hk]%Hkept. rewrite enforce_cap_victims, remove_stats_lookup. by rewrite decide_False.
  - intros s Hs Hp. apply Hkept. split; [done|]. intros Hv%subseteq_take.
    apply list_elem_of_filter in Hv as [Hv _]. by rewrite elem_of_list_to_set in Hv.
  - intros s s' Hs Hno [Hs' Hnv]%Hkept Hp.
    assert (s ∈ vs) as Hv by (destruct (decide (s ∈ vs)); [done|]; destruct Hno; by apply Hkept).
    eapply (sorted_take_drop (no_newer t)); [|exact Hv|]; [apply (sorted_filter _ _), by_age_sorted|].
    assert (s' ∈ filter (fun s => s ∉ (list_to_set protected : gset Stat)) (by_age t)) as Hin.
    { apply list_elem_of_filter. rewrite HP. split; [by rewrite elem_of_list_to_set|done]. }
    rewrite <- (take_drop (length (stats_of t) - cap)) in Hin. by apply elem_of_app in Hin as [?|?].
  - rewrite (Permutation_length (stats_of_evicted cap protected t)). fold vs.
    assert (vs ⊆ stats_of t) as Hsub.
    { intros s Hs%subseteq_take. apply list_elem_of_filter in Hs as [_ Hs]. by rewrite HP in Hs. }
    assert (NoDup vs) as HNv by (eapply sublist_NoDup; [exact HN|apply sublist_take]).
    pose proof (length_without vs (stats_of t) HNv ltac:(apply NoDup_remove_dups) Hsub) as Hl.
    pose proof (length_filters (fun s => s ∈ protected) (stats_of t)) as Hf.
    assert (length vs = Nat.min (length (stats_of t) - cap) (length (filter (fun s => s ∉ protected) (stats_of t)))) as Hv.
    { unfold vs, victims. rewrite length_take. f_equal. rewrite HP. f_equal.
      apply filter_ext_in. intros s _. by rewrite elem_of_list_to_set. }
    lia.
Qed.
