(* ===== verification/Watch.v ===== *)
(** Live subscriptions of a client: the handles an application holds, the shared wire
    subscriptions beneath them, what the connection does with the persisted records as
    they come and go (connetto-client/src/live.rs and lib.rs), and the eviction of
    replica rows no subscription wants any more.

    A method threads its state and may end in an error that keeps what was done before
    it. Whether each statement and each send succeeds is read from [faults]. *)

From Stdlib Require Import ZArith Lia Ascii String.
From stdpp Require Import base numbers option list gmap fin_maps strings pretty sorting.
From S2P Require Import Prelude Plan Caller Pending QueryText Subs Rested.

Open Scope Z_scope.

(** One op of a captured changeset: its table, the ordinals of the key's columns and
    the key. *)
Record ChangeOp := { ch_table : string; ch_ordinals : list nat; ch_key : list BindValue }.

(** What the client uses of SQLite and of the changeset format: the value of a condition
    on a row ([None] is SQL's unknown), a table's columns, the backing table of a split
    one, and the ops of a changeset ([None] inside when it is a patchset). *)
Class Store := {
  Row : Type;
  truth : string -> Row -> option bool;
  replica_columns : string -> list string;
  physical : string -> option string;
  parse_diffset : bytes -> option (option (list ChangeOp));
}.

Inductive SubFrame :=
  | FSubscribe (sub_id : string) (spec : SubscriptionSpec)
  | FUnsubscribe (sub_id : string).

Section Watch.
Context {FT : FloatText} {SP : Sqlparser} {ST : Store} {J : Json}.

(** [rows] is the replica by backing table, [pending] the unacknowledged changesets,
    [claimed] whether the cursor's coverage is recorded. [log] holds the frames of the
    present connection, which no method reads. *)
Record Conn := {
  tables : SubTables;
  rows : gmap string (list Row);
  pending : list bytes;
  connected : bool;
  claimed : bool;
  has_cursor : bool;
  open_snapshots : gset string;
  unfenced_computed : gset string;
  unfenced_count : Z;
  resyncing : gset string;
  clock : Z;
  faults : list bool;
  log : list SubFrame;
}.

Definition set_tables (v : SubTables) (c : Conn) : Conn :=
  {| tables := v; rows := rows c; pending := pending c; connected := connected c; claimed := claimed c;
     has_cursor := has_cursor c; open_snapshots := open_snapshots c; unfenced_computed := unfenced_computed c;
     unfenced_count := unfenced_count c; resyncing := resyncing c; clock := clock c; faults := faults c; log := log c |}.
Definition set_rows (v : gmap string (list Row)) (c : Conn) : Conn :=
  {| tables := tables c; rows := v; pending := pending c; connected := connected c; claimed := claimed c;
     has_cursor := has_cursor c; open_snapshots := open_snapshots c; unfenced_computed := unfenced_computed c;
     unfenced_count := unfenced_count c; resyncing := resyncing c; clock := clock c; faults := faults c; log := log c |}.
Definition set_connected (v : bool) (l : list SubFrame) (c : Conn) : Conn :=
  {| tables := tables c; rows := rows c; pending := pending c; connected := v; claimed := claimed c;
     has_cursor := has_cursor c; open_snapshots := open_snapshots c; unfenced_computed := unfenced_computed c;
     unfenced_count := unfenced_count c; resyncing := resyncing c; clock := clock c; faults := faults c; log := l |}.
Definition set_claimed (v : bool) (c : Conn) : Conn :=
  {| tables := tables c; rows := rows c; pending := pending c; connected := connected c; claimed := v;
     has_cursor := has_cursor c; open_snapshots := open_snapshots c; unfenced_computed := unfenced_computed c;
     unfenced_count := unfenced_count c; resyncing := resyncing c; clock := clock c; faults := faults c; log := log c |}.
(** The labels a connection awaits something for. *)
Definition set_owed (snaps computed : gset string) (count : Z) (resync : gset string) (c : Conn) : Conn :=
  {| tables := tables c; rows := rows c; pending := pending c; connected := connected c; claimed := claimed c;
     has_cursor := has_cursor c; open_snapshots := snaps; unfenced_computed := computed;
     unfenced_count := count; resyncing := resync; clock := clock c; faults := faults c; log := log c |}.
Definition set_clock (v : Z) (c : Conn) : Conn :=
  {| tables := tables c; rows := rows c; pending := pending c; connected := connected c; claimed := claimed c;
     has_cursor := has_cursor c; open_snapshots := open_snapshots c; unfenced_computed := unfenced_computed c;
     unfenced_count := unfenced_count c; resyncing := resyncing c; clock := v; faults := faults c; log := log c |}.
Definition set_faults (v : list bool) (c : Conn) : Conn :=
  {| tables := tables c; rows := rows c; pending := pending c; connected := connected c; claimed := claimed c;
     has_cursor := has_cursor c; open_snapshots := open_snapshots c; unfenced_computed := unfenced_computed c;
     unfenced_count := unfenced_count c; resyncing := resyncing c; clock := clock c; faults := v; log := log c |}.

(** ** The monad *)

Definition WM (S A : Type) : Type := S -> Result A ClientError * S.
Definition ret {S A} (a : A) : WM S A := fun c => (Ok a, c).
Definition throw {S A} (e : ClientError) : WM S A := fun c => (Err e, c).
Definition bind {S A B} (m : WM S A) (k : A -> WM S B) : WM S B :=
  fun c => match m c with (Ok a, c') => k a c' | (Err e, c') => (Err e, c') end.
Definition get {S} : WM S S := fun c => (Ok c, c).
Definition modify {S} (f : S -> S) : WM S unit := fun c => (Ok tt, f c).
Definition lift {S A} (r : Result A ClientError) : WM S A := fun c => (r, c).
End Watch.

Notation "x <~ m ;; k" := (bind m (fun x => k))
  (at level 100, m at next level, right associativity) : connetto_scope.
Notation "m ~> k" := (bind m (fun _ => k)) (at level 100, right associativity) : connetto_scope.

Fixpoint for_each {S A} (f : A -> WM S unit) (l : list A) : WM S unit :=
  match l with [] => ret tt | a :: l' => f a ~> for_each f l' end.

Section Connection.
Context {FT : FloatText} {SP : Sqlparser} {ST : Store} {J : Json}.
Abbreviation CM := (WM Conn).

(** The next of the list decides; past its end nothing fails. *)
Definition fault : CM bool := fun c =>
  match faults c with [] => (Ok false, c) | b :: l => (Ok b, set_faults l c) end.

(** One statement or transaction, and one read. *)
Definition statement (f : SubTables -> Result SubTables ClientError) : CM unit :=
  failed <~ fault;;
  if failed then throw EDatabase
  else c <~ get;; t <~ lift (f (tables c));; modify (set_tables t).
Definition update (f : SubTables -> SubTables) : CM unit := statement (fun t => Ok (f t)).
Definition query {A} (f : SubTables -> Result A ClientError) : CM A :=
  failed <~ fault;; if failed then throw EDatabase else c <~ get;; lift (f (tables c)).

(** The clock is a read of the replica. *)
Definition now_secs : CM Z := failed <~ fault;; if failed then throw EDatabase else c <~ get;; ret (clock c).

Definition send (frame : SubFrame) : CM unit :=
  c <~ get;;
  if connected c then
    failed <~ fault;;
    if failed then throw ETransport else modify (fun c => set_connected (connected c) (log c ++ [frame]) c)
  else throw ENotConnected.

(** ** Declaring, pinning, releasing *)

Definition invalidate_coverage : CM unit :=
  c <~ get;;
  if claimed c then
    (if has_cursor c then update id else ret tt) ~> modify (set_claimed false)
  else ret tt.

Definition send_subscribe (sub_id : string) (spec : SubscriptionSpec) : CM unit :=
  let computed := match coverage_of spec with Ok None => true | _ => false end in
  invalidate_coverage ~>
  modify (fun c =>
    if computed then
      set_owed (open_snapshots c) ({[sub_id]} ∪ unfenced_computed c)
        (if decide (sub_id ∈ unfenced_computed c) then unfenced_count c else unfenced_count c + 1) (resyncing c) c
    else set_owed ({[sub_id]} ∪ open_snapshots c) (unfenced_computed c) (unfenced_count c) (resyncing c) c) ~>
  send (FSubscribe sub_id spec).

Definition subscribe_spec_with_grace (sub_id : string) (spec : SubscriptionSpec) (grace : Z) : CM unit :=
  statement (remember sub_id spec grace) ~>
  c <~ get;;
  if connected c then send_subscribe sub_id spec else ret tt.

Definition pin_subscription (name sub_id : string) (spec : SubscriptionSpec) : CM unit :=
  previous <~ query (fun t => Ok (pinned_id name t));;
  (match previous with
   | Some p => if decide (p = sub_id) then ret tt else update (release_pin p)
   | None => ret tt
   end) ~>
  statement (remember sub_id spec 0) ~>
  statement (set_pin name sub_id).

Definition unpin_subscription (name : string) : CM unit :=
  found <~ query (fun t => Ok (pinned_id name t));;
  match found with
  | None => ret tt
  | Some sub_id => now <~ now_secs;; update (end_ now sub_id)
  end.

Definition release_subscription (sub_id : string) : CM unit := now <~ now_secs;; update (release now sub_id).
Definition hold_subscription (sub_id : string) : CM unit := update (hold sub_id).
Definition reanchor_subscriptions : CM unit := now <~ now_secs;; update (reanchor_ahead now).
Definition expired_subscriptions : CM (list string) :=
  reanchor_subscriptions ~> now <~ now_secs;; query (fun t => Ok (expired now t)).
Definition declared_records : CM (list Declared) := now <~ now_secs;; query (declared now).
Definition declared_subscriptions : CM (list (string * SubscriptionSpec)) :=
  reanchor_subscriptions ~> ds <~ declared_records;; ret ((fun d => (de_sub_id d, de_spec d)) <$> ds).

(** ** Eviction *)

Inductive Stale := StaleNothing | StaleTable (emptied : string) | StaleEverything.
Definition stale_covers (s : Stale) (table : string) : bool :=
  match s with
  | StaleNothing => false
  | StaleTable emptied => String.eqb emptied (to_lowercase table)
  | StaleEverything => true
  end.

(** The key of a pending op as a condition, where every column of it is known. *)
Fixpoint key_wheres (columns : list string) (key : list (nat * BindValue)) : Result (option (list string)) ClientError :=
  match key with
  | [] => Ok (Some [])
  | (position, value) :: key' =>
      match columns !! position with
      | None => Ok None
      | Some column =>
          literal <-? bind_literal value ;;
          rest <-? key_wheres columns key' ;;
          Ok ((fun l => (quote_ident column ++ " IS " ++ literal)%string :: l) <$> rest)
      end
  end.

Definition op_spare (op : ChangeOp) : Result (option (string * string)) ClientError :=
  let table := to_lowercase (ch_table op) in
  wheres <-? key_wheres (replica_columns table) (zip (ch_ordinals op) (ch_key op)) ;;
  Ok (match ch_ordinals op, wheres with
      | _ :: _, Some l => Some (table, ("(" ++ String.concat " AND " l ++ ")")%string)
      | _, _ => None
      end).

Definition changeset_spare (changeset : bytes) : Result (list (string * string)) ClientError :=
  match parse_diffset changeset with
  | None => Err EApply
  | Some None => Ok []
  | Some (Some ops) => l <-? try_map op_spare ops ;; Ok (omap id l)
  end.

(** Conditions per backing table. *)
Definition pending_spare : CM (list (string * string)) :=
  c <~ get;; l <~ lift (try_map changeset_spare (pending c));; ret (concat l).

(** SQL's [OR] over conditions. *)
Fixpoint any_true (l : list (option bool)) : option bool :=
  match l with
  | [] => Some false
  | o :: l' => match o, any_true l' with
               | Some true, _ | _, Some true => Some true
               | Some false, Some false => Some false
               | _, _ => None
               end
  end.

(** [DELETE FROM t WHERE NOT (..)] keeps a row unless the condition is false on it;
    with no condition at all every row goes. *)
Definition survives (kept : list string) (r : Row) : bool :=
  match kept with
  | [] => false
  | _ :: _ => match any_true ((fun c => truth c r) <$> kept) with Some false => false | _ => true end
  end.

(** The claims of the records that count: live, and not the one set aside. *)
Definition claims (exclude : option string) (ds : list Declared) : Result (list Coverage) ClientError :=
  l <-? try_map (fun d => coverage_of (de_spec d))
          (filter (fun d => ~ (exclude = Some (de_sub_id d) \/ de_live d = false)) ds) ;;
  Ok (omap id l).

Definition clauses (table : string) (cs : list Coverage) : list string :=
  omap (fun c => if decide (table ∈ co_tables c) then co_predicate c else None) cs.
Definition untouchable (table : string) (cs : list Coverage) : bool :=
  existsb (fun c => bool_decide (table ∈ co_tables c) && bool_decide (co_predicate c = None)) cs.

(** The statement for one table. *)
Definition clear_table (cs : list Coverage) (stale : Stale) (spare : list (string * string)) (table : string)
    (m : gmap string (list Row)) : gmap string (list Row) :=
  let truncated := stale_covers stale table in
  if untouchable table cs && negb truncated then m
  else
    let target := default table (physical table) in
    let kept := if truncated then []
                else clauses table cs ++ (filter (fun p => p.1 = to_lowercase target) spare).*2 in
    alter (filter (fun r => survives kept r = true)) target m.

Definition total_rows (m : gmap string (list Row)) : nat := map_fold (fun _ l n => length l + n)%nat 0%nat m.

(** The rows removed are counted. *)
Definition delete_uncovered (scope : gset string) (exclude : option string) (stale : Stale)
    (spare : list (string * string)) : CM nat :=
  ds <~ declared_records;;
  cs <~ lift (claims exclude ds);;
  failed <~ fault;;
  if failed then throw EDatabase
  else
    c <~ get;;
    let rows' := foldr (clear_table cs stale spare) (rows c) (elements scope) in
    modify (set_rows rows') ~> ret (total_rows (rows c) - total_rows rows')%nat.

(** Returning free pages to the file system changes no row. *)
Definition trim_replica : CM unit := update id.

Definition evict_subscription_rows (sub_id : string) : CM unit :=
  c <~ get;;
  if negb (connected c) then ret tt
  else
    ds <~ declared_records;;
    match find (fun d => String.eqb (de_sub_id d) sub_id) ds with
    | None => ret tt
    | Some d =>
        coverage <~ lift (coverage_of (de_spec d));;
        match coverage with
        | None => ret tt
        | Some coverage =>
            spare <~ pending_spare;;
            removed <~ delete_uncovered (co_tables coverage) (Some sub_id) StaleNothing spare;;
            if decide (0 < removed)%nat then trim_replica else ret tt
        end
    end.

(** The scope of the callable pass: every table some record names. *)
Definition tidy : CM unit :=
  c <~ get;;
  (if connected c then
     ds <~ declared_records;;
     l <~ lift (try_map (fun d => coverage_of (de_spec d)) ds);;
     spare <~ pending_spare;;
     delete_uncovered (⋃ (co_tables <$> omap id l)) None StaleNothing spare ~> ret tt
   else ret tt) ~>
  trim_replica.

(** ** The connection's part in a subscription's life *)

Definition replay_record (d : Declared) : CM unit :=
  if de_live d then send_subscribe (de_sub_id d) (de_spec d)
  else evict_subscription_rows (de_sub_id d) ~> update (forget (de_sub_id d)).

Definition replay_subscriptions : CM unit :=
  reanchor_subscriptions ~> ds <~ declared_records;; for_each replay_record ds.

Definition unsubscribe (sub_id : string) : CM unit :=
  c <~ get;;
  (if connected c then
     evict_subscription_rows sub_id ~> update (forget sub_id) ~> send (FUnsubscribe sub_id)
   else now <~ now_secs;; update (end_ now sub_id)) ~>
  modify (fun c => set_owed (open_snapshots c ∖ {[sub_id]}) (unfenced_computed c ∖ {[sub_id]}) (unfenced_count c)
                     (resyncing c ∖ {[sub_id]}) c).

(** ** Computed values *)

Definition rest_aggregate (cap : nat) (sub_id : string) (frame : AggregateFrame) : CM unit :=
  identity <~ query (identity_of sub_id);;
  match identity with
  | None => ret tt
  | Some (query_id, binds) =>
      now <~ now_secs;;
      protected <~ query live_identities;;
      statement (apply_frame query_id binds frame now) ~>
      match af_result frame with
      | Some _ => update (enforce_cap cap protected)
      | None => ret tt
      end
  end.

Definition clear_aggregate_resting (sub_id : string) : CM unit :=
  identity <~ query (identity_of sub_id);;
  match identity with
  | None => ret tt
  | Some (query_id, binds) => update (clear query_id binds)
  end.
End Connection.

(** ** Handles and the wire subscriptions they share *)

Record WireSub := { ws_id : string; ws_spec : SubscriptionSpec; ws_refs : Z }.
Definition set_refs (v : Z) (w : WireSub) : WireSub := {| ws_id := ws_id w; ws_spec := ws_spec w; ws_refs := v |}.

Inductive ShapeSource := Marker | Sql.

Section Live.
Context {FT : FloatText} {SP : Sqlparser} {ST : Store} {J : Json}.

(** A registered handle, with the wire subscriptions behind it: row handles may have
    any number, the others one. [reaped] holds the handles dropped since the last
    drain. What a handle shows is not part of the state. *)
Record State := {
  conn : Conn;
  registry : list (string * list string);
  values : list (string * string);
  computed : list (string * string);
  wire : list WireSub;
  reaped : list string;
  next_live : Z;
  next_wire : Z;
  local_tables : gset string;
}.

Definition set_conn (v : Conn) (s : State) : State :=
  {| conn := v; registry := registry s; values := values s; computed := computed s; wire := wire s;
     reaped := reaped s; next_live := next_live s; next_wire := next_wire s; local_tables := local_tables s |}.
Definition set_handles (r : list (string * list string)) (v c : list (string * string)) (s : State) : State :=
  {| conn := conn s; registry := r; values := v; computed := c; wire := wire s;
     reaped := reaped s; next_live := next_live s; next_wire := next_wire s; local_tables := local_tables s |}.
Definition set_wire (v : list WireSub) (s : State) : State :=
  {| conn := conn s; registry := registry s; values := values s; computed := computed s; wire := v;
     reaped := reaped s; next_live := next_live s; next_wire := next_wire s; local_tables := local_tables s |}.
Definition set_reaped (v : list string) (s : State) : State :=
  {| conn := conn s; registry := registry s; values := values s; computed := computed s; wire := wire s;
     reaped := v; next_live := next_live s; next_wire := next_wire s; local_tables := local_tables s |}.
Definition set_nexts (l w : Z) (s : State) : State :=
  {| conn := conn s; registry := registry s; values := values s; computed := computed s; wire := wire s;
     reaped := reaped s; next_live := l; next_wire := w; local_tables := local_tables s |}.

Abbreviation LM := (WM State).

Definition on_conn {A} (m : WM Conn A) : LM A := fun s => let '(r, c) := m (conn s) in (r, set_conn c s).

Definition WIRE_PREFIX : string := "wire-".

Definition attach_wire (spec : SubscriptionSpec) (grace : Z) : LM string :=
  s <~ get;;
  match list_find (fun w => spec_eq (ws_spec w) spec = true) (wire s) with
  | Some (i, existing) =>
      modify (set_wire (alter (fun w => set_refs (ws_refs w + 1) w) i (wire s))) ~>
      (if decide (ws_refs existing = 0) then on_conn (hold_subscription (ws_id existing)) else ret tt) ~>
      ret (ws_id existing)
  | None =>
      let wire_id := (WIRE_PREFIX ++ pretty (next_wire s))%string in
      modify (set_nexts (next_live s) (wrap_u64 (next_wire s + 1))) ~>
      on_conn (subscribe_spec_with_grace wire_id spec grace) ~>
      modify (fun s => set_wire (wire s ++ [{| ws_id := wire_id; ws_spec := spec; ws_refs := 1 |}]) s) ~>
      ret wire_id
  end.

Fixpoint attach_wires (specs : list SubscriptionSpec) (grace : Z) : LM (list string) :=
  match specs with
  | [] => ret []
  | spec :: specs' => w <~ attach_wire spec grace;; ws <~ attach_wires specs' grace;; ret (w :: ws)
  end.

Definition fresh_live : LM string := fun s =>
  (Ok ("live-" ++ pretty (next_live s))%string, set_nexts (wrap_u64 (next_live s + 1)) (next_wire s) s).

(** How many of a query's tables are the device's own. *)
Definition local_count (parsed : ParsedSubscription) (s : State) : nat := size (ps_tables parsed ∩ local_tables s).

(** [register_watch], from the rendered query on; the initial rows are one read. *)
Definition register_watch (sql : string) (binds : list BindValue) (grace : Z) : LM string :=
  parsed <~ lift (parse_subscription sql);;
  s <~ get;;
  match ps_shape parsed with
  | Aggregate => throw ESession
  | Grouped => if decide (local_count parsed s = size (ps_tables parsed)) then ret tt else throw ESession
  | Rows => ret tt
  end ~>
  sub_id <~ fresh_live;;
  on_conn (query (fun _ => Ok tt)) ~>
  wire_ids <~ attach_wires (wire_subscriptions (local_tables s) (ps_tables parsed)
                              (with_binds binds (spec_new sql))) grace;;
  modify (fun s => set_handles (registry s ++ [(sub_id, wire_ids)]) (values s) (computed s) s) ~>
  ret sub_id.

Definition require_scalar_shape (shape : ShapeSource) (parsed : ParsedSubscription) : Result unit ClientError :=
  match shape, ps_shape parsed with
  | Marker, _ | Sql, Aggregate => Ok tt
  | Sql, _ => Err ESession
  end.
Definition require_grouped_shape (shape : ShapeSource) (parsed : ParsedSubscription) : Result unit ClientError :=
  match shape, ps_shape parsed with
  | Marker, _ => match ps_group_columns parsed with [] => Err ESession | _ => Ok tt end
  | Sql, Grouped => Ok tt
  | Sql, _ => Err ESession
  end.

(** [watch_value_core], with the rested value a handle starts from. *)
Definition watch_value (sql : string) (binds : list BindValue) (shape : ShapeSource)
    : LM (string * option (string * Z)) :=
  parsed <~ lift (parse_subscription sql);;
  lift (require_scalar_shape shape parsed) ~>
  sub_id <~ fresh_live;;
  s <~ get;;
  if decide (0 < local_count parsed s)%nat then
    if decide (local_count parsed s = size (ps_tables parsed)) then
      lift (local_aggregate_probe sql binds) ~>
      on_conn now_secs ~>
      on_conn (query (fun _ => Ok tt)) ~>
      modify (fun s => set_handles (registry s ++ [(sub_id, [])]) (values s) (computed s) s) ~>
      ret (sub_id, None)
    else throw ESession
  else
    rested <~ on_conn (query (fun t => Ok (lookup_scalar sql binds t)));;
    wire_id <~ attach_wire (with_binds binds (spec_new sql)) 0;;
    modify (fun s => set_handles (registry s) (values s ++ [(sub_id, wire_id)]) (computed s) s) ~>
    ret (sub_id, rested).

(** The common part of [watch_groups_core] and [watch_rows], after their checks. *)
Definition watch_computed (sql : string) (binds : list BindValue) (parsed : ParsedSubscription)
    : LM (string * list AggRow) :=
  sub_id <~ fresh_live;;
  s <~ get;;
  if decide (0 < local_count parsed s)%nat then throw ESession
  else
    rested <~ on_conn (query (fun t => Ok (lookup_groups sql binds t)));;
    wire_id <~ attach_wire (with_binds binds (spec_new sql)) 0;;
    modify (fun s => set_handles (registry s) (values s) (computed s ++ [(sub_id, wire_id)]) s) ~>
    ret (sub_id, rested).
Definition watch_groups (sql : string) (binds : list BindValue) (shape : ShapeSource) : LM (string * list AggRow) :=
  parsed <~ lift (parse_subscription sql);;
  lift (require_grouped_shape shape parsed) ~>
  watch_computed sql binds parsed.
Definition watch_rows (sql : string) (binds : list BindValue) : LM (string * list AggRow) :=
  parsed <~ lift (parse_subscription sql);;
  match ps_shape parsed with Rows => watch_computed sql binds parsed | _ => throw ESession end.

Definition pin (name sql : string) (grace : Z) : LM unit :=
  let spec := spec_new sql in
  wire_id <~ attach_wire spec grace;;
  on_conn (pin_subscription name wire_id spec).
Definition unpin (name : string) : LM unit := on_conn (unpin_subscription name).

(** ** Dropping *)

(** [LiveHandleCore]'s [drop]. *)
Definition drop_handle (sub_id : string) (s : State) : State := set_reaped (reaped s ++ [sub_id]) s.

Definition release_wire (wire_id : string) (ws : list WireSub) (released : list string)
    : list WireSub * list string :=
  match list_find (fun w => ws_id w = wire_id) ws with
  | None => (ws, released)
  | Some (i, w) =>
      (alter (set_refs (ws_refs w - 1)) i ws,
       if decide (ws_refs w - 1 = 0) then released ++ [ws_id w] else released)
  end.

Definition release_wires (wire_ids : list string) (acc : list WireSub * list string) : list WireSub * list string :=
  foldl (fun acc w => release_wire w acc.1 acc.2) acc wire_ids.

(** [position(..)] then [remove]. *)
Definition take_entry {A} (sub_id : string) (l : list (string * A)) : option A * list (string * A) :=
  match list_find (fun e => e.1 = sub_id) l with
  | None => (None, l)
  | Some (i, e) => (Some e.2, delete i l)
  end.

(** One dropped handle: its entries go, and their wire subscriptions lose a sharer. *)
Definition reap_one (acc : State * list string) (sub_id : string) : State * list string :=
  let '(s, released) := acc in
  let '(r, registry') := take_entry sub_id (registry s) in
  let '(v, values') := take_entry sub_id (values s) in
  let '(c, computed') := take_entry sub_id (computed s) in
  let '(ws, released') :=
    release_wires (default [] r ++ option_list v ++ option_list c) (wire s, released) in
  (set_wire ws (set_handles registry' values' computed' s), released').

Definition retire_one (sub_id : string) : LM unit :=
  s <~ get;;
  if existsb (fun w => String.eqb (ws_id w) sub_id && (0 <? ws_refs w)) (wire s) then ret tt
  else
    on_conn (unsubscribe sub_id) ~>
    modify (fun s => set_wire (filter (fun w => ws_id w <> sub_id) (wire s)) s).

Definition drain_dropped : LM unit :=
  s <~ get;;
  let '(s', released) := foldl reap_one (set_reaped [] s, []) (reaped s) in
  modify (fun _ => s') ~>
  for_each (fun w => on_conn (release_subscription w)) released ~>
  s <~ get;;
  if negb (existsb (fun w => ws_refs w =? 0) (wire s)) then ret tt
  else if connected (conn s) then
    expired <~ on_conn expired_subscriptions;;
    for_each retire_one expired
  else ret tt.

(** ** Connections and restarts *)

(** A fresh transport, up to the replay of the declared set. *)
Definition attach : LM unit :=
  modify (fun s => set_conn (set_connected true [] (conn s)) s) ~> on_conn replay_subscriptions.

Definition disconnect (s : State) : State :=
  set_conn (set_connected false [] (set_owed ∅ ∅ 0 (resyncing (conn s)) (conn s))) s.

Fixpoint parse_u64 (acc : Z) (s : string) : option Z :=
  match s with
  | EmptyString => Some acc
  | String c s' =>
      let d := Z.of_nat (Ascii.nat_of_ascii c) - 48 in
      if decide (0 <= d <= 9) then
        if decide (acc * 10 + d <= u64_max) then parse_u64 (acc * 10 + d) s' else None
      else None
  end.

(** [str::parse::<u64>]: digits, after a plus sign or none. *)
Definition parse_number (text : string) : option Z :=
  match text with
  | EmptyString => None
  | String "+"%char rest => match rest with EmptyString => None | _ => parse_u64 0 rest end
  | digits => parse_u64 0 digits
  end.

(** The number behind the prefix. *)
Definition wire_number (id : string) : option Z :=
  if String.prefix WIRE_PREFIX id then parse_number (String.substring 5 (String.length id - 5) id) else None.

(** The next run: the replica is opened ([anchor_launch]) and the handles are built over
    what it holds; nothing is held yet. *)
Definition restart (c : Conn) (local : gset string) : State :=
  let opened := set_owed ∅ ∅ 0 ∅ (set_connected false [] (set_tables (anchor_launch (clock c) (tables c)) c)) in
  let '(r, c') := declared_subscriptions opened in
  let ds := match r with Ok ds => ds | Err _ => [] end in
  let max := foldr (fun d m => match wire_number d.1 with Some n => Some (default n (Z.max n <$> m)) | None => m end) None ds in
  {| conn := c'; registry := []; values := []; computed := [];
     wire := (fun d => {| ws_id := d.1; ws_spec := d.2; ws_refs := 0 |}) <$> ds;
     reaped := []; next_live := 1;
     next_wire := match max with Some m => Z.min u64_max (m + 1) | None => 1 end;
     local_tables := local |}.
End Live.
