(* ===== verification/Served.v ===== *)
(** A watch is served: what keeps the handles an application holds, the wire
    subscriptions they share, the persisted records and the server's view of them in
    step ([Watch]). *)

From Stdlib Require Import ZArith Lia Ascii String.
From stdpp Require Import base numbers option list gmap fin_maps strings pretty sorting.
From S2P Require Import Prelude Plan Caller Pending QueryText Subs Rested Watch.

Open Scope Z_scope.

(** ** A logic for methods: whatever the outcome, [P] holds of it *)

Definition wp {S A} (m : WM S A) (P : Result A ClientError -> S -> Prop) (s : S) : Prop := P (m s).1 (m s).2.

Lemma wp_bind {S A B} (m : WM S A) (k : A -> WM S B) P s :
  wp m (fun r s' => match r with Ok a => wp (k a) P s' | Err e => P (Err e) s' end) s -> wp (bind m k) P s.
Proof. unfold wp, bind. by destruct (m s) as [[a|e] s']. Qed.

Lemma wp_mono {S A} (m : WM S A) (P Q : Result A ClientError -> S -> Prop) s :
  (forall r s', P r s' -> Q r s') -> wp m P s -> wp m Q s.
Proof. unfold wp. auto. Qed.

Lemma wp_ret {S A} (a : A) (P : Result A ClientError -> S -> Prop) s : P (Ok a) s -> wp (ret a) P s.
Proof. done. Qed.
Lemma wp_throw {S A} e (P : Result A ClientError -> S -> Prop) s : P (Err e) s -> wp (throw e) P s.
Proof. done. Qed.
Lemma wp_get {S} (P : Result S ClientError -> S -> Prop) s : P (Ok s) s -> wp get P s.
Proof. done. Qed.
Lemma wp_modify {S} (f : S -> S) (P : Result unit ClientError -> S -> Prop) s : P (Ok tt) (f s) -> wp (modify f) P s.
Proof. done. Qed.
Lemma wp_lift {S A} (r : Result A ClientError) (P : Result A ClientError -> S -> Prop) s : P r s -> wp (lift r) P s.
Proof. done. Qed.

(** A loop keeps what each turn keeps, errors included. *)
Lemma wp_for_each {S A} (f : A -> WM S unit) l (I : S -> Prop) s :
  (forall a s, a ∈ l -> I s -> wp (f a) (fun _ s' => I s') s) -> I s -> wp (for_each f l) (fun _ s' => I s') s.
Proof.
  revert s. induction l as [|a l IH]; intros s Hf Hs; [exact Hs|]. cbn. apply wp_bind.
  eapply wp_mono; [|apply Hf; [left|done]]. intros [[]|e] s' Hs'; [|done].
  apply IH; [|done]. intros a' s0 Ha. apply Hf. by right.
Qed.

Section Served.
Context {FT : FloatText} {SP : Sqlparser} {ST : Store} {J : Json}.

(** ** What the connection's methods do when nothing fails *)

(** Nothing but replica rows and owed labels differs. *)
Definition same_core (c c' : Conn) : Prop :=
  tables c' = tables c /\ connected c' = connected c /\ log c' = log c /\ faults c' = faults c /\ clock c' = clock c.

#[global] Instance same_core_refl : Reflexive same_core.
Proof. by repeat split. Qed.
#[global] Instance same_core_trans : Transitive same_core.
Proof. intros a b c (?&?&?&?&?) (?&?&?&?&?). repeat split; congruence. Qed.

Lemma wp_fault (P : Result bool ClientError -> Conn -> Prop) c :
  faults c = [] -> P (Ok false) c -> wp fault P c.
Proof. unfold wp, fault. by intros ->. Qed.

Lemma wp_statement f (P : Result unit ClientError -> Conn -> Prop) c :
  faults c = [] ->
  match f (tables c) with Ok t => P (Ok tt) (set_tables t c) | Err e => P (Err e) c end -> wp (statement f) P c.
Proof. unfold wp, statement, fault, bind. intros ->. cbn. by destruct (f (tables c)). Qed.

Lemma wp_update f (P : Result unit ClientError -> Conn -> Prop) c :
  faults c = [] -> P (Ok tt) (set_tables (f (tables c)) c) -> wp (update f) P c.
Proof. intros Hf HP. by apply wp_statement. Qed.

Lemma wp_query {A} (f : SubTables -> Result A ClientError) P c :
  faults c = [] -> P (f (tables c)) c -> wp (query f) P c.
Proof. unfold wp, query, fault, bind. by intros ->. Qed.

Lemma wp_now P c : faults c = [] -> P (Ok (clock c)) c -> wp now_secs P c.
Proof. unfold wp, now_secs, fault, bind. by intros ->. Qed.

Lemma wp_send frame (P : Result unit ClientError -> Conn -> Prop) c :
  faults c = [] -> connected c = true -> P (Ok tt) (set_connected true (log c ++ [frame]) c) -> wp (send frame) P c.
Proof. unfold wp, send, fault, bind. cbn. intros Hf Hc. rewrite Hc. cbn. rewrite Hf. cbn. by rewrite Hc. Qed.

Lemma wp_declared P c :
  faults c = [] -> subs_ok (tables c) -> clock_ok (clock c) ->
  P (Ok (declare (clock c) <$> by_id (book (tables c)))) c -> wp declared_records P c.
Proof.
  intros Hf Hok Hk HP. apply wp_bind, wp_now; [done|]. apply wp_query; [done|]. by rewrite declared_book.
Qed.

(** Evictions only touch rows. *)
Lemma wp_delete_uncovered scope exclude stale spare c :
  faults c = [] -> wp (delete_uncovered scope exclude stale spare) (fun _ c' => same_core c c') c.
Proof.
  intros Hf. apply wp_bind, wp_bind, wp_now; [done|]. apply wp_query; [done|].
  destruct (declared (clock c) (tables c)); [|done]. apply wp_bind, wp_lift.
  destruct (claims exclude a); [|done]. apply wp_bind, wp_fault; [done|]. done.
Qed.

Lemma wp_evict sub_id c :
  faults c = [] -> wp (evict_subscription_rows sub_id) (fun _ c' => same_core c c') c.
Proof.
  intros Hf. apply wp_bind, wp_get. destruct (connected c); cbn [negb]; [|done].
  apply wp_bind, wp_bind, wp_now; [done|]. apply wp_query; [done|].
  destruct (declared (clock c) (tables c)) as [ds|]; [|done]. destruct (find _ ds); [|done].
  apply wp_bind, wp_lift. destruct (coverage_of _) as [[cov|]|]; [|done|done].
  apply wp_bind, wp_bind, wp_get, wp_bind, wp_lift. destruct (try_map changeset_spare (pending c)); [|done].
  apply wp_ret, wp_bind. eapply wp_mono; [|by apply wp_delete_uncovered].
  intros [n|e] c' Hc; [|done]. case_decide; [|done].
  pose proof Hc as (Ht & _ & _ & Hf' & _). apply wp_update; [congruence|]. by destruct Hc as (?&?&?&?&?).
Qed.

Lemma wp_send_subscribe sub_id spec c :
  faults c = [] -> connected c = true ->
  wp (send_subscribe sub_id spec) (fun r c' => r = Ok tt /\ exists c1, same_core c c1 /\
    c' = set_connected true (log c1 ++ [FSubscribe sub_id spec]) c1) c.
Proof.
  intros Hf Hc. apply wp_bind. unfold invalidate_coverage. apply wp_bind, wp_get.
  assert (forall c1, same_core c c1 -> wp (modify (fun c0 =>
     if match coverage_of spec with Ok None => true | _ => false end then
      set_owed (open_snapshots c0) ({[sub_id]} ∪ unfenced_computed c0)
        (if decide (sub_id ∈ unfenced_computed c0) then unfenced_count c0 else unfenced_count c0 + 1) (resyncing c0) c0
     else set_owed ({[sub_id]} ∪ open_snapshots c0) (unfenced_computed c0) (unfenced_count c0) (resyncing c0) c0) ~>
     send (FSubscribe sub_id spec)) (fun r c' => r = Ok tt /\ exists c1, same_core c c1 /\
    c' = set_connected true (log c1 ++ [FSubscribe sub_id spec]) c1) c1) as Hrest.
  { intros c1 Hc1. apply wp_bind, wp_modify. pose proof Hc1 as (_ & Hcc & _ & Hff & _).
    destruct (match coverage_of spec with Ok None => true | _ => false end);
      (apply wp_send; [by rewrite <- Hf|by rewrite <- Hc|]); (split; [done|]); eexists; (split; [|done]); exact Hc1. }
  destruct (claimed c); [|by apply Hrest]. apply wp_bind. destruct (has_cursor c).
  - apply wp_update; [done|]. apply wp_modify. by apply Hrest.
  - apply wp_ret, wp_modify. by apply Hrest.
Qed.

(** ** The invariant *)

(** The subscriptions declared on the present connection and not withdrawn. *)
Definition declared_on (l : list SubFrame) : gset string :=
  foldl (fun acc f => match f with FSubscribe s _ => {[s]} ∪ acc | FUnsubscribe s => acc ∖ {[s]} end) ∅ l.

Lemma declared_app l f : declared_on (l ++ [f]) = match f with FSubscribe s _ => {[s]} ∪ declared_on l | FUnsubscribe s => declared_on l ∖ {[s]} end.
Proof. unfold declared_on. by rewrite foldl_app. Qed.

(** Every wire subscription the registered handles refer to, with repetition. *)
Definition handle_wires (s : State) : list string := concat (registry s).*2 ++ (values s).*2 ++ (computed s).*2.

Definition cnt (id : string) (l : list string) : Z := Z.of_nat (length (filter (fun x => x = id) l)).

#[local] Arguments handle_wires : simpl never.
#[local] Arguments cnt : simpl never.

Definition numbered_id (n : Z) : string := (WIRE_PREFIX ++ pretty n)%string.

(** Handles, wire subscriptions, records and server agree: every wire subscription has
    its record, with its specification; it counts at least the handles registered on it
    and the references taken for a handle still to be registered ([extra]); and a
    connected server has been told of it. *)
Record in_step_with (extra : list string) (s : State) : Prop := {
  is_ok : subs_ok (tables (conn s));
  is_clock : clock_ok (clock (conn s));
  is_faults : faults (conn s) = [];
  is_nodup : NoDup (ws_id <$> wire s);
  is_next : 0 <= next_wire s;
  is_number : forall m, 0 <= m <= u64_max -> (is_Some (subscription (tables (conn s)) !! numbered_id m) \/
    numbered_id m ∈ ws_id <$> wire s) -> m < next_wire s;
  is_filed : forall w, w ∈ wire s -> spec_ok (ws_spec w) /\
    exists e, book (tables (conn s)) !! ws_id w = Some e /\ en_spec e = ws_spec w;
  is_refs : forall w, w ∈ wire s -> 0 <= ws_refs w /\ cnt (ws_id w) (handle_wires s ++ extra) <= ws_refs w;
  is_wires : forall id, id ∈ handle_wires s ++ extra -> id ∈ ws_id <$> wire s;
  is_served : connected (conn s) = true -> forall w, w ∈ wire s -> ws_id w ∈ declared_on (log (conn s));
}.
Definition in_step : State -> Prop := in_step_with [].

(** ** Lists of wire subscriptions *)

Lemma cnt_app id l k : cnt id (l ++ k) = cnt id l + cnt id k.
Proof. unfold cnt. rewrite filter_app, length_app. lia. Qed.

Lemma cnt_cons id x l : cnt id (x :: l) = (if decide (x = id) then 1 else 0) + cnt id l.
Proof. unfold cnt. rewrite filter_cons. case_decide; cbn; lia. Qed.

Lemma cnt_nil id : cnt id [] = 0.
Proof. done. Qed.

Lemma cnt_pos id l : 0 <= cnt id l /\ (0 < cnt id l <-> id ∈ l).
Proof.
  induction l as [|x l [H0 IH]]; [rewrite cnt_nil; split; [lia|]; split; [lia|by intros ?%elem_of_nil]|].
  rewrite cnt_cons, elem_of_cons. case_decide as E; split; try lia.
  - split; [by left|lia].
  - rewrite <- IH. split; [auto|]. intros [?|?]; [congruence|done].
Qed.

#[export] Instance cnt_perm id : Proper (Permutation ==> eq) (cnt id).
Proof. intros l k H. unfold cnt. by rewrite H. Qed.

(** Changing the entry at an index is changing the one with its id. *)
Definition at_id (id : string) (f : WireSub -> WireSub) (w : WireSub) : WireSub := if decide (ws_id w = id) then f w else w.

Lemma alter_at_id f i w ws :
  NoDup (ws_id <$> ws) -> ws !! i = Some w -> alter f i ws = at_id (ws_id w) f <$> ws.
Proof.
  revert i. induction ws as [|x ws IH]; intros i HN Hi; [done|]. cbn in HN. apply NoDup_cons in HN as [Hx HN].
  destruct i as [|i]; cbn in Hi |- *.
  - injection Hi as ->. unfold at_id at 1. rewrite decide_True by done. f_equal.
    rewrite <- (list_fmap_id ws) at 1. apply list_fmap_ext. intros j y Hj. unfold at_id.
    rewrite decide_False; [done|]. intros E. apply Hx. rewrite <- E. apply list_elem_of_fmap_2. by eapply list_elem_of_lookup_2.
  - unfold at_id at 1. rewrite decide_False; [f_equal; by apply IH|]. intros E. apply Hx. rewrite E.
    apply list_elem_of_fmap_2. by eapply list_elem_of_lookup_2.
Qed.

Lemma at_id_ids id f (ws : list WireSub) : (forall w, ws_id (f w) = ws_id w) -> ws_id <$> (at_id id f <$> ws) = ws_id <$> ws.
Proof.
  intros Hf. rewrite <- list_fmap_compose. apply list_fmap_ext. intros i w _. cbn. unfold at_id. case_decide; [apply Hf|done].
Qed.

Lemma elem_of_at_id id f (ws : list WireSub) w' : w' ∈ at_id id f <$> ws <-> exists w, w ∈ ws /\ w' = at_id id f w.
Proof. rewrite list_elem_of_fmap. naive_solver. Qed.

Lemma nodup_ids (ws : list WireSub) x y : NoDup (ws_id <$> ws) -> x ∈ ws -> y ∈ ws -> ws_id x = ws_id y -> x = y.
Proof.
  induction ws as [|a ws IH]; [by intros _ ?%elem_of_nil|]. cbn. intros [Ha HN]%NoDup_cons.
  intros [->|Hx]%elem_of_cons [->|Hy]%elem_of_cons E; [done| | |by apply IH]; destruct Ha.
  - rewrite E. by apply list_elem_of_fmap_2.
  - rewrite <- E. by apply list_elem_of_fmap_2.
Qed.

Lemma release_wire_spec id (ws : list WireSub) released :
  NoDup (ws_id <$> ws) -> (release_wire id ws released).1 = at_id id (fun w => set_refs (ws_refs w - 1) w) <$> ws.
Proof.
  intros HN. unfold release_wire. destruct (list_find _ ws) as [[i w]|] eqn:E.
  - apply list_find_Some in E as (Hi & <- & _). cbn. rewrite (alter_at_id _ i w ws HN Hi). apply list_fmap_ext.
    intros j x Hj. unfold at_id. case_decide as Hd; [|done]. unfold set_refs. do 2 f_equal.
    assert (x = w) as ->; [|done]. apply list_elem_of_lookup_2 in Hi, Hj.
    by apply (nodup_ids ws).
  - apply list_find_None in E. cbn. rewrite <- (list_fmap_id ws) at 1. apply list_fmap_ext. intros j x Hj.
    unfold at_id. rewrite decide_False; [done|]. rewrite Forall_forall in E. apply E. by eapply list_elem_of_lookup_2.
Qed.

(** ** Steps of the connection *)

Lemma wp_on_conn {A} (m : WM Conn A) P s : wp m (fun r c => P r (set_conn c s)) (conn s) -> wp (on_conn m) P s.
Proof. unfold wp, on_conn. by destruct (m (conn s)). Qed.

(** The connection may change in what the invariant does not read. *)
Lemma in_step_core extra s c : in_step_with extra s -> same_core (conn s) c -> in_step_with extra (set_conn c s).
Proof.
  intros [] (Ht & Hc & Hl & Hf & Hk). split; cbn; rewrite ?Ht, ?Hc, ?Hl, ?Hf, ?Hk; done.
Qed.

(** The tables may change, as long as the records of wire subscriptions keep their
    specification and no number runs ahead. *)
Lemma in_step_tables extra s t :
  in_step_with extra s -> subs_ok t ->
  (forall id e, book (tables (conn s)) !! id = Some e -> id ∈ ws_id <$> wire s ->
     exists e', book t !! id = Some e' /\ en_spec e' = en_spec e) ->
  (forall id, is_Some (subscription t !! id) -> is_Some (subscription (tables (conn s)) !! id) \/
     id ∈ ws_id <$> wire s) ->
  in_step_with extra (set_conn (set_tables t (conn s)) s).
Proof.
  intros [] Hok Hspec Hnum. split; cbn; try done.
  - intros m Hm [[H|H]%Hnum|H]; auto.
  - intros w Hw. destruct (is_filed0 w Hw) as (Hs & e & He & E). split; [done|].
    destruct (Hspec _ _ He) as (e' & He' & E'); [by apply list_elem_of_fmap_2|]. exists e'. split; [done|congruence].
Qed.

(** Statements that neither add nor drop a record. *)
Definition gentle (op : SubOp) : Prop := match op with ORemember _ _ _ | OForget _ => False | _ => True end.

Lemma book_op_gentle op b id :
  gentle op -> (book_op op b !! id = None <-> b !! id = None) /\
  forall e, b !! id = Some e -> exists e', book_op op b !! id = Some e' /\ en_spec e' = en_spec e.
Proof.
  intros Hg. assert (forall f s, (forall e, en_spec (f e) = en_spec e) ->
    (alter f s b !! id = None <-> b !! id = None) /\
    forall e, b !! id = Some e -> exists e', alter f s b !! id = Some e' /\ en_spec e' = en_spec e) as Halter.
  { intros f s Hf. split; [apply lookup_alter_None|]. intros e He. destruct (decide (id = s)) as [->|Hne].
    - exists (f e). by rewrite lookup_alter_eq, He.
    - exists e. by rewrite lookup_alter_ne. }
  assert (forall f, (forall e, en_spec (f e) = en_spec e) -> ((f <$> b) !! id = None <-> b !! id = None) /\
    forall e, b !! id = Some e -> exists e', (f <$> b) !! id = Some e' /\ en_spec e' = en_spec e) as Hfmap.
  { intros f Hf. rewrite lookup_fmap, fmap_None. split; [done|]. intros e ->. by exists (f e). }
  destruct op; try done; cbn [book_op]; [apply Halter; done..|apply Hfmap|apply Hfmap]; intros e;
    unfold entry_anchored, entry_reanchored; repeat case_match; done.
Qed.

Lemma gentle_step extra s op t :
  in_step_with extra s -> gentle op -> op_ok op -> run_op op (tables (conn s)) = Ok t ->
  in_step_with extra (set_conn (set_tables t (conn s)) s).
Proof.
  intros Hs Hg Hop H. pose proof (is_ok _ _ Hs) as Hok. pose proof (run_op_in_order _ _ _ Hok Hop H) as Hok'.
  pose proof (run_op_book _ _ _ Hok Hop H) as Hb. apply in_step_tables; [done|done|..].
  - intros id e He _. rewrite Hb. by apply book_op_gentle.
  - intros id Hid. left. apply not_eq_None_Some. apply not_eq_None_Some in Hid. contradict Hid.
    apply book_None; [done|]. rewrite Hb. apply book_op_gentle; [done|]. by apply book_None.
Qed.

(** A record that belongs to no wire subscription may go. *)
Lemma forget_step extra s id :
  in_step_with extra s -> id ∉ ws_id <$> wire s ->
  in_step_with extra (set_conn (set_tables (forget id (tables (conn s))) (conn s)) s).
Proof.
  intros Hs Hid. pose proof (is_ok _ _ Hs) as Hok. apply in_step_tables; [done|by apply forget_in_order|..].
  - intros id' e He Hin. rewrite forget_book by done. exists e. by rewrite lookup_delete_ne by congruence.
  - cbn. intros id' [r [_ H]%lookup_delete_Some]. left. by eexists.
Qed.

(** Telling the server of one more subscription. *)
Lemma subscribe_step extra s id spec :
  in_step_with extra s ->
  in_step_with extra (set_conn (set_connected true (log (conn s) ++ [FSubscribe id spec]) (conn s)) s) \/ connected (conn s) = false.
Proof.
  intros []. destruct (connected (conn s)) eqn:Hc; [left|by right]. split; cbn; try done.
  intros _ w Hw. rewrite declared_app. set_solver.
Qed.

(** ** Handles *)

(** What a step leaves alone besides the invariant. *)
Definition same_handles (s s' : State) : Prop :=
  registry s' = registry s /\ values s' = values s /\ computed s' = computed s /\
  local_tables s' = local_tables s /\ handle_wires s' = handle_wires s.

Lemma in_step_weaken extra extra' s :
  in_step_with extra s -> (forall id, cnt id extra' <= cnt id extra) -> in_step_with extra' s.
Proof.
  intros [] Hle. split; try done.
  - intros w Hw. destruct (is_refs0 w Hw) as [? Hc]. split; [done|]. rewrite cnt_app in *.
    specialize (Hle (ws_id w)). lia.
  - intros id Hid. apply is_wires0. apply cnt_pos. apply cnt_pos in Hid. rewrite cnt_app in *.
    specialize (Hle id). lia.
Qed.

Lemma numbered_id_inj m n : numbered_id m = numbered_id n -> m = n.
Proof. unfold numbered_id. intros H. apply (inj (String.append WIRE_PREFIX)) in H. by apply (inj pretty) in H. Qed.

(** One more sharer of a wire subscription there is. *)
Lemma share_step extra s i w :
  in_step_with extra s -> wire s !! i = Some w ->
  in_step_with (ws_id w :: extra) (set_wire (alter (fun w => set_refs (ws_refs w + 1) w) i (wire s)) s).
Proof.
  intros [] Hi. rewrite (alter_at_id _ i w) by done.
  assert (Hw : w ∈ wire s) by (by eapply list_elem_of_lookup_2).
  split; cbn; rewrite ?at_id_ids by done; try done.
  - intros x (y & Hy & ->)%elem_of_at_id. unfold at_id. case_decide; exact (is_filed0 y Hy).
  - intros x (y & Hy & ->)%elem_of_at_id. destruct (is_refs0 y Hy) as [H0 Hc].
    change (handle_wires (set_wire _ s)) with (handle_wires s).
    unfold at_id. case_decide as E; cbn [ws_id ws_refs set_refs]; rewrite !cnt_app, cnt_cons in *; case_decide; try congruence; lia.
  - intros id Hid. change (handle_wires (set_wire _ s)) with (handle_wires s) in Hid.
    apply elem_of_app in Hid as [H|[->|H]%elem_of_cons];
      [apply is_wires0, elem_of_app; by left|by apply list_elem_of_fmap_2|apply is_wires0, elem_of_app; by right].
  - intros Hc x (y & Hy & ->)%elem_of_at_id. unfold at_id. case_decide; exact (is_served0 Hc y Hy).
Qed.

(** A new wire subscription: recorded, sent when there is a server, then counted. *)
Lemma fresh_step extra s spec t c1 :
  in_step_with extra s -> spec_ok spec -> next_wire s < u64_max ->
  subs_ok t -> book t = book_remember (numbered_id (next_wire s)) spec c1 (book (tables (conn s))) ->
  forall c, tables c = t -> faults c = [] -> clock c = clock (conn s) -> connected c = connected (conn s) ->
    log c = (if connected (conn s) then log (conn s) ++ [FSubscribe (numbered_id (next_wire s)) spec] else log (conn s)) ->
  in_step_with (numbered_id (next_wire s) :: extra)
    (set_wire (wire s ++ [{| ws_id := numbered_id (next_wire s); ws_spec := spec; ws_refs := 1 |}])
       (set_conn c (set_nexts (next_live s) (wrap_u64 (next_wire s + 1)) s))).
Proof.
  intros [] Hspec Hmax Hok Hb c Ht Hf Hk Hc Hl. set (id := numbered_id (next_wire s)) in *.
  assert (id ∉ ws_id <$> wire s) as Hnew.
  { intros H. specialize (is_number0 (next_wire s) ltac:(lia) (or_intror H)). lia. }
  assert (forall x, x ∈ wire s -> ws_id x <> id) as Hne.
  { intros x Hx <-. apply Hnew. by apply list_elem_of_fmap_2. }
  assert (cnt id (handle_wires s ++ extra) = 0) as Hcnt.
  { destruct (cnt_pos id (handle_wires s ++ extra)) as [H0 [H1 _]]. destruct (decide (0 < cnt id (handle_wires s ++ extra))); [|lia].
    destruct Hnew. by apply is_wires0, H1. }
  assert (wrap_u64 (next_wire s + 1) = next_wire s + 1) as Hwrap by (apply wrap_u64_small; unfold in_u64; lia).
  split; cbn; rewrite ?Hwrap, ?Ht, ?Hf, ?Hk, ?Hc; try done; rewrite ?fmap_app; cbn.
  - apply NoDup_app. split_and!; [done| |apply NoDup_singleton]. intros x Hx ->%list_elem_of_singleton. done.
  - lia.
  - intros m Hm [H|H].
    + apply not_eq_None_Some in H. rewrite <- (book_None t) in H by done. rewrite Hb in H. unfold book_remember in H.
      destruct (decide (numbered_id m = id)) as [E|E]; [apply numbered_id_inj in E; lia|].
      rewrite lookup_insert_ne in H by done. rewrite (book_None _ _ is_ok0) in H.
      apply not_eq_None_Some in H. specialize (is_number0 m Hm (or_introl H)). lia.
    + apply elem_of_app in H as [H|H%list_elem_of_singleton].
      * specialize (is_number0 m Hm (or_intror H)). lia.
      * apply numbered_id_inj in H. lia.
  - intros x [Hx| ->%list_elem_of_singleton]%elem_of_app; rewrite Hb; unfold book_remember.
    + rewrite lookup_insert_ne by (by apply not_eq_sym, Hne). by apply is_filed0.
    + cbn. split; [done|]. rewrite lookup_insert_eq. eexists. by split.
  - change (handle_wires (set_wire _ _)) with (handle_wires s).
    intros x [Hx| ->%list_elem_of_singleton]%elem_of_app.
    + destruct (is_refs0 x Hx) as [? Hx']. split; [done|]. rewrite !cnt_app, cnt_cons in *.
      rewrite decide_False by (by apply not_eq_sym, Hne). lia.
    + cbn. split; [lia|]. rewrite !cnt_app, cnt_cons in *. rewrite decide_True by done. lia.
  - change (handle_wires (set_wire _ _)) with (handle_wires s). intros x Hx. apply elem_of_app.
    apply elem_of_app in Hx as [H|[->|H]%elem_of_cons]; [left|right; by left|left];
      apply is_wires0, elem_of_app; auto.
  - intros Hcc x [Hx| ->%list_elem_of_singleton]%elem_of_app; rewrite Hl, Hcc, declared_app; cbn; [|set_solver].
    specialize (is_served0 Hcc x Hx). set_solver.
Qed.

(** What a method that may take a number leaves behind. *)
Definition advances (s s' : State) : Prop := same_handles s s' /\ next_wire s' <= next_wire s + 1.

Lemma wp_subscribe id spec grace c :
  faults c = [] -> subs_ok (tables c) -> spec_ok spec -> 0 <= grace ->
  wp (subscribe_spec_with_grace id spec grace) (fun r c' => r = Ok tt /\
    subs_ok (tables c') /\ book (tables c') = book_remember id spec grace (book (tables c)) /\
    faults c' = [] /\ clock c' = clock c /\ connected c' = connected c /\
    log c' = (if connected c then log c ++ [FSubscribe id spec] else log c)) c.
Proof.
  intros Hf Hok Hspec Hg. apply wp_bind, wp_statement; [done|].
  destruct (remember_total id spec grace (tables c) Hspec) as [t Ht]. rewrite Ht.
  pose proof (remember_ok _ _ _ _ _ Hok Hspec Hg Ht) as Hok'. pose proof (remember_book _ _ _ _ _ Hok Hspec Ht) as Hb.
  apply wp_bind, wp_get. cbn [connected set_tables]. destruct (connected c) eqn:Hc; [|apply wp_ret; by cbn].
  eapply wp_mono; [|by apply wp_send_subscribe].
  intros r c' (-> & c1 & (E1 & E2 & E3 & E4 & E5) & ->). cbn in *. by rewrite E1, E3, E4, E5.
Qed.

Lemma wp_attach_wire extra spec grace s :
  in_step_with extra s -> spec_ok spec -> 0 <= grace -> next_wire s < u64_max ->
  wp (attach_wire spec grace) (fun r s' => advances s s' /\
    exists id w, r = Ok id /\ in_step_with (id :: extra) s' /\
      w ∈ wire s' /\ ws_id w = id /\ (ws_spec w = spec \/ spec_eq (ws_spec w) spec = true)) s.
Proof.
  intros Hs Hspec Hg Hmax. apply wp_bind, wp_get. destruct (list_find _ (wire s)) as [[i w]|] eqn:Efind.
  - apply list_find_Some in Efind as (Hi & Heq & _). apply wp_bind, wp_modify, wp_bind.
    pose proof (share_step _ _ _ _ Hs Hi) as Hshared. set (s1 := set_wire _ s) in *.
    assert (exists w', w' ∈ wire s1 /\ ws_id w' = ws_id w /\ ws_spec w' = ws_spec w) as (w' & Hw' & E1 & E2).
    { exists (set_refs (ws_refs w + 1) w). split; [|done]. cbn. apply list_elem_of_lookup. exists i.
      by rewrite list_lookup_alter_eq, Hi. }
    assert (advances s s1) as Hadv by (repeat split; cbn; lia).
    case_decide.
    + apply wp_on_conn. pose proof (is_faults _ _ Hshared) as Hf. apply wp_update; [done|].
      apply wp_ret. split; [done|]. exists (ws_id w), w'. split_and!; [done| |done|done|right; by rewrite E2].
      by eapply (gentle_step _ s1 (OHold (ws_id w))).
    + apply wp_ret, wp_ret. split; [done|]. exists (ws_id w), w'. split_and!; [done..|right; by rewrite E2].
  - apply wp_bind, wp_modify, wp_bind, wp_on_conn. cbn [conn set_nexts].
    pose proof (is_faults _ _ Hs) as Hf. pose proof (is_ok _ _ Hs) as Hok.
    eapply wp_mono; [|by apply wp_subscribe]. intros r c (-> & Hok' & Hb & Hf' & Hk & Hc & Hl).
    apply wp_bind, wp_modify, wp_ret. split.
    { repeat split; cbn. assert (0 <= next_wire s) by apply (is_next _ _ Hs).
      rewrite wrap_u64_small; [lia|]. unfold in_u64. lia. }
    eexists _, _. split; [done|]. split; [exact (fresh_step extra s spec (tables c) grace Hs Hspec Hmax Hok' Hb c eq_refl Hf' Hk Hc Hl)|].
    split; [cbn; apply elem_of_app; right; by apply list_elem_of_singleton|]. by auto.
Qed.

Lemma wp_attach_wires extra specs grace s :
  in_step_with extra s -> Forall spec_ok specs -> 0 <= grace ->
  next_wire s + Z.of_nat (length specs) <= u64_max ->
  wp (attach_wires specs grace) (fun r s' => same_handles s s' /\
    exists ids, in_step_with (ids ++ extra) s' /\ r = Ok ids) s.
Proof.
  intros Hs Hspecs Hg. revert extra s Hs. induction Hspecs as [|spec specs Hspec Hspecs IH]; intros extra s Hs Hmax.
  { apply wp_ret. split; [done|]. by exists []. }
  cbn [length] in Hmax. apply wp_bind. eapply wp_mono; [|apply wp_attach_wire; [done..|lia]].
  intros r s1 ([Hh Hn] & id & w & -> & Hs1 & _). apply wp_bind.
  eapply wp_mono; [|apply (IH (id :: extra)); [done|lia]].
  intros r s2 (Hh2 & ids & Hs2 & ->). apply wp_ret. split.
  { destruct Hh as (?&?&?&?&?), Hh2 as (?&?&?&?&?). repeat split; congruence. }
  exists (id :: ids). split; [|done]. eapply in_step_weaken; [exact Hs2|]. intros x.
  cbn. rewrite cnt_cons, !cnt_app, cnt_cons. lia.
Qed.

(** Registering a handle turns the references taken for it into its own. *)
Lemma register_step s r v c extra :
  in_step_with extra s -> concat r.*2 ++ v.*2 ++ c.*2 ≡ₚ handle_wires s ++ extra ->
  in_step (set_handles r v c s).
Proof.
  intros [] Hp. assert (handle_wires (set_handles r v c s) ≡ₚ handle_wires s ++ extra) as E by done.
  split; cbn; try done.
  - intros w Hw. rewrite app_nil_r, E. by apply is_refs0.
  - intros id. rewrite app_nil_r, E. by apply is_wires0.
Qed.

Lemma spec_new_ok sql binds :
  Forall value_ok binds -> Z.of_nat (length binds) <= i32_max -> spec_ok (with_binds binds (spec_new sql)).
Proof. intros. split; [done|]. by split. Qed.

Lemma wire_subscriptions_ok local tabs spec :
  spec_ok spec -> Forall spec_ok (wire_subscriptions local tabs spec) /\
  (length (wire_subscriptions local tabs spec) <= S (size tabs))%nat.
Proof.
  intros Hspec. unfold wire_subscriptions. case_decide.
  { split; [by apply Forall_singleton|cbn; lia]. }
  case_decide; [split; [constructor|cbn; lia]|]. split.
  - apply Forall_fmap, Forall_true. intros x. split; [done|]. by split.
  - rewrite length_fmap. rewrite (Permutation_length (merge_sort_Permutation _ _)).
    change (length (elements (tabs ∖ local))) with (size (tabs ∖ local)).
    pose proof (subseteq_size (tabs ∖ local) tabs ltac:(set_solver)). lia.
Qed.

(** Numbers for the wire subscriptions of a query are left. *)
Definition room (sql : string) (s : State) : Prop :=
  forall parsed, parse_subscription sql = Ok parsed -> next_wire s + Z.of_nat (S (size (ps_tables parsed))) <= u64_max.

Definition binds_ok (binds : list BindValue) : Prop := Forall value_ok binds /\ Z.of_nat (length binds) <= i32_max.

Lemma wp_fresh_live extra P s :
  in_step_with extra s ->
  (forall id s', in_step_with extra s' -> same_handles s s' -> next_wire s' = next_wire s -> P (Ok id) s') ->
  wp fresh_live P s.
Proof. intros [] HP. apply HP; [by split|by repeat split|done]. Qed.

Lemma wp_peek {A} (f : SubTables -> Result A ClientError) extra P s :
  in_step_with extra s -> P (f (tables (conn s))) (set_conn (conn s) s) -> wp (on_conn (query f)) P s.
Proof. intros Hs HP. apply wp_on_conn, wp_query; [apply (is_faults _ _ Hs)|done]. Qed.

Lemma set_conn_id s : set_conn (conn s) s = s.
Proof. by destruct s. Qed.

Lemma register_watch_step sql binds grace s :
  in_step s -> binds_ok binds -> 0 <= grace -> room sql s ->
  wp (register_watch sql binds grace) (fun _ s' => in_step s') s.
Proof.
  intros Hs [Hb Hl] Hg Hroom. apply wp_bind, wp_lift. destruct (parse_subscription sql) as [parsed|] eqn:Ep; [|done].
  apply wp_bind, wp_get, wp_bind.
  destruct (wire_subscriptions_ok (local_tables s) (ps_tables parsed) (with_binds binds (spec_new sql)))
    as [Hspecs Hlen]; [by apply spec_new_ok|].
  assert (wp (sub_id <~ fresh_live;; on_conn (query (fun _ => Ok tt)) ~>
    wire_ids <~ attach_wires (wire_subscriptions (local_tables s) (ps_tables parsed) (with_binds binds (spec_new sql))) grace;;
    modify (fun s => set_handles (registry s ++ [(sub_id, wire_ids)]) (values s) (computed s) s) ~> ret sub_id)
    (fun _ s' => in_step s') s) as Hrest.
  { apply wp_bind, (wp_fresh_live []); [done|]. intros id s1 Hs1 Hh1 Hn1. eapply wp_bind, wp_peek; [done|].
    rewrite set_conn_id. apply wp_bind. eapply wp_mono; [|apply wp_attach_wires; [done..|]].
    - intros r s2 (Hh2 & ids & Hs2 & ->). apply wp_bind, wp_modify, wp_ret. eapply register_step; [exact Hs2|].
      unfold handle_wires. rewrite fmap_app, concat_app. cbn. rewrite !app_nil_r. solve_Permutation.
    - specialize (Hroom _ Ep). rewrite Hn1. lia. }
  destruct (ps_shape parsed); [exact Hrest|done|]. case_decide; [exact Hrest|done].
Qed.

Lemma attach_value_step {A} spec s (a : A) (k : string -> State -> State) :
  in_step s -> spec_ok spec -> next_wire s < u64_max ->
  (forall id s', in_step_with [id] s' -> in_step (k id s')) ->
  wp (wire_id <~ attach_wire spec 0;; modify (k wire_id) ~> ret a) (fun _ s' => in_step s') s.
Proof.
  intros Hs Hspec Hn Hk. apply wp_bind. eapply wp_mono; [|by apply wp_attach_wire].
  intros r s1 (_ & id & w & -> & Hs1 & _). apply wp_bind, wp_modify, wp_ret. by apply Hk.
Qed.

Lemma room_one sql s parsed : room sql s -> parse_subscription sql = Ok parsed -> next_wire s < u64_max.
Proof. intros H E. specialize (H _ E). lia. Qed.

Lemma watch_value_step sql binds shape s :
  in_step s -> binds_ok binds -> room sql s -> wp (watch_value sql binds shape) (fun _ s' => in_step s') s.
Proof.
  intros Hs [Hb Hl] Hroom. apply wp_bind, wp_lift. destruct (parse_subscription sql) as [parsed|] eqn:Ep; [|done].
  apply wp_bind, wp_lift. destruct (require_scalar_shape shape parsed); [|done].
  apply wp_bind, (wp_fresh_live []); [done|]. intros id s1 Hs1 Hh1 Hn1. apply wp_bind, wp_get. case_decide.
  - case_decide; [|done]. apply wp_bind, wp_lift. destruct (local_aggregate_probe sql binds); [|done].
    apply wp_bind, wp_on_conn, wp_now; [apply (is_faults _ _ Hs1)|]. rewrite set_conn_id.
    eapply wp_bind, wp_peek; [done|]. rewrite set_conn_id. apply wp_bind, wp_modify, wp_ret.
    eapply register_step; [exact Hs1|]. unfold handle_wires. rewrite fmap_app, concat_app. cbn. by rewrite !app_nil_r.
  - eapply wp_bind, wp_peek; [done|]. rewrite set_conn_id.
    apply attach_value_step; [done|by apply spec_new_ok|rewrite Hn1; by eapply room_one|].
    intros wid s2 Hs2. eapply register_step; [exact Hs2|]. unfold handle_wires. rewrite fmap_app. cbn. solve_Permutation.
Qed.

Lemma watch_computed_step sql binds parsed s :
  in_step s -> binds_ok binds -> next_wire s < u64_max ->
  wp (watch_computed sql binds parsed) (fun _ s' => in_step s') s.
Proof.
  intros Hs [Hb Hl] Hroom. apply wp_bind, (wp_fresh_live []); [done|]. intros id s1 Hs1 Hh1 Hn1.
  apply wp_bind, wp_get. case_decide; [done|]. eapply wp_bind, wp_peek; [done|]. rewrite set_conn_id.
  apply attach_value_step; [done|by apply spec_new_ok|by rewrite Hn1|].
  intros wid s2 Hs2. eapply register_step; [exact Hs2|]. unfold handle_wires. rewrite fmap_app. cbn. solve_Permutation.
Qed.

Lemma watch_groups_step sql binds shape s :
  in_step s -> binds_ok binds -> room sql s -> wp (watch_groups sql binds shape) (fun _ s' => in_step s') s.
Proof.
  intros Hs Hb Hroom. apply wp_bind, wp_lift. destruct (parse_subscription sql) as [parsed|] eqn:Ep; [|done].
  apply wp_bind, wp_lift. destruct (require_grouped_shape shape parsed); [|done].
  apply watch_computed_step; [done..|]. by eapply room_one.
Qed.

Lemma watch_rows_step sql binds s :
  in_step s -> binds_ok binds -> room sql s -> wp (watch_rows sql binds) (fun _ s' => in_step s') s.
Proof.
  intros Hs Hb Hroom. apply wp_bind, wp_lift. destruct (parse_subscription sql) as [parsed|] eqn:Ep; [|done].
  destruct (ps_shape parsed); [|done..]. apply watch_computed_step; [done..|]. by eapply room_one.
Qed.

(** ** Pins *)

Lemma spec_eq_new w sql : spec_eq w (spec_new sql) = true -> w = spec_new sql.
Proof.
  unfold spec_eq. intros [[Hp%Z.eqb_eq Hq%String.eqb_eq]%andb_true_iff Hb]%andb_true_iff.
  destruct w as [p q b]. cbn in *. destruct b; [|done]. by subst.
Qed.

Lemma gentle_update extra s op f :
  in_step_with extra s -> gentle op -> op_ok op -> (forall t, run_op op t = Ok (f t)) ->
  wp (update f) (fun _ c => in_step_with extra (set_conn c s)) (conn s).
Proof.
  intros Hs Hg Hop Hf. apply wp_update; [apply (is_faults _ _ Hs)|]. eapply gentle_step; [done..|]. apply Hf.
Qed.

(** A statement on a connection whose state is in step, and whatever follows it. *)
Lemma wp_gentle {A} extra s op f (k : WM Conn A) P :
  in_step_with extra s -> gentle op -> op_ok op -> (forall t, run_op op t = Ok (f t)) ->
  (forall c, in_step_with extra (set_conn c s) -> wp k P c) -> wp (update f ~> k) P (conn s).
Proof.
  intros Hs Hg Hop Hf Hk. apply wp_bind, wp_update; [apply (is_faults _ _ Hs)|]. apply Hk.
  eapply gentle_step; [done..|]. apply Hf.
Qed.

Lemma remember_again extra s id spec t :
  in_step_with extra s -> spec_ok spec -> (exists w, w ∈ wire s /\ ws_id w = id /\ ws_spec w = spec) ->
  remember id spec 0 (tables (conn s)) = Ok t -> in_step_with extra (set_conn (set_tables t (conn s)) s).
Proof.
  intros Hs Hspec (w & Hw & <- & <-) Ht. pose proof (is_ok _ _ Hs) as Hok.
  apply in_step_tables; [done|by eapply remember_ok|..].
  - intros id' e He _. rewrite (remember_book _ _ _ _ _ Hok Hspec Ht). unfold book_remember.
    destruct (decide (id' = ws_id w)) as [->|Hne].
    + rewrite lookup_insert_eq. eexists. split; [done|]. destruct (is_filed _ _ Hs w Hw) as (_ & e' & He' & E). cbn. congruence.
    + rewrite lookup_insert_ne by done. by exists e.
  - intros id' Hid. apply remember_inv in Ht as (q & t1 & row & _ & _ & ->); [|done]. cbn in Hid.
    destruct Hid as [r [[<- _]|[_ H]]%lookup_insert_Some]; [right; by apply list_elem_of_fmap_2|left; by eexists].
Qed.

Lemma pin_subscription_step extra s name id spec :
  in_step_with extra s -> spec_ok spec -> (exists w, w ∈ wire s /\ ws_id w = id /\ ws_spec w = spec) ->
  wp (pin_subscription name id spec) (fun _ c => in_step_with extra (set_conn c s)) (conn s).
Proof.
  intros Hs Hspec Hw. apply wp_bind, wp_query; [apply (is_faults _ _ Hs)|].
  assert (forall c, in_step_with extra (set_conn c s) ->
    wp (statement (remember id spec 0) ~> statement (set_pin name id)) (fun _ c => in_step_with extra (set_conn c s)) c) as Hrest.
  { intros c Hc. pose proof (is_faults _ _ Hc) as Hf. cbn in Hf. apply wp_bind, wp_statement; [done|].
    destruct (remember id spec 0 (tables c)) as [t|] eqn:Et; [|done].
    pose proof (remember_again _ (set_conn c s) _ _ _ Hc Hspec Hw Et) as Hs'. apply wp_statement; [done|]. cbn.
    destruct (set_pin name id t) as [t'|] eqn:Ep; [|exact Hs'].
    exact (gentle_step _ _ (OSetPin name id) t' Hs' I I Ep). }
  destruct (pinned_id name (tables (conn s))) as [p|].
  - case_decide; [apply wp_bind, wp_ret, Hrest; by rewrite set_conn_id|].
    by eapply (wp_gentle _ _ (OReleasePin p)).
  - apply wp_bind, wp_ret, Hrest. by rewrite set_conn_id.
Qed.

Lemma pin_step name sql grace s :
  in_step s -> 0 <= grace -> next_wire s < u64_max -> wp (pin name sql grace) (fun _ s' => in_step s') s.
Proof.
  intros Hs Hg Hn. assert (spec_ok (spec_new sql)) as Hspec by (split; [done|by split]).
  apply wp_bind. eapply wp_mono; [|by apply wp_attach_wire].
  intros r s1 (_ & id & w & -> & Hs1 & Hw & Hid & Heq). apply wp_on_conn.
  eapply wp_mono; [|eapply (pin_subscription_step [id]); [done|done|]].
  - intros r c Hc. eapply in_step_weaken; [exact Hc|]. intros x. rewrite cnt_nil. apply cnt_pos.
  - exists w. split_and!; [done..|]. destruct Heq as [|Heq]; [done|by apply spec_eq_new].
Qed.

Lemma unpin_step name s : in_step s -> wp (unpin name) (fun _ s' => in_step s') s.
Proof.
  intros Hs. pose proof (is_faults _ _ Hs) as Hf. apply wp_on_conn, wp_bind, wp_query; [done|].
  destruct (pinned_id name (tables (conn s))) as [id|]; [|apply wp_ret; by rewrite set_conn_id].
  apply wp_bind, wp_now; [done|]. eapply (gentle_update _ _ (OEnd (clock (conn s)) id)); [done|done|apply (is_clock _ _ Hs)|done].
Qed.

(** ** Drops *)

Lemma take_entry_perm {A} id (l : list (string * A)) a l' :
  take_entry id l = (a, l') -> l.*2 ≡ₚ option_list a ++ l'.*2.
Proof.
  unfold take_entry. destruct (list_find _ l) as [[i e]|] eqn:E; intros [= <- <-]; [|done].
  apply list_find_Some in E as (Hi & _). cbn. apply delete_Permutation in Hi. by rewrite Hi at 1.
Qed.

Lemma take_entry_concat {A} id (l : list (string * list A)) a l' :
  take_entry id l = (a, l') -> concat l.*2 ≡ₚ default [] a ++ concat l'.*2.
Proof. intros H%take_entry_perm. rewrite H. by destruct a. Qed.

Lemma in_step_extra_perm extra extra' s : in_step_with extra s -> extra ≡ₚ extra' -> in_step_with extra' s.
Proof. intros Hs HP. eapply in_step_weaken; [done|]. intros id. by rewrite HP. Qed.

(** Giving a reference back. *)
Lemma release_wire_step extra id s released :
  in_step_with (id :: extra) s -> in_step_with extra (set_wire (release_wire id (wire s) released).1 s).
Proof.
  intros []. rewrite release_wire_spec by done.
  split; cbn; rewrite ?at_id_ids by done; try done.
  - intros x (y & Hy & ->)%elem_of_at_id. unfold at_id. case_decide; exact (is_filed0 y Hy).
  - intros x (y & Hy & ->)%elem_of_at_id. destruct (is_refs0 y Hy) as [H0 Hc].
    change (handle_wires (set_wire _ s)) with (handle_wires s).
    destruct (cnt_pos (ws_id y) (handle_wires s)) as [? _], (cnt_pos (ws_id y) extra) as [? _].
    unfold at_id. case_decide as E; cbn [ws_id ws_refs set_refs]; rewrite !cnt_app, cnt_cons in *; case_decide; try congruence; lia.
  - intros x Hx. apply is_wires0. change (handle_wires (set_wire _ s)) with (handle_wires s) in Hx.
    apply elem_of_app. apply elem_of_app in Hx as [?|?]; [by left|right; by right].
  - intros Hc x (y & Hy & ->)%elem_of_at_id. unfold at_id. case_decide; exact (is_served0 Hc y Hy).
Qed.

Lemma release_wires_step ids extra s released :
  in_step_with (ids ++ extra) s -> in_step_with extra (set_wire (release_wires ids (wire s, released)).1 s).
Proof.
  revert s released. induction ids as [|id ids IH]; intros s released Hs; [by destruct s|].
  cbn in Hs. apply (release_wire_step _ _ _ released) in Hs. cbn.
  destruct (release_wire id (wire s) released) as [ws released'] eqn:E. cbn in *.
  exact (IH _ released' Hs).
Qed.

Lemma reap_one_step s released id :
  in_step s -> in_step (reap_one (s, released) id).1 /\ conn (reap_one (s, released) id).1 = conn s.
Proof.
  intros Hs. unfold reap_one.
  destruct (take_entry id (registry s)) as [r registry'] eqn:Er, (take_entry id (values s)) as [v values'] eqn:Ev,
    (take_entry id (computed s)) as [c computed'] eqn:Ec.
  set (ids := default [] r ++ option_list v ++ option_list c).
  assert (in_step_with ids (set_handles registry' values' computed' s)) as Hs'.
  { assert (handle_wires s ≡ₚ handle_wires (set_handles registry' values' computed' s) ++ ids) as HP.
    { unfold handle_wires, ids. cbn. rewrite (take_entry_concat _ _ _ _ Er), (take_entry_perm _ _ _ _ Ev), (take_entry_perm _ _ _ _ Ec).
      solve_Permutation. }
    destruct Hs. split; cbn; try done.
    - intros w Hw. rewrite <- HP. rewrite <- (app_nil_r (handle_wires s)). by apply is_refs0.
    - intros x. rewrite <- HP. rewrite <- (app_nil_r (handle_wires s)). by apply is_wires0. }
  pose proof (release_wires_step ids [] _ released ltac:(by rewrite app_nil_r)) as H.
  cbn in H. destruct (release_wires ids (wire s, released)) as [ws released']. by split.
Qed.

Lemma reap_step l s released :
  in_step s -> in_step (foldl reap_one (s, released) l).1 /\ conn (foldl reap_one (s, released) l).1 = conn s.
Proof.
  revert s released. induction l as [|id l IH]; intros s released Hs; [done|]. cbn [foldl].
  destruct (reap_one_step s released id Hs) as [H1 H2]. destruct (reap_one (s, released) id) as [s1 rel1]. cbn in *.
  rewrite <- H2. by apply IH.
Qed.

Lemma release_subscription_step s id :
  in_step s -> wp (on_conn (release_subscription id)) (fun _ s' => in_step s') s.
Proof.
  intros Hs. apply wp_on_conn, wp_bind, wp_now; [apply (is_faults _ _ Hs)|].
  eapply (gentle_update _ _ (ORelease (clock (conn s)) id)); [done|done|apply (is_clock _ _ Hs)|done].
Qed.

(** Retiring a wire subscription nobody holds. *)
Lemma retire_drop s id c :
  in_step s -> id ∉ handle_wires s ->
  subs_ok (tables c) -> book (tables c) = delete id (book (tables (conn s))) ->
  (forall x, is_Some (subscription (tables c) !! x) -> is_Some (subscription (tables (conn s)) !! x)) ->
  faults c = [] -> clock c = clock (conn s) -> connected c = true -> connected (conn s) = true ->
  log c = log (conn s) ++ [FUnsubscribe id] ->
  in_step (set_wire (filter (fun w => ws_id w <> id) (wire s)) (set_conn c s)).
Proof.
  intros [] Hid Hok Hb Hsub Hf Hk Hc Hc' Hl.
  assert (forall x, x ∈ ws_id <$> filter (fun w => ws_id w <> id) (wire s) <-> x ∈ ws_id <$> wire s /\ x <> id) as Hin.
  { intros x. rewrite !list_elem_of_fmap. setoid_rewrite list_elem_of_filter. naive_solver. }
  split; cbn; rewrite ?Hf, ?Hk; try done.
  - eapply sublist_NoDup; [exact is_nodup0|]. apply fmap_sublist, sublist_filter.
  - intros m Hm [H|[H _]%Hin]; auto.
  - intros w [Hw Hin']%list_elem_of_filter. rewrite Hb, lookup_delete_ne by done. by apply is_filed0.
  - intros w [Hw Hin']%list_elem_of_filter. by apply is_refs0.
  - intros x Hx. change (handle_wires (set_wire _ _)) with (handle_wires s) in Hx. apply Hin.
    split; [by apply is_wires0|]. intros ->. rewrite app_nil_r in Hx. done.
  - intros _ w [Hw Hin']%list_elem_of_filter. rewrite Hl, declared_app. specialize (is_served0 Hc' w Hin'). set_solver.
Qed.

Lemma retire_one_step s id :
  in_step s -> connected (conn s) = true ->
  wp (retire_one id) (fun _ s' => in_step s' /\ connected (conn s') = true) s.
Proof.
  intros Hs Hc. apply wp_bind, wp_get. destruct (existsb _ (wire s)) eqn:Eh; [done|].
  assert (id ∉ handle_wires s) as Hid.
  { intros Hin. pose proof (is_wires _ _ Hs id) as Hw. rewrite app_nil_r in Hw. specialize (Hw Hin).
    apply list_elem_of_fmap in Hw as (w & -> & Hw). destruct (is_refs _ _ Hs w Hw) as [_ Hr]. rewrite app_nil_r in Hr.
    apply cnt_pos in Hin. apply not_true_iff_false in Eh. destruct Eh. apply existsb_exists. exists w.
    split; [by apply list_elem_of_In|]. rewrite String.eqb_refl. apply Z.ltb_lt. lia. }
  pose proof (is_faults _ _ Hs) as Hf. apply wp_bind, wp_on_conn, wp_bind, wp_get. rewrite Hc. apply wp_bind, wp_bind.
  eapply wp_mono; [|by apply wp_evict]. intros [[]|e] c1 Hc1; [|].
  2:{ cbn. pose proof Hc1 as (_ & -> & _). split; [by apply in_step_core|done]. }
  pose proof Hc1 as (Ht & Hcc & Hl & Hff & Hk). apply wp_bind, wp_update; [congruence|]. apply wp_send; [cbn; congruence|cbn; congruence|].
  apply wp_modify, wp_modify. split; [|done]. pose proof (is_ok _ _ Hs) as Hok.
  apply (retire_drop s id (set_owed _ _ _ _ (set_connected _ _ (set_tables (forget id (tables c1)) c1))) Hs Hid); cbn; rewrite ?Ht, ?Hl; try done; try congruence.
  - by apply forget_in_order.
  - by apply forget_book.
  - intros x [r [_ H]%lookup_delete_Some]. by eexists.
Qed.

Lemma drained_in_step s : in_step s -> wp drain_dropped (fun _ s' => in_step s') s.
Proof.
  intros Hs. apply wp_bind, wp_get.
  assert (in_step (set_reaped [] s)) as Hs0 by (by destruct Hs).
  destruct (reap_step (reaped s) (set_reaped [] s) [] Hs0) as [Hs1 _].
  destruct (foldl reap_one (set_reaped [] s, []) (reaped s)) as [s1 released]. cbn in Hs1.
  apply wp_bind, wp_modify, wp_bind. eapply wp_mono; [|apply (wp_for_each _ _ in_step); [|exact Hs1]].
  2:{ intros w s2 _ H2. by apply release_subscription_step. }
  intros [[]|e] s2 Hs2; [|done]. apply wp_bind, wp_get. destruct (negb _); [done|].
  destruct (connected (conn s2)) eqn:Hc; [|done]. pose proof (is_faults _ _ Hs2) as Hf. pose proof (is_clock _ _ Hs2) as Hk.
  apply wp_bind, wp_on_conn, wp_bind, wp_bind, wp_now; [done|]. apply wp_update; [done|].
  apply wp_bind, wp_now; [done|]. apply wp_query; [done|]. cbn.
  eapply wp_mono; [|apply (wp_for_each _ _ (fun s => in_step s /\ connected (conn s) = true)); [|split; [|exact Hc]]].
  - by intros r s' [? _].
  - intros id s3 _ [H3 Hc3]. by apply retire_one_step.
  - by eapply (gentle_step _ _ (OReanchor (clock (conn s2)))).
Qed.

(** ** Connections *)

(** The state but for what the server knows. *)
Definition unserved (s : State) : State := set_conn (set_connected false [] (conn s)) s.

Lemma unserved_in_step s : in_step s -> in_step (unserved s).
Proof. intros []. by split. Qed.

Lemma in_step_unserved s :
  in_step (unserved s) -> (forall w, w ∈ wire s -> ws_id w ∈ declared_on (log (conn s))) -> in_step s.
Proof. intros [] Hw. split; try done. Qed.

Lemma disconnect_step s : in_step s -> in_step (disconnect s).
Proof. intros []. by split. Qed.

(** What is left to replay covers what the server does not hold yet, and drops no
    record of a wire subscription. *)
Definition to_replay (ds : list Declared) (s : State) : Prop :=
  in_step (unserved s) /\ connected (conn s) = true /\
  (forall w, w ∈ wire s -> ws_id w ∈ declared_on (log (conn s)) \/ exists d, d ∈ ds /\ de_sub_id d = ws_id w) /\
  forall d, d ∈ ds -> de_live d = false -> de_sub_id d ∉ ws_id <$> wire s.

Lemma replay_record_step d ds s :
  to_replay (d :: ds) s ->
  wp (on_conn (replay_record d)) (fun r s' => in_step (unserved s') /\ (r = Ok tt -> to_replay ds s')) s.
Proof.
  intros (Hs & Hc & Hcov & Hlive). pose proof (is_faults _ _ Hs) as Hf. cbn in Hf.
  apply wp_on_conn. unfold replay_record. destruct (de_live d) eqn:El.
  - eapply wp_mono; [|by apply wp_send_subscribe]. intros r c (-> & c1 & Hc1 & ->).
    assert (in_step (unserved (set_conn (set_connected true (log c1 ++ [FSubscribe (de_sub_id d) (de_spec d)]) c1) s))) as Hs'.
    { pose proof Hc1 as (Ht & _ & _ & Hff & Hk). apply (in_step_core _ (unserved s)); [done|]. by repeat split. }
    split; [done|]. intros _. split_and!; [done|done| |intros d' Hd'; apply Hlive; by right].
    intros w Hw. cbn. rewrite declared_app. destruct (Hcov w Hw) as [H|(d' & [->|Hd']%elem_of_cons & E)].
    + destruct Hc1 as (_ & _ & -> & _). left. set_solver.
    + left. rewrite E. set_solver.
    + right. by exists d'.
  - apply wp_bind. eapply wp_mono; [|by apply wp_evict].
    assert (forall c1, same_core (conn s) c1 -> in_step (unserved (set_conn c1 s))) as Hcore.
    { intros c1 (Ht & _ & _ & Hff & Hk). apply (in_step_core _ (unserved s)); [done|]. by repeat split. }
    intros [[]|e] c1 Hc1; [|split; [by apply Hcore|done]].
    pose proof Hc1 as (Ht & Hcc & Hl & Hff & Hk). apply wp_update; [congruence|].
    assert (de_sub_id d ∉ ws_id <$> wire s) as Hnot by (apply Hlive; [by left|done]).
    pose proof (forget_step _ _ (de_sub_id d) (Hcore c1 Hc1) Hnot) as Hs'. split; [exact Hs'|]. intros _.
    split_and!; [exact Hs'|by cbn; rewrite Hcc| |intros d' Hd'; apply Hlive; by right].
    intros w Hw. cbn. rewrite Hl. destruct (Hcov w Hw) as [H|(d' & [->|Hd']%elem_of_cons & E)]; [by left| |right; by exists d'].
    destruct Hnot. rewrite E. by apply list_elem_of_fmap_2.
Qed.

Lemma replay_step ds s :
  to_replay ds s ->
  wp (on_conn (for_each replay_record ds)) (fun r s' => in_step (unserved s') /\ (r = Ok tt -> in_step s')) s.
Proof.
  revert s. induction ds as [|d ds IH]; intros s Hr.
  - apply wp_on_conn, wp_ret. rewrite set_conn_id. destruct Hr as (Hs & Hc & Hcov & _). split; [done|]. intros _.
    apply in_step_unserved; [done|]. intros w Hw. destruct (Hcov w Hw) as [|(d & ?%elem_of_nil & _)]; done.
  - pose proof (replay_record_step _ _ _ Hr) as H. unfold wp, on_conn in H |- *. cbn [for_each]. unfold bind.
    destruct (replay_record d (conn s)) as [[[]|e] c]; cbn in *; [|by destruct H; split].
    destruct H as [_ H]. specialize (IH _ (H eq_refl)). unfold wp, on_conn in IH. cbn in IH.
    by destruct (for_each replay_record ds c).
Qed.

(** Every record a wire subscription stands on is wanted at the moment of attaching. *)
Definition all_wanted (s : State) : Prop :=
  forall w e, w ∈ wire s -> book (tables (conn s)) !! ws_id w = Some e ->
    entry_live (clock (conn s)) (entry_reanchored (clock (conn s)) e) = true.

Lemma attach_step s :
  in_step s -> all_wanted s ->
  wp attach (fun r s' => in_step (unserved s') /\ (r = Ok tt -> in_step s')) s.
Proof.
  intros Hs Hlive. pose proof (is_faults _ _ Hs) as Hf. pose proof (is_clock _ _ Hs) as Hk. pose proof (is_ok _ _ Hs) as Hok.
  apply wp_bind, wp_modify, wp_on_conn. cbn [conn set_conn]. unfold replay_subscriptions, reanchor_subscriptions.
  apply wp_bind, wp_bind, wp_now; [done|]. cbn [clock set_connected]. apply wp_update; [done|].
  set (k := clock (conn s)) in *. set (t := reanchor_ahead k (tables (set_connected true [] (conn s)))).
  pose proof (gentle_step _ _ (OReanchor k) t (unserved_in_step _ Hs) I Hk eq_refl) as Hs1. set (s1 := set_conn _ _) in Hs1.
  assert (book t = entry_reanchored k <$> book (tables (conn s))) as Hb by (by apply (run_op_book (OReanchor k) (tables (conn s)))).
  apply wp_bind, wp_declared; [done|apply (is_ok _ _ Hs1)|done|]. cbn [clock set_tables set_connected tables].
  set (c2 := set_tables t (set_connected true [] (conn s))).
  pose proof (replay_step (declare k <$> by_id (book t)) (set_conn c2 s)) as Hr. unfold wp, on_conn in Hr. cbn [conn set_conn] in Hr.
  unfold wp. fold k. destruct (for_each replay_record (declare k <$> by_id (book t)) c2) as [r c']. apply Hr. clear Hr.
  split_and!; [exact Hs1|done|..].
  - intros w Hw. right. destruct (is_filed _ _ Hs w Hw) as (_ & e & He & _).
    exists (declare k (ws_id w, entry_reanchored k e)). split; [|done]. apply list_elem_of_fmap_2, elem_of_by_id.
    by rewrite Hb, lookup_fmap, He.
  - intros d ([id e] & -> & Hin)%list_elem_of_fmap Hdead Hw. apply elem_of_by_id in Hin. cbn in Hdead, Hw.
    apply list_elem_of_fmap in Hw as (w & -> & Hw). rewrite Hb, lookup_fmap in Hin.
    apply fmap_Some in Hin as (e0 & He0 & ->). specialize (Hlive w e0 Hw He0). unfold k in Hdead. congruence.
Qed.

(** ** Computed values *)

(** Only the resting table changes, and its rows keep their texts. *)
Lemma rested_step extra s t :
  in_step_with extra s -> subs_ok t -> t = set_aggregate (aggregate t) (tables (conn s)) ->
  in_step_with extra (set_conn (set_tables t (conn s)) s).
Proof.
  intros Hs Hok E. assert (book t = book (tables (conn s))) as Hb by (by rewrite E).
  apply in_step_tables; [done|done|..].
  - intros id e He _. rewrite Hb. by exists e.
  - intros id. rewrite E. by left.
Qed.

Lemma remove_stats_tables vs t :
  foldl (fun t stat => remove_stat stat t) t vs = set_aggregate (aggregate (foldl (fun t stat => remove_stat stat t) t vs)) t.
Proof. revert t. induction vs as [|v vs IH]; intros t; [by destruct t|]. cbn [foldl]. by rewrite IH at 1. Qed.

Lemma remove_stats_in_order vs t : subs_ok t -> subs_ok (foldl (fun t stat => remove_stat stat t) t vs).
Proof.
  intros Hok. rewrite remove_stats_tables. apply set_aggregate_ok; [done|]. intros k Hk. apply (ok_rested _ Hok).
  rewrite remove_stats_lookup in Hk. case_decide; [by destruct Hk|done].
Qed.

Lemma rest_aggregate_step cap id frame s :
  in_step s -> frame_ok frame -> wp (on_conn (rest_aggregate cap id frame)) (fun _ s' => in_step s') s.
Proof.
  intros Hs Hf. pose proof (is_faults _ _ Hs) as Hff. pose proof (is_ok _ _ Hs) as Hok.
  apply wp_on_conn, wp_bind, wp_query; [done|]. unfold identity_of.
  destruct (subscription (tables (conn s)) !! id) as [row|] eqn:Hrow; [|apply wp_ret; by rewrite set_conn_id].
  destruct (binds_of id (tables (conn s))) as [binds|]; cbn [rbind]; [|by rewrite set_conn_id].
  apply wp_bind, wp_now; [done|]. apply wp_bind, wp_query; [done|].
  destruct (live_identities (tables (conn s))) as [protected|]; [|by rewrite set_conn_id].
  apply wp_bind, wp_statement; [done|].
  destruct (apply_frame (su_query row) binds frame (clock (conn s)) (tables (conn s))) as [t|] eqn:Ea; [|by rewrite set_conn_id].
  destruct (ok_rows _ Hok _ _ Hrow) as (Hq & _).
  pose proof (apply_frame_ok _ _ _ _ _ _ Hok Hf Hq Ea) as Hok'.
  destruct (apply_frame_local _ _ _ _ _ _ Hf Ea) as [Et _]. pose proof (rested_step _ _ _ Hs Hok' Et) as Hs'.
  destruct (af_result frame); [|exact Hs']. apply wp_update; [done|]. cbn [tables set_tables].
  rewrite enforce_cap_victims.
  exact (rested_step _ _ _ Hs' (remove_stats_in_order _ _ Hok') (remove_stats_tables _ _)).
Qed.

Lemma clear_aggregate_step id s : in_step s -> wp (on_conn (clear_aggregate_resting id)) (fun _ s' => in_step s') s.
Proof.
  intros Hs. pose proof (is_faults _ _ Hs) as Hff. pose proof (is_ok _ _ Hs) as Hok.
  apply wp_on_conn, wp_bind, wp_query; [done|].
  destruct (identity_of id (tables (conn s))) as [[[q binds]|]|]; [|apply wp_ret; by rewrite set_conn_id|by rewrite set_conn_id].
  apply wp_update; [done|]. apply rested_step; [done| |done].
  exact (remove_stats_in_order [(q, encode_binds binds)] _ Hok).
Qed.

(** ** Restarts *)

Lemma substring_all s : String.substring 0 (String.length s) s = s.
Proof. induction s as [|c s IH]; cbn; [done|]. by rewrite IH. Qed.

Lemma parse_pretty_go (x : N) acc : (Z.of_N x <= u64_max) -> parse_u64 0 (pretty_N_go x acc) = parse_u64 (Z.of_N x) acc.
Proof.
  revert acc. induction (N.lt_wf_0 x) as [x _ IH]. intros acc Hx.
  destruct (decide (0 < x)%N) as [H0|H0]; [|replace x with 0%N by lia; by rewrite pretty_N_go_0].
  rewrite pretty_N_go_step by done. rewrite IH; [|apply N.div_lt; lia|].
  2:{ rewrite N2Z.inj_div. pose proof (Z.div_le_upper_bound (Z.of_N x) (Z.of_N 10) (Z.of_N x)). lia. }
  cbn [parse_u64]. assert (Z.of_nat (nat_of_ascii (pretty_N_char (x mod 10))) - 48 = Z.of_N (x mod 10)) as ->.
  { assert (x mod 10 < 10)%N as Hm by (apply N.mod_lt; lia). revert Hm. generalize (x mod 10)%N. intros d Hd.
    assert (d = 0 \/ d = 1 \/ d = 2 \/ d = 3 \/ d = 4 \/ d = 5 \/ d = 6 \/ d = 7 \/ d = 8 \/ d = 9)%N as Hd' by lia.
    by destruct_or! Hd'; subst. }
  rewrite N2Z.inj_mod, N2Z.inj_div.
  pose proof (Z.div_mod (Z.of_N x) 10). pose proof (Z.mod_pos_bound (Z.of_N x) 10).
  rewrite decide_True by lia. replace (Z.of_N x / Z.of_N 10 * 10 + Z.of_N x mod Z.of_N 10) with (Z.of_N x) by lia.
  by rewrite decide_True by lia.
Qed.

Lemma parse_pretty m : 0 <= m <= u64_max -> parse_u64 0 (pretty m) = Some m.
Proof.
  intros Hm. destruct m as [|p|p]; [done| |lia]. change (pretty (Zpos p)) with (pretty (Npos p)).
  unfold pretty, pretty_N. rewrite decide_False by done.
  rewrite parse_pretty_go; [done|cbn; lia].
Qed.

Lemma digits_unsigned c rest : c <> "+"%char -> parse_number (String c rest) = parse_u64 0 (String c rest).
Proof. intros Hc. destruct c as [[] [] [] [] [] [] [] []]; try reflexivity. done. Qed.

Lemma wire_number_pretty m : 0 <= m <= u64_max -> wire_number (numbered_id m) = Some m.
Proof.
  intros Hm. pose proof (parse_pretty m Hm) as Hp. unfold numbered_id.
  transitivity (parse_number (pretty m)).
  - generalize (pretty m). intros x. unfold wire_number.
    replace (String.prefix WIRE_PREFIX (WIRE_PREFIX ++ x)) with true by (by destruct x).
    change (parse_number (String.substring 5 (String.length (WIRE_PREFIX ++ x) - 5) (WIRE_PREFIX ++ x)) = parse_number x).
    change (String.substring 5 (String.length (WIRE_PREFIX ++ x) - 5) (WIRE_PREFIX ++ x))
      with (String.substring 0 (String.length x - 0) x).
    by rewrite Nat.sub_0_r, substring_all.
  - destruct (pretty m) as [|c rest] eqn:E.
    + cbn in Hp. injection Hp as <-. done.
    + destruct (decide (c = "+"%char)) as [->|Hc]; [done|]. by rewrite digits_unsigned.
Qed.

Lemma parse_u64_nonneg acc text m : 0 <= acc -> parse_u64 acc text = Some m -> 0 <= m.
Proof.
  revert acc. induction text as [|c text IH]; intros acc Ha; cbn; [by intros [= <-]|].
  case_decide; [|done]. case_decide; [|done]. apply IH. lia.
Qed.

Lemma wire_number_nonneg id m : wire_number id = Some m -> 0 <= m.
Proof.
  unfold wire_number. case_match; [|done]. unfold parse_number.
  repeat case_match; try done; by apply parse_u64_nonneg.
Qed.

(** What a replica must hold for a run to start: tables in order, and numbers to give. *)
Record openable (c : Conn) : Prop := {
  op_tables : subs_ok (tables c);
  op_clock : clock_ok (clock c);
  op_faults : faults c = [];
  op_numbers : forall id n, is_Some (subscription (tables c) !! id) -> wire_number id = Some n -> n < u64_max;
}.

Lemma book_specs_ok t id e : subs_ok t -> book t !! id = Some e -> spec_ok (en_spec e).
Proof.
  intros Hok He. destruct (subscription t !! id) as [row|] eqn:Hs.
  - destruct (subs_ok_entry _ _ _ Hok Hs) as (e' & He' & _ & _ & _ & _ & Hb & Hp). rewrite He in He'. injection He' as <-.
    destruct (ok_rows _ Hok _ _ Hs) as (_ & Hpr & _). destruct (ok_binds _ Hok _ _ Hs) as (binds & [Hv Hl] & Hb').
    rewrite Hb in Hb'. injection Hb' as E. split; [lia|]. rewrite E. done.
  - by rewrite (proj2 (book_None _ _ Hok) Hs) in He.
Qed.

Lemma max_number_ge (ds : list (string * SubscriptionSpec)) id n spec :
  (id, spec) ∈ ds -> wire_number id = Some n ->
  exists m, foldr (fun d m => match wire_number d.1 with Some n => Some (default n (Z.max n <$> m)) | None => m end) None ds = Some m /\ n <= m.
Proof.
  intros Hin Hn. induction ds as [|[id' spec'] ds IH]; [by apply elem_of_nil in Hin|].
  cbn. apply elem_of_cons in Hin as [[= <- <-]|Hin].
  - rewrite Hn. eexists. split; [done|]. destruct (foldr _ None ds); cbn; lia.
  - destruct (IH Hin) as (m & Em & Hm). rewrite Em. destruct (wire_number id'); [|by exists m].
    eexists. split; [done|]. cbn. lia.
Qed.

Lemma max_number_elem (ds : list (string * SubscriptionSpec)) m :
  foldr (fun d m => match wire_number d.1 with Some n => Some (default n (Z.max n <$> m)) | None => m end) None ds = Some m ->
  exists id spec, (id, spec) ∈ ds /\ wire_number id = Some m.
Proof.
  revert m. induction ds as [|[id spec] ds IH]; intros m; [done|]. cbn.
  destruct (wire_number id) as [n|] eqn:En.
  - destruct (foldr _ None ds) as [m'|]; intros [= <-]; cbn.
    + destruct (Z.max_spec n m') as [[_ ->]|[_ ->]].
      * destruct (IH m' eq_refl) as (i & sp & ? & ?). exists i, sp. split; [by right|done].
      * exists id, spec. split; [by left|done].
    + exists id, spec. split; [by left|done].
  - intros (i & sp & ? & ?)%IH. exists i, sp. split; [by right|done].
Qed.

(** The next run starts in step, with nothing held. *)
Lemma restart_in_step c local : openable c -> in_step (restart c local).
Proof.
  intros [Hok Hk Hf Hnum]. unfold restart.
  set (c0 := set_owed _ _ _ _ _).
  assert (wp declared_subscriptions (fun r c' =>
    tables c' = reanchor_ahead (clock c) (anchor_launch (clock c) (tables c)) /\ clock c' = clock c /\
    faults c' = [] /\ connected c' = false /\
    r = Ok ((fun p => (p.1, en_spec p.2)) <$> by_id (book (tables c')))) c0) as Hd.
  { assert (subs_ok (anchor_launch (clock c) (tables c))) as H1 by (by eapply (run_op_in_order (OAnchor (clock c)))).
    assert (subs_ok (reanchor_ahead (clock c) (anchor_launch (clock c) (tables c)))) as H2
      by (by eapply (run_op_in_order (OReanchor (clock c)))).
    apply wp_bind, wp_bind, wp_now; [done|]. apply wp_update; [done|]. apply wp_bind, wp_declared; [done..|].
    apply wp_ret. split_and!; [done..|]. by rewrite <- list_fmap_compose. }
  unfold wp in Hd. destruct (declared_subscriptions c0) as [r c']. cbn in Hd.
  destruct Hd as (Ht & Hk' & Hf' & Hc' & ->). set (ds := _ <$> by_id (book (tables c'))).
  assert (subs_ok (tables c')) as Hok'.
  { rewrite Ht. eapply (run_op_in_order (OReanchor (clock c))); [|done|done].
    by eapply (run_op_in_order (OAnchor (clock c))). }
  assert (forall id, is_Some (subscription (tables c') !! id) -> is_Some (subscription (tables c) !! id)) as Hback.
  { intros id. rewrite Ht. cbn. rewrite !lookup_fmap, !fmap_is_Some. done. }
  assert (forall id spec, (id, spec) ∈ ds <-> exists e, book (tables c') !! id = Some e /\ en_spec e = spec) as Hds.
  { intros id spec. unfold ds. rewrite list_elem_of_fmap. split.
    - intros ([id' e] & [= -> ->] & Hin%elem_of_by_id). by exists e.
    - intros (e & He & <-). exists (id, e). by rewrite elem_of_by_id. }
  assert (forall id, is_Some (subscription (tables c') !! id) <-> exists spec, (id, spec) ∈ ds) as Hdom.
  { intros id. rewrite <- not_eq_None_Some, <- (book_None _ id Hok'), not_eq_None_Some. split.
    - intros [e He]. exists (en_spec e). apply Hds. by exists e.
    - intros (spec & (e & He & _)%Hds). by exists e. }
  assert (ws_id <$> ((fun d => {| ws_id := d.1; ws_spec := d.2; ws_refs := 0 |}) <$> ds) = (by_id (book (tables c'))).*1) as Hids.
  { unfold ds. by rewrite <- !list_fmap_compose. }
  assert (forall m, 0 <= m <= u64_max -> is_Some (subscription (tables c') !! numbered_id m) ->
    m < match foldr (fun d m => match wire_number d.1 with Some n => Some (default n (Z.max n <$> m)) | None => m end) None ds with
        | Some m => Z.min u64_max (m + 1) | None => 1 end) as Hnext.
  { intros m Hm Hin. pose proof Hin as (spec & Hin')%Hdom. pose proof (wire_number_pretty m Hm) as Hw.
    destruct (max_number_ge ds _ _ _ Hin' Hw) as (n & En & Hn). rewrite En.
    specialize (Hnum _ _ (Hback _ Hin) Hw). lia. }
  split; cbn; rewrite ?Hids, ?Hk', ?Hf', ?Hc'; try done.
  - apply NoDup_by_id.
  - destruct (foldr _ None ds) as [m|] eqn:Em; [|done]. apply max_number_elem in Em as (id & spec & Hin & Hw).
    apply wire_number_nonneg in Hw. unfold u64_max. lia.
  - intros m Hm [Hin|Hin]; [by apply Hnext|]. apply Hnext; [done|]. apply Hdom.
    apply list_elem_of_fmap in Hin as ([id e] & E & Hin%elem_of_by_id). cbn in E. subst id.
    exists (en_spec e). apply Hds. by exists e.
  - intros w Hw. apply list_elem_of_fmap in Hw as ([id spec] & -> & Hin). cbn. apply Hds in Hin as (e & He & <-).
    split; [by eapply book_specs_ok|]. by exists e.
  - intros w Hw. apply list_elem_of_fmap in Hw as ([id spec] & -> & Hin). cbn. done.
  - intros id Hin. by apply elem_of_nil in Hin.
Qed.

(** ** Histories *)

(** What an application, its pump, the network and the clock do to a client none of whose
    statements and sends fails. A new connection is made while every record a wire
    subscription stands on is wanted; an attach that ends in an error loses its
    connection. *)
Inductive live_step (s : State) : State -> Prop :=
  | ls_watch sql binds grace : binds_ok binds -> 0 <= grace -> room sql s ->
      live_step s (register_watch sql binds grace s).2
  | ls_watch_value sql binds shape : binds_ok binds -> room sql s ->
      live_step s (watch_value sql binds shape s).2
  | ls_watch_groups sql binds shape : binds_ok binds -> room sql s ->
      live_step s (watch_groups sql binds shape s).2
  | ls_watch_rows sql binds : binds_ok binds -> room sql s ->
      live_step s (watch_rows sql binds s).2
  | ls_pin name sql grace : 0 <= grace -> next_wire s < u64_max -> live_step s (pin name sql grace s).2
  | ls_unpin name : live_step s (unpin name s).2
  | ls_drop sub_id : live_step s (drop_handle sub_id s)
  | ls_drain : live_step s (drain_dropped s).2
  | ls_attach : all_wanted s -> (attach s).1 = Ok tt -> live_step s (attach s).2
  | ls_attach_lost : all_wanted s -> live_step s (disconnect (attach s).2)
  | ls_disconnect : live_step s (disconnect s)
  | ls_restart : openable (conn s) -> live_step s (restart (conn s) (local_tables s))
  | ls_frame cap sub_id frame : frame_ok frame ->
      live_step s (on_conn (rest_aggregate cap sub_id frame) s).2
  | ls_clear sub_id : live_step s (on_conn (clear_aggregate_resting sub_id) s).2
  | ls_clock now : clock_ok now -> live_step s (set_conn (set_clock now (conn s)) s)
  | ls_replica c : same_core (conn s) c -> live_step s (set_conn c s).

Lemma live_step_in_step s s' : in_step s -> live_step s s' -> in_step s'.
Proof.
  intros Hs []; [by apply register_watch_step|by apply watch_value_step|by apply watch_groups_step|by apply watch_rows_step
    |by apply pin_step|by apply unpin_step|by destruct Hs|by apply drained_in_step
    | | |by apply disconnect_step|by apply restart_in_step|by apply rest_aggregate_step|by apply clear_aggregate_step
    | |by apply in_step_core].
  - destruct (attach_step s Hs) as [_ Ha]; [done|]. by apply Ha.
  - destruct (attach_step s Hs) as [Ha _]; [done|]. apply disconnect_step in Ha. exact Ha.
  - by destruct Hs.
Qed.

End Served.
