(* ===== verification/Evicted.v ===== *)
(** What an eviction of replica rows removes ([evict_subscription_rows] of [Watch]):
    the rows of the ended subscription's tables that nobody else wants. *)

From Stdlib Require Import ZArith Lia Ascii String.
From stdpp Require Import base numbers option list gmap fin_maps strings pretty sorting.
From S2P Require Import Prelude Plan Caller Pending QueryText Subs Rested Watch Served.

Open Scope Z_scope.

Section Evicted.
Context {FT : FloatText} {SP : Sqlparser} {ST : Store} {J : Json}.

(** ** What an eviction removes *)

Lemma wp_any_fault (P : Result bool ClientError -> Conn -> Prop) c :
  (forall b l, P (Ok b) (set_faults l c)) -> wp fault P c.
Proof.
  intros HP. unfold wp, fault. destruct (faults c) as [|b l] eqn:E; [|apply HP].
  replace c with (set_faults [] c) by (destruct c; cbn in *; by subst). apply HP.
Qed.

Lemma wp_any_update (f : SubTables -> SubTables) (P : Result unit ClientError -> Conn -> Prop) c :
  (forall r l t, P r (set_tables t (set_faults l c))) -> wp (update f) P c.
Proof.
  intros HP. apply wp_bind, wp_any_fault. intros [] l; [|apply HP].
  specialize (HP (Err EDatabase) l (tables c)). by destruct c.
Qed.

(** A read of the records: the book's, or an error. *)
Lemma wp_any_declared (P : Result (list Declared) ClientError -> Conn -> Prop) c :
  subs_ok (tables c) -> clock_ok (clock c) ->
  (forall r l, r = Ok (declare (clock c) <$> by_id (book (tables c))) \/ (exists e, r = Err e) -> P r (set_faults l c)) ->
  wp declared_records P c.
Proof.
  intros Hok Hk HP. apply wp_bind, wp_bind, wp_any_fault. intros [] l; [by apply HP; eauto|].
  apply wp_bind, wp_get, wp_ret. cbn [clock set_faults]. apply wp_bind, wp_any_fault. intros [] l'; [apply (HP _ l'); eauto|].
  apply wp_bind, wp_get, wp_lift. cbn [tables set_faults]. rewrite declared_book by done. apply (HP _ l'). by left.
Qed.

(** A row survives a statement when some condition kept for its table is not false on it. *)
Lemma any_true_false l : any_true l = Some false <-> Forall (fun o => o = Some false) l.
Proof.
  induction l as [|o l IH]; cbn; [done|]. rewrite Forall_cons, <- IH.
  destruct o as [[]|], (any_true l) as [[]|]; naive_solver.
Qed.

Lemma survives_spec kept r : survives kept r = true <-> exists c, c ∈ kept /\ truth c r <> Some false.
Proof.
  transitivity (~ Forall (fun c => truth c r = Some false) kept).
  - unfold survives. destruct kept as [|c kept]; [split; [done|intros H; by destruct H]|].
    assert (Forall (fun c => truth c r = Some false) (c :: kept) <->
      any_true ((fun c => truth c r) <$> c :: kept) = Some false) as -> by (rewrite any_true_false; symmetry; apply Forall_fmap).
    destruct (any_true _) as [[]|]; naive_solver.
  - split.
    + intros H. apply not_Forall_Exists, Exists_exists in H; [done|]. intros x. apply _.
    + intros (c & Hc & Ht) HF. rewrite Forall_forall in HF. by apply Ht, HF.
Qed.

Definition kept_for (cs : list Coverage) (spare : list (string * string)) (table : string) : list string :=
  clauses table cs ++ (filter (fun p => p.1 = to_lowercase (default table (physical table))) spare).*2.

(** A table's statement keeps a row. *)
Definition keeps_row (cs : list Coverage) (spare : list (string * string)) (r : Row) (table : string) : Prop :=
  untouchable table cs = true \/ survives (kept_for cs spare table) r = true.

Lemma clear_tables_spec cs spare tabs m target l :
  m !! target = Some l ->
  exists l', foldr (clear_table cs StaleNothing spare) m tabs !! target = Some l' /\ l' `sublist_of` l /\
    forall r, r ∈ l' <-> r ∈ l /\ forall table, table ∈ tabs -> default table (physical table) = target -> keeps_row cs spare r table.
Proof.
  intros Hm. induction tabs as [|table tabs (l' & Hl & Hsub & Hr)].
  { exists l. split_and!; [done..|]. intros r. split; [|by intros [? _]]. intros Hin. split; [done|]. by intros ? ?%elem_of_nil. }
  cbn [foldr]. unfold clear_table at 1. cbn [stale_covers negb]. rewrite andb_true_r.
  assert (forall l1, l1 `sublist_of` l ->
    (forall r, r ∈ l1 <-> r ∈ l' /\ (default table (physical table) = target -> keeps_row cs spare r table)) ->
    forall r, r ∈ l1 <-> r ∈ l /\ forall t, t ∈ table :: tabs -> default t (physical t) = target -> keeps_row cs spare r t) as Hgoal.
  { intros l1 _ H1 r. rewrite H1, Hr. setoid_rewrite elem_of_cons. naive_solver. }
  destruct (untouchable table cs) eqn:Eu.
  { exists l'. split_and!; [done..|]. apply Hgoal; [done|]. intros r. split; [|tauto]. intros ?. split; [done|]. intros _. by left. }
  destruct (decide (default table (physical table) = target)) as [<-|Hne].
  - rewrite lookup_alter_eq, Hl. eexists. split; [done|]. split; [etrans; [apply sublist_filter|done]|].
    apply Hgoal; [etrans; [apply sublist_filter|done]|]. intros r. rewrite list_elem_of_filter. unfold keeps_row, kept_for.
    rewrite Eu. naive_solver.
  - rewrite lookup_alter_ne by done. exists l'. split_and!; [done..|]. apply Hgoal; [done|]. naive_solver.
Qed.

(** ** Who wants a row *)

(** Another live subscription covers it, or an unacknowledged write of the client touched it. *)
Definition row_wanted (c : Conn) (ended : string) (table : string) (r : Row) : Prop :=
  (exists id e cov, id <> ended /\ book (tables c) !! id = Some e /\ entry_live (clock c) e = true /\
     coverage_of (en_spec e) = Ok (Some cov) /\ table ∈ co_tables cov /\
     forall p, co_predicate cov = Some p -> truth p r <> Some false) \/
  (exists changeset ops op clause, changeset ∈ pending c /\ parse_diffset changeset = Some (Some ops) /\ op ∈ ops /\
     op_spare op = Ok (Some (to_lowercase (default table (physical table)), clause)) /\ truth clause r <> Some false).

Lemma elem_of_try_map {A B E} (f : A -> Result B E) l l' b :
  try_map f l = Ok l' -> (b ∈ l' <-> exists a, a ∈ l /\ f a = Ok b).
Proof.
  intros H%try_map_Ok. induction H as [|x y l l' Hxy _ IH]; [set_solver|].
  rewrite elem_of_cons, IH. split.
  - intros [->|(a & ? & ?)]; [exists x|exists a]; (split; [set_solver|done]).
  - intros (a & [->|Ha]%elem_of_cons & E0); [left; congruence|right; eauto].
Qed.

Lemma elem_of_claims ended c cs cov :
  claims (Some ended) (declare (clock c) <$> by_id (book (tables c))) = Ok cs ->
  (cov ∈ cs <-> exists id e, id <> ended /\ book (tables c) !! id = Some e /\ entry_live (clock c) e = true /\
     coverage_of (en_spec e) = Ok (Some cov)).
Proof.
  unfold claims. intros (l & Hl & [= <-])%rbind_Ok. rewrite list_elem_of_omap. cbn. split.
  - intros (o & Ho & ->). apply (elem_of_try_map _ _ _ _ Hl) in Ho as (d & [Hd Hin]%list_elem_of_filter & Hcov).
    apply list_elem_of_fmap in Hin as ([id e] & -> & Hin%elem_of_by_id). cbn in *. exists id, e.
    split_and!; [intros ->; tauto|done|destruct (entry_live (clock c) e); [done|tauto]|done].
  - intros (id & e & Hne & He & Hlive & Hcov). exists (Some cov). split; [|done]. apply (elem_of_try_map _ _ _ _ Hl).
    exists (declare (clock c) (id, e)). split; [|done]. apply list_elem_of_filter. cbn. rewrite Hlive. split; [intros [[= ?]|?]; congruence|].
    apply list_elem_of_fmap_2. by apply elem_of_by_id.
Qed.

Lemma elem_of_spare c l p :
  try_map changeset_spare (pending c) = Ok l ->
  (p ∈ concat l <-> exists changeset ops op, changeset ∈ pending c /\ parse_diffset changeset = Some (Some ops) /\
     op ∈ ops /\ op_spare op = Ok (Some p)).
Proof.
  intros Hl. rewrite list_elem_of_In, in_concat. setoid_rewrite <- list_elem_of_In. split.
  - intros (x & (cs & Hcs & Hx)%(elem_of_try_map _ _ _ _ Hl) & Hp). unfold changeset_spare in Hx.
    destruct (parse_diffset cs) as [[ops|]|] eqn:Ep; [|by simplify_eq; apply elem_of_nil in Hp|done].
    apply rbind_Ok in Hx as (l0 & Hl0 & [= <-]). apply list_elem_of_omap in Hp as (o & Ho & Eo). cbn in Eo. subst o.
    apply (elem_of_try_map _ _ _ _ Hl0) in Ho as (op & ? & ?). by exists cs, ops, op.
  - intros (cs & ops & op & Hcs & Hp & Hop & Hs).
    assert (Forall (fun a => exists b, changeset_spare a = Ok b) (pending c)) as HF.
    { apply try_map_Ok in Hl. clear -Hl. induction Hl; constructor; eauto. }
    rewrite Forall_forall in HF. destruct (HF _ Hcs) as [x Hx]. exists x. split; [apply (elem_of_try_map _ _ _ _ Hl); eauto|].
    unfold changeset_spare in Hx. rewrite Hp in Hx. apply rbind_Ok in Hx as (l0 & Hl0 & [= <-]).
    apply list_elem_of_omap. exists (Some p). split; [|done]. apply (elem_of_try_map _ _ _ _ Hl0). eauto.
Qed.

Lemma keeps_row_wanted c ended cs l r table :
  claims (Some ended) (declare (clock c) <$> by_id (book (tables c))) = Ok cs ->
  try_map changeset_spare (pending c) = Ok l ->
  (keeps_row cs (concat l) r table <-> row_wanted c ended table r).
Proof.
  intros Hcs Hl. unfold keeps_row, row_wanted. rewrite survives_spec. unfold kept_for, untouchable, clauses.
  rewrite existsb_exists. setoid_rewrite elem_of_app. setoid_rewrite <- list_elem_of_In.
  setoid_rewrite list_elem_of_omap. setoid_rewrite list_elem_of_fmap. setoid_rewrite list_elem_of_filter.
  setoid_rewrite (elem_of_claims _ _ _ _ Hcs). setoid_rewrite (elem_of_spare _ _ _ Hl). split.
  - intros [(cov & (id & e & ? & ? & ? & ?) & [Ht%bool_decide_eq_true Hp%bool_decide_eq_true]%andb_true_iff)
           |(p & [(cov & (id & e & ? & ? & ? & ?) & Hp)|((t & clause) & -> & Ht & cs' & ops & op & ? & ? & ? & ?)] & Htrue)].
    + left. exists id, e, cov. split_and!; [done..|]. rewrite Hp. done.
    + left. case_decide; [|done]. exists id, e, cov. split_and!; [done..|]. intros p' Hp'. congruence.
    + right. cbn in Ht. subst t. by exists cs', ops, op, clause.
  - intros [(id & e & cov & ? & ? & ? & ? & Ht & Hp)|(cs' & ops & op & clause & ? & ? & ? & ? & ?)].
    + destruct (co_predicate cov) as [p|] eqn:Ep.
      * right. exists p. split; [|by apply Hp]. left. exists cov. split; [by exists id, e|]. by rewrite decide_True.
      * left. exists cov. split; [by exists id, e|]. rewrite Ep. by rewrite !bool_decide_true.
    + right. exists clause. split; [|done]. right. eexists (_, clause). split; [done|]. cbn. split; [done|]. by exists cs', ops, op.
Qed.

Lemma find_declared now (b : Book) id :
  find (fun d => String.eqb (de_sub_id d) id) (declare now <$> by_id b) = (fun e => declare now (id, e)) <$> b !! id.
Proof.
  destruct (find _ _) as [d|] eqn:E.
  - apply List.find_some in E as [Hin Hid%String.eqb_eq]. apply list_elem_of_In in Hin.
    apply list_elem_of_fmap in Hin as ([id' e] & -> & Hin%elem_of_by_id). cbn in Hid. subst id'. by rewrite Hin.
  - destruct (b !! id) as [e|] eqn:Hb; [|done].
    assert (In (declare now (id, e)) (declare now <$> by_id b)) as Hin
      by (by apply list_elem_of_In, list_elem_of_fmap_2, elem_of_by_id).
    apply (List.find_none _ _ E) in Hin. cbn in Hin. by rewrite String.eqb_refl in Hin.
Qed.

(** The rows of every table, and who may go. *)
Definition rows_spared (c : Conn) (ended : string) (r : Result unit ClientError) (m : gmap string (list Row)) : Prop :=
  let named target table := exists e cov, book (tables c) !! ended = Some e /\
    coverage_of (en_spec e) = Ok (Some cov) /\ table ∈ co_tables cov /\ default table (physical table) = target in
  (connected c = false -> m = rows c) /\
  forall target l, rows c !! target = Some l -> exists l', m !! target = Some l' /\ l' `sublist_of` l /\
    (forall row, row ∈ l -> (forall table, named target table -> row_wanted c ended table row) -> row ∈ l') /\
    (r = Ok tt -> connected c = true -> forall row table, row ∈ l' -> named target table -> row_wanted c ended table row).

Lemma rows_untouched c ended r m : m = rows c -> (r = Ok tt -> connected c = true ->
    forall e cov, book (tables c) !! ended = Some e -> coverage_of (en_spec e) <> Ok (Some cov)) ->
  rows_spared c ended r m.
Proof.
  intros -> Hr. split; [done|]. intros target l Hl. exists l. split_and!; [done..|].
  intros -> Hc row table _ (e & cov & He & Hcov & _). by destruct (Hr eq_refl Hc e cov He).
Qed.

(** C13. An eviction removes the rows nobody wants: whatever fails in it, a row of
    the ended subscription's tables that another live subscription covers, or that a
    write still to be acknowledged touched, stays, and no other table loses a row; with no
    connection nothing goes at all; and when it succeeds nothing unwanted is left in those
    tables. *)
Theorem eviction_spares_wanted c sub_id :
  subs_ok (tables c) -> clock_ok (clock c) ->
  rows_spared c sub_id (evict_subscription_rows sub_id c).1 (rows (evict_subscription_rows sub_id c).2).
Proof.
  intros Hok Hk. change (wp (evict_subscription_rows sub_id) (fun r c' => rows_spared c sub_id r (rows c')) c).
  apply wp_bind, wp_get. destruct (connected c) eqn:Hc; cbn [negb].
  2:{ apply wp_ret, rows_untouched; [done|congruence]. }
  apply wp_bind, wp_any_declared; [done..|]. intros r l [->|[e ->]]; [|by apply rows_untouched].
  rewrite find_declared. destruct (book (tables c) !! sub_id) as [e|] eqn:He; cbn [fmap option_fmap option_map].
  2:{ apply wp_ret, rows_untouched; [done|congruence]. }
  apply wp_bind, wp_lift. cbn [de_spec declare snd]. destruct (coverage_of (en_spec e)) as [[cov|]|] eqn:Hcov.
  2:{ apply wp_ret, rows_untouched; [done|]. intros. congruence. }
  2:{ by apply rows_untouched. }
  apply wp_bind, wp_bind, wp_get, wp_bind, wp_lift. cbn [pending set_faults].
  destruct (try_map changeset_spare (pending c)) as [spares|] eqn:Hsp; [|by apply rows_untouched].
  apply wp_ret, wp_bind, wp_bind, wp_any_declared; [done..|]. intros r l' [->|[e' ->]]; [|by apply rows_untouched].
  apply wp_bind, wp_lift. cbn [tables clock set_faults].
  destruct (claims (Some sub_id) _) as [cs|] eqn:Hcs; [|by apply rows_untouched].
  apply wp_bind, wp_any_fault. intros [] l2; [by apply rows_untouched|].
  apply wp_bind, wp_get. cbn zeta. apply wp_bind, wp_modify, wp_ret.
  set (m := foldr _ _ _).
  assert (forall r, rows_spared c sub_id r m) as Hm.
  { intros r. split; [congruence|]. intros target rs Hrs.
    destruct (clear_tables_spec cs (concat spares) (elements (co_tables cov)) (rows c) target rs Hrs) as (rs' & Hrs' & Hsub & Hin).
    exists rs'. split_and!; [exact Hrs'|done| |].
    - intros row Hrow Hw. apply Hin. split; [done|]. intros table Ht Etarget.
      apply (keeps_row_wanted c sub_id cs spares row table Hcs Hsp), Hw. exists e, cov. split_and!; [done..|by apply elem_of_elements|done].
    - intros _ _ row table Hrow (e0 & cov0 & He0 & Hcov0 & Ht & Etarget).
      assert (cov0 = cov) as -> by congruence.
      apply (keeps_row_wanted c sub_id cs spares row table Hcs Hsp). apply Hin in Hrow as [_ Hrow].
      apply Hrow; [by apply elem_of_elements|done]. }
  case_decide; [|apply wp_ret; apply Hm]. apply wp_any_update. intros r l3 t. apply Hm.
Qed.
End Evicted.
