(* ===== verification/DemoClient.v ===== *)
(** Concrete inputs for the client's write path: a replica of plain changesets, a
    run in which a write is queued, sent, carried to another number and sent again,
    and the histories behind the findings on the client. *)

From Stdlib Require Import ZArith Lia.
From stdpp Require Import base numbers option list gmap strings.
From S2P Require Import Prelude Wire Chain Backoff Cursor Pending ClientState ClientWriter Reopen Ledger Carry Grant Upkeep Uploads.

Open Scope Z_scope.

Definition client_digest (x : bytes) : bytes := be_bytes 32 (foldl (fun a b => (a * 257 + b + 1) mod 2 ^ 256) 7 x).
Definition client_sha : Sha256 := {| sha256 := client_digest; sha256_length := fun x => length_be_bytes 32 _ |}.

(** The replica is the list of the changesets applied to it. *)
Definition client_changes : Changes :=
  {| Replica := list bytes; logical := Some; compress := Some; count_ops := fun b => Z.of_nat (length b);
     affected_rows := fun b => Some (length b); invert_changeset := fun b => Some (rev b);
     apply_omit := fun b r => Some (b :: r); apply_server_wins := fun b r => Some (b :: r);
     sign := fun k m => Some (k ++ m) |}.
#[local] Existing Instance client_sha.
#[local] Existing Instance client_changes.

(** A server that issues [n] and confirms what it is asked for. *)
Definition grants (n : Z) : WriterRequest -> option Z -> HandshakeAnswer := fun request _ =>
  HsAck (match request with
         | ReqIssue => Some {| wg_number := n; wg_frontier := 0 |}
         | ReqNumber m => Some {| wg_number := m; wg_frontier := 0 |}
         | ReqDevice => None
         end) (Some [3; 1; 4]).
Definition retired_number : WriterRequest -> option Z -> HandshakeAnswer := fun _ _ => HsRefused WriterRetired.

Definition write (cs : bytes) (r : Run) : Run :=
  run_op OpPush {| run_client := with_captured cs (with_monotonic_now 0 (with_faults [] (run_client r))); run_pumps := run_pumps r |}.

Definition run_new : Run := {| run_client := new_client ([] : @Replica client_changes) 0; run_pumps := true |}.
(** Two writes made offline, a first connection, the first of them applied. *)
Definition run_sent : Run := run_op (OpAttach (grants 5)) (write [8] (write [7; 7] run_new)).
Definition run_applied : Run := run_op (OpControl (FMutationApplied 1)) run_sent.
(** The number is refused at the next handshake, and its tail is sent as another. *)
Definition run_refused : Run := run_op (OpAttach retired_number) (run_op OpDisconnect run_applied).
Definition run_carried : Run := run_op (OpAttach (grants 6)) run_refused.

Lemma fresh_grant n c : in_u64 n -> n ∉ issued c -> fresh_answer (grants n) c.
Proof. intros Hn Hni settled g ch [= <- _]. done. Qed.

Lemma reached_op op r :
  reached r -> run_pumps r = true \/ op = OpPush \/ op = OpRestart -> admits op (run_client r) -> reached (run_op op r).
Proof. intros Hr Hb Ha. eapply ReachStep; [done|]. by constructor. Qed.

Lemma reached_write cs r : reached r -> reached (write cs r).
Proof.
  intros Hr. apply reached_op; [|by right; left|done].
  eapply ReachStep; [exact Hr|]. apply StepOutside. by exists cs, 0, [].
Qed.

Lemma in_u64_small n : 0 <= n <= 100 -> in_u64 n.
Proof. unfold in_u64, u64_max. lia. Qed.

Lemma sent_reached : reached run_sent.
Proof.
  apply reached_op; [do 2 apply reached_write; apply ReachNew|by left|]. apply fresh_grant; [by apply in_u64_small|].
  apply (bool_decide_unpack _). by vm_compute.
Qed.

Lemma applied_reached : reached run_applied.
Proof. apply reached_op; [apply sent_reached|by left|]. by split. Qed.

Lemma carried_reached : reached run_carried.
Proof.
  apply reached_op; [apply reached_op; [apply reached_op; [apply applied_reached|by left|done]|by left|]|by left|].
  - by intros settled g ch [=].
  - apply fresh_grant; [by apply in_u64_small|]. apply (bool_decide_unpack _). by vm_compute.
Qed.

(** The second write, as it was first sent and as it was sent again. *)
Definition first_sending : Upload := {| up_writer := Number 5; up_seq := 2; up_provenance := None; up_changeset := [8] |}.
Definition second_sending : Upload :=
  {| up_writer := Number 6; up_seq := 1; up_provenance := Some {| pv_writer := Number 5; pv_seq := 2 |};
     up_changeset := [8] |}.

Example carried_uploads :
  uploads (run_client run_carried) =
  [{| up_writer := Number 5; up_seq := 1; up_provenance := None; up_changeset := [7; 7] |}; first_sending; second_sending].
Proof. by vm_compute. Qed.

Lemma uploads_identified_witness :
  upload_origin first_sending = upload_origin second_sending /\ up_changeset first_sending = up_changeset second_sending.
Proof.
  apply (uploads_identified run_carried first_sending second_sending (Number 5, 2) carried_reached);
    rewrite ?carried_uploads; set_solver.
Defined.

Lemma push_allots_fresh_witness :
  exists w e, has_entry (run_client (write [9] run_carried)) w 2 e /\ pe_changeset e = [9].
Proof.
  set (r := {| run_client := with_captured [9] (with_monotonic_now 0 (with_faults [] (run_client run_carried)));
               run_pumps := true |}).
  destruct (push_allots_fresh r 2 (run_client (write [9] run_carried))) as (w & e & He & Hc & _).
  - eapply ReachStep; [apply carried_reached|]. apply (StepOutside run_carried). by exists [9], 0, [].
  - by vm_compute.
  - by exists w, e.
Defined.

Lemma writes_kept_witness : queued (writers (run_client run_refused)) (2, [8]).
Proof.
  set (r := run_op OpDisconnect run_applied).
  set (e := {| pe_changeset := [8]; pe_hash := default [] (pe_hash <$> held_entries (run_client r) (Number 5) !! 2);
               pe_position := 2; pe_provenance := None |}).
  destruct (writes_kept r run_refused (Number 5) 2 e) as [H|(frame & _ & _ & Hb)].
  - apply reached_op; [apply applied_reached|by left|done].
  - apply StepOp; [by left|]. by intros settled g ch [=].
  - apply elem_of_held. by vm_compute.
  - exact H.
  - by vm_compute in Hb.
Defined.

Lemma restart_restores_witness :
  held_entries (run_client (run_op OpRestart run_carried)) (Number 6) = held_entries (run_client run_carried) (Number 6).
Proof.
  apply (restart_restores run_carried (Number 6) carried_reached); [by vm_compute|]. by apply in_u64_small.
Defined.

Lemma answered_settled_witness :
  held_entries (run_client run_applied) (Number 5) !! 1 = None /\
  held_entries (run_client (run_op OpRestart run_applied)) (Number 5) !! 1 = None.
Proof.
  destruct (answered_settled run_sent (FMutationApplied 1) 1 (Number 5) sent_reached) as [H1 H2]; [by vm_compute..|].
  split; apply eq_None_not_Some; intros (e & He%elem_of_held); [by apply (H1 e)|by apply (H2 eq_refl e)].
Defined.

(** ** A held bind that nothing releases

    A restarted device presents the number its tail waits under; the tail is
    settled before the device's keys are handed over, and the bind they then owe is
    held for a tail that is already empty. *)
Definition demo_key : bytes := replicate 32 9.
Definition run_stalled : Run :=
  let r := run_op OpDisconnect (run_op (OpAttach (grants 5)) (write [7] run_new)) in
  let r := run_op OpRestart (run_op (OpStoreCertificate {| held_key := demo_key; held_live := true |}) r) in
  let r := run_op (OpControl (FMutationApplied 1)) (run_op (OpAttach (grants 6)) r) in
  write [8] (run_op (OpDeviceKeys (Some demo_key)) r).

(** The client is connected with nothing in flight and nothing queued to send, the
    bind is held, and the new write is queued for a device the connection is not
    bound to. *)
Example held_bind_stalls :
  let c := run_client run_stalled in
  is_connected c = true /\ writer_tasks c = [] /\ writer_in_flight c = None /\
  holds_pending (Number 5) (writers c) = false /\ bound_writer c = Some (Number 5) /\
  (wt_kind <$> pending_bind c) = Some (Bind demo_key (demo_key ++ writer_bind_message [3; 1; 4])) /\
  holds_pending (Device demo_key) (writers c) = true /\ length (uploads c) = 2%nat.
Proof. by vm_compute. Qed.

(** ** A failed reset of the capture

    The changes are queued before the capture is reset; when the reset fails they
    are still captured, and the next push queues them as another write. *)
Example failed_reset_queues_twice :
  let c0 := with_captured [7] (with_faults [false; false; true] (run_client run_new)) in
  let c1 := (push c0).2 in let c2 := (push c1).2 in
  (push c0).1 = Err ESession /\ (push c1).1 = Ok (Some 2) /\
  (pe_changeset <$> held_entries c2 unissued !! 1) = Some [7] /\
  (pe_changeset <$> held_entries c2 unissued !! 2) = Some [7].
Proof. by vm_compute. Qed.

(** ** Carried numbers owe no retirement *)
Lemma carry_owes_nothing `{Sha256} `{Changes} dead target c :
  t_retire (db (carry_writers dead target c).2) = t_retire (db c).
Proof.
  destruct (carry_cases dead target c) as [(e & c' & -> & E & _)|(l & plan & next & head & _ & _ & ->)]; cbn [snd].
  - by rewrite E.
  - rewrite drop_all_fields. cbn.
    assert (Hd : forall t, t_retire (foldl (fun t w => dropped_tables w t) t dead) = t_retire t).
    { induction dead as [|w dead IH]; intros t; [done|]. cbn. by rewrite IH. }
    rewrite Hd. by destruct plan.
Qed.
