(* ===== verification/DemoGuard.v ===== *)
(** Concrete histories on which the theorems about the request guard and the
    ban list apply. *)

From Stdlib Require Import ZArith Lia.
From stdpp Require Import base list numbers option strings gmap fin_maps.
From S2P Require Import Prelude Throttle Meters Guard Bans.

Open Scope Z_scope.

#[local] Instance name_identity : Identity string := {| to_string := fun s => s |}.

(** Three unresolvable subscriptions a minute for a person, two for a
    connection. *)
Definition strict : AbuseLimits := {|
  person_limits := {| refused_grants := refused_grants new_person_limits;
    unresolvable_subscriptions := {| limit_max := 3; limit_window := MINUTE |};
    rejected_writes := rejected_writes new_person_limits;
    failed_renewals := {| limit_max := 2; limit_window := MINUTE |} |};
  connection_limits := {| c_refused_grants := 50; c_unresolvable_subscriptions := 2;
    c_rejected_writes := 200 |} |}.

Definition strict_config : AbuseConfig :=
  {| config_person := person_limits strict; config_connection := connection_limits strict |}.

Lemma strict_sane s :
  0 <= limit_window (person_limit (person_limits strict) s) /\
  in_u32 (limit_max (person_limit (person_limits strict) s)).
Proof. destruct s; unfold in_u32, u32_max; simpl; split; try lia; by vm_compute. Qed.

Definition ann (s : Z) : Caller Z string := {| session := s; user := Some "ann"%string |}.
Definition nobody (s : Z) : Caller Z string := {| session := s; user := None |}.

(** Ann reports from two sessions, a connection without a name twice, and a
    renewal of a session ann was seen to own fails twice. *)
Definition busy_day : list (Call Z string) :=
  [Report (ann 1) UnresolvableSubscription 2 10;
   Report (nobody 7) UnresolvableSubscription 1 11;
   Report (ann 2) UnresolvableSubscription 2 12;
   Report (nobody 7) UnresolvableSubscription 1 13;
   ForgetConnection 7;
   Report (nobody 7) UnresolvableSubscription 1 14;
   LearnOwner 3 "ann"%string 15;
   RefreshFailed 3 16 16 17;
   RefreshFailed 3 18 18 18;
   Report (ann 1) UnresolvableSubscription 5 19].

Definition banned_for (s : Z) (sig : Signal) (n : Z) : Crossing Z string :=
  {| x_user_id := "ann"%string; x_session := s; x_signal := sig; x_limit := n; x_window := MINUTE;
     x_count := n; x_proposed := BanPermanently |}.

Lemma guard_refines_witness :
  (run_calls guard_step (new_guard default_config strict_config 0) busy_day).1 =
  [Reacted Continue None; Reacted Continue None;
   Reacted Continue (Some (banned_for 2 UnresolvableSubscription 3));
   Reacted Close None; Done; Reacted Continue None; Done;
   Waited None None; Waited None (Some (banned_for 3 FailedRenewal 2));
   Reacted Continue None].
Proof.
  rewrite (guard_refines default_config strict strict_config 0 {[7; 3]} {["ann"%string]} busy_day);
    [by vm_compute|by vm_compute|exact strict_sane|by vm_compute|by vm_compute| |].
  - repeat constructor; simpl; set_solver.
  - simpl. unfold DURATION_MAX, u64_max, SECOND. lia.
Defined.

Lemma crossings_earned_witness :
  crossings_of "ann" UnresolvableSubscription
    (run_calls guard_step (new_guard default_config strict_config 0) busy_day).1
    * limit_max (person_limit (config_person strict_config) UnresolvableSubscription) <= 9.
Proof.
  assert (E : reports_of "ann" UnresolvableSubscription busy_day = 9) by by vm_compute.
  rewrite <- E.
  apply (crossings_earned default_config strict strict_config 0 {[7; 3]} {["ann"%string]} busy_day
    "ann" UnresolvableSubscription);
    [by vm_compute|exact strict_sane|by vm_compute|by vm_compute|by vm_compute| |].
  - repeat constructor; simpl; set_solver.
  - simpl. unfold DURATION_MAX, u64_max, SECOND. lia.
Defined.

(** ** Bans *)

Definition shop : Deployment (SessionId := Z) (Id := string) :=
  {| bans_configured := true; enforcement := None; audited := true; closing := true |}.

Definition crossing : Crossing Z string := banned_for 2 UnresolvableSubscription 3.

(** The crossing's task asks, imposes, and is about to report. *)
Definition mid_ban : World (SessionId := Z) (Id := string) :=
  run_task id shop Ran 0 (run_task id shop Ran 0 (enforce shop crossing (start 5))).

Lemma mid_ban_reached : rtc (ban_step id shop) (start 5) mid_ban.
Proof.
  eapply rtc_l; [exact (s_enforce id shop (start 5) crossing eq_refl)|].
  eapply rtc_l; [apply (s_task id shop _ Ran 0)|].
  eapply rtc_l; [apply (s_task id shop _ Ran 0)|]. apply rtc_refl.
Qed.

Lemma bans_accounted_witness :
  table mid_ban !! "ann"%string <> None /\ length (audit_log mid_ban) = 0%nat.
Proof.
  split; [|by vm_compute].
  apply (proj1 (bans_accounted id shop 5 mid_ban "ann"%string mid_ban_reached)). by vm_compute.
Defined.

(** A ban whose statement took effect with its answer lost: the row refuses the
    person, nothing is audited, and no connection is closed. *)
Definition unheard_ban : World (SessionId := Z) (Id := string) :=
  run_task id shop Unheard 0 (run_task id shop Ran 0 (enforce shop crossing (start 5))).

Theorem unheard_ban_unreported :
  is_Some (table unheard_ban !! "ann"%string) /\ tasks unheard_ban = [] /\
  audit_log unheard_ban = [] /\ closed unheard_ban = [].
Proof. split; [by eexists|done]. Qed.

Lemma ban_holds_witness :
  is_ok (banned shop false 100 "ann"%string (table mid_ban)) = false /\
  match banned shop true 100 "ann"%string (table mid_ban) with Ok (Some b) => applies b = true | _ => False end.
Proof.
  split; [done|].
  pose proof (ban_holds id shop 5 mid_ban "ann"%string true 100 mid_ban_reached eq_refl eq_refl eq_refl) as H.
  destruct (banned _ _ _ _ _) as [[b|]|]; [by destruct H|done|done].
Defined.
