(* ===== verification/DemoLog.v ===== *)
(** Concrete positions, fences and changes, on which the theorems about cursors,
    the reconnect log and the change feed apply, and four histories that show
    where the log's promises end. *)

From Stdlib Require Import ZArith Lia Sorted.
From stdpp Require Import base numbers option strings list relations proof_irrel.
From S2P Require Import Prelude Cursor Oplog Catchup Feed.

Open Scope Z_scope.

(** ** Positions: three parts, each of its width *)

#[local] Instance in_u64_dec z : Decision (in_u64 z).
Proof. unfold in_u64. apply _. Defined.
#[local] Instance in_u32_dec z : Decision (in_u32 z).
Proof. unfold in_u32. apply _. Defined.

Definition parts_okb (l x o : Z) : bool :=
  bool_decide (in_u64 l) && bool_decide (in_u32 x) && bool_decide (in_u64 o).

Record DemoPos := { d_lsn : Z; d_xid : Z; d_ord : Z; d_ok : parts_okb d_lsn d_xid d_ord = true }.

Lemma demo_pos_eq p q : d_lsn p = d_lsn q -> d_xid p = d_xid q -> d_ord p = d_ord q -> p = q.
Proof. destruct p, q. simpl. intros -> -> ->. f_equal. apply proof_irrel. Qed.

Lemma parts_ok_spec l x o : parts_okb l x o = true <-> in_u64 l /\ in_u32 x /\ in_u64 o.
Proof. unfold parts_okb. rewrite !andb_true_iff, !bool_decide_eq_true. tauto. Qed.

Lemma demo_wrap l x o : parts_okb (wrap_u64 l) (wrap_u32 x) (wrap_u64 o) = true.
Proof.
  apply parts_ok_spec. split_and!; try apply wrap_u64_range.
  unfold in_u32, wrap_u32, u32_max. pose proof (Z.mod_pos_bound x 4294967296). lia.
Qed.

Definition demo_new (l x o : Z) : DemoPos :=
  {| d_lsn := wrap_u64 l; d_xid := wrap_u32 x; d_ord := wrap_u64 o; d_ok := demo_wrap l x o |}.

Definition demo_opaque (p : DemoPos) : bytes :=
  be_bytes 8 (d_lsn p) ++ be_bytes 4 (d_xid p) ++ be_bytes 8 (d_ord p).

#[export] Instance demo_position : PgPosition DemoPos := {|
  commit_lsn := d_lsn; xid := d_xid; ordinal := d_ord;
  new_position := demo_new; before_commit := fun l => demo_new l 0 0;
  at_commit := fun l x => demo_new l x u64_max;
  pos_cmp := fun p q => cmp_parts (d_lsn p, d_xid p, d_ord p) (d_lsn q, d_xid q, d_ord q);
  to_opaque := demo_opaque;
  from_opaque := fun b =>
    if decide (length b = 20%nat) then
      Some (demo_new (from_be (take 8 b)) (from_be (take 4 (drop 8 b))) (from_be (drop 4 (drop 8 b))))
    else None;
|}.

Lemma wrap_u32_small z : in_u32 z -> wrap_u32 z = z.
Proof. unfold in_u32, wrap_u32, u32_max. intros. apply Z.mod_small. lia. Qed.

Lemma demo_ranges p : in_u64 (d_lsn p) /\ in_u32 (d_xid p) /\ in_u64 (d_ord p).
Proof. apply parts_ok_spec, d_ok. Qed.

Lemma demo_new_parts p : demo_new (d_lsn p) (d_xid p) (d_ord p) = p.
Proof.
  destruct (demo_ranges p) as (? & ? & ?).
  apply demo_pos_eq; simpl; [by apply wrap_u64_small|by apply wrap_u32_small|by apply wrap_u64_small].
Qed.

#[export] Instance demo_position_laws : PgPositionLaws DemoPos.
Proof.
  constructor.
  - intros p. apply demo_ranges.
  - intros p. apply demo_ranges.
  - intros p. apply demo_ranges.
  - apply demo_new_parts.
  - intros l x o Hl Hx Ho. unfold parts. simpl. by rewrite !wrap_u64_small, wrap_u32_small.
  - done.
  - intros l Hl. simpl. by rewrite wrap_u64_small.
  - intros l p Hl Hle. destruct (demo_ranges p) as (_ & Hx & Ho).
    unfold in_u32, in_u64 in Hx, Ho. simpl commit_lsn in Hle.
    unfold pos_cmp, before_commit, demo_position, demo_new. cbn [d_lsn d_xid d_ord].
    rewrite wrap_u64_small by done. change (wrap_u32 0) with 0. change (wrap_u64 0) with 0.
    unfold cmp_parts. destruct (Z.compare_spec l (d_lsn p)); [|done|lia].
    destruct (Z.compare_spec 0 (d_xid p)); [|done|lia].
    destruct (Z.compare_spec 0 (d_ord p)); [done|done|lia].
  - intros p. simpl. unfold demo_opaque. by rewrite !length_app, !length_be_bytes.
  - intros p. simpl. unfold demo_opaque. repeat apply Forall_app_2; apply wf_be_bytes.
  - intros p. simpl. unfold demo_opaque.
    rewrite decide_True by (by rewrite !length_app, !length_be_bytes).
    rewrite (drop_app_length' (be_bytes 8 _)), (take_app_length' (be_bytes 8 _))
      by (by rewrite length_be_bytes).
    rewrite (drop_app_length' (be_bytes 4 _)), (take_app_length' (be_bytes 4 _))
      by (by rewrite length_be_bytes).
    destruct (demo_ranges p) as (? & ? & ?). rewrite !from_be8, from_be4 by done.
    by rewrite demo_new_parts.
  - intros p q. destruct (demo_ranges p) as (? & ? & ?), (demo_ranges q) as (? & ? & ?).
    simpl. unfold demo_opaque, in_u64, in_u32, u64_max, u32_max in *.
    rewrite bytes_cmp_app by (by rewrite !length_be_bytes). rewrite bytes_cmp_be by (simpl; lia).
    destruct (d_lsn p ?= d_lsn q); [|done..].
    rewrite bytes_cmp_app by (by rewrite !length_be_bytes). rewrite bytes_cmp_be by (simpl; lia).
    destruct (d_xid p ?= d_xid q); [|done..]. rewrite bytes_cmp_be by (simpl; lia). done.
Qed.

(** ** Fences: the unseen transactions of the text, and the insert position *)

Record DemoFence := { df_text : bytes; df_insert : Z }.

Definition text_unseen (s : bytes) : Unseen :=
  let fields := drop 1 (split_on 58 s) in
  {| unseen_from := default 0 (t ← fields !! 0%nat; low_bits t);
     running := match fields !! 1%nat with Some l => omap low_bits (split_on 44 l) | None => [] end |}.

#[export] Instance demo_fence : PgFence DemoPos DemoFence := {|
  parse_fence := fun s l =>
    if decide (length (split_on 58 s) = 3%nat) then Some {| df_text := s; df_insert := l |} else None;
  insert_lsn := df_insert;
  seen_by := fun p f =>
    if decide (df_insert f <= d_lsn p) then Beyond
    else if unseen_contains (text_unseen (df_text f)) (d_xid p) then Missed else Held;
  invalid_xid := 0;
|}.

#[export] Instance demo_fence_laws : PgFenceLaws DemoPos DemoFence.
Proof.
  constructor.
  - intros s l f Hf. simpl in Hf. case_decide; by simplify_eq.
  - simpl. unfold in_u32, u32_max. lia.
Qed.

(** ** Cursors *)

Definition cluster : Z := 7688797528129531953.
Definition at_lsn (x l : Z) : DemoPos := demo_new l x 1.

(** [740:745:741,742], read at 0x2000. *)
Definition demo_text : bytes := bytes_of_string "740:745:741,742".
Definition demo_read_fence : ReadFence DemoFence :=
  {| snapshot := demo_text; fence := {| df_text := demo_text; df_insert := 8192 |} |}.

Lemma demo_fence_ok : fence_ok (P := DemoPos) demo_read_fence.
Proof. split_and!; [by vm_compute|unfold in_u64, u64_max; simpl; lia|by vm_compute]. Qed.

Lemma demo_fences_ok g : Some demo_read_fence = Some g -> fence_ok (P := DemoPos) g.
Proof. intros [= <-]. apply demo_fence_ok. Qed.

Lemma cursor_roundtrip_witness :
  from_fenced_cursor (fenced_cursor_bytes
    {| system := cluster; timeline := 2; at_ := at_lsn 739 32 |} (Some demo_read_fence)) =
  Some ({| system := cluster; timeline := 2; at_ := at_lsn 739 32 |}, Some demo_read_fence).
Proof.
  refine (proj1 (cursor_roundtrip {| system := cluster; timeline := 2; at_ := at_lsn 739 32 |}
    (Some demo_read_fence) [] _ demo_fences_ok)).
  unfold position_ok, in_u64, in_u32, u64_max, u32_max, cluster. simpl. lia.
Defined.

Lemma cursor_order_witness :
  bytes_cmp (to_cursor_bytes {| system := cluster; timeline := 1; at_ := at_lsn 1 255 |})
            (to_cursor_bytes {| system := cluster; timeline := 2; at_ := at_lsn 1 16 |}) = Lt.
Proof.
  rewrite (cursor_order {| system := cluster; timeline := 1; at_ := at_lsn 1 255 |}
                        {| system := cluster; timeline := 2; at_ := at_lsn 1 16 |}); [by vm_compute|..];
    unfold position_ok, in_u64, in_u32, u64_max, u32_max, cluster; simpl; lia.
Defined.

Definition first_line : TimelineHistory := first_history cluster.
Definition second_line : TimelineHistory :=
  {| h_system := cluster; current := 2; ended := [(1, 16)] |}.

Lemma resume_across_promotion_witness :
  resume_of (P := DemoPos) (F := DemoFence) (Some (fenced_cursor_bytes
    {| system := cluster; timeline := 1; at_ := at_lsn 7 15 |} None)) second_line = At (at_lsn 7 15) None /\
  resume_of (P := DemoPos) (F := DemoFence) (Some (fenced_cursor_bytes
    {| system := cluster; timeline := 1; at_ := at_lsn 7 16 |} None)) second_line = BeyondHistory.
Proof.
  assert (Hh : history_ok first_line).
  { unfold history_ok, in_u64, in_u32, u64_max, u32_max, first_line, cluster. simpl.
    unfold FIRST_TIMELINE. lia. }
  assert (Hp : promoted first_line second_line 16).
  { by split_and!. }
  split.
  - destruct (resume_across_promotion first_line second_line 16 (at_lsn 7 15) None Hh)
      as (_ & _ & _ & H4 & _); [done|done|done|]. apply H4. by vm_compute.
  - destruct (resume_across_promotion first_line second_line 16 (at_lsn 7 16) None Hh)
      as (_ & _ & H3 & _); [done|done|done|]. apply H3. unfold pos_le. vm_compute. by intros [].
Defined.

Lemma xid_ranges_exact_witness :
  selects {| running := []; unseen_from := 4294967294 |} 3 = true.
Proof.
  etrans; [apply (xid_ranges_exact {| running := []; unseen_from := 4294967294 |} 3)|by vm_compute];
    unfold in_u32, u32_max; simpl; lia.
Defined.

(** ** The log in memory *)

Definition wide : OplogConfig := {| max_entries := 100; max_age := 1000000000000 |}.
Definition narrow : OplogConfig := {| max_entries := 1; max_age := 1000000000000 |}.

Definition change_at (x l : Z) : ChangeRecord DemoPos unit :=
  {| r_table := "t"; r_pk := [];
     r_event := {| change := tt; kind := EInsert; position := at_lsn x l |}; r_payload := [] |}.

(** 741 commits while the snapshot does not see it; 739 it holds; 750 is new. *)
Definition missed_change := change_at 741 16.
Definition held_change := change_at 739 32.
Definition new_change := change_at 750 9000.

Definition logged (cfg : OplogConfig) (l : list (ChangeRecord DemoPos unit)) : Inner DemoPos unit :=
  foldl (fun i r => m_append cfg 1 r i) new_inner l.

Lemma demo_fence_complete : fence_complete (P := DemoPos) (Some demo_read_fence).
Proof.
  intros g p [= <-] Hs.
  change (unseen (P := DemoPos) demo_read_fence) with (text_unseen demo_text).
  change (seen demo_read_fence p) with
    (if decide (8192 <= d_lsn p) then Beyond
     else if unseen_contains (text_unseen demo_text) (d_xid p) then Missed else Held) in Hs.
  change (xid p) with (d_xid p).
  destruct (unseen_contains (text_unseen demo_text) (d_xid p)); [done|]. by case_decide.
Qed.

Lemma in_order_steps cfg (l : list (ChangeRecord DemoPos unit)) :
  StronglySorted before l ->
  rtc (log_step (OP := InMemoryOplog cfg)) (new_inner, [], 0) (logged cfg l, l, match l with [] => 0 | _ => 1 end).
Proof.
  intros Hs. induction l as [|r l IH] using rev_ind; [done|].
  apply ordered_app in Hs as (Hs & _ & Hb). eapply rtc_r; [by apply IH|].
  replace (match l ++ [r] with [] => 0 | _ => 1 end) with 1 by (by destruct l).
  unfold logged. rewrite foldl_app. simpl. eapply (step_append (OP := InMemoryOplog cfg)).
  - destruct l; lia.
  - intros r' Hr'. apply Hb; [done|by left].
  - done.
Qed.

Definition day_log : list (ChangeRecord DemoPos unit) := [missed_change; held_change; new_change].

Lemma day_ordered : StronglySorted before day_log.
Proof. repeat constructor; by vm_compute. Qed.

(** Resuming from the snapshot's read at 0x30. *)
Definition demo_from : DemoPos := before_commit 48.

Lemma day_reads cfg :
  reads (OP := InMemoryOplog cfg) demo_from (Some demo_read_fence) day_log
    (m_current_position (logged cfg day_log))
    (m_entries_of (unseen (P := DemoPos) demo_read_fence) (logged cfg day_log))
    (m_entries_since demo_from (logged cfg day_log)) (m_min_position (logged cfg day_log)).
Proof.
  eapply (reads_of (OP := InMemoryOplog cfg)).
  - exact (in_order_steps cfg day_log day_ordered).
  - apply rtc_refl.
  - intros g [= <-]. done.
  - apply rtc_refl.
  - done.
  - apply rtc_refl.
Qed.

Lemma catchup_replays_owed_witness :
  replayed (m_current_position (logged wide day_log))
    (catchup_entries demo_from (Some demo_read_fence)
      (m_entries_of (unseen (P := DemoPos) demo_read_fence) (logged wide day_log))
      (m_entries_since demo_from (logged wide day_log))) = [missed_change; new_change].
Proof.
  rewrite (catchup_replays_owed (OP := InMemoryOplog wide) (OL := InMemoryOplog_laws wide)
    demo_from (Some demo_read_fence) day_log _ _ _ _ (day_reads wide));
    [by vm_compute|by vm_compute|exact demo_fence_complete|].
  intros r Hr _ _. exists (at_lsn 741 16). split; [by vm_compute|].
  unfold day_log in Hr. set_unfold in Hr. destruct Hr as [->|[->|[->|[]]]]; by vm_compute.
Defined.

(** With room for one record only, the change the snapshot missed is pruned while
    the log still reaches the cursor: the resume goes ahead and the change is
    never sent. The decision looks at the cursor and not at its fence. *)
Theorem missed_change_lost :
  exists ceiling of_ since_ min,
    reads (OP := InMemoryOplog {| max_entries := 2; max_age := 1000000000000 |})
      demo_from (Some demo_read_fence) day_log ceiling of_ since_ min /\
    catchup_decision demo_from min ceiling = Catchup /\
    missed_change ∈ day_log /\ owed demo_from (Some demo_read_fence) missed_change = true /\
    replayed ceiling (catchup_entries demo_from (Some demo_read_fence) of_ since_) = [new_change].
Proof.
  do 4 eexists. split; [apply day_reads|]. split_and!; [by vm_compute|by left|by vm_compute|by vm_compute].
Qed.

(** ** The change feed *)

#[local] Abbreviation DemoFeed := (Feed (P := DemoPos) (C := unit) (St := Inner DemoPos unit)).
#[local] Instance wide_log : Oplog DemoPos unit (Inner DemoPos unit) Empty_set := InMemoryOplog wide.
#[local] Instance wide_log_laws : OplogLaws unit (Inner DemoPos unit) Empty_set :=
  InMemoryOplog_laws wide.

Definition txn (x l : Z) : list (ChangeRecord DemoPos unit) * PgCommit DemoPos :=
  ([change_at x l], {| c_position := at_commit l x; end_lsn := l + 10 |}).

Lemma txn_is_ok x l :
  0 <= l < 1000000 -> 0 <= x < 1000000 -> txn_ok (txn x l).1 (txn x l).2.
Proof.
  intros Hl Hx. assert (El : wrap_u64 l = l) by (apply wrap_u64_small; unfold in_u64, u64_max; lia).
  assert (Ex : wrap_u32 x = x) by (apply wrap_u32_small; unfold in_u32, u32_max; lia).
  split_and!; simpl; rewrite ?El.
  - unfold in_u64, u64_max. lia.
  - lia.
  - repeat constructor.
  - apply Forall_singleton. simpl. split; [done|]. unfold r_position. simpl.
    apply pos_lt_iff. right. split; [done|]. right. split; [done|]. by vm_compute.
Qed.

(** A transaction that a promotion loses, and two on the new timeline, the first
    delivered and acknowledged, the second up to its row. *)
Definition streaming : DemoFeed := {|
  wal := transaction (txn 7 10).1 (txn 7 10).2 ++ transaction (txn 8 30).1 (txn 8 30).2;
  wal_end := 40; slot := 20;
  log := m_append wide 2 (change_at 8 30)
           (m_record_commit (txn 7 10).2 (m_append wide 1 (change_at 7 10) new_inner));
  now := 2; resume := Some (at_lsn 8 30); history := Some first_line; stream := Some 3%nat;
  top := Some (at_lsn 8 30); passed := 3 |}.

#[local] Ltac feed_move c tac :=
  eapply rtc_l; [exists c; split; [|tac]|cbn [wal wal_end slot log now resume history stream top passed]].

Lemma streaming_reached : rtc orderly_step (fresh_feed 0 0) streaming.
Proof.
  feed_move (@Ordinary DemoPos unit) ltac:(apply (f_commit _ (txn 6 5).1 (txn 6 5).2); [by apply txn_is_ok|by vm_compute]); [done|].
  feed_move (@Promoted DemoPos unit 0 0) ltac:(apply (f_promoted _ 0 0 0); [done|by constructor|done..]); [by split|].
  feed_move (@Ordinary DemoPos unit) ltac:(apply (f_commit _ (txn 7 10).1 (txn 7 10).2); [by apply txn_is_ok|by vm_compute]); [done|].
  feed_move (@Ordinary DemoPos unit) ltac:(apply (f_open _ first_line None (Some first_line) new_inner None); [done|by vm_compute]); [done|].
  feed_move (Row 0 (change_at 7 10)) ltac:(eapply (f_row _ 0 (change_at 7 10) 20 1); [done|done|by vm_compute|done]);
    [intros Hlt; vm_compute in Hlt; lia|].
  feed_move (@Ordinary DemoPos unit) ltac:(eapply (f_ack _ 1 (txn 7 10).2); [done|done|done]); [done|].
  feed_move (@Ordinary DemoPos unit) ltac:(apply (f_commit _ (txn 8 30).1 (txn 8 30).2); [by apply txn_is_ok|by vm_compute]); [done|].
  feed_move (Row 2 (change_at 8 30)) ltac:(eapply (f_row _ 2 (change_at 8 30) 40 2); [done|done|by vm_compute|done]);
    [intros Hlt; vm_compute in Hlt; lia|].
  exact (rtc_refl _ streaming).
Qed.


(** Rows reach the log before their commit is recorded. A slot recreated in that
    window is past everything, and the check declares nothing because nothing was
    recorded: the change in between (at 0x30) is missing from what a client at
    the first row is caught up with. *)
Theorem unrecorded_gap_undeclared :
  let log1 := m_append wide 1 (change_at 7 10) new_inner in
  let log3 := m_append wide 3 (change_at 9 50) log1 in
  log_last_commit log1 = None /\ log_min log1 = Some (at_lsn 7 10) /\
  check_before_stream first_line (Some 40) log1 (Some first_line) (Some (at_lsn 7 10)) =
  (None, Some first_line, Some (at_lsn 7 10)) /\
  reconcile_stream 40 log1 (Some (at_lsn 7 10)) = Ok (None, log1, Some (at_lsn 7 10)) /\
  prefix_len (skips 40 (Some (at_lsn 7 10)))
    (transaction (txn 7 10).1 (txn 7 10).2 ++ transaction (txn 8 30).1 (txn 8 30).2) = 4%nat /\
  catchup_decision (at_lsn 7 10) (log_min log3) (log_current log3) = Catchup /\
  log_since (at_lsn 7 10) log3 = Ok [change_at 9 50].
Proof. split_and!; by vm_compute. Qed.

(** A promotion that lost changes the feed had delivered: the old timeline ended
    at 0x18, the log in memory holds the lost row at 0x1e. The check stores the
    new history, closes the connections and forgets the resume point, and leaves
    the log alone; the log then drops the row the new primary commits at 0x1c,
    below its watermark, and a client at the first row, whose cursor is still in
    the history, is caught up with the lost row and without the new one. *)
Definition promoted_line : TimelineHistory :=
  {| h_system := cluster; current := 2; ended := [(1, 24)] |}.

Theorem promotion_keeps_lost_rows :
  let old := m_append wide 2 (change_at 8 30)
               (m_record_commit (txn 7 10).2 (m_append wide 1 (change_at 7 10) new_inner)) in
  let cursor := fenced_cursor_bytes {| system := cluster; timeline := 1; at_ := at_lsn 7 10 |} None in
  reconcile_before_stream promoted_line (Some 20) old (Some first_line) (Some (at_lsn 8 30)) =
  Ok (None, Some promoted_line, old, None) /\
  (reconcile_history promoted_line (Some first_line) (Some (at_lsn 8 30))).2 = true /\
  m_append wide 3 (change_at 9 28) old = old /\
  resume_of (P := DemoPos) (F := DemoFence) (Some cursor) promoted_line = At (at_lsn 7 10) None /\
  catchup_decision (at_lsn 7 10) (log_min old) (log_current old) = Catchup /\
  log_since (at_lsn 7 10) old = Ok [change_at 8 30].
Proof. split_and!; by vm_compute. Qed.

(** ** The log in Postgres *)

#[local] Instance unit_codec : EventCodec unit := {|
  to_json := fun e => Some [match e.2 with EInsert => 0 | EUpdate => 1 | EDelete => 2 | ETruncate => 3 end];
  from_json := fun b => match b with
    | [0] => Some (tt, EInsert) | [1] => Some (tt, EUpdate)
    | [2] => Some (tt, EDelete) | [3] => Some (tt, ETruncate) | _ => None end;
|}.
#[local] Instance unit_codec_laws : EventCodecLaws unit.
Proof. constructor. intros [[] k] b [= <-]. by destruct k. Qed.

Definition one_row : PgState := {|
  rows := [{| key := (10, 7, 1); table_name := "t"; op := Insert; pk := []; tombstone := false;
              event := [0]; payload := []; appended_at := 1 |}]; commit_row := None |}.

(** The watermark of the table is its last row, so it falls when that row goes:
    in memory it stays. *)
Theorem watermark_falls_in_postgres :
  p_append wide 1 (change_at 7 10) new_pg = Ok one_row /\
  p_current_position one_row = Some (at_lsn 7 10) /\
  p_forget_through (at_lsn 7 10) one_row = Ok new_pg /\
  p_current_position (P := DemoPos) new_pg = None /\
  m_current_position (m_forget_through (at_lsn 7 10) (m_append wide 1 (change_at 7 10) new_inner)) =
  Some (at_lsn 7 10).
Proof. split_and!; by vm_compute. Qed.
