(* ===== verification/DemoPeers.v ===== *)
(** Concrete inputs for the peer files: a codec of a few frames, discovery
    histories, and nodes whose certificates are their own serials. The theorems of
    [Frames], [Discovery] and [Links] are applied to them, and two interleavings of
    a node's threads are run to their end. *)

From stdpp Require Import base list numbers option strings gmap.
From S2P Require Import Prelude Backoff Frames Discovery Links.
Open Scope Z_scope.

(** ** Frames *)

Definition demo_to_vec (f : Peer.PeerFrame) : option bytes :=
  match f with
  | Peer.Ping => Some [0]
  | Peer.Pong => Some [1]
  | Peer.Close Peer.Closed => Some [2]
  | Peer.Close Peer.Duplicate => Some [3]
  | _ => None
  end.
Definition demo_from_slice (b : bytes) : option Peer.PeerFrame :=
  match b with
  | [0] => Some Peer.Ping
  | [1] => Some Peer.Pong
  | [2] => Some (Peer.Close Peer.Closed)
  | [3] => Some (Peer.Close Peer.Duplicate)
  | _ => None
  end.
#[export] Instance demo_pack : MsgPack Peer.PeerFrame :=
  {| to_vec_named := demo_to_vec; from_slice := demo_from_slice |}.
#[export] Instance demo_pack_laws : MsgPackLaws Peer.PeerFrame.
Proof. constructor. by intros [| |[]| | | |] b; simpl; intros [= <-]. Qed.

Lemma framed_roundtrip_witness :
  Codec.decode_framed_with_limit ([0; 0; 0; 1; 1] ++ [9]) 8 = Ok (Peer.Pong, 5) /\
  Codec.decode_framed_with_limit (A := Peer.PeerFrame) [0; 0; 0; 1] 8 = Err (Codec.FrameTruncated 1 0).
Proof.
  destruct (framed_roundtrip Peer.Pong [0; 0; 0; 1; 1] [9] 8) as [H1 H2]; [vm_compute; reflexivity|].
  split; [apply H1; vm_compute; discriminate|]. apply (H2 4%nat). simpl. lia.
Defined.

Lemma websocket_delivers_witness :
  WebSocket.recv_all 3 [Some (WebSocket.Binary [0; 0]); Some WebSocket.WsOther;
    Some (WebSocket.Binary [1; 1]); Some WebSocket.WsClose] =
  ([WebSocket.InControl Peer.Ping; WebSocket.InBulk Peer.Pong], Some (Ok None)).
Proof.
  apply (websocket_delivers (Control := Peer.PeerFrame) (Bulk := Peer.PeerFrame)
    [WebSocket.InControl Peer.Ping; WebSocket.InBulk Peer.Pong]).
  apply carries_frame; [reflexivity|]. apply carries_other. apply carries_frame; [reflexivity|].
  apply carries_end.
Defined.

Lemma reader_refines_stream_witness :
  exists rest, let '(os, st) := Peer.next_calls [1%nat; 0%nat]
      ([], Peer.data [[0; 0]; [0; 1; 0; 0]; [0; 0; 1]; [1]]) in
    Peer.delivered os ++ rest = [Peer.Ping; Peer.Pong] /\ Forall (Peer.clean rest) os /\
    Peer.read_all (S (length rest)) st = (rest, Some (Ok None)).
Proof.
  apply (reader_refines_stream [Peer.Ping; Peer.Pong] [0; 0; 0; 1; 0; 0; 0; 0; 1; 1]).
  - vm_compute. reflexivity.
  - reflexivity.
  - repeat constructor; discriminate.
Defined.

(** One dropped call, one frame, and the rest on the way. *)
Example reader_drops :
  (Peer.next_calls [1%nat; 2%nat] ([], Peer.data [[0; 0]; [0; 1; 0; 0]; [0; 0; 1]; [1]])).1 =
  [Peer.Dropped; Peer.Returned (Ok (Some Peer.Ping))].
Proof. vm_compute. reflexivity. Qed.

Definition demo_writer : Chunks.ChunkStream :=
  {| Chunks.inbound := []; Chunks.inbound_closed := false; Chunks.tx := Some true;
     Chunks.chunk := 2; Chunks.pending := []; Chunks.sent := [] |}.
Definition demo_reader : Chunks.ChunkStream :=
  {| Chunks.inbound := [[1; 2]; []; [3]; [4]]; Chunks.inbound_closed := true;
     Chunks.tx := Some true; Chunks.chunk := 2; Chunks.pending := []; Chunks.sent := [] |}.

Lemma chunk_stream_roundtrip_witness :
  exists b, Chunks.read_bytes (Chunks.reads [1%nat; 5%nat; 1%nat; 1%nat] demo_reader) = Some b /\
    b = [1; 2; 3; 4].
Proof.
  destruct (chunk_stream_roundtrip 2 [[1; 2; 3]; [4]] demo_writer [[1; 2]; []; [3]; [4]]
    [1%nat; 5%nat; 1%nat; 1%nat] demo_reader) as [_ (b & H1 & _ & H2)].
  - reflexivity.
  - reflexivity.
  - reflexivity.
  - repeat constructor; lia.
  - exists b. split; [exact H1|]. apply H2. simpl. lia.
Defined.

(** ** Discovery *)

Definition own_fp : Fingerprint := replicate 32 0.
Definition fp_at (n : nat) : Fingerprint := Z.of_nat n :: replicate 31 7.
Definition addr_at (n : nat) : SocketAddr := V4 (2130706433) (Z.of_nat n).

(** A device that has found the instances 1 to [n] in order. *)
Fixpoint finds (n : nat) : list Fingerprint * Policy.Policy :=
  match n with
  | O => ([], Policy.new own_fp true)
  | S n' =>
      let '(running, p) := finds n' in
      let '(started, p') := History.step (History.OpFound "n" (fp_at n) [addr_at n]) p in
      (started ++ running, p')
  end.
Lemma finds_history n : History.history (finds n).1 (finds n).2.
Proof.
  induction n as [|n IH]; [apply History.history_new|].
  cbn [finds]. destruct (finds n) as [running p].
  pose proof (History.history_step (History.OpFound "n" (fp_at (S n)) [addr_at (S n)]) running p IH) as H.
  by destruct (History.step _ p).
Qed.

Lemma dials_bounded_witness :
  length (finds 12).1 = 8%nat /\ NoDup (finds 12).1 /\
  list_to_set (finds 12).1 = Policy.in_flight (finds 12).2.
Proof.
  destruct (dials_bounded (finds 12).1 (finds 12).2 (finds_history 12)) as (H1 & _ & H2 & _).
  split; [vm_compute; reflexivity|]. split; [exact H1|exact H2].
Defined.

(** One of the eight running dials ends, and the oldest queued instance takes its
    place. *)
Definition freed : Policy.Policy := Policy.dial_result 0 (fp_at 8) Policy.DialRefused (finds 12).2.
Lemma freed_history : History.history (tail (finds 12).1) freed.
Proof.
  pose proof (finds_history 12) as H.
  apply (History.history_end 0 (fp_at 8) Policy.DialRefused [] (tail (finds 12).1)).
  replace ([] ++ fp_at 8 :: tail (finds 12).1) with (finds 12).1 by (vm_compute; reflexivity). exact H.
Qed.

Lemma due_oldest_first_witness :
  (Policy.due 0 freed).1 = [fp_at 9] /\
  Forall (fun a => Policy.seq_of freed a < Policy.seq_of freed (fp_at 11)) (Policy.due 0 freed).1.
Proof.
  pose proof (due_oldest_first (tail (finds 12).1) freed 0 freed_history) as H.
  assert (E : (Policy.due 0 freed).1 = [fp_at 9]) by (vm_compute; reflexivity).
  destruct (Policy.due 0 freed) as [started p']. simpl in *. subst started. split; [reflexivity|].
  apply (proj2 (proj2 H) (fp_at 11)).
  - eexists. split; [vm_compute; reflexivity|vm_compute; reflexivity].
  - intros Hin. apply list_elem_of_singleton in Hin. discriminate Hin.
Defined.

Lemma find_evicts_oldest_witness :
  let '(actions, p') := Policy.found "n" (fp_at 300) [addr_at 300] (finds 256).2 in
  Policy.Gone ∉ actions.
Proof.
  pose proof (find_evicts_oldest (finds 256).1 (finds 256).2 "n" (fp_at 300) [addr_at 300]
    (finds_history 256)) as H.
  assert (E : Policy.oldest_unlinked (Policy.instances (finds 256).2) = Some (fp_at 1))
    by (vm_compute; reflexivity).
  rewrite E in H. destruct (Policy.found _ _ _ _) as [actions p']. apply H.
  - assert (Ho : Policy.own (finds 256).2 = own_fp) by (vm_compute; reflexivity).
    rewrite Ho. discriminate.
  - vm_compute. reflexivity.
  - vm_compute. reflexivity.
Defined.

Lemma retries_back_off_witness :
  Policy.retry_of (fp_at 1)
    (Policy.dial_result 20 (fp_at 1) Policy.DialUnreachable
       (Policy.dial_result 10 (fp_at 1) Policy.DialUnreachable (finds 1).2)) =
  Some (20 + 10 * NANOS_PER_SEC).
Proof.
  pose proof (retries_back_off (finds 1).1 (finds 1).2 (fp_at 1)
    {| Policy.name := "n"; Policy.state := Policy.New; Policy.addresses := [addr_at 1];
       Policy.wait := Policy.FIRST_WAIT; Policy.retry_at := None; Policy.seq := 0 |} [10] 20
    (finds_history 1)) as H.
  etransitivity; [apply H; vm_compute; reflexivity|]. vm_compute. reflexivity.
Defined.

Lemma advert_roundtrip_witness : Advert.fingerprint_of (Advert.props own_fp) = Some own_fp.
Proof.
  apply (advert_roundtrip own_fp); [vm_compute; reflexivity|].
  apply Forall_replicate. unfold in_u8, u8_max. lia.
Defined.

(** A round in which a dial failed, so that a retry is pending. *)
Definition failed_round : Driver.Round :=
  let r0 := Driver.start_round (Policy.new own_fp true) (443, own_fp) None in
  let txt := Advert.props (fp_at 1) in
  match Driver.on_event (Driver.Resolved "n" txt [addr_at 1]) r0 with
  | (_, Driver.Go r1) =>
      match Driver.on_command 7 (Driver.DialOutcome_ (fp_at 1) Policy.DialUnreachable) r1 with
      | (_, Driver.Go r2) => r2
      | _ => r0
      end
  | _ => r0
  end.
Lemma failed_round_reach : Driver.reach failed_round.
Proof.
  pose proof (Driver.reach_serve own_fp true 443 None) as H0. unfold failed_round.
  set (r0 := Driver.start_round (Policy.new own_fp true) (443, own_fp) None) in *.
  destruct (Driver.on_event (Driver.Resolved "n" (Advert.props (fp_at 1)) [addr_at 1]) r0)
    as [effs1 [r1|b1 r1]] eqn:E1; [|exact H0].
  pose proof (Driver.reach_event _ _ _ _ H0 E1) as H1.
  destruct (Driver.on_command 7 (Driver.DialOutcome_ (fp_at 1) Policy.DialUnreachable) r1)
    as [effs2 [r2|b2 r2]] eqn:E2; [|exact H0].
  by eapply Driver.reach_command.
Qed.

Lemma retries_armed_witness :
  Driver.timers failed_round !! fp_at 1 = Some (7 + 5 * NANOS_PER_SEC).
Proof.
  apply (retries_armed failed_round (fp_at 1) (7 + 5 * NANOS_PER_SEC) failed_round_reach).
  vm_compute. reflexivity.
Defined.

(** ** Nodes *)

(** A certificate is its serial, its first byte its key id; a list revokes the
    serials it spells out, one byte each, and its number is its length. *)
#[export] Instance demo_x509 : X509 := {|
  certificate_serial := fun c => Some c;
  certificate_key_id := fun c => Some (take 1 c);
  verify_list := fun l signer =>
    Some {| rl_number := blen l; rl_revoked := (fun b => [b]) <$> l |};
  leaf_fingerprint := fun c => c;
|}.

Definition peer_of (k : KeyId) : DeviceIdentity := {| deployment := []; account := "ann"; key := k |}.
Definition demo_identity : Identity := {| id_certificate := [1]; id_issuer := [9]; id_key := [1] |}.
Definition shake (dialer : KeyId) (dial : Z) (peer : KeyId) (leaf : bytes) : Handshaken :=
  {| hs_peer := peer_of peer; hs_leaf := leaf; hs_issuer := [9]; hs_numbers := ∅; hs_dialer := dialer;
     hs_dial := dial; hs_presented := [1]; hs_remote := addr_at 1 |}.

Definition linked_sys : Sys :=
  let s1 := on_node (serve demo_identity true (node (start []))).2 (start []) in
  on_node (register_link (shake [1] 1 [2] [5]) (node s1)).2 s1.
Lemma linked_reach : reach [] linked_sys.
Proof.
  eapply reach_step; [|apply step_register]. eapply reach_step; [apply reach_start|apply step_serve].
Qed.

Definition keep_in (l : bytes) (s : Sys) : Sys :=
  {| node := (keep_insert l [9] (node s)).2; unsent := unsent s;
     sweeps := sweeps s ++ option_list (keep_insert l [9] (node s)).1; renewals := renewals s;
     stale := stale s |}.
Definition sweep_all (s : Sys) : Sys :=
  match sweeps s with
  | [kept] => {| node := keep_sweep kept (node s); unsent := unsent s; sweeps := []; renewals := renewals s;
                 stale := stale s |}
  | _ => s
  end.
Lemma keep_reach roots l s : reach roots s -> reach roots (keep_in l s).
Proof. intros H. eapply reach_step; [exact H|apply step_keep]. Qed.
Lemma sweep_reach roots s : reach roots s -> reach roots (sweep_all s).
Proof.
  intros H. unfold sweep_all. destruct (sweeps s) as [|kept [|]] eqn:E; [done| |done].
  eapply reach_step; [exact H|]. by apply (step_sweep kept [] []).
Qed.

Lemma link_reports_balanced_witness :
  count (is_linked [2]) (events (node linked_sys)) = 1%nat /\
  (is_Some (links (node linked_sys) !! [2]) <->
   count (is_linked [2]) (events (node linked_sys)) =
   S (count (is_unlinked [2]) (events (node linked_sys)))).
Proof.
  split; [vm_compute; reflexivity|].
  apply (link_reports_balanced [] linked_sys [2] linked_reach). vm_compute. reflexivity.
Defined.

(** The peer's leaf 5 is revoked while it is linked. *)
Definition revoked_sys : Sys := sweep_all (keep_in [5] linked_sys).
Lemma revoked_links_told_witness :
  CmdClose Peer.PeerRevoked ∈ mail_of (node revoked_sys) 1.
Proof.
  apply (revoked_links_told [] revoked_sys [2]
    {| slot_peer := peer_of [2]; slot_remote := addr_at 1; slot_leaf := [5]; slot_issuer := [9];
       slot_numbers := ∅; slot_dialer := [1]; slot_dial := 1; slot_seq := 1 |}).
  - apply sweep_reach, keep_reach, linked_reach.
  - vm_compute. reflexivity.
  - vm_compute. reflexivity.
  - vm_compute. reflexivity.
  - intros Hin. by apply not_elem_of_nil in Hin.
Defined.

Lemma kept_lists_newest_witness :
  NoDup (kl_issuer <$> lists (node (keep_in [5; 6] revoked_sys))).
Proof.
  apply (kept_lists_newest [] revoked_sys (keep_in [5; 6] revoked_sys)
    {| kl_issuer := [9]; kl_number := 1; kl_der := [5]; kl_signer := [9];
       kl_parsed := {| rl_number := 1; rl_revoked := [[5]] |} |}).
  - apply sweep_reach, keep_reach, linked_reach.
  - apply step_keep.
  - vm_compute. left.
Defined.

(** Both peers dial at once: the end with the lower key dialled the kept link. *)
Definition demo_hs (side : bool) (c : Conn) : Handshaken :=
  shake (c_dialer c) (c_dial c) (if side then [2] else [1]) (if side then [5] else [6]).
Definition demo_n0 (side : bool) : NodeState := (serve demo_identity true (new_node [])).2.
Lemma duplicate_rule_agrees_witness :
  exists m, m ∈ [{| c_dialer := [1]; c_dial := 1 |}; {| c_dialer := [2]; c_dial := 4 |}] /\
    forall a b, ends demo_hs [{| c_dialer := [1]; c_dial := 1 |}; {| c_dialer := [2]; c_dial := 4 |}] demo_n0 a b ->
      (m ∈ registered a -> held [2] a = Some m) /\ (m ∈ registered b -> held [1] b = Some m) /\
      m ∉ closes a /\ m ∉ closes b.
Proof.
  apply (duplicate_rule_agrees demo_hs (fun side : bool => if side then [2] else [1])).
  - discriminate.
  - by intros [] c.
  - by intros [].
Defined.

(** ** Two interleavings of a node's threads *)

(** A list kept between a renewal's verification and its installation: the revoked
    chain is put in place, and nothing tells the link to close. *)
Definition verified_sys : Sys :=
  {| node := node linked_sys; unsent := unsent linked_sys; sweeps := sweeps linked_sys;
     renewals := ([2], 1, [6], [9]) :: renewals linked_sys; stale := stale linked_sys |}.
Definition outrun_sys : Sys := sweep_all (keep_in [6] verified_sys).
Definition renewed_sys : Sys :=
  {| node := renew_slot [2] 1 [6] [9] (node outrun_sys); unsent := unsent outrun_sys;
     sweeps := sweeps outrun_sys; renewals := [] ++ [];
     stale := if chain_revoked (node outrun_sys) [6] [9] then 1 :: stale outrun_sys
              else stale outrun_sys |}.

Theorem renewal_outruns_list :
  reach [] renewed_sys /\ sweeps renewed_sys = [] /\ renewals renewed_sys = [] /\
  exists slot, links (node renewed_sys) !! [2] = Some (Live slot) /\
    chain_revoked (node renewed_sys) (slot_leaf slot) (slot_issuer slot) = true /\
    CmdClose Peer.PeerRevoked ∉ mail_of (node renewed_sys) (slot_seq slot).
Proof.
  split_and!; [|done|done|].
  - eapply reach_step; [|apply (step_renew [2] 1 [6] [9] [] [] outrun_sys); vm_compute; reflexivity].
    apply sweep_reach, keep_reach. eapply reach_step; [exact linked_reach|].
    apply step_verify. vm_compute. reflexivity.
  - eexists. split; [vm_compute; reflexivity|]. split; [vm_compute; reflexivity|].
    vm_compute. intros Hin. repeat (apply elem_of_cons in Hin as [Hin|Hin]; [discriminate Hin|]).
    by apply not_elem_of_nil in Hin.
Qed.

(** A list kept between a connection's hello and its registration: the hello sends
    nothing, the sweep finds no link, and the link stays without the list. *)
Definition missed_sys : Sys :=
  let s1 := on_node (serve demo_identity true (node (start []))).2 (start []) in
  let s2 := sweep_all (keep_in [8] s1) in
  on_node (register_link (shake [1] 1 [2] [5]) (node s2)).2 s2.

Theorem list_misses_registering_link :
  reach [] missed_sys /\ sweeps missed_sys = [] /\
  hello_lists (node (on_node (serve demo_identity true (node (start []))).2 (start []))) ∅ = [] /\
  exists slot, links (node missed_sys) !! [2] = Some (Live slot) /\
    Forall (fun kept => lacks (slot_numbers slot) kept = true) (lists (node missed_sys)) /\
    length (lists (node missed_sys)) = 1%nat /\ mail_of (node missed_sys) (slot_seq slot) = [].
Proof.
  split_and!; [|done|done|].
  - eapply reach_step; [|apply step_register]. apply sweep_reach, keep_reach.
    eapply reach_step; [apply reach_start|apply step_serve].
  - eexists. split; [vm_compute; reflexivity|]. split; [vm_compute; by repeat constructor|].
    split; vm_compute; reflexivity.
Qed.
