(* ===== verification/Demo.v ===== *)
(** A small concrete deployment: the third-party parts of the model
    instantiated by functions that satisfy their stated laws, so that the
    theorems can be applied to inputs that evaluate. *)

From Stdlib Require Import Ascii.
From stdpp Require Import base list numbers option strings gmap sets countable.
From S2P Require Import Prelude Wire Chain Backoff Plan WriterStore WriteTarget Settlement.
From S2P Require Import Session Mutation Answers WritePath Writers Courier.
Open Scope Z_scope.

(** ** A digest of the right length *)

Definition demo_digest (x : bytes) : bytes :=
  be_bytes 32 (foldl (fun a b => (a * 257 + b + 1) mod 2 ^ 256) 7 x).

#[export] Instance demo_sha : Sha256 := {| sha256 := demo_digest; sha256_length := fun x => length_be_bytes 32 _ |}.

(** ** Outcomes as text *)

#[export] Instance reason_countable : Countable MutationRejectReason.
Proof.
  refine (inj_countable
    (fun r => match r with
      | RUnauthorized => (0%nat, EmptyString) | RSchemaMismatch => (1%nat, EmptyString)
      | RConstraint d => (2%nat, d) | RMalformed d => (3%nat, d) | ROther d => (4%nat, d)
      | RIndeterminate => (5%nat, EmptyString) | RForked => (6%nat, EmptyString) end)
    (fun p => match p with
      | (0%nat, _) => Some RUnauthorized | (1%nat, _) => Some RSchemaMismatch
      | (2%nat, d) => Some (RConstraint d) | (3%nat, d) => Some (RMalformed d)
      | (4%nat, d) => Some (ROther d) | (5%nat, _) => Some RIndeterminate
      | _ => Some RForked end) _).
  by intros [].
Defined.

#[export] Instance stored_countable : Countable StoredValue.
Proof.
  refine (inj_countable'
    (fun v => match v with
      | SNull => inl (inl None) | SInteger z => inl (inl (Some z)) | SReal z => inl (inr z)
      | SText s => inr (inl s) | SBlob b => inr (inr b) end)
    (fun v => match v with
      | inl (inl None) => SNull | inl (inl (Some z)) => SInteger z | inl (inr z) => SReal z
      | inr (inl s) => SText s | inr (inr b) => SBlob b end) _).
  by intros [].
Defined.

#[export] Instance outcome_countable : Countable SettledOutcome.
Proof.
  refine (inj_countable'
    (fun o => match o with
      | Applied => inl None | Rejected r => inl (Some r)
      | Conflict t v cs vs => inr (t, v, cs, vs) end)
    (fun o => match o with
      | inl None => Applied | inl (Some r) => Rejected r
      | inr (t, v, cs, vs) => Conflict t v cs vs end) _).
  by intros [].
Defined.

Fixpoint text_of_pos (p : positive) : string :=
  match p with
  | xH => EmptyString
  | xO p' => String "0"%char (text_of_pos p')
  | xI p' => String "1"%char (text_of_pos p')
  end.

Fixpoint pos_of_text (s : string) : positive :=
  match s with
  | EmptyString => xH
  | String c s' =>
      if Ascii.eqb c "0"%char then xO (pos_of_text s') else xI (pos_of_text s')
  end.

Lemma pos_of_text_of_pos p : pos_of_text (text_of_pos p) = p.
Proof. induction p; simpl; congruence. Qed.

Definition demo_json (o : SettledOutcome) : string := text_of_pos (encode o).
Definition demo_from_json (s : string) : Result SettledOutcome string :=
  ok_or (decode (pos_of_text s)) "not an outcome".

Lemma demo_json_roundtrip o : json_safe o = true -> demo_from_json (demo_json o) = Ok o.
Proof.
  intros _. unfold demo_from_json, demo_json. by rewrite pos_of_text_of_pos, decode_encode.
Qed.

(** ** A catalog with one table, and tables that hold the applied diffsets *)

Definition notes : TableSchema := {| ts_name := "notes"; ts_primary_key_columns := [0%nat] |}.

Definition demo_parse (raw : bytes) : Result ParsedDiffSet string :=
  match raw with
  | [] => Err "empty"
  | 0 :: rest => Ok (PdChangeset [CsUpdate notes [(Some (WBlob rest), None)]])
  | _ => Ok (PdPatchset [PsInsert notes [WBlob raw]])
  end.

Definition demo_decompress (z : bytes) : Result bytes string :=
  match z with 255 :: _ => Err "corrupt" | _ => Ok z end.
Definition demo_compress (raw : bytes) : Result bytes string :=
  match raw with 255 :: _ => Err "unsupported" | _ => Ok raw end.

Lemma demo_compress_roundtrip raw z : demo_compress raw = Ok z -> demo_decompress z = Ok raw.
Proof.
  unfold demo_compress, demo_decompress. destruct raw as [|b raw]; [by intros [= <-]|].
  destruct (decide (b = 255)) as [->|Hne]; [done|].
  destruct b as [|b|b]; try (by intros [= <-]).
  repeat (destruct b as [b|b|]; try (by intros [= <-]); try done).
Qed.

#[export] Instance demo_catalog : Catalog := {|
  decompress := demo_decompress;
  compress := demo_compress;
  compress_roundtrip := demo_compress_roundtrip;
  parse_diffset := demo_parse;
  primary_key := fun _ => [WInteger 1];
  catalog_table_id := fun t => if decide (t = "notes") then Some 1 else None;
  catalog_column_id := fun _ c => if decide (c = "version") then Some 0%nat else None;
  catalog_column_name := fun _ i => if decide (i = 0%nat) then Some "id" else None;
  catalog_scalar_kind := fun _ _ => Some KOther;
  write_policy := build_versioned "notes" "version" {| rw_writable := ∅; rw_versions := ∅ |};
|}.

#[export] Instance demo_deployment : Deployment := {|
  Id := string;
  display := fun s => s;
  outcome_json := demo_json;
  outcome_from_json := demo_from_json;
  outcome_json_roundtrip := demo_json_roundtrip;
  App := list bytes;
  exists_row := fun _ app c =>
    Ok (bool_decide (Exists (fun raw => pc_basis c = WBlob raw) app));
  load_row_json := fun _ _ _ _ _ => Ok (Some "{}");
  json_get := fun _ _ => Ok None;
  pg_adapter := Ok tt;
  apply_diffset := fun _ app raw => Ok (1%nat, app ++ [raw]);
|}.

#[export] Instance demo_services : Services := {|
  may_write := fun _ _ _ _ => Ok true;
  has_enrolment := true;
  key_record := fun _ _ _ => Ok (Some {| kr_user := ("ann" : @Id demo_deployment); kr_revoked := false; kr_certificate_live := true;
    kr_public_key := [] |});
  spki_point := fun k => Some k;
  verify := fun _ _ sig => bool_decide (sig = [1]);
  write_retry_budget := 5 * NANOS_PER_SEC;
  mutation_limit := Some 1024;
  budget_range := ltac:(vm_compute; split; discriminate);
|}.

(** ** A session of one account's number writer *)

Definition ann : Caller :=
  {| pr_session_id := [9]; pr_identity := Some "ann" : option Id; pr_capabilities := [] |}.

Definition issued_db : Db := run_txs [TxIssue FNone (Some "ann" : option Id) None] (empty_db []).

Definition ann_writer : WriterRow :=
  {| row_writer := 1; row_user_id := Some "ann" : option Id; row_device_key := None;
     row_frontier := 0; row_head := None; row_retired_at := None |}.

Definition header_of (seq : Z) : MutationHeader :=
  {| mh_client_seq := seq; mh_op_count := 1; mh_provenance := None |}.
Definition patch_of (seq : Z) (payload : bytes) : MutationPatch :=
  {| mp_client_seq := seq; mp_patchset_zstd := payload |}.

Definition ann_state (seq : Z) : SessionState :=
  {| st_principal := ann; st_pending_header := Some (header_of seq);
     st_writer_row := Some ann_writer; st_session_id := [9]; st_bind_nonce := [];
     st_indeterminate := None; st_deferred := ∅; st_closing := false |}.

Definition quiet_env : Env :=
  {| en_access := []; en_link := []; en_permits := []; en_meter := []; en_reactions := [] |}.

Definition world_with (db : Db) (env : Env) (st : SessionState) : World :=
  {| w_db := db; w_env := env; w_out := []; w_audit := []; w_abuse := 0; w_questions := 0;
     w_seeds := 0; w_slept := 0; w_writer_sessions := ∅; w_closed := []; w_state := st |}.

(** Another session of the same writer takes sequence 1 first, with another
    upload, and the first commit of this session loses its acknowledgement. *)
Definition rival_spec : SettleSpec :=
  {| ss_writer := 1; ss_seq := 1; ss_entry_hash := entry_hash GENESIS 1 [8];
     ss_previous_hash := GENESIS; ss_path := Direct; ss_original := None |}.

Definition rival_env : Env :=
  {| en_access := [ {| ac_foreign := []; ac_fault := FNone |};
                    {| ac_foreign := [TxRefuse FNone rival_spec (Rejected RSchemaMismatch)];
                       ac_fault := FAmbiguous (DatabaseError ClosedConnection "gone") |} ];
     en_link := []; en_permits := []; en_meter := []; en_reactions := [] |}.

Example quiet_write_applies :
  w_out (handle_mutation (patch_of 1 [7]) (world_with issued_db quiet_env (ann_state 1))).2
  = [FMutationApplied 1].
Proof. vm_compute. reflexivity. Qed.

Example rival_write_forks :
  w_out (handle_mutation (patch_of 1 [7]) (world_with issued_db rival_env (ann_state 1))).2
  = [FMutationReject 1 RForked].
Proof. vm_compute. reflexivity. Qed.

Example gap_is_fatal :
  w_out (handle_mutation (patch_of 3 [7]) (world_with issued_db quiet_env (ann_state 3))).2
  = [FFatalError (SequenceGap 1 3)].
Proof. vm_compute. reflexivity. Qed.

Lemma issued_db_ok : db_ok [] issued_db.
Proof. apply (run_txs_ok (DP := demo_deployment)). apply empty_db_ok. Qed.

Lemma ann_world_ok env seq : world_ok [] (world_with issued_db env (ann_state seq)).
Proof.
  split; [apply issued_db_ok|]. simpl. intros row [= <-]. eexists.
  split; [vm_compute; reflexivity|]. simpl. split_and!; done || lia.
Qed.


(** ** Applications of the theorems *)

Definition ann_spec (seq : Z) (payload : bytes) : SettleSpec :=
  {| ss_writer := 1; ss_seq := seq; ss_entry_hash := entry_hash GENESIS seq payload;
     ss_previous_hash := GENESIS; ss_path := Direct; ss_original := None |}.

Definition one_op_plan : WritePlan :=
  {| wp_ops := [{| po_table_id := 1; po_write := PwInsert [VBytes [7]]; po_conflict := None |}] |}.

Definition applied_db : Db := (commit FNone ann one_op_plan [7] (ann_spec 1 [7]) issued_db).2.

Lemma commit_spec_witness :
  db_log applied_db
  = db_log issued_db ++ [LApplied (1, 1) None ann [7]].
Proof.
  assert (E : commit FNone ann one_op_plan [7] (ann_spec 1 [7]) issued_db
    = (Ok WoApplied, applied_db)) by (vm_compute; reflexivity).
  destruct (commit_spec _ _ _ _ _ _ _ _ _ issued_db_ok E)
    as (raw & original & [= <-] & [= <-] & _ & _ & H & _).
  exact H.
Defined.

Lemma covered_never_reapplied_witness :
  let db := (prune 1 1 applied_db).2 in
  let db' := (commit FNone ann one_op_plan [7] (ann_spec 1 [7]) db).2 in
  db_settled db !! (1, 1) = None /\ db_app db' = db_app db /\ db_log db' = db_log db.
Proof.
  split; [vm_compute; reflexivity|].
  apply (covered_never_reapplied (DP := demo_deployment) []).
  - apply (delete_settled_ok (DP := demo_deployment)).
    apply (commit_ok (DP := demo_deployment)). apply issued_db_ok.
  - left. eexists. split; [vm_compute; reflexivity|]. simpl. lia.
Defined.

Lemma commit_applies_then_redelivers_witness :
  exists db', commit FNone ann one_op_plan [7] (ann_spec 1 [7]) issued_db = (Ok WoApplied, db') /\
    db_app db' = [[7]] /\
    commit FNone ann one_op_plan [7] (ann_spec 1 [7]) db'
    = (Ok (WoSettled {| sm_row := own_row (ann_spec 1 [7]) (outcome_json Applied);
                        sm_forked := false |}), db').
Proof.
  destruct (commit_applies_then_redelivers ann one_op_plan [7] (ann_spec 1 [7]) issued_db
    (fresh_writer (DP := demo_deployment) (Some "ann") None None None) [7] 1 [[7]])
    as (db' & H1 & H2 & H3); [vm_compute; reflexivity|reflexivity|..].
  - simpl. unfold i64_max. lia.
  - reflexivity.
  - vm_compute. reflexivity.
  - reflexivity.
  - reflexivity.
  - reflexivity.
  - reflexivity.
  - simpl. lia.
  - exists db'. split; [done|]. split; [done|].
    etrans; [apply H3; reflexivity|]. rewrite bool_decide_true by done. reflexivity.
Defined.

Lemma plan_write_fail_closed_witness :
  exists raw parsed, decompress [0; 7] = Ok raw /\ parse_diffset raw = Ok parsed /\
    match parsed with
    | PdChangeset ops => Forall2 changeset_op_planned ops
        [{| po_table_id := 1; po_write := PwUpdate [VBytes [7]] [VBytes [7]];
            po_conflict := Some {| pc_table := "notes"; pc_version_column := "version";
              pc_basis := WBlob [7]; pc_pk_columns := ["id"]; pc_pk_values := [WInteger 1] |} |}]
    | PdPatchset ops => False
    end.
Proof.
  destruct (plan_write_fail_closed [0; 7]
    {| wp_ops := [{| po_table_id := 1; po_write := PwUpdate [VBytes [7]] [VBytes [7]];
         po_conflict := Some {| pc_table := "notes"; pc_version_column := "version";
           pc_basis := WBlob [7]; pc_pk_columns := ["id"];
           pc_pk_values := [WInteger 1] |} |}] |}) as (raw & parsed & H1 & H2 & H3).
  - vm_compute. reflexivity.
  - exists raw, parsed. split; [done|]. split; [done|].
    vm_compute in H1. injection H1 as <-. vm_compute in H2. injection H2 as <-. exact H3.
Defined.

Lemma chain_head_commits_witness :
  [[1; 2]; [3]] = [[1; 2]; [3]] \/ collision.
Proof.
  apply (chain_head_commits 5 [[1; 2]; [3]] [[1; 2]; [3]]).
  - reflexivity.
  - lia.
  - unfold u64_max. simpl. lia.
  - reflexivity.
Defined.

Definition key_a : bytes := replicate 32 1.
Definition courier_entries : list (Z * option Provenance) :=
  [(4, None); (5, Some {| pv_writer := Number 2; pv_seq := 9 |});
   (6, Some {| pv_writer := Device key_a; pv_seq := 1 |})].

Lemma courier_range_message_inj_witness :
  key_a = key_a /\ 6 = 6 /\ GENESIS = GENESIS /\ courier_entries = courier_entries.
Proof.
  apply courier_range_message_inj; try reflexivity;
    try (unfold in_u64, u64_max; simpl; lia);
    unfold courier_entries; repeat constructor; unfold in_u64, u64_max; simpl; lia.
Defined.

Lemma signed_messages_separated_witness :
  signed_kind (SignedBind [1]) = signed_kind (SignedBind [1]).
Proof. apply signed_messages_separated. reflexivity. Defined.

(** ** Sessions and device writers *)

Definition ann_world : World := world_with issued_db quiet_env (ann_state 1).

Lemma ann_inv_ok env seq : inv_ok (DP := demo_deployment) [] (world_with issued_db env (ann_state seq)).
Proof. split; [apply ann_world_ok|]. intros n [live Hl]. done. Qed.

Lemma past_frontier_answer_witness :
  (past_frontier 3 0 (world_with issued_db quiet_env (ann_state 3))).1 = Ok tt.
Proof.
  destruct (past_frontier_answer 3 0 (world_with issued_db quiet_env (ann_state 3)) eq_refl)
    as [H _]. exact H.
Defined.

Lemma applied_only_if_allowed_witness : plan_allowed ann [7].
Proof.
  apply (applied_only_if_allowed (patch_of 1 [7]) ann_world).
  - constructor.
  - vm_compute. discriminate.
Defined.

Definition ann_frames : list Incoming :=
  [InHeader (header_of 1); InPatch (patch_of 1 [7])].

Lemma session_keeps_invariant_witness :
  inv_ok (DP := demo_deployment) []
    (run_session ann [9] [] ReqIssue None ann_frames ann_world).2.
Proof.
  destruct (session_keeps_invariant (DP := demo_deployment) [] ann [9] [] ReqIssue None
    ann_frames ann_world (ann_inv_ok quiet_env 1)) as [H _]. exact H.
Defined.

Definition device_key : bytes := replicate 32 5.
Definition device_bind : BindDevice :=
  {| bd_request_id := "r"; bd_key_id := device_key; bd_signature := [1] |}.

Lemma bind_requires_key_witness :
  st_indeterminate (w_state (bind_device ("ann" : @Id demo_deployment) device_bind ann_world).2) = None.
Proof.
  destruct (bind_requires_key (DP := demo_deployment) "ann" device_bind ann_world 0
    (bind_device ("ann" : @Id demo_deployment) device_bind ann_world).2)
    as (_ & _ & row & live & _ & _ & _ & _ & H & _).
  - vm_compute. reflexivity.
  - exact H.
Defined.

(** Writer 2 is the device writer of [device_key]. *)
Definition device_db : Db := run_txs [TxInsertKey FNone (Some "ann" : option Id) device_key] issued_db.

Definition device_world : World := world_with device_db quiet_env (ann_state 1).

Lemma device_inv_ok : inv_ok (DP := demo_deployment) [] device_world.
Proof.
  split; [|by intros n [live Hl]]. split.
  - apply (run_txs_ok (DP := demo_deployment)), issued_db_ok.
  - simpl. intros row [= <-]. eexists.
    split; [vm_compute; reflexivity|]. simpl. split_and!; done || lia.
Qed.

Definition number_writer : WriterRec := fresh_writer (DP := demo_deployment) (Some "ann") None None None.
Definition device_writer : WriterRec :=
  fresh_writer (DP := demo_deployment) (Some "ann") None (Some device_key) None.

Lemma number_admits_own_witness :
  exists r db, db_le (w_db ann_world) db /\ db_writers db !! 1 = Some r /\
    wr_user_id r = Some "ann" /\ wr_retired_at r = None.
Proof.
  destruct (number_admits_own (DP := demo_deployment) [] ann [9] 1 None ann_world (Some ann_writer)
    (Some {| wg_number := 1; wg_frontier := 0 |})
    (admit_writer ann [9] (ReqNumber 1) None ann_world).2)
    as (r & db & H1 & _ & _ & H2 & H3 & _ & H4).
  - apply ann_inv_ok.
  - vm_compute. reflexivity.
  - exists r, db. done.
Defined.

Lemma number_admits_device_writer_witness :
  exists grant w', admit_writer ann [9] (ReqNumber 2) None device_world
    = (Ok (WriterAdmitted (Some (writer_row 2 device_writer)) grant), w').
Proof.
  destruct (number_admits_device_writer (DP := demo_deployment) ann "ann" [9] 2 device_key
    device_writer device_world) as (grant & w' & H & _); try reflexivity.
  - unfold i64_max. lia.
  - exists grant, w'. exact H.
Defined.

Lemma retire_number_closes_none_witness :
  w_closed (retire_writer (Some "ann" : option (@Id demo_deployment)) [9] (Number 1) 5 ann_world).2 = [].
Proof.
  apply (retire_number_closes_none (DP := demo_deployment) [] (Some "ann") [9] 1 5 number_writer ann_world).
  - apply ann_inv_ok.
  - reflexivity.
  - reflexivity.
Defined.

Lemma sweep_prunes_dead_only_witness :
  db_log (w_db (sweep_writer_rows device_world).2) = db_log (w_db device_world).
Proof.
  destruct (sweep_prunes_dead_only (DP := demo_deployment) device_world) as (_ & H & _);
    [constructor|exact H].
Defined.

(** ** A courier delivery *)

Definition courier_upload : list CourierEntry :=
  [{| ce_seq := 1; ce_changeset := [7]; ce_provenance := None |}].

Example courier_applies :
  (courier_deliver device_key courier_upload [1] [9] device_world).1 = Ok (Entries [Applied]).
Proof. vm_compute. reflexivity. Qed.

Lemma courier_reports_record_witness :
  exists d, (courier_deliver device_key courier_upload [1] [9] device_world).1 = Ok d /\
    delivery_reported device_key courier_upload d
      (courier_deliver device_key courier_upload [1] [9] device_world).2.
Proof.
  pose proof (courier_reports_record (DP := demo_deployment) [] device_key courier_upload [1] [9]
    device_world device_inv_ok) as H.
  pose proof courier_applies as E.
  destruct (courier_deliver device_key courier_upload [1] [9] device_world) as [r w'].
  simpl in E. subst r. destruct H as (_ & _ & H). exists (Entries [Applied]). split; [done|exact H].
Defined.

Lemma courier_range_vouched_witness :
  exists n r db, db_le (w_db device_world) db /\ db_writers db !! n = Some r /\
    wr_device_key r = Some device_key.
Proof.
  destruct (courier_range_vouched (DP := demo_deployment) [] device_key courier_upload [1] [9]
    device_world [Applied] (courier_deliver device_key courier_upload [1] [9] device_world).2)
    as (q & record & point & n & r & db & hashes & head & _ & _ & _ & _ & H1 & _ & H2 & H3 & _).
  - apply device_inv_ok.
  - vm_compute. reflexivity.
  - exists n, r, db. done.
Defined.
