(* ===== verification/DemoAuth.v ===== *)
(** Concrete logins: a signing library, a text of session ids and a URL parser
    that satisfy their stated laws, the histories on which the theorems about
    authentication apply, and the behaviours of the code its comments deny. *)

From Stdlib Require Import ZArith Lia Ascii.
From stdpp Require Import base list numbers option strings gmap fin_maps countable.
From S2P Require Import Prelude Throttle Guard Chain Caller Tokens AuthStore AuthContract AuthService AuthLife AuthAgree Percent AuthHttp AuthFlow Share Demo DemoGuard.

Open Scope Z_scope.

(** ** The parts of other crates *)

(** A session id is a number, written in unary. *)
Fixpoint unary (n : nat) : string :=
  match n with O => "" | Datatypes.S n' => String "a" (unary n') end.

Fixpoint of_unary (s : string) : option nat :=
  match s with
  | EmptyString => Some O
  | String c s' => if Ascii.eqb c "a" then Datatypes.S <$> of_unary s' else None
  end.

Lemma of_unary_unary n : of_unary (unary n) = Some n.
Proof. induction n as [|n IH]; [done|]. simpl. by rewrite IH. Qed.

Lemma unary_plain n : has_char "." (unary n) = false.
Proof. by induction n. Qed.

#[export] Instance demo_session_text : SessionText nat := {|
  session_text := unary; session_parse := of_unary;
  session_parse_text := of_unary_unary; session_text_plain := unary_plain |}.

#[export] Instance demo_key : CapabilityKey string := {| key_text := id; SEPARATOR := "," |}.

#[export, refine] Instance demo_serde : Serde string := {|
  to_json := JStr; of_json j := match j with JStr s => Some s | _ => None end |}.
Proof. done. Defined.

#[export] Instance demo_identity : Identity string := {| to_string := id |}.

(** A token is the claims, in the clear beside the key that signed them. *)
Definition flat (p : string * Json) : option (string * (string + Z)) :=
  match p.2 with
  | JStr s => Some (p.1, inl s) | JNum n => Some (p.1, inr n) | _ => None
  end.

Definition unflat (p : string * (string + Z)) : string * Json :=
  (p.1, match p.2 with inl s => JStr s | inr n => JNum n end).

Definition demo_encode (c : gmap string Json) (k : nat) : Result string string :=
  match mapM flat (map_to_list c) with
  | Some l => Ok (text_of_pos (countable.encode (k, l)))
  | None => Err "nested claims"
  end.

Definition admits_b (v : Validation) (now : Z) (c : gmap string Json) : bool :=
  match c !! "iss", c !! "aud", c !! "exp" with
  | Some (JStr i), Some (JStr a), Some (JNum e) =>
      bool_decide (i = set_issuer v) && bool_decide (a = set_audience v) &&
      bool_decide (now - leeway v <= e)
  | _, _, _ => false
  end.

Definition demo_decode (t : string) (k : nat) (v : Validation) (now : Z) :
    Result (gmap string Json) string :=
  match countable.decode (pos_of_text t) : option (nat * list (string * (string + Z))) with
  | Some (k', l) =>
      if negb (bool_decide (k' = k)) then Err "signature"
      else
        let c := list_to_map (unflat <$> l) in
        if admits_b v now c then Ok c else Err "claims"
  | None => Err "token"
  end.

#[export] Instance demo_jwt : Jwt := {| encode := demo_encode; decode := demo_decode |}.

Lemma unflat_flat p q : flat p = Some q -> unflat q = p.
Proof. destruct p as [k []]; unfold flat, unflat; simpl; intros E; by inversion E. Qed.

Lemma flat_all l l' : mapM flat l = Some l' -> unflat <$> l' = l.
Proof.
  revert l'. induction l as [|p l IH]; intros l' H; [by injection H as <-|].
  simpl in H.
  apply bind_Some in H as (q & Hq & H). apply bind_Some in H as (k & Hk & H). injection H as <-.
  by rewrite fmap_cons, (unflat_flat _ _ Hq), (IH k Hk).
Qed.

Lemma admits_b_spec v now c : admits_b v now c = true <-> admits v now c.
Proof.
  unfold admits_b, admits. split.
  - destruct (c !! "iss") as [[]|]; try done. destruct (c !! "aud") as [[]|]; try done.
    destruct (c !! "exp") as [[]|]; try done.
    rewrite !andb_true_iff, !bool_decide_eq_true. intros [[-> ->] H]. eauto.
  - intros (-> & -> & e & -> & H). by rewrite !bool_decide_true.
Qed.

Lemma demo_pair (k : nat) : key_pair (k : EncodingKey) (k : DecodingKey).
Proof.
  intros c t v now He _. simpl in *. unfold demo_encode, demo_decode in *.
  destruct (mapM flat (map_to_list c)) as [l|] eqn:El; [|done]. simplify_eq.
  rewrite pos_of_text_of_pos, decode_encode, bool_decide_true by done. simpl.
  rewrite (flat_all _ _ El), list_to_map_to_list, <- admits_b_spec.
  destruct (admits_b v now c); split; try done. by exists "claims".
Qed.

(** An interval adds the span it is given, to the nearest microsecond. *)
#[export] Instance demo_postgres : Postgres := {| interval span := (span + 500) / 1000 * 1000 |}.

Lemma interval_whole span : whole_secs span -> interval span = span.
Proof.
  intros [Hw _]. simpl. unfold SECOND in Hw. apply Z.div_exact in Hw; [|done].
  rewrite Hw at 1. replace (1000000000 * (span / 1000000000) + 500) with
    (500 + span / 1000000000 * 1000000 * 1000) by lia.
  rewrite Z.div_add by done. change (500 / 1000) with 0. lia.
Qed.

#[export] Instance demo_texts : Texts string := {|
  parse_url s := match split_once ":" s with
    | Some (sch, rest) => Some {| scheme := sch; host := Some (Domain rest) |} | None => None end;
  base64url b := text_of_pos (countable.encode b);
  json_text s := Some (bytes_of_string s) |}.

(** Closes a goal on closed terms by evaluating it. *)
Ltac evaluated := repeat split; vm_compute; reflexivity.

(** ** A service and its histories *)

Definition day : AbuseConfig := strict_config.

Definition signing : TokenAuthority := from_keys (7%nat : EncodingKey) (7%nat : DecodingKey) default_auth_config.

Definition new_service {S} (s : S) : AuthService (SessionId := nat) (Id := string) (S := S) := {|
  authority := signing; store := s; registry := None; revocation_hook := true; audit_hook := true;
  guard := new_guard default_config day 0; told := []; audited := []; crossings := [] |}.

Definition in_memory : AuthService (S := InMemoryAuthStore nat string) :=
  new_service {| lifetimes := refresh_lifetimes default_auth_config; sessions := ∅ |}.

Definition in_postgres : AuthService (S := DbAuthStore nat string) :=
  new_service {| db_lifetimes := refresh_lifetimes default_auth_config;
                 db := {| connetto_sessions := ∅; connetto_provider_tokens := ∅ |} |}.

Definition drawn (now : Z) (s : nat) (secret : string) (f : Fates) : Draw nat :=
  {| clock := now; new_session_id := s; new_refresh_secret := secret; fates := f |}.

Definition at_ (n : Z) : Instants := {|
  wall := n; blocked1 := n; blocked2 := n; failed1 := n; failed2 := n; failed3 := n; learnt := n |}.

Definition ann_claims : ResolvedIdentity := {|
  ri_issuer := "idp"; ri_subject := "ann"; ri_email := None; ri_name := None; ri_amr := [];
  ri_acr := None |}.

Definition by_subject (c : VerifiedClaims) : Result string ResolveError := Ok (vc_subject c).

Notation Call := (ServiceCall (SessionId := nat) (Id := string)).

(** Ann logs in as session 1 with secret [x]. *)
Definition ann_login (x : string) (now : Z) : Call :=
  Login ann_claims by_subject (drawn now 1 x all_done) (at_ now).

Definition renewal (tok x : string) (now : Z) (f : Fates) : Call :=
  Refresh tok (drawn now 0 x f) (at_ now).

(** The service with Ann logged in, and after her first renewal. *)
Definition logged_in : AuthService (S := DbAuthStore nat string) :=
  Eval vm_compute in serve (Key := string) (ann_login "one" 1000) in_postgres.

Definition renewed : Result (TokenPair (Id := string)) (AuthError (SessionId := nat)) *
    AuthService (S := DbAuthStore nat string) :=
  Eval vm_compute in refresh (Key := string) "a.one" (drawn 2000 0 "two" all_done) (at_ 2000) logged_in.

Definition ok_of {A E} (r : Result A E) (a : A) : A := match r with Ok x => x | Err _ => a end.

Definition no_pair : TokenPair (Id := string) := {|
  access_token := ""; refresh_token := ""; expires_in_secs := 0; pair_user_id := "";
  session_expires_at_secs := 0 |}.

(** Another person logs in and the logout of a stranger fails. *)
Definition elsewhere : list Call :=
  [Login ann_claims by_subject (drawn 2500 2 "three" all_done) (at_ 2500);
   Logout "aa.nothing" (drawn 2600 0 "" all_done) (drawn 2600 0 "" all_done)].

(** The service the replay meets, and what it answers. *)
Definition before_replay : AuthService (S := DbAuthStore nat string) :=
  serve_all (Key := string) elsewhere renewed.2.

Definition replayed := refresh (Key := string) "a.one" (drawn 3000 0 "four" all_done) (at_ 3000) before_replay.

Definition ann_life : Life string :=
  default {| owner := {| user_id := "" |}; credential := []; lapses := 0; ceiling := 0; ended := true |}
    (sessions_of before_replay !! 1%nat).

Lemma used_token_ends_session_witness :
  replayed.1 = Err (StoreError (Reuse 1%nat)) /\
  sessions_of replayed.2 !! 1%nat = Some (end_life ann_life) /\
  reports TokenReplayed 1%nat before_replay replayed.2.
Proof.
  pose proof (used_token_ends_session (Key := string) "a.one" 1%nat "one"
    (drawn 2000 0 "two" all_done) (at_ 2000) logged_in (ok_of renewed.1 no_pair) renewed.2 elsewhere
    (drawn 3000 0 "four" all_done) (at_ 3000)) as H.
  change (serve_all (Key := string) elsewhere renewed.2) with before_replay in H.
  change (refresh (Key := string) "a.one" (drawn 3000 0 "four" all_done) (at_ 3000) before_replay)
    with replayed in H.
  destruct H as [_ H]; [evaluated|vm_cast_no_check (eq_refl renewed)|evaluated| |].
  { repeat constructor; intros E; vm_compute in E; discriminate E. }
  destruct (H ann_life) as [H'|[(w & _ & E)|(e & Hf & _)]];
    [evaluated|evaluated|by vm_compute|exact H'| |by destruct Hf].
  exfalso. apply (f_equal fst) in E. vm_compute in E. discriminate E.
Defined.

(** The grant of the ended session, signed at its renewal. *)
Definition ann_grant : string := access_token (ok_of renewed.1 no_pair).

(** Ann logs in anew. *)
Definition anew : list Call :=
  [Login ann_claims by_subject (drawn 4000 3 "five" all_done) (at_ 4000)].

Definition moved_on : AuthService (S := DbAuthStore nat string) := serve_all (Key := string) anew replayed.2.

Lemma ended_for_good_witness :
  (authority_check_grant (Key := string) ann_grant 0 (drawn 5000 0 "" all_done) moved_on = Err Revoked \/
   authority_check_grant (Key := string) ann_grant 0 (drawn 5000 0 "" all_done) moved_on =
     Err (Invalid "auth store")) /\
  forall pair, (refresh (Key := string) "a.two" (drawn 5000 0 "" all_done) (at_ 5000) moved_on).1 <> Ok pair.
Proof.
  pose proof (ended_for_good (Key := string) 1%nat (end_life ann_life) replayed.2 anew) as H.
  unfold moved_on. cbv zeta in H.
  destruct H as (H1 & H2 & _); [evaluated|evaluated|evaluated|]. split.
  - eapply H1; [vm_compute; reflexivity|reflexivity|reflexivity].
  - intros pair. apply (H2 "a.two" "two"). evaluated.
Defined.

Definition remembered := login (Key := string) ann_claims by_subject (drawn 1000 1 "one" all_done) (at_ 1000) in_memory.

Definition kept_going : list Call := [renewal "a.one" "two" 2000 all_done].

Definition renewed_again :=
  refresh (Key := string) "a.two" (drawn 3000 0 "six" all_done) (at_ 3000)
    (serve_all (Key := string) kept_going remembered.2).

Lemma session_lifetime_bounded_witness :
  let pair := ok_of renewed_again.1 no_pair in
  pair_user_id pair = "ann" /\
  session_expires_at_secs pair <= clamped_secs (Z.min (1000 + 2160 * HOUR) (3000 + 336 * HOUR)).
Proof.
  pose proof (session_lifetime_bounded (Key := string) ann_claims by_subject
    (drawn 1000 1 "one" all_done) (at_ 1000) in_memory (ok_of remembered.1 no_pair) remembered.2 kept_going
    "a.two" "two" (drawn 3000 0 "six" all_done) (at_ 3000) (ok_of renewed_again.1 no_pair) renewed_again.2) as H.
  destruct H as (H1 & _ & H3);
    [evaluated|vm_cast_no_check (eq_refl remembered)|evaluated|evaluated|vm_cast_no_check (eq_refl renewed_again)|].
  split; [|exact H3]. rewrite H1. evaluated.
Defined.

Lemma latest_token_renews_witness :
  exists pair', replayed.1 <> Ok pair' /\
  (refresh (Key := string) "a.two" (drawn 3000 0 "four" all_done) (at_ 3000) before_replay).1 = Ok pair' /\
  pair_user_id pair' = "ann" /\ refresh_token pair' = "a.four".
Proof.
  pose proof (latest_token_renews (Key := string) "a.one" (drawn 2000 0 "two" all_done) (at_ 2000)
    logged_in (ok_of renewed.1 no_pair) renewed.2 1%nat elsewhere (drawn 3000 0 "four" all_done) (at_ 3000)) as H.
  change (serve_all (Key := string) elsewhere renewed.2) with before_replay in H.
  destruct H as [(pair' & H1 & H2 & H3)|[(w & _ & H)|[(e & _ & H)|(e & H)]]];
    [evaluated|vm_cast_no_check (eq_refl renewed)|evaluated| |by vm_compute| |exfalso; vm_compute in H; discriminate H..].
  { repeat constructor; intros E; vm_compute in E; discriminate E. }
  exists pair'. split_and!; [|exact H1|rewrite H2; evaluated|rewrite H3; evaluated].
  intros E. vm_compute in E. discriminate E.
Defined.

Definition ann_logout : Call := Logout "a.two" (drawn 3000 0 "" all_done) (drawn 3000 0 "" all_done).

Lemma ends_reported_witness :
  (exists s op, over ann_logout s = Some op /\ ends op s before_replay (serve (Key := string) ann_logout before_replay)) \/
  quiet before_replay (serve (Key := string) ann_logout before_replay) /\
  (none_ended (sessions_of before_replay) (sessions_of (serve (Key := string) ann_logout before_replay)) \/
   exists e, failure (Key := string) ann_logout before_replay = Some (StoreError (Backend e))).
Proof. apply (ends_reported ann_logout before_replay); [exact I|discriminate]. Defined.

(** A day of logins, renewals, a replay and an end to every session. *)
Definition whole_day : list Call :=
  [ann_login "one" 1000; renewal "a.one" "two" 2000 all_done;
   Login ann_claims by_subject (drawn 2500 2 "three" all_done) (at_ 2500);
   renewal "a.one" "four" 3000 all_done; renewal "a.two" "five" 3500 all_done;
   RevokeAll (drawn 4000 0 "" all_done); RevokeOne 2%nat (drawn 5000 0 "" all_done)].

Lemma stores_agree_witness :
  replies (Key := string) whole_day in_memory = replies whole_day in_postgres /\
  told (serve_all (Key := string) whole_day in_memory) = told (serve_all (Key := string) whole_day in_postgres) /\
  audited (serve_all (Key := string) whole_day in_memory) =
    audited (serve_all (Key := string) whole_day in_postgres).
Proof.
  apply (stores_agree (Key := string) whole_day in_memory in_postgres); try reflexivity;
    [exact interval_whole|by vm_compute|by vm_compute|by repeat constructor| |].
  - repeat split; vm_compute; discriminate.
  - evaluated.
Defined.

(** ** Grants *)

Notation Grant := (Result (CheckedGrant nat string string) GrantRefused).

Definition login_as (user : string) (s : nat) : Grant :=
  Ok {| subject := Identified_ {| vs_context := {| user_id := user |}; vs_session_id := s;
          vs_bot_list := None |}; expires_at := Some 900 |}.

Definition share_key (k : string) (e : option Z) : Grant :=
  Ok {| subject := Capability k; expires_at := e |}.

Definition throttle : HandleThrottle nat := new_handle_throttle default_config 0.

Definition presented (gs : list Grant) : ResolvedGrants nat string string :=
  (resolve_grants 9%nat ((fun g => (g, 10)) <$> gs) Handshake throttle).1.

Definition one_way : list Grant :=
  [share_key "k" (Some 10); login_as "ann" 1; Err Revoked; share_key "k" (Some 20); share_key "j" None].

Definition other_way : list Grant := List.rev one_way.

Lemma grants_any_order_witness :
  session_id (principal (presented one_way)) = session_id (principal (presented other_way)) /\
  rendered_caller (principal (presented one_way)) = rendered_caller (principal (presented other_way)) /\
  key_expiry (presented one_way) = key_expiry (presented other_way).
Proof.
  pose proof (grants_any_order 9%nat ((fun g => (g, 10)) <$> one_way) ((fun g => (g, 10)) <$> other_way)
    throttle throttle) as H. cbv zeta in H.
  destruct H as (H1 & _ & H3 & H4 & _); [| |evaluated|evaluated|done].
  - exact (Permutation_rev one_way).
  - vm_compute. lia.
Defined.

Definition held_keys (ks : list string) : Principal nat string string :=
  {| session_id := 9%nat; identity := None; capabilities := ks; bot_list := None |}.

Lemma storage_key_exact_witness :
  storage_key SEPARATOR (rendered_caller (held_keys ["k"; "j"])) =
  storage_key SEPARATOR (rendered_caller (held_keys ["j"; "k"; "j"])).
Proof.
  destruct (storage_key_exact (held_keys ["k"; "j"]) (held_keys ["j"; "k"; "j"])) as [_ H].
  - repeat constructor.
  - repeat constructor.
  - apply H; [discriminate|]. intros t. cbn. set_solver.
Defined.

(** A second login is ambiguous, and a third is not. *)
Example third_login_wins :
  identity (principal (presented [login_as "ann" 1; login_as "bea" 2])) = None /\
  identity (principal (presented [login_as "ann" 1; login_as "bea" 2; login_as "cat" 3])) =
    Some {| user_id := "cat" |} /\
  identity (principal (presented [login_as "cat" 3; login_as "ann" 1; login_as "bea" 2])) =
    Some {| user_id := "bea" |}.
Proof. evaluated. Qed.

(** The run of the first of two logins stays, though neither identity does. *)
Example ambiguous_keeps_first_run :
  let a := principal (presented [login_as "ann" 1; login_as "bea" 2]) in
  let b := principal (presented [login_as "bea" 2; login_as "ann" 1]) in
  identity a = None /\ identity b = None /\ session_id a = 1%nat /\ session_id b = 2%nat.
Proof. evaluated. Qed.

(** ** Signed tokens *)

Definition minted : string :=
  ok_of (mint_access (Key := string) signing {| user_id := "ann" |} 1%nat (5 * SECOND)) "".

Lemma login_grant_window_witness :
  check_grant (SessionId := nat) (Id := string) (Key := string) signing minted 965 =
    Ok {| subject := Identified_ {| vs_context := {| user_id := "ann" |}; vs_session_id := 1%nat;
            vs_bot_list := None |}; expires_at := Some 905 |} /\
  exists e, check_grant (SessionId := nat) (Id := string) (Key := string) signing minted 966 =
    Err (TokenVerify e).
Proof.
  destruct (login_grant_window (Key := string) signing (demo_pair 7%nat) ltac:(by vm_compute)
    {| user_id := "ann" |} 1%nat (5 * SECOND) minted) as (exp & -> & H1 & H2 & _).
  - by exists "ann".
  - by vm_compute.
  - evaluated.
  - split; [apply H1; by vm_compute|apply H2; by vm_compute].
Defined.

Definition blob : string := ok_of (mint_resume signing 4%nat (5 * SECOND)) "".

Lemma resume_blob_window_witness :
  verify_resume (SessionId := nat) signing blob 6 = Ok 4%nat /\
  exists e, check_grant (SessionId := nat) (Id := string) (Key := string) signing blob 6 =
    Err (TokenVerify e).
Proof.
  destruct (resume_blob_window (Id := string) (Key := string) signing (demo_pair 7%nat) ltac:(by vm_compute)
    4%nat (5 * SECOND) blob) as (exp & -> & H1 & _ & H3).
  - by vm_compute.
  - evaluated.
  - split; [apply H1; by vm_compute|apply H3].
Defined.

(** ** Shares *)

Definition issuer_ : CapabilityIssuer := {|
  ci_authority := signing; ci_ttl := HOUR; ci_max_ttl := 24 * HOUR; ci_audit := true |}.

Definition open_seams : Seams (SessionId := nat) (Id := string) (Key := string) (Row := Z) := {|
  gate := None; read_row := Ok (Some 5); may_see _ _ := Ok true; may_write _ _ := Ok true |}.

Definition shared :=
  issue (Value := Z) issuer_ (held_keys ["k"]) "notes" [5] (with_update read_level) (Some HOUR) open_seams
    "fresh" (5 * SECOND).

Definition no_share : IssuedCapability :=
  {| ic_key := ""; ic_token := ""; ic_expires_at := 0; ic_level := read_level |}.

Lemma share_certified_witness :
  certified issuer_ (held_keys ["k"]) (with_update read_level) (Some HOUR) open_seams "fresh" /\
  check_grant (SessionId := nat) (Id := string) (Key := string) signing (ic_token (ok_of shared.1 no_share)) 3600 =
    Ok {| subject := Capability "fresh"; expires_at := Some 3605 |}.
Proof.
  pose proof (share_certified (Value := Z) issuer_ (held_keys ["k"]) "notes" [5] (with_update read_level)
    (Some HOUR) open_seams "fresh" (5 * SECOND) (demo_pair 7%nat)) as H. fold shared in H.
  destruct shared as [[c|e] events] eqn:E; [|vm_compute in E; discriminate E].
  destruct H as (H1 & _ & exp & -> & H2); [by exists "fresh"|by vm_compute|by vm_compute|].
  split; [done|]. simpl.
  assert (ic_key c = "fresh") as K.
  { apply (f_equal (fun r => ic_key (ok_of r.1 no_share))) in E. rewrite <- (E : _ = ic_key c). evaluated. }
  rewrite <- K. apply (H2 3600). by vm_compute.
Defined.

(** The lifetime a share has when none is asked for is not held to the ceiling. *)
Example default_ttl_above_ceiling :
  let ci := {| ci_authority := signing; ci_ttl := 48 * HOUR; ci_max_ttl := 24 * HOUR; ci_audit := true |} in
  ic_expires_at (ok_of (issue (Value := Z) ci (held_keys ["k"]) "notes" [5] read_level None open_seams
    "fresh" 0).1 no_share) = 48 * HOUR /\
  (issue (Value := Z) ci (held_keys ["k"]) "notes" [5] read_level (Some (48 * HOUR)) open_seams
    "fresh" 0).1 = Err (TtlTooLong (48 * HOUR) (24 * HOUR)).
Proof. evaluated. Qed.

(** ** Ends nobody hears of *)

(** Ending every session tells no observer and leaves no audit row. *)
Example revoke_every_unreported :
  let out := service_revoke_every (drawn 3000 0 "" all_done) before_replay in
  out.1 = Ok 2 /\ told out.2 = [] /\ audited out.2 = [] /\
  session_is_live 1%nat (drawn 3001 0 "" all_done) (store out.2) = Ok false.
Proof. evaluated. Qed.

Definition cut_off : Fates := {|
  f_pool := None; f_begin := None; f_read := None; f_update := None; f_rollback := None;
  f_commit := AuthStore.Done; f_stmt := Failed "connection" |}.

(** A replay whose revocation fails in the database leaves the session good and
    is reported as a backend error alone; the session goes on being renewed. *)
Example replay_survives :
  let out := refresh (Key := string) "a.one" (drawn 3000 0 "four" cut_off) (at_ 3000) before_replay in
  out.1 = Err (StoreError (Backend "connection")) /\ told out.2 = [] /\ audited out.2 = [] /\
  refresh_token (ok_of (refresh (Key := string) "a.two" (drawn 3100 0 "five" all_done) (at_ 3100) out.2).1
    no_pair) = "a.five".
Proof. evaluated. Qed.

(** Between a logout's check of its token and its revocation a renewal of the
    same token goes through, and the logout ends the session it left. *)
Example logout_races_renewal :
  let checked := session_for_refresh "a.one" (drawn 1500 0 "" all_done) (store logged_in) in
  let between := renewed.2 in
  checked = Ok (Some 1%nat) /\
  told (revoke_as 1%nat LoggedOut (drawn 2500 0 "" all_done) between).2 = [1%nat] /\
  session_for_refresh "a.one" (drawn 2500 0 "" all_done) (store between) = Ok None.
Proof. evaluated. Qed.

(** ** A login through the endpoints *)

Definition idp : IdentityProvider :=
  {| p_name := "idp"; p_issuer := "https:idp"; matches_issuer _ := false |}.

Definition doors : AuthState (S := InMemoryAuthStore nat string) := {|
  cookie_same_site := Strict; service := in_memory; providers := register idp new_registry;
  pending := default_pending; codes := default_codes; redirect_policy := {| allowlist := [] |} |}.

Definition challenge : string := base64url (sha256 (bytes_of_string "verifier")).

Definition begin_ (p : IdentityProvider) : Result LoginRedirect ProviderError :=
  Ok {| authorize_url := "https:idp/authorize"; lr_state := "st"; lr_nonce := "n"; lr_pkce_verifier := "v" |}.

Definition complete_ (p : IdentityProvider) (code verifier nonce : string) : Result VerifiedLogin ProviderError :=
  Ok {| vl_identity := ann_claims; vl_retained := {| rp_issuer := "https:idp"; rp_access_token := "up";
        rp_refresh_token := None; rp_expires_in := None |} |}.

Notation Req := (Request (SessionId := nat) (Id := string)).

Definition start_ : Req :=
  StartReq {| sq_provider := "idp"; sq_redirect_uri := Some "http:localhost";
              sq_code_challenge := Some challenge; sq_state := Some "mine" |} begin_ 100 [].

Definition back_ : Req :=
  CallbackReq {| cq_code := "upcode"; cq_state := "st" |} complete_ by_subject {|
    cd_taken := 200; cd_issued := 300; cd_code := "onetime"; cd_order := [];
    cd_create := drawn 1000 1 "one" all_done; cd_retain := drawn 1000 0 "" all_done;
    cd_instants := at_ 1000 |}.

Definition doors1 := (handle (Key := string) start_ doors).2.
Definition doors2 := (handle (Key := string) back_ doors1).2.
Definition came : list event :=
  [{| asked := start_; got := (handle (Key := string) start_ doors).1 |};
   {| asked := back_; got := (handle (Key := string) back_ doors1).1 |}].

Lemma came_through : history (Key := string) doors came doors2.
Proof.
  change came with (([] ++ [{| asked := start_; got := (handle (Key := string) start_ doors).1 |}]) ++
    [{| asked := back_; got := (handle (Key := string) back_ doors1).1 |}]).
  apply history_snoc; [apply history_snoc; [apply history_nil|]|].
  - intros k [e He]. vm_compute in He. discriminate He.
  - intros k [e He]. vm_compute in He. discriminate He.
Qed.

Definition exchange (verifier : string) :=
  token ∅ {| te_code := "onetime"; te_code_verifier := verifier |} 400 0 doors2.

Definition no_response : Response string := {| body := NoContent; cookies := [] |}.

Lemma code_bound_to_login_witness :
  exists issued_at, since 400 issued_at <= AUTH_CODE_TTL /\
    issued_for {| allowlist := [] |} came "onetime" challenge issued_at.
Proof.
  destruct (code_bound_to_login (Key := string) doors came doors2 ∅
    {| te_code := "onetime"; te_code_verifier := "verifier" |} 400 0
    (ok_of (exchange "verifier").1 no_response) (exchange "verifier").2) as (issued_at & H1 & H2).
  - done.
  - exact came_through.
  - vm_cast_no_check (eq_refl (exchange "verifier")).
  - exists issued_at. split; [exact H1|exact H2].
Defined.

Lemma login_tables_bounded_witness :
  (size (pending_inner (pending doors2)) <= 4096)%nat /\ (size (codes_inner (codes doors2)) <= 4096)%nat.
Proof. exact (login_tables_bounded (Key := string) doors came doors2 (conj eq_refl eq_refl) came_through). Defined.

(** A logout that carries no token is refused. *)
Example logout_may_refuse :
  error_status (SessionId := nat) InvalidRequest = 400 /\
  (http_logout (SessionId := nat) ∅ ∅ {| rq_refresh_token := None; rq_user_id := None |}
     (drawn 0 0 "" all_done) (drawn 0 0 "" all_done) 0 doors).1.1 = Err InvalidRequest.
Proof. evaluated. Qed.
