(* ===== verification/DemoDelivery.v ===== *)
(** A concrete server on which the theorems about delivery apply, and sessions
    that show where the read half's promises end. *)

From Stdlib Require Import ZArith Lia Ascii.
From stdpp Require Import base list numbers option strings gmap fin_maps.
From S2P Require Import Prelude Wire Backoff Throttle Guard Cursor Oplog Catchup Caller Delivery Outflow Brackets Tidy Rekey DemoLog.

Open Scope Z_scope.

#[local] Instance demo_keys : CapabilityKey string := {| key_text := id; SEPARATOR := "," |}.

#[local] Instance demo_wares : Wares := {|
  Position := DemoPos; Fence := DemoFence; Change := unit; PageKey := Z; Bind := Z;
  SessionId := nat; Id := string; Key := string;
  table_from_select := Some; compress := Ok;
  read_limits := fun _ => {| page_bytes := 100; row_ceiling := 50; read_timeout := 1000 |};
  key_tables := None; caller_function := Some "me"; subject_set_function := Some "mine";
|}.

(** What the rest of the server will answer. *)
Record Stage := {
  next_sub : Z;
  pages : list (Result SnapshotPage (ReadFailure * string));
  (** What the other tasks do at each wait: what they queue, and the registration
      whose computed answer changes. *)
  script : list (list Outbound * option Z);
  log : Result (list (ChangeRecord DemoPos unit)) LogError;
  new_keys : list string;
}.

Definition demo_members (query : string) : list MemberTable :=
  if decide (query = "term") then
    [{| mt_table := "groups"; mt_subject := "user"; mt_identity := true; mt_subjects := false |}]
  else if decide (query = "shared") then
    [{| mt_table := "groups"; mt_subject := "key"; mt_identity := false; mt_subjects := true |}]
  else [].

(** No key may read what [mine] asks for. *)
Definition demo_register (c : Z) (sub : Subscribe) (v : Viewer) (e : Stage) : Result Registered string * Stage :=
  if bool_decide (spec_query sub = "mine") && negb (bool_decide (capabilities v = []))
  then (Err "no such table", e)
  else
    let e' := {| next_sub := next_sub e + 1; pages := pages e; script := script e; log := log e;
                 new_keys := new_keys e |} in
    let r := if decide (spec_query sub = "count")
      then RegComputed {| cap_sub := next_sub e; cap_consumer := c; per_viewer := true |}
      else RegRow (next_sub e) in
    (Ok {| registration := r; rd_sql := spec_query sub; rd_members := demo_members (spec_query sub);
           rd_subjects := bool_decide (spec_query sub ∈ ["mine"; "held"]) |}, e').

Definition demo_page (e : Stage) : Result SnapshotPage (ReadFailure * string) * Stage :=
  match pages e with
  | [] => (Err (ReadTimeout, "no page"), e)
  | p :: ps => (p, {| next_sub := next_sub e; pages := ps; script := script e; log := log e;
                      new_keys := new_keys e |})
  end.

Definition demo_others (routed : gmap Z string) (e : Stage) : list Outbound * Stage :=
  match script e with
  | [] => ([], e)
  | (queued_, changed) :: later =>
      let change := match changed ≫= fun id => routed !! id with
        | None => []
        | Some label => [Aggregate (labelled label {| cc_key := None; cc_values := None;
                           cc_result := Some "2"; cc_full := true |})]
        end in
      (queued_ ++ change, {| next_sub := next_sub e; pages := pages e; script := later; log := log e;
                             new_keys := new_keys e |})
  end.

Definition is_foreign (o : Outbound) : bool :=
  match o with Rebootstrap _ _ => false | Control f => quiet f | _ => true end.

Definition shut (o : Outbound) : bool := is_foreign o && negb (dispatched o).

Definition demo_first (c : ComputedCapture) (v : Viewer) (e : Stage) : Result (list ComputedChange) string * Stage :=
  (Ok [{| cc_key := None; cc_values := None; cc_result := Some "1"; cc_full := true |}], e).

#[local] Instance demo_outside : Outside Stage := {|
  meanwhile := fun _ c e => let '(l, e') := demo_others c e in (filter (fun o => is_foreign o = true) l, e');
  meanwhile_gated := fun _ c e => let '(l, e') := demo_others c e in (filter (fun o => shut o = true) l, e');
  sends := fun f e => (true, e);
  history_now := fun e => first_line;
  estimate := fun _ _ _ e => (Ok {| est_width := 10 |}, e);
  snapshot_page := fun _ _ _ _ _ _ e => demo_page e;
  log_min_position := fun e => (match log e with Ok l => Ok (r_position <$> head l) | Err err => Err err end, e);
  log_current_position := fun e => (match log e with Ok l => Ok (r_position <$> last l) | Err err => Err err end, e);
  log_entries_of := fun _ e => (Ok [], e);
  log_entries_since := fun _ e => (log e, e);
  register := demo_register;
  replay_match := fun _ _ e => (Ok (Some false), e);
  departure_notice := fun _ e => (Ok None, e);
  withdrawal_patch := fun _ e => (Ok None, e);
  advance_cursor := fun _ _ e => (Ok tt, e);
  first_answer := demo_first;
  event_table := fun _ _ => "t";
  transition := fun _ _ e => ((0%nat, Ok Nothing), e);
  reader_permit := fun _ e => (Ok None, e);
  meter_subscription := fun _ e => (None, e);
  unresolvable_subscription := fun e => (Continue, e);
  refused_grants := fun _ e => (Continue, e);
  resolve_keys := fun _ e => ({| principal := {| session_id := 0%nat; identity := None;
    capabilities := new_keys e; bot_list := None |}; key_expiry := ∅; refusals := 0; wait := None |}, e);
  now_secs := fun _ => 0;
  episode_seed := fun e => (0, e);
  patience := fun _ => 3%nat;
|}.

#[local] Instance demo_orderly : Orderly.
Proof.
  split; intros r c e; simpl; destruct (demo_others c e) as [l e']; simpl; apply Forall_forall;
    intros o [Ho _]%list_elem_of_filter.
  - by destruct o.
  - unfold shut in Ho. apply andb_true_iff in Ho as [Ho _]. by destruct o.
Qed.

#[local] Instance demo_gate : GateShut.
Proof.
  intros r c e. simpl. destruct (demo_others c e) as [l e']. simpl. apply Forall_forall.
  intros o [Ho _]%list_elem_of_filter. unfold shut in Ho. apply andb_true_iff in Ho as [_ Ho].
  by apply negb_true_iff in Ho.
Qed.

Definition rows (bytes_ : bytes) (next_ : option Z) : Result SnapshotPage (ReadFailure * string) :=
  Ok {| patchset := bytes_; page_cursor := []; next := next_; filled := bool_decide (is_Some next_);
        widest_row := 10; page_rows_count := 1; page_size := 10 |}.

Definition stage (ps : list (Result SnapshotPage (ReadFailure * string)))
    (s : list (list Outbound * option Z)) : Stage :=
  {| next_sub := 1; pages := ps; script := s; log := Ok []; new_keys := ["k"] |}.

Definition ann : Viewer := {| session_id := 7%nat; identity := Some {| user_id := "ann" |};
  capabilities := []; bot_list := None |}.

Definition begin_ (credits_ : Z) (e : Stage) : World := opened credits_ ann Fresh 0 None ∅ 1 e.

Definition asks (label query : string) : Turn :=
  Received (ISubscribe {| sub_id := label; spec_query := query; spec_binds := []; spec_priority := 1 |}).
Definition drops (label : string) : Turn := Received (IUnsubscribe label).
Definition acks (n : Z) : Turn := Received (IAckCredits n).
Definition swap : Turn := Received (IReplaceShareKeys "r" ["g"]).

(** ** The theorems on it *)

Lemma answered {A B} (p : A * B) a : p.1 = a -> p = (a, p.2).
Proof. destruct p as [x y]. simpl. by intros ->. Qed.

(** A log that keeps failing, a quarter of a second to wait for it. *)
Definition flaky : World := opened 9 ann Fresh (from_millis 250) None ∅ 1
  {| next_sub := 1; pages := []; script := []; new_keys := [];
     log := Err {| transient := true; log_detail := "busy" |} |}.


(** Three pages in a window of two, the second read failing once. *)
Definition paged_stage : Stage :=
  stage [rows [1] (Some 1); Err (ReadOther, "reset"); rows [3] (Some 1); rows [4] None] [].
Definition paged : World := begin_ 2 paged_stage.
Definition paged_turns : list Turn := [asks "a" "t"; acks 1; acks 1; acks 1].

Lemma credit_window_witness :
  bulk_sent (turns paged_turns paged).2 = 3 /\
  let w := (turns paged_turns paged).2 in
  bulk_sent w + credits w <= 2 + granted_by paged_turns /\ 0 <= credits w.
Proof.
  split; [vm_compute; reflexivity|].
  apply (credit_window 2 ann Fresh 0 None ∅ 1 _ paged_turns); [lia|].
  repeat constructor; simpl; lia.
Defined.

(** Two row frames, an end and a third in a window of two. *)
Definition queue : World := with_queue
  [Rows (LivePatch "a" [] [1]); Rows (SnapshotPatch "b" [2]); SnapshotComplete "b" [];
   Rows (LivePatch "a" [] [3])] (begin_ 2 (stage [] [])).

Lemma flush_in_order_witness :
  sent (flush queue).2 = [OBulk (LivePatch "a" [] [1]); OBulk (SnapshotPatch "b" [2]); OSnapshotEnd "b" []] /\
  match flush queue with
  | (Ok _, w') => drain_from queue w' /\ drained w'
  | (Err e, w') => e = ETransport /\ drain_lost queue w'
  end.
Proof. split; [vm_compute; reflexivity|]. apply (flush_in_order queue). Defined.

Lemma not_membership (table : string) : "a" <> membership_label table.
Proof. done. Qed.


Lemma demo_mirrors c table predicate v e r :
  (register c (mirror_subscribe table predicate) v e).1 = Ok r -> exists s, registration r = RegRow s.
Proof.
  unfold register, demo_outside, demo_register.
  destruct (_ && _); [done|]. intros [= <-]. simpl. eauto.
Qed.

(** A term with its membership table, a refused read, an aggregate, an
    unsubscribe. *)
Definition busy : Stage := stage [rows [1] None; rows [2] None; Err (ReadTimeout, "slow")] [].
Definition busy_turns : list Turn := [asks "x" "term"; asks "y" "t"; asks "n" "count"; drops "x"; LinkEnded].

Lemma session_leaves_nothing_witness :
  (run_session busy_turns (begin_ 9 busy)).1 = Ok false /\
  routes (run_session busy_turns (begin_ 9 busy)).2 = ∅ /\
  computed_routes (run_session busy_turns (begin_ 9 busy)).2 = ∅ /\
  engine (run_session busy_turns (begin_ 9 busy)).2 = ∅.
Proof.
  split; [vm_compute; reflexivity|]. unfold begin_.
  refine (session_leaves_nothing demo_mirrors 9 ann Fresh 0 None ∅ 1 busy busy_turns false _
    (plainlyb_sound _ _ _) _).
  - vm_compute. reflexivity.
  - apply answered. vm_compute. reflexivity.
Defined.

(** Keys replaced while the feed is dispatching: one subscription is registered
    again, one refused, an answer computed again. *)
Definition shared_with : World :=
  (turns [asks "a" "held"; asks "b" "mine"; asks "n" "count"]
    (begin_ 9 (stage [rows [1] None; rows [2] None]
      (replicate 24 ([], None) ++ [([Live "a" [] [7]], None)])))).2.

Definition with_key : Viewer := with_capabilities ["k"] ann.

Lemma keys_swapped_witness :
  channel (swap_keys with_key (reached_by_keys shared_with) (Some None) shared_with).2 =
    [Live "a" [] [7]; ReservedResnapshot "a" (4, 4) None; Refuse "b"; Rebootstrap "n" 3] /\
  exists w' before after,
    swap_keys with_key (reached_by_keys shared_with) (Some None) shared_with = (Ok tt, w') /\
    channel w' = channel shared_with ++ before ++ after /\
    Forall (fun o => dispatched o = false) after /\
    (forall label, label ∈ (reached_by_keys shared_with).1 -> Exists (resends label) after) /\
    (forall label c, label ∈ (reached_by_keys shared_with).2 -> computed_subs shared_with !! label = Some c ->
       Exists (recomputes label (cs_id c)) after) /\
    viewer w' = with_key /\ gated w' = false /\
    (forall label row r, subs shared_with !! label = Some row ->
       routes w' !! rg_consumer (rs_reg row) = Some r -> rt_viewer r = with_key).
Proof.
  split; [vm_compute; reflexivity|]. apply (keys_swapped shared_with).
Defined.

(** ** Where the promises end *)

(** A label dropped and used again while a page of its first snapshot waits for a
    credit: the page and the end of the old one go out under the new one, which
    the client then takes for complete while its pages still arrive. *)
Theorem queued_frames_outlive :
  let w := (turns [asks "b" "t"; asks "a" "t"; drops "a"; asks "a" "t"; acks 5; acks 5]
    (begin_ 1 (stage [rows [1] None; rows [2] None; rows [3] (Some 1); rows [4] None] []))).2 in
  omap (sent_mark "a") (sent w) = [MBegin; MBegin; MPage; MEnd; MPage; MPage; MEnd] /\
  scan false (omap (sent_mark "a") (sent w)) = None.
Proof. split; vm_compute; reflexivity. Qed.

(** A patch dispatched to a subscription that was dropped is delivered after the
    snapshot of the one that took its label, which is newer. *)
Theorem old_patch_after_snapshot :
  sent (turns [asks "a" "t"; drops "a"; asks "a" "t"; Dispatched]
    (begin_ 9 (stage [rows [1] None; rows [2] None]
      (replicate 8 ([], None) ++ [([Live "a" [] [9]], None)])))).2 =
  [OSnapshotBegin "a" 1; OBulk (SnapshotPatch "a" [1]); OSnapshotEnd "a" [];
   OSnapshotBegin "a" 1; OBulk (SnapshotPatch "a" [2]); OSnapshotEnd "a" []; OBulk (LivePatch "a" [] [9])].
Proof. vm_compute. reflexivity. Qed.

(** A second subscribe under a label in use leaves the first one's route and
    registration behind for good. *)
Theorem label_reuse_leaks :
  let w := (run_session [asks "a" "t"; asks "a" "u"; LinkEnded]
    (begin_ 9 (stage [rows [1] None; rows [2] None] []))).2 in
  elements (engine w) = [1] /\ (map_to_list (routes w)).*1 = [1].
Proof. split; vm_compute; reflexivity. Qed.

(** So does a subscribe whose reconnect log cannot be read: it ends the session
    before the registration is on record. *)
Definition behind : Resume DemoPos DemoFence := At (at_lsn 1 5) None.

Theorem failed_resume_leaks :
  let run := run_session [asks "a" "t"] (opened 9 ann behind 0 (Some ∅) ∅ 1
    {| next_sub := 1; pages := []; script := []; new_keys := [];
       log := Err {| transient := false; log_detail := "gone" |} |}) in
  run.1 = Err (EOplog "gone") /\ elements (engine run.2) = [1].
Proof. split; vm_compute; reflexivity. Qed.

(** A term refused while it catches up still has its membership table opened. *)
Definition truncated : ChangeRecord DemoPos unit := {|
  r_table := "t"; r_pk := []; r_payload := [];
  r_event := {| change := tt; kind := ETruncate; position := at_lsn 2 7 |} |}.

Theorem refused_term_opens_membership :
  let w := (turns [asks "a" "term"] (opened 9 ann behind 0 (Some ∅) ∅ 1
    {| next_sub := 1; pages := [Err (ReadTimeout, "slow"); rows [2] None];
       script := []; new_keys := []; log := Ok [change_at 1 3; truncated] |})).2 in
  let hidden := membership_label "groups" in
  sent w = [ORefused "a"; OMembershipOpened hidden "groups"; OFullResync hidden (TableTruncated "t");
    OSnapshotBegin hidden 1; OBulk (SnapshotPatch hidden [2]); OSnapshotEnd hidden []] /\
  elements (dom (subs w)) = [hidden].
Proof. split; vm_compute; reflexivity. Qed.

(** A refusal queued for one subscription ends the one that took its label. *)
Theorem stale_refusal :
  let w := (turns [asks "a" "mine"; swap; drops "a"; asks "a" "t"; Dispatched]
    (begin_ 9 (stage [rows [1] None; rows [2] None] []))).2 in
  last (sent w) = Some (ORefused "a") /\ elements (dom (subs w)) = [].
Proof. split; vm_compute; reflexivity. Qed.

(** The same shape with the owner check: a page that fails between a key swap and
    its resend puts the retired registration back on record, and the resend then
    passes it by. The route left delivers nothing, the registration that would has
    no route, and it outlives the session. *)
Definition failing_page : World :=
  begin_ 9 (stage [rows [1] (Some 1); Err (ReadOther, "reset"); rows [2] None] []).

Theorem retired_registration_returns :
  let w := (turns [asks "a" "held"; swap; acks 1; Dispatched] failing_page).2 in
  let ended := (run_session [asks "a" "held"; swap; acks 1; Dispatched; LinkEnded] failing_page).2 in
  (map_to_list (routes w)).*1 = [1] /\ elements (engine w) = [2] /\
  (fun r => (rg_consumer (rs_reg r), rg_sub (rs_reg r))) <$> subs w !! "a" = Some (1, 1) /\
  elements (engine ended) = [2].
Proof. split_and!; vm_compute; reflexivity. Qed.

(** Two terms over one membership table that name the caller by different columns:
    only the first one's rows are mirrored. *)
Theorem mirror_opened_once :
  let w := (turns [asks "x" "term"; asks "y" "shared"]
    (begin_ 9 (stage [rows [1] None; rows [2] None; rows [3] None] []))).2 in
  (fun r => spec_query (rs_sub r)) <$> subs w !! "connetto-membership:groups" =
    Some (mirror_query "groups" (quote_ident "user" +:+ " = me()")) /\
  omap (fun f => match f with OMembershipOpened _ t => Some t | _ => None end) (sent w) = ["groups"].
Proof. split; vm_compute; reflexivity. Qed.

(** A computed answer that changes between its first read and its route is never
    sent. *)
Theorem computed_change_lost :
  let answers n := omap (fun f => match f with OAggregate u => au_result u | _ => None end)
    (sent (turns [asks "a" "count"; Dispatched]
      (begin_ 9 (stage [] (replicate n ([], None) ++ [([], Some 1)])))).2) in
  answers 4%nat = ["1"] /\ answers 5%nat = ["1"; "2"].
Proof. split; vm_compute; reflexivity. Qed.
