(* ===== verification/DemoFiles.v ===== *)
(** A concrete file server on which the theorems about uploads, collection and
    downloads apply, and runs that show where its promises end. *)

From Stdlib Require Import ZArith Lia Ascii.
From stdpp Require Import base list numbers option strings gmap fin_maps.
From S2P Require Import Prelude Throttle Guard Cursor Caller Percent FileTables FileCore FileServer FileClient FileSafe FileUse FileTrip.

Open Scope Z_scope.

(** Short contents, padded, with their length at the end. *)
#[local] Instance demo_blake3 : Blake3 := {|
  blake3 := fun b => ((fun x => x mod 256) <$> firstn 31 (b ++ repeat 0 31)) ++ [Z.of_nat (length b) mod 256] |}.

(** The application keeps what it was told; a file is shown to those named in it. *)
#[local] Instance demo_app : ContentDeployment := {|
  App := list (bytes * string * string);
  connetto_visible_files := fun app bound files =>
    filter (fun f => existsb (fun e => bool_decide (e.1.1 = f) &&
      existsb (fun s => bool_decide (s.2 = e.2)) bound) app = true) files;
  connetto_set_content_state := fun file state name app => Some (app ++ [(file, state, name)]);
|}.

Definition caller_of (who : Z) : ContentCaller :=
  {| cc_identity := Some (if decide (who = 0) then "alice" else "bob")%string; cc_subjects := [];
     cc_bot_list := "*" |}.

(** Any countable value as a text of two letters. *)
Fixpoint bits (p : positive) : bytes :=
  match p with xH => [] | xO p => 48 :: bits p | xI p => 49 :: bits p end.

Fixpoint unbits (l : bytes) : positive :=
  match l with [] => xH | d :: l' => if decide (d = 48) then xO (unbits l') else xI (unbits l') end.

Lemma unbits_bits p : unbits (bits p) = p.
Proof. induction p as [p IH|p IH|]; simpl; [by rewrite IH|by rewrite IH|done]. Qed.

Lemma bits_chars p : Forall b64_char (bits p).
Proof. induction p; simpl; [constructor; [unfold b64_char; lia|done]..|constructor]. Qed.

Definition to_text {A} `{Countable A} (x : A) : bytes := bits (encode x).
Definition of_text {A} `{Countable A} (l : bytes) : option A := decode (unbits l).

Lemma of_to_text {A} `{Countable A} (x : A) : of_text (to_text x) = Some x.
Proof. unfold of_text, to_text. by rewrite unbits_bits, decode_encode. Qed.

#[local] Instance ContentCaller_eq_dec : EqDecision ContentCaller.
Proof. solve_decision. Defined.

#[local] Instance TicketPayload_eq_dec : EqDecision TicketPayload.
Proof. solve_decision. Defined.

Definition read_payload (b : bytes) : option TicketPayload :=
  match b with
  | v :: who :: ceil :: file =>
      Some {| tk_file := file; verb := if decide (v = 0) then Read else Write; ceiling := ceil;
              expiry := 1000; tk_caller := caller_of who |}
  | _ => None
  end.

Definition write_payload (p : TicketPayload) : option bytes :=
  let b := (if decide (verb p = Read) then 0 else 1) ::
           (if decide (tk_caller p = caller_of 0) then 0 else 1) :: ceiling p :: tk_file p in
  if decide (read_payload b = Some p) then Some b else None.

#[local] Instance demo_tickets : TicketCodec := {|
  b64_decode := fun l => of_text l;
  ed25519_verifies := fun public msg sig => bool_decide (sig = public ++ msg);
  payload_from_bytes := read_payload;
|}.

#[local] Instance demo_signing : TicketSigning := {|
  SigningKey := bytes; b64_encode := fun b => to_text b; public_key := id; sign := fun k msg => k ++ msg;
  payload_to_bytes := write_payload |}.

Definition demo_cfg : FileConfig := {|
  fc_settings := {| user_setting := "app.user"; subjects_setting := "app.subjects"; separator := "," |};
  fc_marker := "marker";
  fc_quotas := {| identity_quota := 20; storage_ceiling := 0; bandwidth_ceiling := 0; window_days := 30;
                  refresh_secs := 10 |};
  fc_public := [7]; fc_store := Fs; fc_grace := 50 |}.

Definition ticket_for (v who : Z) (file : bytes) : bytes :=
  let payload := v :: who :: 100 :: file in to_text payload ++ [46] ++ to_text (7 :: payload).

Definition part_a : bytes := [1; 2; 3].
Definition part_b : bytes := [4; 5].
Definition file_ab : bytes := blake3 (part_a ++ part_b).

Definition intent_move (who : Z) (file : bytes) (parts : list bytes) : Move :=
  MIntent (ticket_for 1 who file) (hex_32 file)
    {| ir_total := foldr Z.add 0 ((fun p => Z.of_nat (length p)) <$> parts);
       ir_chunks := (fun p => (hex_32 (blake3 p), Z.of_nat (length p))) <$> parts |} 100 Carried.
Definition put_move (who : Z) (file part : bytes) : Move :=
  MPut (hex_32 (blake3 part)) (ticket_for 1 who file) part 100 true Carried.
Definition commit_move (who : Z) (file : bytes) : Move :=
  MCommit (ticket_for 1 who file) (hex_32 file) 100 0 (fun _ => true) Carried.

Definition alice_uploads : list Move :=
  [intent_move 0 file_ab [part_a; part_b]; put_move 0 file_ab part_a; put_move 0 file_ab part_b; commit_move 0 file_ab].

Definition untold : App := [].
Abbreviation uploaded := (moves demo_cfg alice_uploads (blank untold 100)).
Definition alice_ab : ManifestKey := (file_ab, "user:alice"%string).

Lemma uploads_solo : solo demo_cfg alice_uploads (blank untold 100) = true.
Proof. vm_compute. reflexivity. Qed.

Lemma uploaded_committed : is_committed alice_ab (db uploaded) = true.
Proof. vm_compute. reflexivity. Qed.

Lemma uploaded_held : forallb (fun h => has_chunk h (chunks uploaded)) (manifest_chunk_pairs alice_ab (db uploaded)).*1 = true.
Proof. vm_compute. reflexivity. Qed.

Lemma held_all (l : list bytes) (s : ChunkMap) (h : bytes) : forallb (fun h => has_chunk h s) l = true -> h ∈ l -> is_Some (s !! h).
Proof.
  rewrite forallb_forall. intros H Hh%list_elem_of_In%H. unfold has_chunk in Hh. by apply bool_decide_eq_true in Hh.
Qed.

Lemma committed_row (k : ManifestKey) (d : FileDb) : is_committed k d = true -> exists m, manifests d !! k = Some m /\ committed m = true.
Proof. unfold is_committed. destruct (manifests d !! k) as [m|]; [by exists m|done]. Qed.

Lemma committed_files_whole_witness :
  solo demo_cfg alice_uploads (blank untold 100) = true /\
  (blake3_collision \/ exists content,
     read_all (fun _ => true) (manifest_chunk_pairs alice_ab (db uploaded)) (chunks uploaded) = Ok content /\
     blake3 content = alice_ab.1).
Proof.
  split; [exact uploads_solo|]. destruct (committed_row _ _ uploaded_committed) as (m & Hm & Hc).
  refine (proj2 (committed_files_whole demo_cfg untold 100 alice_uploads alice_ab m uploads_solo Hm Hc) _).
  intros h. exact (held_all _ _ h uploaded_held).
Defined.

Lemma quota_kept_witness :
  existsb reconciles alice_uploads = false /\ held_bytes "user:alice" (db uploaded) <= 20.
Proof.
  split; [reflexivity|].
  apply (quota_kept demo_cfg); [split; [reflexivity|vm_compute; discriminate]|reflexivity].
Defined.

(** A ranged read of the file. *)
Definition some_bytes : option bytes := Some [98; 121; 116; 101; 115; 61; 49; 45; 51].

Abbreviation reading := (get_file demo_cfg (hex_32 file_ab) (ticket_for 0 0 file_ab) some_bytes uploaded).

(** Bytes one to three. *)
Example range_served :
  match reading with
  | Ok r => body_of (fun h => read_chunk h (chunks uploaded)) r
  | Err _ => ([], false)
  end = ([2; 3; 4], true).
Proof. vm_compute. reflexivity. Qed.

Lemma reading_ok : match reading with Ok r => fr_length r | Err _ => 0 end = 3.
Proof. vm_compute. reflexivity. Qed.

Lemma download_exact_witness :
  exists r content, reading = Ok r /\ fr_length r = 3 /\
    Z.of_nat (length (slice (bounds r).1 (bounds r).2 content)) = fr_length r.
Proof.
  pose proof reading_ok as H. destruct reading as [r|e] eqn:E; [|discriminate].
  destruct (download_exact demo_cfg untold 100 alice_uploads _ _ _ r uploads_solo E)
    as (t & content & _ & _ & _ & _ & _ & Hl & _).
  exists r, content. exact (conj eq_refl (conj H Hl)).
Defined.

(** The upload, its chunks put and its commit still to come. *)
Abbreviation staged := (moves demo_cfg (firstn 3 alice_uploads) (blank untold 100)).

Definition token_ab : bytes := ticket_for 1 0 file_ab.

Abbreviation committing := (post_commit demo_cfg token_ab (hex_32 file_ab) (fun _ => true) Carried [] [] [] staged).

Lemma staged_committer : committer demo_cfg token_ab (hex_32 file_ab) (fw_clock staged) = Ok (caller_of 0, alice_ab, ["alice"%string]).
Proof. vm_compute. reflexivity. Qed.

Lemma staged_open : is_committed alice_ab (db staged) = false /\ is_lost alice_ab (db staged) = false.
Proof. vm_compute. split; reflexivity. Qed.

Lemma committing_commits : is_committed alice_ab (db committing.2) = true.
Proof. vm_compute. reflexivity. Qed.

Lemma commit_proves_possession_witness :
  is_committed alice_ab (db committing.2) = true /\
  forall r, r ∈ manifest_rows alice_ab (db committing.2) ->
    stored r = true \/ seen_in_file demo_cfg (caller_of 0) (chunk_hash r) (db staged).
Proof.
  split; [exact committing_commits|].
  exact (commit_proves_possession demo_cfg token_ab (hex_32 file_ab) (fun _ => true) Carried [] [] [] staged
           (caller_of 0) alice_ab ["alice"%string] staged_committer (proj1 staged_open) (proj2 staged_open)
           eq_refl committing_commits).
Defined.

(** An upload left open past the grace, and the sweep after it. *)
Abbreviation abandoned := (moves demo_cfg [intent_move 0 file_ab [part_a; part_b]; put_move 0 file_ab part_a; MTick 60] (blank untold 100)).

Lemma abandoned_swept :
  match sweep demo_cfg (fun _ => true) abandoned with
  | (Ok n, w) => (n, size (manifests (db w)), size (chunk_registry (db w)), size (chunks w))
  | (Err _, _) => (0, 9, 9, 9)%nat
  end = (3, 0, 0, 0)%nat.
Proof. vm_compute. reflexivity. Qed.

Lemma sweep_collects_witness :
  exists n w', sweep demo_cfg (fun _ => true) abandoned = (Ok n, w') /\ n = 3%nat /\
    forall h, is_Some (chunk_registry (db w') !! h) -> referenced h (db w') = true.
Proof.
  pose proof abandoned_swept as H. destruct (sweep demo_cfg (fun _ => true) abandoned) as [[n|e] w'] eqn:E; [|discriminate].
  exists n, w'. injection H as -> _ _ _.
  exact (conj eq_refl (conj eq_refl (proj1 (sweep_collects demo_cfg (fun _ => true) abandoned 3 w' E)))).
Defined.

(** ** Where the promises end *)

Definition held (part : bytes) (w : FileWorld) : bool := has_chunk (blake3 part) (chunks w).

(** Two sweeps list the same chunks. The first deletes them, the file is uploaded
    anew and committed, and the second deletes its bytes: no guard of the second
    looks at the row again. *)
Definition two_sweeps : list Move :=
  [intent_move 0 file_ab [part_a; part_b]; put_move 0 file_ab part_a; MTick 60; MSweepMark; MSweepList; MSweepList;
   MSweepDrop 0 Carried; MSweepForget 0; MSweepDrop 0 Carried; MSweepForget 0] ++ alice_uploads ++ [MSweepDrop 1 Carried].

Example sweeps_overlap_lose :
  let w := moves demo_cfg two_sweeps (blank untold 100) in
  (is_committed alice_ab (db w), held part_a w && held part_b w, bool_decide (astray w = ∅)) = (true, false, true).
Proof. vm_compute. reflexivity. Qed.

(** A boot pass with nobody else at work, at which nothing fails. *)
Definition booted (w : FileWorld) : FileWorld := (reconcile_store demo_cfg (replicate 12 Carried) w).2.

(** A boot pass lists a chunk, a sweep collects it, and the pass reads the registry
    without it: the pass takes the chunk for an orphan. *)
Definition overtaken_pass : list Move :=
  [intent_move 0 file_ab [part_a; part_b]; put_move 0 file_ab part_a; MTick 60; MBootList;
   MSweepMark; MSweepList; MSweepDrop 0 Carried; MSweepForget 0; MSweepDrop 0 Carried; MSweepForget 0; MSweepEnd 0;
   MBoot BRead 0 Carried].

(** The file is uploaded again first: the claim finds the new row and the bytes stay. *)
Definition claim_meets_upload : list Move :=
  overtaken_pass ++ alice_uploads ++ [MBoot BClaim 0 Carried; MBoot BDrop 0 Carried; MBoot BForget 0 Carried].

Example claim_spares_upload :
  let w := moves demo_cfg claim_meets_upload (blank untold 100) in
  (solo demo_cfg claim_meets_upload (blank untold 100),
   stage <$> boots (moves demo_cfg overtaken_pass (blank untold 100)),
   is_committed alice_ab (db w), held part_a w) = (true, [Looking [blake3 part_a]], true, true).
Proof. vm_compute. reflexivity. Qed.

(** Between the claim of a pass and its deletion another replica's sweep lists the
    chunk as one of its own. The pass deletes it, the file is uploaded and committed,
    and the sweep deletes its bytes. *)
Definition sweep_meets_claim : list Move :=
  overtaken_pass ++ [MBoot BClaim 0 Carried; MSweepMark; MSweepList; MBoot BDrop 0 Carried; MBoot BForget 0 Carried] ++
  alice_uploads ++ [MSweepDrop 0 Carried].

Example sweep_takes_claim :
  let w := moves demo_cfg sweep_meets_claim (blank untold 100) in
  (is_committed alice_ab (db w), held part_a w, bool_decide (astray w = ∅)) = (true, false, true).
Proof. vm_compute. reflexivity. Qed.

Definition part_c : bytes := [6].
Definition file_ac : bytes := blake3 (part_a ++ part_c).
Definition alice_ac : ManifestKey := (file_ac, "user:alice"%string).

(** A second file shares a chunk with the first and is not asked for it; then the
    store loses the chunk. The boot pass marks the first file lost and leaves the
    second committed, and the chunk is not asked for again, of either file. *)
Definition shared_chunk_lost : FileWorld :=
  booted (moves demo_cfg (alice_uploads ++ [intent_move 0 file_ac [part_a; part_c]; put_move 0 file_ac part_c;
                                            commit_move 0 file_ac; MLose (blake3 part_a)]) (blank untold 100)).

Definition asked (file : bytes) (parts : list bytes) (w : FileWorld) : list bytes :=
  needed_hashes demo_cfg (caller_of 0) ((fun p => (blake3 p, Z.of_nat (length p))) <$> parts) (file, "user:alice"%string) (db w).

Example dedup_escapes_reconcile :
  let w := shared_chunk_lost in
  (held part_a w, is_lost alice_ab (db w), is_committed alice_ac (db w), is_lost alice_ac (db w),
   asked file_ac [part_a; part_c] w, asked file_ab [part_a; part_b] w) = (false, true, true, false, [], []).
Proof. vm_compute. reflexivity. Qed.

(** A commit looks at the chunks before its caller has declared any, the caller
    declares, and the commit goes on: the file is the caller's without a byte of it. *)
Example commit_without_bytes :
  let r := post_commit demo_cfg (ticket_for 1 1 file_ab) (hex_32 file_ab) (fun _ => true) Carried
             [intent_move 1 file_ab [part_a; part_b]] [] [] uploaded in
  (match r.1 with Ok _ => true | Err _ => false end, is_committed (file_ab, "user:bob"%string) (db r.2),
   file_visible_to_caller demo_cfg file_ab (caller_of 1) (db uploaded),
   file_visible_to_caller demo_cfg file_ab (caller_of 1) (db r.2)) = (true, true, false, true).
Proof. vm_compute. reflexivity. Qed.

(** A caller who declared nothing is answered that the commit is done. *)
Example undeclared_commit_answers :
  (post_commit demo_cfg (ticket_for 1 1 file_ab) (hex_32 file_ab) (fun _ => true) Carried [] [] [] uploaded).1 = Ok tt.
Proof. vm_compute. reflexivity. Qed.

Definition file_aa : bytes := blake3 (part_a ++ part_a).

(** A chunk a file names twice is tallied once when it is put and twice when it is
    lost. *)
Example lost_twice_tallied :
  let w := booted (moves demo_cfg [intent_move 0 file_aa [part_a; part_a]; put_move 0 file_aa part_a; commit_move 0 file_aa;
                                   MLose (blake3 part_a)] (blank untold 100)) in
  (fun m => (lost m, accepted_bytes m)) <$> manifests (db w) !! (file_aa, "user:alice"%string) = Some (true, -3).
Proof. vm_compute. reflexivity. Qed.

(** ** A file that travels *)

(** Pieces of the largest size. *)
Fixpoint pieces (fuel n : nat) (l : bytes) : list bytes :=
  match fuel, l with
  | S fuel', _ :: _ => firstn n l :: pieces fuel' n (skipn n l)
  | _, _ => []
  end.

Lemma pieces_concat fuel n l : (0 < n)%nat -> (length l <= fuel)%nat -> concat (pieces fuel n l) = l.
Proof.
  intros Hn. revert l. induction fuel as [|fuel IH]; intros l Hl; [destruct l; [done|simpl in Hl; lia]|]. destruct l as [|x l]; [done|].
  cbn [pieces concat]. rewrite IH; [apply firstn_skipn|]. rewrite length_skipn. simpl in *. lia.
Qed.

Lemma pieces_size fuel n l d : d ∈ pieces fuel n l -> (length d <= n)%nat.
Proof.
  revert l. induction fuel as [|fuel IH]; intros [|x l]; try by intros ?%elem_of_nil.
  cbn [pieces]. intros [->|Hd]%elem_of_cons; [rewrite length_firstn; lia|by eapply IH].
Qed.

Definition demo_cdc (lo av hi : Z) (r : Reader) : list (Result bytes ReadError) :=
  match stream r with
  | Ok content => Ok <$> pieces (length content) (Z.to_nat (Z.max 1 hi)) content
  | Err e => [Err e]
  end.

Lemma demo_cdc_covers lo av hi r ds : steady r -> demo_cdc lo av hi r = Ok <$> ds -> stream r = Ok (concat ds).
Proof.
  intros _. unfold demo_cdc. destruct (stream r) as [content|e].
  - intros H. f_equal. assert (forall l l' : list bytes, Ok (E := ReadError) <$> l = Ok <$> l' -> l = l') as Hi.
    { induction l as [|x l IH]; intros [|y l'] He; try done. injection He as -> He. f_equal. by apply IH. }
    apply Hi in H. rewrite <- H, pieces_concat; [done|lia|lia].
  - destruct ds; done.
Qed.

Lemma demo_cdc_max lo av hi r d : 0 < hi -> Ok d ∈ demo_cdc lo av hi r -> Z.of_nat (length d) <= hi.
Proof.
  intros Hh. unfold demo_cdc. destruct (stream r) as [content|e].
  - intros (x & [= ->] & Hx)%list_elem_of_fmap. apply pieces_size in Hx. lia.
  - intros Hx%list_elem_of_singleton. done.
Qed.

#[local] Instance demo_fastcdc : Fastcdc.
Proof.
  refine {| stream_cdc := demo_cdc; cdc_covers := demo_cdc_covers; cdc_max := demo_cdc_max |}.
  intros lo av hi r content _ Hc. unfold demo_cdc. rewrite Hc. eauto.
Defined.

#[local] Instance demo_urls : UrlParser := {|
  parse_address := fun _ => Some {| scheme := "https"; host := None; username := ""; password := None; query := None; fragment := None |} |}.

#[local] Instance demo_json : IntentJson := {|
  intent_to_vec := fun r => Some (to_text (ir_total r, ir_chunks r));
  intent_from_slice := fun b => (fun x => {| ir_total := x.1; ir_chunks := x.2 |}) <$> of_text (A := Z * list (bytes * Z)) b;
  needed_to_vec := fun l => to_text l;
  needed_from_slice := fun b => of_text b |}.

Definition demo_base : bytes := text "https://files".

(** The paths of the router, by their prefixes and suffixes. *)
Definition demo_route (url : bytes) : option HttpRoute :=
  path ← strip_bytes demo_base url;
  '(path, tok) ← split_text (text "?t=") path;
  match strip_bytes (text "/chunks/") path with
  | Some hex => Some (RChunk hex tok)
  | None =>
      path ← strip_bytes (text "/files/") path;
      match strip_suffix (text "/intent") path, strip_suffix (text "/commit") path with
      | Some hex, _ => Some (RIntent hex tok)
      | None, Some hex => Some (RCommit hex tok)
      | None, None => Some (RFile path tok)
      end
  end.

#[local] Instance demo_routing : Routing := {|
  route := demo_route; rejected := 404; range_header := fun _ => [] |}.

Definition open_cfg : FileConfig := {|
  fc_settings := fc_settings demo_cfg; fc_marker := "marker";
  fc_quotas := {| identity_quota := 0; storage_ceiling := 0; bandwidth_ceiling := 0; window_days := 30; refresh_secs := 10 |};
  fc_public := [7]; fc_store := Object; fc_grace := 50 |}.

Definition demo_signer : TicketSigner :=
  {| key_pair := [7] : SigningKey; base_url := demo_base; ticket_ttl := 900; read_ceiling := 100 |}.

Lemma routed (path suffix hex tok : bytes) :
  63 ∉ hex -> 63 ∉ path -> 63 ∉ suffix ->
  demo_route (demo_base ++ path ++ hex ++ suffix ++ text "?t=" ++ tok) =
    match strip_bytes (text "/chunks/") (path ++ hex ++ suffix) with
    | Some hex => Some (RChunk hex tok)
    | None =>
        path ← strip_bytes (text "/files/") (path ++ hex ++ suffix);
        match strip_suffix (text "/intent") path, strip_suffix (text "/commit") path with
        | Some hex, _ => Some (RIntent hex tok)
        | None, Some hex => Some (RCommit hex tok)
        | None, None => Some (RFile path tok)
        end
    end.
Proof.
  intros H1 H2 H3. unfold demo_route. rewrite strip_bytes_app. cbn [mbind option_bind].
  replace (path ++ hex ++ suffix ++ text "?t=" ++ tok) with ((path ++ hex ++ suffix) ++ (63 :: text "t=") ++ tok)
    by (rewrite <- !app_assoc; done).
  change (text "?t=") with (63 :: text "t="). rewrite split_text_app; [done|]. rewrite !elem_of_app. naive_solver.
Qed.

Lemma suffix_free (hex : bytes) (p : bytes) : Forall hex_lower hex -> strip_suffix (p ++ [116]) hex = None.
Proof.
  intros HF. unfold strip_suffix. rewrite rev_app_distr. simpl.
  assert (Forall hex_lower (rev hex)) as HR.
  { apply Forall_forall. intros x Hx%list_elem_of_In%in_rev%list_elem_of_In. rewrite Forall_forall in HF. by apply HF. }
  destruct HR as [|x l Hx _]; [done|]. simpl. rewrite decide_False; [done|]. unfold hex_lower in Hx. lia.
Qed.

Lemma demo_routes x tok :
  Forall is_byte x ->
  let e := {| base := demo_base; token := tok |} in
  demo_route (intent_address demo_base x tok) = Some (RIntent (hex_32 x) tok) /\
  demo_route (chunk_address e (hex_32 x)) = Some (RChunk (hex_32 x) tok) /\
  demo_route (commit_address e x) = Some (RCommit (hex_32 x) tok) /\
  demo_route (read_address demo_base x tok) = Some (RFile (hex_32 x) tok).
Proof.
  intros Hx e. pose proof (hex_digits x Hx) as HF. assert (63 ∉ hex_32 x) as Hn.
  { rewrite Forall_forall in HF. intros Hin%HF. unfold hex_lower in Hin. lia. }
  unfold intent_address, chunk_address, commit_address, read_address. cbn [base token e]. split_and!.
  - change (text "/intent?t=" ++ tok) with (text "/intent" ++ text "?t=" ++ tok).
    rewrite routed by (try done; vm_compute; set_solver).
    change (strip_bytes (text "/chunks/") (text "/files/" ++ hex_32 x ++ text "/intent")) with (@None bytes).
    rewrite strip_bytes_app. cbn [mbind option_bind]. by rewrite strip_suffix_app.
  - change (text "?t=" ++ tok) with ([] ++ text "?t=" ++ tok). rewrite routed by (try done; vm_compute; set_solver).
    rewrite strip_bytes_app. by rewrite app_nil_r.
  - change (text "/commit?t=" ++ tok) with (text "/commit" ++ text "?t=" ++ tok).
    rewrite routed by (try done; vm_compute; set_solver).
    change (strip_bytes (text "/chunks/") (text "/files/" ++ hex_32 x ++ text "/commit")) with (@None bytes).
    rewrite strip_bytes_app. cbn [mbind option_bind]. rewrite strip_suffix_app.
    assert (strip_suffix (text "/intent") (hex_32 x ++ text "/commit") = None) as ->; [|done].
    unfold strip_suffix. rewrite rev_app_distr. done.
  - change (text "?t=" ++ tok) with ([] ++ text "?t=" ++ tok). rewrite routed by (try done; vm_compute; set_solver).
    change (strip_bytes (text "/chunks/") (text "/files/" ++ hex_32 x ++ [])) with (@None bytes).
    rewrite strip_bytes_app, app_nil_r. cbn [mbind option_bind].
    change (text "/intent") with (text "/inten" ++ [116]). change (text "/commit") with (text "/commi" ++ [116]).
    by rewrite !suffix_free.
Qed.

Lemma demo_setting : Setting open_cfg demo_signer.
Proof.
  split.
  - intros b. split.
    + apply Forall_app. split; [|constructor; [unfold is_byte; apply Z.mod_pos_bound; lia|constructor]].
      apply Forall_fmap, Forall_true. intros x. apply Z.mod_pos_bound. lia.
    + unfold blake3, demo_blake3. rewrite length_app, length_fmap, length_firstn, length_app, repeat_length. cbn [length]. lia.
  - reflexivity.
  - simpl. lia.
  - split; [done|]. vm_compute. set_solver.
  - intros file tok _. split; by eexists.
  - intros x tok Hx _. by apply demo_routes.
  - intros x. split; [apply of_to_text|apply bits_chars].
  - intros k m. simpl. by apply bool_decide_eq_true.
  - intros p b. simpl. unfold write_payload. case_decide as H; [|done]. by intros [= <-].
  - intros [total l] b Hb. assert (to_text (total, l) = b) as <- by (by apply (inj Some)).
    unfold intent_from_slice, demo_json. by rewrite of_to_text.
  - intros l. apply of_to_text.
  - intros a b l f. simpl. rewrite !list_elem_of_filter, list_elem_of_singleton. naive_solver.
Qed.

(** Bob reads the file in two bursts and uploads it where Alice already has, in other
    chunks. *)
Definition bursts : Reader := [Ok part_a; Ok part_b].
Definition bob_manifest : Manifest := {| file_id := file_ab; manifest_metas := [(blake3 (part_a ++ part_b), 5)] |}.
Abbreviation shelf := (moves open_cfg alice_uploads (blank untold 100)).
Definition bob_shelf : gmap bytes bytes := {[ blake3 (part_a ++ part_b) := part_a ++ part_b ]}.

Lemma bob_processed : process_file_from_reader bursts Csv (∅ : gmap bytes bytes) = (Ok bob_manifest, bob_shelf).
Proof. vm_compute. reflexivity. Qed.

Definition bob_grant : bytes := Eval vm_compute in
  default [] (mint_content demo_signer (caller_of 1) file_ab (CWrite 5) 100).

Lemma bob_minted : mint_content demo_signer (caller_of 1) file_ab (CWrite 5) (fw_clock shelf) = Some bob_grant.
Proof. vm_compute. reflexivity. Qed.

Lemma none_lost (k : ManifestKey) (d : FileDb) :
  forallb (fun q => negb (lost q.2)) (map_to_list (manifests d)) = true -> is_lost k d = false.
Proof.
  rewrite forallb_forall. intros H. unfold is_lost. destruct (manifests d !! k) as [m|] eqn:E; [|done].
  apply elem_of_map_to_list, list_elem_of_In, H in E. simpl in E. by destruct (lost m).
Qed.

Lemma shelf_facts :
  solo open_cfg alice_uploads (blank untold 100) = true /\
  forallb (fun q => negb (lost q.2)) (map_to_list (manifests (db shelf))) = true /\
  forallb (fun h => negb (bool_decide (chunk_registry (db shelf) !! h = Some Deleting))) (manifest_metas bob_manifest).*1 = true /\
  match manifests (db shelf) !! (file_ab, "user:bob"%string) with Some _ => false | None => true end = true /\
  bool_decide (Z.of_nat (length (to_text (ir_total (intent_of bob_manifest), ir_chunks (intent_of bob_manifest)))) <= INTENT_LIMIT) = true.
Proof. vm_compute. split_and!; reflexivity. Qed.

Lemma shelf_welcomes : Welcome open_cfg (caller_of 1) bob_manifest 5 shelf.
Proof.
  destruct shelf_facts as (_ & F2 & F3 & F4 & F5). split.
  - split_and!; reflexivity.
  - exists "user:bob"%string. split; [reflexivity|]. change (file_id bob_manifest) with file_ab.
    destruct (manifests (db shelf) !! (file_ab, "user:bob"%string)); [discriminate|reflexivity].
  - intros h Hh. rewrite forallb_forall in F3. apply list_elem_of_In, F3, negb_true_iff, bool_decide_eq_false in Hh. exact Hh.
  - intros o. apply none_lost. exact F2.
  - intros o a. eexists. reflexivity.
  - split; [vm_compute; discriminate|]. simpl. lia.
  - eexists. split; [reflexivity|]. apply bool_decide_eq_true in F5. exact F5.
Qed.


(** And it does so here: Bob's upload, and Alice's download of it. *)
Definition alice_url : bytes := Eval vm_compute in default [] (mint_content demo_signer (caller_of 0) file_ab CRead 100).

Example bob_to_alice :
  let '(r, w) := upload (HT := served open_cfg) bob_grant bob_manifest bob_shelf shelf in
  (match r with Ok _ => true | Err _ => false end,
   match (download (HT := served open_cfg) alice_url w).1 with Ok b => b | Err _ => [] end) = (true, [1; 2; 3; 4; 5]).
Proof. vm_compute. reflexivity. Qed.

Lemma process_reassembles_witness :
  steady bursts /\ (blake3_collision \/ reassemble bob_manifest bob_shelf = Ok (part_a ++ part_b)).
Proof.
  assert (steady bursts) as Hs by (repeat constructor; discriminate). split; [exact Hs|].
  exact (proj2 (proj2 (proj2 (process_reassembles bursts Csv ∅ (part_a ++ part_b) Hs eq_refl) bob_manifest bob_shelf bob_processed))).
Defined.
