(* ===== verification/DemoWatch.v ===== *)
(** A client with one synced table, on which the theorems on subscriptions are applied,
    and histories that show where what the code says of them ends. *)

From Stdlib Require Import ZArith Lia Ascii String.
From stdpp Require Import base numbers option list gmap fin_maps strings pretty sorting.
From S2P Require Import Prelude Backoff Pending QueryText Subs Rested Watch Served Evicted.

Open Scope Z_scope.

#[export] Program Instance demo_floats : FloatText := {| f64_debug := fun _ => "1.5"%string |}.
Next Obligation.
  intros bits c _. revert c. apply (Forall_forall (fun c => c ∈ list_ascii_of_string "0123456789.-+eE")).
  repeat constructor; by apply bool_decide_eq_true_1.
Qed.

Definition notes : string := "notes".
Definition all_notes : string := "SELECT * FROM notes".
Definition note_one : string := "SELECT * FROM notes WHERE id = 1".
Definition note_like : string := "SELECT * FROM notes WHERE score < 1.5".
Definition count_notes : string := "SELECT count(*) FROM notes".

Definition select_notes (condition : option string) : list Statement :=
  [QueryStmt (SelectBody {|
     se_projection := [OtherItem]; se_from := [{| tj_relation := Table_ [Some notes]; tj_joins := [] |}];
     se_selection := OtherExpr <$> condition; se_group_by := Expressions [] [] |})].
Definition select_count : list Statement :=
  [QueryStmt (SelectBody {|
     se_projection := [UnnamedExpr (Function_ [Some "count"%string] "*")];
     se_from := [{| tj_relation := Table_ [Some notes]; tj_joins := [] |}];
     se_selection := None; se_group_by := Expressions [] [] |})].

#[export] Instance demo_parser : Sqlparser := {|
  parse_sql sql :=
    if String.eqb sql all_notes then Some (select_notes None)
    else if String.eqb sql note_one then Some (select_notes (Some "id = 1"%string))
    else if String.eqb sql "SELECT * FROM notes WHERE score < ?" then Some (select_notes (Some "score < ?"%string))
    else if String.eqb sql note_like then Some (select_notes (Some "score < 1.5"%string))
    else if String.eqb sql count_notes then Some select_count
    else None;
  visit_relations _ := [[Some notes]];
  display e := match e with OtherExpr text => text | _ => EmptyString end;
|}.

(** A row is its key. *)
#[export] Instance demo_store : Store := {|
  Row := Z;
  truth condition r :=
    if String.eqb condition "id = 1" then Some (bool_decide (r = 1)) else
    if String.eqb condition ("(" ++ quote_ident "id" ++ " IS 3)")%string then Some (bool_decide (r = 3)) else None;
  replica_columns _ := ["id"%string];
  physical _ := None;
  parse_diffset b := match b with
                     | [k] => Some (Some [{| ch_table := notes; ch_ordinals := [0%nat]; ch_key := [Integer k] |}])
                     | _ => None
                     end;
|}.

#[export] Instance demo_json : Json := {|
  from_str s := if String.eqb s "[7,8]" then Some (JArray ["7"; "8"]%string) else Some (JOther s) |}.

(** ** A run *)

Definition fresh_conn : Conn := {|
  tables := no_subs; rows := {[notes := [1; 2; 3]]}; pending := [[3]]; connected := false; claimed := true;
  has_cursor := true; open_snapshots := ∅; unfenced_computed := ∅; unfenced_count := 0; resyncing := ∅;
  clock := 1000; faults := []; log := [] |}.
Definition started : State := restart fresh_conn ∅.
Definition later (secs : Z) (s : State) : State := set_conn (set_clock (clock (conn s) + secs) (conn s)) s.
Definition failing (fs : list bool) (s : State) : State := set_conn (set_faults fs (conn s)) s.
Definition run {A} (m : WM State A) (s : State) : State := (m s).2.

Definition online : State := run attach started.
Definition watching : State := run (register_watch all_notes [] DEFAULT_GRACE) online.
Definition let_go : State := run drain_dropped (drop_handle "live-1" watching).

(** What is declared on a connection, and the ids on record. *)
Definition holds (s : State) : list string := elements (declared_on (log (conn s))).
Definition on_record (s : State) : list string := (by_id (book (tables (conn s)))).*1.

(** ** The theorems, applied *)

Lemma fresh_openable : openable fresh_conn.
Proof.
  split; [apply no_subs_ok|done|done|]. intros id n Hid. cbn in Hid. rewrite lookup_empty in Hid. by destruct Hid.
Qed.

Lemma attached : all_wanted started /\ (attach started).1 = Ok tt.
Proof. split; [intros w e Hw; by apply elem_of_nil in Hw|vm_compute; reflexivity]. Qed.

Lemma room_left : room all_notes online.
Proof.
  intros parsed H. assert (parse_subscription all_notes = Ok {| ps_tables := {[notes]}; ps_shape := Rows; ps_group_columns := [] |}) as E
    by (vm_compute; reflexivity).
  rewrite E in H. injection H as <-. by vm_compute.
Qed.

Lemma runs_to_watching : rtc live_step started watching.
Proof.
  eapply rtc_l; [apply ls_attach; apply attached|].
  apply rtc_once, ls_watch; [by split|done|apply room_left].
Qed.

Lemma one_handle : registry watching = [("live-1"%string, ["wire-1"%string])].
Proof. vm_compute. reflexivity. Qed.


Lemma watching_in_order : subs_ok (tables (conn watching)) /\ clock_ok (clock (conn watching)).
Proof.
  assert (in_step watching) as Hs.
  { eapply live_step_in_step; [eapply live_step_in_step|]; [apply (restart_in_step fresh_conn ∅), fresh_openable| |].
    - apply ls_attach; apply attached.
    - apply ls_watch; [by split|done|apply room_left]. }
  split; [apply (is_ok _ _ Hs)|apply (is_clock _ _ Hs)].
Qed.

Lemma rows_evicted : rows (evict_subscription_rows "wire-1" (conn watching)).2 !! notes = Some [3].
Proof. vm_compute. reflexivity. Qed.

Lemma eviction_spares_wanted_witness :
  rows (conn watching) !! notes = Some [1; 2; 3] /\
  rows (evict_subscription_rows "wire-1" (conn watching)).2 !! notes = Some [3] /\
  rows_spared (conn watching) "wire-1" (evict_subscription_rows "wire-1" (conn watching)).1
    (rows (evict_subscription_rows "wire-1" (conn watching)).2).
Proof.
  split; [vm_compute; reflexivity|]. split; [exact rows_evicted|].
  apply (eviction_spares_wanted (conn watching) "wire-1"); apply watching_in_order.
Defined.

(** Two subscriptions of one text, one pinned, one forgotten. *)
Definition by_score (bits : Z) : SubscriptionSpec :=
  with_binds [Real bits; Text "it's"] (spec_new "SELECT * FROM notes WHERE score < ? AND tag = ?").
Definition history : list SubOp :=
  [ORemember "wire-1" (by_score 1) DEFAULT_GRACE; ORemember "wire-2" (by_score 2) (900 * NANOS_PER_SEC);
   ORelease 1000 "wire-1"; OSetPin "kept" "wire-2"; OAnchor 1100; OForget "wire-3"]%string.
Definition history_result : SubTables := match run_ops history no_subs with Ok t => t | Err _ => no_subs end.

Lemma history_ok : Forall op_ok history /\ run_ops history no_subs = Ok history_result.
Proof.
  split; [|vm_compute; reflexivity].
  repeat constructor; cbn; try done; rewrite ?Forall_cons; repeat split; done.
Qed.

Lemma history_pins : pins_kept history ∅.
Proof.
  cbn [pins_kept history]. split_and!; try (by intros []); try done.
  intros (e & n & He & Hp & _). vm_compute in He. injection He as <-. discriminate Hp.
Qed.

Lemma tables_refine_book_witness :
  let b := foldl (fun b op => book_op op b) ∅ history in
  (exists ds, declared 1301 history_result = Ok ds /\ ds ≡ₚ declare 1301 <$> map_to_list b) /\
  expired 1301 history_result = ["wire-1"%string] /\ length (map_to_list (query_text history_result)) = 1%nat.
Proof.
  destruct (tables_refine_book history history_result 1301) as (_ & Hd & _);
    [apply history_ok|exact history_pins|by vm_compute|apply history_ok|].
  split; [exact Hd|]. split; vm_compute; reflexivity.
Defined.

Definition counting : SubscriptionSpec := spec_new count_notes.
Definition counted : SubTables := match remember "wire-1" counting 0 no_subs with Ok t => t | Err _ => no_subs end.
Definition whole : AggregateFrame :=
  {| af_group_key := None; af_group_values := None; af_result := Some "[7,8]"%string; af_full := true |}.
Definition rested : SubTables := match apply_frame 1 [] whole 1000 counted with Ok t => t | Err _ => counted end.
Definition counting_entry : Entry := {| en_spec := counting; en_pin := None; en_stopped := None; en_grace := 0 |}.
Definition counting_row : SubRow :=
  {| su_query := 1; su_priority := 1; su_pin := None; su_stopped := None; su_grace := 0 |}.

Lemma counted_ok : subs_ok counted.
Proof. eapply (run_op_in_order (ORemember "wire-1" counting 0) no_subs); [apply no_subs_ok|by split|vm_compute; reflexivity]. Qed.

Lemma counted_facts :
  book counted !! "wire-1"%string = Some counting_entry /\ subscription counted !! "wire-1"%string = Some counting_row /\
  apply_frame 1 [] whole 1000 counted = Ok rested /\
  run_ops [OForget "wire-1"; OAnchor 2000] rested = Ok (anchor_launch 2000 (forget "wire-1" rested)).
Proof. split_and!; vm_compute; reflexivity. Qed.

Lemma whole_ok : frame_ok whole.
Proof. intros json rows [= <-] H. injection H as <-. by vm_compute. Qed.

(** The subscription gone and the client restarted, the answer is still there. *)
Lemma answers_outlive_subscriptions_witness :
  frame_answer whole 1000 (rested_at count_notes (encode_binds []) (anchor_launch 2000 (forget "wire-1" rested)))
    (lookup_scalar count_notes [] (anchor_launch 2000 (forget "wire-1" rested)))
    (lookup_groups count_notes [] (anchor_launch 2000 (forget "wire-1" rested))) /\
  ag_result <$> lookup_groups count_notes [] (anchor_launch 2000 (forget "wire-1" rested)) = ["7"; "8"]%string.
Proof.
  destruct counted_facts as (H1 & H2 & H3 & H4).
  destruct (answers_outlive_subscriptions [OForget "wire-1"; OAnchor 2000] counted "wire-1" counting_entry counting_row
    whole 1000 rested (anchor_launch 2000 (forget "wire-1" rested)) counted_ok H1 H2 whole_ok H3) as (_ & Ha & _);
    [by repeat constructor|exact H4|].
  split; [exact Ha|vm_compute; reflexivity].
Defined.

Definition hostile : list BindValue := [Text "x' OR '?' = '"; Integer (-5); Blob [255; 0]].
Definition guarded : string := "SELECT '?' FROM notes WHERE a = ? AND b = ? AND c = ?".
Definition sealed : string := "SELECT '?' FROM notes WHERE a = 'x'' OR ''?'' = ''' AND b = -5 AND c = X'FF00'".

Lemma inlined_values_sealed_witness :
  inline_binds guarded hostile = Ok sealed /\
  outside None sealed = fill (outside None guarded) (plain_part <$> hostile) /\
  outside None sealed = "SELECT  FROM notes WHERE a =  AND b = -5 AND c = X"%string.
Proof.
  assert (inline_binds guarded hostile = Ok sealed) as H by (vm_compute; reflexivity).
  split; [exact H|]. split; [|vm_compute; reflexivity].
  apply (inlined_values_sealed guarded hostile); [|exact H]. repeat constructor; done.
Defined.

(** ** Where what the code says ends *)

(** A watch let go of, then a longer absence than its grace: attaching forgets the record
    but not the wire subscription, so watching the query again finds it, sends nothing, and
    no later connection declares it. *)
Definition long_away : State := run attach (run drain_dropped (later 301 (disconnect let_go))).
Definition rewatched : State := run (register_watch all_notes [] DEFAULT_GRACE) long_away.

Example expired_offline_strands :
  registry rewatched = [("live-2", ["wire-1"])]%string /\ connected (conn rewatched) = true /\
  holds rewatched = [] /\ on_record rewatched = [] /\ holds (run attach (disconnect rewatched)) = [].
Proof. split_and!; vm_compute; reflexivity. Qed.

(** A pin ended while a handle is open on its query: the next connection forgets the record
    and evicts the rows under the open handle. *)
Definition unpinned_held : State :=
  run (unpin "kept") (run (register_watch all_notes [] DEFAULT_GRACE) (run (pin "kept" all_notes DEFAULT_GRACE) online)).
Definition reconnected : State := run attach (disconnect unpinned_held).

Example unpin_strands_held :
  registry reconnected = [("live-1", ["wire-1"])]%string /\ holds unpinned_held = ["wire-1"%string] /\
  holds reconnected = [] /\ on_record reconnected = [] /\ rows (conn reconnected) !! notes = Some [3].
Proof. split_and!; vm_compute; reflexivity. Qed.

(** The connection dies on the unsubscribe of an expired watch: the record is gone, the
    entry stays, and no drain retries it; watching again is never declared. *)
Definition cut_short : State :=
  run drain_dropped (failing [false; false; false; false; false; false; false; false; false; false; false; true] (later 301 let_go)).
Definition retried : State := run drain_dropped (run attach (disconnect cut_short)).

Example failed_unsubscribe_strands :
  on_record cut_short = [] /\ (ws_id <$> wire retried) = ["wire-1"%string] /\
  holds (run (register_watch all_notes [] DEFAULT_GRACE) retried) = [].
Proof. split_and!; vm_compute; reflexivity. Qed.

(** A pin counts as a sharer nobody ever drops: ended in the run that made it, its
    subscription goes on, however long. *)
Example unpin_keeps_streaming :
  let ended := run (unpin "kept") (run (pin "kept" all_notes DEFAULT_GRACE) online) in
  pins (tables (conn ended)) = [] /\ holds (run drain_dropped (later 100000 ended)) = ["wire-1"%string].
Proof. split; vm_compute; reflexivity. Qed.

(** A second name for a pinned query takes the first one's place. *)
Example second_name_takes_pin :
  pins (tables (conn (run (pin "b" all_notes DEFAULT_GRACE) (run (pin "a" all_notes DEFAULT_GRACE) online)))) =
  [("b"%string, all_notes)].
Proof. vm_compute. reflexivity. Qed.

(** One watch with a value that has no literal, and no watch can be retired: the drain
    ends in an error that stops the pump. *)
Example infinite_value_stops_drain :
  let endless := run (register_watch "SELECT * FROM notes WHERE score < ?" [Real 9218868437227405312] DEFAULT_GRACE) let_go in
  (drain_dropped (later 301 endless)).1 = Err ESession /\ (drain_dropped (later 301 let_go)).1 = Ok tt.
Proof. split; vm_compute; reflexivity. Qed.

(** A watch whose declaration could not be sent is refused, yet stays on record, and the
    next connection declares it for nobody. *)
Example refused_watch_stays :
  let refused := register_watch all_notes [] DEFAULT_GRACE (failing [false; false; false; true] online) in
  refused.1 = Err ETransport /\ wire refused.2 = [] /\ on_record refused.2 = ["wire-1"%string] /\
  holds (run drain_dropped (later 100000 (run attach (disconnect refused.2)))) = ["wire-1"%string].
Proof. split_and!; vm_compute; reflexivity. Qed.

(** Ten subscriptions later the records no longer come in the order they were declared. *)
Example declared_not_in_order :
  let t := match run_ops [ORemember "wire-2" counting 0; ORemember "wire-10" counting 0] no_subs with
           | Ok t => t | Err _ => no_subs end in
  match declared 1000 t with Ok ds => de_sub_id <$> ds | Err _ => [] end = ["wire-10"; "wire-2"]%string.
Proof. vm_compute. reflexivity. Qed.
